(* ===== verification/_CoqProject ===== *)
-Q . S2P
Prelude.v
Text.v
Sanitize.v
Names.v
Env.v
Crypto.v
Codec.v
Format.v
Import.v
Formats.v
Verify.v
VerifyProps.v
KWallet.v
Walk.v
WalkProps.v
Files.v
Sweep.v
Store.v
StoreInv.v
StoreOps.v
StoreKeys.v
StoreProps.v
StoreFrame.v
Search.v
Aliases.v
Session.v
Gnome.v
GnomeProps.v
State.v
Protocol.v
Control.v
Kdf.v
Daemon.v
ImportRun.v
ImportRunProps.v
ImportGnome.v
Prompt.v
PromptProps.v
PromptRelock.v
Bus.v
Handlers.v
Batch.v
BusProps.v
BusCalls.v
Quota.v
Pam.v
PamProps.v
PamHooks.v
Pinentry.v
PinentryProps.v
Config.v
Gpg.v
GpgProps.v
Client.v
Secrets.v
SecretsProps.v
Askpass.v
Ssh.v
VaultCmds.v
VaultCmdsProps.v
GpgCmds.v
Startup.v
Dispatch.v
Fuzz.v
Snapshot.v
Private.v
PrivateProps.v
Wallet.v
