(* ===== verification/Prelude.v ===== *)
(** * Verification of secret-manager

    secret-manager is a Secret Service daemon: it keeps secrets in encrypted
    vault files, one per collection, and serves them on the D-Bus session bus.
    This library models its core (the Rust under [src/src/]) as executable
    definitions and proves what the program relies on.

    ** The program, and which file models which part

    - [Prelude]: Rust's [Result], the [?] operator, [Vec] operations by index,
      little- and big-endian integers, and the shared tactics and hints.
    - [Text]: [char], [str], UTF-8 in both directions, the [str] methods the
      program calls, hexadecimal and decimal, and [BTreeMap] as a [gmap] walked
      in key order.
    - [Sanitize] ([sanitize.rs]; [display_label] of [dbus/prompt.rs];
      [label_excerpt] of [vault/store.rs]): text chosen by a peer, rendered.
    - [Names] ([vault/mod.rs], [dbus/paths.rs]): collection ids, object paths.
    - [Env]: the machine.  A [world] is a filesystem, a counter of requests and
      the filesystems seen so far; a class [Env] answers each request (a fault
      or none, random bytes, a uuid, the time) as any function of the counter.
      A theorem over every [Env] therefore covers every pattern of failures,
      and one about [seen] covers a crash or a reader at every point.
    - [Crypto] ([vault/crypto.rs]): the ceiling on KDF parameters, key
      derivation with its domain separation, sealing and opening.
    - [Codec]: concrete instances of the parameters, for the witnesses.
    - [Format] ([vault/format.rs]): the file layout, the per-item caps, the
      hashed attribute index and its binary search.
    - [Files] ([atomic.rs]; [write_atomic], [publish_new] and their helpers in
      [vault/store.rs]): every request to the filesystem, in order.
    - [Sweep] ([sweep_temp_files] in [vault/store.rs]): removal of what
      interrupted saves leave behind.
    - [Store] ([vault/store.rs]): the [Vault] record and every method of it;
      [StoreInv], [StoreOps], [StoreKeys]: its invariant, what a save does, and
      the outcome of each operation; [StoreProps]: the step relation over all
      operations and the properties.
    - [StoreFrame]: an operation on one vault leaves the other files alone.
    - [Search]: the locked search against the plaintext one.
    - [Aliases] ([dbus/state.rs]; [SetAlias] in [dbus/service.rs]): the alias
      table, its file, and its update as the three critical sections the lock
      divides it into, run under any interleaving of any number of calls.
    - [Session] ([session/mod.rs], [session/dh.rs]): the key exchange and the
      cipher that carries secrets on the bus.
    - [State] ([dbus/state.rs]): scan and merge of the vault directory, the
      choice of collection ids, resolution of paths, search and quotas.
    - [Protocol] ([protocol.rs]): frames of the control socket and the client's
      call under one deadline; a class [Net] answers each request of the call
      as any function of all that went before, so it covers every listener.
    - [Control] ([control/server.rs]): one connection with its time limits, and
      the accept loop as a step relation.
    - [Kdf] ([kdf.rs]; [lock_memory] of [daemon.rs]): the pool that bounds key
      derivations, as a step relation with cancellation.
    - [Daemon] ([daemon.rs]; [dbus/prompt.rs] after the user has answered): the
      control handler, the idle lock, creation and deletion of collections, and
      the step relation of everything that happens to the daemon's vaults.
    - [Prompt] ([dbus/prompt.rs]; [reclaim_prompt] and [watch_clients_once] of
      [daemon.rs]): one prompt as a step relation of its task, its [Prompt] and
      [Dismiss] calls and the watch on the bus, cut at their await points;
      [PromptProps] and [PromptRelock]: its invariants and properties.
    - [Import] ([import/mod.rs]): items, outcomes, refusals and reports of an
      import.
    - [Formats] ([import/formats.rs]): the bounded parsers of gnome-keyring and
      KWallet files.
    - [Verify] ([import/verify.rs]), [VerifyProps]: fingerprints, the MD5 of the
      wallet's hash table, unlisted entries, lookup probes and histograms.
    - [KWallet] ([import/kwallet.rs]): the sidecar, the decoders of stored
      values and the mapping of an entry; [Walk], [WalkProps]: the walk over a
      wallet whose daemon answers each call as it likes.
    - [Gnome], [GnomeProps] ([import/gnome.rs]): the walk over a gnome-keyring,
      whose every answer may depend on everything asked before; and
      [ImportGnome]: what the command makes of it.
    - [ImportRun] ([cli/import.rs]), [ImportRunProps]: the run of [sm import]
      from finding the source to the report, over [Store], [Aliases] and the
      parameters of [Outside] (what was extracted, the password, the daemon).
    - [Bus] (the state on the connection, errors and helpers of
      [dbus/registry.rs], [dbus/errors.rs] and [dbus/service.rs]), [Handlers]
      ([dbus/service.rs], [dbus/collection.rs], [dbus/item.rs],
      [dbus/session.rs]): the methods and properties the daemon serves on the
      bus, over [State], [Store] and [Session]; [Batch]: [Lock] and [Unlock] on
      many paths; [BusProps], [BusCalls]: the invariant of the vaults and what
      the calls answer; [Quota]: the caps under interleaved calls.
    - [Pam] ([pam/mod.rs], [pam/hooks.rs]): the three hooks of the PAM module,
      as programs over a [Machine] that owns the clock, the vault files and the
      daemon's answers; [PamProps], [PamHooks]: a Hoare logic of the budget, and
      the properties of whole logins and password changes.
    - [Pinentry], [PinentryProps] ([prompt/pinentry.rs]): the Assuan
      conversation with a pinentry that answers as it likes.
    - [Config] ([config.rs]): the configuration file, its defaults and checks,
      and the XDG paths.
    - [Gpg], [GpgProps] ([gpg.rs], [dbus/gpg_preset.rs]; [pick_key] of
      [cli/gpg.rs]): listing of keys, the bounded wait for a helper, and the
      preset of enrolled passphrases.
    - [Client] ([cli/client.rs]; the errors of [cli/mod.rs]): the client of the
      Secret Service, over a provider that answers as it likes, with a log of
      all that a command asks, prints and reads.
    - [Secrets], [SecretsProps] ([cli/secrets.rs]; terminal input of
      [cli/mod.rs]): get, set, delete and list, and a logic of runs.
    - [Askpass] ([classify_prompt] and [passphrase_path] of [cli/ssh.rs]): the
      regular expression and what it means; [Ssh] (the rest of it): the ssh
      commands and the askpass helper.
    - [VaultCmds], [VaultCmdsProps] ([cli/vault_cmds.rs]): init, lock, unlock,
      status, reload and change-password, against any peer on the control
      socket and against the daemon of [Daemon].
    - [GpgCmds] ([cli/gpg.rs]): enroll and preset over [Client] and [Gpg].
    - [Startup] ([Daemon::start] and its drop in [daemon.rs]; [bind] and drop in
      [control/server.rs]): start-up step by step, and shutdown.
    - [Dispatch] ([run], [dispatch] and [daemon] of [cli/mod.rs]): the commands
      as one function from a parsed command to an exit code.
    - [Fuzz] ([fuzz/src/lib.rs]): the generators of the fuzz targets.
    - [Snapshot] ([KeyringSnapshot] and [PrivateDir] of [import/gnome.rs]): the
      private copy of a keyring directory, request by request.
    - [Private], [PrivateProps] ([PrivateKeyring], [secrets_bus_owner] and
      [extract_over_private_bus] of [import/gnome.rs]; [extract_gnome] of
      [cli/import.rs]): the private bus and gnome-keyring of an import, whose
      processes answer as they like, as a protocol of spawning, typing, asking
      and reaping.
    - [Wallet] ([open_wallet], [spawn_open_grace], [DbusReader] and [extract] of
      [import/kwallet.rs]; [extract_kwallet] of [cli/import.rs]): opening and
      closing a wallet of a kwalletd that answers as it likes.

    ** How state and effects are modelled

    A method taking [&mut self] is a function of the vault and the world that
    returns a result, the vault and the world: an error comes with the state
    the code leaves behind, so a forgotten rollback would show.  Every system
    call is one request of [Env] and may fail; machine integers are [Z] with
    their bounds written out; text is a list of Unicode scalar values and its
    length is Rust's byte length.

    ** Parameters

    Argon2id, XChaCha20-Poly1305, SHA-256, HKDF, AES-CBC, postcard, the toml
    and serde_json crates and zvariant's path check are other crates' code.
    They are operations of type classes ([Prims], [Postcard], [SessionPrims],
    [AliasText], [JsonText]) with their documented laws in separate classes ([PrimsOk],
    [PostcardOk], ...): opening what was sealed gives the plaintext, decoding
    what was encoded gives the value and the rest, derived keys have 32 bytes.
    No secrecy or collision law is assumed; where the hashed index needs
    collision freedom it is a hypothesis on the pairs at hand.  [Codec] and the
    end of each file give instances satisfying every law.
    What answers from outside is a class too: [Bus] (zbus and zvariant),
    [Machine] (the kernel and the daemon as PAM sees them), [Peer] (a
    pinentry), [Helpers] and [Signer] (gpg and gpg-connect-agent), [Service] (a
    provider on the session bus), [Socket] (whoever answers the control socket),
    [Console] (terminal, environment and dialogs), [Sockets] and [Platform] (what
    start-up meets), [Unstructured] (the arbitrary crate), [Peers] (the children
    of an import) and [KWalletd], each answer any function of everything before;
    [BusOk], [MachineOk], [PeerOk] and [PeersOk] say that paths follow the D-Bus
    grammar and how long waiting takes.  [Unicode], [Paths], [WalletText], the
    conversions of zvariant ([Values]), the resolution of paths ([Disk]), the
    configuration as loaded and the texts of errors ([Setup]) are parameters.

    ** What the theorems show

    - The vault ([StoreProps]): from [create] or [open], under any sequence of
      operations and any failures, memory and file agree and the file reopens;
      each mutation commits exactly its specified change or changes nothing in
      memory or on disk; a password change keeps the vault openable under the
      old key until it succeeds and then under the new one; [create] never
      replaces a vault; a retired vault is never written.
    - Files ([Files], [Sweep]): at every point of a write the target holds the
      old contents or the complete new ones; publication never replaces a
      vault; the sweep removes exactly stale temporaries of the writer's naming.
    - The format ([Format], [Search], [Crypto]): round trips, exactness of the
      decoder and of the caps, correctness of the index and of the search over
      a locked collection.
    - The daemon ([Daemon]): however requests, ticks, creations, deletions and
      client operations follow each other, every loaded collection matches its
      own file and disturbs no other; what unlock, lock and the idle tick do.
    - The control socket ([Protocol], [Control], [Kdf]): a call ends with its
      deadline, talks only to the expected user, and returns exactly what the
      handler answered; connections and derivations stay within their bounds.
    - Shared tables ([Aliases], [State]): edits of the alias table serialise and
      each call returns; what a scan keeps, forgets and announces; ids are
      fresh.  [alias_race_strands_file] exhibits an interleaving after which
      the alias file disagrees with every committed table.
    - The bus ([Session], [Names], [Sanitize]): key agreement, round trip of
      secrets, parsing and printing of object paths, and that no control or
      invisible character of a peer survives rendering.

    - Prompts ([PromptProps], [PromptRelock]): in every interleaving at most one
      [Completed]; a dismissal that claims the gate vetoes the irreversible
      work; an owner that leaves takes its unlocks with it.
      [reclaim_interrupts_work] and [completed_may_be_lost] exhibit two races.
    - Imports ([Formats], [KWallet], [WalkProps], [VerifyProps],
      [ImportRunProps]): the parsers accept exactly the well-formed files and
      size nothing by a declared number; either walk accounts for every entry
      once; the secret of an unlock credential is never asked for;
      fingerprints identify items and their comparison is the difference of
      multisets; an import that succeeds is complete and faithful, one that
      fails leaves nothing behind, and the advice to decommission is earned.
      [failed_import_removes_other_vault] exhibits a race with another creator.
    - Sources of an import ([Snapshot], [PrivateProps], [Wallet]): the copy of
      the keyrings is complete, bounded and private at every instant, the source
      is never written; no child outlives the import, and the password reaches
      only the standard input of the private gnome-keyring; a wallet is read
      through the handle of its own opening and closed however the walk ends.
      [silent_keyring_hangs], [drain_exceeds], [late_reply_unheard] and
      [close_warning_unescaped] exhibit a wait without a limit, a bound that is
      exceeded, an opening nobody hears of and an unescaped warning.
    - The bus objects ([BusProps], [BusCalls], [Batch], [Quota]): every call,
      with any failures, keeps each loaded collection equal to its file;
      [GetSecrets] gives a caller what it may read and no more; a secret stored
      over one session is read back over another; [Unlock] prompts exactly for
      what is locked; the batched [Lock] equals locking one path at a time;
      quotas and ownership hold in every interleaving.
      [malformed_id_stops_registration] exhibits a vault file with a malformed
      item id, with which the daemon does not start.
    - Login ([PamProps], [PamHooks]): whatever daemon, files and child do, a
      login is held up by its budget and one derivation at most; the password
      is used for deriving keys only, and those go to nobody but the user's
      daemon; a password change is reported as sent only when every vault that
      was read was rotated.  [cleared_stash_taken_for_password],
      [password_change_overruns_budget] and [skipped_vault_reported_sent]
      exhibit three corners.
    - Dialogs ([PinentryProps]): no text of a request can add a command to the
      conversation; a password is what the pinentry sent, and a dialog returns
      by its limit.  [split_character_refused] exhibits a password refused
      because one character is split between two data lines.
    - gpg ([GpgProps]): each passphrase goes to the key it was enrolled for, in
      a command nothing can be spliced into, within the time limits.
      [large_listing_times_out] and [full_fingerprint_still_ambiguous] exhibit
      a full pipe and two keys that share a long id.
    - Configuration ([Config]): a configuration that loads can be used, and the
      login hook looks for the daemon where the daemon listens.
    - The commands ([SecretsProps], [Askpass], [Ssh], [GpgCmds], [Dispatch]):
      whatever a provider answers, get prints the newest match or nothing, delete
      accounts for every item it found, askpass classifies a prompt exactly and
      opens a key only with consent, enroll and preset give an agent only what
      was stored for its key, and no command goes beyond its authority.
    - Vault commands ([VaultCmdsProps]): a request carries only keys derived from
      the vault file and the line typed; against the daemon, unlock opens exactly
      what the password opens, a changed password opens the same items, and init
      creates or refuses.  [reload_error_unescaped] exhibits a peer's text on the
      terminal.
    - Start-up ([Startup]): the control socket is taken over in one step and is
      never open to others; a daemon that starts serves what the files hold, one
      that does not start disturbs nothing.  [drop_removes_successor] and
      [failed_bind_leaves_staging] exhibit a socket removed too many and one too
      few.
    - The generators ([Fuzz]): what they promise to parse does, to the fields it
      was built from.

    ** Fuel and bounds

    Recursion is structural where the code's is.  The binary search takes the
    window length as fuel, which strictly decreases; the search for a free id
    takes one more than the number of names that could be taken, by the
    pigeonhole principle enough; an alias update makes at most eight attempts
    of three sections, and 24 sections always suffice; symbolic links are
    followed at most 40 times, as Linux does.  Each bound is proved sufficient
    by a theorem, except the last, which is the kernel's own.  A client call
    takes fuel above its timeout in nanoseconds: each wait advances the clock.
    The loops of the login hooks, of the pinentry conversation and of the wait
    for a helper take one round per tick of their deadline; [login_loops_end],
    [getpin_spec] and [wait_ends] prove that enough.  The poll for a private
    gnome-keyring takes 201 rounds, one per tenth of a second of its limit
    ([extract_gnome_ends]), and the wait for a wallet one per signal that may
    come ([extract_wallet_ends]).

    ** Not modelled

    Wiping of memory and log output, which nothing in the model observes;
    what the children of an import do to files of their own; what [sm import]
    prints but for the warnings of an extraction, and the parsing of arguments
    and the completions, which are clap's; the counting allocator and the fuzz targets;
    [main.rs] and [lib.rs], which set up logging and the runtime; interface
    declarations ([dbus/proxies.rs], [dbus/mod.rs]).  Handlers of the daemon run
    one after another in [Daemon] and [Handlers]; the alias update, the prompt,
    the derivation pool and the accept loop, whose locks are released in the
    middle, are modelled interleaved.  A command of [sm] runs alone: between its
    calls only the provider's state and the daemon's answer change. *)
From Stdlib Require Export ZArith Lia Init.Byte.
From Stdlib Require Import Strings.Byte.
From stdpp Require Export base list numbers gmap sorting.

(** ** Results: Rust's [Result<A, E>] *)

Inductive result (A E : Type) : Type :=
| Ok (a : A)
| Err (e : E).
Arguments Ok {A E} a.
Arguments Err {A E} e.

Declare Scope rust_scope.
Delimit Scope rust_scope with rust.

(** Rust's [?] operator on [Result] and on [Option]. *)
Notation "'let?' x ':=' e1 'in' e2" :=
  (match e1 with Ok x => e2 | Err e => Err e end)
  (at level 10, x pattern, e1 at level 200, e2 at level 200) : rust_scope.
Notation "'let!' x ':=' e1 'in' e2" :=
  (match e1 with Some x => e2 | None => None end)
  (at level 10, x pattern, e1 at level 200, e2 at level 200) : rust_scope.
Open Scope rust_scope.

Definition map_err {A E F} (f : E -> F) (r : result A E) : result A F :=
  match r with Ok a => Ok a | Err e => Err (f e) end.

Definition is_ok {A E} (r : result A E) : bool :=
  match r with Ok _ => true | Err _ => false end.

Definition ok_or {A E} (o : option A) (e : E) : result A E :=
  match o with Some a => Ok a | None => Err e end.

(** [Option::or_else], with the closure as a value. *)
Definition or_else {A} (o1 o2 : option A) : option A :=
  match o1 with Some a => Some a | None => o2 end.

(** [Iterator::find_map]. *)
Fixpoint find_map {A B} (f : A -> option B) (l : list A) : option B :=
  match l with
  | [] => None
  | a :: l => match f a with Some b => Some b | None => find_map f l end
  end.

(** [Iterator::position]. *)
Fixpoint position {A} (p : A -> bool) (l : list A) : option nat :=
  match l with
  | [] => None
  | a :: l => if p a then Some O else S <$> position p l
  end.

(** [Vec::insert] and [Vec::remove] at an index in range. *)
Definition vec_insert {A} (i : nat) (x : A) (l : list A) : list A :=
  take i l ++ x :: drop i l.

Definition vec_remove {A} (i : nat) (l : list A) : list A :=
  take i l ++ drop (S i) l.

#[global] Instance result_eq_dec {A E} `{EqDecision A, EqDecision E} : EqDecision (result A E).
Proof. solve_decision. Defined.

(** ** Bytes and machine integers *)

#[global] Instance byte_eq_dec : EqDecision byte := Byte.byte_eq_dec.
#[global] Program Instance byte_countable : Countable byte :=
  inj_countable Byte.to_N Byte.of_N _.
Next Obligation. intros b. apply Byte.of_to_N. Qed.

Abbreviation bytes := (list byte).

Open Scope Z_scope.

Definition b2z (b : byte) : Z := Z.of_N (Byte.to_N b).

(** The cast [z as u8]. *)
Definition z2b (z : Z) : byte :=
  match Byte.of_N (Z.to_N (z mod 256)) with Some b => b | None => x00 end.

Definition u8_max : Z := 255.
Definition u16_max : Z := 65535.
Definition u32_max : Z := 4294967295.
Definition u64_max : Z := 18446744073709551615.

Definition u16 (z : Z) : Prop := 0 <= z <= u16_max.
Definition u32 (z : Z) : Prop := 0 <= z <= u32_max.
Definition u64 (z : Z) : Prop := 0 <= z <= u64_max.

(** [u64::saturating_mul]. *)
Definition u64_saturating_mul (a b : Z) : Z := Z.min (a * b) u64_max.

(** [Duration::checked_sub] (a duration in nanoseconds). *)
Definition checked_sub (a b : Z) : option Z := if a <? b then None else Some (a - b).

(** Length of a slice as the [usize] it is. *)
Definition zlen {A} (l : list A) : Z := Z.of_nat (length l).

(** Little- and big-endian encodings of an [n]-byte unsigned integer. *)
Fixpoint to_le_bytes (n : nat) (z : Z) : bytes :=
  match n with
  | O => []
  | S n => z2b z :: to_le_bytes n (z / 256)
  end.

Fixpoint from_le_bytes (bs : bytes) : Z :=
  match bs with
  | [] => 0
  | b :: bs => b2z b + 256 * from_le_bytes bs
  end.

Definition to_be_bytes (n : nat) (z : Z) : bytes := rev (to_le_bytes n z).
Definition from_be_bytes (bs : bytes) : Z := from_le_bytes (rev bs).

(** ** Tactics and hint databases *)

Create HintDb rust.

(** Split on the scrutinee of every [match] in a hypothesis or the goal. *)
Ltac split_match :=
  match goal with
  | H : context [match ?x with _ => _ end] |- _ =>
      lazymatch type of H with
      | _ = _ => let E := fresh "E" in destruct x eqn:E
      end
  | |- context [match ?x with _ => _ end] => let E := fresh "E" in destruct x eqn:E
  end.

Ltac crush := repeat (first [progress simplify_eq/= | split_match]); try done; try lia.

(** Turn boolean comparisons into propositions. *)
Ltac bool_to_prop :=
  repeat match goal with
  | H : (_ <? _) = true |- _ => apply Z.ltb_lt in H
  | H : (_ <? _) = false |- _ => apply Z.ltb_ge in H
  | H : (_ <=? _) = true |- _ => apply Z.leb_le in H
  | H : (_ <=? _) = false |- _ => apply Z.leb_gt in H
  | H : (_ =? _) = true |- _ => apply Z.eqb_eq in H
  | H : (_ =? _) = false |- _ => apply Z.eqb_neq in H
  | H : (_ && _)%bool = true |- _ => apply andb_prop in H as [? ?]
  | H : (_ || _)%bool = false |- _ => apply orb_false_elim in H as [? ?]
  | H : negb _ = true |- _ => apply negb_true_iff in H
  | H : negb _ = false |- _ => apply negb_false_iff in H
  | H : bool_decide _ = true |- _ => apply bool_decide_eq_true in H
  | H : bool_decide _ = false |- _ => apply bool_decide_eq_false in H
  end.

(** ** Shared lemmas *)

Lemma b2z_range b : 0 <= b2z b < 256.
Proof. unfold b2z. pose proof (Byte.to_N_bounded b). lia. Qed.

Lemma b2z_z2b z : b2z (z2b z) = z mod 256.
Proof.
  unfold z2b, b2z. pose proof (Z.mod_pos_bound z 256 eq_refl).
  destruct (Byte.of_N _) as [b|] eqn:E.
  - apply Byte.to_of_N in E. lia.
  - apply Byte.of_N_None_iff in E. lia.
Qed.

Lemma b2z_inj a b : b2z a = b2z b -> a = b.
Proof.
  unfold b2z. intros H. apply N2Z.inj in H.
  pose proof (Byte.of_to_N a). pose proof (Byte.of_to_N b). congruence.
Qed.

Lemma z2b_b2z b : z2b (b2z b) = b.
Proof.
  apply b2z_inj. rewrite b2z_z2b. apply Z.mod_small, b2z_range.
Qed.

Lemma length_to_le_bytes n z : length (to_le_bytes n z) = n.
Proof. revert z. induction n; simpl; auto. Qed.

Lemma length_to_be_bytes n z : length (to_be_bytes n z) = n.
Proof. unfold to_be_bytes. rewrite length_rev. apply length_to_le_bytes. Qed.

Lemma from_le_bytes_range bs : 0 <= from_le_bytes bs < 256 ^ zlen bs.
Proof.
  unfold zlen. induction bs as [|b bs IH]; simpl; [lia|].
  pose proof (b2z_range b). rewrite Nat2Z.inj_succ, Z.pow_succ_r by lia. lia.
Qed.

Lemma from_be_bytes_range bs : 0 <= from_be_bytes bs < 256 ^ zlen bs.
Proof.
  unfold from_be_bytes. pose proof (from_le_bytes_range (rev bs)) as H.
  unfold zlen in *. by rewrite length_rev in H.
Qed.

Lemma from_to_le_bytes n z : 0 <= z < 256 ^ Z.of_nat n -> from_le_bytes (to_le_bytes n z) = z.
Proof.
  revert z. induction n as [|n IH]; intros z Hz; simpl to_le_bytes; simpl from_le_bytes.
  - simpl in Hz. lia.
  - rewrite Nat2Z.inj_succ, Z.pow_succ_r in Hz by lia.
    rewrite IH, b2z_z2b.
    + pose proof (Z.div_mod z 256). lia.
    + split; [apply Z.div_pos; lia | apply Z.div_lt_upper_bound; lia].
Qed.

Lemma from_to_be_bytes n z : 0 <= z < 256 ^ Z.of_nat n -> from_be_bytes (to_be_bytes n z) = z.
Proof.
  intros. unfold from_be_bytes, to_be_bytes. rewrite rev_involutive. by apply from_to_le_bytes.
Qed.

Lemma to_from_le_bytes bs : to_le_bytes (length bs) (from_le_bytes bs) = bs.
Proof.
  induction bs as [|b bs IH]; simpl; [done|].
  pose proof (b2z_range b). f_equal.
  - apply b2z_inj. rewrite b2z_z2b.
    rewrite (Z.mul_comm 256), Z.mod_add by lia. by apply Z.mod_small.
  - rewrite (Z.mul_comm 256), Z.div_add by lia.
    by rewrite (Z.div_small (b2z b)) by lia.
Qed.

Lemma to_from_be_bytes bs : to_be_bytes (length bs) (from_be_bytes bs) = bs.
Proof.
  unfold to_be_bytes, from_be_bytes. rewrite <- length_rev, to_from_le_bytes. apply rev_involutive.
Qed.

Lemma to_le_bytes_inj n a b :
  0 <= a < 256 ^ Z.of_nat n -> 0 <= b < 256 ^ Z.of_nat n ->
  to_le_bytes n a = to_le_bytes n b -> a = b.
Proof.
  intros Ha Hb H. apply (f_equal from_le_bytes) in H. by rewrite !from_to_le_bytes in H.
Qed.

Lemma zlen_app {A} (l k : list A) : zlen (l ++ k) = zlen l + zlen k.
Proof. unfold zlen. rewrite length_app. lia. Qed.

Lemma zlen_nonneg {A} (l : list A) : 0 <= zlen l.
Proof. unfold zlen. lia. Qed.

(** *** Lists *)

Lemma position_Some {A} (p : A -> bool) l i :
  position p l = Some i ->
  exists a, l !! i = Some a /\ p a = true /\ forall j b, (j < i)%nat -> l !! j = Some b -> p b = false.
Proof.
  revert i. induction l as [|a l IH]; intros i; simpl; [done|].
  destruct (p a) eqn:Ha.
  - intros [= <-]. exists a. split_and!; [done..|]. intros; lia.
  - destruct (position p l) as [k|] eqn:Hk; [|done]. intros [= <-].
    destruct (IH k eq_refl) as (x & Hx & Hp & Hlt). exists x. split_and!; [done..|].
    intros [|j] b Hj Hb; [by simplify_eq/=|]. apply (Hlt j); [lia|done].
Qed.

Lemma position_None {A} (p : A -> bool) l :
  position p l = None <-> forall a, a ∈ l -> p a = false.
Proof.
  induction l as [|a l IH]; simpl.
  - split; [|done]. intros _ b Hb. by apply not_elem_of_nil in Hb.
  - destruct (p a) eqn:Ha.
    + split; [done|]. intros H. rewrite (H a) in Ha; [done|by left].
    + destruct (position p l) as [k|] eqn:Hk; simpl.
      * split; [done|]. intros H. assert (Some k = None) as [=].
        apply IH. intros b Hb. apply H. by right.
      * split; [|done]. intros _ b [->|Hb]%elem_of_cons; [done|]. by apply IH.
Qed.

Lemma position_lt {A} (p : A -> bool) l i : position p l = Some i -> (i < length l)%nat.
Proof. intros (a & Ha & _)%position_Some. by eapply lookup_lt_Some. Qed.

Lemma find_map_None {A B} (f : A -> option B) l :
  find_map f l = None <-> forall a, a ∈ l -> f a = None.
Proof.
  induction l as [|a l IH]; simpl.
  - split; [|done]. intros _ b Hb. by apply not_elem_of_nil in Hb.
  - destruct (f a) eqn:Ha.
    + split; [done|]. intros H. rewrite (H a) in Ha; [done|by left].
    + rewrite IH. split.
      * intros H b [->|Hb]%elem_of_cons; [done|by apply H].
      * intros H b Hb. apply H. by right.
Qed.

Lemma vec_insert_remove {A} (l : list A) i x :
  l !! i = Some x -> vec_insert i x (vec_remove i l) = l.
Proof.
  intros Hi. pose proof (lookup_lt_Some _ _ _ Hi). unfold vec_insert, vec_remove.
  rewrite take_app_le, take_take, Nat.min_id by (rewrite length_take; lia).
  rewrite drop_app_ge by (rewrite length_take; lia).
  rewrite length_take, Nat.min_l, Nat.sub_diag, drop_0 by lia.
  by apply take_drop_middle.
Qed.

Lemma vec_remove_insert {A} (l : list A) i x :
  (i <= length l)%nat -> vec_remove i (vec_insert i x l) = l.
Proof.
  intros Hi. unfold vec_insert, vec_remove.
  rewrite take_app_le, take_take, Nat.min_id by (rewrite length_take; lia).
  rewrite drop_app_ge by (rewrite length_take; lia).
  rewrite length_take, Nat.min_l by lia. replace (S i - i)%nat with 1%nat by lia. simpl.
  by rewrite drop_0, take_drop.
Qed.

Lemma elem_of_vec_remove {A} (l : list A) i x : x ∈ vec_remove i l -> x ∈ l.
Proof.
  unfold vec_remove. intros [Hx|Hx]%elem_of_app.
  - by eapply elem_of_take in Hx as (?&?&?); eapply list_elem_of_lookup_2.
  - rewrite list_elem_of_lookup in Hx. destruct Hx as [j Hj].
    rewrite lookup_drop in Hj. by eapply list_elem_of_lookup_2.
Qed.

Lemma app_inj_length {A} (a b c d : list A) :
  length a = length c -> a ++ b = c ++ d -> a = c /\ b = d.
Proof. intros Hl H. by apply app_inj_1. Qed.

(** ** Loops with a bound on their rounds *)

(** A loop that runs at most [p] rounds. *)
Fixpoint iter_until {A B} (p : positive) (round : A -> A + B) (a : A) : A + B :=
  match p with
  | xH => round a
  | xO q => match iter_until q round a with inl a => iter_until q round a | r => r end
  | xI q => match iter_until q round a with
            | inl a => match iter_until q round a with inl a => round a | r => r end
            | r => r
            end
  end.

Section iter.
Context {A B : Type} (round : A -> A + B).

(** Whatever holds through the rounds. *)
Lemma iter_until_inv (P : A -> Prop) (Q : B -> Prop) p a :
  (forall a, P a -> match round a with inl a' => P a' | inr b => Q b end) -> P a ->
  match iter_until p round a with inl a' => P a' | inr b => Q b end.
Proof.
  intros Hr. revert a. induction p as [q IH|q IH|]; intros a Ha; cbn [iter_until].
  - specialize (IH a Ha) as H1. destruct (iter_until q round a) as [a1|b]; [|done].
    specialize (IH a1 H1) as H2. destruct (iter_until q round a1) as [a2|b]; [|done]. by apply Hr.
  - specialize (IH a Ha) as H1. destruct (iter_until q round a) as [a1|b]; [|done]. by apply IH.
  - by apply Hr.
Qed.

(** A measure that falls in every round ends the loop. *)
Lemma iter_until_ends (P : A -> Prop) (f : A -> Z) p a :
  (forall a a', P a -> round a = inl a' -> P a' /\ f a' < f a) -> (forall a, P a -> 0 <= f a) -> P a -> f a < Zpos p ->
  exists b, iter_until p round a = inr b.
Proof.
  intros Hr H0 Ha Hf.
  assert (Hgen : forall q a, P a -> match iter_until q round a with inl a' => P a' /\ f a' <= f a - Zpos q | inr _ => True end).
  { induction q as [q IH|q IH|]; intros x Hx; cbn [iter_until].
    - specialize (IH x Hx) as H1. destruct (iter_until q round x) as [a1|b]; [|done]. destruct H1 as [P1 F1].
      specialize (IH a1 P1) as H2. destruct (iter_until q round a1) as [a2|b]; [|done]. destruct H2 as [P2 F2].
      destruct (round a2) as [a3|] eqn:E; [|done]. apply Hr in E as [? ?]; [|done]. split; [done|lia].
    - specialize (IH x Hx) as H1. destruct (iter_until q round x) as [a1|b]; [|done]. destruct H1 as [P1 F1].
      specialize (IH a1 P1) as H2. destruct (iter_until q round a1) as [a2|b]; [|done]. destruct H2 as [P2 F2]. split; [done|lia].
    - destruct (round x) as [a1|] eqn:E; [|done]. apply Hr in E as [? ?]; [|done]. split; [done|lia]. }
  specialize (Hgen p a Ha). destruct (iter_until p round a) as [a'|b]; [|eauto].
  destruct Hgen as [Pa' Fa']. specialize (H0 a' Pa'). lia.
Qed.
End iter.
