(* ===== verification/Text.v ===== *)
(** * Rust text: [char], [str], UTF-8, and the [str] methods the program calls

    A [char] is a Unicode scalar value (a [Z] satisfying [is_char]) and a
    [str] the sequence of its chars; [utf8] is the byte sequence Rust stores,
    and [str_len] (Rust's [str::len]) measures that. *)
From Stdlib Require String Ascii.
From S2P Require Import Prelude.
Export String.StringSyntax.

Abbreviation char := Z.
Abbreviation str := (list Z).

Definition is_char (c : char) : Prop := 0 <= c < 55296 \/ 57344 <= c < 1114112.
Definition str_wf (s : str) : Prop := Forall is_char s.

#[global] Instance is_char_dec c : Decision (is_char c).
Proof. unfold is_char. apply _. Defined.
#[global] Instance str_wf_dec s : Decision (str_wf s).
Proof. unfold str_wf. apply _. Defined.

(** String literals. *)
Definition lit (s : String.string) : str :=
  map (fun a => Z.of_N (Ascii.N_of_ascii a)) (String.list_ascii_of_string s).
Arguments lit s%_string_scope.

(** ** UTF-8 *)

(** [char::encode_utf8]. *)
Definition encode_utf8 (c : char) : bytes :=
  if c <? 128 then [z2b c]
  else if c <? 2048 then [z2b (192 + c / 64); z2b (128 + c mod 64)]
  else if c <? 65536 then
    [z2b (224 + c / 4096); z2b (128 + (c / 64) mod 64); z2b (128 + c mod 64)]
  else
    [z2b (240 + c / 262144); z2b (128 + (c / 4096) mod 64);
     z2b (128 + (c / 64) mod 64); z2b (128 + c mod 64)].

(** [str::as_bytes] and [str::len]. *)
Fixpoint utf8 (s : str) : bytes :=
  match s with [] => [] | c :: s => encode_utf8 c ++ utf8 s end.

Definition str_len (s : str) : Z := zlen (utf8 s).

(** A continuation byte's six payload bits. *)
Definition cont (b : byte) : option Z :=
  let z := b2z b in if (128 <=? z) && (z <? 192) then Some (z - 128) else None.

(** [std::str::from_utf8]: strict, so an overlong form, a surrogate or a value
    past U+10FFFF is refused. *)
Fixpoint from_utf8 (bs : bytes) : option str :=
  match bs with
  | [] => Some []
  | b0 :: r0 =>
    let z := b2z b0 in
    if z <? 128 then let! s := from_utf8 r0 in Some (z :: s)
    else match r0 with
    | [] => None
    | b1 :: r1 =>
      let! c1 := cont b1 in
      if (194 <=? z) && (z <? 224) then
        let! s := from_utf8 r1 in Some (64 * (z - 192) + c1 :: s)
      else match r1 with
      | [] => None
      | b2 :: r2 =>
        let! c2 := cont b2 in
        if (224 <=? z) && (z <? 240) then
          let c := 4096 * (z - 224) + 64 * c1 + c2 in
          if (2048 <=? c) && bool_decide (is_char c) then
            let! s := from_utf8 r2 in Some (c :: s)
          else None
        else match r2 with
        | [] => None
        | b3 :: r3 =>
          let! c3 := cont b3 in
          if (240 <=? z) && (z <? 245) then
            let c := 262144 * (z - 240) + 4096 * c1 + 64 * c2 + c3 in
            if (65536 <=? c) && bool_decide (is_char c) then
              let! s := from_utf8 r3 in Some (c :: s)
            else None
          else None
        end
      end
    end
  end.

(** ** Character classes *)

Definition in_range (lo hi c : Z) : bool := (lo <=? c) && (c <=? hi).

Definition is_ascii_digit (c : char) : bool := in_range 48 57 c.
Definition is_ascii_lowercase (c : char) : bool := in_range 97 122 c.
Definition is_ascii_uppercase (c : char) : bool := in_range 65 90 c.
Definition is_ascii_alphanumeric (c : char) : bool :=
  is_ascii_digit c || is_ascii_lowercase c || is_ascii_uppercase c.

Definition to_ascii_lowercase (c : char) : char :=
  if is_ascii_uppercase c then c + 32 else c.

(** [char::is_control]: general category [Cc]. *)
Definition is_control (c : char) : bool := in_range 0 31 c || in_range 127 159 c.

(** [char::is_whitespace]: the [White_Space] property. *)
Definition is_whitespace (c : char) : bool :=
  in_range 9 13 c || (c =? 32) || (c =? 133) || (c =? 160) || (c =? 5760)
  || in_range 8192 8202 c || (c =? 8232) || (c =? 8233) || (c =? 8239)
  || (c =? 8287) || (c =? 12288).

(** ** Searching and splitting *)

Definition str_eqb (a b : str) : bool := bool_decide (a = b).

(** [str::strip_prefix] and [str::strip_suffix]. *)
Fixpoint strip_prefix (p s : str) : option str :=
  match p, s with
  | [], _ => Some s
  | a :: p, b :: s => if a =? b then strip_prefix p s else None
  | _ :: _, [] => None
  end.

Definition strip_suffix (x s : str) : option str :=
  let! r := strip_prefix (rev x) (rev s) in Some (rev r).

(** [str::split] on one char: always at least one piece. *)
Fixpoint split_on (c : char) (s : str) : list str :=
  match s with
  | [] => [[]]
  | x :: s =>
    if x =? c then [] :: split_on c s
    else match split_on c s with
         | p :: ps => (x :: p) :: ps
         | [] => [[x]]
         end
  end.

(** [str::split_once] on one char. *)
Fixpoint split_once (c : char) (s : str) : option (str * str) :=
  match s with
  | [] => None
  | x :: s => if x =? c then Some ([], s)
              else let! (a, b) := split_once c s in Some (x :: a, b)
  end.

(** [str::rsplit_once] on one char. *)
Definition rsplit_once (c : char) (s : str) : option (str * str) :=
  let! (a, b) := split_once c (rev s) in Some (rev b, rev a).

(** [str::trim_start_matches] and [str::trim_end_matches] on one char. *)
Fixpoint drop_while {A} (p : A -> bool) (s : list A) : list A :=
  match s with
  | [] => []
  | x :: r => if p x then drop_while p r else s
  end.

Definition trim_end_matches (c : char) (s : str) : str :=
  rev (drop_while (fun x => x =? c) (rev s)).

Definition trim_end (s : str) : str := rev (drop_while is_whitespace (rev s)).
Definition trim (s : str) : str := trim_end (drop_while is_whitespace s).

(** [str::split_whitespace]: the maximal runs of non-whitespace. [words_go]
    carries the current run, reversed. *)
Fixpoint words_go (cur : str) (s : str) : list str :=
  match s with
  | [] => match cur with [] => [] | _ => [rev cur] end
  | c :: s =>
    if is_whitespace c
    then match cur with [] => words_go [] s | _ => rev cur :: words_go [] s end
    else words_go (c :: cur) s
  end.

Definition split_whitespace (s : str) : list str := words_go [] s.

(** [\[String\]::join(" ")]. *)
Fixpoint join (sep : str) (l : list str) : str :=
  match l with
  | [] => []
  | [w] => w
  | w :: l => w ++ sep ++ join sep l
  end.

(** ** Formatting *)

Definition hex_digit (z : Z) : char := if z <? 10 then 48 + z else 87 + z.

(** The format specification [{b:02x}]. *)
Definition hex2 (b : byte) : str := [hex_digit (b2z b / 16); hex_digit (b2z b mod 16)].
Definition hex (bs : bytes) : str := flat_map hex2 bs.

(** [u64]'s [Display], with fuel for the number of digits. *)
Fixpoint dec_go (fuel : nat) (n : Z) (acc : str) : str :=
  match fuel with
  | O => acc
  | S fuel =>
    let acc := (48 + n mod 10) :: acc in
    if n <? 10 then acc else dec_go fuel (n / 10) acc
  end.

(** Every [u64] has at most twenty decimal digits. *)
Definition dec (n : Z) : str := dec_go 20 n [].

(** ** Order: [Ord for str], and iteration of a [BTreeMap<String, _>] *)

Fixpoint str_leb (a b : str) : bool :=
  match a, b with
  | [], _ => true
  | _ :: _, [] => false
  | x :: a, y :: b => (x <? y) || ((x =? y) && str_leb a b)
  end.

Definition str_le (a b : str) : Prop := str_leb a b = true.

#[global] Instance str_le_dec : RelDecision str_le.
Proof. intros a b. unfold str_le. apply _. Defined.

Definition key_le {A} (x y : str * A) : Prop := str_le x.1 y.1.

#[global] Instance key_le_dec {A} : RelDecision (@key_le A).
Proof. intros a b. unfold key_le. apply _. Defined.

(** [BTreeMap::iter]: the pairs in ascending key order. *)
Definition btree_iter {A} (m : gmap str A) : list (str * A) :=
  merge_sort key_le (map_to_list m).

Definition btree_keys {A} (m : gmap str A) : list str := (btree_iter m).*1.

(** ** Lemmas *)

Lemma in_range_spec lo hi c : in_range lo hi c = true <-> lo <= c <= hi.
Proof. unfold in_range. rewrite andb_true_iff, !Z.leb_le. lia. Qed.

Lemma is_ascii_alphanumeric_spec c :
  is_ascii_alphanumeric c = true <-> 48 <= c <= 57 \/ 65 <= c <= 90 \/ 97 <= c <= 122.
Proof.
  unfold is_ascii_alphanumeric, is_ascii_digit, is_ascii_lowercase, is_ascii_uppercase.
  rewrite !orb_true_iff, !in_range_spec. lia.
Qed.

Lemma str_eqb_eq a b : str_eqb a b = true <-> a = b.
Proof. apply bool_decide_eq_true. Qed.

Lemma encode_utf8_nonempty c : encode_utf8 c <> [].
Proof. unfold encode_utf8. repeat case_match; done. Qed.

Lemma length_encode_utf8 c : (1 <= length (encode_utf8 c) <= 4)%nat.
Proof. unfold encode_utf8. repeat case_match; simpl; lia. Qed.

Lemma utf8_app a b : utf8 (a ++ b) = utf8 a ++ utf8 b.
Proof. induction a; simpl; [done|]. by rewrite IHa, app_assoc. Qed.

Lemma str_len_app a b : str_len (a ++ b) = str_len a + str_len b.
Proof. unfold str_len. by rewrite utf8_app, zlen_app. Qed.

Lemma str_len_nonneg a : 0 <= str_len a.
Proof. apply zlen_nonneg. Qed.

Lemma length_le_str_len s : zlen s <= str_len s.
Proof.
  unfold str_len, zlen. induction s as [|c s IH]; simpl; [done|].
  rewrite length_app. pose proof (length_encode_utf8 c). lia.
Qed.

Lemma cont_z2b z : 0 <= z < 64 -> cont (z2b (128 + z)) = Some z.
Proof.
  intros. unfold cont. rewrite b2z_z2b, Z.mod_small by lia.
  destruct (_ && _) eqn:E; [f_equal; lia|]. lia.
Qed.

(** Decide every boolean comparison in the goal by [lia]. *)
Ltac decide_cmp :=
  repeat match goal with
  | |- context [?a <? ?b] => destruct (Z.ltb_spec a b); try lia
  | |- context [?a <=? ?b] => destruct (Z.leb_spec a b); try lia
  end; cbn [andb].

(** The decoder on each well-formed sequence, by its payload. *)
Lemma from_utf8_2 h l bs :
  2 <= h < 32 -> 0 <= l < 64 ->
  from_utf8 (z2b (192 + h) :: z2b (128 + l) :: bs)
  = let! s := from_utf8 bs in Some (64 * h + l :: s).
Proof.
  intros. cbn -[cont b2z z2b Z.add Z.mul Z.sub]. rewrite cont_z2b, b2z_z2b, Z.mod_small by lia.
  decide_cmp. by replace (64 * (192 + h - 192) + l) with (64 * h + l) by lia.
Qed.

Lemma from_utf8_3 h m l bs :
  0 <= h < 16 -> 0 <= m < 64 -> 0 <= l < 64 ->
  2048 <= 4096 * h + 64 * m + l -> is_char (4096 * h + 64 * m + l) ->
  from_utf8 (z2b (224 + h) :: z2b (128 + m) :: z2b (128 + l) :: bs)
  = let! s := from_utf8 bs in Some (4096 * h + 64 * m + l :: s).
Proof.
  intros. cbn -[cont b2z z2b Z.add Z.mul Z.sub is_char].
  rewrite !cont_z2b, b2z_z2b, Z.mod_small by lia.
  replace (4096 * (224 + h - 224) + 64 * m + l) with (4096 * h + 64 * m + l) by lia.
  decide_cmp; by rewrite bool_decide_true by done.
Qed.

Lemma from_utf8_4 h m n l bs :
  0 <= h < 5 -> 0 <= m < 64 -> 0 <= n < 64 -> 0 <= l < 64 ->
  65536 <= 262144 * h + 4096 * m + 64 * n + l ->
  is_char (262144 * h + 4096 * m + 64 * n + l) ->
  from_utf8 (z2b (240 + h) :: z2b (128 + m) :: z2b (128 + n) :: z2b (128 + l) :: bs)
  = let! s := from_utf8 bs in Some (262144 * h + 4096 * m + 64 * n + l :: s).
Proof.
  intros. cbn -[cont b2z z2b Z.add Z.mul Z.sub is_char].
  rewrite !cont_z2b, b2z_z2b, Z.mod_small by lia.
  replace (262144 * (240 + h - 240) + 4096 * m + 64 * n + l)
    with (262144 * h + 4096 * m + 64 * n + l) by lia.
  decide_cmp; by rewrite bool_decide_true by done.
Qed.

(** Encoding one scalar and decoding it again. *)
Lemma from_utf8_encode c bs :
  is_char c -> from_utf8 (encode_utf8 c ++ bs) = let! s := from_utf8 bs in Some (c :: s).
Proof.
  intros Hc. pose proof Hc as Hc'. unfold is_char in Hc'. unfold encode_utf8.
  pose proof (Z.div_mod c 64) as D0. pose proof (Z.mod_pos_bound c 64 eq_refl).
  pose proof (Z.div_mod (c / 64) 64) as D1. pose proof (Z.mod_pos_bound (c / 64) 64 eq_refl).
  pose proof (Z.div_mod (c / 4096) 64) as D2. pose proof (Z.mod_pos_bound (c / 4096) 64 eq_refl).
  rewrite Z.div_div in D1, D2 by lia. change (64 * 64) with 4096 in D1.
  change (4096 * 64) with 262144 in D2.
  destruct (Z.ltb_spec c 128); [|destruct (Z.ltb_spec c 2048);
    [|destruct (Z.ltb_spec c 65536)]]; simpl app.
  - cbn -[b2z z2b]. rewrite b2z_z2b, Z.mod_small by lia. by decide_cmp.
  - rewrite from_utf8_2 by lia. by replace (64 * (c / 64) + c mod 64) with c by lia.
  - assert (E : 4096 * (c / 4096) + 64 * ((c / 64) mod 64) + c mod 64 = c) by lia.
    rewrite from_utf8_3; rewrite ?E; lia || done.
  - assert (E : 262144 * (c / 262144) + 4096 * ((c / 4096) mod 64)
                + 64 * ((c / 64) mod 64) + c mod 64 = c) by lia.
    rewrite from_utf8_4; rewrite ?E; lia || done.
Qed.

Lemma from_utf8_utf8 s : str_wf s -> from_utf8 (utf8 s) = Some s.
Proof.
  induction 1 as [|c s Hc _ IH]; [done|]. simpl utf8. by rewrite from_utf8_encode, IH.
Qed.

Lemma utf8_inj a b : str_wf a -> str_wf b -> utf8 a = utf8 b -> a = b.
Proof. intros Ha Hb E. apply (f_equal from_utf8) in E. rewrite !from_utf8_utf8 in E; congruence. Qed.

Lemma from_utf8_wf bs s : from_utf8 bs = Some s -> str_wf s.
Proof.
  unfold str_wf.
  assert (forall n bs s, (length bs <= n)%nat -> from_utf8 bs = Some s -> Forall is_char s) as H.
  2: { intros. by eapply H. }
  clear. induction n as [|n IH]; intros [|b bs] s Hn; cbn -[b2z is_char Z.mul Z.add Z.sub cont];
    [by intros [= <-] | simpl in Hn; lia | by intros [= <-] |].
  simpl in Hn. pose proof (b2z_range b). unfold cont.
  repeat (case_match; try done); intros; simplify_eq; bool_to_prop; constructor; try done;
    try (eapply IH; [|eassumption]; simpl in *; lia); unfold is_char; lia.
Qed.

(** The encoder on a scalar given by its payload bits. *)
Lemma encode_utf8_2 h l : 2 <= h < 32 -> 0 <= l < 64 ->
  encode_utf8 (64 * h + l) = [z2b (192 + h); z2b (128 + l)].
Proof.
  intros. unfold encode_utf8. decide_cmp.
  assert ((64 * h + l) / 64 = h) as -> by (symmetry; apply (Z.div_unique _ _ _ l); lia).
  by assert ((64 * h + l) mod 64 = l) as -> by (symmetry; apply (Z.mod_unique _ _ h); lia).
Qed.

Lemma encode_utf8_3 h m l : 0 <= h < 16 -> 0 <= m < 64 -> 0 <= l < 64 ->
  2048 <= 4096 * h + 64 * m + l ->
  encode_utf8 (4096 * h + 64 * m + l) = [z2b (224 + h); z2b (128 + m); z2b (128 + l)].
Proof.
  intros. unfold encode_utf8. decide_cmp. set (c := 4096 * h + 64 * m + l).
  assert (c / 64 = 64 * h + m) as -> by (symmetry; apply (Z.div_unique _ _ _ l); lia).
  assert (c / 4096 = h) as -> by (symmetry; apply (Z.div_unique _ _ _ (64 * m + l)); lia).
  assert (c mod 64 = l) as -> by (symmetry; apply (Z.mod_unique _ _ (64 * h + m)); lia).
  by assert ((64 * h + m) mod 64 = m) as -> by (symmetry; apply (Z.mod_unique _ _ h); lia).
Qed.

Lemma encode_utf8_4 h m n l : 0 <= h < 5 -> 0 <= m < 64 -> 0 <= n < 64 -> 0 <= l < 64 ->
  65536 <= 262144 * h + 4096 * m + 64 * n + l ->
  encode_utf8 (262144 * h + 4096 * m + 64 * n + l)
  = [z2b (240 + h); z2b (128 + m); z2b (128 + n); z2b (128 + l)].
Proof.
  intros. unfold encode_utf8. decide_cmp. set (c := 262144 * h + 4096 * m + 64 * n + l).
  assert (c / 64 = 4096 * h + 64 * m + n) as -> by (symmetry; apply (Z.div_unique _ _ _ l); lia).
  assert (c / 4096 = 64 * h + m) as -> by (symmetry; apply (Z.div_unique _ _ _ (64 * n + l)); lia).
  assert (c / 262144 = h) as -> by (symmetry; apply (Z.div_unique _ _ _ (4096 * m + 64 * n + l)); lia).
  assert (c mod 64 = l) as -> by (symmetry; apply (Z.mod_unique _ _ (4096 * h + 64 * m + n)); lia).
  assert ((4096 * h + 64 * m + n) mod 64 = n) as -> by (symmetry; apply (Z.mod_unique _ _ (64 * h + m)); lia).
  by assert ((64 * h + m) mod 64 = m) as -> by (symmetry; apply (Z.mod_unique _ _ h); lia).
Qed.

Lemma cont_Some b z : cont b = Some z -> 0 <= z < 64 /\ z2b (128 + z) = b.
Proof.
  unfold cont. intros H. destruct (_ && _) eqn:E; [|done]. bool_to_prop. simplify_eq.
  split; [lia|]. replace (128 + (b2z b - 128)) with (b2z b) by lia. apply z2b_b2z.
Qed.

(** The decoder is strict: what it decodes is the encoding of the result. *)
Lemma utf8_from_utf8 bs s : from_utf8 bs = Some s -> utf8 s = bs.
Proof.
  assert (forall n bs s, (length bs <= n)%nat -> from_utf8 bs = Some s -> utf8 s = bs) as H.
  2: { intros. by eapply H. }
  clear. induction n as [|n IH]; intros [|b bs] s Hn; cbn -[b2z is_char Z.mul Z.add Z.sub cont];
    [by intros [= <-] | simpl in Hn; lia | by intros [= <-] |].
  simpl in Hn. pose proof (b2z_range b).
  assert (Hb : forall k, z2b (k + (b2z b - k)) = b)
    by (intros k; replace (k + (b2z b - k)) with (b2z b) by lia; apply z2b_b2z).
  repeat (case_match; try done); intros [= <-]; bool_to_prop;
    repeat match goal with H : cont _ = Some _ |- _ => apply cont_Some in H as [? ?] end;
    cbn -[encode_utf8 Z.mul Z.add Z.sub b2z].
  - unfold encode_utf8. decide_cmp. rewrite z2b_b2z. simpl. f_equal. apply IH; [lia|done].
  - rewrite encode_utf8_2 by lia. rewrite Hb. subst. cbn [app]. do 2 f_equal. apply IH; [simpl in Hn; lia|done].
  - rewrite encode_utf8_3 by lia. rewrite Hb. subst. cbn [app]. do 3 f_equal. apply IH; [simpl in Hn; lia|done].
  - rewrite encode_utf8_4 by lia. rewrite Hb. subst. cbn [app]. do 4 f_equal. apply IH; [simpl in Hn; lia|done].
Qed.

(** *** Prefixes, suffixes and splitting *)

Lemma strip_prefix_Some p s r : strip_prefix p s = Some r <-> s = p ++ r.
Proof.
  revert s. induction p as [|a p IH]; intros s; simpl; [split; congruence|].
  destruct s as [|b s]; [done|]. destruct (Z.eqb_spec a b) as [->|Hne].
  - rewrite IH. split; [by intros ->|by intros [= ->]].
  - split; congruence.
Qed.

Lemma strip_suffix_Some x s r : strip_suffix x s = Some r <-> s = r ++ x.
Proof.
  unfold strip_suffix. destruct (strip_prefix (rev x) (rev s)) as [t|] eqn:E.
  - apply strip_prefix_Some in E. apply (f_equal (@rev Z)) in E.
    rewrite rev_app_distr, !rev_involutive in E. subst. split; [by intros [= ->]|].
    intros H%app_inv_tail. by subst.
  - split; [done|]. intros ->. exfalso. rewrite rev_app_distr in E.
    rewrite (proj2 (strip_prefix_Some (rev x) (rev x ++ rev r) (rev r))) in E; done.
Qed.

Lemma split_once_Some c s a b : split_once c s = Some (a, b) <-> s = a ++ c :: b /\ c ∉ a.
Proof.
  revert a b. induction s as [|x s IH]; intros a b; simpl.
  { split; [done|]. intros [H _]. by destruct a. }
  destruct (Z.eqb_spec x c) as [->|Hne].
  - split; [intros [= <- <-]; split; [done|apply not_elem_of_nil]|].
    intros [H Hn]. destruct a as [|y a]; simplify_eq/=; [done|]. exfalso. apply Hn. by left.
  - destruct (split_once c s) as [[a' b']|].
    + destruct (proj1 (IH a' b') eq_refl) as [-> Hn]. split.
      * intros [= <- <-]. split; [done|]. rewrite not_elem_of_cons. done.
      * intros [H Hn']. destruct a as [|y a]; simplify_eq/=.
        apply not_elem_of_cons in Hn' as [_ Hn'].
        assert (Some (a', b') = Some (a, b)) as [= -> ->] by (apply IH; done). done.
    + split; [done|]. intros [H Hn]. destruct a as [|y a]; simplify_eq/=.
      apply not_elem_of_cons in Hn as [_ Hn]. by assert (None = Some (a, b)) by (apply IH; done).
Qed.

Lemma rsplit_once_Some c s a b : rsplit_once c s = Some (a, b) <-> s = a ++ c :: b /\ c ∉ b.
Proof.
  unfold rsplit_once. destruct (split_once c (rev s)) as [[x y]|] eqn:E.
  - apply split_once_Some in E as [E Hn].
    apply (f_equal (@rev Z)) in E. rewrite rev_involutive, rev_app_distr in E. simpl in E.
    rewrite <- app_assoc in E. simpl in E. split.
    + intros [= <- <-]. split; [done|]. by rewrite list_elem_of_In, <- in_rev, <- list_elem_of_In.
    + intros [-> Hb]. assert (split_once c (rev (a ++ c :: b)) = Some (rev b, rev a)) as H.
      { apply split_once_Some. rewrite rev_app_distr. simpl. rewrite <- app_assoc. split; [done|].
        by rewrite list_elem_of_In, <- in_rev, <- list_elem_of_In. }
      assert (split_once c (rev (a ++ c :: b)) = Some (x, y)) as H'.
      { apply split_once_Some. split; [|done]. rewrite E, rev_app_distr. simpl.
        by rewrite <- app_assoc, !rev_involutive. }
      rewrite H in H'. injection H' as <- <-. by rewrite !rev_involutive.
  - split; [done|]. intros [-> Hb].
    rewrite (proj2 (split_once_Some c _ (rev b) (rev a))) in E; [done|].
    rewrite rev_app_distr. simpl. rewrite <- app_assoc. split; [done|].
    by rewrite list_elem_of_In, <- in_rev, <- list_elem_of_In.
Qed.

Lemma split_on_not_in c s : c ∉ s -> split_on c s = [s].
Proof.
  induction s as [|x s IH]; [done|]. rewrite not_elem_of_cons. intros [Hx Hs]. simpl.
  destruct (Z.eqb_spec x c); [congruence|]. by rewrite IH.
Qed.

Lemma split_on_app c a b : c ∉ a -> split_on c (a ++ c :: b) = a :: split_on c b.
Proof.
  induction a as [|x a IH]; simpl; [by rewrite Z.eqb_refl|].
  rewrite not_elem_of_cons. intros [Hx Ha].
  destruct (Z.eqb_spec x c); [congruence|]. by rewrite IH.
Qed.

(** The pieces of a split, put back together. *)
Lemma split_on_cons c s : exists p ps, split_on c s = p :: ps /\ (c ∉ p) /\
  s = p ++ flat_map (fun q => c :: q) ps.
Proof.
  induction s as [|x s IH]; simpl.
  { exists [], []. split_and!; [done|apply not_elem_of_nil|done]. }
  destruct IH as (p & ps & E & Hn & Hs). rewrite E.
  destruct (Z.eqb_spec x c) as [->|Hne].
  - exists [], (p :: ps). split_and!; [done|apply not_elem_of_nil|]. simpl. by rewrite Hs.
  - exists (x :: p), ps. split_and!; [done|by rewrite not_elem_of_cons|]. simpl. by rewrite Hs at 1.
Qed.

(** *** Hexadecimal *)

Definition is_lower_hex (c : char) : bool := is_ascii_digit c || in_range 97 102 c.

Lemma hex_digit_lower z : 0 <= z < 16 -> is_lower_hex (hex_digit z) = true.
Proof.
  intros. unfold is_lower_hex, is_ascii_digit, hex_digit, in_range. by decide_cmp.
Qed.

Lemma hex2_lower b : Forall (fun c => is_lower_hex c = true) (hex2 b).
Proof.
  pose proof (b2z_range b). repeat constructor; apply hex_digit_lower.
  - split; [apply Z.div_pos|apply Z.div_lt_upper_bound]; lia.
  - apply Z.mod_pos_bound. lia.
Qed.

Lemma hex_lower bs : Forall (fun c => is_lower_hex c = true) (hex bs).
Proof. induction bs; [constructor|]. apply Forall_app. split; [apply hex2_lower|done]. Qed.

Lemma length_hex bs : length (hex bs) = (2 * length bs)%nat.
Proof. induction bs; simpl in *; lia. Qed.

Lemma is_lower_hex_spec c : is_lower_hex c = true <-> 48 <= c <= 57 \/ 97 <= c <= 102.
Proof.
  unfold is_lower_hex, is_ascii_digit. rewrite orb_true_iff, !in_range_spec. done.
Qed.

(** *** Trimming *)

Lemma drop_while_suffix {A} (p : A -> bool) s : exists k, s = k ++ drop_while p s /\ Forall (fun x => p x = true) k.
Proof.
  induction s as [|x s (k & Hk & HF)]; simpl; [by exists []|].
  destruct (p x) eqn:E; [|by exists []]. exists (x :: k). simpl. rewrite <- Hk. auto.
Qed.

Lemma drop_while_head {A} (p : A -> bool) s x r : drop_while p s = x :: r -> p x = false.
Proof. induction s as [|y s IH]; simpl; [done|]. destruct (p y) eqn:E; [done|]. congruence. Qed.

Lemma drop_while_id {A} (p : A -> bool) s : (forall x r, s = x :: r -> p x = false) -> drop_while p s = s.
Proof. destruct s as [|x s]; simpl; [done|]. intros H. by rewrite (H x s). Qed.

(** *** The order on strings *)

Lemma str_leb_refl a : str_leb a a = true.
Proof. induction a; simpl; [done|]. rewrite Z.eqb_refl, IHa, orb_true_r. done. Qed.

Lemma str_leb_trans a b c : str_leb a b = true -> str_leb b c = true -> str_leb a c = true.
Proof.
  revert b c. induction a as [|x a IH]; intros [|y b] [|z c]; simpl; try done.
  rewrite !orb_true_iff, !andb_true_iff, !Z.ltb_lt, !Z.eqb_eq.
  intros [?|[-> ?]] [?|[-> ?]]; [left; lia|left; lia|left; lia|right; eauto].
Qed.

Lemma str_leb_total a b : str_leb a b = true \/ str_leb b a = true.
Proof.
  revert b. induction a as [|x a IH]; intros [|y b]; simpl; auto.
  rewrite !orb_true_iff, !andb_true_iff, !Z.ltb_lt, !Z.eqb_eq.
  destruct (IH b); destruct (Z.lt_trichotomy x y) as [|[|]]; auto 6 with lia.
Qed.

Lemma str_leb_antisym a b : str_leb a b = true -> str_leb b a = true -> a = b.
Proof.
  revert b. induction a as [|x a IH]; intros [|y b]; simpl; try done.
  rewrite !orb_true_iff, !andb_true_iff, !Z.ltb_lt, !Z.eqb_eq.
  intros [?|[-> ?]] [?|[? ?]]; try lia. f_equal. eauto.
Qed.

#[global] Instance key_le_trans {A} : Transitive (@key_le A).
Proof. intros ???. apply str_leb_trans. Qed.
#[global] Instance key_le_total {A} : Total (@key_le A).
Proof. intros ??. apply str_leb_total. Qed.

Lemma btree_iter_perm {A} (m : gmap str A) : btree_iter m ≡ₚ map_to_list m.
Proof. apply merge_sort_Permutation. Qed.

Lemma elem_of_btree_iter {A} (m : gmap str A) k v : (k, v) ∈ btree_iter m <-> m !! k = Some v.
Proof. by rewrite btree_iter_perm, elem_of_map_to_list. Qed.

Lemma btree_iter_sorted {A} (m : gmap str A) : StronglySorted key_le (btree_iter m).
Proof. apply StronglySorted_merge_sort; apply _. Qed.

Lemma elem_of_btree_keys {A} (m : gmap str A) k : k ∈ btree_keys m <-> is_Some (m !! k).
Proof.
  unfold btree_keys. rewrite list_elem_of_fmap. split.
  - intros ([k' v] & -> & H%elem_of_btree_iter). by eexists.
  - intros [v H%elem_of_btree_iter]. by exists (k, v).
Qed.

Lemma NoDup_btree_keys {A} (m : gmap str A) : NoDup (btree_keys m).
Proof. unfold btree_keys. rewrite btree_iter_perm. apply NoDup_fst_map_to_list. Qed.

Lemma length_btree_iter {A} (m : gmap str A) : length (btree_iter m) = size m.
Proof. by rewrite btree_iter_perm, length_map_to_list. Qed.

(** *** Decimal numerals *)

Definition dec_val (s : str) : Z := fold_left (fun a c => 10 * a + (c - 48)) s 0.

Lemma dec_go_spec fuel n acc :
  0 <= n < 10 ^ Z.of_nat fuel -> (0 < fuel)%nat ->
  exists d, dec_go fuel n acc = d ++ acc /\ d <> [] /\ dec_val d = n
            /\ Forall (fun c => is_ascii_digit c = true) d.
Proof.
  revert n acc. induction fuel as [|fuel IH]; intros n acc Hn Hf; [lia|]. simpl dec_go.
  pose proof (Z.mod_pos_bound n 10 eq_refl). pose proof (Z.div_mod n 10).
  assert (Hdig : is_ascii_digit (48 + n mod 10) = true) by (apply in_range_spec; lia).
  destruct (Z.ltb_spec n 10).
  - exists [48 + n mod 10]. split_and!; [done..| |by repeat constructor].
    unfold dec_val. cbn [fold_left]. rewrite Z.mod_small by lia. lia.
  - rewrite Nat2Z.inj_succ, Z.pow_succ_r in Hn by lia.
    destruct fuel as [|fuel]; [simpl in Hn; lia|].
    destruct (IH (n / 10) ((48 + n mod 10) :: acc)) as (d & -> & Hne & Hv & HF); [|lia|].
    { split; [apply Z.div_pos; lia|apply Z.div_lt_upper_bound; lia]. }
    exists (d ++ [48 + n mod 10]). rewrite <- app_assoc. split_and!; [done|by destruct d| |].
    + unfold dec_val in *. rewrite fold_left_app, Hv. cbn [fold_left]. lia.
    + apply Forall_app. split; [done|by repeat constructor].
Qed.

Lemma dec_spec n : u64 n ->
  dec n <> [] /\ dec_val (dec n) = n /\ Forall (fun c => is_ascii_digit c = true) (dec n).
Proof.
  intros Hn. destruct (dec_go_spec 20 n []) as (d & E & ? & ? & ?).
  - unfold u64, u64_max in Hn. change (10 ^ Z.of_nat 20) with 100000000000000000000. lia.
  - lia.
  - unfold dec. rewrite E, app_nil_r. done.
Qed.

Lemma dec_inj a b : u64 a -> u64 b -> dec a = dec b -> a = b.
Proof.
  intros (_ & Ha & _)%dec_spec (_ & Hb & _)%dec_spec E. rewrite E in Ha. congruence.
Qed.
