(* ===== verification/Sanitize.v ===== *)
(** * Rendering peer-supplied text

    [src/sanitize.rs] (the table of invisible formatters and the terminal
    escaper), the dialog renderer [display_label] of [src/dbus/prompt.rs] and
    the error-message excerpt [label_excerpt] of [src/vault/store.rs].

    The theorems say what a peer cannot do: no control character, no invisible
    formatter, and in a dialog none of the daemon's own punctuation, survives
    the rendering; and the rendered text is bounded. *)
From S2P Require Import Prelude Text.

(** ** The table and the terminal escaper *)

Definition is_invisible_format (c : char) : bool :=
  (c =? 0x00AD) || in_range 0x0600 0x0605 c || (c =? 0x061C) || (c =? 0x06DD)
  || (c =? 0x070F) || (c =? 0x08E2) || (c =? 0x180E) || in_range 0x200B 0x200F c
  || in_range 0x2028 0x202E c || in_range 0x2060 0x2064 c || in_range 0x2066 0x206F c
  || in_range 0xE000 0xF8FF c || (c =? 0xFEFF) || in_range 0xFFF9 0xFFFB c
  || (c =? 0x110BD) || (c =? 0x110CD) || in_range 0x1D173 0x1D17A c
  || (c =? 0xE0001) || in_range 0xE0020 0xE007F c || in_range 0xF0000 0xFFFFD c
  || in_range 0x100000 0x10FFFD c.

(** A char the escaper replaces. *)
Definition offending (c : char) : bool := is_control c || is_invisible_format c.

(** One byte as the escaper spells it: a backslash, [x], two hex digits. *)
Definition esc_byte (b : byte) : str := 92 :: 120 :: hex2 b.

Fixpoint escape_control (s : str) : str :=
  match s with
  | [] => []
  | ch :: s =>
    (if is_control ch || is_invisible_format ch
     then flat_map esc_byte (encode_utf8 ch)
     else [ch]) ++ escape_control s
  end.

(** ** The dialog renderer *)

Definition MAX_DISPLAY : nat := 64.

(** [split_whitespace().collect().join(" ")]. *)
Definition collapse_ws (s : str) : str := join [32] (split_whitespace s).

(** Keep [max] chars and append an ellipsis when there are more. *)
Definition truncate_ellipsis (max : nat) (s : str) : str :=
  if (max <? length s)%nat then take max s ++ [0x2026] else s.

Definition display_label (label : str) : str :=
  let cleaned :=
    map (fun c => if is_control c || ((c =? 34) || (c =? 40) || (c =? 41)) then 32 else c)
        (List.filter (fun c => negb (is_invisible_format c)) label) in
  let collapsed := collapse_ws cleaned in
  truncate_ellipsis MAX_DISPLAY collapsed.

(** ** The error-message excerpt *)

Definition MAX_EXCERPT : nat := 64.

(** [str::is_char_boundary]: the byte offset of some char, or the end. *)
Fixpoint is_char_boundary (s : str) (i : Z) : bool :=
  (i =? 0) ||
  match s with
  | [] => false
  | c :: s => is_char_boundary s (i - zlen (encode_utf8 c))
  end.

(** The slice [&s\[..i\]] at a char boundary. *)
Fixpoint slice_to (s : str) (i : Z) : str :=
  match s with
  | [] => []
  | c :: s => if i <=? 0 then [] else c :: slice_to s (i - zlen (encode_utf8 c))
  end.

Definition label_excerpt (label : str) : str :=
  let escaped := escape_control label in
  if str_len escaped <=? Z.of_nat MAX_EXCERPT then escaped
  else
    let fin := default 0 (find_map (fun i => if is_char_boundary escaped (Z.of_nat i)
                                             then Some (Z.of_nat i) else None)
                                   (rev (seq 0 (S MAX_EXCERPT)))) in
    slice_to escaped fin ++ [46; 46; 46].

(** ** Lemmas: the escaper *)

Lemma offending_ascii c : 32 <= c < 127 -> offending c = false.
Proof.
  intros. unfold offending, is_control, is_invisible_format, in_range.
  rewrite !orb_false_iff, !andb_false_iff, !Z.leb_gt, !Z.eqb_neq. lia.
Qed.

Lemma is_lower_hex_printable c : is_lower_hex c = true -> offending c = false.
Proof. intros ?%is_lower_hex_spec. apply offending_ascii. lia. Qed.

Lemma esc_byte_clean b : Forall (fun c => offending c = false) (esc_byte b).
Proof.
  unfold esc_byte. constructor; [done|]. constructor; [done|].
  eapply Forall_impl; [apply hex2_lower|]. apply is_lower_hex_printable.
Qed.

Lemma escape_bytes_clean bs : Forall (fun c => offending c = false) (flat_map esc_byte bs).
Proof. induction bs; [constructor|]. apply Forall_app. split; [apply esc_byte_clean|done]. Qed.

Lemma escape_control_all_clean s : Forall (fun c => offending c = false) (escape_control s).
Proof.
  induction s as [|c s IH]; simpl; [constructor|]. apply Forall_app. split; [|done].
  destruct (is_control c || is_invisible_format c) eqn:E; [apply escape_bytes_clean|].
  by repeat constructor.
Qed.

Lemma escape_control_clean_id s : Forall (fun c => offending c = false) s -> escape_control s = s.
Proof. induction 1 as [|c s Hc _ IH]; [done|]. simpl. unfold offending in Hc. by rewrite Hc, IH. Qed.

Lemma slice_to_Forall P s i : Forall P s -> Forall P (slice_to s i).
Proof. intros H. revert i. induction H; intros i; simpl; [done|]. case_match; auto. Qed.

Lemma slice_to_len s i : is_char_boundary s i = true -> 0 <= i -> str_len (slice_to s i) = i.
Proof.
  revert i. induction s as [|c s IH]; intros i; simpl.
  { rewrite orb_false_r, Z.eqb_eq. by intros ->. }
  rewrite orb_true_iff, Z.eqb_eq. intros [->|H] Hi; [done|].
  assert (0 <= i - zlen (encode_utf8 c)) as Hge.
  { destruct s as [|d s]; simpl in H; rewrite ?orb_false_r in H; [apply Z.eqb_eq in H; lia|].
    clear IH. revert H. generalize (i - zlen (encode_utf8 c)). intros z.
    assert (Hb : forall s z, is_char_boundary s z = true -> 0 <= z).
    { clear. induction s as [|c s IH]; intros z; simpl; rewrite orb_true_iff, Z.eqb_eq; [lia|].
      intros [->|H%IH]; [done|]. pose proof (zlen_nonneg (encode_utf8 c)). lia. }
    intros H. apply (Hb (d :: s)). done. }
  pose proof (length_encode_utf8 c).
  destruct (Z.leb_spec i 0); [unfold zlen in *; lia|].
  change (str_len (c :: ?x)) with (zlen (encode_utf8 c ++ utf8 x)).
  rewrite zlen_app. fold (str_len (slice_to s (i - zlen (encode_utf8 c)))).
  rewrite IH by done. lia.
Qed.

Lemma excerpt_cut_range s :
  0 <= default 0 (find_map (fun i => if is_char_boundary s (Z.of_nat i)
                                     then Some (Z.of_nat i) else None)
                           (rev (seq 0 (S MAX_EXCERPT)))) <= Z.of_nat MAX_EXCERPT
  /\ is_char_boundary s (default 0 (find_map (fun i => if is_char_boundary s (Z.of_nat i)
                                     then Some (Z.of_nat i) else None)
                           (rev (seq 0 (S MAX_EXCERPT))))) = true.
Proof.
  assert (H : Forall (fun i => (i <= MAX_EXCERPT)%nat) (rev (seq 0 (S MAX_EXCERPT)))).
  { apply Forall_rev. apply Forall_seq. lia. }
  revert H. generalize (rev (seq 0 (S MAX_EXCERPT))). intros l. induction 1 as [|i l Hi _ IH]; simpl.
  - split; [lia|]. by destruct s.
  - destruct (is_char_boundary s (Z.of_nat i)) eqn:E; simpl; [split; [lia|done]|done].
Qed.

(** ** Lemmas: whitespace *)

(** Words separated by single spaces, with no space at either end; [prev]
    says whether a separator (or the start) immediately precedes. *)
Fixpoint tight (prev : bool) (s : str) : bool :=
  match s with
  | [] => negb prev
  | c :: s => if is_whitespace c then (c =? 32) && negb prev && tight true s else tight false s
  end.

Lemma words_go_nonempty cur s : cur <> [] -> words_go cur s <> [].
Proof.
  revert cur. induction s as [|c s IH]; intros cur H; simpl.
  - by destruct cur.
  - destruct (is_whitespace c); [by destruct cur|]. by apply IH.
Qed.

Lemma tight_words_nonempty s : tight true s = true -> words_go [] s <> [].
Proof.
  destruct s as [|c s]; simpl; [done|]. destruct (is_whitespace c); simpl.
  - by rewrite andb_false_r.
  - intros _. by apply words_go_nonempty.
Qed.

Lemma join_words_tight s cur :
  tight (bool_decide (cur = [])) s = true -> join [32] (words_go cur s) = rev cur ++ s.
Proof.
  revert cur. induction s as [|c s IH]; intros cur; simpl.
  - destruct cur; [done|]. by rewrite app_nil_r.
  - destruct (is_whitespace c) eqn:Ec; intros H.
    + bool_to_prop. subst. destruct cur as [|x cur]; [done|].
      pose proof (tight_words_nonempty s H0) as Hne.
      pose proof (IH [] H0) as E. simpl in E.
      destruct (words_go [] s) as [|w ws]; [done|]. cbn [join]. by rewrite <- E.
    + rewrite IH by done. simpl. by rewrite <- app_assoc.
Qed.

Lemma collapse_tight s : tight true s = true -> collapse_ws s = s.
Proof. apply (join_words_tight s []). Qed.

Lemma words_go_wf cur s :
  Forall (fun c => is_whitespace c = false) cur ->
  Forall (fun w => w <> [] /\ Forall (fun c => is_whitespace c = false) w) (words_go cur s).
Proof.
  assert (Hrev : forall x l, rev (x :: l : str) <> []).
  { intros x l H. apply (f_equal length) in H. rewrite length_rev in H. done. }
  revert cur. induction s as [|c s IH]; intros cur H; simpl.
  - destruct cur; [constructor|]. repeat constructor; [apply Hrev|by apply Forall_rev].
  - destruct (is_whitespace c) eqn:E; [|apply IH; by constructor].
    destruct cur; [by apply IH|]. constructor; [|by apply IH].
    split; [apply Hrev|by apply Forall_rev].
Qed.

Lemma tight_word w s b : w <> [] -> Forall (fun c => is_whitespace c = false) w ->
  tight b (w ++ s) = tight false s.
Proof.
  intros Hne H. destruct w as [|c w]; [done|]. inversion H as [|? ? Hc Hw]; subst. simpl.
  rewrite Hc. clear H Hne Hc. induction Hw as [|d w Hd _ IH]; simpl; [done|]. by rewrite Hd.
Qed.

Lemma join_tight ws :
  Forall (fun w => w <> [] /\ Forall (fun c => is_whitespace c = false) w) ws ->
  ws <> [] -> tight true (join [32] ws) = true.
Proof.
  induction 1 as [|w ws [Hw1 Hw2] HF IH]; [done|]. intros _. destruct ws as [|w' ws].
  - simpl. rewrite <- (app_nil_r w), tight_word; done.
  - change (join [32] (w :: w' :: ws)) with (w ++ [32] ++ join [32] (w' :: ws)).
    rewrite tight_word by done. apply IH. done.
Qed.

Lemma collapse_result s : collapse_ws s = [] \/ tight true (collapse_ws s) = true.
Proof.
  unfold collapse_ws, split_whitespace.
  pose proof (words_go_wf [] s ltac:(constructor)) as H.
  destruct (words_go [] s) eqn:E; [by left|right]. by apply join_tight.
Qed.

Lemma collapse_idem s : collapse_ws (collapse_ws s) = collapse_ws s.
Proof. destruct (collapse_result s) as [->|H]; [done|]. by apply collapse_tight. Qed.

Lemma tight_take n s c b :
  is_whitespace c = false -> tight b s = true -> tight b (take n s ++ [c]) = true.
Proof.
  intros Hc. revert n b. induction s as [|x s IH]; intros n b H.
  - rewrite take_nil. simpl. by rewrite Hc.
  - destruct n as [|n]; simpl in *; [by rewrite Hc|].
    destruct (is_whitespace x); [|by apply IH]. bool_to_prop. by rewrite (IH n true), H, H1.
Qed.

Lemma elem_of_words_go c cur s w : w ∈ words_go cur s -> c ∈ w -> c ∈ cur \/ c ∈ s.
Proof.
  revert cur. induction s as [|x s IH]; intros cur; simpl.
  - destruct cur as [|y cur]; [by intros ?%not_elem_of_nil|].
    intros ->%list_elem_of_singleton. rewrite list_elem_of_In, <- in_rev, <- list_elem_of_In. auto.
  - rewrite elem_of_cons. destruct (is_whitespace x).
    + destruct cur as [|y cur].
      * intros Hw Hc. destruct (IH [] Hw Hc) as [?%not_elem_of_nil|]; [done|auto].
      * intros [->|Hw]%elem_of_cons Hc.
        { left. by rewrite list_elem_of_In, <- in_rev, <- list_elem_of_In in Hc. }
        destruct (IH [] Hw Hc) as [?%not_elem_of_nil|]; [done|auto].
    + intros Hw Hc. destruct (IH _ Hw Hc) as [[->|?]%elem_of_cons|?]; auto.
Qed.

Lemma elem_of_join c sep ws : c ∈ join sep ws -> c ∈ sep \/ exists w, w ∈ ws /\ c ∈ w.
Proof.
  induction ws as [|w ws IH]; [by intros ?%not_elem_of_nil|]. destruct ws as [|w' ws].
  - simpl. intros. right. exists w. split; [by left|done].
  - change (join sep (w :: w' :: ws)) with (w ++ sep ++ join sep (w' :: ws)).
    rewrite !elem_of_app. intros [?|[?|H]]; [|by left|].
    + right. exists w. split; [by left|done].
    + destruct (IH H) as [?|(w0 & ? & ?)]; [by left|]. right. exists w0. split; [by right|done].
Qed.

Lemma elem_of_collapse c s : c ∈ collapse_ws s -> c = 32 \/ c ∈ s.
Proof.
  intros [?%list_elem_of_singleton|(w & Hw & Hc)]%elem_of_join; [by left|].
  destruct (elem_of_words_go _ _ _ _ Hw Hc) as [?%not_elem_of_nil|?]; [done|by right].
Qed.

Lemma collapse_Forall (P : char -> Prop) s : P 32 -> Forall P s -> Forall P (collapse_ws s).
Proof.
  rewrite !Forall_forall. intros H32 H c [->|Hc]%elem_of_collapse; auto.
Qed.

Lemma truncate_Forall (P : char -> Prop) n s : P 0x2026 -> Forall P s -> Forall P (truncate_ellipsis n s).
Proof.
  intros He H. unfold truncate_ellipsis. case_match; [|done].
  apply Forall_app. split; [by apply Forall_take|by repeat constructor].
Qed.

Lemma truncate_length n s : (length (truncate_ellipsis n s) <= S n)%nat.
Proof.
  unfold truncate_ellipsis. destruct (Nat.ltb_spec n (length s)); [|lia].
  rewrite length_app, length_take. simpl. lia.
Qed.

Lemma truncate_tight n s : s = [] \/ tight true s = true ->
  truncate_ellipsis n s = [] \/ tight true (truncate_ellipsis n s) = true.
Proof.
  unfold truncate_ellipsis. destruct (Nat.ltb_spec n (length s)); [|done].
  intros [->|Hs]; [simpl in *; lia|]. right. by apply tight_take.
Qed.

Lemma truncate_idem n s : truncate_ellipsis n (truncate_ellipsis n s) = truncate_ellipsis n s.
Proof.
  unfold truncate_ellipsis at 2 3. destruct (Nat.ltb_spec n (length s)).
  - unfold truncate_ellipsis. rewrite length_app, length_take, Nat.min_l by lia. simpl.
    destruct (Nat.ltb_spec n (n + 1)); [|lia].
    rewrite take_app_le, take_take, Nat.min_id by (rewrite length_take; lia). done.
  - unfold truncate_ellipsis. destruct (Nat.ltb_spec n (length s)); [lia|done].
Qed.

(** What a char of a rendered label satisfies. *)
Definition dialog_safe (c : char) : bool :=
  negb (is_invisible_format c) && negb (is_control c || ((c =? 34) || (c =? 40) || (c =? 41))).

Lemma clean_map_safe l :
  Forall (fun c => dialog_safe c = true)
    (map (fun c => if is_control c || ((c =? 34) || (c =? 40) || (c =? 41)) then 32 else c)
         (List.filter (fun c => negb (is_invisible_format c)) l)).
Proof.
  apply Forall_map, Forall_forall. intros c Hc.
  apply list_elem_of_In, filter_In in Hc as [_ Hc]. simpl.
  destruct (is_control c || ((c =? 34) || (c =? 40) || (c =? 41))) eqn:E; [done|].
  unfold dialog_safe. by rewrite Hc, E.
Qed.

Lemma display_label_chars l : Forall (fun c => dialog_safe c = true) (display_label l).
Proof.
  apply truncate_Forall; [done|]. apply collapse_Forall; [done|]. apply clean_map_safe.
Qed.

Lemma clean_map_id s :
  Forall (fun c => dialog_safe c = true) s ->
  map (fun c => if is_control c || ((c =? 34) || (c =? 40) || (c =? 41)) then 32 else c)
      (List.filter (fun c => negb (is_invisible_format c)) s) = s.
Proof.
  induction 1 as [|c s Hc _ IH]; [done|]. unfold dialog_safe in Hc.
  apply andb_prop in Hc as [H1 H2]. apply negb_true_iff in H2.
  cbn [List.filter]. rewrite H1. cbn [map]. by rewrite H2, IH.
Qed.

Lemma display_label_tight l : display_label l = [] \/ tight true (display_label l) = true.
Proof. apply truncate_tight, collapse_result. Qed.

(** ** Properties *)

(** The terminal escaper is complete: whatever the peer sent, no control
    character and no invisible formatter is left in what is printed. *)
Theorem escape_control_safe s :
  Forall (fun c => is_control c = false /\ is_invisible_format c = false) (escape_control s).
Proof.
  eapply Forall_impl; [apply escape_control_all_clean|]. intros c H. by apply orb_false_iff.
Qed.

(** The dialog renderer: at most 64 characters and an ellipsis, no control
    character, no invisible formatter, none of the double quote and the two parentheses the
    dialogs use structurally, words separated by single spaces; and rendering
    a rendered label again changes nothing. *)
Theorem display_label_safe l :
  (length (display_label l) <= 65)%nat
  /\ Forall (fun c => is_control c = false /\ is_invisible_format c = false
                      /\ c <> 34 /\ c <> 40 /\ c <> 41) (display_label l)
  /\ (display_label l = [] \/ tight true (display_label l) = true)
  /\ display_label (display_label l) = display_label l.
Proof.
  split_and!; [apply truncate_length| |apply display_label_tight|].
  - eapply Forall_impl; [apply display_label_chars|]. intros c H. unfold dialog_safe in H.
    bool_to_prop. split_and!; done.
  - unfold display_label at 1. rewrite clean_map_id by apply display_label_chars.
    replace (collapse_ws (display_label l)) with (display_label l); [apply truncate_idem|].
    destruct (display_label_tight l) as [->|H]; [done|]. by rewrite collapse_tight.
Qed.

(** The excerpt put in an error message is at most 64 bytes of escaped text
    plus three dots, cut on a character boundary, and carries nothing the
    escaper would have replaced. *)
Theorem label_excerpt_bounded l :
  str_len (label_excerpt l) <= 67 /\ Forall (fun c => offending c = false) (label_excerpt l).
Proof.
  unfold label_excerpt. pose proof (excerpt_cut_range (escape_control l)) as [Hr Hb].
  pose proof (escape_control_all_clean l) as Hc. revert Hr Hb Hc.
  generalize (escape_control l). intros s.
  generalize (default 0 (find_map (fun i => if is_char_boundary s (Z.of_nat i)
                           then Some (Z.of_nat i) else None) (rev (seq 0 (S MAX_EXCERPT))))).
  change (Z.of_nat MAX_EXCERPT) with 64. intros fin Hr Hb Hc.
  destruct (Z.leb_spec (str_len s) 64) as [H|H]; [split; [lia|done]|]. split.
  - rewrite str_len_app, slice_to_len by (done || lia). change (str_len [46; 46; 46]) with 3. lia.
  - apply Forall_app. split; [by apply slice_to_Forall|by repeat constructor].
Qed.
