(* ===== verification/Names.v ===== *)
(** * Names: collection ids and D-Bus object paths

    [collection_id_from_label] of [src/vault/mod.rs] and the whole of
    [src/dbus/paths.rs].  [ObjectPath::try_from] belongs to [zvariant] and is
    the section variable [object_path_try_from]; what the code relies on is
    that a path made of non-empty [\[A-Za-z0-9_\]] elements is accepted
    (the D-Bus specification's grammar). *)
From S2P Require Import Prelude Text Sanitize.

(** ** [vault::collection_id_from_label] *)

Definition MAX_ID_LEN : Z := 200.

Definition is_empty {A} (l : list A) : bool := match l with [] => true | _ => false end.

(** The [for] loop over the label's chars. *)
Fixpoint id_loop (label : str) (id : str) (last_underscore : bool) : str :=
  match label with
  | [] => id
  | ch :: label =>
    let c := to_ascii_lowercase ch in
    if is_ascii_alphanumeric c then id_loop label (id ++ [c]) false
    else if negb last_underscore && negb (is_empty id)
         then id_loop label (id ++ [95]) true
         else id_loop label id last_underscore
  end.

Definition collection_id_from_label (label : str) : str :=
  let id := id_loop label [] false in
  let id := trim_end_matches 95 (slice_to id (Z.min (str_len id) MAX_ID_LEN)) in
  if is_empty id then lit "collection" else id.

(** ** [dbus::paths] *)

Definition SERVICE_PATH : str := lit "/org/freedesktop/secrets".
Definition COLLECTIONS_PREFIX : str := lit "/org/freedesktop/secrets/collection/".
Definition ALIASES_PREFIX : str := lit "/org/freedesktop/secrets/aliases/".
Definition SESSIONS_PREFIX : str := lit "/org/freedesktop/secrets/session/".
Definition PROMPTS_PREFIX : str := lit "/org/freedesktop/secrets/prompt/".

(** D-Bus object path segment: the test is on the bytes. *)
Definition is_segment (s : str) : bool :=
  negb (is_empty s)
  && forallb (fun b => is_ascii_alphanumeric (b2z b) || (b2z b =? 95)) (utf8 s).

Inductive Target : Type :=
| TCollection (id : str)
| TAlias (name : str)
| TItem (collection item : str)
| TAliasItem (alias item : str).

#[global] Instance Target_eq_dec : EqDecision Target.
Proof. solve_decision. Defined.

(** The closure [split] of [parse]: one or two valid segments. *)
Definition parse_split (rest : str) : option (str * option str) :=
  match split_on 47 rest with
  | [] => None
  | first :: parts =>
    if is_segment first then
      match parts with
      | [] => Some (first, None)
      | s :: parts =>
        if is_segment s then
          match parts with [] => Some (first, Some s) | _ :: _ => None end
        else None
      end
    else None
  end.

Definition parse (path : str) : option Target :=
  match strip_prefix COLLECTIONS_PREFIX path with
  | Some rest =>
    let! sp := parse_split rest in
    match sp with
    | (collection, None) => Some (TCollection collection)
    | (collection, Some item) => Some (TItem collection item)
    end
  | None =>
    match strip_prefix ALIASES_PREFIX path with
    | Some rest =>
      let! sp := parse_split rest in
      match sp with
      | (alias, None) => Some (TAlias alias)
      | (alias, Some item) => Some (TAliasItem alias item)
      end
    | None => None
    end
  end.

Section paths.
(** [ObjectPath::try_from]; [None] where the code's [expect] would panic. *)
Variable object_path_try_from : str -> option str.

Definition owned (s : str) : option str := object_path_try_from s.

Definition collection_path (id : str) : option str := owned (COLLECTIONS_PREFIX ++ id).

Definition item_path (collection_id item_id : str) : option str :=
  owned (COLLECTIONS_PREFIX ++ collection_id ++ [47] ++ item_id).

(** The outer option is the code's; the inner one [owned]'s panic. *)
Definition alias_path (name : str) : option (option str) :=
  if is_segment name then Some (owned (ALIASES_PREFIX ++ name)) else None.

(** [suffix] is the eight random bytes drawn by [unguessable_suffix]. *)
Definition unguessable_suffix (suffix : bytes) : str := hex suffix.

Definition session_path (n : Z) (suffix : bytes) : option str :=
  owned (SESSIONS_PREFIX ++ [115] ++ dec n ++ [95] ++ unguessable_suffix suffix).

Definition prompt_path (n : Z) (suffix : bytes) : option str :=
  owned (PROMPTS_PREFIX ++ [112] ++ dec n ++ [95] ++ unguessable_suffix suffix).
End paths.

(** The documented grammar: a slash before each of one or more segments. *)
Definition accepts_segments (try_from : str -> option str) : Prop :=
  forall segs, segs <> [] -> Forall (fun s => is_segment s = true) segs ->
    try_from (flat_map (cons 47) segs) = Some (flat_map (cons 47) segs).

(** ** Lemmas: slugs *)

Definition slug_char (c : char) : bool := is_ascii_digit c || is_ascii_lowercase c.

(** [\[a-z0-9_\]] with no underscore first and no two in a row; [prev] says
    whether an underscore (or the start) immediately precedes. *)
Fixpoint slug (prev : bool) (s : str) : bool :=
  match s with
  | [] => true
  | c :: s => if c =? 95 then negb prev && slug true s else slug_char c && slug false s
  end.

Lemma slug_char_spec c : slug_char c = true <-> 48 <= c <= 57 \/ 97 <= c <= 122.
Proof.
  unfold slug_char, is_ascii_digit, is_ascii_lowercase. by rewrite orb_true_iff, !in_range_spec.
Qed.

Lemma slug_app_char p s c : slug p s = true -> slug_char c = true -> slug p (s ++ [c]) = true.
Proof.
  intros H Hc. revert p H. induction s as [|x s IH]; intros p; simpl.
  - destruct (Z.eqb_spec c 95) as [->|]; [|by rewrite Hc]. done.
  - case_match; rewrite !andb_true_iff; intros [? ?]; auto.
Qed.

Lemma slug_app_underscore p s x :
  slug p (s ++ [x]) = true -> x <> 95 -> slug p (s ++ [x] ++ [95]) = true.
Proof.
  intros H Hx. revert p H. induction s as [|y s IH]; intros p; simpl.
  - destruct (Z.eqb_spec x 95); [done|]. rewrite !andb_true_iff. done.
  - case_match; rewrite !andb_true_iff; intros [? ?]; auto.
Qed.

Lemma slug_take n p s : slug p s = true -> slug p (take n s) = true.
Proof.
  revert n p. induction s as [|x s IH]; intros [|n] p; simpl; try done.
  case_match; rewrite !andb_true_iff; intros [? ?]; auto.
Qed.

Lemma slug_prefix p s k : slug p (s ++ k) = true -> slug p s = true.
Proof. intros H. rewrite <- (take_app_length s k). by apply slug_take. Qed.

Lemma slug_ascii p s : slug p s = true -> Forall (fun c => 0 <= c < 128) s.
Proof.
  revert p. induction s as [|x s IH]; intros p; simpl; [constructor|].
  destruct (Z.eqb_spec x 95) as [->|]; rewrite andb_true_iff.
  - intros [_ H]. constructor; [lia|eauto].
  - intros [?%slug_char_spec H]. constructor; [lia|eauto].
Qed.

Lemma utf8_ascii s : Forall (fun c => 0 <= c < 128) s -> utf8 s = map z2b s.
Proof.
  induction 1 as [|c s Hc _ IH]; [done|]. cbn [utf8 map]. unfold encode_utf8.
  destruct (Z.ltb_spec c 128); [|lia]. by rewrite IH.
Qed.

Lemma str_len_ascii s : Forall (fun c => 0 <= c < 128) s -> str_len s = zlen s.
Proof. intros H. unfold str_len, zlen. by rewrite utf8_ascii, length_map. Qed.

Lemma slice_to_ascii s n : Forall (fun c => 0 <= c < 128) s -> slice_to s (Z.of_nat n) = take n s.
Proof.
  intros H. revert n. induction H as [|c s Hc _ IH]; intros n; simpl; [by rewrite take_nil|].
  unfold encode_utf8. destruct (Z.ltb_spec c 128); [|lia].
  destruct n as [|n]; [done|]. destruct (Z.leb_spec (Z.of_nat (S n)) 0); [lia|].
  change (zlen [z2b c]) with 1. replace (Z.of_nat (S n) - 1) with (Z.of_nat n) by lia.
  by rewrite IH.
Qed.

Lemma is_segment_ascii s :
  s <> [] -> Forall (fun c => is_ascii_alphanumeric c = true \/ c = 95) s -> is_segment s = true.
Proof.
  intros Hne H. unfold is_segment. apply andb_true_iff. split; [by destruct s|].
  assert (Ha : Forall (fun c => 0 <= c < 128) s).
  { eapply Forall_impl; [exact H|]. intros c [?%is_ascii_alphanumeric_spec| ->]; lia. }
  rewrite utf8_ascii by done. apply forallb_forall. intros b Hb.
  apply in_map_iff in Hb as (c & <- & Hc).
  rewrite Forall_forall in H, Ha. apply list_elem_of_In in Hc.
  specialize (H c Hc). specialize (Ha c Hc). rewrite b2z_z2b, Z.mod_small by lia.
  apply orb_true_iff. by rewrite Z.eqb_eq.
Qed.

Lemma slug_segment p s : s <> [] -> slug p s = true -> is_segment s = true.
Proof.
  intros Hne H. apply is_segment_ascii; [done|]. clear Hne. revert p H.
  induction s as [|c s IH]; intros p; simpl; [constructor|].
  destruct (Z.eqb_spec c 95) as [->|]; rewrite andb_true_iff.
  - intros [_ H]. constructor; [by right|eauto].
  - intros [?%slug_char_spec H]. constructor; [|eauto].
    left. apply is_ascii_alphanumeric_spec. lia.
Qed.

Lemma lower_alnum_slug c : is_ascii_alphanumeric (to_ascii_lowercase c) = true ->
  slug_char (to_ascii_lowercase c) = true.
Proof.
  unfold to_ascii_lowercase, is_ascii_uppercase. destruct (in_range 65 90 c) eqn:E.
  - intros _. apply in_range_spec in E. apply slug_char_spec. lia.
  - intros H%is_ascii_alphanumeric_spec. apply slug_char_spec.
    assert (~ (65 <= c <= 90)) by (rewrite <- in_range_spec; congruence). lia.
Qed.

(** The loop's invariant: a slug so far, and the flag says how it ends. *)
Lemma id_loop_slug label id last :
  slug true id = true ->
  (forall s x, id = s ++ [x] -> last = bool_decide (x = 95)) ->
  slug true (id_loop label id last) = true.
Proof.
  revert id last. induction label as [|ch label IH]; intros id last Hid Hl; cbn [id_loop]; [done|].
  destruct (is_ascii_alphanumeric (to_ascii_lowercase ch)) eqn:E.
  - apply lower_alnum_slug in E. apply IH; [by apply slug_app_char|].
    intros s x [_ [= <-]]%app_inj_tail. symmetry. apply bool_decide_eq_false.
    apply slug_char_spec in E. lia.
  - destruct (negb last && negb (is_empty id)) eqn:E2; [|by apply IH].
    bool_to_prop. apply IH.
    + destruct (exists_last (l := id)) as (s & x & ->); [by destruct id|].
      rewrite <- app_assoc. apply slug_app_underscore; [done|].
      rewrite (Hl s x eq_refl) in H. by apply bool_decide_eq_false in H.
    + intros s x [_ [= <-]]%app_inj_tail. by rewrite bool_decide_true.
Qed.

(** On a slug the loop copies. *)
Lemma id_loop_id s id last :
  slug (last || is_empty id) s = true -> id_loop s id last = id ++ s.
Proof.
  revert id last. induction s as [|c s IH]; intros id last H; cbn [id_loop]; [by rewrite app_nil_r|].
  simpl in H. destruct (Z.eqb_spec c 95) as [->|Hne].
  - rewrite andb_true_iff, negb_true_iff, orb_false_iff in H. destruct H as [[-> He] Hs].
    rewrite He. cbn. rewrite IH; [by rewrite <- app_assoc|]. done.
  - rewrite andb_true_iff in H. destruct H as [Hc Hs]. apply slug_char_spec in Hc as Hc'.
    assert (to_ascii_lowercase c = c) as ->.
    { unfold to_ascii_lowercase, is_ascii_uppercase, in_range. decide_cmp; lia || done. }
    rewrite (proj2 (is_ascii_alphanumeric_spec c)) by lia.
    rewrite IH; [by rewrite <- app_assoc|]. by destruct id.
Qed.

Lemma trim_end_spec c s : exists k, s = trim_end_matches c s ++ k
  /\ forall t x, trim_end_matches c s = t ++ [x] -> x <> c.
Proof.
  unfold trim_end_matches. destruct (drop_while_suffix (fun x => x =? c) (rev s)) as (k & Hk & _).
  exists (rev k). split.
  - rewrite <- rev_app_distr, <- Hk. by rewrite rev_involutive.
  - intros t x H. apply (f_equal (@rev Z)) in H. rewrite rev_involutive, rev_app_distr in H.
    apply drop_while_head in H. by apply Z.eqb_neq in H.
Qed.

Lemma trim_end_id c s : (forall t x, s = t ++ [x] -> x <> c) -> trim_end_matches c s = s.
Proof.
  intros H. unfold trim_end_matches. rewrite drop_while_id; [apply rev_involutive|].
  intros x r E. apply (f_equal (@rev Z)) in E. rewrite rev_involutive in E. simpl in E.
  apply Z.eqb_neq. by eapply H.
Qed.

(** A finished collection id. *)
Definition id_ok (id : str) : Prop :=
  id <> [] /\ slug true id = true /\ str_len id <= MAX_ID_LEN /\ forall t x, id = t ++ [x] -> x <> 95.

Lemma collection_id_ok label : id_ok (collection_id_from_label label).
Proof.
  unfold collection_id_from_label. set (id := id_loop label [] false).
  assert (Hs : slug true id = true).
  { apply id_loop_slug; [done|]. intros s x H. by destruct s. }
  pose proof (slug_ascii _ _ Hs) as Ha. rewrite (str_len_ascii id) by done.
  set (n := Z.to_nat (Z.min (zlen id) MAX_ID_LEN)).
  replace (Z.min (zlen id) MAX_ID_LEN) with (Z.of_nat n)
    by (unfold n, MAX_ID_LEN; pose proof (zlen_nonneg id); lia).
  rewrite slice_to_ascii by done. set (cut := take n id).
  destruct (trim_end_spec 95 cut) as (k & Hk & Hend).
  destruct (is_empty (trim_end_matches 95 cut)) eqn:He.
  { split_and!; [done|done|vm_compute; congruence|].
    intros t x H. change (lit "collection") with (lit "collectio" ++ [110]) in H.
    apply app_inj_tail in H as [_ <-]. done. }
  assert (Ht : slug true (trim_end_matches 95 cut) = true).
  { apply (slug_prefix _ _ k). rewrite <- Hk. by apply slug_take. }
  split_and!; [by intros E; rewrite E in He|done| |done].
  rewrite str_len_ascii by (by eapply slug_ascii).
  assert (zlen (trim_end_matches 95 cut) <= zlen cut) by (rewrite Hk at 2; rewrite zlen_app; pose proof (zlen_nonneg k); lia).
  assert (zlen cut <= MAX_ID_LEN); [|lia].
  unfold cut, n, zlen, MAX_ID_LEN in *. rewrite length_take. lia.
Qed.

Lemma collection_id_fixed id : id_ok id -> collection_id_from_label id = id.
Proof.
  intros (Hne & Hs & Hlen & Hend). unfold collection_id_from_label.
  rewrite id_loop_id by done. cbn [app]. pose proof (slug_ascii _ _ Hs) as Ha.
  rewrite Z.min_l by done. rewrite str_len_ascii by done. unfold zlen.
  rewrite slice_to_ascii, firstn_all by done. rewrite trim_end_id by done. by destruct id.
Qed.

(** ** Lemmas: segments and paths *)

Lemma utf8_elem c s b : c ∈ s -> b ∈ encode_utf8 c -> b ∈ utf8 s.
Proof.
  induction s as [|x s IH]; [by intros ?%not_elem_of_nil|].
  intros [->|H]%elem_of_cons Hb; simpl; apply elem_of_app; auto.
Qed.

Lemma segment_no_slash s : is_segment s = true -> 47 ∉ s.
Proof.
  unfold is_segment. intros [_ H]%andb_prop Hin. rewrite forallb_forall in H.
  assert (Hb : z2b 47 ∈ utf8 s) by (apply (utf8_elem 47); [done|]; by left).
  apply list_elem_of_In in Hb. by specialize (H _ Hb).
Qed.

Lemma segment_nonempty s : is_segment s = true -> s <> [].
Proof. by destruct s. Qed.

(** The path each target is written as. *)
Definition target_path (t : Target) : str :=
  match t with
  | TCollection id => COLLECTIONS_PREFIX ++ id
  | TAlias name => ALIASES_PREFIX ++ name
  | TItem c i => COLLECTIONS_PREFIX ++ c ++ [47] ++ i
  | TAliasItem a i => ALIASES_PREFIX ++ a ++ [47] ++ i
  end.

Definition target_ok (t : Target) : bool :=
  match t with
  | TCollection s | TAlias s => is_segment s
  | TItem a b | TAliasItem a b => is_segment a && is_segment b
  end.

Lemma parse_split_one s : is_segment s = true -> parse_split s = Some (s, None).
Proof.
  intros H. unfold parse_split. rewrite split_on_not_in by (by apply segment_no_slash). by rewrite H.
Qed.

Lemma parse_split_two a b : is_segment a = true -> is_segment b = true ->
  parse_split (a ++ [47] ++ b) = Some (a, Some b).
Proof.
  intros Ha Hb. unfold parse_split. simpl app.
  rewrite split_on_app, split_on_not_in by (by apply segment_no_slash). by rewrite Ha, Hb.
Qed.

Lemma parse_split_sound rest a o : parse_split rest = Some (a, o) ->
  is_segment a = true /\
  match o with
  | None => rest = a
  | Some b => is_segment b = true /\ rest = a ++ [47] ++ b
  end.
Proof.
  unfold parse_split. destruct (split_on_cons 47 rest) as (p & ps & -> & _ & ->).
  destruct (is_segment p) eqn:Ep; [|done]. destruct ps as [|q ps].
  - intros [= <- <-]. simpl. by rewrite app_nil_r.
  - destruct (is_segment q) eqn:Eq; [|done]. destruct ps; [|done].
    intros [= <- <-]. simpl. by rewrite app_nil_r.
Qed.

Lemma strip_prefix_app p s : strip_prefix p (p ++ s) = Some s.
Proof. by apply strip_prefix_Some. Qed.

Lemma strip_collections_aliases s : strip_prefix COLLECTIONS_PREFIX (ALIASES_PREFIX ++ s) = None.
Proof. reflexivity. Qed.

Lemma parse_target_path t : target_ok t = true -> parse (target_path t) = Some t.
Proof.
  destruct t; cbn [target_ok target_path]; intros H; bool_to_prop; unfold parse;
    rewrite ?strip_collections_aliases, strip_prefix_app;
    first [rewrite parse_split_two by done|rewrite parse_split_one by done]; done.
Qed.

Lemma parse_sound_path p t : parse p = Some t -> target_ok t = true /\ p = target_path t.
Proof.
  unfold parse. destruct (strip_prefix COLLECTIONS_PREFIX p) as [r|] eqn:E1.
  - apply strip_prefix_Some in E1 as ->. destruct (parse_split r) as [[a o]|] eqn:E; [|done].
    apply parse_split_sound in E as [Ha Ho]. destruct o as [b|]; intros [= <-]; simpl.
    + destruct Ho as [Hb ->]. by rewrite Ha, Hb.
    + by subst.
  - destruct (strip_prefix ALIASES_PREFIX p) as [r|] eqn:E2; [|done].
    apply strip_prefix_Some in E2 as ->. destruct (parse_split r) as [[a o]|] eqn:E; [|done].
    apply parse_split_sound in E as [Ha Ho]. destruct o as [b|]; intros [= <-]; simpl.
    + destruct Ho as [Hb ->]. by rewrite Ha, Hb.
    + by subst.
Qed.

(** A prefix of ours is slash-separated segments, so it extends by one. *)
Lemma accepts_under tf base s :
  accepts_segments tf -> Forall (fun s => is_segment s = true) base -> is_segment s = true ->
  tf (flat_map (cons 47) base ++ [47] ++ s) = Some (flat_map (cons 47) base ++ [47] ++ s).
Proof.
  intros Htf Hb Hs. specialize (Htf (base ++ [s])).
  rewrite flat_map_app in Htf. simpl in Htf. rewrite app_nil_r in Htf. apply Htf.
  - by destruct base.
  - apply Forall_app. by repeat constructor.
Qed.

Lemma counter_segment c n suffix : (c = 115 \/ c = 112) -> u64 n ->
  is_segment ([c] ++ dec n ++ [95] ++ hex suffix) = true.
Proof.
  intros Hc (_ & _ & Hd)%dec_spec. apply is_segment_ascii; [done|].
  repeat (apply Forall_app; split); [| |by apply Forall_singleton; right|].
  - apply Forall_singleton. left. by destruct Hc as [-> | ->].
  - eapply Forall_impl; [exact Hd|]. intros x ?%in_range_spec. left.
    apply is_ascii_alphanumeric_spec. lia.
  - eapply Forall_impl; [apply hex_lower|]. intros x ?%is_lower_hex_spec. left.
    apply is_ascii_alphanumeric_spec. lia.
Qed.

Lemma counter_inj base c n m r r' : u64 n -> u64 m ->
  base ++ [c] ++ dec n ++ [95] ++ hex r = base ++ [c] ++ dec m ++ [95] ++ hex r' -> n = m.
Proof.
  intros Hn Hm E. apply app_inv_head in E. simpl in E. injection E as E.
  destruct (dec_spec n Hn) as (_ & _ & Dn). destruct (dec_spec m Hm) as (_ & _ & Dm).
  assert (Hno : forall d, Forall (fun c => is_ascii_digit c = true) d -> 95 ∉ d).
  { intros d HF Hin. rewrite Forall_forall in HF. by specialize (HF _ Hin). }
  assert (Some (dec n, hex r) = Some (dec m, hex r')) as [= H _].
  { rewrite <- (proj2 (split_once_Some 95 (dec n ++ 95 :: hex r) _ _)) by auto.
    rewrite E. apply split_once_Some. auto. }
  by apply dec_inj.
Qed.

(** ** Properties *)

(** Whatever the label, the derived collection id is a non-empty
    [a-z0-9_] slug with no leading, doubled or trailing underscore, so it is a
    valid object-path segment; its file name [<id>.vault] fits [NAME_MAX]
    with room for an eleven-byte uniquifier; and the function is a projection
    (an id derives itself). *)
Theorem collection_id_from_label_spec label :
  let id := collection_id_from_label label in
  id <> [] /\ slug true id = true /\ (forall t x, id = t ++ [x] -> x <> 95)
  /\ is_segment id = true
  /\ str_len id <= MAX_ID_LEN
  /\ str_len (id ++ lit "_1234567890.vault") <= 255
  /\ collection_id_from_label id = id.
Proof.
  pose proof (collection_id_ok label) as Hok. pose proof Hok as (Hne & Hs & Hl & He). cbv zeta.
  split_and!; [done..| |done| |by apply collection_id_fixed].
  - by eapply slug_segment.
  - rewrite str_len_app. change (str_len (lit "_1234567890.vault")) with 17.
    unfold MAX_ID_LEN in Hl. lia.
Qed.

(** [parse] is the exact inverse of the path constructors: the path of a
    target with valid segments parses to that target, and a path parses to a
    target only if it is that target's own path with valid segments. Hence two
    different paths never name the same object. *)
Theorem parse_exact p t : parse p = Some t <-> target_ok t = true /\ p = target_path t.
Proof.
  split; [apply parse_sound_path|]. intros [H ->]. by apply parse_target_path.
Qed.

(** On valid ids the path builders never reach [owned]'s panic, and what
    they build resolves to what it was built from; session and prompt paths
    under different counters differ whatever the random suffixes are. *)
Theorem paths_total_and_unique tf :
  accepts_segments tf ->
  (forall id, is_segment id = true ->
     exists p, collection_path tf id = Some p /\ parse p = Some (TCollection id))
  /\ (forall c i, is_segment c = true -> is_segment i = true ->
     exists p, item_path tf c i = Some p /\ parse p = Some (TItem c i))
  /\ (forall a, is_segment a = true ->
     exists p, alias_path tf a = Some (Some p) /\ parse p = Some (TAlias a))
  /\ (forall n r m r' p, u64 n -> u64 m ->
     session_path tf n r = Some p -> session_path tf m r' = Some p -> n = m)
  /\ (forall n r m r' p, u64 n -> u64 m ->
     prompt_path tf n r = Some p -> prompt_path tf m r' = Some p -> n = m).
Proof.
  intros Htf.
  set (root := [lit "org"; lit "freedesktop"; lit "secrets"]).
  assert (Hu : forall base, Forall (fun s => is_segment s = true) (root ++ base) ->
    forall s, is_segment s = true ->
    tf (flat_map (cons 47) (root ++ base) ++ [47] ++ s) = Some (flat_map (cons 47) (root ++ base) ++ [47] ++ s)).
  { intros. by apply accepts_under. }
  split_and!.
  - intros id Hid. exists (target_path (TCollection id)).
    split; [|by apply parse_target_path]. apply (Hu [lit "collection"]); by repeat constructor.
  - intros c i Hc Hi. exists (target_path (TItem c i)).
    split; [|apply parse_target_path; simpl; by rewrite Hc].
    pose proof (Hu [lit "collection"; c] ltac:(by repeat constructor) i Hi) as H.
    rewrite app_assoc, flat_map_app, <- !app_assoc in H. cbn [flat_map app] in H.
    rewrite app_nil_r in H. exact H.
  - intros a Ha. exists (target_path (TAlias a)). split; [|by apply parse_target_path].
    unfold alias_path. rewrite Ha. f_equal. apply (Hu [lit "aliases"]); by repeat constructor.
  - assert (Hs : forall n r, u64 n -> session_path tf n r
                 = Some (SESSIONS_PREFIX ++ [115] ++ dec n ++ [95] ++ hex r)).
    { intros n r Hn. apply (Hu [lit "session"]); [by repeat constructor|].
      apply counter_segment; auto. }
    intros n r m r' p Hn Hm. rewrite !Hs by done. intros E1 E2.
    rewrite <- E1 in E2. apply (inj Some) in E2. symmetry. by eapply counter_inj.
  - assert (Hs : forall n r, u64 n -> prompt_path tf n r
                 = Some (PROMPTS_PREFIX ++ [112] ++ dec n ++ [95] ++ hex r)).
    { intros n r Hn. apply (Hu [lit "prompt"]); [by repeat constructor|].
      apply counter_segment; auto. }
    intros n r m r' p Hn Hm. rewrite !Hs by done. intros E1 E2.
    rewrite <- E1 in E2. apply (inj Some) in E2. symmetry. by eapply counter_inj.
Qed.

(** A checker of the object-path grammar, at which the properties are
    instantiated below. *)
Definition grammar_try_from (s : str) : option str :=
  match split_on 47 s with
  | [] :: q :: qs => if forallb is_segment (q :: qs) then Some s else None
  | _ => None
  end.

Lemma split_on_flat_map segs p :
  Forall (fun s => is_segment s = true) (p :: segs) ->
  split_on 47 (p ++ flat_map (cons 47) segs) = p :: segs.
Proof.
  revert p. induction segs as [|q segs IH]; intros p H; inversion H; subst; simpl.
  - rewrite app_nil_r, split_on_not_in; [done|by apply segment_no_slash].
  - rewrite split_on_app by (by apply segment_no_slash). by rewrite IH.
Qed.

Lemma grammar_accepts : accepts_segments grammar_try_from.
Proof.
  intros [|p segs] Hne H; [done|]. unfold grammar_try_from.
  change (flat_map (cons 47) (p :: segs)) with ([] ++ 47 :: (p ++ flat_map (cons 47) segs)).
  rewrite split_on_app by apply not_elem_of_nil. rewrite split_on_flat_map by done.
  assert (forallb is_segment (p :: segs) = true) as Hall.
  { apply forallb_forall. intros s Hs%list_elem_of_In. rewrite Forall_forall in H. auto. }
  by rewrite Hall.
Qed.

Lemma paths_total_and_unique_witness :
  accepts_segments grammar_try_from
  /\ (exists p, collection_path grammar_try_from (lit "login") = Some p
                /\ parse p = Some (TCollection (lit "login")))
  /\ (forall p, session_path grammar_try_from 1 [x0a] = Some p ->
                session_path grammar_try_from 2 [x0b] = Some p -> 1 = 2).
Proof.
  pose proof grammar_accepts as Hg. split; [exact Hg|].
  destruct (paths_total_and_unique grammar_try_from Hg) as (Hc & _ & _ & Hs & _).
  split; [apply Hc; reflexivity|].
  intros p. apply (Hs 1 [x0a] 2 [x0b] p); unfold u64, u64_max; lia.
Defined.
