(* ===== verification/Env.v ===== *)
(** * The operating system the program runs on

    Everything the program asks of the machine, as explicit state passing: a
    filesystem, and an environment [Env] that answers each request in turn (a
    fault or none, random bytes or none, a uuid, the time).  Every request
    advances [tick], so the environment is an arbitrary sequence of answers
    and a theorem quantified over it covers every pattern of failures.

    [seen] records the filesystem after every request, newest first: what a
    concurrent reader, or a crash at that point, would find. *)
From S2P Require Import Prelude Text.

(** A path as its components; [parent], [file_name] and [join] are
    [std::path::Path]'s. *)
Abbreviation fpath := (list str).

Definition parent (p : fpath) : option fpath :=
  match p with [] => None | _ => Some (removelast p) end.
Definition file_name (p : fpath) : option str := last p.
Definition path_join (p : fpath) (name : str) : fpath := p ++ [name].

(** [std::io::ErrorKind] (the kinds the program tells apart) and the errno. *)
Inductive error_kind : Type :=
| NotFound | AlreadyExists | InvalidInput | InvalidData | ResourceBusy
| TimedOut | WouldBlock | Interrupted | UnexpectedEof | WriteZero | NotADirectory | IsADirectory
| ConnectionRefused | ConnectionReset | BrokenPipe
| OtherKind.

Record io_error : Type := IoError { io_kind : error_kind; io_errno : option Z }.

#[global] Instance error_kind_eq_dec : EqDecision error_kind.
Proof. solve_decision. Defined.
#[global] Instance io_error_eq_dec : EqDecision io_error.
Proof. solve_decision. Defined.

Definition ENOENT := IoError NotFound (Some 2).
Definition EEXIST := IoError AlreadyExists (Some 17).
Definition ENOTDIR := IoError NotADirectory (Some 20).
Definition EISDIR := IoError IsADirectory (Some 21).
Definition ELOOP := IoError OtherKind (Some 40).

(** Directory entries. A file's [mtime] is in nanoseconds, [None] when the
    filesystem cannot report one. *)
Inductive node : Type :=
| NFile (data : bytes) (mode : Z) (mtime : option Z)
| NDir (mode : Z)
| NLink (target : fpath).

Abbreviation filesystem := (gmap fpath node).

Record world : Type := World { fs : filesystem; tick : nat; seen : list filesystem }.

Class Env : Type := {
  env_fault : nat -> option io_error;      (** an injected failure of the request *)
  env_short : nat -> nat;                  (** bytes a failing write got through *)
  env_rng : nat -> option (nat -> byte);   (** [getrandom]'s answer *)
  env_uuid : nat -> str;                   (** [Uuid::new_v4().simple()] *)
  env_now : nat -> option Z;               (** nanoseconds since the epoch *)
  env_umask : Z
}.

(** Documented ranges: seconds fit a [u64], and a simple uuid is 32 lower-case
    hex digits. *)
Class EnvOk (E : Env) : Prop := {
  env_now_range n t : env_now n = Some t -> 0 <= t <= u64_max * 1000000000;
  env_uuid_hex n : length (env_uuid n) = 32%nat
                   /\ Forall (fun c => is_lower_hex c = true) (env_uuid n)
}.

Abbreviation io A := (world -> result A io_error * world).

Section env.
Context `{Env}.

(** One request: the answer arrives, [fs'] is what the disk now holds. *)
Definition advance (w : world) (fs' : filesystem) : world :=
  World fs' (S (tick w)) (fs' :: seen w).

Definition syscall {A : Type} (f : filesystem -> result A io_error * filesystem) : io A :=
  fun w => match env_fault (tick w) with
           | Some e => (Err e, advance w (fs w))
           | None => let '(r, fs') := f (fs w) in (r, advance w fs')
           end.

Definition random (n : nat) (w : world) : option bytes * world :=
  (match env_rng (tick w) with
   | Some f => Some (map f (seq 0 n))
   | None => None
   end, advance w (fs w)).

Definition uuid (w : world) : str * world := (env_uuid (tick w), advance w (fs w)).

(** [vault::now]: seconds since the epoch, 0 when the clock is before it. *)
Definition now (w : world) : Z * world :=
  (match env_now (tick w) with Some t => t / 1000000000 | None => 0 end, advance w (fs w)).

(** [SystemTime::now] in nanoseconds. *)
Definition system_now (w : world) : Z * world :=
  (default 0 (env_now (tick w)), advance w (fs w)).

(** *** Files *)

Definition is_dir (f : filesystem) (p : fpath) : bool :=
  match p with
  | [] => true
  | _ => match f !! p with Some (NDir _) => true | _ => false end
  end.

(** A new entry needs its parent directory. *)
Definition parent_is_dir (f : filesystem) (p : fpath) : bool :=
  match parent p with Some d => is_dir f d | None => false end.

(** [OpenOptions::write(true).create_new(true).mode(mode).open]. *)
Definition create_new (p : fpath) (mode : Z) : io unit :=
  fun w => syscall (fun f =>
    match f !! p with
    | Some _ => (Err EEXIST, f)
    | None => if parent_is_dir f p
              then (Ok tt, <[p := NFile [] (Z.land mode (Z.lnot env_umask)) (env_now (tick w))]> f)
              else (Err ENOENT, f)
    end) w.

(** [write_all] to a file just created: on a failure some prefix got through. *)
Definition write_all (p : fpath) (data : bytes) : io unit :=
  fun w =>
    let put (d : bytes) :=
      match fs w !! p with
      | Some (NFile old mode _) => <[p := NFile (old ++ d) mode (env_now (tick w))]> (fs w)
      | _ => fs w
      end in
    match env_fault (tick w) with
    | Some e => (Err e, advance w (put (take (env_short (tick w)) data)))
    | None => (Ok tt, advance w (put data))
    end.

Definition sync_all (p : fpath) : io unit := syscall (fun f => (Ok tt, f)).

Definition rename_in (from to : fpath) (f : filesystem) : result unit io_error * filesystem :=
  match f !! from with
  | None => (Err ENOENT, f)
  | Some n => match f !! to with
              | Some (NDir _) => (Err EISDIR, f)
              | _ => (Ok tt, <[to := n]> (delete from f))
              end
  end.

Definition rename (from to : fpath) : io unit := syscall (rename_in from to).

(** [renameat2] with [RENAME_NOREPLACE]. *)
Definition renameat2_noreplace (from to : fpath) : io unit :=
  syscall (fun f => match f !! to with
                    | Some _ => (Err EEXIST, f)
                    | None => rename_in from to f
                    end).

Definition remove_file (p : fpath) : io unit :=
  syscall (fun f => match f !! p with
                    | None => (Err ENOENT, f)
                    | Some (NDir _) => (Err EISDIR, f)
                    | Some _ => (Ok tt, delete p f)
                    end).

(** Following symbolic links, at most forty of them. *)
Fixpoint resolve (fuel : nat) (f : filesystem) (p : fpath) : result node io_error :=
  match f !! p with
  | None => Err ENOENT
  | Some (NLink q) => match fuel with O => Err ELOOP | S n => resolve n f q end
  | Some n => Ok n
  end.

Record metadata := Metadata { m_is_file : bool; m_len : Z; m_mode : Z; m_modified : option Z }.

Definition node_metadata (n : node) : metadata :=
  match n with
  | NFile d mode t => Metadata true (zlen d) mode t
  | NDir mode => Metadata false 0 mode None
  | NLink _ => Metadata false 0 0 None
  end.

(** [std::fs::metadata] follows links, [symlink_metadata] does not. *)
Definition stat (p : fpath) : io metadata :=
  syscall (fun f => (match resolve 40 f p with
                     | Ok n => Ok (node_metadata n)
                     | Err e => Err e
                     end, f)).

Definition lstat (p : fpath) : io metadata :=
  syscall (fun f => (match f !! p with
                     | Some n => Ok (node_metadata n)
                     | None => Err ENOENT
                     end, f)).

(** [std::fs::read]. *)
Definition read_file (p : fpath) : io bytes :=
  syscall (fun f => (match resolve 40 f p with
                     | Ok (NFile d _ _) => Ok d
                     | Ok _ => Err EISDIR
                     | Err e => Err e
                     end, f)).

(** *** Directories *)

(** The names directly under [d]. *)
Definition entries (f : filesystem) (d : fpath) : list str :=
  omap (fun '(p, _) => if bool_decide (parent p = Some d) then file_name p else None)
       (map_to_list f).

Definition read_dir (d : fpath) : io (list str) :=
  syscall (fun f => (if is_dir f d then Ok (entries f d)
                     else match f !! d with None => Err ENOENT | Some _ => Err ENOTDIR end, f)).

(** [DirBuilder::recursive(true).mode(mode).create]: [pre] is the part of
    the path known to exist. *)
Fixpoint mkdirs (mode : Z) (pre rest : fpath) (f : filesystem)
  : result unit io_error * filesystem :=
  match rest with
  | [] => (Ok tt, f)
  | c :: rest =>
    let p := pre ++ [c] in
    match f !! p with
    | Some (NDir _) => mkdirs mode p rest f
    | Some _ => (Err ENOTDIR, f)
    | None => mkdirs mode p rest (<[p := NDir (Z.land mode (Z.lnot env_umask))]> f)
    end
  end.

Definition create_dir_all (mode : Z) (d : fpath) : io unit := syscall (mkdirs mode [] d).

Definition set_permissions (p : fpath) (mode : Z) : io unit :=
  syscall (fun f => match f !! p with
                    | Some (NDir _) => (Ok tt, <[p := NDir mode]> f)
                    | Some (NFile d _ t) => (Ok tt, <[p := NFile d mode t]> f)
                    | Some (NLink _) => (Err ENOENT, f)
                    | None => (Err ENOENT, f)
                    end).
End env.

Arguments resolve : simpl never.

Lemma resolve_file n f p d m t : f !! p = Some (NFile d m t) -> resolve n f p = Ok (NFile d m t).
Proof. intros Hp. destruct n; unfold resolve; by rewrite Hp. Qed.

(** ** Reasoning about requests

    [reaches P w w']: going from [w] to [w'] only adds observed filesystems,
    all satisfying [P], and the filesystem at the end satisfies it too. *)

Definition reaches (P : filesystem -> Prop) (w w' : world) : Prop :=
  P (fs w') /\ exists l, seen w' = l ++ seen w /\ Forall P l.

Lemma reaches_refl P w : P (fs w) -> reaches P w w.
Proof. intros HP. split; [done|]. by exists []. Qed.

Lemma reaches_trans P a b c : reaches P a b -> reaches P b c -> reaches P a c.
Proof.
  intros (_ & l & El & Hl) (Hc & k & Ek & Hk). split; [done|]. exists (k ++ l).
  rewrite Ek, El, app_assoc. split; [done|]. by apply Forall_app.
Qed.

Lemma reaches_impl (P Q : filesystem -> Prop) w w' :
  (forall f, P f -> Q f) -> reaches P w w' -> reaches Q w w'.
Proof.
  intros HPQ (HP & l & El & Hl). split; [by apply HPQ|]. exists l. split; [done|].
  by eapply Forall_impl.
Qed.

Lemma reaches_end P w w' : reaches P w w' -> P (fs w').
Proof. by intros [? _]. Qed.

Lemma reaches_advance (P : filesystem -> Prop) w f : P f -> reaches P w (advance w f).
Proof. intros HP. split; [done|]. exists [f]. split; [done|]. by repeat constructor. Qed.

#[export] Hint Resolve reaches_refl reaches_advance : rust.

Section lemmas.
Context `{Env}.

(** A request whose effect keeps [P] keeps [P]. *)
Lemma reaches_syscall {A : Type} (P : filesystem -> Prop) (g : filesystem -> result A io_error * filesystem) w :
  P (fs w) -> P (snd (g (fs w))) -> reaches P w (snd (syscall g w)).
Proof.
  intros H1 H2. unfold syscall. destruct (env_fault (tick w)); simpl.
  - by apply reaches_advance.
  - destruct (g (fs w)) as [r f'] eqn:E. simpl in *. by apply reaches_advance.
Qed.

(** A request that only reads. *)
Lemma fs_syscall_read {A : Type} (r : filesystem -> result A io_error) w :
  fs (snd (syscall (fun f => (r f, f)) w)) = fs w.
Proof. unfold syscall. by destruct (env_fault (tick w)). Qed.

Lemma fs_random n w : fs (snd (random n w)) = fs w.
Proof. done. Qed.

Lemma length_random n w b : fst (random n w) = Some b -> length b = n.
Proof.
  unfold random. simpl. destruct (env_rng (tick w)); [|done]. intros [= <-].
  by rewrite length_map, length_seq.
Qed.

Lemma now_u64 `{!EnvOk H} w : u64 (fst (now w)).
Proof.
  unfold now, u64. simpl. destruct (env_now (tick w)) as [t|] eqn:E; [|unfold u64_max; lia].
  apply env_now_range in E. split; [apply Z.div_pos; lia|].
  apply Z.div_le_upper_bound; lia.
Qed.

(** The directory creator touches only directories: no file appears,
    disappears or changes. *)
Lemma mkdirs_lookup mode pre rest f p n :
  snd (mkdirs mode pre rest f) !! p = Some n ->
  f !! p = Some n \/ (exists m, n = NDir m) /\ f !! p = None.
Proof.
  revert pre f. induction rest as [|c rest IH]; intros pre f; simpl; [auto|].
  destruct (f !! (pre ++ [c])) as [[| |]|] eqn:E; simpl; [auto|apply IH|auto|].
  intros [Hl|[Hd Hn]]%IH.
  - destruct (decide (pre ++ [c] = p)) as [<-|Hne].
    + rewrite lookup_insert_eq in Hl. injection Hl as <-. right. eauto.
    + rewrite lookup_insert_ne in Hl by done. auto.
  - destruct (decide (pre ++ [c] = p)) as [<-|Hne]; [by rewrite lookup_insert_eq in Hn|].
    rewrite lookup_insert_ne in Hn by done. auto.
Qed.

Lemma mkdirs_keeps mode pre rest f p n :
  f !! p = Some n -> snd (mkdirs mode pre rest f) !! p = Some n.
Proof.
  revert pre f. induction rest as [|c rest IH]; intros pre f Hp; simpl; [done|].
  destruct (f !! (pre ++ [c])) as [[| |]|] eqn:E; simpl; [done|by apply IH|done|].
  apply IH. rewrite lookup_insert_ne; [done|]. intros <-. congruence.
Qed.
End lemmas.
