(* ===== verification/Crypto.v ===== *)
(** * Key derivation and authenticated encryption ([src/vault/crypto.rs])

    Argon2id, XChaCha20-Poly1305, SHA-256 and the postcard codec are other
    crates' code: they are the operations of the classes below, and what the
    vault relies on are the laws of [PrimsOk] and [PostcardOk].  The ceiling on
    KDF parameters, the domain separation and the error mapping are this
    program's and are modelled as written. *)
From S2P Require Import Prelude Text Env.

Definition KEY_LEN : nat := 32.
Definition SALT_LEN : nat := 16.
Definition NONCE_LEN : nat := 24.

Definition KDF_CONTEXT : bytes := utf8 (lit "secret-manager vault key v1") ++ [x00].

(** ** Parameters *)

Record KdfParams : Type := { m_cost_kib : Z; t_cost : Z; p_cost : Z }.

#[global] Instance KdfParams_eq_dec : EqDecision KdfParams.
Proof. solve_decision. Defined.

Definition kdf_wf (k : KdfParams) : Prop := u32 (m_cost_kib k) /\ u32 (t_cost k) /\ u32 (p_cost k).

Definition MAX_M_COST_KIB : Z := 256 * 1024.
Definition MAX_T_COST : Z := 64.
Definition MAX_P_COST : Z := 16.

(** Why a parameter set is refused (the code formats these as text). *)
Inductive kdf_reason : Type :=
| POutside (p : Z) | TOutside (t : Z) | MExceeds (m : Z) | MBelow (m floor : Z).

Inductive CryptoError : Type :=
| Kdf
| Auth
| UnsafeKdf (r : kdf_reason)
| Rng.

(** [8 * self.p_cost] is a [u32] multiplication. *)
Definition u32_mul (a b : Z) : Z := (a * b) mod (u32_max + 1).

Definition validate (k : KdfParams) : result unit CryptoError :=
  let reason :=
    if (p_cost k =? 0) || (MAX_P_COST <? p_cost k) then Some (POutside (p_cost k))
    else if (t_cost k =? 0) || (MAX_T_COST <? t_cost k) then Some (TOutside (t_cost k))
    else if MAX_M_COST_KIB <? m_cost_kib k then Some (MExceeds (m_cost_kib k))
    else if m_cost_kib k <? u32_mul 8 (p_cost k)
         then Some (MBelow (m_cost_kib k) (u32_mul 8 (p_cost k)))
    else None in
  match reason with
  | Some r => Err (UnsafeKdf r)
  | None => Ok tt
  end.

(** [impl Default for KdfParams]. *)
Definition kdf_default : KdfParams := {| m_cost_kib := 65536; t_cost := 3; p_cost := 1 |}.

(** ** Primitives *)

Class Prims : Type := {
  (** [Argon2id] v1.3 with these costs, writing 32 bytes; [None] when the crate
      refuses the parameters or the input. *)
  argon2id : KdfParams -> bytes -> bytes -> option bytes;
  (** key, nonce, associated data, message *)
  aead_encrypt : bytes -> bytes -> bytes -> bytes -> option bytes;
  aead_decrypt : bytes -> bytes -> bytes -> bytes -> option bytes;
  sha256 : bytes -> bytes
}.

Class PrimsOk (P : Prims) : Prop := {
  argon2id_length k i s o : argon2id k i s = Some o -> length o = KEY_LEN;
  sha256_length b : length (sha256 b) = 32%nat;
  (** decrypting what was encrypted gives the message back *)
  aead_roundtrip k n a m c : aead_encrypt k n a m = Some c -> aead_decrypt k n a c = Some m
}.

(** Postcard for one type: [to_allocvec], and [take_from_bytes], which decodes
    one message and returns what follows it. *)
Class Postcard (A : Type) : Type := {
  pc_wf : A -> Prop;   (** values the Rust type has *)
  to_allocvec : A -> option bytes;
  take_from_bytes : bytes -> option (A * bytes)
}.

Class PostcardOk (A : Type) {P : Postcard A} : Prop := {
  pc_roundtrip a b rest : pc_wf a -> to_allocvec a = Some b ->
                          take_from_bytes (b ++ rest) = Some (a, rest);
  (** what is decoded is a value of the Rust type *)
  pc_decoded a b rest : take_from_bytes b = Some (a, rest) -> pc_wf a
}.

(** [postcard::from_bytes] ignores what follows the first message. *)
Definition from_bytes {A} `{Postcard A} (b : bytes) : option A := fst <$> take_from_bytes b.

(** ** Operations *)

Section crypto.
Context `{Env} `{Prims}.

Definition derive_key (password salt : bytes) (params : KdfParams) : result bytes CryptoError :=
  let? _ := validate params in
  let input := KDF_CONTEXT ++ password in
  match argon2id params input salt with
  | Some out => Ok out
  | None => Err Kdf
  end.

Definition seal (key nonce aad plaintext : bytes) : result bytes CryptoError :=
  match aead_encrypt key nonce aad plaintext with
  | Some c => Ok c
  | None => Err Auth
  end.

Definition open (key nonce aad ciphertext : bytes) : result bytes CryptoError :=
  match aead_decrypt key nonce aad ciphertext with
  | Some p => Ok p
  | None => Err Auth
  end.

Definition try_random_bytes (n : nat) (w : world) : result bytes CryptoError * world :=
  match random n w with
  | (Some b, w) => (Ok b, w)
  | (None, w) => (Err Rng, w)
  end.
End crypto.

(** ** Lemmas *)

Lemma seal_open `{PrimsOk} k n a m c : seal k n a m = Ok c -> open k n a c = Ok m.
Proof.
  unfold seal, open. destruct (aead_encrypt k n a m) eqn:E; [|done]. intros [= <-].
  by rewrite (aead_roundtrip _ _ _ _ _ E).
Qed.

Lemma derive_key_length `{PrimsOk} pw s k o : derive_key pw s k = Ok o -> length o = KEY_LEN.
Proof.
  unfold derive_key. destruct (validate k); [|done]. destruct (argon2id _ _ _) eqn:E; [|done].
  intros [= <-]. by eapply argon2id_length.
Qed.

Lemma validate_spec k : kdf_wf k ->
  validate k = Ok tt <->
  (1 <= p_cost k <= MAX_P_COST /\ 1 <= t_cost k <= MAX_T_COST
   /\ 8 * p_cost k <= m_cost_kib k <= MAX_M_COST_KIB).
Proof.
  intros (Hm & Ht & Hp). unfold validate, u32 in *.
  assert (Hmul : p_cost k <= MAX_P_COST -> u32_mul 8 (p_cost k) = 8 * p_cost k).
  { intros. unfold u32_mul, u32_max, MAX_P_COST in *. apply Z.mod_small. lia. }
  destruct ((p_cost k =? 0) || (MAX_P_COST <? p_cost k)) eqn:E1; [split; [done|lia]|].
  bool_to_prop. rewrite Hmul by done.
  destruct ((t_cost k =? 0) || (MAX_T_COST <? t_cost k)) eqn:E2; [split; [done|lia]|].
  bool_to_prop.
  destruct (MAX_M_COST_KIB <? m_cost_kib k) eqn:E3; [split; [done|lia]|].
  destruct (m_cost_kib k <? 8 * p_cost k) eqn:E4; split; try done; lia.
Qed.

Lemma validate_derive `{Prims} pw s k o : derive_key pw s k = Ok o -> validate k = Ok tt.
Proof. unfold derive_key. by destruct (validate k) as [[]|]. Qed.

(** ** Properties *)

(** The KDF ceiling: a parameter set is accepted exactly when one to 16
    lanes, one to 64 passes and between eight KiB per lane and 256 MiB of
    memory are asked for; the [u32] product [8 * p_cost] in the check cannot
    wrap on the path that computes it; and a set over the ceiling is refused
    before Argon2 runs, whatever the password and salt. *)
Theorem validate_exact `{Prims} k pw salt :
  kdf_wf k ->
  (validate k = Ok tt <->
     1 <= p_cost k <= MAX_P_COST /\ 1 <= t_cost k <= MAX_T_COST
     /\ 8 * p_cost k <= m_cost_kib k <= MAX_M_COST_KIB)
  /\ (p_cost k <= MAX_P_COST -> u32_mul 8 (p_cost k) = 8 * p_cost k)
  /\ (validate k <> Ok tt -> exists r, derive_key pw salt k = Err (UnsafeKdf r)).
Proof.
  intros Hk. split; [by apply validate_spec|split].
  - intros. destruct Hk as (_ & _ & Hp). unfold u32_mul, u32, u32_max, MAX_P_COST in *.
    apply Z.mod_small. lia.
  - unfold derive_key, validate. repeat (case_match; try done); simplify_eq; eauto.
Qed.
