(* ===== verification/Codec.v ===== *)
(** * Concrete primitives

    The cryptographic primitives and the postcard codec are parameters of the
    development.  This file gives one concrete instance of each, satisfying
    the laws: self-delimiting codecs by combinators, and an authenticating
    cipher, key-derivation and digest that are easy to evaluate.  The
    properties are stated for every instance; these are only what their
    witnesses are evaluated at. *)
From S2P Require Import Prelude Text Env Crypto.

(** ** Self-delimiting codecs *)

Record codec (A : Type) : Type := Codec {
  c_enc : A -> bytes;
  c_dec : bytes -> option (A * bytes);
  c_ok : forall a rest, c_dec (c_enc a ++ rest) = Some (a, rest)
}.
Arguments Codec {A} _ _ _.
Arguments c_enc {A} _ _.
Arguments c_dec {A} _ _.
Arguments c_ok {A} _ _ _.

Definition byte_codec : codec byte.
Proof.
  refine (Codec (fun b => [b]) (fun bs => match bs with b :: r => Some (b, r) | [] => None end) _).
  abstract done.
Defined.

Definition pair_codec {A B} (ca : codec A) (cb : codec B) : codec (A * B).
Proof.
  refine (Codec (fun '(a, b) => c_enc ca a ++ c_enc cb b)
                (fun bs => let! (a, r) := c_dec ca bs in
                           let! (b, r) := c_dec cb r in Some ((a, b), r)) _).
  abstract (intros [a b] rest; by rewrite <- app_assoc, !c_ok).
Defined.

Definition iso_codec {A B} (f : A -> B) (g : B -> A) (H : forall a, g (f a) = a) (cb : codec B)
  : codec A.
Proof.
  refine (Codec (fun a => c_enc cb (f a))
                (fun bs => let! (b, r) := c_dec cb bs in Some (g b, r)) _).
  abstract (intros a rest; by rewrite c_ok, H).
Defined.

Definition bool_codec : codec bool.
Proof.
  refine (Codec (fun b : bool => [if b then x01 else x00])
                (fun bs => match bs with
                           | x01 :: r => Some (true, r)
                           | x00 :: r => Some (false, r)
                           | _ => None
                           end) _).
  abstract (by intros []).
Defined.

Fixpoint pos_enc (p : positive) : bytes :=
  match p with xH => [x02] | xO p => x00 :: pos_enc p | xI p => x01 :: pos_enc p end.

Fixpoint pos_dec (bs : bytes) : option (positive * bytes) :=
  match bs with
  | x02 :: r => Some (xH, r)
  | x00 :: r => let! (p, r) := pos_dec r in Some (xO p, r)
  | x01 :: r => let! (p, r) := pos_dec r in Some (xI p, r)
  | _ => None
  end.

Lemma pos_ok p rest : pos_dec (pos_enc p ++ rest) = Some (p, rest).
Proof. induction p; simpl; by rewrite ?IHp. Qed.

Definition Z_codec : codec Z.
Proof.
  refine (Codec (fun z => match z with
                          | Z0 => [x00] | Zpos p => x01 :: pos_enc p | Zneg p => x02 :: pos_enc p
                          end)
                (fun bs => match bs with
                           | x00 :: r => Some (Z0, r)
                           | x01 :: r => let! (p, r) := pos_dec r in Some (Zpos p, r)
                           | x02 :: r => let! (p, r) := pos_dec r in Some (Zneg p, r)
                           | _ => None
                           end) _).
  abstract (intros [|p|p] rest; simpl; by rewrite ?pos_ok).
Defined.

Section list_codec.
Context {A : Type} (ca : codec A).

Fixpoint list_enc (l : list A) : bytes :=
  match l with [] => [x00] | a :: l => x01 :: c_enc ca a ++ list_enc l end.

Fixpoint list_dec (fuel : nat) (bs : bytes) : option (list A * bytes) :=
  match fuel with
  | O => None
  | S fuel =>
    match bs with
    | x00 :: r => Some ([], r)
    | x01 :: r => let! (a, r) := c_dec ca r in
                  let! (l, r) := list_dec fuel r in Some (a :: l, r)
    | _ => None
    end
  end.

Lemma list_ok fuel l rest :
  (length l < fuel)%nat -> list_dec fuel (list_enc l ++ rest) = Some (l, rest).
Proof.
  revert fuel. induction l as [|a l IH]; intros [|fuel] Hf; simpl in *; try lia; [done|].
  rewrite <- app_assoc, c_ok. by rewrite IH by lia.
Qed.

Lemma length_list_enc l : (length l < length (list_enc l))%nat.
Proof. induction l; simpl; rewrite ?length_app; lia. Qed.

Definition list_codec : codec (list A).
Proof.
  refine (Codec list_enc (fun bs => list_dec (length bs) bs) _).
  abstract (intros l rest; apply list_ok; rewrite length_app; pose proof (length_list_enc l); lia).
Defined.
End list_codec.

Definition option_codec {A} (ca : codec A) : codec (option A).
Proof.
  refine (iso_codec (fun o => match o with None => [] | Some a => [a] end)
                    (fun l => match l with a :: _ => Some a | [] => None end) _ (list_codec ca)).
  abstract (by intros []).
Defined.

Definition str_codec : codec str := list_codec Z_codec.
Definition bytes_codec : codec bytes := list_codec byte_codec.

Definition gmap_codec {A} (ca : codec A) : codec (gmap str A).
Proof.
  refine (iso_codec map_to_list list_to_map _ (list_codec (pair_codec str_codec ca))).
  abstract (intros m; apply list_to_map_to_list).
Defined.

(** A codec as a [Postcard] instance, whose decoder returns only values that
    satisfy [P]. *)
Definition codec_postcard {A} (P : A -> Prop) `{forall a, Decision (P a)} (c : codec A) : Postcard A :=
  {| pc_wf := P;
     to_allocvec := fun a => Some (c_enc c a);
     take_from_bytes := fun b => let! (a, r) := c_dec c b in
                                 if bool_decide (P a) then Some (a, r) else None |}.

Lemma codec_postcard_ok {A} (P : A -> Prop) `{forall a, Decision (P a)} (c : codec A) :
  @PostcardOk A (codec_postcard P c).
Proof.
  split.
  - intros a b rest Ha [= <-]. simpl. by rewrite c_ok, bool_decide_true.
  - intros a b rest. simpl. destruct (c_dec c b) as [[x r]|]; [|done].
    destruct (bool_decide (P x)) eqn:E; [|done]. intros [= <- <-]. by bool_to_prop.
Qed.

(** ** Evaluable cryptography *)

Definition pad32 (b : bytes) : bytes := take 32 (b ++ repeat x00 32).

Lemma length_pad32 b : length (pad32 b) = 32%nat.
Proof. unfold pad32. rewrite length_take, length_app, repeat_length. lia. Qed.

(** [m] followed by a tag naming the key, the nonce and the associated data. *)
Definition tag (k n a : bytes) : bytes := k ++ n ++ a.

Definition strip_tag (t c : bytes) : option bytes :=
  let m := take (length c - length t) c in
  if bool_decide (c = m ++ t) then Some m else None.

Definition sample_prims : Prims := {|
  argon2id k input s := Some (pad32 (drop (length KDF_CONTEXT) input ++ s));
  aead_encrypt k n a m := Some (m ++ tag k n a);
  aead_decrypt k n a c := strip_tag (tag k n a) c;
  sha256 b := pad32 b
|}.

Lemma sample_prims_ok : PrimsOk sample_prims.
Proof.
  split.
  - intros k i s o [= <-]. apply length_pad32.
  - intros b. apply length_pad32.
  - intros k n a m c [= <-]. simpl. unfold strip_tag.
    rewrite length_app, Nat.add_sub, take_app_length, bool_decide_true; done.
Qed.

(** An environment in which nothing fails: a fixed clock, counting randomness
    and uuids. *)
Definition sample_uuid (n : nat) : str := hex (repeat x00 15 ++ [z2b (Z.of_nat n)]).

Definition sample_env : Env := {|
  env_fault _ := None;
  env_short _ := O;
  env_rng n := Some (fun i => z2b (Z.of_nat (n + i)));
  env_uuid := sample_uuid;
  env_now _ := Some 1700000000000000000;
  env_umask := 18
|}.

Lemma sample_uuid_hex n :
  length (sample_uuid n) = 32%nat /\ Forall (fun c => is_lower_hex c = true) (sample_uuid n).
Proof. split; [by unfold sample_uuid; rewrite length_hex|apply hex_lower]. Qed.

Lemma sample_env_ok : EnvOk sample_env.
Proof.
  split.
  - intros n t [= <-]. unfold u64_max. lia.
  - apply sample_uuid_hex.
Qed.

(** The same with every file request failing from tick [n] on. *)
Definition failing_env (n : nat) : Env := {|
  env_fault t := if (n <=? t)%nat then Some (IoError OtherKind (Some 28)) else None;
  env_short _ := 3%nat;
  env_rng t := Some (fun i => z2b (Z.of_nat (t + i)));
  env_uuid := sample_uuid;
  env_now _ := Some 1700000000000000000;
  env_umask := 18
|}.

Lemma failing_env_ok n : EnvOk (failing_env n).
Proof.
  split.
  - intros k t [= <-]. unfold u64_max. lia.
  - apply sample_uuid_hex.
Qed.

(** The KDF ceiling at the shipped default, and at a tampered header. *)
Lemma validate_exact_witness :
  kdf_wf kdf_default /\ validate kdf_default = Ok tt
  /\ (exists r, @derive_key sample_prims [x61] [x62]
                  {| m_cost_kib := u32_max; t_cost := 1; p_cost := 1 |} = Err (UnsafeKdf r)).
Proof.
  assert (H1 : kdf_wf kdf_default) by (unfold kdf_wf, u32, u32_max; simpl; lia).
  assert (H2 : kdf_wf {| m_cost_kib := u32_max; t_cost := 1; p_cost := 1 |})
    by (unfold kdf_wf, u32, u32_max; simpl; lia).
  split_and!; [exact H1| |].
  - apply (proj1 (@validate_exact sample_prims kdf_default [] [] H1)).
    unfold MAX_P_COST, MAX_T_COST, MAX_M_COST_KIB. simpl. lia.
  - apply (proj2 (proj2 (@validate_exact sample_prims _ [x61] [x62] H2))). by vm_compute.
Defined.
