(* ===== verification/Format.v ===== *)
(** * The on-disk vault layout ([src/vault/format.rs])

    [magic(8) | header_len u32 LE | header (postcard) | ciphertext], the
    per-item caps, and the hashed attribute index that lets a locked
    collection be searched. *)
From S2P Require Import Prelude Text Env Crypto Codec.

Definition MAGIC : bytes := utf8 (lit "SMVAULT") ++ [x00].
Definition VERSION : Z := 3.
Definition MAX_HEADER : Z := Z.shiftl 16 20.
Definition MAX_LABEL : Z := Z.shiftl 4 10.
Definition PREFIX_LEN : nat := 12.
Definition MAX_VAULT_BYTES : Z := Z.shiftl 256 20.

Definition MAX_ITEM_SECRET : Z := 1024 * 1024.
Definition MAX_ITEM_LABEL : Z := 4 * 1024.
Definition MAX_ITEM_ATTRIBUTES : Z := 64.
Definition MAX_ATTRIBUTE_KEY : Z := 256.
Definition MAX_ATTRIBUTE_VALUE : Z := 512.
Definition MAX_ITEM_CONTENT_TYPE : Z := 256.

(** ** Data *)

Inductive Cap : Type :=
| CapSecret | CapLabel | CapAttributeCount | CapAttributeKey | CapAttributeValue | CapContentType.

Record CapViolation : Type := { cv_cap : Cap; cv_actual : Z; cv_limit : Z }.

Record IndexEntry : Type := { ie_id : str; attr_hashes : list bytes }.

Record Header : Type := {
  version : Z;
  label : str;
  created : Z;
  modified : Z;
  kdf : KdfParams;
  salt : bytes;
  index_salt : bytes;
  nonce : bytes;
  index : list IndexEntry
}.

Record Item : Type := {
  i_id : str;
  i_label : str;
  attributes : gmap str str;
  secret : bytes;
  content_type : str;
  i_created : Z;
  i_modified : Z
}.

#[global] Instance Cap_eq_dec : EqDecision Cap.
Proof. solve_decision. Defined.
#[global] Instance IndexEntry_eq_dec : EqDecision IndexEntry.
Proof. solve_decision. Defined.
#[global] Instance Header_eq_dec : EqDecision Header.
Proof. solve_decision. Defined.
#[global] Instance Item_eq_dec : EqDecision Item.
Proof. solve_decision. Defined.

Inductive FormatError : Type :=
| BadMagic
| UnsupportedVersion (v : Z)
| Truncated
| Encoding
| HeaderUnsafeKdf (e : CryptoError)
| HeaderTooLarge (n : Z)
| VaultTooLarge (n : Z)
| TrailingHeaderBytes (n : Z).

Record VaultFile : Type := { vf_header : Header; vf_aad : bytes; vf_ciphertext : bytes }.

(** ** Caps *)

Definition cap_limit (c : Cap) : Z :=
  match c with
  | CapSecret => MAX_ITEM_SECRET
  | CapLabel => MAX_ITEM_LABEL
  | CapAttributeCount => MAX_ITEM_ATTRIBUTES
  | CapAttributeKey => MAX_ATTRIBUTE_KEY
  | CapAttributeValue => MAX_ATTRIBUTE_VALUE
  | CapContentType => MAX_ITEM_CONTENT_TYPE
  end.

(** [Cap::as_str], the name an error message and [report.json] carry. *)
Definition cap_as_str (c : Cap) : str :=
  match c with
  | CapSecret => lit "secret"
  | CapLabel => lit "label"
  | CapAttributeCount => lit "attribute count"
  | CapAttributeKey => lit "attribute name"
  | CapAttributeValue => lit "attribute value"
  | CapContentType => lit "content type"
  end.

Definition cap_check (c : Cap) (actual : Z) : option CapViolation :=
  if cap_limit c <? actual
  then Some {| cv_cap := c; cv_actual := actual; cv_limit := cap_limit c |}
  else None.

Definition check_caps (label : str) (attrs : gmap str str) (secret_len : Z) (ctype : str)
  : option CapViolation :=
  or_else (cap_check CapSecret secret_len)
  (or_else (cap_check CapLabel (str_len label))
  (or_else (cap_check CapContentType (str_len ctype))
  (or_else (cap_check CapAttributeCount (Z.of_nat (size attrs)))
  (find_map (fun '(k, v) => or_else (cap_check CapAttributeKey (str_len k))
                                    (cap_check CapAttributeValue (str_len v)))
            (btree_iter attrs))))).

Definition check_vault_size_against (len limit : Z) : result unit FormatError :=
  if limit <? len then Err (VaultTooLarge len) else Ok tt.

Definition check_vault_size (len : Z) : result unit FormatError :=
  check_vault_size_against len MAX_VAULT_BYTES.

(** ** The order on digests, and [slice::binary_search] *)

Definition bytes_le (a b : bytes) : Prop := str_le (map b2z a) (map b2z b).

#[global] Instance bytes_le_dec : RelDecision bytes_le.
Proof. intros a b. unfold bytes_le. apply _. Defined.

(** [slice::sort_unstable]. *)
Definition sort_unstable (l : list bytes) : list bytes := merge_sort bytes_le l.

(** [slice::binary_search]'s halving loop: [base] and [size] as in the
    standard library, one probe per iteration. *)
Fixpoint bsearch_loop (fuel : nat) (l : list bytes) (x : bytes) (base size : nat) : nat :=
  match fuel with
  | O => base
  | S fuel =>
    if (size <=? 1)%nat then base
    else
      let half := (size / 2)%nat in
      let mid := (base + half)%nat in
      let greater := match l !! mid with
                     | Some p => negb (bool_decide (bytes_le p x))
                     | None => true
                     end in
      bsearch_loop fuel l x (if greater then base else mid) (size - half)
  end.

Definition binary_search (l : list bytes) (x : bytes) : result nat nat :=
  match l with
  | [] => Err O
  | _ =>
    let base := bsearch_loop (length l) l x 0 (length l) in
    match l !! base with
    | Some p => if bool_decide (p = x) then Ok base
                else Err (if bool_decide (bytes_le p x) then S base else base)
    | None => Err base
    end
  end.

(** ** The attribute index *)

Section index.
Context `{Prims}.

(** What is hashed: salt, key length as [u32], key, value. *)
Definition attribute_preimage (salt : bytes) (key value : str) : bytes :=
  salt ++ to_le_bytes 4 (str_len key) ++ utf8 key ++ utf8 value.

Definition attribute_hash (salt : bytes) (key value : str) : bytes :=
  sha256 (attribute_preimage salt key value).

Definition hash_query (salt : bytes) (query : gmap str str) : list bytes :=
  map (fun '(k, v) => attribute_hash salt k v) (btree_iter query).

Definition matches_hashes (e : IndexEntry) (query_hashes : list bytes) : bool :=
  match query_hashes with
  | [] => true
  | _ => match attr_hashes e with
         | [] => false
         | _ => forallb (fun h => is_ok (binary_search (attr_hashes e) h)) query_hashes
         end
  end.

Definition matches (e : IndexEntry) (salt : bytes) (query : gmap str str) : bool :=
  matches_hashes e (hash_query salt query).

Definition index_entry (salt : bytes) (with_attributes : bool) (item : Item) : IndexEntry :=
  {| ie_id := i_id item;
     attr_hashes :=
       sort_unstable
         (if with_attributes
          then map (fun '(k, v) => attribute_hash salt k v) (btree_iter (attributes item))
          else []) |}.

Definition build_index (salt : bytes) (items : list Item) (with_attributes : bool)
  : list IndexEntry := map (index_entry salt with_attributes) items.
End index.

(** ** Encoding and decoding *)

Definition check_header (h : Header) : result unit FormatError :=
  if negb (version h =? VERSION) then Err (UnsupportedVersion (version h))
  else map_err HeaderUnsafeKdf (validate (kdf h)).

Definition header_prefix_len (prefix : bytes) : result nat FormatError :=
  if (length prefix <? 8)%nat then Err Truncated
  else if negb (bool_decide (take 8 prefix = MAGIC)) then Err BadMagic
  else if (length prefix <? PREFIX_LEN)%nat then Err Truncated
  else
    let len := from_le_bytes (take 4 (drop 8 prefix)) in
    if MAX_HEADER <? len then Err Truncated
    else Ok (PREFIX_LEN + Z.to_nat len)%nat.

Section codec.
Context `{Postcard Header} `{Postcard (list Item)}.

Definition decode_header_prefix (bs : bytes) : result (Header * nat) FormatError :=
  let? need := header_prefix_len bs in
  if (length bs <? need)%nat then Err Truncated
  else
    match take_from_bytes (take (need - PREFIX_LEN) (drop PREFIX_LEN bs)) with
    | None => Err Encoding
    | Some (header, rest) =>
      match rest with
      | [] => let? _ := check_header header in Ok (header, need)
      | _ => Err (TrailingHeaderBytes (zlen rest))
      end
    end.

Definition decode_header (bs : bytes) : result Header FormatError :=
  let? (h, _) := decode_header_prefix bs in Ok h.

Definition header_bytes (header : Header) : result bytes FormatError :=
  match to_allocvec header with
  | None => Err Encoding
  | Some body =>
    if MAX_HEADER <? zlen body then Err (HeaderTooLarge (zlen body))
    else Ok (MAGIC ++ to_le_bytes 4 (zlen body) ++ body)
  end.

Definition vault_file_new (header : Header) (ciphertext : bytes) : result VaultFile FormatError :=
  let? aad := header_bytes header in
  Ok {| vf_header := header; vf_aad := aad; vf_ciphertext := ciphertext |}.

Definition vf_encode (f : VaultFile) : bytes := vf_aad f ++ vf_ciphertext f.

Definition vf_decode (bs : bytes) : result VaultFile FormatError :=
  let? (header, need) := decode_header_prefix bs in
  Ok {| vf_header := header; vf_aad := take need bs; vf_ciphertext := drop need bs |}.

Definition encode_items (items : list Item) : result bytes FormatError :=
  ok_or (to_allocvec items) Encoding.

Definition decode_items (bs : bytes) : result (list Item) FormatError :=
  ok_or (from_bytes bs) Encoding.
End codec.

(** ** Well-formed values *)

Definition entry_wf (e : IndexEntry) : Prop :=
  str_wf (ie_id e) /\ Forall (fun h => length h = 32%nat) (attr_hashes e).

Definition header_wf (h : Header) : Prop :=
  u16 (version h) /\ str_wf (label h) /\ u64 (created h) /\ u64 (modified h)
  /\ kdf_wf (kdf h) /\ length (salt h) = SALT_LEN /\ length (index_salt h) = SALT_LEN
  /\ length (nonce h) = NONCE_LEN /\ Forall entry_wf (index h).

Definition attrs_wf (m : gmap str str) : Prop := map_Forall (fun k v => str_wf k /\ str_wf v) m.

Definition item_wf (i : Item) : Prop :=
  str_wf (i_id i) /\ str_wf (i_label i) /\ attrs_wf (attributes i) /\ str_wf (content_type i)
  /\ u64 (i_created i) /\ u64 (i_modified i).

#[global] Instance entry_wf_dec e : Decision (entry_wf e).
Proof. unfold entry_wf. apply _. Defined.
#[global] Instance header_wf_dec h : Decision (header_wf h).
Proof. unfold header_wf, kdf_wf, u16, u32, u64. apply _. Defined.
#[global] Instance item_wf_dec i : Decision (item_wf i).
Proof. unfold item_wf, attrs_wf, u64. apply _. Defined.

(** The codecs of the two messages a vault file holds, with their laws. *)
Class VaultCodec : Type := {
  #[global] vc_header :: Postcard Header;
  #[global] vc_items :: Postcard (list Item)
}.

Class VaultCodecOk (C : VaultCodec) : Prop := {
  #[global] vc_header_ok :: PostcardOk Header;
  #[global] vc_items_ok :: PostcardOk (list Item);
  vc_header_wf h : pc_wf h <-> header_wf h;
  vc_items_wf l : pc_wf l <-> Forall item_wf l
}.

(** The item is inside every cap. *)
Definition within_caps (label : str) (attrs : gmap str str) (secret_len : Z) (ctype : str) : Prop :=
  secret_len <= MAX_ITEM_SECRET /\ str_len label <= MAX_ITEM_LABEL
  /\ str_len ctype <= MAX_ITEM_CONTENT_TYPE /\ Z.of_nat (size attrs) <= MAX_ITEM_ATTRIBUTES
  /\ forall k v, attrs !! k = Some v ->
       str_len k <= MAX_ATTRIBUTE_KEY /\ str_len v <= MAX_ATTRIBUTE_VALUE.

(** ** Lemmas: caps *)

Lemma cap_check_None c n : cap_check c n = None <-> n <= cap_limit c.
Proof. unfold cap_check. destruct (Z.ltb_spec (cap_limit c) n); split; done || lia. Qed.

Lemma cap_check_Some c n v :
  cap_check c n = Some v -> cv_cap v = c /\ cv_limit v = cap_limit c /\ cv_limit v < cv_actual v.
Proof. unfold cap_check. destruct (Z.ltb_spec (cap_limit c) n); [|done]. by intros [= <-]. Qed.

Lemma or_else_None {A} (a b : option A) : or_else a b = None <-> a = None /\ b = None.
Proof. destruct a; simpl; split; [done|by intros []|auto|by intros []]. Qed.

Lemma check_caps_None l a n c : check_caps l a n c = None <-> within_caps l a n c.
Proof.
  unfold check_caps, within_caps. rewrite !or_else_None, !cap_check_None, find_map_None. simpl.
  assert ((forall x, x ∈ btree_iter a -> (let '(k, v) := x in or_else (cap_check CapAttributeKey (str_len k)) (cap_check CapAttributeValue (str_len v))) = None)
    <-> (forall k v, a !! k = Some v -> str_len k <= MAX_ATTRIBUTE_KEY /\ str_len v <= MAX_ATTRIBUTE_VALUE)) as ->;
    [|tauto].
  split.
  - intros Hf k v Hk%elem_of_btree_iter. specialize (Hf _ Hk). simpl in Hf.
    by rewrite or_else_None, !cap_check_None in Hf.
  - intros Hf [k v] Hk%elem_of_btree_iter. by rewrite or_else_None, !cap_check_None; apply Hf.
Qed.

Lemma find_map_Some {A B} (f : A -> option B) l b :
  find_map f l = Some b -> exists a, a ∈ l /\ f a = Some b.
Proof.
  induction l as [|a l IH]; simpl; [done|]. destruct (f a) eqn:E.
  - intros [= <-]. exists a. split; [by left|done].
  - intros (x & Hx & Hf)%IH. exists x. split; [by right|done].
Qed.

Lemma check_caps_Some l a n c v :
  check_caps l a n c = Some v -> cv_limit v = cap_limit (cv_cap v) /\ cv_limit v < cv_actual v.
Proof.
  assert (H : forall c n, cap_check c n = Some v ->
                cv_limit v = cap_limit (cv_cap v) /\ cv_limit v < cv_actual v).
  { intros cc nn (-> & ? & ?)%cap_check_Some. done. }
  unfold check_caps, or_else. repeat case_match; intros; simplify_eq; eauto.
  apply find_map_Some in H4 as ([k x] & _ & E). simpl in E. repeat case_match; simplify_eq; eauto.
Qed.

(** ** Lemmas: binary search *)

Lemma bytes_le_trans a b c : bytes_le a b -> bytes_le b c -> bytes_le a c.
Proof. apply str_leb_trans. Qed.
Lemma bytes_le_total a b : bytes_le a b \/ bytes_le b a.
Proof. apply str_leb_total. Qed.
Lemma map_b2z_inj a b : map b2z a = map b2z b -> a = b.
Proof.
  revert b. induction a as [|x a IH]; intros [|y b] E; simplify_eq/=; [done|].
  f_equal; [by apply b2z_inj|auto].
Qed.
Lemma bytes_le_antisym a b : bytes_le a b -> bytes_le b a -> a = b.
Proof. intros H1 H2. by apply map_b2z_inj, str_leb_antisym. Qed.
Lemma bytes_le_refl a : bytes_le a a.
Proof. apply str_leb_refl. Qed.

#[global] Instance bytes_le_Trans : Transitive bytes_le.
Proof. intros ???. apply bytes_le_trans. Qed.
#[global] Instance bytes_le_Total : Total bytes_le.
Proof. intros ??. apply bytes_le_total. Qed.

Lemma sort_unstable_sorted l : StronglySorted bytes_le (sort_unstable l).
Proof. apply StronglySorted_merge_sort; apply _. Qed.

Lemma elem_of_sort_unstable x l : x ∈ sort_unstable l <-> x ∈ l.
Proof. unfold sort_unstable. by rewrite merge_sort_Permutation. Qed.

Lemma sorted_lookup l i j x y :
  StronglySorted bytes_le l -> (i <= j)%nat -> l !! i = Some x -> l !! j = Some y -> bytes_le x y.
Proof.
  intros HS. revert i j. induction HS as [|a l HS IH HF]; intros i j Hij Hi Hj; [done|].
  destruct i as [|i], j as [|j]; simpl in *; simplify_eq; try lia.
  - apply bytes_le_refl.
  - rewrite Forall_forall in HF. apply HF. by eapply list_elem_of_lookup_2.
  - eapply (IH i j); try done. lia.
Qed.

(** Where the value can still be: not after the window, and not before its
    first slot unless that slot holds it too. *)
Definition window (l : list bytes) (x : bytes) (base size : nat) : Prop :=
  (1 <= size)%nat /\ (base + size <= length l)%nat
  /\ (forall j, l !! j = Some x -> (j < base + size)%nat)
  /\ (base = O \/ exists p, l !! base = Some p /\ bytes_le p x).

Lemma bsearch_window fuel l x base size :
  StronglySorted bytes_le l -> (size <= fuel)%nat -> window l x base size ->
  window l x (bsearch_loop fuel l x base size) 1.
Proof.
  intros HS. revert base size. induction fuel as [|fuel IH]; intros base size Hf (H1 & H2 & H3 & H4);
    [lia|]. cbn [bsearch_loop]. destruct (Nat.leb_spec size 1).
  { replace size with 1%nat in * by lia. done. }
  assert (Hh : (1 <= size / 2 < size)%nat).
  { split; [apply Nat.div_le_lower_bound; lia|apply Nat.div_lt; lia]. }
  destruct (lookup_lt_is_Some_2 l (base + size / 2)) as [p Hp]; [lia|]. rewrite Hp.
  destruct (bool_decide (bytes_le p x)) eqn:Ep; cbn [negb]; bool_to_prop; apply IH; [lia| |lia|].
  - split_and!; [lia|lia| |right; eauto]. intros j Hj. specialize (H3 j Hj). lia.
  - assert (2 * (size / 2) <= size)%nat by (apply Nat.Div0.mul_div_le).
    split_and!; [lia|lia| |done]. intros j Hj.
    destruct (decide (j < base + (size - size / 2))%nat); [done|]. exfalso. apply Ep.
    eapply (sorted_lookup l (base + size / 2) j); try done; lia.
Qed.

Lemma binary_search_spec l x :
  StronglySorted bytes_le l -> is_ok (binary_search l x) = true <-> x ∈ l.
Proof.
  intros HS. unfold binary_search. destruct l as [|a l']; [by split; [|intros ?%not_elem_of_nil]|].
  remember (a :: l') as l eqn:El.
  assert (Hlen : (1 <= length l)%nat) by (subst; simpl; lia).
  destruct (bsearch_window (length l) l x 0 (length l) HS) as (_ & Hb & Hj & H0).
  { lia. }
  { split_and!; [lia|lia| |by left]. intros j Hj%lookup_lt_Some. lia. }
  set (base := bsearch_loop (length l) l x 0 (length l)) in *.
  destruct (lookup_lt_is_Some_2 l base) as [p Hp]; [lia|]. rewrite Hp.
  destruct (decide (p = x)) as [->|Hne].
  { rewrite bool_decide_true by done. split; [|done]. intros _. by eapply list_elem_of_lookup_2. }
  rewrite bool_decide_false by done. split; [done|].
  intros [j Hx]%list_elem_of_lookup. exfalso. apply Hne.
  pose proof (Hj j Hx). assert (j <= base)%nat by lia.
  destruct H0 as [H0|(q & Hq & Hle)].
  - assert (j = base) by lia. subst j. congruence.
  - assert (q = p) by congruence. subst q. apply bytes_le_antisym; [done|].
    by eapply (sorted_lookup l j base).
Qed.

(** ** Lemmas: the index *)

Section index_lemmas.
Context `{PrimsOk}.

Lemma elem_of_attr_hashes (s : bytes) (m : gmap str str) (h : bytes) :
  h ∈ map (fun '(k, v) => attribute_hash s k v) (btree_iter m)
  <-> exists k v, m !! k = Some v /\ h = attribute_hash s k v.
Proof.
  rewrite list_elem_of_In, in_map_iff. split.
  - intros ([k v] & <- & Hin%list_elem_of_In%elem_of_btree_iter). eauto.
  - intros (k & v & Hk & ->). exists (k, v). split; [done|].
    by apply list_elem_of_In, elem_of_btree_iter.
Qed.

Lemma matches_hashes_spec e (q : list bytes) :
  StronglySorted bytes_le (attr_hashes e) ->
  matches_hashes e q = true <-> forall h, h ∈ q -> h ∈ attr_hashes e.
Proof.
  intros HS. unfold matches_hashes. destruct q as [|h0 q].
  { split; [|done]. intros _ h Hh. by apply not_elem_of_nil in Hh. }
  destruct (attr_hashes e) as [|a l] eqn:E.
  { split; [done|]. intros Hf. specialize (Hf h0 ltac:(by left)). by apply not_elem_of_nil in Hf. }
  rewrite <- E in *. rewrite forallb_forall. split; intros Hf h Hh.
  - apply binary_search_spec; [done|]. apply Hf. by apply list_elem_of_In.
  - apply binary_search_spec; [done|]. apply Hf. by apply list_elem_of_In.
Qed.

Lemma index_entry_sorted (s : bytes) (b : bool) (i : Item) : StronglySorted bytes_le (attr_hashes (index_entry s b i)).
Proof. apply sort_unstable_sorted. Qed.

Lemma elem_of_index_entry (s : bytes) (i : Item) (h : bytes) :
  h ∈ attr_hashes (index_entry s true i)
  <-> exists k v, attributes i !! k = Some v /\ h = attribute_hash s k v.
Proof. simpl. by rewrite elem_of_sort_unstable, elem_of_attr_hashes. Qed.

Lemma matches_entry (s : bytes) (i : Item) (query : gmap str str) :
  matches (index_entry s true i) s query = true <->
  forall k v, query !! k = Some v ->
    exists k' v', attributes i !! k' = Some v' /\ attribute_hash s k v = attribute_hash s k' v'.
Proof.
  unfold matches. rewrite matches_hashes_spec by apply index_entry_sorted. split.
  - intros Hf k v Hk. apply elem_of_index_entry, Hf, elem_of_attr_hashes. eauto.
  - intros Hf h (k & v & Hk & ->)%elem_of_attr_hashes. apply elem_of_index_entry. eauto.
Qed.

Lemma index_entry_wf (s : bytes) (b : bool) (i : Item) : item_wf i -> entry_wf (index_entry s b i).
Proof.
  intros Hi. split; [apply Hi|]. apply Forall_forall. intros h. simpl.
  rewrite elem_of_sort_unstable. destruct b; [|by intros ?%not_elem_of_nil].
  intros (k & v & _ & ->)%elem_of_attr_hashes. apply sha256_length.
Qed.

Lemma build_index_wf (s : bytes) (l : list Item) (b : bool) : Forall item_wf l -> Forall entry_wf (build_index s l b).
Proof. intros Hl. apply Forall_map. eapply Forall_impl; [done|]. intros. by apply index_entry_wf. Qed.
End index_lemmas.

(** The hashed bytes determine the pair. *)
Lemma attribute_preimage_inj s k v k' v' :
  str_wf k -> str_wf v -> str_wf k' -> str_wf v' ->
  str_len k <= u32_max -> str_len k' <= u32_max ->
  attribute_preimage s k v = attribute_preimage s k' v' -> k = k' /\ v = v'.
Proof.
  intros Hk Hv Hk' Hv' Lk Lk' E. unfold attribute_preimage in E. apply app_inv_head in E.
  apply app_inj_length in E as [El E]; [|by rewrite !length_to_le_bytes].
  assert (Hlen : str_len k = str_len k').
  { pose proof (str_len_nonneg k). pose proof (str_len_nonneg k'). unfold u32_max in *.
    apply to_le_bytes_inj in El; [done| |]; change (256 ^ Z.of_nat 4) with 4294967296; lia. }
  apply app_inj_length in E as [Ek Ev]; [|unfold str_len, zlen in Hlen; lia].
  split; by apply utf8_inj.
Qed.

(** ** Lemmas: the codec *)

Lemma length_MAGIC : length MAGIC = 8%nat.
Proof. done. Qed.

Section codec_lemmas.
Context `{Postcard Header} `{Postcard (list Item)}.

Lemma header_bytes_Ok h out : header_bytes h = Ok out ->
  exists body, to_allocvec h = Some body /\ zlen body <= MAX_HEADER
               /\ out = MAGIC ++ to_le_bytes 4 (zlen body) ++ body.
Proof.
  unfold header_bytes. destruct (to_allocvec h) as [body|]; [|done].
  destruct (Z.ltb_spec MAX_HEADER (zlen body)); [done|]. intros [= <-]. eauto.
Qed.

(** A prefix we wrote announces exactly its own length. *)
Lemma header_prefix_len_written body rest :
  zlen body <= MAX_HEADER ->
  header_prefix_len (MAGIC ++ to_le_bytes 4 (zlen body) ++ body ++ rest)
  = Ok (PREFIX_LEN + length body)%nat.
Proof.
  intros Hb. unfold header_prefix_len.
  assert (Hl : (12 <= length (MAGIC ++ to_le_bytes 4 (zlen body) ++ body ++ rest))%nat).
  { rewrite !length_app, length_MAGIC, length_to_le_bytes. lia. }
  destruct (Nat.ltb_spec (length (MAGIC ++ to_le_bytes 4 (zlen body) ++ body ++ rest)) 8); [lia|].
  rewrite (take_app_length' MAGIC), bool_decide_true by done. cbn [negb].
  destruct (Nat.ltb_spec (length (MAGIC ++ to_le_bytes 4 (zlen body) ++ body ++ rest)) PREFIX_LEN);
    [unfold PREFIX_LEN in *; lia|].
  rewrite (drop_app_length' MAGIC), take_app_length' by (done || by rewrite length_to_le_bytes).
  pose proof (zlen_nonneg body). rewrite from_to_le_bytes.
  2: { change (256 ^ Z.of_nat 4) with 4294967296. change MAX_HEADER with 16777216 in Hb. lia. }
  destruct (Z.ltb_spec MAX_HEADER (zlen body)); [lia|]. do 2 f_equal. unfold zlen. lia.
Qed.

Lemma header_prefix_len_Ok bs n : header_prefix_len bs = Ok n ->
  (PREFIX_LEN <= length bs)%nat /\ (PREFIX_LEN <= n)%nat
  /\ Z.of_nat n <= Z.of_nat PREFIX_LEN + MAX_HEADER /\ take 8 bs = MAGIC.
Proof.
  unfold header_prefix_len. destruct (Nat.ltb_spec (length bs) 8); [done|].
  destruct (bool_decide (take 8 bs = MAGIC)) eqn:Em; [|done]. cbn [negb].
  destruct (Nat.ltb_spec (length bs) PREFIX_LEN); [done|].
  destruct (Z.ltb_spec MAX_HEADER (from_le_bytes (take 4 (drop 8 bs)))); [done|].
  intros [= <-]. bool_to_prop. pose proof (from_le_bytes_range (take 4 (drop 8 bs))).
  unfold PREFIX_LEN in *. split_and!; [done|lia|lia|done].
Qed.

Lemma decode_header_prefix_Ok bs h n : decode_header_prefix bs = Ok (h, n) ->
  (PREFIX_LEN <= n <= length bs)%nat /\ Z.of_nat n <= Z.of_nat PREFIX_LEN + MAX_HEADER
  /\ check_header h = Ok tt
  /\ take_from_bytes (take (n - PREFIX_LEN) (drop PREFIX_LEN bs)) = Some (h, []).
Proof.
  unfold decode_header_prefix. destruct (header_prefix_len bs) as [need|] eqn:En; [|done].
  apply header_prefix_len_Ok in En as (? & ? & ? & _).
  destruct (Nat.ltb_spec (length bs) need); [done|].
  destruct (take_from_bytes _) as [[h' rest]|] eqn:Et; [|done]. destruct rest; [|done].
  destruct (check_header h') as [[]|] eqn:Ec; [|done]. intros [= <- <-]. done.
Qed.

Lemma check_header_Ok h : check_header h = Ok tt <-> version h = VERSION /\ validate (kdf h) = Ok tt.
Proof.
  unfold check_header. destruct (Z.eqb_spec (version h) VERSION); simpl; [|split; [done|by intros []]].
  destruct (validate (kdf h)) as [[]|]; simpl; split; try done. by intros [].
Qed.

(** What was written reads back to its header, through the header's checks. *)
Lemma decode_header_written `{!PostcardOk Header} h out rest :
  pc_wf h -> header_bytes h = Ok out ->
  decode_header_prefix (out ++ rest) = let? _ := check_header h in Ok (h, length out).
Proof.
  intros Hwf (body & Hb & Hle & ->)%header_bytes_Ok. unfold decode_header_prefix.
  rewrite <- !app_assoc, header_prefix_len_written by done.
  assert (Hl : length (MAGIC ++ to_le_bytes 4 (zlen body) ++ body) = (PREFIX_LEN + length body)%nat).
  { rewrite !length_app, length_MAGIC, length_to_le_bytes. unfold PREFIX_LEN. lia. }
  destruct (Nat.ltb_spec (length (MAGIC ++ to_le_bytes 4 (zlen body) ++ body ++ rest))
                         (PREFIX_LEN + length body)) as [Hlt|_].
  { rewrite !length_app in Hl. rewrite !length_app in Hlt. lia. }
  replace (MAGIC ++ to_le_bytes 4 (zlen body) ++ body ++ rest)
    with ((MAGIC ++ to_le_bytes 4 (zlen body)) ++ body ++ rest) by (by rewrite <- app_assoc).
  rewrite drop_app_length' by (by rewrite length_app, length_to_le_bytes).
  rewrite Nat.add_comm, Nat.add_sub, take_app_length.
  rewrite <- (app_nil_r body) at 1. rewrite (pc_roundtrip h) by done.
  destruct (check_header h); [|done]. rewrite Hl. f_equal. f_equal. lia.
Qed.

Lemma decode_header_bytes `{!PostcardOk Header} h out rest :
  pc_wf h -> header_bytes h = Ok out -> check_header h = Ok tt ->
  decode_header_prefix (out ++ rest) = Ok (h, length out).
Proof. intros Hwf Hb Hc. by rewrite (decode_header_written h), Hc. Qed.

Lemma decode_encode_items `{!PostcardOk (list Item)} l b :
  pc_wf l -> encode_items l = Ok b -> decode_items b = Ok l.
Proof.
  unfold encode_items, decode_items, from_bytes. intros Hwf.
  destruct (to_allocvec l) as [b'|] eqn:E; [|done]. intros [= <-].
  rewrite <- (app_nil_r b'). by rewrite (pc_roundtrip l).
Qed.
End codec_lemmas.

(** ** A concrete codec *)

Definition kdf_codec : codec KdfParams.
Proof.
  refine (iso_codec (fun k => (m_cost_kib k, t_cost k, p_cost k))
                    (fun '(m, t, p) => {| m_cost_kib := m; t_cost := t; p_cost := p |}) _
                    (pair_codec (pair_codec Z_codec Z_codec) Z_codec)).
  abstract (by intros []).
Defined.

Definition entry_codec : codec IndexEntry.
Proof.
  refine (iso_codec (fun e => (ie_id e, attr_hashes e))
                    (fun '(i, h) => {| ie_id := i; attr_hashes := h |}) _
                    (pair_codec str_codec (list_codec bytes_codec))).
  abstract (by intros []).
Defined.

Definition header_codec : codec Header.
Proof.
  refine (iso_codec
    (fun h => ((version h, label h, created h, modified h), (kdf h, salt h, index_salt h, nonce h), index h))
    (fun '((v, l, c, m), (k, s, i, n), x) =>
       {| version := v; label := l; created := c; modified := m; kdf := k; salt := s;
          index_salt := i; nonce := n; index := x |}) _
    (pair_codec
      (pair_codec
        (pair_codec (pair_codec (pair_codec Z_codec str_codec) Z_codec) Z_codec)
        (pair_codec (pair_codec (pair_codec kdf_codec bytes_codec) bytes_codec) bytes_codec))
      (list_codec entry_codec))).
  abstract (by intros []).
Defined.

Definition item_codec : codec Item.
Proof.
  refine (iso_codec
    (fun i => ((i_id i, i_label i, attributes i), (secret i, content_type i), (i_created i, i_modified i)))
    (fun '((d, l, a), (s, c), (x, y)) =>
       {| i_id := d; i_label := l; attributes := a; secret := s; content_type := c;
          i_created := x; i_modified := y |}) _
    (pair_codec
      (pair_codec (pair_codec (pair_codec str_codec str_codec) (gmap_codec str_codec))
                  (pair_codec bytes_codec str_codec))
      (pair_codec Z_codec Z_codec))).
  abstract (by intros []).
Defined.

Definition sample_codec : VaultCodec :=
  {| vc_header := codec_postcard header_wf header_codec;
     vc_items := codec_postcard (Forall item_wf) (list_codec item_codec) |}.

Lemma sample_codec_ok : VaultCodecOk sample_codec.
Proof. split; [apply codec_postcard_ok..| |]; done. Qed.

Definition sample_header : Header :=
  {| version := VERSION; label := lit "Login"; created := 5; modified := 6; kdf := kdf_default;
     salt := repeat x01 16; index_salt := repeat x02 16; nonce := repeat x03 24; index := [] |}.

Definition sample_item : Item :=
  {| i_id := lit "a1"; i_label := lit "mail";
     attributes := {[ lit "user" := lit "me"; lit "app" := lit "x" ]};
     secret := [x70; x77]; content_type := lit "text/plain"; i_created := 7; i_modified := 8 |}.

(** Decide a closed well-formedness goal. *)
Ltac wf_compute :=
  repeat match goal with
  | |- _ /\ _ => split
  | |- Forall _ _ => constructor
  end; try done; try (unfold u16, u32, u64, u16_max, u32_max, u64_max; simpl; lia);
  try (apply (bool_decide_unpack _); vm_compute; exact I).

Lemma sample_header_wf : header_wf sample_header.
Proof. unfold header_wf, kdf_wf. wf_compute. Qed.

(** ** Properties *)

(** Round trip of the file format: a vault file built for a header of this
    version, with KDF parameters inside the ceiling, decodes from its encoding
    to the same header, the same associated data and the same ciphertext. *)
Theorem vault_file_roundtrip (C : VaultCodec) (HC : VaultCodecOk C) h ct f :
  header_wf h -> version h = VERSION -> validate (kdf h) = Ok tt ->
  vault_file_new h ct = Ok f -> vf_decode (vf_encode f) = Ok f.
Proof.
  intros Hwf Hv Hk. unfold vault_file_new. destruct (header_bytes h) as [aad|] eqn:E; [|done].
  intros [= <-]. unfold vf_decode, vf_encode. simpl.
  rewrite (decode_header_bytes h); [|by apply vc_header_wf|done|by apply check_header_Ok].
  by rewrite take_app_length, drop_app_length.
Qed.

Lemma vault_file_roundtrip_witness :
  exists f, @vault_file_new (@vc_header sample_codec) sample_header [xaa; xbb] = Ok f
            /\ @vf_decode (@vc_header sample_codec) (vf_encode f) = Ok f.
Proof.
  eexists. split; [vm_compute; reflexivity|].
  apply (vault_file_roundtrip sample_codec sample_codec_ok sample_header [xaa; xbb]);
    [apply sample_header_wf|reflexivity|vm_compute; reflexivity|vm_compute; reflexivity].
Defined.

(** Decoding is exact. What decodes re-encodes to the very bytes that were
    read, its header was consumed to the last byte of the declared region, has
    this build's version and safe KDF parameters, and its size is bounded; a
    file too short for a prefix is refused. *)
Theorem vf_decode_exact (C : VaultCodec) bs :
  (forall f, vf_decode bs = Ok f ->
     vf_encode f = bs
     /\ version (vf_header f) = VERSION /\ validate (kdf (vf_header f)) = Ok tt
     /\ (PREFIX_LEN <= length (vf_aad f))%nat
     /\ zlen (vf_aad f) <= Z.of_nat PREFIX_LEN + MAX_HEADER
     /\ take_from_bytes (drop PREFIX_LEN (vf_aad f)) = Some (vf_header f, []))
  /\ ((length bs < PREFIX_LEN)%nat -> vf_decode bs = Err Truncated \/ vf_decode bs = Err BadMagic).
Proof.
  split.
  - intros f. unfold vf_decode. destruct (decode_header_prefix bs) as [[h n]|] eqn:E; [|done].
    apply decode_header_prefix_Ok in E as (Hn & Hm & Hc & Ht). intros [= <-]. simpl.
    apply check_header_Ok in Hc as [Hv Hk]. unfold vf_encode, zlen. simpl.
    rewrite take_drop, length_take_le by lia.
    split_and!; [done..|lia|lia|]. by rewrite skipn_firstn_comm.
  - intros Hl. unfold vf_decode, decode_header_prefix, header_prefix_len.
    destruct (length bs <? 8)%nat; [auto|]. destruct (negb _); [auto|].
    destruct (Nat.ltb_spec (length bs) PREFIX_LEN); [auto|lia].
Qed.

Lemma vf_decode_exact_witness :
  exists f, @vf_decode (@vc_header sample_codec)
              (match @header_bytes (@vc_header sample_codec) sample_header with
               | Ok a => a ++ [xcc] | Err _ => [] end) = Ok f
            /\ vf_ciphertext f = [xcc] /\ version (vf_header f) = VERSION
            /\ @vf_decode (@vc_header sample_codec) MAGIC = Err Truncated.
Proof.
  eexists. split; [vm_compute; reflexivity|]. split; [vm_compute; reflexivity|]. split.
  - apply (proj1 (vf_decode_exact sample_codec
      (match @header_bytes (@vc_header sample_codec) sample_header with
       | Ok a => a ++ [xcc] | Err _ => [] end)) _). vm_compute. reflexivity.
  - destruct (proj2 (vf_decode_exact sample_codec MAGIC)) as [E|E];
      [vm_compute; lia|exact E|vm_compute in E; discriminate E].
Defined.

(** The write side agrees with the read side about the header limit: a
    header that is written announces exactly its own length (the [as u32] cast
    loses nothing, and the reader accepts the length), and one over the limit
    is refused rather than written. *)
Theorem header_bytes_agrees (C : VaultCodec) h :
  (forall out, header_bytes h = Ok out ->
     header_prefix_len out = Ok (length out)
     /\ from_le_bytes (take 4 (drop 8 out)) = zlen out - Z.of_nat PREFIX_LEN)
  /\ (forall body, to_allocvec h = Some body -> MAX_HEADER < zlen body ->
       header_bytes h = Err (HeaderTooLarge (zlen body))).
Proof.
  split.
  - intros out (body & Hb & Hle & ->)%header_bytes_Ok. split.
    + rewrite <- (app_nil_r body) at 2. rewrite header_prefix_len_written by done.
      by f_equal.
    + rewrite drop_app_length', take_app_length' by (done || by rewrite length_to_le_bytes).
      pose proof (zlen_nonneg body). change MAX_HEADER with 16777216 in Hle.
      rewrite from_to_le_bytes by (change (256 ^ Z.of_nat 4) with 4294967296; lia).
      unfold zlen. rewrite !length_app, length_MAGIC, length_to_le_bytes. unfold PREFIX_LEN. lia.
  - intros body Hb Hlt. unfold header_bytes. rewrite Hb.
    by destruct (Z.ltb_spec MAX_HEADER (zlen body)); [|lia].
Qed.

Lemma header_bytes_agrees_witness :
  exists out, @header_bytes (@vc_header sample_codec) sample_header = Ok out
              /\ header_prefix_len out = Ok (length out).
Proof.
  eexists. split; [vm_compute; reflexivity|].
  apply (proj1 (header_bytes_agrees sample_codec sample_header)). vm_compute. reflexivity.
Defined.

(** [check_caps] accepts an item exactly when every one of the six caps
    holds (a value of exactly the limit is accepted), and what it reports is a
    cap that is really broken, with that cap's limit. *)
Theorem check_caps_exact l attrs n c :
  (check_caps l attrs n c = None <-> within_caps l attrs n c)
  /\ (forall v, check_caps l attrs n c = Some v ->
        cv_limit v = cap_limit (cv_cap v) /\ cv_limit v < cv_actual v).
Proof. split; [apply check_caps_None|apply check_caps_Some]. Qed.

Lemma check_caps_exact_witness :
  exists v, check_caps (lit "l") ∅ (MAX_ITEM_SECRET + 1) (lit "t") = Some v
            /\ cv_limit v < cv_actual v.
Proof.
  eexists. split; [vm_compute; reflexivity|].
  apply (proj2 (check_caps_exact (lit "l") ∅ (MAX_ITEM_SECRET + 1) (lit "t"))). vm_compute. reflexivity.
Defined.

(** What is hashed for an attribute determines the pair: no two different
    (name, value) pairs of up to 4 GiB names are hashed from the same bytes
    under one salt, so the length prefix leaves no ambiguity between the end of
    the name and the start of the value. *)
Theorem attribute_preimage_unambiguous s k v k' v' :
  str_wf k -> str_wf v -> str_wf k' -> str_wf v' ->
  str_len k <= u32_max -> str_len k' <= u32_max ->
  attribute_preimage s k v = attribute_preimage s k' v' -> k = k' /\ v = v'.
Proof. apply attribute_preimage_inj. Qed.

Lemma attribute_preimage_unambiguous_witness :
  lit "a" = lit "a" /\ lit "bc" = lit "bc".
Proof.
  apply (attribute_preimage_unambiguous [x01] (lit "a") (lit "bc") (lit "a") (lit "bc"));
    try (apply (bool_decide_unpack _); vm_compute; exact I); try (vm_compute; discriminate).
Defined.

(** The locked search agrees with the plaintext search. The index entry of
    an item, searched by binary search over its sorted digests, matches every
    query the item's attributes satisfy; and it matches no other query unless
    two different preimages among the query's and the item's have the same
    digest. An id-only index matches no non-empty query. *)
Theorem index_search_exact (P : Prims) (HP : PrimsOk P) (s : bytes) (i : Item) (query : gmap str str) :
  ((forall k v, query !! k = Some v -> attributes i !! k = Some v) ->
     matches (index_entry s true i) s query = true)
  /\ (attrs_wf (attributes i) -> attrs_wf query ->
      (forall k v, query !! k = Some v -> str_len k <= u32_max) ->
      (forall k v, attributes i !! k = Some v -> str_len k <= u32_max) ->
      (forall k v k' v', query !! k = Some v -> attributes i !! k' = Some v' ->
         attribute_hash s k v = attribute_hash s k' v' ->
         attribute_preimage s k v = attribute_preimage s k' v') ->
      matches (index_entry s true i) s query = true ->
      forall k v, query !! k = Some v -> attributes i !! k = Some v)
  /\ (query <> ∅ -> matches (index_entry s false i) s query = false).
Proof.
  split_and!.
  - intros Hq. apply matches_entry. eauto.
  - intros Wi Wq Lq Li Hcoll Hm k v Hk.
    destruct (proj1 (matches_entry s i query) Hm k v Hk) as (k' & v' & Hk' & E).
    destruct (Wq k v Hk) as [? ?]. destruct (Wi k' v' Hk') as [? ?].
    destruct (attribute_preimage_inj s k v k' v') as [-> ->]; eauto.
  - intros Hne. unfold matches, matches_hashes, hash_query.
    destruct (map_choose query Hne) as (k & v & Hk%elem_of_btree_iter).
    destruct (btree_iter query); [by apply not_elem_of_nil in Hk|]. done.
Qed.

Lemma index_search_exact_witness :
  @matches sample_prims (@index_entry sample_prims (repeat x02 16) true sample_item)
           (repeat x02 16) {[ lit "app" := lit "x" ]} = true
  /\ @matches sample_prims (@index_entry sample_prims (repeat x02 16) false sample_item)
           (repeat x02 16) {[ lit "app" := lit "x" ]} = false.
Proof.
  destruct (index_search_exact sample_prims sample_prims_ok (repeat x02 16) sample_item
              {[ lit "app" := lit "x" ]}) as (H1 & _ & H3).
  split.
  - apply H1. intros k v Hk. apply lookup_singleton_Some in Hk as [<- <-]. vm_compute. reflexivity.
  - apply H3. apply map_non_empty_singleton.
Defined.
