(* ===== verification/Import.v ===== *)
(** * Importing from another keyring: the shared vocabulary ([src/import/mod.rs])

    What an importer reads ([SourceItem]), how an item's fate is classified
    ([Outcome], [Refusal]), and the report a migration leaves behind.  A
    report's tally is a function of its items: [push] is the only way to add
    one, and reading a report back ([import_report_deserialize]) refuses one
    whose counters disagree with the items they summarise.  Counters are
    [usize] values that count elements of a list in memory, so they are [nat].
    serde's decoding of the wire shape is another crate's; what happens after
    it is modelled from the decoded value. *)
From S2P Require Import Prelude Text Format.

Definition XDG_SCHEMA : str := lit "xdg:schema".
Definition ATTR_FOLDER : str := lit "kwallet:folder".
Definition ATTR_KEY : str := lit "kwallet:key".
Definition ATTR_TYPE : str := lit "kwallet:type".
Definition SYNTHESISED_ATTRIBUTES : list str := [ATTR_FOLDER; ATTR_KEY; ATTR_TYPE].

Inductive Source : Type := GnomeKeyring | KWallet.

#[global] Instance Source_eq_dec : EqDecision Source.
Proof. solve_decision. Defined.

Definition source_as_str (s : Source) : str :=
  match s with GnomeKeyring => lit "gnome-keyring" | KWallet => lit "kwallet" end.

Definition is_synthesised_attribute (source : Source) (key : str) : bool :=
  bool_decide (source = KWallet) && existsb (str_eqb key) SYNTHESISED_ATTRIBUTES.

(** ** Items *)

Record Provenance : Type := {
  pv_source : Source;
  container : str;
  folder : option str;
  entry : option str;
  pv_item_id : option Z
}.

#[global] Instance Provenance_eq_dec : EqDecision Provenance.
Proof. solve_decision. Defined.

Definition provenance_gnome (container : str) (item_id : Z) : Provenance :=
  {| pv_source := GnomeKeyring; container := container; folder := None; entry := None;
     pv_item_id := Some item_id |}.

Definition provenance_kwallet (container folder entry : str) : Provenance :=
  {| pv_source := KWallet; container := container; folder := Some folder; entry := Some entry;
     pv_item_id := None |}.

Record SourceItem : Type := {
  si_label : str;
  si_attributes : gmap str str;
  si_secret : bytes;
  si_content_type : str;
  si_created : Z;
  si_modified : Z;
  si_provenance : Provenance;
  inserted_keys : gset str
}.

(** ** Outcomes *)

Inductive Outcome : Type := FullyPortable | AttributesPreserved | PreservedOnly.

#[global] Instance Outcome_eq_dec : EqDecision Outcome.
Proof. solve_decision. Defined.

Definition classify (source : Source) (attributes : gmap str str) (inserted : gset str) : Outcome :=
  let rest :=
    if existsb (fun k => negb (is_synthesised_attribute source k) || negb (bool_decide (k ∈ inserted)))
               (btree_keys attributes)
    then AttributesPreserved else PreservedOnly in
  match attributes !! XDG_SCHEMA with
  | Some (_ :: _) => FullyPortable
  | _ => rest
  end.

Definition item_outcome (i : SourceItem) : Outcome :=
  classify (pv_source (si_provenance i)) (si_attributes i) (inserted_keys i).

Definition outcome_as_str (o : Outcome) : str :=
  match o with
  | FullyPortable => lit "fully portable"
  | AttributesPreserved => lit "attributes preserved, discoverability uncertain"
  | PreservedOnly => lit "preserved only"
  end.

(** ** Refusals *)

Inductive Refusal : Type :=
| ChainedKeyringItem (item_type : Z)
| UnreadableItemType
| UnreadableAttributes
| RefusedCap (cap : Cap) (actual limit : Z).

#[global] Instance Refusal_eq_dec : EqDecision Refusal.
Proof. solve_decision. Defined.

(** [impl From<CapViolation> for Refusal]. *)
Definition refusal_from_cap (v : CapViolation) : Refusal :=
  RefusedCap (cv_cap v) (cv_actual v) (cv_limit v).

(** [import::check_caps]. *)
Definition import_check_caps (label : str) (attributes : gmap str str) (secret_len : Z)
    (content_type : str) : option Refusal :=
  refusal_from_cap <$> check_caps label attributes secret_len content_type.

Definition cap_violation (i : SourceItem) : option Refusal :=
  import_check_caps (si_label i) (si_attributes i) (zlen (si_secret i)) (si_content_type i).

(** ** Attribute names *)

Record AttributeNameError : Type := { ane_len : Z; ane_limit : Z }.

(** [TryFrom<String> for AttributeName]; the newtype is its string. *)
Definition attribute_name_try_from (name : str) : result str AttributeNameError :=
  if MAX_ATTRIBUTE_KEY <? str_len name
  then Err {| ane_len := str_len name; ane_limit := MAX_ATTRIBUTE_KEY |}
  else Ok name.

(** [AttributeKeys] is a set of names. *)
Abbreviation AttributeKeys := (gset str).

(** [AttributeKeys::of] and [AttributeKeys::from_names]. *)
Definition keys_of (attributes : gmap str str) : AttributeKeys := dom attributes.
Definition from_names (names : list str) : AttributeKeys := list_to_set names.

(** Deserialising: every name of the array goes through [AttributeName], and
    the first that fails ends the decoding. *)
Fixpoint attribute_names_deserialize (names : list str) : result (list str) AttributeNameError :=
  match names with
  | [] => Ok []
  | n :: names =>
    let? a := attribute_name_try_from n in
    let? l := attribute_names_deserialize names in
    Ok (a :: l)
  end.

Definition attribute_keys_deserialize (names : list str) : result AttributeKeys AttributeNameError :=
  let? l := attribute_names_deserialize names in Ok (list_to_set l).

(** ** Reports *)

Record ItemReport : Type := {
  ir_provenance : Provenance;
  ir_label : str;
  attribute_keys : AttributeKeys;
  ir_content_type : str;
  outcome : option Outcome;
  refusals : list Refusal;
  secret_len : nat;
  lost_item_type : option Z;
  unknown_item_type : option str;
  acl_downgrade : bool;
  epoch_stamped : bool
}.

(** [ItemReport::imported] and [ItemReport::refused]. *)
Definition report_imported (i : SourceItem) : ItemReport := {|
  ir_provenance := si_provenance i;
  ir_label := si_label i;
  attribute_keys := keys_of (si_attributes i);
  ir_content_type := si_content_type i;
  outcome := Some (item_outcome i);
  refusals := [];
  secret_len := length (si_secret i);
  lost_item_type := None;
  unknown_item_type := None;
  acl_downgrade := false;
  epoch_stamped := (si_created i =? 0) && (si_modified i =? 0)
|}.

Definition refused_report (p : Provenance) (label : str) (r : Refusal) : ItemReport := {|
  ir_provenance := p;
  ir_label := label;
  attribute_keys := ∅;
  ir_content_type := [];
  outcome := None;
  refusals := [r];
  secret_len := 0;
  lost_item_type := None;
  unknown_item_type := None;
  acl_downgrade := false;
  epoch_stamped := false
|}.

Definition is_refused (r : ItemReport) : bool :=
  match refusals r with [] => false | _ => true end.

Record Tally : Type := {
  fully_portable : nat;
  attributes_preserved : nat;
  preserved_only : nat;
  refused : nat
}.

#[global] Instance Tally_eq_dec : EqDecision Tally.
Proof. solve_decision. Defined.

Definition tally_default : Tally :=
  {| fully_portable := 0; attributes_preserved := 0; preserved_only := 0; refused := 0 |}.

(** [Tally::imported] and [Tally::seen]. *)
Definition tally_imported (t : Tally) : nat :=
  (fully_portable t + attributes_preserved t + preserved_only t)%nat.
Definition tally_seen (t : Tally) : nat := (tally_imported t + refused t)%nat.

Definition record_outcome (t : Tally) (o : Outcome) : Tally :=
  match o with
  | FullyPortable =>
    {| fully_portable := S (fully_portable t); attributes_preserved := attributes_preserved t;
       preserved_only := preserved_only t; refused := refused t |}
  | AttributesPreserved =>
    {| fully_portable := fully_portable t; attributes_preserved := S (attributes_preserved t);
       preserved_only := preserved_only t; refused := refused t |}
  | PreservedOnly =>
    {| fully_portable := fully_portable t; attributes_preserved := attributes_preserved t;
       preserved_only := S (preserved_only t); refused := refused t |}
  end.

Definition record_refused (t : Tally) : Tally :=
  {| fully_portable := fully_portable t; attributes_preserved := attributes_preserved t;
     preserved_only := preserved_only t; refused := S (refused t) |}.

Definition tally_record (t : Tally) (r : ItemReport) : Tally :=
  if is_refused r then record_refused t
  else match outcome r with
       | Some o => record_outcome t o
       | None => record_refused t
       end.

(** [Deserialize for Tally]: the decoded counters, replayed one by one. *)
Definition tally_deserialize (fp ap po rf : nat) : Tally :=
  let t := Nat.iter fp (fun t => record_outcome t FullyPortable) tally_default in
  let t := Nat.iter ap (fun t => record_outcome t AttributesPreserved) t in
  let t := Nat.iter po (fun t => record_outcome t PreservedOnly) t in
  Nat.iter rf record_refused t.

(** [ImportReport]; the wire shape [ImportReportRepr] has the same fields. *)
Record ImportReport : Type := {
  ir_source : Source;
  collection : str;
  tally : Tally;
  ir_items : list ItemReport;
  empty_folders : nat;
  header_item_count : option nat;
  epoch_stamped_items : nat
}.

Definition import_report_new (s : Source) (c : str) : ImportReport :=
  {| ir_source := s; collection := c; tally := tally_default; ir_items := []; empty_folders := 0;
     header_item_count := None; epoch_stamped_items := 0 |}.

(** [ImportReport::push]. *)
Definition push (rep : ImportReport) (r : ItemReport) : ImportReport :=
  {| ir_source := ir_source rep;
     collection := collection rep;
     tally := tally_record (tally rep) r;
     ir_items := ir_items rep ++ [r];
     empty_folders := empty_folders rep;
     header_item_count := header_item_count rep;
     epoch_stamped_items :=
       if negb (is_refused r) && epoch_stamped r then S (epoch_stamped_items rep)
       else epoch_stamped_items rep |}.

Definition epoch_note (rep : ImportReport) : option str :=
  if (epoch_stamped_items rep =? 0)%nat then None
  else Some (dec (Z.of_nat (epoch_stamped_items rep)) ++
             lit " imported items carry no timestamps from the source, so their created and modified times are the Unix epoch and the newest-wins ordering `sm get` uses to break an attribute-set collision is arbitrary for them").

Definition recomputed_tally (items : list ItemReport) : Tally :=
  fold_left tally_record items tally_default.

Definition recomputed_epoch_stamped (items : list ItemReport) : nat :=
  length (List.filter (fun r => negb (is_refused r) && epoch_stamped r) items).

Inductive ReportError : Type :=
| TallyDisagrees (stated recomputed : Tally)
| EpochDisagrees (stated recomputed : nat).

(** [Deserialize for ImportReport], from the decoded wire shape. *)
Definition import_report_deserialize (repr : ImportReport) : result ImportReport ReportError :=
  let recomputed := recomputed_tally (ir_items repr) in
  if negb (bool_decide (recomputed = tally repr)) then Err (TallyDisagrees (tally repr) recomputed)
  else
    let recomputed_epoch := recomputed_epoch_stamped (ir_items repr) in
    if negb (recomputed_epoch =? epoch_stamped_items repr)%nat
    then Err (EpochDisagrees (epoch_stamped_items repr) recomputed_epoch)
    else Ok repr.

(** ** Lemmas *)

(** A report whose counters are those of its items. *)
Definition report_ok (rep : ImportReport) : Prop :=
  tally rep = recomputed_tally (ir_items rep)
  /\ epoch_stamped_items rep = recomputed_epoch_stamped (ir_items rep).

(** How many reports of a list count under each heading. *)
Definition counted_as (o : Outcome) (r : ItemReport) : bool :=
  negb (is_refused r) && bool_decide (outcome r = Some o).
Definition counted_refused (r : ItemReport) : bool :=
  is_refused r || bool_decide (outcome r = None).

Definition count_if {A} (p : A -> bool) (l : list A) : nat := length (List.filter p l).

Lemma count_if_app {A} (p : A -> bool) l k : count_if p (l ++ k) = (count_if p l + count_if p k)%nat.
Proof. unfold count_if. by rewrite List.filter_app, length_app. Qed.

Lemma count_if_cons {A} (p : A -> bool) x l :
  count_if p (x :: l) = ((if p x then 1 else 0) + count_if p l)%nat.
Proof. unfold count_if. simpl. by destruct (p x). Qed.

Lemma count_if_map {A B} (f : A -> B) (p : B -> bool) l : count_if p (map f l) = count_if (fun x => p (f x)) l.
Proof. unfold count_if. induction l as [|x l IH]; [done|]. simpl. by destruct (p (f x)); simpl; rewrite IH. Qed.

Lemma count_if_perm {A} (p : A -> bool) l k : l ≡ₚ k -> count_if p l = count_if p k.
Proof.
  unfold count_if. induction 1 as [|x l k _ IH|x y l|l k m _ IH1 _ IH2]; simpl.
  - done.
  - by destruct (p x); simpl; rewrite IH.
  - by destruct (p x), (p y).
  - by rewrite IH1.
Qed.

Lemma count_if_singleton {A} (p : A -> bool) x : count_if p [x] = if p x then 1%nat else 0%nat.
Proof. unfold count_if. simpl. by destruct (p x). Qed.

Lemma count_if_length {A} (p : A -> bool) l : (count_if p l <= length l)%nat.
Proof. unfold count_if. apply List.filter_length_le. Qed.

Definition tally_counts (items : list ItemReport) : Tally :=
  {| fully_portable := count_if (counted_as FullyPortable) items;
     attributes_preserved := count_if (counted_as AttributesPreserved) items;
     preserved_only := count_if (counted_as PreservedOnly) items;
     refused := count_if counted_refused items |}.

Lemma tally_record_counts l r : tally_record (tally_counts l) r = tally_counts (l ++ [r]).
Proof.
  unfold tally_counts. rewrite !count_if_app, !count_if_singleton.
  generalize (count_if (counted_as FullyPortable) l), (count_if (counted_as AttributesPreserved) l),
    (count_if (counted_as PreservedOnly) l), (count_if counted_refused l). intros a b c d.
  unfold tally_record, counted_as, counted_refused. destruct (is_refused r) eqn:R.
  - unfold record_refused. cbn. f_equal; lia.
  - destruct (outcome r) as [[]|] eqn:O; repeat case_bool_decide; try done; cbn;
      unfold record_refused; cbn; f_equal; lia.
Qed.

Lemma recomputed_tally_app l r :
  recomputed_tally (l ++ [r]) = tally_record (recomputed_tally l) r.
Proof. unfold recomputed_tally. by rewrite fold_left_app. Qed.

Lemma recomputed_tally_counts l : recomputed_tally l = tally_counts l.
Proof.
  induction l as [|r l IH] using rev_ind; [done|].
  by rewrite recomputed_tally_app, IH, tally_record_counts.
Qed.

Lemma tally_record_seen t r : tally_seen (tally_record t r) = S (tally_seen t).
Proof.
  unfold tally_record, tally_seen, tally_imported.
  destruct (is_refused r), (outcome r) as [[]|]; simpl; lia.
Qed.

Lemma recomputed_tally_seen l : tally_seen (recomputed_tally l) = length l.
Proof.
  induction l as [|r l IH] using rev_ind; [done|].
  rewrite recomputed_tally_app, tally_record_seen, IH, length_app. simpl. lia.
Qed.

Lemma import_report_new_ok s c : report_ok (import_report_new s c).
Proof. done. Qed.

Lemma push_ok rep r : report_ok rep -> report_ok (push rep r).
Proof.
  intros [Ht He]. split; simpl.
  - by rewrite recomputed_tally_app, <- Ht.
  - unfold recomputed_epoch_stamped in *. rewrite List.filter_app, length_app, <- He. simpl.
    destruct (negb (is_refused r) && epoch_stamped r); simpl; lia.
Qed.

Lemma pushes_ok l rep : report_ok rep -> report_ok (fold_left push l rep).
Proof. revert rep. induction l as [|r l IH]; intros rep H; simpl; auto using push_ok. Qed.

Lemma import_report_deserialize_Ok repr rep :
  import_report_deserialize repr = Ok rep <-> rep = repr /\ report_ok repr.
Proof.
  unfold import_report_deserialize, report_ok. case_bool_decide as E; simpl.
  - destruct (Nat.eqb_spec (recomputed_epoch_stamped (ir_items repr)) (epoch_stamped_items repr)); simpl.
    + split; [by intros [= <-]|by intros [-> _]].
    + split; [done|]. intros (_ & _ & ?). congruence.
  - split; [done|]. intros (_ & ? & _). congruence.
Qed.

Lemma iter_record n o t : Nat.iter n (fun t => record_outcome t o) t =
  match o with
  | FullyPortable =>
    {| fully_portable := n + fully_portable t; attributes_preserved := attributes_preserved t;
       preserved_only := preserved_only t; refused := refused t |}
  | AttributesPreserved =>
    {| fully_portable := fully_portable t; attributes_preserved := n + attributes_preserved t;
       preserved_only := preserved_only t; refused := refused t |}
  | PreservedOnly =>
    {| fully_portable := fully_portable t; attributes_preserved := attributes_preserved t;
       preserved_only := n + preserved_only t; refused := refused t |}
  end.
Proof. induction n as [|n IH]; simpl; [by destruct o, t|]. rewrite IH. by destruct o. Qed.

Lemma iter_refused n t : Nat.iter n record_refused t =
  {| fully_portable := fully_portable t; attributes_preserved := attributes_preserved t;
     preserved_only := preserved_only t; refused := n + refused t |}.
Proof. induction n as [|n IH]; simpl; [by destruct t|]. by rewrite IH. Qed.

Lemma tally_deserialize_id t :
  tally_deserialize (fully_portable t) (attributes_preserved t) (preserved_only t) (refused t) = t.
Proof.
  unfold tally_deserialize. rewrite iter_refused, !iter_record. destruct t; simpl.
  f_equal; lia.
Qed.

Lemma is_synthesised_spec (s : Source) (k : str) :
  is_synthesised_attribute s k = true <-> s = KWallet /\ k ∈ SYNTHESISED_ATTRIBUTES.
Proof.
  unfold is_synthesised_attribute. rewrite andb_true_iff, bool_decide_eq_true, existsb_exists.
  split.
  - intros [-> (x & Hx & ->%str_eqb_eq)]. split; [done|]. by apply list_elem_of_In.
  - intros [-> Hk]. split; [done|]. exists k. split; [by apply list_elem_of_In|by apply str_eqb_eq].
Qed.

(** Attributes that count: neither synthesised by the importer for this item. *)
Definition searchable (s : Source) (inserted : gset str) (k : str) : Prop :=
  ~ (s = KWallet /\ k ∈ SYNTHESISED_ATTRIBUTES /\ k ∈ inserted).

Lemma classify_rest (s : Source) (attrs : gmap str str) (ins : gset str) :
  existsb (fun k => negb (is_synthesised_attribute s k) || negb (bool_decide (k ∈ ins)))
          (btree_keys attrs) = true
  <-> exists k v, attrs !! k = Some v /\ searchable s ins k.
Proof.
  rewrite existsb_exists. split.
  - intros (k & Hk & Hs). apply list_elem_of_In, elem_of_btree_keys in Hk as [v Hv].
    exists k, v. split; [done|]. intros (-> & Hin & Hins).
    apply orb_true_iff in Hs as [Hs|Hs]; apply negb_true_iff in Hs.
    + assert (is_synthesised_attribute KWallet k = true) by (apply is_synthesised_spec; done). congruence.
    + by rewrite bool_decide_eq_true_2 in Hs.
  - intros (k & v & Hk & Hs). exists k. split; [apply list_elem_of_In, elem_of_btree_keys; eauto|].
    destruct (is_synthesised_attribute s k) eqn:E; [|done]. simpl.
    apply is_synthesised_spec in E as [-> E]. case_bool_decide; [|done]. by destruct Hs.
Qed.

Lemma outcome_of_bool (b : bool) (P : Prop) : (b = true <-> P) ->
  let o := if b then AttributesPreserved else PreservedOnly in
  o <> FullyPortable /\ (o = AttributesPreserved <-> P) /\ (o = PreservedOnly <-> ~ P).
Proof. intros H. destruct b; simpl; (split; [done|]); split; naive_solver. Qed.

(** ** Properties *)

(** Every report agrees with itself. A new report, a report after any
    pushes, and a report read back from a file all carry exactly the tally and
    the epoch count of their items: the tally's four counters are the numbers
    of items under each heading, together they are the number of items, and
    reading back a decoded report succeeds exactly when its counters agree,
    returning it unchanged. *)
Theorem report_counters_agree source coll l repr :
  report_ok (fold_left push l (import_report_new source coll))
  /\ import_report_deserialize (fold_left push l (import_report_new source coll))
       = Ok (fold_left push l (import_report_new source coll))
  /\ (forall rep, import_report_deserialize repr = Ok rep <-> rep = repr /\ report_ok repr)
  /\ (forall rep, report_ok rep ->
        tally rep = tally_counts (ir_items rep) /\ tally_seen (tally rep) = length (ir_items rep)
        /\ (epoch_stamped_items rep <= length (ir_items rep))%nat
        /\ forall r, report_ok (push rep r)).
Proof.
  pose proof (pushes_ok l _ (import_report_new_ok source coll)) as Hok.
  split; [done|]. split; [by apply import_report_deserialize_Ok|].
  split; [intros; apply import_report_deserialize_Ok|]. intros rep Hrep.
  destruct Hrep as [Ht He]. split; [by rewrite Ht, recomputed_tally_counts|].
  split; [by rewrite Ht, recomputed_tally_seen|].
  split; [rewrite He; apply count_if_length|].
  intros r. by apply push_ok.
Qed.

Lemma report_counters_agree_witness :
  let i := {| si_label := lit "x"; si_attributes := ∅; si_secret := [x01]; si_content_type := [];
              si_created := 0; si_modified := 0; si_provenance := provenance_gnome (lit "Login") 7;
              inserted_keys := ∅ |} in
  let rep := fold_left push [report_imported i; refused_report (si_provenance i) (lit "y") UnreadableItemType]
                            (import_report_new GnomeKeyring (lit "Login")) in
  import_report_deserialize rep = Ok rep /\ tally_seen (tally rep) = 2%nat
  /\ report_ok (push rep (report_imported i)).
Proof.
  intros i rep. split; [vm_compute; reflexivity|]. split; [vm_compute; reflexivity|].
  apply (proj2 (proj2 (proj2 (report_counters_agree GnomeKeyring (lit "Login") [] rep)))).
  split; vm_compute; reflexivity.
Defined.

(** What an outcome promises. An item is reported fully portable exactly
    when it has a non-empty schema attribute; otherwise its attributes are
    reported preserved exactly when some attribute was not written by this
    importer for this item (a hand-written attribute that shares a synthesised
    name counts, and on the gnome-keyring path every attribute counts); and
    preserved only when none was. *)
Theorem classify_exact (source : Source) (attrs : gmap str str) (ins : gset str) :
  (classify source attrs ins = FullyPortable <-> exists c s, attrs !! XDG_SCHEMA = Some (c :: s))
  /\ (classify source attrs ins = AttributesPreserved <->
        (forall c s, attrs !! XDG_SCHEMA <> Some (c :: s))
        /\ exists k v, attrs !! k = Some v /\ searchable source ins k)
  /\ (classify source attrs ins = PreservedOnly <->
        (forall c s, attrs !! XDG_SCHEMA <> Some (c :: s))
        /\ forall k v, attrs !! k = Some v -> ~ searchable source ins k).
Proof.
  destruct (outcome_of_bool _ _ (classify_rest source attrs ins)) as (Hf & Ha & Hp). unfold classify.
  destruct (attrs !! XDG_SCHEMA) as [[|c s]|].
  2: split; [split; [by eauto|done]|split; (split; [done|intros [Hn _]; by destruct (Hn c s)])].
  all: split; [split; [done|by intros (? & ? & ?)]|]; split; [rewrite Ha|rewrite Hp];
    (split; [intros H; split; [done|]|intros [_ H]]); naive_solver.
Qed.
