(* ===== verification/Formats.v ===== *)
(** * Cleartext headers of foreign keyrings ([src/import/formats.rs])

    The bounds-checked [Cursor] and the two parsers that read the unencrypted
    index of a gnome-keyring file and of a KWallet file, with every refusal.
    The files are attacker-controlled.  The theorems give the exact language of
    each parser: it accepts a byte string exactly when that string is the
    big-endian layout of a well-formed index followed by enough bytes, and
    returns that index; so no count field can make it read, allocate or loop
    beyond what the file holds, and the count guards refuse no well-formed
    file.  Integers are [Z] and keep the range of the type they were read as. *)
From S2P Require Import Prelude Text Import.

Definition KEYRING_MAGIC : bytes := utf8 (lit "GnomeKeyring") ++ [x0a; x0d; x00; x0a].
Definition KWALLET_MAGIC : bytes := utf8 (lit "KWALLET") ++ [x0a; x0d; x00; x0d; x0a].

Definition KEYRING_MAJOR : Z := 0.
Definition KEYRING_MINOR : Z := 0.
Definition KWALLET_MAJOR : Z := 0.
Definition KWALLET_MINOR : Z := 1.
Definition MAX_SOURCE_BYTES : Z := Z.shiftl 64 20.

Definition ITEM_TYPE_CHAINED_KEYRING_PASSWORD : Z := 3.
Definition ITEM_TYPE_ENCRYPTION_KEY_PASSWORD : Z := 4.

Definition is_unlock_credential (item_type : Z) : bool :=
  (item_type =? ITEM_TYPE_CHAINED_KEYRING_PASSWORD) || (item_type =? ITEM_TYPE_ENCRYPTION_KEY_PASSWORD).

Definition ATTR_TYPE_STRING : Z := 0.
Definition ATTR_TYPE_UINT32 : Z := 1.
Definition MIN_ITEM_BYTES : Z := 12.
Definition MIN_ATTRIBUTE_BYTES : Z := 12.
Definition MIN_FOLDER_BYTES : Z := 20.

(** [Md5Hash] is sixteen bytes. *)
Abbreviation Md5Hash := bytes.

Inductive HeaderError : Type :=
| BadMagic (s : Source)
| UnsupportedVersion (format : Source) (major minor expected_major expected_minor : Z)
| HTruncated (field : str)
| ImpossibleLength (field : str) (declared : Z)
| NonUtf8 (field : str)
| NullName (field : str)
| UnknownAttributeType (item_id attribute_type : Z)
| InvalidDefaultName
| FileTooLarge (len : Z).

Definition check_source_size (len : Z) : result unit HeaderError :=
  if MAX_SOURCE_BYTES <? len then Err (FileTooLarge len) else Ok tt.

(** ** The cursor *)

Record Cursor : Type := { buf : bytes; pos : nat }.

Definition cursor_new (b : bytes) : Cursor := {| buf := b; pos := 0 |}.

Definition cursor_remaining (c : Cursor) : nat := (length (buf c) - pos c)%nat.

(** A read returns what it read and the advanced cursor. *)
Abbreviation reader_of E A := (Cursor -> result (A * Cursor) E).
Abbreviation reader A := (reader_of HeaderError A).

Definition c_take (n : nat) (field : str) : reader bytes := fun c =>
  if (cursor_remaining c <? n)%nat then Err (HTruncated field)
  else Ok (take n (drop (pos c) (buf c)), {| buf := buf c; pos := pos c + n |}).

Definition c_u8 (field : str) : reader Z := fun c =>
  let? (b, c) := c_take 1 field c in Ok (from_be_bytes b, c).

Definition c_u32 (field : str) : reader Z := fun c =>
  let? (b, c) := c_take 4 field c in Ok (from_be_bytes b, c).

Definition c_u64 (field : str) : reader Z := fun c =>
  let? (b, c) := c_take 8 field c in Ok (from_be_bytes b, c).

Definition c_array16 (field : str) : reader Md5Hash := c_take 16 field.

Definition c_count (c : Cursor) (declared min_each : Z) (field : str) : result nat HeaderError :=
  let need := u64_saturating_mul declared min_each in
  if Z.of_nat (cursor_remaining c) <? need then Err (ImpossibleLength field declared)
  else Ok (Z.to_nat declared).

Definition c_opt_len (field : str) : reader (option nat) := fun c =>
  let? (len, c) := c_u32 field c in
  if len =? u32_max then Ok (None, c)
  else let? n := c_count c len 1 field in Ok (Some n, c).

Definition c_opt_string (field : str) : reader (option str) := fun c =>
  let? (o, c) := c_opt_len field c in
  match o with
  | None => Ok (None, c)
  | Some len =>
    let? (bs, c) := c_take len field c in
    match from_utf8 bs with
    | None => Err (NonUtf8 field)
    | Some s => Ok (Some s, c)
    end
  end.

(** [for _ in 0..n { out.push(p(c)?) }]. *)
Fixpoint read_n {A} (n : nat) (p : reader A) : reader (list A) := fun c =>
  match n with
  | O => Ok ([], c)
  | S n =>
    let? (x, c) := p c in
    let? (l, c) := read_n n p c in
    Ok (x :: l, c)
  end.

(** ** gnome-keyring *)

Record KeyringItemIndex : Type := {
  ki_id : Z;
  ki_type : Z;
  ki_keys : AttributeKeys
}.

Record KeyringInventory : Type := {
  display_name : str;
  ki_created : Z;
  ki_modified : Z;
  ki_flags : Z;
  lock_timeout : Z;
  hash_iterations : Z;
  ki_salt : bytes;
  ki_items : list KeyringItemIndex;
  ciphertext_offset : nat;
  ciphertext_len : nat
}.

(** [KeyringInventory::item_count] and [unlock_credential_count]. *)
Definition item_count (k : KeyringInventory) : nat := length (ki_items k).

Definition unlock_credential_count (k : KeyringInventory) : nat :=
  count_if (fun i => is_unlock_credential (ki_type i)) (ki_items k).

(** [*counts.entry(key).or_insert(0) += 1]. *)
Definition bump (k : str) (counts : gmap str nat) : gmap str nat :=
  <[k := S (default 0%nat (counts !! k))]> counts.

Definition attribute_key_counts (k : KeyringInventory) : gmap str nat :=
  fold_left (fun counts i => fold_left (fun counts key => bump key counts) (elements (ki_keys i)) counts)
            (ki_items k) ∅.

(** One attribute of an index item: its name, past its hashed value. *)
Definition parse_attribute (id : Z) : reader str := fun c =>
  let? (o, c) := c_opt_string (lit "attribute name") c in
  let? name := ok_or o (NullName (lit "attribute name")) in
  let? (attribute_type, c) := c_u32 (lit "attribute type") c in
  if attribute_type =? ATTR_TYPE_STRING then
    let? (len, c) := c_opt_len (lit "attribute value") c in
    match len with
    | Some len => let? (_, c) := c_take len (lit "attribute value") c in Ok (name, c)
    | None => Ok (name, c)
    end
  else if attribute_type =? ATTR_TYPE_UINT32 then
    let? (_, c) := c_u32 (lit "attribute value") c in Ok (name, c)
  else Err (UnknownAttributeType id attribute_type).

Definition parse_keyring_item : reader KeyringItemIndex := fun c =>
  let? (id, c) := c_u32 (lit "item id") c in
  let? (item_type, c) := c_u32 (lit "item type") c in
  let? (declared, c) := c_u32 (lit "attribute count") c in
  let? count := c_count c declared MIN_ATTRIBUTE_BYTES (lit "attribute count") in
  let? (names, c) := read_n count (parse_attribute id) c in
  Ok ({| ki_id := id; ki_type := item_type; ki_keys := from_names names |}, c).

Definition parse_keyring_header (bs : bytes) : result KeyringInventory HeaderError :=
  let c := cursor_new bs in
  let? (magic, c) := c_take (length KEYRING_MAGIC) (lit "magic") c in
  if negb (bool_decide (magic = KEYRING_MAGIC)) then Err (BadMagic GnomeKeyring) else
  let? (major, c) := c_u8 (lit "version") c in
  let? (minor, c) := c_u8 (lit "version") c in
  let? (_, c) := c_u8 (lit "version") c in
  let? (_, c) := c_u8 (lit "version") c in
  if negb ((major =? KEYRING_MAJOR) && (minor =? KEYRING_MINOR))
  then Err (UnsupportedVersion GnomeKeyring major minor KEYRING_MAJOR KEYRING_MINOR) else
  let? (name, c) := c_opt_string (lit "keyring name") c in
  let? (created, c) := c_u64 (lit "created time") c in
  let? (modified, c) := c_u64 (lit "modified time") c in
  let? (flags, c) := c_u32 (lit "flags") c in
  let? (lock_timeout, c) := c_u32 (lit "lock timeout") c in
  let? (hash_iterations, c) := c_u32 (lit "hash iterations") c in
  let? (salt, c) := c_take 8 (lit "salt") c in
  let? (_, c) := read_n 4 (c_u32 (lit "reserved words")) c in
  let? (declared, c) := c_u32 (lit "item count") c in
  let? num_items := c_count c declared MIN_ITEM_BYTES (lit "item count") in
  let? (items, c) := read_n num_items parse_keyring_item c in
  let? (declared_len, c) := c_u32 (lit "ciphertext length") c in
  let? ciphertext_len := c_count c declared_len 1 (lit "ciphertext length") in
  Ok {| display_name := default [] name; ki_created := created; ki_modified := modified;
        ki_flags := flags; lock_timeout := lock_timeout; hash_iterations := hash_iterations;
        ki_salt := salt; ki_items := items; ciphertext_offset := pos c;
        ciphertext_len := ciphertext_len |}.

(** ** The [default] file *)

(** [contents.lines().next().unwrap_or("")]: up to the first line feed, less
    one carriage return before it. *)
Definition first_line (contents : str) : str :=
  match split_once 10 contents with
  | None => contents
  | Some (l, _) => default l (strip_suffix [13] l)
  end.

Definition bad_default_name (name : str) : bool :=
  str_eqb name [] || str_eqb name (lit ".") || str_eqb name (lit "..")
  || existsb (Z.eqb 47) name || existsb (Z.eqb 92) name || existsb (Z.eqb 0) name.

Definition parse_default_file (contents : str) : result str HeaderError :=
  let name := trim (first_line contents) in
  let name := trim_end (default name (strip_suffix (lit ".keyring") name)) in
  if bad_default_name name then Err InvalidDefaultName else Ok name.

(** ** KWallet *)

Record WalletFolderIndex : Type := { folder_hash : Md5Hash; entry_hashes : list Md5Hash }.

Record WalletInventory : Type := {
  wi_cipher : Z;
  wi_hash : Z;
  folders : list WalletFolderIndex;
  wi_ciphertext_offset : nat
}.

Definition folder_count (w : WalletInventory) : nat := length (folders w).

(** [WalletInventory::entry_count], [empty_folder_count] and [contains_entry]. *)
Definition entry_count (w : WalletInventory) : nat :=
  sum_list (map (fun f => length (entry_hashes f)) (folders w)).

Definition empty_folder_count (w : WalletInventory) : nat :=
  count_if (fun f => match entry_hashes f with [] => true | _ => false end) (folders w).

Definition contains_entry (w : WalletInventory) (fh eh : Md5Hash) : bool :=
  existsb (fun f => existsb (fun e => bool_decide (e = eh)) (entry_hashes f))
          (List.filter (fun f => bool_decide (folder_hash f = fh)) (folders w)).

Definition parse_wallet_folder : reader WalletFolderIndex := fun c =>
  let? (fh, c) := c_array16 (lit "folder name hash") c in
  let? (declared, c) := c_u32 (lit "entry count") c in
  let? n := c_count c declared 16 (lit "entry count") in
  let? (ehs, c) := read_n n (c_array16 (lit "entry name hash")) c in
  Ok ({| folder_hash := fh; entry_hashes := ehs |}, c).

Definition parse_wallet_header (bs : bytes) : result WalletInventory HeaderError :=
  let c := cursor_new bs in
  let? (magic, c) := c_take (length KWALLET_MAGIC) (lit "magic") c in
  if negb (bool_decide (magic = KWALLET_MAGIC)) then Err (BadMagic KWallet) else
  let? (major, c) := c_u8 (lit "version") c in
  let? (minor, c) := c_u8 (lit "version") c in
  let? (cipher, c) := c_u8 (lit "version") c in
  let? (hash, c) := c_u8 (lit "version") c in
  if negb ((major =? KWALLET_MAJOR) && (minor =? KWALLET_MINOR))
  then Err (UnsupportedVersion KWallet major minor KWALLET_MAJOR KWALLET_MINOR) else
  let? (declared, c) := c_u32 (lit "folder count") c in
  let? n := c_count c declared MIN_FOLDER_BYTES (lit "folder count") in
  let? (fs, c) := read_n n parse_wallet_folder c in
  Ok {| wi_cipher := cipher; wi_hash := hash; folders := fs; wi_ciphertext_offset := pos c |}.

(** ** Reading as parsing *)

(** A cursor between what it has read and what is left. *)
Definition at_ (e rest : bytes) : Cursor := {| buf := e ++ rest; pos := length e |}.

(** [p] reads exactly the strings of [G]: it returns [v] exactly when what is
    left starts with one of [v]'s encodings, and then advances past it. *)
Definition parses {A E} (p : reader_of E A) (G : A -> bytes -> Prop) : Prop :=
  forall e rest v c', p (at_ e rest) = Ok (v, c') <->
    exists e1 rest', G v e1 /\ rest = e1 ++ rest' /\ c' = at_ (e ++ e1) rest'.

Lemma at_app e e1 rest : {| buf := e ++ e1 ++ rest; pos := length e + length e1 |} = at_ (e ++ e1) rest.
Proof. unfold at_. by rewrite length_app, <- app_assoc. Qed.

Lemma remaining_at e rest : cursor_remaining (at_ e rest) = length rest.
Proof. unfold cursor_remaining, at_. simpl. rewrite length_app. lia. Qed.

(** One read, then the rest of the parser. *)
Lemma parses_then {A E R} (p : reader_of E A) (G : A -> bytes -> Prop) (k : A -> Cursor -> result R E) e rest r :
  parses p G ->
  (let? (a, c) := p (at_ e rest) in k a c) = Ok r <->
  exists a e1 rest', G a e1 /\ rest = e1 ++ rest' /\ k a (at_ (e ++ e1) rest') = Ok r.
Proof.
  intros Hp. split.
  - destruct (p (at_ e rest)) as [[a c]|] eqn:Ep; [|done]. intros Hk.
    apply Hp in Ep as (e1 & rest' & Hg & -> & ->). eauto 10.
  - intros (a & e1 & rest' & Hg & -> & Hk).
    assert (p (at_ e (e1 ++ rest')) = Ok (a, at_ (e ++ e1) rest')) as -> by (apply Hp; eauto 10).
    done.
Qed.

Lemma parses_ext {A E} (p : reader_of E A) (G H : A -> bytes -> Prop) :
  parses p G -> (forall v e, G v e <-> H v e) -> parses p H.
Proof. intros Hp Hgh e rest v c'. etransitivity; [apply Hp|]. by setoid_rewrite Hgh. Qed.

Lemma parses_bind {A B E} (p : reader_of E A) (G : A -> bytes -> Prop) (k : A -> reader_of E B) (H : A -> B -> bytes -> Prop) :
  parses p G -> (forall a e, G a e -> parses (k a) (H a)) ->
  parses (fun c => let? (a, c) := p c in k a c)
         (fun b e => exists a e1 e2, G a e1 /\ H a b e2 /\ e = e1 ++ e2).
Proof.
  intros Hp Hk e rest v c'. rewrite (parses_then _ _ _ _ _ _ Hp). split.
  - intros (a & e1 & r1 & Hg & -> & Hr). apply (Hk _ _ Hg) in Hr as (e2 & r2 & Hh & -> & ->).
    exists (e1 ++ e2), r2. rewrite <- !app_assoc. split; [by eauto 10|done].
  - intros (e12 & r2 & (a & e1 & e2 & Hg & Hh & ->) & -> & ->).
    exists a, e1, (e2 ++ r2). rewrite <- app_assoc. split; [done|]. split; [done|].
    apply (Hk _ _ Hg). exists e2, r2. by rewrite <- app_assoc.
Qed.

Lemma parses_ret {A E} (a : A) : parses (E := E) (fun c => Ok (a, c)) (fun v e => v = a /\ e = []).
Proof.
  intros e rest v c'. split.
  - intros [= <- <-]. exists [], rest. by rewrite app_nil_r.
  - intros (e1 & r & [-> ->] & -> & ->). by rewrite app_nil_r.
Qed.

Lemma parses_take n field : parses (c_take n field) (fun v e => length v = n /\ e = v).
Proof.
  intros e rest v c'. unfold c_take. rewrite remaining_at. destruct (Nat.ltb_spec (length rest) n) as [Hlt|Hge].
  - split; [done|]. intros (e1 & r & [<- ->] & -> & _). rewrite length_app in Hlt. lia.
  - simpl. rewrite drop_app_length. split.
    + intros [= <- <-]. exists (take n rest), (drop n rest).
      rewrite length_take_le, take_drop by done. split; [done|]. split; [done|].
      rewrite <- at_app, take_drop, length_take_le by done. done.
    + intros (e1 & r & [<- ->] & -> & ->). rewrite take_app_length. f_equal. f_equal.
      by rewrite <- at_app.
Qed.

Lemma parses_uint n field : parses (fun c => let? (b, c) := c_take n field c in Ok (from_be_bytes b, c))
  (fun z e => 0 <= z < 256 ^ Z.of_nat n /\ e = to_be_bytes n z).
Proof.
  eapply parses_ext; [eapply parses_bind; [apply parses_take|intros ? ? _; apply parses_ret]|].
  intros z e. split.
  - intros (b & e1 & e2 & [<- ->] & [-> ->] & ->). rewrite app_nil_r, to_from_be_bytes.
    split; [apply from_be_bytes_range|done].
  - intros [Hz ->]. exists (to_be_bytes n z), (to_be_bytes n z), [].
    rewrite length_to_be_bytes, app_nil_r, from_to_be_bytes by done. done.
Qed.

Definition be4 (z : Z) : bytes := to_be_bytes 4 z.
Definition be8 (z : Z) : bytes := to_be_bytes 8 z.
Definition u8 (z : Z) : Prop := 0 <= z <= u8_max.

Lemma parses_u8 field : parses (c_u8 field) (fun z e => u8 z /\ e = to_be_bytes 1 z).
Proof. eapply parses_ext; [apply parses_uint|]. intros z e. change (256 ^ Z.of_nat 1) with 256. unfold u8, u8_max. intuition lia. Qed.

Lemma parses_u32 field : parses (c_u32 field) (fun z e => u32 z /\ e = be4 z).
Proof.
  eapply parses_ext; [apply parses_uint|]. intros z e. change (256 ^ Z.of_nat 4) with 4294967296.
  unfold u32, u32_max. intuition lia.
Qed.

Lemma parses_u64 field : parses (c_u64 field) (fun z e => u64 z /\ e = be8 z).
Proof.
  eapply parses_ext; [apply parses_uint|]. intros z e. change (256 ^ Z.of_nat 8) with 18446744073709551616.
  unfold u64, u64_max. intuition lia.
Qed.

Lemma parses_array16 field : parses (c_array16 field) (fun v e => length v = 16%nat /\ e = v).
Proof. apply parses_take. Qed.

(** A count guard is redundant when what follows is at least that long. *)
Lemma c_count_Ok c d m field n : 0 <= d -> 0 <= m -> d * m <= u64_max ->
  c_count c d m field = Ok n <-> n = Z.to_nat d /\ d * m <= Z.of_nat (cursor_remaining c).
Proof.
  intros Hd Hm Hmax. unfold c_count, u64_saturating_mul. rewrite Z.min_l by lia.
  destruct (Z.ltb_spec (Z.of_nat (cursor_remaining c)) (d * m)); split; try done; try lia.
  - intros [= <-]. lia.
  - by intros [-> _].
Qed.

Lemma parses_count {A} d m field (k : nat -> reader A) (H : A -> bytes -> Prop) :
  u32 d -> 0 <= m <= 4294967297 ->
  parses (k (Z.to_nat d)) H -> (forall v e, H v e -> d * m <= zlen e) ->
  parses (fun c => let? n := c_count c d m field in k n c) H.
Proof.
  unfold u32, u32_max. intros Hd Hm Hk Hlen e rest v c'.
  assert (Hmax : d * m <= u64_max) by (unfold u64_max; nia).
  destruct (c_count (at_ e rest) d m field) as [n|] eqn:E.
  - apply c_count_Ok in E as [-> _]; [|lia..]. apply Hk.
  - split; [done|]. intros (e1 & r & Hh & -> & _). exfalso. pose proof (Hlen _ _ Hh) as Hl.
    assert (c_count (at_ e (e1 ++ r)) d m field = Ok (Z.to_nat d)) as E'; [|congruence].
    apply c_count_Ok; [lia..|]. split; [done|]. rewrite remaining_at, length_app. unfold zlen in Hl. lia.
Qed.

Lemma parses_read_n {A} n (p : reader A) (G : A -> bytes -> Prop) :
  parses p G ->
  parses (read_n n p) (fun l e => length l = n /\ exists es, Forall2 G l es /\ e = concat es).
Proof.
  intros Hp. induction n as [|n IH]; simpl.
  - eapply parses_ext; [apply parses_ret|]. intros v e. split.
    + intros [-> ->]. split; [done|]. by exists [].
    + intros [Hl (es & Hes & ->)]. apply nil_length_inv in Hl as ->. by inversion Hes.
  - eapply parses_ext.
    { eapply parses_bind; [exact Hp|]. intros x ? _. eapply parses_bind; [exact IH|]. intros l ? _. apply parses_ret. }
    intros v e. split.
    + intros (x & e1 & ? & Hx & (l & e2 & ? & [Hl (es & Hes & ->)] & [-> ->] & ->) & ->).
      simpl. split; [lia|]. exists (e1 :: es). rewrite app_nil_r. split; [by constructor|done].
    + intros [Hl (es & Hes & ->)]. destruct Hes as [|x e1 l es Hx Hes]; [done|].
      exists x, e1, (concat es). split; [done|]. split; [|done].
      exists l, (concat es), []. rewrite app_nil_r. simpl in Hl. split; [|done]. split; [lia|eauto].
Qed.

Lemma parses_fun_ext {A E} (p q : reader_of E A) (G : A -> bytes -> Prop) :
  (forall c, p c = q c) -> parses q G -> parses p G.
Proof. intros Hpq Hq e rest v c'. by rewrite Hpq. Qed.

Lemma parses_guard {A E} (b : bool) (err : E) (k : reader_of E A) (H : A -> bytes -> Prop) :
  parses k H -> parses (fun c => if b then Err err else k c) (fun v e => b = false /\ H v e).
Proof.
  intros Hk e rest v c'. destruct b.
  - split; [done|]. by intros (? & ? & [[=] _] & _).
  - etransitivity; [apply Hk|]. naive_solver.
Qed.

(** A length prefix that may be the NULL marker, then what it announces. *)
Lemma parses_opt_len {B} field (k : option nat -> reader B) (H0 : B -> bytes -> Prop) (H : nat -> B -> bytes -> Prop) :
  parses (k None) H0 -> (forall n, parses (k (Some n)) (H n)) -> (forall n v e, H n v e -> (n <= length e)%nat) ->
  parses (fun c => let? (o, c) := c_opt_len field c in k o c)
    (fun v e => (exists e2, H0 v e2 /\ e = be4 u32_max ++ e2)
                \/ exists n e2, Z.of_nat n < u32_max /\ H n v e2 /\ e = be4 (Z.of_nat n) ++ e2).
Proof.
  intros Hn Hs Hlen.
  apply (parses_fun_ext _ (fun c => let? (len, c) := c_u32 field c in
    (fun c => if len =? u32_max then k None c else let? n := c_count c len 1 field in k (Some n) c) c)).
  { intros c. unfold c_opt_len. destruct (c_u32 field c) as [[len c1]|]; [|done].
    destruct (len =? u32_max); [done|]. by destruct (c_count c1 len 1 field). }
  intros e rest v c'. rewrite (parses_then _ _ _ _ _ _ (parses_u32 field)). split.
  - intros (len & e1 & r1 & [Hu ->] & -> & Hk). destruct (Z.eqb_spec len u32_max) as [->|Hne].
    + apply Hn in Hk as (e2 & r2 & Hh & -> & ->). exists (be4 u32_max ++ e2), r2.
      rewrite <- !app_assoc. split; [left; eauto|done].
    + destruct (c_count _ len 1 field) as [n|] eqn:E; [|done].
      apply c_count_Ok in E as [-> _]; [|unfold u32, u32_max, u64_max in *; lia..].
      apply Hs in Hk as (e2 & r2 & Hh & -> & ->). exists (be4 len ++ e2), r2.
      rewrite <- !app_assoc. split; [|done]. right. exists (Z.to_nat len), e2.
      unfold u32, u32_max in *. rewrite Z2Nat.id by lia. split; [lia|done].
  - intros (e1 & r1 & [(e2 & Hh & ->)|(n & e2 & Hlt & Hh & ->)] & -> & ->).
    + exists u32_max, (be4 u32_max), (e2 ++ r1). rewrite <- app_assoc. split; [by split|]. split; [done|].
      rewrite Z.eqb_refl. apply Hn. exists e2, r1. by rewrite <- app_assoc.
    + exists (Z.of_nat n), (be4 (Z.of_nat n)), (e2 ++ r1). rewrite <- app_assoc.
      split; [split; [unfold u32; lia|done]|]. split; [done|].
      destruct (Z.eqb_spec (Z.of_nat n) u32_max); [lia|].
      assert (c_count (at_ (e ++ be4 (Z.of_nat n)) (e2 ++ r1)) (Z.of_nat n) 1 field = Ok n) as ->.
      { apply c_count_Ok; [unfold u32_max, u64_max in *; lia..|]. rewrite Nat2Z.id, remaining_at, length_app.
        pose proof (Hlen _ _ _ Hh). split; [done|lia]. }
      apply Hs. exists e2, r1. by rewrite <- app_assoc.
Qed.

(** ** The layout of a gnome-keyring index *)

Definition enc_opt_bytes (o : option bytes) : bytes :=
  match o with None => be4 u32_max | Some b => be4 (zlen b) ++ b end.

Definition opt_bytes_wf (o : option bytes) : Prop :=
  match o with None => True | Some b => zlen b < u32_max end.

Definition enc_opt_string (o : option str) : bytes := enc_opt_bytes (utf8 <$> o).

Definition opt_string_wf (o : option str) : Prop :=
  match o with None => True | Some s => str_wf s /\ str_len s < u32_max end.

(** What [c_opt_string] does after the length. *)
Definition string_rest (field : str) (o : option nat) : reader (option str) := fun c =>
  match o with
  | None => Ok (None, c)
  | Some len =>
    let? (bs, c) := c_take len field c in
    match from_utf8 bs with None => Err (NonUtf8 field) | Some s => Ok (Some s, c) end
  end.

Lemma parses_utf8 n field :
  parses (string_rest field (Some n)) (fun o e => length e = n /\ exists s, o = Some s /\ from_utf8 e = Some s).
Proof.
  intros e rest v c'. unfold string_rest.
  rewrite (parses_then _ _ (fun bs c => match from_utf8 bs with None => Err (NonUtf8 field) | Some s => Ok (Some s, c) end)
             _ _ _ (parses_take n field)). split.
  - intros (bs & e1 & r & [Hl ->] & -> & Hk). destruct (from_utf8 bs) as [s|] eqn:E; [|done].
    simplify_eq. exists bs, r. eauto 10.
  - intros (e1 & r & (Hl & s & -> & Hs) & -> & ->). exists e1, e1, r. split; [done|]. split; [done|].
    by rewrite Hs.
Qed.

Lemma parses_opt_string field :
  parses (c_opt_string field) (fun o e => opt_string_wf o /\ e = enc_opt_string o).
Proof.
  eapply parses_ext.
  { apply (parses_opt_len field (string_rest field) _ _ (parses_ret None) (fun n => parses_utf8 n field)).
    intros n v e [-> _]. done. }
  intros o e. unfold enc_opt_string, opt_string_wf. split.
  - intros [(e2 & [-> ->] & ->)|(n & e2 & Hn & (<- & s & -> & Hs) & ->)]; simpl.
    + done.
    + pose proof (from_utf8_wf _ _ Hs). apply utf8_from_utf8 in Hs as <-. done.
  - destruct o as [s|]; simpl.
    + intros [[Hw Hl] ->]. right. exists (length (utf8 s)), (utf8 s).
      split; [done|]. split; [|done]. split; [done|]. exists s. by rewrite from_utf8_utf8.
    + intros [_ ->]. left. by exists [].
Qed.

(** An attribute as the file stores it: a name and a hashed value. *)
Inductive AttrValue : Type := HashedString (h : option bytes) | HashedUint (z : Z).

Record RawAttr : Type := { ra_name : str; ra_value : AttrValue }.

Definition enc_value (v : AttrValue) : bytes :=
  match v with
  | HashedString h => be4 ATTR_TYPE_STRING ++ enc_opt_bytes h
  | HashedUint z => be4 ATTR_TYPE_UINT32 ++ be4 z
  end.

Definition value_wf (v : AttrValue) : Prop :=
  match v with HashedString h => opt_bytes_wf h | HashedUint z => u32 z end.

Definition enc_attr (a : RawAttr) : bytes := enc_opt_string (Some (ra_name a)) ++ enc_value (ra_value a).

Definition raw_attr_wf (a : RawAttr) : Prop := opt_string_wf (Some (ra_name a)) /\ value_wf (ra_value a).

Record RawItem : Type := { ri_id : Z; ri_type : Z; ri_attrs : list RawAttr }.

Definition enc_item (i : RawItem) : bytes :=
  be4 (ri_id i) ++ be4 (ri_type i) ++ be4 (zlen (ri_attrs i)) ++ concat (map enc_attr (ri_attrs i)).

Definition raw_item_wf (i : RawItem) : Prop :=
  u32 (ri_id i) /\ u32 (ri_type i) /\ u32 (zlen (ri_attrs i)) /\ Forall raw_attr_wf (ri_attrs i).

(** What the inventory keeps of it: the names. *)
Definition item_index (i : RawItem) : KeyringItemIndex :=
  {| ki_id := ri_id i; ki_type := ri_type i; ki_keys := from_names (map ra_name (ri_attrs i)) |}.

Record RawKeyring : Type := {
  rk_crypto : Z; rk_hash : Z;
  rk_name : option str; rk_created : Z; rk_modified : Z; rk_flags : Z; rk_timeout : Z; rk_iterations : Z;
  rk_salt : bytes; rk_reserved : list Z; rk_items : list RawItem; rk_ctlen : Z
}.

Definition enc_keyring (f : RawKeyring) : bytes :=
  KEYRING_MAGIC ++ to_be_bytes 1 KEYRING_MAJOR ++ to_be_bytes 1 KEYRING_MINOR
  ++ to_be_bytes 1 (rk_crypto f) ++ to_be_bytes 1 (rk_hash f)
  ++ enc_opt_string (rk_name f) ++ be8 (rk_created f) ++ be8 (rk_modified f) ++ be4 (rk_flags f)
  ++ be4 (rk_timeout f) ++ be4 (rk_iterations f) ++ rk_salt f ++ concat (map be4 (rk_reserved f))
  ++ be4 (zlen (rk_items f)) ++ concat (map enc_item (rk_items f)) ++ be4 (rk_ctlen f).

Definition raw_keyring_wf (f : RawKeyring) : Prop :=
  u8 (rk_crypto f) /\ u8 (rk_hash f) /\ opt_string_wf (rk_name f)
  /\ u64 (rk_created f) /\ u64 (rk_modified f) /\ u32 (rk_flags f) /\ u32 (rk_timeout f)
  /\ u32 (rk_iterations f) /\ length (rk_salt f) = 8%nat
  /\ (length (rk_reserved f) = 4%nat /\ Forall u32 (rk_reserved f))
  /\ u32 (zlen (rk_items f)) /\ Forall raw_item_wf (rk_items f) /\ u32 (rk_ctlen f).

Definition keyring_inventory (f : RawKeyring) : KeyringInventory :=
  {| display_name := default [] (rk_name f); ki_created := rk_created f; ki_modified := rk_modified f;
     ki_flags := rk_flags f; lock_timeout := rk_timeout f; hash_iterations := rk_iterations f;
     ki_salt := rk_salt f; ki_items := map item_index (rk_items f);
     ciphertext_offset := length (enc_keyring f); ciphertext_len := Z.to_nat (rk_ctlen f) |}.

(** ** Each reader reads its part of the layout *)

Lemma parses_skip_take (name : str) n field :
  parses (fun c => let? (_, c) := c_take n field c in Ok (name, c)) (fun v e => length e = n /\ v = name).
Proof.
  eapply parses_ext; [eapply parses_bind; [apply parses_take|intros ? ? _; apply parses_ret]|].
  intros v e. split.
  - intros (b & e1 & e2 & [Hl ->] & [-> ->] & ->). by rewrite app_nil_r.
  - intros [Hl ->]. exists e, e, []. by rewrite app_nil_r.
Qed.

Lemma parses_hashed_string (name : str) field :
  parses (fun c => let? (len, c) := c_opt_len field c in
                   match len with
                   | Some len => let? (_, c) := c_take len field c in Ok (name, c)
                   | None => Ok (name, c)
                   end)
         (fun v e => v = name /\ exists h, opt_bytes_wf h /\ e = enc_opt_bytes h).
Proof.
  eapply parses_ext.
  { apply (parses_opt_len field
      (fun len c => match len with
                    | Some len => let? (_, c) := c_take len field c in Ok (name, c)
                    | None => Ok (name, c) end)
      _ _ (parses_ret name) (fun n => parses_skip_take name n field)).
    intros n v e [-> _]. done. }
  intros v e. split.
  - intros [(e2 & [-> ->] & ->)|(n & e2 & Hn & [<- ->] & ->)].
    + split; [done|]. by exists None.
    + split; [done|]. by exists (Some e2).
  - intros [-> ([b|] & Hw & ->)]; simpl in *.
    + right. by exists (length b), b.
    + left. by exists [].
Qed.

Lemma parses_value (name : str) id :
  parses (fun c =>
    let? (attribute_type, c) := c_u32 (lit "attribute type") c in
    if attribute_type =? ATTR_TYPE_STRING then
      let? (len, c) := c_opt_len (lit "attribute value") c in
      match len with
      | Some len => let? (_, c) := c_take len (lit "attribute value") c in Ok (name, c)
      | None => Ok (name, c)
      end
    else if attribute_type =? ATTR_TYPE_UINT32 then
      let? (_, c) := c_u32 (lit "attribute value") c in Ok (name, c)
    else Err (UnknownAttributeType id attribute_type))
    (fun v e => v = name /\ exists w, value_wf w /\ e = enc_value w).
Proof.
  assert (Hu : parses (fun c => let? (_, c) := c_u32 (lit "attribute value") c in Ok (name, c))
                      (fun v e => v = name /\ exists z, u32 z /\ e = be4 z)).
  { eapply parses_ext; [eapply parses_bind; [apply parses_u32|intros ? ? _; apply parses_ret]|].
    intros v e. split.
    - intros (z & e1 & e2 & [Hz ->] & [-> ->] & ->). rewrite app_nil_r. eauto.
    - intros [-> (z & Hz & ->)]. exists z, (be4 z), []. by rewrite app_nil_r. }
  intros e rest v c'. rewrite (parses_then _ _ _ _ _ _ (parses_u32 (lit "attribute type"))). split.
  - intros (ty & e1 & r1 & [Hty ->] & -> & Hk). destruct (Z.eqb_spec ty ATTR_TYPE_STRING) as [->|Hs].
    { apply parses_hashed_string in Hk as (e2 & r2 & (-> & h & Hh & ->) & -> & ->).
      exists (enc_value (HashedString h)), r2. cbn [enc_value]. rewrite <- !app_assoc.
      split; [split; [done|by exists (HashedString h)]|done]. }
    destruct (Z.eqb_spec ty ATTR_TYPE_UINT32) as [->|]; [|done].
    apply Hu in Hk as (e2 & r2 & (-> & z & Hz & ->) & -> & ->).
    exists (enc_value (HashedUint z)), r2. cbn [enc_value]. rewrite <- !app_assoc.
    split; [split; [done|by exists (HashedUint z)]|done].
  - intros (e1 & r & (-> & [h|z] & Hw & ->) & -> & ->); cbn [enc_value]; rewrite <- !app_assoc.
    + exists ATTR_TYPE_STRING, (be4 ATTR_TYPE_STRING), (enc_opt_bytes h ++ r).
      split; [by split|]. split; [done|]. rewrite Z.eqb_refl.
      apply parses_hashed_string. exists (enc_opt_bytes h), r. split; [split; [done|by exists h]|].
      by rewrite <- app_assoc.
    + exists ATTR_TYPE_UINT32, (be4 ATTR_TYPE_UINT32), (be4 z ++ r).
      split; [by split|]. split; [done|]. change (ATTR_TYPE_UINT32 =? ATTR_TYPE_STRING) with false.
      rewrite Z.eqb_refl. apply Hu. exists (be4 z), r. split; [split; [done|by exists z]|].
      by rewrite <- app_assoc.
Qed.

Lemma parses_attribute id :
  parses (parse_attribute id) (fun v e => exists a, raw_attr_wf a /\ v = ra_name a /\ e = enc_attr a).
Proof.
  intros e rest v c'. unfold parse_attribute.
  rewrite (parses_then _ _ _ _ _ _ (parses_opt_string (lit "attribute name"))). split.
  - intros (o & e1 & r1 & [Ho ->] & -> & Hk). destruct o as [name|]; [|done]. cbn [ok_or] in Hk.
    apply parses_value in Hk as (e2 & r2 & (-> & w & Hw & ->) & -> & ->).
    exists (enc_attr {| ra_name := name; ra_value := w |}), r2. split; [by exists {| ra_name := name; ra_value := w |}|].
    unfold enc_attr. by rewrite <- !app_assoc.
  - intros (e1 & r & ([name w] & [Hn Hw] & -> & ->) & -> & ->). unfold enc_attr. cbn [ra_name ra_value].
    rewrite <- !app_assoc. exists (Some name), (enc_opt_string (Some name)), (enc_value w ++ r).
    split; [by split|]. split; [done|]. cbn [ok_or].
    apply parses_value. exists (enc_value w), r. split; [split; [done|by exists w]|]. by rewrite <- app_assoc.
Qed.

Lemma concat_length_ge {A} (G : A -> bytes -> Prop) m l es :
  (forall v e, G v e -> m <= zlen e) -> Forall2 G l es -> zlen l * m <= zlen (concat es).
Proof.
  intros Hm. induction 1 as [|v e l es Hv _ IH]; [done|]. simpl. rewrite zlen_app.
  pose proof (Hm _ _ Hv). unfold zlen in *. simpl length. nia.
Qed.

(** A declared count, its guard, that many elements, and what follows. *)
Lemma parses_counted {A B} field m (p : reader A) (G : A -> bytes -> Prop) (k : list A -> reader B)
    (H : list A -> B -> bytes -> Prop) :
  parses p G -> 0 <= m <= 4294967297 -> (forall v e, G v e -> m <= zlen e) ->
  (forall l, parses (k l) (H l)) ->
  parses (fun c => let? (d, c) := c_u32 field c in
                   let? n := c_count c d m field in
                   let? (l, c) := read_n n p c in k l c)
    (fun v e => exists l es e2, u32 (zlen l) /\ Forall2 G l es /\ H l v e2
                                /\ e = be4 (zlen l) ++ concat es ++ e2).
Proof.
  intros Hp Hm Hlen Hk. eapply parses_ext.
  { eapply (parses_bind _ _ (fun d c => let? n := c_count c d m field in
                                        let? (l, c) := read_n n p c in k l c)
             (fun d v e => exists l e1 e2, (length l = Z.to_nat d /\ exists es, Forall2 G l es /\ e1 = concat es)
                                           /\ H l v e2 /\ e = e1 ++ e2)); [apply parses_u32|].
    intros d ? [Hd _]. apply (parses_count d m field (fun n c => let? (l, c) := read_n n p c in k l c)); [done|done| |].
    - eapply parses_bind; [by apply parses_read_n|]. intros l ? _. apply Hk.
    - intros v e' (l & e1 & e2 & [Hl (es & Hes & ->)] & _ & ->).
      pose proof (concat_length_ge _ _ _ _ Hlen Hes) as Hge. rewrite zlen_app. pose proof (zlen_nonneg e2).
      unfold u32, zlen in *. nia. }
  intros v e. split.
  - intros (d & ? & ? & [Hd ->] & (l & ? & e2 & [Hl (es & Hes & ->)] & Hh & ->) & ->).
    assert (zlen l = d) as <- by (unfold zlen, u32 in *; lia). exists l, es, e2. done.
  - intros (l & es & e2 & Hu & Hes & Hh & ->).
    exists (zlen l), (be4 (zlen l)), (concat es ++ e2). split; [done|]. split; [|done].
    exists l, (concat es), e2. split; [|done]. split; [unfold zlen; lia|]. by exists es.
Qed.

Lemma length_be4 z : zlen (be4 z) = 4.
Proof. unfold be4, zlen. by rewrite length_to_be_bytes. Qed.

Lemma enc_opt_string_ge s : 4 <= zlen (enc_opt_string (Some s)).
Proof.
  change (enc_opt_string (Some s)) with (be4 (zlen (utf8 s)) ++ utf8 s). rewrite zlen_app, length_be4.
  pose proof (zlen_nonneg (utf8 s)). lia.
Qed.

Lemma enc_attr_ge a : MIN_ATTRIBUTE_BYTES <= zlen (enc_attr a).
Proof.
  unfold enc_attr. rewrite zlen_app. pose proof (enc_opt_string_ge (ra_name a)).
  destruct (ra_value a) as [[b|]|z]; cbn [enc_value enc_opt_bytes]; rewrite !zlen_app, ?length_be4;
    try pose proof (zlen_nonneg b); unfold MIN_ATTRIBUTE_BYTES; lia.
Qed.

Lemma enc_item_ge i : MIN_ITEM_BYTES <= zlen (enc_item i).
Proof.
  unfold enc_item. rewrite !zlen_app, !length_be4.
  pose proof (zlen_nonneg (concat (map enc_attr (ri_attrs i)))). unfold MIN_ITEM_BYTES. lia.
Qed.

(** Lists of encodings: a [Forall2] over a printer is a [map]. *)
Lemma Forall2_enc {A R} (wf : R -> Prop) (view : R -> A) (enc : R -> bytes) l es :
  Forall2 (fun v e => exists r, wf r /\ v = view r /\ e = enc r) l es <->
  exists rs, Forall wf rs /\ l = map view rs /\ es = map enc rs.
Proof.
  split.
  - induction 1 as [|v e l es (r & Hr & -> & ->) _ (rs & Hrs & -> & ->)]; [by exists []|].
    exists (r :: rs). split; [by constructor|done].
  - intros (rs & Hrs & -> & ->). induction Hrs as [|r rs Hr _ IH]; constructor; eauto.
Qed.

Lemma zlen_map {A B} (f : A -> B) l : zlen (map f l) = zlen l.
Proof. unfold zlen. by rewrite length_map. Qed.

Lemma parses_item :
  parses parse_keyring_item (fun v e => exists i, raw_item_wf i /\ v = item_index i /\ e = enc_item i).
Proof.
  eapply parses_ext.
  { eapply parses_bind; [apply parses_u32|]. intros id ? _.
    eapply parses_bind; [apply parses_u32|]. intros ty ? _.
    apply parses_counted; [apply (parses_attribute id)|done| |intros l; apply parses_ret].
    intros ? ? (a & _ & _ & ->). apply enc_attr_ge. }
  intros v e. split.
  - intros (id & ? & ? & [Hid ->] & (ty & ? & ? & [Hty ->] & (l & es & ? & Hl & Hes & [-> ->] & ->) & ->) & ->).
    apply Forall2_enc in Hes as (rs & Hrs & -> & ->).
    exists {| ri_id := id; ri_type := ty; ri_attrs := rs |}. unfold raw_item_wf, item_index, enc_item.
    cbn [ri_id ri_type ri_attrs]. rewrite zlen_map in *. by rewrite app_nil_r.
  - intros ([id ty rs] & (Hid & Hty & Hl & Hrs) & -> & ->). unfold enc_item, item_index.
    cbn [ri_id ri_type ri_attrs] in *. exists id, (be4 id). eexists. split; [done|]. split; [|reflexivity].
    exists ty, (be4 ty). eexists. split; [done|]. split; [|reflexivity].
    exists (map ra_name rs), (map enc_attr rs), []. rewrite zlen_map, app_nil_r.
    split; [done|]. split; [apply Forall2_enc; eauto|done].
Qed.

Lemma Forall2_print {A} (wf : A -> Prop) (enc : A -> bytes) l es :
  Forall2 (fun v e => wf v /\ e = enc v) l es <-> Forall wf l /\ es = map enc l.
Proof.
  split.
  - induction 1 as [|v e l es [Hv ->] _ [Hl ->]]; [done|]. split; [by constructor|done].
  - intros [Hl ->]. induction Hl; constructor; auto.
Qed.

(** The magic and the version guard that both formats start with. *)
Lemma parses_start {A} (magic : bytes) (s : Source) (maj min : Z) (k : Z -> Z -> reader A)
    (H : Z -> Z -> A -> bytes -> Prop) :
  u8 maj -> u8 min -> (forall x y, u8 x -> u8 y -> parses (k x y) (H x y)) ->
  parses (fun c =>
    let? (m, c) := c_take (length magic) (lit "magic") c in
    if negb (bool_decide (m = magic)) then Err (BadMagic s) else
    let? (major, c) := c_u8 (lit "version") c in
    let? (minor, c) := c_u8 (lit "version") c in
    let? (x, c) := c_u8 (lit "version") c in
    let? (y, c) := c_u8 (lit "version") c in
    if negb ((major =? maj) && (minor =? min)) then Err (UnsupportedVersion s major minor maj min)
    else k x y c)
    (fun v e => exists x y e2, u8 x /\ u8 y /\ H x y v e2
       /\ e = magic ++ to_be_bytes 1 maj ++ to_be_bytes 1 min ++ to_be_bytes 1 x ++ to_be_bytes 1 y ++ e2).
Proof.
  intros Hmaj Hmin Hk. eapply parses_ext.
  { eapply parses_bind; [apply parses_take|]. intros m ? _. apply parses_guard.
    do 4 (eapply parses_bind; [apply parses_u8|]; intros ? ? [? _]). by apply parses_guard, Hk. }
  intros v e. split.
  - intros (m & ? & ? & [_ ->] & (Hm & major & ? & ? & [_ ->] & (minor & ? & ? & [_ ->] &
      (x & ? & ? & [Hx ->] & (y & ? & e2 & [Hy ->] & [Hv Hh] & ->) & ->) & ->) & ->) & ->).
    apply negb_false_iff, bool_decide_eq_true in Hm as ->.
    apply negb_false_iff, andb_true_iff in Hv as [->%Z.eqb_eq ->%Z.eqb_eq].
    exists x, y, e2. done.
  - intros (x & y & e2 & Hx & Hy & Hh & ->).
    exists magic, magic. eexists. split; [done|]. split; [|reflexivity].
    split; [by rewrite bool_decide_eq_true_2|].
    exists maj, (to_be_bytes 1 maj). eexists. split; [done|]. split; [|reflexivity].
    exists min, (to_be_bytes 1 min). eexists. split; [done|]. split; [|reflexivity].
    exists x, (to_be_bytes 1 x). eexists. split; [done|]. split; [|reflexivity].
    exists y, (to_be_bytes 1 y). eexists. split; [done|]. split; [|reflexivity].
    by rewrite !Z.eqb_refl.
Qed.

(** What [parse_keyring_header] reads, up to the ciphertext length. *)
Definition keyring_fields : Type := option str * Z * Z * Z * Z * Z * bytes * list KeyringItemIndex * Z.

Definition keyring_body : reader keyring_fields := fun c =>
  let? (name, c) := c_opt_string (lit "keyring name") c in
  let? (created, c) := c_u64 (lit "created time") c in
  let? (modified, c) := c_u64 (lit "modified time") c in
  let? (flags, c) := c_u32 (lit "flags") c in
  let? (lock_timeout, c) := c_u32 (lit "lock timeout") c in
  let? (hash_iterations, c) := c_u32 (lit "hash iterations") c in
  let? (salt, c) := c_take 8 (lit "salt") c in
  let? (_, c) := read_n 4 (c_u32 (lit "reserved words")) c in
  let? (declared, c) := c_u32 (lit "item count") c in
  let? num_items := c_count c declared MIN_ITEM_BYTES (lit "item count") in
  let? (items, c) := read_n num_items parse_keyring_item c in
  let? (declared_len, c) := c_u32 (lit "ciphertext length") c in
  Ok ((name, created, modified, flags, lock_timeout, hash_iterations, salt, items, declared_len), c).

Definition fields_of (f : RawKeyring) : keyring_fields :=
  (rk_name f, rk_created f, rk_modified f, rk_flags f, rk_timeout f, rk_iterations f, rk_salt f,
   map item_index (rk_items f), rk_ctlen f).

Definition keyring_tail (f : RawKeyring) : bytes :=
  enc_opt_string (rk_name f) ++ be8 (rk_created f) ++ be8 (rk_modified f) ++ be4 (rk_flags f)
  ++ be4 (rk_timeout f) ++ be4 (rk_iterations f) ++ rk_salt f ++ concat (map be4 (rk_reserved f))
  ++ be4 (zlen (rk_items f)) ++ concat (map enc_item (rk_items f)) ++ be4 (rk_ctlen f).

Lemma parses_body (x y : Z) : u8 x -> u8 y ->
  parses keyring_body (fun v e => exists f, raw_keyring_wf f /\ rk_crypto f = x /\ rk_hash f = y
                                            /\ v = fields_of f /\ e = keyring_tail f).
Proof.
  intros Hx Hy. eapply parses_ext.
  { eapply parses_bind; [apply parses_opt_string|]. intros name ? _.
    do 2 (eapply parses_bind; [apply parses_u64|]; intros ? ? _).
    do 3 (eapply parses_bind; [apply parses_u32|]; intros ? ? _).
    eapply parses_bind; [apply parses_take|]. intros salt ? _.
    eapply parses_bind; [apply parses_read_n, parses_u32|]. intros reserved ? _.
    eapply (parses_counted (lit "item count") MIN_ITEM_BYTES _ _
              (fun items c => let? (dl, c) := c_u32 (lit "ciphertext length") c in Ok (_, c)));
      [apply parses_item|done| |].
    - intros ? ? (i & _ & _ & ->). apply enc_item_ge.
    - intros items. eapply parses_bind; [apply parses_u32|]. intros dl ? _. apply parses_ret. }
  intros v e. split.
  - intros (name & ? & ? & [Hname ->] & (created & ? & ? & [Hc ->] & (modified & ? & ? & [Hm ->] &
      (flags & ? & ? & [Hf ->] & (timeout & ? & ? & [Ht ->] & (iters & ? & ? & [Hi ->] &
      (salt & ? & ? & [Hs ->] & (reserved & ? & ? & [Hr (rs & Hrs & ->)] &
      (items & es & ? & Hn & Hes & (dl & ? & ? & [Hdl ->] & [-> ->] & ->) & ->) & ->) & ->) & ->) & ->) & ->) & ->) & ->) & ->).
    apply Forall2_print in Hrs as [Hrs ->]. apply Forall2_enc in Hes as (raws & Hraws & -> & ->).
    exists {| rk_crypto := x; rk_hash := y; rk_name := name; rk_created := created; rk_modified := modified;
              rk_flags := flags; rk_timeout := timeout; rk_iterations := iters; rk_salt := salt;
              rk_reserved := reserved; rk_items := raws; rk_ctlen := dl |}.
    rewrite zlen_map in *. unfold raw_keyring_wf, fields_of, keyring_tail.
    cbn [rk_crypto rk_hash rk_name rk_created rk_modified rk_flags rk_timeout rk_iterations rk_salt rk_reserved rk_items rk_ctlen].
    rewrite app_nil_r. by repeat (split; [done|]).
  - intros ([cr ha name created modified flags timeout iters salt reserved raws dl] & Hw & <- & <- & -> & ->).
    unfold raw_keyring_wf, fields_of, keyring_tail in *.
    cbn [rk_crypto rk_hash rk_name rk_created rk_modified rk_flags rk_timeout rk_iterations rk_salt rk_reserved rk_items rk_ctlen] in *.
    destruct Hw as (_ & _ & Hname & Hc & Hm & Hf & Ht & Hi & Hs & [Hr Hrs] & Hn & Hraws & Hdl).
    eexists name, _, _. split; [by split|]. split; [|reflexivity].
    eexists created, _, _. split; [by split|]. split; [|reflexivity].
    eexists modified, _, _. split; [by split|]. split; [|reflexivity].
    eexists flags, _, _. split; [by split|]. split; [|reflexivity].
    eexists timeout, _, _. split; [by split|]. split; [|reflexivity].
    eexists iters, _, _. split; [by split|]. split; [|reflexivity].
    eexists salt, _, _. split; [by split|]. split; [|reflexivity].
    eexists reserved, (concat (map be4 reserved)), _. split; [|split; [|reflexivity]].
    { split; [done|]. exists (map be4 reserved). by rewrite Forall2_print. }
    exists (map item_index raws), (map enc_item raws), (be4 dl). rewrite zlen_map.
    split; [done|]. split; [apply Forall2_enc; eauto|]. split; [|done].
    exists dl, (be4 dl), []. by rewrite app_nil_r.
Qed.

Lemma at_start bs : cursor_new bs = at_ [] bs.
Proof. done. Qed.

(** The same, from the magic on, as one reader. *)
Definition keyring_reader : reader keyring_fields := fun c =>
  let? (m, c) := c_take (length KEYRING_MAGIC) (lit "magic") c in
  if negb (bool_decide (m = KEYRING_MAGIC)) then Err (BadMagic GnomeKeyring) else
  let? (major, c) := c_u8 (lit "version") c in
  let? (minor, c) := c_u8 (lit "version") c in
  let? (x, c) := c_u8 (lit "version") c in
  let? (y, c) := c_u8 (lit "version") c in
  if negb ((major =? KEYRING_MAJOR) && (minor =? KEYRING_MINOR))
  then Err (UnsupportedVersion GnomeKeyring major minor KEYRING_MAJOR KEYRING_MINOR)
  else keyring_body c.

Lemma parses_keyring :
  parses keyring_reader (fun v e => exists f, raw_keyring_wf f /\ v = fields_of f /\ e = enc_keyring f).
Proof.
  eapply parses_ext;
    [apply (parses_start KEYRING_MAGIC GnomeKeyring KEYRING_MAJOR KEYRING_MINOR (fun _ _ => keyring_body));
     [done|done|apply parses_body]|].
  intros v e. split.
  - intros (x & y & ? & Hx & Hy & (f & Hf & <- & <- & -> & ->) & ->). by exists f.
  - intros (f & Hf & -> & ->). pose proof Hf as (Hc & Hh & _).
    exists (rk_crypto f), (rk_hash f), (keyring_tail f). split; [done|]. split; [done|]. split; [by exists f|done].
Qed.

Definition keyring_finish (v : keyring_fields) (c : Cursor) : result KeyringInventory HeaderError :=
  let '(name, created, modified, flags, lock_timeout, hash_iterations, salt, items, declared_len) := v in
  let? n := c_count c declared_len 1 (lit "ciphertext length") in
  Ok {| display_name := default [] name; ki_created := created; ki_modified := modified;
        ki_flags := flags; lock_timeout := lock_timeout; hash_iterations := hash_iterations;
        ki_salt := salt; ki_items := items; ciphertext_offset := pos c; ciphertext_len := n |}.

Lemma parse_keyring_header_eq bs :
  parse_keyring_header bs = let? (v, c) := keyring_reader (cursor_new bs) in keyring_finish v c.
Proof.
  unfold parse_keyring_header, keyring_reader, keyring_body, keyring_finish.
  repeat (case_match; [|done]); repeat case_match; congruence.
Qed.

Lemma parse_keyring_language bs inv :
  parse_keyring_header bs = Ok inv <->
  exists f ct, raw_keyring_wf f /\ bs = enc_keyring f ++ ct /\ rk_ctlen f <= zlen ct
               /\ inv = keyring_inventory f.
Proof.
  rewrite parse_keyring_header_eq, at_start, (parses_then _ _ _ _ _ _ parses_keyring).
  assert (Hfin : forall f ct, raw_keyring_wf f ->
    keyring_finish (fields_of f) (at_ (enc_keyring f) ct) = Ok inv <-> rk_ctlen f <= zlen ct /\ inv = keyring_inventory f).
  { intros f ct (_ & _ & _ & _ & _ & _ & _ & _ & _ & _ & _ & _ & Hct).
    unfold keyring_finish, fields_of, u32, u32_max, zlen in *.
    destruct (c_count _ _ _ _) as [n|] eqn:E.
    - apply c_count_Ok in E as [-> Hle]; [|unfold u64_max; lia..]. rewrite remaining_at in Hle.
      split; [intros [= <-]; split; [lia|done]|by intros [_ ->]].
    - split; [done|]. intros [Hle _].
      assert (c_count (at_ (enc_keyring f) ct) (rk_ctlen f) 1 (lit "ciphertext length") = Ok (Z.to_nat (rk_ctlen f)));
        [|congruence]. apply c_count_Ok; [unfold u64_max; lia..|]. rewrite remaining_at. split; [done|lia]. }
  split.
  - intros (v & e1 & ct & (f & Hf & -> & ->) & -> & Hk). apply Hfin in Hk as [? ->]; [|done]. by exists f, ct.
  - intros (f & ct & Hf & -> & Hle). exists (fields_of f), (enc_keyring f), ct. split; [by exists f|].
    split; [done|]. by apply Hfin.
Qed.

(** ** The layout of a KWallet index *)

Definition hash_wf (h : Md5Hash) : Prop := length h = 16%nat.

Definition enc_folder (f : WalletFolderIndex) : bytes :=
  folder_hash f ++ be4 (zlen (entry_hashes f)) ++ concat (entry_hashes f).

Definition folder_wf (f : WalletFolderIndex) : Prop :=
  hash_wf (folder_hash f) /\ u32 (zlen (entry_hashes f)) /\ Forall hash_wf (entry_hashes f).

Definition enc_wallet (cipher hash : Z) (fs : list WalletFolderIndex) : bytes :=
  KWALLET_MAGIC ++ to_be_bytes 1 KWALLET_MAJOR ++ to_be_bytes 1 KWALLET_MINOR
  ++ to_be_bytes 1 cipher ++ to_be_bytes 1 hash ++ be4 (zlen fs) ++ concat (map enc_folder fs).

Definition wallet_wf (cipher hash : Z) (fs : list WalletFolderIndex) : Prop :=
  u8 cipher /\ u8 hash /\ u32 (zlen fs) /\ Forall folder_wf fs.

Lemma parses_folder : parses parse_wallet_folder (fun f e => folder_wf f /\ e = enc_folder f).
Proof.
  eapply parses_ext.
  { eapply parses_bind; [apply parses_array16|]. intros fh ? _.
    apply parses_counted; [apply (parses_array16 (lit "entry name hash"))|done| |intros l; apply parses_ret].
    intros ? ? [Hl ->]. unfold zlen. lia. }
  intros v e. split.
  - intros (fh & ? & ? & [Hf ->] & (l & es & ? & Hl & Hes & [-> ->] & ->) & ->).
    apply (Forall2_print hash_wf id) in Hes as [Hes ->]. rewrite app_nil_r. unfold enc_folder. simpl. by rewrite map_id.
  - intros [(Hf & Hl & Hes) ->]. destruct v as [fh ehs]. unfold enc_folder. cbn [folder_hash entry_hashes] in *.
    exists fh, fh. eexists. split; [done|]. split; [|reflexivity].
    exists ehs, ehs, []. rewrite app_nil_r. split; [done|]. split; [|done].
    apply (Forall2_print hash_wf id). by rewrite map_id.
Qed.

Lemma enc_folder_ge f : folder_wf f -> MIN_FOLDER_BYTES <= zlen (enc_folder f).
Proof.
  intros (Hh & _). unfold enc_folder. rewrite !zlen_app, length_be4.
  pose proof (zlen_nonneg (concat (entry_hashes f))). unfold hash_wf, zlen, MIN_FOLDER_BYTES in *. lia.
Qed.

Definition wallet_reader : reader (Z * Z * list WalletFolderIndex) := fun c =>
  let? (m, c) := c_take (length KWALLET_MAGIC) (lit "magic") c in
  if negb (bool_decide (m = KWALLET_MAGIC)) then Err (BadMagic KWallet) else
  let? (major, c) := c_u8 (lit "version") c in
  let? (minor, c) := c_u8 (lit "version") c in
  let? (cipher, c) := c_u8 (lit "version") c in
  let? (hash, c) := c_u8 (lit "version") c in
  if negb ((major =? KWALLET_MAJOR) && (minor =? KWALLET_MINOR))
  then Err (UnsupportedVersion KWallet major minor KWALLET_MAJOR KWALLET_MINOR) else
  let? (declared, c) := c_u32 (lit "folder count") c in
  let? n := c_count c declared MIN_FOLDER_BYTES (lit "folder count") in
  let? (fs, c) := read_n n parse_wallet_folder c in
  Ok ((cipher, hash, fs), c).

Lemma parses_wallet : parses wallet_reader
  (fun '(cipher, hash, fs) e => wallet_wf cipher hash fs /\ e = enc_wallet cipher hash fs).
Proof.
  eapply parses_ext.
  { apply (parses_start KWALLET_MAGIC KWallet KWALLET_MAJOR KWALLET_MINOR
      (fun cipher hash c => let? (declared, c) := c_u32 (lit "folder count") c in
         let? n := c_count c declared MIN_FOLDER_BYTES (lit "folder count") in
         let? (fs, c) := read_n n parse_wallet_folder c in Ok ((cipher, hash, fs), c))); [done|done|].
    intros cipher hash _ _. apply parses_counted; [apply parses_folder|done| |intros l; apply parses_ret].
    intros ? ? [Hf ->]. by apply enc_folder_ge. }
  intros [[cipher hash] fs] e. unfold wallet_wf, enc_wallet. split.
  - intros (x & y & ? & Hx & Hy & (l & es & ? & Hl & Hes & [[= -> -> ->] ->] & ->) & ->).
    apply Forall2_print in Hes as [Hes ->]. by rewrite app_nil_r.
  - intros [(Hc & Hh & Hl & Hf) ->]. exists cipher, hash. eexists. split; [done|]. split; [done|]. split; [|reflexivity].
    exists fs, (map enc_folder fs), []. rewrite app_nil_r, Forall2_print. done.
Qed.

Lemma parse_wallet_language bs inv :
  parse_wallet_header bs = Ok inv <->
  exists rest, wallet_wf (wi_cipher inv) (wi_hash inv) (folders inv)
    /\ bs = enc_wallet (wi_cipher inv) (wi_hash inv) (folders inv) ++ rest
    /\ wi_ciphertext_offset inv = length (enc_wallet (wi_cipher inv) (wi_hash inv) (folders inv)).
Proof.
  assert (parse_wallet_header bs = let? (v, c) := wallet_reader (cursor_new bs) in
    (fun '(cipher, hash, fs) c => Ok {| wi_cipher := cipher; wi_hash := hash; folders := fs;
                                        wi_ciphertext_offset := pos c |}) v c) as ->.
  { unfold parse_wallet_header, wallet_reader. repeat (case_match; [|done]); repeat case_match; congruence. }
  rewrite at_start, (parses_then _ _ _ _ _ _ parses_wallet). split.
  - intros ([[cipher hash] fs] & e1 & r & [Hw ->] & -> & [= <-]). by exists r.
  - intros (r & Hw & -> & Ho). destruct inv as [cipher hash fs off]. cbn in Hw, Ho |- *. subst off.
    exists (cipher, hash, fs), (enc_wallet cipher hash fs), r. done.
Qed.

(** ** Sizes *)

Lemma size_from_names (l : list str) : (size (from_names l) <= length l)%nat.
Proof.
  unfold from_names. induction l as [|x l IH]; [done|].
  change (list_to_set (x :: l) : gset str) with ({[x]} ∪ list_to_set l : gset str).
  rewrite size_union_alt, size_singleton.
  assert (size (list_to_set l ∖ {[x]} : gset str) <= size (list_to_set l : gset str))%nat
    by (apply subseteq_size; set_solver). simpl length. lia.
Qed.

Lemma enc_attrs_ge l : MIN_ATTRIBUTE_BYTES * zlen l <= zlen (concat (map enc_attr l)).
Proof.
  induction l as [|a l IH]; [done|]. cbn [map concat]. rewrite zlen_app. pose proof (enc_attr_ge a).
  unfold zlen, MIN_ATTRIBUTE_BYTES in *. cbn [length]. lia.
Qed.

(** The least an item's index entry takes, as the parser measures it. *)
Definition index_bytes (i : KeyringItemIndex) : Z :=
  MIN_ITEM_BYTES + MIN_ATTRIBUTE_BYTES * Z.of_nat (size (ki_keys i)).

Lemma enc_items_ge l :
  fold_right Z.add 0 (map index_bytes (map item_index l)) <= zlen (concat (map enc_item l)).
Proof.
  induction l as [|i l IH]; [done|]. cbn [map fold_right concat]. rewrite zlen_app.
  assert (index_bytes (item_index i) <= zlen (enc_item i)); [|lia].
  unfold index_bytes, enc_item, item_index. cbn [ki_keys]. rewrite !zlen_app, !length_be4.
  pose proof (enc_attrs_ge (ri_attrs i)). pose proof (size_from_names (map ra_name (ri_attrs i))) as Hs.
  rewrite length_map in Hs. unfold zlen, MIN_ITEM_BYTES, MIN_ATTRIBUTE_BYTES, AttributeKeys in *. lia.
Qed.

Lemma enc_folders_ge l : Forall folder_wf l ->
  MIN_FOLDER_BYTES * zlen l + 16 * Z.of_nat (sum_list (map (fun f => length (entry_hashes f)) l))
  <= zlen (concat (map enc_folder l)).
Proof.
  induction 1 as [|f l (Hh & _ & He) _ IH]; [done|]. cbn [map concat sum_list]. rewrite zlen_app.
  assert (20 + 16 * zlen (entry_hashes f) <= zlen (enc_folder f)).
  { unfold enc_folder. rewrite !zlen_app, length_be4. unfold hash_wf in *. unfold zlen at 2. rewrite Hh.
    assert (zlen (concat (entry_hashes f)) = 16 * zlen (entry_hashes f)); [|lia].
    induction He as [|h l' Hl _ IH']; [done|]. simpl. rewrite zlen_app, IH'. unfold zlen. simpl length. lia. }
  unfold zlen, MIN_FOLDER_BYTES in *. simpl length. change (sum_list_with id) with sum_list in *. simpl. lia.
Qed.

(** ** Attribute counts *)

Lemma bump_fold (l : list str) (counts : gmap str nat) (k : str) : NoDup l ->
  default 0%nat (fold_left (fun counts key => bump key counts) l counts !! k)
  = ((if bool_decide (k ∈ l) then 1 else 0) + default 0 (counts !! k))%nat.
Proof.
  intros Hl. revert counts. induction Hl as [|x l Hx Hl IH]; intros counts; simpl; [done|].
  rewrite IH. unfold bump. destruct (decide (k = x)) as [->|Hne].
  - rewrite lookup_insert_eq, bool_decide_eq_false_2, bool_decide_eq_true_2 by set_solver. simpl. lia.
  - rewrite lookup_insert_ne by done. do 2 case_bool_decide; set_solver.
Qed.

Lemma attribute_key_counts_lookup (inv : KeyringInventory) (k : str) :
  default 0%nat (attribute_key_counts inv !! k) = count_if (fun i => bool_decide (k ∈ ki_keys i)) (ki_items inv).
Proof.
  unfold attribute_key_counts. change 0%nat with (default 0%nat ((∅ : gmap str nat) !! k)) at 1.
  assert (H : forall l (m : gmap str nat), default 0%nat (fold_left (fun counts i =>
      fold_left (fun counts key => bump key counts) (elements (ki_keys i)) counts) l m !! k)
    = (count_if (fun i => bool_decide (k ∈ ki_keys i)) l + default 0 (m !! k))%nat).
  { induction l as [|i l IH]; intros m; simpl; [done|]. rewrite IH, bump_fold by apply NoDup_elements.
    unfold count_if. simpl. repeat case_bool_decide; simpl; try lia; set_solver. }
  rewrite H, lookup_empty. simpl. lia.
Qed.

(** ** The [default] file *)

Lemma trim_end_prefix s : exists w, s = trim_end s ++ w.
Proof.
  unfold trim_end. destruct (drop_while_suffix is_whitespace (rev s)) as (k & Hk & _).
  exists (rev k). by rewrite <- rev_app_distr, <- Hk, rev_involutive.
Qed.

Lemma trim_end_last s t x : trim_end s = t ++ [x] -> is_whitespace x = false.
Proof.
  unfold trim_end. intros E. apply (f_equal (@rev _)) in E. rewrite rev_involutive, rev_app_distr in E.
  simpl in E. by eapply drop_while_head.
Qed.

Lemma trim_end_fix s : (forall t x, s = t ++ [x] -> is_whitespace x = false) -> trim_end s = s.
Proof.
  intros H. unfold trim_end. rewrite drop_while_id, rev_involutive; [done|].
  intros x r E. apply (H (rev r)). by rewrite <- (rev_involutive s), E.
Qed.

Lemma trim_head s x r : trim s = x :: r -> is_whitespace x = false.
Proof.
  unfold trim. intros E. destruct (trim_end_prefix (drop_while is_whitespace s)) as [w Hw].
  rewrite E in Hw. by eapply drop_while_head.
Qed.

Lemma trim_fix s : (forall x r, s = x :: r -> is_whitespace x = false) ->
  (forall t x, s = t ++ [x] -> is_whitespace x = false) -> trim s = s.
Proof. intros Hh Hl. unfold trim. rewrite drop_while_id by done. by apply trim_end_fix. Qed.

Lemma elem_of_trim x s : x ∈ trim s -> x ∈ s.
Proof.
  unfold trim. destruct (trim_end_prefix (drop_while is_whitespace s)) as [w Hw].
  destruct (drop_while_suffix is_whitespace s) as (k & Hk & _). rewrite Hw in Hk. rewrite Hk at 2. set_solver.
Qed.

Lemma first_line_no_newline s : 10 ∉ first_line s.
Proof.
  unfold first_line. destruct (split_once 10 s) as [[l r]|] eqn:E.
  - apply split_once_Some in E as [_ Hl]. destruct (strip_suffix [13] l) as [l'|] eqn:E'; simpl; [|done].
    apply strip_suffix_Some in E' as ->. set_solver.
  - induction s as [|x s IH]; [set_solver|]. simpl in E. destruct (Z.eqb_spec x 10); [done|].
    destruct (split_once 10 s) as [[]|]; [done|]. specialize (IH eq_refl). set_solver.
Qed.

Lemma first_line_id s : 10 ∉ s -> first_line s = s.
Proof.
  intros H. unfold first_line. destruct (split_once 10 s) as [[l r]|] eqn:E; [|done].
  apply split_once_Some in E as [-> _]. set_solver.
Qed.

Lemma existsb_eqb c s : existsb (Z.eqb c) s = true <-> c ∈ s.
Proof.
  rewrite existsb_exists. split.
  - intros (x & Hx & ->%Z.eqb_eq). by apply list_elem_of_In.
  - intros H. exists c. split; [by apply list_elem_of_In|apply Z.eqb_refl].
Qed.

Lemma bad_default_name_false n : bad_default_name n = false <->
  n <> [] /\ n <> lit "." /\ n <> lit ".." /\ 47 ∉ n /\ 92 ∉ n /\ 0 ∉ n.
Proof.
  unfold bad_default_name. rewrite !orb_false_iff. unfold str_eqb.
  rewrite !bool_decide_eq_false, <- !not_true_iff_false, !existsb_eqb. tauto.
Qed.

(** The name before it is judged. *)
Definition default_candidate (contents : str) : str :=
  let name := trim (first_line contents) in trim_end (default name (strip_suffix (lit ".keyring") name)).

Lemma default_candidate_shape s : let n := default_candidate s in
  (forall x r, n = x :: r -> is_whitespace x = false) /\ (forall t x, n = t ++ [x] -> is_whitespace x = false)
  /\ 10 ∉ n.
Proof.
  unfold default_candidate. set (name := trim (first_line s)).
  set (stripped := default name (strip_suffix (lit ".keyring") name)).
  assert (Hpre : exists w, name = stripped ++ w).
  { unfold stripped. destruct (strip_suffix (lit ".keyring") name) as [r|] eqn:E; simpl.
    - apply strip_suffix_Some in E. eauto.
    - exists []. by rewrite app_nil_r. }
  destruct Hpre as [w1 Hw1]. destruct (trim_end_prefix stripped) as [w2 Hw2]. simpl.
  split; [|split; [apply trim_end_last|]].
  - intros x r E. rewrite E in Hw2. rewrite Hw2 in Hw1. exact (trim_head (first_line s) x ((r ++ w2) ++ w1) Hw1).
  - intros H. apply (first_line_no_newline s), elem_of_trim. fold name. rewrite Hw1, Hw2. set_solver.
Qed.

(** ** Properties *)

Definition sample_keyring : RawKeyring := {|
  rk_crypto := 0; rk_hash := 0; rk_name := Some (lit "Login"); rk_created := 1700000000;
  rk_modified := 0; rk_flags := 1; rk_timeout := 0; rk_iterations := 3457;
  rk_salt := repeat x05 8; rk_reserved := [0; 0; 0; 0];
  rk_items := [{| ri_id := 7; ri_type := 0;
                  ri_attrs := [{| ra_name := lit "server"; ra_value := HashedString (Some (repeat x61 32)) |};
                               {| ra_name := lit "port"; ra_value := HashedUint 443 |};
                               {| ra_name := lit "note"; ra_value := HashedString None |}] |};
               {| ri_id := 8; ri_type := 3; ri_attrs := [] |}];
  rk_ctlen := 2 |}.

Lemma sample_keyring_wf : raw_keyring_wf sample_keyring.
Proof.
  unfold raw_keyring_wf, u8, u32, u64, u8_max, u32_max, u64_max, zlen. simpl.
  repeat first [split | constructor | lia];
    unfold str_len, zlen, str_wf, is_char, u32_max; simpl; try lia; repeat constructor; lia.
Qed.

(** The language of the gnome-keyring index parser. A byte string is
    accepted exactly when it is the big-endian layout of a well-formed index —
    every length prefix, NULL marker, attribute and reserved word in place —
    followed by at least the declared number of ciphertext bytes, and what is
    returned is that index. So the parser inverts the layout, refuses every
    other string, and its count guards refuse no well-formed file. *)
Theorem keyring_header_exact bs inv :
  parse_keyring_header bs = Ok inv <->
  exists f ct, raw_keyring_wf f /\ bs = enc_keyring f ++ ct /\ rk_ctlen f <= zlen ct
               /\ inv = keyring_inventory f.
Proof. apply parse_keyring_language. Qed.

(** C33. Nothing in an accepted keyring is sized by a number the file merely
    declares. The declared ciphertext lies inside the file, every index item
    is paid for by twelve bytes and each distinct attribute name by twelve
    more, and every field of the inventory is a value of its machine type:
    64-bit times, 32-bit words, an eight-byte salt and valid text. *)
Theorem keyring_inventory_typed bs inv :
  parse_keyring_header bs = Ok inv ->
  (ciphertext_offset inv + ciphertext_len inv <= length bs)%nat
  /\ fold_right Z.add 0 (map index_bytes (ki_items inv)) <= Z.of_nat (ciphertext_offset inv)
  /\ MIN_ITEM_BYTES * Z.of_nat (item_count inv) <= zlen bs
  /\ str_wf (display_name inv) /\ u64 (ki_created inv) /\ u64 (ki_modified inv) /\ u32 (ki_flags inv)
  /\ u32 (lock_timeout inv) /\ u32 (hash_iterations inv) /\ length (ki_salt inv) = 8%nat
  /\ Forall (fun i => u32 (ki_id i) /\ u32 (ki_type i) /\ forall k, k ∈ ki_keys i -> str_wf k) (ki_items inv).
Proof.
  intros (f & ct & Hw & -> & Hct & ->)%parse_keyring_language.
  pose proof (enc_items_ge (rk_items f)) as Hge.
  destruct Hw as (_ & _ & Hn & Hc & Hm & Hf & Ht & Hi & Hs & _ & _ & Hits & Hdl).
  assert (Hoff : zlen (concat (map enc_item (rk_items f))) <= zlen (enc_keyring f)).
  { unfold enc_keyring, zlen. rewrite !length_app. lia. }
  assert (Hcnt : 12 * zlen (rk_items f) <= fold_right Z.add 0 (map index_bytes (map item_index (rk_items f)))).
  { clear. induction (rk_items f) as [|i l IH]; [done|]. cbn [map fold_right]. unfold index_bytes at 1, MIN_ITEM_BYTES, MIN_ATTRIBUTE_BYTES.
    unfold zlen in *. cbn [length]. lia. }
  unfold keyring_inventory, item_count.
  cbn [ciphertext_offset ciphertext_len ki_items display_name ki_created ki_modified ki_flags lock_timeout hash_iterations ki_salt].
  rewrite length_app, zlen_app, length_map. unfold u32 in Hdl.
  split; [unfold zlen in *; lia|]. split; [unfold zlen in *; lia|].
  split; [pose proof (zlen_nonneg ct); unfold zlen, MIN_ITEM_BYTES in *; lia|].
  split; [destruct (rk_name f); [apply Hn|constructor]|]. repeat (split; [done|]).
  apply Forall_map. eapply Forall_impl; [exact Hits|]. intros i (Hid & Hty & _ & Hattrs). cbn.
  split; [done|]. split; [done|]. intros k Hk. unfold from_names in Hk.
  apply elem_of_list_to_set, list_elem_of_fmap in Hk as (a & -> & Ha).
  rewrite Forall_forall in Hattrs. apply (Hattrs _ Ha).
Qed.

Lemma keyring_inventory_typed_witness :
  exists inv, parse_keyring_header (enc_keyring sample_keyring ++ [x01; x02; x03]) = Ok inv
    /\ item_count inv = 2%nat /\ unlock_credential_count inv = 1%nat
    /\ (ciphertext_offset inv + ciphertext_len inv <= length (enc_keyring sample_keyring ++ [x01; x02; x03]))%nat.
Proof.
  eexists. split; [vm_compute; reflexivity|]. split; [reflexivity|]. split; [reflexivity|].
  apply (proj1 (keyring_inventory_typed (enc_keyring sample_keyring ++ [x01; x02; x03]) _ ltac:(vm_compute; reflexivity))).
Defined.

(** The language of the KWallet index parser. A byte string is accepted
    exactly when it starts with the layout of the folders and entry hashes
    that are returned, at most one folder for every twenty bytes and one
    entry for every sixteen, and the offset of the encrypted half is the end
    of that layout. *)
Theorem wallet_header_exact bs inv :
  (parse_wallet_header bs = Ok inv <->
   exists rest, wallet_wf (wi_cipher inv) (wi_hash inv) (folders inv)
     /\ bs = enc_wallet (wi_cipher inv) (wi_hash inv) (folders inv) ++ rest
     /\ wi_ciphertext_offset inv = length (enc_wallet (wi_cipher inv) (wi_hash inv) (folders inv)))
  /\ (parse_wallet_header bs = Ok inv ->
      MIN_FOLDER_BYTES * Z.of_nat (folder_count inv) + 16 * Z.of_nat (entry_count inv)
        <= Z.of_nat (wi_ciphertext_offset inv) <= zlen bs).
Proof.
  split; [apply parse_wallet_language|].
  intros (rest & (_ & _ & _ & Hf) & -> & ->)%parse_wallet_language.
  pose proof (enc_folders_ge _ Hf) as Hge. rewrite zlen_app. pose proof (zlen_nonneg rest).
  assert (zlen (concat (map enc_folder (folders inv)))
          <= zlen (enc_wallet (wi_cipher inv) (wi_hash inv) (folders inv))).
  { unfold enc_wallet, zlen. rewrite !length_app. lia. }
  unfold folder_count, entry_count, zlen in *. lia.
Qed.

Lemma wallet_header_exact_witness :
  let inv := {| wi_cipher := 3; wi_hash := 2;
                folders := [{| folder_hash := repeat x01 16; entry_hashes := [repeat x02 16; repeat x03 16] |};
                            {| folder_hash := repeat x04 16; entry_hashes := [] |}];
                wi_ciphertext_offset := 92 |} in
  let bs := enc_wallet 3 2 (folders inv) ++ [x09] in
  parse_wallet_header bs = Ok inv /\ MIN_FOLDER_BYTES * 2 + 16 * 2 <= 92 <= zlen bs.
Proof.
  intros inv bs. split; [vm_compute; reflexivity|].
  apply (proj2 (wallet_header_exact bs inv)). vm_compute. reflexivity.
Defined.

(** A name accepted from the [default] file is safe as a filename: not
    empty, not a dot name, without a slash, a backslash, a NUL or a line feed,
    and without whitespace at either end; and reading it back gives it again
    unless it still ends in the suffix that only comes off once. *)
Theorem default_file_safe contents n :
  parse_default_file contents = Ok n ->
  n <> [] /\ n <> lit "." /\ n <> lit ".." /\ (47 ∉ n) /\ (92 ∉ n) /\ (0 ∉ n) /\ (10 ∉ n)
  /\ trim n = n
  /\ (strip_suffix (lit ".keyring") n = None -> parse_default_file n = Ok n).
Proof.
  unfold parse_default_file. fold (default_candidate contents).
  destruct (bad_default_name (default_candidate contents)) eqn:E; [done|]. intros [= <-].
  destruct (default_candidate_shape contents) as (Hh & Hl & H10). set (n := default_candidate contents) in *.
  pose proof (trim_fix _ Hh Hl) as Ht.
  apply bad_default_name_false in E as Hbad. destruct Hbad as (? & ? & ? & ? & ? & ?).
  repeat (split; [done|]). intros Hs. rewrite first_line_id, Ht, Hs by done. simpl.
  by rewrite (trim_end_fix n Hl), E.
Qed.

Lemma default_file_safe_witness :
  parse_default_file (lit "  login  .keyring  ") = Ok (lit "login")
  /\ parse_default_file (lit "../../etc/passwd") = Err InvalidDefaultName
  /\ parse_default_file (lit "login") = Ok (lit "login").
Proof.
  split; [vm_compute; reflexivity|]. split; [vm_compute; reflexivity|].
  apply (default_file_safe (lit "  login  .keyring  ") (lit "login")); vm_compute; reflexivity.
Defined.

(** The counts an inventory prints: an attribute name is counted once for
    every item whose index lists it. *)
Theorem attribute_key_counts_exact inv k :
  default 0%nat (attribute_key_counts inv !! k) = count_if (fun i => bool_decide (k ∈ ki_keys i)) (ki_items inv).
Proof. apply attribute_key_counts_lookup. Qed.
