(* ===== verification/Verify.v ===== *)
(** * Verifying an import ([src/import/verify.rs])

    The four checks a migration is judged by: per-item fingerprints compared as
    multisets, the independent count from the source's cleartext header, the
    lookup probes, and the secret-length histogram; with the MD5 used to look
    names up in a wallet's index.  SHA-256 is the [Prims] parameter.  Hash maps
    and sets are finite maps and sets; their iteration order is not used. *)
From S2P Require Import Prelude Text Env Crypto Format Import Formats.

(** ** Fingerprints *)

(** [Fingerprint] is 32 bytes. *)
Abbreviation Fingerprint := bytes.

(** [push_prefixed(out, bytes)]: what is appended. *)
Definition prefixed (b : bytes) : bytes := to_be_bytes 8 (zlen b) ++ b.

Definition canonical_attrs (attributes : gmap str str) : bytes :=
  flat_map (fun '(k, v) => prefixed (utf8 k) ++ prefixed (utf8 v)) (btree_iter attributes).

Section fingerprint.
Context `{Prims}.

(** What is hashed for an item. *)
Definition fingerprint_preimage (attributes : gmap str str) (label content_type : str) (secret : bytes) : bytes :=
  canonical_attrs attributes ++ (prefixed (utf8 label) ++ prefixed (utf8 content_type)) ++ sha256 secret.

Definition fingerprint (attributes : gmap str str) (label content_type : str) (secret : bytes) : Fingerprint :=
  sha256 (fingerprint_preimage attributes label content_type secret).

Definition fingerprint_source (i : SourceItem) : Fingerprint :=
  fingerprint (si_attributes i) (si_label i) (si_content_type i) (si_secret i).

Record FingerprintEntry : Type := {
  fe_fingerprint : Fingerprint;
  fe_keys : AttributeKeys;
  object_path : option str
}.

(** [FingerprintEntry::source] and [FingerprintEntry::destination]. *)
Definition fe_source (i : SourceItem) : FingerprintEntry :=
  {| fe_fingerprint := fingerprint_source i; fe_keys := keys_of (si_attributes i); object_path := None |}.

Definition fe_destination (attributes : gmap str str) (label content_type : str) (secret : bytes) (path : str)
  : FingerprintEntry :=
  {| fe_fingerprint := fingerprint attributes label content_type secret; fe_keys := keys_of attributes;
     object_path := Some path |}.
End fingerprint.

(** [FingerprintEntry::short]. *)
Definition short (e : FingerprintEntry) : str := hex (take 8 (fe_fingerprint e)).

Inductive Side : Type := MissingFromDestination | UnexpectedInDestination.

Record FingerprintMismatch : Type := {
  fm_side : Side;
  fm_keys : AttributeKeys;
  fm_path : option str;
  fm_fingerprint : str
}.

Definition mismatch (s : Side) (e : FingerprintEntry) : FingerprintMismatch :=
  {| fm_side := s; fm_keys := fe_keys e; fm_path := object_path e; fm_fingerprint := short e |}.

(** [*remaining.entry(fp).or_insert(0) += 1]. *)
Definition count_up (m : gmap bytes nat) (e : FingerprintEntry) : gmap bytes nat :=
  <[fe_fingerprint e := S (default 0%nat (m !! fe_fingerprint e))]> m.

(** One entry of the source against what the destination has left. *)
Definition take_partner (s : Side) (st : gmap bytes nat * list FingerprintMismatch) (e : FingerprintEntry)
  : gmap bytes nat * list FingerprintMismatch :=
  match st.1 !! fe_fingerprint e with
  | Some (S n) => (<[fe_fingerprint e := n]> st.1, st.2)
  | _ => (st.1, st.2 ++ [mismatch s e])
  end.

(** One entry of the destination against the surplus. *)
Definition take_surplus (st : gmap bytes nat * list FingerprintMismatch) (e : FingerprintEntry)
  : gmap bytes nat * list FingerprintMismatch :=
  match st.1 !! fe_fingerprint e with
  | None => st
  | Some O => st
  | Some (S n) => (<[fe_fingerprint e := n]> st.1, st.2 ++ [mismatch UnexpectedInDestination e])
  end.

Definition compare_fingerprints (source destination : list FingerprintEntry) : list FingerprintMismatch :=
  let remaining := fold_left count_up destination ∅ in
  let st := fold_left (take_partner MissingFromDestination) source (remaining, []) in
  let surplus := filter (fun kv => (0 < kv.2)%nat) st.1 in
  (fold_left take_surplus destination (surplus, st.2)).2.

(** ** The independent count *)

Record CountCheck : Type := {
  cc_header : option nat;
  walked : nat;
  unlisted : nat
}.

(** [usize::checked_add]. *)
Definition count_passed (c : CountCheck) : bool :=
  match cc_header c with
  | None => true
  | Some n =>
    if Z.of_nat (walked c) + Z.of_nat (unlisted c) <=? u64_max then (walked c + unlisted c =? n)%nat
    else false
  end.

Definition count_made (c : CountCheck) : bool := if cc_header c then true else false.

(** ** MD5 *)

Definition MD5_S : list Z :=
  [7; 12; 17; 22; 7; 12; 17; 22; 7; 12; 17; 22; 7; 12; 17; 22; 5; 9; 14; 20; 5; 9; 14; 20; 5;
   9; 14; 20; 5; 9; 14; 20; 4; 11; 16; 23; 4; 11; 16; 23; 4; 11; 16; 23; 4; 11; 16; 23; 6; 10;
   15; 21; 6; 10; 15; 21; 6; 10; 15; 21; 6; 10; 15; 21].

Definition MD5_K : list Z :=
  [0xd76aa478; 0xe8c7b756; 0x242070db; 0xc1bdceee; 0xf57c0faf; 0x4787c62a; 0xa8304613; 0xfd469501;
   0x698098d8; 0x8b44f7af; 0xffff5bb1; 0x895cd7be; 0x6b901122; 0xfd987193; 0xa679438e; 0x49b40821;
   0xf61e2562; 0xc040b340; 0x265e5a51; 0xe9b6c7aa; 0xd62f105d; 0x02441453; 0xd8a1e681; 0xe7d3fbc8;
   0x21e1cde6; 0xc33707d6; 0xf4d50d87; 0x455a14ed; 0xa9e3e905; 0xfcefa3f8; 0x676f02d9; 0x8d2a4c8a;
   0xfffa3942; 0x8771f681; 0x6d9d6122; 0xfde5380c; 0xa4beea44; 0x4bdecfa9; 0xf6bb4b60; 0xbebfbc70;
   0x289b7ec6; 0xeaa127fa; 0xd4ef3085; 0x04881d05; 0xd9d4d039; 0xe6db99e5; 0x1fa27cf8; 0xc4ac5665;
   0xf4292244; 0x432aff97; 0xab9423a7; 0xfc93a039; 0x655b59c3; 0x8f0ccc92; 0xffeff47d; 0x85845dd1;
   0x6fa87e4f; 0xfe2ce6e0; 0xa3014314; 0x4e0811a1; 0xf7537e82; 0xbd3af235; 0x2ad7d2bb; 0xeb86d391].

(** [u32] operations. *)
Definition wadd (a b : Z) : Z := (a + b) mod (u32_max + 1).
Definition wnot (a : Z) : Z := Z.lxor a u32_max.
Definition rotate_left (a s : Z) : Z := Z.lor (Z.land (Z.shiftl a s) u32_max) (Z.shiftr a (32 - s)).

(** [while msg.len() % 64 != 56 { msg.push(0) }]; at most 63 rounds. *)
Fixpoint md5_pad (fuel : nat) (msg : bytes) : bytes :=
  match fuel with
  | O => msg
  | S fuel => if (length msg mod 64 =? 56)%nat then msg else md5_pad fuel (msg ++ [x00])
  end.

Definition md5_message (bs : bytes) : bytes :=
  let bit_len := (zlen bs * 8) mod (u64_max + 1) in
  md5_pad 64 (bs ++ [x80]) ++ to_le_bytes 8 bit_len.

(** [chunks_exact(n)]; [fuel] is at least the number of chunks. *)
Fixpoint chunks_exact (fuel n : nat) (l : bytes) : list bytes :=
  match fuel with
  | O => []
  | S fuel => if (length l <? n)%nat then [] else take n l :: chunks_exact fuel n (drop n l)
  end.

Definition md5_state : Type := Z * Z * Z * Z.

Definition md5_step (m : list Z) (st : md5_state) (i : nat) : md5_state :=
  let '(a, b, c, d) := st in
  let '(f, g) :=
    match (i / 16)%nat with
    | 0%nat => (Z.lor (Z.land b c) (Z.land (wnot b) d), i)
    | 1%nat => (Z.lor (Z.land d b) (Z.land (wnot d) c), (5 * i + 1) mod 16)%nat
    | 2%nat => (Z.lxor (Z.lxor b c) d, (3 * i + 5) mod 16)%nat
    | _ => (Z.lxor c (Z.lor b (wnot d)), (7 * i) mod 16)%nat
    end in
  let sum := rotate_left (wadd (wadd (wadd a f) (nth i MD5_K 0)) (nth g m 0)) (nth i MD5_S 0) in
  (d, wadd b sum, b, c).

Definition md5_chunk (st : md5_state) (chunk : bytes) : md5_state :=
  let m := map from_le_bytes (chunks_exact 16 4 chunk) in
  let '(a, b, c, d) := fold_left (md5_step m) (seq 0 64) st in
  let '(a0, b0, c0, d0) := st in
  (wadd a0 a, wadd b0 b, wadd c0 c, wadd d0 d).

Definition md5 (bs : bytes) : Md5Hash :=
  let msg := md5_message bs in
  let '(a, b, c, d) :=
    fold_left md5_chunk (chunks_exact (length msg) 64 msg) (0x67452301, 0xefcdab89, 0x98badcfe, 0x10325476) in
  to_le_bytes 4 a ++ to_le_bytes 4 b ++ to_le_bytes 4 c ++ to_le_bytes 4 d.

Definition name_pair (folder entry : str) : Md5Hash * Md5Hash := (md5 (utf8 folder), md5 (utf8 entry)).

(** ** The wallet's hash table *)

Record HashMiss : Type := { hm_folder : str; hm_entry : str }.

(** The index of a wallet as a set of pairs. *)
Definition hash_index (inv : WalletInventory) : gset (Md5Hash * Md5Hash) :=
  list_to_set (flat_map (fun f => map (fun e => (folder_hash f, e)) (entry_hashes f)) (folders inv)).

(** The pair of a provenance that names a folder and an entry. *)
Definition provenance_pair (p : Provenance) : option (Md5Hash * Md5Hash) :=
  match folder p, entry p with
  | Some f, Some e => Some (name_pair f e)
  | _, _ => None
  end.

Definition check_wallet_hash_table (inv : WalletInventory) (items : list SourceItem) : list HashMiss :=
  let index := hash_index inv in
  flat_map (fun i =>
    match provenance_pair (si_provenance i) with
    | None => []
    | Some (fh, eh) =>
      if bool_decide ((fh, eh) ∈ index) then [] else [{| hm_folder := hex fh; hm_entry := hex eh |}]
    end) items.

Record UnlistedEntry : Type := {
  ue_folder_hash : str;
  ue_entry_hash : str;
  ue_folder : option str;
  ue_entry : option str
}.

Definition MAX_SPLITS_PER_KEY : nat := 4096.

(** The splits of a key at each slash, in order. *)
Fixpoint slash_splits (key : str) : list (str * str) :=
  match key with
  | [] => []
  | x :: s => (if x =? 47 then [([], s)] else []) ++ map (fun '(a, b) => (x :: a, b)) (slash_splits s)
  end.

Abbreviation name_table := (gmap (Md5Hash * Md5Hash) (str * str)).

(** [table.entry(name_pair(folder, entry)).or_insert_with(..)]. *)
Definition add_split (table : name_table) (s : str * str) : name_table :=
  match table !! name_pair s.1 s.2 with
  | Some _ => table
  | None => <[name_pair s.1 s.2 := s]> table
  end.

Definition add_key (table : name_table) (key : str) : name_table :=
  let slashes := slash_splits key in
  if (MAX_SPLITS_PER_KEY <? length slashes + 1)%nat then table
  else fold_left add_split (slashes ++ [([], key)]) table.

Definition resolve_table (sidecar_keys : list str) : name_table := fold_left add_key sidecar_keys ∅.

Definition resolve_unlisted (pair : Md5Hash * Md5Hash) (names : name_table) : option str * option str :=
  match names !! pair with
  | Some (f, e) => (Some f, Some e)
  | None => (None, None)
  end.

Definition walked_pairs (items : list SourceItem) (accounted : list Provenance) : gset (Md5Hash * Md5Hash) :=
  list_to_set (omap provenance_pair (map si_provenance items ++ accounted)).

Definition unlisted_wallet_entries (inv : WalletInventory) (items : list SourceItem)
    (accounted : list Provenance) (sidecar_keys : list str) : list UnlistedEntry :=
  let walked := walked_pairs items accounted in
  let names := resolve_table sidecar_keys in
  flat_map (fun f =>
    flat_map (fun eh =>
      let pair := (folder_hash f, eh) in
      if bool_decide (pair ∈ walked) then []
      else let '(nf, ne) := resolve_unlisted pair names in
           [{| ue_folder_hash := hex pair.1; ue_entry_hash := hex pair.2; ue_folder := nf; ue_entry := ne |}])
      (entry_hashes f)) (folders inv).

(** ** The lookup probe *)

Record ProbeQuery : Type := { pq_attributes : gmap str str; pq_expected : nat }.

(** [BTreeMap]'s order on maps: lexicographic on the sorted pairs. *)
Fixpoint pairs_leb (a b : list (str * str)) : bool :=
  match a, b with
  | [], _ => true
  | _ :: _, [] => false
  | (k, v) :: a, (k', v') :: b =>
    if str_eqb k k' then if str_eqb v v' then pairs_leb a b else str_leb v v' else str_leb k k'
  end.

Definition attrs_le (a b : gmap str str) : Prop := pairs_leb (btree_iter a) (btree_iter b) = true.

#[global] Instance attrs_le_dec : RelDecision attrs_le.
Proof. intros a b. unfold attrs_le. apply _. Defined.

(** [attributes.iter().all(|(k, v)| item.attributes.get(k) == Some(v))]. *)
Definition has_all (query attributes : gmap str str) : bool :=
  forallb (fun '(k, v) => bool_decide (attributes !! k = Some v)) (btree_iter query).

Definition distinct_attributes (items : list SourceItem) : list (gmap str str) :=
  merge_sort attrs_le (elements (list_to_set
    (List.filter (fun m => negb (bool_decide (m = ∅))) (map si_attributes items)) : gset (gmap str str))).

Definition probe_plan (items : list SourceItem) : list ProbeQuery :=
  map (fun attributes => {| pq_attributes := attributes;
                            pq_expected := count_if (fun i => has_all attributes (si_attributes i)) items |})
      (distinct_attributes items).

Record ProbeResult : Type := { pr_keys : AttributeKeys; expected : nat; found : option nat }.

(** [ProbeResult::new] and [ProbeResult::not_issued]. *)
Definition probe_result (q : ProbeQuery) (n : nat) : ProbeResult :=
  {| pr_keys := keys_of (pq_attributes q); expected := pq_expected q; found := Some n |}.
Definition not_issued (q : ProbeQuery) : ProbeResult :=
  {| pr_keys := keys_of (pq_attributes q); expected := pq_expected q; found := None |}.

Definition probe_passed (r : ProbeResult) : bool := bool_decide (found r = Some (expected r)).

Definition probe_failed (r : ProbeResult) : bool :=
  match found r with Some _ => negb (probe_passed r) | None => false end.

Record ProbeSummary : Type := { ps_passed : nat; ps_failed : nat; ps_not_issued : nat }.

Definition probe_add (s : ProbeSummary) (r : ProbeResult) : ProbeSummary :=
  match found r with
  | None => {| ps_passed := ps_passed s; ps_failed := ps_failed s; ps_not_issued := S (ps_not_issued s) |}
  | Some _ =>
    if probe_passed r
    then {| ps_passed := S (ps_passed s); ps_failed := ps_failed s; ps_not_issued := ps_not_issued s |}
    else {| ps_passed := ps_passed s; ps_failed := S (ps_failed s); ps_not_issued := ps_not_issued s |}
  end.

Definition probe_summary (l : list ProbeResult) : ProbeSummary :=
  fold_left probe_add l {| ps_passed := 0; ps_failed := 0; ps_not_issued := 0 |}.

Definition ps_total (s : ProbeSummary) : nat := (ps_passed s + ps_failed s + ps_not_issued s)%nat.

Definition downgraded_keys (probes : list ProbeResult) : gset AttributeKeys :=
  list_to_set (map pr_keys (List.filter probe_failed probes)).

Definition downgrade_outcome (o : option Outcome) (downgraded : bool) : option Outcome :=
  match o, downgraded with
  | Some FullyPortable, true => Some AttributesPreserved
  | other, _ => other
  end.

Definition tally_item (failed : gset AttributeKeys) (t : Tally) (r : ItemReport) : Tally :=
  if is_refused r then record_refused t
  else match downgrade_outcome (outcome r) (bool_decide (attribute_keys r ∈ failed)) with
       | Some o => record_outcome t o
       | None => record_refused t
       end.

Definition tally_with_probes (items : list ItemReport) (probes : list ProbeResult) : Tally :=
  fold_left (tally_item (downgraded_keys probes)) items tally_default.

(** ** The secret-length histogram *)

Definition BUCKET_BOUNDS : list Z := [0; 16; 64; 256; 1024; 16 * 1024; 256 * 1024].
Definition BUCKETS : nat := length BUCKET_BOUNDS + 1.

(** [Histogram] is its counts. *)
Abbreviation Histogram := (list nat).

Definition histogram_new : Histogram := repeat 0%nat BUCKETS.

(** [Vec::resize(n, 0)]. *)
Definition resize0 (n : nat) (l : list nat) : list nat := take n l ++ repeat 0%nat (n - length l).

Definition bucket_of (len : Z) : nat :=
  default (length BUCKET_BOUNDS) (position (fun bound => len <=? bound) BUCKET_BOUNDS).

Definition histogram_add (h : Histogram) (len : Z) : Histogram :=
  let counts := if negb (length h =? BUCKETS)%nat then resize0 BUCKETS h else h in
  alter S (bucket_of len) counts.

Definition of_lengths (lengths : list Z) : Histogram := fold_left histogram_add lengths histogram_new.

Fixpoint rows_go (i : nat) (low : Z) (counts : list nat) : list (str * nat) :=
  match counts with
  | [] => []
  | n :: counts =>
    let label :=
      match BUCKET_BOUNDS !! i with
      | Some high => if high =? 0 then lit "0" else dec low ++ lit "-" ++ dec high
      | None => dec low ++ lit "+"
      end in
    (label, n) :: rows_go (S i) (match BUCKET_BOUNDS !! i with Some b => b + 1 | None => low end) counts
  end.

Definition rows (h : Histogram) : list (str * nat) := rows_go 0 0 h.

Definition histogram_total (h : Histogram) : nat := sum_list h.

Record HistogramDiff : Type := { hd_bucket : str; hd_source : nat; hd_destination : nat }.

Definition compare_histograms (source destination : Histogram) : list HistogramDiff :=
  let src := rows source in
  let dst := rows destination in
  omap (fun i =>
    let s := default 0%nat (snd <$> src !! i) in
    let d := default 0%nat (snd <$> dst !! i) in
    if (s =? d)%nat then None
    else Some {| hd_bucket := default [] (fst <$> or_else (src !! i) (dst !! i)); hd_source := s; hd_destination := d |})
    (seq 0 (Nat.max (length src) (length dst))).

(** [Deserialize for Histogram], from the decoded counts. *)
Definition histogram_deserialize (counts : list nat) : result Histogram nat :=
  match counts with
  | [] => Ok histogram_new
  | _ => if negb (length counts =? BUCKETS)%nat then Err (length counts) else Ok counts
  end.

(** ** The whole verification *)

Record Verification : Type := {
  v_count : CountCheck;
  fingerprint_mismatches : list FingerprintMismatch;
  fingerprints_compared : option nat;
  hash_table_misses : list HashMiss;
  v_unlisted : list UnlistedEntry;
  hash_table_checked : option nat;
  probes : ProbeSummary;
  failed_probes : list ProbeResult;
  source_lengths : Histogram;
  destination_lengths : option Histogram;
  length_differences : list HistogramDiff
}.

Definition no_elements {A} (l : list A) : bool := match l with [] => true | _ => false end.

Definition verification_passed (v : Verification) : bool :=
  count_passed (v_count v)
  && no_elements (fingerprint_mismatches v)
  && no_elements (hash_table_misses v)
  && (ps_failed (probes v) =? 0)%nat
  && no_elements (length_differences v).

Definition unproved (v : Verification) : list str :=
  (if count_made (v_count v) then [] else [lit "the source header gave no independent item count"])
  ++ (if no_elements (v_unlisted v) then []
      else [dec (zlen (v_unlisted v)) ++ lit " file entries were never listed by the source and were not migrated, so completeness is unproved"])
  ++ (match fingerprints_compared v with
      | None => [lit "no destination was written, so no fingerprint was compared"] | Some _ => [] end)
  ++ (if (ps_total (probes v) =? 0)%nat
      then [lit "no attribute set was probed, so no lookup was proved against a running daemon"]
      else if (0 <? ps_not_issued (probes v))%nat
      then [dec (Z.of_nat (ps_not_issued (probes v))) ++ lit " of " ++ dec (Z.of_nat (ps_total (probes v)))
            ++ lit " lookup probes were not issued, so discoverability is unproved"]
      else []).
