(* ===== verification/VerifyProps.v ===== *)
(** * What the verification of an import proves ([src/import/verify.rs])

    A fingerprint identifies an item unless SHA-256 collides; the comparison
    reports exactly the multiset difference of the two sides; the index lookup
    agrees with the linear scan it replaces; the count reconciles exactly when
    every walked entry is in the file; the probes expect what a faithful copy
    answers; and a histogram counts each length once. *)
From S2P Require Import Prelude Text Env Crypto Codec Format Import Formats Verify.

(** ** Fingerprints *)

Definition stream (bl : list bytes) : bytes := flat_map prefixed bl.
Definition fits (b : bytes) : Prop := zlen b <= u64_max.

Lemma stream_app a b : stream (a ++ b) = stream a ++ stream b.
Proof. apply flat_map_app. Qed.

Lemma stream_cons x a : stream (x :: a) = prefixed x ++ stream a.
Proof. done. Qed.

Lemma length_prefixed b : length (prefixed b) = (8 + length b)%nat.
Proof. unfold prefixed. by rewrite length_app, length_to_be_bytes. Qed.

Lemma prefixed_inj a b x y : fits a -> fits b -> prefixed a ++ x = prefixed b ++ y -> a = b /\ x = y.
Proof.
  unfold prefixed, fits. intros Ha Hb E. rewrite <- !app_assoc in E.
  apply app_inj_length in E as [El E]; [|by rewrite !length_to_be_bytes].
  assert (Hab : zlen a = zlen b).
  { apply (f_equal from_be_bytes) in El. pose proof (zlen_nonneg a). pose proof (zlen_nonneg b).
    unfold u64_max in *. rewrite !from_to_be_bytes in El; [done|change (256 ^ Z.of_nat 8) with 18446744073709551616; lia..]. }
  apply app_inj_length in E; [done|]. unfold zlen in Hab. lia.
Qed.

(** A stream of length-prefixed blocks has one reading. *)
Lemma stream_inj a b : Forall fits a -> Forall fits b -> stream a = stream b -> a = b.
Proof.
  intros Ha. revert b. induction Ha as [|x a Hx _ IH]; intros [|y b] Hb E; [done| | |].
  - apply (f_equal length) in E. rewrite stream_cons, length_app, length_prefixed in E. discriminate E.
  - apply (f_equal length) in E. rewrite stream_cons, length_app, length_prefixed in E. discriminate E.
  - inversion Hb; subst. rewrite !stream_cons in E. apply prefixed_inj in E as [-> E]; [|done..]. f_equal. by apply IH.
Qed.

(** The blocks of a map: each key, then its value. *)
Definition attr_blocks (l : list (str * str)) : list bytes := flat_map (fun '(k, v) => [utf8 k; utf8 v]) l.

Lemma canonical_attrs_stream m : canonical_attrs m = stream (attr_blocks (btree_iter m)).
Proof.
  unfold canonical_attrs. induction (btree_iter m) as [|[k v] l IH]; [done|].
  cbn [flat_map]. rewrite IH. unfold attr_blocks, stream. cbn [flat_map app]. by rewrite <- app_assoc.
Qed.

Definition pairs_wf (l : list (str * str)) : Prop :=
  Forall (fun kv => str_wf kv.1 /\ str_wf kv.2 /\ fits (utf8 kv.1) /\ fits (utf8 kv.2)) l.

Lemma attr_blocks_fits l : pairs_wf l -> Forall fits (attr_blocks l).
Proof. induction 1 as [|[k v] l (_ & _ & Hk & Hv) _ IH]; [done|]. cbn. by repeat constructor. Qed.

Lemma attr_blocks_inj a b : pairs_wf a -> pairs_wf b -> attr_blocks a = attr_blocks b -> a = b.
Proof.
  intros Ha. revert b. induction Ha as [|[k v] a (Hk & Hv & _) _ IH]; intros [|[k' v'] b] Hb E; try done.
  inversion Hb as [|?? (Hk' & Hv' & _) Hb']; subst. cbn in *. injection E as E1 E2 E3.
  apply utf8_inj in E1 as ->; [|done..]. apply utf8_inj in E2 as ->; [|done..]. f_equal. by apply IH.
Qed.

Lemma btree_iter_inj (m m' : gmap str str) : btree_iter m = btree_iter m' -> m = m'.
Proof.
  intros E. apply map_eq. intros k. apply option_eq. intros v. by rewrite <- !elem_of_btree_iter, E.
Qed.

(** The text of an item is within what a [usize] can measure. *)
Definition item_fits (attrs : gmap str str) (label content_type : str) : Prop :=
  pairs_wf (btree_iter attrs) /\ str_wf label /\ str_wf content_type
  /\ fits (utf8 label) /\ fits (utf8 content_type).

Lemma fingerprint_preimage_inj `{PrimsOk} a l c s a' l' c' s' :
  item_fits a l c -> item_fits a' l' c' ->
  fingerprint_preimage a l c s = fingerprint_preimage a' l' c' s' ->
  a = a' /\ l = l' /\ c = c' /\ sha256 s = sha256 s'.
Proof.
  intros (Ha & Hl & Hc & Fl & Fc) (Ha' & Hl' & Hc' & Fl' & Fc') E. unfold fingerprint_preimage in E.
  rewrite !app_assoc in E. apply app_inj_2 in E as [E Es]; [|by rewrite !sha256_length].
  rewrite <- !app_assoc, !canonical_attrs_stream in E.
  assert (Hs : forall bl x y, stream bl ++ prefixed x ++ prefixed y = stream (bl ++ [x; y])).
  { intros bl x y. rewrite stream_app. unfold stream. cbn. by rewrite app_nil_r. }
  rewrite !Hs in E. apply stream_inj in E;
    [|apply Forall_app; split; [by apply attr_blocks_fits|by repeat constructor]..].
  apply app_inj_2 in E as [E [= E1 E2]]; [|done].
  apply attr_blocks_inj in E; [|done..]. apply btree_iter_inj in E as ->.
  apply utf8_inj in E1 as ->; [|done..]. by apply utf8_inj in E2 as ->.
Qed.

(** ** Comparing fingerprints *)

(** How many entries of a side carry a fingerprint. *)
Definition fp_count (fp : bytes) (l : list FingerprintEntry) : nat :=
  count_if (fun e => bool_decide (fe_fingerprint e = fp)) l.

Lemma fp_count_cons fp e l :
  fp_count fp (e :: l) = ((if bool_decide (fe_fingerprint e = fp) then 1 else 0) + fp_count fp l)%nat.
Proof. unfold fp_count, count_if. simpl. by case_bool_decide. Qed.

Lemma fp_count_app fp l k : fp_count fp (l ++ k) = (fp_count fp l + fp_count fp k)%nat.
Proof. apply count_if_app. Qed.

(** The number a map of counters has for a fingerprint. *)
Definition balance_of (m : gmap bytes nat) (fp : bytes) : nat := default 0%nat (m !! fp).

Lemma left_of_insert m fp n fp' :
  balance_of (<[fp := n]> m) fp' = if bool_decide (fp = fp') then n else balance_of m fp'.
Proof.
  unfold balance_of. case_bool_decide as E.
  - subst. by rewrite lookup_insert_eq.
  - by rewrite lookup_insert_ne.
Qed.

Lemma count_up_fold l m fp : balance_of (fold_left count_up l m) fp = (balance_of m fp + fp_count fp l)%nat.
Proof.
  revert m. induction l as [|e l IH]; intros m; simpl; [unfold fp_count, count_if; simpl; lia|].
  rewrite IH, fp_count_cons. unfold count_up. rewrite left_of_insert. fold (balance_of m (fe_fingerprint e)).
  case_bool_decide; subst; lia.
Qed.

(** The first pass leaves the difference of the counts, and reports the source
    entries that found no partner. *)
Lemma take_partner_fold l m out : exists L,
  (fold_left (take_partner MissingFromDestination) l (m, out)).2 = out ++ map (mismatch MissingFromDestination) L
  /\ sublist L l
  /\ forall fp, fp_count fp L = (fp_count fp l - balance_of m fp)%nat
     /\ balance_of (fold_left (take_partner MissingFromDestination) l (m, out)).1 fp = (balance_of m fp - fp_count fp l)%nat.
Proof.
  revert m out. induction l as [|e l IH]; intros m out.
  - exists []. simpl. rewrite app_nil_r. split; [done|]. split; [constructor|]. intros fp. unfold fp_count, count_if. simpl. lia.
  - cbn [fold_left]. unfold take_partner at 2 4. cbn [fst snd].
    assert (Hl : balance_of m (fe_fingerprint e) = default 0%nat (m !! fe_fingerprint e)) by done.
    destruct (m !! fe_fingerprint e) as [[|n]|] eqn:E; simpl in Hl.
    2: { destruct (IH (<[fe_fingerprint e := n]> m) out) as (L & -> & HL & Hc). exists L.
         split; [done|]. split; [by constructor|]. intros fp. destruct (Hc fp) as [H1 H2].
         rewrite H1, H2, fp_count_cons, left_of_insert. case_bool_decide; subst; lia. }
    all: destruct (IH m (out ++ [mismatch MissingFromDestination e])) as (L & -> & HL & Hc); exists (e :: L);
      (split; [by rewrite <- app_assoc|]); (split; [by constructor|]); intros fp; destruct (Hc fp) as [H1 H2];
      rewrite H2, !fp_count_cons, H1; case_bool_decide; subst; lia.
Qed.

Lemma take_surplus_fold l m out : exists L,
  (fold_left take_surplus l (m, out)).2 = out ++ map (mismatch UnexpectedInDestination) L
  /\ sublist L l /\ forall fp, fp_count fp L = Nat.min (fp_count fp l) (balance_of m fp).
Proof.
  revert m out. induction l as [|e l IH]; intros m out.
  - exists []. simpl. rewrite app_nil_r. split; [done|]. split; [constructor|done].
  - cbn [fold_left]. unfold take_surplus at 2. cbn [fst snd].
    assert (Hl : balance_of m (fe_fingerprint e) = default 0%nat (m !! fe_fingerprint e)) by done.
    destruct (m !! fe_fingerprint e) as [[|n]|] eqn:E; simpl in Hl.
    2: { destruct (IH (<[fe_fingerprint e := n]> m) (out ++ [mismatch UnexpectedInDestination e])) as (L & -> & HL & Hc).
         exists (e :: L). split; [by rewrite <- app_assoc|]. split; [by constructor|]. intros fp.
         rewrite !fp_count_cons, Hc, left_of_insert. case_bool_decide; subst; lia. }
    all: destruct (IH m out) as (L & -> & HL & Hc); exists L; (split; [done|]); (split; [by constructor|]);
      intros fp; rewrite Hc, fp_count_cons; case_bool_decide; subst; lia.
Qed.

Lemma left_of_filter m fp : balance_of (filter (fun kv : bytes * nat => (0 < kv.2)%nat) m) fp = balance_of m fp.
Proof.
  unfold balance_of. destruct (m !! fp) as [n|] eqn:E.
  - destruct (decide (0 < n)%nat).
    + by erewrite map_lookup_filter_Some_2.
    + rewrite map_lookup_filter_None_2; [simpl; lia|]. right. intros n' E'. simplify_eq/=. lia.
  - rewrite map_lookup_filter_None_2; [done|by left].
Qed.

Lemma compare_fingerprints_spec source destination : exists L1 L2,
  compare_fingerprints source destination
    = map (mismatch MissingFromDestination) L1 ++ map (mismatch UnexpectedInDestination) L2
  /\ sublist L1 source /\ sublist L2 destination
  /\ forall fp, fp_count fp L1 = (fp_count fp source - fp_count fp destination)%nat
                /\ fp_count fp L2 = (fp_count fp destination - fp_count fp source)%nat.
Proof.
  unfold compare_fingerprints.
  destruct (take_partner_fold source (fold_left count_up destination ∅) []) as (L1 & E1 & S1 & C1).
  set (st := fold_left (take_partner MissingFromDestination) source _) in *.
  destruct (take_surplus_fold destination (filter (fun kv => (0 < kv.2)%nat) st.1) st.2) as (L2 & E2 & S2 & C2).
  exists L1, L2. rewrite E2, E1. split; [done|]. split; [done|]. split; [done|]. intros fp.
  destruct (C1 fp) as [H1 H2]. rewrite C2, left_of_filter, H2, H1, count_up_fold.
  replace (balance_of ∅ fp) with 0%nat by done. lia.
Qed.

Definition bytes_eq_dec (a b : bytes) : {a = b} + {a <> b} := decide (a = b).

Lemma fp_counts_nil L : (forall fp, fp_count fp L = 0%nat) -> L = [].
Proof.
  destruct L as [|e L]; [done|]. intros H. specialize (H (fe_fingerprint e)).
  rewrite fp_count_cons, bool_decide_eq_true_2 in H by done. lia.
Qed.

Lemma fp_count_occ fp l : fp_count fp l = count_occ bytes_eq_dec (map fe_fingerprint l) fp.
Proof.
  induction l as [|e l IH]; [done|]. rewrite fp_count_cons, IH. simpl.
  destruct (bytes_eq_dec (fe_fingerprint e) fp); case_bool_decide; done.
Qed.

Lemma compare_fingerprints_nil source destination :
  compare_fingerprints source destination = [] <->
  map fe_fingerprint source ≡ₚ map fe_fingerprint destination.
Proof.
  rewrite (Permutation_count_occ bytes_eq_dec).
  destruct (compare_fingerprints_spec source destination) as (L1 & L2 & -> & _ & _ & Hc). split.
  - intros [E1%map_eq_nil E2%map_eq_nil]%app_eq_nil fp. subst. destruct (Hc fp) as [H1 H2].
    rewrite <- !fp_count_occ. unfold fp_count, count_if in *. simpl in *. lia.
  - intros Hp. rewrite (fp_counts_nil L1), (fp_counts_nil L2); [done| |];
      intros fp; destruct (Hc fp) as [H1 H2]; specialize (Hp fp); rewrite <- !fp_count_occ in Hp; lia.
Qed.

(** ** The wallet's hash table *)

Definition index_pairs (inv : WalletInventory) : list (Md5Hash * Md5Hash) :=
  flat_map (fun f => map (fun e => (folder_hash f, e)) (entry_hashes f)) (folders inv).

Lemma contains_entry_spec inv fh eh : contains_entry inv fh eh = true <-> (fh, eh) ∈ index_pairs inv.
Proof.
  unfold contains_entry, index_pairs. rewrite existsb_exists, list_elem_of_In, in_flat_map. split.
  - intros (f & [Hf Hfh%bool_decide_eq_true]%filter_In & (e & He & Hee%bool_decide_eq_true)%existsb_exists).
    exists f. split; [done|]. apply in_map_iff. exists e. by subst.
  - intros (f & Hf & (e & [= <- <-] & He)%in_map_iff). exists f. split.
    + apply filter_In. split; [done|by apply bool_decide_eq_true].
    + apply existsb_exists. exists e. split; [done|by apply bool_decide_eq_true].
Qed.

Lemma hash_index_spec inv p : p ∈ hash_index inv <-> p ∈ index_pairs inv.
Proof. unfold hash_index. by rewrite elem_of_list_to_set. Qed.

Lemma entry_count_pairs inv : entry_count inv = length (index_pairs inv).
Proof.
  unfold entry_count, index_pairs. induction (folders inv) as [|f l IH]; [done|].
  cbn [map flat_map]. rewrite length_app, length_map. cbn [sum_list]. by rewrite <- IH.
Qed.

(** ** The count *)

Lemma flat_map_filter_length {A B} (f : A -> list B) (p : A -> bool) l :
  (forall x, length (f x) = if p x then 1%nat else 0%nat) -> length (flat_map f l) = count_if p l.
Proof.
  intros H. induction l as [|x l IH]; [done|]. simpl. rewrite length_app, H, IH. unfold count_if. simpl.
  by destruct (p x).
Qed.

Lemma unlisted_length inv items accounted keys :
  length (unlisted_wallet_entries inv items accounted keys)
  = count_if (fun p => negb (bool_decide (p ∈ walked_pairs items accounted))) (index_pairs inv).
Proof.
  unfold unlisted_wallet_entries, index_pairs. set (W := walked_pairs items accounted).
  induction (folders inv) as [|f l IH]; [done|]. cbn [flat_map]. rewrite length_app, IH, count_if_app. f_equal.
  clear IH. induction (entry_hashes f) as [|e es IH]; [done|]. cbn [flat_map map].
  rewrite length_app, IH. unfold count_if at 2. simpl.
  destruct (bool_decide ((folder_hash f, e) ∈ W)); simpl; [done|].
  by destruct (resolve_unlisted (folder_hash f, e) (resolve_table keys)).
Qed.

Lemma count_if_split {A} (p : A -> bool) l : (count_if p l + count_if (fun x => negb (p x)) l = length l)%nat.
Proof. unfold count_if. induction l as [|x l IH]; simpl; [done|]. destruct (p x); simpl; lia. Qed.

(** Two duplicate-free lists share as many elements either way round. *)
Lemma count_if_inter {A} `{Countable A} (l k : list A) : NoDup l -> NoDup k ->
  count_if (fun x => bool_decide (x ∈ (list_to_set k : gset A))) l
  = count_if (fun x => bool_decide (x ∈ (list_to_set l : gset A))) k.
Proof.
  assert (Hone : forall a b : list A, NoDup a -> NoDup b ->
    (count_if (fun x => bool_decide (x ∈ (list_to_set b : gset A))) a
     <= count_if (fun x => bool_decide (x ∈ (list_to_set a : gset A))) b)%nat).
  { intros a b Ha Hb. unfold count_if. apply NoDup_incl_length; [by apply List.NoDup_filter, NoDup_ListNoDup|].
    intros x [Hx Hxb%bool_decide_eq_true]%filter_In. apply elem_of_list_to_set, list_elem_of_In in Hxb.
    apply filter_In. split; [done|]. apply bool_decide_eq_true, elem_of_list_to_set. by apply list_elem_of_In. }
  intros Hl Hk. pose proof (Hone l k Hl Hk). pose proof (Hone k l Hk Hl). lia.
Qed.

Lemma count_if_all {A} (p : A -> bool) l : count_if p l = length l <-> forall x, x ∈ l -> p x = true.
Proof.
  unfold count_if. induction l as [|x l IH]; [split; [set_solver|done]|]. simpl.
  pose proof (List.filter_length_le p l). destruct (p x) eqn:E; simpl.
  - rewrite Nat.succ_inj_wd, IH. set_solver.
  - split; [lia|]. intros H'. specialize (H' x). rewrite E in H'. discriminate H'. set_solver.
Qed.

(** The count passes exactly when every walked pair is in the index. *)
Lemma count_reconciles inv items accounted keys pairs :
  map provenance_pair (map si_provenance items ++ accounted) = map Some pairs ->
  NoDup pairs -> NoDup (index_pairs inv) ->
  (count_if (fun p => bool_decide (p ∈ (list_to_set (index_pairs inv) : gset (Md5Hash * Md5Hash)))) pairs
    + length (unlisted_wallet_entries inv items accounted keys))%nat = entry_count inv.
Proof.
  intros Hp Hnp Hni. assert (Hw : walked_pairs items accounted = list_to_set pairs).
  { unfold walked_pairs. f_equal. revert Hp. generalize (map si_provenance items ++ accounted).
    intros l. revert pairs Hnp. induction l as [|p l IH]; intros [|q qs] Hnp E; try done.
    cbn [map] in E. injection E as E1 E2. cbn [omap list_omap]. rewrite E1. f_equal.
    apply IH; [by inversion Hnp|done]. }
  rewrite unlisted_length, Hw, entry_count_pairs, count_if_inter by done. apply count_if_split.
Qed.

(** ** Naming an unlisted entry *)

Lemma slash_splits_spec key a b : (a, b) ∈ slash_splits key <-> key = a ++ 47 :: b.
Proof.
  revert a b. induction key as [|x s IH]; intros a b; simpl.
  - split; [set_solver|]. by destruct a.
  - rewrite elem_of_app, list_elem_of_fmap. split.
    + intros [H|([a' b'] & [= -> ->] & H%IH)].
      * destruct (Z.eqb_spec x 47); [|set_solver]. apply list_elem_of_singleton in H as [= -> ->]. by subst.
      * by subst.
    + destruct a as [|y a]; intros [= -> ->].
      * left. simpl. set_solver.
      * right. exists (a, b). split; [done|]. by apply IH.
Qed.

(** A reading of a sidecar key: one of its splits, or no folder at all. *)
Definition reads_as (key : str) (s : str * str) : Prop := key = s.1 ++ 47 :: s.2 \/ s = ([], key).

Definition table_ok (keys : list str) (t : name_table) : Prop :=
  forall pair s, t !! pair = Some s -> name_pair s.1 s.2 = pair /\ exists key, key ∈ keys /\ reads_as key s.

Lemma add_split_ok keys t s : table_ok keys t -> (exists key, key ∈ keys /\ reads_as key s) ->
  table_ok keys (add_split t s) /\ is_Some (add_split t s !! name_pair s.1 s.2)
  /\ forall p, is_Some (t !! p) -> is_Some (add_split t s !! p).
Proof.
  intros Ht Hs. unfold add_split. destruct (t !! name_pair s.1 s.2) eqn:E; [rewrite E; by eauto|].
  split; [|split; [rewrite lookup_insert_eq; eauto|intros p Hp; apply lookup_insert_is_Some'; by right]].
  intros pair s' Hl. destruct (decide (name_pair s.1 s.2 = pair)) as [<-|Hne].
  - rewrite lookup_insert_eq in Hl. simplify_eq. done.
  - rewrite lookup_insert_ne in Hl by done. by apply Ht.
Qed.

Lemma add_splits_ok keys l t : table_ok keys t -> (forall s, s ∈ l -> exists key, key ∈ keys /\ reads_as key s) ->
  table_ok keys (fold_left add_split l t)
  /\ (forall s, s ∈ l -> is_Some (fold_left add_split l t !! name_pair s.1 s.2))
  /\ forall p, is_Some (t !! p) -> is_Some (fold_left add_split l t !! p).
Proof.
  revert t. induction l as [|s l IH]; intros t Ht Hl; simpl; [set_solver|].
  destruct (add_split_ok keys t s Ht (Hl s ltac:(set_solver))) as (H1 & H2 & H3).
  destruct (IH (add_split t s) H1 ltac:(set_solver)) as (K1 & K2 & K3).
  split; [done|]. split; [|auto]. intros s' [->|Hs']%elem_of_cons; auto.
Qed.

Lemma key_reads key s : s ∈ slash_splits key ++ [([], key)] <-> reads_as key s.
Proof.
  destruct s as [a b]. unfold reads_as. rewrite elem_of_app, slash_splits_spec, list_elem_of_singleton. done.
Qed.

Lemma add_key_ok keys t key : table_ok keys t -> key ∈ keys ->
  table_ok keys (add_key t key)
  /\ ((length (slash_splits key) + 1 <= MAX_SPLITS_PER_KEY)%nat ->
      forall s, reads_as key s -> is_Some (add_key t key !! name_pair s.1 s.2))
  /\ forall p, is_Some (t !! p) -> is_Some (add_key t key !! p).
Proof.
  intros Ht Hk. unfold add_key.
  destruct (Nat.ltb_spec MAX_SPLITS_PER_KEY (length (slash_splits key) + 1)).
  - split; [done|]. split; [lia|done].
  - destruct (add_splits_ok keys (slash_splits key ++ [([], key)]) t Ht) as (K1 & K2 & K3).
    { intros s Hs. exists key. split; [done|]. by apply key_reads. }
    split; [done|]. split; [|done]. intros _ s Hs. apply K2. by apply key_reads.
Qed.

Lemma resolve_table_ok keys : table_ok keys (resolve_table keys)
  /\ forall key s, key ∈ keys -> (length (slash_splits key) + 1 <= MAX_SPLITS_PER_KEY)%nat -> reads_as key s ->
     is_Some (resolve_table keys !! name_pair s.1 s.2).
Proof.
  unfold resolve_table.
  assert (H : forall l t, (forall key, key ∈ l -> key ∈ keys) -> table_ok keys t ->
    table_ok keys (fold_left add_key l t)
    /\ (forall key s, key ∈ l -> (length (slash_splits key) + 1 <= MAX_SPLITS_PER_KEY)%nat -> reads_as key s ->
          is_Some (fold_left add_key l t !! name_pair s.1 s.2))
    /\ forall p, is_Some (t !! p) -> is_Some (fold_left add_key l t !! p)).
  { induction l as [|k l IH]; intros t Hl Ht; cbn [fold_left]; [set_solver|].
    destruct (add_key_ok keys t k Ht (Hl k ltac:(set_solver))) as (H1 & H2 & H3).
    destruct (IH (add_key t k) ltac:(set_solver) H1) as (K1 & K2 & K3).
    split; [done|]. split; [|auto]. intros key s [->|Hk]%elem_of_cons; eauto. }
  destruct (H keys ∅) as (H1 & H2 & _); [done|by intros ?? ?|]. eauto.
Qed.

(** ** Probes *)

Lemma has_all_spec (q m : gmap str str) : has_all q m = true <-> forall k v, q !! k = Some v -> m !! k = Some v.
Proof.
  unfold has_all. rewrite forallb_forall. split.
  - intros H k v Hk. specialize (H (k, v)). apply bool_decide_eq_true in H; [done|].
    by apply list_elem_of_In, elem_of_btree_iter.
  - intros H [k v] Hk. apply bool_decide_eq_true, H. by apply elem_of_btree_iter, list_elem_of_In.
Qed.

Lemma distinct_attributes_spec items : NoDup (distinct_attributes items)
  /\ forall m, m ∈ distinct_attributes items <-> m <> ∅ /\ exists i, i ∈ items /\ si_attributes i = m.
Proof.
  unfold distinct_attributes. split.
  - rewrite merge_sort_Permutation. apply NoDup_elements.
  - intros m. rewrite merge_sort_Permutation, elem_of_elements, elem_of_list_to_set, list_elem_of_In, filter_In,
      negb_true_iff, bool_decide_eq_false, in_map_iff. setoid_rewrite list_elem_of_In. naive_solver.
Qed.

Lemma probe_summary_counts l : forall s,
  fold_left probe_add l s =
  {| ps_passed := ps_passed s + count_if probe_passed l; ps_failed := ps_failed s + count_if probe_failed l;
     ps_not_issued := ps_not_issued s + count_if (fun r => bool_decide (found r = None)) l |}.
Proof.
  induction l as [|r l IH]; intros s.
  - unfold count_if. simpl. rewrite !Nat.add_0_r. by destruct s.
  - cbn [fold_left]. rewrite IH, !count_if_cons.
    generalize (count_if probe_passed l), (count_if probe_failed l), (count_if (fun r => bool_decide (found r = None)) l).
    intros a b c. unfold probe_add, probe_failed, probe_passed.
    destruct (found r) as [n|]; repeat case_bool_decide; try done; cbn; f_equal; lia.
Qed.

(** ** The tally after the probes *)

Definition downgrade (failed : gset AttributeKeys) (r : ItemReport) : ItemReport :=
  {| ir_provenance := ir_provenance r; ir_label := ir_label r; attribute_keys := attribute_keys r;
     ir_content_type := ir_content_type r;
     outcome := downgrade_outcome (outcome r) (bool_decide (attribute_keys r ∈ failed));
     refusals := refusals r; secret_len := secret_len r; lost_item_type := lost_item_type r;
     unknown_item_type := unknown_item_type r; acl_downgrade := acl_downgrade r;
     epoch_stamped := epoch_stamped r |}.

Lemma tally_item_downgrade failed t r : tally_item failed t r = tally_record t (downgrade failed r).
Proof. done. Qed.

Lemma tally_with_probes_downgrade items ps :
  tally_with_probes items ps = recomputed_tally (map (downgrade (downgraded_keys ps)) items).
Proof.
  unfold tally_with_probes, recomputed_tally. generalize tally_default.
  induction items as [|r l IH]; intros t; [done|]. simpl. by rewrite IH, tally_item_downgrade.
Qed.

Lemma downgrade_idem failed r : downgrade failed (downgrade failed r) = downgrade failed r.
Proof.
  unfold downgrade. cbn. f_equal. destruct (outcome r) as [[]|]; repeat case_bool_decide; done.
Qed.

(** ** The histogram *)

Lemma bucket_lt len : (bucket_of len < BUCKETS)%nat.
Proof.
  unfold bucket_of. destruct (position _ _) as [n|] eqn:E; [|unfold BUCKETS; simpl; lia].
  apply position_lt in E. unfold BUCKETS. simpl in *. lia.
Qed.

Lemma histogram_add_spec h len i : length h = BUCKETS ->
  length (histogram_add h len) = BUCKETS
  /\ default 0%nat (histogram_add h len !! i)
     = (default 0 (h !! i) + if (bucket_of len =? i)%nat then 1 else 0)%nat.
Proof.
  intros Hl. unfold histogram_add. rewrite Hl, Nat.eqb_refl. cbn [negb].
  split; [by rewrite length_alter|]. pose proof (bucket_lt len). destruct (Nat.eqb_spec (bucket_of len) i) as [<-|Hne].
  - rewrite list_lookup_alter_eq. destruct (h !! bucket_of len) eqn:E; simpl; [lia|].
    apply lookup_ge_None in E. lia.
  - rewrite list_lookup_alter_ne by done. lia.
Qed.

Lemma of_lengths_spec l i : length (of_lengths l) = BUCKETS
  /\ default 0%nat (of_lengths l !! i) = count_if (fun n => (bucket_of n =? i)%nat) l.
Proof.
  unfold of_lengths.
  assert (H : forall h, length h = BUCKETS -> length (fold_left histogram_add l h) = BUCKETS
    /\ default 0%nat (fold_left histogram_add l h !! i) = (default 0 (h !! i) + count_if (fun n => (bucket_of n =? i)%nat) l)%nat).
  { induction l as [|n l IH]; intros h Hh; cbn [fold_left].
    - split; [done|]. unfold count_if. simpl. lia.
    - destruct (histogram_add_spec h n i Hh) as [H1 H2]. destruct (IH _ H1) as [K1 K2].
      split; [done|]. rewrite K2, H2. unfold count_if. simpl. destruct (bucket_of n =? i)%nat; simpl; lia. }
  destruct (H histogram_new eq_refl) as [H1 H2]. split; [done|]. rewrite H2.
  assert (default 0%nat (histogram_new !! i) = 0%nat) as ->; [|done].
  unfold histogram_new. destruct (repeat 0%nat BUCKETS !! i) eqn:E; [|done].
  apply list_elem_of_lookup_2, list_elem_of_In, repeat_spec in E. by subst.
Qed.

Lemma rows_go_snd i low counts : map snd (rows_go i low counts) = counts.
Proof. revert i low. induction counts as [|n l IH]; intros i low; [done|]. simpl. by rewrite IH. Qed.

Lemma rows_lookup h i : snd <$> (rows h !! i) = h !! i.
Proof. rewrite <- list_lookup_fmap. unfold rows. change (snd <$> rows_go 0 0 h) with (map snd (rows_go 0 0 h)). by rewrite rows_go_snd. Qed.

Lemma length_rows h : length (rows h) = length h.
Proof. rewrite <- (length_map snd). unfold rows. by rewrite rows_go_snd. Qed.

Lemma omap_nil {A B} (f : A -> option B) l : omap f l = [] <-> forall x, x ∈ l -> f x = None.
Proof.
  induction l as [|x l IH]; [split; [set_solver|done]|]. cbn [omap list_omap].
  destruct (f x) eqn:E; split; try done.
  - intros H. specialize (H x ltac:(set_solver)). congruence.
  - intros Hn y [->|Hy]%elem_of_cons; [done|]. by apply IH.
  - intros H. apply IH. set_solver.
Qed.

Lemma compare_histograms_nil a b : length a = length b -> compare_histograms a b = [] <-> a = b.
Proof.
  intros Hl. unfold compare_histograms. rewrite omap_nil, !length_rows, Hl, Nat.max_id. split.
  - intros H. apply list_eq. intros i. destruct (decide (i < length b)%nat) as [Hi|Hi].
    + specialize (H i). rewrite !rows_lookup in H. assert (Hin : i ∈ seq 0 (length b)) by (apply elem_of_seq; lia).
      specialize (H Hin). destruct (lookup_lt_is_Some_2 a i ltac:(lia)) as [x Hx].
      destruct (lookup_lt_is_Some_2 b i Hi) as [y Hy]. rewrite Hx, Hy in *. simpl in H.
      destruct (Nat.eqb_spec x y); [by subst|done].
    + rewrite !lookup_ge_None_2 by lia. done.
  - intros -> i _. by rewrite Nat.eqb_refl.
Qed.

Lemma compare_of_lengths a b :
  compare_histograms (of_lengths a) (of_lengths b) = [] <->
  forall i, count_if (fun n => (bucket_of n =? i)%nat) a = count_if (fun n => (bucket_of n =? i)%nat) b.
Proof.
  destruct (of_lengths_spec a 0) as [La _]. destruct (of_lengths_spec b 0) as [Lb _].
  rewrite compare_histograms_nil by congruence. split.
  - intros E i. by rewrite <- (proj2 (of_lengths_spec a i)), <- (proj2 (of_lengths_spec b i)), E.
  - intros H. apply list_eq. intros i. specialize (H i).
    rewrite <- (proj2 (of_lengths_spec a i)), <- (proj2 (of_lengths_spec b i)) in H.
    destruct (decide (i < BUCKETS)%nat).
    + destruct (lookup_lt_is_Some_2 (of_lengths a) i ltac:(lia)) as [x Hx].
      destruct (lookup_lt_is_Some_2 (of_lengths b) i ltac:(lia)) as [y Hy]. rewrite Hx, Hy in *. by simpl in H; subst.
    + rewrite !lookup_ge_None_2 by lia. done.
Qed.

(** ** Properties *)

(** A fingerprint identifies an item. Two items with the same fingerprint
    have the same attributes, label, content type and secret, unless SHA-256
    collides on the two preimages or on the two secrets: the length prefixes
    leave the hashed bytes one reading only. *)
Theorem fingerprint_identifies_item (P : Prims) (HP : PrimsOk P) a l c s a' l' c' s' :
  item_fits a l c -> item_fits a' l' c' ->
  (sha256 (fingerprint_preimage a l c s) = sha256 (fingerprint_preimage a' l' c' s') ->
   fingerprint_preimage a l c s = fingerprint_preimage a' l' c' s') ->
  (sha256 s = sha256 s' -> s = s') ->
  fingerprint a l c s = fingerprint a' l' c' s' <-> a = a' /\ l = l' /\ c = c' /\ s = s'.
Proof.
  intros Hf Hf' Hcol Hsec. split; [|by intros (-> & -> & -> & ->)].
  intros (-> & -> & -> & Hs)%Hcol%fingerprint_preimage_inj; [|done..]. by apply Hsec in Hs.
Qed.

Lemma fingerprint_identifies_item_witness :
  @fingerprint sample_prims {[lit "a" := lit "bc"]} (lit "l") (lit "t") [x01]
    = @fingerprint sample_prims {[lit "a" := lit "bc"]} (lit "l") (lit "t") [x01]
  <-> {[lit "a" := lit "bc"]} = ({[lit "a" := lit "bc"]} : gmap str str) /\ lit "l" = lit "l" /\ lit "t" = lit "t" /\ [x01] = [x01].
Proof.
  assert (Hf : item_fits {[lit "a" := lit "bc"]} (lit "l") (lit "t")).
  { unfold item_fits, pairs_wf, fits, str_wf.
    repeat match goal with |- _ /\ _ => split end; apply (bool_decide_unpack _); vm_compute; exact I. }
  apply (fingerprint_identifies_item sample_prims sample_prims_ok); done.
Defined.

(** The comparison reports exactly the difference of the two multisets.
    Its rows are source entries with no partner, in source order, then surplus
    destination entries, in destination order; for every fingerprint there are
    as many of the first as the source has more, and as many of the second as
    the destination has more; so nothing is reported exactly when the two lists
    of fingerprints are permutations of each other. *)
Theorem compare_fingerprints_exact source destination :
  (exists L1 L2,
     compare_fingerprints source destination
       = map (mismatch MissingFromDestination) L1 ++ map (mismatch UnexpectedInDestination) L2
     /\ sublist L1 source /\ sublist L2 destination
     /\ forall fp, fp_count fp L1 = (fp_count fp source - fp_count fp destination)%nat
                   /\ fp_count fp L2 = (fp_count fp destination - fp_count fp source)%nat)
  /\ (compare_fingerprints source destination = [] <->
      map fe_fingerprint source ≡ₚ map fe_fingerprint destination).
Proof. split; [apply compare_fingerprints_spec|apply compare_fingerprints_nil]. Qed.

(** The independent count. With distinct entries in the wallet's index and
    distinct entries walked, refused or skipped, what the walk accounted for
    plus the index entries nothing accounted for is the header's count exactly
    when every accounted entry is in the index: a shortfall in the listing is
    absorbed by the unlisted set, an entry the file does not hold never is. *)
Lemma count_check_reconciles inv items accounted keys pairs :
  map provenance_pair (map si_provenance items ++ accounted) = map Some pairs ->
  NoDup pairs -> NoDup (index_pairs inv) ->
  Z.of_nat (length pairs) + Z.of_nat (length (unlisted_wallet_entries inv items accounted keys)) <= u64_max ->
  count_passed {| cc_header := Some (entry_count inv); walked := length pairs;
                  unlisted := length (unlisted_wallet_entries inv items accounted keys) |} = true
  <-> forall fh eh, (fh, eh) ∈ pairs -> contains_entry inv fh eh = true.
Proof.
  intros Hp Hnp Hni Hmax. pose proof (count_reconciles _ _ _ keys _ Hp Hnp Hni) as Hrec.
  pose proof (count_if_length (fun p => bool_decide (p ∈ (list_to_set (index_pairs inv) : gset (Md5Hash * Md5Hash)))) pairs).
  unfold count_passed. cbn [cc_header walked unlisted]. rewrite (proj2 (Z.leb_le _ _) Hmax), Nat.eqb_eq.
  transitivity (count_if (fun p => bool_decide (p ∈ (list_to_set (index_pairs inv) : gset (Md5Hash * Md5Hash)))) pairs
                = length pairs); [lia|].
  rewrite count_if_all. setoid_rewrite contains_entry_spec. setoid_rewrite bool_decide_eq_true.
  setoid_rewrite elem_of_list_to_set. split; [intros H' fh eh; apply H'|intros H' [fh eh]; apply H'].
Qed.

Definition sample_wallet : WalletInventory :=
  {| wi_cipher := 3; wi_hash := 2;
     folders := [{| folder_hash := md5 (utf8 (lit "f")); entry_hashes := [md5 (utf8 (lit "a")); md5 (utf8 (lit "b"))] |}];
     wi_ciphertext_offset := 0 |}.

(** The set lookup agrees with the linear scan it replaces: an item is
    reported as mangled exactly when it names a folder and an entry whose
    hashes [contains_entry] does not find, in item order. *)
Theorem hash_table_agrees inv items :
  check_wallet_hash_table inv items =
  flat_map (fun i =>
    match provenance_pair (si_provenance i) with
    | Some (fh, eh) => if contains_entry inv fh eh then [] else [{| hm_folder := hex fh; hm_entry := hex eh |}]
    | None => []
    end) items.
Proof.
  unfold check_wallet_hash_table. apply flat_map_ext. intros i.
  destruct (provenance_pair (si_provenance i)) as [[fh eh]|]; [|done].
  destruct (contains_entry inv fh eh) eqn:E.
  - by rewrite bool_decide_eq_true_2 by (apply hash_index_spec, contains_entry_spec; done).
  - rewrite bool_decide_eq_false_2; [done|]. intros H%hash_index_spec%contains_entry_spec. congruence.
Qed.

(** Naming an unlisted entry never guesses. A name given to a pair hashes to
    that pair and is a reading of one of the sidecar's keys (a split at one of
    its slashes, or the whole key with no folder); and every reading of a key
    with fewer than [MAX_SPLITS_PER_KEY] slashes has its pair named. *)
Theorem unlisted_names_sound keys :
  (forall pair f e, resolve_unlisted pair (resolve_table keys) = (Some f, Some e) ->
     name_pair f e = pair /\ exists key, key ∈ keys /\ reads_as key (f, e))
  /\ (forall key f e, key ∈ keys -> (length (slash_splits key) < MAX_SPLITS_PER_KEY)%nat ->
        reads_as key (f, e) ->
        exists f' e', resolve_unlisted (name_pair f e) (resolve_table keys) = (Some f', Some e')).
Proof.
  destruct (resolve_table_ok keys) as [Hs Hc]. unfold resolve_unlisted. split.
  - intros pair f e H. destruct (resolve_table keys !! pair) as [[f' e']|] eqn:E; [|done]. simplify_eq.
    apply (Hs _ _ E).
  - intros key f e Hk Hl Hr. destruct (Hc key (f, e) Hk ltac:(lia) Hr) as [[f' e'] E]. simpl in E. rewrite E. eauto.
Qed.

Lemma unlisted_names_sound_witness :
  reads_as (lit "accounts/3/1") (lit "accounts/3", lit "1")
  /\ exists f' e', resolve_unlisted (name_pair (lit "accounts/3") (lit "1")) (resolve_table [lit "accounts/3/1"])
                   = (Some f', Some e').
Proof.
  split; [left; reflexivity|]. apply (proj2 (unlisted_names_sound [lit "accounts/3/1"]) (lit "accounts/3/1")).
  - apply list_elem_of_singleton. reflexivity.
  - apply Nat.ltb_lt. vm_compute. reflexivity.
  - left. reflexivity.
Defined.

(** The probes expect what a faithful copy answers. The plan has each
    non-empty attribute set of the source once; searching it among items
    carrying the same attributes as the source's, in any order, finds exactly
    the expected number; and a set that finds nothing at all fails. *)
Theorem probes_pass_on_faithful_copy items dst :
  map si_attributes items ≡ₚ dst ->
  (NoDup (map pq_attributes (probe_plan items))
   /\ forall m, m ∈ map pq_attributes (probe_plan items) <->
                m <> ∅ /\ exists i, i ∈ items /\ si_attributes i = m)
  /\ forall q, q ∈ probe_plan items ->
       probe_passed (probe_result q (count_if (has_all (pq_attributes q)) dst)) = true
       /\ probe_passed (probe_result q 0) = false /\ probe_passed (not_issued q) = false.
Proof.
  intros Hdst. destruct (distinct_attributes_spec items) as [Hnd Hel].
  assert (Hmap : map pq_attributes (probe_plan items) = distinct_attributes items).
  { unfold probe_plan. rewrite map_map. apply map_id. }
  rewrite Hmap. split; [done|]. intros q Hq. apply list_elem_of_fmap in Hq as (m & -> & Hm).
  apply Hel in Hm as (Hne & i & Hi & <-). unfold probe_passed, probe_result, not_issued. cbn.
  rewrite <- (count_if_perm _ _ _ Hdst), count_if_map.
  split; [by apply bool_decide_eq_true|]. split; [|done]. apply bool_decide_eq_false. intros [= E].
  apply list_elem_of_In, in_split in Hi as (l1 & l2 & ->).
  rewrite count_if_app, count_if_cons in E.
  assert (has_all (si_attributes i) (si_attributes i) = true) as H by (apply has_all_spec; done).
  rewrite H in E. lia.
Qed.

Lemma probes_pass_on_faithful_copy_witness :
  let i := {| si_label := lit "x"; si_attributes := {[lit "k" := lit "v"]}; si_secret := [x01]; si_content_type := [];
              si_created := 0; si_modified := 0; si_provenance := provenance_gnome (lit "Login") 7; inserted_keys := ∅ |} in
  length (probe_plan [i; i]) = 1%nat
  /\ forall q, q ∈ probe_plan [i; i] ->
       probe_passed (probe_result q (count_if (has_all (pq_attributes q)) [si_attributes i; si_attributes i])) = true
       /\ probe_passed (probe_result q 0) = false /\ probe_passed (not_issued q) = false.
Proof.
  intros i. split; [vm_compute; reflexivity|].
  exact (proj2 (probes_pass_on_faithful_copy [i; i] [si_attributes i; si_attributes i] ltac:(reflexivity))).
Defined.

(** Applying the probes' verdict keeps the report in step with itself. The
    tally with the probes is the tally of the downgraded items, so a report of
    the downgraded items with that tally is accepted when read back; the
    verdict never changes how many items were written or refused, and only
    moves items from fully portable to attributes preserved. *)
Theorem probed_tally_agrees items ps rep :
  let failed := downgraded_keys ps in
  let probed := map (downgrade failed) items in
  tally_with_probes items ps = recomputed_tally probed
  /\ tally_with_probes probed ps = recomputed_tally probed
  /\ tally_imported (tally_with_probes items ps) = tally_imported (recomputed_tally items)
  /\ refused (tally_with_probes items ps) = refused (recomputed_tally items)
  /\ preserved_only (tally_with_probes items ps) = preserved_only (recomputed_tally items)
  /\ (fully_portable (tally_with_probes items ps) <= fully_portable (recomputed_tally items))%nat
  /\ import_report_deserialize
       {| ir_source := ir_source rep; collection := collection rep; tally := tally_with_probes probed ps;
          ir_items := probed; empty_folders := empty_folders rep; header_item_count := header_item_count rep;
          epoch_stamped_items := recomputed_epoch_stamped probed |}
     = Ok {| ir_source := ir_source rep; collection := collection rep; tally := tally_with_probes probed ps;
             ir_items := probed; empty_folders := empty_folders rep; header_item_count := header_item_count rep;
             epoch_stamped_items := recomputed_epoch_stamped probed |}.
Proof.
  intros failed probed. pose proof (tally_with_probes_downgrade items ps) as E1. fold failed probed in E1.
  pose proof (tally_with_probes_downgrade probed ps) as E2. fold failed in E2.
  assert (map (downgrade failed) probed = probed) as Hid.
  { unfold probed. rewrite map_map. apply map_ext. apply downgrade_idem. }
  rewrite Hid in E2. split; [done|]. split; [done|]. rewrite E1.
  assert (Hone : forall t t' r, tally_imported t = tally_imported t' -> refused t = refused t' ->
    preserved_only t = preserved_only t' -> (fully_portable t <= fully_portable t')%nat ->
    let u := tally_record t (downgrade failed r) in let u' := tally_record t' r in
    tally_imported u = tally_imported u' /\ refused u = refused u' /\ preserved_only u = preserved_only u'
    /\ (fully_portable u <= fully_portable u')%nat).
  { intros t t' r. unfold tally_record, downgrade, is_refused, tally_imported. cbn.
    destruct (refusals r); [|cbn; lia]. destruct (outcome r) as [[]|]; case_bool_decide; cbn; lia. }
  assert (Hall : forall l, let u := recomputed_tally (map (downgrade failed) l) in let u' := recomputed_tally l in
    tally_imported u = tally_imported u' /\ refused u = refused u' /\ preserved_only u = preserved_only u'
    /\ (fully_portable u <= fully_portable u')%nat).
  { induction l as [|r l IH] using rev_ind; [done|]. rewrite map_app. cbn [map]. rewrite !recomputed_tally_app.
    destruct IH as (H1 & H2 & H3 & H4). by apply Hone. }
  destruct (Hall items) as (H1 & H2 & H3 & H4). repeat (split; [done|]).
  apply import_report_deserialize_Ok. split; [done|]. by split.
Qed.

(** A histogram counts every length once, in its bucket; two histograms
    differ exactly in the buckets where the two sides have different numbers of
    secrets, and in no bucket when the secrets are the same up to order. *)
Theorem histogram_exact a b i :
  default 0%nat (of_lengths a !! i) = count_if (fun n => (bucket_of n =? i)%nat) a
  /\ (forall n, (bucket_of n < BUCKETS)%nat)
  /\ (compare_histograms (of_lengths a) (of_lengths b) = [] <->
      forall i, count_if (fun n => (bucket_of n =? i)%nat) a = count_if (fun n => (bucket_of n =? i)%nat) b)
  /\ (a ≡ₚ b -> compare_histograms (of_lengths a) (of_lengths b) = []).
Proof.
  split; [apply of_lengths_spec|]. split; [apply bucket_lt|]. split; [apply compare_of_lengths|].
  intros Hp. apply compare_of_lengths. intros j. by apply count_if_perm.
Qed.

Lemma histogram_exact_witness :
  [5; 300] ≡ₚ [300; 5] /\ compare_histograms (of_lengths [5; 300]) (of_lengths [300; 5]) = [].
Proof.
  split; [apply Permutation_swap|]. apply (proj2 (proj2 (proj2 (histogram_exact [5; 300] [300; 5] 0)))).
  apply Permutation_swap.
Defined.

(** *** MD5 *)

Lemma md5_pad_spec fuel msg : (56 - Z.of_nat (length msg)) mod 64 < Z.of_nat fuel ->
  Z.of_nat (length (md5_pad fuel msg)) mod 64 = 56
  /\ exists k, md5_pad fuel msg = msg ++ repeat x00 k /\ Z.of_nat k = (56 - Z.of_nat (length msg)) mod 64.
Proof.
  revert msg. induction fuel as [|fuel IH]; intros msg Hf; [pose proof (Z.mod_pos_bound (56 - Z.of_nat (length msg)) 64); lia|].
  cbn [md5_pad]. destruct (Nat.eqb_spec (length msg mod 64) 56) as [E|E].
  - assert (Z.of_nat (length msg) mod 64 = 56) as Hm
      by (apply (f_equal Z.of_nat) in E; by rewrite Nat2Z.inj_mod in E).
    split; [done|]. exists 0%nat. rewrite app_nil_r. split; [done|].
    rewrite Zminus_mod, Hm. done.
  - assert (Hne : Z.of_nat (length msg) mod 64 <> 56) by (intros Hm; apply E; apply Nat2Z.inj; by rewrite Nat2Z.inj_mod).
    assert (Hk : (56 - Z.of_nat (length (msg ++ [x00]))) mod 64 = (56 - Z.of_nat (length msg)) mod 64 - 1).
    { rewrite length_app. simpl length. pose proof (Z.mod_pos_bound (56 - Z.of_nat (length msg)) 64 eq_refl) as Hb.
      pose proof (Z.div_mod (56 - Z.of_nat (length msg)) 64 ltac:(lia)) as Hd.
      symmetry. apply (Z.mod_unique _ _ ((56 - Z.of_nat (length msg)) / 64)); [|lia].
      left. split; [|lia]. destruct (decide ((56 - Z.of_nat (length msg)) mod 64 = 0)) as [H0|]; [|lia].
      exfalso. apply Hne. symmetry. apply (Z.mod_unique _ _ (- ((56 - Z.of_nat (length msg)) / 64))); lia. }
    destruct (IH (msg ++ [x00])) as (H1 & k & H2 & H3); [lia|]. split; [done|].
    exists (S k). rewrite H2, <- app_assoc. split; [done|]. lia.
Qed.

(** The message MD5 digests: the bytes, the marker, the zeros the padding loop
    adds in at most 63 rounds, and the bit length, filling whole blocks; and
    the digest is sixteen bytes. *)
Theorem md5_message_padded bs :
  (exists k, md5_message bs = bs ++ [x80] ++ repeat x00 k ++ to_le_bytes 8 ((zlen bs * 8) mod (u64_max + 1))
             /\ (k < 64)%nat)
  /\ Z.of_nat (length (md5_message bs)) mod 64 = 0
  /\ length (md5 bs) = 16%nat.
Proof.
  destruct (md5_pad_spec 64 (bs ++ [x80])) as (Hm & k & Hk & Hkz).
  { pose proof (Z.mod_pos_bound (56 - Z.of_nat (length (bs ++ [x80]))) 64). lia. }
  unfold md5_message. split.
  - exists k. rewrite Hk, <- !app_assoc. split; [done|].
    pose proof (Z.mod_pos_bound (56 - Z.of_nat (length (bs ++ [x80]))) 64). lia.
  - split.
    + rewrite length_app, length_to_le_bytes, Nat2Z.inj_add, <- Zplus_mod_idemp_l, Hm. done.
    + unfold md5. destruct (fold_left _ _ _) as [[[a b] c] d]. by rewrite !length_app, !length_to_le_bytes.
Qed.

(** The RFC 1321 test vectors. *)
Example md5_rfc_empty : hex (md5 []) = lit "d41d8cd98f00b204e9800998ecf8427e".
Proof. vm_compute. reflexivity. Qed.
Example md5_rfc_abc : hex (md5 (utf8 (lit "abc"))) = lit "900150983cd24fb0d6963f7d28e17f72".
Proof. vm_compute. reflexivity. Qed.
Example md5_rfc_long :
  hex (md5 (utf8 (lit "12345678901234567890123456789012345678901234567890123456789012345678901234567890")))
  = lit "57edf4a22be3c955ac49da2e2107b67a".
Proof. vm_compute. reflexivity. Qed.
