(* ===== verification/KWallet.v ===== *)
(** * KWallet: decoding and mapping an entry ([src/import/kwallet.rs])

    Entry types, the attribute sidecar, the [QDataStream] decoders and the
    mapping of one entry to a [SourceItem].  serde_json is another crate: a
    sidecar arrives as the sequence of root members it yields
    ([SidecarRoot]), values are its [Value] type, and rendering a map as JSON
    is the parameter [JsonText].  Zeroization does not change what is computed
    and is not modelled. *)
From S2P Require Import Prelude Text Env Crypto Format Import Formats.

Definition MAX_SIDECAR_ROWS : Z := 100000.
Definition MAX_MAP_ENTRIES : Z := 4096.

Definition FDO_CREATED : str := lit "$fdo_created".
Definition FDO_MODIFIED : str := lit "$fdo_modified".
Definition FDO_MIME_TYPE : str := lit "$fdo_mime_type".
Definition FDO_ATTRIBUTES : str := lit "attributes".
Definition CT_PASSWORD : str := lit "text/plain".
Definition CT_STREAM : str := lit "application/octet-stream".
Definition CT_MAP : str := lit "application/json".

(** ** Entry types *)

Inductive EntryType : Type := TUnknown | TPassword | TStream | TMap | TOther (n : Z).

#[global] Instance EntryType_eq_dec : EqDecision EntryType.
Proof. solve_decision. Defined.

Definition from_code (code : Z) : EntryType :=
  if code =? 0 then TUnknown else if code =? 1 then TPassword else if code =? 2 then TStream
  else if code =? 3 then TMap else TOther code.

Definition code (t : EntryType) : Z :=
  match t with TUnknown => 0 | TPassword => 1 | TStream => 2 | TMap => 3 | TOther n => n end.

(** [i32::to_string]. *)
Definition dec_i32 (n : Z) : str := if n <? 0 then 45 :: dec (- n) else dec n.

Definition attribute_value (t : EntryType) : str :=
  match t with
  | TUnknown => lit "unknown"
  | TPassword => lit "password"
  | TStream => lit "stream"
  | TMap => lit "map"
  | TOther n => dec_i32 n
  end.

Definition default_content_type (t : EntryType) : str :=
  match t with
  | TPassword => CT_PASSWORD
  | TMap => CT_MAP
  | TStream | TUnknown | TOther _ => CT_STREAM
  end.

(** ** The sidecar *)

(** serde_json's [Value]; a number is what [as_u64] says of it. *)
Inductive json : Type :=
| JNull
| JBool (b : bool)
| JNumber (as_u64 : option Z)
| JString (s : str)
| JArray (l : list json)
| JObject (m : list (str * json)).

Record SidecarEntry : Type := {
  sc_created : option Z;
  sc_modified : option Z;
  sc_content_type : option str;
  sc_attributes : gmap str str;
  malformed_fields : nat
}.

Record Sidecar : Type := {
  sc_entries : gmap str SidecarEntry;
  skipped_rows : nat;
  duplicate_keys : list str
}.

Definition sidecar_empty : Sidecar := {| sc_entries := ∅; skipped_rows := 0; duplicate_keys := [] |}.

(** [s.parse::<u64>()]: an optional plus sign and at least one digit, in range. *)
Fixpoint parse_digits (acc : Z) (s : str) : option Z :=
  match s with
  | [] => Some acc
  | c :: s =>
    if is_ascii_digit c then
      let n := acc * 10 + (c - 48) in
      if n <=? u64_max then parse_digits n s else None
    else None
  end.

Definition parse_u64 (s : str) : option Z :=
  match s with
  | [] => None
  | 43 :: [] => None
  | 43 :: r => parse_digits 0 r
  | _ => parse_digits 0 s
  end.

(** A map of a parsed object: the last of repeated members, as serde_json's
    own map keeps it. *)
Definition json_get (m : list (str * json)) (k : str) : option json :=
  (list_to_map (rev m) : gmap str json) !! k.

(** One timestamp field: its value and how many fields were malformed. *)
Definition timestamp (row : list (str * json)) (field : str) : option Z * nat :=
  match json_get row field with
  | None => (None, 0%nat)
  | Some (JString s) =>
    match parse_u64 s with Some n => (Some n, 0%nat) | None => (None, 1%nat) end
  | Some (JNumber (Some n)) => (Some n, 0%nat)
  | Some (JNumber None) => (None, 1%nat)
  | Some _ => (None, 1%nat)
  end.

Definition row_content_type (row : list (str * json)) : option str * nat :=
  match json_get row FDO_MIME_TYPE with
  | None => (None, 0%nat)
  | Some (JString (c :: s)) => (Some (c :: s), 0%nat)
  | Some (JString []) => (None, 0%nat)
  | Some _ => (None, 1%nat)
  end.

(** One member of the [attributes] object. *)
Definition row_attribute (st : gmap str str * nat) (kv : str * json) : gmap str str * nat :=
  match kv.2 with
  | JString s => (<[kv.1 := s]> st.1, st.2)
  | _ => (st.1, S st.2)
  end.

(** The members of an object as serde_json's map iterates them: one per key. *)
Definition json_members (m : list (str * json)) : list (str * json) :=
  map_to_list (list_to_map (rev m) : gmap str json).

Definition row_attributes (row : list (str * json)) : gmap str str * nat :=
  match json_get row FDO_ATTRIBUTES with
  | None => (∅, 0%nat)
  | Some (JObject m) => fold_left row_attribute (json_members m) (∅, 0%nat)
  | Some _ => (∅, 1%nat)
  end.

Definition parse_row (row : list (str * json)) : SidecarEntry :=
  let '(created, m1) := timestamp row FDO_CREATED in
  let '(modified, m2) := timestamp row FDO_MODIFIED in
  let '(content_type, m3) := row_content_type row in
  let '(attributes, m4) := row_attributes row in
  {| sc_created := created; sc_modified := modified; sc_content_type := content_type;
     sc_attributes := attributes; malformed_fields := m1 + m2 + m3 + m4 |}.

(** The root a visitor sees: an object's members in order, or anything else. *)
Inductive SidecarRoot : Type := RootObject (members : list (str * json)) | RootOther.

Inductive SidecarError : Type :=
| SNotAnObject
| STooManyRows (rows : Z).

(** [visit_map]: the rows, and each key a later member overwrote. *)
Definition visit_member (st : gmap str json * list str) (kv : str * json) : gmap str json * list str :=
  (<[kv.1 := kv.2]> st.1, match st.1 !! kv.1 with Some _ => st.2 ++ [kv.1] | None => st.2 end).

Definition visit_map (members : list (str * json)) : gmap str json * list str :=
  fold_left visit_member members (∅, []).

(** One row of the root: an entry, or one more skipped. *)
Definition parse_root_row (st : gmap str SidecarEntry * nat) (kv : str * json) : gmap str SidecarEntry * nat :=
  match kv.2 with
  | JObject row => (<[kv.1 := parse_row row]> st.1, st.2)
  | _ => (st.1, S st.2)
  end.

(** [Sidecar::parse], after serde_json has read the text. *)
Definition sidecar_parse (root : SidecarRoot) : result Sidecar SidecarError :=
  match root with
  | RootOther => Err SNotAnObject
  | RootObject members =>
    let '(rows, dups) := visit_map members in
    if MAX_SIDECAR_ROWS <? Z.of_nat (size rows) then Err (STooManyRows (Z.of_nat (size rows)))
    else
      let '(entries, skipped) := fold_left parse_root_row (map_to_list rows) (∅, 0%nat) in
      Ok {| sc_entries := entries; skipped_rows := skipped; duplicate_keys := dups |}
  end.

Definition sidecar_get (s : Sidecar) (key : str) : option SidecarEntry := sc_entries s !! key.

Definition wallet_name_is_usable (wallet : str) : bool :=
  negb (str_eqb wallet []) && negb (str_eqb wallet (lit ".")) && negb (str_eqb wallet (lit ".."))
  && negb (existsb (Z.eqb 47) wallet) && negb (existsb (Z.eqb 0) wallet).

Definition sidecar_key (folder entry : str) : str := folder ++ 47 :: entry.

(** ** [QDataStream] *)

Inductive MapDecodeError : Type :=
| MTruncated (field : str)
| ImpossibleCount (declared available : Z)
| TooManyPairs (declared : Z)
| OddStringLength (len : Z)
| UnpairedSurrogate
| NullAndEmptyKey
| DuplicateKey
| TrailingBytes (trailing : Z)
| MTooLarge (len limit : Z)
| MJson (e : str).

(** [Reader] has the fields of [Cursor]. *)
Abbreviation qreader A := (reader_of MapDecodeError A).

Definition q_take (n : nat) (field : str) : qreader bytes := fun r =>
  if (length (buf r) <? pos r + n)%nat then Err (MTruncated field)
  else Ok (take n (drop (pos r) (buf r)), {| buf := buf r; pos := pos r + n |}).

Definition q_u32 (field : str) : qreader Z := fun r =>
  let? (b, r) := q_take 4 field r in Ok (from_be_bytes b, r).

(** [raw.chunks_exact(2)] as big-endian [u16]s. *)
Fixpoint units (raw : bytes) : list Z :=
  match raw with
  | a :: b :: raw => from_be_bytes [a; b] :: units raw
  | _ => []
  end.

(** [char::decode_utf16], all or nothing. *)
Fixpoint decode_utf16 (u : list Z) : option str :=
  match u with
  | [] => Some []
  | x :: r =>
    if in_range 0xD800 0xDBFF x then
      match r with
      | y :: r =>
        if in_range 0xDC00 0xDFFF y
        then let! s := decode_utf16 r in Some (0x10000 + (x - 0xD800) * 0x400 + (y - 0xDC00) :: s)
        else None
      | [] => None
      end
    else if in_range 0xDC00 0xDFFF x then None
    else let! s := decode_utf16 r in Some (x :: s)
  end.

(** The decoded string and whether it was Qt's null string. *)
Definition qstring (field : str) : qreader (str * bool) := fun r =>
  let? (len, r) := q_u32 field r in
  if len =? u32_max then Ok (([], true), r)
  else if negb (len mod 2 =? 0) then Err (OddStringLength len)
  else
    let? (raw, r) := q_take (Z.to_nat len) field r in
    match decode_utf16 (units raw) with
    | Some s => Ok ((s, false), r)
    | None => Err UnpairedSurrogate
    end.

(** What a decoder has seen of the keys so far. *)
Record seen_keys : Type := { seen : gset bytes; saw_null : bool; saw_empty : bool }.

Section decoders.
Context `{Prims}.

Definition digest (key : str) : bytes := sha256 (utf8 key).

Definition note_key (s : seen_keys) (key : str) (was_null : bool) : seen_keys :=
  match key with
  | [] => if was_null then {| seen := seen s; saw_null := true; saw_empty := saw_empty s |}
          else {| seen := seen s; saw_null := saw_null s; saw_empty := true |}
  | _ => s
  end.

Fixpoint qmap_loop (n : nat) (s : seen_keys) : qreader (list (str * str)) := fun r =>
  match n with
  | O => Ok ([], r)
  | S n =>
    let? (k, r) := qstring (lit "map key") r in
    let? (v, r) := qstring (lit "map value") r in
    let s := note_key s k.1 k.2 in
    if bool_decide (digest k.1 ∈ seen s)
    then Err (if saw_null s && saw_empty s then NullAndEmptyKey else DuplicateKey)
    else
      let s := {| seen := {[digest k.1]} ∪ seen s; saw_null := saw_null s; saw_empty := saw_empty s |} in
      let? (pairs, r) := qmap_loop n s r in
      Ok ((k.1, v.1) :: pairs, r)
  end.

Definition decode_qmap (bs : bytes) : result (list (str * str)) MapDecodeError :=
  let r := cursor_new bs in
  let? (declared, r) := q_u32 (lit "pair count") r in
  let min_bytes := u64_saturating_mul declared 8 in
  if Z.of_nat (cursor_remaining r) <? min_bytes then Err (ImpossibleCount declared (Z.of_nat (cursor_remaining r)))
  else if MAX_MAP_ENTRIES <? declared then Err (TooManyPairs declared)
  else
    let? (pairs, r) :=
      qmap_loop (Z.to_nat declared) {| seen := ∅; saw_null := false; saw_empty := false |} r in
    if negb (cursor_remaining r =? 0)%nat then Err (TrailingBytes (Z.of_nat (cursor_remaining r)))
    else Ok pairs.
End decoders.

(** [serde_json::to_writer] of a string map. *)
Class JsonText : Type := { json_of_map : gmap str str -> result bytes str }.

Section secrets.
Context `{Prims} `{JsonText}.

(** The sum of the decoded lengths, saturating. *)
Definition decoded_len (pairs : list (str * str)) : Z :=
  fold_left (fun a kv => Z.min (a + Z.min (str_len kv.1 + str_len kv.2) u64_max) u64_max) pairs 0.

Definition qmap_to_canonical_json (pairs : list (str * str)) : result bytes MapDecodeError :=
  let canonical : gmap str str := fold_left (fun m kv => <[kv.1 := kv.2]> m) pairs ∅ in
  if MAX_ITEM_SECRET <? decoded_len pairs then Err (MTooLarge (decoded_len pairs) MAX_ITEM_SECRET)
  else map_err MJson (json_of_map canonical).

Definition read_map_secret (bs : bytes) : result bytes MapDecodeError :=
  let? pairs := decode_qmap bs in qmap_to_canonical_json pairs.

Definition decode_qstring_password (bs : bytes) : result bytes MapDecodeError :=
  let? (d, r) := qstring (lit "password") (cursor_new bs) in
  if negb (cursor_remaining r =? 0)%nat then Err (TrailingBytes (Z.of_nat (cursor_remaining r)))
  else Ok (utf8 d.1).
End secrets.

(** ** Mapping *)

(** One synthesised attribute: inserted where the name is free. *)
Definition synthesise (st : gmap str str * gset str * bool) (nv : str * str) : gmap str str * gset str * bool :=
  let '(attributes, inserted, collided) := st in
  match attributes !! nv.1 with
  | None => (<[nv.1 := nv.2]> attributes, {[nv.1]} ∪ inserted, collided)
  | Some _ => (attributes, inserted, true)
  end.

(** The item, and how many entries collided: none or one. *)
Definition map_entry (wallet fld ent : str) (t : EntryType) (secret : bytes) (sidecar : option SidecarEntry)
  : SourceItem * nat :=
  let attributes := match sidecar with Some s => sc_attributes s | None => ∅ end in
  let '(attributes, inserted, collided) :=
    match attributes !! XDG_SCHEMA with
    | Some _ => (attributes, ∅, false)
    | None => fold_left synthesise [(ATTR_FOLDER, fld); (ATTR_KEY, ent); (ATTR_TYPE, attribute_value t)]
                        (attributes, ∅, false)
    end in
  let content_type :=
    match t with
    | TMap => CT_MAP
    | _ => default (default_content_type t) (sidecar ≫= sc_content_type)
    end in
  ({| si_label := ent; si_attributes := attributes; si_secret := secret; si_content_type := content_type;
      si_created := default 0 (sidecar ≫= sc_created); si_modified := default 0 (sidecar ≫= sc_modified);
      si_provenance := provenance_kwallet wallet fld ent; inserted_keys := inserted |},
   if collided then 1%nat else 0%nat).

(** ** UTF-16 *)

Definition encode_utf16 (c : char) : list Z :=
  if c <? 0x10000 then [c] else [0xD800 + (c - 0x10000) / 0x400; 0xDC00 + (c - 0x10000) mod 0x400].

Definition utf16 (s : str) : list Z := flat_map encode_utf16 s.

Lemma encode_utf16_u16 c : is_char c -> Forall u16 (encode_utf16 c).
Proof.
  unfold is_char, encode_utf16, u16, u16_max. intros Hc. destruct (Z.ltb_spec c 65536).
  - repeat constructor; lia.
  - pose proof (Z.mod_pos_bound (c - 65536) 1024 eq_refl). pose proof (Z.div_mod (c - 65536) 1024 ltac:(lia)).
    repeat constructor; lia.
Qed.

Lemma utf16_u16 s : str_wf s -> Forall u16 (utf16 s).
Proof. induction 1 as [|c s Hc _ IH]; [constructor|]. cbn. apply Forall_app. split; [by apply encode_utf16_u16|done]. Qed.

Lemma decode_encode_utf16 c r : is_char c ->
  decode_utf16 (encode_utf16 c ++ r) = let! s := decode_utf16 r in Some (c :: s).
Proof.
  unfold is_char, encode_utf16. intros Hc. destruct (Z.ltb_spec c 65536); cbn -[in_range Z.add Z.sub Z.mul Z.div Z.modulo].
  - destruct (in_range 55296 56319 c) eqn:E1; [apply in_range_spec in E1; lia|].
    destruct (in_range 56320 57343 c) eqn:E2; [apply in_range_spec in E2; lia|]. done.
  - pose proof (Z.mod_pos_bound (c - 65536) 1024 eq_refl). pose proof (Z.div_mod (c - 65536) 1024 ltac:(lia)).
    set (h := 55296 + (c - 65536) / 1024). set (l := 56320 + (c - 65536) mod 1024).
    assert (in_range 55296 56319 h = true) as -> by (apply in_range_spec; lia).
    assert (in_range 56320 57343 l = true) as -> by (apply in_range_spec; lia).
    assert (65536 + (h - 55296) * 1024 + (l - 56320) = c) as -> by lia. done.
Qed.

Lemma decode_utf16_Some u s : Forall u16 u -> decode_utf16 u = Some s <-> str_wf s /\ u = utf16 s.
Proof.
  intros Hu. split.
  - revert u s Hu. assert (H : forall n u s, (length u <= n)%nat -> Forall u16 u -> decode_utf16 u = Some s -> str_wf s /\ u = utf16 s).
    2: { intros u s Hu. by apply (H (length u)). }
    induction n as [|n IH]; intros [|x u] s Hn Hu; try (simpl in Hn; lia);
      try (intros [= <-]; split; [constructor|done]).
    inversion Hu as [|?? Hx Hu']; subst. simpl in Hn. cbn -[in_range Z.add Z.sub Z.mul].
    unfold u16, u16_max in Hx. destruct (in_range 55296 56319 x) eqn:E1.
    + apply in_range_spec in E1. destruct u as [|y u]; [done|].
      destruct (in_range 56320 57343 y) eqn:E2; [|done]. apply in_range_spec in E2.
      destruct (decode_utf16 u) as [s'|] eqn:E; [|done]. intros [= <-].
      inversion Hu'; subst. simpl in Hn. apply IH in E as [Hw ->]; [|lia|done].
      set (c := 65536 + (x - 55296) * 1024 + (y - 56320)).
      split; [constructor; [unfold is_char; lia|done]|].
      change (utf16 (c :: s')) with (encode_utf16 c ++ utf16 s').
      assert (encode_utf16 c = [x; y]) as ->; [|done]. unfold encode_utf16. destruct (Z.ltb_spec c 65536); [lia|].
      assert ((c - 65536) / 1024 = x - 55296) as -> by (symmetry; apply (Z.div_unique _ _ _ (y - 56320)); lia).
      assert ((c - 65536) mod 1024 = y - 56320) as -> by (symmetry; apply (Z.mod_unique _ _ (x - 55296)); lia).
      f_equal; [lia|]. f_equal. lia.
    + destruct (in_range 56320 57343 x) eqn:E2; [done|]. destruct (decode_utf16 u) as [s'|] eqn:E; [|done].
      intros [= <-]. apply IH in E as [Hw ->]; [|lia|done].
      assert (~ (55296 <= x <= 56319)) by (rewrite <- in_range_spec; congruence).
      assert (~ (56320 <= x <= 57343)) by (rewrite <- in_range_spec; congruence).
      split; [constructor; [unfold is_char; lia|done]|].
      change (utf16 (x :: s')) with (encode_utf16 x ++ utf16 s'). unfold encode_utf16.
      destruct (Z.ltb_spec x 65536); [done|lia].
  - intros [Hs ->]. clear Hu. induction Hs as [|c s Hc _ IH]; [done|].
    unfold utf16 in *. cbn [flat_map]. by rewrite decode_encode_utf16, IH.
Qed.

(** Pairs of bytes and 16-bit units. *)
Definition unit_bytes (u : list Z) : bytes := flat_map (to_be_bytes 2) u.

Lemma units_unit_bytes u : Forall u16 u -> units (unit_bytes u) = u.
Proof.
  induction 1 as [|x u Hx _ IH]; [done|]. unfold unit_bytes in *. cbn [flat_map].
  pose proof (from_to_be_bytes 2 x) as E. pose proof (length_to_be_bytes 2 x) as L.
  destruct (to_be_bytes 2 x) as [|a [|b [|]]]; try done. cbn [app units]. rewrite IH. f_equal. apply E.
  unfold u16, u16_max in Hx. change (256 ^ Z.of_nat 2) with 65536. lia.
Qed.

Lemma unit_bytes_units raw : (length raw mod 2 = 0)%nat -> unit_bytes (units raw) = raw /\ Forall u16 (units raw)
  /\ (2 * length (units raw) = length raw)%nat.
Proof.
  assert (H : forall n raw, (length raw <= n)%nat -> (length raw mod 2 = 0)%nat ->
    unit_bytes (units raw) = raw /\ Forall u16 (units raw) /\ (2 * length (units raw) = length raw)%nat).
  2: by apply (H (length raw)).
  clear. induction n as [|n IH]; intros [|a [|b raw]] Hn Hm; try done; simpl in Hn; try lia.
  assert (Hm' : (length raw mod 2 = 0)%nat).
  { cbn [length] in Hm. replace (S (S (length raw))) with (length raw + 1 * 2)%nat in Hm by lia.
    by rewrite Nat.Div0.mod_add in Hm. }
  destruct (IH raw ltac:(lia) Hm') as (E & F & L). cbn [units]. split; [|split].
  - unfold unit_bytes in *. cbn [flat_map]. rewrite E.
    change (to_be_bytes 2 (from_be_bytes [a; b])) with (to_be_bytes (length [a; b]) (from_be_bytes [a; b])).
    by rewrite to_from_be_bytes.
  - constructor; [|done]. pose proof (from_be_bytes_range [a; b]) as Hr. unfold zlen in Hr. simpl in Hr.
    change (256 ^ 2) with 65536 in Hr. unfold u16, u16_max. lia.
  - simpl. lia.
Qed.

Lemma length_unit_bytes u : length (unit_bytes u) = (2 * length u)%nat.
Proof. unfold unit_bytes. induction u as [|x u IH]; [done|]. cbn [flat_map]. rewrite length_app, length_to_be_bytes, IH. simpl. lia. Qed.

(** ** The layout of a serialised map *)

(** A [QString]: [None] is Qt's null string. *)
Definition enc_qstring (o : option str) : bytes :=
  match o with
  | None => be4 u32_max
  | Some s => be4 (2 * zlen (utf16 s)) ++ unit_bytes (utf16 s)
  end.

Definition qstring_wf (o : option str) : Prop :=
  match o with None => True | Some s => str_wf s /\ 2 * zlen (utf16 s) < u32_max end.

Definition qview (o : option str) : str * bool :=
  match o with None => ([], true) | Some s => (s, false) end.

Definition enc_qpair (kv : option str * option str) : bytes := enc_qstring kv.1 ++ enc_qstring kv.2.
Definition qpair_wf (kv : option str * option str) : Prop := qstring_wf kv.1 /\ qstring_wf kv.2.
Definition qpair_view (kv : option str * option str) : str * str := ((qview kv.1).1, (qview kv.2).1).

Lemma parses_q_take n field : parses (q_take n field) (fun v e => length v = n /\ e = v).
Proof.
  intros e rest v c'. pose proof (parses_take n field e rest v c') as Ht.
  assert (q_take n field (at_ e rest) = Ok (v, c') <-> c_take n field (at_ e rest) = Ok (v, c')) as ->; [|done].
  unfold q_take, c_take. rewrite remaining_at. cbn [at_ buf pos]. rewrite length_app.
  destruct (Nat.ltb_spec (length e + length rest) (length e + n)), (Nat.ltb_spec (length rest) n);
    try lia; split; intros Hq; try discriminate Hq; injection Hq as <- <-; reflexivity.
Qed.

Lemma parses_q_u32 field : parses (q_u32 field) (fun z e => u32 z /\ e = be4 z).
Proof.
  eapply parses_ext; [eapply parses_bind; [apply parses_q_take|intros ? ? _; apply parses_ret]|].
  intros z e. split.
  - intros (b & e1 & e2 & [Hl ->] & [-> ->] & ->). rewrite app_nil_r. unfold be4. rewrite <- Hl, to_from_be_bytes.
    split; [|done]. pose proof (from_be_bytes_range b) as Hr. unfold zlen in Hr. rewrite Hl in Hr.
    change (256 ^ Z.of_nat 4) with 4294967296 in Hr. unfold u32, u32_max. lia.
  - intros [Hz ->]. exists (be4 z), (be4 z), []. unfold be4, u32, u32_max in *.
    rewrite length_to_be_bytes, app_nil_r, from_to_be_bytes by (change (256 ^ Z.of_nat 4) with 4294967296; lia). done.
Qed.

Lemma parses_q_units n field : (n mod 2 = 0)%nat ->
  parses (fun r => let? (raw, r) := q_take n field r in
                   match decode_utf16 (units raw) with
                   | Some s => Ok ((s, false), r)
                   | None => Err UnpairedSurrogate
                   end)
         (fun v e => exists s, str_wf s /\ v = (s, false) /\ length e = n /\ e = unit_bytes (utf16 s)).
Proof.
  intros Hn e rest v c'.
  rewrite (parses_then _ _ (fun raw r => match decode_utf16 (units raw) with Some s => Ok ((s, false), r) | None => Err UnpairedSurrogate end)
             _ _ _ (parses_q_take n field)). split.
  - intros (raw & e1 & r1 & [Hl ->] & -> & Hk). destruct (decode_utf16 (units raw)) as [s|] eqn:E; [|done]. simplify_eq.
    destruct (unit_bytes_units raw) as (Hub & Hu & _); [done|].
    apply decode_utf16_Some in E as [Hw Eu]; [|done]. exists raw, r1. split; [|done].
    exists s. split; [done|]. split; [done|]. split; [done|]. by rewrite <- Eu.
  - intros (e1 & r1 & (s & Hw & -> & Hl & ->) & -> & ->).
    exists (unit_bytes (utf16 s)), (unit_bytes (utf16 s)), r1. split; [done|]. split; [done|].
    pose proof (utf16_u16 s Hw) as Hu. rewrite units_unit_bytes by done.
    assert (decode_utf16 (utf16 s) = Some s) as ->; [by apply decode_utf16_Some|done].
Qed.

Lemma parses_qstring field :
  parses (qstring field) (fun v e => exists o, qstring_wf o /\ v = qview o /\ e = enc_qstring o).
Proof.
  intros e rest v c'. unfold qstring. rewrite (parses_then _ _ _ _ _ _ (parses_q_u32 field)). split.
  - intros (len & e1 & r1 & [Hu ->] & -> & Hk). destruct (Z.eqb_spec len u32_max) as [->|Hne].
    { simplify_eq. exists (be4 u32_max), r1. split; [by exists None|done]. }
    destruct (Z.eqb_spec (len mod 2) 0) as [Hm|]; [|done]. cbn [negb] in Hk. unfold u32 in Hu.
    apply parses_q_units in Hk as (e2 & r2 & (s & Hw & -> & Hl & ->) & -> & ->).
    2: { apply Nat2Z.inj. rewrite Nat2Z.inj_mod, Z2Nat.id by lia. done. }
    rewrite length_unit_bytes in Hl. assert (len = 2 * zlen (utf16 s)) as -> by (unfold zlen; lia).
    exists (enc_qstring (Some s)), r2. cbn [enc_qstring]. rewrite <- !app_assoc.
    split; [exists (Some s); split; [split; [done|lia]|done]|done].
  - intros (e1 & r1 & (o & Hw & -> & ->) & -> & ->). destruct o as [s|].
    + destruct Hw as [Hs Hl]. cbn [enc_qstring]. rewrite <- !app_assoc.
      pose proof (zlen_nonneg (utf16 s)). unfold u32_max in *.
      exists (2 * zlen (utf16 s)), (be4 (2 * zlen (utf16 s))), (unit_bytes (utf16 s) ++ r1).
      split; [split; [unfold u32, u32_max; lia|done]|]. split; [done|].
      destruct (Z.eqb_spec (2 * zlen (utf16 s)) 4294967295); [lia|].
      rewrite (Z.mul_comm 2), Z.mod_mul by lia. cbn [Z.eqb negb].
      assert (Z.to_nat (zlen (utf16 s) * 2) = (2 * length (utf16 s))%nat) as Hn by (unfold zlen; lia).
      apply parses_q_units; [rewrite Hn, Nat.mul_comm; apply Nat.Div0.mod_mul|].
      exists (unit_bytes (utf16 s)), r1. rewrite <- app_assoc. split; [|done].
      exists s. by rewrite length_unit_bytes, Hn.
    + exists u32_max, (be4 u32_max), r1. done.
Qed.

(** The keys of the rest of a map are new: to what was seen and to each other. *)
Definition fresh_keys `{Prims} (s : gset bytes) (raw : list (option str * option str)) : Prop :=
  NoDup (map (fun kv => digest (qpair_view kv).1) raw)
  /\ Forall (fun kv => digest (qpair_view kv).1 ∉ s) raw.

Lemma parses_qmap_loop `{Prims} n : forall s,
  parses (qmap_loop n s) (fun pairs e => exists raw, length raw = n /\ Forall qpair_wf raw
    /\ pairs = map qpair_view raw /\ e = concat (map enc_qpair raw) /\ fresh_keys (seen s) raw).
Proof.
  induction n as [|n IH]; intros s; cbn [qmap_loop].
  - eapply parses_ext; [apply parses_ret|]. intros v e. split.
    + intros [-> ->]. exists []. repeat split; constructor.
    + intros (raw & Hl & _ & -> & -> & _). by apply nil_length_inv in Hl as ->.
  - assert (Hseen : forall k b, seen (note_key s k b) = seen s) by (intros [|] []; done).
    eapply parses_ext.
    { eapply parses_bind; [apply parses_qstring|]. intros k ? _.
      eapply parses_bind; [apply parses_qstring|]. intros v ? _. apply parses_guard.
      eapply parses_bind; [apply IH|]. intros pairs ? _. apply parses_ret. }
    cbn [seen saw_null saw_empty]. intros pairs e. split.
    + intros (k & ? & ? & (ok & Hok & -> & ->) & (v & ? & ? & (ov & Hov & -> & ->) &
        [Hg (rest & ? & ? & (raw & Hl & Hwf & -> & -> & [Hnd Hfr]) & [-> ->] & ->)] & ->) & ->).
      apply bool_decide_eq_false in Hg. rewrite Hseen in *.
      exists ((ok, ov) :: raw). split; [simpl; lia|]. split; [constructor; [done|done]|]. split; [done|].
      split; [cbn [map concat]; unfold enc_qpair at 2; by rewrite app_nil_r, <- app_assoc|].
      assert (Hall : Forall (fun kv => digest (qpair_view kv).1 <> digest (qview ok).1 /\ digest (qpair_view kv).1 ∉ seen s) raw)
        by (eapply Forall_impl; [exact Hfr|]; cbn; set_solver).
      split; cbn [map].
      * constructor; [|done]. rewrite list_elem_of_fmap. intros (kv & Hkv & Hin).
        rewrite Forall_forall in Hall. destruct (Hall kv Hin) as [Hne _]. by apply Hne.
      * constructor; [done|]. eapply Forall_impl; [exact Hall|]. by intros ? [].
    + intros (raw & Hl & Hwf & -> & -> & [Hnd Hfr]). destruct raw as [|[ok ov] raw]; [done|].
      inversion Hwf as [|?? [Hok Hov] Hwf']; subst. inversion Hfr as [|?? Hk Hfr']; subst.
      cbn [map] in Hnd. inversion Hnd as [|?? Hnin Hnd']; subst. cbn [map concat].
      change (enc_qpair (ok, ov)) with (enc_qstring ok ++ enc_qstring ov). rewrite <- app_assoc. cbn in Hok, Hov.
      exists (qview ok), (enc_qstring ok). eexists. split; [by exists ok|]. split; [|reflexivity].
      exists (qview ov), (enc_qstring ov). eexists. split; [by exists ov|]. split; [|reflexivity].
      split; [apply bool_decide_eq_false; by rewrite Hseen|].
      exists (map qpair_view raw), (concat (map enc_qpair raw)), []. rewrite app_nil_r.
      split; [|by destruct ok, ov]. exists raw. split; [simpl in Hl; lia|]. split; [done|]. split; [done|]. split; [done|].
      split; [done|]. rewrite Hseen. rewrite Forall_forall in Hfr' |- *. intros kv Hin.
      apply not_elem_of_union. split; [|by apply Hfr']. rewrite elem_of_singleton. intros E. apply Hnin.
      rewrite list_elem_of_fmap. by exists kv.
Qed.

Lemma enc_qstring_ge o : 4 <= zlen (enc_qstring o).
Proof. destruct o as [s|]; cbn [enc_qstring]; rewrite ?zlen_app, length_be4; [pose proof (zlen_nonneg (unit_bytes (utf16 s)))|]; lia. Qed.

Lemma enc_qpairs_ge raw : 8 * zlen raw <= zlen (concat (map enc_qpair raw)).
Proof.
  induction raw as [|[k v] raw IH]; [done|]. cbn [map concat]. rewrite zlen_app. unfold enc_qpair at 1. rewrite zlen_app.
  pose proof (enc_qstring_ge k). pose proof (enc_qstring_ge v). unfold zlen in *. cbn [length fst snd]. lia.
Qed.

(** The whole of a serialised map. *)
Definition enc_qmap (raw : list (option str * option str)) : bytes := be4 (zlen raw) ++ concat (map enc_qpair raw).

Lemma decode_qmap_language `{Prims} bs pairs :
  decode_qmap bs = Ok pairs <->
  exists raw, Forall qpair_wf raw /\ zlen raw <= MAX_MAP_ENTRIES /\ bs = enc_qmap raw
    /\ pairs = map qpair_view raw /\ NoDup (map (fun kv => digest kv.1) pairs).
Proof.
  unfold decode_qmap. rewrite at_start.
  rewrite (parses_then _ _ (fun declared r => if Z.of_nat (cursor_remaining r) <? u64_saturating_mul declared 8
      then Err (ImpossibleCount declared (Z.of_nat (cursor_remaining r)))
      else if MAX_MAP_ENTRIES <? declared then Err (TooManyPairs declared)
      else let? (pairs, r) := qmap_loop (Z.to_nat declared) {| seen := ∅; saw_null := false; saw_empty := false |} r in
           if negb (cursor_remaining r =? 0)%nat then Err (TrailingBytes (Z.of_nat (cursor_remaining r))) else Ok pairs)
      _ _ _ (parses_q_u32 (lit "pair count"))).
  unfold u64_saturating_mul. split.
  - intros (d & e1 & r1 & [Hd ->] & -> & Hk). unfold u32, u32_max in Hd.
    destruct (_ <? _); [done|]. destruct (Z.ltb_spec MAX_MAP_ENTRIES d) as [|Hmax]; [done|].
    apply (parses_then _ _ (fun pairs r => if negb (cursor_remaining r =? 0)%nat then Err (TrailingBytes (Z.of_nat (cursor_remaining r))) else Ok pairs)
             _ _ _ (parses_qmap_loop _ _)) in Hk as (ps & e2 & r2 & (raw & Hl & Hwf & -> & -> & [Hnd _]) & -> & Hfin).
    rewrite remaining_at in Hfin. destruct r2; [|done]. cbn in Hfin. simplify_eq.
    assert (d = zlen raw) as -> by (unfold zlen; lia). exists raw. rewrite app_nil_r.
    split; [done|]. split; [done|]. split; [done|]. split; [done|]. rewrite map_map. exact Hnd.
  - intros (raw & Hwf & Hmax & -> & -> & Hnd). unfold enc_qmap. pose proof (zlen_nonneg raw).
    exists (zlen raw), (be4 (zlen raw)), (concat (map enc_qpair raw)).
    unfold MAX_MAP_ENTRIES in *. split; [split; [unfold u32, u32_max; lia|done]|]. split; [done|].
    rewrite remaining_at. pose proof (enc_qpairs_ge raw) as Hge.
    destruct (Z.ltb_spec (Z.of_nat (length (concat (map enc_qpair raw)))) (Z.min (zlen raw * 8) u64_max)); [unfold zlen in *; lia|].
    destruct (Z.ltb_spec 4096 (zlen raw)); [lia|].
    apply (parses_then _ _ (fun pairs r => if negb (cursor_remaining r =? 0)%nat then Err (TrailingBytes (Z.of_nat (cursor_remaining r))) else Ok pairs)
             _ _ _ (parses_qmap_loop _ _)).
    exists (map qpair_view raw), (concat (map enc_qpair raw)), []. rewrite app_nil_r, remaining_at.
    split; [|done]. exists raw. split; [unfold zlen; lia|]. split; [done|]. split; [done|]. split; [done|].
    rewrite map_map in Hnd. split; [exact Hnd|]. apply Forall_forall. set_solver.
Qed.

Lemma decode_password_language bs secret :
  decode_qstring_password bs = Ok secret <->
  exists o, qstring_wf o /\ bs = enc_qstring o /\ secret = utf8 (qview o).1.
Proof.
  unfold decode_qstring_password. rewrite at_start.
  rewrite (parses_then _ _ (fun d r => if negb (cursor_remaining r =? 0)%nat then Err (TrailingBytes (Z.of_nat (cursor_remaining r))) else Ok (utf8 d.1))
             _ _ _ (parses_qstring (lit "password"))). split.
  - intros (d & e1 & r1 & (o & Ho & -> & ->) & -> & Hk). rewrite remaining_at in Hk. destruct r1; [|done].
    cbn in Hk. simplify_eq. exists o. by rewrite app_nil_r.
  - intros (o & Ho & -> & ->). exists (qview o), (enc_qstring o), []. rewrite app_nil_r, remaining_at. by eauto 10.
Qed.

(** ** Mapping *)

Lemma synthesised_names : NoDup SYNTHESISED_ATTRIBUTES /\ XDG_SCHEMA ∉ SYNTHESISED_ATTRIBUTES.
Proof. split; apply (bool_decide_unpack _); vm_compute; exact I. Qed.

(** The synthesised attributes of an entry. *)
Definition synthesised (fld ent : str) (t : EntryType) : gmap str str :=
  <[ATTR_FOLDER := fld]> (<[ATTR_KEY := ent]> {[ATTR_TYPE := attribute_value t]}).

Lemma dom_synthesised fld ent t : dom (synthesised fld ent t) = list_to_set SYNTHESISED_ATTRIBUTES.
Proof. unfold synthesised, SYNTHESISED_ATTRIBUTES. rewrite !dom_insert_L, dom_singleton_L. cbn. set_solver. Qed.


Definition is_taken (attrs : gmap str str) (k : str) : bool := bool_decide (is_Some (attrs !! k)).

(** Inserting where the name is free: what was there wins, and the names
    inserted are recorded. *)
Lemma synthesise_fold (l : list (str * str)) : NoDup (map fst l) -> forall attrs ins col,
  fold_left synthesise l (attrs, ins, col)
  = (attrs ∪ list_to_map l, list_to_set (List.filter (fun k => negb (is_taken attrs k)) (map fst l)) ∪ ins,
     col || existsb (is_taken attrs) (map fst l)).
Proof.
  induction l as [|[k v] l IH]; intros Hnd attrs ins col.
  - simpl. rewrite map_union_empty, orb_false_r. f_equal. f_equal. set_solver.
  - cbn [map fst] in Hnd. inversion Hnd as [|?? Hk Hnd']; subst. cbn [fold_left]. unfold synthesise at 2. cbn [fst snd].
    cbn [map fst List.filter existsb list_to_map foldr]. destruct (attrs !! k) as [x|] eqn:E.
    + rewrite IH by done. assert (is_taken attrs k = true) as -> by (unfold is_taken; rewrite E; by apply bool_decide_eq_true_2).
      cbn [negb]. rewrite !orb_true_r. f_equal. f_equal. apply map_eq. intros k'.
      destruct (decide (k = k')) as [<-|]; [|by rewrite !lookup_union, lookup_insert_ne].
      rewrite !lookup_union, E. by rewrite !union_Some_l.
    + rewrite IH by done. assert (is_taken attrs k = false) as -> by (unfold is_taken; rewrite E; by apply bool_decide_eq_false_2; intros []).
      assert (Hsame : forall k', k' ∈ map fst l -> is_taken (<[k:=v]> attrs) k' = is_taken attrs k').
      { intros k' Hk'. unfold is_taken. rewrite lookup_insert_ne by set_solver. done. }
      cbn [negb orb]. f_equal; [f_equal|].
      * by rewrite <- insert_union_l, insert_union_r.
      * rewrite (List.filter_ext_in _ (fun k => negb (is_taken attrs k))).
        2: { intros k' Hk'. rewrite Hsame; [done|by apply list_elem_of_In]. }
        rewrite list_to_set_cons. set_solver.
      * f_equal. clear -Hsame. induction (map fst l) as [|k' l' IH']; [done|]. simpl.
        rewrite Hsame, IH' by set_solver. done.
Qed.

(** The attributes a sidecar row brings. *)
Definition row_attrs (row : option SidecarEntry) : gmap str str :=
  match row with Some s => sc_attributes s | None => ∅ end.

Definition synthesised_list (fld ent : str) (t : EntryType) : list (str * str) :=
  [(ATTR_FOLDER, fld); (ATTR_KEY, ent); (ATTR_TYPE, attribute_value t)].

Lemma map_entry_attributes w f e t s row : let i := (map_entry w f e t s row).1 in
  match row_attrs row !! XDG_SCHEMA with
  | Some _ => si_attributes i = row_attrs row /\ inserted_keys i = ∅ /\ (map_entry w f e t s row).2 = 0%nat
  | None => si_attributes i = row_attrs row ∪ list_to_map (synthesised_list f e t)
            /\ inserted_keys i = list_to_set (List.filter (fun k => negb (is_taken (row_attrs row) k)) SYNTHESISED_ATTRIBUTES)
            /\ (map_entry w f e t s row).2 = if existsb (is_taken (row_attrs row)) SYNTHESISED_ATTRIBUTES then 1%nat else 0%nat
  end.
Proof.
  unfold map_entry. fold (row_attrs row). destruct (row_attrs row !! XDG_SCHEMA) as [x|]; [done|].
  rewrite (synthesise_fold (synthesised_list f e t)) by apply synthesised_names.
  cbn [fst snd si_attributes inserted_keys orb]. rewrite union_empty_r_L. done.
Qed.

Lemma synthesised_dom k f e t :
  is_Some ((list_to_map (synthesised_list f e t) : gmap str str) !! k) <-> k ∈ SYNTHESISED_ATTRIBUTES.
Proof.
  rewrite <- elem_of_dom, dom_list_to_map_L. unfold SYNTHESISED_ATTRIBUTES. cbn. set_solver.
Qed.

Lemma map_entry_provenance w f e t s row :
  si_provenance (map_entry w f e t s row).1 = provenance_kwallet w f e.
Proof. unfold map_entry. by repeat case_match. Qed.

Lemma map_entry_fields w f e t s row : let i := (map_entry w f e t s row).1 in
  si_label i = e /\ si_secret i = s /\ si_created i = default 0 (row ≫= sc_created)
  /\ si_modified i = default 0 (row ≫= sc_modified).
Proof.
  unfold map_entry. destruct (row_attrs row !! XDG_SCHEMA) eqn:E; unfold row_attrs in E; rewrite E; [done|].
  destruct (fold_left synthesise _ _) as [[a b] c]. done.
Qed.

(** The importer discounts only what it wrote. *)
Lemma map_entry_outcome w f e t s row : let i := (map_entry w f e t s row).1 in
  item_outcome i =
  match row_attrs row !! XDG_SCHEMA with
  | Some (_ :: _) => FullyPortable
  | _ => if bool_decide (row_attrs row = ∅) then PreservedOnly else AttributesPreserved
  end.
Proof.
  intros i. pose proof (map_entry_attributes w f e t s row) as Hm. fold i in Hm.
  assert (Hsrc : pv_source (si_provenance i) = KWallet) by (unfold i; by rewrite map_entry_provenance).
  unfold item_outcome. rewrite Hsrc. unfold classify. pose proof (classify_rest KWallet (si_attributes i) (inserted_keys i)) as Hr.
  destruct (row_attrs row !! XDG_SCHEMA) as [x|] eqn:E; destruct Hm as (Ha & Hi & _); rewrite Ha in *.
  - rewrite E, bool_decide_eq_false_2 by (intros E'; by rewrite E', lookup_empty in E).
    destruct x as [|c x]; [|done]. rewrite (proj2 Hr); [done|]. exists XDG_SCHEMA, []. split; [done|].
    rewrite Hi. unfold searchable. set_solver.
  - assert (HX : (row_attrs row ∪ list_to_map (synthesised_list f e t)) !! XDG_SCHEMA = None).
    { apply lookup_union_None. split; [done|]. apply eq_None_not_Some. rewrite synthesised_dom. apply synthesised_names. }
    rewrite HX. case_bool_decide as Hemp.
    + destruct (existsb _ _); [|done]. destruct (proj1 Hr eq_refl) as (k & v & Hk & Hs). destruct Hs. split; [done|].
      rewrite Hemp, map_empty_union in Hk. assert (k ∈ SYNTHESISED_ATTRIBUTES) as Hin by (apply (synthesised_dom k f e t); eauto).
      split; [done|]. rewrite Hi, elem_of_list_to_set. apply list_elem_of_In, filter_In. split; [by apply list_elem_of_In|].
      unfold is_taken. rewrite Hemp, lookup_empty. by rewrite bool_decide_eq_false_2 by (intros []; done).
    + rewrite (proj2 Hr); [done|]. apply map_choose in Hemp as (k & v & Hk). exists k, v.
      split; [by apply lookup_union_Some_l|]. intros (_ & _ & Hins). rewrite Hi, elem_of_list_to_set in Hins.
      apply list_elem_of_In, filter_In in Hins as [_ Hf]. unfold is_taken in Hf. rewrite Hk in Hf.
      rewrite bool_decide_eq_true_2 in Hf by eauto. done.
Qed.

(** ** The sidecar *)

Lemma visit_map_spec members :
  let st := visit_map members in
  (forall k, st.1 !! k = (list_to_map (rev members) : gmap str json) !! k)
  /\ forall k, count_if (str_eqb k) st.2 = (count_if (fun kv => str_eqb k kv.1) members - 1)%nat.
Proof.
  unfold visit_map. induction members as [|[k v] l IH] using rev_ind; [done|].
  rewrite fold_left_app. cbn [fold_left]. set (st := fold_left visit_member l (∅, [])) in *.
  destruct IH as [H1 H2]. unfold visit_member. cbn [fst snd].
  assert (Hin : forall k, is_Some (st.1 !! k) <-> (0 < count_if (fun kv => str_eqb k kv.1) l)%nat).
  { intros k'. rewrite H1, <- elem_of_dom, dom_list_to_map_L, elem_of_list_to_set, list_elem_of_fmap.
    unfold count_if. split.
    - intros ([k1 v1] & -> & Hin). apply list_elem_of_In, in_rev, in_split in Hin as (a & b & ->). cbn.
      rewrite List.filter_app, length_app. cbn. rewrite (proj2 (str_eqb_eq k1 k1) eq_refl). cbn. lia.
    - intros Hlen. destruct (List.filter _ l) as [|[k1 v1] r] eqn:E; [simpl in Hlen; lia|].
      assert (In (k1, v1) (List.filter (fun kv => str_eqb k' kv.1) l)) as Hf by (rewrite E; by left).
      apply filter_In in Hf as [Hin ->%str_eqb_eq]. exists (k1, v1). split; [done|].
      by apply list_elem_of_In, in_rev; rewrite rev_involutive. }
  split.
  - intros k'. rewrite rev_app_distr. cbn. destruct (decide (k = k')) as [<-|].
    + by rewrite !lookup_insert_eq.
    + by rewrite !lookup_insert_ne, H1.
  - intros k'. rewrite count_if_app, count_if_singleton. cbn [fst].
    destruct (str_eqb k' k) eqn:Ek.
    + apply str_eqb_eq in Ek as ->. specialize (H2 k). specialize (Hin k). destruct (st.1 !! k) eqn:E.
      * rewrite count_if_app, count_if_singleton, (proj2 (str_eqb_eq k k) eq_refl), H2.
        assert (0 < count_if (fun kv => str_eqb k kv.1) l)%nat by (apply Hin; eauto). lia.
      * assert (~ (0 < count_if (fun kv => str_eqb k kv.1) l)%nat) by (intros [? ?]%Hin; done). lia.
    + destruct (st.1 !! k); [rewrite count_if_app, count_if_singleton, Ek|]; rewrite H2; lia.
Qed.

(** ** Properties *)

(** The language of the map decoder. Bytes decode to pairs exactly when they
    are, to the last byte, the [QDataStream] layout of at most 4096 pairs of
    valid UTF-16 strings (null strings read as empty) whose keys have distinct
    digests; so a decoded map re-encodes to the bytes it came from and
    truncated, padded or mangled streams are refused. *)
Theorem decode_qmap_exact (P : Prims) bs pairs :
  decode_qmap bs = Ok pairs <->
  exists raw, Forall qpair_wf raw /\ zlen raw <= MAX_MAP_ENTRIES /\ bs = enc_qmap raw
    /\ pairs = map qpair_view raw /\ NoDup (map (fun kv => digest kv.1) pairs).
Proof. apply decode_qmap_language. Qed.

(** The fallback password is the password. The bytes of a stored password
    decode exactly when they are one serialised string and nothing else, and
    what is returned is the UTF-8 of that string, never the stored bytes. *)
Theorem decode_password_exact bs secret :
  decode_qstring_password bs = Ok secret <->
  exists o, qstring_wf o /\ bs = enc_qstring o /\ secret = utf8 (qview o).1.
Proof. apply decode_password_language. Qed.

Example decode_password_hunter2 :
  @decode_qstring_password (map z2b [0; 0; 0; 14; 0; 104; 0; 117; 0; 110; 0; 116; 0; 101; 0; 114; 0; 50])
  = Ok (utf8 (lit "hunter2")).
Proof. vm_compute. reflexivity. Qed.

(** Mapping an entry preserves its identity. No attribute of the sidecar row
    is altered or dropped; a row with a schema is copied untouched; otherwise
    only the three provenance names are added, each only where it is free, and
    exactly the names added are recorded; and the outcome counts what the row
    brought and nothing the importer wrote: fully portable with a non-empty
    schema, preserved only exactly when the row brought no attribute. *)
Theorem map_entry_preserves w f e t s row : let i := (map_entry w f e t s row).1 in
  row_attrs row ⊆ si_attributes i
  /\ (is_Some (row_attrs row !! XDG_SCHEMA) -> si_attributes i = row_attrs row /\ inserted_keys i = ∅)
  /\ (row_attrs row !! XDG_SCHEMA = None ->
      dom (si_attributes i) = dom (row_attrs row) ∪ list_to_set SYNTHESISED_ATTRIBUTES
      /\ inserted_keys i = list_to_set SYNTHESISED_ATTRIBUTES ∖ dom (row_attrs row))
  /\ (item_outcome i = PreservedOnly <-> row_attrs row = ∅)
  /\ (item_outcome i = FullyPortable <-> exists c x, row_attrs row !! XDG_SCHEMA = Some (c :: x))
  /\ si_label i = e /\ si_secret i = s
  /\ si_created i = default 0 (row ≫= sc_created) /\ si_modified i = default 0 (row ≫= sc_modified).
Proof.
  intros i. pose proof (map_entry_attributes w f e t s row) as Hm. fold i in Hm. cbn zeta in Hm.
  pose proof (map_entry_outcome w f e t s row) as Ho. fold i in Ho. cbn zeta in Ho.
  assert (Hrest : si_label i = e /\ si_secret i = s /\ si_created i = default 0 (row ≫= sc_created)
                  /\ si_modified i = default 0 (row ≫= sc_modified)) by apply map_entry_fields.
  destruct (row_attrs row !! XDG_SCHEMA) as [x|] eqn:E; destruct Hm as (Ha & Hi & _); rewrite Ha.
  - split; [done|]. split; [done|]. split; [done|]. rewrite Ho. split; [|split; [|done]].
    + assert (row_attrs row <> ∅) by (intros E'; by rewrite E', lookup_empty in E).
      rewrite bool_decide_eq_false_2 by done. by destruct x.
    + destruct x as [|c x]; [|split; [by eauto|done]].
      split; [by case_bool_decide|by intros (? & ? & ?)].
  - split; [apply map_union_subseteq_l|]. split; [by intros []|]. split.
    + intros _. split.
      * rewrite dom_union_L. apply set_eq. intros k.
        by rewrite !elem_of_union, (elem_of_dom (list_to_map _)), synthesised_dom, elem_of_list_to_set.
      * rewrite Hi. apply set_eq. intros k. rewrite elem_of_difference, !elem_of_list_to_set, elem_of_dom.
        rewrite !list_elem_of_In, filter_In. unfold is_taken.
        rewrite negb_true_iff, bool_decide_eq_false. done.
    + rewrite Ho. split; [case_bool_decide; done|]. split; [|done].
      split; [by case_bool_decide|]. by intros (? & ? & ?).
Qed.

Lemma map_entry_preserves_witness :
  let row := {| sc_created := Some 5; sc_modified := None; sc_content_type := None;
                sc_attributes := {[ATTR_KEY := lit "mine"]}; malformed_fields := 0 |} in
  let i := (map_entry (lit "w") (lit "f") (lit "e") TPassword [x01] (Some row)).1 in
  si_attributes i !! ATTR_KEY = Some (lit "mine") /\ si_attributes i !! ATTR_FOLDER = Some (lit "f")
  /\ inserted_keys i = list_to_set SYNTHESISED_ATTRIBUTES ∖ dom (sc_attributes row).
Proof.
  intros row i. split; [vm_compute; reflexivity|]. split; [vm_compute; reflexivity|].
  apply (map_entry_preserves (lit "w") (lit "f") (lit "e") TPassword [x01] (Some row)). vm_compute. reflexivity.
Defined.

(** A repeated sidecar key is reported once for every row it discards, and the
    row kept is the last one. *)
Theorem sidecar_duplicates_reported members k :
  (visit_map members).1 !! k = (list_to_map (rev members) : gmap str json) !! k
  /\ count_if (str_eqb k) (visit_map members).2 = (count_if (fun kv => str_eqb k kv.1) members - 1)%nat.
Proof. split; apply visit_map_spec. Qed.
