(* ===== verification/Walk.v ===== *)
(** * Walking a wallet ([walk] and [read_secret] of [src/import/kwallet.rs])

    The reads are the operations of [WalletReader], the code's own seam: each
    answers or fails, and listing a folder again may answer differently, so a
    listing is asked with its position in the folder list.  The walk lists
    everything first, then reads; its accumulator is split into what each pass
    writes, and assembled into an [Extraction] at the end. *)
From S2P Require Import Prelude Text Env Crypto Format Import Formats KWallet.

Definition MAX_ENTRIES : Z := 200000.
Definition MAX_SECRET_BYTES : Z := Z.shiftl 256 20.
Definition EXPECTED_NON_ENTRY_ROWS : nat := 2.

Inductive ReadError : Type := RFailed (e : str) | RTimedOut (call : str).

(** [Display for ReadError]. *)
Definition read_error_text (e : ReadError) : str :=
  match e with
  | RFailed e => e
  | RTimedOut call => call ++ lit " did not answer within 60s"
  end.

Inductive KWalletError : Type :=
| CallTimedOut (call : str)
| KDbus (e : str)
| TooManyEntries
| TooManySecretBytes.

Record WalletReader : Type := {
  folder_list : result (list str) ReadError;
  entry_list : nat -> str -> result (list str) ReadError;
  entry_type : str -> str -> result Z ReadError;
  read_password : str -> str -> result str ReadError;
  read_map : str -> str -> result bytes ReadError;
  read_entry : str -> str -> result bytes ReadError
}.

Inductive SkipReason : Type :=
| MapUndecodable (e : MapDecodeError)
| Unreadable (e : str)
| PasswordUndecodable (e : MapDecodeError)
| EmptyRead (call : str)
| TypeUnavailable (e : str).

Record SkippedEntry : Type := { sk_provenance : Provenance; sk_label : str; sk_reason : SkipReason }.
Record RefusedEntry : Type := { rf_provenance : Provenance; rf_label : str; rf_refusal : Refusal }.

(** ** Pass one: listing *)

Record Listing : Type := { l_folder : str; l_entries : list str }.

(** The locals of pass one and the fields of the extraction it writes. *)
Record listed : Type := {
  listings : list Listing;
  claims : gmap str nat;
  n_listed : Z;
  seen_folders : gset str;
  listing_index : gmap str nat;
  live_folders : gset str;
  counted_empty : gset str;
  o_duplicate_folders : nat;
  o_duplicate_entries : nat;
  o_empty_folders : nat;
  o_unreadable : list str;
  o_notes : list str
}.

Definition listed_start : listed :=
  {| listings := []; claims := ∅; n_listed := 0; seen_folders := ∅; listing_index := ∅; live_folders := ∅;
     counted_empty := ∅; o_duplicate_folders := 0; o_duplicate_entries := 0; o_empty_folders := 0;
     o_unreadable := []; o_notes := [] |}.

(** [*claims.entry(key).or_insert(0) += 1]. *)
Definition claim_key (folder : str) (m : gmap str nat) (entry : str) : gmap str nat :=
  bump (sidecar_key folder entry) m.

(** The first of each name, and how many repeats were dropped. *)
Fixpoint dedup_entries (seen : gset str) (l : list str) : list str * nat :=
  match l with
  | [] => ([], 0%nat)
  | x :: l =>
    if bool_decide (x ∈ seen)
    then let '(r, n) := dedup_entries seen l in (r, S n)
    else let '(r, n) := dedup_entries ({[x]} ∪ seen) l in (x :: r, n)
  end.

Definition push_entry (idx : nat) (entry : str) (ls : list Listing) : list Listing :=
  alter (fun l => {| l_folder := l_folder l; l_entries := l_entries l ++ [entry] |}) idx ls.

(** [listings[idx].entries]. *)
Definition entries_at (idx : nat) (ls : list Listing) : list str :=
  match ls !! idx with Some l => l_entries l | None => [] end.

Definition with_listing (st : listed) (ls : list Listing) (cl : gmap str nat) (n : Z) : listed :=
  {| listings := ls; claims := cl; n_listed := n; seen_folders := seen_folders st; listing_index := listing_index st;
     live_folders := live_folders st; counted_empty := counted_empty st;
     o_duplicate_folders := o_duplicate_folders st; o_duplicate_entries := o_duplicate_entries st;
     o_empty_folders := o_empty_folders st; o_unreadable := o_unreadable st; o_notes := o_notes st |}.

(** A repeat listing: every entry no earlier listing held is added. *)
Fixpoint union_entries (folder : str) (idx : nat) (entries : list str) (st : listed) : result listed KWalletError :=
  match entries with
  | [] => Ok st
  | e :: entries =>
    if bool_decide (e ∈ entries_at idx (listings st)) then union_entries folder idx entries st
    else
      let n := Z.min (n_listed st + 1) u64_max in
      if MAX_ENTRIES <? n then Err TooManyEntries
      else union_entries folder idx entries
             (with_listing st (push_entry idx e (listings st)) (claim_key folder (claims st) e) n)
  end.

(** The part of the body before the listing is asked: the duplicate counter. *)
Definition note_folder (st : listed) (folder : str) : listed :=
  {| listings := listings st; claims := claims st; n_listed := n_listed st;
     seen_folders := {[folder]} ∪ seen_folders st; listing_index := listing_index st;
     live_folders := live_folders st; counted_empty := counted_empty st;
     o_duplicate_folders := (if bool_decide (folder ∈ seen_folders st)
                             then S (o_duplicate_folders st) else o_duplicate_folders st);
     o_duplicate_entries := o_duplicate_entries st; o_empty_folders := o_empty_folders st;
     o_unreadable := o_unreadable st; o_notes := o_notes st |}.

Definition with_unreadable (st : listed) (u notes : list str) : listed :=
  {| listings := listings st; claims := claims st; n_listed := n_listed st; seen_folders := seen_folders st;
     listing_index := listing_index st; live_folders := live_folders st; counted_empty := counted_empty st;
     o_duplicate_folders := o_duplicate_folders st; o_duplicate_entries := o_duplicate_entries st;
     o_empty_folders := o_empty_folders st; o_unreadable := u; o_notes := notes |}.

(** A listing that failed. *)
Definition listing_failed (st : listed) (folder : str) (e : ReadError) : listed :=
  if bool_decide (folder ∈ live_folders st) then
    with_unreadable st (o_unreadable st) (o_notes st ++
      [lit "a repeat listing of the folder '" ++ folder ++ lit "' could not be read (" ++ read_error_text e
       ++ lit "), so any entries only that listing held were not imported"])
  else if negb (existsb (str_eqb folder) (o_unreadable st)) then
    with_unreadable st (o_unreadable st ++ [folder]) (o_notes st ++
      [lit "the folder '" ++ folder ++ lit "' could not be listed: " ++ read_error_text e])
  else st.

(** The folder answered: it is live, and no longer unreadable. *)
Definition mark_live (st : listed) (folder : str) (dups : nat) : listed :=
  {| listings := listings st; claims := claims st; n_listed := n_listed st; seen_folders := seen_folders st;
     listing_index := listing_index st; live_folders := {[folder]} ∪ live_folders st;
     counted_empty := counted_empty st; o_duplicate_folders := o_duplicate_folders st;
     o_duplicate_entries := o_duplicate_entries st + dups; o_empty_folders := o_empty_folders st;
     o_unreadable := (match position (str_eqb folder) (o_unreadable st) with
                      | Some i => vec_remove i (o_unreadable st) | None => o_unreadable st end);
     o_notes := o_notes st |}.

Definition with_empty (st : listed) (c : gset str) (n : nat) : listed :=
  {| listings := listings st; claims := claims st; n_listed := n_listed st; seen_folders := seen_folders st;
     listing_index := listing_index st; live_folders := live_folders st; counted_empty := c;
     o_duplicate_folders := o_duplicate_folders st; o_duplicate_entries := o_duplicate_entries st;
     o_empty_folders := n; o_unreadable := o_unreadable st; o_notes := o_notes st |}.

Definition with_index (st : listed) (ix : gmap str nat) : listed :=
  {| listings := listings st; claims := claims st; n_listed := n_listed st; seen_folders := seen_folders st;
     listing_index := ix; live_folders := live_folders st; counted_empty := counted_empty st;
     o_duplicate_folders := o_duplicate_folders st; o_duplicate_entries := o_duplicate_entries st;
     o_empty_folders := o_empty_folders st; o_unreadable := o_unreadable st; o_notes := o_notes st |}.

(** The first non-empty listing of a folder. *)
Definition add_listing (st : listed) (folder : str) (entries : list str) : result listed KWalletError :=
  let st := if bool_decide (folder ∈ counted_empty st)
            then with_empty st (counted_empty st ∖ {[folder]}) (o_empty_folders st - 1)
            else st in
  let n := Z.min (n_listed st + zlen entries) u64_max in
  if MAX_ENTRIES <? n then Err TooManyEntries
  else
    let cl := fold_left (claim_key folder) entries (claims st) in
    let st' := with_index st (<[folder := length (listings st)]> (listing_index st)) in
    Ok (with_listing st' (listings st ++ [{| l_folder := folder; l_entries := entries |}]) cl n).

(** One turn of the listing loop, for the folder at position [i]. *)
Definition list_folder (r : WalletReader) (i : nat) (folder : str) (st : listed) : result listed KWalletError :=
  let st := note_folder st folder in
  match entry_list r i folder with
  | Err e => Ok (listing_failed st folder e)
  | Ok entries =>
    let '(entries, dups) := dedup_entries ∅ entries in
    let st := mark_live st folder dups in
    match listing_index st !! folder with
    | Some idx => union_entries folder idx entries st
    | None =>
      match entries with
      | [] =>
        if bool_decide (folder ∈ counted_empty st) then Ok st
        else Ok (with_empty st ({[folder]} ∪ counted_empty st) (S (o_empty_folders st)))
      | _ => add_listing st folder entries
      end
    end
  end.

Fixpoint list_folders (r : WalletReader) (i : nat) (folders : list str) (st : listed) : result listed KWalletError :=
  match folders with
  | [] => Ok st
  | f :: folders => let? st := list_folder r i f st in list_folders r (S i) folders st
  end.

(** ** Pass two: reading *)

(** The locals of pass two and the fields of the extraction it writes. *)
Record reading : Type := {
  r_items : list SourceItem;
  r_refused : list RefusedEntry;
  r_skipped : list SkippedEntry;
  without_sidecar : nat;
  malformed : nat;
  password_fallbacks : nat;
  map_fallbacks : nat;
  conflicts : nat;
  resolved : gset str;
  secret_bytes : Z
}.

Definition reading_start : reading :=
  {| r_items := []; r_refused := []; r_skipped := []; without_sidecar := 0; malformed := 0;
     password_fallbacks := 0; map_fallbacks := 0; conflicts := 0; resolved := ∅; secret_bytes := 0 |}.

Section walk.
Context `{Prims} `{JsonText}.

(** What [read_secret] returns: the secret or the reason, and which fallback
    counters it moved. *)
Definition read_secret (r : WalletReader) (folder entry : str) (t : EntryType)
  : result bytes SkipReason * nat * nat :=
  match t with
  | TPassword =>
    let fallback (first : str) :=
      match read_entry r folder entry with
      | Err second =>
        (Err (Unreadable (lit "readPassword failed (" ++ first ++ lit ") and readEntry failed ("
                          ++ read_error_text second ++ lit ")")), 0%nat, 0%nat)
      | Ok [] => (Err (EmptyRead (lit "readEntry")), 0%nat, 0%nat)
      | Ok raw =>
        match decode_qstring_password raw with
        | Err e => (Err (PasswordUndecodable e), 0%nat, 0%nat)
        | Ok recovered => (Ok recovered, 1%nat, 0%nat)
        end
      end in
    match read_password r folder entry with
    | Ok (c :: s) => (Ok (utf8 (c :: s)), 0%nat, 0%nat)
    | Ok [] => fallback (lit "readPassword answered with an empty string")
    | Err e => fallback (read_error_text e)
    end
  | TMap =>
    let decoded (raw : bytes) (n : nat) := (map_err MapUndecodable (read_map_secret raw), 0%nat, n) in
    let fallback (first : str) :=
      match read_entry r folder entry with
      | Err second =>
        (Err (Unreadable (lit "readMap failed (" ++ first ++ lit ") and readEntry failed ("
                          ++ read_error_text second ++ lit ")")), 0%nat, 0%nat)
      | Ok [] => (Err (EmptyRead (lit "readEntry")), 0%nat, 0%nat)
      | Ok recovered => decoded recovered 1%nat
      end in
    match read_map r folder entry with
    | Ok (b :: v) => decoded (b :: v) 0%nat
    | Ok [] => fallback (lit "readMap answered with no bytes")
    | Err e => fallback (read_error_text e)
    end
  | TStream | TUnknown | TOther _ =>
    match read_entry r folder entry with
    | Err e => (Err (Unreadable (read_error_text e)), 0%nat, 0%nat)
    | Ok [] => (Err (EmptyRead (lit "readEntry")), 0%nat, 0%nat)
    | Ok raw => (Ok raw, 0%nat, 0%nat)
    end
  end.

Definition skip (st : reading) (p : Provenance) (entry : str) (why : SkipReason) : reading :=
  {| r_items := r_items st; r_refused := r_refused st;
     r_skipped := r_skipped st ++ [{| sk_provenance := p; sk_label := entry; sk_reason := why |}];
     without_sidecar := without_sidecar st; malformed := malformed st;
     password_fallbacks := password_fallbacks st; map_fallbacks := map_fallbacks st;
     conflicts := conflicts st; resolved := resolved st; secret_bytes := secret_bytes st |}.

Definition refuse (st : reading) (p : Provenance) (label : str) (why : Refusal) : reading :=
  {| r_items := r_items st;
     r_refused := r_refused st ++ [{| rf_provenance := p; rf_label := label; rf_refusal := why |}];
     r_skipped := r_skipped st; without_sidecar := without_sidecar st; malformed := malformed st;
     password_fallbacks := password_fallbacks st; map_fallbacks := map_fallbacks st;
     conflicts := conflicts st; resolved := resolved st; secret_bytes := secret_bytes st |}.

Definition add_item (st : reading) (i : SourceItem) : reading :=
  {| r_items := r_items st ++ [i]; r_refused := r_refused st; r_skipped := r_skipped st;
     without_sidecar := without_sidecar st; malformed := malformed st;
     password_fallbacks := password_fallbacks st; map_fallbacks := map_fallbacks st;
     conflicts := conflicts st; resolved := resolved st; secret_bytes := secret_bytes st |}.

(** The row found for an entry is resolved, or one more entry has none. *)
Definition note_row (st : reading) (key : str) (row : option SidecarEntry) : reading :=
  {| r_items := r_items st; r_refused := r_refused st; r_skipped := r_skipped st;
     without_sidecar := (match row with Some _ => without_sidecar st | None => S (without_sidecar st) end);
     malformed := malformed st;
     password_fallbacks := password_fallbacks st; map_fallbacks := map_fallbacks st; conflicts := conflicts st;
     resolved := (match row with Some _ => {[key]} ∪ resolved st | None => resolved st end);
     secret_bytes := secret_bytes st |}.

Definition count_fallbacks (st : reading) (pw mp : nat) : reading :=
  {| r_items := r_items st; r_refused := r_refused st; r_skipped := r_skipped st;
     without_sidecar := without_sidecar st; malformed := malformed st;
     password_fallbacks := password_fallbacks st + pw; map_fallbacks := map_fallbacks st + mp;
     conflicts := conflicts st; resolved := resolved st; secret_bytes := secret_bytes st |}.

Definition applied (st : reading) (bytes : Z) (bad conf : nat) : reading :=
  {| r_items := r_items st; r_refused := r_refused st; r_skipped := r_skipped st;
     without_sidecar := without_sidecar st; malformed := malformed st + bad;
     password_fallbacks := password_fallbacks st; map_fallbacks := map_fallbacks st;
     conflicts := conflicts st + conf; resolved := resolved st; secret_bytes := bytes |}.

(** The sidecar row an entry gets: none when its key is not its own. *)
Definition row_of (sidecar : Sidecar) (cl : gmap str nat) (folder entry : str) : option SidecarEntry :=
  if bool_decide (default 0%nat (cl !! sidecar_key folder entry) = 1%nat)
  then sidecar_get sidecar (sidecar_key folder entry) else None.

(** One turn of the reading loop. *)
Definition read_one (r : WalletReader) (wallet : str) (sidecar : Sidecar) (cl : gmap str nat)
    (folder entry : str) (st : reading) : result reading KWalletError :=
  let key := sidecar_key folder entry in
  let row := row_of sidecar cl folder entry in
  let st := note_row st key row in
  let p := provenance_kwallet wallet folder entry in
  match entry_type r folder entry with
  | Err e => Ok (skip st p entry (TypeUnavailable (read_error_text e)))
  | Ok code =>
    if bool_decide (from_code code = TUnknown) then
      Ok (skip st p entry (TypeUnavailable
            (lit "entryType reported 0 (Unknown), which no KWallet writer stores")))
    else
      let t := from_code code in
      let '(res, pw, mp) := read_secret r folder entry t in
      let st := count_fallbacks st pw mp in
      match res with
      | Err (MapUndecodable (MTooLarge len limit)) => Ok (refuse st p entry (RefusedCap CapSecret len limit))
      | Err reason => Ok (skip st p entry reason)
      | Ok secret =>
        let total := Z.min (secret_bytes st + zlen secret) u64_max in
        if MAX_SECRET_BYTES <? total then Err TooManySecretBytes
        else
          let '(item, conf) := map_entry wallet folder entry t secret row in
          let st := applied st total (match row with Some s => malformed_fields s | None => 0 end) conf in
          match import_check_caps (si_label item) (si_attributes item) (zlen (si_secret item)) (si_content_type item) with
          | Some refusal => Ok (refuse st (si_provenance item) (si_label item) refusal)
          | None => Ok (add_item st item)
          end
      end
  end.

Fixpoint read_entries (r : WalletReader) (wallet : str) (sidecar : Sidecar) (cl : gmap str nat)
    (folder : str) (entries : list str) (st : reading) : result reading KWalletError :=
  match entries with
  | [] => Ok st
  | e :: entries => let? st := read_one r wallet sidecar cl folder e st in
                    read_entries r wallet sidecar cl folder entries st
  end.

Fixpoint read_listings (r : WalletReader) (wallet : str) (sidecar : Sidecar) (cl : gmap str nat)
    (ls : list Listing) (st : reading) : result reading KWalletError :=
  match ls with
  | [] => Ok st
  | l :: ls => let? st := read_entries r wallet sidecar cl (l_folder l) (l_entries l) st in
               read_listings r wallet sidecar cl ls st
  end.

(** ** The walk *)

Record Extraction : Type := {
  ex_items : list SourceItem;
  ex_refused : list RefusedEntry;
  ex_skipped : list SkippedEntry;
  ex_empty_folders : nat;
  entries_without_sidecar : nat;
  unresolved_sidecar_rows : list str;
  ambiguous_sidecar_keys : list str;
  skipped_sidecar_rows : nat;
  duplicate_sidecar_keys : list str;
  malformed_sidecar_fields : nat;
  password_read_fallbacks : nat;
  map_read_fallbacks : nat;
  attribute_conflicts : nat;
  unreadable_folders : list str;
  duplicate_folders : nat;
  duplicate_entries : nat;
  ex_notes : list str
}.

Definition extraction_seen (e : Extraction) : nat :=
  (length (ex_items e) + length (ex_refused e) + length (ex_skipped e))%nat.

Definition unexpected_sidecar_rows (e : Extraction) : nat := (skipped_sidecar_rows e - EXPECTED_NON_ENTRY_ROWS)%nat.

Definition walk (r : WalletReader) (wallet : str) (sidecar : Sidecar) : result Extraction KWalletError :=
  match folder_list r with
  | Err (RTimedOut call) => Err (CallTimedOut call)
  | Err (RFailed e) => Err (KDbus e)
  | Ok folders =>
    let? l := list_folders r 0 folders listed_start in
    let ambiguous := map fst (List.filter (fun '(key, n) => (1 <? n)%nat && bool_decide (is_Some (sidecar_get sidecar key)))
                                          (btree_iter (claims l))) in
    let? o := read_listings r wallet sidecar (claims l) (listings l) reading_start in
    Ok {| ex_items := r_items o; ex_refused := r_refused o; ex_skipped := r_skipped o;
          ex_empty_folders := o_empty_folders l; entries_without_sidecar := without_sidecar o;
          unresolved_sidecar_rows :=
            List.filter (fun k => negb (bool_decide (k ∈ resolved o))) (btree_keys (sc_entries sidecar));
          ambiguous_sidecar_keys := ambiguous;
          skipped_sidecar_rows := skipped_rows sidecar;
          duplicate_sidecar_keys := KWallet.duplicate_keys sidecar;
          malformed_sidecar_fields := malformed o;
          password_read_fallbacks := password_fallbacks o; map_read_fallbacks := map_fallbacks o;
          attribute_conflicts := conflicts o;
          unreadable_folders := o_unreadable l; duplicate_folders := o_duplicate_folders l;
          duplicate_entries := o_duplicate_entries l; ex_notes := o_notes l |}
  end.
End walk.
