(* ===== verification/WalkProps.v ===== *)
(** * What a wallet's walk accounts for ([src/import/kwallet.rs])

    Every entry some successful listing named is written, refused or skipped,
    exactly once, whatever the daemon repeats; and a sidecar row is applied to
    an entry only when no other listed entry composes the same key. *)
From S2P Require Import Prelude Text Env Crypto Codec Format Import Formats KWallet Walk.

(** ** Listing *)

(** The (folder, entry) pairs of the listings, in reading order. *)
Definition pairs_of (ls : list Listing) : list (str * str) :=
  flat_map (fun l => map (pair (l_folder l)) (l_entries l)) ls.

Definition claims_key (key : str) (p : str * str) : bool := str_eqb key (sidecar_key p.1 p.2).

(** The listings hold exactly the pairs [A], each once; the claims count them. *)
Record listed_inv (A : str -> str -> Prop) (st : listed) : Prop := {
  li_folders : NoDup (map l_folder (listings st));
  li_index f idx : listing_index st !! f = Some idx <-> l_folder <$> listings st !! idx = Some f;
  li_pairs : NoDup (pairs_of (listings st));
  li_answers f e : (f, e) ∈ pairs_of (listings st) <-> A f e;
  li_claims key : default 0%nat (claims st !! key) = count_if (claims_key key) (pairs_of (listings st));
  li_count : n_listed st = zlen (pairs_of (listings st));
  li_bound : n_listed st <= MAX_ENTRIES
}.

Lemma dedup_entries_spec l : forall s, let '(ds, n) := dedup_entries s l in
  NoDup ds /\ (forall x, x ∈ ds <-> x ∈ l /\ x ∉ s).
Proof.
  induction l as [|x l IH]; intros s; simpl; [split; [constructor|set_solver]|].
  case_bool_decide as Hx.
  - specialize (IH s). destruct (dedup_entries s l) as [r n]. destruct IH as [Hnd Hel]. split; [done|]. set_solver.
  - specialize (IH ({[x]} ∪ s)). destruct (dedup_entries ({[x]} ∪ s) l) as [r n]. destruct IH as [Hnd Hel].
    split; [constructor; [set_solver|done]|]. intros y. destruct (decide (y = x)) as [->|]; set_solver.
Qed.

Lemma elem_of_pairs f e ls : (f, e) ∈ pairs_of ls <-> exists l, l ∈ ls /\ l_folder l = f /\ e ∈ l_entries l.
Proof.
  unfold pairs_of. rewrite list_elem_of_In, in_flat_map. setoid_rewrite in_map_iff. setoid_rewrite <- list_elem_of_In. naive_solver.
Qed.

Lemma pairs_of_app a b : pairs_of (a ++ b) = pairs_of a ++ pairs_of b.
Proof. apply flat_map_app. Qed.

(** Two listings of one folder are one listing. *)
Lemma same_folder ls i j l k : NoDup (map l_folder ls) -> ls !! i = Some l -> ls !! j = Some k ->
  l_folder l = l_folder k -> i = j.
Proof.
  intros Hnd Hi Hj E. eapply (NoDup_lookup (map l_folder ls) i j (l_folder l)); [done| |].
  - change (map l_folder ls) with (l_folder <$> ls). by rewrite list_lookup_fmap, Hi.
  - change (map l_folder ls) with (l_folder <$> ls). by rewrite list_lookup_fmap, Hj, E.
Qed.

Lemma entries_at_spec ls idx f e : NoDup (map l_folder ls) -> l_folder <$> ls !! idx = Some f ->
  e ∈ entries_at idx ls <-> (f, e) ∈ pairs_of ls.
Proof.
  intros Hnd Hf. destruct (ls !! idx) as [l|] eqn:E; [|done]. simplify_eq/=.
  unfold entries_at. rewrite E, elem_of_pairs. split.
  - intros He. exists l. split; [by eapply list_elem_of_lookup_2|done].
  - intros (k & Hk & Ef & He). apply list_elem_of_lookup in Hk as [j Hj].
    assert (j = idx) as -> by (by eapply same_folder). congruence.
Qed.

Lemma push_entry_pairs idx e ls f : l_folder <$> ls !! idx = Some f ->
  pairs_of (push_entry idx e ls) ≡ₚ (f, e) :: pairs_of ls
  /\ map l_folder (push_entry idx e ls) = map l_folder ls.
Proof.
  unfold push_entry. revert idx. induction ls as [|l ls IH]; intros idx Hf; [done|]. destruct idx as [|idx].
  - simplify_eq/=. split; [|done]. unfold pairs_of. cbn [flat_map]. cbn. rewrite map_app. cbn.
    rewrite <- app_assoc. cbn. by rewrite <- Permutation_middle.
  - cbn in Hf. destruct (IH idx Hf) as [Hp Hm]. cbn [alter list_alter]. split.
    + unfold pairs_of in *. cbn [flat_map]. rewrite Hp. by rewrite Permutation_middle.
    + cbn [map]. by rewrite Hm.
Qed.

(** A new pair keeps the invariant of the counters. *)
Lemma claim_count key f e cl l :
  default 0%nat (cl !! key) = count_if (claims_key key) l ->
  default 0%nat (claim_key f cl e !! key) = count_if (claims_key key) ((f, e) :: l).
Proof.
  intros H. rewrite count_if_cons. unfold claim_key, bump, claims_key at 1. cbn [fst snd].
  unfold str_eqb. case_bool_decide as E.
  - subst. rewrite lookup_insert_eq. simpl. by rewrite H.
  - by rewrite lookup_insert_ne.
Qed.

Lemma listed_inv_perm A st ps : pairs_of (listings st) ≡ₚ ps ->
  NoDup (map l_folder (listings st)) ->
  (forall f idx, listing_index st !! f = Some idx <-> l_folder <$> listings st !! idx = Some f) ->
  NoDup ps -> (forall f e, (f, e) ∈ ps <-> A f e) ->
  (forall key, default 0%nat (claims st !! key) = count_if (claims_key key) ps) ->
  n_listed st = zlen ps -> n_listed st <= MAX_ENTRIES ->
  listed_inv A st.
Proof.
  intros Hp Hf Hi Hnd Ha Hc Hn Hb. split; try done.
  - by rewrite Hp.
  - intros f e. by rewrite Hp.
  - intros key. by rewrite (count_if_perm _ _ _ Hp).
  - rewrite Hn. unfold zlen. by rewrite (Permutation_length Hp).
Qed.

(** What the listing loop keeps of the state when no entry is added. *)
Definition same_listings (st st' : listed) : Prop :=
  listings st' = listings st /\ claims st' = claims st /\ n_listed st' = n_listed st
  /\ listing_index st' = listing_index st.

Lemma listed_inv_same A B st st' : same_listings st st' -> (forall f e, A f e <-> B f e) ->
  listed_inv A st -> listed_inv B st'.
Proof.
  intros (E1 & E2 & E3 & E4) HAB [H1 H2 H3 H4 H5 H6 H7]. split; rewrite ?E1, ?E2, ?E3, ?E4; try done.
  intros f e. by rewrite H4.
Qed.

Lemma lookup_push_entry idx j e ls : l_folder <$> push_entry idx e ls !! j = l_folder <$> ls !! j.
Proof.
  unfold push_entry. destruct (decide (idx = j)) as [->|Hne].
  - rewrite list_lookup_alter_eq. by destruct (ls !! j).
  - by rewrite list_lookup_alter_ne.
Qed.

Lemma min_step n k : 0 <= k -> 0 <= n <= MAX_ENTRIES ->
  (MAX_ENTRIES <? Z.min (n + k) u64_max) = false -> Z.min (n + k) u64_max = n + k /\ n + k <= MAX_ENTRIES.
Proof. unfold MAX_ENTRIES, u64_max. intros ?? H. apply Z.ltb_ge in H. lia. Qed.

Lemma listed_inv_range A st : listed_inv A st -> 0 <= n_listed st <= MAX_ENTRIES.
Proof. intros [_ _ _ _ _ H6 H7]. unfold zlen in *. lia. Qed.

Lemma union_entries_inv folder idx es : forall A st st',
  listed_inv A st -> listing_index st !! folder = Some idx -> union_entries folder idx es st = Ok st' ->
  listed_inv (fun f e => A f e \/ f = folder /\ e ∈ es) st'.
Proof.
  induction es as [|e es IH]; intros A st st' Hinv Hidx; cbn [union_entries].
  - intros [= <-]. eapply listed_inv_same; [split; done| |done]. set_solver.
  - pose proof (listed_inv_range _ _ Hinv) as Hr. destruct Hinv as [H1 H2 H3 H4 H5 H6 H7].
    pose proof (proj1 (H2 _ _) Hidx) as Hf. pose proof (entries_at_spec _ _ _ e H1 Hf) as Hat.
    case_bool_decide as Hin.
    + intros E. apply (IH A) in E; [|by split|done].
      eapply listed_inv_same; [split; done| |exact E]. intros f x. apply Hat in Hin. apply H4 in Hin.
      rewrite elem_of_cons. naive_solver.
    + destruct (MAX_ENTRIES <? _) eqn:Hb; [done|]. intros E.
      destruct (push_entry_pairs idx e _ _ Hf) as [Hp Hm].
      destruct (min_step _ 1 ltac:(lia) Hr Hb) as [En Hle]. rewrite En in E.
      apply (IH (fun f x => A f x \/ f = folder /\ x = e)) in E; [| |done].
      * eapply listed_inv_same; [split; done| |exact E]. intros f x. rewrite elem_of_cons. naive_solver.
      * eapply listed_inv_perm; [exact Hp|..]; cbn [with_listing listings claims n_listed listing_index].
        -- by rewrite Hm.
        -- intros f j. by rewrite lookup_push_entry, H2.
        -- constructor; [by rewrite <- Hat|done].
        -- intros f x. rewrite elem_of_cons, H4. naive_solver.
        -- intros key. by apply claim_count.
        -- rewrite H6. unfold zlen. cbn [length]. lia.
        -- done.
Qed.

Lemma claim_all key folder es : forall cl l,
  default 0%nat (cl !! key) = count_if (claims_key key) l ->
  default 0%nat (fold_left (claim_key folder) es cl !! key)
  = count_if (claims_key key) (rev (map (pair folder) es) ++ l).
Proof.
  induction es as [|e es IH]; intros cl l H; [done|]. cbn [fold_left map rev]. rewrite <- app_assoc.
  cbn [app]. apply IH. by apply claim_count.
Qed.

Lemma elem_of_folder_pairs f x (folder : str) (es : list str) :
  (f, x) ∈ map (pair folder) es <-> f = folder /\ x ∈ es.
Proof. rewrite list_elem_of_In, in_map_iff. setoid_rewrite <- list_elem_of_In. naive_solver. Qed.

Lemma add_listing_inv A st st' folder es :
  listed_inv A st -> listing_index st !! folder = None -> NoDup es -> add_listing st folder es = Ok st' ->
  listed_inv (fun f e => A f e \/ f = folder /\ e ∈ es) st'.
Proof.
  intros Hinv Hidx Hnd. unfold add_listing.
  set (s := if bool_decide _ then _ else _).
  assert (same_listings st s) as Hs by (subst s; case_bool_decide; by repeat split).
  assert (listed_inv A s) as Hinv' by (eapply listed_inv_same; [exact Hs|done|done]).
  assert (listing_index s !! folder = None) as Hidx' by (destruct Hs as (_ & _ & _ & ->); done).
  clear Hinv Hidx Hs. clearbody s. pose proof (listed_inv_range _ _ Hinv') as Hr.
  destruct Hinv' as [H1 H2 H3 H4 H5 H6 H7].
  destruct (MAX_ENTRIES <? _) eqn:Hb; [done|]. intros [= <-].
  destruct (min_step _ (zlen es) ltac:(unfold zlen; lia) Hr Hb) as [En Hle]. rewrite En.
  assert (folder ∉ map l_folder (listings s)) as Hnew.
  { change (map l_folder (listings s)) with (l_folder <$> listings s).
    intros (j & Hj)%list_elem_of_lookup. rewrite list_lookup_fmap in Hj. apply H2 in Hj. congruence. }
  assert (Hfresh : forall f e, (f, e) ∈ pairs_of (listings s) -> f <> folder).
  { intros f e (l & Hl & <- & _)%elem_of_pairs E. apply Hnew. rewrite <- E. apply list_elem_of_In, in_map. by apply list_elem_of_In. }
  eapply (listed_inv_perm _ _ (rev (map (pair folder) es) ++ pairs_of (listings s)));
    cbn [with_listing with_index listings claims n_listed listing_index].
  - rewrite pairs_of_app. unfold pairs_of at 2. cbn [flat_map l_folder l_entries]. rewrite app_nil_r.
    rewrite Permutation_app_comm. by rewrite <- Permutation_rev.
  - rewrite map_app. apply NoDup_app. split; [done|]. split; [|cbn; apply NoDup_singleton].
    intros x Hx. cbn. intros ->%list_elem_of_singleton. done.
  - intros f j. destruct (decide (f = folder)) as [->|Hne].
    + rewrite lookup_insert_eq. split.
      * intros [= <-]. by rewrite list_lookup_middle.
      * intros Hj. f_equal. destruct (decide (j < length (listings s))%nat) as [Hlt|Hge].
        -- rewrite lookup_app_l in Hj by done. apply H2 in Hj. congruence.
        -- rewrite lookup_app_r in Hj by lia. destruct (j - length (listings s))%nat as [|k] eqn:Ek; [lia|done].
    + rewrite lookup_insert_ne by done. rewrite H2.
      destruct (decide (j < length (listings s))%nat) as [Hlt|Hge]; [by rewrite lookup_app_l|].
      rewrite lookup_app_r by lia. rewrite (lookup_ge_None_2 (listings s) j) by lia.
      split; [done|]. destruct (j - length (listings s))%nat; cbn; intros; simplify_eq.
  - apply NoDup_app. rewrite <- Permutation_rev. split; [by apply (NoDup_fmap_2 (pair folder))|]. split; [|done].
    intros [f e] Hin. rewrite <- Permutation_rev in Hin. apply elem_of_folder_pairs in Hin as [-> _].
    intros H. by apply Hfresh in H.
  - intros f e. rewrite elem_of_app, <- Permutation_rev, elem_of_folder_pairs, H4. naive_solver.
  - intros key. by apply claim_all.
  - rewrite H6. unfold zlen. rewrite length_app, length_rev, length_map. lia.
  - done.
Qed.

(** Some listing of the history named the entry. *)
Definition answers (r : WalletReader) (hist : list (nat * str)) (f e : str) : Prop :=
  exists i es, (i, f) ∈ hist /\ entry_list r i f = Ok es /\ e ∈ es.

Lemma answers_snoc r hist i folder f e : answers r (hist ++ [(i, folder)]) f e <->
  answers r hist f e \/ f = folder /\ exists es, entry_list r i folder = Ok es /\ e ∈ es.
Proof.
  unfold answers. setoid_rewrite elem_of_app. setoid_rewrite list_elem_of_singleton. split.
  - intros (j & es & [Hj|Hj] & Hes); [left; eauto|right; simplify_eq; eauto].
  - intros [(j & es & Hj & H)|(-> & es & H)]; [exists j, es; auto|exists i, es; auto].
Qed.

Lemma list_folder_inv r hist i folder st st' :
  listed_inv (answers r hist) st -> list_folder r i folder st = Ok st' ->
  listed_inv (answers r (hist ++ [(i, folder)])) st'.
Proof.
  intros Hinv. unfold list_folder. destruct (entry_list r i folder) as [raw|err] eqn:Er.
  2: { intros [= <-]. apply (listed_inv_same (answers r hist) _ st); [|intros f e; rewrite answers_snoc, Er; naive_solver|exact Hinv].
       unfold listing_failed. by repeat case_match. }
  pose proof (dedup_entries_spec raw ∅) as Hd. destruct (dedup_entries ∅ raw) as [es n]. destruct Hd as [Hnd Hd].
  set (s := mark_live _ folder n).
  assert (listed_inv (answers r hist) s) as Hs by (by apply (listed_inv_same (answers r hist) _ st); [repeat split|..]).
  assert (Hans : forall f e, answers r (hist ++ [(i, folder)]) f e <-> answers r hist f e \/ f = folder /\ e ∈ es).
  { intros f e. rewrite answers_snoc, Er, Hd. set_solver. }
  clearbody s. clear Hd. destruct (listing_index s !! folder) as [idx|] eqn:Ei.
  - intros E. apply (union_entries_inv _ _ _ _ _ _ Hs Ei) in E.
    apply (listed_inv_same _ _ _ _ ltac:(by repeat split) ltac:(intros f e; symmetry; apply Hans) E).
  - destruct es as [|x es].
    + assert (forall f e, answers r hist f e <-> answers r (hist ++ [(i, folder)]) f e) as Hsame by set_solver.
      case_bool_decide; intros [= <-]; (by apply (listed_inv_same (answers r hist) _ s); [repeat split|..]).
    + intros E. apply (add_listing_inv _ _ _ _ _ Hs Ei Hnd) in E.
      apply (listed_inv_same _ _ _ _ ltac:(by repeat split) ltac:(intros f e; symmetry; apply Hans) E).
Qed.

(** The folder list with its positions, from [i] on. *)
Definition asked (i : nat) (folders : list str) : list (nat * str) :=
  combine (seq i (length folders)) folders.

Lemma list_folders_inv r folders : forall hist i st st',
  listed_inv (answers r hist) st -> list_folders r i folders st = Ok st' ->
  listed_inv (answers r (hist ++ asked i folders)) st'.
Proof.
  induction folders as [|f folders IH]; intros hist i st st' Hinv; cbn [list_folders].
  - intros [= <-]. unfold asked. cbn. by rewrite app_nil_r.
  - destruct (list_folder r i f st) as [s|] eqn:E; [|done]. intros E'.
    apply (list_folder_inv _ _ _ _ _ _ Hinv) in E. apply (IH _ _ _ _ E) in E'.
    unfold asked in *. cbn. by rewrite <- app_assoc in E'.
Qed.

Lemma listed_start_inv r : listed_inv (answers r []) listed_start.
Proof.
  split; try done.
  - constructor.
  - constructor.
  - intros f e. split; [set_solver|]. intros (?&?&?&?). set_solver.
Qed.

(** ** Reading *)

Section reading.
Context `{Prims} `{JsonText}.

(** The provenances a reading has accounted for. *)
Definition accounted (st : reading) : list Provenance :=
  map si_provenance (r_items st) ++ map rf_provenance (r_refused st) ++ map sk_provenance (r_skipped st).

Lemma accounted_skip st p e why : accounted (skip st p e why) ≡ₚ p :: accounted st.
Proof. unfold accounted, skip. cbn. rewrite map_app. cbn. rewrite !app_assoc. by rewrite <- Permutation_cons_append. Qed.

Lemma accounted_refuse st p e why : accounted (refuse st p e why) ≡ₚ p :: accounted st.
Proof.
  unfold accounted, refuse. cbn. rewrite map_app. cbn. rewrite <- app_assoc. cbn.
  rewrite !(app_assoc (map si_provenance _)). by rewrite <- Permutation_middle.
Qed.

Lemma accounted_add st i : accounted (add_item st i) ≡ₚ si_provenance i :: accounted st.
Proof. unfold accounted, add_item. cbn. rewrite map_app. cbn. rewrite <- !app_assoc. cbn. by rewrite <- Permutation_middle. Qed.

Lemma read_one_accounts r w sc cl f e st st' : read_one r w sc cl f e st = Ok st' ->
  accounted st' ≡ₚ provenance_kwallet w f e :: accounted st.
Proof.
  unfold read_one. destruct (entry_type r f e) as [c|]; [|intros [= <-]; by rewrite accounted_skip].
  case_bool_decide; [intros [= <-]; by rewrite accounted_skip|].
  destruct (read_secret r f e (from_code c)) as [[res pw] mp]. destruct res as [secret|why].
  - destruct (MAX_SECRET_BYTES <? _); [done|].
    pose proof (map_entry_provenance w f e (from_code c) secret (row_of sc cl f e)) as Hp.
    destruct (map_entry _ _ _ _ _ _) as [item conf]. cbn [fst] in Hp.
    destruct (import_check_caps _ _ _ _); intros [= <-]; rewrite ?accounted_refuse, ?accounted_add, Hp; done.
  - destruct why as [[]| | | |]; intros [= <-]; rewrite ?accounted_refuse, ?accounted_skip; done.
Qed.

Lemma read_entries_accounts r w sc cl f es : forall st st', read_entries r w sc cl f es st = Ok st' ->
  accounted st' ≡ₚ map (fun p => provenance_kwallet w p.1 p.2) (map (pair f) es) ++ accounted st.
Proof.
  induction es as [|e es IH]; intros st st'; cbn [read_entries]; [by intros [= <-]|].
  destruct (read_one r w sc cl f e st) as [s|] eqn:E; [|done]. intros E'.
  apply IH in E' as ->. apply read_one_accounts in E as ->. cbn [map app fst snd]. by rewrite Permutation_middle.
Qed.

Lemma read_listings_accounts r w sc cl ls : forall st st', read_listings r w sc cl ls st = Ok st' ->
  accounted st' ≡ₚ map (fun p => provenance_kwallet w p.1 p.2) (pairs_of ls) ++ accounted st.
Proof.
  induction ls as [|l ls IH]; intros st st'; cbn [read_listings]; [by intros [= <-]|].
  destruct (read_entries _ _ _ _ _ _ _) as [s|] eqn:E; [|done]. intros E'.
  apply IH in E' as ->. apply read_entries_accounts in E as ->.
  unfold pairs_of. cbn [flat_map]. rewrite map_app, !app_assoc. f_equiv. apply Permutation_app_comm.
Qed.

(** The item a turn of the reading loop adds, if it adds one. *)
Definition one_item (r : WalletReader) (w : str) (sc : Sidecar) (cl : gmap str nat) (p : str * str) : option SourceItem :=
  match entry_type r p.1 p.2 with
  | Err _ => None
  | Ok c =>
    if bool_decide (from_code c = TUnknown) then None
    else match (read_secret r p.1 p.2 (from_code c)).1.1 with
         | Err _ => None
         | Ok secret =>
           let i := (map_entry w p.1 p.2 (from_code c) secret (row_of sc cl p.1 p.2)).1 in
           match import_check_caps (si_label i) (si_attributes i) (zlen (si_secret i)) (si_content_type i) with
           | Some _ => None
           | None => Some i
           end
         end
  end.

Lemma read_one_item r w sc cl f e st st' : read_one r w sc cl f e st = Ok st' ->
  r_items st' = r_items st ++ option_list (one_item r w sc cl (f, e)).
Proof.
  unfold read_one, one_item. cbn [fst snd].
  destruct (entry_type r f e) as [c|]; [|intros [= <-]; cbn; by rewrite app_nil_r].
  case_bool_decide; [intros [= <-]; cbn; by rewrite app_nil_r|].
  destruct (read_secret r f e (from_code c)) as [[res pw] mp]. cbn [fst]. destruct res as [secret|why].
  - destruct (MAX_SECRET_BYTES <? _); [done|]. destruct (map_entry _ _ _ _ _ _) as [item conf]. cbn [fst].
    destruct (import_check_caps _ _ _ _); intros [= <-]; cbn; [by rewrite app_nil_r|done].
  - destruct why as [[]| | | |]; intros [= <-]; cbn; by rewrite app_nil_r.
Qed.

Lemma read_entries_items r w sc cl f es : forall st st', read_entries r w sc cl f es st = Ok st' ->
  r_items st' = r_items st ++ omap (one_item r w sc cl) (map (pair f) es).
Proof.
  induction es as [|e es IH]; intros st st'; cbn [read_entries]; [intros [= <-]; cbn; by rewrite app_nil_r|].
  destruct (read_one r w sc cl f e st) as [s|] eqn:E; [|done]. intros ->%IH.
  apply read_one_item in E as ->. rewrite <- app_assoc. f_equal. cbn [map omap list_omap].
  by destruct (one_item r w sc cl (f, e)).
Qed.

Lemma read_listings_items r w sc cl ls : forall st st', read_listings r w sc cl ls st = Ok st' ->
  r_items st' = r_items st ++ omap (one_item r w sc cl) (pairs_of ls).
Proof.
  induction ls as [|l ls IH]; intros st st'; cbn [read_listings]; [intros [= <-]; cbn; by rewrite app_nil_r|].
  destruct (read_entries _ _ _ _ _ _ _) as [s|] eqn:E; [|done]. intros ->%IH.
  apply read_entries_items in E as ->. rewrite <- app_assoc. f_equal. unfold pairs_of. cbn [flat_map].
  by rewrite omap_app.
Qed.

Lemma one_item_spec r w sc cl p i : one_item r w sc cl p = Some i <->
  exists c secret, entry_type r p.1 p.2 = Ok c /\ from_code c <> TUnknown
    /\ (read_secret r p.1 p.2 (from_code c)).1.1 = Ok secret
    /\ i = (map_entry w p.1 p.2 (from_code c) secret (row_of sc cl p.1 p.2)).1
    /\ import_check_caps (si_label i) (si_attributes i) (zlen (si_secret i)) (si_content_type i) = None.
Proof.
  unfold one_item. split.
  - destruct (entry_type r p.1 p.2) as [c|]; [|done]. case_bool_decide; [done|].
    destruct (read_secret r p.1 p.2 (from_code c)).1.1 as [secret|] eqn:Es; [|done].
    destruct (import_check_caps _ _ _ _) eqn:Ec; [done|]. intros [= <-]. by exists c, secret.
  - intros (c & secret & -> & Hc & Es & -> & Ec). rewrite bool_decide_eq_false_2 by done. by rewrite Es, Ec.
Qed.

(** What a finished walk says about its listings. *)
Lemma walk_inv r w sc ex : walk r w sc = Ok ex ->
  exists folders l o, folder_list r = Ok folders
    /\ listed_inv (answers r (asked 0 folders)) l
    /\ accounted o ≡ₚ map (fun p => provenance_kwallet w p.1 p.2) (pairs_of (listings l))
    /\ r_items o = omap (one_item r w sc (claims l)) (pairs_of (listings l))
    /\ ex_items ex = r_items o /\ ex_refused ex = r_refused o /\ ex_skipped ex = r_skipped o.
Proof.
  unfold walk. destruct (folder_list r) as [folders|[|]]; [|done..].
  destruct (list_folders r 0 folders listed_start) as [l|] eqn:El; [|done].
  destruct (read_listings _ _ _ _ _ _) as [o|] eqn:Eo; [|done]. intros [= <-].
  exists folders, l, o. split; [done|]. split; [by apply (list_folders_inv _ _ [] 0%nat _ _ (listed_start_inv r)) in El|].
  pose proof (read_listings_accounts _ _ _ _ _ _ _ Eo) as Ha. unfold accounted in Ha at 2. cbn in Ha.
  rewrite app_nil_r in Ha. by apply read_listings_items in Eo.
Qed.
End reading.

Lemma provenance_kwallet_inj w (p q : str * str) :
  provenance_kwallet w p.1 p.2 = provenance_kwallet w q.1 q.2 -> p = q.
Proof. destruct p, q. cbn. by intros [= -> ->]. Qed.

(** No other listed entry composes the same sidecar key. *)
Definition sole_claimant (A : str -> str -> Prop) (f e : str) : Prop :=
  forall f' e', A f' e' -> sidecar_key f' e' = sidecar_key f e -> f' = f /\ e' = e.

Lemma count_if_one {T} (p : T -> bool) l x : NoDup l -> x ∈ l -> p x = true ->
  count_if p l = 1%nat <-> (forall y, y ∈ l -> p y = true -> y = x).
Proof.
  intros Hnd Hx Hp. apply list_elem_of_split in Hx as (l1 & l2 & ->).
  apply NoDup_app in Hnd as (_ & Hd & [Hx2 _]%NoDup_cons).
  rewrite count_if_app, count_if_cons, Hp. split.
  - intros Hc y [Hy|[->|Hy]%elem_of_cons]%elem_of_app Hpy; [|done|];
      exfalso; apply list_elem_of_split in Hy as (k1 & k2 & ->);
      rewrite !count_if_app, count_if_cons, Hpy in Hc; lia.
  - intros Hall. enough (count_if p l1 = 0%nat /\ count_if p l2 = 0%nat) by lia.
    unfold count_if. split; apply length_zero_iff_nil; apply List.incl_l_nil; intros y [Hy Hpy]%filter_In;
      apply list_elem_of_In in Hy; exfalso.
    + assert (y = x) as -> by (apply Hall; [set_solver|done]). apply (Hd x Hy). set_solver.
    + assert (y = x) as -> by (apply Hall; [set_solver|done]). done.
Qed.

Lemma row_of_spec A l sc f e : listed_inv A l -> A f e ->
  (sole_claimant A f e -> row_of sc (claims l) f e = sidecar_get sc (sidecar_key f e))
  /\ (~ sole_claimant A f e -> row_of sc (claims l) f e = None).
Proof.
  intros [_ _ Hnd Ha Hc _ _] HA. unfold row_of. rewrite Hc.
  assert (count_if (claims_key (sidecar_key f e)) (pairs_of (listings l)) = 1%nat <-> sole_claimant A f e) as Hiff.
  { rewrite (count_if_one _ _ (f, e) Hnd); [|by apply Ha|by apply bool_decide_eq_true]. unfold sole_claimant. split.
    - intros H f' e' HA' E. assert ((f', e') = (f, e)) as [= -> ->]; [|done].
      apply H; [by apply Ha|]. apply bool_decide_eq_true. by cbn.
    - intros H [f' e'] Hin Hk. apply bool_decide_eq_true in Hk. cbn in Hk. apply Ha in Hin.
      by destruct (H f' e' Hin (eq_sym Hk)) as [-> ->]. }
  split; intros Hs; [by rewrite bool_decide_eq_true_2 by tauto|by rewrite bool_decide_eq_false_2 by tauto].
Qed.

Lemma sole_claimant_dec A l f e : listed_inv A l -> A f e -> sole_claimant A f e \/ ~ sole_claimant A f e.
Proof.
  intros [_ _ Hnd Ha _ _ _] HA.
  destruct (decide (Forall (fun p => sidecar_key p.1 p.2 = sidecar_key f e -> p = (f, e)) (pairs_of (listings l)))) as [H|H];
    rewrite Forall_forall in H; [left|right].
  - intros f' e' HA' E. apply Ha in HA'. by apply H in HA' as [= -> ->].
  - intros Hs. apply H. intros [f' e'] Hin E. apply Ha in Hin. by destruct (Hs f' e' Hin E) as [-> ->].
Qed.

(** C29. A finished walk accounts for every entry exactly once. The entries it
    accounts for are exactly those some successful listing named, however
    often the daemon repeats a folder or an entry; each is in exactly one of
    the items, the refusals and the skips; their number is the number the
    report calls seen and never exceeds [MAX_ENTRIES]. *)
Theorem walk_accounts_once (P : Prims) (J : JsonText) r w sc ex : walk r w sc = Ok ex ->
  exists folders pairs, folder_list r = Ok folders
    /\ NoDup pairs /\ (forall f e, (f, e) ∈ pairs <-> answers r (asked 0 folders) f e)
    /\ map si_provenance (ex_items ex) ++ map rf_provenance (ex_refused ex) ++ map sk_provenance (ex_skipped ex)
        ≡ₚ map (fun p => provenance_kwallet w p.1 p.2) pairs
    /\ NoDup (map (fun p => provenance_kwallet w p.1 p.2) pairs)
    /\ extraction_seen ex = length pairs /\ Z.of_nat (extraction_seen ex) <= MAX_ENTRIES.
Proof.
  intros (folders & l & o & Hf & [_ _ Hnd Ha _ Hn Hb] & Hacc & _ & Ei & Er & Es)%walk_inv.
  exists folders, (pairs_of (listings l)). rewrite Ei, Er, Es.
  assert (extraction_seen ex = length (pairs_of (listings l))) as Hseen.
  { unfold extraction_seen. apply Permutation_length in Hacc. unfold accounted in Hacc.
    rewrite !length_app, !length_map in Hacc. rewrite Ei, Er, Es. lia. }
  repeat (split; [done|]). split.
  - apply NoDup_fmap_2_strong; [|done]. intros p q _ _. apply provenance_kwallet_inj.
  - split; [done|]. unfold zlen in Hn. lia.
Qed.

(** The items of a walk are exactly the entries a listing named whose type
    and secret were read and whose item is within the caps, each mapped from
    the wallet's own answer; the sidecar row an item carries is the one stored
    under its key when no other listed entry composes that key, and none
    otherwise, so an entry never gets the attributes of another. *)
Theorem walk_items_exact (P : Prims) (J : JsonText) r w sc ex : walk r w sc = Ok ex ->
  exists folders, folder_list r = Ok folders
    /\ forall i, i ∈ ex_items ex <->
      exists f e c secret row,
        answers r (asked 0 folders) f e
        /\ entry_type r f e = Ok c /\ from_code c <> TUnknown
        /\ (read_secret r f e (from_code c)).1.1 = Ok secret
        /\ (sole_claimant (answers r (asked 0 folders)) f e -> row = sidecar_get sc (sidecar_key f e))
        /\ (~ sole_claimant (answers r (asked 0 folders)) f e -> row = None)
        /\ i = (map_entry w f e (from_code c) secret row).1
        /\ import_check_caps (si_label i) (si_attributes i) (zlen (si_secret i)) (si_content_type i) = None.
Proof.
  intros (folders & l & o & Hf & Hinv & _ & Hi & Ei & _)%walk_inv. exists folders. split; [done|].
  intros i. rewrite Ei, Hi, list_elem_of_omap. split.
  - intros ([f e] & Hin & Ho). apply one_item_spec in Ho as (c & secret & Et & Hc & Hs & E & Hcap).
    apply (li_answers _ _ Hinv) in Hin. destruct (row_of_spec _ _ sc _ _ Hinv Hin) as [H1 H2].
    exists f, e, c, secret, (row_of sc (claims l) f e). auto 10.
  - intros (f & e & c & secret & row & HA & Et & Hc & Hs & H1 & H2 & E & Hcap). exists (f, e).
    split; [by apply (li_answers _ _ Hinv)|]. apply one_item_spec. exists c, secret.
    destruct (row_of_spec _ _ sc _ _ Hinv HA) as [R1 R2].
    assert (row_of sc (claims l) f e = row) as <-; [|done].
    destruct (sole_claimant_dec _ l f e Hinv HA) as [Hs'|Hs']; [by rewrite R1, H1|by rewrite R2, H2].
Qed.

(** A wallet whose folder [a] is listed twice, the second time with one more
    entry, and in which two entries compose the key [a/b/c]. *)
Definition sample_reader : WalletReader := {|
  folder_list := Ok [lit "a"; lit "a/b"; lit "a"];
  entry_list i f :=
    if str_eqb f (lit "a/b") then Ok [lit "c"; lit "c"]
    else if (i =? 0)%nat then Ok [lit "b/c"] else Ok [lit "b/c"; lit "d"];
  entry_type _ e := if str_eqb e (lit "c") then Err (RFailed (lit "no")) else Ok 1;
  read_password _ e := Ok (if str_eqb e (lit "d") then [] else lit "pw");
  read_map _ _ := Ok [];
  read_entry _ _ := Ok [x00; x00; x00; x00]
|}.

Definition sample_sidecar : Sidecar := {|
  sc_entries := {[lit "a/b/c" := {| sc_created := Some 7; sc_modified := None; sc_content_type := None;
                                     sc_attributes := {[lit "k" := lit "v"]}; malformed_fields := 0 |}]};
  skipped_rows := 2;
  KWallet.duplicate_keys := []
|}.

Definition sample_json : JsonText := {| json_of_map _ := Ok [] |}.

Definition sample_walk : result Extraction KWalletError :=
  @walk sample_prims sample_json sample_reader (lit "w") sample_sidecar.

(** What the sample walk extracts: the labels, the provenances of the skips,
    the ambiguous key and the repeats. *)
Definition sample_walk_facts (ex : Extraction) : Prop :=
  map si_label (ex_items ex) = [lit "b/c"; lit "d"]
  /\ map sk_provenance (ex_skipped ex) = [provenance_kwallet (lit "w") (lit "a/b") (lit "c")]
  /\ ambiguous_sidecar_keys ex = [lit "a/b/c"]
  /\ (duplicate_folders ex, duplicate_entries ex) = (1, 1)%nat /\ extraction_seen ex = 3%nat.

#[local] Instance sample_facts_dec ex : Decision (sample_walk_facts ex).
Proof. unfold sample_walk_facts. apply _. Defined.

Lemma sample_walk_ok : exists ex, sample_walk = Ok ex /\ sample_walk_facts ex.
Proof.
  assert (match sample_walk with Ok ex => bool_decide (sample_walk_facts ex) | Err _ => false end = true) as Hb
    by (vm_compute; reflexivity).
  destruct sample_walk as [ex|]; [|discriminate Hb]. exists ex. split; [done|]. by apply bool_decide_eq_true in Hb.
Qed.

Lemma walk_accounts_once_witness : exists ex, sample_walk = Ok ex /\ extraction_seen ex = 3%nat
  /\ Z.of_nat (extraction_seen ex) <= MAX_ENTRIES
  /\ NoDup (map si_provenance (ex_items ex) ++ map rf_provenance (ex_refused ex) ++ map sk_provenance (ex_skipped ex)).
Proof.
  destruct sample_walk_ok as (ex & E & _ & _ & _ & _ & Hseen). exists ex. split; [exact E|].
  destruct (walk_accounts_once sample_prims sample_json _ _ _ ex E) as (fs & ps & Hf & Hnd & Ha & Hp & Hn & Hlen & Hb).
  split; [exact Hseen|]. split; [exact Hb|by rewrite Hp].
Defined.

Lemma walk_items_exact_witness : exists ex i, sample_walk = Ok ex /\ i ∈ ex_items ex
  /\ exists f e c secret row,
       entry_type sample_reader f e = Ok c
       /\ (@read_secret sample_prims sample_json sample_reader f e (from_code c)).1.1 = Ok secret
       /\ i = (map_entry (lit "w") f e (from_code c) secret row).1.
Proof.
  destruct sample_walk_ok as (ex & E & Hl & _). destruct (ex_items ex) as [|i is'] eqn:Ei; [discriminate Hl|].
  exists ex, i. split; [exact E|]. split; [rewrite Ei; left|].
  destruct (walk_items_exact sample_prims sample_json _ _ _ ex E) as (fs & _ & Hiff).
  destruct (proj1 (Hiff i)) as (f & e & c & secret & row & _ & Ht & _ & Hs & _ & _ & Hi & _); [rewrite Ei; left|].
  exists f, e, c, secret, row. split; [exact Ht|]. split; [exact Hs|exact Hi].
Defined.

(** A stored empty string is imported by the fallback: the reply is not empty,
    the decoded password is, and it is counted as a recovery. *)
Theorem empty_password_recovered (P : Prims) (J : JsonText) (r : WalletReader) f e :
  read_password r f e = Ok [] -> read_entry r f e = Ok [x00; x00; x00; x00] ->
  read_secret r f e TPassword = (Ok [], 1%nat, 0%nat).
Proof. intros E1 E2. unfold read_secret. rewrite E1, E2. reflexivity. Qed.
