(* ===== verification/Files.v ===== *)
(** * Writing vault files ([src/atomic.rs] and the file half of [src/vault/store.rs])

    The one atomic write every writer shares and the publication of a new
    vault, which must never replace an existing one. *)
From S2P Require Import Prelude Text Env Crypto Codec Format.

(** [vault::store::VaultError]. *)
Inductive VaultError : Type :=
| Locked
| Retired
| WrongPassword
| NoSuchItem (id : str)
| VaultExists (path : fpath)
| SaltReused
| LabelTooLong (len limit : Z)
| ItemTooLarge (what : str) (len limit : Z)
| ImportTooLarge (idx : nat) (label : str) (what : str) (len limit : Z)
| FormatErr (e : FormatError)
| CryptoErr (e : CryptoError)
| IoErr (path : fpath) (e : io_error).

(** Sequencing of requests that thread the world: an error returns with the
    world as it then is, which is what [?] does. *)
Notation "'do?' x , w <- e ; k" :=
  (match e with (Ok x, w) => k | (Err e', w) => (Err e', w) end)
  (at level 10, x pattern, w name, e at level 200, k at level 200) : rust_scope.

(** [map_err] on the result of a request. *)
Definition with_err {A E F W} (f : E -> F) (r : result A E * W) : result A F * W :=
  (map_err f (fst r), snd r).

Definition io_err {A} (path : fpath) (r : result A io_error * world) : result A VaultError * world :=
  with_err (IoErr path) r.

Section files.
Context `{Env}.

Definition dir_of (path : fpath) : fpath := default [lit "."] (parent path).

(** [<name>.<16 hex>.tmp] beside the target. *)
Definition temp_path (dir : fpath) (name : str) (suffix : bytes) : fpath :=
  path_join dir (name ++ [46] ++ hex suffix ++ lit ".tmp").

(** [File::open(dir).and_then(sync_all)], both best effort. *)
Definition sync_dir_at (dir : fpath) (w : world) : world :=
  match stat dir w with
  | (Ok _, w) => snd (sync_all dir w)
  | (Err _, w) => w
  end.

Definition sync_dir (path : fpath) (w : world) : world := sync_dir_at (dir_of path) w.

(** Create the temporary file, write it, sync it. *)
Definition fill_temp (temp : fpath) (mode : Z) (bs : bytes) : io unit :=
  fun w =>
    do? _, w <- create_new temp mode w;
    do? _, w <- write_all temp bs w;
    sync_all temp w.

(** [crate::atomic::write_atomic]. *)
Definition atomic_write_atomic (path : fpath) (bs : bytes) (mode : Z) : io unit :=
  fun w =>
    let dir := dir_of path in
    let name := default (lit "tmp") (file_name path) in
    match random 8 w with
    | (None, w) => (Err (IoError ResourceBusy None), w)
    | (Some suffix, w) =>
      let temp := temp_path dir name suffix in
      let write := fun w => do? _, w <- fill_temp temp mode bs w; rename temp path w in
      match write w with
      | (Ok _, w) => (Ok tt, sync_dir_at dir w)
      | (Err e, w) => (Err e, snd (remove_file temp w))
      end
    end.

(** [ensure_vault_dir]: the mode at creation, then the repair; a chmod that
    fails is reported (the mode is read back for the log), not returned. *)
Definition ensure_vault_dir (dir : fpath) : io unit :=
  fun w =>
    do? _, w <- create_dir_all 448 dir w;
    match set_permissions dir 448 w with
    | (Ok _, w) => (Ok tt, w)
    | (Err _, w) => (Ok tt, snd (stat dir w))
    end.

(** [vault::store::write_atomic]. *)
Definition write_atomic (path : fpath) (bs : bytes) (w : world) : result unit VaultError * world :=
  let dir := dir_of path in
  do? _, w <- io_err dir (ensure_vault_dir dir w);
  io_err path (atomic_write_atomic path bs 384 w).

Definition write_temp (path : fpath) (bs : bytes) (w : world) : result fpath VaultError * world :=
  let dir := dir_of path in
  do? _, w <- io_err dir (ensure_vault_dir dir w);
  let stem := default (lit "vault") (file_name path) in
  do? suffix, w <- with_err CryptoErr (try_random_bytes 8 w);
  let tmp := temp_path dir stem suffix in
  do? _, w <- io_err tmp (create_new tmp 384 w);
  let written := fun w => do? _, w <- write_all tmp bs w; sync_all tmp w in
  match io_err tmp (written w) with
  | (Ok _, w) => (Ok tmp, w)
  | (Err e, w) => (Err e, snd (remove_file tmp w))
  end.

(** [CString::new] refuses an interior NUL. *)
Definition has_nul (p : fpath) : bool := existsb (existsb (Z.eqb 0)) p.

Definition rename_noreplace (from to : fpath) : io unit :=
  fun w =>
    if has_nul from || has_nul to then (Err (IoError InvalidInput None), w)
    else renameat2_noreplace from to w.

Definition is_empty_file (path : fpath) (w : world) : bool * world :=
  match stat path w with
  | (Ok m, w) => (m_is_file m && (m_len m =? 0), w)
  | (Err _, w) => (false, w)
  end.

(** [is_empty_file(path) && remove_file(path).is_ok()]. *)
Definition reclaim_empty (path : fpath) (w : world) : bool * world :=
  match is_empty_file path w with
  | (true, w) => let '(r, w) := remove_file path w in (is_ok r, w)
  | (false, w) => (false, w)
  end.

Definition publish_new_via_reservation (tmp path : fpath) (w : world)
  : result unit VaultError * world :=
  let reserve := create_new path 384 in
  let '(reserved, w) :=
    match reserve w with
    | (Ok _, w) => (Ok tt, w)
    | (Err e, w) =>
      if bool_decide (io_kind e = AlreadyExists) then
        match reclaim_empty path w with
        | (true, w) => match reserve w with
                       | (Ok _, w) => (Ok tt, w)
                       | (Err _, w) => (Err (VaultExists path), w)
                       end
        | (false, w) => (Err (VaultExists path), w)
        end
      else (Err (IoErr path e), w)
    end in
  match reserved with
  | Err e => (Err e, w)
  | Ok _ =>
    match rename tmp path w with
    | (Ok _, w) => (Ok tt, w)
    | (Err e, w) => (Err (IoErr path e), snd (remove_file path w))
    end
  end.

(** ENOSYS, EINVAL, EOPNOTSUPP, EPERM: no [RENAME_NOREPLACE] here. *)
Definition noreplace_unsupported (e : io_error) : bool :=
  match io_errno e with
  | Some n => (n =? 38) || (n =? 22) || (n =? 95) || (n =? 1)
  | None => false
  end.

Definition publish_finish (path tmp : fpath) (r : result unit VaultError) (w : world)
  : result unit VaultError * world :=
  match r with
  | Ok _ => (r, sync_dir path w)
  | Err _ => (r, snd (remove_file tmp w))
  end.

Definition publish_new (path : fpath) (bs : bytes) (w : world) : result unit VaultError * world :=
  do? tmp, w <- write_temp path bs w;
  match rename_noreplace tmp path w with
  | (Ok _, w) => publish_finish path tmp (Ok tt) w
  | (Err e, w) =>
    if bool_decide (io_kind e = AlreadyExists) then
      match reclaim_empty path w with
      | (true, w) =>
        match rename_noreplace tmp path w with
        | (Ok _, w) => publish_finish path tmp (Ok tt) w
        | (Err e, w) =>
          publish_finish path tmp
            (Err (if bool_decide (io_kind e = AlreadyExists) then VaultExists path
                  else IoErr path e)) w
        end
      | (false, w) => publish_finish path tmp (Err (VaultExists path)) w
      end
    else if noreplace_unsupported e then
      let '(r, w) := publish_new_via_reservation tmp path w in publish_finish path tmp r w
    else publish_finish path tmp (Err (IoErr path e)) w
  end.
End files.

(** ** Frames

    [touches S w w']: at every point observed between [w] and [w'], and at the
    end, the filesystem is what it was in [w] outside the paths in [S]. *)

Definition agree (S : fpath -> Prop) (f g : filesystem) : Prop := forall q, ~ S q -> g !! q = f !! q.

Definition touches (S : fpath -> Prop) (w w' : world) : Prop := reaches (agree S (fs w)) w w'.

Definition nothing (q : fpath) : Prop := False.

Lemma touches_refl S w : touches S w w.
Proof. by apply reaches_refl. Qed.

Lemma touches_trans S a b c : touches S a b -> touches S b c -> touches S a c.
Proof.
  intros H1 H2. eapply reaches_trans; [exact H1|]. eapply reaches_impl; [|exact H2].
  intros f Hf q Hq. rewrite Hf by done. by apply (reaches_end _ _ _ H1).
Qed.

Lemma touches_mono (S T : fpath -> Prop) a b : (forall q, S q -> T q) -> touches S a b -> touches T a b.
Proof. intros HST. apply reaches_impl. intros f Hf q Hq. apply Hf. auto. Qed.

Lemma touches_end S a b q : touches S a b -> ~ S q -> fs b !! q = fs a !! q.
Proof. intros H. by apply (reaches_end _ _ _ H). Qed.

Lemma touches_advance S w f : agree S (fs w) f -> touches S w (advance w f).
Proof. apply reaches_advance. Qed.

Lemma touches_nothing S a b : touches nothing a b -> touches S a b.
Proof. by apply touches_mono. Qed.

#[export] Hint Resolve touches_refl : rust.

Section request_lemmas.
Context `{Env}.

(** A request returns one of: a fault, with the disk as it was, or its effect. *)
Lemma syscall_inv {A : Type} (g : filesystem -> result A io_error * filesystem) w r w' :
  syscall g w = (r, w') ->
  w' = advance w (fs w) /\ (exists e, r = Err e)
  \/ w' = advance w (snd (g (fs w))) /\ r = fst (g (fs w)).
Proof.
  unfold syscall. destruct (env_fault (tick w)); [intros [= <- <-]; eauto|].
  destruct (g (fs w)) as [x f]. intros [= <- <-]. auto.
Qed.

(** A request that only reads. *)
Lemma read_touches {A : Type} (r : filesystem -> result A io_error) w x w' :
  syscall (fun f => (r f, f)) w = (x, w') -> touches nothing w w' /\ fs w' = fs w.
Proof. intros [[-> _]|[-> _]]%syscall_inv; simpl; (split; [by apply touches_advance|done]). Qed.

Lemma stat_touches p w x w' : stat p w = (x, w') -> touches nothing w w' /\ fs w' = fs w.
Proof. apply read_touches. Qed.
Lemma sync_all_touches p w x w' : sync_all p w = (x, w') -> touches nothing w w' /\ fs w' = fs w.
Proof. apply read_touches. Qed.

Lemma random_touches n w b w' : random n w = (b, w') -> touches nothing w w' /\ fs w' = fs w.
Proof. intros [= <- <-]. split; [by apply touches_advance|done]. Qed.

Lemma create_new_spec t mode w r w' : create_new t mode w = (r, w') ->
  touches (eq t) w w'
  /\ (r = Ok tt -> fs w !! t = None /\ exists m tm, fs w' !! t = Some (NFile [] m tm))
  /\ (is_ok r = false -> fs w' = fs w).
Proof.
  unfold create_new. intros [[-> [e ->]]|[-> ->]]%syscall_inv.
  { split_and!; [by apply touches_advance|done|done]. }
  destruct (fs w !! t) eqn:E; [|destruct (parent_is_dir (fs w) t)]; simpl;
    split_and!; try done; try by apply touches_advance.
  - apply touches_advance. intros q Hq. by rewrite lookup_insert_ne.
  - intros _. split; [done|]. rewrite lookup_insert_eq. eauto.
Qed.

Lemma write_all_spec t d w old m tm r w' :
  fs w !! t = Some (NFile old m tm) -> write_all t d w = (r, w') ->
  touches (eq t) w w' /\ (r = Ok tt -> exists tm', fs w' !! t = Some (NFile (old ++ d) m tm')).
Proof.
  intros Ht. unfold write_all. rewrite Ht.
  destruct (env_fault (tick w)); intros [= <- <-]; split; try done; simpl;
    try (apply touches_advance; intros q Hq; by rewrite lookup_insert_ne).
  intros _. rewrite lookup_insert_eq. eauto.
Qed.

Lemma remove_file_spec t w r w' : remove_file t w = (r, w') ->
  touches (eq t) w w' /\ (r = Ok tt -> fs w' !! t = None) /\ (is_ok r = false -> fs w' = fs w).
Proof.
  intros [[-> [e ->]]|[-> ->]]%syscall_inv.
  { split_and!; [by apply touches_advance|done|done]. }
  destruct (fs w !! t) as [[| |]|] eqn:E; simpl; split_and!; try done;
    try (by apply touches_advance); try (intros _; apply lookup_delete_eq).
  all: apply touches_advance; intros q Hq; by rewrite lookup_delete_ne.
Qed.

Lemma rename_in_spec a b f : a <> b ->
  agree (fun q => q = a \/ q = b) f (snd (rename_in a b f))
  /\ (fst (rename_in a b f) = Ok tt ->
      snd (rename_in a b f) !! b = f !! a /\ snd (rename_in a b f) !! a = None)
  /\ (is_ok (fst (rename_in a b f)) = false -> snd (rename_in a b f) = f).
Proof.
  intros Hab. unfold rename_in. destruct (f !! a) as [n|] eqn:Ea; [|done].
  assert (Hins : forall q, ~ (q = a \/ q = b) -> <[b:=n]> (delete a f) !! q = f !! q).
  { intros q Hq. by rewrite lookup_insert_ne, lookup_delete_ne by (intros ->; apply Hq; auto). }
  assert (H2 : <[b:=n]> (delete a f) !! b = Some n /\ <[b:=n]> (delete a f) !! a = None).
  { split; [apply lookup_insert_eq|]. rewrite lookup_insert_ne, lookup_delete_eq; done. }
  destruct (f !! b) as [[| |]|]; simpl; split_and!; try done; intros; apply H2.
Qed.

Lemma rename_spec a b w r w' : a <> b -> rename a b w = (r, w') ->
  touches (fun q => q = a \/ q = b) w w'
  /\ (r = Ok tt -> fs w' !! b = fs w !! a /\ fs w' !! a = None)
  /\ (is_ok r = false -> fs w' = fs w).
Proof.
  intros Hab [[-> [e ->]]|[-> ->]]%syscall_inv.
  { split_and!; [by apply touches_advance|done|done]. }
  destruct (rename_in_spec a b (fs w) Hab) as (H1 & H2 & H3).
  split_and!; [by apply touches_advance|done|done].
Qed.

(** Never over an existing entry. *)
Lemma rename_noreplace_spec a b w r w' : a <> b -> rename_noreplace a b w = (r, w') ->
  touches (fun q => q = a \/ q = b) w w'
  /\ (r = Ok tt -> fs w !! b = None /\ fs w' !! b = fs w !! a /\ fs w' !! a = None)
  /\ (is_ok r = false -> fs w' = fs w).
Proof.
  intros Hab. unfold rename_noreplace. destruct (has_nul a || has_nul b).
  { intros [= <- <-]. split_and!; [apply touches_refl|done|done]. }
  intros [[-> [e ->]]|[-> ->]]%syscall_inv.
  { split_and!; [by apply touches_advance|done|done]. }
  destruct (fs w !! b) eqn:Eb; simpl.
  { split_and!; [by apply touches_advance|done|done]. }
  destruct (rename_in_spec a b (fs w) Hab) as (H1 & H2 & H3).
  split_and!; [by apply touches_advance|by intros [? ?]%H2|done].
Qed.

Lemma sync_dir_at_touches d w : touches nothing w (sync_dir_at d w) /\ fs (sync_dir_at d w) = fs w.
Proof.
  unfold sync_dir_at. destruct (stat d w) as [[m|e] w1] eqn:E; apply stat_touches in E as [T1 F1];
    [|done].
  destruct (sync_all d w1) as [r w2] eqn:E2. apply sync_all_touches in E2 as [T2 F2]. simpl.
  split; [by eapply touches_trans|congruence].
Qed.

(** *** The directory *)

Lemma mkdirs_frame mode pre rest f q :
  ~ (q `prefix_of` pre ++ rest) -> snd (mkdirs mode pre rest f) !! q = f !! q.
Proof.
  revert pre f. induction rest as [|c rest IH]; intros pre f Hq; simpl; [done|].
  assert (Hq' : ~ (q `prefix_of` (pre ++ [c]) ++ rest)) by (by rewrite <- app_assoc).
  destruct (f !! (pre ++ [c])) as [[| |]|]; simpl; [done|by apply IH|done|].
  rewrite IH by done. rewrite lookup_insert_ne; [done|]. intros <-. apply Hq'. by exists rest.
Qed.

Lemma ensure_vault_dir_touches d w r w' : ensure_vault_dir d w = (r, w') ->
  touches (fun q => q `prefix_of` d) w w'.
Proof.
  unfold ensure_vault_dir. destruct (create_dir_all 448 d w) as [r1 w1] eqn:E1.
  assert (T1 : touches (fun q => q `prefix_of` d) w w1).
  { apply syscall_inv in E1 as [[-> _]|[-> _]]; apply touches_advance; [done|].
    intros q Hq. by apply mkdirs_frame. }
  destruct r1; [|by intros [= <- <-]].
  destruct (set_permissions d 448 w1) as [r2 w2] eqn:E2.
  assert (T2 : touches (fun q => q `prefix_of` d) w1 w2).
  { apply syscall_inv in E2 as [[-> _]|[-> _]]; apply touches_advance; [done|].
    intros q Hq. destruct (fs w1 !! d) as [[| |]|]; simpl; try done;
      (rewrite lookup_insert_ne; [done|]; intros <-; by apply Hq). }
  pose proof (touches_trans _ _ _ _ T1 T2) as T.
  destruct r2; intros [= <- <-]; [done|].
  destruct (stat d w2) as [r3 w3] eqn:E3. apply stat_touches in E3 as [T3 _]. simpl.
  eapply touches_trans; [exact T|]. by apply touches_nothing.
Qed.
End request_lemmas.

(** A temporary name is never its own target. *)
Lemma temp_path_ne (d : fpath) (n : str) sfx : temp_path d n sfx <> d ++ [n].
Proof.
  unfold temp_path, path_join. intros [_ [= E]]%app_inj_tail. apply (f_equal length) in E.
  rewrite length_app in E. simpl in E. lia.
Qed.

Lemma parent_split (p d : fpath) : parent p = Some d -> exists n, p = d ++ [n] /\ file_name p = Some n.
Proof.
  destruct p as [|x p] using rev_ind; [done|]. unfold parent, file_name.
  rewrite removelast_last, last_snoc. destruct (p ++ [x]) eqn:E; [by destruct p|].
  rewrite <- E. intros [= <-]. eauto.
Qed.

Lemma not_prefix_child (d : fpath) (n : str) : ~ (d ++ [n] `prefix_of` d).
Proof. intros [k E]. apply (f_equal length) in E. rewrite !length_app in E. simpl in E. lia. Qed.

(** ** Lemmas: the atomic write *)

(** The path holds exactly these bytes. *)
Definition holds (f : filesystem) (p : fpath) (bs : bytes) : Prop :=
  exists m t, f !! p = Some (NFile bs m t).

(** Old or complete: what a reader of [p] may find while [bs] is written. *)
Definition old_or_new (f0 : filesystem) (p : fpath) (bs : bytes) (f : filesystem) : Prop :=
  f !! p = f0 !! p \/ holds f p bs.

Lemma touches_old (S : fpath -> Prop) p bs w w' :
  touches S w w' -> ~ S p -> reaches (old_or_new (fs w) p bs) w w'.
Proof. intros HT HS. eapply reaches_impl; [|exact HT]. intros f Hf. left. by apply Hf. Qed.

Lemma nothing_old p bs w w' : touches nothing w w' -> reaches (old_or_new (fs w) p bs) w w'.
Proof. intros HT. apply (touches_old nothing); [done|]. intros []. Qed.

Section atomic_lemmas.
Context `{Env}.

Lemma syscall_advance {A : Type} (g : filesystem -> result A io_error * filesystem) w r w' :
  syscall g w = (r, w') -> w' = advance w (fs w').
Proof. by intros [[-> _]|[-> _]]%syscall_inv. Qed.

Lemma fill_temp_spec t mode bs w r w' : fill_temp t mode bs w = (r, w') ->
  touches (eq t) w w' /\ (r = Ok tt -> holds (fs w') t bs).
Proof.
  unfold fill_temp. destruct (create_new t mode w) as [r1 w1] eqn:E1.
  apply create_new_spec in E1 as (T1 & O1 & _). destruct r1 as [[]|]; [|by intros [= <- <-]].
  destruct (O1 eq_refl) as (_ & m & tm & L1).
  destruct (write_all t bs w1) as [r2 w2] eqn:E2.
  apply (write_all_spec _ _ _ _ _ _ _ _ L1) in E2 as (T2 & O2).
  pose proof (touches_trans _ _ _ _ T1 T2) as T12. destruct r2 as [[]|]; [|by intros [= <- <-]].
  destruct (O2 eq_refl) as (tm' & L2). intros [T3 F3]%sync_all_touches. split.
  - eapply touches_trans; [exact T12|by apply touches_nothing].
  - intros _. exists m, tm'. by rewrite F3.
Qed.

(** Fill a temporary file, then rename it over the target. *)
Lemma fill_rename_spec t p mode bs w r w' : t <> p ->
  (do? _, w <- fill_temp t mode bs w; rename t p w) = (r, w') ->
  touches (fun q => q = t \/ (r = Ok tt /\ q = p)) w w'
  /\ reaches (old_or_new (fs w) p bs) w w' /\ (r = Ok tt -> holds (fs w') p bs).
Proof.
  intros Hne. destruct (fill_temp t mode bs w) as [rf wf] eqn:Ef.
  apply fill_temp_spec in Ef as (Tf & Of).
  assert (Tf' : forall r' : result unit io_error, touches (fun q => q = t \/ (r' = Ok tt /\ q = p)) w wf).
  { intros. eapply touches_mono; [|exact Tf]. auto. }
  assert (Rf : reaches (old_or_new (fs w) p bs) w wf) by (by apply (touches_old _ _ _ _ _ Tf)).
  destruct rf as [[]|e]; [|intros [= <- <-]; done].
  intros Er. pose proof (syscall_advance _ _ _ _ Er) as Ead.
  apply rename_spec in Er as (Tr & Or & Fr); [|done]. destruct r as [[]|e].
  - destruct (Or eq_refl) as [Lp Lt].
    assert (Hh : holds (fs w') p bs).
    { destruct (Of eq_refl) as (m & tm & L). exists m, tm. by rewrite Lp. }
    split_and!; [|eapply reaches_trans; [exact Rf|]; rewrite Ead; apply reaches_advance; by right|done].
    eapply touches_trans; [apply Tf'|]. eapply touches_mono; [|exact Tr]. tauto.
  - assert (T0 : touches nothing wf w') by (rewrite Ead; apply touches_advance; by rewrite (Fr eq_refl)).
    assert (T1 : touches (eq t) w w') by (eapply touches_trans; [done|by apply touches_nothing]).
    split_and!; [eapply touches_mono; [|exact T1]; auto|by apply (touches_old _ _ _ _ _ T1)|done].
Qed.

Lemma atomic_write_spec d n bs mode w r w' :
  atomic_write_atomic (d ++ [n]) bs mode w = (r, w') ->
  exists sfx,
    touches (fun q => q = temp_path d n sfx \/ (r = Ok tt /\ q = d ++ [n])) w w'
    /\ reaches (old_or_new (fs w) (d ++ [n]) bs) w w'
    /\ (r = Ok tt -> holds (fs w') (d ++ [n]) bs).
Proof.
  unfold atomic_write_atomic, dir_of, file_name.
  assert (parent (d ++ [n]) = Some d) as ->
    by (unfold parent; rewrite removelast_last; by destruct d).
  rewrite last_snoc. cbn [from_option id]. destruct (random 8 w) as [o w0] eqn:E0.
  apply random_touches in E0 as [T0 F0]. destruct o as [sfx|]; cycle 1.
  { intros [= <- <-]. exists []. split_and!; [by apply touches_nothing|by apply nothing_old|done]. }
  pose proof (temp_path_ne d n sfx) as Hne. set (p := d ++ [n]) in *. set (t := temp_path d n sfx) in *.
  destruct (do? _, w <- fill_temp t mode bs w0; rename t p w) as [r1 w1] eqn:E1.
  apply fill_rename_spec in E1 as (T1 & R1 & O1); [|done].
  assert (Tw : touches (fun q => q = t \/ (r1 = Ok tt /\ q = p)) w w1)
    by (eapply touches_trans; [by apply touches_nothing|done]).
  assert (Rw : reaches (old_or_new (fs w) p bs) w w1).
  { eapply reaches_trans; [by apply nothing_old|]. by rewrite <- F0. }
  destruct r1 as [[]|e]; intros [= <- <-]; exists sfx.
  - pose proof (sync_dir_at_touches d w1) as [Ts Fs]. split_and!.
    + eapply touches_trans; [exact Tw|by apply touches_nothing].
    + eapply reaches_trans; [exact Rw|]. eapply reaches_impl; [|exact Ts].
      intros f Hf. right. destruct (O1 eq_refl) as (m & tm & L). exists m, tm.
      by rewrite Hf by intros [].
    + rewrite Fs. auto.
  - destruct (remove_file t w1) as [rr w2] eqn:Er. apply remove_file_spec in Er as (Tr & _ & _). simpl.
    assert (T : touches (eq t) w w2).
    { eapply touches_trans; [eapply touches_mono; [|exact Tw]|exact Tr]. intros q [->|[? _]]; done. }
    split_and!; [eapply touches_mono; [|exact T]; auto|by apply (touches_old _ _ _ _ _ T)|done].
Qed.

(** The vault's own writer: the directory is ensured first. *)
Lemma write_atomic_spec d n bs w r w' :
  write_atomic (d ++ [n]) bs w = (r, w') ->
  exists sfx,
    touches (fun q => q `prefix_of` d \/ q = temp_path d n sfx \/ (r = Ok tt /\ q = d ++ [n])) w w'
    /\ reaches (old_or_new (fs w) (d ++ [n]) bs) w w'
    /\ (r = Ok tt -> holds (fs w') (d ++ [n]) bs)
    /\ (is_ok r = false -> fs w' !! (d ++ [n]) = fs w !! (d ++ [n])).
Proof.
  unfold write_atomic, dir_of.
  assert (parent (d ++ [n]) = Some d) as ->
    by (unfold parent; rewrite removelast_last; by destruct d).
  cbn [from_option id]. unfold io_err, with_err.
  destruct (ensure_vault_dir d w) as [r0 w0] eqn:E0. apply ensure_vault_dir_touches in E0 as T0.
  pose proof (not_prefix_child d n) as Hp. pose proof (temp_path_ne d n) as Ht. cbn [fst snd].
  destruct r0 as [u|e]; cbn [map_err]; cycle 1.
  { intros [= <- <-]. exists []. split_and!; [|by apply (touches_old _ _ _ _ _ T0)|done|].
    - eapply touches_mono; [|exact T0]. auto.
    - intros _. by apply (touches_end _ _ _ _ T0). }
  destruct (atomic_write_atomic (d ++ [n]) bs 384 w0) as [r1 w1] eqn:E1. cbn [fst snd].
  apply atomic_write_spec in E1 as (sfx & T1 & R1 & O1). intros [= <- <-]. exists sfx.
  assert (Hr : map_err (IoErr (d ++ [n])) r1 = Ok tt <-> r1 = Ok tt).
  { destruct r1 as [[]|]; simpl; split; done. }
  assert (T : touches (fun q => q `prefix_of` d \/ q = temp_path d n sfx \/ (r1 = Ok tt /\ q = d ++ [n])) w w1).
  { eapply touches_trans; (eapply touches_mono; [|done]); simpl; tauto. }
  split_and!.
  - eapply touches_mono; [|exact T]. simpl. tauto.
  - eapply reaches_trans; [by apply (touches_old _ _ _ _ _ T0)|]. eapply reaches_impl; [|exact R1].
    intros f [Hf|Hf]; [left|by right]. rewrite Hf. by apply (touches_end _ _ _ _ T0).
  - intros E. apply O1, Hr, E.
  - intros E. apply (touches_end _ _ _ _ T). intros [?|[Hx|[Hx _]]]; [done|by apply (Ht sfx)|].
    subst r1. done.
Qed.
End atomic_lemmas.

(** ** Lemmas: publishing a new vault *)

(** What an observer of one path sees, when that path is not touched. *)
Lemma reaches_at (S : fpath -> Prop) (Q : option node -> Prop) p w w' :
  touches S w w' -> ~ S p -> Q (fs w !! p) -> reaches (fun f => Q (f !! p)) w w'.
Proof.
  intros HT HS HQ. eapply reaches_impl; [|exact HT]. intros f Hf. by rewrite (Hf p HS).
Qed.

Lemma parent_child (d : fpath) (n : str) : parent (d ++ [n]) = Some d.
Proof. unfold parent. rewrite removelast_last. by destruct d. Qed.

Section publish_lemmas.
Context `{Env}.

Lemma write_temp_spec d n bs w r w' : write_temp (d ++ [n]) bs w = (r, w') ->
  exists sfx,
    touches (fun q => q `prefix_of` d \/ q = temp_path d n sfx) w w'
    /\ (forall t, r = Ok t -> t = temp_path d n sfx /\ holds (fs w') t bs).
Proof.
  unfold write_temp, dir_of. rewrite parent_child. unfold file_name. rewrite last_snoc.
  cbn [from_option id]. unfold io_err, with_err, try_random_bytes.
  destruct (ensure_vault_dir d w) as [r0 w0] eqn:E0. apply ensure_vault_dir_touches in E0 as T0.
  assert (T0' : forall s, touches (fun q => q `prefix_of` d \/ q = temp_path d n s) w w0).
  { intros s. eapply touches_mono; [|exact T0]. auto. }
  destruct r0 as [[]|e]; cbn [fst snd map_err]; [|intros [= <- <-]; exists []; by split].
  destruct (random 8 w0) as [o w1] eqn:E1. apply random_touches in E1 as [T1 _].
  assert (T1' : forall s, touches (fun q => q `prefix_of` d \/ q = temp_path d n s) w w1).
  { intros s. eapply touches_trans; [apply T0'|by apply touches_nothing]. }
  destruct o as [sfx|]; cbn [fst snd map_err]; [|intros [= <- <-]; exists []; by split].
  set (t := temp_path d n sfx) in *. intros Hrest. exists sfx. specialize (T1' sfx). fold t in T1'.
  assert (Hfill : exists rf wf, fill_temp t 384 bs w1 = (rf, wf)) by (destruct (fill_temp t 384 bs w1); eauto).
  destruct Hfill as (rf & wf & Ef). pose proof (fill_temp_spec _ _ _ _ _ _ Ef) as [Tf Of].
  assert (T2 : touches (fun q => q `prefix_of` d \/ q = t) w wf).
  { eapply touches_trans; [exact T1'|]. eapply touches_mono; [|exact Tf]. auto. }
  revert Hrest. unfold fill_temp in Ef. destruct (create_new t 384 w1) as [r2 w2] eqn:E2.
  destruct r2 as [[]|e]; cbn [fst snd map_err]; [|injection Ef as <- <-; intros [= <- <-]; by split].
  rewrite Ef. cbn [fst snd map_err]. destruct rf as [[]|e]; intros [= <- <-].
  - split; [done|]. intros t' [= <-]. auto.
  - destruct (remove_file t wf) as [rr wr] eqn:Er. apply remove_file_spec in Er as (Tr & _ & _).
    split; [|done]. eapply touches_trans; [exact T2|]. eapply touches_mono; [|exact Tr]. auto.
Qed.

Lemma is_empty_file_spec p w b w' : is_empty_file p w = (b, w') ->
  touches nothing w w' /\ fs w' = fs w
  /\ (b = true -> exists m t, resolve 40 (fs w) p = Ok (NFile [] m t)).
Proof.
  unfold is_empty_file. destruct (stat p w) as [r w1] eqn:E.
  pose proof (stat_touches _ _ _ _ E) as [T F]. destruct r as [m|e]; intros [= <- <-]; [|done].
  split_and!; [done..|]. intros [Hf Hl]%andb_prop. apply Z.eqb_eq in Hl.
  apply syscall_inv in E as [[_ [e ?]]|[_ Em]]; [done|]. simpl in Em.
  destruct (resolve 40 (fs w) p) as [[data mo tm| |]|]; simplify_eq; try done.
  destruct data as [|x l]; [eauto|]. simpl in Hl. unfold zlen in Hl. simpl in Hl. lia.
Qed.

Lemma reclaim_empty_spec p w b w' : reclaim_empty p w = (b, w') ->
  touches (eq p) w w' /\ (b = true -> fs w' !! p = None)
  /\ (fs w' !! p = fs w !! p \/ fs w' !! p = None)
  /\ (b = false -> fs w' = fs w)
  /\ (forall d m t, fs w !! p = Some (NFile d m t) -> d <> [] -> b = false).
Proof.
  unfold reclaim_empty. destruct (is_empty_file p w) as [e w1] eqn:E.
  apply is_empty_file_spec in E as (T1 & F1 & He). destruct e.
  - destruct (remove_file p w1) as [r w2] eqn:Er. apply remove_file_spec in Er as (T2 & O2 & F2).
    intros [= <- <-]. split_and!.
    + eapply touches_trans; [by apply touches_nothing|done].
    + intros Hr. destruct r as [[]|]; [auto|done].
    + destruct r as [[]|e]; [right; auto|left]. by rewrite F2, F1.
    + intros Hr. by rewrite F2, F1.
    + intros d m t Hp Hd. destruct (He eq_refl) as (m' & t' & Hres).
      rewrite (resolve_file _ _ _ _ _ _ Hp) in Hres. by simplify_eq.
  - intros [= <- <-]. split_and!; [by apply touches_nothing|done|left; by rewrite F1|done|done].
Qed.

Lemma publish_finish_spec p tmp r w r' w' : tmp <> p -> publish_finish p tmp r w = (r', w') ->
  r' = r /\ touches (eq tmp) w w'.
Proof.
  intros Hne. unfold publish_finish. destruct r; intros [= <- <-]; split; try done.
  - apply touches_nothing, sync_dir_at_touches.
  - destruct (remove_file tmp w) as [rr wr] eqn:Er. by apply remove_file_spec in Er as (? & _ & _).
Qed.

(** An existing vault: every attempt to take its name fails. *)
Lemma reservation_refuses tmp p w d m t r w' :
  tmp <> p -> fs w !! p = Some (NFile d m t) -> d <> [] ->
  publish_new_via_reservation tmp p w = (r, w') ->
  is_ok r = false /\ fs w' = fs w /\ touches nothing w w'.
Proof.
  intros Hne Hp Hd. unfold publish_new_via_reservation.
  destruct (create_new p 384 w) as [r1 w1] eqn:E1. pose proof (syscall_advance _ _ _ _ E1) as A1.
  apply create_new_spec in E1 as (_ & O1 & F1). destruct r1 as [[]|e].
  { destruct (O1 eq_refl) as [? _]. congruence. }
  specialize (F1 eq_refl). assert (T1 : touches nothing w w1).
  { rewrite A1. apply touches_advance. by rewrite F1. }
  destruct (bool_decide (io_kind e = AlreadyExists)); [|by intros [= <- <-]].
  destruct (reclaim_empty p w1) as [b w2] eqn:E2.
  assert (is_empty_file p w1 = (false, w2)) as Hemp.
  { pose proof (reclaim_empty_spec _ _ _ _ E2) as (_ & _ & _ & _ & Hb).
    rewrite F1 in Hb. specialize (Hb d m t Hp Hd). subst b. revert E2. unfold reclaim_empty.
    destruct (is_empty_file p w1) as [[] w3] eqn:E3; [|by intros [= <-]].
    apply is_empty_file_spec in E3 as (_ & _ & He). destruct (He eq_refl) as (m' & t' & Hres).
    rewrite F1, (resolve_file _ _ _ _ _ _ Hp) in Hres. by simplify_eq. }
  pose proof (is_empty_file_spec _ _ _ _ Hemp) as (T2 & F2 & _).
  revert E2. unfold reclaim_empty. rewrite Hemp. intros [= <-]. intros [= <- <-].
  split_and!; [done|congruence|by eapply touches_trans].
Qed.
End publish_lemmas.

Section publish_outcome.
Context `{Env}.
Context (d : fpath) (n : str) (bs : bytes).
Let p := d ++ [n].

(** The old entry, nothing, a bare reservation, or the complete vault. *)
Definition publishing (o : option node) (o' : option node) : Prop :=
  o' = o \/ o' = None \/ (exists m t, o' = Some (NFile [] m t)) \/ (exists m t, o' = Some (NFile bs m t)).

Lemma step_at (Q : option node -> Prop) (w w' : world) :
  w' = advance w (fs w') -> Q (fs w' !! p) -> reaches (fun f => Q (f !! p)) w w'.
Proof. intros -> HQ. by apply reaches_advance. Qed.

Lemma reclaim_at o w b w' : reclaim_empty p w = (b, w') -> publishing o (fs w !! p) ->
  reaches (fun f => publishing o (f !! p)) w w'.
Proof.
  intros E HQ. pose proof (reclaim_empty_spec _ _ _ _ E) as (_ & _ & Hend & _).
  unfold reclaim_empty in E. destruct (is_empty_file p w) as [e w1] eqn:E1.
  apply is_empty_file_spec in E1 as (T1 & F1 & _).
  assert (R1 : reaches (fun f => publishing o (f !! p)) w w1).
  { eapply (reaches_at nothing); [done|by intros []|done]. }
  destruct e; [|by injection E as <- <-].
  destruct (remove_file p w1) as [r w2] eqn:E2. pose proof (syscall_advance _ _ _ _ E2) as A2.
  injection E as <- <-. eapply reaches_trans; [exact R1|]. apply step_at; [done|].
  destruct Hend as [-> | ->]; [done|]. right. by left.
Qed.

Lemma reserve_at o w r w' : create_new p 384 w = (r, w') -> publishing o (fs w !! p) ->
  reaches (fun f => publishing o (f !! p)) w w'.
Proof.
  intros E HQ. pose proof (syscall_advance _ _ _ _ E) as A. apply create_new_spec in E as (_ & O & F).
  apply step_at; [done|]. destruct r as [[]|]; [|by rewrite F].
  destruct (O eq_refl) as (_ & m & t & ->). right. right. left. eauto.
Qed.

Lemma reservation_outcome o tmp w r w' :
  tmp <> p -> holds (fs w) tmp bs -> publishing o (fs w !! p) ->
  publish_new_via_reservation tmp p w = (r, w') ->
  reaches (fun f => publishing o (f !! p)) w w' /\ (r = Ok tt -> holds (fs w') p bs).
Proof.
  intros Hne Htmp HQ. unfold publish_new_via_reservation.
  assert (Hgo : forall w1, reaches (fun f => publishing o (f !! p)) w w1 -> fs w1 !! tmp = fs w !! tmp ->
    match rename tmp p w1 with
    | (Ok _, w) => (Ok tt, w)
    | (Err e, w) => (Err (IoErr p e), snd (remove_file p w))
    end = (r, w') ->
    reaches (fun f => publishing o (f !! p)) w w' /\ (r = Ok tt -> holds (fs w') p bs)).
  { intros w1 R1 Ft. destruct (rename tmp p w1) as [rr w2] eqn:E2.
    pose proof (syscall_advance _ _ _ _ E2) as A2. apply rename_spec in E2 as (_ & O2 & F2); [|done].
    destruct rr as [[]|e]; intros [= <- <-].
    - destruct (O2 eq_refl) as [Hp _]. destruct Htmp as (m & t & Ht).
      assert (holds (fs w2) p bs) by (exists m, t; by rewrite Hp, Ft).
      split; [|done]. eapply reaches_trans; [exact R1|]. apply step_at; [done|]. by do 3 right.
    - split; [|done]. eapply reaches_trans; [exact R1|].
      pose proof (reaches_end _ _ _ R1) as HQ1. rewrite <- (F2 eq_refl) in HQ1.
      eapply reaches_trans; [by apply step_at|].
      destruct (remove_file p w2) as [r3 w3] eqn:E3. pose proof (syscall_advance _ _ _ _ E3) as A3.
      apply remove_file_spec in E3 as (_ & O3 & F3). cbn [snd]. apply step_at; [done|].
      destruct r3 as [[]|]; [rewrite O3 by done; right; by left|by rewrite F3]. }
  destruct (create_new p 384 w) as [r1 w1] eqn:E1. pose proof (reserve_at o _ _ _ E1 HQ) as R1.
  apply create_new_spec in E1 as (T1 & _ & _).
  assert (F1 : fs w1 !! tmp = fs w !! tmp) by (by apply (touches_end _ _ _ _ T1)).
  destruct r1 as [[]|e]; [by apply Hgo|].
  destruct (bool_decide (io_kind e = AlreadyExists)); [|by intros [= <- <-]].
  destruct (reclaim_empty p w1) as [b w2] eqn:E2.
  pose proof (reclaim_at o _ _ _ E2 (reaches_end _ _ _ R1)) as R2.
  pose proof (reaches_trans _ _ _ _ R1 R2) as R12.
  apply reclaim_empty_spec in E2 as (T2 & _). destruct b; [|by intros [= <- <-]].
  destruct (create_new p 384 w2) as [r3 w3] eqn:E3.
  pose proof (reserve_at o _ _ _ E3 (reaches_end _ _ _ R12)) as R3.
  pose proof (reaches_trans _ _ _ _ R12 R3) as R123. apply create_new_spec in E3 as (T3 & _ & _).
  destruct r3 as [[]|]; [|by intros [= <- <-]]. apply Hgo; [done|].
  by rewrite (touches_end _ _ _ tmp T3), (touches_end _ _ _ tmp T2).
Qed.

Lemma finish_at o tmp w1 r r' w' : tmp <> p ->
  publishing o (fs w1 !! p) -> publish_finish p tmp r w1 = (r', w') ->
  r' = r /\ reaches (fun f => publishing o (f !! p)) w1 w' /\ fs w' !! p = fs w1 !! p.
Proof.
  intros Hne HQ E. apply publish_finish_spec in E as [-> T]; [|done]. split_and!; [done| |].
  - by apply (reaches_at _ _ _ _ _ T).
  - by apply (touches_end _ _ _ _ T).
Qed.
(** The move without replacement either puts the complete file there or changes nothing. *)
Lemma noreplace_at o tmp w r w' : tmp <> p -> holds (fs w) tmp bs -> publishing o (fs w !! p) ->
  rename_noreplace tmp p w = (r, w') ->
  reaches (fun f => publishing o (f !! p)) w w'
  /\ (r = Ok tt -> holds (fs w') p bs) /\ (is_ok r = false -> fs w' = fs w).
Proof.
  intros Hne H1 HQ E. pose proof (rename_noreplace_spec _ _ _ _ _ Hne E) as (_ & Ox & Fx).
  assert (Hok : r = Ok tt -> holds (fs w') p bs).
  { intros ->. destruct (Ox eq_refl) as (_ & L & _), H1 as (m & t & Hm). exists m, t. congruence. }
  split_and!; [|done|done]. unfold rename_noreplace in E. destruct (has_nul tmp || has_nul p).
  { injection E as <- <-. by apply reaches_refl. }
  apply step_at; [by eapply syscall_advance|].
  destruct r as [[]|]; [by do 3 right; apply Hok|]. by rewrite Fx.
Qed.

(** The last step keeps what the earlier ones established. *)
Lemma finish_after o tmp w w1 x r w' : tmp <> p ->
  reaches (fun f => publishing o (f !! p)) w w1 -> (x = Ok tt -> holds (fs w1) p bs) ->
  publish_finish p tmp x w1 = (r, w') ->
  reaches (fun f => publishing o (f !! p)) w w' /\ (r = Ok tt -> holds (fs w') p bs).
Proof.
  intros Hne R Hx E. apply (finish_at o) in E as (-> & R' & F); [|done|exact (reaches_end _ _ _ R)].
  split; [by eapply reaches_trans|]. intros Hr. destruct (Hx Hr) as (m & t & L). exists m, t.
  by rewrite F.
Qed.
End publish_outcome.

Section publish_new_lemmas.
Context `{Env}.

(** The temporary file of [write_temp] is not the target and is not above it. *)
Lemma temp_apart d n sfx : ~ ((d ++ [n]) `prefix_of` d \/ d ++ [n] = temp_path d n sfx).
Proof. intros [Hx|Hx]; [by apply (not_prefix_child d n)|by apply (temp_path_ne d n sfx)]. Qed.

Lemma publish_new_outcome d n bs w r w' : publish_new (d ++ [n]) bs w = (r, w') ->
  reaches (fun f => publishing bs (fs w !! (d ++ [n])) (f !! (d ++ [n]))) w w'
  /\ (r = Ok tt -> holds (fs w') (d ++ [n]) bs).
Proof.
  unfold publish_new. destruct (write_temp (d ++ [n]) bs w) as [r0 w0] eqn:E0.
  apply write_temp_spec in E0 as (sfx & T0 & O0). set (o := fs w !! (d ++ [n])).
  assert (R0 : reaches (fun f => publishing bs o (f !! (d ++ [n]))) w w0).
  { apply (reaches_at _ _ _ _ _ T0); [apply temp_apart|]. by left. }
  destruct r0 as [tmp|e]; [|by intros [= <- <-]].
  destruct (O0 tmp eq_refl) as [Et Hh]. assert (Hne : tmp <> d ++ [n]) by (subst tmp; apply temp_path_ne).
  destruct (rename_noreplace tmp (d ++ [n]) w0) as [r1 w1] eqn:E1.
  destruct (noreplace_at d n bs o tmp w0 r1 w1 Hne Hh (reaches_end _ _ _ R0) E1) as (R1 & O1 & F1).
  pose proof (reaches_trans _ _ _ _ R0 R1) as R01.
  destruct r1 as [[]|e]; [apply (finish_after d n bs o); auto; discriminate|]. specialize (F1 eq_refl).
  destruct (bool_decide (io_kind e = AlreadyExists)).
  - destruct (reclaim_empty (d ++ [n]) w1) as [b w2] eqn:E2.
    pose proof (reaches_trans _ _ _ _ R01 (reclaim_at d n bs o _ _ _ E2 (reaches_end _ _ _ R01))) as R2.
    apply reclaim_empty_spec in E2 as (T2 & _). destruct b; [|apply (finish_after d n bs o); auto; discriminate].
    assert (H2 : holds (fs w2) tmp bs).
    { destruct Hh as (m & t & L). exists m, t.
      rewrite (touches_end _ _ _ tmp T2) by (intros ?; congruence). congruence. }
    destruct (rename_noreplace tmp (d ++ [n]) w2) as [r3 w3] eqn:E3.
    destruct (noreplace_at d n bs o tmp w2 r3 w3 Hne H2 (reaches_end _ _ _ R2) E3) as (R3 & O3 & _).
    pose proof (reaches_trans _ _ _ _ R2 R3). destruct r3 as [[]|e']; apply (finish_after d n bs o); auto; discriminate.
  - destruct (noreplace_unsupported e); [|apply (finish_after d n bs o); auto; discriminate].
    destruct (publish_new_via_reservation tmp (d ++ [n]) w1) as [r2 w2] eqn:E2.
    apply (reservation_outcome d n bs o) in E2 as [R2 O2];
      [|done|by rewrite F1|exact (reaches_end _ _ _ R01)].
    apply (finish_after d n bs o tmp w w2); [done|by eapply reaches_trans|done].
Qed.

Lemma publish_new_refuses d n bs w data m t r w' :
  fs w !! (d ++ [n]) = Some (NFile data m t) -> data <> [] ->
  publish_new (d ++ [n]) bs w = (r, w') ->
  is_ok r = false /\ reaches (fun f => f !! (d ++ [n]) = fs w !! (d ++ [n])) w w'.
Proof.
  intros Hp Hd. unfold publish_new. destruct (write_temp (d ++ [n]) bs w) as [r0 w0] eqn:E0.
  apply write_temp_spec in E0 as (sfx & T0 & O0). set (p := d ++ [n]) in *.
  assert (Hpt : ~ (p `prefix_of` d \/ p = temp_path d n sfx)).
  { intros [Hx|Hx]; [by apply (not_prefix_child d n)|by apply (temp_path_ne d n sfx)]. }
  assert (R0 : reaches (fun f => f !! p = fs w !! p) w w0).
  { apply (reaches_at _ (fun o => o = fs w !! p) _ _ _ T0); done. }
  destruct r0 as [tmp|e]; [|by intros [= <- <-]].
  destruct (O0 tmp eq_refl) as [Et _]. assert (Hne : tmp <> p) by (subst tmp; apply temp_path_ne).
  assert (F0 : fs w0 !! p = Some (NFile data m t)) by (rewrite (reaches_end _ _ _ R0); done).
  assert (Hfin : forall w1 x, touches nothing w0 w1 -> publish_finish p tmp (Err x) w1 = (r, w') ->
    is_ok r = false /\ reaches (fun f => f !! p = fs w !! p) w w').
  { intros w1 x T E. apply publish_finish_spec in E as [-> T']; [|done]. split; [done|].
    eapply reaches_trans; [exact R0|]. apply (reaches_at (eq tmp) (fun o => o = fs w !! p)); [|done|congruence].
    eapply touches_trans; [by apply touches_nothing|done]. }
  destruct (rename_noreplace tmp p w0) as [r1 w1] eqn:E1.
  pose proof (rename_noreplace_spec _ _ _ _ _ Hne E1) as (T1 & O1 & F1).
  destruct r1 as [[]|e]; [destruct (O1 eq_refl); congruence|]. specialize (F1 eq_refl).
  assert (T1' : touches nothing w0 w1).
  { unfold rename_noreplace in E1. destruct (has_nul tmp || has_nul p); [injection E1 as _ <-; apply touches_refl|].
    rewrite (syscall_advance _ _ _ _ E1). apply touches_advance. by rewrite F1. }
  destruct (bool_decide (io_kind e = AlreadyExists)).
  - destruct (reclaim_empty p w1) as [b w2] eqn:E2.
    pose proof (reclaim_empty_spec _ _ _ _ E2) as (_ & _ & _ & F2 & Hb).
    rewrite F1 in Hb. specialize (Hb _ _ _ F0 Hd). subst b. apply Hfin.
    eapply touches_trans; [done|]. unfold reclaim_empty in E2.
    destruct (is_empty_file p w1) as [eb w3] eqn:E3. apply is_empty_file_spec in E3 as (T3 & _ & He).
    destruct eb; [|by injection E2 as <-]. destruct (He eq_refl) as (m' & t' & Hres).
    rewrite F1, (resolve_file _ _ _ _ _ _ F0) in Hres. by simplify_eq.
  - destruct (noreplace_unsupported e); [|by apply Hfin].
    destruct (publish_new_via_reservation tmp p w1) as [r2 w2] eqn:E2.
    apply (reservation_refuses _ _ _ data m t) in E2 as (Hr & _ & T2); [|done|by rewrite F1|done].
    destruct r2 as [|x]; [done|]. apply Hfin. by eapply touches_trans.
Qed.
End publish_new_lemmas.

(** ** A machine on which nothing fails

    The other half of the contract: with room on the disk and the directories
    in place or creatable, a write goes through. *)

Class Calm (E : Env) : Prop := {
  calm_fault n : env_fault n = None;
  calm_rng n : is_Some (env_rng n)
}.

(** No file or link stands where a directory is needed. *)
Definition dirs_free (f : filesystem) (d : fpath) : Prop :=
  forall q, q `prefix_of` d -> f !! q = None \/ exists m, f !! q = Some (NDir m).

Definition not_dir (o : option node) : Prop := forall m, o <> Some (NDir m).

Section calm_lemmas.
Context `{HE : Env} `{HC : !Calm HE}.

Lemma syscall_calm {A : Type} (g : filesystem -> result A io_error * filesystem) w :
  syscall g w = (fst (g (fs w)), advance w (snd (g (fs w)))).
Proof. unfold syscall. rewrite calm_fault. by destruct (g (fs w)). Qed.

Lemma random_calm k w : exists b, random k w = (Some b, advance w (fs w)).
Proof. unfold random. destruct (calm_rng (tick w)) as [g ->]. eauto. Qed.

Lemma mkdirs_calm mode pre rest f : dirs_free f (pre ++ rest) -> is_dir f pre = true ->
  exists f', mkdirs mode pre rest f = (Ok tt, f') /\ is_dir f' (pre ++ rest) = true.
Proof.
  revert pre f. induction rest as [|c rest IH]; intros pre f Hf Hd; simpl.
  { exists f. by rewrite app_nil_r. }
  rewrite (cons_middle c pre rest), app_assoc in Hf |- *.
  destruct (Hf (pre ++ [c])) as [E|[m E]]; [by exists rest| |]; rewrite E.
  - apply IH.
    + intros q Hq. destruct (decide (pre ++ [c] = q)) as [<-|Hne].
      * right. rewrite lookup_insert_eq. eauto.
      * rewrite lookup_insert_ne by done. by apply Hf.
    + destruct pre; simpl; by rewrite lookup_insert_eq.
  - apply IH; [done|]. destruct pre; simpl in *; by rewrite E.
Qed.

Lemma ensure_vault_dir_calm d w : dirs_free (fs w) d ->
  exists w', ensure_vault_dir d w = (Ok tt, w') /\ is_dir (fs w') d = true.
Proof.
  intros Hf. unfold ensure_vault_dir, create_dir_all. rewrite syscall_calm.
  destruct (mkdirs_calm 448 [] d (fs w)) as (f' & E & Hd); [done|done|]. rewrite E. cbn [fst snd].
  unfold set_permissions. rewrite syscall_calm. cbn [fs advance].
  destruct d as [|c d].
  { destruct (f' !! []) as [[]|]; (eexists; split; [reflexivity|done]). }
  simpl in Hd. destruct (f' !! (c :: d)) as [[]|] eqn:E'; try done. cbn [fst snd].
  eexists. split; [done|]. simpl. by rewrite lookup_insert_eq.
Qed.

Lemma atomic_write_calm d n bs mode w :
  is_dir (fs w) d = true -> not_dir (fs w !! (d ++ [n])) ->
  (forall sfx, fs w !! temp_path d n sfx = None) ->
  exists w', atomic_write_atomic (d ++ [n]) bs mode w = (Ok tt, w').
Proof.
  intros Hd Hn Ht. unfold atomic_write_atomic, dir_of, file_name. rewrite parent_child, last_snoc.
  cbn [from_option id]. destruct (random_calm 8 w) as [sfx E]. rewrite E.
  unfold fill_temp, create_new. rewrite syscall_calm. cbn [fs advance]. rewrite Ht.
  assert (parent_is_dir (fs w) (temp_path d n sfx) = true) as ->
    by (unfold parent_is_dir, temp_path, path_join; by rewrite parent_child).
  cbn [fst snd].
  unfold write_all. cbn [fs advance tick]. rewrite lookup_insert_eq, calm_fault.
  unfold sync_all. rewrite syscall_calm. cbn [fst snd fs advance tick].
  unfold rename. rewrite syscall_calm. cbn [fs advance]. unfold rename_in.
  rewrite lookup_insert_eq, !lookup_insert_ne by apply temp_path_ne.
  destruct (fs w !! (d ++ [n])) as [[| |]|] eqn:En; cbn [fst snd]; eauto. by destruct (Hn mode0).
Qed.

Lemma write_atomic_calm d n bs w :
  dirs_free (fs w) d -> not_dir (fs w !! (d ++ [n])) ->
  (forall sfx, fs w !! temp_path d n sfx = None) ->
  exists w', write_atomic (d ++ [n]) bs w = (Ok tt, w').
Proof.
  intros Hf Hn Ht. unfold write_atomic, dir_of. rewrite parent_child. cbn [from_option id].
  destruct (ensure_vault_dir_calm d w Hf) as (w1 & E & Hd). unfold io_err, with_err. rewrite E.
  cbn [fst snd map_err]. pose proof (ensure_vault_dir_touches _ _ _ _ E) as T.
  assert (Hout : forall m, fs w1 !! (d ++ [m]) = fs w !! (d ++ [m])).
  { intros m. apply (touches_end _ _ _ _ T), not_prefix_child. }
  destruct (atomic_write_calm d n bs 384 w1) as [w2 E2]; [done|by rewrite Hout| |].
  - intros sfx. unfold temp_path, path_join. rewrite Hout. apply Ht.
  - rewrite E2. by exists w2.
Qed.
End calm_lemmas.

(** ** The contracts *)

(** A vault file is replaced atomically: whatever fails and whenever, at
    every point of [write_atomic] (so also after a crash there) the target is
    what it was or holds the complete new contents; success means the new
    contents are there, an error that the target is unchanged; and nothing
    else changes but the directories above it and one temporary file. *)
Theorem write_atomic_atomic `{Env} (d : fpath) (n : str) (bs : bytes) (w : world) :
  let p := d ++ [n] in
  let '(r, w') := write_atomic p bs w in
  reaches (fun f => f !! p = fs w !! p \/ exists m t, f !! p = Some (NFile bs m t)) w w'
  /\ match r with
     | Ok _ => exists m t, fs w' !! p = Some (NFile bs m t)
     | Err _ => fs w' !! p = fs w !! p
     end
  /\ exists sfx, forall q, ~ q `prefix_of` d -> q <> temp_path d n sfx -> q <> p ->
       fs w' !! q = fs w !! q.
Proof.
  simpl. destruct (write_atomic (d ++ [n]) bs w) as [r w'] eqn:E.
  apply write_atomic_spec in E as (sfx & T & R & O & F). split_and!; [exact R| |].
  - destruct r as [[]|e]; [by apply O|by apply F].
  - exists sfx. intros q H1 H2 H3. apply (touches_end _ _ _ _ T). tauto.
Qed.

(** And it does write: on a machine where nothing fails, with no file in
    the way of a directory and no leftover under the temporary name,
    [write_atomic] succeeds. *)
Theorem write_atomic_succeeds `{HE : Env} `{HC : !Calm HE} (d : fpath) (n : str) (bs : bytes) (w : world) :
  dirs_free (fs w) d -> not_dir (fs w !! (d ++ [n])) ->
  (forall sfx, fs w !! temp_path d n sfx = None) ->
  exists w', write_atomic (d ++ [n]) bs w = (Ok tt, w')
    /\ exists m t, fs w' !! (d ++ [n]) = Some (NFile bs m t).
Proof.
  intros Hf Hn Ht. destruct (write_atomic_calm d n bs w Hf Hn Ht) as [w' E]. exists w'.
  split; [done|]. apply write_atomic_spec in E as (_ & _ & _ & O & _). by apply O.
Qed.

Lemma sample_env_calm : Calm sample_env.
Proof. split; [done|]. intros n. by eexists. Qed.

(** A machine with one vault directory and one vault in it. *)
Definition sample_vault_path : fpath := [lit "v"; lit "login.vault"].
Definition sample_world (data : bytes) : world :=
  World (<[sample_vault_path := NFile data 384 (Some 0)]> {[ [lit "v"] := NDir 448 ]}) 0 [].

Lemma sample_world_dirs data : dirs_free (fs (sample_world data)) [lit "v"].
Proof.
  intros q [k E]. destruct q as [|a [|b q]]; [left; by vm_compute|right|done].
  injection E as <- _. eexists. by vm_compute.
Qed.

Lemma sample_world_temp data n sfx : fs (sample_world data) !! temp_path [lit "v"] n sfx = None.
Proof.
  unfold sample_world, temp_path, path_join. simpl fs.
  rewrite lookup_insert_ne, lookup_singleton_ne; [done|done|]. intros [= E].
  apply (f_equal (fun s => last s)) in E.
  assert (last (n ++ 46 :: hex sfx ++ lit ".tmp") = Some 112) as L; [|rewrite <- E in L; by vm_compute in L].
  change (46 :: hex sfx ++ lit ".tmp") with (([46] ++ hex sfx) ++ ([46; 116; 109] ++ [112])).
  by rewrite !app_assoc, last_snoc.
Qed.

Lemma write_atomic_succeeds_witness :
  exists w', @write_atomic sample_env sample_vault_path [z2b 7] (sample_world []) = (Ok tt, w')
    /\ exists m t, fs w' !! sample_vault_path = Some (NFile [z2b 7] m t).
Proof.
  apply (@write_atomic_succeeds sample_env sample_env_calm [lit "v"] (lit "login.vault")).
  - apply sample_world_dirs.
  - intros m. by vm_compute.
  - apply sample_world_temp.
Defined.

(** A new vault never replaces an existing one: when the name is taken by
    a non-empty file, [publish_new] fails whichever way it takes (the atomic
    no-replace rename, the reclaim of an empty reservation, or the fallback by
    reservation), and that file is untouched at every point on the way. *)
Theorem publish_new_never_replaces `{Env} (d : fpath) (n : str) (bs : bytes) (w : world)
    (data : bytes) (m : Z) (t : option Z) :
  fs w !! (d ++ [n]) = Some (NFile data m t) -> data <> [] ->
  let '(r, w') := publish_new (d ++ [n]) bs w in
  is_ok r = false /\ reaches (fun f => f !! (d ++ [n]) = Some (NFile data m t)) w w'.
Proof.
  intros Hp Hd. destruct (publish_new (d ++ [n]) bs w) as [r w'] eqn:E. rewrite <- Hp.
  by apply (publish_new_refuses d n bs w data m t).
Qed.

Lemma publish_new_never_replaces_witness :
  let '(r, w') := @publish_new sample_env sample_vault_path [z2b 7] (sample_world [z2b 1]) in
  is_ok r = false
  /\ reaches (fun f => f !! sample_vault_path = Some (NFile [z2b 1] 384 (Some 0))) (sample_world [z2b 1]) w'.
Proof.
  apply (@publish_new_never_replaces sample_env [lit "v"] (lit "login.vault")); [by vm_compute|done].
Defined.

(** What a reader can meet while a new vault is published, under any
    failures: what was there, nothing, a zero-length reservation, or the
    complete file; never a partial vault. Success means the complete file is
    there. *)
Theorem publish_new_complete `{Env} (d : fpath) (n : str) (bs : bytes) (w : world) :
  let p := d ++ [n] in
  let '(r, w') := publish_new p bs w in
  reaches (fun f => publishing bs (fs w !! p) (f !! p)) w w'
  /\ (r = Ok tt -> exists m t, fs w' !! p = Some (NFile bs m t)).
Proof. simpl. destruct (publish_new (d ++ [n]) bs w) as [r w'] eqn:E. by apply publish_new_outcome. Qed.
