(* ===== verification/Sweep.v ===== *)
(** * Temporary files left by an interrupted save ([sweep_temp_files] in
    [src/vault/store.rs])

    Which names count as the writer's own temporary files, and the sweep that
    removes the old ones when the daemon starts. *)
From S2P Require Import Prelude Text Env Crypto Codec Format Files.

Section sweep.
Context `{Env}.

Definition STALE_TEMP_AGE : Z := 300 * 1000000000.

Definition is_write_atomic_temp_name (name : str) : bool :=
  match strip_suffix (lit ".tmp") name with
  | None => false
  | Some rest =>
    match rsplit_once 46 rest with
    | None => false
    | Some (stem, hx) =>
      let vault_stem := match strip_suffix (lit ".vault") stem with
                        | Some base => match base with [] => false | _ => true end
                        | None => false
                        end in
      let lower_hex := (str_len hx =? 16)
        && forallb (fun b => in_range 48 57 (b2z b) || in_range 97 102 (b2z b)) (utf8 hx) in
      vault_stem && lower_hex
    end
  end.

(** One directory entry of the sweep loop. *)
Definition sweep_entry (dir : fpath) (min_age t : Z) (name : str) (w : world) : nat * world :=
  if negb (is_write_atomic_temp_name name) then (O, w)
  else
    match lstat (path_join dir name) w with
    | (Err _, w) => (O, w)
    | (Ok meta, w) =>
      if negb (m_is_file meta) then (O, w)
      else
        let stale := match m_modified meta with
                     | Some m => if t <? m then true else min_age <=? t - m
                     | None => true
                     end in
        if stale then
          match remove_file (path_join dir name) w with
          | (Ok _, w) => (1%nat, w)
          | (Err _, w) => (O, w)
          end
        else (O, w)
    end.

Fixpoint sweep_entries (dir : fpath) (min_age t : Z) (names : list str) (w : world) : nat * world :=
  match names with
  | [] => (O, w)
  | n :: names =>
    let '(a, w) := sweep_entry dir min_age t n w in
    let '(b, w) := sweep_entries dir min_age t names w in
    ((a + b)%nat, w)
  end.

Definition sweep_temp_files (dir : fpath) (min_age : Z) (w : world) : nat * world :=
  match read_dir dir w with
  | (Err _, w) => (O, w)
  | (Ok names, w) => let '(t, w) := system_now w in sweep_entries dir min_age t names w
  end.

Definition sweep_stale_temp_files (dir : fpath) (w : world) : nat * world :=
  sweep_temp_files dir STALE_TEMP_AGE w.
End sweep.

(** ** The names *)

(** Past ASCII, an encoding ends in a continuation byte. *)
Lemma encode_utf8_high (c : char) : 128 <= c -> exists l, encode_utf8 c = l ++ [z2b (128 + c mod 64)].
Proof.
  intros Hc. unfold encode_utf8. rewrite (proj2 (Z.ltb_ge _ _) Hc).
  destruct (c <? 2048); [by eexists [_]|]. destruct (c <? 65536); [by eexists [_; _]|by eexists [_; _; _]].
Qed.

Lemma hex_bytes_chars (s : str) : str_wf s ->
  forallb (fun b => in_range 48 57 (b2z b) || in_range 97 102 (b2z b)) (utf8 s) = true <->
  Forall (fun c => is_lower_hex c = true) s.
Proof.
  induction 1 as [|c s Hc _ IH]; [done|]. change (utf8 (c :: s)) with (encode_utf8 c ++ utf8 s).
  rewrite forallb_app, andb_true_iff, IH, Forall_cons. apply and_iff_compat_r.
  rewrite is_lower_hex_spec. unfold is_char in Hc. destruct (Z.lt_ge_cases c 128) as [Hlt|Hge].
  - unfold encode_utf8. rewrite (proj2 (Z.ltb_lt _ _) Hlt). cbn [forallb].
    rewrite andb_true_r, orb_true_iff, !in_range_spec, b2z_z2b, Z.mod_small by lia. done.
  - destruct (encode_utf8_high c Hge) as [l ->]. rewrite forallb_app, andb_true_iff. split; [|lia].
    intros [_ Hx]. cbn [forallb] in Hx. pose proof (Z.mod_pos_bound c 64).
    rewrite andb_true_r, orb_true_iff, !in_range_spec, b2z_z2b, Z.mod_small in Hx by lia. lia.
Qed.

Lemma hex_str_len (s : str) : Forall (fun c => is_lower_hex c = true) s -> str_len s = zlen s.
Proof.
  unfold str_len. induction 1 as [|c s Hc _ IH]; [done|].
  change (utf8 (c :: s)) with (encode_utf8 c ++ utf8 s). rewrite zlen_app, IH.
  apply is_lower_hex_spec in Hc. unfold encode_utf8. rewrite (proj2 (Z.ltb_lt c 128)) by lia.
  unfold zlen. simpl length. lia.
Qed.

(** The sweep recognises exactly the writer's temporary names: a
    non-empty id, [.vault], a dot, sixteen lower-case hex digits, [.tmp]. *)
Theorem temp_name_exact (name : str) : str_wf name ->
  is_write_atomic_temp_name name = true <->
  exists id hx, id <> [] /\ length hx = 16%nat /\ Forall (fun c => is_lower_hex c = true) hx
    /\ name = id ++ lit ".vault" ++ [46] ++ hx ++ lit ".tmp".
Proof.
  intros Hwf. unfold is_write_atomic_temp_name.
  destruct (strip_suffix (lit ".tmp") name) as [rest|] eqn:E1; cycle 1.
  { split; [done|]. intros (id & hx & _ & _ & _ & ->). exfalso.
    rewrite !app_assoc in E1.
    by rewrite (proj2 (strip_suffix_Some _ _ (((id ++ lit ".vault") ++ [46]) ++ hx)) eq_refl) in E1. }
  apply strip_suffix_Some in E1 as ->. apply Forall_app in Hwf as [Hwf _].
  assert (Hno : forall hx : str, Forall (fun c => is_lower_hex c = true) hx -> 46 ∉ hx).
  { intros hx Hf Hin. rewrite Forall_forall in Hf. by specialize (Hf _ Hin). }
  destruct (rsplit_once 46 rest) as [[stem hx]|] eqn:E2; cycle 1.
  { split; [done|]. intros (id & hx & _ & _ & Hf & E). exfalso. rewrite !app_assoc in E.
    apply app_inv_tail in E as ->. rewrite <- (app_assoc _ [46]) in E2. change ([46] ++ hx) with (46 :: hx) in E2.
    by rewrite (proj2 (rsplit_once_Some 46 _ (id ++ lit ".vault") hx) (conj eq_refl (Hno _ Hf))) in E2. }
  apply rsplit_once_Some in E2 as [-> Hnin]. apply Forall_app in Hwf as [_ [_ Hwx]%Forall_cons].
  rewrite !andb_true_iff, (hex_bytes_chars hx Hwx), Z.eqb_eq. split.
  - intros [Hs [Hl Hf]]. destruct (strip_suffix (lit ".vault") stem) as [id|] eqn:E3; [|done].
    apply strip_suffix_Some in E3 as ->. exists id, hx. rewrite hex_str_len in Hl by done.
    unfold zlen in Hl. split_and!; [by destruct id|lia|done|by rewrite <- !app_assoc].
  - intros (id & hx' & Hid & Hl & Hf & E). rewrite !app_assoc in E. apply app_inv_tail in E.
    rewrite <- (app_assoc _ [46]) in E.
    assert (Some (stem, hx) = Some (id ++ lit ".vault", hx')) as [= -> ->].
    { rewrite <- (proj2 (rsplit_once_Some 46 _ _ _) (conj eq_refl Hnin)), E.
      apply rsplit_once_Some. split; [done|]. by apply Hno. }
    rewrite (proj2 (strip_suffix_Some _ _ id) eq_refl), hex_str_len by done. unfold zlen.
    split_and!; [by destruct id|lia|done].
Qed.

Lemma temp_name_exact_witness :
  let name := lit "login.vault.00112233445566ff.tmp" in
  is_write_atomic_temp_name name = true <->
  exists id hx, id <> [] /\ length hx = 16%nat /\ Forall (fun c => is_lower_hex c = true) hx
    /\ name = id ++ lit ".vault" ++ [46] ++ hx ++ lit ".tmp".
Proof. apply temp_name_exact. apply (bool_decide_unpack _). vm_compute. exact I. Defined.

(** ** The effect *)

(** A regular file of the directory, named as a temporary file, that is old
    enough at time [t], from the future, or of unknown age. *)
Definition stale_temp (f : filesystem) (dir : fpath) (min_age t : Z) (q : fpath) : Prop :=
  exists name data mode mt, q = dir ++ [name] /\ is_write_atomic_temp_name name = true
    /\ f !! q = Some (NFile data mode mt)
    /\ match mt with Some m => t < m \/ min_age <= t - m | None => True end.

(** Removing entries does not make another one stale. *)
Lemma stale_temp_mono f g dir a t q :
  (forall q n, g !! q = Some n -> f !! q = Some n) -> stale_temp g dir a t q -> stale_temp f dir a t q.
Proof. intros Hs (n & d & m & mt & E & Hn & L & Ha). exists n, d, m, mt. auto. Qed.

Section sweep_lemmas.
Context `{Env}.

Lemma lstat_touches p w x w' : lstat p w = (x, w') -> touches nothing w w' /\ fs w' = fs w.
Proof. apply read_touches. Qed.

Lemma lstat_inv p w m w' : lstat p w = (Ok m, w') -> exists n, fs w !! p = Some n /\ m = node_metadata n.
Proof.
  intros [[_ [e [=]]]|[_ E]]%syscall_inv. simpl in E.
  destruct (fs w !! p) as [n|]; [|done]. exists n. by injection E.
Qed.

(** [remove_file] succeeds only on something that was there. *)
Lemma remove_file_ok p w w' : remove_file p w = (Ok tt, w') ->
  is_Some (fs w !! p) /\ fs w' = delete p (fs w) /\ touches (eq p) w w'.
Proof.
  intros E. pose proof (remove_file_spec _ _ _ _ E) as (T & _ & _).
  apply syscall_inv in E as [[_ [e [=]]]|[-> E]].
  destruct (fs w !! p) as [[]|]; try done; split_and!; try done; by eexists.
Qed.

Definition sweep_stale (min_age t : Z) (mt : option Z) : bool :=
  match mt with Some m => if t <? m then true else min_age <=? t - m | None => true end.

Lemma sweep_stale_spec a t mt : sweep_stale a t mt = true <->
  match mt with Some m => t < m \/ a <= t - m | None => True end.
Proof.
  destruct mt as [m|]; [|done]. simpl. destruct (Z.ltb_spec t m); [split; auto|].
  rewrite Z.leb_le. split; [auto|]. intros [?|?]; lia.
Qed.

Lemma sweep_entry_spec dir a t n w k w' : sweep_entry dir a t n w = (k, w') ->
  touches (fun q => q = dir ++ [n] /\ stale_temp (fs w) dir a t q) w w'
  /\ (k = O /\ fs w' = fs w
      \/ k = 1%nat /\ is_Some (fs w !! (dir ++ [n])) /\ fs w' = delete (dir ++ [n]) (fs w)).
Proof.
  unfold sweep_entry, path_join. destruct (is_write_atomic_temp_name n) eqn:En; simpl; cycle 1.
  { intros [= <- <-]. split; [apply touches_refl|by left]. }
  destruct (lstat (dir ++ [n]) w) as [r w1] eqn:E1. pose proof (lstat_touches _ _ _ _ E1) as [T1 F1].
  destruct r as [m|]; cycle 1.
  { intros [= <- <-]. split; [by apply touches_nothing|by left]. }
  apply lstat_inv in E1 as (nd & L & ->). destruct (m_is_file (node_metadata nd)) eqn:Ef; simpl; cycle 1.
  { intros [= <- <-]. split; [by apply touches_nothing|by left]. }
  destruct nd as [data mode mt| |]; [|done|done]. simpl m_modified.
  fold (sweep_stale a t mt). destruct (sweep_stale a t mt) eqn:Es; cycle 1.
  { intros [= <- <-]. split; [by apply touches_nothing|by left]. }
  assert (Hst : stale_temp (fs w) dir a t (dir ++ [n])).
  { exists n, data, mode, mt. split_and!; try done. by apply sweep_stale_spec. }
  destruct (remove_file (dir ++ [n]) w1) as [[[]|e] w2] eqn:E2; intros [= <- <-].
  - apply remove_file_ok in E2 as (Hs & F2 & T2). rewrite F1 in *. split; [|by right].
    eapply touches_trans; [by apply touches_nothing|]. eapply touches_mono; [|exact T2].
    by intros q <-.
  - apply remove_file_spec in E2 as (T2 & _ & F2). split; [|left; split; [done|rewrite F2; done]].
    eapply touches_trans; [by apply touches_nothing|]. eapply touches_mono; [|exact T2].
    by intros q <-.
Qed.

Lemma sweep_entries_spec dir a t names w k w' : sweep_entries dir a t names w = (k, w') ->
  touches (stale_temp (fs w) dir a t) w w'
  /\ fs w' ⊆ fs w /\ size (fs w) = (k + size (fs w'))%nat.
Proof.
  revert w k w'. induction names as [|n names IH]; intros w k w'; simpl.
  { intros [= <- <-]. split_and!; [apply touches_refl|done|done]. }
  destruct (sweep_entry dir a t n w) as [k1 w1] eqn:E1.
  destruct (sweep_entries dir a t names w1) as [k2 w2] eqn:E2. intros [= <- <-].
  apply sweep_entry_spec in E1 as [T1 C1]. apply IH in E2 as (T2 & S2 & N2).
  assert (S1 : fs w1 ⊆ fs w).
  { destruct C1 as [[_ ->]|(_ & _ & ->)]; [done|apply delete_subseteq]. }
  split_and!.
  - eapply touches_trans; (eapply touches_mono; [|done]); [by intros q [_ ?]|].
    intros q. apply stale_temp_mono. intros q' n' L. by eapply lookup_weaken.
  - by etrans.
  - destruct C1 as [[-> F1]|(-> & Hs & F1)]; rewrite F1 in N2; [lia|].
    rewrite map_size_delete_Some in N2 by done.
    assert (size (fs w) <> O). { destruct Hs as [x Hx]. intros Hz%map_size_empty_inv. by rewrite Hz in Hx. }
    lia.
Qed.
End sweep_lemmas.

Lemma sweep_temp_files_spec `{Env} dir min_age w k w' : sweep_temp_files dir min_age w = (k, w') ->
  touches (stale_temp (fs w) dir min_age (default 0 (env_now (S (tick w))))) w w'
  /\ fs w' ⊆ fs w /\ size (fs w) = (k + size (fs w'))%nat.
Proof.
  unfold sweep_temp_files. destruct (read_dir dir w) as [r w1] eqn:E1.
  assert (tick w1 = S (tick w)) as Ht.
  { revert E1. unfold read_dir. by intros [[-> _]|[-> _]]%syscall_inv. }
  apply read_touches in E1 as [T1 F1]. destruct r as [names|]; cycle 1.
  { intros [= <- <-]. rewrite F1. split_and!; [by apply (touches_nothing _ _ _ T1)|done|done]. }
  unfold system_now. rewrite Ht. intros (T2 & S2 & N2)%sweep_entries_spec.
  cbn [fs advance] in S2, N2, T2. rewrite F1 in *.
  split_and!; [|done|done]. eapply touches_trans; [exact (touches_nothing _ _ _ T1)|].
  eapply touches_trans; [|exact T2]. apply touches_advance. intros q _. by rewrite F1.
Qed.

(** The sweep removes nothing but stale temporary files: at every point
    everything that is not one is as it was (vaults, other files, directories,
    symbolic links, recent temporary files); a stale one is as it was or gone;
    and the number returned is the number of files removed. *)
Theorem sweep_removes_only_stale `{Env} (dir : fpath) (min_age : Z) (w : world) :
  let t := default 0 (env_now (S (tick w))) in
  let '(k, w') := sweep_temp_files dir min_age w in
  reaches (fun f => forall q, ~ stale_temp (fs w) dir min_age t q -> f !! q = fs w !! q) w w'
  /\ fs w' ⊆ fs w
  /\ size (fs w) = (k + size (fs w'))%nat.
Proof.
  cbn zeta. destruct (sweep_temp_files dir min_age w) as [k w'] eqn:E.
  by apply sweep_temp_files_spec in E.
Qed.

Section sweep_calm.
Context `{HE : Env} `{HC : !Calm HE}.

Lemma elem_of_entries (f : filesystem) (dir : fpath) n nd :
  f !! (dir ++ [n]) = Some nd -> n ∈ entries f dir.
Proof.
  intros L. unfold entries. apply list_elem_of_omap. exists (dir ++ [n], nd).
  split; [by apply elem_of_map_to_list|]. rewrite parent_child, bool_decide_eq_true_2 by done.
  unfold file_name. by rewrite last_snoc.
Qed.

Lemma sweep_entry_calm dir a t n w k w' : stale_temp (fs w) dir a t (dir ++ [n]) ->
  sweep_entry dir a t n w = (k, w') -> fs w' !! (dir ++ [n]) = None.
Proof.
  intros (n' & data & mode & mt & E & Hn & L & Hs). apply app_inj_tail in E as [_ <-].
  unfold sweep_entry, path_join. rewrite Hn. cbn [negb]. unfold lstat. rewrite syscall_calm.
  cbn [fst snd]. rewrite L. cbn [node_metadata m_is_file m_modified negb].
  apply sweep_stale_spec in Hs. fold (sweep_stale a t mt). rewrite Hs. unfold remove_file.
  rewrite syscall_calm. cbn [fs advance]. rewrite L. cbn [fst snd]. intros [= <- <-]. simpl.
  apply lookup_delete_eq.
Qed.

Lemma sweep_entries_calm dir a t names w k w' n : n ∈ names ->
  stale_temp (fs w) dir a t (dir ++ [n]) ->
  sweep_entries dir a t names w = (k, w') -> fs w' !! (dir ++ [n]) = None.
Proof.
  intros Hin. revert w k w'. induction names as [|m names IH]; intros w k w' Hs; simpl.
  { by apply not_elem_of_nil in Hin. }
  destruct (sweep_entry dir a t m w) as [k1 w1] eqn:E1.
  destruct (sweep_entries dir a t names w1) as [k2 w2] eqn:E2. intros [= <- <-].
  pose proof (sweep_entries_spec _ _ _ _ _ _ _ E2) as (_ & S2 & _).
  destruct (decide (m = n)) as [->|Hne].
  - apply (sweep_entry_calm _ _ _ _ _ _ _ Hs) in E1. by eapply lookup_weaken_None.
  - apply elem_of_cons in Hin as [->|Hin]; [done|]. eapply (IH Hin); [|exact E2].
    apply sweep_entry_spec in E1 as [T1 _]. destruct Hs as (n' & data & mode & mt & E & Hn & L & Hs).
    exists n', data, mode, mt. split_and!; try done. rewrite <- L. apply (touches_end _ _ _ _ T1).
    intros [E' _]. apply app_inj_tail in E' as [_ ?]. congruence.
Qed.
End sweep_calm.

(** On a machine where nothing fails, no stale temporary file survives
    the sweep. *)
Theorem sweep_complete `{HE : Env} `{HC : !Calm HE} (dir : fpath) (min_age : Z) (w : world) (q : fpath) :
  is_dir (fs w) dir = true ->
  stale_temp (fs w) dir min_age (default 0 (env_now (S (tick w)))) q ->
  fs (snd (sweep_temp_files dir min_age w)) !! q = None.
Proof.
  intros Hd Hs. pose proof Hs as (n & data & mode & mt & -> & _ & L & _).
  unfold sweep_temp_files, read_dir. rewrite syscall_calm, Hd. cbn [fst snd]. unfold system_now.
  cbn [tick advance fs]. destruct (sweep_entries _ _ _ _ _) as [k w'] eqn:E. simpl.
  eapply (sweep_entries_calm dir min_age); [by eapply elem_of_entries| |exact E]. exact Hs.
Qed.

Lemma sweep_complete_witness :
  let q := [lit "v"; lit "login.vault.00112233445566ff.tmp"] in
  let w := World (<[q := NFile [] 384 (Some 0)]> (fs (sample_world [z2b 1]))) 0 [] in
  fs (snd (@sweep_temp_files sample_env [lit "v"] STALE_TEMP_AGE w)) !! q = None.
Proof.
  intros q w. apply (@sweep_complete sample_env sample_env_calm); [by vm_compute|].
  exists (lit "login.vault.00112233445566ff.tmp"), [], 384, (Some 0).
  split_and!; [done|by vm_compute|by vm_compute|]. right. by vm_compute.
Defined.
