(* ===== verification/Store.v ===== *)
(** * The vault ([src/vault/store.rs])

    One collection in memory: the header and the sealed bytes its file holds,
    and, while unlocked, the key and the items.  A method that takes
    [&mut self] is a function from the vault and the world to a result, the
    vault and the world. *)
From S2P Require Import Prelude Text Env Crypto Codec Format Sanitize Files Sweep.

(** [State]: the plaintext exists only in [Unlocked]. *)
Inductive vstate : Type :=
| SLocked
| SUnlocked (key : bytes) (items : list Item).

(** [Vault]. [index_warning] is the error the message of the source formats. *)
Record Vault : Type := {
  path : fpath;
  header : Header;
  aad : bytes;
  ciphertext : bytes;
  state : vstate;
  index_attributes : bool;
  index_warning : option VaultError;
  size_limit : Z;
  retired : bool;
  pinned : bool
}.

Record ImportItem : Type := {
  im_label : str;
  im_attributes : gmap str str;
  im_secret : bytes;
  im_content_type : str;
  im_created : Z;
  im_modified : Z
}.

(** [ItemDelta]: how to undo one change of the item list. *)
Inductive ItemDelta : Type :=
| Pushed
| Replaced (idx : nat) (prior : Item)
| Removed (idx : nat) (prior : Item)
| RemovedMany (removed : list (nat * Item)).

(** *** Field assignment *)

Definition with_header (v : Vault) (h : Header) : Vault :=
  {| path := path v; header := h; aad := aad v; ciphertext := ciphertext v; state := state v;
     index_attributes := index_attributes v; index_warning := index_warning v;
     size_limit := size_limit v; retired := retired v; pinned := pinned v |}.

Definition with_sealed (v : Vault) (a c : bytes) : Vault :=
  {| path := path v; header := header v; aad := a; ciphertext := c; state := state v;
     index_attributes := index_attributes v; index_warning := index_warning v;
     size_limit := size_limit v; retired := retired v; pinned := pinned v |}.

Definition with_state (v : Vault) (s : vstate) : Vault :=
  {| path := path v; header := header v; aad := aad v; ciphertext := ciphertext v; state := s;
     index_attributes := index_attributes v; index_warning := index_warning v;
     size_limit := size_limit v; retired := retired v; pinned := pinned v |}.

Definition with_warning (v : Vault) (x : option VaultError) : Vault :=
  {| path := path v; header := header v; aad := aad v; ciphertext := ciphertext v; state := state v;
     index_attributes := index_attributes v; index_warning := x;
     size_limit := size_limit v; retired := retired v; pinned := pinned v |}.

Definition with_retired (v : Vault) (b : bool) : Vault :=
  {| path := path v; header := header v; aad := aad v; ciphertext := ciphertext v; state := state v;
     index_attributes := index_attributes v; index_warning := index_warning v;
     size_limit := size_limit v; retired := b; pinned := pinned v |}.

Definition with_pinned (v : Vault) (b : bool) : Vault :=
  {| path := path v; header := header v; aad := aad v; ciphertext := ciphertext v; state := state v;
     index_attributes := index_attributes v; index_warning := index_warning v;
     size_limit := size_limit v; retired := retired v; pinned := b |}.

Definition with_index_attributes (v : Vault) (b : bool) : Vault :=
  {| path := path v; header := header v; aad := aad v; ciphertext := ciphertext v; state := state v;
     index_attributes := b; index_warning := index_warning v;
     size_limit := size_limit v; retired := retired v; pinned := pinned v |}.

(** Assigning the item list of an unlocked vault. *)
Definition with_items (v : Vault) (items : list Item) : Vault :=
  match state v with
  | SUnlocked key _ => with_state v (SUnlocked key items)
  | SLocked => v
  end.

Definition header_label (h : Header) (l : str) : Header :=
  {| version := version h; label := l; created := created h; modified := modified h; kdf := kdf h;
     salt := salt h; index_salt := index_salt h; nonce := nonce h; index := index h |}.

Definition header_rotate (h : Header) (s : bytes) (k : KdfParams) (isalt : bytes) : Header :=
  {| version := version h; label := label h; created := created h; modified := modified h; kdf := k;
     salt := s; index_salt := isalt; nonce := nonce h; index := index h |}.

Definition header_resave (h : Header) (t : Z) (n : bytes) (ix : list IndexEntry) : Header :=
  {| version := version h; label := label h; created := created h; modified := t; kdf := kdf h;
     salt := salt h; index_salt := index_salt h; nonce := n; index := ix |}.

(** A [?] in a method: the error returns with the vault as it then is. *)
Notation "'try?' x , v , w <- e ; k" :=
  (match e with (Ok x, v, w) => k | (Err e', v, w) => (Err e', v, w) end)
  (at level 10, x pattern, v name, w name, e at level 200, k at level 200) : rust_scope.


(** ** Getters *)

Definition is_locked (v : Vault) : bool := match state v with SLocked => true | _ => false end.
Definition index_has_attributes (v : Vault) : bool :=
  existsb (fun e => match attr_hashes e with [] => false | _ => true end) (index (header v)).
Definition set_index_attributes := with_index_attributes.
Definition retire (v : Vault) : Vault := with_retired v true.
Definition unretire (v : Vault) : Vault := with_retired v false.
Definition set_pinned := with_pinned.
Definition item_ids (v : Vault) : list str := map ie_id (index (header v)).
Definition has_item (v : Vault) (id : str) : bool :=
  existsb (fun e => str_eqb (ie_id e) id) (index (header v)).

Definition items (v : Vault) : result (list Item) VaultError :=
  match state v with SUnlocked _ items => Ok items | SLocked => Err Locked end.

Definition item (v : Vault) (id : str) : result Item VaultError :=
  let? l := items v in ok_or (find (fun i => str_eqb (i_id i) id) l) (NoSuchItem id).

Definition item_matches (query : gmap str str) (i : Item) : bool :=
  forallb (fun '(k, x) => bool_decide (attributes i !! k = Some x)) (btree_iter query).

Definition search (v : Vault) (query : gmap str str) : result (list Item) VaultError :=
  let? l := items v in Ok (List.filter (item_matches query) l).

Definition lock (v : Vault) : Vault := with_pinned (with_state v SLocked) false.

(** ** Checks *)

Definition check_label (l : str) : result unit VaultError :=
  if MAX_LABEL <? str_len l then Err (LabelTooLong (str_len l) MAX_LABEL) else Ok tt.

Definition check_item_caps (l : str) (attrs : gmap str str) (secret_len : Z) (ct : str)
  : result unit VaultError :=
  match check_caps l attrs secret_len ct with
  | None => Ok tt
  | Some c => Err (ItemTooLarge (cap_as_str (cv_cap c)) (cv_actual c) (cv_limit c))
  end.

Definition check_import_item (idx : nat) (i : ImportItem) : result unit VaultError :=
  match check_caps (im_label i) (im_attributes i) (zlen (im_secret i)) (im_content_type i) with
  | None => Ok tt
  | Some c => Err (ImportTooLarge idx (label_excerpt (im_label i)) (cap_as_str (cv_cap c))
                                  (cv_actual c) (cv_limit c))
  end.

(** The loop over [items.iter().enumerate()]. *)
Fixpoint check_import_items (idx : nat) (l : list ImportItem) : result unit VaultError :=
  match l with
  | [] => Ok tt
  | i :: l => let? _ := check_import_item idx i in check_import_items (S idx) l
  end.

(** ** Undoing a change *)

Definition restore_list (delta : ItemDelta) (l : list Item) : list Item :=
  match delta with
  | Pushed => removelast l
  | Replaced i prior => <[i := prior]> l
  | Removed i prior => if (i <=? length l)%nat then vec_insert i prior l else l
  | RemovedMany removed =>
    fold_left (fun l '(i, prior) => if (i <=? length l)%nat then vec_insert i prior l else l) removed l
  end.

Definition restore_delta (v : Vault) (delta : ItemDelta) : Vault :=
  match state v with
  | SUnlocked key l => with_state v (SUnlocked key (restore_list delta l))
  | SLocked => v
  end.

Definition truncate_items (v : Vault) (len : nat) : Vault :=
  match state v with
  | SUnlocked key l => with_state v (SUnlocked key (take len l))
  | SLocked => v
  end.

(** One pass over the list, each item to [kept] or, with its position, to
    [removed]. *)
Fixpoint split_doomed (doomed : list str) (idx : nat) (l : list Item)
  : list Item * list (nat * Item) :=
  match l with
  | [] => ([], [])
  | i :: l =>
    let '(kept, removed) := split_doomed doomed (S idx) l in
    if bool_decide (i_id i ∈ doomed) then (kept, (idx, i) :: removed) else (i :: kept, removed)
  end.

(** ** Operations *)

Section store.
Context `{Env} `{Prims} `{VaultCodec}.

Definition search_ids (v : Vault) (query : gmap str str) : list str :=
  if negb (bool_decide (query = ∅)) && negb (index_has_attributes v) then []
  else
    let query_hashes := hash_query (index_salt (header v)) query in
    map ie_id (List.filter (fun e => matches_hashes e query_hashes) (index (header v))).

(** [save_with]: the step that publishes the bytes is the caller's. *)
Definition save_with (publish : fpath -> bytes -> world -> result unit VaultError * world)
    (v : Vault) (w : world) : result unit VaultError * Vault * world :=
  if retired v then (Err Retired, v, w)
  else
    match state v with
    | SLocked => (Err Locked, v, w)
    | SUnlocked key l =>
      match try_random_bytes NONCE_LEN w with
      | (Err e, w) => (Err (CryptoErr e), v, w)
      | (Ok n, w) =>
        let saved_header := header v in
        let '(t, w) := now w in
        let h := header_resave (header v) t n
                   (build_index (index_salt (header v)) l (index_attributes v)) in
        let v := with_header v h in
        match header_bytes (header v) with
        | Err e => (Err (FormatErr e), with_header v saved_header, w)
        | Ok a =>
          match encode_items l with
          | Err e => (Err (FormatErr e), with_header v saved_header, w)
          | Ok plain =>
            match seal key (nonce (header v)) a plain with
            | Err e => (Err (CryptoErr e), with_header v saved_header, w)
            | Ok c =>
              let bs := a ++ c in
              match check_vault_size_against (zlen bs) (size_limit v) with
              | Err e => (Err (FormatErr e), with_header v saved_header, w)
              | Ok _ =>
                match publish (path v) bs w with
                | (Err e, w) => (Err e, with_header v saved_header, w)
                | (Ok _, w) => (Ok tt, with_sealed v a c, w)
                end
              end
            end
          end
        end
      end
    end.

Definition save : Vault -> world -> result unit VaultError * Vault * world := save_with write_atomic.

(** A new, unlocked, empty vault in memory. *)
Definition build (p : fpath) (l : str) (password : bytes) (k : KdfParams) (w : world)
  : result Vault VaultError * world :=
  match check_label l with
  | Err e => (Err e, w)
  | Ok _ =>
    do? s, w <- with_err CryptoErr (try_random_bytes SALT_LEN w);
    do? isalt, w <- with_err CryptoErr (try_random_bytes SALT_LEN w);
    match derive_key password s k with
    | Err e => (Err (CryptoErr e), w)
    | Ok key =>
      let '(t, w) := now w in
      (Ok {| path := p;
             header := {| version := VERSION; label := l; created := t; modified := t; kdf := k;
                          salt := s; index_salt := isalt; nonce := repeat x00 NONCE_LEN; index := [] |};
             aad := []; ciphertext := []; state := SUnlocked key [];
             index_attributes := true; index_warning := None; size_limit := MAX_VAULT_BYTES;
             retired := false; pinned := false |}, w)
    end
  end.

Definition create (p : fpath) (l : str) (password : bytes) (k : KdfParams) (w : world)
  : result Vault VaultError * world :=
  let dir := dir_of p in
  do? _, w <- io_err dir (ensure_vault_dir dir w);
  do? v, w <- build p l password k w;
  match save_with publish_new v w with
  | (Err e, _, w) => (Err e, w)
  | (Ok _, v, w) => (Ok v, w)
  end.

Definition open_vault (p : fpath) (w : world) : result Vault VaultError * world :=
  do? meta, w <- io_err p (stat p w);
  match check_vault_size (m_len meta) with
  | Err e => (Err (FormatErr e), w)
  | Ok _ =>
    do? bs, w <- io_err p (read_file p w);
    match vf_decode bs with
    | Err e => (Err (FormatErr e), w)
    | Ok f =>
      (Ok {| path := p; header := vf_header f; aad := vf_aad f; ciphertext := vf_ciphertext f;
             state := SLocked; index_attributes := true; index_warning := None;
             size_limit := MAX_VAULT_BYTES; retired := false; pinned := false |}, w)
    end
  end.

(** The metadata read for the log line; its result is only logged. *)
Definition warn_aead_failure (v : Vault) (w : world) : world := snd (stat (path v) w).

Definition verify_key (v : Vault) (key : bytes) (w : world) : result bool VaultError * world :=
  match state v with
  | SUnlocked current _ => (Ok (bool_decide (current = key)), w)
  | SLocked =>
    let ok := is_ok (open key (nonce (header v)) (aad v) (ciphertext v)) in
    (Ok ok, if ok then w else warn_aead_failure v w)
  end.

Definition verify_password (v : Vault) (password : bytes) (w : world)
  : result bool VaultError * world :=
  match derive_key password (salt (header v)) (kdf (header v)) with
  | Err e => (Err (CryptoErr e), w)
  | Ok key => verify_key v key w
  end.

(** Whether the index should carry attribute hashes, for these items. *)
Definition wants_attributes (v : Vault) (l : list Item) : bool :=
  index_attributes v && existsb (fun i => negb (bool_decide (attributes i = ∅))) l.

Definition unlock_with_key (key : bytes) (v : Vault) (w : world)
  : result unit VaultError * Vault * world :=
  if retired v then (Err Retired, v, w)
  else if negb (is_locked v) then
    match verify_key v key w with
    | (Err e, w) => (Err e, v, w)
    | (Ok true, w) => (Ok tt, v, w)
    | (Ok false, w) => (Err WrongPassword, v, w)
    end
  else
    match open key (nonce (header v)) (aad v) (ciphertext v) with
    | Err _ => (Err WrongPassword, v, warn_aead_failure v w)
    | Ok plain =>
      match decode_items plain with
      | Err e => (Err (FormatErr e), v, w)
      | Ok l =>
        let v := with_state v (SUnlocked key l) in
        if negb (Bool.eqb (index_has_attributes v) (wants_attributes v l)) then
          match save v w with
          | (Ok _, v, w) => (Ok tt, with_warning v None, w)
          | (Err e, v, w) => (Ok tt, with_warning v (Some e), w)
          end
        else (Ok tt, with_warning v None, w)
      end
    end.

Definition unlock (password : bytes) (v : Vault) (w : world)
  : result unit VaultError * Vault * world :=
  match derive_key password (salt (header v)) (kdf (header v)) with
  | Err e => (Err (CryptoErr e), v, w)
  | Ok key => unlock_with_key key v w
  end.

Definition save_or_restore {T : Type} (before : T) (restore : Vault -> T -> Vault)
    (v : Vault) (w : world) : result unit VaultError * Vault * world :=
  match save v w with
  | (Ok _, v, w) => (Ok tt, v, w)
  | (Err e, v, w) => (Err e, restore v before, w)
  end.

(** *** Items *)

Definition insert_item_unchecked (l : str) (attrs : gmap str str) (sec : bytes) (ct : str)
    (replace : bool) (v : Vault) (w : world) : result (str * bool) VaultError * Vault * world :=
  let '(t, w) := now w in
  match items v with
  | Err e => (Err e, v, w)
  | Ok its =>
    let pos := if replace then position (fun i => bool_decide (attributes i = attrs)) its else None in
    let '(res, delta, its', w) :=
      match pos with
      | Some p =>
        match its !! p with
        | Some prior =>
          ((i_id prior, true), Replaced p prior,
           <[p := {| i_id := i_id prior; i_label := l; attributes := attributes prior; secret := sec;
                     content_type := ct; i_created := i_created prior; i_modified := t |}]> its, w)
        | None => (([], true), Pushed, its, w)  (* [position] is in range *)
        end
      | None =>
        let '(id, w) := uuid w in
        ((id, false), Pushed,
         its ++ [{| i_id := id; i_label := l; attributes := attrs; secret := sec; content_type := ct;
                    i_created := t; i_modified := t |}], w)
      end in
    try? _, v, w <- save_or_restore delta restore_delta (with_items v its') w;
    (Ok res, v, w)
  end.

Definition insert_item (l : str) (attrs : gmap str str) (sec : bytes) (ct : str) (replace : bool)
    (v : Vault) (w : world) : result (str * bool) VaultError * Vault * world :=
  match items v with
  | Err e => (Err e, v, w)
  | Ok _ =>
    match check_item_caps l attrs (zlen sec) ct with
    | Err e => (Err e, v, w)
    | Ok _ => insert_item_unchecked l attrs sec ct replace v w
    end
  end.

Definition item_touch (i : Item) (t : Z) : Item :=
  {| i_id := i_id i; i_label := i_label i; attributes := attributes i; secret := secret i;
     content_type := content_type i; i_created := i_created i; i_modified := t |}.

Definition update_item (id : str) (f : Item -> Item) (v : Vault) (w : world)
  : result unit VaultError * Vault * world :=
  match items v with
  | Err e => (Err e, v, w)
  | Ok its =>
    match position (fun i => str_eqb (i_id i) id) its with
    | None => (Err (NoSuchItem id), v, w)
    | Some idx =>
      match its !! idx with
      | None => (Err (NoSuchItem id), v, w)  (* [position] is in range *)
      | Some prior =>
        let '(t, w) := now w in
        let i := item_touch (f prior) t in
        match check_caps (i_label i) (attributes i) (zlen (secret i)) (content_type i) with
        | Some c =>
          (Err (ItemTooLarge (cap_as_str (cv_cap c)) (cv_actual c) (cv_limit c)),
           with_items v (<[idx := prior]> (<[idx := i]> its)), w)
        | None =>
          save_or_restore (Replaced idx prior) restore_delta (with_items v (<[idx := i]> its)) w
        end
      end
    end
  end.

Definition delete_item (id : str) (v : Vault) (w : world) : result unit VaultError * Vault * world :=
  match items v with
  | Err e => (Err e, v, w)
  | Ok its =>
    match position (fun i => str_eqb (i_id i) id) its with
    | None => (Err (NoSuchItem id), v, w)
    | Some idx =>
      match its !! idx with
      | None => (Err (NoSuchItem id), v, w)  (* [position] is in range *)
      | Some prior =>
        save_or_restore (Removed idx prior) restore_delta (with_items v (vec_remove idx its)) w
      end
    end
  end.

Definition delete_items (ids : list str) (v : Vault) (w : world)
  : result unit VaultError * Vault * world :=
  match ids with
  | [] => (Ok tt, v, w)
  | _ =>
    match items v with
    | Err e => (Err e, v, w)
    | Ok its =>
      match find (fun id => negb (bool_decide (id ∈ map i_id its))) ids with
      | Some id => (Err (NoSuchItem id), v, w)
      | None =>
        let '(kept, removed) := split_doomed ids 0 its in
        save_or_restore (RemovedMany removed) restore_delta (with_items v kept) w
      end
    end
  end.

(** One fresh uuid per element, in order. *)
Fixpoint import_push (l : list ImportItem) (its : list Item) (w : world) : list Item * world :=
  match l with
  | [] => (its, w)
  | i :: l =>
    let '(id, w) := uuid w in
    import_push l (its ++ [{| i_id := id; i_label := im_label i; attributes := im_attributes i;
                              secret := im_secret i; content_type := im_content_type i;
                              i_created := im_created i; i_modified := im_modified i |}]) w
  end.

Definition import_items (batch : list ImportItem) (v : Vault) (w : world)
  : result unit VaultError * Vault * world :=
  match batch with
  | [] => (Ok tt, v, w)
  | _ =>
    match items v with
    | Err e => (Err e, v, w)
    | Ok its =>
      let before_len := length its in
      match check_import_items 0 batch with
      | Err e => (Err e, v, w)
      | Ok _ =>
        let '(its', w) := import_push batch its w in
        save_or_restore before_len truncate_items (with_items v its') w
      end
    end
  end.

(** *** The collection *)

Definition set_label (l : str) (v : Vault) (w : world) : result unit VaultError * Vault * world :=
  match check_label l with
  | Err e => (Err e, v, w)
  | Ok _ =>
    match items v with
    | Err e => (Err e, v, w)
    | Ok _ =>
      let old_label := label (header v) in
      save_or_restore old_label (fun v old => with_header v (header_label (header v) old))
                      (with_header v (header_label (header v) l)) w
    end
  end.

Definition sweep_dir_now (v : Vault) (w : world) : world :=
  match parent (path v) with
  | Some dir => snd (sweep_temp_files dir 0 w)
  | None => w
  end.

(** Assigning the key of an unlocked vault. *)
Definition with_key (v : Vault) (key : bytes) : Vault :=
  match state v with
  | SUnlocked _ l => with_state v (SUnlocked key l)
  | SLocked => v
  end.

Definition change_key (old_key new_salt : bytes) (new_kdf : KdfParams) (new_key : bytes)
    (v : Vault) (w : world) : result unit VaultError * Vault * world :=
  match validate new_kdf with
  | Err e => (Err (CryptoErr e), v, w)
  | Ok _ =>
    if bool_decide (new_salt = salt (header v)) then (Err SaltReused, v, w)
    else
      match try_random_bytes SALT_LEN w with
      | (Err e, w) => (Err (CryptoErr e), v, w)
      | (Ok new_index_salt, w) =>
        let w := sweep_dir_now v w in
        let was_locked := is_locked v in
        let opened :=
          if was_locked then unlock_with_key old_key v w
          else match verify_key v old_key w with
               | (Err e, w) => (Err e, v, w)
               | (Ok true, w) => (Ok tt, v, w)
               | (Ok false, w) => (Err WrongPassword, v, w)
               end in
        try? _, v, w <- opened;
        let old_salt := salt (header v) in
        let old_kdf := kdf (header v) in
        let old_index_salt := index_salt (header v) in
        let v := with_header v (header_rotate (header v) new_salt new_kdf new_index_salt) in
        let v := with_key v new_key in
        let '(result, v, w) := save v w in
        let '(v, w) :=
          if is_ok result then (v, sweep_dir_now v w)
          else (with_key (with_header v (header_rotate (header v) old_salt old_kdf old_index_salt)) old_key, w) in
        let v := if was_locked then lock v else v in
        (result, v, w)
      end
  end.

Definition change_password (old new : bytes) (k : KdfParams) (v : Vault) (w : world)
  : result unit VaultError * Vault * world :=
  match derive_key old (salt (header v)) (kdf (header v)) with
  | Err e => (Err (CryptoErr e), v, w)
  | Ok old_key =>
    match try_random_bytes SALT_LEN w with
    | (Err e, w) => (Err (CryptoErr e), v, w)
    | (Ok new_salt, w) =>
      match derive_key new new_salt k with
      | Err e => (Err (CryptoErr e), v, w)
      | Ok new_key => change_key old_key new_salt k new_key v w
      end
    end
  end.

Definition delete_file (v : Vault) (w : world) : result unit VaultError * world :=
  do? _, w <- io_err (path v) (remove_file (path v) w);
  match parent (path v) with
  | Some dir => (Ok tt, snd (sweep_stale_temp_files dir w))
  | None => (Ok tt, w)
  end.
End store.
