(* ===== verification/StoreInv.v ===== *)
(** * What a vault keeps true, and what a save does to it

    The invariant of one open collection, and the lemmas from which the
    properties of [StoreProps] follow: a save either commits the whole new
    vault or leaves memory and file as they were. *)
From S2P Require Import Prelude Text Env Crypto Codec Format Sanitize Files Sweep Store.

Section inv.
Context `{HE : Env} `{HP : Prims} `{HC : VaultCodec}.

(** The sealed bytes open under [key] to exactly these items. *)
Definition sealed_as (v : Vault) (key : bytes) (l : list Item) : Prop :=
  exists plain, open key (nonce (header v)) (aad v) (ciphertext v) = Ok plain
                /\ decode_items plain = Ok l.

Definition as_file (v : Vault) : VaultFile :=
  {| vf_header := header v; vf_aad := aad v; vf_ciphertext := ciphertext v |}.

Record vault_ok (v : Vault) : Prop := {
  (** the file is [<id>.vault] in some directory *)
  vo_path : exists d id, path v = d ++ [id ++ lit ".vault"];
  (** the bytes of the file decode to the header in memory *)
  vo_decodes : vf_decode (aad v ++ ciphertext v) = Ok (as_file v);
  (** and are few enough to be read back *)
  vo_size : zlen (aad v ++ ciphertext v) <= MAX_VAULT_BYTES;
  vo_limit : size_limit v <= MAX_VAULT_BYTES;
  (** an unlocked vault's items are what its sealed bytes hold under its key *)
  vo_state : match state v with SUnlocked key l => sealed_as v key l | SLocked => True end
}.

(** The file holds the sealed bytes in memory. *)
Definition on_disk (v : Vault) (w : world) : Prop := holds (fs w) (path v) (aad v ++ ciphertext v).

Definition vault_inv (v : Vault) (w : world) : Prop := vault_ok v /\ on_disk v w.

(** Everything a save leaves alone. *)
Definition same_settings (v v' : Vault) : Prop :=
  path v' = path v /\ index_attributes v' = index_attributes v /\ index_warning v' = index_warning v
  /\ size_limit v' = size_limit v /\ retired v' = retired v /\ pinned v' = pinned v.

(** The header fields a save of the items leaves alone. *)
Definition same_header (h h' : Header) : Prop :=
  version h' = version h /\ label h' = label h /\ created h' = created h /\ kdf h' = kdf h
  /\ salt h' = salt h /\ index_salt h' = index_salt h.

(** [v'] is [v] saved with the items [l]: memory and file agree, the settings
    and the identity of the collection are kept, and the header's index is
    that of the new items. *)
Definition committed (v v' : Vault) (w' : world) (key : bytes) (l : list Item) : Prop :=
  vault_inv v' w' /\ state v' = SUnlocked key l /\ same_settings v v'
  /\ same_header (header v) (header v') /\ retired v = false
  /\ index (header v') = build_index (index_salt (header v)) l (index_attributes v).
End inv.

#[global] Instance same_settings_preorder : PreOrder same_settings.
Proof. split; [done|]. unfold same_settings. intros a b c. intuition congruence. Qed.
#[global] Instance same_header_preorder : PreOrder same_header.
Proof. split; [done|]. unfold same_header. intros a b c. intuition congruence. Qed.

(** ** Records *)

Lemma with_header_undo v h : with_header (with_header v h) (header v) = v.
Proof. by destruct v. Qed.

Lemma with_items_undo v key l l' : state v = SUnlocked key l -> with_items (with_items v l') l = v.
Proof. intros E. destruct v. simpl in *. subst. done. Qed.

Lemma with_items_state v key l l' : state v = SUnlocked key l -> state (with_items v l') = SUnlocked key l'.
Proof. intros E. unfold with_items. by rewrite E. Qed.

Lemma items_Ok v l : items v = Ok l <-> exists key, state v = SUnlocked key l.
Proof.
  unfold items. destruct (state v) as [|key l']; split; try done; try by intros [].
  - intros [= ->]. eauto.
  - intros [k [= _ ->]]. done.
Qed.

Lemma with_items_fields v key l l' : state v = SUnlocked key l ->
  header (with_items v l') = header v /\ aad (with_items v l') = aad v
  /\ ciphertext (with_items v l') = ciphertext v /\ same_settings v (with_items v l').
Proof. intros E. unfold with_items. rewrite E. done. Qed.

(** A vault's own name is never one of the sweep's. *)
Lemma vault_name_not_temp id : is_write_atomic_temp_name (id ++ lit ".vault") = false.
Proof.
  unfold is_write_atomic_temp_name. destruct (strip_suffix (lit ".tmp") _) as [r|] eqn:E; [|done].
  apply strip_suffix_Some in E. apply (f_equal (fun s => last s)) in E. exfalso.
  change (lit ".vault") with (lit ".vaul" ++ [116]) in E. change (lit ".tmp") with (lit ".tm" ++ [112]) in E.
  rewrite !app_assoc, !last_snoc in E. done.
Qed.

Section lemmas.
Context `{HE : Env} `{HP : Prims} `{HC : VaultCodec}.
Context `{!EnvOk HE} `{!PrimsOk HP} `{!VaultCodecOk HC}.

Lemma decoded_header_wf bs f : vf_decode bs = Ok f ->
  header_wf (vf_header f) /\ check_header (vf_header f) = Ok tt.
Proof.
  unfold vf_decode. destruct (decode_header_prefix bs) as [[h n]|] eqn:E; [|done].
  apply decode_header_prefix_Ok in E as (_ & _ & Hc & Ht). intros [= <-]. simpl. split; [|done].
  by apply vc_header_wf, (pc_decoded _ _ _ Ht).
Qed.

Lemma decoded_items_wf b l : decode_items b = Ok l -> Forall item_wf l.
Proof.
  unfold decode_items, from_bytes. destruct (take_from_bytes b) as [[l' r]|] eqn:E; [|done].
  intros [= <-]. apply vc_items_wf, (pc_decoded _ _ _ E).
Qed.

Lemma vault_header_wf v : vault_ok v -> header_wf (header v) /\ check_header (header v) = Ok tt.
Proof. intros Hv. apply (decoded_header_wf _ _ (vo_decodes v Hv)). Qed.

Lemma vault_items_wf v key l : vault_ok v -> state v = SUnlocked key l -> Forall item_wf l.
Proof.
  intros Hv E. pose proof (vo_state v Hv) as Hs. rewrite E in Hs.
  destruct Hs as (plain & _ & Hd). by eapply decoded_items_wf.
Qed.

(** *** Saving *)

(** What a vault must satisfy to be saved; its sealed bytes may be stale. *)
Record saveable (v : Vault) (key : bytes) (l : list Item) : Prop := {
  sv_path : exists d id, path v = d ++ [id ++ lit ".vault"];
  sv_header : header_wf (header v);
  sv_check : check_header (header v) = Ok tt;
  sv_limit : size_limit v <= MAX_VAULT_BYTES;
  sv_state : state v = SUnlocked key l;
  sv_items : Forall item_wf l
}.

(** The publication step's contract, at one target. *)
Definition publishes (publish : fpath -> bytes -> world -> result unit VaultError * world) (p : fpath) : Prop :=
  forall bs w r w', publish p bs w = (r, w') -> r = Ok tt -> holds (fs w') p bs.

Lemma resave_wf h t n ix : header_wf h -> u64 t -> length n = NONCE_LEN -> Forall entry_wf ix ->
  header_wf (header_resave h t n ix).
Proof. unfold header_wf. simpl. tauto. Qed.

Lemma save_with_spec publish v key l w r v' w' :
  saveable v key l -> publishes publish (path v) -> save_with publish v w = (r, v', w') ->
  match r with
  | Ok _ =>
      committed v v' w' key l
  | Err _ => v' = v
  end.
Proof.
  intros [Hp Hh Hc Hl Hs Hi] Hpub. unfold save_with, try_random_bytes.
  destruct (retired v) eqn:Er; [by intros [= <- <- <-]|]. rewrite Hs.
  destruct (random NONCE_LEN w) as [[n|] w1] eqn:E1; [|by intros [= <- <- <-]].
  assert (Hn : length n = NONCE_LEN) by (apply (length_random NONCE_LEN w); by rewrite E1).
  pose proof (now_u64 w1) as Ht. destruct (now w1) as [t w2] eqn:E2. simpl in Ht.
  set (h := header_resave (header v) t n _). cbn [header with_header path size_limit].
  assert (Hwf : header_wf h) by (apply resave_wf; [done..|by apply build_index_wf]).
  destruct (header_bytes h) as [a|] eqn:Ea; [|intros [= <- <- <-]; apply with_header_undo].
  destruct (encode_items l) as [plain|] eqn:Ep; [|intros [= <- <- <-]; apply with_header_undo].
  destruct (seal key (nonce h) a plain) as [c|] eqn:Ec; [|intros [= <- <- <-]; apply with_header_undo].
  unfold check_vault_size_against. destruct (Z.ltb_spec (size_limit v) (zlen (a ++ c)));
    [intros [= <- <- <-]; apply with_header_undo|].
  destruct (publish (path v) (a ++ c) w2) as [[[]|e] w3] eqn:E3; intros [= <- <- <-];
    [|apply with_header_undo].
  specialize (Hpub _ _ _ _ E3 eq_refl). unfold committed. split_and!; try done. split; [|done].
  split; simpl; [done| |lia|done|].
  - unfold vf_decode. rewrite (decode_header_bytes h); [|by apply vc_header_wf|done|done].
    by rewrite take_app_length, drop_app_length.
  - rewrite Hs. exists plain. split; [by apply seal_open|].
    apply (decode_encode_items l); [by apply vc_items_wf|done].
Qed.

Lemma write_atomic_publishes d n : publishes write_atomic (d ++ [n]).
Proof. intros bs w r w' E Hr. apply write_atomic_spec in E as (_ & _ & _ & O & _). auto. Qed.

Lemma now_fs w t w' : now w = (t, w') -> fs w' = fs w.
Proof. by intros [= _ <-]. Qed.
Lemma uuid_fs w t w' : uuid w = (t, w') -> fs w' = fs w.
Proof. by intros [= _ <-]. Qed.
Lemma random_fs n w t w' : random n w = (t, w') -> fs w' = fs w.
Proof. by intros [= _ <-]. Qed.

(** Everything a save does to the disk is the one publication. *)
Lemma save_with_effect publish v w r v' w' : save_with publish v w = (r, v', w') ->
  is_ok r = false /\ fs w' = fs w
  \/ exists bs w1 r1, fs w1 = fs w /\ publish (path v) bs w1 = (r1, w') /\ is_ok r = is_ok r1.
Proof.
  unfold save_with, try_random_bytes.
  destruct (retired v); [intros [= <- <- <-]; by left|]. destruct (state v) as [|key l]; [intros [= <- <- <-]; by left|].
  destruct (random NONCE_LEN w) as [[x|] w1] eqn:E1; apply random_fs in E1 as F1;
    [|intros [= <- <- <-]; by left].
  destruct (now w1) as [t w2] eqn:E2. apply now_fs in E2 as F2. rewrite F1 in F2.
  cbn [header with_header path size_limit].
  destruct (header_bytes _); [|intros [= <- <- <-]; by left].
  destruct (encode_items l); [|intros [= <- <- <-]; by left].
  destruct (seal _ _ _ _); [|intros [= <- <- <-]; by left].
  destruct (check_vault_size_against _ _); [|intros [= <- <- <-]; by left].
  destruct (publish _ _ w2) as [[[]|e'] w3] eqn:E3; intros [= <- <- <-]; right; eauto 6.
Qed.

(** An ordinary save that fails leaves the file alone. *)
Lemma save_err_file d n v w e v' w' : path v = d ++ [n] -> save v w = (Err e, v', w') ->
  fs w' !! path v = fs w !! path v.
Proof.
  intros Hp [[_ ->]|(bs & w1 & r1 & F & E & Hr)]%save_with_effect; [done|]. rewrite Hp in *.
  apply write_atomic_spec in E as (_ & _ & _ & _ & F'). rewrite F' by done. by rewrite F.
Qed.

(** The save of an open vault commits, or changes neither memory nor file. *)
Lemma save_spec v key l w r v' w' : saveable v key l -> save v w = (r, v', w') ->
  match r with
  | Ok _ =>
      committed v v' w' key l
  | Err _ => v' = v /\ fs w' !! path v = fs w !! path v
  end.
Proof.
  intros Hs E. destruct (sv_path _ _ _ Hs) as (d & id & Hp).
  pose proof (save_with_spec write_atomic v key l w r v' w' Hs) as H. rewrite Hp in H.
  specialize (H (write_atomic_publishes _ _) E). destruct r as [u|e]; [done|].
  split; [done|]. by eapply save_err_file.
Qed.

(** An open vault with another item list can be saved. *)
Lemma saveable_items v key l l' : vault_ok v -> state v = SUnlocked key l -> Forall item_wf l' ->
  saveable (with_items v l') key l'.
Proof.
  intros Hv Hs Hl'. destruct (with_items_fields v key l l' Hs) as (Hh & _ & _ & Hp & _ & _ & Hz & _).
  destruct (vault_header_wf v Hv). split; [rewrite Hp; apply Hv|by rewrite Hh|by rewrite Hh| |
    by eapply with_items_state|done].
  rewrite Hz. apply Hv.
Qed.

Lemma inv_unchanged v w w' : vault_inv v w -> fs w' !! path v = fs w !! path v -> vault_inv v w'.
Proof. intros [Hv (m & t & Hd)] E. split; [done|]. exists m, t. by rewrite E. Qed.

(** The shape every item mutator has: a new list, one save, and on failure
    an undo that restores the old list. *)
Lemma mutate_spec {T : Type} (before : T) restore v key l l' w r v' w' :
  vault_inv v w -> state v = SUnlocked key l -> Forall item_wf l' ->
  restore (with_items v l') before = v ->
  save_or_restore before restore (with_items v l') w = (r, v', w') ->
  match r with
  | Ok _ =>
      committed v v' w' key l'
  | Err _ => v' = v /\ vault_inv v w' /\ fs w' !! path v = fs w !! path v
  end.
Proof.
  intros [Hv Hd] Hs Hl' Hundo. pose proof (saveable_items v key l l' Hv Hs Hl') as Hsv.
  destruct (with_items_fields v key l l' Hs) as (Hh & _ & _ & Hset).
  unfold save_or_restore. destruct (save (with_items v l') w) as [[r1 v1] w1] eqn:E.
  apply (save_spec _ _ _ _ _ _ _ Hsv) in E.
  assert (Hp : path (with_items v l') = path v) by apply Hset.
  assert (Hix : index_attributes (with_items v l') = index_attributes v) by apply Hset.
  assert (Hrt : retired (with_items v l') = retired v) by apply Hset.
  destruct r1 as [[]|e]; intros [= <- <- <-].
  - unfold committed in *. rewrite Hh, Hix, Hrt in E. destruct E as (? & ? & Hset' & ? & ? & ?). split_and!; try done.
    by transitivity (with_items v l').
  - destruct E as [-> F]. rewrite Hp in F. split_and!; [done| |done].
    by apply (inv_unchanged v w).
Qed.
End lemmas.
