(* ===== verification/StoreOps.v ===== *)
(** * The vault's operations, one by one

    For each mutator of [src/vault/store.rs]: what the new item list is, that
    the undo recorded for a failed save restores the old one exactly, and from
    both that the operation commits or changes nothing. *)
From S2P Require Import Prelude Text Env Crypto Codec Format Sanitize Files Sweep Store StoreInv.

(** ** The undo *)

Lemma restore_delta_undo v key l l' delta :
  state v = SUnlocked key l -> restore_list delta l' = l -> restore_delta (with_items v l') delta = v.
Proof.
  intros Hs Hr. unfold restore_delta. rewrite (with_items_state v key l l' Hs), Hr.
  destruct v. simpl in *. subst. done.
Qed.

Lemma undo_pushed (l : list Item) i : restore_list Pushed (l ++ [i]) = l.
Proof. apply removelast_last. Qed.

Lemma undo_replaced (l : list Item) p prior i :
  l !! p = Some prior -> restore_list (Replaced p prior) (<[p := i]> l) = l.
Proof. intros Hp. simpl. rewrite list_insert_insert_eq. by apply list_insert_id. Qed.

Lemma undo_removed (l : list Item) p prior :
  l !! p = Some prior -> restore_list (Removed p prior) (vec_remove p l) = l.
Proof.
  intros Hp. pose proof (lookup_lt_Some _ _ _ Hp) as Hlt. simpl.
  destruct (Nat.leb_spec p (length (vec_remove p l))) as [_|Hx].
  - by apply vec_insert_remove.
  - unfold vec_remove in Hx. rewrite length_app, length_take, length_drop in Hx. lia.
Qed.

(** The batch: items reinserted in ascending order of where they sat. *)
Lemma undo_removed_many_at doomed pre (l : list Item) kept removed :
  split_doomed doomed (length pre) l = (kept, removed) ->
  restore_list (RemovedMany removed) (pre ++ kept) = pre ++ l.
Proof.
  revert pre kept removed. induction l as [|i l IH]; intros pre kept removed; simpl.
  { by intros [= <- <-]. }
  destruct (split_doomed doomed (S (length pre)) l) as [k r] eqn:E.
  assert (Hpre : S (length pre) = length (pre ++ [i])) by (rewrite length_app; simpl; lia).
  rewrite Hpre in E. apply IH in E. rewrite <- !app_assoc in E. simpl in E.
  destruct (bool_decide (i_id i ∈ doomed)); intros [= <- <-]; [|done]. simpl.
  destruct (Nat.leb_spec (length pre) (length (pre ++ k))) as [_|Hx]; [|rewrite length_app in Hx; lia].
  unfold vec_insert. by rewrite take_app_length, drop_app_length.
Qed.

Lemma split_doomed_kept doomed k (l : list Item) :
  fst (split_doomed doomed k l) = List.filter (fun i => negb (bool_decide (i_id i ∈ doomed))) l.
Proof.
  revert k. induction l as [|i l IH]; intros k; simpl; [done|]. specialize (IH (S k)).
  destruct (split_doomed doomed (S k) l). simpl in *. subst. by destruct (bool_decide (i_id i ∈ doomed)).
Qed.

Lemma undo_removed_many doomed (l : list Item) kept removed :
  split_doomed doomed 0 l = (kept, removed) -> restore_list (RemovedMany removed) kept = l.
Proof. apply (undo_removed_many_at doomed []). Qed.

Lemma truncate_undo v key l l' :
  state v = SUnlocked key l -> truncate_items (with_items v (l ++ l')) (length l) = v.
Proof.
  intros Hs. unfold truncate_items. rewrite (with_items_state v key l _ Hs), take_app_length.
  destruct v. simpl in *. subst. done.
Qed.

(** ** What each operation means for the item list *)

(** The item [insert_item] writes over an existing one. *)
Definition overwritten (prior : Item) (l : str) (sec : bytes) (ct : str) (t : Z) : Item :=
  {| i_id := i_id prior; i_label := l; attributes := attributes prior; secret := sec;
     content_type := ct; i_created := i_created prior; i_modified := t |}.

Definition new_item (id l : str) (attrs : gmap str str) (sec : bytes) (ct : str) (t : Z) : Item :=
  {| i_id := id; i_label := l; attributes := attrs; secret := sec; content_type := ct;
     i_created := t; i_modified := t |}.

(** An item exactly as an import supplies it, under a fresh id. *)
Definition imported (i : ImportItem) (x : Item) : Prop :=
  x = {| i_id := i_id x; i_label := im_label i; attributes := im_attributes i; secret := im_secret i;
         content_type := im_content_type i; i_created := im_created i; i_modified := im_modified i |}.

Definition import_wf (i : ImportItem) : Prop :=
  str_wf (im_label i) /\ attrs_wf (im_attributes i) /\ str_wf (im_content_type i)
  /\ u64 (im_created i) /\ u64 (im_modified i).

Definition import_within_caps (i : ImportItem) : Prop :=
  within_caps (im_label i) (im_attributes i) (zlen (im_secret i)) (im_content_type i).

(** Nothing happened: the vault as it was, and its file too. *)
Definition untouched `{HC : VaultCodec} `{HP : Prims} (v v' : Vault) (w w' : world) : Prop :=
  v' = v /\ vault_inv v w' /\ fs w' !! path v = fs w !! path v.

Section ops.
Context `{HE : Env} `{HP : Prims} `{HC : VaultCodec}.
Context `{!EnvOk HE} `{!PrimsOk HP} `{!VaultCodecOk HC}.

Lemma uuid_wf w : str_wf (fst (uuid w)).
Proof.
  simpl. eapply Forall_impl; [apply env_uuid_hex|]. intros c Hc%is_lower_hex_spec.
  unfold is_char. lia.
Qed.

Lemma untouched_refl v w w' : vault_inv v w -> fs w' = fs w -> untouched v v w w'.
Proof. intros Hi Hf. split_and!; [done| |by rewrite Hf]. apply (inv_unchanged v w); [done|]. by rewrite Hf. Qed.

Lemma untouched_world v v' w w1 w' : fs w1 = fs w -> untouched v v' w1 w' -> untouched v v' w w'.
Proof. intros Hf (? & ? & F). split_and!; [done|done|]. by rewrite F, Hf. Qed.

Lemma check_item_caps_Ok l a n c : check_item_caps l a n c = Ok tt <-> within_caps l a n c.
Proof. unfold check_item_caps. rewrite <- check_caps_None. by destruct (check_caps l a n c). Qed.

Lemma check_import_items_Ok k batch : check_import_items k batch = Ok tt <-> Forall import_within_caps batch.
Proof.
  revert k. induction batch as [|i batch IH]; intros k; simpl; [by split|]. rewrite Forall_cons.
  unfold check_import_item, import_within_caps at 1. rewrite <- check_caps_None.
  destruct (check_caps _ _ _ _); [split; [done|by intros []]|]. rewrite IH. tauto.
Qed.

(** An item list with one element replaced, removed or added stays well formed. *)
Lemma items_wf_insert l p i : Forall item_wf l -> item_wf i -> Forall item_wf (<[p := i]> l).
Proof. apply Forall_insert. Qed.
Lemma items_wf_remove l p : Forall item_wf l -> Forall item_wf (vec_remove p l).
Proof. rewrite !Forall_forall. intros Hl x Hx. apply Hl. by eapply elem_of_vec_remove. Qed.

(** [mutate_spec] after requests that left the disk alone, with the error
    case as [untouched]. *)
Lemma mutate_after {T : Type} (before : T) restore v key l l' w w1 r v' w' :
  vault_inv v w -> fs w1 = fs w -> state v = SUnlocked key l -> Forall item_wf l' ->
  restore (with_items v l') before = v ->
  save_or_restore before restore (with_items v l') w1 = (r, v', w') ->
  match r with Ok _ => committed v v' w' key l' | Err _ => untouched v v' w w' end.
Proof.
  intros Hi Hf Hs Hl' Hu E.
  apply (mutate_spec before restore v key l l') in E; [|apply (inv_unchanged v w); [done|by rewrite Hf]|done..].
  destruct r; [done|]. by apply (untouched_world v v' w w1 w').
Qed.

Lemma insert_item_outcome l attrs sec ct rep v w r v' w' :
  vault_inv v w -> str_wf l -> attrs_wf attrs -> str_wf ct ->
  insert_item l attrs sec ct rep v w = (r, v', w') ->
  match r with
  | Err _ => untouched v v' w w'
  | Ok (id, replaced) =>
    exists key its its' t, state v = SUnlocked key its /\ within_caps l attrs (zlen sec) ct
      /\ committed v v' w' key its'
      /\ if replaced then
           rep = true /\ exists p prior, position (fun i => bool_decide (attributes i = attrs)) its = Some p
             /\ its !! p = Some prior /\ id = i_id prior
             /\ its' = <[p := overwritten prior l sec ct t]> its
         else (rep = true -> Forall (fun i => attributes i <> attrs) its)
              /\ its' = its ++ [new_item id l attrs sec ct t]
  end.
Proof.
  intros Hi Wl Wa Wc. unfold insert_item. destruct (items v) as [its|e] eqn:Ei;
    [|intros [= <- <- <-]; by apply untouched_refl].
  apply items_Ok in Ei as [key Hs]. pose proof (vault_items_wf v key its (proj1 Hi) Hs) as Wi.
  destruct (check_item_caps l attrs (zlen sec) ct) as [[]|e] eqn:Ec;
    [|intros [= <- <- <-]; by apply untouched_refl].
  apply check_item_caps_Ok in Ec. unfold insert_item_unchecked. pose proof (now_u64 w) as Ht.
  destruct (now w) as [t w1] eqn:En. apply now_fs in En as F1. simpl in Ht.
  unfold items at 1. rewrite Hs.
  destruct (if rep then position _ its else None) as [p|] eqn:Ep.
  - destruct rep; [|done]. pose proof (position_Some _ _ _ Ep) as (prior & Hp & Ha & _). rewrite Hp.
    destruct (save_or_restore _ _ _ w1) as [[r2 v2] w2] eqn:E2.
    apply (mutate_after _ _ v key its _ w w1) in E2; [|done|done|done| |
      by apply (restore_delta_undo v key its), undo_replaced].
    + destruct r2; intros [= <- <- <-]; [|done]. exists key, its. eexists _, t.
      split_and!; try done. exists p, prior. done.
    + apply items_wf_insert; [done|]. eapply Forall_lookup_1 in Hp; [|exact Wi].
      destruct Hp as (? & ? & ? & ? & ? & ?). by unfold item_wf.
  - pose proof (uuid_wf w1) as Wu. destruct (uuid w1) as [id w2] eqn:Eu. apply uuid_fs in Eu as F2.
    simpl in Wu. destruct (save_or_restore _ _ _ w2) as [[r3 v3] w3] eqn:E3.
    apply (mutate_after _ _ v key its _ w w2) in E3; [|done|congruence|done| |
      by apply (restore_delta_undo v key its), undo_pushed].
    + destruct r3; intros [= <- <- <-]; [|done]. exists key, its. eexists _, t.
      split_and!; try done. intros ->. apply Forall_forall. intros i Hin.
      rewrite position_None in Ep. specialize (Ep i Hin). by apply bool_decide_eq_false in Ep.
    + apply Forall_app. split; [done|]. apply Forall_singleton. by unfold item_wf.
Qed.

Lemma delete_item_outcome id v w r v' w' : vault_inv v w -> delete_item id v w = (r, v', w') ->
  match r with
  | Err e => untouched v v' w w'
      /\ (forall key its, state v = SUnlocked key its -> Forall (fun i => i_id i <> id) its -> e = NoSuchItem id)
  | Ok _ =>
    exists key its p, state v = SUnlocked key its
      /\ position (fun i => str_eqb (i_id i) id) its = Some p
      /\ committed v v' w' key (vec_remove p its)
  end.
Proof.
  intros Hi. unfold delete_item. destruct (items v) as [its|e] eqn:Ei.
  2: { intros [= <- <- <-]. split; [by apply untouched_refl|]. intros key its Hs.
       unfold items in Ei. by rewrite Hs in Ei. }
  apply items_Ok in Ei as [key Hs]. pose proof (vault_items_wf v key its (proj1 Hi) Hs) as Wi.
  destruct (position _ its) as [p|] eqn:Ep.
  2: { intros [= <- <- <-]. split; [by apply untouched_refl|done]. }
  pose proof (position_Some _ _ _ Ep) as (prior & Hp & Hid & _). rewrite Hp.
  intros E. apply (mutate_after _ _ v key its _ w w) in E; [|done|done|done|by apply items_wf_remove|
    by apply (restore_delta_undo v key its), undo_removed].
  destruct r; [by exists key, its, p|]. split; [done|]. intros key' its' Hs' Hf.
  rewrite Hs in Hs'. injection Hs' as <- <-. eapply Forall_lookup_1 in Hp; [|exact Hf].
  apply str_eqb_eq in Hid. done.
Qed.

Lemma update_item_outcome id f v w r v' w' : vault_inv v w -> (forall i, item_wf i -> item_wf (f i)) ->
  update_item id f v w = (r, v', w') ->
  match r with
  | Err _ => untouched v v' w w'
  | Ok _ =>
    exists key its p prior t, state v = SUnlocked key its
      /\ position (fun i => str_eqb (i_id i) id) its = Some p /\ its !! p = Some prior
      /\ within_caps (i_label (f prior)) (attributes (f prior)) (zlen (secret (f prior))) (content_type (f prior))
      /\ committed v v' w' key (<[p := item_touch (f prior) t]> its)
  end.
Proof.
  intros Hi Wf. unfold update_item. destruct (items v) as [its|e] eqn:Ei;
    [|intros [= <- <- <-]; by apply untouched_refl].
  apply items_Ok in Ei as [key Hs]. pose proof (vault_items_wf v key its (proj1 Hi) Hs) as Wi.
  destruct (position _ its) as [p|] eqn:Ep; [|intros [= <- <- <-]; by apply untouched_refl].
  pose proof (position_Some _ _ _ Ep) as (prior & Hp & _ & _). rewrite Hp.
  pose proof (now_u64 w) as Ht. destruct (now w) as [t w1] eqn:En. apply now_fs in En as F1. simpl in Ht.
  cbn [item_touch i_label attributes secret content_type].
  destruct (check_caps _ _ _ _) as [c|] eqn:Ec.
  - intros [= <- <- <-]. rewrite list_insert_insert_eq, list_insert_id by done.
    assert (with_items v its = v) as -> by (destruct v; simpl in *; by subst).
    by apply untouched_refl.
  - intros E. apply (mutate_after _ _ v key its _ w w1) in E; [|done|done|done| |
      by apply (restore_delta_undo v key its), undo_replaced].
    + destruct r; [|done]. exists key, its, p, prior, t. split_and!; try done. by apply check_caps_None.
    + apply items_wf_insert; [done|]. eapply Forall_lookup_1 in Hp; [|exact Wi].
      apply Wf in Hp as (? & ? & ? & ? & ? & ?). by unfold item_wf.
Qed.

Lemma delete_items_outcome ids v w r v' w' : vault_inv v w -> delete_items ids v w = (r, v', w') ->
  match r with
  | Err _ => untouched v v' w w'
  | Ok _ =>
    (ids = [] /\ untouched v v' w w')
    \/ exists key its, state v = SUnlocked key its
         /\ Forall (fun id => id ∈ map i_id its) ids
         /\ committed v v' w' key (List.filter (fun i => negb (bool_decide (i_id i ∈ ids))) its)
  end.
Proof.
  intros Hi. unfold delete_items. destruct ids as [|id0 ids0].
  { intros [= <- <- <-]. left. split; [done|by apply untouched_refl]. }
  set (ids := id0 :: ids0). clearbody ids.
  destruct (items v) as [its|e] eqn:Ei; [|intros [= <- <- <-]; by apply untouched_refl].
  apply items_Ok in Ei as [key Hs]. pose proof (vault_items_wf v key its (proj1 Hi) Hs) as Wi.
  destruct (find _ ids) as [id|] eqn:Ef; [intros [= <- <- <-]; by apply untouched_refl|].
  pose proof (split_doomed_kept ids 0 its) as Hk. destruct (split_doomed ids 0 its) as [kept removed] eqn:Es.
  simpl in Hk. intros E. apply (mutate_after _ _ v key its _ w w) in E; [|done|done|done| |
    by apply (restore_delta_undo v key its), (undo_removed_many ids)].
  - destruct r; [|done]. right. exists key, its. rewrite <- Hk. split_and!; [done| |done].
    apply Forall_forall. intros id Hid%list_elem_of_In. pose proof (find_none _ _ Ef id Hid) as Hx.
    simpl in Hx. apply negb_false_iff in Hx. by apply bool_decide_eq_true in Hx.
  - subst kept. rewrite Forall_forall in Wi |- *. intros i [Hin _]%list_elem_of_In%filter_In.
    by apply Wi, list_elem_of_In.
Qed.

Lemma import_push_spec batch its w its' w' : import_push batch its w = (its', w') ->
  fs w' = fs w /\ exists new, its' = its ++ new /\ Forall2 imported batch new
    /\ Forall (fun x => str_wf (i_id x)) new.
Proof.
  revert its w. induction batch as [|i batch IH]; intros its w; cbn [import_push].
  { intros [= <- <-]. split; [done|]. exists []. rewrite app_nil_r. by repeat constructor. }
  pose proof (uuid_wf w) as Wu. destruct (uuid w) as [id w1] eqn:Eu. apply uuid_fs in Eu as F1. simpl in Wu.
  intros (F & new & -> & Hn & Wn)%IH. split; [congruence|]. rewrite <- app_assoc. simpl.
  eexists. split_and!; [done|by constructor|by constructor].
Qed.

Lemma imported_wf batch new : Forall import_wf batch -> Forall2 imported batch new ->
  Forall (fun x => str_wf (i_id x)) new -> Forall item_wf new.
Proof.
  intros Hb Hn. induction Hn as [|i x batch new Hi _ IH]; [constructor|].
  apply Forall_cons in Hb as [(? & ? & ? & ? & ?) Hb]. intros [Hx Wn]%Forall_cons.
  constructor; [|by apply IH]. rewrite Hi. by unfold item_wf.
Qed.

Lemma import_items_outcome batch v w r v' w' : vault_inv v w -> Forall import_wf batch ->
  import_items batch v w = (r, v', w') ->
  match r with
  | Err _ => untouched v v' w w'
  | Ok _ =>
    (batch = [] /\ untouched v v' w w')
    \/ exists key its new, state v = SUnlocked key its /\ Forall import_within_caps batch
         /\ Forall2 imported batch new /\ committed v v' w' key (its ++ new)
  end.
Proof.
  intros Hi Wb. unfold import_items. destruct batch as [|b0 batch0].
  { intros [= <- <- <-]. left. split; [done|by apply untouched_refl]. }
  set (bt := b0 :: batch0) in *. clearbody bt.
  destruct (items v) as [its|e] eqn:Ei; [|intros [= <- <- <-]; by apply untouched_refl].
  apply items_Ok in Ei as [key Hs]. pose proof (vault_items_wf v key its (proj1 Hi) Hs) as Wi.
  destruct (check_import_items 0 bt) as [[]|e] eqn:Ec; [|intros [= <- <- <-]; by apply untouched_refl].
  apply check_import_items_Ok in Ec.
  destruct (import_push bt its w) as [its' w1] eqn:Ep. apply import_push_spec in Ep as (F1 & new & -> & Hn & Wn).
  intros E. apply (mutate_after _ _ v key its _ w w1) in E; [|done|done|done| |by apply (truncate_undo v key)].
  - destruct r; [|done]. right. by exists key, its, new.
  - apply Forall_app. split; [done|]. by apply (imported_wf bt).
Qed.

Lemma header_label_wf h l : header_wf h -> str_wf l -> header_wf (header_label h l).
Proof. unfold header_wf. simpl. tauto. Qed.

Lemma set_label_outcome l v w r v' w' : vault_inv v w -> str_wf l -> set_label l v w = (r, v', w') ->
  match r with
  | Err _ => untouched v v' w w'
  | Ok _ => exists key its, state v = SUnlocked key its /\ str_len l <= MAX_LABEL
      /\ committed (with_header v (header_label (header v) l)) v' w' key its
  end.
Proof.
  intros Hi Wl. unfold set_label, check_label. destruct (Z.ltb_spec MAX_LABEL (str_len l));
    [intros [= <- <- <-]; by apply untouched_refl|].
  destruct (items v) as [its|e] eqn:Ei; [|intros [= <- <- <-]; by apply untouched_refl].
  apply items_Ok in Ei as [key Hs]. pose proof (vault_items_wf v key its (proj1 Hi) Hs) as Wi.
  destruct Hi as [Hv Hd]. destruct (vault_header_wf v Hv) as [Hh Hc].
  set (v1 := with_header v (header_label (header v) l)).
  assert (Hsv : saveable v1 key its).
  { split; [apply Hv|by apply header_label_wf|by apply check_header_Ok, check_header_Ok|apply Hv|done|done]. }
  unfold save_or_restore. destruct (save v1 w) as [[r1 v2] w2] eqn:E.
  apply (save_spec _ _ _ _ _ _ _ Hsv) in E. destruct r1 as [[]|e]; intros [= <- <- <-].
  - by exists key, its.
  - destruct E as [-> F]. assert (Hv1 : with_header v1 (header_label (header v1) (label (header v))) = v).
    { destruct v as [? h]. by destruct h. }
    rewrite Hv1. split_and!; [done| |done]. by apply (inv_unchanged v w).
Qed.
End ops.
