(* ===== verification/StoreKeys.v ===== *)
(** * Opening, unlocking and rekeying a vault

    [create], [open], [unlock_with_key], [change_key] and [delete_file] of
    [src/vault/store.rs], against the invariant of [StoreInv]. *)
From S2P Require Import Prelude Text Env Crypto Codec Format Sanitize Files Sweep Store StoreInv StoreOps.

Section keys.
Context `{HE : Env} `{HP : Prims} `{HC : VaultCodec}.
Context `{!EnvOk HE} `{!PrimsOk HP} `{!VaultCodecOk HC}.

(** The invariant does not read the flags. *)
Lemma vault_ok_fields v v' : path v' = path v -> header v' = header v -> aad v' = aad v ->
  ciphertext v' = ciphertext v -> size_limit v' = size_limit v -> state v' = state v ->
  vault_ok v -> vault_ok v'.
Proof.
  destruct v, v'. simpl. intros -> -> -> -> -> -> [H1 H2 H3 H4 H5]. by split.
Qed.

Lemma vault_inv_fields v v' w : path v' = path v -> header v' = header v -> aad v' = aad v ->
  ciphertext v' = ciphertext v -> size_limit v' = size_limit v -> state v' = state v ->
  vault_inv v w -> vault_inv v' w.
Proof.
  intros Hp Hh Ha Hc Hz Hs [Hv Hd]. split; [by apply (vault_ok_fields v)|].
  unfold on_disk. by rewrite Hp, Ha, Hc.
Qed.

Lemma with_warning_inv v x w : vault_inv v w -> vault_inv (with_warning v x) w.
Proof. by apply vault_inv_fields. Qed.

(** Locking forgets the plaintext, which the invariant then no longer mentions. *)
Lemma lock_inv v w : vault_inv v w -> vault_inv (lock v) w.
Proof. intros [[H1 H2 H3 H4 H5] Hd]. split; [by split|done]. Qed.

Lemma unlocked_inv v key l w : vault_inv v w -> sealed_as v key l ->
  vault_inv (with_state v (SUnlocked key l)) w.
Proof. intros [[H1 H2 H3 H4 H5] Hd] Hs. split; [by split|done]. Qed.

Lemma saveable_inv v key l : vault_ok v -> state v = SUnlocked key l -> saveable v key l.
Proof.
  intros Hv Hs. destruct (vault_header_wf v Hv).
  split; [apply Hv|done|done|apply Hv|done|by eapply vault_items_wf].
Qed.

Lemma warn_aead_fs v w : fs (warn_aead_failure v w) = fs w.
Proof. unfold warn_aead_failure. destruct (stat _ w) eqn:E. by apply stat_touches in E as [_ ?]. Qed.

(** What unlocking keeps: everything but the state, the index and the warning. *)
Definition same_collection (v v' : Vault) : Prop :=
  path v' = path v /\ index_attributes v' = index_attributes v /\ size_limit v' = size_limit v
  /\ retired v' = retired v /\ pinned v' = pinned v /\ same_header (header v) (header v').

(** Unlocking a locked vault: decided by the cipher alone, whatever the disk does. *)
Lemma unlock_locked key v w r v' w' : vault_inv v w -> state v = SLocked -> retired v = false ->
  unlock_with_key key v w = (r, v', w') ->
  match r with
  | Err e => v' = v /\ fs w' = fs w /\ (forall l, ~ sealed_as v key l)
  | Ok _ => exists l, sealed_as v key l /\ state v' = SUnlocked key l /\ vault_inv v' w'
                      /\ same_collection v v'
  end.
Proof.
  intros Hi Hs Hr. unfold unlock_with_key, is_locked. rewrite Hr, Hs. cbn [negb].
  destruct (open key _ _ _) as [plain|] eqn:Eo.
  2: { intros [= <- <- <-]. split_and!; [done|apply warn_aead_fs|]. intros l (p & Ep & _). congruence. }
  destruct (decode_items plain) as [l|e] eqn:Ed.
  2: { intros [= <- <- <-]. split_and!; [done|done|]. intros l (p & Ep & Ed'). congruence. }
  assert (Hsl : sealed_as v key l) by (by exists plain). set (v1 := with_state v (SUnlocked key l)).
  pose proof (unlocked_inv v key l w Hi Hsl) as Hi1. fold v1 in Hi1.
  destruct (negb (Bool.eqb (index_has_attributes v1) (wants_attributes v1 l))).
  2: { intros [= <- <- <-]. exists l. split_and!; [done|done|by apply with_warning_inv|done]. }
  pose proof (saveable_inv v1 key l (proj1 Hi1) eq_refl) as Hsv.
  destruct (save v1 w) as [[r2 v2] w2] eqn:E2. apply (save_spec _ _ _ _ _ _ _ Hsv) in E2.
  destruct r2 as [[]|e]; intros [= <- <- <-]; exists l; split_and!; try done.
  - by apply E2.
  - apply with_warning_inv, E2.
  - destruct E2 as (_ & _ & (? & ? & ? & ? & ? & ?) & ? & _). done.
  - by destruct E2 as [-> _].
  - destruct E2 as [-> F]. by apply with_warning_inv, (inv_unchanged v1 w).
  - by destruct E2 as [-> _].
Qed.

(** On an unlocked vault the key is only compared. *)
Lemma unlock_unlocked key v w r v' w' current l : state v = SUnlocked current l -> retired v = false ->
  unlock_with_key key v w = (r, v', w') ->
  v' = v /\ w' = w /\ match r with Ok _ => key = current | Err _ => key <> current end.
Proof.
  intros Hs Hr. unfold unlock_with_key, is_locked, verify_key. rewrite Hr, Hs. cbn [negb].
  destruct (bool_decide (current = key)) eqn:Ek; intros [= <- <- <-]; bool_to_prop; auto.
Qed.

Lemma unlock_outcome key v w r v' w' : vault_inv v w -> unlock_with_key key v w = (r, v', w') ->
  match r with
  | Err e => v' = v /\ fs w' = fs w /\ (e = Retired /\ retired v = true \/ retired v = false)
  | Ok _ => exists l, sealed_as v key l /\ state v' = SUnlocked key l /\ vault_inv v' w'
                      /\ same_collection v v' /\ retired v = false
  end.
Proof.
  intros Hi E. destruct (retired v) eqn:Hr.
  { unfold unlock_with_key in E. rewrite Hr in E. injection E as <- <- <-. auto. }
  destruct (state v) as [|current l] eqn:Hs.
  - apply unlock_locked in E; [|done..]. destruct r; [|tauto].
    destruct E as (l & ? & ? & ? & ?). exists l. auto.
  - apply (unlock_unlocked _ _ _ _ _ _ current l) in E as (-> & -> & Hk); [|done..].
    destruct r; [|auto]. subst current. exists l. pose proof (vo_state v (proj1 Hi)) as Hx.
    rewrite Hs in Hx. done.
Qed.

(** *** Rotation *)

(** A vault's file is never one of the files a sweep removes. *)
Lemma sweep_dir_now_path v w d id : path v = d ++ [id ++ lit ".vault"] ->
  fs (sweep_dir_now v w) !! path v = fs w !! path v.
Proof.
  intros Hp. unfold sweep_dir_now. rewrite Hp, parent_child.
  destruct (sweep_temp_files d 0 w) as [k w'] eqn:E. apply sweep_temp_files_spec in E as (T & _).
  simpl. apply (touches_end _ _ _ _ T). intros (n & ? & ? & ? & Ep & Hn & _).
  apply app_inj_tail in Ep as [_ <-]. by rewrite vault_name_not_temp in Hn.
Qed.

Lemma sweep_dir_now_inv v w : vault_inv v w ->
  fs (sweep_dir_now v w) !! path v = fs w !! path v /\ vault_inv v (sweep_dir_now v w).
Proof.
  intros Hi. destruct (vo_path v (proj1 Hi)) as (d & id & Hp).
  pose proof (sweep_dir_now_path v w d id Hp) as F. split; [done|]. by apply (inv_unchanged v w).
Qed.

(** The second half of [change_key]: the vault is open under [old_key]. *)
Definition rotate (old_key new_salt : bytes) (new_kdf : KdfParams) (new_key new_index_salt : bytes)
    (v : Vault) (w : world) : result unit VaultError * Vault * world :=
  let v1 := with_key (with_header v (header_rotate (header v) new_salt new_kdf new_index_salt)) new_key in
  let '(r, v2, w2) := save v1 w in
  if is_ok r then (r, v2, sweep_dir_now v2 w2)
  else (r, with_key (with_header v2 (header_rotate (header v2) (salt (header v)) (kdf (header v))
                                       (index_salt (header v)))) old_key, w2).

Lemma header_rotate_wf h s k i : header_wf h -> length s = SALT_LEN -> kdf_wf k -> length i = SALT_LEN ->
  header_wf (header_rotate h s k i).
Proof. unfold header_wf. simpl. tauto. Qed.

Lemma rotate_outcome old_key s k new_key isalt v l w r v' w' :
  vault_inv v w -> state v = SUnlocked old_key l ->
  length s = SALT_LEN -> length isalt = SALT_LEN -> kdf_wf k -> validate k = Ok tt ->
  rotate old_key s k new_key isalt v w = (r, v', w') ->
  match r with
  | Err _ => v' = v /\ vault_inv v w' /\ fs w' !! path v = fs w !! path v
  | Ok _ => vault_inv v' w' /\ state v' = SUnlocked new_key l /\ same_settings v v'
            /\ salt (header v') = s /\ kdf (header v') = k /\ index_salt (header v') = isalt
            /\ label (header v') = label (header v)
  end.
Proof.
  intros Hi Hs Ls Li Wk Vk. unfold rotate.
  set (h := header_rotate (header v) s k isalt).
  assert (Hw : with_key (with_header v h) new_key = with_state (with_header v h) (SUnlocked new_key l)).
  { unfold with_key. simpl. by rewrite Hs. }
  rewrite Hw. set (v1 := with_state (with_header v h) (SUnlocked new_key l)).
  destruct Hi as [Hv Hd]. destruct (vault_header_wf v Hv) as [Hh Hc].
  apply check_header_Ok in Hc as [Hver _].
  assert (Hsv : saveable v1 new_key l).
  { split; [apply Hv|by apply header_rotate_wf|by apply check_header_Ok|apply Hv|done|].
    by apply (vault_items_wf v old_key). }
  destruct (save v1 w) as [[r2 v2] w2] eqn:E2. apply (save_spec _ _ _ _ _ _ _ Hsv) in E2.
  destruct r2 as [[]|e]; cbn [is_ok]; intros [= <- <- <-].
  - destruct E2 as (Hi2 & Hs2 & Hset & (? & ? & ? & ? & ? & ?) & _).
    split_and!; try done. by apply sweep_dir_now_inv.
  - destruct E2 as [-> F]. split_and!; [|by apply (inv_unchanged v w)|done].
    destruct v as [? h0 ? ? st]. simpl in *. subst st. by destruct h0.
Qed.

Lemma change_key_shape old_key s k new_key v w :
  change_key old_key s k new_key v w
  = match validate k with
    | Err e => (Err (CryptoErr e), v, w)
    | Ok _ =>
      if bool_decide (s = salt (header v)) then (Err SaltReused, v, w)
      else match try_random_bytes SALT_LEN w with
           | (Err e, w) => (Err (CryptoErr e), v, w)
           | (Ok isalt, w) =>
             let w := sweep_dir_now v w in
             let opened :=
               if is_locked v then unlock_with_key old_key v w
               else match verify_key v old_key w with
                    | (Err e, w) => (Err e, v, w)
                    | (Ok true, w) => (Ok tt, v, w)
                    | (Ok false, w) => (Err WrongPassword, v, w)
                    end in
             match opened with
             | (Err e, v1, w) => (Err e, v1, w)
             | (Ok _, v1, w) =>
               let '(r, v2, w) := rotate old_key s k new_key isalt v1 w in
               (r, if is_locked v then lock v2 else v2, w)
             end
           end
    end.
Proof.
  unfold change_key, rotate. destruct (validate k); [|done].
  destruct (bool_decide (s = salt (header v))); [done|].
  destruct (try_random_bytes SALT_LEN w) as [[isalt|] w0]; [|done]. cbv zeta.
  destruct (if is_locked v then _ else _) as [[[u|e] v1] w1]; [|done].
  destruct (save _ w1) as [[r v2] w2]. by destruct (is_ok r).
Qed.

(** The first half: an open vault, still under the old key, or a refusal. *)
Lemma opened_outcome old_key v w r v1 w1 : vault_inv v w ->
  (if is_locked v then unlock_with_key old_key v w
   else match verify_key v old_key w with
        | (Err e, w) => (Err e, v, w)
        | (Ok true, w) => (Ok tt, v, w)
        | (Ok false, w) => (Err WrongPassword, v, w)
        end) = (r, v1, w1) ->
  match r with
  | Err _ => v1 = v /\ vault_inv v w1
  | Ok _ => exists l, sealed_as v old_key l /\ state v1 = SUnlocked old_key l /\ vault_inv v1 w1
                      /\ same_collection v v1 /\ (is_locked v = false -> v1 = v)
  end.
Proof.
  intros Hi. unfold is_locked. destruct (state v) as [|current l] eqn:Hs.
  - intros E%unlock_outcome; [|done]. destruct r.
    + destruct E as (l & ? & ? & ? & ? & _). by exists l.
    + destruct E as (-> & F & _). split; [done|]. apply (inv_unchanged v w); [done|]. by rewrite F.
  - unfold verify_key. rewrite Hs. destruct (bool_decide (current = old_key)) eqn:Ek;
      intros [= <- <- <-]; bool_to_prop; [|done]. subst current. exists l.
    pose proof (vo_state v (proj1 Hi)) as Hx. rewrite Hs in Hx. done.
Qed.

Lemma lock_again v v2 l key : state v2 = SUnlocked key l ->
  is_locked (if is_locked v then lock v2 else v2) = is_locked v
  /\ (forall k x, sealed_as (if is_locked v then lock v2 else v2) k x <-> sealed_as v2 k x)
  /\ header (if is_locked v then lock v2 else v2) = header v2
  /\ path (if is_locked v then lock v2 else v2) = path v2.
Proof. intros Hs. destruct (is_locked v); split_and!; try done. unfold is_locked. by rewrite Hs. Qed.

Lemma change_key_outcome old_key s k new_key v w r v' w' :
  vault_inv v w -> length s = SALT_LEN -> kdf_wf k ->
  change_key old_key s k new_key v w = (r, v', w') ->
  vault_inv v' w' /\ is_locked v' = is_locked v /\ path v' = path v
  /\ match r with
     | Ok _ => exists l, sealed_as v old_key l /\ sealed_as v' new_key l
                 /\ salt (header v') = s /\ kdf (header v') = k /\ s <> salt (header v) /\ retired v' = retired v
     | Err _ => (forall l, sealed_as v old_key l -> sealed_as v' old_key l)
                /\ same_header (header v) (header v') /\ (is_locked v = false -> v' = v)
     end.
Proof.
  intros Hi Ls Wk. rewrite change_key_shape. destruct (validate k) as [[]|] eqn:Vk; [|by intros [= <- <- <-]].
  destruct (bool_decide (s = salt (header v))) eqn:Es; [by intros [= <- <- <-]|]. bool_to_prop.
  unfold try_random_bytes. destruct (random SALT_LEN w) as [o w0] eqn:E0.
  assert (Hi0 : vault_inv v w0).
  { apply random_fs in E0. apply (inv_unchanged v w); [done|]. by rewrite E0. }
  destruct o as [isalt|]; [|by intros [= <- <- <-]].
  assert (Li : length isalt = SALT_LEN) by (apply (length_random SALT_LEN w); by rewrite E0).
  cbv zeta. destruct (sweep_dir_now_inv v w0 Hi0) as [_ Hi1].
  destruct (if is_locked v then _ else _) as [[r1 v1] w1] eqn:E1.
  apply (opened_outcome old_key v) in E1; [|done]. destruct r1 as [u|e]; cycle 1.
  { intros [= <- <- <-]. destruct E1 as [-> Hi2]. done. }
  destruct E1 as (l & Hsl & Hs1 & Hi2 & Hc & Heq).
  destruct (rotate old_key s k new_key isalt v1 w1) as [[r2 v2] w2] eqn:E2. intros [= <- <- <-].
  apply (rotate_outcome old_key s k new_key isalt v1 l) in E2; [|done..].
  destruct Hc as (Hp & _ & _ & Hr1 & _ & Hh). destruct r2 as [[]|e].
  - destruct E2 as (Hi3 & Hs2 & (Hp2 & _ & _ & _ & Hr2 & _) & ? & ? & ? & ?). pose proof (vo_state v2 (proj1 Hi3)) as Hx. rewrite Hs2 in Hx.
    destruct (lock_again v v2 l new_key Hs2) as (Hl & Hsa & -> & ->). split_and!.
    + destruct (is_locked v); [by apply lock_inv|done].
    + done.
    + congruence.
    + exists l. split_and!; try done; [by apply Hsa|]. destruct (is_locked v); cbn; congruence.
  - destruct E2 as (-> & Hi3 & _). pose proof (vo_state v1 (proj1 Hi3)) as Hx. rewrite Hs1 in Hx.
    destruct (lock_again v v1 l old_key Hs1) as (Hl & Hsa & -> & ->). split_and!; try done.
    + destruct (is_locked v); [by apply lock_inv|done].
    + intros l' Hl'. apply Hsa. assert (l' = l) as ->; [|done].
      destruct Hsl as (p & Ep & Ed), Hl' as (p' & Ep' & Ed'). congruence.
    + intros Hlk. rewrite Hlk. auto.
Qed.

(** *** Reading a vault back *)

(** The vault [open] makes of a file. *)
Definition opened_vault (p : fpath) (f : VaultFile) : Vault :=
  {| path := p; header := vf_header f; aad := vf_aad f; ciphertext := vf_ciphertext f;
     state := SLocked; index_attributes := true; index_warning := None;
     size_limit := MAX_VAULT_BYTES; retired := false; pinned := false |}.

Lemma vf_decode_encode bs f : vf_decode bs = Ok f -> vf_aad f ++ vf_ciphertext f = bs.
Proof.
  unfold vf_decode. destruct (decode_header_prefix bs) as [[h n]|] eqn:E; [|done].
  apply decode_header_prefix_Ok in E as (Hn & _). intros [= <-]. simpl. apply take_drop.
Qed.

(** Opening any file, with any faults: what is returned satisfies the
    invariant, locked. *)
Lemma open_vault_inv d id v w w' : let p := d ++ [id ++ lit ".vault"] in
  (forall q, fs w !! p <> Some (NLink q)) ->
  open_vault p w = (Ok v, w') -> vault_inv v w' /\ is_locked v = true /\ fs w' = fs w.
Proof.
  simpl. set (p := d ++ [id ++ lit ".vault"]). intros Hlink. unfold open_vault, io_err, with_err.
  destruct (stat p w) as [[meta|] w1] eqn:E1; cbn [fst snd map_err]; [|done].
  pose proof (stat_touches _ _ _ _ E1) as [_ F1].
  apply syscall_inv in E1 as [[_ [e [=]]]|[-> Em]]. simpl in Em. cbn [fs advance] in F1.
  destruct (check_vault_size (m_len meta)) as [[]|] eqn:Ez; [|done].
  destruct (read_file p _) as [[bs|] w2] eqn:E2; cbn [fst snd map_err]; [|done].
  pose proof (read_touches _ _ _ _ E2) as [_ F2].
  apply syscall_inv in E2 as [[_ [e [=]]]|[-> Eb]]. simpl in Eb. cbn [fs advance] in F2.
  destruct (vf_decode bs) as [f|] eqn:Ed; [|done]. intros [= <- <-].
  destruct (fs w !! p) as [nd|] eqn:Ep; [|unfold resolve in Eb; simpl in Eb; by rewrite Ep in Eb].
  destruct nd as [data m t|m|q]; [|unfold resolve in Eb; simpl in Eb; by rewrite Ep in Eb|by destruct (Hlink q)].
  rewrite (resolve_file _ _ _ _ _ _ Ep) in Eb, Em. injection Eb as ->. injection Em as ->.
  pose proof (vf_decode_encode _ _ Ed) as Henc. split_and!; [|done|done]. split.
  - split; simpl.
    + by exists d, id.
    + rewrite Henc, Ed. by destruct f.
    + rewrite Henc. revert Ez. unfold check_vault_size, check_vault_size_against. simpl.
      destruct (Z.ltb_spec MAX_VAULT_BYTES (zlen data)); [done|]. lia.
    + done.
    + done.
  - unfold on_disk, holds. simpl. rewrite Henc. eauto.
Qed.

Lemma open_vault_calm `{!Calm HE} v w : vault_inv v w ->
  exists w', open_vault (path v) w = (Ok (opened_vault (path v) (as_file v)), w') /\ fs w' = fs w.
Proof.
  intros [Hv (m & t & Hd)]. unfold open_vault, io_err, with_err, stat. rewrite syscall_calm. cbn [fst snd].
  rewrite (resolve_file _ _ _ _ _ _ Hd). cbn [node_metadata map_err m_len].
  pose proof (vo_size v Hv) as Hz. unfold check_vault_size, check_vault_size_against.
  destruct (Z.ltb_spec MAX_VAULT_BYTES (zlen (aad v ++ ciphertext v))); [lia|].
  unfold read_file. rewrite syscall_calm. cbn [fst snd fs advance].
  rewrite (resolve_file _ _ _ _ _ _ Hd). cbn [map_err]. rewrite (vo_decodes v Hv). eauto.
Qed.

(** *** Creating *)

Lemma publish_new_publishes d n : publishes publish_new (d ++ [n]).
Proof. intros bs w r w' E Hr. apply publish_new_outcome in E as [_ O]. by apply O. Qed.

Lemma build_outcome d id l pw k w v w' : let p := d ++ [id ++ lit ".vault"] in
  str_wf l -> kdf_wf k -> build p l pw k w = (Ok v, w') ->
  fs w' = fs w /\ exists key, saveable v key [] /\ derive_key pw (salt (header v)) k = Ok key
    /\ str_len l <= MAX_LABEL /\ path v = p /\ kdf (header v) = k /\ label (header v) = l
    /\ retired v = false /\ pinned v = false /\ size_limit v = MAX_VAULT_BYTES.
Proof.
  simpl. intros Wl Wk. unfold build, check_label, with_err, try_random_bytes.
  destruct (Z.ltb_spec MAX_LABEL (str_len l)); [done|].
  destruct (random SALT_LEN w) as [[s|] w1] eqn:E1; cbn [fst snd map_err]; [|done].
  destruct (random SALT_LEN w1) as [[isalt|] w2] eqn:E2; cbn [fst snd map_err]; [|done].
  destruct (derive_key pw s k) as [key|] eqn:Ek; [|done].
  pose proof (now_u64 w2) as Ht. destruct (now w2) as [t w3] eqn:E3. simpl in Ht.
  intros [= <- <-]. split.
  { apply now_fs in E3. apply random_fs in E1, E2. congruence. }
  exists key. simpl. split_and!; try done. split; simpl; try done.
  - by exists d, id.
  - unfold header_wf. simpl. split_and!; try done.
    + apply (length_random SALT_LEN w). by rewrite E1.
    + apply (length_random SALT_LEN w1). by rewrite E2.
  - apply check_header_Ok. split; [done|]. by eapply validate_derive.
Qed.

Lemma create_outcome d id l pw k w r w' : let p := d ++ [id ++ lit ".vault"] in
  str_wf l -> kdf_wf k -> create p l pw k w = (r, w') ->
  match r with
  | Ok v => vault_inv v w' /\ path v = p /\ label (header v) = l /\ str_len l <= MAX_LABEL
            /\ exists key, derive_key pw (salt (header v)) (kdf (header v)) = Ok key
                 /\ kdf (header v) = k /\ state v = SUnlocked key [] /\ retired v = false
  | Err _ => True
  end.
Proof.
  simpl. intros Wl Wk. unfold create, io_err, with_err.
  destruct (ensure_vault_dir _ w) as [[u|] w1]; cbn [fst snd map_err]; [|by intros [= <- <-]].
  destruct (build _ l pw k w1) as [[v1|] w2] eqn:E2; [|by intros [= <- <-]].
  apply build_outcome in E2 as (_ & key & Hsv & Hk & Hl & Hp & Hkd & Hlab & Hr & Hpin & Hz); [|done..].
  destruct (save_with publish_new v1 w2) as [[r3 v3] w3] eqn:E3.
  apply (save_with_spec publish_new v1 key []) in E3; [|done|rewrite Hp; apply publish_new_publishes].
  destruct r3 as [[]|e]; intros [= <- <-]; [|done].
  destruct E3 as (Hi & Hs & (Hp3 & _ & _ & _ & Hr3 & _) & (_ & Hl3 & _ & Hkd3 & Hs3 & _) & _).
  split_and!; [done|congruence|congruence|done|]. exists key. rewrite Hs3, Hkd3, Hkd. split_and!; congruence.
Qed.

Lemma build_fs p l pw k w r w' : build p l pw k w = (r, w') -> fs w' = fs w.
Proof.
  unfold build, with_err, try_random_bytes. destruct (check_label l); [|by intros [= _ <-]].
  destruct (random SALT_LEN w) as [[s|] w1] eqn:E1; cbn [fst snd map_err]; apply random_fs in E1;
    [|by intros [= _ <-]].
  destruct (random SALT_LEN w1) as [[isalt|] w2] eqn:E2; cbn [fst snd map_err]; apply random_fs in E2;
    [|intros [= _ <-]; congruence].
  destruct (derive_key pw s k); [|intros [= _ <-]; congruence]. intros [= _ <-]. simpl. congruence.
Qed.

(** A vault that is there is never created over. *)
Lemma create_refuses d n l pw k w data m t r w' :
  fs w !! (d ++ [n]) = Some (NFile data m t) -> data <> [] -> create (d ++ [n]) l pw k w = (r, w') ->
  is_ok r = false /\ fs w' !! (d ++ [n]) = Some (NFile data m t).
Proof.
  intros Hp Hd. unfold create, io_err, with_err, dir_of. rewrite parent_child. cbn [from_option id].
  destruct (ensure_vault_dir d w) as [r1 w1] eqn:E1. apply ensure_vault_dir_touches in E1 as T1.
  assert (F1 : fs w1 !! (d ++ [n]) = Some (NFile data m t)).
  { rewrite <- Hp. apply (touches_end _ _ _ _ T1), not_prefix_child. }
  destruct r1 as [u|]; cbn [fst snd map_err]; [|by intros [= <- <-]].
  destruct (build (d ++ [n]) l pw k w1) as [r2 w2] eqn:E2. pose proof (build_fs _ _ _ _ _ _ _ E2) as F2.
  destruct r2 as [v|]; [|intros [= <- <-]; by rewrite F2].
  assert (Hpv : path v = d ++ [n]).
  { revert E2. unfold build. destruct (check_label l); [|done]. cbv zeta.
    destruct (with_err _ _) as [[s|] ?]; [|done]. destruct (with_err _ _) as [[isalt|] ?]; [|done].
    destruct (derive_key pw s k); [|done]. destruct (now _) as [tt0 ?]. by intros [= <- _]. }
  destruct (save_with publish_new v w2) as [[r3 v3] w3] eqn:E3.
  apply save_with_effect in E3 as [[Hr F3]|(bs & w4 & r4 & F4 & E4 & Hr)].
  - destruct r3; [done|]. intros [= <- <-]. by rewrite F3, F2.
  - rewrite Hpv in E4. apply (publish_new_refuses d n bs w4 data m t) in E4 as [Hr4 R4];
      [|by rewrite F4, F2|done]. rewrite Hr4 in Hr. destruct r3; [done|]. intros [= <- <-].
    split; [done|]. by rewrite (reaches_end _ _ _ R4), F4, F2.
Qed.
End keys.
