(* ===== verification/StoreProps.v ===== *)
(** * What the vault promises

    The properties of [src/vault/store.rs]: an invariant kept by every
    operation under every failure, the outcome of each operation, the round
    trip through the file, and agreement of the locked search with the
    plaintext one. *)
From S2P Require Import Prelude Text Env Crypto Codec Format Sanitize Files Sweep Store StoreInv StoreOps StoreKeys.

(** ** Sequences of operations *)

Section steps.
Context `{HE : Env} `{HP : Prims} `{HC : VaultCodec}.

(** Every call that can change an open vault, with any arguments the types
    allow and any outcome. *)
Inductive vstep : Vault * world -> Vault * world -> Prop :=
| step_unlock key v w r v' w' :
    unlock_with_key key v w = (r, v', w') -> vstep (v, w) (v', w')
| step_unlock_password pw v w r v' w' :
    unlock pw v w = (r, v', w') -> vstep (v, w) (v', w')
| step_lock v w : vstep (v, w) (lock v, w)
| step_insert l attrs sec ct rep v w r v' w' :
    str_wf l -> attrs_wf attrs -> str_wf ct ->
    insert_item l attrs sec ct rep v w = (r, v', w') -> vstep (v, w) (v', w')
| step_update id f v w r v' w' :
    (forall i, item_wf i -> item_wf (f i)) ->
    update_item id f v w = (r, v', w') -> vstep (v, w) (v', w')
| step_delete id v w r v' w' :
    delete_item id v w = (r, v', w') -> vstep (v, w) (v', w')
| step_delete_many ids v w r v' w' :
    delete_items ids v w = (r, v', w') -> vstep (v, w) (v', w')
| step_import batch v w r v' w' :
    Forall import_wf batch -> import_items batch v w = (r, v', w') -> vstep (v, w) (v', w')
| step_set_label l v w r v' w' :
    str_wf l -> set_label l v w = (r, v', w') -> vstep (v, w) (v', w')
| step_change_key old s k new v w r v' w' :
    length s = SALT_LEN -> kdf_wf k ->
    change_key old s k new v w = (r, v', w') -> vstep (v, w) (v', w')
| step_change_password old new k v w r v' w' :
    kdf_wf k -> change_password old new k v w = (r, v', w') -> vstep (v, w) (v', w')
| step_retire v w : vstep (v, w) (retire v, w)
| step_unretire v w : vstep (v, w) (unretire v, w)
| step_pin b v w : vstep (v, w) (set_pinned v b, w)
| step_policy b v w : vstep (v, w) (set_index_attributes v b, w)
| step_verify key v w r w' : verify_key v key w = (r, w') -> vstep (v, w) (v, w').
End steps.

Section step_lemmas.
Context `{HE : Env} `{HP : Prims} `{HC : VaultCodec}.
Context `{!EnvOk HE} `{!PrimsOk HP} `{!VaultCodecOk HC}.

(** The invariant again, at the same path. *)
Definition keeps (v v' : Vault) (w' : world) : Prop := vault_inv v' w' /\ path v' = path v.

Lemma committed_keeps v v' w' key l : committed v v' w' key l -> keeps v v' w'.
Proof. intros (? & _ & (? & _) & _). done. Qed.

Lemma untouched_keeps v v' w w' : untouched v v' w w' -> keeps v v' w'.
Proof. by intros (-> & ? & _). Qed.

Lemma unlock_with_key_keeps key v w r v' w' :
  vault_inv v w -> unlock_with_key key v w = (r, v', w') -> keeps v v' w'.
Proof.
  intros Hi E. apply unlock_outcome in E; [|done]. destruct r.
  - destruct E as (l & _ & _ & ? & (? & _) & _). done.
  - destruct E as (-> & F & _). split; [|done]. apply (inv_unchanged v w); [done|]. by rewrite F.
Qed.

Lemma unlock_keeps pw v w r v' w' : vault_inv v w -> unlock pw v w = (r, v', w') -> keeps v v' w'.
Proof.
  intros Hi. unfold unlock. destruct (derive_key _ _ _); [by apply unlock_with_key_keeps|].
  by intros [= <- <- <-].
Qed.

Lemma insert_keeps l attrs sec ct rep v w r v' w' :
  vault_inv v w -> str_wf l -> attrs_wf attrs -> str_wf ct ->
  insert_item l attrs sec ct rep v w = (r, v', w') -> keeps v v' w'.
Proof.
  intros Hi W1 W2 W3 E. apply insert_item_outcome in E; [|done..].
  destruct r as [[id rp]|]; [|by eapply untouched_keeps].
  destruct E as (? & ? & ? & ? & _ & _ & ? & _). by eapply committed_keeps.
Qed.

Lemma update_keeps id f v w r v' w' : vault_inv v w -> (forall i, item_wf i -> item_wf (f i)) ->
  update_item id f v w = (r, v', w') -> keeps v v' w'.
Proof.
  intros Hi W E. apply update_item_outcome in E; [|done..]. destruct r; [|by eapply untouched_keeps].
  destruct E as (? & ? & ? & ? & ? & _ & _ & _ & _ & ?). by eapply committed_keeps.
Qed.

Lemma delete_keeps id v w r v' w' : vault_inv v w -> delete_item id v w = (r, v', w') -> keeps v v' w'.
Proof.
  intros Hi E. apply delete_item_outcome in E; [|done]. destruct r.
  - destruct E as (? & ? & ? & _ & _ & ?). by eapply committed_keeps.
  - destruct E as [? _]. by eapply untouched_keeps.
Qed.

Lemma delete_items_keeps ids v w r v' w' : vault_inv v w -> delete_items ids v w = (r, v', w') -> keeps v v' w'.
Proof.
  intros Hi E. apply delete_items_outcome in E; [|done]. destruct r; [|by eapply untouched_keeps].
  destruct E as [[_ ?]|(? & ? & _ & _ & ?)]; [by eapply untouched_keeps|by eapply committed_keeps].
Qed.

Lemma import_keeps batch v w r v' w' : vault_inv v w -> Forall import_wf batch ->
  import_items batch v w = (r, v', w') -> keeps v v' w'.
Proof.
  intros Hi W E. apply import_items_outcome in E; [|done..]. destruct r; [|by eapply untouched_keeps].
  destruct E as [[_ ?]|(? & ? & ? & _ & _ & _ & ?)]; [by eapply untouched_keeps|by eapply committed_keeps].
Qed.

Lemma set_label_keeps l v w r v' w' : vault_inv v w -> str_wf l ->
  set_label l v w = (r, v', w') -> keeps v v' w'.
Proof.
  intros Hi W E. apply set_label_outcome in E; [|done..]. destruct r; [|by eapply untouched_keeps].
  destruct E as (? & ? & _ & _ & Hc). apply committed_keeps in Hc. done.
Qed.

Lemma change_key_keeps old s k new v w r v' w' : vault_inv v w -> length s = SALT_LEN -> kdf_wf k ->
  change_key old s k new v w = (r, v', w') -> keeps v v' w'.
Proof. intros Hi W1 W2 E. by apply change_key_outcome in E as (? & _ & ? & _). Qed.

Lemma change_password_keeps old new k v w r v' w' : vault_inv v w -> kdf_wf k ->
  change_password old new k v w = (r, v', w') -> keeps v v' w'.
Proof.
  intros Hi W. unfold change_password, try_random_bytes.
  destruct (derive_key old _ _) as [old_key|]; [|by intros [= <- <- <-]].
  destruct (random SALT_LEN w) as [o w1] eqn:E1. pose proof (random_fs _ _ _ _ E1) as F1.
  assert (Hi1 : vault_inv v w1) by (apply (inv_unchanged v w); [done|by rewrite F1]).
  destruct o as [s|]; [|by intros [= <- <- <-]].
  destruct (derive_key new s k) as [new_key|]; [|by intros [= <- <- <-]].
  apply change_key_keeps; [done| |done]. apply (length_random SALT_LEN w). by rewrite E1.
Qed.

Lemma verify_keeps key v w r w' : vault_inv v w -> verify_key v key w = (r, w') -> keeps v v w'.
Proof.
  intros Hi E. split; [|done]. apply (inv_unchanged v w); [done|]. f_equal. revert E. unfold verify_key.
  destruct (state v); [|by intros [= _ <-]]. intros [= _ <-].
  destruct (is_ok _); [done|apply warn_aead_fs].
Qed.

Lemma flags_keep v v' w : path v' = path v -> header v' = header v -> aad v' = aad v ->
  ciphertext v' = ciphertext v -> size_limit v' = size_limit v -> state v' = state v ->
  vault_inv v w -> keeps v v' w.
Proof. intros. split; [|done]. by apply (vault_inv_fields v). Qed.

Create HintDb vault.
#[local] Hint Resolve unlock_with_key_keeps unlock_keeps insert_keeps update_keeps delete_keeps
  delete_items_keeps import_keeps set_label_keeps change_key_keeps change_password_keeps
  verify_keeps : vault.

Lemma vstep_keeps v w v' w' : vstep (v, w) (v', w') -> vault_inv v w -> keeps v v' w'.
Proof.
  intros Hs Hi. inversion Hs; subst; eauto with vault; try by apply flags_keep.
  split; [by apply lock_inv|done].
Qed.

Lemma vsteps_keep s s' : rtc vstep s s' -> vault_inv (fst s) (snd s) -> keeps (fst s) (fst s') (snd s').
Proof.
  induction 1 as [[v w]|[v w] [v1 w1] [v2 w2] Hs _ IH]; intros Hi; [done|].
  apply vstep_keeps in Hs as [Hi1 Hp1]; [|done]. destruct (IH Hi1) as [Hi2 Hp2]. split; [done|].
  simpl in *. congruence.
Qed.
End step_lemmas.

(** ** A retired vault *)

Section retired_lemmas.
Context `{HE : Env} `{HP : Prims} `{HC : VaultCodec}.

Lemma save_retired v w : retired v = true -> save v w = (Err Retired, v, w).
Proof. intros Hr. unfold save, save_with. by rewrite Hr. Qed.

Lemma save_or_restore_retired {T : Type} (b : T) f v w : retired v = true ->
  save_or_restore b f v w = (Err Retired, f v b, w).
Proof. intros Hr. unfold save_or_restore. by rewrite save_retired. Qed.

Lemma with_items_retired v l : retired (with_items v l) = retired v.
Proof. unfold with_items. by destruct (state v). Qed.

Lemma unlock_retired key v w : retired v = true -> unlock_with_key key v w = (Err Retired, v, w).
Proof. intros Hr. unfold unlock_with_key. by rewrite Hr. Qed.

Lemma retired_items_write {T : Type} (b : T) f v l w r v' w' : retired v = true ->
  save_or_restore b f (with_items v l) w = (r, v', w') -> fs w' = fs w.
Proof. intros Hr. rewrite save_or_restore_retired by (by rewrite with_items_retired). by intros [= _ _ <-]. Qed.

Lemma insert_retired l a s c rep v w r v' w' : retired v = true ->
  insert_item l a s c rep v w = (r, v', w') -> fs w' = fs w.
Proof.
  intros Hr. unfold insert_item, insert_item_unchecked. destruct (items v); [|by intros [= _ _ <-]].
  destruct (check_item_caps l a (zlen s) c); [|by intros [= _ _ <-]].
  destruct (now w) as [t w1] eqn:En. apply now_fs in En.
  destruct (match (if rep then _ else None) with Some _ => _ | None => _ end) as [[[x y] z] w2] eqn:E2.
  assert (fs w2 = fs w1) as F2.
  { destruct (if rep then _ else None) as [p|]; [destruct (_ !! p)|]; by injection E2 as _ _ _ <-. }
  rewrite save_or_restore_retired by (by rewrite with_items_retired). intros [= _ _ <-]. congruence.
Qed.

Lemma update_retired id f v w r v' w' : retired v = true -> update_item id f v w = (r, v', w') -> fs w' = fs w.
Proof.
  intros Hr. unfold update_item. destruct (items v); [|by intros [= _ _ <-]].
  destruct (position _ _); [|by intros [= _ _ <-]]. destruct (_ !! _); [|by intros [= _ _ <-]].
  destruct (now w) as [t w1] eqn:En. apply now_fs in En. destruct (check_caps _ _ _ _); [by intros [= _ _ <-]|].
  intros E. apply retired_items_write in E; [congruence|done].
Qed.

Lemma delete_retired id v w r v' w' : retired v = true -> delete_item id v w = (r, v', w') -> fs w' = fs w.
Proof.
  intros Hr. unfold delete_item. destruct (items v); [|by intros [= _ _ <-]].
  destruct (position _ _); [|by intros [= _ _ <-]]. destruct (_ !! _); [|by intros [= _ _ <-]].
  by apply retired_items_write.
Qed.

Lemma delete_many_retired ids v w r v' w' : retired v = true -> delete_items ids v w = (r, v', w') -> fs w' = fs w.
Proof.
  intros Hr. unfold delete_items. destruct ids; [by intros [= _ _ <-]|].
  destruct (items v); [|by intros [= _ _ <-]]. destruct (find _ _); [by intros [= _ _ <-]|].
  destruct (split_doomed _ _ _). by apply retired_items_write.
Qed.

Lemma import_push_fs batch its w its' w' : import_push batch its w = (its', w') -> fs w' = fs w.
Proof.
  revert its w. induction batch as [|i batch IH]; intros its w; cbn [import_push]; [by intros [= _ <-]|].
  destruct (uuid w) as [id w1] eqn:Eu. apply uuid_fs in Eu. intros ->%IH. done.
Qed.

Lemma import_retired batch v w r v' w' : retired v = true -> import_items batch v w = (r, v', w') -> fs w' = fs w.
Proof.
  intros Hr. unfold import_items. destruct batch; [by intros [= _ _ <-]|].
  destruct (items v); [|by intros [= _ _ <-]]. destruct (check_import_items _ _); [|by intros [= _ _ <-]].
  destruct (import_push _ _ w) as [its' w1] eqn:Ep. apply import_push_fs in Ep.
  intros E. apply retired_items_write in E; [congruence|done].
Qed.

Lemma set_label_retired l v w r v' w' : retired v = true -> set_label l v w = (r, v', w') -> fs w' = fs w.
Proof.
  intros Hr. unfold set_label. destruct (check_label l); [|by intros [= _ _ <-]].
  destruct (items v); [|by intros [= _ _ <-]].
  rewrite save_or_restore_retired by done. by intros [= _ _ <-].
Qed.

Lemma change_key_retired d id old s k new v w r v' w' : retired v = true -> path v = d ++ [id ++ lit ".vault"] ->
  change_key old s k new v w = (r, v', w') -> fs w' !! path v = fs w !! path v.
Proof.
  intros Hr Hp. rewrite change_key_shape. destruct (validate k); [|by intros [= _ _ <-]].
  destruct (bool_decide _); [by intros [= _ _ <-]|]. unfold try_random_bytes.
  destruct (random SALT_LEN w) as [[isalt|] w1] eqn:E1; apply random_fs in E1; [|intros [= _ _ <-]; by rewrite E1].
  cbv zeta. pose proof (sweep_dir_now_path v w1 d id Hp) as Fs. rewrite E1 in Fs.
  rewrite unlock_retired by done. unfold is_locked, verify_key.
  destruct (state v) as [|current l] eqn:Hs; [by intros [= _ _ <-]|].
  destruct (bool_decide (current = old)); [|by intros [= _ _ <-]].
  unfold rotate, with_key. cbn [state with_header]. rewrite Hs, save_retired by done. cbn [is_ok].
  by intros [= _ _ <-].
Qed.

Lemma change_password_retired d id old new k v w r v' w' : retired v = true ->
  path v = d ++ [id ++ lit ".vault"] ->
  change_password old new k v w = (r, v', w') -> fs w' !! path v = fs w !! path v.
Proof.
  intros Hr Hp. unfold change_password, try_random_bytes. destruct (derive_key _ _ _); [|by intros [= _ _ <-]].
  destruct (random SALT_LEN w) as [[s|] w1] eqn:E1; apply random_fs in E1; [|intros [= _ _ <-]; by rewrite E1].
  destruct (derive_key _ _ _); [|intros [= _ _ <-]; by rewrite E1].
  intros E. apply (change_key_retired d id) in E; [|done..]. by rewrite E, E1.
Qed.

Create HintDb retired.
#[local] Hint Resolve insert_retired update_retired delete_retired delete_many_retired import_retired
  set_label_retired : retired.

Lemma vstep_retired d id v w v' w' : retired v = true -> path v = d ++ [id ++ lit ".vault"] ->
  vstep (v, w) (v', w') -> fs w' !! path v = fs w !! path v.
Proof.
  intros Hr Hp Hs. inversion Hs; subst; try done; try (f_equal; by eauto with retired).
  - match goal with E : unlock_with_key _ _ _ = _ |- _ => rewrite unlock_retired in E by done; by injection E as _ _ <- end.
  - match goal with E : unlock _ _ _ = _ |- _ => revert E end. unfold unlock.
    destruct (derive_key _ _ _); [rewrite unlock_retired by done|]; by intros [= _ _ <-].
  - by eapply change_key_retired.
  - by eapply change_password_retired.
  - match goal with E : verify_key _ _ _ = _ |- _ => revert E end. unfold verify_key.
    destruct (state v'); intros [= _ <-]; [|done]. f_equal. destruct (is_ok _); [done|apply warn_aead_fs].
Qed.
End retired_lemmas.

(** ** Where vaults come from *)

(** A vault just created, or just opened from a file that is not a symbolic
    link. *)
Definition originates `{Env} `{Prims} `{VaultCodec} (p : fpath) (v : Vault) (w : world) : Prop :=
  (exists l pw k w0, str_wf l /\ kdf_wf k /\ create p l pw k w0 = (Ok v, w))
  \/ (exists w0, (forall q, fs w0 !! p <> Some (NLink q)) /\ open_vault p w0 = (Ok v, w)).

Lemma originates_inv `{HE : Env} `{HP : Prims} `{HC : VaultCodec} `{!EnvOk HE} `{!PrimsOk HP}
    `{!VaultCodecOk HC} d id v w :
  originates (d ++ [id ++ lit ".vault"]) v w -> vault_inv v w /\ path v = d ++ [id ++ lit ".vault"].
Proof.
  intros [(l & pw & k & w0 & Wl & Wk & E)|(w0 & Hl & E)].
  - apply create_outcome in E as (? & ? & _); done.
  - pose proof (open_vault_inv _ _ _ _ _ Hl E) as (? & _ & _). split; [done|].
    revert E. unfold open_vault, io_err, with_err. destruct (stat _ w0) as [[m|] w1]; cbn [fst snd map_err]; [|done].
    destruct (check_vault_size _); [|done].
    destruct (read_file _ w1) as [[bs|] w2]; cbn [fst snd map_err]; [|done].
    destruct (vf_decode bs); [|done]. by intros [= <- _].
Qed.

(** *** A concrete vault *)

Definition sample_password : bytes := [x68; x69].

Definition sample_kdf : KdfParams := {| m_cost_kib := 64; t_cost := 1; p_cost := 1 |}.

Definition sample_new : result Vault VaultError * world :=
  @create sample_env sample_prims sample_codec sample_vault_path (lit "Login") sample_password sample_kdf
          (World {[ [lit "v"] := NDir 448 ]} 0 []).

Definition sample_vault : Vault :=
  match fst sample_new with
  | Ok v => v
  | Err _ => {| path := []; header := sample_header; aad := []; ciphertext := []; state := SLocked;
                index_attributes := true; index_warning := None; size_limit := 0; retired := false;
                pinned := false |}
  end.

Definition sample_vault_world : world := snd sample_new.

Lemma sample_new_ok : sample_new = (Ok sample_vault, sample_vault_world).
Proof. vm_compute. reflexivity. Qed.

Lemma sample_originates :
  @originates sample_env sample_prims sample_codec sample_vault_path sample_vault sample_vault_world.
Proof.
  left. exists (lit "Login"), sample_password, sample_kdf, (World {[ [lit "v"] := NDir 448 ]} 0 []).
  split_and!; [apply (bool_decide_unpack _); vm_compute; exact I| |exact sample_new_ok].
  unfold kdf_wf, u32, u32_max. simpl. lia.
Qed.

Lemma sample_vault_inv : @vault_inv sample_prims sample_codec sample_vault sample_vault_world.
Proof.
  eapply (@originates_inv sample_env sample_prims sample_codec sample_env_ok sample_prims_ok
            sample_codec_ok [lit "v"] (lit "login")), sample_originates.
Qed.

Lemma sample_vault_state : exists key, state sample_vault = SUnlocked key [].
Proof. eexists. vm_compute. reflexivity. Qed.

(** ** The properties *)

Section props.
Context (HE : Env) (HP : Prims) (HC : VaultCodec).
Context (HEo : EnvOk HE) (HPo : PrimsOk HP) (HCo : VaultCodecOk HC).

(** C1. Memory and file never part ways. Take any vault created or opened
    at [<dir>/<id>.vault] and let any operations run on it, in any order,
    each meeting any failure of the disk, of the random source or of the
    cipher. At every point the file holds exactly the sealed bytes in
    memory; those bytes decode to the header in memory, with this version
    and safe KDF parameters; the file is small enough to be opened again;
    and if the vault is unlocked, its items are precisely what those bytes
    hold under its key. *)
Theorem vault_memory_matches_file (d : fpath) (id : str) (v0 : Vault) (w0 : world) (v : Vault) (w : world) :
  originates (d ++ [id ++ lit ".vault"]) v0 w0 -> rtc vstep (v0, w0) (v, w) ->
  path v = d ++ [id ++ lit ".vault"]
  /\ (exists m t, fs w !! path v = Some (NFile (aad v ++ ciphertext v) m t))
  /\ vf_decode (aad v ++ ciphertext v)
     = Ok {| vf_header := header v; vf_aad := aad v; vf_ciphertext := ciphertext v |}
  /\ version (header v) = VERSION /\ validate (kdf (header v)) = Ok tt
  /\ zlen (aad v ++ ciphertext v) <= MAX_VAULT_BYTES
  /\ (forall key l, state v = SUnlocked key l -> sealed_as v key l).
Proof.
  intros [Hi Hp]%originates_inv Hs. apply vsteps_keep in Hs as [[Hv Hd] Hp']; [|done]. simpl in *.
  destruct (vault_header_wf v Hv) as [_ [? ?]%check_header_Ok].
  split_and!; [congruence|done|by apply vo_decodes|done|done|by apply vo_size|].
  intros key l Hs. pose proof (vo_state v Hv) as Hx. by rewrite Hs in Hx.
Qed.

(** Nothing saved is lost: open the file of an unlocked vault again, on
    a disk that can be read, and its key unlocks it to the same items under
    the same label, whatever then happens to the disk; so does its password. *)
Theorem reopen_returns_items (v : Vault) (w : world) (key : bytes) (l : list Item) (pw : bytes) :
  Calm HE -> vault_inv v w -> state v = SUnlocked key l ->
  derive_key pw (salt (header v)) (kdf (header v)) = Ok key ->
  exists v1 w1, open_vault (path v) w = (Ok v1, w1) /\ state v1 = SLocked
    /\ exists v2 w2, unlock pw v1 w1 = (Ok tt, v2, w2) /\ items v2 = Ok l
         /\ label (header v2) = label (header v).
Proof.
  intros Hcalm Hi Hs Hk. destruct (open_vault_calm v w Hi) as (w1 & E1 & F1).
  set (v1 := opened_vault (path v) (as_file v)) in *. exists v1, w1. split_and!; [done|done|].
  assert (Hi1 : vault_inv v1 w1).
  { apply (inv_unchanged v1 w); [|by rewrite F1]. destruct Hi as [[H1 H2 H3 H4 H5] Hd]. by split; [split|]. }
  assert (Hsl : sealed_as v1 key l).
  { pose proof (vo_state v (proj1 Hi)) as Hx. by rewrite Hs in Hx. }
  unfold unlock. change (salt (header v1)) with (salt (header v)).
  change (kdf (header v1)) with (kdf (header v)). rewrite Hk.
  destruct (unlock_with_key key v1 w1) as [[r v2] w2] eqn:E2. exists v2, w2.
  apply unlock_locked in E2; [|done..]. destruct r as [[]|e].
  - destruct E2 as (l' & Hl' & Hs2 & _ & Hc). split; [done|]. unfold items. rewrite Hs2. split; [|apply Hc].
    destruct Hsl as (p & Ep & Ed), Hl' as (p' & Ep' & Ed'). congruence.
  - destruct E2 as (_ & _ & Hno). by destruct (Hno l).
Qed.

(** Unlocking is decided by the cipher, not by the disk: a locked vault
    that is not retired unlocks under a key exactly when its sealed bytes
    open under that key to a list of items, which are then its items; a
    failure to rewrite the index is never a failure to unlock; and a refusal
    leaves vault and disk as they were. *)
Theorem unlock_exact (v : Vault) (w : world) (key : bytes) :
  vault_inv v w -> state v = SLocked -> retired v = false ->
  let '(r, v', w') := unlock_with_key key v w in
  (r = Ok tt <-> exists l, sealed_as v key l)
  /\ (forall l, sealed_as v key l -> state v' = SUnlocked key l)
  /\ (r <> Ok tt -> v' = v /\ fs w' = fs w)
  /\ vault_inv v' w'.
Proof.
  intros Hi Hs Hr. destruct (unlock_with_key key v w) as [[r v'] w'] eqn:E.
  pose proof (unlock_with_key_keeps _ _ _ _ _ _ Hi E) as [Hi' _].
  apply unlock_locked in E; [|done..]. destruct r as [[]|e].
  - destruct E as (l & Hl & Hs' & _). split_and!; [split; eauto| |done|done].
    intros l' (p' & Ep' & Ed'). destruct Hl as (p & Ep & Ed). rewrite Hs'. congruence.
  - destruct E as (-> & F & Hno). split_and!; [|intros l Hl; by destruct (Hno l)|done|done].
    split; [done|]. intros [l Hl]. by destruct (Hno l).
Qed.

(** C22. Inserting an item is all or nothing. An error leaves vault and file
    as they were. Success means the item was inside every cap; that it
    replaced the first item with exactly the same attributes, keeping that
    item's id and creation time, or else was appended under a new id (with
    [replace], only when no item has those attributes); and that the new
    list is in memory, in the index and sealed in the file. *)
Theorem insert_item_all_or_nothing (l : str) (attrs : gmap str str) (sec : bytes) (ct : str) (rep : bool)
    (v : Vault) (w : world) :
  vault_inv v w -> str_wf l -> attrs_wf attrs -> str_wf ct ->
  let '(r, v', w') := insert_item l attrs sec ct rep v w in
  match r with
  | Err _ => v' = v /\ vault_inv v w' /\ fs w' !! path v = fs w !! path v
  | Ok (id, replaced) =>
    exists key its its' t, state v = SUnlocked key its /\ within_caps l attrs (zlen sec) ct
      /\ committed v v' w' key its'
      /\ if replaced then
           rep = true /\ exists p prior, position (fun i => bool_decide (attributes i = attrs)) its = Some p
             /\ its !! p = Some prior /\ id = i_id prior
             /\ its' = <[p := overwritten prior l sec ct t]> its
         else (rep = true -> Forall (fun i => attributes i <> attrs) its)
              /\ its' = its ++ [new_item id l attrs sec ct t]
  end.
Proof.
  intros. destruct (insert_item l attrs sec ct rep v w) as [[r v'] w'] eqn:E.
  by apply insert_item_outcome in E.
Qed.

(** Updating an item is all or nothing, and the caps are checked on the
    result of the caller's change, not on its intention: an error leaves
    vault and file as they were; success means the changed item is inside
    every cap and is the only one changed, stamped with the current time. *)
Theorem update_item_all_or_nothing (id : str) (f : Item -> Item) (v : Vault) (w : world) :
  vault_inv v w -> (forall i, item_wf i -> item_wf (f i)) ->
  let '(r, v', w') := update_item id f v w in
  match r with
  | Err _ => v' = v /\ vault_inv v w' /\ fs w' !! path v = fs w !! path v
  | Ok _ =>
    exists key its p prior t, state v = SUnlocked key its
      /\ position (fun i => str_eqb (i_id i) id) its = Some p /\ its !! p = Some prior
      /\ within_caps (i_label (f prior)) (attributes (f prior)) (zlen (secret (f prior))) (content_type (f prior))
      /\ committed v v' w' key (<[p := item_touch (f prior) t]> its)
  end.
Proof.
  intros. destruct (update_item id f v w) as [[r v'] w'] eqn:E. by apply update_item_outcome in E.
Qed.

(** Deleting a batch is all or nothing: an error leaves vault and file
    as they were (the failed save's undo reinserts every removed item where
    it sat); success means every id was present and the file now holds
    exactly the items with none of those ids, in their order. An empty batch
    does nothing, even on a locked vault. *)
Theorem delete_items_all_or_nothing (ids : list str) (v : Vault) (w : world) :
  vault_inv v w ->
  let '(r, v', w') := delete_items ids v w in
  match r with
  | Err _ => v' = v /\ vault_inv v w' /\ fs w' !! path v = fs w !! path v
  | Ok _ =>
    (ids = [] /\ v' = v /\ vault_inv v w' /\ fs w' !! path v = fs w !! path v)
    \/ exists key its, state v = SUnlocked key its
         /\ Forall (fun id => id ∈ map i_id its) ids
         /\ committed v v' w' key (List.filter (fun i => negb (bool_decide (i_id i ∈ ids))) its)
  end.
Proof.
  intros. destruct (delete_items ids v w) as [[r v'] w'] eqn:E. by apply delete_items_outcome in E.
Qed.

(** Deleting one item is all or nothing, and an id that is not there is
    reported as such. *)
Theorem delete_item_all_or_nothing (id : str) (v : Vault) (w : world) :
  vault_inv v w ->
  let '(r, v', w') := delete_item id v w in
  match r with
  | Err e => (v' = v /\ vault_inv v w' /\ fs w' !! path v = fs w !! path v)
      /\ (forall key its, state v = SUnlocked key its -> Forall (fun i => i_id i <> id) its -> e = NoSuchItem id)
  | Ok _ =>
    exists key its p, state v = SUnlocked key its
      /\ position (fun i => str_eqb (i_id i) id) its = Some p
      /\ committed v v' w' key (vec_remove p its)
  end.
Proof.
  intros. destruct (delete_item id v w) as [[r v'] w'] eqn:E. by apply delete_item_outcome in E.
Qed.

(** Importing a batch is all or nothing: one item over a cap refuses the
    whole batch, and a failed save truncates the list back; success appends
    every item, in order, with its own timestamps. *)
Theorem import_items_all_or_nothing (batch : list ImportItem) (v : Vault) (w : world) :
  vault_inv v w -> Forall import_wf batch ->
  let '(r, v', w') := import_items batch v w in
  match r with
  | Err _ => v' = v /\ vault_inv v w' /\ fs w' !! path v = fs w !! path v
  | Ok _ =>
    (batch = [] /\ v' = v /\ vault_inv v w' /\ fs w' !! path v = fs w !! path v)
    \/ exists key its new, state v = SUnlocked key its /\ Forall import_within_caps batch
         /\ Forall2 imported batch new /\ committed v v' w' key (its ++ new)
  end.
Proof.
  intros. destruct (import_items batch v w) as [[r v'] w'] eqn:E. by apply import_items_outcome in E.
Qed.

(** Rotating the key keeps the lock state and never strands the vault.
    Success means the old key did open it, and the same items are now sealed
    under the new key, with the new salt (which is not the old one) and the
    new parameters in the header; an error means it still opens under the
    old key, with the salt and parameters it had, and that an unlocked vault
    is exactly as it was. *)
Theorem change_key_rotates (old_key new_salt : bytes) (k : KdfParams) (new_key : bytes) (v : Vault) (w : world) :
  vault_inv v w -> length new_salt = SALT_LEN -> kdf_wf k ->
  let '(r, v', w') := change_key old_key new_salt k new_key v w in
  vault_inv v' w' /\ is_locked v' = is_locked v
  /\ match r with
     | Ok _ => exists l, sealed_as v old_key l /\ sealed_as v' new_key l
                 /\ salt (header v') = new_salt /\ kdf (header v') = k /\ new_salt <> salt (header v)
     | Err _ => (forall l, sealed_as v old_key l -> sealed_as v' old_key l)
                /\ salt (header v') = salt (header v) /\ kdf (header v') = kdf (header v)
                /\ (is_locked v = false -> v' = v)
     end.
Proof.
  intros Hi Ls Wk. destruct (change_key old_key new_salt k new_key v w) as [[r v'] w'] eqn:E.
  apply change_key_outcome in E as (? & ? & _ & Hr); [|done..]. split_and!; [done|done|].
  destruct r; [naive_solver|]. destruct Hr as (? & (_ & _ & _ & ? & ? & _) & ?). done.
Qed.

(** Creating a vault either gives an open, empty one, under the key of
    its password and already in its file, or leaves an existing vault
    untouched; it never succeeds where a vault is. *)
Theorem create_fresh (d : fpath) (id l : str) (pw : bytes) (k : KdfParams) (w : world) :
  str_wf l -> kdf_wf k ->
  let p := d ++ [id ++ lit ".vault"] in
  let '(r, w') := create p l pw k w in
  (forall data m t, fs w !! p = Some (NFile data m t) -> data <> [] ->
     is_ok r = false /\ fs w' !! p = Some (NFile data m t))
  /\ match r with
     | Ok v => vault_inv v w' /\ path v = p /\ label (header v) = l /\ str_len l <= MAX_LABEL
         /\ exists key, derive_key pw (salt (header v)) (kdf (header v)) = Ok key
              /\ kdf (header v) = k /\ state v = SUnlocked key [] /\ retired v = false
     | Err _ => True
     end.
Proof.
  intros Wl Wk p. destruct (create p l pw k w) as [r w'] eqn:E. split.
  - intros data m t Hp Hd. by apply (create_refuses _ _ l pw k w data m t r w').
  - by apply create_outcome in E.
Qed.

(** A deleted collection never comes back. Once a vault is retired no
    operation touches its path on disk, whatever it returns: a file that was
    unlinked stays absent, even for a writer that held the vault before the
    delete and only now gets its turn. *)
Theorem retired_never_written (d : fpath) (id : str) (v : Vault) (w : world) (v' : Vault) (w' : world) :
  retired v = true -> path v = d ++ [id ++ lit ".vault"] -> vstep (v, w) (v', w') ->
  fs w' !! path v = fs w !! path v.
Proof. apply vstep_retired. Qed.
End props.

(** ** Witnesses *)

(** Apply a property at the sample machine. *)
Abbreviation at_sample thm :=
  (thm sample_env sample_prims sample_codec sample_env_ok sample_prims_ok sample_codec_ok).

Definition sample_attrs : gmap str str := {[ lit "app" := lit "x" ]}.

Definition sample_insert : result (str * bool) VaultError * Vault * world :=
  @insert_item sample_env sample_prims sample_codec (lit "mail") sample_attrs [x70] (lit "text/plain") true
    sample_vault sample_vault_world.

(** The sample vault with one item. *)
Definition sample_full : Vault := snd (fst sample_insert).
Definition sample_full_world : world := snd sample_insert.

Lemma sample_attrs_wf : attrs_wf sample_attrs.
Proof. apply (bool_decide_unpack _). vm_compute. exact I. Qed.

Lemma sample_insert_ok : exists id, sample_insert = (Ok (id, false), sample_full, sample_full_world).
Proof.
  unfold sample_full, sample_full_world.
  assert (exists id, fst (fst sample_insert) = Ok (id, false)) as [id E] by (eexists; vm_compute; reflexivity).
  exists id. rewrite <- E. by destruct sample_insert as [[r v] w].
Qed.

Lemma sample_full_inv : @vault_inv sample_prims sample_codec sample_full sample_full_world.
Proof.
  destruct sample_insert_ok as [id E]. unfold sample_insert in E.
  eapply (@insert_keeps sample_env sample_prims sample_codec sample_env_ok sample_prims_ok sample_codec_ok)
    in E; [by destruct E|apply sample_vault_inv| |apply sample_attrs_wf|];
    apply (bool_decide_unpack _); vm_compute; exact I.
Qed.

Lemma vault_memory_matches_file_witness :
  exists m t, fs sample_full_world !! path sample_full
              = Some (NFile (aad sample_full ++ ciphertext sample_full) m t).
Proof.
  apply (at_sample vault_memory_matches_file [lit "v"] (lit "login") sample_vault sample_vault_world);
    [exact sample_originates|].
  destruct sample_insert_ok as [id E]. eapply rtc_once, step_insert; [| | |exact E];
    apply (bool_decide_unpack _); vm_compute; exact I.
Defined.

Lemma reopen_returns_items_witness :
  exists v1 w1, @open_vault sample_env sample_codec (path sample_full) sample_full_world = (Ok v1, w1)
    /\ state v1 = SLocked.
Proof.
  assert (exists key l, state sample_full = SUnlocked key l
          /\ @derive_key sample_prims sample_password (salt (header sample_full)) (kdf (header sample_full)) = Ok key)
    as (key & l & Hs & Hk).
  { do 2 eexists. split; vm_compute; reflexivity. }
  destruct (at_sample reopen_returns_items sample_full sample_full_world key l sample_password
              sample_env_calm sample_full_inv Hs Hk) as (v1 & w1 & E & Hl & _).
  exists v1, w1. split; [exact E|exact Hl].
Defined.

Lemma unlock_exact_witness :
  let '(r, _, _) := @unlock_with_key sample_env sample_prims sample_codec (repeat x00 32) (lock sample_full)
                      sample_full_world in
  r = Ok tt <-> exists l, @sealed_as sample_prims sample_codec (lock sample_full) (repeat x00 32) l.
Proof.
  pose proof (at_sample unlock_exact (lock sample_full) sample_full_world (repeat x00 32)
    (lock_inv _ _ sample_full_inv) eq_refl) as H.
  destruct (unlock_with_key _ _ _) as [[r v'] w'] eqn:E. apply H. vm_compute. reflexivity.
Defined.

Lemma insert_item_all_or_nothing_witness :
  exists id key its', sample_insert = (Ok (id, false), sample_full, sample_full_world)
    /\ @committed sample_prims sample_codec sample_vault sample_full sample_full_world key its'.
Proof.
  pose proof (at_sample insert_item_all_or_nothing (lit "mail") sample_attrs [x70] (lit "text/plain") true
    sample_vault sample_vault_world sample_vault_inv) as H.
  fold sample_insert in H. destruct sample_insert_ok as [id E]. rewrite E in H.
  destruct H as (key & its & its' & t & _ & _ & Hc & _);
    [apply (bool_decide_unpack _); vm_compute; exact I|apply sample_attrs_wf|
     apply (bool_decide_unpack _); vm_compute; exact I|].
  exists id, key, its'. split; [exact E|exact Hc].
Defined.

(** The id of the sample item. *)
Definition sample_id : str := match items sample_full with Ok (i :: _) => i_id i | _ => [] end.

Lemma update_item_all_or_nothing_witness :
  let '(r, v', w') := @update_item sample_env sample_prims sample_codec sample_id
                        (fun i => item_touch i 9) sample_full sample_full_world in
  r = Ok tt /\ exists key its, @committed sample_prims sample_codec sample_full v' w' key its.
Proof.
  pose proof (at_sample update_item_all_or_nothing sample_id (fun i => item_touch i 9) sample_full
    sample_full_world sample_full_inv) as H.
  assert (fst (fst (@update_item sample_env sample_prims sample_codec sample_id
            (fun i => item_touch i 9) sample_full sample_full_world)) = Ok tt) as Hr by (vm_compute; reflexivity).
  destruct (update_item _ _ _ _) as [[r v'] w']. cbn [fst] in Hr. subst r. split; [reflexivity|].
  destruct H as (key & its & p & prior & t & _ & _ & _ & _ & Hc); [|eauto].
  intros i (? & ? & ? & ? & ? & ?). unfold item_wf. simpl. split_and!; try done; unfold u64_max; lia.
Defined.

Lemma delete_items_all_or_nothing_witness :
  let '(r, v', w') := @delete_items sample_env sample_prims sample_codec [sample_id; lit "absent"]
                        sample_full sample_full_world in
  r = Err (NoSuchItem (lit "absent")) /\ v' = sample_full.
Proof.
  pose proof (at_sample delete_items_all_or_nothing [sample_id; lit "absent"] sample_full
    sample_full_world sample_full_inv) as H.
  assert (fst (fst (@delete_items sample_env sample_prims sample_codec [sample_id; lit "absent"]
            sample_full sample_full_world)) = Err (NoSuchItem (lit "absent"))) as Hr by (vm_compute; reflexivity).
  destruct (delete_items _ _ _) as [[r v'] w']. cbn [fst] in Hr. subst r.
  split; [reflexivity|]. destruct H as [Hv _]. exact Hv.
Defined.

Lemma delete_item_all_or_nothing_witness :
  let '(r, v', w') := @delete_item sample_env sample_prims sample_codec sample_id sample_full sample_full_world in
  r = Ok tt /\ exists key its, @committed sample_prims sample_codec sample_full v' w' key its.
Proof.
  pose proof (at_sample delete_item_all_or_nothing sample_id sample_full sample_full_world sample_full_inv) as H.
  assert (fst (fst (@delete_item sample_env sample_prims sample_codec sample_id
            sample_full sample_full_world)) = Ok tt) as Hr by (vm_compute; reflexivity).
  destruct (delete_item _ _ _) as [[r v'] w']. cbn [fst] in Hr. subst r. split; [reflexivity|].
  destruct H as (key & its & p & _ & _ & Hc). eauto.
Defined.

Definition sample_import : ImportItem :=
  {| im_label := lit "old"; im_attributes := sample_attrs; im_secret := [x01]; im_content_type := lit "text/plain";
     im_created := 3; im_modified := 4 |}.

Lemma sample_import_wf : import_wf sample_import.
Proof. unfold import_wf, attrs_wf, u64. apply (bool_decide_unpack _). vm_compute. exact I. Qed.

Lemma import_items_all_or_nothing_witness :
  let '(r, v', w') := @import_items sample_env sample_prims sample_codec [sample_import; sample_import]
                        sample_full sample_full_world in
  r = Ok tt /\ exists key its new, Forall2 imported [sample_import; sample_import] new
    /\ @committed sample_prims sample_codec sample_full v' w' key (its ++ new).
Proof.
  pose proof (at_sample import_items_all_or_nothing [sample_import; sample_import] sample_full
    sample_full_world sample_full_inv) as H.
  assert (fst (fst (@import_items sample_env sample_prims sample_codec [sample_import; sample_import]
            sample_full sample_full_world)) = Ok tt) as Hr by (vm_compute; reflexivity).
  destruct (import_items _ _ _) as [[r v'] w']. cbn [fst] in Hr. subst r. split; [reflexivity|].
  destruct H as [[E _]|(key & its & new & _ & _ & Hn & Hc)]; [|discriminate E|eauto 6].
  repeat apply Forall_cons_2; [exact sample_import_wf|exact sample_import_wf|apply Forall_nil_2].
Defined.

Lemma change_key_rotates_witness :
  let '(r, v', w') := @change_key sample_env sample_prims sample_codec (repeat x00 32) (repeat xff 16) sample_kdf
                        (repeat x01 32) sample_full sample_full_world in
  r = Err WrongPassword /\ is_locked v' = false /\ v' = sample_full.
Proof.
  pose proof (at_sample change_key_rotates (repeat x00 32) (repeat xff 16) sample_kdf (repeat x01 32)
    sample_full sample_full_world sample_full_inv eq_refl) as H.
  assert (fst (fst (@change_key sample_env sample_prims sample_codec (repeat x00 32) (repeat xff 16) sample_kdf
            (repeat x01 32) sample_full sample_full_world)) = Err WrongPassword) as Hr by (vm_compute; reflexivity).
  assert (is_locked sample_full = false) as Hl by (vm_compute; reflexivity).
  destruct (change_key _ _ _ _ _ _) as [[r v'] w']. cbn [fst] in Hr. subst r.
  destruct H as (_ & Hk & _ & _ & _ & Hv).
  { unfold kdf_wf, u32, u32_max. simpl. lia. }
  split_and!; [reflexivity|by rewrite Hk|by apply Hv].
Defined.

Lemma create_fresh_witness :
  is_ok (fst (@create sample_env sample_prims sample_codec sample_vault_path (lit "Login") sample_password
                sample_kdf sample_full_world)) = false.
Proof.
  assert (str_wf (lit "Login")) as Wl by (apply (bool_decide_unpack _); vm_compute; exact I).
  assert (kdf_wf sample_kdf) as Wk by (unfold kdf_wf, u32, u32_max; simpl; lia).
  pose proof (at_sample create_fresh [lit "v"] (lit "login") (lit "Login") sample_password sample_kdf
    sample_full_world Wl Wk) as H. cbv zeta in H.
  change ([lit "v"] ++ [lit "login" ++ lit ".vault"]) with sample_vault_path in H.
  assert (exists data m t, fs sample_full_world !! sample_vault_path = Some (NFile data m t) /\ data <> [])
    as (data & m & t & Hp & Hd).
  { do 3 eexists. split; [vm_compute; reflexivity|discriminate]. }
  destruct (create _ _ _ _ _) as [r w']. destruct H as [H1 _]. exact (proj1 (H1 data m t Hp Hd)).
Defined.

Lemma retired_never_written_witness :
  fs (snd (@insert_item sample_env sample_prims sample_codec (lit "late") sample_attrs [x70] (lit "text/plain") true
             (retire sample_full) (sample_world [x01]))) !! sample_vault_path
  = Some (NFile [x01] 384 (Some 0)).
Proof.
  destruct (@insert_item sample_env sample_prims sample_codec (lit "late") sample_attrs [x70] (lit "text/plain") true
             (retire sample_full) (sample_world [x01])) as [[r v'] w'] eqn:E. cbn [snd].
  assert (path (retire sample_full) = sample_vault_path) as Hp by (vm_compute; reflexivity).
  rewrite <- Hp. rewrite (retired_never_written sample_env sample_prims sample_codec [lit "v"] (lit "login") (retire sample_full)
    (sample_world [x01]) v' w' eq_refl Hp).
  - vm_compute. reflexivity.
  - eapply step_insert; [| | |exact E]; apply (bool_decide_unpack _); vm_compute; exact I.
Defined.
