(* ===== verification/StoreFrame.v ===== *)
(** * One collection leaves the others alone

    Whatever an operation on one vault does and however it fails, no other
    [<id>.vault] of the same directory changes on disk. *)
From S2P Require Import Prelude Text Env Crypto Codec Format Sanitize Files Sweep Store StoreInv StoreOps StoreKeys StoreProps.

(** The vault file of a collection id. *)
Definition vault_path (d : fpath) (id : str) : fpath := d ++ [id ++ lit ".vault"].

Lemma vault_path_inj d a b : vault_path d a = vault_path d b -> a = b.
Proof. intros [_ H]%app_inj_tail. by apply app_inv_tail in H. Qed.

(** Every vault of the directory but the one of [id] is as it was. *)
Definition beside (d : fpath) (id : str) (w w' : world) : Prop :=
  forall id', id' <> id -> fs w' !! vault_path d id' = fs w !! vault_path d id'.

#[global] Instance beside_preorder d id : PreOrder (beside d id).
Proof. split; [done|]. intros a b c Hab Hbc id' Hne. by rewrite Hbc, Hab. Qed.

Lemma same_fs_beside d id w w' : fs w' = fs w -> beside d id w w'.
Proof. intros E id' _. by rewrite E. Qed.

Lemma temp_not_vault d n sfx id : temp_path d n sfx <> vault_path d id.
Proof.
  unfold temp_path, path_join, vault_path. intros [_ E]%app_inj_tail.
  apply (f_equal (fun s => last s)) in E. change (lit ".vault") with (lit ".vaul" ++ [116]) in E.
  change (lit ".tmp") with (lit ".tm" ++ [112]) in E. rewrite !app_assoc, !last_snoc in E. done.
Qed.

(** What the writers touch: directories above, one temporary file, the target. *)
Definition writers_own (d : fpath) (n : str) (sfx : bytes) (q : fpath) : Prop :=
  q `prefix_of` d \/ q = temp_path d n sfx \/ q = d ++ [n].

Lemma touches_beside `{Env} d id sfx w w' :
  touches (writers_own d (id ++ lit ".vault") sfx) w w' -> beside d id w w'.
Proof.
  intros T id' Hne. apply (touches_end _ _ _ _ T). intros [Hp|[Ht|Hv]].
  - by apply not_prefix_child in Hp.
  - by symmetry in Ht; apply temp_not_vault in Ht.
  - by apply vault_path_inj in Hv.
Qed.

Section frame.
Context `{HE : Env} `{HP : Prims} `{HC : VaultCodec}.
Implicit Types (d : fpath) (id : str) (v : Vault) (w : world).

Lemma write_atomic_beside d id bs w r w' : write_atomic (vault_path d id) bs w = (r, w') -> beside d id w w'.
Proof.
  intros (sfx & T & _)%write_atomic_spec. apply (touches_beside d id sfx).
  eapply touches_mono; [|exact T]. unfold writers_own. tauto.
Qed.

(** Publication touches no more than a save does. *)
Lemma reservation_touches tmp p w r w' : tmp <> p -> publish_new_via_reservation tmp p w = (r, w') ->
  touches (fun q => q = tmp \/ q = p) w w'.
Proof.
  intros Hne. unfold publish_new_via_reservation.
  destruct (match create_new p 384 w with (Ok _, w) => _ | (Err e, w) => _ end) as [res w1] eqn:E1.
  assert (T1 : touches (eq p) w w1).
  { revert E1. destruct (create_new p 384 w) as [[[]|e] w2] eqn:E2; apply create_new_spec in E2 as (T2 & _);
      [by intros [= _ <-]|]. destruct (bool_decide _); [|by intros [= _ <-]].
    destruct (reclaim_empty p w2) as [[] w3] eqn:E3; apply reclaim_empty_spec in E3 as (T3 & _);
      pose proof (touches_trans _ _ _ _ T2 T3) as T23; [|by intros [= _ <-]].
    destruct (create_new p 384 w3) as [[[]|e'] w4] eqn:E4; apply create_new_spec in E4 as (T4 & _);
      intros [= _ <-]; by eapply touches_trans. }
  assert (Hm : forall a b, touches (eq p) a b -> touches (fun q => q = tmp \/ q = p) a b).
  { intros a b T. eapply touches_mono; [|exact T]. intros q ->. by right. }
  apply Hm in T1. destruct res as [[]|e]; [|by intros [= _ <-]].
  destruct (rename tmp p w1) as [[[]|e] w2] eqn:E2; apply rename_spec in E2 as (T2 & _); try done.
  - intros [= _ <-]. by eapply touches_trans.
  - destruct (remove_file p w2) as [r3 w3] eqn:E3. apply remove_file_spec in E3 as (T3%Hm & _).
    intros [= _ <-]. eapply touches_trans; [exact T1|]. by eapply touches_trans.
Qed.

Lemma publish_new_touches d n bs w r w' : publish_new (d ++ [n]) bs w = (r, w') ->
  exists sfx, touches (writers_own d n sfx) w w'.
Proof.
  unfold publish_new. destruct (write_temp (d ++ [n]) bs w) as [r0 w0] eqn:E0.
  apply write_temp_spec in E0 as (sfx & T0 & O0). intros E. exists sfx. revert E.
  assert (T0' : touches (writers_own d n sfx) w w0).
  { eapply touches_mono; [|exact T0]. unfold writers_own. tauto. }
  destruct r0 as [tmp|e]; [|by intros [= _ <-]]. destruct (O0 tmp eq_refl) as [-> _].
  set (tmp := temp_path d n sfx) in *. set (p := d ++ [n]) in *.
  assert (Hne : tmp <> p) by apply temp_path_ne.
  assert (Hm : forall S a b, (forall q, S q -> q = tmp \/ q = p) -> touches S a b -> touches (writers_own d n sfx) a b).
  { intros S a b HS T. eapply touches_mono; [|exact T]. intros q Hq. right. by apply HS. }
  assert (Hfin : forall x a r w', publish_finish p tmp x a = (r, w') -> touches (writers_own d n sfx) a w').
  { intros x a r0 w0' (_ & T)%publish_finish_spec; [|done]. apply (Hm _ _ _ (fun q Hq => or_introl (eq_sym Hq)) T). }
  assert (Hren : forall a x b, rename_noreplace tmp p a = (x, b) -> touches (writers_own d n sfx) a b).
  { intros a x b (T & _)%rename_noreplace_spec; [|done]. by apply (Hm _ _ _ (fun q Hq => Hq) T). }
  destruct (rename_noreplace tmp p w0) as [r1 w1] eqn:E1. apply Hren in E1.
  pose proof (touches_trans _ _ _ _ T0' E1) as T1.
  assert (Hgo : forall x a, touches (writers_own d n sfx) w a -> publish_finish p tmp x a = (r, w') -> touches (writers_own d n sfx) w w').
  { intros x a Ta E. eapply touches_trans; [exact Ta|]. by eapply Hfin. }
  destruct r1 as [[]|e]; [by apply Hgo|]. destruct (bool_decide (io_kind e = AlreadyExists)).
  - destruct (reclaim_empty p w1) as [[] w2] eqn:E2; apply reclaim_empty_spec in E2 as (T2 & _);
      apply (Hm _ _ _ (fun q Hq => or_intror (eq_sym Hq))) in T2; pose proof (touches_trans _ _ _ _ T1 T2) as T2'.
    + destruct (rename_noreplace tmp p w2) as [r3 w3] eqn:E3. apply Hren in E3.
      pose proof (touches_trans _ _ _ _ T2' E3). destruct r3 as [[]|e']; by apply Hgo.
    + by apply Hgo.
  - destruct (noreplace_unsupported e); [|by apply Hgo].
    destruct (publish_new_via_reservation tmp p w1) as [r2 w2] eqn:E2. apply reservation_touches in E2; [|done].
    apply (Hm _ _ _ (fun q Hq => Hq)) in E2. apply Hgo. by eapply touches_trans.
Qed.

Lemma publish_new_beside d id bs w r w' : publish_new (vault_path d id) bs w = (r, w') -> beside d id w w'.
Proof. intros (sfx & T)%publish_new_touches. by eapply touches_beside. Qed.

(** ** Every operation *)

Lemma save_with_path publish v w r v' w' : save_with publish v w = (r, v', w') -> path v' = path v.
Proof. unfold save_with. intros E. repeat (case_match; simplify_eq/=; try done). Qed.

Lemma save_beside d id v w r v' w' : path v = vault_path d id -> save v w = (r, v', w') -> beside d id w w'.
Proof.
  intros Hp [[_ F]|(bs & w1 & r1 & F & E & _)]%save_with_effect; [by apply same_fs_beside|].
  rewrite Hp in E. apply write_atomic_beside in E. intros id' Hne. by rewrite E, F.
Qed.

Lemma save_or_restore_beside {T : Type} (b : T) f d id v w r v' w' : path v = vault_path d id ->
  save_or_restore b f v w = (r, v', w') -> beside d id w w'.
Proof.
  intros Hp. unfold save_or_restore. destruct (save v w) as [[r1 v1] w1] eqn:E. apply (save_beside d id) in E; [|done].
  destruct r1; by intros [= _ _ <-].
Qed.

Lemma with_items_path v l : path (with_items v l) = path v.
Proof. unfold with_items. by destruct (state v). Qed.

Lemma sweep_dir_now_beside d id v w : path v = vault_path d id -> beside d id w (sweep_dir_now v w).
Proof.
  intros Hp id' _. unfold sweep_dir_now, vault_path in *. rewrite Hp, parent_child.
  destruct (sweep_temp_files d 0 w) as [k w'] eqn:E. apply sweep_temp_files_spec in E as (T & _).
  simpl. apply (touches_end _ _ _ _ T). intros (n & ? & ? & ? & Ep & Hn & _).
  apply app_inj_tail in Ep as [_ <-]. by rewrite vault_name_not_temp in Hn.
Qed.

Lemma unlock_beside d id key v w r v' w' : path v = vault_path d id -> unlock_with_key key v w = (r, v', w') ->
  beside d id w w' /\ path v' = path v.
Proof.
  intros Hp. unfold unlock_with_key, verify_key. destruct (retired v); [by intros [= _ <- <-]|].
  destruct (negb (is_locked v)).
  { destruct (state v); [|destruct (bool_decide _); by intros [= _ <- <-]].
    destruct (is_ok _); intros [= _ <- <-]; (split; [|done]); [done|apply same_fs_beside, warn_aead_fs]. }
  destruct (open _ _ _ _) as [plain|].
  2:{ intros [= _ <- <-]. split; [apply same_fs_beside, warn_aead_fs|done]. }
  destruct (decode_items plain) as [l|]; [|by intros [= _ <- <-]].
  destruct (negb (Bool.eqb _ _)); [|by intros [= _ <- <-]].
  destruct (save _ w) as [[r1 v1] w1] eqn:E. pose proof (save_with_path _ _ _ _ _ _ E) as Hp1.
  apply (save_beside d id) in E; [|done]. destruct r1; by intros [= _ <- <-].
Qed.

Lemma rotate_beside old s k new isalt d id v w r v' w' : path v = vault_path d id ->
  rotate old s k new isalt v w = (r, v', w') -> beside d id w w'.
Proof.
  intros Hp. unfold rotate. set (v1 := with_key _ _).
  assert (Hp1 : path v1 = vault_path d id) by (unfold v1, with_key; simpl; by destruct (state v)).
  destruct (save v1 w) as [[r1 v2] w1] eqn:E. pose proof (save_with_path _ _ _ _ _ _ E) as Hp2.
  apply (save_beside d id) in E; [|done]. destruct (is_ok r1); intros [= _ _ <-]; [|done].
  etransitivity; [exact E|]. apply sweep_dir_now_beside. congruence.
Qed.

Lemma change_key_beside old s k new d id v w r v' w' : path v = vault_path d id ->
  change_key old s k new v w = (r, v', w') -> beside d id w w'.
Proof.
  intros Hp. rewrite change_key_shape. destruct (validate k); [|by intros [= _ _ <-]].
  destruct (bool_decide _); [by intros [= _ _ <-]|]. unfold try_random_bytes.
  destruct (random SALT_LEN w) as [[isalt|] w1] eqn:E1; apply random_fs in E1; apply (same_fs_beside d id) in E1;
    [|by intros [= _ _ <-]].
  cbv zeta. pose proof (sweep_dir_now_beside d id v w1 Hp) as Hs.
  destruct (if is_locked v then _ else _) as [[r2 v2] w2] eqn:E2.
  assert (Hop : beside d id (sweep_dir_now v w1) w2 /\ path v2 = path v).
  { revert E2. destruct (is_locked v); [by apply unlock_beside|]. unfold verify_key.
    destruct (state v); [|destruct (bool_decide _); by intros [= _ <- <-]].
    destruct (is_ok _); intros [= _ <- <-]; (split; [|done]); [done|apply same_fs_beside, warn_aead_fs]. }
  destruct Hop as [Hop Hp2].
  assert (Hw2 : beside d id w w2) by (etransitivity; [exact E1|]; etransitivity; [exact Hs|exact Hop]).
  destruct r2; [|by intros [= _ _ <-]].
  destruct (rotate _ _ _ _ _ v2 w2) as [[r3 v3] w3] eqn:E3. apply (rotate_beside _ _ _ _ _ d id) in E3; [|congruence].
  intros [= _ _ <-]. by etransitivity.
Qed.

Lemma change_password_beside old new k d id v w r v' w' : path v = vault_path d id ->
  change_password old new k v w = (r, v', w') -> beside d id w w'.
Proof.
  intros Hp. unfold change_password, try_random_bytes. destruct (derive_key _ _ _); [|by intros [= _ _ <-]].
  destruct (random SALT_LEN w) as [[s|] w1] eqn:E1; apply random_fs in E1; apply (same_fs_beside d id) in E1;
    [|by intros [= _ _ <-]].
  destruct (derive_key _ _ _); [|by intros [= _ _ <-]].
  intros E. apply (change_key_beside _ _ _ _ d id) in E; [|done]. by etransitivity.
Qed.

Lemma insert_beside l a s c rep d id v w r v' w' : path v = vault_path d id ->
  insert_item l a s c rep v w = (r, v', w') -> beside d id w w'.
Proof.
  intros Hp. unfold insert_item, insert_item_unchecked. destruct (items v); [|by intros [= _ _ <-]].
  destruct (check_item_caps l a (zlen s) c); [|by intros [= _ _ <-]].
  destruct (now w) as [t w1] eqn:En. apply now_fs in En.
  destruct (match (if rep then _ else None) with Some _ => _ | None => _ end) as [[[x y] z] w2] eqn:E2.
  assert (F : beside d id w w2).
  { apply same_fs_beside. rewrite <- En.
    destruct (if rep then _ else None) as [p|]; [destruct (_ !! p)|]; by injection E2 as _ _ _ <-. }
  destruct (save_or_restore y restore_delta _ w2) as [[r3 v3] w3] eqn:E3.
  apply (save_or_restore_beside _ _ d id) in E3; [|by rewrite with_items_path].
  destruct r3; intros [= _ _ <-]; by etransitivity.
Qed.

Lemma update_beside i f d id v w r v' w' : path v = vault_path d id ->
  update_item i f v w = (r, v', w') -> beside d id w w'.
Proof.
  intros Hp. unfold update_item. destruct (items v); [|by intros [= _ _ <-]].
  destruct (position _ _); [|by intros [= _ _ <-]]. destruct (_ !! _); [|by intros [= _ _ <-]].
  destruct (now w) as [t w1] eqn:En. apply now_fs in En. apply (same_fs_beside d id) in En.
  destruct (check_caps _ _ _ _); [by intros [= _ _ <-]|].
  intros E. apply (save_or_restore_beside _ _ d id) in E; [|by rewrite with_items_path]. by etransitivity.
Qed.

Lemma delete_beside i d id v w r v' w' : path v = vault_path d id ->
  delete_item i v w = (r, v', w') -> beside d id w w'.
Proof.
  intros Hp. unfold delete_item. destruct (items v); [|by intros [= _ _ <-]].
  destruct (position _ _); [|by intros [= _ _ <-]]. destruct (_ !! _); [|by intros [= _ _ <-]].
  apply save_or_restore_beside. by rewrite with_items_path.
Qed.

Lemma delete_many_beside ids d id v w r v' w' : path v = vault_path d id ->
  delete_items ids v w = (r, v', w') -> beside d id w w'.
Proof.
  intros Hp. unfold delete_items. destruct ids; [by intros [= _ _ <-]|].
  destruct (items v); [|by intros [= _ _ <-]]. destruct (find _ _); [by intros [= _ _ <-]|].
  destruct (split_doomed _ _ _). apply save_or_restore_beside. by rewrite with_items_path.
Qed.

Lemma import_beside batch d id v w r v' w' : path v = vault_path d id ->
  import_items batch v w = (r, v', w') -> beside d id w w'.
Proof.
  intros Hp. unfold import_items. destruct batch; [by intros [= _ _ <-]|].
  destruct (items v); [|by intros [= _ _ <-]]. destruct (check_import_items _ _); [|by intros [= _ _ <-]].
  destruct (import_push _ _ w) as [its' w1] eqn:Ep. apply import_push_fs in Ep. apply (same_fs_beside d id) in Ep.
  intros E. apply (save_or_restore_beside _ _ d id) in E; [|by rewrite with_items_path]. by etransitivity.
Qed.

Lemma set_label_beside l d id v w r v' w' : path v = vault_path d id ->
  set_label l v w = (r, v', w') -> beside d id w w'.
Proof.
  intros Hp. unfold set_label. destruct (check_label l); [|by intros [= _ _ <-]].
  destruct (items v); [|by intros [= _ _ <-]]. by apply save_or_restore_beside.
Qed.

Lemma verify_beside key d id v w r w' : verify_key v key w = (r, w') -> beside d id w w'.
Proof.
  unfold verify_key. destruct (state v); intros [= _ <-]; [|done].
  destruct (is_ok _); [done|apply same_fs_beside, warn_aead_fs].
Qed.

Create HintDb frame.
#[local] Hint Resolve insert_beside update_beside delete_beside delete_many_beside import_beside
  set_label_beside change_key_beside change_password_beside verify_beside : frame.

Lemma vstep_beside d id v w v' w' : path v = vault_path d id -> vstep (v, w) (v', w') -> beside d id w w'.
Proof.
  intros Hp Hs. inversion Hs; subst; try done; eauto with frame.
  - match goal with E : unlock_with_key _ _ _ = _ |- _ => by apply (unlock_beside d id) in E as [? _] end.
  - match goal with E : unlock _ _ _ = _ |- _ => revert E end. unfold unlock.
    destruct (derive_key _ _ _); [|by intros [= _ _ <-]]. by intros [? _]%(unlock_beside d id).
Qed.

Lemma build_path p l pw k w v w' : build p l pw k w = (Ok v, w') -> path v = p.
Proof.
  unfold build, with_err, try_random_bytes. destruct (check_label l); [|done].
  destruct (random SALT_LEN w) as [[s|] w1]; cbn [fst snd map_err]; [|done].
  destruct (random SALT_LEN w1) as [[s'|] w2]; cbn [fst snd map_err]; [|done].
  destruct (derive_key _ _ _); [|done]. destruct (now w2). by intros [= <- _].
Qed.

Lemma create_beside d id l pw k w r w' : create (vault_path d id) l pw k w = (r, w') -> beside d id w w'.
Proof.
  unfold create, io_err, with_err, dir_of, vault_path. rewrite parent_child. cbn [from_option Datatypes.id].
  destruct (ensure_vault_dir d w) as [r1 w1] eqn:E1. apply ensure_vault_dir_touches in E1.
  assert (H1 : beside d id w w1).
  { apply (touches_beside d id []). eapply touches_mono; [|exact E1]. intros q Hq. by left. }
  cbn [fst snd]. destruct r1; cbn [map_err]; [|by intros [= _ <-]].
  destruct (build _ l pw k w1) as [rb w2] eqn:E2. pose proof (build_fs _ _ _ _ _ _ _ E2) as F2.
  apply (same_fs_beside d id) in F2. destruct rb as [v|]; [|intros [= _ <-]; by etransitivity].
  apply build_path in E2 as Hp.
  destruct (save_with publish_new v w2) as [[r3 v3] w3] eqn:E3.
  assert (beside d id w2 w3) as H3.
  { apply save_with_effect in E3 as [[_ F]|(bs & w4 & r4 & F & E & _)]; [by apply same_fs_beside|].
    rewrite Hp in E. apply publish_new_beside in E. intros id' Hne. by rewrite E, F. }
  destruct r3; intros [= _ <-]; (etransitivity; [exact H1|]; by etransitivity).
Qed.

Lemma open_vault_path q w v w' : open_vault q w = (Ok v, w') -> path v = q.
Proof.
  unfold open_vault, io_err, with_err. destruct (stat q w) as [[m|] w1]; cbn [fst snd map_err]; [|done].
  destruct (check_vault_size _); [|done]. destruct (read_file q w1) as [[bs|] w2]; cbn [fst snd map_err]; [|done].
  destruct (vf_decode bs); [|done]. by intros [= <- _].
Qed.

Lemma open_vault_fs q w r w' : open_vault q w = (r, w') -> fs w' = fs w.
Proof.
  unfold open_vault, io_err, with_err. destruct (stat q w) as [rs w1] eqn:E1. apply stat_touches in E1 as [_ F1].
  destruct rs; cbn [fst snd map_err]; [|by intros [= _ <-]]. destruct (check_vault_size _); [|by intros [= _ <-]].
  destruct (read_file q w1) as [rr w2] eqn:E2. apply read_touches in E2 as [_ F2]. rewrite F1 in F2.
  destruct rr; cbn [fst snd map_err]; [|by intros [= _ <-]]. destruct (vf_decode _); by intros [= _ <-].
Qed.

Lemma delete_file_beside d id v w r w' : path v = vault_path d id -> delete_file v w = (r, w') -> beside d id w w'.
Proof.
  intros Hp. unfold delete_file, io_err, with_err. rewrite Hp.
  destruct (remove_file (vault_path d id) w) as [r1 w1] eqn:E1. apply remove_file_spec in E1 as (T1 & _).
  assert (H1 : beside d id w w1).
  { apply (touches_beside d id []). eapply touches_mono; [|exact T1]. intros q <-. right. by right. }
  cbn [fst snd]. destruct r1; cbn [map_err]; [|by intros [= _ <-]].
  unfold vault_path. rewrite parent_child. destruct (sweep_stale_temp_files d w1) as [k w2] eqn:E2.
  intros [= _ <-]. etransitivity; [exact H1|]. intros id' _. apply sweep_temp_files_spec in E2 as (T & _).
  simpl. apply (touches_end _ _ _ _ T). intros (n & ? & ? & ? & Ep & Hn & _).
  apply app_inj_tail in Ep as [_ <-]. by rewrite vault_name_not_temp in Hn.
Qed.
End frame.

(** Every vault file of the directory is as it was. *)
Definition vaults_kept (d : fpath) (w w' : world) : Prop := forall id, fs w' !! vault_path d id = fs w !! vault_path d id.

#[global] Instance vaults_kept_preorder d : PreOrder (vaults_kept d).
Proof. split; [done|]. intros a b c Hab Hbc id. by rewrite Hbc, Hab. Qed.

Lemma same_fs_kept d w w' : fs w' = fs w -> vaults_kept d w w'.
Proof. intros E id. by rewrite E. Qed.

Lemma ensure_dir_kept `{Env} d w r w' : ensure_vault_dir d w = (r, w') -> vaults_kept d w w'.
Proof. intros T%ensure_vault_dir_touches id. apply (touches_end _ _ _ _ T), not_prefix_child. Qed.
