(* ===== verification/Search.v ===== *)
(** * Searching a locked collection

    [Vault::search_ids] answers from the hashed index of the header, while the
    items are sealed; [Vault::search] answers from the items. *)
From S2P Require Import Prelude Text Env Crypto Codec Format Sanitize Files Sweep Store StoreInv StoreOps StoreKeys StoreProps.

Section search.
Context `{HP : Prims} `{HC : VaultCodec}.

(** No two different preimages among the query's pairs and the items' have
    the same digest. *)
Definition collision_free (s : bytes) (query : gmap str str) (l : list Item) : Prop :=
  forall i k v k' v', i ∈ l -> query !! k = Some v -> attributes i !! k' = Some v' ->
    attribute_hash s k v = attribute_hash s k' v' ->
    attribute_preimage s k v = attribute_preimage s k' v'.

(** Names short enough for their length to fit the [u32] that is hashed. *)
Definition short_names (m : gmap str str) : Prop := forall k v, m !! k = Some v -> str_len k <= u32_max.

Lemma item_matches_spec (query : gmap str str) (i : Item) :
  item_matches query i = true <-> forall k v, query !! k = Some v -> attributes i !! k = Some v.
Proof.
  unfold item_matches. rewrite forallb_forall. split.
  - intros Hf k v Hk%elem_of_btree_iter%list_elem_of_In. specialize (Hf _ Hk). simpl in Hf.
    by apply bool_decide_eq_true in Hf.
  - intros Hf [k v] Hk%list_elem_of_In%elem_of_btree_iter. apply bool_decide_eq_true. by apply Hf.
Qed.

Lemma filter_map {A B} (f : B -> bool) (g : A -> B) l :
  List.filter f (map g l) = map g (List.filter (fun x => f (g x)) l).
Proof. induction l as [|a l IH]; simpl; [done|]. destruct (f (g a)); simpl; by rewrite IH. Qed.

Lemma filter_ext_elem {A} (f g : A -> bool) l : (forall x, x ∈ l -> f x = g x) ->
  List.filter f l = List.filter g l.
Proof.
  induction l as [|a l IH]; intros Hf; simpl; [done|].
  rewrite (Hf a) by (by left). rewrite IH; [done|]. intros x Hx. apply Hf. by right.
Qed.

Context `{!PrimsOk HP}.

(** The index entry of an item answers as the item does. *)
Lemma entry_matches_item (s : bytes) (query : gmap str str) (l : list Item) (i : Item) :
  i ∈ l -> collision_free s query l -> attrs_wf query -> short_names query ->
  attrs_wf (attributes i) -> short_names (attributes i) ->
  matches_hashes (index_entry s true i) (hash_query s query) = item_matches query i.
Proof.
  intros Hin Hcf Wq Lq Wi Li. apply eq_bool_prop_intro. rewrite !Is_true_true, item_matches_spec.
  change (matches_hashes (index_entry s true i) (hash_query s query))
    with (matches (index_entry s true i) s query).
  rewrite matches_entry. split.
  - intros Hm k v Hk. destruct (Hm k v Hk) as (k' & v' & Hk' & E).
    destruct (Wq k v Hk) as [? ?]. destruct (Wi k' v' Hk') as [? ?].
    destruct (attribute_preimage_inj s k v k' v') as [-> ->]; eauto.
  - intros Hf k v Hk. eauto.
Qed.

Lemma no_hashes_no_attributes (s : bytes) (i : Item) :
  attr_hashes (index_entry s true i) = [] -> attributes i = ∅.
Proof.
  intros E. apply map_empty. intros k. destruct (attributes i !! k) as [v|] eqn:Hk; [|done].
  assert (attribute_hash s k v ∈ attr_hashes (index_entry s true i)) as Hin
    by (apply elem_of_index_entry; eauto).
  rewrite E in Hin. by apply not_elem_of_nil in Hin.
Qed.

(** With no hash in the index, no item has an attribute. *)
Lemma bare_index (v : Vault) (s : bytes) (l : list Item) (query : gmap str str) :
  index (header v) = build_index s l true -> index_has_attributes v = false -> query <> ∅ ->
  List.filter (item_matches query) l = [].
Proof.
  intros Hix Hno Hq. destruct (map_choose query Hq) as (k & x & Hk).
  assert (forall i, i ∈ l -> item_matches query i = false) as Hf.
  { intros i Hin. destruct (item_matches query i) eqn:Em; [|done]. exfalso.
    pose proof (proj1 (item_matches_spec _ _) Em k x Hk) as Ha.
    assert (attr_hashes (index_entry s true i) <> []) as Hne.
    { intros E%no_hashes_no_attributes. by rewrite E in Ha. }
    unfold index_has_attributes in Hno. rewrite Hix in Hno. apply Hne.
    destruct (attr_hashes (index_entry s true i)) eqn:E; [done|]. exfalso.
    assert (existsb (fun e => match attr_hashes e with [] => false | _ => true end) (build_index s l true) = true) as Hx;
      [|congruence].
    apply existsb_exists. exists (index_entry s true i). rewrite E. split; [|done].
    apply in_map. by apply list_elem_of_In. }
  rewrite (filter_ext_elem _ (fun _ => false)) by exact Hf. clear. by induction l.
Qed.
End search.

(** C35. A locked collection is searched as an open one. After a save with
    attribute hashes in the index, and absent a collision of SHA-256 among the
    pairs concerned, [search_ids] returns exactly the ids of the items that
    [search] returns, in the same order; locking in between changes nothing. *)
Theorem locked_search_agrees (HP : Prims) (HC : VaultCodec) (HPo : PrimsOk HP) (HCo : VaultCodecOk HC)
    (v v' : Vault) (w' : world) (key : bytes) (l : list Item) (query : gmap str str) :
  committed v v' w' key l -> index_attributes v = true ->
  collision_free (index_salt (header v)) query l -> attrs_wf query -> short_names query ->
  (forall i, i ∈ l -> short_names (attributes i)) ->
  exists found, search v' query = Ok found /\ search_ids (lock v') query = map i_id found.
Proof.
  intros (Hi & Hs & _ & Hh & _ & Hix) Hia Hcf Wq Lq Li. rewrite Hia in Hix.
  exists (List.filter (item_matches query) l). split.
  { unfold search, items. by rewrite Hs. }
  pose proof (vault_items_wf v' key l (proj1 Hi) Hs) as Wl. rewrite Forall_forall in Wl.
  unfold search_ids. change (index_has_attributes (lock v')) with (index_has_attributes v').
  change (header (lock v')) with (header v').
  destruct (negb (bool_decide (query = ∅)) && negb (index_has_attributes v')) eqn:Ec.
  { apply andb_true_iff in Ec as [Hq Hno]. apply negb_true_iff in Hq, Hno.
    apply bool_decide_eq_false in Hq. by rewrite (bare_index v' _ l query Hix Hno Hq). }
  destruct Hh as (_ & _ & _ & _ & _ & Hsalt). rewrite Hix, Hsalt. unfold build_index.
  rewrite filter_map, map_map. cbn [index_entry ie_id]. f_equal. apply filter_ext_elem.
  intros i Hin. apply (entry_matches_item _ _ l); try done; [|by apply Li]. apply Wl in Hin. apply Hin.
Qed.

Lemma locked_search_agrees_witness :
  exists found, search sample_full sample_attrs = Ok found
    /\ @search_ids sample_prims (lock sample_full) sample_attrs = map i_id found.
Proof.
  pose proof (@insert_item_outcome sample_env sample_prims sample_codec sample_env_ok sample_prims_ok sample_codec_ok
    (lit "mail") sample_attrs [x70] (lit "text/plain") true sample_vault sample_vault_world) as Ho.
  destruct sample_insert_ok as [id E]. specialize (Ho _ _ _ sample_vault_inv
    ltac:(apply (bool_decide_unpack _); vm_compute; exact I) sample_attrs_wf
    ltac:(apply (bool_decide_unpack _); vm_compute; exact I) E). simpl in Ho.
  destruct Ho as (key & its & its' & t & Hst & _ & Hc & _ & ->).
  assert (its = []) as -> by (destruct sample_vault_state as [k Hk]; congruence).
  assert (short_names sample_attrs) as Hsn.
  { intros k v Hk. unfold sample_attrs in Hk. apply lookup_singleton_Some in Hk as [<- <-].
    vm_compute. discriminate. }
  refine (locked_search_agrees sample_prims sample_codec sample_prims_ok sample_codec_ok sample_vault _ _ key _
    sample_attrs Hc _ _ sample_attrs_wf Hsn _).
  - vm_compute. reflexivity.
  - intros i k v k' v' Hi Hk Hk'. simpl in Hi. apply list_elem_of_singleton in Hi as ->.
    cbn [attributes new_item] in Hk'. unfold sample_attrs in Hk, Hk'.
    apply lookup_singleton_Some in Hk as [<- <-].
    apply lookup_singleton_Some in Hk' as [<- <-]. reflexivity.
  - intros i Hi. simpl in Hi. apply list_elem_of_singleton in Hi as ->. exact Hsn.
Defined.
