(* ===== verification/Aliases.v ===== *)
(** * The alias table ([src/dbus/state.rs], and the checks of [src/dbus/service.rs])

    A name may stand for a collection; the table lives in memory and in
    [aliases.toml].  Its update drops the state lock while it writes the file,
    so two clients interleave: the update is modelled as the three sections it
    is made of, each atomic, and runs of it as interleavings of those. *)
From S2P Require Import Prelude Text Env Crypto Codec Format Sanitize Names Files StoreFrame.

(** The [toml] crate, and the text of an operating-system error. *)
Class AliasText : Type := {
  toml_parse : str -> result (gmap str str) str;
  toml_print : gmap str str -> option str;
  io_text : io_error -> str
}.

Class AliasTextOk (T : AliasText) : Prop := {
  toml_roundtrip m t : attrs_wf m -> toml_print m = Some t -> str_wf t /\ toml_parse t = Ok m
}.

Definition ALIAS_FILE : str := lit "aliases.toml".
Definition MAX_ALIAS_ERROR : nat := 200.
Definition MAX_ALIAS_BYTES : Z := Z.shiftl 1 20.
Definition MAX_ALIASES : nat := 256.
Definition MAX_ALIAS_NAME : Z := 128.
Definition ALIAS_UPDATE_ATTEMPTS : nat := 8.

(** ** The table *)

(** [AliasError::new], of an error with this text. *)
Definition alias_error_new (text : str) : str :=
  let raw := ALIAS_FILE ++ lit ": " ++ text in
  let cleaned := map (fun c => if is_control c then 32 else c)
                     (List.filter (fun c => negb (is_invisible_format c)) raw) in
  truncate_ellipsis MAX_ALIAS_ERROR (collapse_ws cleaned).

Inductive AliasTable : Type :=
| Usable (table : gmap str str)
| Degraded (reason : str) (known : gmap str str).

#[global] Instance AliasTable_eq_dec : EqDecision AliasTable.
Proof. solve_decision. Defined.

Definition alias_default : AliasTable := Usable ∅.

Definition unusable (t : AliasTable) : option str :=
  match t with Usable _ => None | Degraded reason _ => Some reason end.

Definition known (t : AliasTable) : gmap str str :=
  match t with Usable m | Degraded _ m => m end.

Definition writable (t : AliasTable) : result (gmap str str) str :=
  match t with Usable m => Ok m | Degraded reason _ => Err reason end.

Definition alias_resolve (t : AliasTable) (name : str) : result (option str) str :=
  match t with
  | Usable m => Ok (m !! name)
  | Degraded reason m => let? x := ok_or (m !! name) reason in Ok (Some x)
  end.

Definition degrade (t : AliasTable) (reason : str) : AliasTable := Degraded reason (known t).

(** ** The file *)

(** An [io::Error]: its kind and its text. *)
Record alias_io : Type := { ai_kind : error_kind; ai_text : str }.

#[global] Instance alias_io_eq_dec : EqDecision alias_io.
Proof. solve_decision. Defined.

Section file.
Context `{Env} `{AliasText}.

Definition os_error (e : io_error) : alias_io := {| ai_kind := io_kind e; ai_text := io_text e |}.

(** [std::fs::read_to_string]. *)
Definition read_to_string (p : fpath) (w : world) : result str alias_io * world :=
  match read_file p w with
  | (Err e, w) => (Err (os_error e), w)
  | (Ok bs, w) => (ok_or (from_utf8 bs) {| ai_kind := InvalidData;
                                           ai_text := lit "stream did not contain valid UTF-8" |}, w)
  end.

Definition load_aliases (dir : fpath) (w : world) : result (gmap str str) alias_io * world :=
  let path := path_join dir ALIAS_FILE in
  let read := fun w =>
    match read_to_string path w with
    | (Ok text, w) =>
      (match toml_parse text with
       | Ok m => Ok m
       | Err e => Err {| ai_kind := InvalidData; ai_text := e |}
       end, w)
    | (Err e, w) => (if bool_decide (ai_kind e = NotFound) then Ok ∅ else Err e, w)
    end in
  match stat path w with
  | (Ok meta, w) =>
    if MAX_ALIAS_BYTES <? m_len meta then
      (Err {| ai_kind := InvalidData;
              ai_text := lit "too large: " ++ dec (m_len meta) ++ lit " bytes, at most "
                         ++ dec MAX_ALIAS_BYTES |}, w)
    else read w
  | (Err e, w) =>
    if bool_decide (io_kind e = NotFound) then (Ok ∅, w) else (Err (os_error e), w)
  end.

Definition save_aliases_to (dir : fpath) (aliases : gmap str str) : io unit :=
  fun w =>
    do? _, w <- ensure_vault_dir dir w;
    match toml_print aliases with
    | None => (Err (IoError InvalidData None), w)
    | Some text => atomic_write_atomic (path_join dir ALIAS_FILE) (utf8 text) 438 w
    end.
End file.

(** ** Updating *)

Inductive OnWriteError : Type := Refuse | Keep.

#[global] Instance OnWriteError_eq_dec : EqDecision OnWriteError.
Proof. solve_decision. Defined.

Inductive AliasUpdate (E : Type) : Type :=
| Committed
| NotWritten (e : io_error)
| Unusable (reason : str)
| Rejected (e : E).
Arguments Committed {E}.
Arguments NotWritten {E} e.
Arguments Unusable {E} reason.
Arguments Rejected {E} e.

Section update.
Context `{Env} `{AliasText}.
(** The rest of the daemon's state, which the edit may read, and its errors. *)
Context {St E : Type}.

(** What the state lock protects, as far as the update goes. *)
Record shared : Type := Shared { sh_rest : St; sh_dir : fpath; sh_aliases : AliasTable }.

Definition set_aliases (s : shared) (t : AliasTable) : shared := Shared (sh_rest s) (sh_dir s) t.

Abbreviation edit_fn := (shared -> gmap str str -> result (gmap str str) E).

(** Where one call is. *)
Inductive phase : Type :=
| Editing (attempt : nat)
| Writing (attempt : nat) (dir : fpath) (base next : gmap str str)
| Committing (attempt : nat) (base next : gmap str str) (written : result unit io_error)
| Finished (out : AliasUpdate E).

(** First section, under the lock: read the table and edit a copy. *)
Definition lock_and_edit (edit : edit_fn) (attempt : nat) (s : shared) : phase :=
  match writable (sh_aliases s) with
  | Err e => Finished (Unusable e)
  | Ok base =>
    match edit s base with
    | Err e => Finished (Rejected e)
    | Ok next => Writing attempt (sh_dir s) base next
    end
  end.

(** Last section, under the lock again: commit, or redo the edit against a
    table another writer put there. *)
Definition lock_and_commit (on_write_error : OnWriteError) (attempt : nat) (base next : gmap str str)
    (written : result unit io_error) (s : shared) : phase * shared :=
  match writable (sh_aliases s) with
  | Err e => (Finished (Unusable e), s)
  | Ok current =>
    let stale := negb (bool_decide (current = base)) in
    if stale && (attempt <? ALIAS_UPDATE_ATTEMPTS)%nat then (Editing (S attempt), s)
    else
      match written with
      | Ok _ => (Finished Committed, set_aliases s (Usable next))
      | Err e =>
        (Finished (NotWritten e),
         if bool_decide (on_write_error = Keep) then set_aliases s (Usable next) else s)
      end
  end.

(** One section of the call. *)
Definition thread_step (edit : edit_fn) (on_write_error : OnWriteError) (ph : phase)
    (s : shared) (w : world) : phase * shared * world :=
  match ph with
  | Editing attempt => (lock_and_edit edit attempt s, s, w)
  | Writing attempt dir base next =>
    let '(written, w) := save_aliases_to dir next w in (Committing attempt base next written, s, w)
  | Committing attempt base next written =>
    let '(ph, s) := lock_and_commit on_write_error attempt base next written s in (ph, s, w)
  | Finished _ => (ph, s, w)
  end.

Fixpoint run (n : nat) (edit : edit_fn) (o : OnWriteError) (ph : phase) (s : shared) (w : world)
  : phase * shared * world :=
  match n with
  | O => (ph, s, w)
  | S n => let '(ph, s, w) := thread_step edit o ph s w in run n edit o ph s w
  end.

(** The call with nobody else running: three sections per attempt. *)
Definition update_aliases (edit : edit_fn) (o : OnWriteError) (s : shared) (w : world)
  : phase * shared * world :=
  run (3 * ALIAS_UPDATE_ATTEMPTS) edit o (Editing 1) s w.
End update.
Arguments shared : clear implicits.
Arguments phase : clear implicits.

(** ** [SetAlias] *)

(** The refusals of [SetAlias]'s checks. *)
Inductive alias_refusal : Type := NameTooLong | NotASegment | TooManyAliases | NoSuchObject.

Definition check_alias_name (name : str) : result unit alias_refusal :=
  if negb (is_segment name) then Err NotASegment
  else if MAX_ALIAS_NAME <? str_len name then Err NameTooLong
  else Ok tt.

Definition check_alias_room (table : gmap str str) (name : str) : result unit alias_refusal :=
  match table !! name with
  | None => if (MAX_ALIASES <=? size table)%nat then Err TooManyAliases else Ok tt
  | Some _ => Ok tt
  end.

(** The edit of [SetAlias]: [target] is the collection path resolved under the
    lock, [None] inside when it names nothing; clearing passes [None]. *)
Definition set_alias_edit {St : Type} (name : str) (clearing : bool)
    (resolve_collection : shared St -> option str) (s : shared St) (table : gmap str str)
  : result (gmap str str) alias_refusal :=
  if clearing then Ok (delete name table)
  else
    let? id := ok_or (resolve_collection s) NoSuchObject in
    let? _ := check_alias_room table name in
    Ok (<[name := id]> table).

(** ** Lemmas *)

(** Saving the table leaves every vault file as it was; loading it, the disk. *)
Lemma save_aliases_kept `{Env} `{AliasText} d m w r w' : save_aliases_to d m w = (r, w') -> vaults_kept d w w'.
Proof.
  unfold save_aliases_to. destruct (ensure_vault_dir d w) as [r0 w0] eqn:E0. apply ensure_dir_kept in E0 as K0.
  destruct r0; [|by intros [= _ <-]]. destruct (toml_print m) as [text|]; [|by intros [= _ <-]].
  unfold path_join. intros (sfx & T1 & _)%atomic_write_spec. etransitivity; [exact K0|]. intros id.
  apply (touches_end _ _ _ _ T1). intros [Ht|[_ Hv]].
  - by symmetry in Ht; apply temp_not_vault in Ht.
  - apply app_inj_tail in Hv as [_ Hv]. apply (f_equal (fun s => last s)) in Hv.
    change (lit ".vault") with (lit ".vaul" ++ [116]) in Hv. rewrite app_assoc, last_snoc in Hv. done.
Qed.

Lemma load_aliases_fs `{Env} `{AliasText} d w r w' : load_aliases d w = (r, w') -> fs w' = fs w.
Proof.
  unfold load_aliases, read_to_string. destruct (stat _ w) as [rs w1] eqn:E1. apply stat_touches in E1 as [_ F1].
  destruct rs as [m|e]; [|destruct (bool_decide _); by intros [= _ <-]].
  destruct (_ <? _); [by intros [= _ <-]|]. destruct (read_file _ w1) as [rr w2] eqn:E2.
  apply read_touches in E2 as [_ F2]. rewrite F1 in F2.
  destruct rr; [|by intros [= _ <-]]. destruct (ok_or _ _); by intros [= _ <-].
Qed.

Section update_lemmas.
Context `{Env} `{AliasText} {St E : Type}.
Implicit Types (s : shared St) (ph : phase E) (n a : nat) (o : OnWriteError) (w : world)
  (base next m : gmap str str) (dir : fpath) (out : AliasUpdate E) (written : result unit io_error).
Abbreviation edit_fn := (shared St -> gmap str str -> result (gmap str str) E).

(** The file half: written whole, or left as it was. *)
Lemma save_aliases_spec dir m w r w' : save_aliases_to dir m w = (r, w') ->
  match r with
  | Ok _ => exists text, toml_print m = Some text /\ holds (fs w') (dir ++ [ALIAS_FILE]) (utf8 text)
  | Err _ => fs w' !! (dir ++ [ALIAS_FILE]) = fs w !! (dir ++ [ALIAS_FILE])
  end.
Proof.
  unfold save_aliases_to. destruct (ensure_vault_dir dir w) as [r0 w0] eqn:E0.
  apply ensure_vault_dir_touches in E0 as T0.
  assert (F0 : fs w0 !! (dir ++ [ALIAS_FILE]) = fs w !! (dir ++ [ALIAS_FILE]))
    by (apply (touches_end _ _ _ _ T0), not_prefix_child).
  destruct r0 as [[]|e]; [|by intros [= <- <-]].
  destruct (toml_print m) as [text|]; [|by intros [= <- <-]].
  unfold path_join. intros E1. apply atomic_write_spec in E1 as (sfx & T1 & _ & O1). destruct r as [[]|e].
  - eauto.
  - rewrite <- F0. apply (touches_end _ _ _ _ T1). intros [Hx|[Hx _]]; [|done].
    by apply (temp_path_ne dir ALIAS_FILE sfx).
Qed.

Lemma commit_Finished o a base next written s out s' :
  lock_and_commit o a base next written s = (Finished (E:=E) out, s') ->
  match out with
  | Committed => written = Ok tt /\ s' = set_aliases s (Usable next)
  | NotWritten e => written = Err e /\ s' = (if bool_decide (o = Keep) then set_aliases s (Usable next) else s)
  | Unusable e => writable (sh_aliases s) = Err e /\ s' = s
  | Rejected _ => False
  end.
Proof.
  unfold lock_and_commit. destruct (writable (sh_aliases s)) as [current|e]; [|by intros [= <- <-]].
  destruct (negb _ && _); [done|]. destruct written as [[]|e]; by intros [= <- <-].
Qed.

(** When the commit goes through, nobody committed in between, or the
    attempts are used up. *)
Lemma commit_base o a base next written s out s' :
  lock_and_commit o a base next written s = (Finished (E:=E) out, s') -> sh_aliases s' <> sh_aliases s ->
  sh_aliases s' = Usable next /\ (sh_aliases s = Usable base \/ (ALIAS_UPDATE_ATTEMPTS <= a)%nat).
Proof.
  unfold lock_and_commit. destruct (sh_aliases s) as [current|r k] eqn:Es; simpl; [|by intros [= <- <-]].
  destruct (bool_decide (current = base)) eqn:Eb; simpl.
  - bool_to_prop. subst. destruct written as [[]|e]; [intros [= <- <-] _; by split; [|left]|].
    destruct (bool_decide (o = Keep)); intros [= <- <-] Hne; [by split; [|left]|by rewrite Es in Hne].
  - destruct (Nat.ltb_spec a ALIAS_UPDATE_ATTEMPTS) as [|Hge]; simpl; [done|].
    destruct written as [[]|e]; [intros [= <- <-] _; by split; [|right]|].
    destruct (bool_decide (o = Keep)); intros [= <- <-] Hne; [by split; [|right]|by rewrite Es in Hne].
Qed.

Lemma commit_retry o a base next written s a' s' :
  lock_and_commit o a base next written s = (Editing (E:=E) a', s') ->
  s' = s /\ a' = S a /\ (a < ALIAS_UPDATE_ATTEMPTS)%nat.
Proof.
  unfold lock_and_commit. destruct (writable (sh_aliases s)); [|done].
  destruct (negb _); simpl; [|by destruct written].
  destruct (Nat.ltb_spec a ALIAS_UPDATE_ATTEMPTS); [by intros [= <- <-]|by destruct written].
Qed.

Lemma commit_other o a base next written s ph s' :
  lock_and_commit o a base next written s = (ph, s') ->
  (exists out, ph = Finished (E:=E) out) \/ ph = Editing (S a).
Proof.
  unfold lock_and_commit. destruct (writable (sh_aliases s)); [|intros [= <- <-]; eauto].
  destruct (_ && _); [intros [= <- <-]; auto|]. destruct written; intros [= <- <-]; eauto.
Qed.

Lemma run_finished n (edit : edit_fn) o out s w : run n edit o (Finished out) s w = (Finished out, s, w).
Proof. by induction n. Qed.

(** Nobody else running: one attempt decides. *)
Lemma run_alone n (edit : edit_fn) o s w :
  run (3 + n) edit o (Editing 1) s w
  = match lock_and_edit edit 1 s with
    | Writing _ dir base next =>
      let '(written, w) := save_aliases_to dir next w in
      let '(ph, s) := lock_and_commit o 1 base next written s in (ph, s, w)
    | ph => (ph, s, w)
    end.
Proof.
  cbn [Nat.add run thread_step]. unfold lock_and_edit.
  destruct (sh_aliases s) as [table|r k] eqn:Es; cbn [writable thread_step]; [|apply run_finished].
  destruct (edit s table) as [next|e]; cbn [thread_step]; [|apply run_finished].
  destruct (save_aliases_to (sh_dir s) next w) as [written w1]. cbn [thread_step].
  unfold lock_and_commit. rewrite Es. cbn [writable]. rewrite bool_decide_true by done. cbn [negb andb].
  destruct written as [[]|e]; apply run_finished.
Qed.

Lemma update_alone (edit : edit_fn) o s w :
  update_aliases edit o s w
  = match lock_and_edit edit 1 s with
    | Writing _ dir base next =>
      let '(written, w) := save_aliases_to dir next w in
      let '(ph, s) := lock_and_commit o 1 base next written s in (ph, s, w)
    | ph => (ph, s, w)
    end.
Proof. exact (run_alone 21 edit o s w). Qed.
End update_lemmas.

(** ** Interleavings *)

Section interleaving.
Context `{HE : Env} `{HT : AliasText} {St E : Type}.
Abbreviation edit_fn := (shared St -> gmap str str -> result (gmap str str) E).

(** One call in flight. *)
Record thread : Type := Thread { th_edit : edit_fn; th_on_error : OnWriteError; th_phase : phase E }.

Record config : Type := Config { threads : list thread; cf_shared : shared St; cf_world : world }.

(** One section of the call of thread [i], or a change of the rest of the
    state by something else in the daemon. *)
Inductive cstep : config -> config -> Prop :=
| cstep_thread i e o ph ths s w ph' s' w' :
    ths !! i = Some (Thread e o ph) -> thread_step e o ph s w = (ph', s', w') ->
    cstep (Config ths s w) (Config (<[i := Thread e o ph']> ths) s' w')
| cstep_rest ths r dir t w r' : cstep (Config ths (Shared r dir t) w) (Config ths (Shared r' dir t) w).

(** What a call carries between its sections was computed by its edit. *)
Definition thread_ok (t : thread) : Prop :=
  match th_phase t with
  | Editing a => (1 <= a <= ALIAS_UPDATE_ATTEMPTS)%nat
  | Writing a _ base next | Committing a base next _ =>
    (1 <= a <= ALIAS_UPDATE_ATTEMPTS)%nat /\ exists s0, sh_aliases s0 = Usable base /\ th_edit t s0 base = Ok next
  | Finished _ => True
  end.

Lemma thread_step_ok (e : edit_fn) o ph s w ph' s' w' :
  thread_ok (Thread e o ph) -> thread_step e o ph s w = (ph', s', w') -> thread_ok (Thread e o ph').
Proof.
  unfold thread_ok. cbn [th_phase th_edit].
  destruct ph as [a|a dir base next|a base next written|out]; cbn [thread_step].
  - intros Ha [= <- _ _]. unfold lock_and_edit. destruct (sh_aliases s) as [t|] eqn:Es; cbn [writable]; [|done].
    destruct (e s t) as [next|] eqn:Ee; [|done]. eauto.
  - intros Ha. destruct (save_aliases_to dir next w). by intros [= <- _ _].
  - intros [Ha _]. destruct (lock_and_commit _ _ _ _ _ _) as [ph1 s1] eqn:Ec. intros [= <- _ _].
    destruct (commit_other _ _ _ _ _ _ _ _ Ec) as [[out ->] | -> ]; [done|].
    apply commit_retry in Ec as (_ & _ & ?). lia.
  - by intros _ [= <- _ _].
Qed.

Lemma cstep_ok c c' : cstep c c' -> Forall thread_ok (threads c) -> Forall thread_ok (threads c').
Proof.
  intros [i e o ph ths s w ph' s' w' Hi Hs|] Hf; simpl in *; [|done].
  apply Forall_insert; [done|]. eapply thread_step_ok; [|done]. by eapply Forall_lookup_1 in Hi.
Qed.

Lemma csteps_ok c c' : rtc cstep c c' -> Forall thread_ok (threads c) -> Forall thread_ok (threads c').
Proof. induction 1; intros Hf; [done|]. eauto using cstep_ok. Qed.

(** The phase of one call driven by whatever state it finds at each of its
    sections. *)
Fixpoint drive (e : edit_fn) (o : OnWriteError) (ph : phase E) (found : list (shared St * world)) : phase E :=
  match found with
  | [] => ph
  | (s, w) :: found => drive e o (fst (fst (thread_step e o ph s w))) found
  end.

(** Sections left, at most. *)
Definition sections_left (ph : phase E) : nat :=
  match ph with
  | Editing a => 3 * (S ALIAS_UPDATE_ATTEMPTS - a)
  | Writing a _ _ _ => 3 * (S ALIAS_UPDATE_ATTEMPTS - a) - 1
  | Committing a _ _ _ => 3 * (S ALIAS_UPDATE_ATTEMPTS - a) - 2
  | Finished _ => 0
  end.

Lemma section_decreases (e : edit_fn) o ph s w :
  thread_ok (Thread e o ph) -> (0 < sections_left ph)%nat ->
  (sections_left (fst (fst (thread_step e o ph s w))) < sections_left ph)%nat.
Proof.
  unfold thread_ok. cbn [th_phase]. destruct ph as [a|a dir base next|a base next written|out]; simpl; intros Ha Hp.
  - unfold lock_and_edit. destruct (writable _); simpl; [|lia]. destruct (e s _); simpl; lia.
  - destruct (save_aliases_to dir next w). simpl. lia.
  - destruct (lock_and_commit _ _ _ _ _ _) as [ph1 s1] eqn:Ec. simpl.
    destruct (commit_other _ _ _ _ _ _ _ _ Ec) as [[out ->] | -> ]; simpl; lia.
  - lia.
Qed.

Lemma nothing_left (e : edit_fn) o ph : thread_ok (Thread e o ph) -> sections_left ph = O ->
  exists out, ph = Finished out.
Proof.
  unfold thread_ok. cbn [th_phase]. destruct ph; unfold sections_left, ALIAS_UPDATE_ATTEMPTS; intros Hok Hz;
    [exfalso; lia..|eauto].
Qed.

Lemma drive_finishes (e : edit_fn) o found ph : thread_ok (Thread e o ph) ->
  (sections_left ph <= length found)%nat -> exists out, drive e o ph found = Finished out.
Proof.
  revert ph. induction found as [|[s w] found IH]; intros ph Hok Hl; cbn [drive length] in *.
  { apply (nothing_left e o); [done|lia]. }
  apply IH.
  - destruct (thread_step e o ph s w) as [[ph' s'] w'] eqn:Es. by eapply thread_step_ok.
  - destruct (decide (sections_left ph = O)) as [Hz|Hz].
    + destruct (nothing_left e o ph Hok Hz) as [out ->]. cbn. lia.
    + pose proof (section_decreases e o ph s w Hok). lia.
Qed.
End interleaving.
Arguments thread : clear implicits.
Arguments config : clear implicits.

(** ** Properties *)

(** An alias update with nobody else in the way. Committed means the edited
    table is in memory and its rendering is the whole file, so a reload reads
    it back; a failed write leaves the file as it was, and memory too unless
    the caller asked to keep the change; an unusable table is never written;
    a refused edit changes nothing. *)
Theorem update_aliases_durable `{HE : Env} `{HT : AliasText} (HTo : AliasTextOk HT) {St E : Type}
    (edit : shared St -> gmap str str -> result (gmap str str) E) (o : OnWriteError) (s : shared St) (w : world) :
  (forall table next, sh_aliases s = Usable table -> edit s table = Ok next -> attrs_wf next) ->
  let p := sh_dir s ++ [ALIAS_FILE] in
  let '(ph, s', w') := update_aliases edit o s w in
  match ph with
  | Finished Committed => exists table next text,
      sh_aliases s = Usable table /\ edit s table = Ok next /\ s' = set_aliases s (Usable next)
      /\ (exists m t, fs w' !! p = Some (NFile (utf8 text) m t))
      /\ from_utf8 (utf8 text) = Some text /\ toml_parse text = Ok next
  | Finished (NotWritten _) => fs w' !! p = fs w !! p /\ exists table next,
      sh_aliases s = Usable table /\ edit s table = Ok next
      /\ s' = (if bool_decide (o = Keep) then set_aliases s (Usable next) else s)
  | Finished (Unusable e) => unusable (sh_aliases s) = Some e /\ s' = s /\ w' = w
  | Finished (Rejected e) => s' = s /\ w' = w /\ exists table, sh_aliases s = Usable table /\ edit s table = Err e
  | _ => False
  end.
Proof.
  intros Hwf. cbv zeta. rewrite update_alone. unfold lock_and_edit.
  destruct (sh_aliases s) as [table|r k] eqn:Es; cbn [writable unusable]; [|done].
  destruct (edit s table) as [next|e] eqn:Ee; [|by eauto].
  destruct (save_aliases_to (sh_dir s) next w) as [written w1] eqn:Ew. apply save_aliases_spec in Ew.
  unfold lock_and_commit. rewrite Es. cbn [writable]. rewrite bool_decide_true by done. cbn [negb andb].
  destruct written as [[]|e]; [|by eauto 6].
  destruct Ew as (text & Ht & Hh). destruct (toml_roundtrip next text) as [Wt Hp]; [by eapply Hwf|done|].
  exists table, next, text. split_and!; try done. by apply from_utf8_utf8.
Qed.

(** C38. No alias update is lost in memory. Whatever the interleaving of calls,
    each section that changes the table in memory replaces it by that call's
    edit of the very table it replaces, unless that call has used up its eight
    attempts. *)
Theorem alias_updates_serialize `{HE : Env} `{HT : AliasText} {St E : Type} (c0 c c' : config St E) :
  Forall (fun t => th_phase t = Editing 1) (threads c0) -> rtc cstep c0 c -> cstep c c' ->
  sh_aliases (cf_shared c') <> sh_aliases (cf_shared c) ->
  exists i t a base next written s0, threads c !! i = Some t /\ th_phase t = Committing a base next written
    /\ sh_aliases (cf_shared c') = Usable next
    /\ sh_aliases s0 = Usable base /\ th_edit t s0 base = Ok next
    /\ (sh_aliases (cf_shared c) = Usable base \/ a = ALIAS_UPDATE_ATTEMPTS).
Proof.
  intros H0 Hr Hs Hne. assert (Hok : Forall thread_ok (threads c)).
  { apply (csteps_ok _ _ Hr). eapply Forall_impl; [exact H0|]. intros [e o ph]. simpl. intros ->.
    unfold thread_ok, ALIAS_UPDATE_ATTEMPTS. simpl. lia. }
  destruct Hs as [i e o ph ths s w ph' s' w' Hi Hst|]; simpl in *; [|done].
  destruct ph as [a|a dir base next|a base next written|out]; cbn [thread_step] in Hst.
  - by injection Hst as _ <- _.
  - destruct (save_aliases_to dir next w). by injection Hst as _ <- _.
  - destruct (lock_and_commit o a base next written s) as [ph1 s1] eqn:Ec. injection Hst as <- <- <-.
    destruct (commit_other _ _ _ _ _ _ _ _ Ec) as [[out ->] | -> ].
    2: { apply commit_retry in Ec as (-> & _). done. }
    pose proof (Forall_lookup_1 _ _ _ _ Hok Hi) as [Ha (s0 & Hs0 & He)]. cbn [th_edit] in He.
    destruct (commit_base _ _ _ _ _ _ _ _ Ec Hne) as [Hn Hb].
    exists i, (Thread e o (Committing a base next written)), a, base, next, written, s0. split_and!; try done.
    destruct Hb as [?|?]; [by left|right]. unfold ALIAS_UPDATE_ATTEMPTS in *. lia.
  - by injection Hst as _ <- _.
Qed.

(** Every alias update ends: however the states it finds at its sections
    are changed by others, after at most 24 of its own sections the call has
    returned. *)
Theorem update_aliases_terminates `{HE : Env} `{HT : AliasText} {St E : Type}
    (edit : shared St -> gmap str str -> result (gmap str str) E) (o : OnWriteError) (found : list (shared St * world)) :
  (24 <= length found)%nat -> exists out, drive edit o (Editing 1) found = Finished out.
Proof.
  intros Hl. apply drive_finishes; unfold thread_ok, ALIAS_UPDATE_ATTEMPTS; simpl; lia.
Qed.

(** ** A concrete text format *)

Definition alias_codec : codec (gmap str str) := gmap_codec str_codec.

Definition sample_text : AliasText := {|
  toml_parse t := match c_dec alias_codec (map z2b t) with
                  | Some (m, []) => Ok m
                  | _ => Err (lit "expected a table")
                  end;
  toml_print m := Some (map b2z (c_enc alias_codec m));
  io_text _ := lit "I/O error"
|}.

Lemma sample_text_ok : AliasTextOk sample_text.
Proof.
  split. intros m t _ [= <-]. split.
  - apply Forall_map, Forall_true. intros b. pose proof (b2z_range b). simpl. unfold is_char. lia.
  - cbn [toml_parse sample_text].
    assert (forall b, map z2b (map b2z b) = b) as Hb.
    { intros b. induction b as [|x b IH]; simpl; [done|]. by rewrite z2b_b2z, IH. }
    rewrite Hb. pose proof (c_ok alias_codec m []) as Hc. rewrite app_nil_r in Hc.
    change (list_enc _ (map_to_list m)) with (c_enc alias_codec m). by rewrite Hc.
Qed.

(** A daemon with one collection, [x], and [k] aliases of it. *)
Definition crowded (k : nat) : gmap str str :=
  list_to_map (map (fun i => (97 :: dec (Z.of_nat i), lit "x")) (seq 0 k)).

Definition sample_shared (k : nat) : shared unit := Shared tt [lit "v"] (Usable (crowded k)).

Definition sample_edit (name : str) : shared unit -> gmap str str -> result (gmap str str) alias_refusal :=
  set_alias_edit name false (fun _ => Some (lit "x")).

Lemma sample_edit_next k name next : sample_edit name (sample_shared k) (crowded k) = Ok next ->
  next = <[name := lit "x"]> (crowded k).
Proof.
  unfold sample_edit, set_alias_edit. cbn [ok_or]. destruct (check_alias_room (crowded k) name); [|done].
  by intros [= <-].
Qed.

Lemma update_aliases_durable_witness :
  exists s' w', @update_aliases sample_env sample_text unit alias_refusal (sample_edit (lit "login")) Refuse
                  (sample_shared 2) (sample_world []) = (Finished Committed, s', w')
    /\ exists m t text, fs w' !! [lit "v"; ALIAS_FILE] = Some (NFile (utf8 text) m t)
         /\ @toml_parse sample_text text = Ok (<[lit "login" := lit "x"]> (crowded 2)).
Proof.
  pose proof (@update_aliases_durable sample_env sample_text sample_text_ok unit alias_refusal
    (sample_edit (lit "login")) Refuse (sample_shared 2) (sample_world [])) as H. cbv zeta in H.
  assert (fst (fst (@update_aliases sample_env sample_text unit alias_refusal (sample_edit (lit "login")) Refuse
            (sample_shared 2) (sample_world []))) = Finished Committed) as Hp by (vm_compute; reflexivity).
  destruct (update_aliases _ _ _ _) as [[ph s'] w']. cbn [fst] in Hp. subst ph. exists s', w'. split; [reflexivity|].
  destruct H as (table & next & text & Ht & He & _ & (m & t & Hf) & _ & Hq).
  - intros table next [= <-] ->%sample_edit_next. apply (bool_decide_unpack _). vm_compute. exact I.
  - exists m, t, text. split; [exact Hf|]. rewrite Hq. injection Ht as <-. f_equal. by apply sample_edit_next.
Defined.

(** Two clients, each adding its own alias. *)
Definition race_start : config unit alias_refusal :=
  Config [Thread (sample_edit (lit "first")) Refuse (Editing 1);
          Thread (sample_edit (lit "second")) Refuse (Editing 1)] (sample_shared 2) (sample_world []).

(** Let the named threads run, one section each. *)
Fixpoint schedule `{Env} `{AliasText} {St E : Type} (ids : list nat) (c : config St E) : config St E :=
  match ids with
  | [] => c
  | i :: ids =>
    match threads c !! i with
    | None => schedule ids c
    | Some (Thread e o ph) =>
      let '(ph, s, w) := thread_step e o ph (cf_shared c) (cf_world c) in
      schedule ids (Config (<[i := Thread e o ph]> (threads c)) s w)
    end
  end.

(** A failed alias update can undo a committed one. Two [SetAlias] calls,
    and a disk that fills up after two writes: the second call writes its table
    over the first's before the first commits; at its own commit it finds the
    table changed and redoes the edit, and now its write fails. The first
    client was told its alias is set, the second that nothing was done, and
    memory agrees with both; but the file holds the second alias and not the
    first, which is what the next start of the daemon reads. *)
Theorem alias_race_strands_file :
  let c := @schedule (failing_env 18) sample_text unit alias_refusal [0; 1; 0; 1; 0; 1; 1; 1; 1]%nat race_start in
  (exists e, map th_phase (threads c) = [Finished Committed; Finished (NotWritten e)])
  /\ sh_aliases (cf_shared c) = Usable (<[lit "first" := lit "x"]> (crowded 2))
  /\ fst (@load_aliases sample_env sample_text [lit "v"] (cf_world c)) = Ok (<[lit "second" := lit "x"]> (crowded 2)).
Proof.
  cbv zeta. split; [eexists; vm_compute; reflexivity|]. split; apply (bool_decide_unpack _); vm_compute; exact I.
Qed.

Lemma schedule_steps `{Env} `{AliasText} {St E : Type} (ids : list nat) (c : config St E) :
  rtc cstep c (schedule ids c).
Proof.
  revert c. induction ids as [|i ids IH]; intros [ths s w]; [done|]. cbn [schedule threads cf_shared cf_world].
  destruct (ths !! i) as [[e o ph]|] eqn:Ei; [|apply IH].
  destruct (thread_step e o ph s w) as [[ph' s'] w'] eqn:Es.
  eapply rtc_l; [by apply (cstep_thread i e o ph)|apply IH].
Qed.

Definition race_middle : config unit alias_refusal :=
  @schedule sample_env sample_text unit alias_refusal [0; 1; 0; 1]%nat race_start.
Definition race_commit : config unit alias_refusal :=
  @schedule sample_env sample_text unit alias_refusal [0]%nat race_middle.

Lemma race_step : @cstep sample_env sample_text unit alias_refusal race_middle race_commit.
Proof.
  unfold race_commit. generalize (eq_refl : length (threads race_middle) = 2%nat).
  destruct race_middle as [ths s w]. cbn [schedule threads cf_shared cf_world]. intros Hl.
  destruct ths as [|[e o ph] ths]; [done|]. cbn [lookup list_lookup].
  destruct (thread_step e o ph s w) as [[ph' s'] w'] eqn:Es. by apply (cstep_thread 0 e o ph).
Qed.

Lemma alias_updates_serialize_witness :
  exists t base next s0, sh_aliases (cf_shared race_commit) = Usable next
    /\ sh_aliases s0 = Usable base /\ th_edit (St:=unit) (E:=alias_refusal) t s0 base = Ok next.
Proof.
  assert (sh_aliases (cf_shared race_commit) <> sh_aliases (cf_shared race_middle)) as Hne.
  { apply (bool_decide_unpack _). vm_compute. exact I. }
  destruct (@alias_updates_serialize sample_env sample_text unit alias_refusal race_start race_middle race_commit
    ltac:(by repeat constructor) (schedule_steps _ _) race_step Hne)
    as (i & t & a & base & next & written & s0 & _ & _ & Hc & Hb & He & _).
  exists t, base, next, s0. split_and!; [exact Hc|exact Hb|exact He].
Defined.

Lemma update_aliases_terminates_witness :
  exists out, @drive sample_env sample_text unit alias_refusal (sample_edit (lit "first")) Refuse (Editing 1)
                (repeat (sample_shared 2, sample_world []) 24) = Finished out.
Proof. apply update_aliases_terminates. vm_compute. lia. Defined.
