(* ===== verification/Session.v ===== *)
(** * Secrets on the bus ([src/session/mod.rs], [src/session/dh.rs])

    The Diffie-Hellman exchange over the 1024-bit MODP group and the session
    cipher built on it.  Montgomery exponentiation is modelled by its value,
    the residue of the power; HKDF and AES-CBC are parameters. *)
From Stdlib Require Import Zpow_facts.
From S2P Require Import Prelude Text Env Crypto Codec.

Definition ALGORITHM_PLAIN : str := lit "plain".
Definition ALGORITHM_DH : str := lit "dh-ietf1024-sha256-aes128-cbc-pkcs7".

(** ** Primitives *)

Class SessionPrims : Type := {
  (** HKDF-SHA256, no salt, empty info: input key material and output length *)
  hkdf_sha256 : bytes -> nat -> option bytes;
  (** AES-128-CBC with PKCS#7: key, IV, data *)
  aes_cbc_encrypt : bytes -> bytes -> bytes -> bytes;
  aes_cbc_decrypt : bytes -> bytes -> bytes -> option bytes
}.

Class SessionPrimsOk (P : SessionPrims) : Prop := {
  aes_cbc_roundtrip k iv m : length iv = 16%nat -> aes_cbc_decrypt k iv (aes_cbc_encrypt k iv m) = Some m
}.

(** ** The group *)

Definition PRIME_BYTES : nat := 128.

Definition PRIME : Z :=
  0xffffffffffffffffc90fdaa22168c234c4c6628b80dc1cd129024e088a67cc74020bbea63b139b22514a08798e3404ddef9519b3cd3a431b302b0a6df25f14374fe1356d6d51c245e485b576625e7ec6f44c42e9a637ed6b0bff5cb6f406b7edee386bfb5a899fa5ae9f24117c4b1fe649286651ece65381ffffffffffffffff.

Definition U1024 : Z := 2 ^ 1024.

Inductive DhError : Type := InvalidPeerKey | HkdfError.

Record KeyPair : Type := { private : Z; public : bytes }.

(** [U1024::to_be_bytes]. *)
Definition to_be_1024 (x : Z) : bytes := to_be_bytes PRIME_BYTES x.

Definition minimal_be (x : Z) : bytes :=
  let bs := to_be_1024 x in
  let start := default (length bs - 1)%nat (position (fun b => negb (bool_decide (b = x00))) bs) in
  drop start bs.

Definition from_be_padded (bs : bytes) : option Z :=
  if (PRIME_BYTES <? length bs)%nat then None
  else Some (from_be_bytes (repeat x00 (PRIME_BYTES - length bs) ++ bs)).

(** [MontyForm::new(b).pow(e).retrieve()]. *)
Definition monty_pow (b e : Z) : Z := Zpow_mod b e PRIME.

Section session.
Context `{Env} `{SessionPrims}.

(** [random_bytes] panics when the system has no randomness: [None]. *)
Definition random_bytes (n : nat) (w : world) : option bytes * world := random n w.

(** [x] in [2, p-2]; the arithmetic is that of [U1024]. *)
Definition generate (w : world) : option KeyPair * world :=
  match random_bytes PRIME_BYTES w with
  | (None, w) => (None, w)
  | (Some raw, w) =>
    let range := (PRIME - 3) mod U1024 in
    let reduced := from_be_bytes raw mod range in
    let priv := (reduced + 2) mod U1024 in
    (Some {| private := priv; public := minimal_be (monty_pow 2 priv) |}, w)
  end.

Definition derive_aes_key (pair : KeyPair) (peer_public : bytes) : result bytes DhError :=
  match from_be_padded peer_public with
  | None => Err InvalidPeerKey
  | Some peer =>
    if (peer <=? 1) || ((PRIME - 1) mod U1024 <=? peer) then Err InvalidPeerKey
    else ok_or (hkdf_sha256 (to_be_1024 (monty_pow peer (private pair))) 16) HkdfError
  end.

(** ** The cipher *)

Inductive SessionCipher : Type := Plain | Aes (key : bytes).

Inductive SessionError : Type := BadIv (n : Z) | Decrypt | Dh (e : DhError).

Definition from_dh (pair : KeyPair) (peer_public : bytes) : result SessionCipher SessionError :=
  match derive_aes_key pair peer_public with
  | Ok k => Ok (Aes k)
  | Err e => Err (Dh e)
  end.

Definition algorithm (c : SessionCipher) : str :=
  match c with Plain => ALGORITHM_PLAIN | Aes _ => ALGORITHM_DH end.

Definition encrypt (c : SessionCipher) (plaintext : bytes) (w : world) : option (bytes * bytes) * world :=
  match c with
  | Plain => (Some ([], plaintext), w)
  | Aes key =>
    match random_bytes 16 w with
    | (None, w) => (None, w)
    | (Some iv, w) => (Some (iv, aes_cbc_encrypt key iv plaintext), w)
    end
  end.

Definition decrypt (c : SessionCipher) (parameters value : bytes) : result bytes SessionError :=
  match c with
  | Plain => Ok value
  | Aes key =>
    if negb (length parameters =? 16)%nat then Err (BadIv (zlen parameters))
    else ok_or (aes_cbc_decrypt key parameters value) Decrypt
  end.
End session.

(** ** Lemmas *)

Lemma PRIME_bounds : 2 ^ 1023 < PRIME < U1024.
Proof. split; vm_compute; reflexivity. Qed.

Lemma monty_pow_spec b e : 0 <= e -> monty_pow b e = (b ^ e) mod PRIME.
Proof. intros He. apply Zpow_mod_correct. pose proof PRIME_bounds. vm_compute. discriminate. Qed.

Lemma monty_pow_range b e : 0 <= e -> 0 <= monty_pow b e < PRIME.
Proof. intros He. rewrite monty_pow_spec by done. apply Z.mod_pos_bound. vm_compute. reflexivity. Qed.

(** Exponentiation in either order gives the same residue. *)
Lemma monty_pow_comm g a b : 0 <= a -> 0 <= b ->
  monty_pow (monty_pow g a) b = monty_pow (monty_pow g b) a.
Proof.
  intros Ha Hb. rewrite !monty_pow_spec by done.
  rewrite <- !Zpower_mod by (vm_compute; reflexivity).
  by rewrite <- !Z.pow_mul_r, (Z.mul_comm a b) by done.
Qed.

Lemma lookup_repeat {A} (x : A) n j : (j < n)%nat -> repeat x n !! j = Some x.
Proof. revert j. induction n as [|n IH]; intros [|j] Hj; simpl; [lia|lia|done|]. apply IH. lia. Qed.

(** What [minimal_be] drops is zeros, and what is left can be padded back. *)
Lemma minimal_be_padded (x : Z) :
  repeat x00 (PRIME_BYTES - length (minimal_be x)) ++ minimal_be x = to_be_1024 x
  /\ (1 <= length (minimal_be x) <= PRIME_BYTES)%nat.
Proof.
  unfold minimal_be. set (bs := to_be_1024 x).
  assert (Hlen : length bs = PRIME_BYTES) by apply length_to_be_bytes.
  set (start := default _ _).
  assert ((start < PRIME_BYTES)%nat /\ take start bs = repeat x00 start) as [Hs Hz].
  { unfold start. destruct (position _ bs) as [i|] eqn:Ep; cbn [from_option id].
    - pose proof (position_lt _ _ _ Ep) as Hi. apply position_Some in Ep as (b & Hb & _ & Hlt).
      split; [by rewrite <- Hlen|]. apply list_eq. intros j. destruct (decide (j < i)%nat) as [Hj|Hj].
      + rewrite lookup_take_lt by done. destruct (lookup_lt_is_Some_2 bs j) as [c Hc]; [lia|].
        rewrite Hc. specialize (Hlt j c Hj Hc). apply negb_false_iff, bool_decide_eq_true in Hlt as ->.
        symmetry. by apply lookup_repeat.
      + rewrite !lookup_ge_None_2; [done|rewrite ?repeat_length, ?length_take; lia..].
    - rewrite Hlen. split; [vm_compute; lia|]. apply list_eq. intros j.
      destruct (decide (j < PRIME_BYTES - 1)%nat) as [Hj|Hj].
      + rewrite lookup_take_lt by done. destruct (lookup_lt_is_Some_2 bs j) as [c Hc]; [lia|]. rewrite Hc.
        rewrite position_None in Ep. specialize (Ep c ltac:(by eapply list_elem_of_lookup_2)).
        apply negb_false_iff, bool_decide_eq_true in Ep as ->. symmetry. by apply lookup_repeat.
      + rewrite !lookup_ge_None_2; [done|rewrite ?repeat_length, ?length_take; lia..]. }
  rewrite length_drop, Hlen. split; [|lia].
  replace (PRIME_BYTES - (PRIME_BYTES - start))%nat with start by lia.
  by rewrite <- Hz, take_drop.
Qed.

Lemma from_be_padded_minimal x : 0 <= x < U1024 -> from_be_padded (minimal_be x) = Some x.
Proof.
  intros Hx. destruct (minimal_be_padded x) as [Hp Hl]. unfold from_be_padded.
  destruct (Nat.ltb_spec PRIME_BYTES (length (minimal_be x))); [lia|]. rewrite Hp. f_equal.
  unfold to_be_1024. apply from_to_be_bytes. exact Hx.
Qed.

Section session_lemmas.
Context `{Env} `{SessionPrims}.

(** A generated pair: the exponent is in range and the public value is its power. *)
Lemma generate_spec w pair w' : generate w = (Some pair, w') ->
  2 <= private pair <= PRIME - 2 /\ from_be_padded (public pair) = Some (monty_pow 2 (private pair)).
Proof.
  unfold generate, random_bytes. destruct (random PRIME_BYTES w) as [[raw|] w1]; [|done].
  intros [= <- _]. simpl. pose proof PRIME_bounds as Hp.
  assert ((PRIME - 3) mod U1024 = PRIME - 3) as -> by (vm_compute; reflexivity).
  assert (0 <= from_be_bytes raw mod (PRIME - 3) < PRIME - 3) as Hm
    by (apply Z.mod_pos_bound; vm_compute; reflexivity).
  rewrite (Z.mod_small _ U1024) by lia. split; [lia|]. apply from_be_padded_minimal.
  pose proof (monty_pow_range 2 (from_be_bytes raw mod (PRIME - 3) + 2)). lia.
Qed.

(** Which peers are accepted. *)
Definition peer_ok (peer : bytes) : Prop :=
  (length peer <= PRIME_BYTES)%nat /\ exists x, from_be_padded peer = Some x /\ 1 < x < PRIME - 1.

Lemma derive_aes_key_spec pair peer :
  (peer_ok peer -> exists x, from_be_padded peer = Some x
     /\ derive_aes_key pair peer = ok_or (hkdf_sha256 (to_be_1024 (monty_pow x (private pair))) 16) HkdfError)
  /\ (~ peer_ok peer -> derive_aes_key pair peer = Err InvalidPeerKey).
Proof.
  unfold derive_aes_key, peer_ok. assert ((PRIME - 1) mod U1024 = PRIME - 1) as -> by (vm_compute; reflexivity).
  unfold from_be_padded. destruct (Nat.ltb_spec PRIME_BYTES (length peer)) as [Hl|Hl].
  { split; [intros [? _]; lia|done]. }
  set (x := from_be_bytes _). split.
  - intros (_ & y & [= <-] & Hx). exists x. split; [done|].
    destruct (Z.leb_spec x 1), (Z.leb_spec (PRIME - 1) x); try lia. done.
  - intros Hn. destruct (Z.leb_spec x 1), (Z.leb_spec (PRIME - 1) x); try done.
    destruct Hn. split; [done|]. exists x. split; [done|lia].
Qed.
End session_lemmas.

(** ** Properties *)

(** The key exchange agrees. Two freshly generated pairs have exponents in
    [2, p-2] and public values of at most 128 bytes that decode to the power
    they encode; when each accepts the other, both derive the same session
    key, or both fail to expand one; and a peer value is refused exactly when
    it is too long, 0, 1, p-1 or not reduced. *)
Theorem dh_key_agreement (HE : Env) (HS : SessionPrims) (w1 w2 : world) (a b : KeyPair) (w1' w2' : world) :
  generate w1 = (Some a, w1') -> generate w2 = (Some b, w2') ->
  2 <= private a <= PRIME - 2 /\ from_be_padded (public a) = Some (2 ^ private a mod PRIME)
  /\ (peer_ok (public a) -> peer_ok (public b) ->
      derive_aes_key a (public b) = derive_aes_key b (public a)
      /\ derive_aes_key a (public b) <> Err InvalidPeerKey)
  /\ (forall peer, ~ peer_ok peer -> derive_aes_key a peer = Err InvalidPeerKey).
Proof.
  intros [Ra Pa]%generate_spec [Rb Pb]%generate_spec. split_and!; [lia|lia| | |].
  - rewrite Pa. f_equal. apply monty_pow_spec. lia.
  - intros Ha Hb. destruct (proj1 (derive_aes_key_spec a _) Hb) as (x & Hx & ->).
    destruct (proj1 (derive_aes_key_spec b _) Ha) as (y & Hy & ->).
    rewrite Pb in Hx. rewrite Pa in Hy. injection Hx as <-. injection Hy as <-.
    rewrite (monty_pow_comm 2) by lia. split; [done|]. by destruct (hkdf_sha256 _ 16).
  - intros peer. apply derive_aes_key_spec.
Qed.

(** What one end of a session encrypts the other decrypts, under either
    algorithm; an IV of any other length than 16 is refused before AES runs. *)
Theorem session_roundtrip (HE : Env) (HS : SessionPrims) (HSo : SessionPrimsOk HS) (c : SessionCipher) (m : bytes)
    (w : world) :
  (forall params value w', encrypt c m w = (Some (params, value), w') -> decrypt c params value = Ok m)
  /\ (forall k params value, c = Aes k -> length params <> 16%nat ->
        decrypt c params value = Err (BadIv (zlen params))).
Proof.
  split.
  - intros params value w'. unfold encrypt, decrypt, random_bytes. destruct c as [|k]; [by intros [= <- <- _]|].
    destruct (random 16 w) as [[iv|] w1] eqn:Er; [|done]. intros [= <- <- _].
    assert (length iv = 16%nat) as Hl by (apply (length_random 16 w); by rewrite Er).
    rewrite Hl. cbn [Nat.eqb negb]. by rewrite aes_cbc_roundtrip.
  - intros k params value -> Hl. unfold decrypt. apply Nat.eqb_neq in Hl. by rewrite Hl.
Qed.

(** ** Witnesses *)

Definition sample_session : SessionPrims := {|
  hkdf_sha256 ikm n := Some (take n (rev ikm));
  aes_cbc_encrypt k iv m := m ++ k ++ iv;
  aes_cbc_decrypt k iv c := strip_tag (k ++ iv) c
|}.

Lemma sample_session_ok : SessionPrimsOk sample_session.
Proof.
  split. intros k iv m _. simpl. unfold strip_tag.
  rewrite length_app, Nat.add_sub, take_app_length, bool_decide_true; done.
Qed.

(** Randomness whose last byte is the request's number, so that the exponents
    are small. *)
Definition small_env : Env := {|
  env_fault _ := None;
  env_short _ := O;
  env_rng n := Some (fun i => if (i =? 127)%nat then z2b (Z.of_nat n) else x00);
  env_uuid := @env_uuid sample_env;
  env_now _ := None;
  env_umask := 18
|}.

Definition sample_pair (n : nat) : option KeyPair * world := @generate small_env (World ∅ n []).

Lemma dh_key_agreement_witness :
  exists a b, fst (sample_pair 1) = Some a /\ fst (sample_pair 7) = Some b
    /\ @derive_aes_key sample_session a (public b) = @derive_aes_key sample_session b (public a).
Proof.
  destruct (sample_pair 1) as [[a|] w1] eqn:Ea; [|discriminate Ea].
  destruct (sample_pair 7) as [[b|] w2] eqn:Eb; [|discriminate Eb].
  exists a, b. split; [reflexivity|]. split; [reflexivity|].
  destruct (dh_key_agreement small_env sample_session _ _ a b _ _ Ea Eb) as (_ & _ & H & _).
  apply H; [apply (f_equal fst) in Ea|apply (f_equal fst) in Eb];
    [vm_compute in Ea; injection Ea as <-|vm_compute in Eb; injection Eb as <-];
    (split; [vm_compute; lia|eexists; split; [vm_compute; reflexivity|split; vm_compute; reflexivity]]).
Defined.

Lemma session_roundtrip_witness :
  @decrypt sample_session (Aes [x05]) [x01] [x02] = Err (BadIv 1).
Proof.
  apply (proj2 (session_roundtrip sample_env sample_session sample_session_ok (Aes [x05]) [x02] (World ∅ 0 []))
           [x05] [x01] [x02]); [reflexivity|discriminate].
Defined.
