(* ===== verification/Gnome.v ===== *)
(** * Walking a gnome-keyring ([src/import/gnome.rs])

    The item types, the identification of the bus name's owner, and the walk
    over a Secret Service provider.  The provider answers every request as any
    function of all the requests so far ([Provider], [log]), so it may answer
    the same question differently twice, list an item twice, or stop answering
    at any point.  Starting the private bus and its daemon is not modelled. *)
From S2P Require Import Prelude Text Sanitize Env Files Crypto Format Import Formats KWallet Session.

(** ** Item types *)

Definition TYPE_GENERIC : str := lit "org.freedesktop.Secret.Generic".
Definition TYPE_NETWORK_PASSWORD : str := lit "org.gnome.keyring.NetworkPassword".
Definition TYPE_NOTE : str := lit "org.gnome.keyring.Note".
Definition TYPE_CHAINED_KEYRING : str := lit "org.gnome.keyring.ChainedKeyring".
Definition TYPE_ENCRYPTION_KEY : str := lit "org.gnome.keyring.EncryptionKey".
Definition TYPE_PK_STORAGE : str := lit "org.gnome.keyring.PkStorage".

Definition ITEM_TYPE_GENERIC_SECRET : Z := 0.
Definition ITEM_TYPE_NETWORK_PASSWORD : Z := 1.
Definition ITEM_TYPE_NOTE : Z := 2.
Definition ITEM_TYPE_PK_STORAGE : Z := 5.

Definition item_type_code (item_type : str) : option Z :=
  if str_eqb item_type TYPE_GENERIC then Some ITEM_TYPE_GENERIC_SECRET
  else if str_eqb item_type TYPE_NETWORK_PASSWORD then Some ITEM_TYPE_NETWORK_PASSWORD
  else if str_eqb item_type TYPE_NOTE then Some ITEM_TYPE_NOTE
  else if str_eqb item_type TYPE_CHAINED_KEYRING then Some ITEM_TYPE_CHAINED_KEYRING_PASSWORD
  else if str_eqb item_type TYPE_ENCRYPTION_KEY then Some ITEM_TYPE_ENCRYPTION_KEY_PASSWORD
  else if str_eqb item_type TYPE_PK_STORAGE then Some ITEM_TYPE_PK_STORAGE
  else None.

Definition is_unlock_credential_type (item_type : str) : bool :=
  str_eqb item_type TYPE_CHAINED_KEYRING || str_eqb item_type TYPE_ENCRYPTION_KEY.

(** ** Who owns the name *)

Definition GNOME_KEYRING_PROGRAM : str := lit "gnome-keyring-daemon".
Definition OUR_PROGRAM : str := lit "secret-manager".
Definition SECRETS_BUS_NAME : str := lit "org.freedesktop.secrets".

Inductive BusOwner : Type := Unowned | Unidentified (pid : Z) | Process (pid : Z) (command : str).

(** [rsplit(c).next()]: the last piece, of which there always is one. *)
Definition last_piece (c : char) (s : str) : str := default [] (last (split_on c s)).

Definition program_name (command : str) : option str :=
  match split_whitespace command with
  | [] => None
  | token :: _ =>
    let base := last_piece 47 (trim_end_matches 93 (drop_while (fun x => x =? 91) token)) in
    match base with [] => None | _ => Some base end
  end.

Definition runs (program : str) (o : BusOwner) : bool :=
  match o with Process _ command => bool_decide (program_name command = Some program) | _ => false end.

Definition is_gnome_keyring (o : BusOwner) : bool := runs GNOME_KEYRING_PROGRAM o.
Definition is_secret_manager (o : BusOwner) : bool := runs OUR_PROGRAM o.

(** [s.parse::<u32>()]. *)
Definition parse_u32 (s : str) : option Z :=
  let! n := parse_u64 s in if n <=? u32_max then Some n else None.

(** [str::lines]: a final newline ends the last line, and a carriage return is
    dropped before a newline only. *)
Definition lines (s : str) : list str :=
  match rev (split_on 10 s) with
  | [] => []
  | l :: ini => map (fun x => default x (strip_suffix [13] x)) (rev ini) ++ match l with [] => [] | _ => [l] end
  end.

Definition parse_busctl_pid (status : str) : option Z :=
  let! v := find_map (fun line => strip_prefix (lit "PID=") (trim line)) (lines status) in parse_u32 (trim v).

Definition classify_bus_owner (busctl_status ps_command : option str) : BusOwner :=
  match (let! s := busctl_status in parse_busctl_pid s) with
  | None => Unowned
  | Some pid =>
    match trim <$> ps_command with
    | Some (c :: cmd) => Process pid (c :: cmd)
    | _ => Unidentified pid
    end
  end.

Definition describe (o : BusOwner) : str :=
  match o with
  | Unowned => lit "nothing owns " ++ SECRETS_BUS_NAME
  | Unidentified pid =>
    lit "pid " ++ dec pid ++ lit " owns " ++ SECRETS_BUS_NAME ++ lit " but could not be identified"
  | Process pid command =>
    display_label command ++ lit " (pid " ++ dec pid ++ lit ") owns " ++ SECRETS_BUS_NAME
  end.

Definition foreign_provider_warning (o : BusOwner) : option str :=
  match o with
  | Unowned => None
  | _ =>
    if is_gnome_keyring o || is_secret_manager o then None
    else match o with
    | Process _ _ =>
      Some (describe o ++ lit ", which is neither " ++ GNOME_KEYRING_PROGRAM ++ lit " nor " ++ OUR_PROGRAM
            ++ lit ". Your secrets have been going to that provider, so the gnome-keyring files read below may be stale or empty and this import will faithfully copy whatever they hold. If you meant to migrate that provider, run `sm import` against it instead.")
    | _ =>
      Some (describe o ++ lit ", so this run cannot tell which provider your secrets have actually been going to. If it is not gnome-keyring, the keyrings read below are stale and this import will faithfully copy them.")
    end
  end.

(** ** Errors *)

Definition ERROR_TEXT_LIMIT : nat := 512.

(** The largest char boundary at or below [n]. *)
Fixpoint floor_boundary (s : str) (n : nat) : nat :=
  if is_char_boundary s (Z.of_nat n) then n
  else match n with O => O | S n => floor_boundary s n end.

Definition error_text (text : str) : str :=
  let escaped := escape_control text in
  if str_len escaped <=? Z.of_nat ERROR_TEXT_LIMIT then escaped
  else slice_to escaped (Z.of_nat (floor_boundary escaped ERROR_TEXT_LIMIT)) ++ [8230].

Inductive GnomeError : Type :=
| GSpawn (program message : str)
| GCommandTimeout (program : str) (waited : Z)
| BusNeverReady (waited : Z)
| KeyringNeverReady (waited : Z) (detail : str)
| KeyringExited (detail : str)
| UnanswerablePrompt (object : str) (waited : Z)
| PromptDismissed (object : str)
| UnlockOfferedNothing (object : str)
| PromptUnlockedNothing (object : str)
| GTooMany (what : str) (count limit : Z)
| GBus (call message : str)
| GCallTimeout (call : str) (waited : Z)
| NoSuchCollection (container available : str)
| AmbiguousCollection (container first second : str)
| NoSession (message : str)
| GDecrypt (message : str).

(** [Debug for Duration], of whole seconds. *)
Definition secs (n : Z) : str := dec n ++ lit "s".

(** [Display for GnomeError]. *)
Definition gnome_error_text (e : GnomeError) : str :=
  match e with
  | GSpawn program message => lit "could not run " ++ program ++ lit ": " ++ message
  | GCommandTimeout program waited => program ++ lit " did not finish within " ++ secs waited
  | BusNeverReady waited => lit "the private session bus did not print an address within " ++ secs waited
  | KeyringNeverReady waited detail =>
    lit "gnome-keyring-daemon did not take " ++ SECRETS_BUS_NAME ++ lit " on the private bus within " ++ secs waited
    ++ lit ": " ++ detail
  | KeyringExited detail =>
    lit "gnome-keyring-daemon exited before it took " ++ SECRETS_BUS_NAME ++ lit ": " ++ detail
  | UnanswerablePrompt object waited =>
    lit "the unlock prompt for " ++ object
    ++ lit " cannot be answered: no prompter is running on the private bus, and nothing completed it within "
    ++ secs waited
  | PromptDismissed object => lit "the unlock prompt for " ++ object ++ lit " was dismissed"
  | UnlockOfferedNothing object =>
    lit "gnome-keyring did not unlock " ++ object
    ++ lit " and offered no prompt to unlock it with, so nothing further can be tried"
  | PromptUnlockedNothing object => lit "the unlock prompt for " ++ object ++ lit " completed without unlocking it"
  | GTooMany what count limit =>
    lit "the source offered " ++ dec count ++ lit " " ++ what ++ lit ", over the " ++ dec limit
    ++ lit " this import accepts; refusing rather than reading part of it"
  | GBus call message => call ++ lit " failed: " ++ message
  | GCallTimeout call waited => call ++ lit " did not answer within " ++ secs waited
  | NoSuchCollection container available =>
    lit "this gnome-keyring holds no keyring named '" ++ container ++ lit "'; it holds " ++ available
    ++ lit ". Import names one keyring, so a name that matches none of them would import nothing and report success"
  | AmbiguousCollection container first second =>
    lit "more than one collection is named '" ++ container ++ lit "' (" ++ first ++ lit " and " ++ second
    ++ lit "); refusing to import their union into one destination"
  | NoSession message => lit "could not open a session with gnome-keyring: " ++ message
  | GDecrypt message => lit "could not decrypt a secret off the transport: " ++ message
  end.

(** [Display for SessionError] and [DhError]. *)
Definition session_error_text (e : SessionError) : str :=
  match e with
  | BadIv n => lit "bad IV length " ++ dec n ++ lit ", expected 16"
  | Decrypt => lit "secret decryption failed"
  | Dh InvalidPeerKey => lit "invalid peer public key"
  | Dh HkdfError => lit "hkdf expansion failed"
  end.

Definition BUS_CALL_TIMEOUT : Z := 20.
Definition PROMPT_TIMEOUT : Z := 10.
Definition SECRETS_FALLBACK_TIMEOUT : Z := 120.
Definition MAX_COLLECTIONS : nat := 512.
Definition MAX_ITEMS_PER_COLLECTION : Z := 100000.
Definition GNOME_SECRET_BYTES : Z := Z.shiftl 256 20.
Definition NO_PROMPT : str := lit "/".
Definition SESSION_COLLECTION : str := lit "session".

(** ** The provider *)

Inductive request : Type :=
| QProxy (call path : str)
| QOpenSession (algorithm : str)
| QCollections
| QProperty (call path : str)
| QUnlock (path : str)
| QSubscribe (prompt : str)
| QPrompt (prompt : str)
| QWait (prompt : str)
| QDismiss (prompt : str)
| QGetSecrets (paths : list str)
| QGetSecret (path : str)
| QClose (session : str).

(** The requests so far, newest first. *)
Abbreviation log := (list request).

(** A bus error: the name of a method error, if it is one, and its text. *)
Record bus_fault : Type := { bf_name : option str; bf_text : str }.

Inductive reply (A : Type) : Type := Answer (a : A) | Fails (e : bus_fault) | Silent.
#[global] Arguments Answer {A} a.
#[global] Arguments Fails {A} e.
#[global] Arguments Silent {A}.

(** [(oayays)]; the session path is not read. *)
Record SecretStruct : Type := { parameters : bytes; value : bytes; s_content_type : str }.

(** What [Completed] carried: whether it was dismissed, and the unlocked
    paths or why the result is no list of paths. *)
Record completion : Type := { sg_dismissed : bool; sg_result : result (list str) str }.

(** The log ends with the request being answered. *)
Record Provider : Type := {
  ans_proxy : log -> result unit str;
  ans_open : log -> reply (result bytes str * str);
  ans_paths : log -> reply (list str);
  ans_text : log -> reply str;
  ans_flag : log -> reply bool;
  ans_time : log -> reply Z;
  ans_attributes : log -> reply (gmap str str);
  ans_unlock : log -> reply (list str * str);
  ans_unit : log -> reply unit;
  ans_signal : log -> option (result completion str);
  ans_secrets : log -> reply (gmap str SecretStruct);
  ans_secret : log -> reply SecretStruct;
  expired : log -> bool (** the deadline of the fallback *)
}.

Section walk.
Context `{SessionPrims}.
Context (P : Provider).

Abbreviation asks A := (log -> result A GnomeError * log).

Definition of_reply {A} (name : str) (r : reply A) : result A GnomeError :=
  match r with
  | Answer a => Ok a
  | Fails e => Err (GBus name (bf_text e))
  | Silent => Err (GCallTimeout name BUS_CALL_TIMEOUT)
  end.

(** [call], and [proxy_at]. *)
Definition call {A} (name : str) (q : request) (f : log -> reply A) : asks A := fun lg =>
  let lg := q :: lg in (of_reply name (f lg), lg).

Definition proxy_at (name path : str) : asks unit := fun lg =>
  let lg := QProxy name path :: lg in (map_err (GBus name) (ans_proxy P lg), lg).

(** A property of the object at [path]. *)
Definition property {A} (name path : str) (f : log -> reply A) : asks A := call name (QProperty name path) f.

(** ** Sessions and prompts *)

(** [pair] is the one [KeyPair::generate] made. *)
Definition open_session (pair : KeyPair) (prefer_dh : bool) : asks (str * SessionCipher * option str) := fun lg =>
  let plain (why : str) (lg : log) :=
    do? r, lg <- call (lit "Service.OpenSession(plain)") (QOpenSession ALGORITHM_PLAIN) (ans_open P) lg;
    (Ok (r.2, Plain, Some why), lg) in
  if prefer_dh then
    let lg := QOpenSession ALGORITHM_DH :: lg in
    match ans_open P lg with
    | Silent => (Err (GCallTimeout (lit "Service.OpenSession(dh)") BUS_CALL_TIMEOUT), lg)
    | Answer (output, path) =>
      (match output with
       | Err e => Err (NoSession (lit "bad DH reply: " ++ e))
       | Ok peer =>
         match from_dh pair peer with
         | Err e => Err (NoSession (session_error_text e))
         | Ok cipher => Ok (path, cipher, None)
         end
       end, lg)
    | Fails e => plain (lit "the source refused " ++ ALGORITHM_DH ++ lit ": " ++ error_text (bf_text e)) lg
    end
  else plain (lit "the caller asked for plain") lg.

Definition await_prompt (prompt : str) (timeout : Z) : asks (result (list str) str) := fun lg =>
  do? _, lg <- proxy_at (lit "Prompt") prompt lg;
  do? _, lg <- call (lit "Prompt.Completed subscribe") (QSubscribe prompt) (ans_unit P) lg;
  do? _, lg <- call (lit "Prompt.Prompt") (QPrompt prompt) (ans_unit P) lg;
  let lg := QWait prompt :: lg in
  match ans_signal P lg with
  | None => (Err (UnanswerablePrompt prompt timeout), QDismiss prompt :: lg)
  | Some (Err e) => (Err (GBus (lit "Prompt.Completed") e), lg)
  | Some (Ok s) =>
    (if sg_dismissed s then Err (PromptDismissed prompt) else Ok (sg_result s), lg)
  end.

Definition unlock_source (path : str) (prompt_timeout : Z) : asks unit := fun lg =>
  do? r, lg <- call (lit "Service.Unlock") (QUnlock path) (ans_unlock P) lg;
  let '(unlocked, prompt) := r in
  if bool_decide (path ∈ unlocked) then (Ok tt, lg)
  else if str_eqb prompt NO_PROMPT then (Err (UnlockOfferedNothing path), lg)
  else
    do? res, lg <- await_prompt prompt prompt_timeout lg;
    match res with
    | Err e => (Err (GBus (lit "Prompt.Completed") e), lg)
    | Ok unlocked =>
      (if bool_decide (path ∈ unlocked) then Ok tt else Err (PromptUnlockedNothing path), lg)
    end.

(** ** Items *)

Definition is_session_collection (path : str) : bool := str_eqb (last_piece 47 path) SESSION_COLLECTION.

Definition path_item_id (path : str) : Z := default 0 (parse_u32 (last_piece 47 path)).

Inductive ItemType : Type := TypeKnown (t : str) | TypeUnsupported | TypeUnreadable.

Definition type_known (t : ItemType) : option str := match t with TypeKnown t => Some t | _ => None end.

Definition ends_with (x s : str) : bool := if strip_suffix x s then true else false.

(** [ItemType::classify]. *)
Definition type_classify (r : reply str) : ItemType :=
  match r with
  | Answer t => TypeKnown t
  | Fails {| bf_name := Some name |} =>
    if ends_with (lit ".UnknownProperty") name || ends_with (lit ".InvalidArgs") name then TypeUnsupported
    else TypeUnreadable
  | Fails _ | Silent => TypeUnreadable
  end.

Record ItemMetadata : Type := {
  md_label : str; md_attributes : gmap str str; md_created : Z; md_modified : Z; md_type : ItemType;
  md_provenance : Provenance }.

Definition unreadable_item_label (path : str) : str := lit "item " ++ dec (path_item_id path).

Definition read_type (path : str) (lg : log) : ItemType * log :=
  let '(r, lg) := proxy_at (lit "Item.Type") path lg in
  match r with
  | Err _ => (TypeUnreadable, lg)
  | Ok _ => let lg := QProperty (lit "Item.Type") path :: lg in (type_classify (ans_text P lg), lg)
  end.

(** What is known about an item, or the report that refuses it. *)
Definition read_metadata (path container : str) : asks (result ItemMetadata ItemReport) := fun lg =>
  do? _, lg <- proxy_at (lit "Item") path lg;
  let provenance := provenance_gnome container (path_item_id path) in
  let refused_as (label : str) : result ItemMetadata ItemReport :=
    Err (refused_report provenance label UnreadableAttributes) in
  let '(r, lg) := property (lit "Item.Label") path (ans_text P) lg in
  match r with
  | Err _ => (Ok (refused_as (unreadable_item_label path)), lg)
  | Ok label =>
    let '(r, lg) := property (lit "Item.Attributes") path (ans_attributes P) lg in
    match r with
    | Err _ => (Ok (refused_as label), lg)
    | Ok attributes =>
      let '(item_type, lg) := read_type path lg in
      let '(r, lg) := property (lit "Item.Created") path (ans_time P) lg in
      match r with
      | Err _ => (Ok (refused_as label), lg)
      | Ok created =>
        let '(r, lg) := property (lit "Item.Modified") path (ans_time P) lg in
        match r with
        | Err _ => (Ok (refused_as label), lg)
        | Ok modified =>
          (Ok (Ok {| md_label := label; md_attributes := attributes; md_created := created;
                     md_modified := modified; md_type := item_type; md_provenance := provenance |}), lg)
        end
      end
    end
  end.

Record ExtractedItem : Type := { xi_item : SourceItem; xi_type : option str }.

(** [ExtractedItem::report]. *)
Definition gnome_report (e : ExtractedItem) : ItemReport :=
  let r := report_imported (xi_item e) in
  let with_types (lost : option Z) (unknown : option str) : ItemReport := {|
    ir_provenance := ir_provenance r; ir_label := ir_label r; attribute_keys := attribute_keys r;
    ir_content_type := ir_content_type r; outcome := outcome r; refusals := refusals r; secret_len := secret_len r;
    lost_item_type := lost; unknown_item_type := unknown; acl_downgrade := true; epoch_stamped := epoch_stamped r |} in
  match xi_type e with
  | Some t =>
    if str_eqb t TYPE_GENERIC then with_types None None
    else match item_type_code t with
         | Some code => with_types (Some code) None
         | None => with_types None (Some (display_label t))
         end
  | None => with_types None None
  end.

Record GnomeSkipped : Type := { gs_label : str; gs_reason : str }.

(** ** Secrets *)

(** The lists the walk fills and the bytes it has decrypted. *)
Record carried : Type := {
  c_items : list ExtractedItem; c_refused : list ItemReport; c_skipped : list GnomeSkipped; c_bytes : Z }.

Definition carry (c : carried) (e : ExtractedItem) : carried :=
  {| c_items := c_items c ++ [e]; c_refused := c_refused c; c_skipped := c_skipped c; c_bytes := c_bytes c |}.
Definition carry_refused (c : carried) (r : ItemReport) : carried :=
  {| c_items := c_items c; c_refused := c_refused c ++ [r]; c_skipped := c_skipped c; c_bytes := c_bytes c |}.
Definition carry_skipped (c : carried) (label : str) (e : GnomeError) : carried :=
  {| c_items := c_items c; c_refused := c_refused c;
     c_skipped := c_skipped c ++ [{| gs_label := display_label label; gs_reason := error_text (gnome_error_text e) |}];
     c_bytes := c_bytes c |}.
Definition count_bytes (c : carried) (n : Z) : carried :=
  {| c_items := c_items c; c_refused := c_refused c; c_skipped := c_skipped c; c_bytes := n |}.

Definition cipher_decrypt (cipher : SessionCipher) (s : SecretStruct) : result bytes GnomeError :=
  map_err (fun e => GDecrypt (session_error_text e)) (decrypt cipher (parameters s) (value s)).

(** One secret outside the batch; [None] when the deadline passed first. *)
Definition get_one (path : str) (batch_failure : option str) (lg : log) : option (result SecretStruct GnomeError) * log :=
  let '(r, lg) := proxy_at (lit "Item") path lg in
  if expired P lg then (None, lg)
  else match r with
  | Err e => (Some (Err e), lg)
  | Ok _ =>
    let '(r, lg) := call (lit "Item.GetSecret") (QGetSecret path) (ans_secret P) lg in
    if expired P lg then (None, lg)
    else (Some (map_err (fun e =>
            match batch_failure with
            | Some cause =>
              GBus (lit "Item.GetSecret") (gnome_error_text e ++ lit " (the batch had already failed: " ++ cause ++ lit ")")
            | None => e
            end) r), lg)
  end.

Definition source_of (meta : ItemMetadata) (secret : bytes) (content_type : str) : SourceItem := {|
  si_label := md_label meta; si_attributes := md_attributes meta; si_secret := secret;
  si_content_type := content_type; si_created := md_created meta; si_modified := md_modified meta;
  si_provenance := md_provenance meta; inserted_keys := ∅ |}.

(** One secret that arrived: carried, refused for its size, or an error; and
    whether it is accounted for. *)
Definition take_secret (cipher : SessionCipher) (meta : ItemMetadata) (s : SecretStruct) (c : carried)
  : result (carried * option GnomeError) GnomeError :=
  match cipher_decrypt cipher s with
  | Err e => Ok (carry_skipped c (md_label meta) e, Some e)
  | Ok plaintext =>
    let total := Z.min (c_bytes c + zlen plaintext) u64_max in
    let c := count_bytes c total in
    if GNOME_SECRET_BYTES <? total
    then Err (GTooMany (lit "secret bytes in this import") total GNOME_SECRET_BYTES)
    else
      let i := source_of meta plaintext (s_content_type s) in
      Ok (match cap_violation i with
          | Some r => carry_refused c (refused_report (si_provenance i) (si_label i) r)
          | None => carry c {| xi_item := i; xi_type := type_known (md_type meta) |}
          end, None)
  end.

(** [drain_batch].  [late] is the error of a deadline that passes, [ok] counts
    what was carried or refused. *)
Fixpoint drain_batch (cipher : SessionCipher) (batch_failure : option str) (late : GnomeError)
    (candidates : list (str * ItemMetadata)) (batch : gmap str SecretStruct) (ok : nat) (first : option GnomeError)
    (c : carried) (lg : log) : result carried GnomeError * log :=
  match candidates with
  | [] =>
    (match first with
     | Some e => if (ok =? 0)%nat then Err e else Ok c
     | None => Ok c
     end, lg)
  | (path, meta) :: rest =>
    let '(fetched, lg) :=
      match batch !! path with
      | Some s => (Some (Ok s), lg)
      | None => get_one path batch_failure lg
      end in
    let batch := delete path batch in
    match fetched with
    | None => (Err late, lg)
    | Some (Err e) =>
      drain_batch cipher batch_failure late rest batch ok (or_else first (Some e)) (carry_skipped c (md_label meta) e) lg
    | Some (Ok s) =>
      match take_secret cipher meta s c with
      | Err e => (Err e, lg)
      | Ok (c, Some e) => drain_batch cipher batch_failure late rest batch ok (or_else first (Some e)) c lg
      | Ok (c, None) => drain_batch cipher batch_failure late rest batch (S ok) first c lg
      end
    end
  end.

Definition fetch_secrets (cipher : SessionCipher) (candidates : list (str * ItemMetadata)) (c : carried)
  : asks carried := fun lg =>
  match candidates with
  | [] => (Ok c, lg)
  | _ =>
    let lg := QGetSecrets (map fst candidates) :: lg in
    let '(batch, failure) :=
      match ans_secrets P lg with
      | Answer batch => (batch, None)
      | Fails e => (∅, Some (lit "Service.GetSecrets failed: " ++ error_text (bf_text e)))
      | Silent => (∅, Some (lit "Service.GetSecrets did not answer within " ++ secs BUS_CALL_TIMEOUT))
      end in
    let late := GCallTimeout (match failure with
                              | Some cause => lit "Item.GetSecret for the whole batch (after " ++ cause ++ lit ")"
                              | None => lit "Item.GetSecret for the items the batch left out"
                              end) SECRETS_FALLBACK_TIMEOUT in
    drain_batch cipher failure late candidates batch 0 None c lg
  end.

(** ** The walk *)

Record CollectionSummary : Type := {
  cs_path : str; cs_label : str; cs_locked : bool; cs_created : Z; cs_modified : Z;
  cs_item_count : option nat; unanswerable_prompt : bool }.

Record ExtractOptions : Type := { prompt_timeout : Z; prefer_dh : bool; only_container : option str }.

(** [Default for ExtractOptions]. *)
Definition extract_options_default : ExtractOptions :=
  {| prompt_timeout := PROMPT_TIMEOUT; prefer_dh := true; only_container := None |}.

(** The locals of the walk. *)
Record gwalk : Type := {
  gw_carried : carried; gw_collections : list CollectionSummary; saw_type : bool; saw_item : bool;
  seen_containers : list str; matched_paths : list str }.

Definition gwalk_start : gwalk := {|
  gw_carried := {| c_items := []; c_refused := []; c_skipped := []; c_bytes := 0 |};
  gw_collections := []; saw_type := false; saw_item := false; seen_containers := []; matched_paths := [] |}.

(** The first pass over a collection's items: what each is, and which secrets
    may be asked for. *)
Fixpoint read_items (container : str) (paths : list str) (candidates : list (str * ItemMetadata)) (st : gwalk)
  : asks (list (str * ItemMetadata) * gwalk) := fun lg =>
  let refuse (st : gwalk) (r : ItemReport) : gwalk := {|
    gw_carried := carry_refused (gw_carried st) r; gw_collections := gw_collections st; saw_type := saw_type st;
    saw_item := saw_item st; seen_containers := seen_containers st; matched_paths := matched_paths st |} in
  let saw (st : gwalk) (typed : bool) : gwalk := {|
    gw_carried := gw_carried st; gw_collections := gw_collections st; saw_type := saw_type st || typed;
    saw_item := true; seen_containers := seen_containers st; matched_paths := matched_paths st |} in
  match paths with
  | [] => (Ok (candidates, st), lg)
  | path :: paths =>
    do? r, lg <- read_metadata path container lg;
    match r with
    | Err report => read_items container paths candidates (refuse st report) lg
    | Ok meta =>
      match md_type meta with
      | TypeKnown t =>
        let st := saw st true in
        if is_unlock_credential_type t
        then
          let code := default ITEM_TYPE_CHAINED_KEYRING_PASSWORD (item_type_code t) in
          read_items container paths candidates
            (refuse st (refused_report (md_provenance meta) (md_label meta) (ChainedKeyringItem code))) lg
        else read_items container paths (candidates ++ [(path, meta)]) st lg
      | TypeUnsupported => read_items container paths (candidates ++ [(path, meta)]) (saw st false) lg
      | TypeUnreadable =>
        read_items container paths candidates
          (refuse (saw st false) (refused_report (md_provenance meta) (md_label meta) UnreadableItemType)) lg
      end
    end
  end.

Definition push_summary (st : gwalk) (s : CollectionSummary) : gwalk := {|
  gw_carried := gw_carried st; gw_collections := gw_collections st ++ [s]; saw_type := saw_type st;
  saw_item := saw_item st; seen_containers := seen_containers st; matched_paths := matched_paths st |}.
Definition push_container (st : gwalk) (c : str) : gwalk := {|
  gw_carried := gw_carried st; gw_collections := gw_collections st; saw_type := saw_type st;
  saw_item := saw_item st; seen_containers := seen_containers st ++ [c]; matched_paths := matched_paths st |}.
Definition push_matched (st : gwalk) (p : str) : gwalk := {|
  gw_carried := gw_carried st; gw_collections := gw_collections st; saw_type := saw_type st;
  saw_item := saw_item st; seen_containers := seen_containers st; matched_paths := matched_paths st ++ [p] |}.
Definition with_carried (st : gwalk) (c : carried) : gwalk := {|
  gw_carried := c; gw_collections := gw_collections st; saw_type := saw_type st;
  saw_item := saw_item st; seen_containers := seen_containers st; matched_paths := matched_paths st |}.

(** Unlocking failures the walk survives. *)
Definition survivable (e : GnomeError) : bool :=
  match e with
  | UnanswerablePrompt _ _ | PromptDismissed _ | UnlockOfferedNothing _ | PromptUnlockedNothing _ => true
  | _ => false
  end.

(** The items of a collection that is open. *)
Definition read_collection (cipher : SessionCipher) (path container : str) (summary : option nat -> CollectionSummary)
    (st : gwalk) : asks gwalk := fun lg =>
  do? items, lg <- call (lit "Collection.Items") (QProperty (lit "Collection.Items") path) (ans_paths P) lg;
  if MAX_ITEMS_PER_COLLECTION <? zlen items
  then (Err (GTooMany (lit "items in one collection") (zlen items) MAX_ITEMS_PER_COLLECTION), lg)
  else
    let st := push_summary st (summary (Some (length items))) in
    do? r, lg <- read_items container items [] st lg;
    let '(candidates, st) := r in
    do? c, lg <- fetch_secrets cipher candidates (gw_carried st) lg;
    (Ok (with_carried st c), lg).

(** A collection that is to be walked: unlock it if need be, and read it. *)
Definition visit_matched (options : ExtractOptions) (cipher : SessionCipher) (path label container : str) (st : gwalk)
  : asks gwalk := fun lg =>
  do? locked, lg <- property (lit "Collection.Locked") path (ans_flag P) lg;
  do? created, lg <- property (lit "Collection.Created") path (ans_time P) lg;
  do? modified, lg <- property (lit "Collection.Modified") path (ans_time P) lg;
  let summary (locked unanswerable : bool) (n : option nat) : CollectionSummary := {|
    cs_path := path; cs_label := label; cs_locked := locked; cs_created := created; cs_modified := modified;
    cs_item_count := n; unanswerable_prompt := unanswerable |} in
  if locked then
    match unlock_source path (prompt_timeout options) lg with
    | (Ok _, lg) => read_collection cipher path container (summary false false) st lg
    | (Err e, lg) =>
      if survivable e then (Ok (push_summary st (summary true true None)), lg) else (Err e, lg)
    end
  else read_collection cipher path container (summary false false) st lg.

(** The walk was told to import another container. *)
Definition filtered_out (options : ExtractOptions) (container : str) : bool :=
  match only_container options with Some only => negb (str_eqb only container) | None => false end.

(** A collection of the service. *)
Definition visit (options : ExtractOptions) (cipher : SessionCipher) (path : str) (st : gwalk) : asks gwalk := fun lg =>
  if is_session_collection path then (Ok st, lg)
  else
    do? _, lg <- proxy_at (lit "Collection") path lg;
    do? label, lg <- property (lit "Collection.Label") path (ans_text P) lg;
    let container := match label with [] => last_piece 47 path | _ => label end in
    let st := push_container st container in
    if filtered_out options container then (Ok st, lg)
    else match only_container options, matched_paths st with
    | None, _ => visit_matched options cipher path label container st lg
    | Some _, [] => visit_matched options cipher path label container (push_matched st path) lg
    | Some _, first :: _ =>
      (Err (AmbiguousCollection (display_label container) (error_text first) (error_text path)), lg)
    end.

Fixpoint visit_all (options : ExtractOptions) (cipher : SessionCipher) (paths : list str) (st : gwalk) : asks gwalk :=
  fun lg =>
  match paths with
  | [] => (Ok st, lg)
  | path :: paths => do? st, lg <- visit options cipher path st lg; visit_all options cipher paths st lg
  end.

Record GnomeExtraction : Type := {
  gx_items : list ExtractedItem; gx_refused : list ItemReport; gx_skipped : list GnomeSkipped;
  gx_collections : list CollectionSummary; plain_fallback_reason : option str; item_type_unavailable : bool }.

Definition available_text (seen : list str) : str :=
  match seen with
  | [] => lit "none"
  | _ => join (lit ", ") (map (fun c => 39 :: display_label c ++ [39]) seen)
  end.

(** The block whose errors are returned only after the session is closed. *)
Definition walk_service (options : ExtractOptions) (cipher : SessionCipher) (plain : option str)
  : asks GnomeExtraction := fun lg =>
  do? collections, lg <- call (lit "Service.Collections") QCollections (ans_paths P) lg;
  if (MAX_COLLECTIONS <? length collections)%nat
  then (Err (GTooMany (lit "collections") (zlen collections) (Z.of_nat MAX_COLLECTIONS)), lg)
  else
    do? st, lg <- visit_all options cipher collections gwalk_start lg;
    let out := {|
      gx_items := c_items (gw_carried st); gx_refused := c_refused (gw_carried st);
      gx_skipped := c_skipped (gw_carried st); gx_collections := gw_collections st;
      plain_fallback_reason := plain; item_type_unavailable := saw_item st && negb (saw_type st) |} in
    match only_container options with
    | Some only =>
      if bool_decide (only ∈ seen_containers st) then (Ok out, lg)
      else (Err (NoSuchCollection (display_label only) (available_text (seen_containers st))), lg)
    | None => (Ok out, lg)
    end.

(** [Session.Close], whose answer nobody waits for beyond its timeout. *)
Definition close_session (session : str) (lg : log) : log :=
  match proxy_at (lit "Session") session lg with
  | (Ok _, lg) => QClose session :: lg
  | (Err _, lg) => lg
  end.

Definition extract (options : ExtractOptions) (pair : KeyPair) : asks GnomeExtraction := fun lg =>
  do? _, lg <- proxy_at (lit "Service") [] lg;
  do? s, lg <- open_session pair (prefer_dh options) lg;
  let '(session, cipher, plain) := s in
  let '(walked, lg) := walk_service options cipher plain lg in
  (walked, close_session session lg).
End walk.

(** [Extraction::unanswerable_collections] and [Extraction::containers]. *)
Definition unanswerable_collections (x : GnomeExtraction) : list CollectionSummary :=
  List.filter unanswerable_prompt (gx_collections x).

Definition containers (x : GnomeExtraction) : list str :=
  fold_left (fun out c => if bool_decide (c ∈ out) then out else out ++ [c])
            (map (fun e => container (si_provenance (xi_item e))) (gx_items x)) [].
