(* ===== verification/GnomeProps.v ===== *)
(** * What a walk over a gnome-keyring promises ([src/import/gnome.rs])

    Against any provider: every listed item is accounted for once; the secret
    of an unlock credential, or of an item whose type could not be read, is
    never asked for; what is carried is within the caps, the byte budget and
    the one container asked for; and the session is closed on every path. *)
From S2P Require Import Prelude Text Sanitize Env Files Crypto Format Import Formats KWallet Session Gnome.

Section gnome.
Context `{SP : SessionPrims} (P : Provider).

(** ** Accounting *)

Definition accounted_for (c : carried) : nat :=
  (length (c_items c) + length (c_refused c) + length (c_skipped c))%nat.

Definition listed_items (l : list CollectionSummary) : nat := sum_list (map (fun s => default 0%nat (cs_item_count s)) l).

#[local] Arguments accounted_for : simpl never.
#[local] Arguments listed_items : simpl never.

Lemma take_secret_accounts cipher meta s c c' f : take_secret cipher meta s c = Ok (c', f) ->
  accounted_for c' = S (accounted_for c).
Proof.
  unfold take_secret, accounted_for. destruct (cipher_decrypt cipher s) as [pt|e].
  - destruct (_ <? _); [done|]. intros [= <- <-]. destruct (cap_violation _); cbn; rewrite length_app; cbn; lia.
  - intros [= <- <-]. cbn. rewrite length_app. cbn. lia.
Qed.

Lemma carry_skipped_accounts c l e : accounted_for (carry_skipped c l e) = S (accounted_for c).
Proof. unfold accounted_for. cbn. rewrite length_app. cbn. lia. Qed.

Lemma drain_accounts cipher bf late cands batch ok first c lg c' lg' :
  drain_batch P cipher bf late cands batch ok first c lg = (Ok c', lg') ->
  accounted_for c' = (accounted_for c + length cands)%nat.
Proof.
  revert batch ok first c lg. induction cands as [|[path meta] cands IH]; intros batch ok first c lg; cbn [drain_batch length].
  - destruct first as [e|]; [destruct (ok =? 0)%nat; [done|]|]; intros [= <- _]; lia.
  - destruct (match batch !! path with Some s => _ | None => _ end) as [[[s|e]|] lg1]; [| |done].
    + destruct (take_secret cipher meta s c) as [[c1 [e|]]|e] eqn:E; [| |done];
        intros Hd%IH; rewrite Hd, (take_secret_accounts _ _ _ _ _ _ E); lia.
    + intros Hd%IH. rewrite Hd, carry_skipped_accounts. lia.
Qed.

Lemma fetch_accounts cipher cands c lg c' lg' : fetch_secrets P cipher cands c lg = (Ok c', lg') ->
  accounted_for c' = (accounted_for c + length cands)%nat.
Proof.
  unfold fetch_secrets. destruct cands as [|x cands]; [intros [= <- _]; cbn; lia|].
  destruct (match ans_secrets P _ with Answer b => _ | Fails e => _ | Silent => _ end) as [batch failure].
  apply drain_accounts.
Qed.

Lemma read_items_accounts container paths cands st lg cands' st' lg' :
  read_items P container paths cands st lg = (Ok (cands', st'), lg') ->
  (accounted_for (gw_carried st') + length cands' = accounted_for (gw_carried st) + length cands + length paths)%nat
  /\ gw_collections st' = gw_collections st.
Proof.
  revert cands st lg. induction paths as [|path paths IH]; intros cands st lg; cbn [read_items length].
  - intros [= <- <- _]. split; [lia|done].
  - destruct (read_metadata P path container lg) as [[[meta|r]|e] lg1]; [| |done].
    + destruct (md_type meta) as [t| |]; [destruct (is_unlock_credential_type t)|..]; intros [Ha Hc]%IH; cbn in Hc;
        (split; [|done]); unfold accounted_for in *; cbn in Ha; rewrite ?length_app in Ha; cbn in Ha; lia.
    + intros [Ha Hc]%IH. cbn in Hc. split; [|done]. unfold accounted_for in *. cbn in Ha. rewrite length_app in Ha. cbn in Ha. lia.
Qed.

(** What has been listed is what has been accounted for. *)
Definition balanced (st : gwalk) : Prop :=
  accounted_for (gw_carried st) = listed_items (gw_collections st)
  /\ Forall (fun s => Z.of_nat (default 0%nat (cs_item_count s)) <= MAX_ITEMS_PER_COLLECTION) (gw_collections st).

Lemma listed_items_snoc l s : listed_items (l ++ [s]) = (listed_items l + default 0 (cs_item_count s))%nat.
Proof. unfold listed_items. rewrite map_app. induction l as [|x l IH]; cbn in *; lia. Qed.

Lemma read_collection_balanced cipher path container summary st lg st' lg' :
  (forall n, cs_item_count (summary n) = n) ->
  read_collection P cipher path container summary st lg = (Ok st', lg') -> balanced st -> balanced st'.
Proof.
  intros Hs. unfold read_collection, balanced. destruct (call _ _ _ lg) as [[items|e] lg1]; [|done].
  destruct (_ <? _) eqn:Eb; [done|]. apply Z.ltb_ge in Eb.
  destruct (read_items _ _ _ _ _ _) as [[[cands st1]|e] lg2] eqn:Er; [|done].
  apply read_items_accounts in Er as [Ha Hc].
  destruct (fetch_secrets _ _ _ _ _) as [[c|e] lg3] eqn:Ef; [|done]. apply fetch_accounts in Ef.
  intros [= <- _] [Hb Hf]. cbn in *. rewrite Hc. cbn. rewrite listed_items_snoc, Hs. cbn. split; [lia|].
  apply Forall_app. split; [done|]. apply Forall_singleton. by rewrite Hs.
Qed.

Lemma visit_balanced options cipher path st lg st' lg' :
  visit P options cipher path st lg = (Ok st', lg') -> balanced st -> balanced st'.
Proof.
  unfold visit. destruct (is_session_collection path); [by intros [= <- _]|].
  destruct (proxy_at _ _ _ lg) as [[[]|e] lg1]; [|done]. destruct (property _ _ _ lg1) as [[label|e] lg2]; [|done].
  destruct (filtered_out _ _); [by intros [= <- _]|].
  assert (Hm : forall st lg st' lg', visit_matched P options cipher path label
            (match label with [] => last_piece 47 path | _ => label end) st lg = (Ok st', lg') -> balanced st -> balanced st').
  { clear. intros st lg st' lg'. unfold visit_matched.
    destruct (property _ _ (ans_flag P) lg) as [[locked|e] lg1]; [|done].
    destruct (property _ _ (ans_time P) lg1) as [[created|e] lg2]; [|done].
    destruct (property _ _ (ans_time P) lg2) as [[modified|e] lg3]; [|done].
    destruct locked; [|by apply read_collection_balanced].
    destruct (unlock_source _ _ _ lg3) as [[[]|e] lg4]; [by apply read_collection_balanced|].
    destruct (survivable e); [|done]. intros [= <- _] [Hb Hf]. unfold balanced. cbn. rewrite listed_items_snoc. cbn. split; [lia|].
    apply Forall_app. split; [done|]. by apply Forall_singleton. }
  destruct (only_container options); [destruct (matched_paths _)|]; [|done|]; intros Hv Hb; by eapply Hm; [exact Hv|].
Qed.

Lemma visit_all_balanced options cipher paths st lg st' lg' :
  visit_all P options cipher paths st lg = (Ok st', lg') -> balanced st -> balanced st'.
Proof.
  revert st lg. induction paths as [|path paths IH]; intros st lg; cbn [visit_all]; [by intros [= <- _]|].
  destruct (visit _ _ _ _ _ _) as [[st1|e] lg1] eqn:E; [|done]. intros Hv Hb. by eapply IH, visit_balanced.
Qed.

(** ** What is asked for *)

Definition asks_secret (q : request) : bool := match q with QGetSecrets _ | QGetSecret _ => true | _ => false end.

(** The item at [path] said, at some point, that it is no unlock credential. *)
Definition admitted (t : ItemType) : bool :=
  match t with TypeKnown t => negb (is_unlock_credential_type t) | TypeUnsupported => true | TypeUnreadable => false end.

Definition vetted (lg : log) (path : str) : Prop :=
  exists lg', (QProperty (lit "Item.Type") path :: lg') `suffix_of` lg
    /\ admitted (type_classify (ans_text P (QProperty (lit "Item.Type") path :: lg'))) = true.

Fixpoint careful (lg : log) : Prop :=
  match lg with
  | [] => True
  | q :: lg =>
    match q with QGetSecrets ps => Forall (vetted lg) ps | QGetSecret p => vetted lg p | _ => True end /\ careful lg
  end.

(** [lg'] extends [lg] by requests for no secret. *)
Definition no_secret (lg lg' : log) : Prop := exists qs, lg' = qs ++ lg /\ Forall (fun q => asks_secret q = false) qs.

#[local] Instance no_secret_preorder : PreOrder no_secret.
Proof.
  split; [intros lg; by exists []|]. intros x y z (q1 & -> & H1) (q2 & -> & H2). exists (q2 ++ q1). split; [by rewrite app_assoc|].
  by apply Forall_app.
Qed.

Lemma no_secret_cons q lg : asks_secret q = false -> no_secret lg (q :: lg).
Proof. intros Hq. exists [q]. split; [done|]. by repeat constructor. Qed.

Lemma no_secret_careful lg lg' : no_secret lg lg' -> careful lg -> careful lg'.
Proof. intros (qs & -> & Hq) Hc. induction Hq as [|q qs Hq _ IH]; [done|]. cbn. split; [by destruct q|done]. Qed.

Lemma vetted_suffix lg lg' p : lg `suffix_of` lg' -> vetted lg p -> vetted lg' p.
Proof. intros Hs (l & Hl & Ha). exists l. split; [by etrans|done]. Qed.

Lemma vetted_cons q lg p : vetted lg p -> vetted (q :: lg) p.
Proof. apply vetted_suffix. by exists [q]. Qed.

Lemma no_secret_suffix lg lg' : no_secret lg lg' -> lg `suffix_of` lg'.
Proof. intros (qs & -> & _). by exists qs. Qed.

(** A log that only grew by such requests. *)
Ltac solve_no_secret := repeat first [reflexivity | (etrans; [|apply no_secret_cons; reflexivity])].

Ltac ask_cases :=
  repeat match goal with
  | H : context [match ?x with _ => _ end] |- _ => destruct x eqn:?; try discriminate H
  end.

Lemma open_session_quiet pair prefer lg r lg' : open_session P pair prefer lg = (r, lg') -> no_secret lg lg'.
Proof.
  unfold open_session, call. intros E. ask_cases; simplify_eq; solve_no_secret.
Qed.

Lemma unlock_quiet path timeout lg r lg' : unlock_source P path timeout lg = (r, lg') -> no_secret lg lg'.
Proof.
  unfold unlock_source, await_prompt, proxy_at, call. intros E. ask_cases; simplify_eq; solve_no_secret.
Qed.

Lemma read_metadata_quiet path container lg r lg' : read_metadata P path container lg = (r, lg') ->
  no_secret lg lg' /\ forall meta, r = Ok (Ok meta) -> admitted (md_type meta) = true -> vetted lg' path.
Proof.
  unfold read_metadata, read_type, property, proxy_at, call. intros E. ask_cases; simplify_eq; (split; [solve_no_secret|]);
    intros meta [= <-] Ha; [|done].
  eexists. split; [|exact Ha]. cbn. eexists [_; _]. reflexivity.
Qed.

Lemma get_one_careful path bf lg r lg' : get_one P path bf lg = (r, lg') ->
  lg `suffix_of` lg' /\ (vetted lg path -> careful lg -> careful lg').
Proof.
  unfold get_one, proxy_at, call. intros E. ask_cases; simplify_eq;
    (split; [repeat first [reflexivity | apply suffix_cons_r]|]); intros Hv Hc; cbn; try done.
  all: repeat split; try done; by apply vetted_cons.
Qed.

Lemma drain_careful cipher bf late cands batch ok first c lg r lg' :
  drain_batch P cipher bf late cands batch ok first c lg = (r, lg') ->
  Forall (vetted lg) (map fst cands) -> careful lg -> careful lg'.
Proof.
  revert batch ok first c lg. induction cands as [|[path meta] cands IH]; intros batch ok first c lg; cbn [drain_batch map].
  - by intros [= _ <-].
  - intros E [Hv Hvs]%Forall_cons Hc.
    destruct (match batch !! path with Some s => _ | None => _ end) as [fetched lg1] eqn:Ef.
    assert (lg `suffix_of` lg1 /\ careful lg1) as [Hs Hc1].
    { destruct (batch !! path); [by injection Ef as _ <-|]. apply get_one_careful in Ef as [? ?]. auto. }
    assert (Forall (vetted lg1) (map fst cands)) as Hvs1 by (eapply Forall_impl; [exact Hvs|]; intros; by eapply vetted_suffix).
    ask_cases; simplify_eq; try done; by eapply IH.
Qed.

Lemma fetch_careful cipher cands c lg r lg' : fetch_secrets P cipher cands c lg = (r, lg') ->
  Forall (vetted lg) (map fst cands) -> careful lg -> careful lg'.
Proof.
  unfold fetch_secrets. destruct cands as [|x cands]; [by intros [= _ <-]|]. intros E Hv Hc.
  destruct (match ans_secrets P _ with Answer b => _ | Fails e => _ | Silent => _ end) as [batch failure].
  eapply drain_careful; [exact E| |by split]. eapply Forall_impl; [exact Hv|]. intros; by apply vetted_cons.
Qed.

Lemma read_items_careful container paths cands st lg r lg' :
  read_items P container paths cands st lg = (r, lg') -> Forall (vetted lg) (map fst cands) -> careful lg ->
  careful lg' /\ forall cands' st', r = Ok (cands', st') -> Forall (vetted lg') (map fst cands').
Proof.
  revert cands st lg. induction paths as [|path paths IH]; intros cands st lg; cbn [read_items].
  - intros [= <- <-] Hv Hc. split; [done|]. by intros ? ? [= <- <-].
  - destruct (read_metadata P path container lg) as [rm lg1] eqn:Em. apply read_metadata_quiet in Em as [Hq Ha].
    intros E Hv Hc. assert (careful lg1) as Hc1 by (by eapply no_secret_careful).
    assert (Forall (vetted lg1) (map fst cands)) as Hv1
      by (eapply Forall_impl; [exact Hv|]; intros; by eapply vetted_suffix; [apply no_secret_suffix|]).
    destruct rm as [[meta|rep]|e]; [|by eapply IH in E|by simplify_eq].
    specialize (Ha meta eq_refl). destruct (md_type meta) as [t| |] eqn:Et; cbn in Ha.
    + destruct (is_unlock_credential_type t); [by eapply IH in E|]. eapply IH in E; [done| |done].
      rewrite map_app. apply Forall_app. split; [done|]. by repeat constructor; apply Ha.
    + eapply IH in E; [done| |done]. rewrite map_app. apply Forall_app. split; [done|]. by repeat constructor; apply Ha.
    + by eapply IH in E.
Qed.

Lemma read_collection_careful cipher path container summary st lg r lg' :
  read_collection P cipher path container summary st lg = (r, lg') -> careful lg -> careful lg'.
Proof.
  unfold read_collection. intros E Hc. unfold call at 1 in E. destruct (of_reply _ _) as [items|e]; [|by simplify_eq; split].
  destruct (_ <? _); [by simplify_eq; split|].
  destruct (read_items _ _ _ _ _ _) as [[[cands st1]|e] lg2] eqn:Er; apply read_items_careful in Er as [Hc2 Hv2];
    try done; [|by simplify_eq].
  destruct (fetch_secrets _ _ _ _ _) as [rf lg3] eqn:Ef. apply fetch_careful in Ef; [|by eapply Hv2|done].
  destruct rf; by simplify_eq.
Qed.

Lemma visit_careful options cipher path st lg r lg' :
  visit P options cipher path st lg = (r, lg') -> careful lg -> careful lg'.
Proof.
  assert (Hm : forall label container st lg r lg', visit_matched P options cipher path label container st lg = (r, lg') ->
            careful lg -> careful lg').
  { clear. intros label container st lg r lg'. unfold visit_matched, property, call. intros E Hc.
    repeat (destruct (of_reply _ _); [|by simplify_eq; cbn]). destruct a.
    - destruct (unlock_source _ _ _ _) as [ru lgu] eqn:Eu. apply unlock_quiet in Eu.
      assert (careful lgu) by (eapply no_secret_careful; [exact Eu|by cbn]).
      destruct ru; [by eapply read_collection_careful|]. destruct (survivable e); by simplify_eq.
    - eapply read_collection_careful; [exact E|by cbn]. }
  unfold visit, property, proxy_at, call. intros E Hc. destruct (is_session_collection path); [by simplify_eq|].
  destruct (map_err _ _); [|by simplify_eq; cbn]. destruct (of_reply _ _); [|by simplify_eq; cbn].
  destruct (filtered_out _ _); [by simplify_eq; cbn|].
  destruct (only_container options); [destruct (matched_paths _)|]; try (by simplify_eq; cbn); by eapply Hm; [exact E|cbn].
Qed.

Lemma visit_all_careful options cipher paths st lg r lg' :
  visit_all P options cipher paths st lg = (r, lg') -> careful lg -> careful lg'.
Proof.
  revert st lg. induction paths as [|path paths IH]; intros st lg; cbn [visit_all]; [by intros [= _ <-]|].
  destruct (visit _ _ _ _ _ _) as [[st1|e] lg1] eqn:E; pose proof (visit_careful _ _ _ _ _ _ _ E) as Hv; intros Hr Hc.
  - eapply IH; [exact Hr|by apply Hv].
  - simplify_eq. by apply Hv.
Qed.

(** ** What is carried *)

Definition secret_total (l : list ExtractedItem) : Z := fold_right Z.add 0 (map (fun e => zlen (si_secret (xi_item e))) l).

Lemma secret_total_snoc l e : secret_total (l ++ [e]) = secret_total l + zlen (si_secret (xi_item e)).
Proof. unfold secret_total. induction l; cbn in *; lia. Qed.

(** [only] is the container asked for, if one was. *)
Definition from_container (only : option str) (p : Provenance) : Prop :=
  pv_source p = GnomeKeyring /\ forall c, only = Some c -> container p = c.

Record item_ok (only : option str) (e : ExtractedItem) : Prop := {
  io_caps : cap_violation (xi_item e) = None;
  io_type t : xi_type e = Some t -> is_unlock_credential_type t = false;
  io_from : from_container only (si_provenance (xi_item e));
  io_plain : inserted_keys (xi_item e) = ∅ }.

Record carried_ok (only : option str) (c : carried) : Prop := {
  co_items : Forall (item_ok only) (c_items c);
  co_total : secret_total (c_items c) <= c_bytes c;
  co_budget : 0 <= c_bytes c <= GNOME_SECRET_BYTES }.

Definition meta_ok (only : option str) (m : ItemMetadata) : Prop :=
  admitted (md_type m) = true /\ from_container only (md_provenance m).

#[local] Arguments secret_total : simpl never.

Lemma take_secret_ok only cipher meta s c c' f : meta_ok only meta -> take_secret cipher meta s c = Ok (c', f) ->
  carried_ok only c -> carried_ok only c'.
Proof.
  intros [Hm Hp]. unfold take_secret. destruct (cipher_decrypt cipher s) as [pt|e].
  - destruct (_ <? _) eqn:Eb; [done|]. apply Z.ltb_ge in Eb. intros [= <- <-] [Hi Ht Hb]. pose proof (zlen_nonneg pt) as Hz.
    assert (GNOME_SECRET_BYTES < u64_max) as Hmax by done.
    assert (Z.min (c_bytes c + zlen pt) u64_max = c_bytes c + zlen pt) as Hmin by lia. rewrite Hmin in *.
    destruct (cap_violation _) eqn:Ec; split; cbn [c_items c_bytes carry carry_refused count_bytes];
      rewrite ?secret_total_snoc; cbn [xi_item si_secret source_of]; try done; try lia.
    apply Forall_app. split; [done|]. constructor; [|done]. split; cbn; try done.
    intros t Ht'. destruct (md_type meta); simplify_eq/=. by apply negb_true_iff in Hm.
  - intros [= <- <-] [Hi Ht Hb]. by split.
Qed.

Lemma drain_ok only cipher bf late cands batch ok first c lg c' lg' :
  Forall (fun x => meta_ok only x.2) cands ->
  drain_batch P cipher bf late cands batch ok first c lg = (Ok c', lg') -> carried_ok only c -> carried_ok only c'.
Proof.
  intros Hm. revert batch ok first c lg. induction Hm as [|[path meta] cands Hx _ IH]; intros batch ok first c lg; cbn [drain_batch].
  - destruct first as [e|]; [destruct (ok =? 0)%nat; [done|]|]; by intros [= <- _].
  - destruct (match batch !! path with Some s => _ | None => _ end) as [[[s|e]|] lg1]; [| |done].
    + destruct (take_secret cipher meta s c) as [[c1 [e|]]|e] eqn:E; [| |done];
        intros Hd Hc; (eapply IH; [exact Hd|]); by eapply take_secret_ok.
    + intros Hd Hc. eapply IH; [exact Hd|]. by destruct Hc.
Qed.

Lemma read_items_ok only cont paths cands st lg cands' st' lg' :
  (forall c, only = Some c -> cont = c) ->
  read_items P cont paths cands st lg = (Ok (cands', st'), lg') ->
  Forall (fun x => meta_ok only x.2) cands -> carried_ok only (gw_carried st) ->
  Forall (fun x => meta_ok only x.2) cands' /\ carried_ok only (gw_carried st')
  /\ gw_collections st' = gw_collections st /\ seen_containers st' = seen_containers st
  /\ matched_paths st' = matched_paths st.
Proof.
  intros Hcont. revert cands st lg. induction paths as [|path paths IH]; intros cands st lg; cbn [read_items].
  - by intros [= <- <- _].
  - destruct (read_metadata P path cont lg) as [[[meta|r]|e] lg1] eqn:Em; [| |done]; intros E Hm Hc.
    + assert (from_container only (md_provenance meta)) as Hp.
      { clear -Em Hcont. unfold read_metadata in Em. ask_cases; simplify_eq; split; cbn; done || (intros; by apply Hcont). }
      destruct (md_type meta) as [t| |] eqn:Et; [destruct (is_unlock_credential_type t) eqn:Eu|..]; apply IH in E;
        try done; try (apply Forall_app; split; [done|]; apply Forall_singleton; split; [|done]; cbn; rewrite Et; cbn; by rewrite ?Eu);
        by destruct Hc.
    + apply IH in E; [done|done|]. by destruct Hc.
Qed.

Record walked_ok (only : option str) (st : gwalk) : Prop := {
  wo_carried : carried_ok only (gw_carried st);
  wo_scope c : only = Some c -> length (gw_collections st) = length (matched_paths st) /\ (length (matched_paths st) <= 1)%nat
               /\ (c ∈ seen_containers st -> length (matched_paths st) = 1%nat) }.

Lemma read_collection_ok only cipher path cont summary st lg st' lg' :
  (forall c, only = Some c -> cont = c) ->
  read_collection P cipher path cont summary st lg = (Ok st', lg') -> carried_ok only (gw_carried st) ->
  carried_ok only (gw_carried st') /\ length (gw_collections st') = S (length (gw_collections st))
  /\ seen_containers st' = seen_containers st /\ matched_paths st' = matched_paths st.
Proof.
  intros Hcont. unfold read_collection. destruct (call _ _ _ lg) as [[items|e] lg1]; [|done]. destruct (_ <? _); [done|].
  destruct (read_items _ _ _ _ _ _) as [[[cands st1]|e] lg2] eqn:Er; [|done]. intros E Hc.
  apply (read_items_ok only) in Er as (Hm & Hc1 & El & Es & Em); [|done|done|done].
  assert (forall c, (fetch_secrets P cipher cands (gw_carried st1) lg2).1 = Ok c -> carried_ok only c) as Hf.
  { intros c. unfold fetch_secrets. destruct cands as [|x cands]; [by intros [= <-]|].
    destruct (match ans_secrets P _ with Answer b => _ | Fails e => _ | Silent => _ end) as [batch failure].
    destruct (drain_batch _ _ _ _ _ _ _ _ _ _) as [rd lgd] eqn:Ed. cbn. intros ->. by eapply drain_ok. }
  destruct (fetch_secrets _ _ _ _ _) as [[c|e] lg3]; [|done]. injection E as <- _. cbn in *.
  rewrite El, Es, Em. cbn. rewrite length_app. cbn. split; [by apply Hf|]. split; [lia|done].
Qed.

Lemma visit_ok options cipher path st lg st' lg' : visit P options cipher path st lg = (Ok st', lg') ->
  walked_ok (only_container options) st -> walked_ok (only_container options) st'.
Proof.
  unfold visit. destruct (is_session_collection path); [by intros [= <- _]|].
  destruct (proxy_at _ _ _ lg) as [[[]|e] lg1]; [|done]. destruct (property _ _ _ lg1) as [[label|e] lg2]; [|done].
  set (cont := match label with [] => last_piece 47 path | _ => label end).
  assert (Hm : forall st lg st' lg', (forall c, only_container options = Some c -> cont = c) ->
    visit_matched P options cipher path label cont st lg = (Ok st', lg') -> carried_ok (only_container options) (gw_carried st) ->
    carried_ok (only_container options) (gw_carried st') /\ length (gw_collections st') = S (length (gw_collections st))
    /\ seen_containers st' = seen_containers st /\ matched_paths st' = matched_paths st).
  { clear. intros st lg st' lg' Hcont. unfold visit_matched.
    destruct (property _ _ (ans_flag P) lg) as [[locked|e] lg1]; [|done].
    destruct (property _ _ (ans_time P) lg1) as [[created|e] lg2]; [|done].
    destruct (property _ _ (ans_time P) lg2) as [[modified|e] lg3]; [|done].
    destruct locked; [|by apply read_collection_ok].
    destruct (unlock_source _ _ _ lg3) as [[[]|e] lg4]; [by apply read_collection_ok|].
    destruct (survivable e); [|done]. intros [= <- _] Hc. cbn. rewrite length_app. cbn. split; [done|]. split; [lia|done]. }
  unfold filtered_out. destruct (only_container options) as [only|] eqn:Eo.
  - destruct (str_eqb only cont) eqn:Ec; cbn.
    + apply str_eqb_eq in Ec. destruct (matched_paths st) as [|p ps] eqn:Em; [|done]. intros Hv [Hc Hsc].
      apply Hm in Hv as (Hc' & Hl & Hs & Hp); [|by intros ? [= <-]|done]. split; [done|]. intros c [= <-].
      destruct (Hsc only eq_refl) as (Hl0 & _ & _). rewrite Em in Hl0. cbn in *. rewrite Hl, Hp, Em, Hl0. cbn. done.
    + intros [= <- _] [Hc Hsc]. split; [done|]. intros c [= <-]. cbn. destruct (Hsc only eq_refl) as (Hl0 & Hle & Hin).
      split; [done|]. split; [done|]. intros [?|Hn%list_elem_of_singleton]%elem_of_app; [by apply Hin|].
      exfalso. rewrite Hn in Ec. by rewrite (proj2 (str_eqb_eq _ _) eq_refl) in Ec.
  - intros Hv [Hc Hsc]. apply Hm in Hv as (Hc' & _); [|done|done]. split; [done|done].
Qed.

Lemma visit_all_ok options cipher paths st lg st' lg' : visit_all P options cipher paths st lg = (Ok st', lg') ->
  walked_ok (only_container options) st -> walked_ok (only_container options) st'.
Proof.
  revert st lg. induction paths as [|path paths IH]; intros st lg; cbn [visit_all]; [by intros [= <- _]|].
  destruct (visit _ _ _ _ _ _) as [[st1|e] lg1] eqn:E; [|done]. intros Hv Hb. by eapply IH, visit_ok.
Qed.

Lemma walked_ok_start only : walked_ok only gwalk_start.
Proof. split; [split; cbn; [done|by vm_compute|split; by vm_compute]|]. intros c _. cbn. split; [done|]. split; [lia|set_solver]. Qed.

(** ** The session *)

Lemma close_session_log session lg : exists lg',
  close_session P session lg = QClose session :: QProxy (lit "Session") session :: lg'
  \/ (close_session P session lg = QProxy (lit "Session") session :: lg'
      /\ is_ok (ans_proxy P (QProxy (lit "Session") session :: lg')) = false).
Proof.
  exists lg. unfold close_session, proxy_at. cbn. destruct (ans_proxy P _) eqn:E; cbn; [by left|by right].
Qed.

Lemma close_session_careful session lg : careful lg -> careful (close_session P session lg).
Proof. intros Hc. unfold close_session, proxy_at. cbn. by destruct (ans_proxy P _); cbn. Qed.

(** ** Theorems *)

(** A successful run of the walk proper. *)
Lemma walk_service_inv options cipher plain lg x lg' : walk_service P options cipher plain lg = (Ok x, lg') ->
  exists st, balanced st /\ walked_ok (only_container options) st
    /\ (forall c, only_container options = Some c -> c ∈ seen_containers st)
    /\ gx_items x = c_items (gw_carried st) /\ gx_refused x = c_refused (gw_carried st)
    /\ gx_skipped x = c_skipped (gw_carried st) /\ gx_collections x = gw_collections st.
Proof.
  unfold walk_service. destruct (call _ _ _ lg) as [[colls|e] lg1]; [|done]. destruct (_ <? _)%nat; [done|].
  destruct (visit_all _ _ _ _ _ _) as [[st|e] lg2] eqn:E; [|done]. intros Ex. exists st.
  split; [by eapply visit_all_balanced; [exact E|split; [done|constructor]]|].
  split; [by eapply visit_all_ok; [exact E|apply walked_ok_start]|].
  destruct (only_container options) as [only|]; [destruct (bool_decide _) eqn:Eb; [|done]|]; injection Ex as <- _;
    (split; [|done]); [|done]. intros c [= <-]. by apply bool_decide_eq_true in Eb.
Qed.

Lemma extract_inv options pair lg x lg' : extract P options pair lg = (Ok x, lg') ->
  (length (gx_items x) + length (gx_refused x) + length (gx_skipped x))%nat = listed_items (gx_collections x)
  /\ carried_ok (only_container options) {| c_items := gx_items x; c_refused := []; c_skipped := [];
                                            c_bytes := GNOME_SECRET_BYTES |}
  /\ Forall (fun s => Z.of_nat (default 0%nat (cs_item_count s)) <= MAX_ITEMS_PER_COLLECTION) (gx_collections x)
  /\ forall c, only_container options = Some c -> length (gx_collections x) = 1%nat.
Proof.
  unfold extract. destruct (proxy_at _ _ _ lg) as [[[]|e] lg1]; [|done].
  destruct (open_session _ _ _ lg1) as [[[[session cipher] plain]|e] lg2]; [|done].
  destruct (walk_service _ _ _ _ _) as [r lg3] eqn:Ew. intros [= -> _].
  apply walk_service_inv in Ew as (st & [Hb Hf] & [[Hi Ht Hbud] Hsc] & Hseen & -> & -> & -> & ->).
  split; [done|]. split; [split; cbn [c_items c_bytes]; [done|lia|by vm_compute]|]. split; [done|].
  intros c Hc. destruct (Hsc c Hc) as (-> & _ & H1). by apply H1, Hseen.
Qed.


(** C30. The secret of an item is asked for only after the item itself said that it
    is no unlock credential: in every run, whatever the provider answers and
    however the run ends, an item whose type is a credential's or could not be
    read is never named in a request for secrets. *)
Theorem credentials_never_asked options pair : careful (extract P options pair []).2.
Proof.
  unfold extract. destruct (proxy_at P _ _ []) as [r lg1] eqn:E1. unfold proxy_at in E1. injection E1 as Er <-.
  destruct r as [[]|e]; [|by cbn]. destruct (open_session _ _ _ _) as [ro lg2] eqn:E2. apply open_session_quiet in E2.
  assert (careful lg2) as Hc2 by (eapply no_secret_careful; [exact E2|by cbn]).
  destruct ro as [[[session cipher] plain]|e]; [|done].
  assert (careful (walk_service P options cipher plain lg2).2) as Hw.
  { unfold walk_service, call. destruct (of_reply _ _) as [colls|e]; [|by cbn]. destruct (_ <? _)%nat; [by cbn|].
    destruct (visit_all _ _ _ _ _ _) as [rv lg3] eqn:Ev. apply visit_all_careful in Ev; [|by cbn].
    destruct rv; [|done]. destruct (only_container options); [|done]. by destruct (bool_decide _). }
  destruct (walk_service _ _ _ _ _) as [rw lg3]. cbn in *.
  by apply close_session_careful.
Qed.

(** The session is closed however the walk ended: once [open_session] has
    succeeded, the last request is the close, or its proxy could not be built. *)
Theorem session_always_closed options pair lg lg1 s cipher plain lg2 :
  proxy_at P (lit "Service") [] lg = (Ok tt, lg1) ->
  open_session P pair (prefer_dh options) lg1 = (Ok (s, cipher, plain), lg2) ->
  exists lg', (extract P options pair lg).2 = QClose s :: QProxy (lit "Session") s :: lg'
    \/ ((extract P options pair lg).2 = QProxy (lit "Session") s :: lg'
        /\ is_ok (ans_proxy P (QProxy (lit "Session") s :: lg')) = false).
Proof.
  intros E1 E2. unfold extract. rewrite E1, E2. destruct (walk_service _ _ _ _ _) as [r lg3]. apply close_session_log.
Qed.
End gnome.

(** ** Text of a peer in an error or a warning *)

Lemma floor_boundary_spec s n :
  is_char_boundary s (Z.of_nat (floor_boundary s n)) = true /\ (floor_boundary s n <= n)%nat.
Proof.
  induction n as [|n IH]; cbn [floor_boundary].
  - destruct (is_char_boundary s (Z.of_nat 0)) eqn:E; split; try done; try lia. destruct s; cbn in E; lia || done.
  - destruct (is_char_boundary s (Z.of_nat (S n))) eqn:E; [split; [done|lia]|]. destruct IH. split; [done|lia].
Qed.

(** A reason carries no control or invisible character of the peer's, and at
    most 515 bytes of it: the limit and the ellipsis. *)
Theorem error_text_safe text :
  Forall (fun c => offending c = false) (error_text text) /\ str_len (error_text text) <= 515.
Proof.
  unfold error_text. destruct (_ <=? _) eqn:E.
  - split; [apply escape_control_all_clean|]. apply Z.leb_le in E. change (Z.of_nat ERROR_TEXT_LIMIT) with 512 in E. lia.
  - destruct (floor_boundary_spec (escape_control text) ERROR_TEXT_LIMIT) as [Hb Hle]. split.
    + apply Forall_app. split; [apply slice_to_Forall, escape_control_all_clean|]. by apply Forall_singleton.
    + unfold str_len in *. rewrite utf8_app, zlen_app. fold (str_len (slice_to (escape_control text)
        (Z.of_nat (floor_boundary (escape_control text) ERROR_TEXT_LIMIT)))). rewrite slice_to_len by (done || lia).
      change (zlen (utf8 [8230])) with 3. unfold ERROR_TEXT_LIMIT in *. lia.
Qed.

Lemma lit_clean s : forallb (fun c => negb (offending c)) s = true -> Forall (fun c => offending c = false) s.
Proof.
  intros H. rewrite Forall_forall. intros c Hc.
  apply forallb_forall with (x := c) in H; [by apply negb_true_iff in H|by apply list_elem_of_In].
Qed.

Lemma dec_clean n : Forall (fun c => offending c = false) (dec n).
Proof.
  unfold dec. assert (forall fuel n acc, Forall (fun c => offending c = false) acc ->
    Forall (fun c => offending c = false) (dec_go fuel n acc)) as Hgo; [|by apply Hgo].
  induction fuel as [|fuel IH]; intros m acc Ha; cbn [dec_go]; [done|].
  assert (Forall (fun c => offending c = false) ((48 + m mod 10) :: acc)).
  { constructor; [|done]. apply offending_ascii. pose proof (Z.mod_pos_bound m 10). lia. }
  destruct (m <? 10); auto.
Qed.

(** What is printed about the owner of the name is safe to print. *)
Theorem provider_warning_safe o w : foreign_provider_warning o = Some w -> Forall (fun c => offending c = false) w.
Proof.
  assert (Hl : forall l, Forall (fun c => offending c = false) (display_label l)).
  { intros l. eapply Forall_impl; [apply display_label_safe|]. intros c (H1 & H2 & _). unfold offending. by rewrite H1, H2. }
  intros Hw. enough (Forall (fun c => offending c = false) (default [] (foreign_provider_warning o))) as Hx
    by (rewrite Hw in Hx; exact Hx).
  clear Hw. unfold foreign_provider_warning, describe. destruct o as [|pid|pid cmd]; [constructor|..].
  - repeat apply Forall_app_2; try apply dec_clean; by apply lit_clean.
  - destruct (_ || _); [constructor|].
    repeat apply Forall_app_2; try apply dec_clean; try apply Hl; by apply lit_clean.
Qed.

(** ** A provider with one ordinary item and one unlock credential *)

Definition sample_gnome : Provider := {|
  ans_proxy _ := Ok tt;
  ans_open lg := match lg with
                 | QOpenSession a :: _ =>
                   if str_eqb a ALGORITHM_DH then Fails {| bf_name := None; bf_text := lit "not supported" |}
                   else Answer (Err [], lit "/s/1")
                 | _ => Silent
                 end;
  ans_paths lg := match lg with
                  | QCollections :: _ => Answer [lit "/c/session"; lit "/c/login"]
                  | _ => Answer [lit "/c/login/1"; lit "/c/login/2"]
                  end;
  ans_text lg := match lg with
                 | QProperty c p :: _ =>
                   Answer (if str_eqb c (lit "Collection.Label") then lit "Login"
                           else if str_eqb c (lit "Item.Type")
                           then if str_eqb p (lit "/c/login/2") then TYPE_CHAINED_KEYRING else TYPE_NOTE
                           else lit "mail")
                 | _ => Silent
                 end;
  ans_flag _ := Answer false;
  ans_time _ := Answer 7;
  ans_attributes _ := Answer ∅;
  ans_unlock _ := Silent;
  ans_unit _ := Silent;
  ans_signal _ := None;
  ans_secrets _ := Silent;
  ans_secret _ := Answer {| parameters := []; value := [x61]; s_content_type := lit "text/plain" |};
  expired _ := false |}.

Definition sample_options : ExtractOptions :=
  {| prompt_timeout := PROMPT_TIMEOUT; prefer_dh := true; only_container := Some (lit "Login") |}.

Definition sample_gnome_run : result GnomeExtraction GnomeError * log :=
  @extract sample_session sample_gnome sample_options {| private := 1; public := [] |} [].

Definition sample_gnome_out : GnomeExtraction :=
  match sample_gnome_run.1 with
  | Ok x => x
  | Err _ => {| gx_items := []; gx_refused := []; gx_skipped := []; gx_collections := []; plain_fallback_reason := None;
                item_type_unavailable := false |}
  end.

Lemma sample_gnome_ok : sample_gnome_run = (Ok sample_gnome_out, sample_gnome_run.2).
Proof. by vm_compute. Qed.


Example sample_never_asks_credential :
  existsb (fun q => match q with
                    | QGetSecret p => str_eqb p (lit "/c/login/2")
                    | QGetSecrets ps => bool_decide (lit "/c/login/2" ∈ ps)
                    | _ => false
                    end) sample_gnome_run.2 = false /\ existsb asks_secret sample_gnome_run.2 = true.
Proof. by vm_compute. Qed.
