(* ===== verification/State.v ===== *)
(** * The daemon's shared state ([src/dbus/state.rs])

    The collections and what could not be opened, the alias table, sessions and
    prompts; the scan of the vault directory and its merge; resolution of
    object paths.  Each collection sits behind its own lock in the program; here
    the map holds the vault as it is when that lock is taken. *)
From S2P Require Import Prelude Text Env Crypto Codec Format Sanitize Names Files Sweep Store Aliases Session.

Definition MAX_SESSIONS_PER_SENDER : nat := 32.
Definition MAX_PROMPTS_PER_OWNER : nat := 8.

Record SessionEntry : Type := { se_owner : str; se_cipher : SessionCipher }.

(** The fields the modelled operations use. *)
Record ServiceState : Type := {
  vault_dir : fpath;
  st_index_attributes : bool;
  collections : gmap str Vault;
  broken : gmap str (fpath * VaultError);
  aliases : AliasTable;
  sessions : gmap str SessionEntry;
  prompt_owners : gmap str str;
  next_session : Z;
  next_prompt : Z
}.

(** [ServiceState::new]. *)
Definition service_new (dir : fpath) : ServiceState :=
  {| vault_dir := dir; st_index_attributes := true; collections := ∅; broken := ∅;
     aliases := alias_default; sessions := ∅; prompt_owners := ∅; next_session := 0; next_prompt := 0 |}.

(** ** Names of vault files *)

(** [Path::extension] and [Path::file_stem] of one component: a leading dot
    alone starts no extension. *)
Definition extension (name : str) : option str :=
  match rsplit_once 46 name with
  | Some ([], _) | None => None
  | Some (_, ext) => Some ext
  end.

Definition file_stem (name : str) : str :=
  match rsplit_once 46 name with
  | Some ([], _) | None => name
  | Some (stem, _) => stem
  end.

Definition vault_file (id : str) : str := id ++ lit ".vault".

(** ** A free id *)

Section unique.
Context `{Env}.
Context (dir : fpath) (loaded : gset str).

(** The closure [taken]; the directory is asked only for an id not loaded. *)
Definition taken (id : str) (w : world) : bool * world :=
  if bool_decide (id ∈ loaded) then (true, w)
  else let '(r, w) := lstat (path_join dir (vault_file id)) w in (is_ok r, w).

Definition candidate (base : str) (n : Z) : str := base ++ [95] ++ dec n.

(** [(2..).map(..).find(..)], for at most [fuel] candidates. *)
Fixpoint find_free (fuel : nat) (base : str) (n : Z) (w : world) : option str * world :=
  match fuel with
  | O => (None, w)
  | S fuel =>
    match taken (candidate base n) w with
    | (false, w) => (Some (candidate base n), w)
    | (true, w) => find_free fuel base (n + 1) w
    end
  end.

Definition unique_collection_id_in (fuel : nat) (label : str) (w : world) : option str * world :=
  let base := collection_id_from_label label in
  match taken base w with
  | (false, w) => (Some base, w)
  | (true, w) => find_free fuel base 2 w
  end.
End unique.

(** ** The scan *)

Record VaultScan : Type := {
  opened : list (str * Vault);
  sc_broken : list (str * fpath * VaultError);
  sc_aliases : result (gmap str str) str;
  sc_seen : gset str
}.

Section scan.
Context `{Env} `{VaultCodec} `{AliasText}.

(** The body of the loop over the directory, for one name. *)
Definition scan_entry (dir : fpath) (index_attributes : bool) (already_loaded : gset str)
    (name : str) (sc : VaultScan) (w : world) : VaultScan * world :=
  if negb (bool_decide (extension name = Some (lit "vault"))) then (sc, w)
  else
    let id := file_stem name in
    let sc := {| opened := opened sc; sc_broken := sc_broken sc; sc_aliases := sc_aliases sc;
                 sc_seen := {[ id ]} ∪ sc_seen sc |} in
    if negb (is_segment id) || bool_decide (id ∈ already_loaded) then (sc, w)
    else
      match open_vault (path_join dir name) w with
      | (Ok v, w) =>
        ({| opened := opened sc ++ [(id, set_index_attributes v index_attributes)];
            sc_broken := sc_broken sc; sc_aliases := sc_aliases sc; sc_seen := sc_seen sc |}, w)
      | (Err e, w) =>
        ({| opened := opened sc; sc_broken := sc_broken sc ++ [(id, path_join dir name, e)];
            sc_aliases := sc_aliases sc; sc_seen := sc_seen sc |}, w)
      end.

Fixpoint scan_entries (dir : fpath) (index_attributes : bool) (already_loaded : gset str)
    (names : list str) (sc : VaultScan) (w : world) : VaultScan * world :=
  match names with
  | [] => (sc, w)
  | n :: names =>
    let '(sc, w) := scan_entry dir index_attributes already_loaded n sc w in
    scan_entries dir index_attributes already_loaded names sc w
  end.

Definition scan_vault_dir (dir : fpath) (index_attributes : bool) (already_loaded : gset str) (w : world)
  : result VaultScan alias_io * world :=
  do? _, w <- with_err os_error (ensure_vault_dir dir w);
  do? names, w <- with_err os_error (read_dir dir w);
  let sc := {| opened := []; sc_broken := []; sc_aliases := Ok ∅; sc_seen := ∅ |} in
  let '(sc, w) := scan_entries dir index_attributes already_loaded names sc w in
  match load_aliases dir w with
  | (Ok m, w) => (Ok {| opened := opened sc; sc_broken := sc_broken sc; sc_aliases := Ok m;
                        sc_seen := sc_seen sc |}, w)
  | (Err e, w) =>
    if bool_decide (ai_kind e = InvalidData) then
      (Ok {| opened := opened sc; sc_broken := sc_broken sc; sc_aliases := Err (alias_error_new (ai_text e));
             sc_seen := sc_seen sc |}, w)
    else (Err e, w)
  end.
End scan.

(** ** The merge *)

Definition loaded_ids (st : ServiceState) : gset str := dom (collections st).

Definition set_maps (st : ServiceState) (c : gmap str Vault) (b : gmap str (fpath * VaultError))
    (a : AliasTable) : ServiceState :=
  {| vault_dir := vault_dir st; st_index_attributes := st_index_attributes st; collections := c; broken := b;
     aliases := a; sessions := sessions st; prompt_owners := prompt_owners st;
     next_session := next_session st; next_prompt := next_prompt st |}.

(** The two loops, each with the maps and the new ids so far. *)
Fixpoint merge_opened (l : list (str * Vault)) (c : gmap str Vault) (b : gmap str (fpath * VaultError))
    (new_ids : list str) : gmap str Vault * gmap str (fpath * VaultError) * list str :=
  match l with
  | [] => (c, b, new_ids)
  | (id, v) :: l =>
    let previously_broken := bool_decide (is_Some (b !! id)) in
    let is_none := bool_decide (c !! id = None) in
    merge_opened l (<[id := v]> c) (delete id b)
      (if is_none && negb previously_broken then new_ids ++ [id] else new_ids)
  end.

Fixpoint merge_broken (l : list (str * fpath * VaultError)) (c : gmap str Vault)
    (b : gmap str (fpath * VaultError)) (new_ids : list str) : gmap str (fpath * VaultError) * list str :=
  match l with
  | [] => (b, new_ids)
  | (id, p, e) :: l =>
    let previously_known := bool_decide (is_Some (b !! id)) || bool_decide (is_Some (c !! id)) in
    merge_broken l c (<[id := (p, e)]> b) (if previously_known then new_ids else new_ids ++ [id])
  end.

Definition merge_scan (st : ServiceState) (scan : VaultScan) : ServiceState * list str :=
  let '(c, b, new_ids) := merge_opened (opened scan) (collections st) (broken st) [] in
  let '(b, new_ids) := merge_broken (sc_broken scan) c b new_ids in
  let b := filter (fun kv => fst kv ∈ sc_seen scan) b in
  let a := match sc_aliases scan with
           | Ok m => Usable m
           | Err reason => degrade (aliases st) reason
           end in
  (set_maps st c b a, new_ids).

(** ** Resolution *)

Definition broken_error (st : ServiceState) (id : str) : option VaultError := snd <$> broken st !! id.
Definition aliases_unusable (st : ServiceState) : option str := unusable (aliases st).

Definition alias_target (st : ServiceState) (name : str) : result (option str) str :=
  let? o := alias_resolve (aliases st) name in
  Ok (match o with
      | Some id => if bool_decide (is_Some (collections st !! id)) then Some id else None
      | None => None
      end).

(** [unwrap_or(None)]. *)
Definition or_none {A E} (r : result (option A) E) : option A :=
  match r with Ok o => o | Err _ => None end.

Definition resolve_collection (st : ServiceState) (path : str) : option str :=
  let! t := parse path in
  match t with
  | TCollection id =>
    if bool_decide (is_Some (collections st !! id)) || bool_decide (is_Some (broken st !! id))
    then Some id else None
  | TAlias name => or_none (alias_target st name)
  | _ => None
  end.

Inductive PathTarget : Type :=
| PTCollection (id : str) (v : Vault)
| PTBroken (id : str)
| PTItem (id : str) (v : Vault) (item : str).

Definition resolve_path (st : ServiceState) (path : str) : option PathTarget :=
  let! t := parse path in
  let! ci := match t with
             | TCollection id => Some (id, None)
             | TAlias name => let! id := or_none (alias_target st name) in Some (id, None)
             | TItem c i => Some (c, Some i)
             | TAliasItem a i => let! id := or_none (alias_target st a) in Some (id, Some i)
             end in
  let '(cid, iid) := ci in
  match collections st !! cid, iid with
  | Some v, None => Some (PTCollection cid v)
  | Some v, Some i => Some (PTItem cid v i)
  | None, None => if bool_decide (is_Some (broken st !! cid)) then Some (PTBroken cid) else None
  | None, Some _ => None
  end.

Definition is_unlocked_path (st : ServiceState) (path : str) : bool :=
  match resolve_path st path with
  | None => false
  | Some (PTBroken _) => false
  | Some (PTCollection _ v) => negb (is_locked v)
  | Some (PTItem _ v i) => has_item v i && negb (is_locked v)
  end.

Section search_state.
Context `{Prims}.

Definition search_collection (v : Vault) (query : gmap str str) : list str :=
  match search v query with
  | Ok l => map i_id l
  | Err _ => search_ids v query
  end.

(** Every collection in id order; the ids stand for the item paths. *)
Definition search_all (st : ServiceState) (query : gmap str str) : list (str * str) * list (str * str) :=
  fold_left (fun '(unlocked, locked) '(cid, v) =>
    let found := map (fun iid => (cid, iid)) (search_collection v query) in
    if is_locked v then (unlocked, locked ++ found) else (unlocked ++ found, locked))
    (btree_iter (collections st)) ([], []).
End search_state.

(** ** Sessions and prompts *)

Inductive quota_error : Type := TooManySessions | TooManyPrompts | NoSession.

Definition sessions_of (st : ServiceState) (owner : str) : gmap str SessionEntry :=
  filter (fun kv => se_owner (snd kv) = owner) (sessions st).
Definition prompts_of (st : ServiceState) (owner : str) : gmap str str :=
  filter (fun kv => snd kv = owner) (prompt_owners st).

Definition check_session_quota (st : ServiceState) (owner : str) : result unit quota_error :=
  if (MAX_SESSIONS_PER_SENDER <=? size (sessions_of st owner))%nat then Err TooManySessions else Ok tt.

Definition check_prompt_quota (st : ServiceState) (owner : str) : result unit quota_error :=
  if (MAX_PROMPTS_PER_OWNER <=? size (prompts_of st owner))%nat then Err TooManyPrompts else Ok tt.

Definition session_cipher (st : ServiceState) (session_path sender : str) : result SessionCipher quota_error :=
  match sessions st !! session_path with
  | Some e => if bool_decide (se_owner e = sender) then Ok (se_cipher e) else Err NoSession
  | None => Err NoSession
  end.

(** ** Lemmas: a free id *)

Section unique_lemmas.
Context `{HE : Env}.
Implicit Types (dir : fpath) (loaded : gset str).

Lemma taken_spec dir loaded id w t w' : taken dir loaded id w = (t, w') ->
  fs w' = fs w
  /\ (t = true -> id ∈ loaded \/ is_Some (fs w !! (dir ++ [vault_file id])))
  /\ (t = false -> (id ∉ loaded) /\ (Calm HE -> fs w !! (dir ++ [vault_file id]) = None)).
Proof.
  unfold taken, path_join. destruct (bool_decide (id ∈ loaded)) eqn:Ei; bool_to_prop.
  { intros [= <- <-]. split_and!; [done|by left|done]. }
  destruct (lstat (dir ++ [vault_file id]) w) as [r w1] eqn:El. intros [= <- <-].
  pose proof (read_touches _ _ _ _ El) as [_ F]. split_and!; [done| |].
  - destruct r as [m|]; [|done]. intros _. right. apply lstat_inv in El as (n & Hn & _). eauto.
  - intros Hr. split; [done|]. intros HC. revert El. unfold lstat. rewrite syscall_calm. cbn [fst snd].
    destruct (fs w !! (dir ++ [vault_file id])); [|done]. intros [= <- _]. done.
Qed.

Lemma find_free_Some dir loaded fuel base n w id w' : find_free dir loaded fuel base n w = (Some id, w') ->
  fs w' = fs w /\ (id ∉ loaded) /\ (Calm HE -> fs w !! (dir ++ [vault_file id]) = None)
  /\ exists k, n <= k < n + Z.of_nat fuel /\ id = candidate base k.
Proof.
  revert n w. induction fuel as [|fuel IH]; intros n w; simpl; [done|].
  destruct (taken dir loaded (candidate base n) w) as [t w1] eqn:Et. apply taken_spec in Et as (F & _ & Hf).
  destruct t.
  - intros (F' & Hn & Hc & k & Hk & ->)%IH. rewrite F in *. split_and!; [done|done|done|]. exists k. split; [lia|done].
  - intros [= <- <-]. destruct (Hf eq_refl). split_and!; [done|done|done|]. exists n. split; [lia|done].
Qed.

Lemma find_free_None dir loaded fuel base n w w' : find_free dir loaded fuel base n w = (None, w') ->
  forall k, n <= k < n + Z.of_nat fuel ->
    candidate base k ∈ loaded \/ is_Some (fs w !! (dir ++ [vault_file (candidate base k)])).
Proof.
  revert n w. induction fuel as [|fuel IH]; intros n w; simpl; [lia|].
  destruct (taken dir loaded (candidate base n) w) as [t w1] eqn:Et. apply taken_spec in Et as (F & Ht & _).
  destruct t; [|done]. intros E k Hk. destruct (decide (k = n)) as [->|Hne]; [by apply Ht|].
  rewrite <- F. apply (IH _ _ E). lia.
Qed.

(** Different numbers give different candidates, hence different paths. *)
Lemma candidate_path_inj dir base j k : u64 j -> u64 k ->
  dir ++ [vault_file (candidate base j)] = dir ++ [vault_file (candidate base k)] -> j = k.
Proof.
  intros Hj Hk E. apply app_inj_tail in E as [_ E]. apply app_inv_tail in E. unfold candidate in E.
  apply app_inv_head in E. injection E as E. by apply dec_inj.
Qed.

(** Fewer names are taken than there are candidates. *)
Lemma find_free_total dir loaded fuel base w w' : (size loaded + size (fs w) < fuel)%nat ->
  2 + Z.of_nat fuel <= u64_max -> find_free dir loaded fuel base 2 w <> (None, w').
Proof.
  intros Hf Hu E. pose proof (find_free_None _ _ _ _ _ _ _ E) as Hall.
  set (path := fun k : nat => dir ++ [vault_file (candidate base (2 + Z.of_nat k))]).
  set (l := map path (seq 0 fuel)).
  set (names := map (fun id => dir ++ [vault_file id]) (elements loaded) ++ map fst (map_to_list (fs w))).
  assert (Hl : NoDup l).
  { apply NoDup_fmap_2_strong; [|apply NoDup_seq]. intros j k Hj Hk Ejk.
    apply elem_of_seq in Hj, Hk. apply candidate_path_inj in Ejk; unfold u64; lia. }
  assert (Hin : forall q, q ∈ l -> q ∈ names).
  { intros q (k & -> & Hk)%list_elem_of_fmap. apply elem_of_seq in Hk. apply elem_of_app.
    destruct (Hall (2 + Z.of_nat k)) as [Hx|[nd Hx]]; [lia|left|right]; apply list_elem_of_fmap.
    - eexists. split; [done|]. by apply elem_of_elements.
    - exists (path k, nd). split; [done|]. by apply elem_of_map_to_list. }
  pose proof (submseteq_length _ _ (NoDup_submseteq _ _ Hl Hin)) as Hlen. revert Hlen. unfold l, names.
  rewrite length_app, !length_map, length_seq. change (length (elements loaded)) with (size loaded).
  rewrite length_map_to_list. lia.
Qed.

Lemma is_segment_app a b : is_segment a = true -> is_segment b = true -> is_segment (a ++ b) = true.
Proof.
  unfold is_segment. rewrite !andb_true_iff, utf8_app, forallb_app, andb_true_iff.
  intros [Ha ?] [_ ?]. split_and!; [by destruct a|done|done].
Qed.

Lemma candidate_segment base k : is_segment base = true -> u64 k -> is_segment (candidate base k) = true.
Proof.
  intros Hb Hk. apply is_segment_app; [done|]. destruct (dec_spec k Hk) as (_ & _ & Hd).
  apply is_segment_ascii; [done|]. apply Forall_app. split; [apply Forall_singleton; by right|].
  eapply Forall_impl; [exact Hd|]. intros x ?%in_range_spec. left. apply is_ascii_alphanumeric_spec. lia.
Qed.
End unique_lemmas.

(** ** Lemmas: the merge *)

Lemma merge_opened_spec l c b new c' b' new' : merge_opened l c b new = (c', b', new') ->
  (forall id, is_Some (c' !! id) <-> is_Some (c !! id) \/ id ∈ map fst l)
  /\ (forall id, is_Some (b' !! id) <-> is_Some (b !! id) /\ id ∉ map fst l)
  /\ (forall id, id ∈ new' <-> id ∈ new \/ (id ∈ map fst l /\ c !! id = None /\ b !! id = None)).
Proof.
  revert c b new. induction l as [|[i v] l IH]; intros c b new; simpl.
  { intros [= <- <- <-]. split_and!; intros id; rewrite elem_of_nil; tauto. }
  intros (Hc & Hb & Hn)%IH. split_and!; intros id.
  - rewrite Hc, elem_of_cons. destruct (decide (i = id)) as [->|Hne].
    + rewrite lookup_insert_eq. split; eauto.
    + rewrite lookup_insert_ne by done. clear IH Hb Hn. intuition congruence.
  - rewrite Hb, not_elem_of_cons. destruct (decide (i = id)) as [->|Hne].
    + rewrite lookup_delete_eq. split; [intros [[? [=]] _]|tauto].
    + rewrite lookup_delete_ne by done. clear IH Hc Hn. intuition congruence.
  - rewrite Hn, elem_of_cons. destruct (decide (i = id)) as [->|Hne].
    + rewrite lookup_insert_eq, lookup_delete_eq.
      destruct (bool_decide (c !! id = None)) eqn:E1, (bool_decide (is_Some (b !! id))) eqn:E2; bool_to_prop;
        rewrite ?eq_None_not_Some in *; simpl; rewrite ?elem_of_app, ?list_elem_of_singleton; clear IH Hb Hn;
        intuition (done || eauto).
    + rewrite lookup_insert_ne, lookup_delete_ne by done.
      destruct (_ && _); rewrite ?elem_of_app, ?list_elem_of_singleton; clear IH Hb Hn; intuition congruence.
Qed.

Definition broken_ids (l : list (str * fpath * VaultError)) : list str := map (fun x => fst (fst x)) l.

Lemma merge_broken_spec l c b new b' new' : merge_broken l c b new = (b', new') ->
  (forall id, is_Some (b' !! id) <-> is_Some (b !! id) \/ id ∈ broken_ids l)
  /\ (forall id, id ∈ new' <-> id ∈ new \/ (id ∈ broken_ids l /\ c !! id = None /\ b !! id = None)).
Proof.
  revert b new. induction l as [|[[i p] e] l IH]; intros b new; simpl.
  { intros [= <- <-]. split; intros id; rewrite elem_of_nil; tauto. }
  intros (Hb & Hn)%IH. split; intros id.
  - rewrite Hb, elem_of_cons. destruct (decide (i = id)) as [->|Hne].
    + rewrite lookup_insert_eq. split; eauto.
    + rewrite lookup_insert_ne by done. clear IH Hn. intuition congruence.
  - rewrite Hn, elem_of_cons. destruct (decide (i = id)) as [->|Hne].
    + rewrite lookup_insert_eq.
      destruct (bool_decide (is_Some (b !! id))) eqn:E1, (bool_decide (is_Some (c !! id))) eqn:E2; bool_to_prop;
        rewrite ?eq_None_not_Some in *; simpl; rewrite ?elem_of_app, ?list_elem_of_singleton; clear IH Hb Hn;
        intuition (done || eauto).
    + rewrite lookup_insert_ne by done.
      destruct (_ || _); rewrite ?elem_of_app, ?list_elem_of_singleton; clear IH Hb Hn; intuition congruence.
Qed.

(** ** Properties *)

(** A free id is always found, and it is free. However full the directory,
    the search ends within one candidate more than there are loaded ids and
    directory entries; what it returns is a valid path segment, not the id of a
    loaded collection, and, on a disk that can be read, the name of no entry
    at all: no file, directory or dangling link. The search changes nothing. *)
Theorem unique_collection_id_free (HE : Env) (dir : fpath) (loaded : gset str) (label : str) (w : world) (fuel : nat) :
  (size loaded + size (fs w) < fuel)%nat -> 2 + Z.of_nat fuel <= u64_max ->
  exists id w', unique_collection_id_in dir loaded fuel label w = (Some id, w')
    /\ fs w' = fs w /\ is_segment id = true /\ (id ∉ loaded)
    /\ (Calm HE -> fs w !! (dir ++ [id ++ lit ".vault"]) = None).
Proof.
  intros Hf Hu. unfold unique_collection_id_in. set (base := collection_id_from_label label).
  destruct (collection_id_ok label) as (Hne & Hslug & _ & _). fold base in Hne, Hslug.
  pose proof (slug_segment _ _ Hne Hslug) as Hseg.
  destruct (taken dir loaded base w) as [[] w1] eqn:Et; apply taken_spec in Et as (F & _ & Hfree).
  - destruct (find_free dir loaded fuel base 2 w1) as [[id|] w2] eqn:E.
    + exists id, w2. pose proof (find_free_Some _ _ _ _ _ _ _ _ E) as (F2 & Hn & Hc & k & Hk & ->).
      rewrite F in *. split_and!; try done. apply candidate_segment; [done|]. unfold u64. lia.
    + exfalso. apply (find_free_total dir loaded fuel base w1 w2); [by rewrite F|lia|done].
  - destruct (Hfree eq_refl) as [Hn Hc]. exists base, w1. split_and!; done.
Qed.

Lemma unique_collection_id_free_witness :
  exists id w', @unique_collection_id_in sample_env [lit "v"] {[ lit "login_2" ]} 5 (lit "Login") (sample_world [x01])
                = (Some id, w') /\ id ∉ ({[ lit "login_2" ]} : gset str).
Proof.
  destruct (unique_collection_id_free sample_env [lit "v"] {[ lit "login_2" ]} (lit "Login") (sample_world [x01]) 5)
    as (id & w' & E & _ & _ & Hn & _); [vm_compute; lia|vm_compute; discriminate|].
  exists id, w'. split; [exact E|exact Hn].
Defined.

(** A reload adds, and never takes away what is loaded. Merging a scan
    keeps every loaded collection; lists as broken only files the scan saw;
    announces exactly the ids, opened or broken, that were neither loaded nor
    broken before; and, when the alias file could not be read, keeps every
    alias that resolved, refuses every other name instead of calling it free,
    and makes the table unwritable. *)
Theorem merge_scan_spec (st : ServiceState) (scan : VaultScan) :
  let '(st', new_ids) := merge_scan st scan in
  (forall id, is_Some (collections st !! id) -> is_Some (collections st' !! id))
  /\ (forall id, id ∈ map fst (opened scan) -> is_Some (collections st' !! id))
  /\ (forall id, is_Some (broken st' !! id) -> id ∈ sc_seen scan)
  /\ (forall id, id ∈ new_ids <->
        (id ∈ map fst (opened scan) \/ id ∈ broken_ids (sc_broken scan))
        /\ collections st !! id = None /\ broken st !! id = None)
  /\ (forall reason, sc_aliases scan = Err reason ->
        writable (aliases st') = Err reason
        /\ forall name, match alias_resolve (aliases st) name with
                        | Ok (Some x) => alias_resolve (aliases st') name = Ok (Some x)
                        | _ => alias_resolve (aliases st') name = Err reason
                        end).
Proof.
  unfold merge_scan. destruct (merge_opened _ _ _ _) as [[c b] new1] eqn:E1.
  apply merge_opened_spec in E1 as (Hc & Hb & Hn1).
  destruct (merge_broken _ _ _ _) as [b' new2] eqn:E2. apply merge_broken_spec in E2 as (Hb' & Hn2).
  cbn [collections broken aliases set_maps]. split_and!.
  - intros id Hs. apply Hc. by left.
  - intros id Hin. apply Hc. by right.
  - intros id [x Hx]. by apply map_lookup_filter_Some in Hx as [_ ?].
  - intros id. rewrite Hn2, Hn1, elem_of_nil.
    assert (c !! id = None <-> collections st !! id = None /\ id ∉ map fst (opened scan)) as Hcn.
    { rewrite !eq_None_not_Some, Hc. tauto. }
    assert (b !! id = None <-> ~ (is_Some (broken st !! id) /\ id ∉ map fst (opened scan))) as Hbn.
    { by rewrite eq_None_not_Some, Hb. }
    rewrite Hcn, Hbn, (eq_None_not_Some (broken st !! id)).
    destruct (decide (id ∈ map fst (opened scan))); tauto.
  - intros reason ->. split; [done|]. intros name. unfold degrade.
    destruct (aliases st) as [m|r m]; cbn [known alias_resolve]; destruct (m !! name); done.
Qed.

Lemma merge_scan_sample : snd (merge_scan (service_new [lit "v"])
  {| opened := []; sc_broken := [(lit "x", [lit "v"; lit "x.vault"], Locked)]; sc_aliases := Err (lit "bad");
     sc_seen := {[ lit "x" ]} |}) = [lit "x"].
Proof. vm_compute. reflexivity. Qed.
