(* ===== verification/Protocol.v ===== *)
(** * The control socket protocol ([src/protocol.rs])

    Frames, the request and response types, and the blocking call a client
    makes: connect, check who is listening, send one frame, read one frame, all
    within one deadline.

    The kernel and the peer are the class [Net]: what each request of the
    client meets, as any function of everything that happened before on this
    connection.  The clock of a [link] counts the time spent waiting, in
    nanoseconds; computing takes none. *)
From S2P Require Import Prelude Text Env Crypto Codec.

Definition MAX_FRAME : Z := Z.shiftl 1 20.
Definition CALL_TIMEOUT : Z := 5 * 1000000000.
Definition PROTOCOL_VERSION : byte := x05.

Inductive Request : Type :=
| RLock (collection : option str)
| RStatus
| RReload
| RUnlockWithKey (collection : str) (key : bytes) (pin : bool)
| RChangeKey (collection : str) (old_key new_salt : bytes) (new_kdf : KdfParams) (new_key : bytes).

Record CollectionStatus : Type := {
  cs_id : str; cs_label : str; cs_locked : bool; cs_items : Z; cs_warning : option str
}.

Inductive Response : Type :=
| POk
| PStatus (collections : list CollectionStatus) (uptime_secs : Z) (aliases_error : option str)
| PError (message : str).

(** The text of an operating-system error is left to its kind. *)
Inductive ProtocolError : Type :=
| Connect (e : io_error)
| Io (e : io_error)
| FrameTooLarge (len : Z)
| Encoding
| NoRuntimeDir
| UnsupportedVersion (v : byte)
| TrailingBytes (n : Z)
| UntrustedPeer (expected actual : Z).

(** ** Frames *)

(** [postcard::to_slice]: the encoding, if it fits the buffer. *)
Inductive slice_error : Type := BufferFull | OtherEncoding.

Definition to_slice {A} `{Postcard A} (msg : A) (room : Z) : result bytes slice_error :=
  match to_allocvec msg with
  | None => Err OtherEncoding
  | Some b => if zlen b <=? room then Ok b else Err BufferFull
  end.

Definition SCRATCH : Z := 8 * 1024.

Definition encode_frame {A} `{Postcard A} (msg : A) : result bytes ProtocolError :=
  let? body :=
    match to_slice msg SCRATCH with
    | Ok slice => Ok slice
    | Err BufferFull =>
      match to_slice msg (MAX_FRAME + 1) with
      | Ok slice => Ok slice
      | Err BufferFull => Err (FrameTooLarge (MAX_FRAME + 1))
      | Err OtherEncoding => Err Encoding
      end
    | Err OtherEncoding => Err Encoding
    end in
  let framed_len := zlen body + 1 in
  if MAX_FRAME <? framed_len then Err (FrameTooLarge framed_len)
  else Ok (to_be_bytes 4 framed_len ++ PROTOCOL_VERSION :: body).

Definition decode_frame {A} `{Postcard A} (body : bytes) : result A ProtocolError :=
  match body with
  | [] => Err Encoding
  | version :: rest =>
    if bool_decide (version <> PROTOCOL_VERSION) then Err (UnsupportedVersion version)
    else match take_from_bytes rest with
         | None => Err Encoding
         | Some (value, []) => Ok value
         | Some (_, rest) => Err (TrailingBytes (zlen rest))
         end
  end.

(** ** [Read] and [Write]

    [std::io]'s [read_exact] and [write_all] over any implementation of the
    traits.  Both retry an interrupted call, so they take fuel; [None] is
    running out of it. *)

Abbreviation outcome A E S := (option (result A E * S)).

Notation "'run?' x , s <- e ; k" :=
  (match e with
   | None => None
   | Some (Err e', s) => Some (Err e', s)
   | Some (Ok x, s) => k
   end)
  (at level 10, x pattern, s name, e at level 200, k at level 200) : rust_scope.

Definition with_error {A E F S} (f : E -> F) (o : outcome A E S) : outcome A F S :=
  match o with
  | None => None
  | Some (r, s) => Some (map_err f r, s)
  end.

Definition is_interrupted (e : io_error) : bool := bool_decide (io_kind e = Interrupted).

Definition READ_EXACT_EOF := IoError UnexpectedEof None.
Definition WRITE_ALL_EOF := IoError WriteZero None.

Section transfer.
Context {S : Type}.
Context (read : nat -> S -> result bytes io_error * S).
Context (write : bytes -> S -> result nat io_error * S) (flush : S -> result unit io_error * S).

Fixpoint read_exact (fuel len : nat) (buf : bytes) (s : S) : outcome bytes io_error S :=
  match len with
  | O => Some (Ok buf, s)
  | _ =>
    match fuel with
    | O => None
    | Datatypes.S fuel =>
      match read len s with
      | (Ok [], s) => Some (Err READ_EXACT_EOF, s)
      | (Ok bs, s) => read_exact fuel (len - length bs) (buf ++ bs) s
      | (Err e, s) => if is_interrupted e then read_exact fuel len buf s else Some (Err e, s)
      end
    end
  end.

Fixpoint write_buf (fuel : nat) (buf : bytes) (s : S) : outcome unit io_error S :=
  match buf with
  | [] => Some (Ok tt, s)
  | _ =>
    match fuel with
    | O => None
    | Datatypes.S fuel =>
      match write buf s with
      | (Ok O, s) => Some (Err WRITE_ALL_EOF, s)
      | (Ok n, s) => write_buf fuel (drop n buf) s
      | (Err e, s) => if is_interrupted e then write_buf fuel buf s else Some (Err e, s)
      end
    end
  end.

Definition read_frame_sync (fuel : nat) (s : S) : outcome bytes ProtocolError S :=
  run? prefix, s <- with_error Io (read_exact fuel 4 [] s);
  let len := from_be_bytes prefix in
  if MAX_FRAME <? len then Some (Err (FrameTooLarge len), s)
  else with_error Io (read_exact fuel (Z.to_nat len) [] s).

Definition write_frame_sync (fuel : nat) (frame : bytes) (s : S) : outcome unit io_error S :=
  run? _, s <- write_buf fuel frame s;
  Some (flush s).
End transfer.

(** ** Where the socket is *)

(** [Path::join] with a relative component, on the bytes of the path. *)
Definition join_bytes (p q : bytes) : bytes :=
  match last p with
  | None => q
  | Some c => if bool_decide (c = x2f) then p ++ q else p ++ x2f :: q
  end.

Definition socket_path_for_runtime_dir (dir : bytes) : bytes :=
  join_bytes (join_bytes dir (utf8 (lit "secret-manager"))) (utf8 (lit "control.sock")).

Definition socket_path_from (runtime_dir : option bytes) : result bytes ProtocolError :=
  match runtime_dir with
  | Some (c :: v) => Ok (socket_path_for_runtime_dir (c :: v))
  | _ => Err NoRuntimeDir
  end.

(** The 108 bytes of [sun_path], and the length passed with them. *)
Definition SUN_PATH : nat := 108.

Definition unix_addr (path : bytes) : result (bytes * Z) ProtocolError :=
  match path with
  | [] => Err (Connect (IoError InvalidInput None))
  | _ =>
    if (SUN_PATH <=? length path)%nat then Err (Connect (IoError InvalidInput None))
    else Ok (path ++ repeat x00 (SUN_PATH - length path), 2 + zlen path + 1)
  end.

(** ** The connection *)

Record link : Type := Link { clock : Z; turn : nat; sent : bytes; got : bytes }.

Class Net : Type := {
  net_took : link -> Z;                              (** until this request is answered *)
  net_opt : link -> option io_error;                 (** [socket], [setsockopt], [fcntl] *)
  net_connect : link -> bytes * Z -> option io_error;
  net_so_error : link -> result Z io_error;
  net_poll : link -> result unit io_error;
  net_uid : link -> result Z io_error;               (** [SO_PEERCRED] *)
  net_recv : link -> nat -> result bytes io_error;
  net_send : link -> bytes -> result nat io_error
}.

(** Waiting takes time, the kernel fills or takes no more than it was given, and
    setting a socket option is not interruptible. *)
Class NetOk (N : Net) : Prop := {
  net_opt_kind l e : net_opt l = Some e -> io_kind e <> Interrupted;
  net_took_pos l : 1 <= net_took l;
  net_recv_length l n b : net_recv l n = Ok b -> (length b <= n)%nat;
  net_send_length l b n : net_send l b = Ok n -> (n <= length b)%nat
}.

Definition tock (l : link) (dt : Z) : link := Link (clock l + dt) (S (turn l)) (sent l) (got l).
Definition with_sent (l : link) (b : bytes) : link := Link (clock l) (turn l) (sent l ++ b) (got l).
Definition with_got (l : link) (b : bytes) : link := Link (clock l) (turn l) (sent l) (got l ++ b).

Definition EAGAIN := IoError WouldBlock (Some 11).
Definition millisecond : Z := 1000000.

(** What [set_read_timeout] stores for a non-zero duration: microseconds, and
    never zero, which would mean no timeout. *)
Definition timeval (d : Z) : Z := if d <? 1000 then 1000 else 1000 * (d / 1000).

(** [Deadline]. *)
Record Deadline : Type := { start : Z; budget : Z }.

Definition left_of (start budget : Z) (l : link) : option Z :=
  let! d := checked_sub budget (clock l - start) in
  if d =? 0 then None else Some d.

Definition deadline_error : ProtocolError := Io (IoError TimedOut None).

Definition remaining (d : Deadline) (l : link) : result Z ProtocolError :=
  ok_or (left_of (start d) (budget d) l) deadline_error.

Definition remaining_io (d : Deadline) (l : link) : result Z io_error :=
  ok_or (left_of (start d) (budget d) l) (IoError TimedOut None).

Definition remaining_or_timeout (start deadline : Z) (l : link) : result Z ProtocolError :=
  ok_or (left_of start deadline l) (Connect (IoError TimedOut None)).

Definition normalize_timeout (e : ProtocolError) : ProtocolError :=
  match e with
  | Io io =>
    if bool_decide (io_kind io = WouldBlock) || bool_decide (io_kind io = TimedOut)
    then Io (IoError TimedOut None) else e
  | _ => e
  end.

Section net.
Context `{Net}.

(** A request that only sets or reads something returns at once. *)
Definition option_call (l : link) : result unit io_error * link :=
  (match net_opt l with Some e => Err e | None => Ok tt end, tock l 0).

(** [recv] and [send] under [SO_RCVTIMEO] and [SO_SNDTIMEO]. *)
Definition recv (timeout : Z) (len : nat) (l : link) : result bytes io_error * link :=
  if net_took l <=? timeout then
    match net_recv l len with
    | Ok b => (Ok b, with_got (tock l (net_took l)) b)
    | Err e => (Err e, tock l (net_took l))
    end
  else (Err EAGAIN, tock l timeout).

Definition send (timeout : Z) (buf : bytes) (l : link) : result nat io_error * link :=
  if net_took l <=? timeout then
    match net_send l buf with
    | Ok n => (Ok n, with_sent (tock l (net_took l)) (take n buf))
    | Err e => (Err e, tock l (net_took l))
    end
  else (Err EAGAIN, tock l timeout).

(** The [Read] and [Write] of [TimedStream]. *)
Definition arm (d : Deadline) (l : link) : result Z io_error * link :=
  match remaining_io d l with
  | Err e => (Err e, l)
  | Ok avail => match option_call l with
               | (Err e, l) => (Err e, l)
               | (Ok _, l) => (Ok (timeval avail), l)
               end
  end.

Definition timed_read (d : Deadline) (len : nat) (l : link) : result bytes io_error * link :=
  match arm d l with
  | (Err e, l) => (Err e, l)
  | (Ok timeout, l) => recv timeout len l
  end.

Definition timed_write (d : Deadline) (buf : bytes) (l : link) : result nat io_error * link :=
  match arm d l with
  | (Err e, l) => (Err e, l)
  | (Ok timeout, l) => send timeout buf l
  end.

(** [UnixStream::flush] does nothing. *)
Definition timed_flush (d : Deadline) (l : link) : result unit io_error * link :=
  match arm d l with
  | (Err e, l) => (Err e, l)
  | (Ok _, l) => (Ok tt, l)
  end.

Definition i32_max : Z := 2147483647.

Fixpoint wait_writable (fuel : nat) (start budget : Z) (l : link) : outcome unit ProtocolError link :=
  match fuel with
  | O => None
  | S fuel =>
    match remaining_or_timeout start budget l with
    | Err e => Some (Err e, l)
    | Ok avail =>
      let millis := Z.min (avail / millisecond) i32_max in
      let timeout := Z.max millis 1 * millisecond in
      if net_took l <=? timeout then
        match net_poll l with
        | Ok _ => Some (Ok tt, tock l (net_took l))
        | Err e =>
          if bool_decide (io_errno e = Some 4) then wait_writable fuel start budget (tock l (net_took l))
          else Some (Err (Connect e), tock l (net_took l))
        end
      else wait_writable fuel start budget (tock l timeout)
    end
  end.

(** [connect_with_deadline]'s loop. *)
Fixpoint connect_loop (fuel : nat) (addr : bytes * Z) (start deadline : Z) (l : link)
  : outcome unit ProtocolError link :=
  match fuel with
  | O => None
  | S fuel =>
    match option_call l with
    | (Err e, l) => Some (Err (Connect e), l)
    | (Ok _, l) =>
      match net_connect l addr with
      | None =>
        let l := tock l 0 in
        let '(r, l) := option_call l in Some (map_err Io r, l)
      | Some err =>
        let l := tock l 0 in
        if bool_decide (io_errno err = Some 115) then
          match remaining_or_timeout start deadline l with
          | Err e => Some (Err e, l)
          | Ok avail =>
            run? _, l <- wait_writable fuel (clock l) avail l;
            match net_so_error l with
            | Err e => Some (Err (Connect e), tock l 0)
            | Ok so_error =>
              let l := tock l 0 in
              if so_error =? 0 then let '(r, l) := option_call l in Some (map_err Io r, l)
              else Some (Err (Connect (IoError OtherKind (Some so_error))), l)
            end
          end
        else if bool_decide (io_errno err = Some 11) || bool_decide (io_errno err = Some 4) then
          match remaining_or_timeout start deadline l with
          | Err e => Some (Err e, l)
          | Ok avail => connect_loop fuel addr start deadline (tock l (Z.min avail (20 * millisecond)))
          end
        else Some (Err (Connect err), l)
      end
    end
  end.

Definition connect_with_deadline (fuel : nat) (path : bytes) (deadline : Z) (l : link)
  : outcome unit ProtocolError link :=
  match unix_addr path with
  | Err e => Some (Err e, l)
  | Ok addr => connect_loop fuel addr (clock l) deadline l
  end.

Definition peer_uid (l : link) : result Z ProtocolError * link :=
  (map_err Io (net_uid l), tock l 0).

Context `{Postcard Request} `{Postcard Response}.

Definition call_inner (fuel : nat) (path : bytes) (req : Request) (uid timeout : Z) (l : link)
  : outcome Response ProtocolError link :=
  let deadline := {| start := clock l; budget := timeout |} in
  match remaining deadline l with
  | Err e => Some (Err e, l)
  | Ok avail =>
    run? _, l <- connect_with_deadline fuel path avail l;
    match peer_uid l with
    | (Err e, l) => Some (Err e, l)
    | (Ok actual, l) =>
      if negb (actual =? uid) then Some (Err (UntrustedPeer uid actual), l)
      else match encode_frame req with
           | Err e => Some (Err e, l)
           | Ok frame =>
             run? _, l <- with_error (fun e => normalize_timeout (Io e))
                            (write_frame_sync (timed_write deadline) (timed_flush deadline) fuel frame l);
             run? body, l <- with_error normalize_timeout (read_frame_sync (timed_read deadline) fuel l);
             Some (decode_frame body, l)
           end
    end
  end.

Definition call_expecting_uid (fuel : nat) (path : bytes) (req : Request) (uid : Z) (l : link) :=
  call_inner fuel path req uid CALL_TIMEOUT l.
End net.

(** ** Lemmas: frames *)

Lemma to_slice_spec {A} `{Postcard A} (msg : A) room b :
  to_slice msg room = Ok b <-> to_allocvec msg = Some b /\ zlen b <= room.
Proof.
  unfold to_slice. destruct (to_allocvec msg) as [x|]; [|naive_solver].
  destruct (zlen x <=? room) eqn:E; bool_to_prop; split; intros; destruct_and?; simplify_eq; try done; lia.
Qed.

Lemma encode_frame_spec {A} `{Postcard A} (msg : A) f :
  encode_frame msg = Ok f <->
  exists b, to_allocvec msg = Some b /\ zlen b + 1 <= MAX_FRAME
            /\ f = to_be_bytes 4 (zlen b + 1) ++ PROTOCOL_VERSION :: b.
Proof.
  unfold encode_frame, to_slice. destruct (to_allocvec msg) as [b|]; [|split; [done|naive_solver]].
  assert (MAX_FRAME = 1048576) as -> by done. assert (SCRATCH = 8192) as -> by done.
  destruct (zlen b <=? 8192) eqn:E1; bool_to_prop; [|destruct (zlen b <=? 1048576 + 1) eqn:E2; bool_to_prop].
  1,2: destruct (1048576 <? zlen b + 1) eqn:E3; bool_to_prop; split;
    [done|intros (x & [= <-] & ? & _); lia|intros [= <-]; eauto|intros (x & [= <-] & ? & ->); done].
  split; [done|]. intros (x & [= <-] & ? & _). lia.
Qed.

Lemma encode_frame_too_large {A} `{Postcard A} (msg : A) b :
  to_allocvec msg = Some b -> MAX_FRAME < zlen b + 1 ->
  exists n, encode_frame msg = Err (FrameTooLarge n) /\ MAX_FRAME < n <= zlen b + 1.
Proof.
  unfold encode_frame, to_slice. intros ->.
  assert (MAX_FRAME = 1048576) as -> by done. assert (SCRATCH = 8192) as -> by done. intros Hb.
  destruct (zlen b <=? 8192) eqn:E1; bool_to_prop; [lia|].
  destruct (zlen b <=? 1048576 + 1) eqn:E2; bool_to_prop.
  - destruct (1048576 <? zlen b + 1) eqn:E3; bool_to_prop; [|lia]. eexists. split; [done|lia].
  - eexists. split; [done|lia].
Qed.

Lemma decode_encoded {A} `{PostcardOk A} (msg : A) b :
  pc_wf msg -> to_allocvec msg = Some b -> decode_frame (PROTOCOL_VERSION :: b) = Ok msg.
Proof.
  intros Hwf Hb. unfold decode_frame. rewrite bool_decide_false by (intros Hn; by apply Hn).
  pose proof (pc_roundtrip _ _ [] Hwf Hb) as Hr. rewrite app_nil_r in Hr. by rewrite Hr.
Qed.

Lemma decode_frame_spec {A} `{Postcard A} (body : bytes) (msg : A) :
  decode_frame body = Ok msg <->
  exists rest, body = PROTOCOL_VERSION :: rest /\ take_from_bytes rest = Some (msg, []).
Proof.
  unfold decode_frame. destruct body as [|v rest]; [split; [done|naive_solver]|].
  destruct (bool_decide (v <> PROTOCOL_VERSION)) eqn:E; bool_to_prop.
  - split; [done|]. intros (r & [= -> ->] & _). done.
  - apply dec_stable in E as ->. destruct (take_from_bytes rest) as [[x [|c r]]|] eqn:Er; split.
    + intros [= ->]. eauto.
    + intros (r & [= ->] & E). rewrite Er in E. congruence.
    + done.
    + intros (r' & [= ->] & E). rewrite Er in E. done.
    + done.
    + intros (r' & [= ->] & E). rewrite Er in E. done.
Qed.

(** ** Lemmas: transfers *)

Section transfer_lemmas.
Context {S : Type} (read : nat -> S -> result bytes io_error * S).
Context (write : bytes -> S -> result nat io_error * S).

(** A preorder every request respects is respected by the loops. *)
Lemma read_exact_rel (R : S -> S -> Prop) `{!PreOrder R} fuel len buf s r s' :
  (forall n s r s', read n s = (r, s') -> R s s') ->
  read_exact read fuel len buf s = Some (r, s') -> R s s'.
Proof.
  intros Hr. revert len buf s. induction fuel as [|fuel IH]; intros [|len] buf s; simpl;
    try (by intros [= _ <-]); try done.
  destruct (read (Datatypes.S len) s) as [[[|c b]|e] s1] eqn:E; apply Hr in E.
  - by intros [= _ <-].
  - intros ?%IH. by transitivity s1.
  - destruct (is_interrupted e); [|by intros [= _ <-]]. intros ?%IH. by transitivity s1.
Qed.

Lemma write_buf_rel (R : S -> S -> Prop) `{!PreOrder R} fuel buf s r s' :
  (forall b s r s', write b s = (r, s') -> R s s') ->
  write_buf write fuel buf s = Some (r, s') -> R s s'.
Proof.
  intros Hr. revert buf s. induction fuel as [|fuel IH]; intros [|c b] s; simpl;
    try (by intros [= _ <-]); try done.
  destruct (write (c :: b) s) as [[[|n]|e] s1] eqn:E; apply Hr in E.
  - by intros [= _ <-].
  - intros ?%IH. by transitivity s1.
  - destruct (is_interrupted e); [|by intros [= _ <-]]. intros ?%IH. by transitivity s1.
Qed.

(** With a measure every retried or partial request decreases, they end. *)
Lemma read_exact_total (m : S -> nat) fuel len buf s :
  (forall n s c b s', read n s = (Ok (c :: b), s') -> (m s' < m s)%nat) ->
  (forall n s e s', read n s = (Err e, s') -> is_interrupted e = true -> (m s' < m s)%nat) ->
  (m s < fuel)%nat -> exists r s', read_exact read fuel len buf s = Some (r, s').
Proof.
  intros H1 H2. revert len buf s. induction fuel as [|fuel IH]; intros [|len] buf s Hm; simpl; eauto; try lia.
  destruct (read (Datatypes.S len) s) as [[[|c b]|e] s1] eqn:E; eauto.
  - apply H1 in E. apply IH. lia.
  - destruct (is_interrupted e) eqn:Ei; eauto. apply H2 in E; [|done]. apply IH. lia.
Qed.

Lemma write_buf_total (m : S -> nat) fuel buf s :
  (forall b s n s', write b s = (Ok (Datatypes.S n), s') -> (m s' < m s)%nat) ->
  (forall b s e s', write b s = (Err e, s') -> is_interrupted e = true -> (m s' < m s)%nat) ->
  (m s < fuel)%nat -> exists r s', write_buf write fuel buf s = Some (r, s').
Proof.
  intros H1 H2. revert buf s. induction fuel as [|fuel IH]; intros [|c b] s Hm; simpl; eauto; try lia.
  destruct (write (c :: b) s) as [[[|n]|e] s1] eqn:E; eauto.
  - apply H1 in E. apply IH. lia.
  - destruct (is_interrupted e) eqn:Ei; eauto. apply H2 in E; [|done]. apply IH. lia.
Qed.

(** What a successful read returns is exactly what arrived. *)
Lemma read_exact_got (tr : S -> bytes) fuel len buf s r s' :
  (forall n s b s', read n s = (Ok b, s') -> tr s' = tr s ++ b /\ (length b <= n)%nat) ->
  (forall n s e s', read n s = (Err e, s') -> tr s' = tr s) ->
  read_exact read fuel len buf s = Some (Ok r, s') ->
  exists bs, r = buf ++ bs /\ tr s' = tr s ++ bs /\ length bs = len.
Proof.
  intros H1 H2. revert len buf s. induction fuel as [|fuel IH]; intros [|len] buf s; simpl;
    try (by intros [= <- <-]; exists []; rewrite !app_nil_r); try done.
  destruct (read (Datatypes.S len) s) as [[[|c b]|e] s1] eqn:E; [done| |].
  - apply H1 in E as [Ht Hl]. intros (bs & -> & -> & Hlen)%IH.
    exists ((c :: b) ++ bs). rewrite Ht, <- !app_assoc. split_and!; [done..|].
    rewrite length_app. cbn [length] in Hlen, Hl |- *. lia.
  - apply H2 in E. destruct (is_interrupted e); [|done]. intros (bs & -> & -> & Hlen)%IH.
    exists bs. by rewrite E.
Qed.

(** What is written is a prefix of the buffer, all of it on success. *)
Lemma write_buf_sent (tr : S -> bytes) fuel buf s r s' :
  (forall b s n s', write b s = (Ok n, s') -> tr s' = tr s ++ take n b /\ (n <= length b)%nat) ->
  (forall b s e s', write b s = (Err e, s') -> tr s' = tr s) ->
  write_buf write fuel buf s = Some (r, s') ->
  exists p q, buf = p ++ q /\ tr s' = tr s ++ p /\ (r = Ok tt -> q = []).
Proof.
  intros H1 H2. revert buf s. induction fuel as [|fuel IH]; intros [|c b] s; simpl;
    try (by intros [= <- <-]; exists [], []; rewrite !app_nil_r); try done.
  destruct (write (c :: b) s) as [[[|n]|e] s1] eqn:E.
  - apply H1 in E as [Ht _]. intros [= <- <-]. exists [], (c :: b). by rewrite Ht.
  - apply H1 in E as [Ht Hl]. intros (p & q & Hd & -> & Hq)%IH.
    exists (take (Datatypes.S n) (c :: b) ++ p), q. rewrite Ht, <- app_assoc. split_and!; [|by rewrite <- app_assoc|done].
    rewrite <- Hd. change (drop n b) with (drop (Datatypes.S n) (c :: b)). by rewrite take_drop.
  - apply H2 in E. destruct (is_interrupted e).
    + intros (p & q & -> & -> & Hq)%IH. exists p, q. by rewrite E.
    + intros [= <- <-]. exists [], (c :: b). by rewrite E, app_nil_r.
Qed.

(** A stream that keeps delivering [bs], in pieces of any size. *)
Lemma read_exact_serves (serves : S -> bytes -> Prop) fuel len buf s bs :
  (forall n s bs, serves s bs -> (0 < n)%nat -> bs <> [] ->
     exists c b rest s', read n s = (Ok (c :: b), s') /\ (length (c :: b) <= n)%nat
                         /\ bs = (c :: b) ++ rest /\ serves s' rest) ->
  serves s bs -> (len <= length bs)%nat -> (len <= fuel)%nat ->
  exists s', read_exact read fuel len buf s = Some (Ok (buf ++ take len bs), s') /\ serves s' (drop len bs).
Proof.
  intros Hr. revert len buf s bs. induction fuel as [|fuel IH]; intros [|len] buf s bs Hs Hl Hf; simpl;
    try (exists s; rewrite ?take_0, ?drop_0, app_nil_r; done); try lia.
  destruct (Hr (Datatypes.S len) s bs) as (c & b & rest & s1 & E & Hlen & -> & Hs1);
    [done|lia|by destruct bs; cbn [length] in Hl; [lia|]|].
  rewrite E. cbn [length] in Hlen. rewrite length_app in Hl. cbn [length] in Hl.
  destruct (IH (Datatypes.S len - length (c :: b))%nat (buf ++ c :: b) s1 rest) as (s' & E' & Hs'); [done|cbn [length]; lia..|].
  exists s'. cbn [length] in *. rewrite E'.
  rewrite take_app_ge, drop_app_ge by (cbn [length]; lia). rewrite <- app_assoc. done.
Qed.
End transfer_lemmas.

(** ** Lemmas: the connection *)

(** Time goes on, and not past the deadline by a millisecond. *)
Definition within (deadline : Z) (l l' : link) : Prop :=
  clock l <= clock l' <= Z.max (clock l) (deadline + (millisecond - 1)).

#[global] Instance within_preorder d : PreOrder (within d).
Proof. split; [intros l|intros a b c]; unfold within, millisecond; lia. Qed.

(** Neither side's bytes change. *)
Definition quiet (l l' : link) : Prop := sent l' = sent l /\ got l' = got l.

#[global] Instance quiet_preorder : PreOrder quiet.
Proof. split; [done|]. intros a b c [H1 H2] [H3 H4]. split; congruence. Qed.

(** Nanoseconds left. *)
Definition until (deadline : Z) (l : link) : nat := Z.to_nat (deadline - clock l).

Lemma left_of_Some start budget l avail :
  left_of start budget l = Some avail -> avail = start + budget - clock l /\ 0 < avail.
Proof.
  unfold left_of, checked_sub. destruct (budget <? clock l - start) eqn:E; [done|]. bool_to_prop.
  destruct (budget - (clock l - start) =? 0) eqn:E2; [done|]. bool_to_prop. intros [= <-]. lia.
Qed.

Lemma timeval_range d : 0 < d -> 1000 <= timeval d <= Z.max 1000 d.
Proof.
  intros Hd. unfold timeval. destruct (d <? 1000) eqn:E; bool_to_prop; [lia|].
  pose proof (Z.mul_div_le d 1000 ltac:(lia)). pose proof (Z.div_le_mono 1000 d 1000 ltac:(lia) ltac:(lia)) as Hm.
  change (1000 / 1000) with 1 in Hm. lia.
Qed.

(** Preorders by comparing a field. *)
#[global] Instance eq_on_preorder {A B} (f : A -> B) : PreOrder (fun a b => f b = f a).
Proof. split; [done|]. intros x y z; congruence. Qed.

#[global] Instance le_on_preorder {A} (f : A -> Z) : PreOrder (fun a b => f a <= f b).
Proof. split; [intros ?; lia|intros ? ? ?; lia]. Qed.

Section net_lemmas.
Context `{HN : Net} `{!NetOk HN}.

Lemma option_call_spec l r l' : option_call l = (r, l') ->
  quiet l l' /\ clock l' = clock l /\ forall e, r = Err e -> io_kind e <> Interrupted.
Proof.
  unfold option_call. destruct (net_opt l) as [e|] eqn:E; intros [= <- <-];
    (split_and!; [done|simpl; lia|]); intros e' [= <-]. by eapply net_opt_kind.
Qed.

Lemma arm_spec d l r l' : arm d l = (r, l') ->
  quiet l l' /\ clock l' = clock l
  /\ match r with
     | Ok timeout => clock l < start d + budget d
                     /\ 1000 <= timeout <= Z.max 1000 (start d + budget d - clock l)
     | Err e => is_interrupted e = false
     end.
Proof.
  unfold arm, remaining_io. destruct (left_of (start d) (budget d) l) as [avail|] eqn:E; cbn [ok_or].
  - apply left_of_Some in E as [-> Hp]. destruct (option_call l) as [[u|e] l1] eqn:Eo;
      apply option_call_spec in Eo as (Hq & Hc & Hk); intros [= <- <-]; (split; [done|split; [done|]]).
    + split; [lia|]. by apply timeval_range.
    + unfold is_interrupted. by apply bool_decide_false, Hk.
  - intros [= <- <-]. done.
Qed.

Lemma timed_read_spec d n l r l' : timed_read d n l = (r, l') ->
  within (start d + budget d) l l' /\ sent l' = sent l
  /\ match r with
     | Ok b => got l' = got l ++ b /\ (length b <= n)%nat /\ (until (start d + budget d) l' < until (start d + budget d) l)%nat
     | Err e => got l' = got l /\ (is_interrupted e = true -> (until (start d + budget d) l' < until (start d + budget d) l)%nat)
     end.
Proof.
  unfold timed_read. destruct (arm d l) as [[timeout|e] l1] eqn:Ea; apply arm_spec in Ea as ([Hs Hg] & Hc & Ha).
  - pose proof (net_took_pos l1). unfold recv, until, within, millisecond.
    destruct (net_took l1 <=? timeout) eqn:Et; bool_to_prop.
    + destruct (net_recv l1 n) as [b|e] eqn:Er; intros [= <- <-]; simpl; rewrite ?Hc, ?Hg; (split_and!; try done; try lia).
      by eapply net_recv_length.
    + intros [= <- <-]. simpl. rewrite Hc. split_and!; try done; lia.
  - intros [= <- <-]. unfold within, millisecond. rewrite Hc, Hs, Hg, Ha. split_and!; try done; lia.
Qed.

Lemma timed_write_spec d b l r l' : timed_write d b l = (r, l') ->
  within (start d + budget d) l l' /\ got l' = got l
  /\ match r with
     | Ok n => sent l' = sent l ++ take n b /\ (n <= length b)%nat
               /\ (until (start d + budget d) l' < until (start d + budget d) l)%nat
     | Err e => sent l' = sent l /\ (is_interrupted e = true -> (until (start d + budget d) l' < until (start d + budget d) l)%nat)
     end.
Proof.
  unfold timed_write. destruct (arm d l) as [[timeout|e] l1] eqn:Ea; apply arm_spec in Ea as ([Hs Hg] & Hc & Ha).
  - pose proof (net_took_pos l1). unfold send, until, within, millisecond.
    destruct (net_took l1 <=? timeout) eqn:Et; bool_to_prop.
    + destruct (net_send l1 b) as [n|e] eqn:Er; intros [= <- <-]; simpl; rewrite ?Hc, ?Hs; (split_and!; try done; try lia).
      by eapply net_send_length.
    + intros [= <- <-]. simpl. rewrite Hc. split_and!; try done; lia.
  - intros [= <- <-]. unfold within, millisecond. rewrite Hc, Hs, Hg, Ha. split_and!; try done; lia.
Qed.

Lemma remaining_or_timeout_Ok s b l avail : remaining_or_timeout s b l = Ok avail ->
  avail = s + b - clock l /\ 0 < avail.
Proof.
  unfold remaining_or_timeout. destruct (left_of s b l) eqn:E; [|done]. intros [= <-]. by apply left_of_Some.
Qed.

Lemma poll_timeout avail : 0 < avail ->
  millisecond <= Z.max (Z.min (avail / millisecond) i32_max) 1 * millisecond <= Z.max avail millisecond.
Proof.
  intros. unfold millisecond. pose proof (Z.mul_div_le avail 1000000 ltac:(lia)). lia.
Qed.

Lemma wait_writable_spec fuel s b l r l' : wait_writable fuel s b l = Some (r, l') ->
  within (s + b) l l' /\ quiet l l'.
Proof.
  revert l. induction fuel as [|fuel IH]; intros l; simpl; [done|].
  destruct (remaining_or_timeout s b l) as [avail|] eqn:E; [|by intros [= _ <-]].
  apply remaining_or_timeout_Ok in E as [-> Hp]. pose proof (poll_timeout _ Hp) as Ht. pose proof (net_took_pos l).
  set (timeout := Z.max _ 1 * millisecond) in *. assert (Hms : 0 < millisecond) by done.
  assert (Hw : forall dt, 0 <= dt <= timeout -> within (s + b) l (tock l dt) /\ quiet l (tock l dt)).
  { intros dt Hdt. split; [|done]. unfold within. simpl. clearbody timeout. unfold millisecond in *. lia. }
  assert (Hstep : forall dt, 0 <= dt <= timeout -> wait_writable fuel s b (tock l dt) = Some (r, l') ->
            within (s + b) l l' /\ quiet l l').
  { intros dt [H1 H2]%Hw [H3 H4]%IH. split; by etransitivity. }
  destruct (net_took l <=? timeout) eqn:Et; bool_to_prop; [|apply Hstep; lia].
  destruct (net_poll l) as [|e]; [intros [= _ <-]; apply Hw; lia|].
  destruct (bool_decide _); [apply Hstep; lia|]. intros [= _ <-]. apply Hw. lia.
Qed.

Lemma wait_writable_total fuel s b l : (until (s + b) l < fuel)%nat ->
  exists r l', wait_writable fuel s b l = Some (r, l').
Proof.
  revert l. induction fuel as [|fuel IH]; intros l Hf; [lia|]. simpl.
  destruct (remaining_or_timeout s b l) as [avail|] eqn:E; [|eauto].
  apply remaining_or_timeout_Ok in E as [-> Hp]. pose proof (poll_timeout _ Hp) as Ht. pose proof (net_took_pos l).
  set (timeout := Z.max _ 1 * millisecond) in *. assert (Hms : 0 < millisecond) by done.
  assert (Hstep : forall dt, 1 <= dt -> exists r l', wait_writable fuel s b (tock l dt) = Some (r, l')).
  { intros dt Hdt. apply IH. unfold until in *. simpl. lia. }
  destruct (net_took l <=? timeout); [|apply Hstep; unfold millisecond in *; lia].
  destruct (net_poll l) as [|e]; [eauto|]. destruct (bool_decide _); [by apply Hstep|eauto].
Qed.

Lemma connect_loop_spec fuel addr s b l r l' : connect_loop fuel addr s b l = Some (r, l') ->
  within (s + b) l l' /\ quiet l l'.
Proof.
  revert l. induction fuel as [|fuel IH]; intros l; cbn [connect_loop]; [done|].
  assert (Hopt : forall l r l', option_call l = (r, l') -> within (s + b) l l' /\ quiet l l').
  { intros l0 r0 l0' (Hq & Hc & _)%option_call_spec. split; [unfold within; lia|done]. }
  assert (Htock : forall l, within (s + b) l (tock l 0) /\ quiet l (tock l 0)).
  { intros l0. split; [unfold within; simpl; lia|done]. }
  assert (Htrans : forall a b0 c, within (s + b) a b0 /\ quiet a b0 -> within (s + b) b0 c /\ quiet b0 c ->
            within (s + b) a c /\ quiet a c).
  { intros x y z [H1 H2] [H3 H4]. split; by etransitivity. }
  destruct (option_call l) as [[u|e] l1] eqn:E1; apply Hopt in E1; [|by intros [= _ <-]].
  pose proof (Htrans _ _ _ E1 (Htock l1)) as E2.
  destruct (net_connect l1 addr) as [err|].
  2:{ destruct (option_call (tock l1 0)) as [r2 l2] eqn:E3. apply Hopt in E3. intros [= _ <-]. eauto. }
  destruct (bool_decide (io_errno err = Some 115)).
  - destruct (remaining_or_timeout s b (tock l1 0)) as [avail|] eqn:Er; [|by intros [= _ <-]].
    apply remaining_or_timeout_Ok in Er as [-> Hp].
    destruct (wait_writable _ _ _ _) as [[[u'|e] l2]|] eqn:Ew; [|intros [= _ <-]|done].
    all: apply wait_writable_spec in Ew; replace (clock (tock l1 0) + (s + b - clock (tock l1 0))) with (s + b) in Ew by lia.
    2: eauto.
    destruct (net_so_error l2) as [so|e]; [|intros [= _ <-]; eauto].
    destruct (so =? 0); [|intros [= _ <-]; eauto].
    destruct (option_call (tock l2 0)) as [r3 l3] eqn:E3. apply Hopt in E3. intros [= _ <-]. eauto.
  - destruct (_ || _); [|by intros [= _ <-]].
    destruct (remaining_or_timeout s b (tock l1 0)) as [avail|] eqn:Er; [|by intros [= _ <-]].
    apply remaining_or_timeout_Ok in Er as [-> Hp]. intros E%IH. eapply Htrans; [exact E2|].
    eapply Htrans; [|exact E]. split; [|done]. unfold within, millisecond in *. simpl in *. lia.
Qed.

Lemma connect_loop_total fuel addr s b l : (S (until (s + b) l) < fuel)%nat ->
  exists r l', connect_loop fuel addr s b l = Some (r, l').
Proof.
  revert l. induction fuel as [|fuel IH]; intros l Hf; [lia|]. cbn [connect_loop].
  destruct (option_call l) as [[u|e] l1] eqn:E1; apply option_call_spec in E1 as (_ & Hc & _); [|eauto].
  destruct (net_connect l1 addr) as [err|]; [|destruct (option_call _); eauto].
  destruct (bool_decide (io_errno err = Some 115)).
  - destruct (remaining_or_timeout s b (tock l1 0)) as [avail|] eqn:Er; [|eauto].
    apply remaining_or_timeout_Ok in Er as [-> Hp].
    destruct (wait_writable_total fuel (clock (tock l1 0)) (s + b - clock (tock l1 0)) (tock l1 0)) as ([u'|e] & l2 & ->).
    { unfold until in *. simpl in *. lia. }
    + destruct (net_so_error l2) as [so|e]; [|eauto]. destruct (so =? 0); [|eauto]. destruct (option_call _); eauto.
    + eauto.
  - destruct (_ || _); [|eauto]. destruct (remaining_or_timeout s b (tock l1 0)) as [avail|] eqn:Er; [|eauto].
    apply remaining_or_timeout_Ok in Er as [-> Hp]. apply IH. unfold until, millisecond in *. simpl in *. lia.
Qed.

Lemma write_frame_spec d fuel frame l r l' :
  write_frame_sync (timed_write d) (timed_flush d) fuel frame l = Some (r, l') ->
  within (start d + budget d) l l' /\ got l' = got l
  /\ exists p q, frame = p ++ q /\ sent l' = sent l ++ p /\ (r = Ok tt -> q = []).
Proof.
  unfold write_frame_sync. destruct (write_buf _ fuel frame l) as [[r1 l1]|] eqn:E; [|done].
  assert (Hw : within (start d + budget d) l l1).
  { eapply (write_buf_rel (timed_write d) (within (start d + budget d))); [|exact E]. intros b s x s' (? & _)%timed_write_spec. done. }
  assert (Hg : got l1 = got l).
  { refine (write_buf_rel (timed_write d) (fun a b => got b = got a) fuel frame l r1 l1 _ E).
    intros b s x s' (_ & ? & _)%timed_write_spec. done. }
  apply (write_buf_sent (timed_write d) sent) in E as (p & q & -> & Hs & Hq).
  2:{ intros b s n s' (_ & _ & ? & ? & _)%timed_write_spec. done. }
  2:{ intros b s e s' (_ & _ & ? & _)%timed_write_spec. done. }
  destruct r1 as [[]|e].
  - destruct (timed_flush d l1) as [r2 l2] eqn:Ef. intros [= <- <-].
    assert (quiet l1 l2 /\ clock l2 = clock l1) as [[Hs2 Hg2] Hc].
    { revert Ef. unfold timed_flush. destruct (arm d l1) as [[t|e] l3] eqn:Ea; apply arm_spec in Ea as (? & ? & _);
        by intros [= _ <-]. }
    split_and!; [|congruence|].
    + etransitivity; [exact Hw|]. unfold within. lia.
    + exists p, q. split_and!; [done|congruence|]. intros _. by apply Hq.
  - intros [= <- <-]. split_and!; [done..|]. exists p, q. done.
Qed.

Lemma read_frame_spec d fuel l r l' : read_frame_sync (timed_read d) fuel l = Some (r, l') ->
  within (start d + budget d) l l' /\ sent l' = sent l
  /\ forall body, r = Ok body -> got l' = got l ++ to_be_bytes 4 (zlen body) ++ body /\ zlen body <= MAX_FRAME.
Proof.
  assert (Hrel : forall n buf a x b, read_exact (timed_read d) fuel n buf a = Some (x, b) ->
            within (start d + budget d) a b /\ sent b = sent a).
  { intros n buf a x b E. split.
    - eapply (read_exact_rel (timed_read d) (within (start d + budget d))); [|exact E]. intros ? ? ? ? (? & _)%timed_read_spec. done.
    - refine (read_exact_rel (timed_read d) (fun a b => sent b = sent a) fuel n buf a x b _ E).
      intros ? ? ? ? (_ & ? & _)%timed_read_spec. done. }
  assert (Hgot : forall n a x b, read_exact (timed_read d) fuel n [] a = Some (Ok x, b) ->
            got b = got a ++ x /\ length x = n).
  { intros n a x b E. apply (read_exact_got _ got) in E as (bs & -> & ? & ?); [done| |].
    - intros ? ? ? ? (_ & _ & ? & ? & _)%timed_read_spec. done.
    - intros ? ? ? ? (_ & _ & ? & _)%timed_read_spec. done. }
  unfold read_frame_sync. destruct (read_exact _ fuel 4 [] l) as [[[lb|e] l1]|] eqn:E1; cbn [with_error map_err];
    [| |done]; pose proof (Hrel _ _ _ _ _ E1) as [Hw Hs].
  2:{ intros [= <- <-]. done. }
  apply Hgot in E1 as [Hg Hl]. destruct (MAX_FRAME <? from_be_bytes lb) eqn:Em; bool_to_prop.
  { intros [= <- <-]. done. }
  destruct (read_exact _ fuel _ [] l1) as [[r2 l2]|] eqn:E2; [|done]. cbn [with_error].
  intros [= <- <-]. pose proof (Hrel _ _ _ _ _ E2) as [Hw2 Hs2].
  split_and!; [by etransitivity|congruence|]. intros body Hb. destruct r2 as [x|]; [|done]. injection Hb as ->.
  apply Hgot in E2 as [Hg2 Hl2]. pose proof (from_be_bytes_range lb).
  assert (zlen body = from_be_bytes lb) as Hz by (unfold zlen; lia).
  rewrite Hg2, Hg, Hz, <- app_assoc. split; [|lia]. rewrite <- Hl, to_from_be_bytes. done.
Qed.

Lemma write_frame_total d fuel frame l : (until (start d + budget d) l < fuel)%nat ->
  exists r l', write_frame_sync (timed_write d) (timed_flush d) fuel frame l = Some (r, l').
Proof.
  intros Hf. unfold write_frame_sync.
  destruct (write_buf_total (timed_write d) (until (start d + budget d)) fuel frame l) as ([u|e] & l1 & ->); [| |done| |].
  - intros b s n s' (_ & _ & _ & _ & ?)%timed_write_spec. done.
  - intros b s e s' (_ & _ & _ & H)%timed_write_spec. exact H.
  - destruct (timed_flush d l1). eauto.
  - eauto.
Qed.

Lemma read_frame_total d fuel l : (until (start d + budget d) l < fuel)%nat ->
  exists r l', read_frame_sync (timed_read d) fuel l = Some (r, l').
Proof.
  intros Hf. unfold read_frame_sync.
  assert (Ht : forall n a, (until (start d + budget d) a < fuel)%nat ->
             exists r b, read_exact (timed_read d) fuel n [] a = Some (r, b)).
  { intros n a Ha. apply (read_exact_total (timed_read d) (until (start d + budget d))); [| |done].
    - intros ? ? ? ? ? (_ & _ & _ & _ & ?)%timed_read_spec. done.
    - intros ? ? ? ? (_ & _ & _ & H)%timed_read_spec. exact H. }
  destruct (Ht 4%nat l Hf) as ([lb|e] & l1 & E); rewrite E; cbn [with_error map_err]; [|eauto].
  destruct (MAX_FRAME <? from_be_bytes lb); [eauto|].
  assert (clock l <= clock l1).
  { refine (read_exact_rel (timed_read d) (fun a b => clock a <= clock b) fuel 4 [] l (Ok lb) l1 _ E).
    intros ? ? ? ? ([? _] & _)%timed_read_spec. done. }
  destruct (Ht (Z.to_nat (from_be_bytes lb)) l1) as (r & l2 & ->); [unfold until in *; lia|]. cbn [with_error]. eauto.
Qed.
End net_lemmas.

(** ** Lemmas: a peer that answers *)

(** A peer of this uid that takes and delivers at least one byte per request,
    each within [q] nanoseconds, and whose bytes are [answer] of what it was
    sent. *)
Record serving (N : Net) (uid q : Z) (answer : bytes -> bytes) : Prop := {
  serving_opt l : net_opt l = None;
  serving_connect l addr : net_connect l addr = None;
  serving_uid l : net_uid l = Ok uid;
  serving_took l : net_took l <= q;
  serving_send l c b : exists n, net_send l (c :: b) = Ok (S n) /\ (n <= length b)%nat;
  serving_recv l n rest : answer (sent l) = got l ++ rest -> (0 < n)%nat -> rest <> [] ->
    exists c b rest', net_recv l n = Ok (c :: b) /\ (length (c :: b) <= n)%nat /\ rest = (c :: b) ++ rest'
}.

Section answered.
Context `{HN : Net} `{!NetOk HN}.
Context (uid q : Z) (answer : bytes -> bytes) (Hserve : serving HN uid q answer).

(** Enough time for [n] more requests. *)
Definition time_for (d : Deadline) (n : Z) (l : link) : Prop := clock l + q * n + 1000 <= start d + budget d.

Lemma arm_in_time d l n : time_for d n l -> 0 <= q -> 1 <= n ->
  exists timeout, arm d l = (Ok timeout, tock l 0) /\ q <= timeout.
Proof.
  unfold time_for. intros Ht Hq Hn. assert (q <= q * n) by nia.
  unfold arm, remaining_io, left_of, checked_sub.
  destruct (budget d <? clock l - start d) eqn:E1; bool_to_prop; [lia|].
  destruct (budget d - (clock l - start d) =? 0) eqn:E2; bool_to_prop; [lia|]. cbn [ok_or].
  unfold option_call. rewrite (serving_opt _ _ _ _ Hserve). eexists. split; [done|]. unfold timeval.
  destruct (_ <? 1000) eqn:E3; bool_to_prop; [lia|].
  pose proof (Z.mul_succ_div_gt (budget d - (clock l - start d)) 1000). lia.
Qed.

Lemma serving_q : 1 <= q.
Proof.
  pose proof (net_took_pos (Link 0 0 [] [])). pose proof (serving_took _ _ _ _ Hserve (Link 0 0 [] [])). lia.
Qed.

(** Still [rest] to come, and [m] requests' time beyond that. *)
Definition delivering (d : Deadline) (m : Z) (l : link) (rest : bytes) : Prop :=
  answer (sent l) = got l ++ rest /\ time_for d (zlen rest + m) l.

Lemma delivering_read d m n l rest : 0 <= m -> delivering d m l rest -> (0 < n)%nat -> rest <> [] ->
  exists c b rest' l', timed_read d n l = (Ok (c :: b), l') /\ (length (c :: b) <= n)%nat
    /\ rest = (c :: b) ++ rest' /\ delivering d m l' rest' /\ sent l' = sent l.
Proof.
  pose proof serving_q as Hq. intros Hm [Ha Ht] Hn Hr.
  assert (1 <= zlen rest) by (destruct rest; [done|]; unfold zlen; cbn [length]; lia).
  destruct (arm_in_time d l _ Ht) as (timeout & Earm & Hto); [lia..|].
  destruct (serving_recv _ _ _ _ Hserve (tock l 0) n rest Ha Hn Hr) as (c & b & rest' & E & Hl & ->).
  pose proof (serving_took _ _ _ _ Hserve (tock l 0)) as Hk. pose proof (net_took_pos (tock l 0)).
  exists c, b, rest'. unfold timed_read. rewrite Earm. unfold recv. rewrite (proj2 (Z.leb_le _ _)) by lia.
  rewrite E. eexists. split_and!; [done..| |done].
  split; cbn [sent got with_got tock].
  - by rewrite <- app_assoc.
  - unfold time_for, zlen in *. cbn [clock with_got tock] in *. rewrite length_app in *. cbn [length] in *. nia.
Qed.

Lemma sending_all d m fuel buf l : 0 <= m -> time_for d (zlen buf + m) l -> (length buf <= fuel)%nat ->
  exists l', write_buf (timed_write d) fuel buf l = Some (Ok tt, l') /\ sent l' = sent l ++ buf
             /\ got l' = got l /\ time_for d m l'.
Proof.
  pose proof serving_q as Hq. intros Hm. revert buf l. induction fuel as [|fuel IH]; intros [|c b] l Ht Hf; cbn [write_buf];
    try (exists l; split_and!; try done; [by rewrite app_nil_r]); cbn [length] in Hf; try lia.
  destruct (arm_in_time d l _ Ht) as (timeout & Earm & Hto); [lia|unfold zlen; cbn [length]; lia|].
  destruct (serving_send _ _ _ _ Hserve (tock l 0) c b) as (n & E & Hn).
  pose proof (serving_took _ _ _ _ Hserve (tock l 0)) as Hk. pose proof (net_took_pos (tock l 0)).
  set (l1 := with_sent (tock (tock l 0) (net_took (tock l 0))) (take (S n) (c :: b))).
  assert (timed_write d (c :: b) l = (Ok (S n), l1)) as ->.
  { unfold timed_write. rewrite Earm. unfold send. rewrite (proj2 (Z.leb_le _ _)) by lia. by rewrite E. }
  change (drop (S n) (c :: b)) with (drop n b). destruct (IH (drop n b) l1) as (l' & E' & Hs & Hg & Ht').
  - unfold time_for, l1 in *. cbn [clock with_sent tock] in *. unfold zlen in *. rewrite length_drop.
    cbn [length] in Ht. nia.
  - rewrite length_drop. lia.
  - exists l'. rewrite E', Hs, Hg. split_and!; try done. unfold l1. cbn [sent with_sent tock take].
    rewrite <- app_assoc. cbn [app]. by rewrite take_drop.
Qed.

Lemma reading_frame d fuel l body : time_for d (4 + zlen body) l ->
  answer (sent l) = got l ++ to_be_bytes 4 (zlen body) ++ body -> zlen body <= MAX_FRAME ->
  (4 + length body <= fuel)%nat ->
  exists l', read_frame_sync (timed_read d) fuel l = Some (Ok body, l') /\ sent l' = sent l.
Proof.
  intros Ht Ha Hb Hf. pose proof (length_to_be_bytes 4 (zlen body)) as Hl. pose proof (zlen_nonneg body).
  assert (Hread : forall n a rest, (fun a rest => delivering d 0 a rest /\ sent a = sent l) a rest ->
     (0 < n)%nat -> rest <> [] ->
     exists c b rest' a', timed_read d n a = (Ok (c :: b), a') /\ (length (c :: b) <= n)%nat
       /\ rest = (c :: b) ++ rest' /\ (fun a rest => delivering d 0 a rest /\ sent a = sent l) a' rest').
  { intros n a rest [Hd Hs] Hn Hne.
    destruct (delivering_read d 0 n a rest) as (c & b & rest' & a' & E & Hlen & -> & Hd' & Hs'); [done..|].
    exists c, b, rest', a'. split_and!; try done. congruence. }
  unfold read_frame_sync.
  destruct (read_exact_serves (timed_read d) _ fuel 4 [] l (to_be_bytes 4 (zlen body) ++ body) Hread)
    as (l1 & E1 & Hd1 & Hs1); [| rewrite length_app; lia | lia |].
  { split; [|done]. split; [done|]. rewrite zlen_app. unfold zlen at 1. rewrite Hl.
    replace (Z.of_nat 4 + zlen body + 0) with (4 + zlen body) by lia. done. }
  rewrite E1. cbn [with_error map_err app]. rewrite take_app_length' by done.
  rewrite drop_app_length' in Hd1 by done. rewrite from_to_be_bytes.
  2:{ split; [done|]. change MAX_FRAME with 1048576 in Hb. change (256 ^ Z.of_nat 4) with 4294967296. lia. }
  rewrite (proj2 (Z.ltb_ge _ _)) by done. unfold zlen. rewrite Nat2Z.id.
  destruct (read_exact_serves (timed_read d) _ fuel (length body) [] l1 body Hread)
    as (l2 & E2 & _ & Hs2); [done|done|lia|].
  rewrite E2. cbn [with_error map_err app]. rewrite firstn_all. eauto.
Qed.

Lemma connecting fuel path deadline l : (0 < length path < SUN_PATH)%nat -> (0 < fuel)%nat ->
  exists l', connect_with_deadline fuel path deadline l = Some (Ok tt, l') /\ quiet l l' /\ clock l' = clock l.
Proof.
  intros Hp Hf. unfold connect_with_deadline, unix_addr. destruct path as [|c p]; [simpl in Hp; lia|].
  rewrite (proj2 (Nat.leb_gt _ _)) by lia. destruct fuel as [|fuel]; [lia|]. cbn [connect_loop].
  unfold option_call. rewrite !(serving_opt _ _ _ _ Hserve), (serving_connect _ _ _ _ Hserve). cbn [map_err].
  eexists. split_and!; [done..|]. simpl. lia.
Qed.

Context `{PReq : Postcard Request} `{PResp : Postcard Response}.

Lemma call_answered fuel path req timeout l frame body resp :
  (0 < length path < SUN_PATH)%nat -> sent l = [] -> got l = [] ->
  encode_frame req = Ok frame -> answer frame = to_be_bytes 4 (zlen body) ++ body ->
  zlen body <= MAX_FRAME -> decode_frame body = Ok resp ->
  q * (zlen frame + zlen body + 5) + 1000 <= timeout ->
  (length frame + length body + 5 <= fuel)%nat ->
  exists l', call_inner fuel path req uid timeout l = Some (Ok resp, l') /\ sent l' = frame.
Proof.
  pose proof serving_q as Hq. intros Hp Hs Hg Hf Ha Hb Hd Ht Hfuel. unfold call_inner.
  pose proof (zlen_nonneg frame). pose proof (zlen_nonneg body).
  set (d := {| start := clock l; budget := timeout |}).
  assert (remaining d l = Ok timeout) as ->.
  { unfold remaining, left_of, checked_sub. cbn [budget start d]. rewrite Z.sub_diag, Z.sub_0_r.
    rewrite (proj2 (Z.ltb_ge _ _)), (proj2 (Z.eqb_neq _ _)) by nia. done. }
  destruct (connecting fuel path timeout l Hp) as (l1 & -> & [Hs1 Hg1] & Hc1); [lia|].
  unfold peer_uid. rewrite (serving_uid _ _ _ _ Hserve). cbn [map_err]. rewrite Z.eqb_refl. cbn [negb]. rewrite Hf.
  set (l2 := tock l1 0). unfold write_frame_sync.
  destruct (sending_all d (zlen body + 5) fuel frame l2) as (l3 & -> & Hs3 & Hg3 & Ht3); [lia| |lia|].
  { unfold time_for, l2. cbn [clock tock budget start d]. nia. }
  destruct (arm_in_time d l3 _ Ht3) as (timeout' & Earm & _); [lia..|].
  unfold timed_flush. rewrite Earm. cbn [with_error map_err].
  destruct (reading_frame d fuel (tock l3 0) body) as (l4 & -> & Hs4).
  - unfold time_for in *. cbn [clock tock]. nia.
  - cbn [sent got tock]. rewrite Hs3, Hg3. unfold l2. cbn [sent got tock]. rewrite Hs1, Hg1, Hs, Hg. done.
  - done.
  - lia.
  - cbn [with_error map_err]. rewrite Hd. eexists. split; [done|]. rewrite Hs4. cbn [sent tock].
    rewrite Hs3. unfold l2. cbn [sent tock]. rewrite Hs1, Hs. done.
Qed.
End answered.

(** ** Properties *)

(** A byte stream that arrives in pieces. *)
Definition chunk_read (n : nat) (chunks : list bytes) : result bytes io_error * list bytes :=
  match chunks with
  | [] => (Ok [], [])
  | c :: cs => if (length c <=? n)%nat then (Ok c, cs) else (Ok (take n c), drop n c :: cs)
  end.

Lemma chunk_read_serves n chunks bs : concat chunks = bs /\ Forall (fun c => c <> []) chunks -> (0 < n)%nat -> bs <> [] ->
  exists c b rest chunks', chunk_read n chunks = (Ok (c :: b), chunks') /\ (length (c :: b) <= n)%nat
    /\ bs = (c :: b) ++ rest /\ concat chunks' = rest /\ Forall (fun c => c <> []) chunks'.
Proof.
  intros [<- Hne] Hn Hbs. destruct chunks as [|[|x c] cs]; [done|by inversion Hne|].
  inversion Hne as [|? ? _ Hcs]; subst. unfold chunk_read. destruct (length (x :: c) <=? n)%nat eqn:E.
  - apply Nat.leb_le in E. exists x, c, (concat cs), cs. done.
  - apply Nat.leb_gt in E. destruct n as [|n]; [lia|]. cbn [length] in E.
    exists x, (take n c), (concat (drop (S n) (x :: c) :: cs)), (drop (S n) (x :: c) :: cs). split_and!; [done| | |done|].
    + cbn [length]. rewrite length_take. lia.
    + cbn [concat app drop]. by rewrite app_assoc, take_drop.
    + constructor; [|done]. intros Hd. apply (f_equal length) in Hd. rewrite length_drop in Hd. cbn [length] in Hd. lia.
Qed.

Lemma frame_roundtrip_body {A : Type} {P : Postcard A} {HOk : PostcardOk A} (msg : A) (b rest : bytes)
    (chunks : list bytes) (fuel : nat) :
  pc_wf msg -> to_allocvec msg = Some b ->
  (is_ok (encode_frame msg) = true <-> zlen b + 1 <= MAX_FRAME)
  /\ (forall f, encode_frame msg = Ok f -> concat chunks = f ++ rest -> Forall (fun c => c <> []) chunks ->
        (length f <= fuel)%nat ->
        exists body chunks', read_frame_sync chunk_read fuel chunks = Some (Ok body, chunks')
          /\ concat chunks' = rest /\ decode_frame body = Ok msg)
  /\ (forall body x, decode_frame (A := A) body = Ok x <->
        exists r, body = PROTOCOL_VERSION :: r /\ take_from_bytes r = Some (x, [])).
Proof.
  intros Hwf Hb. split_and!; [| |apply decode_frame_spec].
  - split.
    + destruct (encode_frame msg) as [f|] eqn:E; [|done]. apply encode_frame_spec in E as (x & Hx & ? & _). by simplify_eq.
    + intros. assert (encode_frame msg = Ok (to_be_bytes 4 (zlen b + 1) ++ PROTOCOL_VERSION :: b)) as ->; [|done].
      apply encode_frame_spec. eauto.
  - intros f (x & Hx & Hm & ->)%encode_frame_spec Hc Hne Hf. simplify_eq.
    pose proof (length_to_be_bytes 4 (zlen b + 1)) as Hl. rewrite length_app, Hl in Hf. cbn [length] in Hf.
    exists (PROTOCOL_VERSION :: b). unfold read_frame_sync. rewrite <- app_assoc in Hc. pose proof (zlen_nonneg b).
    destruct (read_exact_serves chunk_read (fun cs bs => concat cs = bs /\ Forall (fun c => c <> []) cs) fuel 4 [] chunks _
      chunk_read_serves (conj Hc Hne)) as (cs1 & E1 & Hc1); [rewrite length_app; lia|lia|].
    rewrite E1. cbn [with_error map_err app]. rewrite take_app_length' by done. rewrite drop_app_length' in Hc1 by done.
    rewrite from_to_be_bytes.
    2:{ change MAX_FRAME with 1048576 in Hm. change (256 ^ Z.of_nat 4) with 4294967296. lia. }
    rewrite (proj2 (Z.ltb_ge _ _)) by done.
    replace (Z.to_nat (zlen b + 1)) with (length (PROTOCOL_VERSION :: b)) by (unfold zlen; cbn [length]; lia).
    destruct (read_exact_serves chunk_read (fun cs bs => concat cs = bs /\ Forall (fun c => c <> []) cs) fuel
      (length (PROTOCOL_VERSION :: b)) [] cs1 ((PROTOCOL_VERSION :: b) ++ rest) chunk_read_serves Hc1) as (cs2 & E2 & Hc2 & _).
    + rewrite length_app. cbn [length]. lia.
    + cbn [length]. lia.
    + rewrite E2, take_app_length. rewrite drop_app_length in Hc2. exists cs2.
      split_and!; [done..|by apply decode_encoded].
Qed.

(** Frames. A message is framed exactly when its encoding and the version
    byte fit the limit the reader checks; the frame, arriving in pieces of any
    size and followed by anything, is read back to the same message without
    touching what follows; a body is accepted only when its version is this one
    and the message uses it up to the last byte. *)
Theorem frame_roundtrip (A : Type) (P : Postcard A) (HOk : PostcardOk A) (msg : A) (b rest : bytes)
    (chunks : list bytes) (fuel : nat) :
  pc_wf msg -> to_allocvec msg = Some b ->
  (is_ok (encode_frame msg) = true <-> zlen b + 1 <= MAX_FRAME)
  /\ (forall f, encode_frame msg = Ok f -> concat chunks = f ++ rest -> Forall (fun c => c <> []) chunks ->
        (length f <= fuel)%nat ->
        exists body chunks', read_frame_sync chunk_read fuel chunks = Some (Ok body, chunks')
          /\ concat chunks' = rest /\ decode_frame body = Ok msg)
  /\ (forall body x, decode_frame (A := A) body = Ok x <->
        exists r, body = PROTOCOL_VERSION :: r /\ take_from_bytes r = Some (x, [])).
Proof. apply frame_roundtrip_body. Qed.

(** A call ends when its deadline does. Whatever the listener and the
    kernel do (a backlog that never drains, one byte at a time, interrupted
    system calls, silence), the whole exchange returns less than a millisecond
    after the timeout it was given. *)
Theorem call_deadline (N : Net) (HN : NetOk N) (P1 : Postcard Request) (P2 : Postcard Response)
    (fuel : nat) (path : bytes) (req : Request) (uid timeout : Z) (l : link) :
  0 <= timeout -> (S (Z.to_nat timeout) < fuel)%nat ->
  exists r l', call_inner fuel path req uid timeout l = Some (r, l')
               /\ clock l <= clock l' < clock l + timeout + millisecond.
Proof.
  intros Ht Hf. unfold call_inner. set (d := {| start := clock l; budget := timeout |}).
  assert (Hend : forall l', within (start d + budget d) l l' -> clock l <= clock l' < clock l + timeout + millisecond).
  { intros l' Hw. unfold within, millisecond in *. cbn [start budget d] in Hw. lia. }
  assert (Hdone : forall (r : result Response ProtocolError) l', within (start d + budget d) l l' ->
            exists r' l'', Some (r, l') = Some (r', l'') /\ clock l <= clock l'' < clock l + timeout + millisecond).
  { intros r l' Hw. eexists _, _. split; [done|]. by apply Hend. }
  assert (Hleft : forall l', within (start d + budget d) l l' -> (until (start d + budget d) l' < fuel)%nat).
  { intros l' [Hw _]. unfold until. cbn [start budget d]. lia. }
  unfold remaining. destruct (left_of (start d) (budget d) l) as [avail|] eqn:E; cbn [ok_or]; [|by apply Hdone].
  apply left_of_Some in E as [Hav Hpos]. unfold connect_with_deadline.
  destruct (unix_addr path) as [addr|e]; [|by apply Hdone].
  destruct (connect_loop_total fuel addr (clock l) avail l) as (r1 & l1 & E1).
  { unfold until. cbn [start budget d] in *. lia. }
  rewrite E1. apply connect_loop_spec in E1 as [Hw1 _].
  replace (clock l + avail) with (start d + budget d) in Hw1 by lia.
  destruct r1 as [u|e]; [|by apply Hdone]. unfold peer_uid.
  assert (Hw2 : within (start d + budget d) l (tock l1 0)).
  { etransitivity; [exact Hw1|]. unfold within. cbn [clock tock]. lia. }
  destruct (net_uid l1) as [actual|e]; cbn [map_err]; [|by apply Hdone].
  destruct (negb (actual =? uid)); [by apply Hdone|]. destruct (encode_frame req) as [frame|e]; [|by apply Hdone].
  destruct (write_frame_total d fuel frame (tock l1 0) (Hleft _ Hw2)) as (r3 & l3 & E3). rewrite E3.
  apply write_frame_spec in E3 as (Hw3 & _ & _). assert (Hw3' : within (start d + budget d) l l3) by (etransitivity; eassumption).
  destruct r3 as [u3|e]; cbn [with_error map_err]; [|by apply Hdone].
  destruct (read_frame_total d fuel l3 (Hleft _ Hw3')) as (r4 & l4 & E4). rewrite E4.
  apply read_frame_spec in E4 as (Hw4 & _ & _). assert (Hw4' : within (start d + budget d) l l4) by (etransitivity; eassumption).
  destruct r4 as [body|e]; cbn [with_error map_err]; by apply Hdone.
Qed.

(** C36. Keys go to the expected user only. Bytes are sent only after the kernel
    named the expected uid as the listener's, and they are a prefix of the one
    frame of this request; a response is returned only when the whole request
    was sent and the bytes that came back are exactly one well-formed frame
    holding that response. *)
Theorem call_trusted_only (N : Net) (HN : NetOk N) (P1 : Postcard Request) (P2 : Postcard Response)
    (fuel : nat) (path : bytes) (req : Request) (uid timeout : Z) (l : link) (r : result Response ProtocolError) (l' : link) :
  call_inner fuel path req uid timeout l = Some (r, l') ->
  (sent l' <> sent l ->
     exists l1 frame p q, net_uid l1 = Ok uid /\ encode_frame req = Ok frame
                          /\ frame = p ++ q /\ sent l' = sent l ++ p)
  /\ (forall resp, r = Ok resp ->
        exists l1 frame body, net_uid l1 = Ok uid /\ encode_frame req = Ok frame
          /\ sent l' = sent l ++ frame
          /\ got l' = got l ++ to_be_bytes 4 (zlen body) ++ body /\ zlen body <= MAX_FRAME
          /\ decode_frame body = Ok resp).
Proof.
  unfold call_inner. set (d := {| start := clock l; budget := timeout |}).
  destruct (remaining d l) as [avail|e]; [|by intros [= <- <-]].
  unfold connect_with_deadline. destruct (unix_addr path) as [addr|e]; [|by intros [= <- <-]].
  destruct (connect_loop fuel addr (clock l) avail l) as [[[u|e] l1]|] eqn:E1; [| |done];
    apply connect_loop_spec in E1 as [_ [Hs1 Hg1]]; [|by intros [= <- <-]].
  unfold peer_uid. destruct (net_uid l1) as [actual|e] eqn:Eu; cbn [map_err]; [|by intros [= <- <-]].
  destruct (negb (actual =? uid)) eqn:En; [by intros [= <- <-]|]. bool_to_prop. subst actual.
  destruct (encode_frame req) as [frame|e] eqn:Ef; [|by intros [= <- <-]].
  destruct (write_frame_sync _ _ fuel frame (tock l1 0)) as [[r3 l3]|] eqn:E3; [|done].
  apply write_frame_spec in E3 as (_ & Hg3 & p & q & Hpq & Hs3 & Hq). cbn [sent got tock] in Hs3, Hg3.
  rewrite Hs1 in Hs3. rewrite Hg1 in Hg3.
  destruct r3 as [[]|e]; cbn [with_error map_err].
  2:{ intros [= <- <-]. split; [|done]. intros _. exists l1, frame, p, q. done. }
  destruct (read_frame_sync _ fuel l3) as [[r4 l4]|] eqn:E4; [|done].
  apply read_frame_spec in E4 as (_ & Hs4 & Hb). rewrite Hs3 in Hs4. rewrite Hg3 in Hb. rewrite (Hq eq_refl), app_nil_r in Hpq. subst p.
  destruct r4 as [body|e]; cbn [with_error map_err]; intros [= <- <-]; (split; [intros _; exists l1, frame, frame, q|]).
  - split_and!; [done..| |done]. by rewrite (Hq eq_refl), app_nil_r.
  - intros resp Hd. destruct (Hb body eq_refl) as [Hg4 Hm]. exists l1, frame, body. done.
  - split_and!; [done..| |done]. by rewrite (Hq eq_refl), app_nil_r.
  - done.
Qed.

(** ** The properties at concrete inputs *)

Definition request_codec : codec Request.
Proof.
  refine (iso_codec
    (fun r => match r with
              | RLock c => (0, (c, ([], (0, (0, 0)))))
              | RStatus => (1, (None, ([], (0, (0, 0)))))
              | RReload => (2, (None, ([], (0, (0, 0)))))
              | RUnlockWithKey c k p => (3, (Some c, ([k], (if p then 1 else 0, (0, 0)))))
              | RChangeKey c o s k n => (4, (Some c, ([o; s; n], (m_cost_kib k, (t_cost k, p_cost k)))))
              end)
    (fun '(t, (c, (ks, (m, (x, p))))) =>
       match t, c, ks with
       | 0, c, _ => RLock c
       | 1, _, _ => RStatus
       | 3, Some c, [k] => RUnlockWithKey c k (m =? 1)
       | 4, Some c, [o; s; n] => RChangeKey c o s {| m_cost_kib := m; t_cost := x; p_cost := p |} n
       | _, _, _ => RReload
       end)
    _ (pair_codec Z_codec (pair_codec (option_codec str_codec) (pair_codec (list_codec bytes_codec)
        (pair_codec Z_codec (pair_codec Z_codec Z_codec)))))).
  abstract (intros [| | |? ? []|? ? ? []]; reflexivity).
Defined.

Definition status_codec : codec CollectionStatus.
Proof.
  refine (iso_codec (fun c => (cs_id c, (cs_label c, (cs_locked c, (cs_items c, cs_warning c)))))
    (fun '(a, (b, (c, (d, e)))) => {| cs_id := a; cs_label := b; cs_locked := c; cs_items := d; cs_warning := e |})
    _ (pair_codec str_codec (pair_codec str_codec (pair_codec bool_codec (pair_codec Z_codec (option_codec str_codec)))))).
  abstract (by intros []).
Defined.

Definition response_codec : codec Response.
Proof.
  refine (iso_codec
    (fun r => match r with
              | POk => (0, ([], (0, None)))
              | PStatus c u a => (1, (c, (u, a)))
              | PError m => (2, ([], (0, Some m)))
              end)
    (fun '(t, (c, (u, a))) =>
       match t, a with 0, _ => POk | 2, Some m => PError m | _, _ => PStatus c u a end)
    _ (pair_codec Z_codec (pair_codec (list_codec status_codec) (pair_codec Z_codec (option_codec str_codec))))).
  abstract (by intros []).
Defined.

Definition sample_request_pc : Postcard Request := codec_postcard (fun _ => True) request_codec.
Definition sample_response_pc : Postcard Response := codec_postcard (fun _ => True) response_codec.

(** A listener of uid 1000 that takes five bytes and delivers three per
    request, and answers what it was sent by [answer]. *)
Definition sample_net (answer : bytes -> bytes) : Net := {|
  net_took _ := 10;
  net_opt _ := None;
  net_connect _ _ := None;
  net_so_error _ := Ok 0;
  net_poll _ := Ok tt;
  net_uid _ := Ok 1000;
  net_recv l n := Ok (take (Nat.min n 3) (drop (length (got l)) (answer (sent l))));
  net_send l b := Ok (Nat.min 5 (length b))
|}.

Lemma sample_net_ok answer : NetOk (sample_net answer).
Proof.
  split.
  - done.
  - intros l. cbn [net_took sample_net]. lia.
  - intros l n b. cbn [net_recv sample_net]. intros [= <-]. rewrite length_take. lia.
  - intros l b n. cbn [net_send sample_net]. intros E. assert (n = Nat.min 5 (length b)) as -> by congruence. lia.
Qed.

Lemma sample_serving answer : serving (sample_net answer) 1000 10 answer.
Proof.
  split; try done.
  - intros l c b. exists (Nat.min 4 (length b)). split; [done|lia].
  - intros l n rest Ha Hn Hr. cbn [net_recv sample_net]. rewrite Ha, drop_app_length.
    destruct rest as [|c rest]; [done|]. destruct (Nat.min n 3) as [|k] eqn:Ek; [lia|].
    exists c, (take k rest), (drop k rest). cbn [take length]. rewrite length_take. split_and!; [done|lia|].
    cbn [app]. by rewrite take_drop.
Qed.

Definition sample_reply : bytes :=
  match @encode_frame _ sample_response_pc POk with Ok f => f | Err _ => [] end.

Definition new_link : link := Link 0 0 [] [].

Lemma frame_roundtrip_witness :
  exists body chunks', read_frame_sync chunk_read 40 [take 3 sample_reply; drop 3 sample_reply ++ [x07]] = Some (Ok body, chunks')
    /\ concat chunks' = [x07] /\ @decode_frame _ sample_response_pc body = Ok POk.
Proof.
  destruct (frame_roundtrip Response sample_response_pc (codec_postcard_ok _ _) POk (c_enc response_codec POk) [x07]
    [take 3 sample_reply; drop 3 sample_reply ++ [x07]] 40) as (_ & H & _); [exact I|reflexivity|].
  apply (H sample_reply).
  - vm_compute. reflexivity.
  - vm_compute. reflexivity.
  - vm_compute. repeat constructor; discriminate.
  - apply Nat.leb_le. vm_compute. reflexivity.
Defined.

Lemma call_deadline_witness :
  exists r l', @call_inner (sample_net (fun _ => sample_reply)) sample_request_pc sample_response_pc 202 [x2f] RStatus 1000 200 new_link
               = Some (r, l') /\ 0 <= clock l' < 200 + millisecond.
Proof.
  destruct (call_deadline (sample_net (fun _ => sample_reply)) (sample_net_ok _) sample_request_pc sample_response_pc
    202 [x2f] RStatus 1000 200 new_link) as (r & l' & E & Hc); [lia|apply Nat.ltb_lt; vm_compute; reflexivity|].
  exists r, l'. split; [exact E|exact Hc].
Defined.

Lemma call_trusted_only_witness :
  exists l', @call_inner (sample_net (fun _ => sample_reply)) sample_request_pc sample_response_pc 90 [x2f] RStatus 1000 100000 new_link
             = Some (Ok POk, l') /\ exists l1, @net_uid (sample_net (fun _ => sample_reply)) l1 = Ok 1000.
Proof.
  destruct (@call_inner (sample_net (fun _ => sample_reply)) sample_request_pc sample_response_pc 90 [x2f] RStatus 1000 100000 new_link)
    as [[r l']|] eqn:E.
  2:{ vm_compute in E. discriminate. }
  assert (r = Ok POk) as Hr by (vm_compute in E; congruence). subst r.
  exists l'. split; [reflexivity|].
  destruct (call_trusted_only (sample_net (fun _ => sample_reply)) (sample_net_ok _) sample_request_pc sample_response_pc
    90 [x2f] RStatus 1000 100000 new_link (Ok POk) l' E) as [_ H].
  destruct (H POk eq_refl) as (l1 & _ & _ & Hu & _). exists l1. exact Hu.
Defined.
