(* ===== verification/Control.v ===== *)
(** * The control server ([src/control/server.rs])

    One connection: read a frame, run the handler, answer, each within its own
    time limit.  The accept loop: a step relation over the semaphore it holds,
    the connections it serves and its backoff. *)
From S2P Require Import Prelude Text Env Crypto Codec Protocol.

Definition CONNECTION_TIMEOUT : Z := 5 * 1000000000.
Definition MAX_CONNECTIONS : nat := 16.
Definition HANDLER_TIMEOUT : Z := 120 * 1000000000.
Definition ACCEPT_BACKOFF_START : Z := 100 * millisecond.
Definition ACCEPT_BACKOFF_MAX : Z := 1000 * millisecond.

Definition next_accept_backoff (current : Z) : Z :=
  if current =? 0 then ACCEPT_BACKOFF_START else Z.min (current * 2) ACCEPT_BACKOFF_MAX.

Definition uid_allowed (me peer : Z) : bool := (peer =? me) || (peer =? 0).

Definition peer_allowed_from (cred : result Z io_error) (me : Z) : bool :=
  match cred with
  | Ok uid => uid_allowed me uid
  | Err _ => false
  end.

(** ** One connection

    [tokio::time::timeout] bounds a whole transfer: it ends with the clock at
    the deadline and, after the caller's [map_err], an error of its own. *)

Definition other_error : io_error := IoError OtherKind None.

Section connection.
Context `{Net}.

Definition async_read (deadline : Z) (len : nat) (l : link) : result bytes io_error * link :=
  if clock l + net_took l <=? deadline then
    match net_recv l len with
    | Ok b => (Ok b, with_got (tock l (net_took l)) b)
    | Err e => (Err e, tock l (net_took l))
    end
  else (Err other_error, tock l (deadline - clock l)).

Definition async_write (deadline : Z) (buf : bytes) (l : link) : result nat io_error * link :=
  if clock l + net_took l <=? deadline then
    match net_send l buf with
    | Ok n => (Ok n, with_sent (tock l (net_took l)) (take n buf))
    | Err e => (Err e, tock l (net_took l))
    end
  else (Err other_error, tock l (deadline - clock l)).

(** [AsyncReadExt::read_exact]: every piece is at least a byte, so [len] rounds
    are enough. *)
Fixpoint poll_read_exact (fuel : nat) (deadline : Z) (len : nat) (buf : bytes) (l : link)
  : result bytes io_error * link :=
  match len, fuel with
  | O, _ => (Ok buf, l)
  | _, O => (Err READ_EXACT_EOF, l)
  | _, S fuel =>
    match async_read deadline len l with
    | (Ok [], l) => (Err READ_EXACT_EOF, l)
    | (Ok bs, l) => poll_read_exact fuel deadline (len - length bs) (buf ++ bs) l
    | (Err e, l) => (Err e, l)
    end
  end.

Definition async_read_exact (deadline : Z) (len : nat) (l : link) : result bytes io_error * link :=
  poll_read_exact len deadline len [] l.

Fixpoint poll_write_all (fuel : nat) (deadline : Z) (buf : bytes) (l : link) : result unit io_error * link :=
  match buf, fuel with
  | [], _ => (Ok tt, l)
  | _, O => (Err WRITE_ALL_EOF, l)
  | _, S fuel =>
    match async_write deadline buf l with
    | (Ok O, l) => (Err WRITE_ALL_EOF, l)
    | (Ok n, l) => poll_write_all fuel deadline (drop n buf) l
    | (Err e, l) => (Err e, l)
    end
  end.

Definition async_write_all (deadline : Z) (buf : bytes) (l : link) : result unit io_error * link :=
  poll_write_all (length buf) deadline buf l.

Definition read_frame (deadline : Z) (l : link) : result bytes io_error * link :=
  match async_read_exact deadline 4 l with
  | (Err e, l) => (Err e, l)
  | (Ok prefix, l) =>
    let len := from_be_bytes prefix in
    if MAX_FRAME <? len then (Err other_error, l) else async_read_exact deadline (Z.to_nat len) l
  end.

Context `{Postcard Request} `{Postcard Response}.

(** The text of a decoding error; postcard's own is a parameter. *)
Context (postcard_text : str).

Definition decode_error_text (e : ProtocolError) : str :=
  match e with
  | UnsupportedVersion v => lit "unsupported protocol version " ++ dec (b2z v)
  | TrailingBytes n => dec n ++ lit " unexpected bytes after the message"
  | _ => lit "malformed message: " ++ postcard_text
  end.

Definition too_long : Response := PError (lit "the daemon took too long to answer").
Definition too_large : Response := PError (lit "response too large").

(** A handler runs for at most the time it is given: its response, if it got
    that far, the time it took, and what it did to the daemon. *)
Context {St : Type} (handler : Request -> Z -> St -> option Response * Z * St).

Definition respond (body : bytes) (handler_timeout : Z) (st : St) : Response * Z * St :=
  match decode_frame body with
  | Ok req =>
    match handler req handler_timeout st with
    | (Some response, dt, st) => (response, dt, st)
    | (None, _, st) => (too_long, handler_timeout, st)
    end
  | Err e => (PError (lit "malformed request: " ++ decode_error_text e), 0, st)
  end.

Definition reply_frame (response : Response) : result bytes io_error :=
  match encode_frame response with
  | Ok frame => Ok frame
  | Err _ => map_err (fun _ => other_error) (encode_frame too_large)
  end.

Definition handle_connection (timeout handler_timeout : Z) (l : link) (st : St)
  : result unit io_error * link * St :=
  match read_frame (clock l + timeout) l with
  | (Err e, l) => (Err e, l, st)
  | (Ok body, l) =>
    let '(response, dt, st) := respond body handler_timeout st in
    let l := tock l dt in
    match reply_frame response with
    | Err e => (Err e, l, st)
    | Ok frame =>
      match async_write_all (clock l + timeout) frame l with
      | (Err e, l) => (Err e, l, st)
      | (Ok _, l) => let '(r, l) := option_call l in (r, l, st)
      end
    end
  end.
End connection.

(** ** The accept loop *)

Inductive accept_phase : Type :=
| Acquiring    (** awaiting a permit *)
| Accepting.   (** holding one, awaiting a connection *)

Record server : Type := Server {
  sv_permits : nat; sv_phase : accept_phase; sv_backoff : Z; sv_serving : list Z
}.

Definition server_start : server := Server MAX_CONNECTIONS Acquiring 0 [].

(** What the loop does with the outcome of [accept]: the permit goes to the
    task it spawns, or back with the end of the iteration. *)
Definition on_accept (me : Z) (outcome : result (result Z io_error) io_error) (s : server) : server :=
  match outcome with
  | Err _ => Server (S (sv_permits s)) Acquiring (next_accept_backoff (sv_backoff s)) (sv_serving s)
  | Ok cred =>
    if peer_allowed_from cred me then
      match cred with
      | Ok uid => Server (sv_permits s) Acquiring 0 (uid :: sv_serving s)
      | Err _ => Server (S (sv_permits s)) Acquiring 0 (sv_serving s)
      end
    else Server (S (sv_permits s)) Acquiring 0 (sv_serving s)
  end.

Inductive sstep (me : Z) : server -> server -> Prop :=
| s_acquire n b l : sstep me (Server (S n) Acquiring b l) (Server n Accepting b l)
| s_accept s outcome : sv_phase s = Accepting -> sstep me s (on_accept me outcome s)
| s_finish n p b l1 uid l2 :
    sstep me (Server n p b (l1 ++ uid :: l2)) (Server (S n) p b (l1 ++ l2)).

(** ** Lemmas *)

Section control_lemmas.
Context `{HN : Net} `{!NetOk HN}.

Lemma async_read_spec deadline n l r l' : async_read deadline n l = (r, l') -> clock l <= deadline ->
  clock l <= clock l' <= deadline /\ sent l' = sent l
  /\ match r with
     | Ok b => got l' = got l ++ b /\ (length b <= n)%nat
     | Err _ => got l' = got l
     end.
Proof.
  unfold async_read. pose proof (net_took_pos l).
  destruct (_ <=? deadline) eqn:E; bool_to_prop; [destruct (net_recv l n) as [b|e] eqn:Er|];
    intros [= <- <-] Hd; simpl; (split; [lia|split; [done|]]); try done.
  split; [done|]. by eapply net_recv_length.
Qed.

Lemma async_write_spec deadline b l r l' : async_write deadline b l = (r, l') -> clock l <= deadline ->
  clock l <= clock l' <= deadline /\ got l' = got l
  /\ match r with
     | Ok n => sent l' = sent l ++ take n b
     | Err _ => sent l' = sent l
     end.
Proof.
  unfold async_write. pose proof (net_took_pos l).
  destruct (_ <=? deadline) eqn:E; bool_to_prop; [destruct (net_send l b) as [n|e] eqn:Er|];
    intros [= <- <-] Hd; simpl; (split; [lia|done]).
Qed.

Lemma poll_read_exact_spec fuel deadline len buf l r l' :
  poll_read_exact fuel deadline len buf l = (r, l') -> clock l <= deadline ->
  clock l <= clock l' <= deadline /\ sent l' = sent l
  /\ forall out, r = Ok out -> exists bs, out = buf ++ bs /\ got l' = got l ++ bs /\ length bs = len.
Proof.
  revert len buf l. induction fuel as [|fuel IH]; intros [|len] buf l; cbn [poll_read_exact].
  1,3: intros [= <- <-] ?; split_and!; [lia..|done|]; intros out [= <-]; exists []; by rewrite !app_nil_r.
  { intros [= <- <-] ?. split_and!; [lia..|done|done]. }
  destruct (async_read deadline (S len) l) as [[[|c b]|e] l1] eqn:E; intros Hp Hd;
    apply async_read_spec in E as (Hc & Hs & Hg); try done.
  1,3: injection Hp as <- <-; done.
  destruct Hg as [Hg Hl]. apply IH in Hp as (Hc2 & Hs2 & Ho); [|lia]. split_and!; [lia..|congruence|].
  intros out (bs & -> & Hg2 & Hlen)%Ho. exists ((c :: b) ++ bs). rewrite Hg2, Hg, <- !app_assoc. split_and!; [done..|].
  rewrite length_app. cbn [length] in *. lia.
Qed.

Lemma poll_write_all_spec fuel deadline buf l r l' :
  poll_write_all fuel deadline buf l = (r, l') -> clock l <= deadline ->
  clock l <= clock l' <= deadline /\ got l' = got l
  /\ exists p q, buf = p ++ q /\ sent l' = sent l ++ p /\ (r = Ok tt -> q = []).
Proof.
  revert buf l. induction fuel as [|fuel IH]; intros [|c b] l; cbn [poll_write_all].
  1,3: intros [= <- <-] ?; split_and!; [lia..|done|]; exists [], []; by rewrite !app_nil_r.
  { intros [= <- <-] ?. split_and!; [lia..|done|]. exists [], (c :: b). by rewrite app_nil_r. }
  destruct (async_write deadline (c :: b) l) as [[[|n]|e] l1] eqn:E; intros Hp Hd;
    apply async_write_spec in E as (Hc & Hg & Hs); try done.
  - injection Hp as <- <-. split_and!; [lia..|done|]. exists [], (c :: b). by rewrite Hs.
  - apply IH in Hp as (Hc2 & Hg2 & p & q & Hpq & Hs2 & Hq); [|lia]. split_and!; [lia..|congruence|].
    exists (take (S n) (c :: b) ++ p), q. rewrite Hs2, Hs, <- !app_assoc. split_and!; [|done..].
    rewrite <- Hpq. by rewrite take_drop.
  - injection Hp as <- <-. split_and!; [lia..|done|]. exists [], (c :: b). by rewrite Hs, app_nil_r.
Qed.

Lemma read_frame_async deadline l r l' : read_frame deadline l = (r, l') -> clock l <= deadline ->
  clock l <= clock l' <= deadline /\ sent l' = sent l
  /\ forall body, r = Ok body -> got l' = got l ++ to_be_bytes 4 (zlen body) ++ body /\ zlen body <= MAX_FRAME.
Proof.
  unfold read_frame, async_read_exact. destruct (poll_read_exact 4 deadline 4 [] l) as [[lb|e] l1] eqn:E1; intros Hr Hd;
    apply poll_read_exact_spec in E1 as (Hc & Hs & Ho); try done; [|by injection Hr as <- <-].
  destruct (Ho lb eq_refl) as (bs & -> & Hg & Hl). cbn [app] in Hr. revert Hr.
  destruct (MAX_FRAME <? from_be_bytes bs) eqn:Em; bool_to_prop; [by intros [= <- <-]|].
  intros (Hc2 & Hs2 & Ho2)%poll_read_exact_spec; [|lia]. split_and!; [lia..|congruence|].
  intros body (x & -> & Hg2 & Hl2)%Ho2. cbn [app] in *. pose proof (from_be_bytes_range bs).
  assert (zlen x = from_be_bytes bs) as Hz by (unfold zlen; lia).
  rewrite Hg2, Hg, Hz, <- app_assoc. split; [|lia]. rewrite <- Hl, to_from_be_bytes. done.
Qed.
End control_lemmas.

(** ** Properties *)

(** One connection. The daemon's state changes only when a complete frame
    of this protocol version that decodes to a request arrived, and then by the
    handler run once on it; what is sent is a prefix of the one response frame,
    all of it on success; and a connection lasts no longer than the time to
    receive, to handle and to send. *)
Theorem connection_answered (N : Net) (HN : NetOk N) (P1 : Postcard Request) (P2 : Postcard Response)
    (St : Type) (text : str) (handler : Request -> Z -> St -> option Response * Z * St)
    (timeout handler_timeout : Z) (l : link) (st : St) (r : result unit io_error) (l' : link) (st' : St) :
  0 <= timeout -> 0 <= handler_timeout ->
  (forall req t s, 0 <= t -> 0 <= snd (fst (handler req t s)) <= t) ->
  handle_connection text handler timeout handler_timeout l st = (r, l', st') ->
  clock l <= clock l' <= clock l + timeout + handler_timeout + timeout
  /\ (st' <> st -> exists body req, got l' = got l ++ to_be_bytes 4 (zlen body) ++ body
        /\ decode_frame body = Ok req /\ st' = snd (handler req handler_timeout st))
  /\ (sent l' <> sent l \/ r = Ok tt -> exists body frame p q,
        got l' = got l ++ to_be_bytes 4 (zlen body) ++ body
        /\ reply_frame (fst (fst (respond text handler body handler_timeout st))) = Ok frame
        /\ frame = p ++ q /\ sent l' = sent l ++ p /\ (r = Ok tt -> q = [])).
Proof.
  intros Ht Hh Htook. unfold handle_connection.
  destruct (read_frame (clock l + timeout) l) as [[body|e] l1] eqn:E1; apply read_frame_async in E1 as (Hc1 & Hs1 & Hg1); try lia.
  2:{ intros [= <- <- <-]. split_and!; [lia..|done|]. intros [?|?]; done. }
  destruct (Hg1 body eq_refl) as [Hg Hm]. destruct (respond text handler body handler_timeout st) as [[resp dt] st1] eqn:Er.
  assert (0 <= dt <= handler_timeout) as Hdt.
  { revert Er. unfold respond. destruct (decode_frame body) as [req|e]; [|intros [= _ <- _]; lia].
    pose proof (Htook req handler_timeout st Hh) as Hk. destruct (handler req handler_timeout st) as [[[x|] dt'] s'];
      intros [= _ <- _]; [exact Hk|lia]. }
  assert (Hst : st1 <> st -> exists body0 req, got l1 = got l ++ to_be_bytes 4 (zlen body0) ++ body0
            /\ decode_frame body0 = Ok req /\ st1 = snd (handler req handler_timeout st)).
  { revert Er. unfold respond. destruct (decode_frame body) as [req|e] eqn:Ed; [|by intros [= _ _ <-]].
    intros Er _. exists body, req. split_and!; [done..|].
    destruct (handler req handler_timeout st) as [[[x|] dt'] s']; by injection Er as _ _ <-. }
  destruct (reply_frame resp) as [frame|e] eqn:Ef.
  2:{ intros [= <- <- <-]. cbn [clock got sent tock]. split_and!; [lia..|done|]. intros [?|?]; done. }
  destruct (async_write_all _ frame _) as [r2 l2] eqn:E2. unfold async_write_all in E2.
  apply poll_write_all_spec in E2 as (Hc2 & Hg2 & p & q & Hpq & Hs2 & Hq); [|cbn [clock tock]; lia].
  cbn [clock got sent tock] in Hc2, Hg2, Hs2. rewrite Hs1 in Hs2.
  assert (Hfin : forall l3 (r3 : result unit io_error), clock l3 = clock l2 -> quiet l2 l3 -> (r3 = Ok tt -> r2 = Ok tt) ->
    clock l <= clock l3 <= clock l + timeout + handler_timeout + timeout
    /\ (st1 <> st -> exists body req, got l3 = got l ++ to_be_bytes 4 (zlen body) ++ body
        /\ decode_frame body = Ok req /\ st1 = snd (handler req handler_timeout st))
    /\ (sent l3 <> sent l \/ r3 = Ok tt -> exists body0 frame0 p0 q0,
        got l3 = got l ++ to_be_bytes 4 (zlen body0) ++ body0
        /\ reply_frame (fst (fst (respond text handler body0 handler_timeout st))) = Ok frame0
        /\ frame0 = p0 ++ q0 /\ sent l3 = sent l ++ p0 /\ (r3 = Ok tt -> q0 = []))).
  { intros l3 r3 Hc [Hs3 Hg3] Hr. rewrite Hc, Hs3, Hg3, Hg2. split_and!; [lia..|exact Hst|]. intros _.
    exists body, frame, p, q. rewrite Er. split_and!; [done..|]. intros ?. by apply Hq, Hr. }
  destruct r2 as [[]|e].
  - destruct (option_call l2) as [r3 l3] eqn:E3. apply option_call_spec in E3 as (Hq3 & Hc3 & _).
    intros [= <- <- <-]. by apply Hfin.
  - intros [= <- <- <-]. by apply Hfin.
Qed.

(** The bytes a server writes back to a client that sent [s]. *)
Definition server_answer {P1 : Postcard Request} {P2 : Postcard Response} {St : Type} (text : str)
    (handler : Request -> Z -> St -> option Response * Z * St) (handler_timeout : Z) (st : St) (s : bytes) : bytes :=
  match read_frame_sync chunk_read (length s) [s] with
  | Some (Ok body, _) =>
    match reply_frame (fst (fst (respond text handler body handler_timeout st))) with
    | Ok frame => frame
    | Err _ => []
    end
  | _ => []
  end.

Lemma server_answer_spec {P1 : Postcard Request} {P2 : Postcard Response} {HP1 : PostcardOk Request} {St : Type} text
    (handler : Request -> Z -> St -> option Response * Z * St) handler_timeout st req frame resp :
  pc_wf req -> encode_frame req = Ok frame -> fst (fst (handler req handler_timeout st)) = Some resp ->
  server_answer text handler handler_timeout st frame
  = match reply_frame resp with Ok f => f | Err _ => [] end.
Proof.
  intros Hwf Hf Hh. pose proof Hf as (b & Hb & Hm & ->)%encode_frame_spec.
  destruct (proj1 (proj2 (frame_roundtrip_body req b [] [to_be_bytes 4 (zlen b + 1) ++ PROTOCOL_VERSION :: b]
    (length (to_be_bytes 4 (zlen b + 1) ++ PROTOCOL_VERSION :: b)) Hwf Hb)) _ Hf) as (body & cs & E & _ & Hd).
  - cbn [concat]. done.
  - constructor; [by destruct (to_be_bytes 4 _)|done].
  - done.
  - unfold server_answer. rewrite E. unfold respond. rewrite Hd.
    destruct (handler req handler_timeout st) as [[o dt] s']. cbn [fst] in Hh. by rewrite Hh.
Qed.

(** C37. Client and server meet. Against a listener of the expected uid that
    answers as this server does, however it cuts the bytes and as long as each
    piece comes in time, a call returns exactly the response the handler gave
    to this request, or the notice that it was too large to frame. *)
Theorem call_meets_server (N : Net) (HN : NetOk N) (P1 : Postcard Request) (P2 : Postcard Response)
    (HP1 : PostcardOk Request) (HP2 : PostcardOk Response)
    (St : Type) (text : str) (handler : Request -> Z -> St -> option Response * Z * St)
    (handler_timeout : Z) (st : St) (uid q : Z)
    (fuel : nat) (path : bytes) (req : Request) (timeout : Z) (l : link) (frame reply : bytes) (resp : Response) :
  serving N uid q (server_answer text handler handler_timeout st) ->
  (0 < length path < SUN_PATH)%nat -> sent l = [] -> got l = [] ->
  pc_wf req -> pc_wf resp -> pc_wf too_large ->
  encode_frame req = Ok frame -> fst (fst (handler req handler_timeout st)) = Some resp ->
  reply_frame resp = Ok reply ->
  q * (zlen frame + zlen reply + 5) + 1000 <= timeout -> (length frame + length reply + 5 <= fuel)%nat ->
  exists l', call_inner fuel path req uid timeout l
             = Some (Ok (if is_ok (encode_frame resp) then resp else too_large), l')
             /\ sent l' = frame.
Proof.
  intros Hs Hp Hs0 Hg0 Hreq Hresp Hlarge Hf Hh Hr Ht Hfuel.
  pose proof (server_answer_spec text handler handler_timeout st req frame resp Hreq Hf Hh) as Ha. rewrite Hr in Ha.
  set (out := if is_ok (encode_frame resp) then resp else too_large).
  assert (encode_frame out = Ok reply /\ pc_wf out) as [Ho Hwf].
  { revert Hr. unfold reply_frame, out. destruct (encode_frame resp) as [f|e] eqn:E; cbn [is_ok]; [|destruct (encode_frame too_large)];
      intros [= <-]; done. }
  apply encode_frame_spec in Ho as (b & Hb & Hm & ->). pose proof (serving_q uid q _ Hs).
  assert (zlen (PROTOCOL_VERSION :: b) = zlen b + 1) as Hz by (unfold zlen; cbn [length]; lia).
  rewrite zlen_app, Hz in Ht. rewrite length_app in Hfuel. pose proof (zlen_nonneg (to_be_bytes 4 (zlen b + 1))).
  eapply (call_answered uid q _ Hs fuel path req timeout l frame (PROTOCOL_VERSION :: b) out); try done.
  - by rewrite Ha, Hz.
  - by rewrite Hz.
  - by apply decode_encoded.
  - rewrite Hz. nia.
  - lia.
Qed.

(** The accept loop. At no time are more than sixteen connections served,
    every one of them is from the daemon's own user or root, the permits of the
    rest are all accounted for, so that an idle loop can always accept, and the
    pause after failures stays between a tenth of a second and a second. *)
Theorem accept_loop_bounded (me : Z) (s : server) :
  rtc (sstep me) server_start s ->
  (length (sv_serving s) <= MAX_CONNECTIONS)%nat
  /\ Forall (fun uid => uid = me \/ uid = 0) (sv_serving s)
  /\ (sv_permits s + length (sv_serving s) + match sv_phase s with Accepting => 1 | Acquiring => 0 end
      = MAX_CONNECTIONS)%nat
  /\ (sv_serving s = [] -> sv_phase s = Acquiring -> exists s', sstep me s s' /\ sv_phase s' = Accepting)
  /\ (sv_backoff s = 0 \/ ACCEPT_BACKOFF_START <= sv_backoff s <= ACCEPT_BACKOFF_MAX).
Proof.
  set (inv := fun s => Forall (fun uid => uid = me \/ uid = 0) (sv_serving s)
    /\ (sv_permits s + length (sv_serving s) + match sv_phase s with Accepting => 1 | Acquiring => 0 end = MAX_CONNECTIONS)%nat
    /\ (sv_backoff s = 0 \/ ACCEPT_BACKOFF_START <= sv_backoff s <= ACCEPT_BACKOFF_MAX)).
  intros Hr. assert (inv s) as (Hf & Hn & Hb).
  { refine (rtc_ind_r inv server_start _ _ s Hr).
    - unfold inv. simpl. split_and!; [done..|]. by left.
    - clear. intros a b _ Hstep (Hf & Hn & Hb). unfold inv. destruct Hstep as [n bo l|s out Hp|n p bo l1 uid l2]; simpl in *.
      + split_and!; [done|lia|done].
      + rewrite Hp in Hn. unfold on_accept. destruct out as [cred|e]; simpl.
        * destruct (peer_allowed_from cred me) eqn:Ea; [|simpl; split_and!; [done|lia|by left]].
          destruct cred as [uid|e]; simpl; (split_and!; [|lia|by left]); [|done]. constructor; [|done].
          unfold peer_allowed_from, uid_allowed in Ea. apply orb_true_iff in Ea as [Ea|Ea]; bool_to_prop; [by left|by right].
        * split_and!; [done|lia|]. right. unfold next_accept_backoff, ACCEPT_BACKOFF_START, ACCEPT_BACKOFF_MAX, millisecond in *.
          destruct (sv_backoff s =? 0) eqn:E; bool_to_prop; lia.
      + rewrite length_app in *. cbn [length] in *. apply Forall_app in Hf as [H1 H2]. inversion H2; subst.
        split_and!; [by apply Forall_app|lia|done]. }
  split_and!; [lia|done|done| |done].
  intros Hs Hp. destruct s as [n p bo l]; simpl in *. subst.
  destruct n as [|n]; [unfold MAX_CONNECTIONS in Hn; simpl in Hn; lia|].
  eexists. split; [constructor|done].
Qed.

(** ** The properties at concrete inputs *)

(** A handler that answers [Status] and counts its runs. *)
Definition sample_handler (req : Request) (limit : Z) (n : nat) : option Response * Z * nat :=
  (Some (PStatus [] 7 None), Z.min limit 3, S n).

Definition sample_status_frame : bytes :=
  match @encode_frame _ sample_request_pc RStatus with Ok f => f | Err _ => [] end.

Lemma connection_answered_witness :
  exists l', @handle_connection (sample_net (fun _ => sample_status_frame)) sample_request_pc sample_response_pc (lit "bad")
               nat sample_handler 100000 50 new_link 0%nat = (Ok tt, l', 1%nat)
             /\ clock l' <= 200050.
Proof.
  destruct (@handle_connection (sample_net (fun _ => sample_status_frame)) sample_request_pc sample_response_pc (lit "bad")
              nat sample_handler 100000 50 new_link 0%nat) as [[r l'] n] eqn:E.
  destruct (connection_answered (sample_net (fun _ => sample_status_frame)) (sample_net_ok _) sample_request_pc sample_response_pc
    nat (lit "bad") sample_handler 100000 50 new_link 0%nat r l' n) as (Hc & _ & _); [lia|lia| |exact E|].
  { intros req t s Ht. unfold sample_handler. cbn [fst snd]. lia. }
  exists l'. split; [|destruct Hc as [_ Hc]; exact Hc].
  assert (r = Ok tt) as -> by (vm_compute in E; congruence).
  assert (n = 1%nat) as -> by (vm_compute in E; congruence). reflexivity.
Defined.

Lemma call_meets_server_witness :
  exists l', @call_inner (sample_net (@server_answer sample_request_pc sample_response_pc nat (lit "bad") sample_handler 50 0%nat))
               sample_request_pc sample_response_pc 200 [x2f] RStatus 1000 100000 new_link
             = Some (Ok (PStatus [] 7 None), l').
Proof.
  set (answer := @server_answer sample_request_pc sample_response_pc nat (lit "bad") sample_handler 50 0%nat).
  destruct (call_meets_server (sample_net answer) (sample_net_ok answer) sample_request_pc sample_response_pc
    (codec_postcard_ok _ _) (codec_postcard_ok _ _) nat (lit "bad") sample_handler 50 0%nat 1000 10
    200 [x2f] RStatus 100000 new_link sample_status_frame
    (match @encode_frame _ sample_response_pc (PStatus [] 7 None) with Ok f => f | Err _ => [] end) (PStatus [] 7 None))
    as (l' & E & _); try exact I; try reflexivity.
  - apply sample_serving.
  - unfold SUN_PATH. cbn [length]. lia.
  - vm_compute. discriminate.
  - apply Nat.leb_le. vm_compute. reflexivity.
  - exists l'. exact E.
Defined.

(** A server that has accepted one connection from root. *)
Definition sample_server : server := on_accept 1000 (Ok (Ok 0)) (Server 15 Accepting 0 []).

Lemma accept_loop_bounded_witness :
  rtc (sstep 1000) server_start sample_server
  /\ length (sv_serving sample_server) = 1%nat
  /\ (length (sv_serving sample_server) <= MAX_CONNECTIONS)%nat.
Proof.
  assert (H : rtc (sstep 1000) server_start sample_server).
  { eapply rtc_l; [apply s_acquire|]. eapply rtc_l; [|apply rtc_refl]. apply s_accept. reflexivity. }
  split_and!; [exact H|reflexivity|]. exact (proj1 (accept_loop_bounded 1000 _ H)).
Defined.
