(* ===== verification/Kdf.v ===== *)
(** * Bounded key derivation ([src/kdf.rs], [lock_memory] of [src/daemon.rs])

    At most two derivations run at once, and a derivation keeps its slot until
    its memory is freed, even when its caller has gone.  The pool of
    [run_bounded] is a step relation; the memory limit the daemon asks for at
    start is compared with what the pool can hold. *)
From S2P Require Import Prelude Text Env Crypto.

Definition MAX_CONCURRENT : nat := 2.

(** A derivation that has its slot: its parameters, and whether the future that
    asked for it still waits for the answer. *)
Record job : Type := Job { j_params : KdfParams; j_attached : bool }.

(** The semaphore's free permits and FIFO queue, and the blocking tasks. *)
Record pool : Type := Pool { slots : nat; waiting : list KdfParams; running : list job }.

Definition pool_start : pool := Pool MAX_CONCURRENT [] [].

Inductive pstep : pool -> pool -> Prop :=
(** a call of [derive] awaits a permit *)
| p_call n w r k : pstep (Pool n w r) (Pool n (w ++ [k]) r)
(** the first in line gets it; the permit moves into the blocking closure *)
| p_start n k w r : pstep (Pool (S n) (k :: w) r) (Pool n w (Job k true :: r))
(** a caller in line is dropped *)
| p_leave n w1 k w2 r : pstep (Pool n (w1 ++ k :: w2) r) (Pool n (w1 ++ w2) r)
(** a caller whose derivation runs is dropped: the work goes on *)
| p_abandon n w r1 k a r2 : pstep (Pool n w (r1 ++ Job k a :: r2)) (Pool n w (r1 ++ Job k false :: r2))
(** the closure returns and drops its permit *)
| p_finish n w r1 j r2 : pstep (Pool n w (r1 ++ j :: r2)) (Pool (S n) w (r1 ++ r2)).

(** Bytes a running derivation holds: [derive_key] refuses unsafe parameters
    before it allocates. *)
Definition arena (j : job) : Z := if is_ok (validate (j_params j)) then m_cost_kib (j_params j) * 1024 else 0.

Definition arenas (l : list job) : Z := fold_right (fun j s => arena j + s) 0 l.

(** ** [lock_memory] *)

Record rlimit : Type := Rlimit { rlim_cur : Z; rlim_max : Z }.
Definition RLIM_INFINITY : Z := u64_max.

Definition needed : Z := MAX_M_COST_KIB * 1024 * Z.of_nat MAX_CONCURRENT + 64 * 1024 * 1024.

(** The operating system's answers are arguments: the limit, whether it can be
    raised to a given one, and [mlockall]'s result. The limit then in force
    comes with the result. *)
Definition lock_memory (getrlimit : result rlimit io_error) (setrlimit : rlimit -> bool)
    (mlockall : result unit io_error) : result rlimit io_error :=
  let? lim := getrlimit in
  let lim :=
    if negb (rlim_cur lim =? RLIM_INFINITY) && (rlim_cur lim <? needed)
       && ((rlim_max lim =? RLIM_INFINITY) || (needed <=? rlim_max lim)) then
      let raised := Rlimit (if rlim_max lim =? RLIM_INFINITY then needed else rlim_max lim) (rlim_max lim) in
      if setrlimit raised then raised else lim
    else lim in
  if negb (rlim_cur lim =? RLIM_INFINITY) && (rlim_cur lim <? needed) then Err (IoError OtherKind None)
  else let? _ := mlockall in Ok lim.

(** ** Properties *)

Definition pool_inv (p : pool) : Prop :=
  (slots p + length (running p) = MAX_CONCURRENT)%nat
  /\ Forall (fun k => kdf_wf k) (waiting p) /\ Forall (fun j => kdf_wf (j_params j)) (running p).

(** Parameters as their Rust type has them. *)
Definition typed (p q : pool) : Prop := pstep p q /\ Forall (fun k => kdf_wf k) (waiting q).

Lemma pool_inv_step p q : pool_inv p -> typed p q -> pool_inv q.
Proof.
  intros (Hn & Hw & Hr) [Hs Hw']. destruct Hs; simpl in *; unfold pool_inv; simpl.
  - done.
  - inversion Hw; subst. split_and!; [lia|done|by constructor].
  - done.
  - rewrite length_app in *. apply Forall_app in Hr as [? Hr]. inversion Hr; subst. simpl in *.
    split_and!; [lia|done|]. apply Forall_app. split; [done|by constructor].
  - rewrite length_app in *. apply Forall_app in Hr as [? Hr]. inversion Hr; subst. simpl in *.
    split_and!; [lia|done|]. apply Forall_app. done.
Qed.

Lemma arena_range j : kdf_wf (j_params j) -> 0 <= arena j <= MAX_M_COST_KIB * 1024.
Proof.
  intros Hk. unfold arena. destruct (validate (j_params j)) as [[]|] eqn:E; simpl; [|unfold MAX_M_COST_KIB; lia].
  apply validate_spec in E; [|done]. lia.
Qed.

Lemma arenas_bound l : Forall (fun j => kdf_wf (j_params j)) l -> 0 <= arenas l <= Z.of_nat (length l) * (MAX_M_COST_KIB * 1024).
Proof.
  induction 1 as [|j l Hj _ IH]; simpl; [lia|]. pose proof (arena_range j Hj). fold (arenas l). lia.
Qed.

Lemma pool_reachable p : rtc typed pool_start p -> pool_inv p.
Proof.
  intros Hr. refine (rtc_ind_r pool_inv pool_start _ _ p Hr).
  - unfold pool_inv. simpl. done.
  - intros a b _ Hs Ha. by apply (pool_inv_step a b).
Qed.

(** Derivation stays within its memory. However callers come, wait and
    abandon their requests, at most two derivations run; the memory they hold
    together fits, with 64 MiB to spare, in the limit [lock_memory] insists on
    before it locks the process; every slot is free or in use by running work,
    so a caller waits only while two derivations run. *)
Theorem kdf_memory_bounded (p : pool) (getrlimit : result rlimit io_error) (setrlimit : rlimit -> bool)
    (mlockall : result unit io_error) (lim : rlimit) :
  rtc typed pool_start p ->
  lock_memory getrlimit setrlimit mlockall = Ok lim ->
  (length (running p) <= MAX_CONCURRENT)%nat
  /\ 0 <= arenas (running p) /\ arenas (running p) + 64 * 1024 * 1024 <= needed
  /\ (rlim_cur lim = RLIM_INFINITY \/ needed <= rlim_cur lim)
  /\ (waiting p <> [] -> length (running p) = MAX_CONCURRENT \/ exists q, pstep p q /\ length (running q) = S (length (running p))).
Proof.
  intros (Hn & _ & Hr)%pool_reachable Hl. pose proof (arenas_bound _ Hr) as Ha.
  assert (length (running p) <= 2)%nat by (unfold MAX_CONCURRENT in Hn; lia).
  assert (Hm : MAX_M_COST_KIB * 1024 = 268435456) by done. rewrite Hm in Ha.
  assert (needed = 2 * 268435456 + 67108864) as Hneed by done.
  split_and!; [done|lia|lia| |].
  - revert Hl. unfold lock_memory. destruct getrlimit as [lim0|]; [|done].
    set (lim1 := if (_ && _ && _)%bool then _ else lim0).
    destruct (negb (rlim_cur lim1 =? RLIM_INFINITY) && (rlim_cur lim1 <? needed)) eqn:E; [done|].
    destruct mlockall; [|done]. intros [= <-]. apply andb_false_iff in E as [E|E]; bool_to_prop; [by left|by right].
  - intros Hw. destruct p as [[|n] [|k w] r]; simpl in *; try done; [by left|]. right.
    eexists. split; [apply p_start|done].
Qed.

Definition sample_pool : pool := Pool 0 [kdf_default] [Job kdf_default true; Job kdf_default false].

Lemma kdf_memory_bounded_witness :
  rtc typed pool_start sample_pool
  /\ lock_memory (Ok (Rlimit 8388608 RLIM_INFINITY)) (fun _ => true) (Ok tt) = Ok (Rlimit needed RLIM_INFINITY)
  /\ arenas (running sample_pool) + 64 * 1024 * 1024 <= needed.
Proof.
  assert (Hk : kdf_wf kdf_default) by (unfold kdf_wf, u32, u32_max; simpl; lia).
  assert (Hr : rtc typed pool_start sample_pool).
  { apply (rtc_l typed _ (Pool 2 [kdf_default] [])); [split; [apply (p_call 2 [] [] kdf_default)|by repeat constructor]|].
    apply (rtc_l typed _ (Pool 1 [] [Job kdf_default true])); [split; [apply p_start|by repeat constructor]|].
    apply (rtc_l typed _ (Pool 1 [] [Job kdf_default false])); [split; [apply (p_abandon 1 [] [] kdf_default true [])|by repeat constructor]|].
    apply (rtc_l typed _ (Pool 1 [kdf_default] [Job kdf_default false])); [split; [apply (p_call 1 [])|by repeat constructor]|].
    apply (rtc_l typed _ (Pool 0 [] [Job kdf_default true; Job kdf_default false])); [split; [apply p_start|by repeat constructor]|].
    apply (rtc_l typed _ sample_pool); [split; [apply (p_call 0 [])|by repeat constructor]|]. apply rtc_refl. }
  assert (Hl : lock_memory (Ok (Rlimit 8388608 RLIM_INFINITY)) (fun _ => true) (Ok tt) = Ok (Rlimit needed RLIM_INFINITY))
    by (vm_compute; reflexivity).
  split_and!; [exact Hr|exact Hl|].
  exact (proj1 (proj2 (proj2 (kdf_memory_bounded _ _ _ _ _ Hr Hl)))).
Defined.
