(* ===== verification/Daemon.v ===== *)
(** * The daemon's requests ([src/daemon.rs], and what [src/dbus/prompt.rs] does
      once the user has answered)

    The control handler, the idle lock, and the creation and deletion of a
    collection, over the state of [State] and the vaults of [Store].  Each
    handler runs to its end before the next; between them any operation of any
    client on any collection may happen.  D-Bus signals are the list of what is
    announced. *)
From S2P Require Import Prelude Text Env Crypto Codec Format Sanitize Names Files Sweep Store StoreInv StoreOps StoreKeys StoreProps StoreFrame Aliases Session State Protocol.

Record Daemon : Type := MkDaemon { dm_state : ServiceState; dm_started : Z; dm_last_activity : Z }.

Inductive signal : Type :=
| CollectionChanged (id : str)
| CollectionCreated (id : str)
| CollectionDeleted (id : str)
| CollectionsChanged.

Definition set_collections (st : ServiceState) (c : gmap str Vault) : ServiceState :=
  set_maps st c (broken st) (aliases st).
Definition put_vault (st : ServiceState) (id : str) (v : Vault) : ServiceState :=
  set_collections st (<[id := v]> (collections st)).
Definition set_alias_table (st : ServiceState) (t : AliasTable) : ServiceState :=
  set_maps st (collections st) (broken st) t.

Definition vault (st : ServiceState) (id : str) : option Vault := collections st !! id.
Definition all_vaults (st : ServiceState) : list (str * Vault) := btree_iter (collections st).

Definition with_state_of (dm : Daemon) (st : ServiceState) : Daemon :=
  MkDaemon st (dm_started dm) (dm_last_activity dm).
(** [ServiceState::touch]. *)
Definition touch (dm : Daemon) (at_ : Z) : Daemon := MkDaemon (dm_state dm) (dm_started dm) at_.

(** *** Locking *)

(** The loop of [Request::Lock] over its targets. *)
Fixpoint lock_targets (targets : list (str * option Vault)) (st : ServiceState)
    (changed : list str) (missing : option str) : ServiceState * list str * option str :=
  match targets with
  | [] => (st, changed, missing)
  | (id, Some v) :: targets =>
    if negb (is_locked v) then lock_targets targets (put_vault st id (lock v)) (changed ++ [id]) missing
    else lock_targets targets st changed missing
  | (id, None) :: targets => lock_targets targets st changed (Some id)
  end.

(** The loop of [idle_lock], over a snapshot of the vaults. *)
Fixpoint idle_lock_all (vaults : list (str * Vault)) (st : ServiceState) (ids : list str)
  : ServiceState * list str :=
  match vaults with
  | [] => (st, ids)
  | (id, v) :: vaults =>
    if pinned v then idle_lock_all vaults st ids
    else if negb (is_locked v) then idle_lock_all vaults (put_vault st id (lock v)) (ids ++ [id])
    else idle_lock_all vaults st ids
  end.

(** One tick of [idle_lock] at the time [at_]. *)
Definition idle_lock (after at_ : Z) (dm : Daemon) : Daemon * list signal :=
  if at_ - dm_last_activity dm <? after then (dm, [])
  else
    let '(st, ids) := idle_lock_all (all_vaults (dm_state dm)) (dm_state dm) [] in
    (with_state_of dm st, map CollectionChanged ids).

Section requests.
Context `{Env} `{Prims} `{VaultCodec} `{AliasText}.
(** The texts of errors, and the outcome of exporting objects on the bus. *)
Context (vault_text : VaultError -> str) (register_all : ServiceState -> result unit str).

Definition cannot_unlock : str := lit "cannot unlock that collection".

Definition unlock_with_key_request (collection : str) (key : bytes) (pin : bool) (at_ : Z) (dm : Daemon) (w : world)
  : Response * list signal * Daemon * world :=
  let st := dm_state dm in
  match vault st collection with
  | None =>
    (PError (match broken_error st collection with Some e => vault_text e | None => cannot_unlock end), [], dm, w)
  | Some v =>
    match unlock_with_key key v w with
    | (Ok _, v, w) =>
      (POk, [CollectionChanged collection],
       touch (with_state_of dm (put_vault st collection (set_pinned v pin))) at_, w)
    | (Err _, v, w) => (PError cannot_unlock, [], with_state_of dm (put_vault st collection v), w)
    end
  end.

Definition change_key_request (collection : str) (old_key new_salt : bytes) (new_kdf : KdfParams) (new_key : bytes)
    (dm : Daemon) (w : world) : Response * list signal * Daemon * world :=
  let st := dm_state dm in
  match vault st collection with
  | None =>
    (PError (match broken_error st collection with
             | Some e => vault_text e
             | None => lit "no collection '" ++ collection ++ lit "'"
             end), [], dm, w)
  | Some v =>
    let '(r, v, w) := change_key old_key new_salt new_kdf new_key v w in
    (match r with Ok _ => POk | Err e => PError (vault_text e) end, [],
     with_state_of dm (put_vault st collection v), w)
  end.

Definition vault_status (id : str) (v : Vault) : CollectionStatus :=
  {| cs_id := id; cs_label := label (header v); cs_locked := is_locked v; cs_items := zlen (item_ids v);
     cs_warning := match index_warning v with
                   | Some e => Some (lit "cannot rewrite the attribute index: " ++ vault_text e)
                   | None => None
                   end |}.

Definition broken_status (id : str) (e : VaultError) : CollectionStatus :=
  {| cs_id := id; cs_label := id; cs_locked := true; cs_items := 0; cs_warning := Some (vault_text e) |}.

Definition status_request (at_ : Z) (dm : Daemon) : Response :=
  let st := dm_state dm in
  PStatus (map (fun '(id, v) => vault_status id v) (all_vaults st)
           ++ map (fun '(id, (_, e)) => broken_status id e) (btree_iter (broken st)))
          ((at_ - dm_started dm) / 1000000000) (aliases_unusable st).

Definition reload_request (dm : Daemon) (w : world) : Response * list signal * Daemon * world :=
  let st := dm_state dm in
  match scan_vault_dir (vault_dir st) (st_index_attributes st) (loaded_ids st) w with
  | (Err e, w) => (PError (ai_text e), [], dm, w)
  | (Ok scan, w) =>
    let '(st, new_ids) := merge_scan st scan in
    match register_all st with
    | Err e => (PError e, [], with_state_of dm st, w)
    | Ok _ =>
      (POk, map CollectionCreated new_ids ++ (match new_ids with [] => [] | _ => [CollectionsChanged] end),
       with_state_of dm st, w)
    end
  end.

Definition lock_request (collection : option str) (dm : Daemon) (w : world)
  : Response * list signal * Daemon * world :=
  let st := dm_state dm in
  let targets := match collection with
                 | Some c => [(c, vault st c)]
                 | None => map (fun '(id, v) => (id, Some v)) (all_vaults st)
                 end in
  let '(st, changed, missing) := lock_targets targets st [] None in
  (match missing with
   | Some id => PError (lit "no collection '" ++ id ++ lit "'")
   | None => POk
   end, map CollectionChanged changed, with_state_of dm st, w).

Definition handle_control (req : Request) (at_ : Z) (dm : Daemon) (w : world)
  : Response * list signal * Daemon * world :=
  match req with
  | RUnlockWithKey collection key pin => unlock_with_key_request collection key pin at_ dm w
  | RChangeKey collection old_key new_salt new_kdf new_key =>
    change_key_request collection old_key new_salt new_kdf new_key dm w
  | RLock collection => lock_request collection dm w
  | RStatus => (status_request at_ dm, [], dm, w)
  | RReload => reload_request dm w
  end.

(** *** Creating and deleting *)

(** An edit of the alias table with nobody else running. *)
Definition edit_aliases {E : Type} (edit : gmap str str -> result (gmap str str) E) (st : ServiceState) (w : world)
  : phase E * ServiceState * world :=
  let '(ph, s, w) := update_aliases (fun _ m => edit m) Keep (Shared st (vault_dir st) (aliases st)) w in
  (ph, set_alias_table st (sh_aliases s), w).

(** The loop that picks a free id and creates the vault; [left_] attempts after
    this one, [fuel] candidates per attempt. *)
Fixpoint create_named (left_ fuel : nat) (lbl : str) (pin : bytes) (kdf : KdfParams) (st : ServiceState) (w : world)
  : option (str * Vault) * world :=
  match unique_collection_id_in (vault_dir st) (loaded_ids st) fuel lbl w with
  | (None, w) => (None, w)
  | (Some id, w) =>
    match create (path_join (vault_dir st) (vault_file id)) lbl pin kdf w with
    | (Ok v, w) => (Some (id, v), w)
    | (Err (VaultExists _), w) =>
      match left_ with
      | O => (None, w)
      | S n => create_named n fuel lbl pin kdf st w
      end
    | (Err _, w) => (None, w)
    end
  end.

Definition NAME_ATTEMPTS : nat := 3.

(** [create_collection], from the claimed commit on. *)
Definition create_collection (fuel : nat) (lbl : str) (alias : option str) (pin : bytes) (kdf : KdfParams)
    (st : ServiceState) (w : world) : option str * list signal * ServiceState * world :=
  match create_named (NAME_ATTEMPTS - 1) fuel lbl pin kdf st w with
  | (None, w) => (None, [], st, w)
  | (Some (id, v), w) =>
    let st := put_vault st id (set_index_attributes v (st_index_attributes st)) in
    let '(st, w) :=
      match alias with
      | None => (st, w)
      | Some a =>
        let '(_, st, w) := edit_aliases (fun next => let? _ := check_alias_room next a in Ok (<[a := id]> next)) st w in
        (st, w)
      end in
    (Some id, [CollectionsChanged; CollectionCreated id], st, w)
  end.

(** [delete_collection], from the claimed commit on. *)
Definition delete_collection (id : str) (st : ServiceState) (w : world)
  : option str * list signal * ServiceState * world :=
  match vault st id with
  | None => (None, [], st, w)
  | Some v =>
    if is_locked v then (None, [], st, w)
    else
      let v := retire v in
      match remove_file (path v) w with
      | (Err _, w) => (None, [], put_vault st id (unretire v), w)
      | (Ok _, w) =>
        let st := set_collections st (delete id (collections st)) in
        let '(_, st, w) :=
          edit_aliases (fun next => Ok (E := Empty_set) (filter (fun kv => snd kv <> id) next)) st w in
        (Some id, [CollectionsChanged; CollectionDeleted id], st, w)
      end
  end.
End requests.

(** ** Lemmas: every file but the one at work *)

Section daemon_lemmas.
Context `{HE : Env} `{HP : Prims} `{HC : VaultCodec} `{HA : AliasText}.
Context `{!EnvOk HE} `{!PrimsOk HP} `{!VaultCodecOk HC}.
Implicit Types (d : fpath) (id : str) (v : Vault) (w : world) (st : ServiceState) (dm : Daemon).

Lemma edit_aliases_kept {E} (edit : gmap str str -> result (gmap str str) E) st w ph st' w' :
  edit_aliases edit st w = (ph, st', w') ->
  vaults_kept (vault_dir st) w w' /\ collections st' = collections st /\ vault_dir st' = vault_dir st.
Proof.
  unfold edit_aliases. rewrite update_alone. unfold lock_and_edit. cbn [sh_aliases sh_dir].
  destruct (writable (aliases st)); [|by intros [= _ <- <-]]. destruct (edit a); [|by intros [= _ <- <-]].
  destruct (save_aliases_to (vault_dir st) a0 w) as [wr w1] eqn:E1. apply save_aliases_kept in E1.
  destruct (lock_and_commit _ _ _ _ _ _). by intros [= _ <- <-].
Qed.

(** ** The invariant *)

(** Every loaded collection is the file named after its id, and matches it. *)
Definition daemon_ok (st : ServiceState) (w : world) : Prop :=
  forall id v, collections st !! id = Some v -> path v = vault_path (vault_dir st) id /\ vault_inv v w.

Lemma daemon_ok_kept st st' w w' : collections st' = collections st -> vault_dir st' = vault_dir st ->
  vaults_kept (vault_dir st) w w' -> daemon_ok st w -> daemon_ok st' w'.
Proof.
  intros Hc Hd Hk Hok id v Hv. rewrite Hc in Hv. destruct (Hok id v Hv) as [Hp Hi]. rewrite Hd. split; [done|].
  apply (inv_unchanged v w); [done|]. rewrite Hp. apply Hk.
Qed.

Lemma daemon_ok_put st w id v' w' : daemon_ok st w -> beside (vault_dir st) id w w' ->
  path v' = vault_path (vault_dir st) id -> vault_inv v' w' -> daemon_ok (put_vault st id v') w'.
Proof.
  intros Hok Hb Hp Hi i x. unfold put_vault, set_collections. cbn [collections set_maps vault_dir].
  intros [[<- <-]|[Hne Hx]]%lookup_insert_Some; [done|]. destruct (Hok i x Hx) as [Hpx Hix]. split; [done|].
  apply (inv_unchanged x w); [done|]. rewrite Hpx. by apply Hb.
Qed.

Lemma daemon_ok_delete st w id w' : daemon_ok st w -> beside (vault_dir st) id w w' ->
  daemon_ok (set_collections st (delete id (collections st))) w'.
Proof.
  intros Hok Hb i x. unfold set_collections. cbn [collections set_maps vault_dir].
  intros [Hne Hx]%lookup_delete_Some. destruct (Hok i x Hx) as [Hpx Hix]. split; [done|].
  apply (inv_unchanged x w); [done|]. rewrite Hpx. apply Hb. done.
Qed.

Lemma lock_daemon_ok st w id v : daemon_ok st w -> collections st !! id = Some v -> daemon_ok (put_vault st id (lock v)) w.
Proof.
  intros Hok Hv. destruct (Hok id v Hv) as [Hp Hi]. apply (daemon_ok_put st w); [done|done|done|]. by apply lock_inv.
Qed.

(** *** Locking *)

(** Both locking loops lock, of the vaults they were given, those that [p]
    picks. *)
Definition lock_if (p : Vault -> bool) (v : Vault) : Vault := if p v then lock v else v.
Definition to_lock (v : Vault) : bool := negb (is_locked v).
Definition to_idle_lock (v : Vault) : bool := negb (pinned v) && negb (is_locked v).

(** [st'] is [st] with the vaults of [l] that [p] picks locked. *)
Definition locked_among (p : Vault -> bool) (l : list str) (st st' : ServiceState) : Prop :=
  (forall id, collections st' !! id
              = match collections st !! id with
                | Some v => Some (if bool_decide (id ∈ l) then lock_if p v else v)
                | None => None
                end)
  /\ vault_dir st' = vault_dir st /\ broken st' = broken st /\ aliases st' = aliases st.

Lemma locked_among_nil p st : locked_among p [] st st.
Proof. split_and!; try done. intros id. by destruct (collections st !! id). Qed.

Lemma locked_among_cons p id v l st st' : collections st !! id = Some v -> id ∉ l ->
  locked_among p l (if p v then put_vault st id (lock v) else st) st' -> locked_among p (id :: l) st st'.
Proof.
  intros Hv Hn (Hc & Hd & Hb & Ha). assert (Hx : forall i, collections (if p v then put_vault st id (lock v) else st) !! i
    = if decide (i = id) then Some (lock_if p v) else collections st !! i).
  { intros i. unfold lock_if. destruct (p v); cbn [put_vault set_collections set_maps collections].
    - destruct (decide (i = id)) as [->|]; [by rewrite lookup_insert_eq|by rewrite lookup_insert_ne].
    - destruct (decide (i = id)) as [->|]; done. }
  split_and!; [|by destruct (p v)..]. intros i. rewrite Hc, Hx. destruct (decide (i = id)) as [->|Hne].
  - rewrite Hv. rewrite bool_decide_false, bool_decide_true by (done || by left). done.
  - destruct (collections st !! i) as [x|]; [|done].
    assert (bool_decide (i ∈ id :: l) = bool_decide (i ∈ l)) as ->; [|done].
    apply bool_decide_ext. rewrite elem_of_cons. tauto.
Qed.

(** The snapshot is current. *)
Definition snapshot (st : ServiceState) (l : list (str * Vault)) : Prop :=
  NoDup (map fst l) /\ forall id v, (id, v) ∈ l -> collections st !! id = Some v.

Lemma snapshot_tail p st id v l : snapshot st ((id, v) :: l) ->
  collections st !! id = Some v /\ id ∉ map fst l
  /\ snapshot (if p v : bool then put_vault st id (lock v) else st) l.
Proof.
  intros [[Hn Hnd]%NoDup_cons Hs]. split_and!; [apply Hs; by left|done|]. split; [done|].
  intros i x Hx. assert (i <> id) as Hne.
  { intros ->. apply Hn. apply list_elem_of_fmap. by exists (id, x). }
  destruct (p v); cbn [put_vault set_collections set_maps collections]; [rewrite lookup_insert_ne by done|];
    apply Hs; by right.
Qed.

Lemma all_vaults_snapshot st : snapshot st (all_vaults st).
Proof.
  split; [apply NoDup_btree_keys|]. intros id v Hv. by apply elem_of_btree_iter in Hv.
Qed.

Lemma lock_targets_spec l st changed st' changed' missing : snapshot st l ->
  lock_targets (map (fun '(id, v) => (id, Some v)) l) st changed None = (st', changed', missing) ->
  locked_among to_lock (map fst l) st st' /\ missing = None
  /\ changed' = changed ++ map fst (List.filter (fun kv => to_lock (snd kv)) l).
Proof.
  revert st changed. induction l as [|[id v] l IH]; intros st changed Hs; cbn [map lock_targets].
  { intros [= <- <- <-]. split_and!; [apply locked_among_nil|done|by rewrite app_nil_r]. }
  destruct (snapshot_tail to_lock _ _ _ _ Hs) as (Hv & Hn & Hs'). cbn [List.filter snd]. unfold to_lock in *.
  destruct (negb (is_locked v)) eqn:E; intros (Hl & -> & ->)%IH; try done.
  all: split_and!; [eapply locked_among_cons; [exact Hv|done|by rewrite E]|done|by rewrite <- ?app_assoc].
Qed.

Lemma idle_lock_all_spec l st ids st' ids' : snapshot st l -> idle_lock_all l st ids = (st', ids') ->
  locked_among to_idle_lock (map fst l) st st'
  /\ ids' = ids ++ map fst (List.filter (fun kv => to_idle_lock (snd kv)) l).
Proof.
  revert st ids. induction l as [|[id v] l IH]; intros st ids Hs; cbn [map idle_lock_all].
  { intros [= <- <-]. split; [apply locked_among_nil|by rewrite app_nil_r]. }
  destruct (snapshot_tail to_idle_lock _ _ _ _ Hs) as (Hv & Hn & Hs'). cbn [List.filter snd].
  assert (Hgo : idle_lock_all l (if to_idle_lock v then put_vault st id (lock v) else st)
                  (if to_idle_lock v then ids ++ [id] else ids) = (st', ids') ->
    locked_among to_idle_lock (id :: map fst l) st st'
    /\ ids' = ids ++ map fst (if to_idle_lock v then (id, v) :: List.filter (fun kv => to_idle_lock (snd kv)) l
                              else List.filter (fun kv => to_idle_lock (snd kv)) l)).
  { intros [Hl ->]%IH; [|done]. split; [by eapply locked_among_cons|].
    destruct (to_idle_lock v); [by rewrite <- app_assoc|done]. }
  intros E. apply Hgo. revert E. unfold to_idle_lock. by destruct (pinned v), (negb (is_locked v)).
Qed.

Lemma locked_among_ok p l st st' w : locked_among p l st st' -> daemon_ok st w -> daemon_ok st' w.
Proof.
  intros (Hc & Hd & _) Hok id v Hv. rewrite Hc in Hv. destruct (collections st !! id) as [x|] eqn:Ex; [|done].
  destruct (Hok id x Ex) as [Hp Hi]. injection Hv as <-. rewrite Hd. unfold lock_if.
  destruct (bool_decide _), (p x); (split; [done|]); try done. by apply lock_inv.
Qed.

(** *** Reloading *)

(** No vault file is a symbolic link. *)
Definition no_links d w : Prop := forall id q, fs w !! vault_path d id <> Some (NLink q).

Lemma vault_extension name : extension name = Some (lit "vault") -> name = vault_file (file_stem name).
Proof.
  unfold extension, file_stem, vault_file. destruct (rsplit_once 46 name) as [[a b]|] eqn:E; [|done].
  apply rsplit_once_Some in E as [-> _]. destruct a as [|c a]; [done|]. intros [= ->]. done.
Qed.

(** What a scan has opened so far: locked vaults at their own files. *)
Definition opened_ok d (loaded : gset str) (l : list (str * Vault)) w : Prop :=
  forall id v, (id, v) ∈ l -> path v = vault_path d id /\ vault_inv v w /\ id ∉ loaded.

Lemma scan_entries_ok d (ix : bool) (loaded : gset str) (names : list str) (sc : VaultScan) w (sc' : VaultScan) w' : no_links d w ->
  scan_entries d ix loaded names sc w = (sc', w') -> opened_ok d loaded (opened sc) w ->
  opened_ok d loaded (opened sc') w' /\ fs w' = fs w.
Proof.
  revert sc w. induction names as [|n names IH]; intros sc w Hl; cbn [scan_entries]; [by intros [= <- <-]|].
  destruct (scan_entry d ix loaded n sc w) as [sc1 w1] eqn:E. intros E' Ho.
  assert (opened_ok d loaded (opened sc1) w1 /\ fs w1 = fs w) as [Ho1 F1].
  { revert E. unfold scan_entry. destruct (bool_decide (extension n = Some (lit "vault"))) eqn:Ex; cbn [negb];
      [|by intros [= <- <-]]. bool_to_prop. apply vault_extension in Ex.
    destruct (_ || _) eqn:Eb; [by intros [= <- <-]|]. bool_to_prop.
    destruct (open_vault (path_join d n) w) as [r w2] eqn:Eo. pose proof (open_vault_fs _ _ _ _ Eo) as F.
    assert (Hkeep : opened_ok d loaded (opened sc) w2).
    { intros i x (Hp & Hi & Hn)%Ho. split_and!; [done| |done]. apply (inv_unchanged x w); [done|]. by rewrite F. }
    destruct r as [v|e]; intros [= <- <-]; cbn [opened]; [|done]. split; [|done].
    intros i x [Hx|Hx]%elem_of_app; [by apply Hkeep|]. apply list_elem_of_singleton in Hx as [= -> ->].
    unfold path_join in Eo. rewrite Ex in Eo.
    split_and!; [by apply open_vault_path in Eo| |done].
    apply open_vault_inv in Eo as (Hi & _ & _); [|intros q; apply Hl]. by apply (vault_inv_fields v). }
  apply IH in E' as [? F2]; [|intros i q; rewrite F1; apply Hl|done]. split; [done|]. by rewrite F2.
Qed.

Lemma scan_vault_dir_ok d (ix : bool) (loaded : gset str) w r w' : no_links d w -> scan_vault_dir d ix loaded w = (r, w') ->
  vaults_kept d w w' /\ forall scan, r = Ok scan -> opened_ok d loaded (opened scan) w'.
Proof.
  intros Hl. unfold scan_vault_dir, with_err. destruct (ensure_vault_dir d w) as [r1 w1] eqn:E1.
  apply ensure_dir_kept in E1 as K1. cbn [fst snd]. destruct r1; cbn [map_err]; [|by intros [= <- <-]].
  destruct (read_dir d w1) as [r2 w2] eqn:E2. apply read_touches in E2 as [_ F2]. cbn [fst snd].
  assert (K2 : vaults_kept d w w2) by (etransitivity; [exact K1|by apply same_fs_kept]).
  destruct r2 as [names|]; cbn [map_err]; [|by intros [= <- <-]].
  destruct (scan_entries _ _ _ _ _ w2) as [sc w3] eqn:E3. apply scan_entries_ok in E3 as [Ho F3].
  3:{ intros i x Hx. by apply not_elem_of_nil in Hx. }
  2:{ intros i q. rewrite K2. apply Hl. }
  destruct (load_aliases d w3) as [r4 w4] eqn:E4. apply load_aliases_fs in E4 as F4.
  assert (K4 : vaults_kept d w w4) by (etransitivity; [exact K2|]; apply same_fs_kept; congruence).
  assert (Ho4 : opened_ok d loaded (opened sc) w4).
  { intros i x (Hp & Hi & Hn)%Ho. split_and!; [done| |done]. apply (inv_unchanged x w3); [done|]. by rewrite F4. }
  destruct r4 as [m|e]; [|destruct (bool_decide _)]; intros [= <- <-]; (split; [done|]); intros scan [= <-]; done.
Qed.

Lemma merge_opened_from l c b new c' b' new' : merge_opened l c b new = (c', b', new') ->
  forall id v, c' !! id = Some v -> (id, v) ∈ l \/ c !! id = Some v.
Proof.
  revert c b new. induction l as [|[i x] l IH]; intros c b new; cbn [merge_opened]; [by intros [= <- _ _]; right|].
  intros E id v [Hin|Hc]%(IH _ _ _ E); [left; by right|].
  apply lookup_insert_Some in Hc as [[-> ->]|[_ ?]]; [left; by left|by right].
Qed.

Lemma merge_scan_ok st w scan w' st' new : daemon_ok st w -> vaults_kept (vault_dir st) w w' ->
  opened_ok (vault_dir st) (loaded_ids st) (opened scan) w' -> merge_scan st scan = (st', new) ->
  daemon_ok st' w' /\ vault_dir st' = vault_dir st.
Proof.
  intros Hok Hk Ho. unfold merge_scan. destruct (merge_opened _ _ _ _) as [[c b] n1] eqn:E1.
  destruct (merge_broken _ _ _ _) as [b' n2]. intros [= <- _]. split; [|done]. intros id v.
  cbn [collections set_maps vault_dir]. intros [Hin|Hc]%(merge_opened_from _ _ _ _ _ _ _ E1).
  - by apply Ho in Hin as (? & ? & _).
  - destruct (Hok id v Hc) as [Hp Hi]. split; [done|]. apply (inv_unchanged v w); [done|]. rewrite Hp. apply Hk.
Qed.

(** *** Creating and deleting *)

Lemma daemon_ok_absent st w id w' : daemon_ok st w -> collections st !! id = None ->
  beside (vault_dir st) id w w' -> daemon_ok st w'.
Proof.
  intros Hok Hn Hb i x Hx. destruct (Hok i x Hx) as [Hp Hi]. split; [done|].
  apply (inv_unchanged x w); [done|]. rewrite Hp. apply Hb. congruence.
Qed.

Lemma find_free_fs d (loaded : gset str) fuel base n w r w' : find_free d loaded fuel base n w = (r, w') -> fs w' = fs w.
Proof.
  revert n w. induction fuel as [|fuel IH]; intros n w; cbn [find_free]; [by intros [= _ <-]|].
  destruct (taken d loaded (candidate base n) w) as [b w1] eqn:Et. apply taken_spec in Et as (F & _).
  destruct b; [|by intros [= _ <-]]. intros ->%IH. done.
Qed.

Lemma unique_id_fs d (loaded : gset str) fuel lbl w r w' : unique_collection_id_in d loaded fuel lbl w = (r, w') ->
  fs w' = fs w /\ forall id, r = Some id -> id ∉ loaded.
Proof.
  unfold unique_collection_id_in. destruct (taken d loaded _ w) as [b w1] eqn:Et. apply taken_spec in Et as (F & _ & Hf).
  destruct b.
  - intros E. split; [rewrite <- F; by eapply find_free_fs|]. intros id ->. by apply find_free_Some in E as (_ & ? & _).
  - intros [= <- <-]. split; [done|]. intros id [= <-]. by apply Hf.
Qed.

Lemma create_named_ok left_ fuel lbl pin kdf st w r w' : daemon_ok st w -> str_wf lbl -> kdf_wf kdf ->
  create_named left_ fuel lbl pin kdf st w = (r, w') ->
  daemon_ok st w' /\ forall id v, r = Some (id, v) ->
    path v = vault_path (vault_dir st) id /\ vault_inv v w' /\ collections st !! id = None.
Proof.
  intros Hok Hl Hk. revert w Hok. induction left_ as [|n IH]; intros w Hok; cbn [create_named].
  all: destruct (unique_collection_id_in _ _ fuel lbl w) as [[id|] w1] eqn:Eu; apply unique_id_fs in Eu as [F Hn];
    [|by intros [= <- <-]; split; [apply (daemon_ok_kept st st w); [..|by apply same_fs_kept|]|]].
  all: assert (Hnone : collections st !! id = None) by (apply not_elem_of_dom, (Hn id eq_refl)).
  all: assert (Hok1 : daemon_ok st w1) by (apply (daemon_ok_kept st st w); [..|by apply same_fs_kept|]; done).
  all: destruct (create _ lbl pin kdf w1) as [rc w2] eqn:Ec; pose proof Ec as Hb; apply create_beside in Hb;
    apply create_outcome in Ec; [|done..].
  all: pose proof (daemon_ok_absent st w1 id w2 Hok1 Hnone Hb) as Hok2.
  all: destruct rc as [v|e]; [intros [= <- <-]; destruct Ec as (? & ? & _); split; [done|];
      intros i x [= <- <-]; split_and!; done|].
  all: destruct e; try (by intros [= <- <-]). by apply IH.
Qed.

Lemma create_collection_ok fuel lbl alias pin kdf st w r sigs st' w' : daemon_ok st w -> str_wf lbl -> kdf_wf kdf ->
  create_collection fuel lbl alias pin kdf st w = (r, sigs, st', w') ->
  daemon_ok st' w' /\ vault_dir st' = vault_dir st.
Proof.
  intros Hok Hl Hk. unfold create_collection. destruct (create_named _ fuel lbl pin kdf st w) as [o w1] eqn:En.
  apply create_named_ok in En as [Hok1 Hnew]; [|done..]. destruct o as [[id v]|]; [|by intros [= _ _ <- <-]].
  destruct (Hnew id v eq_refl) as (Hp & Hi & _). set (st1 := put_vault _ _ _).
  assert (Hok' : daemon_ok st1 w1).
  { apply (daemon_ok_put st w1); [done..|]. by apply (vault_inv_fields v). }
  destruct alias as [a|]; [|by intros [= _ _ <- <-]].
  destruct (edit_aliases _ st1 w1) as [[ph st2] w2] eqn:E2. apply edit_aliases_kept in E2 as (K & Hc & Hd).
  intros [= _ _ <- <-]. split; [|done]. by apply (daemon_ok_kept st1 st2 w1).
Qed.

Lemma delete_collection_ok id st w r sigs st' w' : daemon_ok st w ->
  delete_collection id st w = (r, sigs, st', w') -> daemon_ok st' w' /\ vault_dir st' = vault_dir st.
Proof.
  intros Hok. unfold delete_collection, vault. destruct (collections st !! id) as [v|] eqn:Ev; [|by intros [= _ _ <- <-]].
  destruct (is_locked v); [by intros [= _ _ <- <-]|]. destruct (Hok id v Ev) as [Hp Hi].
  destruct (remove_file (path (retire v)) w) as [rr w1] eqn:Er. apply remove_file_spec in Er as (T & _ & F).
  change (path (retire v)) with (path v) in T. rewrite Hp in T.
  destruct rr as [[]|e].
  - set (st1 := set_collections _ _). assert (Hok1 : daemon_ok st1 w1).
    { apply (daemon_ok_delete st w); [done|]. apply (touches_beside _ id []). eapply touches_mono; [|exact T].
      intros q <-. right. by right. }
    destruct (edit_aliases _ st1 w1) as [[ph st2] w2] eqn:E2. apply edit_aliases_kept in E2 as (K & Hc & Hd).
    intros [= _ _ <- <-]. split; [|done]. by apply (daemon_ok_kept st1 st2 w1).
  - intros [= _ _ <- <-]. split; [|done]. apply (daemon_ok_put st w); [done|by apply same_fs_beside, F|done|].
    apply (vault_inv_fields v); try done. apply (inv_unchanged v w); [done|]. by rewrite F.
Qed.
End daemon_lemmas.

(** ** Everything that happens to the daemon's vaults *)

(** A request as its wire type has it. *)
Definition request_wf (req : Request) : Prop :=
  match req with
  | RChangeKey _ _ new_salt new_kdf _ => length new_salt = SALT_LEN /\ kdf_wf new_kdf
  | _ => True
  end.

Section dsteps.
Context `{HE : Env} `{HP : Prims} `{HC : VaultCodec} `{HA : AliasText}.
Context (vault_text : VaultError -> str) (register_all : ServiceState -> result unit str).

Inductive dstep : Daemon * world -> Daemon * world -> Prop :=
| d_request req at_ resp sigs dm w dm' w' :
    request_wf req -> (req = RReload -> no_links (vault_dir (dm_state dm)) w) ->
    handle_control vault_text register_all req at_ dm w = (resp, sigs, dm', w') -> dstep (dm, w) (dm', w')
| d_idle after at_ sigs dm w dm' : idle_lock after at_ dm = (dm', sigs) -> dstep (dm, w) (dm', w)
(** any operation of a client on one collection *)
| d_client id v v' dm w w' :
    vault (dm_state dm) id = Some v -> vstep (v, w) (v', w') ->
    dstep (dm, w) (with_state_of dm (put_vault (dm_state dm) id v'), w')
| d_create fuel lbl alias pin kdf r sigs dm w st' w' :
    str_wf lbl -> kdf_wf kdf ->
    create_collection fuel lbl alias pin kdf (dm_state dm) w = (r, sigs, st', w') ->
    dstep (dm, w) (with_state_of dm st', w')
| d_delete id r sigs dm w st' w' :
    delete_collection id (dm_state dm) w = (r, sigs, st', w') -> dstep (dm, w) (with_state_of dm st', w').
End dsteps.

Section dstep_lemmas.
Context `{HE : Env} `{HP : Prims} `{HC : VaultCodec} `{HA : AliasText}.
Context `{!EnvOk HE} `{!PrimsOk HP} `{!VaultCodecOk HC}.
Context (vault_text : VaultError -> str) (register_all : ServiceState -> result unit str).

Lemma lock_request_ok c dm w resp sigs dm' w' : daemon_ok (dm_state dm) w ->
  lock_request c dm w = (resp, sigs, dm', w') -> w' = w /\ daemon_ok (dm_state dm') w
  /\ vault_dir (dm_state dm') = vault_dir (dm_state dm).
Proof.
  intros Hok. unfold lock_request. destruct c as [c|].
  - unfold vault. destruct (collections (dm_state dm) !! c) as [v|] eqn:Ev; cbn [lock_targets]; [|by intros [= _ _ <- <-]].
    destruct (negb (is_locked v)); intros [= _ _ <- <-]; [|done]. split_and!; try done. by apply lock_daemon_ok.
  - destruct (lock_targets _ _ _ _) as [[st' ch] mi] eqn:E. apply lock_targets_spec in E as (Hl & _ & _);
      [|apply all_vaults_snapshot]. intros [= _ _ <- <-]. split_and!; [done|by eapply locked_among_ok|apply Hl].
Qed.

Lemma handle_control_ok req at_ dm w resp sigs dm' w' : daemon_ok (dm_state dm) w -> request_wf req ->
  (req = RReload -> no_links (vault_dir (dm_state dm)) w) ->
  handle_control vault_text register_all req at_ dm w = (resp, sigs, dm', w') ->
  daemon_ok (dm_state dm') w' /\ vault_dir (dm_state dm') = vault_dir (dm_state dm).
Proof.
  intros Hok Hwf Hl. unfold handle_control. destruct req as [c| | |c key pin|c old salt kdf new].
  - intros (-> & ? & ?)%lock_request_ok; done.
  - by intros [= _ _ <- <-].
  - unfold reload_request. destruct (scan_vault_dir _ _ _ w) as [r w1] eqn:Es.
    apply scan_vault_dir_ok in Es as [K Ho]; [|by apply Hl].
    destruct r as [scan|e]; [|intros [= _ _ <- <-]; split; [by apply (daemon_ok_kept (dm_state dm) _ w)|done]].
    destruct (merge_scan _ scan) as [st' new] eqn:Em. eapply merge_scan_ok in Em as [? ?]; [|done|done|by apply Ho].
    destruct (register_all st'); by intros [= _ _ <- <-].
  - unfold unlock_with_key_request, vault. destruct (collections _ !! c) as [v|] eqn:Ev; [|by intros [= _ _ <- <-]].
    destruct (Hok c v Ev) as [Hp Hi]. destruct (unlock_with_key key v w) as [[r v1] w1] eqn:E.
    pose proof (unlock_with_key_keeps _ _ _ _ _ _ Hi E) as [Hi1 Hp1].
    pose proof (unlock_beside (vault_dir (dm_state dm)) c _ _ _ _ _ _ Hp E) as [Hb _].
    destruct r; intros [= _ _ <- <-]; cbn [dm_state with_state_of touch]; (split; [|done]);
      (apply (daemon_ok_put _ w); [done|done|unfold set_pinned; cbn [path with_pinned]; congruence|]); [|done].
    by apply (vault_inv_fields v1).
  - destruct Hwf as [Hs Hk]. unfold change_key_request, vault. destruct (collections _ !! c) as [v|] eqn:Ev; [|by intros [= _ _ <- <-]].
    destruct (Hok c v Ev) as [Hp Hi]. destruct (change_key old salt kdf new v w) as [[r v1] w1] eqn:E.
    pose proof (change_key_keeps _ _ _ _ _ _ _ _ _ Hi Hs Hk E) as [Hi1 Hp1].
    pose proof (change_key_beside _ _ _ _ (vault_dir (dm_state dm)) c _ _ _ _ _ Hp E). intros [= _ _ <- <-]. split; [|done].
    apply (daemon_ok_put _ w); [done|done|congruence|done].
Qed.

Lemma dstep_ok s s' : dstep vault_text register_all s s' ->
  daemon_ok (dm_state (fst s)) (snd s) ->
  daemon_ok (dm_state (fst s')) (snd s') /\ vault_dir (dm_state (fst s')) = vault_dir (dm_state (fst s)).
Proof.
  intros [req at_ resp sigs dm w dm' w' Hwf Hl E|after at_ sigs dm w dm' E|id v v' dm w w' Hv Hs
         |fuel lbl alias pin kdf r sigs dm w st' w' Hl Hk E|id r sigs dm w st' w' E] Hok; cbn [fst snd dm_state with_state_of] in *.
  - by eapply handle_control_ok.
  - revert E. unfold idle_lock. destruct (_ <? after); [by intros [= <- _]|].
    destruct (idle_lock_all _ _ _) as [st' ids] eqn:E. apply idle_lock_all_spec in E as [Hl _]; [|apply all_vaults_snapshot].
    intros [= <- _]. split; [by eapply locked_among_ok|apply Hl].
  - destruct (Hok id v Hv) as [Hp Hi]. split; [|done].
    destruct (vstep_keeps _ _ _ _ Hs Hi) as [Hi' Hp']. apply (vstep_beside (vault_dir (dm_state dm)) id) in Hs; [|done].
    apply (daemon_ok_put _ w); [done|done|congruence|done].
  - by eapply create_collection_ok.
  - by eapply delete_collection_ok.
Qed.
End dstep_lemmas.

(** ** Properties *)

(** Unlocking over the control socket. The answer is [Ok] exactly when the
    collection is loaded, not retired and its sealed bytes open under the key
    sent; then it is unlocked with those items and pinned as asked. Otherwise
    the answer is an error, the same one for a wrong key and for a collection
    nobody knows, and nothing changes; no other collection changes in either
    case. *)
Theorem unlock_request_exact (HE : Env) (HP : Prims) (HC : VaultCodec)
    (HEo : EnvOk HE) (HPo : PrimsOk HP) (HCo : VaultCodecOk HC)
    (vault_text : VaultError -> str) (collection : str) (key : bytes) (pin : bool) (at_ : Z)
    (dm : Daemon) (w : world) :
  daemon_ok (dm_state dm) w ->
  let '(resp, sigs, dm', w') := unlock_with_key_request vault_text collection key pin at_ dm w in
  (resp = POk -> exists v v' l, vault (dm_state dm) collection = Some v
      /\ retired v = false /\ sealed_as v key l
      /\ vault (dm_state dm') collection = Some v' /\ state v' = SUnlocked key l /\ pinned v' = pin
      /\ sigs = [CollectionChanged collection] /\ dm_last_activity dm' = at_)
  /\ (forall v l, vault (dm_state dm) collection = Some v -> state v = SLocked -> retired v = false ->
        sealed_as v key l -> resp = POk)
  /\ (resp <> POk -> (forall id, vault (dm_state dm') id = vault (dm_state dm) id) /\ sigs = []
        /\ (broken (dm_state dm) !! collection = None -> resp = PError cannot_unlock))
  /\ (forall id, id <> collection -> vault (dm_state dm') id = vault (dm_state dm) id).
Proof.
  intros Hok. unfold unlock_with_key_request. destruct (vault (dm_state dm) collection) as [v|] eqn:Ev.
  2:{ split_and!; try done. intros _. split_and!; try done. unfold broken_error. by intros ->. }
  destruct (Hok collection v Ev) as [Hp Hi]. destruct (unlock_with_key key v w) as [[r v1] w1] eqn:E.
  pose proof (unlock_outcome _ _ _ _ _ _ Hi E) as Ho.
  assert (Hoth : forall x i, i <> collection -> vault (put_vault (dm_state dm) collection x) i = vault (dm_state dm) i).
  { intros x i Hne. unfold vault, put_vault, set_collections. cbn [collections set_maps]. by rewrite lookup_insert_ne. }
  assert (Hput : forall x, vault (put_vault (dm_state dm) collection x) collection = Some x).
  { intros x. unfold vault, put_vault, set_collections. cbn [collections set_maps]. by rewrite lookup_insert_eq. }
  destruct r as [u|e]; cbn [dm_state with_state_of touch dm_last_activity].
  - destruct Ho as (l & Hsl & Hst & _ & _ & Hr). split_and!; try done; [|intros i Hne; by apply Hoth].
    intros _. exists v, (set_pinned v1 pin), l. rewrite Hput. done.
  - destruct Ho as (-> & _ & Hr). split_and!; try done.
    + intros v0 l [= <-] Hs Hr0 Hsl. apply unlock_locked in E; [|done..]. destruct E as (_ & _ & Hno).
      exfalso. by apply (Hno l).
    + intros _. split_and!; try done. intros i. destruct (decide (i = collection)) as [->|Hne]; [by rewrite Hput|by apply Hoth].
    + intros i Hne. by apply Hoth.
Qed.

(** Locking. A request to lock everything leaves every collection locked
    and unpinned where it was unlocked before, and announces exactly those; the
    idle tick, once the daemon has been idle for long enough, locks exactly the
    unlocked collections that are not pinned, so that a collection a login
    opened stays open; before that it does nothing. *)
Theorem lock_and_idle_exact (dm : Daemon) (w : world) (after at_ : Z) :
  (let '(resp, sigs, dm', w') := lock_request None dm w in
   resp = POk /\ w' = w
   /\ (forall id, vault (dm_state dm') id
                  = match vault (dm_state dm) id with
                    | Some v => Some (if is_locked v then v else lock v)
                    | None => None
                    end)
   /\ sigs = map CollectionChanged (map fst (List.filter (fun kv => to_lock (snd kv)) (all_vaults (dm_state dm)))))
  /\ (let '(dm', sigs) := idle_lock after at_ dm in
      if at_ - dm_last_activity dm <? after then dm' = dm /\ sigs = []
      else (forall id, vault (dm_state dm') id
                       = match vault (dm_state dm) id with
                         | Some v => Some (if pinned v then v else if is_locked v then v else lock v)
                         | None => None
                         end)
           /\ sigs = map CollectionChanged
                       (map fst (List.filter (fun kv => to_idle_lock (snd kv)) (all_vaults (dm_state dm))))).
Proof.
  assert (Hall : forall id v, vault (dm_state dm) id = Some v -> bool_decide (id ∈ map fst (all_vaults (dm_state dm))) = true).
  { intros id v Hv. apply bool_decide_eq_true_2, list_elem_of_fmap. exists (id, v). split; [done|]. by apply elem_of_btree_iter. }
  split.
  - unfold lock_request. destruct (lock_targets _ _ _ _) as [[st' ch] mi] eqn:E.
    apply lock_targets_spec in E as ((Hc & _) & -> & ->); [|apply all_vaults_snapshot]. split_and!; try done.
    intros id. cbn [dm_state with_state_of]. unfold vault. rewrite Hc. destruct (collections _ !! id) as [v|] eqn:Ev; [|done].
    rewrite (Hall id v Ev). unfold lock_if, to_lock. by destruct (is_locked v).
  - unfold idle_lock. destruct (_ <? after); [done|]. destruct (idle_lock_all _ _ _) as [st' ids] eqn:E.
    apply idle_lock_all_spec in E as [(Hc & _) ->]; [|apply all_vaults_snapshot]. split; [|done].
    intros id. cbn [dm_state with_state_of]. unfold vault. rewrite Hc. destruct (collections _ !! id) as [v|] eqn:Ev; [|done].
    rewrite (Hall id v Ev). unfold lock_if, to_idle_lock. by destruct (pinned v), (is_locked v).
Qed.

(** ** The properties at concrete inputs *)

Definition sample_start : Daemon := MkDaemon (service_new [lit "v"]) 0 0.
Definition sample_start_world : world := World {[ [lit "v"] := NDir 448 ]} 0 [].

(** A daemon in which a collection has been created, with an alias. *)
Definition sample_created : option str * list signal * ServiceState * world :=
  @create_collection sample_env sample_prims sample_codec sample_text 5 (lit "Login") (Some (lit "default"))
    sample_password sample_kdf (service_new [lit "v"]) sample_start_world.

Definition sample_daemon : Daemon := with_state_of sample_start (snd (fst sample_created)).
Definition sample_daemon_world : world := snd sample_created.

Lemma sample_created_eq :
  sample_created = (fst (fst (fst sample_created)), snd (fst (fst sample_created)), dm_state sample_daemon, sample_daemon_world).
Proof. unfold sample_daemon, sample_daemon_world, with_state_of. cbn [dm_state]. by destruct sample_created as [[[? ?] ?] ?]. Qed.

Lemma sample_kdf_wf : kdf_wf sample_kdf.
Proof. unfold kdf_wf, u32, u32_max. simpl. lia. Qed.

Lemma sample_login_wf : str_wf (lit "Login").
Proof. unfold str_wf. apply (bool_decide_unpack _). vm_compute. exact I. Qed.

(** The same, locked. *)
Definition sample_locked : Daemon :=
  snd (fst (lock_request None sample_daemon sample_daemon_world)).

Lemma sample_locked_ok : @daemon_ok sample_prims sample_codec (dm_state sample_locked) sample_daemon_world.
Proof.
  assert (Hok : @daemon_ok sample_prims sample_codec (dm_state sample_daemon) sample_daemon_world).
  { eapply (@create_collection_ok sample_env sample_prims sample_codec sample_text sample_env_ok sample_prims_ok sample_codec_ok);
      [|apply sample_login_wf|apply sample_kdf_wf|exact sample_created_eq].
    intros i x. cbn [service_new collections]. by rewrite lookup_empty. }
  destruct (lock_request None sample_daemon sample_daemon_world) as [[[resp sigs] dm'] w'] eqn:E.
  assert (sample_locked = dm') as -> by (unfold sample_locked; by rewrite E).
  by apply (@lock_request_ok sample_prims sample_codec) in E as (_ & ? & _).
Qed.

Definition sample_id_of : str := match fst (fst (fst sample_created)) with Some id => id | None => [] end.

Definition sample_key : bytes :=
  match vault (dm_state sample_locked) sample_id_of with
  | Some v => match @derive_key sample_prims sample_password (salt (header v)) sample_kdf with Ok k => k | Err _ => [] end
  | None => []
  end.

Lemma unlock_request_exact_witness :
  exists v', vault (dm_state (snd (fst (@unlock_with_key_request sample_env sample_prims sample_codec (fun _ => []) sample_id_of
                                sample_key true 9 sample_locked sample_daemon_world)))) sample_id_of = Some v'
             /\ pinned v' = true /\ is_locked v' = false.
Proof.
  pose proof (unlock_request_exact sample_env sample_prims sample_codec sample_env_ok sample_prims_ok sample_codec_ok
    (fun _ => []) sample_id_of sample_key true 9 sample_locked sample_daemon_world sample_locked_ok) as H.
  assert (Hr : fst (fst (fst (@unlock_with_key_request sample_env sample_prims sample_codec (fun _ => []) sample_id_of
                sample_key true 9 sample_locked sample_daemon_world))) = POk) by (vm_compute; reflexivity).
  destruct (@unlock_with_key_request sample_env sample_prims sample_codec (fun _ => []) sample_id_of
              sample_key true 9 sample_locked sample_daemon_world) as [[[resp sigs] dm'] w'].
  cbn [fst snd] in Hr |- *. destruct H as (H & _). destruct (H Hr) as (v & v' & l & _ & _ & _ & Hv' & Hs & Hp & _).
  exists v'. split; [exact Hv'|split; [exact Hp|]]. unfold is_locked. rewrite Hs. reflexivity.
Defined.
