(* ===== verification/ImportRun.v ===== *)
(** * The import command ([src/cli/import.rs])

    Locating the source file, turning a walk into what the command imports,
    the pipeline of [run_with] and the verdict it reaches.  What other
    programs do is [Outside]: the extraction, the user who chooses a password
    and the daemon, each of which may change the disk while the command waits
    for it.  Printing is not modelled; the report that is printed and written
    is, with its texts kept as reasons where they only format a value. *)
From S2P Require Import Prelude Text Env Crypto Codec Format Sanitize Names Files Sweep Import Formats Verify VerifyProps KWallet Walk Store Aliases Protocol.

(** ** Errors *)

(** The four exits of the command, and what their texts say. *)
Inductive CliError : Type :=
| CNotFound (r : reason)
| CUsage (r : reason)
| CUnreachable (r : reason)
| CFailed (r : reason)
with reason : Type :=
| WText (s : str)
| WNoDirectory (dir : fpath)
| WIo (p : fpath) (k : error_kind) (e : option Z)
| WHeader (p : fpath) (e : HeaderError)
| WDefaultMissing (name : str) (p : fpath)
| WNoCandidate (extension : str) (dir : fpath)
| WManyCandidates (extension : str) (dir : fpath) (names : list str)
| WCollectionExists (id : str) (p : fpath)
| WVault (e : VaultError)
| WVerification (dry_run : bool)
| WProbes (p : fpath) (id : str)
| WLeftOver (e : CliError) (unlink : io_error) (p : fpath).

Definition exit_code (e : CliError) : Z :=
  match e with
  | CNotFound _ | CFailed _ => 1
  | CUsage _ => 2
  | CUnreachable _ => 3
  end.

(** ** Texts of what an entry was skipped for *)

Definition map_decode_text (e : MapDecodeError) : str :=
  match e with
  | MTruncated field => lit "the serialised map ends inside the " ++ field
  | ImpossibleCount declared available =>
    lit "the serialised map declares " ++ dec declared ++ lit " pairs, more than the " ++ dec available
    ++ lit " bytes can hold"
  | TooManyPairs declared =>
    lit "the serialised map declares " ++ dec declared ++ lit " pairs, over the " ++ dec MAX_MAP_ENTRIES
    ++ lit " limit"
  | OddStringLength len =>
    lit "a string in the serialised map has an odd byte length (" ++ dec len ++ lit ") and cannot be UTF-16"
  | UnpairedSurrogate =>
    lit "the serialised map cannot be represented faithfully: a string contains an unpaired UTF-16 surrogate, which QString allows and Rust's String cannot hold"
  | NullAndEmptyKey =>
    lit "the serialised map cannot be represented faithfully: the map has both a null and an empty string as keys, and Rust's String cannot tell them apart"
  | DuplicateKey => lit "a key appears twice in the serialised map, which a QMap cannot produce"
  | KWallet.TrailingBytes trailing =>
    dec trailing ++ lit " bytes remain after the serialised map, so this is not a QMap"
  | MTooLarge len limit =>
    lit "the decoded map holds " ++ dec len ++ lit " bytes, over the " ++ dec limit ++ lit " byte secret limit"
  | MJson e => lit "the serialised map could not be re-encoded as JSON: " ++ e
  end.

(** [Display for SkipReason]. *)
Definition skip_text (r : SkipReason) : str :=
  match r with
  | MapUndecodable e => lit "the map value could not be decoded: " ++ map_decode_text e
  | Unreadable e => lit "KWallet would not hand over the entry: " ++ e
  | PasswordUndecodable e => lit "the password value could not be decoded: " ++ map_decode_text e
  | EmptyRead call =>
    lit "KWallet answered " ++ call ++ lit " with no bytes, so nothing was established about the entry"
  | TypeUnavailable e =>
    lit "KWallet would not report the entry's type, so it cannot be read safely: " ++ e
  end.

(** ** What an extractor hands over *)

Record Imported : Type := { im_item : SourceItem; im_report : ItemReport }.

Record NotMigrated : Type := { nm_label : str; nm_reason : str; nm_provenance : Provenance }.

(** [transport::Extraction]. *)
Record Extracted : Type := {
  xt_container : str;
  xt_items : list Imported;
  xt_refusals : list ItemReport;
  xt_skipped : list NotMigrated;
  xt_empty_folders : nat;
  xt_unresolved_sidecar_rows : list str;
  xt_notes : list str
}.

Definition with_notes (x : Extracted) (notes : list str) : Extracted :=
  {| xt_container := xt_container x; xt_items := xt_items x; xt_refusals := xt_refusals x;
     xt_skipped := xt_skipped x; xt_empty_folders := xt_empty_folders x;
     xt_unresolved_sidecar_rows := xt_unresolved_sidecar_rows x; xt_notes := notes |}.

(** A note that counts something, when there is something to count. *)
Definition note_if (n : nat) (text : str) : list str :=
  if (0 <? n)%nat then [dec (Z.of_nat n) ++ text] else [].

(** The notes [extract_kwallet] adds about a walk. *)
Definition kwallet_notes (x : Extraction) : list str :=
  (if (0 <? unexpected_sidecar_rows x)%nat
   then [lit "the attributes sidecar held " ++ dec (Z.of_nat (unexpected_sidecar_rows x + EXPECTED_NON_ENTRY_ROWS))
         ++ lit " root values that are not entries, which is " ++ dec (Z.of_nat (unexpected_sidecar_rows x))
         ++ lit " more than the two every real file has: it is not the shape this build parses, so treat every 'no sidecar row' line below as a parse failure rather than as a native KWallet entry"]
   else [])
  ++ note_if (entries_without_sidecar x) (lit " entries had no sidecar row, so they carry no attributes and no timestamps")
  ++ note_if (length (ambiguous_sidecar_keys x)) (lit " sidecar rows were composed by more than one entry, so their attributes were dropped from every one of them rather than guessed at: attaching another item's xdg:schema would have written a secret under a different item's identity")
  ++ note_if (length (duplicate_sidecar_keys x)) (lit " sidecar keys were declared more than once, and only the last of each reached the walk: an entry's whole attribute map was replaced by another row's, so its attributes may belong to a different entry. This is the same harm the ambiguous keys above are refused for, arriving by a different door, and it means the file is not the shape ksecretd writes")
  ++ note_if (length (unresolved_sidecar_rows x)) (lit " sidecar rows were not applied to any entry. That is not the same as stale: a row also lands here when its folder's entryList was refused, and when its key is ambiguous " ++ [8212] ++ lit " those are the keys listed above, and the entry they name does exist")
  ++ note_if (malformed_sidecar_fields x) (lit " sidecar fields were present but unusable")
  ++ note_if (password_read_fallbacks x) (lit " entries typed Password were read through readEntry instead")
  ++ note_if (map_read_fallbacks x) (lit " entries typed Map were read through readEntry instead")
  ++ note_if (attribute_conflicts x) (lit " sidecar rows already carried an attribute named kwallet:folder, kwallet:key or kwallet:type; the sidecar's own value was kept, because overwriting an attribute we did not write changes a lookup")
  ++ map (fun f => lit "the folder '" ++ escape_control f ++ lit "' could not be listed, so none of its entries were read")
         (unreadable_folders x)
  ++ map escape_control (ex_notes x)
  ++ note_if (duplicate_folders x) (lit " folder listings repeated a folder that was already listed, so the repeats were folded into the first listing rather than imported twice: kwalletd repeats every folder in folderList once per open, and entries only a repeat held are unioned in rather than dropped")
  ++ note_if (duplicate_entries x) (lit " entry listings repeated an entry that was already listed in the same folder, so the repeats were not read again: a folder is a map, so a repeat is never a second entry").

(** The end of [extract_kwallet]: a walk as the command's extraction.  [notes]
    is what loading the sidecar noted. *)
Definition extracted_kwallet (wallet : str) (notes : list str) (x : Extraction) : Extracted := {|
  xt_container := wallet;
  xt_items := map (fun i => {| im_item := i; im_report := report_imported i |}) (ex_items x);
  xt_refusals := map (fun r => refused_report (rf_provenance r) (rf_label r) (rf_refusal r)) (ex_refused x);
  xt_skipped := map (fun s => {| nm_label := sk_label s; nm_reason := skip_text (sk_reason s);
                                 nm_provenance := sk_provenance s |}) (ex_skipped x);
  xt_empty_folders := ex_empty_folders x;
  xt_unresolved_sidecar_rows := unresolved_sidecar_rows x;
  xt_notes := notes ++ kwallet_notes x
|}.

(** ** Notes on entries no listing produced *)

Definition MAX_NAMES_PER_FOLDER_NOTE : nat := 8.

Definition unlisted_key (u : UnlistedEntry) : str :=
  match ue_folder u with
  | Some f => escape_control f
  | None => lit "folder hash " ++ ue_folder_hash u
  end.

Definition unlisted_name (u : UnlistedEntry) : str :=
  match ue_entry u with
  | Some e => escape_control e
  | None => 35 :: ue_entry_hash u
  end.

(** [groups.entry(key).or_insert_with(..).1.push(name)]. *)
Definition group_unlisted (groups : gmap str (option str * list str)) (u : UnlistedEntry)
  : gmap str (option str * list str) :=
  let g := default (ue_folder u, []) (groups !! unlisted_key u) in
  <[unlisted_key u := (g.1, g.2 ++ [unlisted_name u])]> groups.

Definition unlisted_note (g : str * (option str * list str)) : str :=
  let '(key, (fld, names)) := g in
  let names := merge_sort str_le names in
  let shown := take MAX_NAMES_PER_FOLDER_NOTE names in
  let more := (length shown <? length names)%nat in
  let listed := join (lit ", ") shown
    ++ (if more then lit ", and " ++ dec (Z.of_nat (length names - length shown)) ++ lit " more" else []) in
  let noun := if (length names =? 1)%nat then lit "entry" else lit "entries" in
  let verb := if (length names =? 1)%nat then lit "is" else lit "are" in
  dec (zlen names) ++ lit " " ++ noun
  ++ (match fld with
      | Some _ => lit " in folder '" ++ key ++ lit "' "
      | None => lit " under " ++ key ++ lit " "
      end)
  ++ verb ++ lit " in the file but kwalletd never listed them, so they were not migrated: " ++ listed
  ++ (if more
      then lit " See verification.unlisted in the --report file for all " ++ dec (zlen names) ++ lit "."
      else []).

Definition unlisted_notes (unlisted : list UnlistedEntry) : list str :=
  map unlisted_note (btree_iter (fold_left group_unlisted unlisted ∅)).

Definition attach_unlisted_notes (x : Extracted) (v : Verification) : Extracted :=
  with_notes x (xt_notes x ++ unlisted_notes (v_unlisted v)).

(** ** The source file *)

Inductive Inventory : Type := IKeyring (k : KeyringInventory) | IWallet (w : WalletInventory).

Record SourceFile : Type := {
  sf_path : fpath;
  inventory : Inventory;
  sf_header_item_count : option nat
}.

(** [Path::file_stem] and [Path::extension] of a file name. *)
Definition split_extension (name : str) : str * option str :=
  match rsplit_once 46 name with
  | Some (c :: stem, ext) => if str_eqb name (lit "..") then (name, None) else (c :: stem, Some ext)
  | _ => (name, None)
  end.

Definition sf_container (f : SourceFile) : str :=
  let stem := match file_name (sf_path f) with
              | Some name => (split_extension name).1
              | None => lit "imported"
              end in
  match inventory f with
  | IKeyring k => match display_name k with [] => stem | s => s end
  | IWallet _ => stem
  end.

Definition header_io (p : fpath) (k : error_kind) (e : option Z) : CliError :=
  if bool_decide (k = NotFound) then CNotFound (WIo p k e) else CFailed (WIo p k e).

Definition header_error (p : fpath) (e : HeaderError) : CliError := CFailed (WHeader p e).

Definition one_of (candidates : list fpath) (dir : fpath) (extension : str) : result fpath CliError :=
  match candidates with
  | [only] => Ok only
  | [] => Err (CNotFound (WNoCandidate extension dir))
  | many => Err (CFailed (WManyCandidates extension dir
                            (map (fun p => escape_control (default [] (file_name p))) many)))
  end.

Section locate.
Context `{Env} `{AliasText}.

Definition files_with_extension (dir : fpath) (extension : str) (w : world) : result (list fpath) CliError * world :=
  match read_dir dir w with
  | (Err e, w) =>
    (Err (if bool_decide (io_kind e = NotFound) then CNotFound (WNoDirectory dir)
          else CFailed (WIo dir (io_kind e) (io_errno e))), w)
  | (Ok names, w) =>
    (Ok (map (path_join dir) (merge_sort str_le
          (List.filter (fun n => bool_decide ((split_extension n).2 = Some extension)) names))), w)
  end.

(** One open: the size is that of the open file, and the read stops one byte
    past the limit, which the second check then refuses. *)
Definition read_source (p : fpath) (w : world) : result bytes CliError * world :=
  do? meta, w <- with_err (fun e => header_io p (io_kind e) (io_errno e)) (stat p w);
  match check_source_size (m_len meta) with
  | Err e => (Err (header_error p e), w)
  | Ok _ =>
    do? bs, w <- with_err (fun e => header_io p (io_kind e) (io_errno e)) (read_file p w);
    match check_source_size (Z.min (zlen bs) (MAX_SOURCE_BYTES + 1)) with
    | Err e => (Err (header_error p e), w)
    | Ok _ => (Ok bs, w)
    end
  end.

(** The keyring the [default] file names, or the only one there is. *)
Definition choose_keyring (dir : fpath) (candidates : list fpath) (w : world) : result fpath CliError * world :=
  let default_file := path_join dir (lit "default") in
  match read_to_string default_file w with
  | (Ok text, w) =>
    match parse_default_file text with
    | Err e => (Err (header_error default_file e), w)
    | Ok name =>
      let p := path_join dir (name ++ lit ".keyring") in
      match stat p w with
      | (Ok _, w) => (Ok p, w)
      | (Err _, w) => (Err (CNotFound (WDefaultMissing name p)), w)
      end
    end
  | (Err e, w) =>
    if bool_decide (ai_kind e = NotFound) then (one_of candidates dir (lit "keyring"), w)
    else (Err (header_io default_file (ai_kind e) None), w)
  end.

Definition locate (source : Source) (dir : fpath) (w : world) : result SourceFile CliError * world :=
  match source with
  | GnomeKeyring =>
    do? candidates, w <- files_with_extension dir (lit "keyring") w;
    do? chosen, w <- choose_keyring dir candidates w;
    do? bs, w <- read_source chosen w;
    match parse_keyring_header bs with
    | Err e => (Err (header_error chosen e), w)
    | Ok inv => (Ok {| sf_path := chosen; inventory := IKeyring inv;
                       sf_header_item_count := Some (item_count inv) |}, w)
    end
  | KWallet =>
    do? candidates, w <- files_with_extension dir (lit "kwl") w;
    match one_of candidates dir (lit "kwl") with
    | Err e => (Err e, w)
    | Ok chosen =>
      do? bs, w <- read_source chosen w;
      match parse_wallet_header bs with
      | Err e => (Err (header_error chosen e), w)
      | Ok inv => (Ok {| sf_path := chosen; inventory := IWallet inv;
                         sf_header_item_count := Some (entry_count inv) |}, w)
      end
    end
  end.
End locate.

(** ** The report file *)

Inductive Disposition : Type := DryRun | Kept | RemovedAgain.

#[global] Instance Disposition_eq_dec : EqDecision Disposition.
Proof. solve_decision. Defined.

(** [Disposition::of]. *)
Definition disposition_of (dry_run : bool) : Disposition := if dry_run then DryRun else Kept.

Record ReportFile : Type := {
  rp_source : Source;
  rp_collection : str;
  rp_tally : Tally;
  tally_before_probe : Tally;
  rp_items : list ItemReport;
  rp_empty_folders : nat;
  rp_header_item_count : option nat;
  verification : Verification;
  not_migrated : list NotMigrated;
  rp_notes : list str;
  rp_dry_run : bool;
  rp_written : bool;
  default_alias_moved : bool
}.

(** [ReportFile::new]. *)
Definition report_file (rep : ImportReport) (probed_tally : Tally) (its : list ItemReport) (v : Verification)
    (x : Extracted) (d : Disposition) (moved : bool) : ReportFile := {|
  rp_source := ir_source rep;
  rp_collection := collection rep;
  rp_tally := probed_tally;
  tally_before_probe := tally rep;
  rp_items := its;
  rp_empty_folders := empty_folders rep;
  rp_header_item_count := header_item_count rep;
  verification := v;
  not_migrated := xt_skipped x;
  rp_notes := xt_notes x;
  rp_dry_run := bool_decide (d = DryRun);
  rp_written := bool_decide (d = Kept);
  default_alias_moved := moved
|}.

Definition downgrade_items (its : list ItemReport) (failed : list ProbeResult) : list ItemReport :=
  map (downgrade (downgraded_keys failed)) its.

(** ** The pipeline's inputs *)

Record ImportArgs : Type := {
  a_from : Source;
  a_inventory : bool;
  a_dry_run : bool;
  a_collection : option str;
  a_set_default : bool;
  a_report : option fpath
}.

Record Config : Type := { vault_dir : fpath; cfg_kdf : KdfParams }.

(** Everyone else: the extractor, the user at the password prompt, the daemon
    ([reload] is [None] when there is none to tell) and the JSON writer. *)
Record Outside : Type := {
  extract : Source -> str -> world -> result Extracted CliError * world;
  new_password : world -> result str CliError * world;
  reload : world -> option (result Response ProtocolError) * world;
  probe_target : world -> result unit str * world;
  search_items : gmap str str -> world -> result (list str * list str) str * world;
  to_string_pretty : ReportFile -> result str str
}.

(** ** Verifying *)

Record Destination : Type := {
  fingerprints : list FingerprintEntry;
  d_lengths : Histogram;
  indexed : bool
}.

Definition accounted_provenances (rep : ImportReport) (skipped : list NotMigrated) : list Provenance :=
  map ir_provenance (List.filter is_refused (ir_items rep)) ++ map nm_provenance skipped.

Definition unlisted_entries (file : SourceFile) (its : list SourceItem) (accounted : list Provenance)
    (sidecar_keys : list str) : list UnlistedEntry :=
  match inventory file with
  | IWallet w => unlisted_wallet_entries w its accounted sidecar_keys
  | IKeyring _ => []
  end.

Definition has_pair (i : SourceItem) : bool :=
  match folder (si_provenance i), entry (si_provenance i) with Some _, Some _ => true | _, _ => false end.

Section run.
Context `{Env} `{Prims} `{VaultCodec} `{AliasText}.

Definition verify_import (file : SourceFile) (its : list SourceItem) (walked : nat)
    (destination : option Destination) (results : list ProbeResult) (unl : list UnlistedEntry) : Verification :=
  let lengths := of_lengths (map (fun i => zlen (si_secret i)) its) in
  {| v_count := {| cc_header := sf_header_item_count file; Verify.walked := walked; Verify.unlisted := length unl |};
     fingerprint_mismatches :=
       match destination with
       | Some d => compare_fingerprints (map fe_source its) (fingerprints d)
       | None => []
       end;
     fingerprints_compared := (fun d => length (fingerprints d)) <$> destination;
     hash_table_misses :=
       match inventory file with IWallet w => check_wallet_hash_table w its | IKeyring _ => [] end;
     v_unlisted := unl;
     hash_table_checked :=
       match inventory file with
       | IWallet _ => Some (length (List.filter has_pair its))
       | IKeyring _ => None
       end;
     probes := probe_summary results;
     failed_probes := List.filter probe_failed results;
     source_lengths := lengths;
     destination_lengths := d_lengths <$> destination;
     length_differences :=
       match destination with Some d => compare_histograms lengths (d_lengths d) | None => [] end |}.

Definition may_suggest_decommission (v : Verification) : bool :=
  verification_passed v && no_elements (unproved v) && no_elements (v_unlisted v).

(** [verification.probes = ..; verification.failed_probes = ..]. *)
Definition with_probes (v : Verification) (results : list ProbeResult) : Verification :=
  {| v_count := v_count v; fingerprint_mismatches := fingerprint_mismatches v;
     fingerprints_compared := fingerprints_compared v; hash_table_misses := hash_table_misses v;
     v_unlisted := v_unlisted v; hash_table_checked := hash_table_checked v;
     probes := probe_summary results; failed_probes := List.filter probe_failed results;
     source_lengths := source_lengths v; destination_lengths := destination_lengths v;
     length_differences := length_differences v |}.

(** ** Writing *)

(** [paths::item(..).as_str()]: both ids are segments, so the path is valid. *)
Definition item_path_text (id item_id : str) : str := target_path (TItem id item_id).

Definition reopen (p : fpath) (password : bytes) (id : str) (w : world) : result Destination VaultError * world :=
  do? v, w <- open_vault p w;
  match unlock password v w with
  | (Err e, _, w) => (Err e, w)
  | (Ok _, v, w) =>
    (let? l := items v in
     Ok {| fingerprints := map (fun i => fe_destination (attributes i) (i_label i) (content_type i) (secret i)
                                           (item_path_text id (i_id i))) l;
           d_lengths := of_lengths (map (fun i => zlen (secret i)) l);
           indexed := index_has_attributes v |}, w)
  end.

(** Verbatim, every field. *)
Definition import_item (i : SourceItem) : ImportItem :=
  {| im_label := si_label i; im_attributes := si_attributes i; im_secret := si_secret i;
     im_content_type := si_content_type i; im_created := si_created i; im_modified := si_modified i |}.

(** The closure that creates, fills and reopens the collection. *)
Definition write_collection (p : fpath) (lbl : str) (password : bytes) (k : KdfParams) (id : str)
    (its : list SourceItem) (w : world) : result Destination VaultError * world :=
  do? v, w <- create p lbl password k w;
  match import_items (map import_item its) v w with
  | (Err e, _, w) => (Err e, w)
  | (Ok _, _, w) => reopen p password id w
  end.

Definition unlink_partial (p : fpath) (e : CliError) (w : world) : CliError * world :=
  match remove_file p w with
  | (Ok _, w) => (e, w)
  | (Err err, w) => (if bool_decide (io_kind err = NotFound) then e else CFailed (WLeftOver e err p), w)
  end.

Definition set_default_alias (cfg : Config) (id : str) (w : world) : bool * world :=
  match load_aliases (vault_dir cfg) w with
  | (Ok aliases, w) =>
    let '(r, w) := save_aliases_to (vault_dir cfg) (<[lit "default" := id]> aliases) w in (is_ok r, w)
  | (Err _, w) => (false, w)
  end.

(** [write_report_or_warn], for the report asked for. *)
Definition write_report (o : Outside) (args : ImportArgs) (rf : ReportFile) (w : world) : world :=
  match a_report args with
  | None => w
  | Some p =>
    match to_string_pretty o rf with
    | Err _ => w
    | Ok json => snd (atomic_write_atomic p (utf8 (json ++ [10])) 384 w)
    end
  end.

(** ** Asking the daemon *)

Definition notify_daemon (o : Outside) (w : world) : bool * world :=
  let '(r, w) := reload o w in
  (match r with
   | None => true
   | Some (Ok (PError _)) => false
   | Some (Err (Connect _)) | Some (Ok _) => true
   | Some (Err _) => false
   end, w).

Fixpoint probe_each (o : Outside) (prefix : str) (plan : list ProbeQuery) (w : world) : list ProbeResult * world :=
  match plan with
  | [] => ([], w)
  | q :: plan =>
    let '(r, w) := search_items o (pq_attributes q) w in
    let '(out, w) := probe_each o prefix plan w in
    (match r with
     | Ok (unlocked, locked) =>
       probe_result q (count_if (fun p => if strip_prefix prefix p then true else false) (unlocked ++ locked))
     | Err _ => not_issued q
     end :: out, w)
  end.

(** [paths::collection(id)] with a slash; the id is a segment. *)
Definition probe_prefix (id : str) : str := target_path (TCollection id) ++ [47].

Definition run_probes (o : Outside) (plan : list ProbeQuery) (id : str) (header_is_indexed : bool) (w : world)
  : list ProbeResult * world :=
  match plan with
  | [] => ([], w)
  | _ =>
    if negb header_is_indexed then (map not_issued plan, w)
    else
      match probe_target o w with
      | (Err _, w) => (map not_issued plan, w)
      | (Ok _, w) => probe_each o (probe_prefix id) plan w
      end
  end.

(** ** The pipeline *)

Definition build_report (source : Source) (lbl : str) (file : SourceFile) (x : Extracted) : ImportReport :=
  let rep := import_report_new source lbl in
  let rep := {| ir_source := ir_source rep; collection := collection rep; tally := tally rep;
                ir_items := ir_items rep; empty_folders := xt_empty_folders x;
                header_item_count := sf_header_item_count file;
                epoch_stamped_items := epoch_stamped_items rep |} in
  fold_left push (map im_report (xt_items x)) (fold_left push (xt_refusals x) rep).

(** What every stage after the extraction knows. *)
Record import_job : Type := {
  j_args : ImportArgs;
  j_config : Config;
  j_file : SourceFile;
  j_extracted : Extracted;
  j_label : str;
  j_id : str;
  j_path : fpath;
  j_report : ImportReport;
  j_items : list SourceItem
}.

Definition j_plan (j : import_job) : list ProbeQuery := probe_plan (j_items j).

(** The offline checks against a destination, or against none. *)
Definition offline (j : import_job) (destination : option Destination) : Verification :=
  let walked := (tally_seen (tally (j_report j)) + length (xt_skipped (j_extracted j)))%nat in
  let accounted := accounted_provenances (j_report j) (xt_skipped (j_extracted j)) in
  let unl := unlisted_entries (j_file j) (j_items j) accounted (xt_unresolved_sidecar_rows (j_extracted j)) in
  verify_import (j_file j) (j_items j) walked destination (map not_issued (j_plan j)) unl.

Abbreviation outcome_of_run := (result unit CliError * option ReportFile * world)%type.

(** Report, then take the collection away again. *)
Definition give_up_write (o : Outside) (j : import_job) (v : Verification) (e : CliError) (w : world) : outcome_of_run :=
  let x := attach_unlisted_notes (j_extracted j) v in
  let rf := report_file (j_report j) (tally (j_report j)) (ir_items (j_report j)) v x RemovedAgain false in
  let w := write_report o (j_args j) rf w in
  let '(e, w) := unlink_partial (j_path j) e w in
  (Err e, Some rf, w).

(** After the offline checks passed: the daemon, the probes, the alias. *)
Definition publish (o : Outside) (j : import_job) (x : Extracted) (destination : option Destination) (v : Verification)
    (w : world) : outcome_of_run :=
  let dry := a_dry_run (j_args j) in
  let '(v, w) :=
    if dry then (v, w)
    else
      let '(reloaded, w) := notify_daemon o w in
      let has_index := match destination with Some d => indexed d | None => false end in
      let '(results, w) :=
        if reloaded then run_probes o (j_plan j) (j_id j) has_index w
        else (map not_issued (j_plan j), w) in
      (with_probes v results, w) in
  let probed_items := downgrade_items (ir_items (j_report j)) (failed_probes v) in
  let probed_tally := tally_with_probes probed_items (failed_probes v) in
  if negb (verification_passed v) then
    let rf := report_file (j_report j) probed_tally probed_items v x (disposition_of dry) false in
    (Err (CFailed (WProbes (j_path j) (j_id j))), Some rf, write_report o (j_args j) rf w)
  else
    let moving := a_set_default (j_args j) && negb dry in
    let '(moved, w) := if moving then set_default_alias (j_config j) (j_id j) w else (false, w) in
    let x := if moving && negb moved
             then with_notes x (xt_notes x ++ [lit "the `default` alias was requested with --set-default but was left alone; the warning above says why"])
             else x in
    let rf := report_file (j_report j) probed_tally probed_items v x (disposition_of dry) moved in
    (Ok tt, Some rf, write_report o (j_args j) rf w).

(** From the destination on: check it offline, then publish it. *)
Definition finish_import (o : Outside) (j : import_job) (destination : option Destination) (w : world) : outcome_of_run :=
  let v := offline j destination in
  if negb (verification_passed v) then
    let e := CFailed (WVerification (a_dry_run (j_args j))) in
    if a_dry_run (j_args j) then
      let x := attach_unlisted_notes (j_extracted j) v in
      let rf := report_file (j_report j) (tally (j_report j)) (ir_items (j_report j)) v x DryRun false in
      (Err e, Some rf, write_report o (j_args j) rf w)
    else give_up_write o j v e w
  else publish o j (attach_unlisted_notes (j_extracted j) v) destination v w.

(** Ask for a password and write the collection. *)
Definition write_and_finish (o : Outside) (j : import_job) (w : world) : outcome_of_run :=
  match new_password o w with
  | (Err e, w) => (Err e, None, w)
  | (Ok password, w) =>
    match write_collection (j_path j) (j_label j) (utf8 password) (cfg_kdf (j_config j)) (j_id j) (j_items j) w with
    | (Ok d, w) => finish_import o j (Some d) w
    | (Err e, w) => give_up_write o j (offline j None) (CFailed (WVault e)) w
    end
  end.

(** What the arguments and an extraction decide. *)
Definition make_job (args : ImportArgs) (cfg : Config) (file : SourceFile) (x : Extracted) : import_job :=
  let lbl := default (xt_container x) (a_collection args) in
  let id := collection_id_from_label lbl in
  {| j_args := args; j_config := cfg; j_file := file; j_extracted := x; j_label := lbl; j_id := id;
     j_path := path_join (vault_dir cfg) (id ++ lit ".vault");
     j_report := build_report (a_from args) lbl file x; j_items := map im_item (xt_items x) |}.

Definition run_with (args : ImportArgs) (o : Outside) (cfg : Config) (source_dir : fpath) (w : world) : outcome_of_run :=
  match locate (a_from args) source_dir w with
  | (Err e, w) => (Err e, None, w)
  | (Ok file, w) =>
    if a_inventory args then (Ok tt, None, w)
    else
      match extract o (a_from args) (sf_container file) w with
      | (Err e, w) => (Err e, None, w)
      | (Ok x, w) =>
        let j := make_job args cfg file x in
        let '(st, w) := stat (j_path j) w in
        if is_ok st && negb (a_dry_run args)
        then (Err (CUsage (WCollectionExists (j_id j) (j_path j))), None, w)
        else if a_dry_run args then finish_import o j None w
        else write_and_finish o j w
      end
  end.
End run.
