(* ===== verification/ImportRunProps.v ===== *)
(** * What an import leaves behind ([src/cli/import.rs])

    A run that succeeds leaves a collection that holds exactly what was
    extracted; one that fails before it publishes leaves nothing; a dry run
    leaves the disk alone; and the advice to decommission the source rests on
    checks that were all made. *)
From S2P Require Import Prelude Text Env Crypto Codec Format Sanitize Names Files Sweep Import Formats Verify VerifyProps KWallet Walk WalkProps Store StoreInv StoreOps StoreKeys StoreProps StoreFrame Search Aliases Protocol ImportRun.

Section written.
Context `{HE : Env} `{HP : Prims} `{HC : VaultCodec} `{HA : AliasText}.
Context `{!EnvOk HE} `{!PrimsOk HP} `{!VaultCodecOk HC}.
Implicit Types (d : fpath) (id lbl : str) (v : Vault) (w : world) (its : list SourceItem) (j : import_job) (o : Outside).

(** ** Reading the collection back *)

(** Opening a file that holds a vault gives that vault, locked. *)
Lemma open_vault_reads v w v1 w1 : vault_inv v w -> open_vault (path v) w = (Ok v1, w1) ->
  v1 = opened_vault (path v) (as_file v) /\ fs w1 = fs w.
Proof.
  intros [Hv (m & t & Hd)]. unfold open_vault, io_err, with_err.
  destruct (stat (path v) w) as [[meta|] w2] eqn:E2; cbn [fst snd map_err]; [|done].
  pose proof (stat_touches _ _ _ _ E2) as [_ F2].
  destruct (check_vault_size (m_len meta)) as [[]|]; [|done].
  destruct (read_file (path v) w2) as [[bs|] w3] eqn:E3; cbn [fst snd map_err]; [|done].
  pose proof (read_touches _ _ _ _ E3) as [_ F3].
  apply syscall_inv in E3 as [[_ [e [=]]]|[-> Eb]]. simpl in Eb. rewrite F2 in Eb.
  rewrite (resolve_file _ _ _ _ _ _ Hd) in Eb. injection Eb as ->. rewrite (vo_decodes v Hv).
  intros [= <- <-]. split; [done|]. by rewrite <- F2.
Qed.

Lemma opened_inv v w w1 : vault_inv v w -> fs w1 = fs w ->
  vault_inv (opened_vault (path v) (as_file v)) w1.
Proof.
  intros Hi F. apply (inv_unchanged _ w); [|by rewrite F]. destruct Hi as [[H1 H2 H3 H4 H5] Hd]. by split; [split|].
Qed.

(** What [reopen] reports about an unlocked vault. *)
Definition destination_of (id : str) (v : Vault) (l : list Item) : Destination :=
  {| fingerprints := map (fun i => fe_destination (attributes i) (i_label i) (content_type i) (secret i)
                                     (item_path_text id (i_id i))) l;
     d_lengths := of_lengths (map (fun i => zlen (secret i)) l);
     indexed := index_has_attributes v |}.

Lemma reopen_outcome v w key l pw id dst w' :
  vault_inv v w -> state v = SUnlocked key l -> derive_key pw (salt (header v)) (kdf (header v)) = Ok key ->
  reopen (path v) pw id w = (Ok dst, w') ->
  exists v', vault_inv v' w' /\ path v' = path v /\ same_header (header v) (header v')
    /\ state v' = SUnlocked key l /\ dst = destination_of id v' l.
Proof.
  intros Hi Hs Hk. unfold reopen. destruct (open_vault (path v) w) as [[v1|] w1] eqn:E1; [|done].
  apply (open_vault_reads _ _ _ _ Hi) in E1 as [-> F1]. pose proof (opened_inv _ _ _ Hi F1) as Hi1.
  unfold unlock. change (salt (header (opened_vault (path v) (as_file v)))) with (salt (header v)).
  change (kdf (header (opened_vault (path v) (as_file v)))) with (kdf (header v)). rewrite Hk.
  destruct (unlock_with_key key _ w1) as [[[[]|e] v2] w2] eqn:E2; [|done].
  apply unlock_locked in E2 as (l' & Hl' & Hs' & Hi2 & (Hp2 & _ & _ & _ & _ & Hh)); [|done..].
  assert (l' = l) as ->.
  { pose proof (vo_state v (proj1 Hi)) as Hx. rewrite Hs in Hx. destruct Hx as (p & Ep & Ed).
    destruct Hl' as (p' & Ep' & Ed'). cbn in Ep'. congruence. }
  unfold items. rewrite Hs'. intros [= <- <-]. exists v2. by split_and!.
Qed.

(** ** Writing the collection *)

(** The file at [p] is a vault labelled [lbl] that the password opens to exactly
    these items, in their order, each under an id of its own. *)
Definition holds_import (p : fpath) (lbl : str) (pw : bytes) (its : list SourceItem) (w : world) : Prop :=
  exists v key l, vault_inv v w /\ path v = p /\ label (header v) = lbl
    /\ derive_key pw (salt (header v)) (kdf (header v)) = Ok key
    /\ state v = SUnlocked key l /\ Forall2 imported (map import_item its) l.

Lemma holds_import_frame p lbl pw its w w' : fs w' !! p = fs w !! p ->
  holds_import p lbl pw its w -> holds_import p lbl pw its w'.
Proof.
  intros E (v & key & l & Hi & Hp & Hrest). exists v, key, l. split; [|done].
  apply (inv_unchanged v w); [done|]. by rewrite Hp.
Qed.

Definition source_wf (i : SourceItem) : Prop := import_wf (import_item i).

Lemma write_collection_outcome d id0 id lbl pw k its w dst w' : let p := d ++ [id0 ++ lit ".vault"] in
  str_wf lbl -> kdf_wf k -> Forall source_wf its ->
  write_collection p lbl pw k id its w = (Ok dst, w') ->
  holds_import p lbl pw its w'
  /\ exists v l, dst = destination_of id v l /\ Forall2 imported (map import_item its) l.
Proof.
  intros p Wl Wk Wi. unfold write_collection. destruct (create p lbl pw k w) as [[v|] w1] eqn:E1; [|done].
  apply create_outcome in E1 as (Hi1 & Hp1 & Hl1 & _ & key & Hk1 & _ & Hs1 & _); [|done..].
  destruct (import_items (map import_item its) v w1) as [[[[]|e] v2] w2] eqn:E2; [|done].
  apply import_items_outcome in E2; [|done|by apply Forall_map].
  assert (exists l, vault_inv v2 w2 /\ path v2 = p /\ same_header (header v) (header v2)
                    /\ state v2 = SUnlocked key l /\ Forall2 imported (map import_item its) l)
    as (l & Hi2 & Hp2 & Hh2 & Hs2 & Hn).
  { destruct E2 as [(Hb & -> & Hi2 & _)|(key' & its' & new & Hs & _ & Hn & (Hi2 & Hs2 & (Hp2 & _) & Hh2 & _))].
    - exists []. rewrite Hb. split_and!; try done.
    - exists new. rewrite Hs1 in Hs. injection Hs as <- <-. split_and!; try done. by rewrite Hp2. }
  assert (Hk2 : derive_key pw (salt (header v2)) (kdf (header v2)) = Ok key).
  { destruct Hh2 as (_ & _ & _ & -> & -> & _). done. }
  rewrite <- Hp2. intros E3. apply (reopen_outcome v2 w2 key l) in E3 as (v3 & Hi3 & Hp3 & Hh3 & Hs3 & ->); [|done..].
  split; [|by exists v3, l]. exists v3, key, l. destruct Hh2 as (_ & Hl2 & _ & Hkd2 & Hsa2 & _).
  destruct Hh3 as (_ & Hl3 & _ & Hkd3 & Hsa3 & _). split_and!; try done; [congruence|by rewrite Hsa3, Hkd3].
Qed.

(** ** The offline checks of a write that succeeded *)

Lemma imported_fields (P : SourceItem -> Item -> Prop) its l :
  (forall i id, P i {| i_id := id; i_label := si_label i; attributes := si_attributes i; secret := si_secret i;
                       content_type := si_content_type i; i_created := si_created i; i_modified := si_modified i |}) ->
  Forall2 imported (map import_item its) l -> Forall2 P its l.
Proof.
  intros HP'. revert l. induction its as [|i its IH]; intros l; [by intros ->%Forall2_nil_inv_l|].
  cbn [map]. intros (x & l' & Hx & Hl & ->)%Forall2_cons_inv_l. constructor; [|by apply IH].
  rewrite Hx. apply HP'.
Qed.

Lemma map_Forall2 {A B C} (f : A -> C) (g : B -> C) la lb : Forall2 (fun a b => f a = g b) la lb -> map f la = map g lb.
Proof. induction 1 as [|a b la lb E _ IH]; [done|]. cbn [map]. by rewrite E, IH. Qed.

Lemma written_checks id v l its : Forall2 imported (map import_item its) l ->
  compare_fingerprints (map fe_source its) (fingerprints (destination_of id v l)) = []
  /\ compare_histograms (of_lengths (map (fun i => zlen (si_secret i)) its)) (d_lengths (destination_of id v l)) = []
  /\ length (fingerprints (destination_of id v l)) = length its.
Proof.
  intros Hn. cbn [fingerprints d_lengths destination_of]. split; [|split].
  - apply compare_fingerprints_nil. rewrite !map_map. erewrite map_Forall2; [reflexivity|].
    revert Hn. apply imported_fields. done.
  - assert (map (fun i => zlen (si_secret i)) its = map (fun i => zlen (secret i)) l) as ->.
    { apply map_Forall2. revert Hn. apply imported_fields. done. }
    by apply compare_of_lengths.
  - apply Forall2_length in Hn. rewrite length_map in *. done.
Qed.

(** ** What the rest of the pipeline touches *)

(** The report goes somewhere that is not a vault of the directory. *)
Definition report_elsewhere (d : fpath) (args : ImportArgs) : Prop :=
  forall q, a_report args = Some q -> exists dq n, q = dq ++ [n] /\ forall id, q <> vault_path d id.

(** The daemon leaves the vault files alone while it is asked. *)
Record daemon_quiet (d : fpath) (o : Outside) : Prop := {
  dq_reload w : vaults_kept d w (reload o w).2;
  dq_target w : vaults_kept d w (probe_target o w).2;
  dq_search q w : vaults_kept d w (search_items o q w).2
}.

Lemma temp_no_vault dq n sfx d id : temp_path dq n sfx <> vault_path d id.
Proof.
  intros E. assert (dq = d) as ->; [|by apply temp_not_vault in E].
  unfold temp_path, path_join, vault_path in E. by apply app_inj_tail in E as [? _].
Qed.

Lemma write_report_kept d o args rf w : report_elsewhere d args -> vaults_kept d w (write_report o args rf w).
Proof.
  intros Hr id. unfold write_report. destruct (a_report args) as [q|] eqn:Eq; [|done].
  destruct (to_string_pretty o rf) as [json|]; [|done]. destruct (Hr q Eq) as (dq & n & -> & Hne).
  destruct (atomic_write_atomic _ _ _ w) as [r w'] eqn:E. cbn [snd].
  apply atomic_write_spec in E as (sfx & T & _). apply (touches_end _ _ _ _ T). intros [Ht|[_ Hv]].
  - by symmetry in Ht; apply temp_no_vault in Ht.
  - by apply (Hne id).
Qed.

Lemma probe_each_kept d o prefix plan : daemon_quiet d o -> forall w, vaults_kept d w (probe_each o prefix plan w).2.
Proof.
  intros Hq. induction plan as [|q plan IH]; intros w; [done|]. cbn [probe_each].
  pose proof (dq_search d o Hq (pq_attributes q) w) as K1. destruct (search_items o (pq_attributes q) w) as [r w1].
  specialize (IH w1). destruct (probe_each o prefix plan w1) as [out w2]. cbn [snd] in *. by transitivity w1.
Qed.

Lemma run_probes_kept d o plan id ix w : daemon_quiet d o -> vaults_kept d w (run_probes o plan id ix w).2.
Proof.
  intros Hq. unfold run_probes. destruct plan as [|q plan]; [done|]. set (pl := q :: plan). destruct ix; [|done].
  cbn [negb]. pose proof (dq_target d o Hq w) as K1. destruct (probe_target o w) as [[u|e] w1]; cbn [snd] in *; [|done].
  etransitivity; [exact K1|]. by apply probe_each_kept.
Qed.

Lemma set_default_kept cfg id w : vaults_kept (vault_dir cfg) w (set_default_alias cfg id w).2.
Proof.
  unfold set_default_alias. destruct (load_aliases _ w) as [r w1] eqn:E1. apply load_aliases_fs in E1.
  destruct r as [m|]; [|by apply same_fs_kept].
  destruct (save_aliases_to _ _ w1) as [r2 w2] eqn:E2. apply save_aliases_kept in E2. cbn [snd].
  etransitivity; [by apply same_fs_kept|exact E2].
Qed.

Lemma publish_kept d o j x dst (vf : Verification) w : vault_dir (j_config j) = d -> daemon_quiet d o -> report_elsewhere d (j_args j) ->
  vaults_kept d w (publish o j x dst vf w).2.
Proof.
  intros Hd Hq Hr. unfold publish, notify_daemon. destruct (a_dry_run (j_args j)) eqn:Edry.
  - destruct (negb _); cbn [snd]; [by apply write_report_kept|].
    rewrite andb_false_r. cbn [snd]. by apply write_report_kept.
  - pose proof (dq_reload d o Hq w) as K1. destruct (reload o w) as [rl w1]. cbn [snd] in K1.
    set (ok := match rl with None => true | Some _ => _ end). set (ix := match dst with Some d' => indexed d' | None => false end).
    assert (vaults_kept d w (if ok then run_probes o (j_plan j) (j_id j) ix w1 else (map not_issued (j_plan j), w1)).2) as K2.
    { destruct ok; [|done]. etransitivity; [exact K1|by apply run_probes_kept]. }
    destruct (if ok then _ else _) as [results w2]. cbn [snd] in K2.
    destruct (negb _); cbn [snd]; [etransitivity; [exact K2|by apply write_report_kept]|].
    rewrite andb_true_r.
    assert (vaults_kept d w (if a_set_default (j_args j) then set_default_alias (j_config j) (j_id j) w2 else (false, w2)).2) as K3.
    { destruct (a_set_default _); [|done]. etransitivity; [exact K2|]. rewrite <- Hd. apply set_default_kept. }
    destruct (if a_set_default _ then _ else _) as [moved w3]. cbn [snd] in *.
    etransitivity; [exact K3|by apply write_report_kept].
Qed.

(** Giving up removes the file, or says that it could not. *)
Lemma give_up_outcome d o j (vf : Verification) e w : report_elsewhere d (j_args j) -> j_path j = vault_path d (j_id j) ->
  (forall n f, env_fault n = Some f -> io_kind f <> NotFound) ->
  let '(r, _, w') := give_up_write o j vf e w in
  exists e', r = Err e'
    /\ (e' = e /\ fs w' !! j_path j = None \/ exists f, e' = CFailed (WLeftOver e f (j_path j)))
    /\ beside d (j_id j) w w'.
Proof.
  intros Hr Hp Hf. unfold give_up_write. set (rf := report_file _ _ _ _ _ _ _).
  pose proof (write_report_kept d o (j_args j) rf w Hr) as K. set (w1 := write_report o (j_args j) rf w) in *.
  unfold unlink_partial. destruct (remove_file (j_path j) w1) as [r w2] eqn:E.
  pose proof (remove_file_spec _ _ _ _ E) as (T & Hok & _).
  assert (beside d (j_id j) w w2) as Hb.
  { intros id' Hne. rewrite <- K. apply (touches_end _ _ _ _ T). rewrite Hp. intros Hx%vault_path_inj. congruence. }
  destruct r as [[]|err]; [exists e; by split_and!; [|left; split; [|apply Hok]|]|].
  destruct (bool_decide (io_kind err = NotFound)) eqn:Hk; [apply bool_decide_eq_true in Hk|eauto 6].
  exists e. split_and!; [done| |done]. left. split; [done|]. revert E. unfold remove_file, syscall.
  destruct (env_fault (tick w1)) as [f|] eqn:Ef; [intros [= -> _]; by apply Hf in Ef|].
  destruct (fs w1 !! j_path j) as [[]|] eqn:Ep; intros [= <- <-]; done.
Qed.

Lemma write_collection_beside d id lbl pw k id' its w r w' :
  write_collection (vault_path d id) lbl pw k id' its w = (r, w') -> beside d id w w'.
Proof.
  unfold write_collection. destruct (create _ lbl pw k w) as [[v|] w1] eqn:E1;
    pose proof (create_beside _ _ _ _ _ _ _ _ E1) as B1; [|by intros [= _ <-]].
  assert (path v = vault_path d id) as Hp.
  { revert E1. unfold create, io_err, with_err. destruct (ensure_vault_dir _ w) as [[u|] w2]; cbn [fst snd map_err]; [|done].
    destruct (build _ lbl pw k w2) as [[v1|] w3] eqn:E3; [|done]. apply build_path in E3.
    destruct (save_with publish_new v1 w3) as [[[[]|] v4] w4] eqn:E4; [|done]. apply save_with_path in E4.
    intros [= <- _]. congruence. }
  destruct (import_items (map import_item its) v w1) as [[[[]|] v2] w2] eqn:E2;
    pose proof (import_beside _ d id _ _ _ _ _ Hp E2) as B2; [|intros [= _ <-]; by transitivity w1].
  intros E. transitivity w2; [by transitivity w1|]. revert E. unfold reopen.
  destruct (open_vault _ w2) as [r3 w3] eqn:E3.
  assert (fs w3 = fs w2) as F3 by (by eapply open_vault_fs).
  destruct r3 as [v3|]; [|intros [= _ <-]; by apply same_fs_beside].
  assert (path v3 = vault_path d id) as Hp3 by (by eapply open_vault_path). unfold unlock.
  destruct (derive_key _ _ _) as [key|]; [|intros [= _ <-]; by apply same_fs_beside].
  destruct (unlock_with_key key v3 w3) as [[r4 v4] w4] eqn:E4. apply (unlock_beside d id) in E4; [|done].
  intros E. assert (w' = w4) as -> by (destruct r4; by injection E as _ <-). transitivity w3; [by apply same_fs_beside|apply E4].
Qed.

(** ** The run of a job *)

(** A job whose path is that of its id, and whose inputs are values of their
    Rust types. *)
Record job_wf (d : fpath) (j : import_job) : Prop := {
  jw_dir : vault_dir (j_config j) = d;
  jw_path : j_path j = vault_path d (j_id j);
  jw_label : str_wf (j_label j);
  jw_items : Forall source_wf (j_items j);
  jw_kdf : kdf_wf (cfg_kdf (j_config j));
  jw_report : report_elsewhere d (j_args j)
}.

Lemma publish_ok d o j x dst (v : Verification) w rf w' : job_wf d j -> daemon_quiet d o -> a_dry_run (j_args j) = false ->
  publish o j x dst v w = (Ok tt, rf, w') ->
  vaults_kept d w w' /\ exists f results, rf = Some f /\ verification f = with_probes v results
    /\ verification_passed (verification f) = true /\ rp_written f = true /\ rp_dry_run f = false.
Proof.
  intros Hj Hq Hdry E. pose proof (publish_kept d o j x dst v w (jw_dir _ _ Hj) Hq (jw_report _ _ Hj)) as K.
  rewrite E in K. split; [exact K|]. revert E. clear K. unfold publish. rewrite Hdry.
  destruct (notify_daemon o w) as [ok w1]. destruct (if ok then _ else _) as [results w2].
  destruct (verification_passed (with_probes v results)) eqn:Ev; [|done]. cbn [negb]. rewrite andb_true_r.
  destruct (if a_set_default _ then _ else _) as [moved w3]. intros [= <- <-].
  eexists _, results. split_and!; [done|done|done|done|done].
Qed.

Lemma publish_err o j x dst (v : Verification) w e rf w' : publish o j x dst v w = (Err e, rf, w') ->
  e = CFailed (WProbes (j_path j) (j_id j)).
Proof.
  unfold publish. destruct (if a_dry_run _ then _ else _) as [v' w1].
  destruct (verification_passed v'); [|by intros [= <- _ _]].
  cbn [negb]. destruct (if _ && _ then _ else _) as [moved w2]. done.
Qed.

Lemma write_and_finish_ok d o j w rf w' : job_wf d j -> daemon_quiet d o -> a_dry_run (j_args j) = false ->
  write_and_finish o j w = (Ok tt, rf, w') ->
  exists pw w1 w2 f, new_password o w1 = (Ok pw, w2)
    /\ holds_import (j_path j) (j_label j) (utf8 pw) (j_items j) w'
    /\ rf = Some f /\ verification_passed (verification f) = true
    /\ fingerprints_compared (verification f) = Some (length (j_items j)) /\ rp_written f = true.
Proof.
  intros Hj Hq Hdry. unfold write_and_finish.
  destruct (new_password o w) as [[pw|e] w1] eqn:Epw; [|done].
  destruct (write_collection _ _ _ _ _ _ w1) as [[dst|e] w2] eqn:Ew.
  2: { unfold give_up_write. destruct (unlink_partial _ _ _). done. }
  rewrite (jw_path _ _ Hj) in Ew.
  apply write_collection_outcome in Ew as (Hh & v & l & -> & Hn); [|apply Hj..].
  unfold finish_import. destruct (verification_passed (offline j _)) eqn:Ev.
  2: { cbn [negb]. rewrite Hdry. unfold give_up_write. destruct (unlink_partial _ _ _). done. }
  cbn [negb]. intros E. apply (publish_ok d) in E as (K & f & results & -> & Hf & Hp & Hw & _); [|done..].
  exists pw, w, w1, f. split_and!; try done.
  - apply (holds_import_frame _ _ _ _ w2); [rewrite (jw_path _ _ Hj); apply K|by rewrite (jw_path _ _ Hj)].
  - rewrite Hf. cbn [with_probes fingerprints_compared offline verify_import]. cbn.
    f_equal. rewrite length_map. apply Forall2_length in Hn. by rewrite length_map in Hn.
Qed.

(** A run that fails leaves no file at the job's path, or says why one is
    there: it was published, or it could not be removed. *)
Lemma write_and_finish_err d o j w e rf w' : job_wf d j -> daemon_quiet d o -> a_dry_run (j_args j) = false ->
  (forall n f, env_fault n = Some f -> io_kind f <> NotFound) -> (forall w, vaults_kept d w (new_password o w).2) ->
  fs w !! j_path j = None -> write_and_finish o j w = (Err e, rf, w') ->
  fs w' !! j_path j = None
  \/ (exists e' f, e = CFailed (WLeftOver e' f (j_path j)))
  \/ (e = CFailed (WProbes (j_path j) (j_id j))
      /\ exists pw, holds_import (j_path j) (j_label j) (utf8 pw) (j_items j) w').
Proof.
  intros Hj Hq Hdry Hf Hpw Habs. pose proof (jw_path _ _ Hj) as Hp. unfold write_and_finish.
  pose proof (Hpw w) as K0. destruct (new_password o w) as [[pw|e0] w1] eqn:Epw; cbn [snd] in K0.
  2: { intros [= _ _ <-]. left. rewrite Hp, K0, <- Hp. done. }
  assert (Hgive : forall (v : Verification) (e0 : CliError) w2, give_up_write o j v e0 w2 = (Err e, rf, w') ->
            fs w' !! j_path j = None \/ (exists e' f, e = CFailed (WLeftOver e' f (j_path j)))).
  { intros v e0 w2 E. pose proof (give_up_outcome d o j v e0 w2 (jw_report _ _ Hj) Hp Hf) as Hg.
    rewrite E in Hg. destruct Hg as (e1 & [= <-] & [[-> Hn]|[f ->]] & _); eauto. }
  destruct (write_collection _ _ _ _ _ _ w1) as [[dst|e1] w2] eqn:Ew; [|intros E; apply Hgive in E; tauto].
  rewrite Hp in Ew. apply write_collection_outcome in Ew as (Hh & v & l & -> & Hn); [|apply Hj..].
  unfold finish_import. destruct (verification_passed (offline j _)) eqn:Ev; cbn [negb].
  2: { rewrite Hdry. intros E. apply Hgive in E. tauto. }
  intros E. right. right. split; [by apply publish_err in E|]. exists pw.
  pose proof (publish_kept d o j (attach_unlisted_notes (j_extracted j) (offline j (Some (destination_of (j_id j) v l))))
                (Some (destination_of (j_id j) v l)) (offline j (Some (destination_of (j_id j) v l))) w2
                (jw_dir _ _ Hj) Hq (jw_report _ _ Hj)) as K. rewrite E in K. cbn [snd] in K.
  apply (holds_import_frame _ _ _ _ w2); [rewrite Hp; apply K|by rewrite Hp].
Qed.

Lemma finish_beside d o j dst w : job_wf d j -> daemon_quiet d o ->
  (forall n f, env_fault n = Some f -> io_kind f <> NotFound) -> beside d (j_id j) w (finish_import o j dst w).2.
Proof.
  intros Hj Hq Hf. assert (forall w w', vaults_kept d w w' -> beside d (j_id j) w w') as Hkb by (by intros ?? K id' _).
  unfold finish_import. destruct (negb _); [|by apply Hkb, (publish_kept d); [apply Hj|..|apply Hj]].
  destruct (a_dry_run _); [by apply Hkb, write_report_kept, Hj|].
  pose proof (give_up_outcome d o j (offline j dst) (CFailed (WVerification false)) w (jw_report _ _ Hj) (jw_path _ _ Hj) Hf) as Hg.
  destruct (give_up_write _ _ _ _ _) as [[r rf] w']. by destruct Hg as (e' & _ & _ & Hb).
Qed.

Lemma write_and_finish_beside d o j w : job_wf d j -> daemon_quiet d o -> (forall w, vaults_kept d w (new_password o w).2) ->
  (forall n f, env_fault n = Some f -> io_kind f <> NotFound) -> beside d (j_id j) w (write_and_finish o j w).2.
Proof.
  intros Hj Hq Hpw Hf. unfold write_and_finish. pose proof (Hpw w) as K0.
  assert (beside d (j_id j) w (new_password o w).2) as B0 by (by intros id' _).
  destruct (new_password o w) as [[pw|e0] w1]; cbn [snd] in B0; [|done]. etransitivity; [exact B0|].
  destruct (write_collection _ _ _ _ _ _ w1) as [[dst|e1] w2] eqn:Ew; rewrite (jw_path _ _ Hj) in Ew;
    apply write_collection_beside in Ew; (etransitivity; [exact Ew|]); [by apply finish_beside|].
  pose proof (give_up_outcome d o j (offline j None) (CFailed (WVault e1)) w2 (jw_report _ _ Hj) (jw_path _ _ Hj) Hf) as Hg.
  destruct (give_up_write _ _ _ _ _) as [[r rf] w']. by destruct Hg as (e' & _ & _ & Hb).
Qed.

(** ** The whole run *)

Lemma read_source_fs p w : fs (read_source p w).2 = fs w.
Proof.
  unfold read_source, with_err. destruct (stat p w) as [rs w1] eqn:E1. apply stat_touches in E1 as [_ F1].
  destruct rs as [meta|]; cbn [fst snd map_err]; [|done]. destruct (check_source_size _); [|done].
  destruct (read_file p w1) as [rr w2] eqn:E2. apply read_touches in E2 as [_ F2]. rewrite F1 in F2.
  destruct rr; cbn [fst snd map_err]; [|done]. by destruct (check_source_size _).
Qed.

Lemma files_with_extension_fs dir e w : fs (files_with_extension dir e w).2 = fs w.
Proof.
  unfold files_with_extension. destruct (read_dir dir w) as [r w1] eqn:E. apply syscall_inv in E as [[-> _]|[-> _]];
    by destruct r.
Qed.

Lemma choose_keyring_fs dir c w : fs (choose_keyring dir c w).2 = fs w.
Proof.
  unfold choose_keyring, read_to_string. destruct (read_file _ w) as [r w1] eqn:E1. apply read_touches in E1 as [_ F1].
  destruct r as [bs|e]; [|by destruct (bool_decide _)]. destruct (ok_or _ _); [|by destruct (bool_decide _)].
  destruct (parse_default_file _); [|done].
  destruct (stat _ w1) as [rs w2] eqn:E2. apply stat_touches in E2 as [_ F2]. rewrite F1 in F2. by destruct rs.
Qed.

Lemma locate_fs s dir w : fs (locate s dir w).2 = fs w.
Proof.
  unfold locate. destruct s.
  - pose proof (files_with_extension_fs dir (lit "keyring") w) as F1.
    destruct (files_with_extension _ _ w) as [[c|] w1]; [|done]. cbn [snd] in F1.
    pose proof (choose_keyring_fs dir c w1) as F2. destruct (choose_keyring dir c w1) as [[p|] w2]; cbn [snd] in *; [|congruence].
    pose proof (read_source_fs p w2) as F3. destruct (read_source p w2) as [[bs|] w3]; cbn [snd] in *; [|congruence].
    destruct (parse_keyring_header bs); cbn [snd]; congruence.
  - pose proof (files_with_extension_fs dir (lit "kwl") w) as F1.
    destruct (files_with_extension _ _ w) as [[c|] w1]; [|done]. cbn [snd] in F1. destruct (one_of c dir _) as [p|]; [|done].
    pose proof (read_source_fs p w1) as F3. destruct (read_source p w1) as [[bs|] w3]; cbn [snd] in *; [|congruence].
    destruct (parse_wallet_header bs); cbn [snd]; congruence.
Qed.

(** Everyone else leaves the vault files alone. *)
Record outside_quiet (d : fpath) (o : Outside) : Prop := {
  oq_daemon : daemon_quiet d o;
  oq_extract s c w : vaults_kept d w (extract o s c w).2;
  oq_password w : vaults_kept d w (new_password o w).2
}.

(** The arguments and the extraction are values of their Rust types. *)
Definition inputs_wf (args : ImportArgs) (o : Outside) (cfg : Config) : Prop :=
  kdf_wf (cfg_kdf cfg) /\ report_elsewhere (vault_dir cfg) args
  /\ forall s c w x w', extract o s c w = (Ok x, w') ->
       str_wf (default (xt_container x) (a_collection args)) /\ Forall source_wf (map im_item (xt_items x)).

Lemma make_job_wf args o cfg s c w x w' file : inputs_wf args o cfg -> extract o s c w = (Ok x, w') ->
  job_wf (vault_dir cfg) (make_job args cfg file x).
Proof. intros (Hk & Hr & Hx) E. destruct (Hx _ _ _ _ _ E). by split. Qed.

(** A run that writes either ends before it asks for a password, with the vault
    files as they were, or is the run of a job whose path it found free. *)
Lemma run_with_cases args o cfg sdir w : a_dry_run args = false -> a_inventory args = false ->
  (forall s c w, vaults_kept (vault_dir cfg) w (extract o s c w).2) ->
  let '(r, rf, w') := run_with args o cfg sdir w in
  (exists e, r = Err e /\ rf = None /\ vaults_kept (vault_dir cfg) w w')
  \/ exists file x w1 w2 w3, extract o (a_from args) (sf_container file) w1 = (Ok x, w2)
       /\ vaults_kept (vault_dir cfg) w w3
       /\ write_and_finish o (make_job args cfg file x) w3 = (r, rf, w').
Proof.
  intros Hdry Hinv Hx. unfold run_with. rewrite Hinv, Hdry.
  pose proof (locate_fs (a_from args) sdir w) as F1. destruct (locate (a_from args) sdir w) as [[file|e] w1]; cbn [snd] in F1;
    [|left; exists e; split_and!; try done; by apply same_fs_kept].
  pose proof (Hx (a_from args) (sf_container file) w1) as K2.
  destruct (extract o (a_from args) (sf_container file) w1) as [[x|e] w2] eqn:Ex; cbn [snd] in K2;
    [|left; exists e; split_and!; try done; intros id; by rewrite K2, F1].
  destruct (stat (j_path (make_job args cfg file x)) w2) as [st w3] eqn:Es. apply stat_touches in Es as [_ F3].
  assert (vaults_kept (vault_dir cfg) w w3) as K3 by (intros id; by rewrite F3, K2, F1).
  destruct (is_ok st); cbn [andb negb]; [left; eauto|].
  destruct (write_and_finish _ _ w3) as [[r rf] w'] eqn:E. right. by exists file, x, w1, w2, w3.
Qed.
End written.

(** ** Reports *)

Section reports.
Context `{HE : Env} `{HP : Prims} `{HC : VaultCodec} `{HA : AliasText}.
Implicit Types (w : world) (j : import_job) (o : Outside) (f : ReportFile).

(** What every report a run prints says of itself. *)
Record report_sound (j : import_job) (dst : option Destination) (r : result unit CliError) (f : ReportFile) : Prop := {
  rs_tally : rp_tally f = recomputed_tally (rp_items f);
  rs_before : tally_before_probe f = recomputed_tally (ir_items (j_report j));
  rs_items : length (rp_items f) = length (ir_items (j_report j));
  rs_compared : fingerprints_compared (verification f) = (fun d => length (fingerprints d)) <$> dst;
  rs_passed : verification_passed (verification f) = true -> dst = None \/ r = Ok tt
}.

Lemma fold_push_items l : forall rep, ir_items (fold_left push l rep) = ir_items rep ++ l.
Proof.
  induction l as [|y l IH]; intros rep; [by rewrite app_nil_r|]. cbn [fold_left]. rewrite IH. cbn [push ir_items].
  by rewrite <- app_assoc.
Qed.

Lemma build_report_items source lbl file x :
  ir_items (build_report source lbl file x) = xt_refusals x ++ map im_report (xt_items x).
Proof. unfold build_report. by rewrite !fold_push_items. Qed.

Lemma build_report_ok source lbl file x : report_ok (build_report source lbl file x).
Proof. unfold build_report. by do 2 apply pushes_ok. Qed.

Lemma probed_items_tally its failed :
  tally_with_probes (downgrade_items its failed) failed = recomputed_tally (downgrade_items its failed).
Proof.
  rewrite tally_with_probes_downgrade. f_equal. unfold downgrade_items. rewrite map_map.
  apply map_ext. intros r. apply downgrade_idem.
Qed.

Lemma give_up_sound o j dst e w r f w' : report_ok (j_report j) ->
  dst = None \/ verification_passed (offline j dst) = false ->
  give_up_write o j (offline j dst) e w = (r, Some f, w') -> report_sound j dst r f.
Proof.
  intros [Ht _] Hd. unfold give_up_write. destruct (unlink_partial _ _ _) as [e' w2]. intros [= _ <- _].
  split; cbn [report_file rp_tally rp_items tally_before_probe verification]; try done.
  intros Hp. destruct Hd as [->|Hd]; [by left|congruence].
Qed.

Lemma publish_sound o j x dst w r f w' : report_ok (j_report j) ->
  publish o j x dst (offline j dst) w = (r, Some f, w') -> report_sound j dst r f.
Proof.
  intros [Ht _]. unfold publish. set (pr := if a_dry_run _ then _ else _).
  assert (fingerprints_compared pr.1 = (fun d => length (fingerprints d)) <$> dst) as Hfc.
  { subst pr. destruct (a_dry_run _); [done|]. destruct (notify_daemon o w) as [ok w1].
    by destruct (if ok then _ else _) as [results w2]. }
  destruct pr as [v w1]. cbn [fst] in Hfc.
  assert (forall d moved x', report_sound j dst r
            (report_file (j_report j) (tally_with_probes (downgrade_items (ir_items (j_report j)) (failed_probes v)) (failed_probes v))
               (downgrade_items (ir_items (j_report j)) (failed_probes v)) v x' d moved)
          <-> (verification_passed v = true -> dst = None \/ r = Ok tt)) as Hs.
  { intros d moved x'. split; [by intros []|]. intros Hp. split; cbn [report_file rp_tally rp_items tally_before_probe verification]; try done.
    - apply probed_items_tally.
    - apply length_map. }
  destruct (verification_passed v) eqn:Ep; cbn [negb].
  - destruct (if _ && _ then _ else _) as [moved w2]. intros [= <- <- _]. apply Hs. by right.
  - intros [= <- <- _]. by apply Hs.
Qed.

Lemma finish_sound o j dst w r f w' : report_ok (j_report j) ->
  finish_import o j dst w = (r, Some f, w') -> report_sound j dst r f.
Proof.
  intros Hok. unfold finish_import. destruct (verification_passed (offline j dst)) eqn:Ev; cbn [negb]; [by apply publish_sound|].
  destruct (a_dry_run _).
  - intros [= _ <- _]. destruct Hok as [Ht _].
    split; cbn [report_file rp_tally rp_items tally_before_probe verification]; try done. congruence.
  - apply give_up_sound; auto.
Qed.

Lemma run_with_sound args o cfg sdir w r f w' : run_with args o cfg sdir w = (r, Some f, w') ->
  exists file x dst, report_sound (make_job args cfg file x) dst r f /\ (a_dry_run args = true -> dst = None).
Proof.
  unfold run_with. destruct (locate _ _ w) as [[file|e] w1]; [|done]. destruct (a_inventory args); [done|].
  destruct (extract o _ _ w1) as [[x|e] w2]; [|done]. destruct (stat _ w2) as [st w3]. destruct (is_ok st && _); [done|].
  pose proof (build_report_ok (a_from args) (j_label (make_job args cfg file x)) file x) as Hok.
  destruct (a_dry_run args) eqn:Ed.
  - intros E. exists file, x, None. split; [|done]. by eapply finish_sound.
  - unfold write_and_finish. destruct (new_password o w3) as [[pw|e] w4]; [|done].
    destruct (write_collection _ _ _ _ _ _ w4) as [[dst|e] w5]; intros E.
    + exists file, x, (Some dst). split; [|done]. by eapply finish_sound.
    + exists file, x, None. split; [|done]. eapply give_up_sound; [done|by left|done].
Qed.
End reports.

(** ** Properties of a run *)

Section props.
Context (HE : Env) (HP : Prims) (HC : VaultCodec) (HA : AliasText).
Context (HEo : EnvOk HE) (HPo : PrimsOk HP) (HCo : VaultCodecOk HC).

(** C3. An import that succeeds is complete and faithful. When a run that is not
    dry returns, with any faults of the disk on the way and whatever the
    daemon answered, the new collection's file is a vault with the chosen
    label that the chosen password opens to exactly the extracted items, in
    their order, every field as the source had it; every fingerprint was
    compared, every check that was made passed, and the report says the
    collection was written. *)
Theorem import_ok_faithful args o cfg sdir w rf w' :
  a_dry_run args = false -> a_inventory args = false ->
  inputs_wf args o cfg -> outside_quiet (vault_dir cfg) o ->
  run_with args o cfg sdir w = (Ok tt, rf, w') ->
  exists file x pw w1 w2 w3 w4 f,
    extract o (a_from args) (sf_container file) w1 = (Ok x, w2) /\ new_password o w3 = (Ok pw, w4)
    /\ (let lbl := default (xt_container x) (a_collection args) in
        holds_import (vault_path (vault_dir cfg) (collection_id_from_label lbl)) lbl (utf8 pw)
                     (map im_item (xt_items x)) w')
    /\ rf = Some f /\ rp_written f = true /\ verification_passed (verification f) = true
    /\ fingerprints_compared (verification f) = Some (length (xt_items x)).
Proof.
  intros Hdry Hinv Hwf Hq E. pose proof (run_with_cases args o cfg sdir w Hdry Hinv (oq_extract _ _ Hq)) as Hc.
  rewrite E in Hc. destruct Hc as [(e & [=] & _)|(file & x & w1 & w2 & w3 & Ex & _ & Ew)].
  pose proof (make_job_wf _ _ _ _ _ _ _ _ file Hwf Ex) as Hj.
  apply (write_and_finish_ok (vault_dir cfg)) in Ew as (pw & w4 & w5 & f & Epw & Hh & -> & Hv & Hfp & Hw);
    [|done|apply Hq|done].
  exists file, x, pw, w1, w2, w4, w5, f. split_and!; try done. rewrite Hfp. cbn. by rewrite length_map.
Qed.

(** C25. An import that fails leaves nothing behind, and touches no other
    collection. Where no collection was before, either there is none after, or
    the error says that the file could not be removed, or it says that the
    probes failed, in which case the file was published and is the complete
    import. Every other vault of the directory is as it was, whatever the
    run returned. *)
Theorem failed_import_leaves_nothing args o cfg sdir w r rf w' :
  a_dry_run args = false -> a_inventory args = false ->
  inputs_wf args o cfg -> outside_quiet (vault_dir cfg) o ->
  (forall n f, env_fault n = Some f -> io_kind f <> NotFound) ->
  run_with args o cfg sdir w = (r, rf, w') ->
  exists id, beside (vault_dir cfg) id w w'
    /\ forall e, r = Err e -> fs w !! vault_path (vault_dir cfg) id = None ->
         let p := vault_path (vault_dir cfg) id in
         fs w' !! p = None
         \/ (exists e' f, e = CFailed (WLeftOver e' f p))
         \/ (e = CFailed (WProbes p id) /\ exists lbl pw its, holds_import p lbl pw its w').
Proof.
  intros Hdry Hinv Hwf Hq Hf E. pose proof (run_with_cases args o cfg sdir w Hdry Hinv (oq_extract _ _ Hq)) as Hc.
  rewrite E in Hc. destruct Hc as [(e & -> & _ & K)|(file & x & w1 & w2 & w3 & Ex & K & Ew)].
  { exists []. split; [by intros id' _|]. intros e' [= <-] Habs. left. by rewrite K. }
  pose proof (make_job_wf _ _ _ _ _ _ _ _ file Hwf Ex) as Hj. set (j := make_job args cfg file x) in *.
  exists (j_id j). split.
  - pose proof (write_and_finish_beside (vault_dir cfg) o j w3 Hj (oq_daemon _ _ Hq) (oq_password _ _ Hq) Hf) as B.
    rewrite Ew in B. intros id' Hne. by rewrite <- K, <- (B id' Hne).
  - intros e -> Habs. cbv zeta. change (vault_path (vault_dir cfg) (j_id j)) with (j_path j).
    apply (write_and_finish_err (vault_dir cfg)) in Ew as [Hn|[Hl|[-> [pw Hh]]]];
      [auto|auto|eauto 8|done|apply Hq|done|done|apply Hq|].
    change (j_path j) with (vault_path (vault_dir cfg) (j_id j)). by rewrite K.
Qed.

(** A dry run writes no vault, no alias and no file: with no report asked
    for, and an extractor that does not write either, the disk after it is the
    disk before it; so is an inventory's. *)
Theorem dry_run_writes_nothing args o cfg sdir w :
  a_dry_run args = true \/ a_inventory args = true -> a_report args = None ->
  (forall s c w, fs (extract o s c w).2 = fs w) ->
  fs (run_with args o cfg sdir w).2 = fs w.
Proof.
  intros Hd Hr Hx. unfold run_with. pose proof (locate_fs (a_from args) sdir w) as F1.
  destruct (locate (a_from args) sdir w) as [[file|e] w1]; cbn [snd] in *; [|done].
  destruct (a_inventory args); [done|]. destruct Hd as [Hdry|]; [|done]. rewrite Hdry.
  pose proof (Hx (a_from args) (sf_container file) w1) as F2.
  destruct (extract o _ _ w1) as [[x|e] w2]; cbn [snd] in *; [|congruence].
  destruct (stat _ w2) as [st w3] eqn:Es. apply stat_touches in Es as [_ F3]. rewrite andb_false_r.
  assert (forall rf w, write_report o args rf w = w) as Hwr by (intros; unfold write_report; by rewrite Hr).
  unfold finish_import, publish. cbn [j_args make_job]. rewrite Hdry.
  destruct (negb _); cbn [snd negb]; [rewrite Hwr; congruence|]. rewrite andb_false_r. cbn [snd]. rewrite Hwr. congruence.
Qed.

(** A failed import can take away a collection it did not write. If a vault
    appears at the destination while the password is being typed, after the
    check that found the name free, creating the collection is refused and the
    error path then unlinks the path: the other vault's file is gone. *)
Theorem failed_import_removes_other_vault (Hcalm : Calm HE) o j d w pw w1 data m t :
  a_report (j_args j) = None -> j_path j = vault_path d (j_id j) ->
  new_password o w = (Ok pw, w1) -> fs w1 !! j_path j = Some (NFile data m t) -> data <> [] ->
  let '(r, _, w') := write_and_finish o j w in
  is_ok r = false /\ fs w' !! j_path j = None.
Proof.
  intros Hr Hp Hpw Hfile Hd. unfold write_and_finish. rewrite Hpw. unfold write_collection.
  destruct (create (j_path j) _ _ _ w1) as [rc w2] eqn:Ec. rewrite Hp in Ec, Hfile.
  apply (create_refuses _ _ _ _ _ _ data m t) in Ec as [Hrc Hkeep]; [|done|done].
  destruct rc as [v|e]; [done|]. unfold give_up_write, write_report, unlink_partial. rewrite Hr.
  unfold remove_file. rewrite syscall_calm, Hp. unfold vault_path. rewrite Hkeep. cbn. split; [done|]. apply lookup_delete_eq.
Qed.

(** Every report of a run adds up, whichever way the run ended: the tally it
    states is the tally of the items it lists, so it is a report its own
    reader accepts; the tally before the probes is that of the items as
    extracted, and the probes drop none of them. *)
Theorem import_reports_add_up args o cfg sdir w r f w' : run_with args o cfg sdir w = (r, Some f, w') ->
  exists file x, let its := ir_items (build_report (a_from args) (default (xt_container x) (a_collection args)) file x) in
    rp_tally f = recomputed_tally (rp_items f)
    /\ tally_before_probe f = recomputed_tally its /\ its = xt_refusals x ++ map im_report (xt_items x)
    /\ length (rp_items f) = length its /\ tally_seen (rp_tally f) = length its.
Proof.
  intros (file & x & dst & [Ht Hb Hl _ _] & _)%run_with_sound. exists file, x. cbn [j_report make_job] in *. cbv zeta.
  split_and!; try done; [|by rewrite Ht, recomputed_tally_seen].
  apply build_report_items.
Qed.

End props.

(** ** From a wallet's walk to its count *)

(** The hashed names of an entry. *)
Definition hashed (p : str * str) : Md5Hash * Md5Hash := name_pair p.1 p.2.

Lemma is_refused_filter (x : Extraction) :
  List.filter is_refused (map im_report (xt_items (extracted_kwallet [] [] x))) = []
  /\ List.filter is_refused (xt_refusals (extracted_kwallet [] [] x)) = xt_refusals (extracted_kwallet [] [] x).
Proof.
  cbn [extracted_kwallet xt_items xt_refusals]. split.
  - induction (ex_items x) as [|i l IH]; [done|]. cbn. exact IH.
  - induction (ex_refused x) as [|i l IH]; [done|]. cbn. by f_equal.
Qed.

(** What the command accounts for is what the walk did. *)
Lemma kwallet_accounted source lbl file wallet notes x :
  let e := extracted_kwallet wallet notes x in
  let rep := build_report source lbl file e in
  map si_provenance (map im_item (xt_items e)) ++ accounted_provenances rep (xt_skipped e)
  = map si_provenance (ex_items x) ++ map rf_provenance (ex_refused x) ++ map sk_provenance (ex_skipped x)
  /\ (tally_seen (tally rep) + length (xt_skipped e))%nat = extraction_seen x.
Proof.
  intros e rep. destruct (build_report_ok source lbl file e) as [Ht _]. fold rep in Ht.
  destruct (is_refused_filter x) as [F1 F2].
  assert (ir_items rep = xt_refusals e ++ map im_report (xt_items e)) as Hi by apply build_report_items. split.
  - unfold accounted_provenances. rewrite Hi, List.filter_app.
    change (xt_items e) with (xt_items (extracted_kwallet [] [] x)).
    change (xt_refusals e) with (xt_refusals (extracted_kwallet [] [] x)). rewrite F1, F2, app_nil_r.
    unfold e. cbn [extracted_kwallet xt_items xt_refusals xt_skipped]. by rewrite !map_map, ?app_assoc.
  - rewrite Ht, recomputed_tally_seen, Hi, length_app. unfold e. cbn [extracted_kwallet xt_items xt_refusals xt_skipped].
    rewrite !length_map. unfold extraction_seen. lia.
Qed.

(** The independent count of a KWallet import means what it says. The number
    the command walked is the number of distinct entries the wallet's listings
    named, and, provided MD5 keeps the names and the index apart, the count
    passes exactly when every one of them is an entry of the file's own index:
    an entry the listings missed is reported as unlisted, an entry the file
    does not hold fails the run. *)
Theorem kwallet_count_exact (P : Prims) (J : JsonText) (r : WalletReader) wallet sc ex inv file args cfg notes dst :
  walk r wallet sc = Ok ex -> inventory file = IWallet inv -> sf_header_item_count file = Some (entry_count inv) ->
  NoDup (index_pairs inv) ->
  let c := v_count (offline (make_job args cfg file (extracted_kwallet wallet notes ex)) dst) in
  exists fs pairs, folder_list r = Ok fs /\ NoDup pairs
    /\ (forall f e, (f, e) ∈ pairs <-> answers r (asked 0 fs) f e)
    /\ walked c = length pairs
    /\ (NoDup (map hashed pairs) -> Z.of_nat (walked c) + Z.of_nat (unlisted c) <= u64_max ->
        count_passed c = true <-> forall f e, (f, e) ∈ pairs -> contains_entry inv (hashed (f, e)).1 (hashed (f, e)).2 = true).
Proof.
  intros Hw Hinv Hh Hnd c. apply walk_inv in Hw as (fs & l & o & Hfs & [_ _ Hnp Ha _ Hn _] & Hacc & _ & Ei & Er & Es).
  exists fs, (pairs_of (listings l)). set (pairs := pairs_of (listings l)) in *.
  destruct (kwallet_accounted (a_from args) (default wallet (a_collection args)) file wallet notes ex) as [Hprov Hseen].
  rewrite Ei, Er, Es in Hprov. fold (accounted o) in Hprov.
  assert (walked c = length pairs) as Hwalk.
  { subst c. cbn [offline verify_import v_count walked j_report j_extracted make_job]. cbn [xt_container extracted_kwallet].
    rewrite Hseen. unfold extraction_seen. rewrite Ei, Er, Es. apply Permutation_length in Hacc.
    unfold accounted in Hacc. rewrite !length_app, !length_map in Hacc. lia. }
  split_and!; try done. intros Hmd Hmax.
  destruct (Permutation_map_inv _ _ Hacc) as (ps & Eacc & Hperm).
  assert (map provenance_pair (accounted o) = map Some (map hashed ps)) as Hpp by (by rewrite Eacc, !map_map).
  rewrite <- Hprov in Hpp. eapply count_check_reconciles in Hpp; [|by rewrite <- Hperm|exact Hnd|].
  - assert (c = {| cc_header := Some (entry_count inv); walked := length (map hashed ps);
                   unlisted := length (unlisted_wallet_entries inv (map im_item (xt_items (extracted_kwallet wallet notes ex)))
                      (accounted_provenances (build_report (a_from args) (default wallet (a_collection args)) file
                          (extracted_kwallet wallet notes ex)) (xt_skipped (extracted_kwallet wallet notes ex)))
                      (unresolved_sidecar_rows ex)) |}) as ->.
    { rewrite length_map, <- (Permutation_length Hperm), <- Hwalk. subst c.
      unfold offline, verify_import, unlisted_entries. cbn [j_file make_job v_count walked]. by rewrite Hh, Hinv. }
    rewrite Hpp. split.
    + intros Hc f e Hin. apply Hc. apply list_elem_of_In, in_map_iff. exists (f, e). split; [by destruct (hashed (f, e))|].
      apply list_elem_of_In. by rewrite <- Hperm.
    + intros Hc fh eh Hin. apply list_elem_of_In, in_map_iff in Hin as ([f e] & Ehe & Hin). apply list_elem_of_In in Hin.
      rewrite <- Hperm in Hin. apply Hc in Hin. by rewrite Ehe in Hin.
  - rewrite length_map, <- (Permutation_length Hperm), <- Hwalk. revert Hmax. subst c.
    unfold offline, verify_import, unlisted_entries. cbn [j_file make_job v_count walked unlisted]. by rewrite Hinv.
Qed.

(** ** The probes of a faithful copy *)

Lemma first_slash a b x y : 47 ∉ a -> 47 ∉ b -> a ++ 47 :: x = b ++ 47 :: y -> a = b.
Proof.
  revert b. induction a as [|c a IH]; intros [|c' b] Ha Hb; cbn; try done.
  - intros [= <- _]. set_solver.
  - intros [= -> _]. set_solver.
  - intros [= <- E]. f_equal. apply (IH b); set_solver.
Qed.

(** The prefix of a collection's items is no other collection's. *)
Lemma probe_prefix_item id c i : is_segment id = true -> is_segment c = true ->
  (if strip_prefix (probe_prefix id) (target_path (TItem c i)) then true else false) = bool_decide (c = id).
Proof.
  intros Hid Hc. unfold probe_prefix. cbn [target_path].
  destruct (strip_prefix _ _) as [s|] eqn:E; symmetry.
  - apply bool_decide_eq_true. apply strip_prefix_Some in E. rewrite <- !app_assoc in E. apply app_inv_head in E.
    by apply first_slash in E; [..|apply segment_no_slash|apply segment_no_slash].
  - apply bool_decide_eq_false. intros ->.
    assert (strip_prefix ((COLLECTIONS_PREFIX ++ id) ++ [47]) (COLLECTIONS_PREFIX ++ id ++ [47] ++ i) = Some i) as Hs;
      [|congruence].
    apply strip_prefix_Some. by rewrite <- !app_assoc.
Qed.

(** A daemon that answers from its own items: every path is an item of some
    collection, and those of this one are the items that match. *)
Definition answers_for (o : Outside) (id : str) (l : list Item) : Prop :=
  forall q w, exists u k hits, (search_items o q w).1 = Ok (u, k)
    /\ u ++ k = map (fun h => target_path (TItem h.1 h.2)) hits
    /\ Forall (fun h : str * str => is_segment h.1 = true) hits
    /\ map snd (List.filter (fun h => bool_decide (h.1 = id)) hits) ≡ₚ map i_id (List.filter (item_matches q) l).

Lemma found_here (id : str) (hits : list (str * str)) : is_segment id = true ->
  Forall (fun h : str * str => is_segment h.1 = true) hits ->
  count_if (fun p => if strip_prefix (probe_prefix id) p then true else false)
           (map (fun h => target_path (TItem h.1 h.2)) hits)
  = length (List.filter (fun h => bool_decide (h.1 = id)) hits).
Proof.
  intros Hid Hh. rewrite count_if_map. unfold count_if. f_equal. apply filter_ext_elem. intros h Hin.
  rewrite Forall_forall in Hh. apply probe_prefix_item; [done|by apply Hh].
Qed.

Lemma probe_each_passes o id its l : is_segment id = true -> Forall2 imported (map import_item its) l ->
  answers_for o id l -> forall plan w,
  (forall q, q ∈ plan -> pq_expected q = count_if (fun i => has_all (pq_attributes q) (si_attributes i)) its) ->
  Forall (fun r => probe_passed r = true) (probe_each o (probe_prefix id) plan w).1.
Proof.
  intros Hid Hn Ho. induction plan as [|q plan IH]; intros w Hq; [constructor|]. cbn [probe_each].
  destruct (Ho (pq_attributes q) w) as (u & k & hits & Er & Epaths & Hseg & Hhits).
  destruct (search_items o (pq_attributes q) w) as [r w1]. cbn [fst] in Er. subst r.
  specialize (IH w1 (fun q' Hin => Hq q' (list_elem_of_further _ _ _ Hin))).
  destruct (probe_each o _ plan w1) as [out w2]. cbn [fst] in *. constructor; [|exact IH].
  apply bool_decide_eq_true. cbn [probe_result found expected]. f_equal. rewrite Epaths, found_here by done.
  apply Permutation_length in Hhits. rewrite !length_map in Hhits. rewrite Hhits, (Hq q) by (by left).
  rewrite <- (count_if_map si_attributes (has_all (pq_attributes q))).
  assert (map si_attributes its = map attributes l) as ->.
  { apply map_Forall2. revert Hn. apply imported_fields. done. }
  by rewrite count_if_map.
Qed.

(** The lookup probe does not fail a faithful import. Whatever other
    collections the daemon holds, and whatever their ids, if its answers for
    the new collection are the items that match, every probe of the plan
    comes back with the expected count. *)
Theorem import_probes_pass o id its l w : is_segment id = true -> Forall2 imported (map import_item its) l ->
  answers_for o id l -> (forall w, is_ok (probe_target o w).1 = true) ->
  let results := (run_probes o (probe_plan its) id true w).1 in
  Forall (fun r => probe_passed r = true) results /\ ps_failed (probe_summary results) = 0%nat
  /\ ps_not_issued (probe_summary results) = 0%nat /\ length results = length (distinct_attributes its).
Proof.
  intros Hid Hn Ho Ht results.
  assert (Hexp : forall q, q ∈ probe_plan its -> pq_expected q = count_if (fun i => has_all (pq_attributes q) (si_attributes i)) its).
  { intros q Hq. apply list_elem_of_In, in_map_iff in Hq as (a & <- & _). done. }
  assert (forall plan w, length (probe_each o (probe_prefix id) plan w).1 = length plan) as Hlen.
  { clear. induction plan as [|q plan IH]; intros w; [done|]. cbn [probe_each].
    destruct (search_items o (pq_attributes q) w) as [r w1]. specialize (IH w1).
    destruct (probe_each o _ plan w1) as [out w2]. cbn in *. by rewrite IH. }
  assert (Forall (fun r => probe_passed r = true) results /\ length results = length (probe_plan its)) as [Hp Hl].
  { subst results. unfold run_probes. destruct (probe_plan its) as [|q plan] eqn:Ep; [by split|]. cbn [negb].
    pose proof (Ht w) as Ht1. destruct (probe_target o w) as [[u|e] w1]; [|done]. split; [|apply Hlen].
    by eapply probe_each_passes. }
  split; [done|]. unfold probe_summary. rewrite probe_summary_counts. cbn [ps_failed ps_not_issued].
  assert (forall p : ProbeResult -> bool, (forall r, probe_passed r = true -> p r = false) -> count_if p results = 0%nat) as Hz.
  { intros p Hpf. unfold count_if. apply length_zero_iff_nil. clear Hl. induction Hp as [|r l' Hr _ IH]; [done|].
    cbn. by rewrite Hpf. }
  rewrite !Hz; [by rewrite Hl; unfold probe_plan; rewrite length_map| |].
  - intros r Hr. apply bool_decide_eq_true in Hr. by rewrite Hr.
  - intros r Hr. unfold probe_failed. rewrite Hr. by destruct (found r).
Qed.

(** ** A concrete run *)

Definition sample_id0 : str := collection_id_from_label (lit "Login").

Definition sample_source : SourceItem := {|
  si_label := lit "mail"; si_attributes := {[lit "app" := lit "x"]}; si_secret := [x01; x02];
  si_content_type := lit "text/plain"; si_created := 3; si_modified := 4;
  si_provenance := provenance_gnome (lit "Login") 7; inserted_keys := ∅ |}.

(** As many items as the sample keyring's header declares. *)
Definition sample_extracted : Extracted := {|
  xt_container := lit "Login";
  xt_items := repeat {| im_item := sample_source; im_report := report_imported sample_source |}
                     (length (rk_items sample_keyring));
  xt_refusals := []; xt_skipped := []; xt_empty_folders := 0; xt_unresolved_sidecar_rows := []; xt_notes := []
|}.

(** [seen_by_user] is what the disk holds once the password has been typed. *)
Definition sample_outside (x : Extracted) (seen_by_user : world -> world) : Outside := {|
  extract _ _ w := (Ok x, w);
  new_password w := (Ok (lit "pw"), seen_by_user w);
  reload w := (None, w);
  probe_target w := (Ok tt, w);
  search_items _ w := (Ok ([], map (fun i => target_path (TItem sample_id0 i))
                                   (repeat (lit "i") (length (rk_items sample_keyring)))), w);
  to_string_pretty _ := Ok []
|}.

Definition sample_out : Outside := sample_outside sample_extracted (fun w => w).

Definition sample_args : ImportArgs := {|
  a_from := GnomeKeyring; a_inventory := false; a_dry_run := false; a_collection := None; a_set_default := true;
  a_report := None |}.

Definition sample_config : Config := {| vault_dir := [lit "v"]; cfg_kdf := sample_kdf |}.

Definition sample_disk : world :=
  World (<[[lit "k"] := NDir 448]> (<[[lit "k"; lit "login.keyring"] := NFile (enc_keyring sample_keyring ++ [x01; x02]) 384 None]>
         {[ [lit "v"] := NDir 448 ]})) 0 [].

Definition sample_run (args : ImportArgs) (o : Outside) : result unit CliError * option ReportFile * world :=
  @run_with sample_env sample_prims sample_codec sample_text args o sample_config [lit "k"] sample_disk.

Lemma sample_outside_quiet x : outside_quiet [lit "v"] (sample_outside x (fun w => w)).
Proof. split; [split|..]; done. Qed.

Lemma sample_inputs_wf : inputs_wf sample_args sample_out sample_config.
Proof.
  split; [unfold kdf_wf, u32, u32_max; simpl; lia|]. split; [done|]. intros s c w x w' [= <- _].
  split; [apply (bool_decide_unpack _); vm_compute; exact I|].
  assert (source_wf sample_source) as Hs
    by (unfold source_wf, import_wf, attrs_wf, u64; apply (bool_decide_unpack _); vm_compute; exact I).
  change (Forall source_wf [sample_source; sample_source]).
  apply Forall_cons_2; [exact Hs|]. apply Forall_cons_2; [exact Hs|apply Forall_nil_2].
Qed.

(** Its run succeeds and its report earns the advice. *)
Definition sample_facts (out : result unit CliError * option ReportFile * world) : bool :=
  match out with
  | (Ok _, Some f, w) => may_suggest_decommission (verification f) && default_alias_moved f
  | _ => false
  end.

Lemma sample_run_ok : exists f w, sample_run sample_args sample_out = (Ok tt, Some f, w)
  /\ may_suggest_decommission (verification f) = true.
Proof.
  assert (sample_facts (sample_run sample_args sample_out) = true) as H by (vm_compute; reflexivity).
  destruct (sample_run _ _) as [[[[]|e] [f|]] w]; try discriminate H. exists f, w. split; [reflexivity|].
  cbn in H. by apply andb_true_iff in H as [H _].
Qed.

Lemma import_ok_faithful_witness : exists w' pw its,
  @holds_import sample_prims sample_codec (vault_path [lit "v"] sample_id0) (lit "Login") (utf8 pw) its w'
  /\ its <> [].
Proof.
  destruct sample_run_ok as (f & w' & E & _).
  destruct (import_ok_faithful sample_env sample_prims sample_codec sample_text sample_env_ok sample_prims_ok sample_codec_ok
    sample_args sample_out sample_config [lit "k"] sample_disk (Some f) w' eq_refl eq_refl
    sample_inputs_wf (sample_outside_quiet _) E) as (file & x & pw & w1 & w2 & w3 & w4 & f' & Ex & Epw & Hh & _).
  injection Ex as <- _. exists w', pw, (map im_item (xt_items sample_extracted)).
  split; [exact Hh|vm_compute; discriminate].
Defined.

Lemma import_reports_add_up_witness : exists f w, 
  sample_run sample_args sample_out = (Ok tt, Some f, w)
  /\ rp_tally f = recomputed_tally (rp_items f).
Proof.
  destruct sample_run_ok as (f & w' & E & _). exists f, w'. split; [exact E|].
  destruct (import_reports_add_up sample_env sample_prims sample_codec sample_text _ _ _ _ _ _ _ _ E) as (file & x & H & _).
  exact H.
Defined.


Definition sample_dry : ImportArgs := {|
  a_from := GnomeKeyring; a_inventory := false; a_dry_run := true; a_collection := None; a_set_default := false;
  a_report := None |}.

Lemma dry_run_writes_nothing_witness : exists f,
  (sample_run sample_dry sample_out).1 = (Ok tt, Some f)
  /\ fs (sample_run sample_dry sample_out).2 = fs sample_disk.
Proof.
  assert (match (sample_run sample_dry sample_out).1 with (Ok _, Some _) => true | _ => false end = true) as H
    by (vm_compute; reflexivity).
  destruct (sample_run sample_dry sample_out).1 as [[[]|] [f|]]; try discriminate H.
  exists f. split; [reflexivity|].
  apply (dry_run_writes_nothing sample_env sample_prims sample_codec sample_text sample_dry
    sample_out sample_config [lit "k"] sample_disk (or_introl eq_refl) eq_refl). reflexivity.
Defined.

(** Another vault appears while the password is typed. *)
Definition another_vault (w : world) : world :=
  World (<[vault_path [lit "v"] sample_id0 := NFile [x2a] 384 None]> (fs w)) (tick w) (Env.seen w).

Definition sample_file : SourceFile :=
  {| sf_path := [lit "k"; lit "login.keyring"];
     inventory := IWallet {| wi_cipher := 0; wi_hash := 0; folders := []; wi_ciphertext_offset := 0 |};
     sf_header_item_count := None |}.

Lemma failed_import_removes_other_vault_witness :
  let j := make_job sample_args sample_config sample_file sample_extracted in
  let '(r, _, w') := @write_and_finish sample_env sample_prims sample_codec sample_text (sample_outside sample_extracted another_vault) j sample_disk in
  is_ok r = false /\ fs w' !! vault_path [lit "v"] sample_id0 = None.
Proof.
  intros j.
  apply (failed_import_removes_other_vault sample_env sample_prims sample_codec sample_text sample_env_calm
    (sample_outside sample_extracted another_vault) j [lit "v"] sample_disk (lit "pw") (another_vault sample_disk) [x2a] 384 None);
    [reflexivity|reflexivity|reflexivity| |discriminate].
  vm_compute. reflexivity.
Defined.

(** An extraction that lost every item: the header's count is not met. *)
Definition sample_lost : Extracted := {|
  xt_container := lit "Login"; xt_items := []; xt_refusals := []; xt_skipped := []; xt_empty_folders := 0;
  xt_unresolved_sidecar_rows := []; xt_notes := [] |}.

Definition sample_lost_run : result unit CliError * option ReportFile * world :=
  sample_run sample_args (sample_outside sample_lost (fun w => w)).

Lemma failed_import_leaves_nothing_witness :
  sample_lost_run.1.1 = Err (CFailed (WVerification false))
  /\ exists id, beside [lit "v"] id sample_disk sample_lost_run.2.
Proof.
  split; [vm_compute; reflexivity|]. destruct sample_lost_run as [[r rf] w'] eqn:E. cbn [snd].
  destruct (failed_import_leaves_nothing sample_env sample_prims sample_codec sample_text sample_env_ok sample_prims_ok
    sample_codec_ok sample_args (sample_outside sample_lost (fun w => w)) sample_config [lit "k"] sample_disk r rf w'
    eq_refl eq_refl) as (id & Hb & _).
  - split; [unfold kdf_wf, u32, u32_max; simpl; lia|]. split; [done|]. intros s c w x w'' [= <- _].
    split; [apply (bool_decide_unpack _); vm_compute; exact I|apply Forall_nil_2].
  - apply sample_outside_quiet.
  - intros n f Hf. by rewrite (@calm_fault _ sample_env_calm) in Hf.
  - exact E.
  - exists id. exact Hb.
Defined.

(** The sample wallet's index, with one entry its listings do not name. *)
Definition sample_index : WalletInventory := {|
  wi_cipher := 0; wi_hash := 0;
  folders := [{| folder_hash := md5 (utf8 (lit "a")); entry_hashes := [md5 (utf8 (lit "b/c")); md5 (utf8 (lit "d")); md5 (utf8 (lit "lost"))] |};
              {| folder_hash := md5 (utf8 (lit "a/b")); entry_hashes := [md5 (utf8 (lit "c"))] |}];
  wi_ciphertext_offset := 0 |}.

Definition sample_wallet_file : SourceFile :=
  {| sf_path := [lit "w.kwl"]; inventory := IWallet sample_index; sf_header_item_count := Some 4%nat |}.

Lemma kwallet_count_exact_witness : exists ex pairs, sample_walk = Ok ex /\ length pairs = 3%nat
  /\ walked (v_count (@offline sample_prims (make_job sample_args sample_config sample_wallet_file
                        (extracted_kwallet (lit "w") [] ex)) None)) = length (pairs : list (str * str)).
Proof.
  destruct sample_walk_ok as (ex & E & _ & _ & _ & _ & Hseen).
  destruct (kwallet_count_exact sample_prims sample_json sample_reader (lit "w") sample_sidecar ex sample_index
    sample_wallet_file sample_args sample_config [] None E eq_refl) as (fs & pairs & _ & _ & _ & Hw & _).
  - vm_compute. reflexivity.
  - apply (bool_decide_unpack _). vm_compute. exact I.
  - exists ex, pairs. split; [exact E|]. split; [|exact Hw]. rewrite <- Hw.
    destruct (kwallet_accounted GnomeKeyring (lit "w") sample_wallet_file (lit "w") [] ex) as [_ H].
    rewrite Hseen in H. exact H.
Defined.

(** The imported items, and a daemon that holds them beside another collection
    whose id begins with this one's. *)
Definition sample_items : list Item :=
  [{| i_id := lit "i"; i_label := si_label sample_source; attributes := si_attributes sample_source;
      secret := si_secret sample_source; content_type := si_content_type sample_source; i_created := 3; i_modified := 4 |}].

Definition sample_hits (q : gmap str str) : list (str * str) :=
  map (fun i => (sample_id0, i_id i)) (List.filter (item_matches q) sample_items) ++ [(sample_id0 ++ lit "2", lit "z")].

Definition sample_prober : Outside := {|
  extract := extract sample_out; new_password := new_password sample_out; reload := reload sample_out;
  probe_target := probe_target sample_out;
  search_items q w := (Ok (map (fun h => target_path (TItem h.1 h.2)) (sample_hits q), []), w);
  to_string_pretty := to_string_pretty sample_out |}.

Lemma sample_daemon_answers : answers_for sample_prober sample_id0 sample_items.
Proof.
  intros q w. eexists _, [], (sample_hits q). split; [reflexivity|]. split; [by rewrite app_nil_r|].
  unfold sample_hits, sample_items. cbn [List.filter].
  destruct (item_matches q _); (split; [repeat constructor; vm_compute; reflexivity|]); vm_compute; reflexivity.
Qed.

Lemma import_probes_pass_witness :
  ps_failed (probe_summary (run_probes sample_prober (probe_plan [sample_source]) sample_id0 true sample_disk).1) = 0%nat
  /\ length (run_probes sample_prober (probe_plan [sample_source]) sample_id0 true sample_disk).1 = 1%nat.
Proof.
  destruct (import_probes_pass sample_prober sample_id0 [sample_source] sample_items sample_disk) as (_ & Hf & _ & Hl).
  - vm_compute. reflexivity.
  - apply Forall2_cons_2; [reflexivity|apply Forall2_nil_2].
  - exact sample_daemon_answers.
  - intros w. reflexivity.
  - split; [exact Hf|]. rewrite Hl. vm_compute. reflexivity.
Defined.
