(* ===== verification/ImportGnome.v ===== *)
(** * From a walk over a gnome-keyring to an import ([extract_gnome] of [src/cli/import.rs])

    What the command makes of a walk, and what its count then means. *)
From S2P Require Import Prelude Text Sanitize Env Files Crypto Codec Format Names Import Formats Verify VerifyProps KWallet Walk Store Aliases Protocol ImportRun ImportRunProps Session Gnome GnomeProps.

(** [gnome_options] and [gnome_error]. *)
Definition gnome_options (c : str) : ExtractOptions :=
  {| prompt_timeout := PROMPT_TIMEOUT; prefer_dh := true; only_container := Some c |}.

Definition gnome_error (e : GnomeError) : CliError :=
  let text := escape_control (gnome_error_text e) in
  match e with
  | BusNeverReady _ | KeyringNeverReady _ _ => CUnreachable (WText text)
  | _ => CFailed (WText text)
  end.

(** The notes of the extraction: the owner's warning, then what the walk says. *)
Definition gnome_notes (warning : option str) (x : GnomeExtraction) : list str :=
  match warning with Some w => [w] | None => [] end
  ++ match plain_fallback_reason x with
     | Some reason => [lit "the session with the source daemon was plaintext, not DH-encrypted: " ++ reason]
     | None => []
     end
  ++ (if item_type_unavailable x
      then [lit "no item exposed Item.Type, so the chained-keyring refusal could not be evaluated on this source: check by hand that no imported item is an unlock credential for another keyring"]
      else [])
  ++ map (fun s => lit "the collection '" ++ escape_control (cs_label s) ++ lit "' holds "
                   ++ match cs_item_count s with
                      | Some n => dec (Z.of_nat n) ++ lit " items"
                      | None => lit "an unknown number of items"
                      end ++ lit " and its unlock prompt could not be answered, so none of them were read")
         (unanswerable_collections x).

(** The end of [extract_gnome]. *)
Definition extracted_gnome (c : str) (warning : option str) (x : GnomeExtraction) : Extracted := {|
  xt_container := c;
  xt_items := map (fun e => {| im_item := xi_item e; im_report := gnome_report e |}) (gx_items x);
  xt_refusals := gx_refused x;
  xt_skipped := map (fun s => {| nm_label := gs_label s; nm_reason := gs_reason s;
                                 nm_provenance := {| pv_source := GnomeKeyring; container := c; folder := None;
                                                     entry := None; pv_item_id := None |} |}) (gx_skipped x);
  xt_empty_folders := 0;
  xt_unresolved_sidecar_rows := [];
  xt_notes := gnome_notes warning x
|}.

(** The independent count of a gnome-keyring import means what it says. The
    number the command walked is the number of items the one collection of
    that name listed, and the count passes exactly when the file's own header
    declares as many: an item the provider lost fails the run, and so does a
    keyring that could not be unlocked, unless it is empty. *)
Theorem gnome_count_exact (SP : SessionPrims) (HP : Prims) (P : Provider) c pair lg x lg' inv file args cfg warning dst :
  extract P (gnome_options c) pair lg = (Ok x, lg') ->
  inventory file = IKeyring inv -> sf_header_item_count file = Some (item_count inv) ->
  let cc := v_count (offline (make_job args cfg file (extracted_gnome c warning x)) dst) in
  exists s, gx_collections x = [s] /\ walked cc = default 0%nat (cs_item_count s) /\ unlisted cc = 0%nat
    /\ (count_passed cc = true <-> item_count inv = default 0%nat (cs_item_count s)).
Proof.
  intros (Ha & _ & Hn & H1)%extract_inv Hinv Hh cc. specialize (H1 c eq_refl).
  destruct (gx_collections x) as [|s [|]]; [done| |done]. exists s. apply Forall_cons in Hn as [Hn _].
  assert (walked cc = default 0%nat (cs_item_count s)) as Hw.
  { transitivity (listed_items [s]); [|unfold listed_items; cbn; lia]. rewrite <- Ha. subst cc.
    set (e := extracted_gnome c warning x). set (rep := build_report (a_from args) (default c (a_collection args)) file e).
    destruct (build_report_ok (a_from args) (default c (a_collection args)) file e) as [Ht _]. fold rep in Ht.
    assert (ir_items rep = xt_refusals e ++ map im_report (xt_items e)) as Hi by apply build_report_items.
    change ((tally_seen (tally rep) + length (xt_skipped e))%nat
            = (length (gx_items x) + length (gx_refused x) + length (gx_skipped x))%nat).
    rewrite Ht, recomputed_tally_seen, Hi, length_app. unfold e. cbn [extracted_gnome xt_items xt_refusals xt_skipped].
    rewrite !length_map. lia. }
  assert (unlisted cc = 0%nat) as Hu.
  { subst cc. unfold offline, verify_import, unlisted_entries. cbn [j_file make_job v_count unlisted]. by rewrite Hinv. }
  split; [done|]. split; [done|]. split; [done|]. unfold count_passed. rewrite Hw, Hu.
  assert (cc_header cc = Some (item_count inv)) as -> by (subst cc; exact Hh).
  destruct (_ <=? _) eqn:E; [rewrite Nat.eqb_eq, Nat.add_0_r; split; congruence|]. apply Z.leb_gt in E.
  unfold MAX_ITEMS_PER_COLLECTION in Hn. unfold u64_max in E. lia.
Qed.

Definition sample_keyring_header : KeyringInventory := {|
  display_name := lit "Login"; ki_created := 0; ki_modified := 0; ki_flags := 0; lock_timeout := 0;
  hash_iterations := 0; ki_salt := []; ki_items := [{| ki_id := 1; ki_type := 0; ki_keys := ∅ |};
                                                    {| ki_id := 2; ki_type := 3; ki_keys := ∅ |}];
  ciphertext_offset := 0; ciphertext_len := 0 |}.

Definition sample_keyring_file : SourceFile :=
  {| sf_path := [lit "login.keyring"]; inventory := IKeyring sample_keyring_header; sf_header_item_count := Some 2%nat |}.

Lemma gnome_count_exact_witness :
  count_passed (v_count (@offline sample_prims (make_job sample_args sample_config sample_keyring_file
                   (extracted_gnome (lit "Login") None sample_gnome_out)) None)) = true.
Proof.
  destruct (gnome_count_exact sample_session sample_prims sample_gnome (lit "Login") {| private := 1; public := [] |} []
              sample_gnome_out sample_gnome_run.2 sample_keyring_header sample_keyring_file sample_args sample_config None None
              sample_gnome_ok eq_refl eq_refl) as (s & Hs & _ & _ & Hc).
  apply Hc. assert (gx_collections sample_gnome_out = [s]) as E by exact Hs.
  assert (cs_item_count <$> gx_collections sample_gnome_out = [Some 2%nat]) as E2 by (vm_compute; reflexivity).
  rewrite E in E2. injection E2 as ->. reflexivity.
Defined.
