(* ===== verification/Prompt.v ===== *)
(** * One prompt, its task and its clients ([src/dbus/prompt.rs], [src/daemon.rs])

    A prompt is run by a task, dismissed by its owner and reclaimed by the
    watch on the bus, all at once.  Each is cut into the sections between its
    await points; a section that takes the state lock, or one atomic, is one
    step, and runs are interleavings of the steps.  The dialog, the key
    derivation and the collections answer as they like ([choice]).

    Aborting a task stops it where it next suspends.  A lock or a signal may
    suspend it, so it may stop in any phase; the dialog and the derivation
    always do, so an aborted task never gets past them. *)
From S2P Require Import Prelude Text.

Inductive PromptAction : Type :=
| PUnlock (collections : list str)
| PCreate (label : str) (alias : option str)
| PDelete (id : str).

Inductive PromptKind : Type := KUnlock | KCreate | KDelete.

Definition kind (a : PromptAction) : PromptKind :=
  match a with PUnlock _ => KUnlock | PCreate _ _ => KCreate | PDelete _ => KDelete end.

(** ** Where each actor is *)

(** The stages of a creation or a deletion: before the dialog, at it, after
    it, at the gate, past the gate, after the irreversible part. *)
Inductive once : Type := OStart | OAsk | OAnswered | OClaim | OWork | OAfter.

(** The task.  [id] is the collection at hand, [rest] the ones after it,
    [tries] the attempts left, [claimed] whether this collection has the gate. *)
Inductive tphase : Type :=
| TNone
| TTop (rest : list str)
| TCancelCheck (id : str) (rest : list str)
| TOwnerCheck (id : str) (rest : list str)
| TLook (id : str) (rest : list str)
| TSession (id : str) (rest : list str)
| TAsk (id : str) (rest : list str) (claimed : bool) (tries : nat)
| TGate (id : str) (rest : list str) (claimed : bool) (tries : nat)
| TDerive (id : str) (rest : list str) (tries : nat)
| TRecord (id : str) (rest : list str) (tries : nat)
| TOpen (id : str) (rest : list str) (tries : nat)
| TOpened (id : str) (rest : list str)
| TUnrecord (id : str) (rest : list str) (tries : nat) (wrong : bool)
| TEnd
| TGone
| TRelock (todo : list str)
| TReport
| TOnce (a : PromptAction) (stage : once)
| TFinish (dismissed : bool)
| TEmit (dismissed : bool)
| TDone
| TAborted.

(** A call of [Prompt] or [Dismiss]; [mine] when the owner made it. *)
Inductive pcall : Type := PCheck (mine : bool) | PTake | PSpawn (a : PromptAction) | PEnd.
Inductive dcall : Type :=
| DCheck (mine : bool) | DTake | DCancel | DClaim | DAbort (taken : bool) | DFinish | DEmit | DEnd.

(** ** The state *)

(** The four maps of [ServiceState] at this prompt's path. *)
Record registered : Type := { owner : bool; handle : bool; commit_entry : bool; unlocked_rec : list str }.

(** The gate, the dismissal mark, and whether the task was told to stop. *)
Record flags : Type := { gate : bool; cancelled : bool; aborted : bool }.

Record tlocal : Type := { task : tphase; any_unlocked : bool; unlocked_now : list str }.

Record callers : Type := { action : option PromptAction; calls : list pcall; dismissals : list dcall }.

(** What others see: the collections this prompt opened and nobody has locked
    since, those the watch has yet to lock, the signals sent, and the
    irreversible work done. *)
Record effects : Type := {
  opened : gset str; relock : list str; completed : list bool; work : list PromptAction }.

(** History: the owner left before the prompt finished, it did so after the
    task last looked, a dismissal claimed the gate. *)
Record history : Type := { left_bus : bool; late : bool; dismiss_won : bool }.

Record prompt : Type := {
  p_kind : PromptKind; en : registered; fl : flags; tl : tlocal; ca : callers; ef : effects; hi : history }.

Definition set_en (s : prompt) (x : registered) : prompt :=
  {| p_kind := p_kind s; en := x; fl := fl s; tl := tl s; ca := ca s; ef := ef s; hi := hi s |}.
Definition set_fl (s : prompt) (x : flags) : prompt :=
  {| p_kind := p_kind s; en := en s; fl := x; tl := tl s; ca := ca s; ef := ef s; hi := hi s |}.
Definition set_tl (s : prompt) (x : tlocal) : prompt :=
  {| p_kind := p_kind s; en := en s; fl := fl s; tl := x; ca := ca s; ef := ef s; hi := hi s |}.
Definition set_ca (s : prompt) (x : callers) : prompt :=
  {| p_kind := p_kind s; en := en s; fl := fl s; tl := tl s; ca := x; ef := ef s; hi := hi s |}.
Definition set_ef (s : prompt) (x : effects) : prompt :=
  {| p_kind := p_kind s; en := en s; fl := fl s; tl := tl s; ca := ca s; ef := x; hi := hi s |}.
Definition set_hi (s : prompt) (x : history) : prompt :=
  {| p_kind := p_kind s; en := en s; fl := fl s; tl := tl s; ca := ca s; ef := ef s; hi := x |}.

Definition goto (s : prompt) (t : tphase) : prompt :=
  set_tl s {| task := t; any_unlocked := any_unlocked (tl s); unlocked_now := unlocked_now (tl s) |}.
Definition set_gate (s : prompt) (b : bool) : prompt :=
  set_fl s {| gate := b; cancelled := cancelled (fl s); aborted := aborted (fl s) |}.
Definition set_aborted (s : prompt) : prompt :=
  set_fl s {| gate := gate (fl s); cancelled := cancelled (fl s); aborted := true |}.
Definition set_rec (s : prompt) (l : list str) : prompt :=
  set_en s {| owner := owner (en s); handle := handle (en s); commit_entry := commit_entry (en s); unlocked_rec := l |}.
Definition set_opened (s : prompt) (o : gset str) : prompt :=
  set_ef s {| opened := o; relock := relock (ef s); completed := completed (ef s); work := work (ef s) |}.

(** [Prompt::new], its owner recorded. *)
Definition prompt_new (a : PromptAction) : prompt := {|
  p_kind := kind a;
  en := {| owner := true; handle := false; commit_entry := false; unlocked_rec := [] |};
  fl := {| gate := false; cancelled := false; aborted := false |};
  tl := {| task := TNone; any_unlocked := false; unlocked_now := [] |};
  ca := {| action := Some a; calls := []; dismissals := [] |};
  ef := {| opened := ∅; relock := []; completed := []; work := [] |};
  hi := {| left_bus := false; late := false; dismiss_won := false |} |}.

(** ** The task *)

Inductive answer : Type := AnPin | AnCancelled | AnBusy | AnFailed.
Inductive unlock_result : Type := UnlockOk | UnlockWrong | UnlockFailed.

(** What the outside answers in a step: the dialog, whether the collection is
    there (still), whether it is open already, whether the key was derived,
    and what opening it returned. *)
Record choice : Type := {
  ch_answer : answer; ch_loaded : bool; ch_open : bool; ch_derived : bool; ch_unlock : unlock_result }.

(** [claim]: the gate flips once. *)
Definition claim (s : prompt) : bool * prompt := (negb (gate (fl s)), set_gate s true).

(** The locked section of [finish]: whether somebody finished already. *)
Definition finish (s : prompt) : bool * prompt :=
  (negb (owner (en s)),
   set_en s {| owner := false; handle := false; commit_entry := false; unlocked_rec := [] |}).

Definition emit (s : prompt) (dismissed : bool) : prompt :=
  set_ef s {| opened := opened (ef s); relock := relock (ef s); completed := completed (ef s) ++ [dismissed];
              work := work (ef s) |}.

(** [ids.remove(pos)] for the last position of [id], if there is one. *)
Definition remove_last (id : str) (l : list str) : list str :=
  match position (str_eqb id) (rev l) with
  | Some i => rev (vec_remove i (rev l))
  | None => l
  end.

(** The task of an [Unlock], at one phase. *)
Definition unlock_step (c : choice) (s : prompt) : option prompt :=
  match task (tl s) with
  | TTop [] => Some (goto s TEnd)
  | TTop (id :: rest) => Some (goto (set_gate s false) (TCancelCheck id rest))
  | TCancelCheck id rest => Some (goto s (if cancelled (fl s) then TEnd else TOwnerCheck id rest))
  | TOwnerCheck id rest => Some (goto s (if owner (en s) then TLook id rest else TEnd))
  | TLook id rest =>
    if negb (ch_loaded c) then Some (goto s (TTop rest))
    else if ch_open c
    then Some (set_tl s {| task := TTop rest; any_unlocked := true; unlocked_now := unlocked_now (tl s) |})
    else Some (goto s (TSession id rest))
  | TSession id rest =>
    Some (goto s (match ch_answer c with
                  | AnBusy => TEnd
                  | AnFailed => TTop rest
                  | AnPin | AnCancelled => TAsk id rest false 3
                  end))
  | TAsk id rest claimed tries =>
    if aborted (fl s) then None
    else Some (goto s (match ch_answer c with
                       | AnPin => TGate id rest claimed tries
                       | AnCancelled | AnBusy => TEnd
                       | AnFailed => TTop rest
                       end))
  | TGate id rest true tries => Some (goto s (TDerive id rest tries))
  | TGate id rest false tries =>
    let '(won, s) := claim s in
    Some (goto s (if won then TDerive id rest tries else TEnd))
  | TDerive id rest tries =>
    if aborted (fl s) then None
    else Some (goto s (if ch_loaded c && ch_derived c then TRecord id rest tries else TTop rest))
  | TRecord id rest tries => Some (goto (set_rec s (unlocked_rec (en s) ++ [id])) (TOpen id rest tries))
  | TOpen id rest tries =>
    Some (match ch_unlock c with
          | UnlockOk => goto (set_opened s ({[id]} ∪ opened (ef s))) (TOpened id rest)
          | UnlockWrong => goto s (TUnrecord id rest tries true)
          | UnlockFailed => goto s (TUnrecord id rest tries false)
          end)
  | TOpened id rest =>
    Some (set_tl s {| task := TTop rest; any_unlocked := true; unlocked_now := unlocked_now (tl s) ++ [id] |})
  | TUnrecord id rest tries wrong =>
    let s := set_rec s (remove_last id (unlocked_rec (en s))) in
    Some (goto s (match wrong, tries with
                  | true, S (S n) => TAsk id rest true (S n)
                  | _, _ => TTop rest
                  end))
  | TEnd => Some (goto s (if owner (en s) then TReport else TGone))
  | TGone => Some (goto (set_rec s []) (TRelock (unlocked_now (tl s))))
  | TRelock [] => Some (goto s (TFinish true))
  | TRelock (id :: todo) => Some (goto (set_opened s (opened (ef s) ∖ {[id]})) (TRelock todo))
  | TReport => Some (goto s (TFinish (negb (any_unlocked (tl s)))))
  | _ => None
  end.

(** The task of a creation or a deletion: [ch_loaded] is whether the
    collection to delete is there, and whether the work succeeded. *)
Definition once_step (c : choice) (a : PromptAction) (stage : once) (s : prompt) : option prompt :=
  match stage with
  | OStart =>
    let missing := match a with PDelete _ => negb (ch_loaded c) | _ => false end in
    Some (goto s (if missing || cancelled (fl s) then TFinish true else TOnce a OAsk))
  | OAsk =>
    if aborted (fl s) then None
    else Some (goto s (match ch_answer c with AnPin => TOnce a OAnswered | _ => TFinish true end))
  | OAnswered => Some (goto s (if cancelled (fl s) then TFinish true else TOnce a OClaim))
  | OClaim =>
    let '(won, s) := claim s in
    Some (goto s (if won then TOnce a OWork else TFinish true))
  | OWork =>
    if ch_loaded c
    then Some (goto (set_ef s {| opened := opened (ef s); relock := relock (ef s); completed := completed (ef s);
                                 work := work (ef s) ++ [a] |}) (TOnce a OAfter))
    else Some (goto s (TFinish true))
  | OAfter => Some (goto s (TFinish false))
  end.

Definition task_step (c : choice) (s : prompt) : option prompt :=
  match task (tl s) with
  | TOnce a stage => once_step c a stage s
  | TFinish dismissed =>
    let '(already_done, s) := finish s in
    Some (goto s (if already_done then TDone else TEmit dismissed))
  | TEmit dismissed => Some (goto (emit s dismissed) TDone)
  | _ => unlock_step c s
  end.

Definition running (t : tphase) : bool :=
  match t with TNone | TDone | TAborted => false | _ => true end.

(** ** The calls *)

Definition start (a : PromptAction) : tphase :=
  match a with PUnlock collections => TTop collections | a => TOnce a OStart end.

Definition with_action (s : prompt) (a : option PromptAction) : prompt :=
  set_ca s {| action := a; calls := calls (ca s); dismissals := dismissals (ca s) |}.
Definition with_call (s : prompt) (k : nat) (x : pcall) : prompt :=
  set_ca s {| action := action (ca s); calls := <[k := x]> (calls (ca s)); dismissals := dismissals (ca s) |}.
Definition with_dismissal (s : prompt) (k : nat) (x : dcall) : prompt :=
  set_ca s {| action := action (ca s); calls := calls (ca s); dismissals := <[k := x]> (dismissals (ca s)) |}.

(** [Prompt::prompt]: check the owner, take the action, spawn and register. *)
Definition call_step (k : nat) (s : prompt) : option prompt :=
  match calls (ca s) !! k with
  | Some (PCheck mine) => Some (with_call s k (if mine && owner (en s) then PTake else PEnd))
  | Some PTake =>
    Some (match action (ca s) with
          | Some a => with_call (with_action s None) k (PSpawn a)
          | None => with_call s k PEnd
          end)
  | Some (PSpawn a) =>
    let s := set_en s {| owner := owner (en s); handle := true; commit_entry := true;
                         unlocked_rec := unlocked_rec (en s) |} in
    Some (with_call (goto s (start a)) k PEnd)
  | _ => None
  end.

(** [Prompt::dismiss]. *)
Definition dismiss_step (k : nat) (s : prompt) : option prompt :=
  match dismissals (ca s) !! k with
  | Some (DCheck mine) => Some (with_dismissal s k (if mine && owner (en s) then DTake else DEnd))
  | Some DTake => Some (with_dismissal (with_action s None) k DCancel)
  | Some DCancel =>
    Some (with_dismissal (set_fl s {| gate := gate (fl s); cancelled := true; aborted := aborted (fl s) |}) k DClaim)
  | Some DClaim =>
    let '(won, s) := claim s in
    if won then
      let taken := handle (en s) in
      let s := set_en s {| owner := owner (en s); handle := false; commit_entry := commit_entry (en s);
                           unlocked_rec := unlocked_rec (en s) |} in
      let s := set_hi s {| left_bus := left_bus (hi s); late := late (hi s); dismiss_won := true |} in
      Some (with_dismissal s k (DAbort taken))
    else Some (with_dismissal s k DEnd)
  | Some (DAbort taken) => Some (with_dismissal (if taken then set_aborted s else s) k DFinish)
  | Some DFinish =>
    let '(already_done, s) := finish s in
    Some (with_dismissal s k (if already_done then DEnd else DEmit))
  | Some DEmit => Some (with_dismissal (emit s true) k DEnd)
  | _ => None
  end.

(** ** The watch on the bus *)

(** [reclaim_prompt], under the state lock.  [late] notes an owner that left
    after the task last looked for it. *)
Definition reclaim_prompt (s : prompt) : prompt :=
  let committed := commit_entry (en s) && gate (fl s) in
  let had_handle := handle (en s) in
  let record := unlocked_rec (en s) in
  let s := set_hi s {| left_bus := true;
                       late := (match task (tl s) with TReport | TFinish _ => true | _ => false end);
                       dismiss_won := dismiss_won (hi s) |} in
  let s := set_en s {| owner := false; handle := false; commit_entry := false; unlocked_rec := record |} in
  if had_handle && committed then s
  else
    let s := if had_handle then set_aborted s else s in
    set_rec (set_ef s {| opened := opened (ef s); relock := relock (ef s) ++ record; completed := completed (ef s);
                         work := work (ef s) |}) [].

(** ** Runs *)

Inductive step : prompt -> prompt -> Prop :=
| st_task c s s' : task_step c s = Some s' -> step s s'
| st_abort s : aborted (fl s) = true -> running (task (tl s)) = true -> step s (goto s TAborted)
| st_prompt s mine :
    step s (set_ca s {| action := action (ca s); calls := calls (ca s) ++ [PCheck mine]; dismissals := dismissals (ca s) |})
| st_call k s s' : call_step k s = Some s' -> step s s'
| st_dismiss s mine :
    step s (set_ca s {| action := action (ca s); calls := calls (ca s); dismissals := dismissals (ca s) ++ [DCheck mine] |})
| st_dismissal k s s' : dismiss_step k s = Some s' -> step s s'
| st_leave s : owner (en s) = true -> step s (reclaim_prompt s)
| st_relock s id todo : relock (ef s) = id :: todo ->
    step s (set_ef s {| opened := opened (ef s) ∖ {[id]}; relock := todo; completed := completed (ef s); work := work (ef s) |})
| st_lock s id : step s (set_opened s (opened (ef s) ∖ {[id]})).

Definition reachable (a : PromptAction) (s : prompt) : Prop := rtc step (prompt_new a) s.
