(* ===== verification/PromptProps.v ===== *)
(** * What a prompt promises ([src/dbus/prompt.rs], [src/daemon.rs])

    In every interleaving of the task, the dismissals and the watch: at most
    one [Completed]; and a dismissal that claims the gate vetoes the
    irreversible work.  Two interleavings show what is not promised: a signal
    may be lost, and the watch may stop confirmed work. *)
From S2P Require Import Prelude Text Import Prompt.

Definition b2n (b : bool) : nat := if b then 1 else 0.

Lemma count_if_insert {A} (p : A -> bool) l k x y : l !! k = Some y ->
  (count_if p (<[k := x]> l) + b2n (p y) = count_if p l + b2n (p x))%nat.
Proof.
  revert k. induction l as [|z l IH]; intros [|k]; [done..| |].
  - intros [= ->]. change (<[0%nat := x]> (y :: l)) with (x :: l). rewrite !count_if_cons. unfold b2n.
    destruct (p x), (p y); lia.
  - intros E. cbn in E. apply IH in E. change (<[S k := x]> (z :: l)) with (z :: <[k := x]> l). rewrite !count_if_cons. lia.
Qed.

Lemma count_if_lookup {A} (p : A -> bool) l k x : l !! k = Some x -> p x = true -> (1 <= count_if p l)%nat.
Proof.
  intros Hk Hp. apply list_elem_of_lookup_2, list_elem_of_split in Hk as (l1 & l2 & ->).
  rewrite count_if_app, count_if_cons, Hp. lia.
Qed.

Lemma count_if_none {A} (p : A -> bool) l : (forall x, x ∈ l -> p x = false) -> count_if p l = 0%nat.
Proof.
  induction l as [|x l IH]; intros H; [done|]. rewrite count_if_cons, (H x) by set_solver. rewrite IH; [done|set_solver].
Qed.

Lemma elem_insert {A} (l : list A) k x y : y ∈ <[k := x]> l -> y = x \/ y ∈ l.
Proof.
  intros (i & Hi)%list_elem_of_lookup. destruct (decide (k = i)) as [->|Hne].
  - destruct (decide (i < length l)%nat).
    + rewrite list_lookup_insert_eq in Hi by done. left. congruence.
    + rewrite list_insert_ge in Hi by lia. right. by eapply list_elem_of_lookup_2.
  - rewrite list_lookup_insert_ne in Hi by done. right. by eapply list_elem_of_lookup_2.
Qed.

#[local] Arguments count_if : simpl never.
#[local] Arguments b2n : simpl never.

(** ** One signal *)

Definition is_demit (d : dcall) : bool := match d with DEmit => true | _ => false end.
Definition is_temit (t : tphase) : bool := match t with TEmit _ => true | _ => false end.

(** Whoever holds the right to complete the prompt: its entry, a signal about
    to be sent, a signal sent, or nobody because the owner left. *)
Definition tokens (s : prompt) : nat :=
  (b2n (owner (en s)) + b2n (is_temit (task (tl s))) + count_if is_demit (dismissals (ca s))
   + length (completed (ef s)) + b2n (left_bus (hi s)))%nat.

(** The task is not emitting while it is being spawned: it runs once. *)
Definition is_spawn (c : pcall) : bool := match c with PSpawn _ => true | _ => false end.

Definition spawn_tokens (s : prompt) : nat :=
  (b2n (if action (ca s) then true else false) + count_if is_spawn (calls (ca s))
   + b2n (match task (tl s) with TNone => false | _ => true end))%nat.

(** Break a step into its cases and its states into their fields. *)
Ltac step_cases :=
  repeat match goal with
  | H : context [match ?x with _ => _ end] |- _ => destruct x eqn:?; try discriminate H
  end;
  repeat match goal with
  | H : None = Some _ |- _ => discriminate H
  | H : Some _ = Some _ |- _ => injection H as <-
  end.

Ltac open_step H :=
  let E := fresh "E" in let s := fresh "s" in let ta := fresh "ta" in
  let ow := fresh "ow" in let ha := fresh "ha" in let ce := fresh "ce" in let ur := fresh "ur" in
  let ga := fresh "ga" in let can := fresh "can" in let ab := fresh "ab" in
  let anyu := fresh "anyu" in let un := fresh "un" in
  let ac := fresh "ac" in let cl := fresh "cl" in let di := fresh "di" in
  let op := fresh "op" in let re := fresh "re" in let co := fresh "co" in let wo := fresh "wo" in
  let lb := fresh "lb" in let la := fresh "la" in let dw := fresh "dw" in
  destruct H as [c s s' E|s Hab Hrun|s mine|k s s' E|s mine|k s s' E|s Hown|s id todo Hre|s id];
  destruct s as [kd [ow ha ce ur] [ga can ab] [ta anyu un] [ac cl di] [op re co wo] [lb la dw]];
  unfold reclaim_prompt in *; cbn in *;
  [destruct ta; unfold task_step, once_step, unlock_step, claim, finish in E; cbn in E; step_cases
  | |
  |unfold call_step in E; cbn in E; step_cases
  |
  |unfold dismiss_step, claim, finish in E; cbn in E; step_cases
  |destruct ha, ce, ga
  | | ]; cbn in *.

Lemma count_if_snoc {A} (p : A -> bool) l x : count_if p (l ++ [x]) = (count_if p l + b2n (p x))%nat.
Proof. by rewrite count_if_app, count_if_singleton. Qed.

(** Count what a call's new place changes. *)
Ltac count_inserts :=
  repeat match goal with
  | H : ?l !! ?k = Some ?y |- context [count_if ?p (<[?k := ?x]> ?l)] =>
    let n := fresh "n" in let Hn := fresh "Hn" in
    pose proof (count_if_insert p l k x y H) as Hn; set (n := count_if p (<[k := x]> l)) in *; clearbody n
  end; rewrite ?count_if_snoc; cbn in *; unfold b2n in *.

Lemma spawn_once s s' : step s s' -> (spawn_tokens s <= 1)%nat -> (spawn_tokens s' <= 1)%nat.
Proof.
  unfold spawn_tokens. intros H. open_step H; count_inserts; try lia.
  - by destruct ta.
  - destruct a; cbn; lia.
Qed.

Lemma token_step s s' : step s s' -> (spawn_tokens s <= 1)%nat -> (tokens s <= 1)%nat -> (aborted (fl s) = false -> tokens s = 1%nat) ->
  (tokens s' <= 1)%nat /\ (aborted (fl s') = false -> tokens s' = 1%nat).
Proof.
  unfold tokens, spawn_tokens. intros H. open_step H; count_inserts; rewrite ?length_app; cbn;
    try (intros; split; try intros; simplify_eq/=; lia);
    try (destruct ow; intros; split; try intros; simplify_eq/=; lia);
    try (destruct ta; intros; split; try intros; simplify_eq/=; lia);
    idtac.
  pose proof (count_if_lookup is_spawn _ _ _ Heqo eq_refl).
  destruct ta; try (intros; lia); destruct a; intros; split; try intros; simplify_eq/=; lia.
Qed.

(** ** The gate *)

(** Phases of an [Unlock]. *)
Definition unlock_phase (t : tphase) : bool :=
  match t with TNone | TOnce _ _ | TFinish _ | TEmit _ | TDone | TAborted => false | _ => true end.

(** Past the irreversible point of a creation or a deletion. *)
Definition at_work (t : tphase) : bool := match t with TOnce _ OWork | TOnce _ OAfter => true | _ => false end.

(** A call's new place, or one of the old ones. *)
Ltac old_calls :=
  repeat match goal with
  | H : _ ∈ <[_ := _]> _ |- _ => apply elem_insert in H as [H|H]; [try discriminate H; simplify_eq/=|]
  | H : _ ∈ _ ++ [_] |- _ => apply elem_of_app in H as [H|H%list_elem_of_singleton]; [|try discriminate H; simplify_eq/=]
  | H : _ \/ _ |- _ => destruct H as [H|H]
  | H : ?l !! _ = Some ?x |- _ => apply list_elem_of_lookup_2 in H
  end.

(** Use the facts whose condition has been decided. *)
Ltac fwd :=
  repeat match goal with
  | H : ?x = ?x -> _ |- _ => specialize (H eq_refl)
  | H : ?x = ?x \/ _ -> _ |- _ => specialize (H (or_introl eq_refl))
  | H : true = false -> _ |- _ => clear H
  | H : false = true -> _ |- _ => clear H
  | H : _ /\ _ |- _ => destruct H
  | H : ?P -> _, H' : ?P |- _ => match type of P with Prop => specialize (H H') end
  | H : ?P \/ _ -> _, H' : ?P |- _ => specialize (H (or_introl H'))
  | H : _ \/ ?P -> _, H' : ?P |- _ => specialize (H (or_intror H'))
  end.

(** Close the cases of a step. *)
Ltac close_step := cbn in *; intros; old_calls; fwd; try (done || congruence || tauto).

(** The task's handle: registered once, for a task that may still be told to
    stop, and taken by whoever is to stop it. *)
Record handles (s : prompt) : Prop := {
  hd_spawn : (spawn_tokens s <= 1)%nat;
  hd_fresh : task (tl s) = TNone -> aborted (fl s) = false /\ handle (en s) = false;
  hd_commit : handle (en s) = true -> commit_entry (en s) = true /\ aborted (fl s) = false;
  hd_taken : DAbort true ∈ dismissals (ca s) -> handle (en s) = false /\ task (tl s) <> TNone }.

Lemma spawning_fresh s a : (spawn_tokens s <= 1)%nat -> PSpawn a ∈ calls (ca s) -> task (tl s) = TNone.
Proof.
  unfold spawn_tokens. intros H (k & Hk)%list_elem_of_lookup. pose proof (count_if_lookup is_spawn _ _ _ Hk eq_refl).
  unfold b2n in H. destruct (task (tl s)); lia || done.
Qed.

Lemma start_running a : start a <> TNone.
Proof. by destruct a. Qed.

Lemma handles_step s s' : step s s' -> handles s -> handles s'.
Proof.
  intros H [H1 H2 H3 H4]. pose proof (spawn_once s s' H H1) as Hsp.
  pose proof (fun a => spawning_fresh s a H1) as Hf.
  open_step H; (split; [exact Hsp|..]); clear Hsp H1; close_step.
  all: try (by destruct (start_running a)); try (specialize (Hf _ Heqo); fwd; done).
  split; [done|]. intros ->. naive_solver.
Qed.

(** A dismissal that claimed the gate has left its mark. *)
Record dismissing (s : prompt) : Prop := {
  di_won b : DAbort b ∈ dismissals (ca s) \/ DFinish ∈ dismissals (ca s) -> dismiss_won (hi s) = true;
  di_cancel : dismiss_won (hi s) = true \/ DClaim ∈ dismissals (ca s) -> cancelled (fl s) = true;
  di_aborted : aborted (fl s) = true -> left_bus (hi s) = true \/ dismiss_won (hi s) = true }.

Lemma dismissing_step s s' : step s s' -> dismissing s -> dismissing s'.
Proof.
  intros H [H1 H2 H3]. open_step H; split; close_step; try (right; by eauto).
  all: try (first [apply (H1 true); by eauto | eapply H1; left; eassumption]).
Qed.

(** The task does what the prompt is for. *)
Record kinds (s : prompt) : Prop := {
  ki_action a : action (ca s) = Some a \/ PSpawn a ∈ calls (ca s) -> kind a = p_kind s;
  ki_unlock : unlock_phase (task (tl s)) = true -> p_kind s = KUnlock;
  ki_once a o : task (tl s) = TOnce a o -> kind a = p_kind s /\ p_kind s <> KUnlock }.

Lemma kinds_step s s' : step s s' -> kinds s -> kinds s'.
Proof.
  intros H [H1 H2 H3]. open_step H; split; close_step.
  all: try (eapply H1; by eauto); try (eapply H3; by eauto); simplify_eq.
  all: try (by eapply H3).
  all: pose proof (H1 a (or_intror Heqo)); destruct a; by simplify_eq/=.
Qed.


(** Where the work may have been done. *)
Definition worked (t : tphase) : bool :=
  match t with TOnce _ OAfter | TFinish _ | TEmit _ | TDone | TAborted => true | _ => false end.

(** The gate of a creation or a deletion: taken by a dismissal, or by the task
    on its way to the work, which no dismissal then cuts short. *)
Record vetoing (s : prompt) : Prop := {
  ve_won : p_kind s <> KUnlock -> dismiss_won (hi s) = true -> gate (fl s) = true /\ work (ef s) = [];
  ve_work : at_work (task (tl s)) = true \/ work (ef s) <> [] ->
    gate (fl s) = true /\ dismiss_won (hi s) = false /\ p_kind s <> KUnlock;
  ve_once : work (ef s) <> [] -> worked (task (tl s)) = true /\ length (work (ef s)) = 1%nat }.

Lemma vetoing_step s s' : step s s' -> handles s -> kinds s -> vetoing s -> vetoing s'.
Proof.
  intros H [H1 _ _ _] [_ K2 K3] [V1 V2 V3]. pose proof (fun a => spawning_fresh s a H1) as Hf. clear H1.
  open_step H; split; close_step.
  - destruct (K3 _ _ eq_refl) as [_ Hk]. destruct ga, dw; [done..|naive_solver|done].
  - destruct wo as [|w wo]; [done|]. naive_solver.
  - by destruct a.
  - rewrite (Hf _ Heqo) in *. naive_solver.
  - split; [done|]. destruct wo as [|w wo]; [done|]. destruct V2 as (-> & _); [by right|done].
  - by destruct ga.
  - by destruct ga.
Qed.

(** ** Every run *)

Record sound (s : prompt) : Prop := {
  so_handles : handles s; so_dismissing : dismissing s; so_kinds : kinds s; so_vetoing : vetoing s;
  so_tokens : (tokens s <= 1)%nat; so_one : aborted (fl s) = false -> tokens s = 1%nat }.

Lemma sound_new a : sound (prompt_new a).
Proof.
  assert (forall A (x : A), ~ x ∈ []) as Hnil by (intros ? ?; apply not_elem_of_nil).
  destruct a; split; try split; cbn; intros; unfold tokens, spawn_tokens; cbn in *;
    try (by vm_compute); try done; try naive_solver lia.
Qed.

Lemma sound_step s s' : step s s' -> sound s -> sound s'.
Proof.
  intros H [Hh Hd Hk Hv Ht Ho]. pose proof (token_step _ _ H (hd_spawn _ Hh) Ht Ho) as [? ?].
  split; [by eapply handles_step|by eapply dismissing_step|by eapply kinds_step|by eapply vetoing_step|done|done].
Qed.

Lemma reachable_ind_inv (P : prompt -> Prop) a s :
  P (prompt_new a) -> (forall s s', step s s' -> P s -> P s') -> reachable a s -> P s.
Proof. intros H0 Hs Hr. exact (rtc_ind_r P _ H0 (fun y z _ Hyz => Hs y z Hyz) s Hr). Qed.

Lemma reachable_sound a s : reachable a s -> sound s.
Proof. apply reachable_ind_inv; [apply sound_new|apply sound_step]. Qed.

Lemma reachable_kind a s : reachable a s -> p_kind s = kind a.
Proof.
  apply (reachable_ind_inv (fun s => p_kind s = kind a)); [done|]. intros s1 s2 H <-. open_step H; done.
Qed.

(** What the prompt, its task and its calls act on is the action it was made with. *)
Definition acts_on (s : prompt) (b : PromptAction) : Prop :=
  action (ca s) = Some b \/ PSpawn b ∈ calls (ca s) \/ b ∈ work (ef s) \/ (exists o, task (tl s) = TOnce b o).

Lemma acts_on_step s s' : step s s' -> forall b, acts_on s' b -> acts_on s b.
Proof.
  unfold acts_on. intros H b. open_step H; intros [Hb|[Hb|[Hb|[o Hb]]]]; cbn in *; old_calls; try done; simplify_eq; eauto 10.
  destruct a; simplify_eq/=; eauto.
Qed.

Lemma reachable_acts a s b : reachable a s -> acts_on s b -> b = a.
Proof.
  intros Hr. revert b. revert Hr. apply (reachable_ind_inv (fun s => forall b, acts_on s b -> b = a)).
  - intros b [?|[?%elem_of_nil|[?%elem_of_nil|[o ?]]]]; done || (cbn in *; congruence).
  - intros s1 s2 H IH b Hb. by eapply IH, acts_on_step.
Qed.

(** ** Runs as sequences of events *)

Inductive event : Type :=
| ETask (c : choice) | EAbort | EPrompt (mine : bool) | ECall (k : nat) | EDismiss (mine : bool) | EDismissal (k : nat)
| ELeave | ERelock.

Definition fire (s : prompt) (e : event) : option prompt :=
  match e with
  | ETask c => task_step c s
  | EAbort => if aborted (fl s) && running (task (tl s)) then Some (goto s TAborted) else None
  | EPrompt mine =>
    Some (set_ca s {| action := action (ca s); calls := calls (ca s) ++ [PCheck mine]; dismissals := dismissals (ca s) |})
  | ECall k => call_step k s
  | EDismiss mine =>
    Some (set_ca s {| action := action (ca s); calls := calls (ca s); dismissals := dismissals (ca s) ++ [DCheck mine] |})
  | EDismissal k => dismiss_step k s
  | ELeave => if owner (en s) then Some (reclaim_prompt s) else None
  | ERelock =>
    match relock (ef s) with
    | id :: todo =>
      Some (set_ef s {| opened := opened (ef s) ∖ {[id]}; relock := todo; completed := completed (ef s); work := work (ef s) |})
    | [] => None
    end
  end.

Fixpoint run_events (es : list event) (s : prompt) : option prompt :=
  match es with [] => Some s | e :: es => s' ← fire s e; run_events es s' end.

Lemma fire_step s e s' : fire s e = Some s' -> step s s'.
Proof.
  destruct e; cbn [fire]; intros E.
  - by eapply st_task.
  - destruct (aborted (fl s)) eqn:?, (running (task (tl s))) eqn:?; simplify_eq/=. by apply st_abort.
  - simplify_eq. apply st_prompt.
  - by eapply st_call.
  - simplify_eq. apply st_dismiss.
  - by eapply st_dismissal.
  - destruct (owner (en s)) eqn:?; simplify_eq. by apply st_leave.
  - destruct (relock (ef s)) eqn:?; simplify_eq. by eapply st_relock.
Qed.

Lemma run_reachable a es s : run_events es (prompt_new a) = Some s -> reachable a s.
Proof.
  unfold reachable. generalize (prompt_new a). induction es as [|e es IH]; cbn; intros s0 E; simplify_eq; [done|].
  destruct (fire s0 e) as [s1|] eqn:Ef; [|done]. eapply rtc_l; [by eapply fire_step|by apply IH].
Qed.

(** ** Theorems *)

(** C28. In every interleaving of a prompt's task, its [Prompt] and [Dismiss]
    calls and its owner leaving, [Completed] is sent at most once, never after
    the owner has left, and exactly once when nobody aborted the task and
    whoever finished the prompt has got to send it. *)
Theorem prompt_completes_once a s : reachable a s ->
  (length (completed (ef s)) <= 1)%nat
  /\ (left_bus (hi s) = true -> completed (ef s) = [])
  /\ (aborted (fl s) = false -> owner (en s) = false -> left_bus (hi s) = false ->
      (forall d, task (tl s) <> TEmit d) -> DEmit ∉ dismissals (ca s) -> length (completed (ef s)) = 1%nat).
Proof.
  intros [_ _ _ _ Ht Ho]%reachable_sound. unfold tokens, b2n in *. split; [lia|split].
  - intros Hl. rewrite Hl in Ht. apply length_zero_iff_nil. lia.
  - intros Ha Hw Hl Hte Hde. specialize (Ho Ha). rewrite Hw, Hl in Ho.
    rewrite (count_if_none is_demit) in Ho; [|intros d Hd; by destruct d].
    destruct (task (tl s)) eqn:?; cbn in Ho; try lia. naive_solver.
Qed.

Definition plain_choice (an : answer) : choice :=
  {| ch_answer := an; ch_loaded := true; ch_open := false; ch_derived := true; ch_unlock := UnlockOk |}.

(** A client asks for the prompt, and the task starts. *)
Definition started : list event := [EPrompt true; ECall 0; ECall 0; ECall 0].

Definition pins (n : nat) : list event := repeat (ETask (plain_choice AnPin)) n.

Definition dismissed_at (n : nat) : list event := EDismiss true :: repeat (EDismissal 0) n.

Definition state_after (a : PromptAction) (es : list event) : prompt := default (prompt_new a) (run_events es (prompt_new a)).

Lemma state_after_reachable a es : bool_decide (is_Some (run_events es (prompt_new a))) = true -> reachable a (state_after a es).
Proof. intros [s E]%bool_decide_eq_true. unfold state_after. rewrite E. by eapply run_reachable. Qed.

Definition sample_create : PromptAction := PCreate (lit "work") None.

Lemma prompt_completes_once_witness :
  let s := state_after sample_create (started ++ pins 2 ++ dismissed_at 7) in
  completed (ef s) = [true] /\ (length (completed (ef s)) <= 1)%nat.
Proof.
  split; [by vm_compute|]. eapply (prompt_completes_once sample_create).
  apply state_after_reachable. by vm_compute.
Defined.

(** C27. A creation or a deletion happens at most once, for the action the
    client asked for.  A dismissal that claims the gate vetoes the work for
    good, and work past the gate is never stopped by a dismissal. *)
Theorem dismiss_vetoes_work a s : reachable a s -> kind a <> KUnlock ->
  (dismiss_won (hi s) = true -> work (ef s) = [] /\ at_work (task (tl s)) = false)
  /\ (work (ef s) = [] \/ work (ef s) = [a])
  /\ (at_work (task (tl s)) = true -> aborted (fl s) = true -> left_bus (hi s) = true).
Proof.
  intros Hr Hk. pose proof (reachable_acts a s) as Hacts. pose proof (reachable_kind a s Hr) as Hkind.
  destruct (reachable_sound a s Hr) as [_ [_ _ Hab] _ [V1 V2 V3] _ _]. split; [|split].
  - intros Hd. rewrite <- Hkind in Hk. destruct (V1 Hk Hd) as [? ?]. split; [done|].
    destruct (at_work (task (tl s))) eqn:?; [|done]. destruct V2 as (_ & ? & _); [by left|congruence].
  - destruct (work (ef s)) as [|b [|b' l]] eqn:E; [by left| |].
    + right. f_equal. apply Hacts; [done|]. right; right; left. rewrite E. set_solver.
    + destruct V3 as [_ ?]; done.
  - intros Hw Ha. destruct (Hab Ha) as [?|?]; [done|]. destruct V2 as (_ & ? & _); [by left|congruence].
Qed.

Lemma dismiss_vetoes_work_witness :
  let s := state_after sample_create (started ++ pins 2 ++ dismissed_at 4 ++ pins 2) in
  dismiss_won (hi s) = true /\ work (ef s) = [].
Proof.
  intros s. assert (dismiss_won (hi s) = true) as Hd by (by vm_compute). split; [exact Hd|].
  refine (proj1 (proj1 (dismiss_vetoes_work sample_create s _ _) Hd)); [|by vm_compute].
  apply state_after_reachable. by vm_compute.
Defined.

(** [Completed] can be lost.  A dismissal claims the prompt and takes the
    task's handle while the task, whose user pressed Cancel, is finishing
    without having claimed the gate; the task removes the owner entry, is
    aborted before its signal is sent, and the dismissal then finds the prompt
    already finished.  Every call has returned and no signal was ever sent. *)
Theorem completed_may_be_lost : exists s, reachable sample_create s
  /\ owner (en s) = false /\ left_bus (hi s) = false /\ task (tl s) = TAborted
  /\ calls (ca s) = [PEnd] /\ dismissals (ca s) = [DEnd] /\ completed (ef s) = [].
Proof.
  exists (state_after sample_create (started ++ [ETask (plain_choice AnPin); ETask (plain_choice AnCancelled)]
    ++ dismissed_at 4 ++ pins 1 ++ [EDismissal 0; EAbort; EDismissal 0])).
  split; [apply state_after_reachable; by vm_compute|]. by vm_compute.
Qed.

(** The watch on the bus may cut confirmed work short.  It only reads the
    gate: a deletion whose dialog was just answered claims the gate after that
    read, removes the file, and is then stopped by the abort before the
    collection leaves the daemon's tables. *)
Theorem reclaim_interrupts_work : exists s, reachable (PDelete (lit "work")) s
  /\ gate (fl s) = true /\ dismiss_won (hi s) = false /\ work (ef s) = [PDelete (lit "work")]
  /\ task (tl s) = TAborted /\ completed (ef s) = [].
Proof.
  exists (state_after (PDelete (lit "work")) (started ++ pins 2 ++ [ELeave] ++ pins 3 ++ [EAbort])).
  split; [apply state_after_reachable; by vm_compute|]. by vm_compute.
Qed.
