(* ===== verification/PromptRelock.v ===== *)
(** * An owner that leaves takes its unlocks with it ([src/dbus/prompt.rs], [src/daemon.rs])

    What an unlock prompt opened is on its record while its owner is there;
    when the owner leaves, the watch collects the record, or the task, which
    holds the gate, locks what it opened itself. *)
From S2P Require Import Prelude Text Import Prompt PromptProps.

(** ** Who may still open a collection *)

(** Phases of a collection for which the task holds the gate. *)
Definition holding (t : tphase) : bool :=
  match t with
  | TAsk _ _ true _ | TGate _ _ true _ | TRecord _ _ _ | TOpen _ _ _ | TOpened _ _ | TUnrecord _ _ _ _ => true
  | _ => false
  end.

(** Phases between the top of a collection and its gate. *)
Definition before_gate (t : tphase) : bool :=
  match t with
  | TOwnerCheck _ _ | TLook _ _ | TSession _ _ | TAsk _ _ false _ | TGate _ _ false _ => true
  | _ => false
  end.

Definition deriving (t : tphase) : bool := match t with TDerive _ _ _ => true | _ => false end.

Definition fresh (t : tphase) : bool := match t with TNone => true | _ => false end.
Definition reporting (t : tphase) : bool := match t with TEmit _ | TDone => true | _ => false end.
Definition over (t : tphase) : bool := match t with TEmit _ | TDone | TAborted => true | _ => false end.

(** Who holds the gate of a collection, and when the entries are missing. *)
Record held (s : prompt) : Prop := {
  ho_hold : holding (task (tl s)) || deriving (task (tl s)) = true -> gate (fl s) = true /\ dismiss_won (hi s) = false;
  ho_handle : holding (task (tl s)) || deriving (task (tl s)) = true -> left_bus (hi s) = false -> handle (en s) = true;
  ho_kept : holding (task (tl s)) = true -> aborted (fl s) = false;
  ho_before : before_gate (task (tl s)) = true -> dismiss_won (hi s) = true -> gate (fl s) = true;
  ho_nohandle : owner (en s) = true -> handle (en s) = false -> fresh (task (tl s)) = false -> dismiss_won (hi s) = true;
  ho_gone : owner (en s) = false -> left_bus (hi s) = false -> over (task (tl s)) = false -> dismiss_won (hi s) = true;
  ho_owner : owner (en s) = true -> left_bus (hi s) = false;
  ho_aborted : task (tl s) = TAborted -> aborted (fl s) = true;
  ho_over : reporting (task (tl s)) = true -> owner (en s) = false }.

Lemma held_step s s' : step s s' -> handles s -> dismissing s -> held s -> held s'.
Proof.
  intros H [H1 H2 H3 H4] [D1 D2 D3] [L1 L1' L2 L3 L4 L5 L6 L7 L8]. pose proof (fun a => spawning_fresh s a H1) as Hf. clear H1.
  open_step H; split; close_step.
  all: try (destruct ow, ha, ga, dw; by close_step).
  all: try (rewrite (Hf _ Heqo) in *; destruct a; by close_step).
  all: try (pose proof (D1 true (or_introl Heqo))); try (pose proof (D1 true (or_intror Heqo))).
  all: try match goal with H : holding ?x = true |- _ => rewrite H in * end; by close_step.
Qed.

(** ** What is to be locked again *)

(** [x] is one of the collections the task answers for. *)
Definition task_answers (s : prompt) (x : str) : Prop :=
  match task (tl s) with
  | TOpened id _ => x = id \/ x ∈ unlocked_now (tl s)
  | TRelock todo => x ∈ todo
  | TAborted => True
  | _ => x ∈ unlocked_now (tl s)
  end.

(** While the prompt has its owner, what it opened is on its record. *)
Definition on_record (s : prompt) : Prop :=
  match task (tl s) with
  | TOpen id _ _ | TUnrecord id _ _ _ => exists r, unlocked_rec (en s) = r ++ [id] /\ forall x, x ∈ opened (ef s) -> x ∈ r
  | TGone | TRelock _ => False
  | _ => forall x, x ∈ opened (ef s) -> x ∈ unlocked_rec (en s)
  end.

(** Phases past the owner check and before the gate. *)
Definition asking (t : tphase) : bool :=
  match t with TLook _ _ | TSession _ _ | TAsk _ _ false _ | TGate _ _ false _ => true | _ => false end.

(** The task will open nothing more, once the owner entry is gone. *)
Definition no_more (s : prompt) : Prop :=
  holding (task (tl s)) = false
  /\ (deriving (task (tl s)) = true -> aborted (fl s) = true)
  /\ (asking (task (tl s)) = true -> aborted (fl s) = true \/ gate (fl s) = true).

Definition finishing (t : tphase) : bool :=
  match t with TFinish _ | TEmit _ | TDone | TAborted => true | _ => false end.

(** The task is left to lock what it opened. *)
Record trusted (s : prompt) : Prop := {
  tr_abort : aborted (fl s) = false;
  tr_handle : handle (en s) = false;
  tr_dismiss : DAbort true ∈ dismissals (ca s) -> False;
  tr_task : fresh (task (tl s)) = false /\ task (tl s) <> TReport;
  tr_done : finishing (task (tl s)) = true -> opened (ef s) = ∅ }.

Record relocking (s : prompt) : Prop := {
  re_now x : x ∈ opened (ef s) -> task_answers s x;
  re_rec : owner (en s) = true -> on_record s;
  re_left : p_kind s = KUnlock -> left_bus (hi s) = true -> late (hi s) = false ->
    ((forall x, x ∈ opened (ef s) -> x ∈ relock (ef s)) /\ no_more s) \/ trusted s }.

Lemma remove_last_snoc id l : remove_last id (l ++ [id]) = l.
Proof.
  unfold remove_last. rewrite rev_app_distr. cbn [rev app position].
  rewrite (proj2 (str_eqb_eq id id) eq_refl). unfold vec_remove. cbn. by rewrite drop_0, rev_involutive.
Qed.

Lemma now_step s s' : step s s' -> (spawn_tokens s <= 1)%nat -> (forall x, x ∈ opened (ef s) -> task_answers s x) ->
  forall x, x ∈ opened (ef s') -> task_answers s' x.
Proof.
  unfold task_answers. intros H H1. pose proof (fun a => spawning_fresh s a H1) as Hf. clear H1.
  open_step H; intros Hnow x Hx; specialize (Hnow x); try set_solver.
  all: try (destruct ta; set_solver).
  all: try (destruct ta; set_solver).
  rewrite (Hf _ (list_elem_of_lookup_2 _ _ _ Heqo)) in Hnow. destruct a; set_solver.
Qed.

Lemma record_step s s' : step s s' -> handles s -> (owner (en s) = true -> on_record s) -> owner (en s') = true -> on_record s'.
Proof.
  unfold on_record. intros H [H1 _ _ _]. pose proof (fun a => spawning_fresh s a H1) as Hf. clear H1.
  open_step H; intros Hrec Hw; try done; specialize (Hrec Hw).
  all: try (intros; by apply Hrec).
  - by exists ur.
  - destruct Hrec as (r & -> & Hr). set_solver.
  - destruct Hrec as (r & -> & Hr). by rewrite remove_last_snoc.
  - destruct Hrec as (r & -> & Hr). by rewrite remove_last_snoc.
  - destruct Hrec as (r & -> & Hr). by rewrite remove_last_snoc.
  - destruct Hrec as (r & -> & Hr). by rewrite remove_last_snoc.
  - destruct ta; try done; destruct Hrec as (r & -> & Hr); set_solver.
  - rewrite (Hf _ (list_elem_of_lookup_2 _ _ _ Heqo)) in Hrec. by destruct a.
  - destruct ta; set_solver.
  - destruct ta; set_solver.
Qed.

Lemma on_record_all s : on_record s -> forall x, x ∈ opened (ef s) -> x ∈ unlocked_rec (en s).
Proof. unfold on_record. destruct (task (tl s)); try done; intros (r & -> & Hr) x Hx; set_solver. Qed.

(** Whatever has been given up on stays so. *)
Lemma no_more_step s s' : step s s' -> handles s -> owner (en s) = false -> no_more s ->
  (forall x, x ∈ opened (ef s) -> x ∈ relock (ef s)) ->
  no_more s' /\ (forall x, x ∈ opened (ef s') -> x ∈ relock (ef s')).
Proof.
  unfold no_more. intros H [H1 _ _ _]. pose proof (fun a => spawning_fresh s a H1) as Hf. clear H1.
  open_step H; intros Hgone (N1 & N2 & N3) Ho; try done; (split; [split; [try done|split; [try done|try done; intros]]|try done; try set_solver]).
  all: close_step; try (by destruct a); try (destruct claimed; by close_step); try (destruct ga; by close_step).
Qed.

Lemma trusted_step s s' : step s s' -> handles s -> kinds s -> p_kind s = KUnlock -> owner (en s) = false ->
  (forall x, x ∈ opened (ef s) -> task_answers s x) -> trusted s -> trusted s'.
Proof.
  intros H [H1 _ _ _] [_ K2 K3]. pose proof (fun a => spawning_fresh s a H1) as Hf. clear H1.
  revert H K2 K3. intros H K2 K3 Hu Hgone Hnow [T1 T2 T3 [T4 T4'] T5]. revert Hnow. unfold task_answers.
  open_step H; intros Hnow; split; close_step.
  all: try (by destruct (K3 _ _ eq_refl)); try set_solver; try (by rewrite (Hf _ Heqo) in T4).
Qed.

(** The owner leaves: the watch takes what was opened, or the task keeps it. *)
Lemma leave_relocks s : owner (en s) = true -> handles s -> held s -> on_record s ->
  p_kind s = KUnlock -> late (hi (reclaim_prompt s)) = false ->
  ((forall x, x ∈ opened (ef (reclaim_prompt s)) -> x ∈ relock (ef (reclaim_prompt s))) /\ no_more (reclaim_prompt s))
  \/ trusted (reclaim_prompt s).
Proof.
  intros Hown [_ H2 H3 H4] [L1 L1' L2 L3 L4 L5 L6 L7 L8] Hrec Hk Hlate. pose proof (on_record_all s Hrec) as Hall. clear Hrec.
  assert (forall x, x ∈ opened (ef s) -> x ∈ relock (ef s) ++ unlocked_rec (en s)) as Hre
    by (intros x Hx; apply elem_of_app; right; by apply Hall).
  clear Hall. destruct s as [kd [ow ha ce ur] [ga can ab] [ta anyu un] [ac cl di] [op re co wo] [lb la dw]].
  unfold reclaim_prompt, no_more in *. cbn in *. subst ow. fwd. destruct ha; [fwd; destruct ga|]; cbn in *; subst.
  - right. split; cbn; try done.
    + intros Hd. by destruct (H4 Hd).
    + destruct ta; by close_step.
    + destruct ta; by close_step.
  - left. destruct (holding ta) eqn:?, (deriving ta) eqn:?; cbn in *; fwd; try done; (split; [exact Hre|tauto]).
  - left. split; [exact Hre|]. destruct (fresh ta) eqn:Hta; [by destruct ta|]. fwd.
    destruct (holding ta) eqn:?, (deriving ta) eqn:?; cbn in *; fwd; try done.
    split; [done|split; [done|]]. intros Ha. right. apply L3; [by destruct ta|done].
Qed.

(** Only the watch writes the history of the owner. *)
Lemma history_step s s' : step s s' -> p_kind s' = p_kind s /\
  ((left_bus (hi s') = left_bus (hi s) /\ late (hi s') = late (hi s)) \/ (owner (en s) = true /\ s' = reclaim_prompt s)).
Proof. intros H. open_step H; (split; [done|]); (by left) || (by right). Qed.

Lemma relocking_step s s' : step s s' -> sound s -> held s -> relocking s -> relocking s'.
Proof.
  intros H [Hh Hd Hki Hv _ _] Hho [R1 R2 R3]. split.
  - apply (now_step s); [done|apply Hh|done].
  - by apply (record_step s).
  - intros Hk Hl Hla. destruct (history_step _ _ H) as [Ek [[El Ela]|[Hown ->]]].
    + rewrite Ek in Hk. rewrite El in Hl. rewrite Ela in Hla. destruct (owner (en s)) eqn:Hown.
      { rewrite (ho_owner _ Hho Hown) in Hl. done. }
      destruct (R3 Hk Hl Hla) as [[Ho Hn]|Ht].
      * left. by destruct (no_more_step s s').
      * right. by apply (trusted_step s).
    + apply leave_relocks; auto. by rewrite <- Ek.
Qed.

Lemma relocking_new a : held (prompt_new a) /\ relocking (prompt_new a).
Proof. by split; split; cbn. Qed.

Lemma reachable_relocking a s : reachable a s -> relocking s.
Proof.
  intros Hr. apply (reachable_ind_inv (fun s => sound s /\ held s /\ relocking s) a); [| |done].
  - split; [apply sound_new|apply relocking_new].
  - intros s1 s2 H (Hs & Hh & Hre). split; [by eapply sound_step|split; [|by eapply relocking_step]].
    destruct Hs. by eapply held_step.
Qed.


Definition two_collections : PromptAction := PUnlock [lit "login"; lit "work"].

(** The client leaves at the second dialog, the first collection open. *)
Definition leaves_at_second : list event := started ++ pins 17 ++ [ELeave; EAbort].

