(* ===== verification/Bus.v ===== *)
(** * The objects on the bus ([src/dbus/service.rs], [collection.rs], [item.rs],
      [session.rs], [registry.rs], [errors.rs] and [mod.rs] of [src/dbus])

    The handlers of the four Secret Service interfaces and of the private
    batch interface, over the state of [State], the vaults of [Store] and the
    ciphers of [Session].  A handler runs to its end before the next; the
    state lock and a vault's lock are taken where the code takes them, and what
    the code reads under one guard it reads here from one state.

    zbus and zvariant are the class [Bus]: whether a path is accepted, how a
    value of a message converts, in which order a [HashMap] is walked, and
    whether exporting an object or sending a signal fails, each as any function
    of everything that happened before. *)
From S2P Require Import Prelude Text Env Crypto Codec Format Sanitize Names Files Sweep Store Aliases Session State Protocol Daemon.

Definition MAX_GET_SECRETS_ITEMS : Z := 1024.
Definition MAX_SEARCH_ATTRIBUTES : Z := 1024.
Definition MAX_LOCK_OBJECTS : Z := 1024.
Definition MAX_DELETE_ITEMS : Z := 1024.
Definition MAX_ITEM_CIPHERTEXT : Z := MAX_ITEM_SECRET + 16.

(** ** Errors *)

Inductive FdoError : Type :=
| FFailed (text : str)
| FInvalidArgs (text : str)
| FNotSupported (text : str)
| FUnknownObject (text : str).

(** [zbus::Error]: one that wraps an [fdo::Error], or any other. *)
Inductive zbus_error : Type := ZFdo (e : FdoError) | ZOther (description : option str).

Inductive BusError : Type :=
| EZBus (e : zbus_error)
| EIsLocked
| ENoSession
| ENoSuchObject.

Definition failed (text : str) : BusError := EZBus (ZFdo (FFailed text)).
Definition invalid_args (text : str) : BusError := EZBus (ZFdo (FInvalidArgs text)).
Definition not_supported (text : str) : BusError := EZBus (ZFdo (FNotSupported text)).
Definition error_from_fdo (e : FdoError) : BusError := EZBus (ZFdo e).

Definition error_from_vault (e : VaultError) : BusError :=
  match e with
  | Locked => EIsLocked
  | Retired => ENoSuchObject
  | NoSuchItem _ => ENoSuchObject
  | _ => failed (lit "cannot access the collection")
  end.

Definition vault_error_to_fdo (e : VaultError) : FdoError :=
  match e with
  | Locked => FFailed (lit "org.freedesktop.Secret.Error.IsLocked: collection is locked")
  | _ => FFailed (lit "cannot access the collection")
  end.

(** The wire names; those of [fdo::Error] are zbus's documented ones. *)
Definition fdo_name (e : FdoError) : str :=
  match e with
  | FFailed _ => lit "org.freedesktop.DBus.Error.Failed"
  | FInvalidArgs _ => lit "org.freedesktop.DBus.Error.InvalidArgs"
  | FNotSupported _ => lit "org.freedesktop.DBus.Error.NotSupported"
  | FUnknownObject _ => lit "org.freedesktop.DBus.Error.UnknownObject"
  end.

Definition fdo_description (e : FdoError) : str :=
  match e with FFailed t | FInvalidArgs t | FNotSupported t | FUnknownObject t => t end.

Definition error_name (e : BusError) : str :=
  match e with
  | EZBus (ZFdo inner) => fdo_name inner
  | EZBus (ZOther _) => lit "org.freedesktop.zbus.Error"
  | EIsLocked => lit "org.freedesktop.Secret.Error.IsLocked"
  | ENoSession => lit "org.freedesktop.Secret.Error.NoSession"
  | ENoSuchObject => lit "org.freedesktop.Secret.Error.NoSuchObject"
  end.

Definition error_description (e : BusError) : option str :=
  match e with
  | EZBus (ZFdo inner) => Some (fdo_description inner)
  | EZBus (ZOther d) => d
  | EIsLocked | ENoSession | ENoSuchObject => None
  end.

(** [create_reply]: the name and the body, which is empty without a description. *)
Definition create_reply (e : BusError) : str * option str := (error_name e, error_description e).

Definition error_display (e : BusError) : str :=
  error_name e ++ lit ": " ++ default (lit "no description") (error_description e).

(** ** The connection *)

Inductive iface : Type := ISession | IPrompt | ICollection | IAdmin | IItem.

#[global] Instance iface_eq_dec : EqDecision iface.
Proof. solve_decision. Defined.
#[global] Instance iface_countable : Countable iface.
Proof.
  refine (inj_countable'
    (fun i => match i with ISession => 0%nat | IPrompt => 1%nat | ICollection => 2%nat | IAdmin => 3%nat | IItem => 4%nat end)
    (fun n => match n with 0%nat => ISession | 1%nat => IPrompt | 2%nat => ICollection | 3%nat => IAdmin | _ => IItem end) _).
  abstract (by intros []).
Defined.

Inductive bus_signal : Type :=
| SCollectionChanged (collection : str)
| SLockedChanged (object : str)
| SItemCreated (collection item : str)
| SItemChanged (collection item : str)
| SItemDeleted (collection item : str).

(** What a pending prompt is to do. *)
Inductive PromptWork : Type :=
| WUnlock (collections requested : list str)
| WCreateCollection (label : str) (alias : option str)
| WDeleteCollection (id : str).

(** The daemon with what it exports on the bus, the work of each exported
    prompt, and the signals sent. *)
Record conn : Type := Conn {
  cn_daemon : Daemon;
  cn_world : world;
  cn_objects : gset (str * iface);
  cn_prompts : gmap str PromptWork;
  cn_signals : list bus_signal
}.

Class Bus : Type := {
  (** [ObjectPath::try_from] *)
  path_try_from : str -> option str;
  (** [Value] and its conversions *)
  ovalue : Type;
  value_string : ovalue -> option str;
  value_attributes : ovalue -> option (gmap str str);
  value_bytes : ovalue -> option bytes;
  value_of_string : str -> ovalue;
  value_of_bytes : bytes -> ovalue;
  value_to_owned : ovalue -> result ovalue str;
  (** the order in which a [HashMap] yields its pairs *)
  hash_iter : gmap str str -> list (str * str);
  (** a failure to export an object or to send a signal, if it fails *)
  server_at : conn -> str -> iface -> option zbus_error;
  signal_sent : conn -> bus_signal -> option zbus_error;
  (** the [Display] of the session's errors *)
  session_text : SessionError -> str
}.

(** Paths follow the D-Bus grammar, text is valid UTF-8, and a map yields each
    of its pairs once. *)
Class BusOk (B : Bus) : Prop := {
  path_accepts : accepts_segments path_try_from;
  value_string_wf v s : value_string v = Some s -> str_wf s;
  value_attributes_wf v m : value_attributes v = Some m -> attrs_wf m;
  hash_iter_perm m : hash_iter m ≡ₚ map_to_list m
}.

(** ** Handlers

    [None] is a panic: the task is gone, the state as it was then. *)

Definition handler (A E : Type) : Type := conn -> option (result A E) * conn.

Definition hret {A E} (a : A) : handler A E := fun c => (Some (Ok a), c).
Definition herr {A E} (e : E) : handler A E := fun c => (Some (Err e), c).
Definition hbind {A B E} (m : handler A E) (k : A -> handler B E) : handler B E :=
  fun c => match m c with
           | (Some (Ok a), c) => k a c
           | (Some (Err e), c) => (Some (Err e), c)
           | (None, c) => (None, c)
           end.

Declare Scope bus_scope.
Notation "'let*' x ':=' m 'in' k" := (hbind m (fun x => k))
  (at level 10, x binder, m at level 200, k at level 200) : bus_scope.
Open Scope bus_scope.

(** A value already known, an [expect], reading and writing the state. *)
Definition require {A E} (r : result A E) : handler A E := fun c => (Some r, c).
Definition or_panic {A E} (o : option A) : handler A E :=
  fun c => (match o with Some a => Some (Ok a) | None => None end, c).
Definition lock_state {E} : handler ServiceState E := fun c => (Some (Ok (dm_state (cn_daemon c))), c).
Definition set_daemon (c : conn) (dm : Daemon) : conn :=
  Conn dm (cn_world c) (cn_objects c) (cn_prompts c) (cn_signals c).
Definition set_world (c : conn) (w : world) : conn :=
  Conn (cn_daemon c) w (cn_objects c) (cn_prompts c) (cn_signals c).
Definition put_state {E} (st : ServiceState) : handler unit E :=
  fun c => (Some (Ok tt), set_daemon c (with_state_of (cn_daemon c) st)).
Definition touch_state {E} (at_ : Z) : handler unit E :=
  fun c => (Some (Ok tt), set_daemon c (touch (cn_daemon c) at_)).

(** [random_bytes] and what else asks the machine; [None] is its panic. *)
Definition on_world {A E} (f : world -> option A * world) : handler A E :=
  fun c => let '(o, w) := f (cn_world c) in
           (match o with Some a => Some (Ok a) | None => None end, set_world c w).

(** A method of the vault [v] behind the lock of the collection [id]. *)
Definition on_vault {A E} (id : str) (v : Vault) (op : Vault -> world -> result A VaultError * Vault * world)
  : handler (result A VaultError) E :=
  fun c => let '(r, v, w) := op v (cn_world c) in
           (Some (Ok r), set_world (set_daemon c (with_state_of (cn_daemon c)
                                      (put_vault (dm_state (cn_daemon c)) id v))) w).

Definition ROOT : str := lit "/".

(** [require_sender]. *)
Definition require_sender (sender : option str) : result str BusError := ok_or sender ENoSession.

Definition error_from_quota (e : quota_error) : BusError :=
  match e with
  | TooManySessions => failed (lit "too many open sessions")
  | TooManyPrompts => failed (lit "too many outstanding prompts")
  | NoSession => ENoSession
  end.

Definition with_sessions (st : ServiceState) (s : gmap str SessionEntry) (n : Z) : ServiceState :=
  {| vault_dir := vault_dir st; st_index_attributes := st_index_attributes st; collections := collections st;
     broken := broken st; aliases := aliases st; sessions := s; prompt_owners := prompt_owners st;
     next_session := n; next_prompt := next_prompt st |}.
Definition with_prompts (st : ServiceState) (p : gmap str str) (n : Z) : ServiceState :=
  {| vault_dir := vault_dir st; st_index_attributes := st_index_attributes st; collections := collections st;
     broken := broken st; aliases := aliases st; sessions := sessions st; prompt_owners := p;
     next_session := next_session st; next_prompt := n |}.

(** The counters are [u64]s. *)
Definition next_u64 (n : Z) : Z := (n + 1) mod (u64_max + 1).

Record SecretStruct : Type := { ss_session : str; ss_parameters : bytes; ss_value : bytes; ss_content_type : str }.

Section bus.
Context `{Env} `{Prims} `{VaultCodec} `{AliasText} `{SessionPrims} `{Bus}.

Definition pcollection (id : str) : option str := collection_path path_try_from id.
Definition pitem (cid iid : str) : option str := item_path path_try_from cid iid.
Definition palias (name : str) : option (option str) := alias_path path_try_from name.

(** *** The object server *)

(** [ObjectServer::at]: an interface already there is left as it is. *)
Definition export (p : str) (i : iface) : handler unit zbus_error :=
  fun c => match server_at c p i with
           | Some e => (Some (Err e), c)
           | None => (Some (Ok tt), Conn (cn_daemon c) (cn_world c) ({[ (p, i) ]} ∪ cn_objects c)
                                         (cn_prompts c) (cn_signals c))
           end.

(** [ObjectServer::remove], whose failure is at most logged. *)
Definition unexport {E} (p : str) (i : iface) : handler unit E :=
  fun c => (Some (Ok tt), Conn (cn_daemon c) (cn_world c) (cn_objects c ∖ {[ (p, i) ]})
                               (cn_prompts c) (cn_signals c)).

Definition with_zbus {A} (m : handler A zbus_error) : handler A BusError :=
  fun c => let '(r, c) := m c in
           (match r with Some (Ok a) => Some (Ok a) | Some (Err e) => Some (Err (EZBus e)) | None => None end, c).

Definition add_signal (c : conn) (s : bus_signal) : conn :=
  Conn (cn_daemon c) (cn_world c) (cn_objects c) (cn_prompts c) (cn_signals c ++ [s]).

(** A signal whose failure is the caller's, and one whose failure is logged. *)
Definition emit_signal (s : bus_signal) : handler unit BusError :=
  fun c => match signal_sent c s with
           | Some e => (Some (Err (EZBus e)), c)
           | None => (Some (Ok tt), add_signal c s)
           end.
Definition emit_logged {E} (s : bus_signal) : handler unit E :=
  fun c => (Some (Ok tt), match signal_sent c s with Some _ => c | None => add_signal c s end).

Fixpoint for_each {A E} (l : list A) (f : A -> handler unit E) : handler unit E :=
  match l with
  | [] => hret tt
  | a :: l => let* _ := f a in for_each l f
  end.

(** *** The registry *)

Definition register_collection (id : str) : handler unit zbus_error :=
  let* p := or_panic (pcollection id) in
  let* _ := export p ICollection in
  let* _ := export p IAdmin in
  let* st := lock_state in
  let ids := match vault st id with Some v => item_ids v | None => [] end in
  for_each ids (fun iid => let* p := or_panic (pitem id iid) in export p IItem).

Definition unregister_collection {E} (id : str) (ids : list str) : handler unit E :=
  let* _ := for_each ids (fun iid => let* p := or_panic (pitem id iid) in unexport p IItem) in
  let* p := or_panic (pcollection id) in
  let* _ := unexport p IAdmin in
  unexport p ICollection.

Definition register_alias (name : str) : handler unit zbus_error :=
  match palias name with
  | None => hret tt
  | Some o =>
    let* p := or_panic o in
    let* _ := export p ICollection in
    export p IAdmin
  end.

Definition unregister_alias {E} (name : str) : handler unit E :=
  match palias name with
  | None => hret tt
  | Some o =>
    let* p := or_panic o in
    let* _ := unexport p IAdmin in
    unexport p ICollection
  end.

Definition register_item (cid iid : str) : handler unit zbus_error :=
  let* p := or_panic (pitem cid iid) in export p IItem.

Definition register_all_objects : handler unit zbus_error :=
  let* st := lock_state in
  let* _ := for_each (btree_keys (collections st) ++ btree_keys (broken st)) register_collection in
  for_each (btree_keys (known (aliases st))) register_alias.

Definition emit_locked_changed {E} (p : str) : handler unit E :=
  fun c => if bool_decide ((p, ICollection) ∈ cn_objects c) then emit_logged (SLockedChanged p) c
           else (Some (Ok tt), c).

Definition notify_collection_changed {E} (id : str) : handler unit E :=
  let* p := or_panic (pcollection id) in
  let* _ := emit_logged (SCollectionChanged p) in
  fun c =>
    if negb (bool_decide ((p, ICollection) ∈ cn_objects c)) then (Some (Ok tt), c)
    else
      (let* st := lock_state in
       let names := map fst (List.filter (fun kv => str_eqb (snd kv) id) (btree_iter (known (aliases st)))) in
       let* _ := emit_locked_changed p in
       for_each names (fun name =>
         match palias name with
         | Some o => let* p := or_panic o in emit_locked_changed p
         | None => hret tt
         end)) c.
End bus.
