(* ===== verification/Handlers.v ===== *)
(** * The methods of the bus objects ([src/dbus/service.rs], [collection.rs],
      [item.rs] and [session.rs] of [src/dbus])

    One definition per method or property, in the order of the source, written
    in the handlers of [Bus]. *)
From S2P Require Import Prelude Text Env Crypto Codec Format Sanitize Names Files Sweep Store Aliases Session State Protocol Daemon Bus.

Open Scope bus_scope.

(** ** Checks *)

Definition too_many (what : str) (limit : Z) : BusError :=
  invalid_args (lit "too many " ++ what ++ lit "; at most " ++ dec limit ++ lit " per call").

Definition check_object_count (n : Z) : result unit BusError :=
  if MAX_LOCK_OBJECTS <? n then Err (too_many (lit "objects") MAX_LOCK_OBJECTS) else Ok tt.

Definition error_from_alias (e : alias_refusal) : BusError :=
  match e with
  | NotASegment => invalid_args (lit "alias names must match [A-Za-z0-9_]+")
  | NameTooLong => invalid_args (lit "alias name too long; at most " ++ dec MAX_ALIAS_NAME ++ lit " characters")
  | TooManyAliases => failed (lit "too many aliases; at most " ++ dec (Z.of_nat MAX_ALIASES))
  | NoSuchObject => ENoSuchObject
  end.

Definition cap_message (v : CapViolation) : str :=
  let limit := dec (cv_limit v) in
  match cv_cap v with
  | CapSecret => lit "secret is too large; at most " ++ limit ++ lit " bytes per item"
  | CapLabel => lit "label is too large; at most " ++ limit ++ lit " bytes per item"
  | CapContentType => lit "content type is too large; at most " ++ limit ++ lit " bytes per item"
  | CapAttributeCount => lit "too many attributes; at most " ++ limit ++ lit " per item"
  | CapAttributeKey => lit "attribute name is too large; at most " ++ limit ++ lit " bytes per attribute"
  | CapAttributeValue => lit "attribute value is too large; at most " ++ limit ++ lit " bytes per attribute"
  end.

Definition cap_refusal (o : option CapViolation) : result unit FdoError :=
  match o with Some v => Err (FInvalidArgs (cap_message v)) | None => Ok tt end.

Definition check_content_type (ct : str) : result unit FdoError := cap_refusal (cap_check CapContentType (str_len ct)).
Definition check_item_label (l : str) : result unit FdoError := cap_refusal (cap_check CapLabel (str_len l)).

Definition check_attribute_pairs (pairs : list (str * str)) : result unit FdoError :=
  cap_refusal (find_map (fun '(k, v) => or_else (cap_check CapAttributeKey (str_len k))
                                                (cap_check CapAttributeValue (str_len v))) pairs).

Definition check_attributes (count : Z) (pairs : list (str * str)) : result unit FdoError :=
  let? _ := cap_refusal (cap_check CapAttributeCount count) in check_attribute_pairs pairs.

(** ** Grouping by collection *)

Section group.
Context {T : Type} (key : T -> str).

Fixpoint group_from (i : nat) (elements : list T) (groups : list (str * list nat)) (slots : gmap str nat)
  : list (str * list nat) :=
  match elements with
  | [] => groups
  | e :: elements =>
    let cid := key e in
    match slots !! cid with
    | Some slot => group_from (S i) elements (alter (fun g => (fst g, snd g ++ [i])) slot groups) slots
    | None => group_from (S i) elements (groups ++ [(cid, [i])]) (<[cid := length groups]> slots)
    end
  end.

Definition group_by_collection (elements : list T) : list (str * list nat) := group_from 0 elements [] ∅.
End group.

(** A path of a [Lock] or [Unlock] call, resolved. *)
Record Pending : Type := { pd_path : str; pd_cid : str; pd_vault : option Vault; pd_item : option str }.

Definition unlock_pending (st : ServiceState) (p : str) : option Pending :=
  match resolve_path st p with
  | Some (PTBroken id) => Some {| pd_path := p; pd_cid := id; pd_vault := None; pd_item := None |}
  | Some (PTCollection id v) => Some {| pd_path := p; pd_cid := id; pd_vault := Some v; pd_item := None |}
  | Some (PTItem id v i) => Some {| pd_path := p; pd_cid := id; pd_vault := Some v; pd_item := Some i |}
  | None => None
  end.

Definition lock_pending (st : ServiceState) (p : str) : option Pending :=
  match resolve_path st p with
  | Some (PTCollection id v) => Some {| pd_path := p; pd_cid := id; pd_vault := Some v; pd_item := None |}
  | Some (PTItem id v i) => Some {| pd_path := p; pd_cid := id; pd_vault := Some v; pd_item := Some i |}
  | Some (PTBroken _) | None => None
  end.

(** Whether the element names a collection, or an item that is there. *)
Definition names_something (v : Vault) (p : Pending) : bool :=
  match pd_item p with Some iid => has_item v iid | None => true end.

(** The loop of [unlock] over one group. *)
Definition judge_group (pending : list Pending) (idxs : list nat) (verdict : list (option bool)) : list (option bool) :=
  match idxs with
  | [] => verdict
  | i0 :: _ =>
    match pending !! i0 with
    | None => verdict
    | Some p0 =>
      match pd_vault p0 with
      | None => fold_left (fun verdict i => <[i := Some true]> verdict) idxs verdict
      | Some v =>
        fold_left (fun verdict i =>
          match pending !! i with
          | Some p => if names_something v p then <[i := Some (is_locked v)]> verdict else verdict
          | None => verdict
          end) idxs verdict
      end
    end
  end.

(** Reassembling the reply in the request's own order. *)
Fixpoint reassemble (l : list (Pending * option bool)) (unlocked collections : list str) (seen : gset str)
    (requested : list str) : list str * list str * list str :=
  match l with
  | [] => (unlocked, collections, requested)
  | (p, None) :: l => reassemble l unlocked collections seen requested
  | (p, Some false) :: l => reassemble l (unlocked ++ [pd_path p]) collections seen requested
  | (p, Some true) :: l =>
    if bool_decide (pd_cid p ∈ seen) then reassemble l unlocked collections seen (requested ++ [pd_path p])
    else reassemble l unlocked (collections ++ [pd_cid p]) ({[ pd_cid p ]} ∪ seen) (requested ++ [pd_path p])
  end.

Definition judge (st : ServiceState) (objects : list str) : list str * list str * list str :=
  let pending := omap (unlock_pending st) objects in
  let verdict := fold_left (fun verdict g => judge_group pending (snd g) verdict)
                           (group_by_collection pd_cid pending) (repeat None (length pending)) in
  reassemble (zip pending verdict) [] [] ∅ [].

(** The loop of [lock] over the groups: the answered elements, the collections
    that changed, and the state. *)
Definition lock_group (pending : list Pending) (g : str * list nat) (acc : list bool * list str * ServiceState)
  : list bool * list str * ServiceState :=
  let '(cid, idxs) := g in
  let '(answered, changed, st) := acc in
  match idxs with
  | [] => acc
  | i0 :: _ =>
    match (let! p0 := pending !! i0 in pd_vault p0) with
    | None => acc
    | Some v =>
      let '(answered, any) :=
        fold_left (fun '(answered, any) i =>
          match pending !! i with
          | Some p => if names_something v p then (<[i := true]> answered, true) else (answered, any)
          | None => (answered, any)
          end) idxs (answered, false) in
      if any && negb (is_locked v) then (answered, changed ++ [cid], put_vault st cid (lock v))
      else (answered, changed, st)
    end
  end.

Definition lock_objects (st : ServiceState) (objects : list str) : list str * list str * ServiceState :=
  let pending := omap (lock_pending st) objects in
  let '(answered, changed, st) :=
    fold_left (fun acc g => lock_group pending g acc) (group_by_collection pd_cid pending)
              (repeat false (length pending), [], st) in
  (omap (fun '(p, keep) => if keep : bool then Some (pd_path p) else None) (zip pending answered), changed, st).

Inductive CollectionRef : Type := RefId (id : str) | RefAlias (name : str).

(** [Collection::id] and [CollectionAdmin::id]. *)
Definition collection_id (target : CollectionRef) (st : ServiceState) : result str BusError :=
  match target with
  | RefId id =>
    if bool_decide (is_Some (collections st !! id)) || bool_decide (is_Some (broken st !! id))
    then Ok id else Err ENoSuchObject
  | RefAlias name =>
    match alias_target st name with
    | Ok (Some id) => Ok id
    | Ok None => Err ENoSuchObject
    | Err e => Err (failed (lit "alias table is unreadable: " ++ e))
    end
  end.

Section service.
Context `{Env} `{Prims} `{VaultCodec} `{AliasText} `{SessionPrims} `{Bus}.

(** ** [org.freedesktop.Secret.Service] *)

Definition session_quota (st : ServiceState) (owner : str) : result unit BusError :=
  map_err error_from_quota (check_session_quota st owner).

(** The key exchange of [open_session]. *)
Definition open_keys (algo : str) (input : ovalue) : handler (SessionCipher * ovalue) BusError :=
  if str_eqb algo ALGORITHM_PLAIN then hret (Plain, value_of_string [])
  else if str_eqb algo ALGORITHM_DH then
    let* peer := require (ok_or (value_bytes input) (invalid_args (lit "input must be a byte array"))) in
    let* kp := on_world generate in
    let* cipher := require (map_err (fun e => invalid_args (session_text e)) (from_dh kp peer)) in
    hret (cipher, value_of_bytes (public kp))
  else herr (not_supported (lit "unsupported algorithm '" ++ algo ++ lit "'")).

Definition new_session_path : handler str BusError :=
  let* st := lock_state in
  let n := next_u64 (next_session st) in
  let* _ := put_state (with_sessions st (sessions st) n) in
  let* suffix := on_world (random_bytes 8) in
  or_panic (session_path path_try_from n suffix).

Definition insert_session (p owner : str) (cipher : SessionCipher) : handler unit BusError :=
  let* st := lock_state in
  put_state (with_sessions st (<[p := {| se_owner := owner; se_cipher := cipher |}]> (sessions st)) (next_session st)).

Definition remove_session {E} (p : str) : handler unit E :=
  let* st := lock_state in
  put_state (with_sessions st (delete p (sessions st)) (next_session st)).

(** The section that re-checks the quota and records the session. *)
Definition admit_session (owner : str) (cipher : SessionCipher) : handler str BusError :=
  let* st := lock_state in
  let* _ := require (session_quota st owner) in
  let* p := new_session_path in
  let* _ := insert_session p owner cipher in
  hret p.

(** Undo on a failed export. *)
Definition export_or {A} (p : str) (i : iface) (undo : handler unit BusError) (k : handler A BusError)
  : handler A BusError :=
  fun c => match export p i c with
           | (Some (Ok _), c) => k c
           | (Some (Err e), c) => (let* _ := undo in herr (EZBus e)) c
           | (None, c) => (None, c)
           end.

Definition open_session (sender : option str) (algo : str) (input : ovalue) : handler (ovalue * str) BusError :=
  let* owner := require (require_sender sender) in
  let* st := lock_state in
  let* _ := require (session_quota st owner) in
  let* '(cipher, output) := open_keys algo input in
  let* p := admit_session owner cipher in
  export_or p ISession (remove_session p)
    (let* output := require (map_err failed (value_to_owned output)) in hret (output, p)).

Definition service_search_items (attrs : gmap str str) : handler (list str * list str) BusError :=
  if MAX_SEARCH_ATTRIBUTES <? Z.of_nat (size attrs) then herr (too_many (lit "attributes") MAX_SEARCH_ATTRIBUTES)
  else
    let* st := lock_state in
    let '(unlocked, locked) := search_all st attrs in
    let* unlocked := or_panic (mapM (fun '(c, i) => pitem c i) unlocked) in
    let* locked := or_panic (mapM (fun '(c, i) => pitem c i) locked) in
    hret (unlocked, locked).

Definition read_alias (name : str) : handler str BusError :=
  let* st := lock_state in
  match alias_target st name with
  | Ok (Some id) => or_panic (pcollection id)
  | Ok None => hret ROOT
  | Err e => herr (failed (lit "alias table is unreadable: " ++ e))
  end.

(** The requests of one collection, in the order they first name it. *)
Definition wanted : Type := list (str * list (str * str) * Vault).

Fixpoint collect_wanted (st : ServiceState) (items : list str) (w : wanted) (group : gmap str nat) : wanted :=
  match items with
  | [] => w
  | p :: items =>
    match resolve_path st p with
    | Some (PTItem id v item) =>
      match group !! id with
      | Some slot => collect_wanted st items (alter (fun '(id, l, v) => (id, l ++ [(p, item)], v)) slot w) group
      | None => collect_wanted st items (w ++ [(id, [(p, item)], v)]) (<[id := length w]> group)
      end
    | _ => collect_wanted st items w group
    end
  end.

(** What is to be encrypted: path, secret and content type. *)
Definition plan_of (w : wanted) : list (str * bytes * str) :=
  flat_map (fun '(_, l, v) =>
    omap (fun '(p, iid) => match item v iid with
                           | Ok i => Some (p, secret i, content_type i)
                           | Err _ => None
                           end) l) w.

Fixpoint encrypt_plan (session : str) (cipher : SessionCipher) (plan : list (str * bytes * str))
    (out : gmap str SecretStruct) : handler (gmap str SecretStruct) BusError :=
  match plan with
  | [] => hret out
  | (p, sec, ct) :: plan =>
    let* '(parameters, value) := on_world (encrypt cipher sec) in
    encrypt_plan session cipher plan
      (<[p := {| ss_session := session; ss_parameters := parameters; ss_value := value; ss_content_type := ct |}]> out)
  end.

Definition get_secrets (items : list str) (session : str) (sender : option str) (at_ : Z)
  : handler (gmap str SecretStruct) BusError :=
  if MAX_GET_SECRETS_ITEMS <? zlen items then herr (too_many (lit "items") MAX_GET_SECRETS_ITEMS)
  else
    let* who := require (require_sender sender) in
    let* st := lock_state in
    let* cipher := require (map_err error_from_quota (session_cipher st session who)) in
    let* _ := touch_state at_ in
    encrypt_plan session cipher (plan_of (collect_wanted st items [] ∅)) ∅.

Definition set_alias (name collection : str) : handler unit BusError :=
  let* _ := require (map_err error_from_alias (check_alias_name name)) in
  let clearing := str_eqb collection ROOT in
  let* st := lock_state in
  let* outcome := on_world (fun w =>
    let '(ph, s, w) :=
      update_aliases (set_alias_edit name clearing
                        (fun s => resolve_collection (set_alias_table (sh_rest s) (sh_aliases s)) collection))
                     Refuse (Shared st (vault_dir st) (aliases st)) w in
    (Some (ph, sh_aliases s), w)) in
  let '(ph, table) := outcome in
  let* _ := put_state (set_alias_table st table) in
  match ph with
  | Finished Committed =>
    if clearing then unregister_alias name else with_zbus (register_alias name)
  | Finished (Rejected e) => herr (error_from_alias e)
  | Finished (Unusable e) =>
    herr (failed (lit "alias table is unreadable (" ++ e ++ lit "); refusing to replace it"))
  | Finished (NotWritten e) => herr (failed (io_text e))
  | _ => or_panic None
  end.

(** Recording and exporting a prompt, in [unlock], [create_collection] and
    [Collection::delete]. *)
Definition new_prompt_path : handler str BusError :=
  let* st := lock_state in
  let n := next_u64 (next_prompt st) in
  let* _ := put_state (with_prompts st (prompt_owners st) n) in
  let* suffix := on_world (random_bytes 8) in
  or_panic (prompt_path path_try_from n suffix).

Definition insert_prompt (p owner : str) : handler unit BusError :=
  let* st := lock_state in
  put_state (with_prompts st (<[p := owner]> (prompt_owners st)) (next_prompt st)).

Definition remove_prompt {E} (p : str) : handler unit E :=
  let* st := lock_state in
  put_state (with_prompts st (delete p (prompt_owners st)) (next_prompt st)).

Definition keep_prompt {E} (p : str) (work : PromptWork) : handler unit E :=
  fun c => (Some (Ok tt), Conn (cn_daemon c) (cn_world c) (cn_objects c) (<[p := work]> (cn_prompts c)) (cn_signals c)).

(** The section that checks the quota and records the prompt. *)
Definition admit_prompt (owner : str) : handler str BusError :=
  let* st := lock_state in
  let* _ := require (map_err error_from_quota (check_prompt_quota st owner)) in
  let* p := new_prompt_path in
  let* _ := insert_prompt p owner in
  hret p.

Definition raise_prompt (owner : str) (work : PromptWork) : handler str BusError :=
  let* p := admit_prompt owner in
  export_or p IPrompt (remove_prompt p) (let* _ := keep_prompt p work in hret p).

Definition service_unlock (objects : list str) (sender : option str) : handler (list str * str) BusError :=
  let* _ := require (check_object_count (zlen objects)) in
  let* owner := require (require_sender sender) in
  let* st := lock_state in
  let '(unlocked, collections, requested) := judge st objects in
  match collections with
  | [] => hret (unlocked, ROOT)
  | _ =>
    let* p := raise_prompt owner (WUnlock collections requested) in
    hret (unlocked, p)
  end.

Definition service_lock (objects : list str) : handler (list str * str) BusError :=
  let* _ := require (check_object_count (zlen objects)) in
  let* st := lock_state in
  let '(locked, changed, st) := lock_objects st objects in
  let* _ := put_state st in
  let* _ := for_each changed notify_collection_changed in
  hret (locked, ROOT).

Definition prop_string (props : gmap str ovalue) (key : str) : result (option str) BusError :=
  match props !! key with
  | None => Ok None
  | Some v => match value_string v with
              | Some s => Ok (Some s)
              | None => Err (invalid_args (key ++ lit " must be a string"))
              end
  end.

Definition prop_attributes (props : gmap str ovalue) (key : str) : result (gmap str str) BusError :=
  match props !! key with
  | None => Ok ∅
  | Some v =>
    match value_attributes v with
    | None => Err (invalid_args (key ++ lit " must be a{ss}"))
    | Some m =>
      let? _ := map_err error_from_fdo (check_attributes (Z.of_nat (size m)) (hash_iter m)) in Ok m
    end
  end.

Definition service_create_collection (props : gmap str ovalue) (alias : str) (sender : option str)
  : handler (str * str) BusError :=
  let* l := require (prop_string props (lit "org.freedesktop.Secret.Collection.Label")) in
  let lbl := default (lit "Unnamed") l in
  if MAX_LABEL <? str_len lbl
  then herr (invalid_args (lit "label is too large; at most " ++ dec MAX_LABEL ++ lit " bytes"))
  else
    let* name := (match alias with
                  | [] => hret None
                  | _ => let* _ := require (map_err error_from_alias (check_alias_name alias)) in hret (Some alias)
                  end) in
    let* st := lock_state in
    let raise :=
      let* owner := require (require_sender sender) in
      let* p := raise_prompt owner (WCreateCollection lbl name) in
      hret (ROOT, p) in
    match name with
    | None => raise
    | Some a =>
      match alias_target st a with
      | Ok (Some existing) => let* p := or_panic (pcollection existing) in hret (p, ROOT)
      | Ok None => raise
      | Err e =>
        herr (failed (lit "alias table is unreadable (" ++ e
                      ++ lit "); cannot tell whether that alias is already taken"))
      end
    end.

Definition service_collections : handler (list str) BusError :=
  let* st := lock_state in
  or_panic (mapM pcollection (btree_keys (collections st) ++ btree_keys (broken st))).
End service.

(** ** [org.freedesktop.Secret.Collection] *)

Section collection.
Context `{Env} `{Prims} `{VaultCodec} `{AliasText} `{SessionPrims} `{Bus}.
Context (target : CollectionRef).

(** [Collection::target]: the id and the vault, [None] for a broken one. *)
Definition collection_target : handler (str * option Vault) BusError :=
  let* st := lock_state in
  let* id := require (collection_id target st) in
  hret (id, vault st id).

(** A property: what [f] says of the target, [None] when there is none. *)
Definition collection_property {A} (f : option (str * option Vault) -> A) : handler A BusError :=
  fun c => match collection_target c with
           | (Some (Ok t), c) => (Some (Ok (f (Some t))), c)
           | (Some (Err _), c) => (Some (Ok (f None)), c)
           | (None, c) => (None, c)
           end.

Definition target_locked (t : option (str * option Vault)) : bool :=
  match t with Some (_, Some v) => is_locked v | _ => true end.

Definition collection_locked : handler bool BusError := collection_property target_locked.

Definition collection_delete (sender : option str) : handler str BusError :=
  let* '(id, v) := collection_target in
  if target_locked (Some (id, v)) then herr EIsLocked
  else
    let* owner := require (require_sender sender) in
    raise_prompt owner (WDeleteCollection id).

Definition collection_search_items (attrs : gmap str str) : handler (list str) BusError :=
  if MAX_SEARCH_ATTRIBUTES <? Z.of_nat (size attrs) then herr (too_many (lit "attributes") MAX_SEARCH_ATTRIBUTES)
  else
    let* '(id, v) := collection_target in
    match v with
    | None => hret []
    | Some v => or_panic (mapM (pitem id) (search_collection v attrs))
    end.

(** The secret a client sent, decrypted and measured. *)
Definition receive_secret (cipher : SessionCipher) (secret : SecretStruct) : result bytes BusError :=
  let? plaintext := map_err (fun e => failed (session_text e)) (decrypt cipher (ss_parameters secret) (ss_value secret)) in
  match cap_check CapSecret (zlen plaintext) with
  | Some over => Err (invalid_args (cap_message over))
  | None => Ok plaintext
  end.

Definition check_ciphertext (secret : SecretStruct) : result unit BusError :=
  if MAX_ITEM_CIPHERTEXT <? zlen (ss_value secret)
  then Err (invalid_args (lit "secret is too large; at most " ++ dec MAX_ITEM_SECRET ++ lit " bytes per item"))
  else Ok tt.

Definition create_item (props : gmap str ovalue) (secret : SecretStruct) (replace : bool) (sender : option str) (at_ : Z)
  : handler (str * str) BusError :=
  let* l := require (prop_string props (lit "org.freedesktop.Secret.Item.Label")) in
  let lbl := default [] l in
  let* _ := require (map_err error_from_fdo (check_item_label lbl)) in
  let* _ := require (map_err error_from_fdo (check_content_type (ss_content_type secret))) in
  let* attrs := require (prop_attributes props (lit "org.freedesktop.Secret.Item.Attributes")) in
  let* st := lock_state in
  let* id := require (collection_id target st) in
  let* who := require (require_sender sender) in
  let* cipher := require (map_err error_from_quota (session_cipher st (ss_session secret) who)) in
  let* _ := require (check_ciphertext secret) in
  let* v := require (ok_or (vault st id) EIsLocked) in
  if is_locked v then herr EIsLocked
  else
    let* plaintext := require (receive_secret cipher secret) in
    let* r := on_vault id v (insert_item lbl attrs plaintext (ss_content_type secret) replace) in
    let* '(iid, replaced) := require (map_err error_from_vault r) in
    let* _ := touch_state at_ in
    let* p := or_panic (pitem id iid) in
    let* _ := (if replaced : bool then hret tt else with_zbus (register_item id iid)) in
    let* cp := or_panic (pcollection id) in
    let* _ := emit_signal (if replaced : bool then SItemChanged cp p else SItemCreated cp p) in
    hret (p, ROOT).

Definition collection_items : handler (list str) BusError :=
  fun c => match collection_target c with
           | (Some (Ok (id, Some v)), c) => or_panic (mapM (pitem id) (item_ids v)) c
           | (None, c) => (None, c)
           | (_, c) => hret [] c
           end.

Definition collection_label : handler str BusError :=
  collection_property (fun t => match t with
                     | Some (_, Some v) => label (header v)
                     | Some (id, None) => id
                     | None => []
                     end).

Definition collection_created : handler Z BusError :=
  collection_property (fun t => match t with Some (_, Some v) => created (header v) | _ => 0 end).
Definition collection_modified : handler Z BusError :=
  collection_property (fun t => match t with Some (_, Some v) => modified (header v) | _ => 0 end).

Definition collection_set_label (l : str) : handler unit FdoError :=
  let* st := lock_state in
  let* id := require (map_err (fun _ => FUnknownObject (lit "no such collection")) (collection_id target st)) in
  let* v := require (ok_or (vault st id) (vault_error_to_fdo Locked)) in
  let* r := on_vault id v (set_label l) in
  require (map_err vault_error_to_fdo r).

(** *** [org.secret_manager.Collection1] *)

(** The two loops of [delete_items]: [run] is the collection whose lock is
    held. *)
Fixpoint check_batch (id : str) (run : option (str * Vault)) (resolved : list (str * str * Vault)) (seen : gset str)
    (ids : list str) : result (list str) BusError :=
  match resolved with
  | [] => Ok ids
  | (cid, iid, v0) :: resolved =>
    let v := match run with
             | Some (held, v) => if bool_decide (cid = held) then v else v0
             | None => v0
             end in
    if negb (has_item v iid) then Err ENoSuchObject
    else if negb (bool_decide (cid = id)) then Err (invalid_args (lit "every item must belong to this collection"))
    else if bool_decide (iid ∈ seen) then check_batch id (Some (cid, v)) resolved seen ids
    else check_batch id (Some (cid, v)) resolved ({[ iid ]} ∪ seen) (ids ++ [iid])
  end.

Fixpoint resolve_batch (st : ServiceState) (items : list str) : result (list (str * str * Vault)) BusError :=
  match items with
  | [] => Ok []
  | p :: items =>
    match resolve_path st p with
    | Some (PTItem id v i) => let? l := resolve_batch st items in Ok ((id, i, v) :: l)
    | _ => Err ENoSuchObject
    end
  end.

Definition collection_delete_items (items : list str) (at_ : Z) : handler unit BusError :=
  if MAX_DELETE_ITEMS <? zlen items then herr (too_many (lit "items") MAX_DELETE_ITEMS)
  else
    let* st := lock_state in
    let* id := require (collection_id target st) in
    let* resolved := require (resolve_batch st items) in
    let* ids := require (check_batch id None resolved ∅ []) in
    let* st := lock_state in
    let* v := require (ok_or (vault st id) EIsLocked) in
    if is_locked v then herr EIsLocked
    else
      match ids with
      | [] => hret tt
      | _ =>
        let* r := on_vault id v (delete_items ids) in
        let* _ := require (map_err error_from_vault r) in
        let* _ := touch_state at_ in
        let* _ := for_each ids (fun iid => let* p := or_panic (pitem id iid) in unexport p IItem) in
        let* cp := or_panic (pcollection id) in
        for_each ids (fun iid => let* p := or_panic (pitem id iid) in emit_signal (SItemDeleted cp p))
      end.
End collection.

(** ** [org.freedesktop.Secret.Item] *)

Section item.
Context `{Env} `{Prims} `{VaultCodec} `{AliasText} `{SessionPrims} `{Bus}.
(** The object: its collection and its id. *)
Context (cid iid : str).

Definition with_item {A E} (f : Item -> A) : handler (option A) E :=
  let* st := lock_state in
  hret (let! v := vault st cid in
        match item v iid with Ok i => Some (f i) | Err _ => None end).

Definition item_update (f : Item -> Item) : handler unit FdoError :=
  let* st := lock_state in
  let* v := require (ok_or (vault st cid) (FUnknownObject (lit "no such collection"))) in
  let* r := on_vault cid v (update_item iid f) in
  require (map_err vault_error_to_fdo r).

Definition item_delete (at_ : Z) : handler str BusError :=
  let* st := lock_state in
  let* v := require (ok_or (vault st cid) ENoSuchObject) in
  let* r := on_vault cid v (delete_item iid) in
  let* _ := require (map_err error_from_vault r) in
  let* _ := touch_state at_ in
  let* p := or_panic (pitem cid iid) in
  let* _ := unexport p IItem in
  let* cp := or_panic (pcollection cid) in
  let* _ := emit_signal (SItemDeleted cp p) in
  hret ROOT.

Definition get_secret (session : str) (sender : option str) (at_ : Z) : handler SecretStruct BusError :=
  let* st := lock_state in
  let* who := require (require_sender sender) in
  let* cipher := require (map_err error_from_quota (session_cipher st session who)) in
  let* v := require (ok_or (vault st cid) ENoSuchObject) in
  let* i := require (map_err error_from_vault (item v iid)) in
  let* '(parameters, value) := on_world (encrypt cipher (secret i)) in
  let* _ := touch_state at_ in
  hret {| ss_session := session; ss_parameters := parameters; ss_value := value; ss_content_type := content_type i |}.

Definition set_item_secret (sec : bytes) (ct : str) (i : Item) : Item :=
  {| i_id := i_id i; i_label := i_label i; attributes := attributes i; secret := sec; content_type := ct;
     i_created := i_created i; i_modified := i_modified i |}.

Definition set_secret (secret : SecretStruct) (sender : option str) (at_ : Z) : handler unit BusError :=
  let* _ := require (map_err error_from_fdo (check_content_type (ss_content_type secret))) in
  let* st := lock_state in
  let* who := require (require_sender sender) in
  let* cipher := require (map_err error_from_quota (session_cipher st (ss_session secret) who)) in
  let* _ := require (check_ciphertext secret) in
  let* v := require (ok_or (vault st cid) ENoSuchObject) in
  if is_locked v then herr EIsLocked
  else
    let* plaintext := require (receive_secret cipher secret) in
    let* r := on_vault cid v (update_item iid (set_item_secret plaintext (ss_content_type secret))) in
    let* _ := require (map_err error_from_vault r) in
    let* _ := touch_state at_ in
    let* cp := or_panic (pcollection cid) in
    let* p := or_panic (pitem cid iid) in
    emit_signal (SItemChanged cp p).

Definition item_locked : handler bool BusError :=
  let* o := with_item (fun _ => false) in hret (default true o).
Definition item_attributes : handler (gmap str str) BusError :=
  let* o := with_item attributes in hret (default ∅ o).
Definition item_label : handler str BusError :=
  let* o := with_item i_label in hret (default [] o).
Definition item_created : handler Z BusError :=
  let* o := with_item i_created in hret (default 0 o).
Definition item_modified : handler Z BusError :=
  let* o := with_item i_modified in hret (default 0 o).

Definition set_item_attributes (m : gmap str str) (i : Item) : Item :=
  {| i_id := i_id i; i_label := i_label i; attributes := m; secret := secret i; content_type := content_type i;
     i_created := i_created i; i_modified := i_modified i |}.
Definition set_item_label (l : str) (i : Item) : Item :=
  {| i_id := i_id i; i_label := l; attributes := attributes i; secret := secret i; content_type := content_type i;
     i_created := i_created i; i_modified := i_modified i |}.

Definition item_set_attributes (m : gmap str str) : handler unit FdoError :=
  let* _ := require (check_attributes (Z.of_nat (size m)) (hash_iter m)) in
  item_update (set_item_attributes m).

Definition item_set_label (l : str) : handler unit FdoError :=
  let* _ := require (check_item_label l) in
  item_update (set_item_label l).
End item.

(** ** [org.freedesktop.Secret.Session] *)

Definition session_close (p : str) (sender : option str) : handler unit BusError :=
  let* who := require (require_sender sender) in
  let* st := lock_state in
  match sessions st !! p with
  | Some e =>
    if negb (bool_decide (se_owner e = who)) then herr ENoSession
    else
      let* _ := remove_session p in
      unexport p ISession
  | None => herr ENoSession
  end.

(** ** Clients that leave *)

(** One departure seen by [watch_clients_once]: [recorded] is what the
    reclaimed prompts had opened ([Prompt.reclaim_prompt]). *)
Definition relock_one `{Env} `{Bus} {E} (id : str) : handler unit E :=
  let* st := lock_state in
  match vault st id with
  | Some v =>
    if is_locked v then hret tt
    else let* _ := put_state (put_vault st id (lock v)) in notify_collection_changed id
  | None => hret tt
  end.

Definition client_left `{Env} `{Bus} {E} (name : str) (recorded : list str) : handler unit E :=
  let* st := lock_state in
  let gone := map fst (List.filter (fun kv => str_eqb (se_owner (snd kv)) name) (btree_iter (sessions st))) in
  let reclaimed := map fst (List.filter (fun kv => str_eqb (snd kv) name) (btree_iter (prompt_owners st))) in
  let st1 := with_sessions st (fold_left (fun m p => delete p m) gone (sessions st)) (next_session st) in
  let* _ := put_state (with_prompts st1 (fold_left (fun m p => delete p m) reclaimed (prompt_owners st1)) (next_prompt st1)) in
  let* _ := for_each recorded relock_one in
  let* _ := for_each gone (fun p => unexport p ISession) in
  for_each reclaimed (fun p => unexport p IPrompt).

(** ** The calls *)

Section dispatch.
Context `{Env} `{Prims} `{VaultCodec} `{AliasText} `{SessionPrims} `{Bus}.

(** One call on an exported object, with the sender and the time. *)
Inductive bus_method : Type :=
| MOpenSession (algo : str) (input : ovalue)
| MSearchItems (attrs : gmap str str)
| MReadAlias (name : str)
| MGetSecrets (items : list str) (session : str)
| MSetAlias (name collection : str)
| MUnlock (objects : list str)
| MLock (objects : list str)
| MCreateCollection (props : gmap str ovalue) (alias : str)
| MCollections
| MCollectionDelete (target : CollectionRef)
| MCollectionSearch (target : CollectionRef) (attrs : gmap str str)
| MCreateItem (target : CollectionRef) (props : gmap str ovalue) (secret : SecretStruct) (replace : bool)
| MCollectionItems (target : CollectionRef)
| MCollectionLocked (target : CollectionRef)
| MSetCollectionLabel (target : CollectionRef) (label : str)
| MDeleteItems (target : CollectionRef) (items : list str)
| MItemDelete (cid iid : str)
| MGetSecret (cid iid session : str)
| MSetSecret (cid iid : str) (secret : SecretStruct)
| MSetAttributes (cid iid : str) (attrs : gmap str str)
| MSetItemLabel (cid iid label : str)
| MItemAttributes (cid iid : str)
| MCloseSession (path : str).

Definition dispatch (m : bus_method) (sender : option str) (at_ : Z) (c : conn) : conn :=
  match m with
  | MOpenSession algo input => snd (open_session sender algo input c)
  | MSearchItems attrs => snd (service_search_items attrs c)
  | MReadAlias name => snd (read_alias name c)
  | MGetSecrets items session => snd (get_secrets items session sender at_ c)
  | MSetAlias name collection => snd (set_alias name collection c)
  | MUnlock objects => snd (service_unlock objects sender c)
  | MLock objects => snd (service_lock objects c)
  | MCreateCollection props alias => snd (service_create_collection props alias sender c)
  | MCollections => snd (service_collections c)
  | MCollectionDelete target => snd (collection_delete target sender c)
  | MCollectionSearch target attrs => snd (collection_search_items target attrs c)
  | MCreateItem target props secret replace => snd (create_item target props secret replace sender at_ c)
  | MCollectionItems target => snd (collection_items target c)
  | MCollectionLocked target => snd (collection_locked target c)
  | MSetCollectionLabel target l => snd (collection_set_label target l c)
  | MDeleteItems target items => snd (collection_delete_items target items at_ c)
  | MItemDelete cid iid => snd (item_delete cid iid at_ c)
  | MGetSecret cid iid session => snd (get_secret cid iid session sender at_ c)
  | MSetSecret cid iid secret => snd (set_secret cid iid secret sender at_ c)
  | MSetAttributes cid iid attrs => snd (item_set_attributes cid iid attrs c)
  | MSetItemLabel cid iid l => snd (item_set_label cid iid l c)
  | MItemAttributes cid iid => snd (item_attributes cid iid c)
  | MCloseSession p => snd (session_close p sender c)
  end.

(** The arguments as the wire has them: text is valid UTF-8. *)
Definition method_wf (m : bus_method) : Prop :=
  match m with
  | MCreateItem _ _ secret _ | MSetSecret _ _ secret => str_wf (ss_content_type secret)
  | MSetCollectionLabel _ l | MSetItemLabel _ _ l => str_wf l
  | MSetAttributes _ _ attrs => attrs_wf attrs
  | _ => True
  end.
End dispatch.
