(* ===== verification/Batch.v ===== *)
(** * Batches of paths ([Lock] and [Unlock] in [src/dbus/service.rs])

    The two calls take each collection's lock once per batch, by grouping the
    paths first.  Here: what the grouping returns, and that the batched loops
    answer as walking the paths one at a time would. *)
From S2P Require Import Prelude Text Env Crypto Codec Format Sanitize Names Files Sweep Store Aliases Session State Protocol Daemon Bus Handlers.

(** ** First appearances *)

Definition firsts (l : list str) : list str :=
  fold_left (fun acc k => if bool_decide (k ∈ acc) then acc else acc ++ [k]) l [].

Lemma firsts_snoc l k : firsts (l ++ [k]) = if bool_decide (k ∈ firsts l) then firsts l else firsts l ++ [k].
Proof. unfold firsts. by rewrite fold_left_app. Qed.

Lemma elem_of_firsts l k : k ∈ firsts l <-> k ∈ l.
Proof.
  revert k. induction l as [|x l IH] using rev_ind; intros k; [done|]. rewrite firsts_snoc, elem_of_app, list_elem_of_singleton.
  case_bool_decide as Hx; [|rewrite elem_of_app, list_elem_of_singleton]; rewrite IH in *; [|tauto].
  split; [tauto|]. intros [?| ->]; done.
Qed.

Lemma NoDup_firsts l : NoDup (firsts l).
Proof.
  induction l as [|x l IH] using rev_ind; [constructor|]. rewrite firsts_snoc. case_bool_decide as Hx; [done|].
  apply NoDup_app. split_and!; [done| |apply NoDup_singleton]. intros k Hk ->%list_elem_of_singleton. done.
Qed.

(** ** The groups *)

Section groups.
Context {T : Type} (key : T -> str).
Implicit Types (l : list T).

(** The positions in [l] of the elements of one collection. *)
Definition positions (cid : str) l : list nat :=
  List.filter (fun i => match l !! i with Some e => str_eqb (key e) cid | None => false end) (seq 0 (length l)).

Lemma positions_snoc cid l e :
  positions cid (l ++ [e]) = positions cid l ++ (if str_eqb (key e) cid then [length l] else []).
Proof.
  unfold positions. rewrite length_app, seq_app, List.filter_app. cbn [length seq List.filter Nat.add].
  rewrite list_lookup_middle by done. f_equal.
  apply List.filter_ext_in. intros i Hi%in_seq. by rewrite lookup_app_l by lia.
Qed.

Lemma elem_of_positions cid l i : i ∈ positions cid l <-> exists e, l !! i = Some e /\ key e = cid.
Proof.
  unfold positions. rewrite list_elem_of_In, List.filter_In, in_seq. destruct (l !! i) as [e|] eqn:E.
  - pose proof (lookup_lt_Some _ _ _ E). rewrite str_eqb_eq. split; [intros [_ ?]; eauto|].
    intros (x & [= <-] & ?). split; [lia|done].
  - split; [by intros [_ ?]|by intros (? & ? & _)].
Qed.

Lemma NoDup_positions cid l : NoDup (positions cid l).
Proof. apply NoDup_ListNoDup, List.NoDup_filter, NoDup_ListNoDup, NoDup_seq. Qed.

Definition groups_of l : list (str * list nat) := map (fun cid => (cid, positions cid l)) (firsts (map key l)).

(** Appending to the group at [slot] is appending to the positions of its
    collection. *)
Lemma groups_push l e slot : firsts (map key l) !! slot = Some (key e) ->
  alter (fun g => (fst g, snd g ++ [length l])) slot (groups_of l) = groups_of (l ++ [e]).
Proof.
  intros Hs. unfold groups_of. rewrite map_app. cbn [map]. rewrite firsts_snoc, bool_decide_true by (by eapply list_elem_of_lookup_2).
  apply list_eq. intros i. rewrite list_lookup_alter, !list_lookup_fmap. case_decide as Hi; [subst i|].
  - rewrite Hs. cbn. rewrite positions_snoc. unfold str_eqb. by rewrite bool_decide_true.
  - destruct (firsts (map key l) !! i) as [cid|] eqn:Ei; [|done]. cbn. rewrite positions_snoc.
    unfold str_eqb. rewrite bool_decide_false, app_nil_r; [done|]. intros <-. apply Hi.
    by apply (NoDup_lookup _ _ _ _ (NoDup_firsts _) Hs Ei).
Qed.

Lemma groups_new l e : key e ∉ map key l -> groups_of l ++ [(key e, [length l])] = groups_of (l ++ [e]).
Proof.
  intros Hn. unfold groups_of. rewrite map_app. cbn [map]. rewrite firsts_snoc, bool_decide_false by (by rewrite elem_of_firsts).
  rewrite map_app. cbn [map]. f_equal.
  - apply map_ext_in. intros cid Hc%list_elem_of_In. rewrite elem_of_firsts in Hc. rewrite positions_snoc. unfold str_eqb.
    rewrite bool_decide_false, app_nil_r; [done|]. by intros <-.
  - rewrite positions_snoc. unfold str_eqb. rewrite bool_decide_true by done.
    assert (positions (key e) l = []) as ->; [|done]. apply elem_of_nil_inv. intros i (x & Hx & Hk)%elem_of_positions.
    apply Hn. rewrite <- Hk. apply list_elem_of_fmap. exists x. split; [done|]. by eapply list_elem_of_lookup_2.
Qed.

Lemma group_from_spec l rest slots :
  (forall cid slot, slots !! cid = Some slot <-> firsts (map key l) !! slot = Some cid) ->
  group_from key (length l) rest (groups_of l) slots = groups_of (l ++ rest).
Proof.
  revert l slots. induction rest as [|e rest IH]; intros l slots Hslots; cbn [group_from]; [by rewrite app_nil_r|].
  assert (S (length l) = length (l ++ [e])) as -> by (rewrite length_app; cbn; lia).
  assert (Happ : l ++ e :: rest = (l ++ [e]) ++ rest) by (by rewrite <- app_assoc). rewrite Happ.
  destruct (slots !! key e) as [slot|] eqn:Es.
  - apply Hslots in Es. rewrite (groups_push l e slot Es). apply IH. intros cid s. rewrite Hslots, map_app. cbn [map].
    rewrite firsts_snoc, bool_decide_true by (by eapply list_elem_of_lookup_2). done.
  - assert (Hn : key e ∉ firsts (map key l)).
    { intros [s Hs]%list_elem_of_lookup_1. apply Hslots in Hs. congruence. }
    rewrite (groups_new l e) by (by rewrite <- elem_of_firsts). apply IH. intros cid s.
    rewrite map_app. cbn [map]. rewrite firsts_snoc, bool_decide_false by done. unfold groups_of at 1. rewrite length_map.
    destruct (decide (cid = key e)) as [->|Hne].
    + rewrite lookup_insert_eq. split; [intros [= <-]; by rewrite list_lookup_middle|].
      intros [[_ Hs]|[-> _]]%lookup_snoc_Some; [|done]. destruct Hn. by eapply list_elem_of_lookup_2.
    + rewrite lookup_insert_ne, Hslots by done. rewrite lookup_snoc_Some.
      split; [intros Hs; left; split; [by eapply lookup_lt_Some|done]|]. intros [[_ ?]|[_ ?]]; congruence.
Qed.

(** One group per collection, in order of first appearance, with its positions
    in order. *)
Lemma group_by_collection_spec l : group_by_collection key l = groups_of l.
Proof. apply (group_from_spec []). intros cid slot. by rewrite lookup_empty. Qed.
End groups.

(** ** Writing at positions *)

Definition write_at {B} (f : nat -> option B) (l : list B) (i : nat) : list B :=
  match f i with Some b => <[i := b]> l | None => l end.

Lemma length_writes {B} (f : nat -> option B) idxs (l : list B) : length (fold_left (write_at f) idxs l) = length l.
Proof.
  revert l. induction idxs as [|j idxs IH]; intros l; cbn; [done|]. rewrite IH. unfold write_at.
  destruct (f j); [by rewrite length_insert|done].
Qed.

Lemma lookup_writes {B} (f : nat -> option B) idxs (l : list B) i : (i < length l)%nat ->
  fold_left (write_at f) idxs l !! i
  = match f i with Some b => if bool_decide (i ∈ idxs) then Some b else l !! i | None => l !! i end.
Proof.
  revert l. induction idxs as [|j idxs IH]; intros l Hi; cbn [fold_left].
  { destruct (f i); [|done]. by rewrite bool_decide_false by apply not_elem_of_nil. }
  rewrite IH by (unfold write_at; destruct (f j); by rewrite ?length_insert). unfold write_at.
  destruct (decide (i = j)) as [->|Hne].
  - destruct (f j) as [b|]; [|done]. rewrite (bool_decide_true (j ∈ j :: idxs)) by (by left).
    case_bool_decide; [done|]. by apply list_lookup_insert_eq.
  - destruct (f i) as [b|].
    + rewrite (bool_decide_ext (i ∈ j :: idxs) (i ∈ idxs)) by (rewrite elem_of_cons; tauto).
      case_bool_decide; [done|]. destruct (f j); [|done]. by rewrite list_lookup_insert_ne.
    + destruct (f j); [|done]. by rewrite list_lookup_insert_ne.
Qed.

(** Every position is in some group, so writing group by group is writing
    everywhere. *)
Lemma writes_by_group {T B} (key : T -> str) (l : list T) (f : nat -> option B) (d : B) (g : T -> B) :
  (forall i e, l !! i = Some e -> default d (f i) = g e) ->
  fold_left (fun acc gr => fold_left (write_at f) (snd gr) acc) (groups_of key l) (repeat d (length l)) = map g l.
Proof.
  intros Hf. assert (forall gs acc, fold_left (fun acc gr => fold_left (write_at f) (snd gr) acc) gs acc
                                    = fold_left (write_at f) (flat_map snd gs) acc) as ->.
  { induction gs as [|[c idxs] gs IH]; intros acc; cbn; [done|]. by rewrite fold_left_app, <- IH. }
  apply list_eq. intros i. rewrite list_lookup_fmap. destruct (l !! i) as [e|] eqn:E.
  - pose proof (lookup_lt_Some _ _ _ E). rewrite lookup_writes by (by rewrite repeat_length).
    rewrite bool_decide_true.
    + rewrite lookup_repeat by done. change (g <$> Some e) with (Some (g e)). rewrite <- (Hf i e E). by destruct (f i).
    + apply list_elem_of_In, in_flat_map. exists (key e, positions key (key e) l). split.
      * apply list_elem_of_In. apply list_elem_of_fmap. exists (key e). split; [done|]. apply elem_of_firsts.
        apply list_elem_of_fmap. exists e. split; [done|]. by eapply list_elem_of_lookup_2.
      * apply list_elem_of_In, elem_of_positions. eauto.
  - apply lookup_ge_None_2. rewrite length_writes, repeat_length. by apply lookup_ge_None.
Qed.

(** ** [Unlock] *)

Definition pending_ok (st : ServiceState) (p : Pending) : Prop := pd_vault p = collections st !! pd_cid p.

Lemma resolve_path_vault st p t : resolve_path st p = Some t ->
  match t with
  | PTCollection id v => collections st !! id = Some v
  | PTBroken id => collections st !! id = None
  | PTItem id v _ => collections st !! id = Some v
  end.
Proof.
  unfold resolve_path. destruct (parse p) as [t'|]; [|done].
  destruct t' as [id|name|c i|a i]; try destruct (or_none _) as [id|]; try done;
    (destruct (collections st !! _) as [v|] eqn:E; [by intros [= <-]|]); try done; by case_bool_decide; intros [= <-].
Qed.

Lemma unlock_pending_ok st p q : unlock_pending st p = Some q -> pending_ok st q.
Proof.
  unfold unlock_pending. destruct (resolve_path st p) as [t|] eqn:E; [|done]. apply resolve_path_vault in E.
  destruct t; intros [= <-]; unfold pending_ok; cbn; by rewrite E.
Qed.

Lemma lock_pending_ok st p q : lock_pending st p = Some q -> exists v, pd_vault q = Some v /\ collections st !! pd_cid q = Some v.
Proof.
  unfold lock_pending. destruct (resolve_path st p) as [t|] eqn:E; [|done]. apply resolve_path_vault in E.
  destruct t; intros [= <-]; eexists; split; done.
Qed.

Definition elem_verdict (st : ServiceState) (p : Pending) : option bool :=
  match collections st !! pd_cid p with
  | None => Some true
  | Some v => if names_something v p then Some (is_locked v) else None
  end.

Lemma fold_left_ext {A B} (f g : A -> B -> A) (l : list B) (a : A) :
  (forall a b, b ∈ l -> f a b = g a b) -> fold_left f l a = fold_left g l a.
Proof.
  revert a. induction l as [|b l IH]; intros a Hfg; cbn; [done|]. rewrite Hfg by (by left). apply IH.
  intros. apply Hfg. by right.
Qed.

Lemma judge_group_writes st pending cid verdict : Forall (pending_ok st) pending ->
  judge_group pending (positions pd_cid cid pending) verdict
  = fold_left (write_at (fun i => let! p := pending !! i in let! b := elem_verdict st p in Some (Some b)))
              (positions pd_cid cid pending) verdict.
Proof.
  intros Hok. set (idxs := positions _ _ _).
  assert (Hidx : forall i, i ∈ idxs -> exists p, pending !! i = Some p /\ pd_cid p = cid /\ pd_vault p = collections st !! cid).
  { intros i (p & Hp & <-)%elem_of_positions. exists p. split_and!; try done. by eapply Forall_lookup_1 in Hok. }
  unfold judge_group. destruct idxs as [|i0 rest] eqn:Ei; [done|]. rewrite <- Ei in *.
  destruct (Hidx i0) as (p0 & Hp0 & _ & Hv0); [rewrite Ei; by left|]. rewrite Hp0, Hv0.
  destruct (collections st !! cid) as [v|] eqn:Ec; apply fold_left_ext; intros a i Hi;
    destruct (Hidx i Hi) as (p & Hp & Hcid & Hv); unfold write_at, elem_verdict; rewrite Hp, Hcid, Ec; [|done].
  by destruct (names_something v p).
Qed.

Lemma judge_spec st objects :
  judge st objects = reassemble (map (fun p => (p, elem_verdict st p)) (omap (unlock_pending st) objects)) [] [] ∅ [].
Proof.
  unfold judge. set (pending := omap _ objects). f_equal.
  assert (Hok : Forall (pending_ok st) pending).
  { apply Forall_forall. intros q (p & _ & Hq)%list_elem_of_omap. by eapply unlock_pending_ok. }
  rewrite group_by_collection_spec.
  rewrite (fold_left_ext _ (fun acc gr => fold_left (write_at (fun i =>
      let! p := pending !! i in let! b := elem_verdict st p in Some (Some b))) (snd gr) acc)).
  2: { intros a g (cid & -> & _)%list_elem_of_fmap. cbn [snd]. by apply judge_group_writes. }
  rewrite (writes_by_group pd_cid pending _ None (elem_verdict st)).
  - induction pending as [|p l IH]; cbn; [done|]. f_equal. apply IH. by inversion Hok.
  - intros i p ->. cbn. by destruct (elem_verdict st p).
Qed.

(** The collection a path needs unlocked, if it names something locked. *)
Definition locked_target (st : ServiceState) (p : str) : option str :=
  match resolve_path st p with
  | Some (PTBroken id) => Some id
  | Some (PTCollection id v) => if is_locked v then Some id else None
  | Some (PTItem id v i) => if has_item v i && is_locked v then Some id else None
  | None => None
  end.

Definition names_locked (st : ServiceState) (p : str) : bool := bool_decide (is_Some (locked_target st p)).

Lemma reassemble_spec (l : list (Pending * option bool)) u cs seen r : (forall k, k ∈ seen <-> k ∈ cs) ->
  reassemble l u cs seen r
  = (u ++ omap (fun '(p, b) => match b with Some false => Some (pd_path p) | _ => None end) l,
     fold_left (fun acc k => if bool_decide (k ∈ acc) then acc else acc ++ [k])
               (omap (fun '(p, b) => match b with Some true => Some (pd_cid p) | _ => None end) l) cs,
     r ++ omap (fun '(p, b) => match b with Some true => Some (pd_path p) | _ => None end) l).
Proof.
  revert u cs seen r. induction l as [|[p b] l IH]; intros u cs seen r Hs; cbn; [by rewrite !app_nil_r|].
  destruct b as [[]|]; cbn.
  - rewrite (bool_decide_ext (pd_cid p ∈ seen) (pd_cid p ∈ cs)) by apply Hs. case_bool_decide.
    + rewrite (IH _ _ _ _ Hs). by rewrite <- app_assoc.
    + rewrite IH. { by rewrite <- app_assoc. } intros k. rewrite elem_of_union, elem_of_singleton, Hs, elem_of_app, list_elem_of_singleton. tauto.
  - rewrite (IH _ _ _ _ Hs). by rewrite <- app_assoc.
  - by apply IH.
Qed.

(** What one path contributes. *)
Lemma verdict_of_path st p :
  match unlock_pending st p with
  | Some q => pd_path q = p
      /\ match elem_verdict st q with
         | Some true => is_unlocked_path st p = false /\ locked_target st p = Some (pd_cid q)
         | Some false => is_unlocked_path st p = true /\ locked_target st p = None
         | None => is_unlocked_path st p = false /\ locked_target st p = None
         end
  | None => is_unlocked_path st p = false /\ locked_target st p = None
  end.
Proof.
  unfold unlock_pending, is_unlocked_path, locked_target, elem_verdict.
  destruct (resolve_path st p) as [[id v|id|id v i]|] eqn:E; try apply resolve_path_vault in E; cbn; rewrite ?E; cbn;
    [| | |done]; split; try done; unfold names_something; cbn.
  - by destruct (is_locked v).
  - destruct (has_item v i); cbn; [by destruct (is_locked v)|done].
Qed.

Lemma judge_closed st objects :
  judge st objects = (List.filter (is_unlocked_path st) objects, firsts (omap (locked_target st) objects),
                      List.filter (names_locked st) objects).
Proof.
  rewrite judge_spec, reassemble_spec by (by intros k; rewrite elem_of_empty, elem_of_nil). cbn [app]. unfold firsts.
  f_equal; [f_equal; [|f_equal]|].
  all: induction objects as [|p l IH]; cbn; [done|]; pose proof (verdict_of_path st p) as Hv; unfold names_locked in *;
    destruct (unlock_pending st p) as [q|]; cbn.
  all: try (destruct Hv as [Hu Ht]; rewrite ?Hu, ?Ht; cbn; exact IH).
  all: destruct Hv as [Hp Hv]; destruct (elem_verdict st q) as [[]|]; destruct Hv as [Hu Ht]; rewrite ?Hu, ?Ht, ?Hp; cbn; try exact IH;
    by rewrite IH.
Qed.

(** ** [Lock] *)

(** The vaults of [l] that are unlocked, locked. *)
Definition lock_set (l : list str) (st : ServiceState) : ServiceState :=
  set_collections st (map_imap (fun id v => Some (if bool_decide (id ∈ l) then lock_if to_lock v else v)) (collections st)).

Lemma lookup_lock_set l st id :
  collections (lock_set l st) !! id = (fun v => if bool_decide (id ∈ l) then lock_if to_lock v else v) <$> collections st !! id.
Proof. unfold lock_set. cbn. rewrite map_lookup_imap. by destruct (collections st !! id). Qed.

Lemma set_collections_id st : set_collections st (collections st) = st.
Proof. by destruct st. Qed.

(** Only who is unlocked matters. *)
Lemma lock_set_ext l k st :
  (forall id v, collections st !! id = Some v -> is_locked v = false -> id ∈ l <-> id ∈ k) -> lock_set l st = lock_set k st.
Proof.
  intros Hl. unfold lock_set. f_equal. apply map_eq. intros id. rewrite !map_lookup_imap.
  destruct (collections st !! id) as [v|] eqn:E; [|done]. cbn. f_equal. unfold lock_if, to_lock.
  destruct (is_locked v) eqn:El; cbn; [by do 2 case_bool_decide|]. by rewrite (bool_decide_ext _ _ (Hl id v E El)).
Qed.

Lemma lock_set_nil st : lock_set [] st = st.
Proof.
  rewrite <- (set_collections_id st) at 2. unfold lock_set. f_equal. apply map_eq. intros id. rewrite map_lookup_imap.
  by destruct (collections st !! id).
Qed.

(** Locking one unlocked vault, then the rest. *)
Lemma lock_set_cons l st id v : collections st !! id = Some v -> is_locked v = false ->
  lock_set l (put_vault st id (lock v)) = lock_set (id :: l) st.
Proof.
  intros Hv Hl. unfold lock_set, put_vault. cbn. unfold set_collections. cbn. f_equal. apply map_eq. intros i.
  rewrite !map_lookup_imap. cbn. destruct (decide (i = id)) as [->|Hne].
  - rewrite lookup_insert_eq, Hv. cbn. f_equal. rewrite (bool_decide_true (id ∈ id :: l)) by (by left).
    unfold lock_if, to_lock. rewrite Hl. cbn. by case_bool_decide.
  - rewrite lookup_insert_ne by done. destruct (collections st !! i); [|done]. cbn. f_equal.
    rewrite (bool_decide_ext (i ∈ id :: l) (i ∈ l)); [done|]. rewrite elem_of_cons. tauto.
Qed.

(** The reference: one path after another. *)
Fixpoint lock_walk (st : ServiceState) (objects : list str) : list str * list str * ServiceState :=
  match objects with
  | [] => ([], [], st)
  | p :: objects =>
    match (let! q := lock_pending st p in let! v := pd_vault q in if names_something v q then Some (pd_cid q, v) else None) with
    | Some (cid, v) =>
      if is_locked v then let '(locked, changed, st) := lock_walk st objects in (p :: locked, changed, st)
      else let '(locked, changed, st) := lock_walk (put_vault st cid (lock v)) objects in (p :: locked, cid :: changed, st)
    | None => lock_walk st objects
    end
  end.

(** The collection that locking a path locks, if it names something. *)
Definition lockable (st : ServiceState) (p : str) : option str :=
  match resolve_path st p with
  | Some (PTCollection id _) => Some id
  | Some (PTItem id v i) => if has_item v i then Some id else None
  | _ => None
  end.

Lemma lockable_pending st p :
  (let! q := lock_pending st p in let! v := pd_vault q in if names_something v q then Some (pd_cid q, v) else None)
  = (let! cid := lockable st p in let! v := collections st !! cid in Some (cid, v)).
Proof.
  unfold lockable, lock_pending. destruct (resolve_path st p) as [[id v|id|id v i]|] eqn:E; try done;
    apply resolve_path_vault in E; cbn; unfold names_something; cbn; [by rewrite E|]. destruct (has_item v i); [|done].
  by rewrite E.
Qed.

Lemma lockable_loaded st p cid : lockable st p = Some cid -> is_Some (collections st !! cid).
Proof.
  unfold lockable. destruct (resolve_path st p) as [[id v|id|id v i]|] eqn:E; try done; apply resolve_path_vault in E;
    [|destruct (has_item v i); [|done]]; intros [= <-]; eauto.
Qed.

(** Locking changes neither what is loaded nor what is in it. *)
Lemma lockable_put st id v p : collections st !! id = Some v -> lockable (put_vault st id (lock v)) p = lockable st p.
Proof.
  intros Hv. unfold lockable, resolve_path. destruct (parse p) as [t|]; [|done].
  assert (Hlook : forall i, collections (put_vault st id (lock v)) !! i
                            = (fun x => if bool_decide (i = id) then lock x else x) <$> collections st !! i).
  { intros i. cbn. destruct (decide (i = id)) as [->|Hne]; [rewrite lookup_insert_eq, Hv; cbn; by rewrite bool_decide_true|].
    rewrite lookup_insert_ne, bool_decide_false by done. by destruct (collections st !! i). }
  assert (Hal : forall name, alias_target (put_vault st id (lock v)) name = alias_target st name).
  { intros name. unfold alias_target. change (aliases (put_vault st id (lock v))) with (aliases st).
    destruct (alias_resolve (aliases st) name) as [[i|]|]; [|done|done]. f_equal.
    rewrite (bool_decide_ext _ (is_Some (collections st !! i))); [done|]. rewrite Hlook. apply fmap_is_Some. }
  change (broken (put_vault st id (lock v))) with (broken st).
  clear Hv. set (st' := put_vault st id (lock v)) in *. clearbody st'.
  destruct t as [i|name|c i|a i]; rewrite ?Hal; try destruct (or_none _) as [j|]; try done; rewrite Hlook.
  - destruct (collections st !! i) as [x|]; cbn; [done|by case_bool_decide].
  - destruct (collections st !! j) as [x|]; cbn; [done|by case_bool_decide].
  - destruct (collections st !! c) as [x|]; cbn; [by case_bool_decide|done].
  - destruct (collections st !! j) as [x|]; cbn; [by case_bool_decide|done].
Qed.

Definition is_unlocked_id (st : ServiceState) (id : str) : bool :=
  match collections st !! id with Some v => negb (is_locked v) | None => false end.

Definition names_lockable (st : ServiceState) (p : str) : bool := bool_decide (is_Some (lockable st p)).

Lemma unlocked_id_put st id v i : collections st !! id = Some v -> is_locked v = false ->
  is_unlocked_id (put_vault st id (lock v)) i = is_unlocked_id st i && negb (bool_decide (i = id)).
Proof.
  intros Hv Hl. unfold is_unlocked_id. cbn. destruct (decide (i = id)) as [->|Hne].
  - rewrite lookup_insert_eq, Hv, bool_decide_true by done. cbn. by rewrite andb_false_r.
  - rewrite lookup_insert_ne, bool_decide_false by done. by rewrite andb_true_r.
Qed.

(** Walking the paths: what names something is answered, what was unlocked
    among it changes, once. *)
Lemma lock_walk_closed objects st locked changed st' : lock_walk st objects = (locked, changed, st') ->
  locked = List.filter (names_lockable st) objects
  /\ NoDup changed /\ (forall c, c ∈ changed <-> c ∈ omap (lockable st) objects /\ is_unlocked_id st c = true)
  /\ st' = lock_set (omap (lockable st) objects) st.
Proof.
  revert st locked changed st'. induction objects as [|p objects IH]; intros st locked changed st'; cbn [lock_walk].
  { intros [= <- <- <-]. split_and!; [done|constructor| |by rewrite lock_set_nil]. intros c. cbn.
    split; [intros Hc|intros [Hc _]]; by apply not_elem_of_nil in Hc. }
  rewrite lockable_pending. cbn [List.filter omap list_omap]. unfold names_lockable at 1. destruct (lockable st p) as [cid|] eqn:Ep; cbn.
  2: { apply IH. }
  destruct (lockable_loaded _ _ _ Ep) as [v Hv]. rewrite Hv. destruct (is_locked v) eqn:El.
  - destruct (lock_walk st objects) as [[l ch] st1] eqn:Ew. intros [= <- <- <-]. apply IH in Ew as (-> & Hnd & Hch & ->).
    split_and!; [done|done| |].
    + intros c. rewrite Hch, elem_of_cons. split; [tauto|]. intros [[->|?] Hu]; [|done]. unfold is_unlocked_id in Hu. rewrite Hv, El in Hu. done.
    + apply lock_set_ext. intros id v' Hv' Hl'. rewrite elem_of_cons. split; [tauto|]. intros [->|?]; [congruence|done].
  - destruct (lock_walk _ objects) as [[l ch] st1] eqn:Ew. intros [= <- <- <-]. apply IH in Ew as (-> & Hnd & Hch & ->).
    assert (Ho : omap (lockable (put_vault st cid (lock v))) objects = omap (lockable st) objects).
    { clear -Hv. induction objects as [|q l IH]; cbn; [done|]. rewrite (lockable_put _ _ _ _ Hv). by rewrite IH. }
    rewrite Ho in *. setoid_rewrite (unlocked_id_put st cid v _ Hv El) in Hch. split_and!.
    + f_equal. apply List.filter_ext. intros q. unfold names_lockable. by rewrite (lockable_put _ _ _ _ Hv).
    + constructor; [|done]. rewrite Hch, bool_decide_true by done. rewrite andb_false_r. by intros [_ ?].
    + intros c. rewrite !elem_of_cons, Hch. destruct (decide (c = cid)) as [->|Hne].
      * split; [|tauto]. intros _. split; [tauto|]. unfold is_unlocked_id. by rewrite Hv, El.
      * rewrite (bool_decide_false (c = cid)), andb_true_r by done. tauto.
    + by apply lock_set_cons.
Qed.

(** What one element of the batch answers. *)
Definition elem_answer (st : ServiceState) (pending : list Pending) (i : nat) : option bool :=
  let! p := pending !! i in
  let! v := collections st !! pd_cid p in
  if names_something v p then Some true else None.

Lemma answer_loop (f : nat -> option bool) idxs answered any :
  fold_left (fun '(answered, any) i => match f i with Some b => (<[i := b]> answered, true) | None => (answered, any) end)
            idxs (answered, any)
  = (fold_left (write_at f) idxs answered, any || existsb (fun i => bool_decide (is_Some (f i))) idxs).
Proof.
  revert answered any. induction idxs as [|i idxs IH]; intros answered any; cbn [fold_left existsb]; [by rewrite orb_false_r|].
  unfold write_at at 2. destruct (f i) as [b|]; rewrite IH; cbn; [by rewrite orb_true_r|done].
Qed.

(** A collection whose lock the batch takes. *)
Definition group_locks (st : ServiceState) (pending : list Pending) (cid : str) : bool :=
  existsb (fun i => bool_decide (is_Some (elem_answer st pending i))) (positions pd_cid cid pending) && is_unlocked_id st cid.

Definition pending_loaded (st : ServiceState) (p : Pending) : Prop :=
  exists v, pd_vault p = Some v /\ collections st !! pd_cid p = Some v.

Lemma lock_set_snoc l st id v : id ∉ l -> collections st !! id = Some v -> is_locked v = false ->
  put_vault (lock_set l st) id (lock v) = lock_set (l ++ [id]) st.
Proof.
  intros Hn Hv Hl. unfold lock_set, put_vault, set_collections. cbn. f_equal. apply map_eq. intros i.
  rewrite map_lookup_imap. destruct (decide (i = id)) as [->|Hne].
  - rewrite lookup_insert_eq, Hv. cbn. rewrite bool_decide_true by set_solver. unfold lock_if, to_lock. by rewrite Hl.
  - rewrite lookup_insert_ne, map_lookup_imap by done. destruct (collections st !! i); [|done]. cbn. f_equal.
    rewrite (bool_decide_ext (i ∈ l ++ [id]) (i ∈ l)); [done|]. set_solver.
Qed.

Lemma lock_group_closed st pending cid answered changed : Forall (pending_loaded st) pending -> cid ∉ changed ->
  lock_group pending (cid, positions pd_cid cid pending) (answered, changed, lock_set changed st)
  = (fold_left (write_at (elem_answer st pending)) (positions pd_cid cid pending) answered,
     changed ++ (if group_locks st pending cid then [cid] else []),
     lock_set (changed ++ (if group_locks st pending cid then [cid] else [])) st).
Proof.
  intros Hok Hn. unfold group_locks. set (idxs := positions _ _ _).
  assert (Hidx : forall i, i ∈ idxs -> exists p v, pending !! i = Some p /\ pd_cid p = cid /\ pd_vault p = Some v
                                                  /\ collections st !! cid = Some v).
  { intros i (p & Hp & <-)%elem_of_positions. destruct (Forall_lookup_1 _ _ _ _ Hok Hp) as (v & ? & ?). eauto 8. }
  unfold lock_group. destruct idxs as [|i0 rest] eqn:Ei; [cbn; by rewrite app_nil_r|]. rewrite <- Ei in *.
  destruct (Hidx i0) as (p0 & v & Hp0 & _ & Hv0 & Hv); [rewrite Ei; by left|]. rewrite Hp0, Hv0.
  rewrite (fold_left_ext _ (fun '(answered, any) i => match elem_answer st pending i with
             Some b => (<[i := b]> answered, true) | None => (answered, any) end)).
  2: { intros [a any] i Hi. destruct (Hidx i Hi) as (p & v' & Hp & Hc & Hvp & Hv'). assert (v' = v) as -> by congruence.
       unfold elem_answer. rewrite Hp, Hc, Hv. by destruct (names_something v p). }
  rewrite answer_loop. cbn [orb]. unfold is_unlocked_id. rewrite Hv.
  destruct (existsb _ idxs); cbn [andb]; [|by rewrite app_nil_r]. destruct (is_locked v) eqn:El; cbn [negb]; [by rewrite app_nil_r|].
  f_equal. by apply lock_set_snoc.
Qed.

Lemma lock_groups_closed st pending cids answered changed : Forall (pending_loaded st) pending ->
  NoDup (changed ++ cids) ->
  fold_left (fun acc g => lock_group pending g acc) (map (fun cid => (cid, positions pd_cid cid pending)) cids)
            (answered, changed, lock_set changed st)
  = (fold_left (fun acc gr => fold_left (write_at (elem_answer st pending)) (snd gr) acc)
               (map (fun cid => (cid, positions pd_cid cid pending)) cids) answered,
     changed ++ List.filter (group_locks st pending) cids,
     lock_set (changed ++ List.filter (group_locks st pending) cids) st).
Proof.
  intros Hok. revert answered changed. induction cids as [|cid cids IH]; intros answered changed Hnd; cbn [map fold_left List.filter].
  { by rewrite app_nil_r. }
  assert (Hn : cid ∉ changed). { intros Hin. apply NoDup_app in Hnd as (_ & Hd & _). apply (Hd cid Hin). by left. }
  rewrite lock_group_closed by done. rewrite IH. { destruct (group_locks st pending cid); by rewrite <- app_assoc. }
  destruct (group_locks st pending cid); [by rewrite <- app_assoc|]. rewrite app_nil_r.
  apply NoDup_app in Hnd as (? & Hd & [_ ?]%NoDup_cons). apply NoDup_app. split_and!; [done| |done]. intros x Hx Hx2. apply (Hd x Hx). by right.
Qed.

Definition batch_of (st : ServiceState) (objects : list str) : list Pending := omap (lock_pending st) objects.

Lemma batch_loaded st objects : Forall (pending_loaded st) (batch_of st objects).
Proof. apply Forall_forall. intros q (p & _ & Hq)%list_elem_of_omap. by eapply lock_pending_ok. Qed.

Lemma lock_pending_path st p q : lock_pending st p = Some q -> pd_path q = p.
Proof. unfold lock_pending. destruct (resolve_path st p) as [[]|]; by intros [= <-]. Qed.

Lemma answered_paths st objects :
  omap (fun '(p, keep) => if keep : bool then Some (pd_path p) else None)
       (zip (batch_of st objects)
            (map (fun p => match collections st !! pd_cid p with Some v => names_something v p | None => false end) (batch_of st objects)))
  = List.filter (names_lockable st) objects.
Proof.
  unfold batch_of. induction objects as [|p l IH]; cbn [omap list_omap List.filter]; [done|].
  pose proof (lockable_pending st p) as Hl. unfold names_lockable at 1. destruct (lock_pending st p) as [q|] eqn:Eq; cbn in *.
  - destruct (lock_pending_ok _ _ _ Eq) as (v & Hv & Hc). rewrite Hv in Hl. cbn in Hl. rewrite Hc.
    pose proof (lock_pending_path _ _ _ Eq) as ->.
    destruct (names_something v q); destruct (lockable st p) as [c|] eqn:Ep; cbn in *; try done.
    + by rewrite IH.
    + destruct (lockable_loaded _ _ _ Ep) as [x Hx]. by rewrite Hx in Hl.
  - destruct (lockable st p) as [c|] eqn:Ep; cbn in *; [|exact IH]. destruct (lockable_loaded _ _ _ Ep) as [x Hx]. by rewrite Hx in Hl.
Qed.

Lemma group_locks_spec st objects c :
  group_locks st (batch_of st objects) c = true <-> c ∈ omap (lockable st) objects /\ is_unlocked_id st c = true.
Proof.
  unfold group_locks. rewrite andb_true_iff, existsb_exists. apply and_iff_compat_r. rewrite list_elem_of_omap. split.
  - intros (i & Hi%list_elem_of_In & Ha%bool_decide_eq_true). apply elem_of_positions in Hi as (q & Hq & <-).
    pose proof (list_elem_of_lookup_2 _ _ _ Hq) as (p & Hp & Hpq)%list_elem_of_omap. exists p. split; [done|].
    pose proof (lockable_pending st p) as Hl. rewrite Hpq in Hl. cbn in Hl. destruct (lock_pending_ok _ _ _ Hpq) as (v & Hv & Hc).
    unfold elem_answer in Ha. rewrite Hq in Ha. cbn in Ha. rewrite Hc in Ha. rewrite Hv in Hl. cbn in *.
    destruct (names_something v q); [|by destruct Ha]. destruct (lockable st p) as [c|]; [|done]. cbn in Hl.
    destruct (collections st !! c); [|done]. by injection Hl as -> _.
  - intros (p & Hp & Hl). pose proof (lockable_pending st p) as Hpq. rewrite Hl in Hpq. cbn in Hpq.
    destruct (lockable_loaded _ _ _ Hl) as [v Hv]. rewrite Hv in Hpq. destruct (lock_pending st p) as [q|] eqn:Eq; [|done]. cbn in Hpq.
    destruct (lock_pending_ok _ _ _ Eq) as (v' & Hv' & Hc). rewrite Hv' in Hpq. cbn in Hpq.
    destruct (names_something v' q) eqn:En; [|done]. injection Hpq as <- <-.
    assert (Hin : q ∈ batch_of st objects) by (apply list_elem_of_omap; eauto). apply list_elem_of_lookup_1 in Hin as [i Hi].
    exists i. split; [apply list_elem_of_In, elem_of_positions; eauto|]. unfold elem_answer. rewrite Hi. cbn. rewrite Hv, En.
    by rewrite bool_decide_true.
Qed.

(** The batched loop in closed form. *)
Lemma lock_objects_closed st objects locked changed st' : lock_objects st objects = (locked, changed, st') ->
  locked = List.filter (names_lockable st) objects
  /\ NoDup changed /\ (forall c, c ∈ changed <-> c ∈ omap (lockable st) objects /\ is_unlocked_id st c = true)
  /\ st' = lock_set (omap (lockable st) objects) st.
Proof.
  unfold lock_objects. fold (batch_of st objects). rewrite group_by_collection_spec. unfold groups_of.
  pose proof (lock_groups_closed st (batch_of st objects) (firsts (map pd_cid (batch_of st objects)))
                (repeat false (length (batch_of st objects))) [] (batch_loaded _ _) (NoDup_firsts _)) as Hg.
  rewrite lock_set_nil in Hg. rewrite Hg. clear Hg. cbn [app].
  fold (groups_of pd_cid (batch_of st objects)).
  rewrite (writes_by_group pd_cid _ _ false
             (fun p => match collections st !! pd_cid p with Some v => names_something v p | None => false end)).
  2: { intros i p Hp. unfold elem_answer. rewrite Hp. cbn. destruct (collections st !! pd_cid p) as [v|]; [|done]. by destruct (names_something v p). }
  rewrite answered_paths. intros [= <- <- <-].
  assert (Hch : forall c, c ∈ List.filter (group_locks st (batch_of st objects)) (firsts (map pd_cid (batch_of st objects)))
                          <-> c ∈ omap (lockable st) objects /\ is_unlocked_id st c = true).
  { intros c. rewrite list_elem_of_In, List.filter_In, group_locks_spec, <- list_elem_of_In, elem_of_firsts. split; [tauto|].
    intros Hc. split; [|done]. apply group_locks_spec in Hc. unfold group_locks in Hc. apply andb_true_iff in Hc as [Hc _].
    apply existsb_exists in Hc as (i & Hi%list_elem_of_In & _). apply elem_of_positions in Hi as (q & Hq & <-).
    apply list_elem_of_fmap. exists q. split; [done|]. by eapply list_elem_of_lookup_2. }
  split_and!; [done| |done|].
  - apply NoDup_ListNoDup, List.NoDup_filter, NoDup_ListNoDup, NoDup_firsts.
  - apply lock_set_ext. intros id v Hv Hl. rewrite Hch. split; [tauto|]. intros Hin. split; [done|]. unfold is_unlocked_id. by rewrite Hv, Hl.
Qed.

(** C13. The batched [Lock], which groups the paths and takes each collection's
    lock once, answers the same paths, locks the same vaults and reports the
    same collections as changed, each once, as resolving and locking the paths
    one after another. *)
Theorem lock_batch_equals_walk st objects :
  let '(locked, changed, st') := lock_objects st objects in
  let '(locked0, changed0, st0) := lock_walk st objects in
  locked = locked0 /\ changed ≡ₚ changed0 /\ st' = st0.
Proof.
  destruct (lock_objects st objects) as [[l ch] st'] eqn:E. destruct (lock_walk st objects) as [[l0 ch0] st0] eqn:E0.
  apply lock_objects_closed in E as (-> & Hn & Hc & ->). apply lock_walk_closed in E0 as (-> & Hn0 & Hc0 & ->).
  split_and!; [done| |done]. apply NoDup_Permutation; [done|done|]. intros c. by rewrite Hc, Hc0.
Qed.
