(* ===== verification/BusProps.v ===== *)
(** * What the bus handlers keep

    Every handler of [Handlers], whatever the bus, the disk and the entropy
    answer, leaves each loaded collection equal to its file; with the control
    requests, the idle tick and the prompts of [Daemon] they make up everything
    that happens to the daemon's vaults. *)
From S2P Require Import Prelude Text Env Crypto Codec Format Sanitize Names Files Sweep Store StoreInv StoreOps StoreKeys StoreProps StoreFrame Aliases Session State Protocol Daemon Bus Handlers Batch.

Open Scope bus_scope.

Section keeps.
Context `{HE : Env} `{HP : Prims} `{HC : VaultCodec} `{HA : AliasText} `{HS : SessionPrims} `{HB : Bus}.
Context `{!EnvOk HE} `{!PrimsOk HP} `{!VaultCodecOk HC} `{!BusOk HB}.

Definition conn_state (c : conn) : ServiceState := dm_state (cn_daemon c).

(** The vaults of [c] match their files, in the directory [d]. *)
Definition conn_ok (d : fpath) (c : conn) : Prop :=
  daemon_ok (conn_state c) (cn_world c) /\ vault_dir (conn_state c) = d.

Definition preserves {A E} (d : fpath) (m : handler A E) : Prop := forall c, conn_ok d c -> conn_ok d (snd (m c)).

(** Given the state it was read from. *)
Definition preserves_from {A E} (d : fpath) (st : ServiceState) (m : handler A E) : Prop :=
  forall c, conn_ok d c -> conn_state c = st -> conn_ok d (snd (m c)).

Lemma preserves_bind {A B E} d (m : handler A E) (k : A -> handler B E) :
  preserves d m -> (forall a, preserves d (k a)) -> preserves d (hbind m k).
Proof.
  intros Hm Hk c Hc. unfold hbind. specialize (Hm c Hc). destruct (m c) as [[[a|e]|] c1]; [by apply Hk|done|done].
Qed.

Lemma preserves_from_any {A E} d st (m : handler A E) : preserves d m -> preserves_from d st m.
Proof. intros Hm c Hc _. by apply Hm. Qed.

Lemma preserves_from_lift {A E} d (m : handler A E) : (forall st, preserves_from d st m) -> preserves d m.
Proof. intros Hm c Hc. by apply (Hm (conn_state c) c Hc). Qed.

Lemma preserves_lock_state {A E} d (k : ServiceState -> handler A E) :
  (forall st, preserves_from d st (k st)) -> preserves d (hbind lock_state k).
Proof. intros Hk c Hc. unfold hbind, lock_state. by apply Hk. Qed.

Lemma preserves_require {A E} d st (r : result A E) (B : Type) (k : A -> handler B E) :
  (forall a, r = Ok a -> preserves_from d st (k a)) -> preserves_from d st (hbind (require r) k).
Proof. intros Hk c Hc Hst. unfold hbind, require. destruct r; [by apply Hk|done]. Qed.

Lemma preserves_require_end {A E} d (r : result A E) : preserves d (require r).
Proof. by intros c Hc. Qed.

(** Anything that leaves state and disk alone. *)
Definition inert {A E} (m : handler A E) : Prop :=
  forall c, cn_daemon (snd (m c)) = cn_daemon c /\ fs (cn_world (snd (m c))) = fs (cn_world c).

Lemma inert_preserves {A E} d (m : handler A E) : inert m -> preserves d m.
Proof.
  intros Hi c [Hok Hd]. destruct (Hi c) as [Hs Hf]. unfold conn_ok, conn_state in *. rewrite Hs. split; [|done].
  apply (daemon_ok_kept (dm_state (cn_daemon c)) _ (cn_world c)); [done..|by apply same_fs_kept|done].
Qed.

Lemma inert_bind {A B E} (m : handler A E) (k : A -> handler B E) :
  inert m -> (forall a, inert (k a)) -> inert (hbind m k).
Proof.
  intros Hm Hk c. unfold hbind. specialize (Hm c). destruct (m c) as [[[a|e]|] c1]; [|done|done]. cbn [snd] in Hm.
  destruct Hm as [<- <-]. apply Hk.
Qed.

Lemma inert_for_each {A E} (l : list A) (f : A -> handler unit E) : (forall a, inert (f a)) -> inert (for_each l f).
Proof. intros Hf. induction l as [|a l IH]; [by intros c|]. by apply inert_bind. Qed.

Lemma inert_on_world {A E} (f : world -> option A * world) : (forall w, fs (snd (f w)) = fs w) -> inert (on_world (E := E) f).
Proof. intros Hf c. unfold on_world. specialize (Hf (cn_world c)). by destruct (f (cn_world c)) as [[]]. Qed.

(** A state with the same vaults in the same directory. *)
Lemma preserves_put_state {E} d st0 (st : ServiceState) : collections st = collections st0 -> vault_dir st = vault_dir st0 ->
  preserves_from (E := E) d st0 (put_state st).
Proof.
  intros Hc Hv c [Hok Hd] Hst. unfold put_state, conn_ok, conn_state in *. cbn. split; [|congruence].
  apply (daemon_ok_kept (dm_state (cn_daemon c)) _ (cn_world c)); [congruence..|by apply same_fs_kept|done].
Qed.

(** A method of one vault that keeps it equal to its file. *)
Lemma preserves_on_vault {A E} d st id v (op : Vault -> world -> result A VaultError * Vault * world) :
  vault st id = Some v ->
  (forall w r v' w', vault_inv v w -> op v w = (r, v', w') -> keeps v v' w') ->
  (forall w r v' w', path v = vault_path d id -> op v w = (r, v', w') -> beside d id w w') ->
  preserves_from (E := E) d st (on_vault id v op).
Proof.
  intros Hv Hk Hb c [Hok Hd] Hst. unfold on_vault. destruct (op v (cn_world c)) as [[r v'] w'] eqn:E0. cbn.
  unfold conn_ok, conn_state in *. cbn. rewrite Hst in *. split; [|done].
  destruct (Hok id v Hv) as [Hp Hi]. rewrite Hd in Hp. destruct (Hk _ _ _ _ Hi E0) as [Hi' Hp'].
  specialize (Hb _ _ _ _ Hp E0).
  apply (daemon_ok_put _ (cn_world c)); [done|by rewrite Hd|congruence|done].
Qed.

Lemma preserves_vstep {A E} d st id v (op : Vault -> world -> result A VaultError * Vault * world) :
  vault st id = Some v -> (forall w r v' w', op v w = (r, v', w') -> vstep (v, w) (v', w')) ->
  preserves_from (E := E) d st (on_vault id v op).
Proof.
  intros Hv Hs. apply preserves_on_vault; [done|..].
  - intros w r v' w' Hi Ho%Hs. by eapply vstep_keeps.
  - intros w r v' w' Hp Ho%Hs. by eapply vstep_beside.
Qed.

Lemma preserves_from_bind {A B E} d st (m : handler A E) (k : A -> handler B E) :
  preserves_from d st m -> (forall a, preserves d (k a)) -> preserves_from d st (hbind m k).
Proof.
  intros Hm Hk c Hc Hst. unfold hbind. specialize (Hm c Hc Hst). destruct (m c) as [[[a|e]|] c1]; [by apply Hk|done|done].
Qed.

(** The state stays the one read while nothing but inert things happen. *)
Lemma preserves_from_inert {A B E} d st (m : handler A E) (k : A -> handler B E) :
  inert m -> (forall a, preserves_from d st (k a)) -> preserves_from d st (hbind m k).
Proof.
  intros Hi Hk c Hc Hst. pose proof (inert_preserves d m Hi c Hc) as Hc1. destruct (Hi c) as [Hs _]. unfold hbind.
  destruct (m c) as [[[a|e]|] c1]; [|done|done]. cbn [snd] in *. apply Hk; [done|]. unfold conn_state. by rewrite Hs.
Qed.

Lemma preserves_from_lock {A E} d st (k : ServiceState -> handler A E) :
  preserves_from d st (k st) -> preserves_from d st (hbind lock_state k).
Proof. intros Hk c Hc Hst. unfold hbind, lock_state. fold (conn_state c). rewrite Hst. by apply Hk. Qed.

Lemma preserves_touch {E} d at_ : preserves (E := E) d (touch_state at_).
Proof. by intros c [Hok Hd]. Qed.

Lemma inert_ret {A E} (a : A) : inert (E := E) (hret a).
Proof. by intros c. Qed.
Lemma inert_err {A E} (e : E) : inert (A := A) (herr e).
Proof. by intros c. Qed.
Lemma inert_require {A E} (r : result A E) : inert (require r).
Proof. by intros c. Qed.
Lemma inert_or_panic {A E} (o : option A) : inert (E := E) (or_panic o).
Proof. by intros c. Qed.
Lemma inert_lock_state {E} : inert (E := E) lock_state.
Proof. by intros c. Qed.
Lemma inert_unexport {E} p i : inert (E := E) (unexport p i).
Proof. by intros c. Qed.
Lemma inert_export p i : inert (export p i).
Proof. intros c. unfold export. by destruct (server_at c p i). Qed.
Lemma inert_with_zbus {A} (m : handler A zbus_error) : inert m -> inert (with_zbus m).
Proof. intros Hm c. unfold with_zbus. specialize (Hm c). by destruct (m c) as [[[]|] c1]. Qed.
Lemma inert_emit s : inert (emit_signal s).
Proof. intros c. unfold emit_signal. by destruct (signal_sent c s). Qed.
Lemma inert_emit_logged {E} s : inert (E := E) (emit_logged s).
Proof. intros c. unfold emit_logged. cbn. by destruct (signal_sent c s). Qed.
Lemma inert_keep_prompt {E} p k : inert (E := E) (keep_prompt p k).
Proof. by intros c. Qed.
End keeps.

Create HintDb bus discriminated.
#[export] Hint Constants Opaque : bus.
#[export] Hint Resolve inert_ret inert_err inert_require inert_or_panic inert_lock_state inert_unexport inert_export
  inert_with_zbus inert_emit inert_emit_logged inert_keep_prompt inert_bind inert_for_each : bus.
#[export] Hint Resolve preserves_bind preserves_touch preserves_require_end preserves_from_any inert_preserves : bus.

Section registry_inert.
Context `{HE : Env} `{HP : Prims} `{HC : VaultCodec} `{HA : AliasText} `{HS : SessionPrims} `{HB : Bus}.

Lemma inert_register_item cid iid : inert (register_item cid iid).
Proof. apply inert_bind; intros; auto with bus nocore. Qed.

Lemma inert_register_collection id : inert (register_collection id).
Proof.
  apply inert_bind; [auto with bus nocore|]. intros p. apply inert_bind; [auto with bus nocore|]. intros _. apply inert_bind; [auto with bus nocore|].
  intros _. apply inert_bind; [auto with bus nocore|]. intros st. apply inert_for_each. intros iid. apply inert_bind; auto with bus nocore.
Qed.

Lemma inert_register_alias name : inert (register_alias name).
Proof.
  unfold register_alias. destruct (palias name) as [o|]; [|auto with bus nocore].
  apply inert_bind; [auto with bus nocore|]. intros p. apply inert_bind; auto with bus nocore.
Qed.

Lemma inert_unregister_alias {E} name : inert (E := E) (unregister_alias name).
Proof.
  unfold unregister_alias. destruct (palias name) as [o|]; [|auto with bus nocore].
  apply inert_bind; [auto with bus nocore|]. intros p. apply inert_bind; auto with bus nocore.
Qed.

Lemma inert_register_all : inert register_all_objects.
Proof.
  apply inert_bind; [auto with bus nocore|]. intros st. apply inert_bind; [|intros _]; apply inert_for_each; intros;
    [apply inert_register_collection|apply inert_register_alias].
Qed.

Lemma inert_emit_locked {E} p : inert (E := E) (emit_locked_changed p).
Proof. intros c. unfold emit_locked_changed. case_bool_decide; [apply inert_emit_logged|done]. Qed.

Lemma inert_notify {E} id : inert (E := E) (notify_collection_changed id).
Proof.
  apply inert_bind; [auto with bus nocore|]. intros p. apply inert_bind; [auto with bus nocore|]. intros _ c.
  destruct (negb _); [done|]. revert c. apply inert_bind; [auto with bus nocore|]. intros st.
  apply inert_bind; [apply inert_emit_locked|]. intros _. apply inert_for_each. intros name.
  destruct (palias name); [|auto with bus nocore]. apply inert_bind; [auto with bus nocore|]. intros q. apply inert_emit_locked.
Qed.
Lemma preserves_export_or {A} d p i (undo : handler unit BusError) (k : handler A BusError) :
  preserves d undo -> preserves d k -> preserves d (export_or p i undo k).
Proof.
  intros Hu Hk c Hc. unfold export_or. pose proof (inert_preserves d _ (inert_export p i) c Hc) as H1.
  destruct (export p i c) as [[[[]|e]|] c1]; cbn [snd] in *; [by apply Hk| |done].
  revert c1 H1. apply preserves_bind; [done|]. auto with bus nocore.
Qed.
End registry_inert.
#[export] Hint Resolve inert_register_item inert_register_collection inert_register_alias inert_unregister_alias
  inert_register_all inert_emit_locked inert_notify : bus.

(** Walk down a handler: the binds by their rules, what is inert by the hints. *)
Ltac bus_walk :=
  repeat (lazymatch goal with
  | |- forall _, _ => intro
  | |- preserves _ (hbind lock_state _) => apply preserves_lock_state
  | |- preserves_from _ _ (hbind lock_state _) => apply preserves_from_lock
  | |- preserves_from _ _ (hbind (require _) _) => apply preserves_require
  | |- preserves_from _ _ (hbind (or_panic _) _) => apply preserves_from_inert; [apply inert_or_panic|]
  | |- preserves_from _ _ (hbind (on_vault _ _ _) _) => apply preserves_from_bind
  | |- preserves_from _ _ (hbind (put_state _) _) => apply preserves_from_bind; [try by apply preserves_put_state|]
  | |- preserves_from _ _ (put_state _) => by apply preserves_put_state
  | |- preserves _ (hbind _ _) => apply preserves_bind
  | |- preserves _ (export_or _ _ _ _) => apply preserves_export_or
  | |- preserves_from _ _ (hbind _ _) => apply preserves_from_any
  | |- context [let '(_, _) := ?x in _] => is_var x; destruct x
  | |- preserves_from _ _ (if ?b then _ else _) => destruct b
  | |- preserves _ (if ?b then _ else _) => destruct b
  end);
  try solve [auto 3 with bus nocore].

Section handlers_preserve.
Context `{HE : Env} `{HP : Prims} `{HC : VaultCodec} `{HA : AliasText} `{HS : SessionPrims} `{HB : Bus}.
Context `{!EnvOk HE} `{!PrimsOk HP} `{!VaultCodecOk HC} `{!BusOk HB}.
Context (d : fpath).

Lemma random_bytes_fs n w : fs (snd (random_bytes n w)) = fs w.
Proof. done. Qed.
Lemma generate_fs w : fs (snd (generate w)) = fs w.
Proof. unfold generate, random_bytes, random. by destruct (env_rng (tick w)). Qed.
Lemma encrypt_fs cipher m w : fs (snd (encrypt cipher m w)) = fs w.
Proof. destruct cipher; [done|]. unfold encrypt, random_bytes, random. by destruct (env_rng (tick w)). Qed.

Lemma inert_random {E} n : inert (E := E) (on_world (random_bytes n)).
Proof. apply inert_on_world. apply random_bytes_fs. Qed.
Lemma inert_generate {E} : inert (E := E) (on_world generate).
Proof. apply inert_on_world, generate_fs. Qed.
Lemma inert_encrypt {E} cipher m : inert (E := E) (on_world (encrypt cipher m)).
Proof. apply inert_on_world, encrypt_fs. Qed.
Hint Resolve inert_random inert_generate inert_encrypt : bus.

(** *** Sessions and prompts *)

Lemma preserves_new_session_path : preserves d new_session_path.
Proof. unfold new_session_path. bus_walk. Qed.
Lemma preserves_new_prompt_path : preserves d new_prompt_path.
Proof. unfold new_prompt_path. bus_walk. Qed.
Lemma preserves_insert_session p owner cipher : preserves d (insert_session p owner cipher).
Proof. unfold insert_session. bus_walk. Qed.
Lemma preserves_insert_prompt p owner : preserves d (insert_prompt p owner).
Proof. unfold insert_prompt. bus_walk. Qed.
Lemma preserves_remove_session {E} p : preserves (E := E) d (remove_session p).
Proof. unfold remove_session. bus_walk. Qed.
Lemma preserves_remove_prompt {E} p : preserves (E := E) d (remove_prompt p).
Proof. unfold remove_prompt. bus_walk. Qed.
Hint Resolve preserves_new_session_path preserves_new_prompt_path preserves_insert_session preserves_insert_prompt
  preserves_remove_session preserves_remove_prompt : bus.


Lemma inert_open_keys algo input : inert (open_keys algo input).
Proof.
  unfold open_keys. destruct (str_eqb algo ALGORITHM_PLAIN); [auto with bus nocore|].
  destruct (str_eqb algo ALGORITHM_DH); [|auto with bus nocore].
  apply inert_bind; [auto with bus nocore|]. intros peer. apply inert_bind; [auto with bus nocore|]. intros kp.
  apply inert_bind; auto with bus nocore.
Qed.
Hint Resolve inert_open_keys : bus.

Lemma preserves_admit owner cipher : preserves d (admit_session owner cipher).
Proof. unfold admit_session. bus_walk. Qed.
Hint Resolve preserves_admit : bus.

Lemma preserves_open_session sender algo input : preserves d (open_session sender algo input).
Proof.
  unfold open_session. bus_walk.
Qed.

Lemma preserves_raise owner k : preserves d (raise_prompt owner k).
Proof.
  unfold raise_prompt, admit_prompt. bus_walk.
Qed.
Hint Resolve preserves_raise : bus.

(** *** The service *)

Lemma preserves_search attrs : preserves d (service_search_items attrs).
Proof. unfold service_search_items. bus_walk. destruct (search_all _ _). bus_walk. Qed.

Lemma preserves_read_alias name : preserves d (read_alias name).
Proof. unfold read_alias. bus_walk. destruct (alias_target _ _) as [[id|]|e]; bus_walk. Qed.

Lemma inert_encrypt_plan session cipher plan out : inert (encrypt_plan session cipher plan out).
Proof.
  revert out. induction plan as [|[[p sec] ct] plan IH]; intros out; [apply inert_ret|]. apply inert_bind; [apply inert_encrypt|].
  intros [parameters value]. apply IH.
Qed.
Hint Resolve inert_encrypt_plan : bus.

Lemma preserves_get_secrets items session sender at_ : preserves d (get_secrets items session sender at_).
Proof. unfold get_secrets. bus_walk. Qed.

Lemma update_aliases_kept {St E} (edit : shared St -> gmap str str -> result (gmap str str) E) o s w ph s' w' :
  update_aliases edit o s w = (ph, s', w') -> vaults_kept (sh_dir s) w w'.
Proof.
  rewrite update_alone. unfold lock_and_edit. destruct (writable (sh_aliases s)) as [base|e]; [|by intros [= _ _ <-]].
  destruct (edit s base) as [next|e]; [|by intros [= _ _ <-]]. destruct (save_aliases_to _ next w) as [wr w1] eqn:E1.
  apply save_aliases_kept in E1. destruct (lock_and_commit _ _ _ _ _ _). by intros [= _ _ <-].
Qed.

Lemma preserves_set_alias name collection : preserves d (set_alias name collection).
Proof.
  unfold set_alias. apply preserves_bind; [bus_walk|]. intros _. apply preserves_lock_state. intros st c [Hok Hd] Hst. unfold hbind, on_world.
  destruct (update_aliases _ _ _ _) as [[ph s] w] eqn:E. apply update_aliases_kept in E. cbn.
  assert (Hc1 : conn_ok d (set_daemon (set_world c w) (with_state_of (cn_daemon c) (set_alias_table st (sh_aliases s))))).
  { unfold conn_ok, conn_state in *. cbn. rewrite Hst in *. split; [|done].
    apply (daemon_ok_kept st _ (cn_world c)); [done|done|done|done]. }
  set (c1 := set_daemon _ _) in *. clearbody c1.
  destruct ph as [| | |[|e|e|e]]; try done. destruct (str_eqb collection _).
  - by apply (inert_preserves d _ (inert_unregister_alias name)).
  - by apply (inert_preserves d _ (inert_with_zbus _ (inert_register_alias name))).
Qed.

Lemma preserves_service_unlock objects sender : preserves d (service_unlock objects sender).
Proof.
  unfold service_unlock. bus_walk. destruct (judge _ _) as [[unlocked cs] requested]. destruct cs; bus_walk.
Qed.

(** Locking some of the vaults. *)
Lemma lock_set_ok l st w : daemon_ok st w -> daemon_ok (lock_set l st) w.
Proof.
  intros Hok id v. rewrite lookup_lock_set. destruct (collections st !! id) as [v0|] eqn:E; [|done]. intros [= <-].
  destruct (Hok id v0 E) as [Hp Hi]. unfold lock_if. destruct (bool_decide _), (to_lock v0); try done. split; [done|by apply lock_inv].
Qed.

Lemma preserves_service_lock objects : preserves d (service_lock objects).
Proof.
  unfold service_lock. apply preserves_bind; [bus_walk|]. intros _. apply preserves_lock_state. intros st.
  destruct (lock_objects st objects) as [[locked changed] st'] eqn:E. apply lock_objects_closed in E as (_ & _ & _ & ->).
  apply preserves_from_bind; [|bus_walk]. intros c [Hok Hd] Hst. unfold put_state, conn_ok, conn_state in *. cbn. rewrite Hst in *.
  split; [by apply lock_set_ok|done].
Qed.

Lemma preserves_create_collection props alias sender : preserves d (service_create_collection props alias sender).
Proof.
  unfold service_create_collection. apply preserves_bind; [bus_walk|]. intros l. destruct (_ <? _); [bus_walk|].
  apply preserves_bind; [destruct alias; bus_walk|]. intros o. apply preserves_lock_state. intros st.
  destruct o as [a|]; [|bus_walk]. destruct (alias_target _ _) as [[id|]|e]; bus_walk.
Qed.

Lemma preserves_collections : preserves d service_collections.
Proof. unfold service_collections. bus_walk. Qed.

(** *** A collection *)

Lemma inert_target target : inert (collection_target target).
Proof. unfold collection_target. repeat (apply inert_bind; [auto with bus nocore|intros]). auto with bus nocore. Qed.
Hint Resolve inert_target : bus.

Lemma inert_property {A} target (f : option (str * option Vault) -> A) : inert (collection_property target f).
Proof. intros c. unfold collection_property. destruct (inert_target target c). by destruct (collection_target target c) as [[[]|] ?]. Qed.

Lemma preserves_delete target sender : preserves d (collection_delete target sender).
Proof. unfold collection_delete. bus_walk. Qed.

Lemma inert_collection_search target attrs : inert (collection_search_items target attrs).
Proof.
  unfold collection_search_items. destruct (_ <? _); [auto with bus nocore|]. apply inert_bind; [auto with bus nocore|].
  intros [id [v|]]; auto with bus nocore.
Qed.

Lemma inert_items target : inert (collection_items target).
Proof. intros c. unfold collection_items. destruct (inert_target target c). by destruct (collection_target target c) as [[[[id [v|]]|]|] ?]. Qed.

Lemma ok_or_Ok {A E} (o : option A) (e : E) a : ok_or o e = Ok a -> o = Some a.
Proof. destruct o; [by intros [= ->]|done]. Qed.

Lemma prop_string_wf props key l : prop_string props key = Ok (Some l) -> str_wf l.
Proof.
  unfold prop_string. destruct (props !! key) as [v|]; [|done]. destruct (value_string v) as [s|] eqn:E; [|done].
  intros [= <-]. by eapply value_string_wf.
Qed.

Lemma prop_attributes_wf props key m : prop_attributes props key = Ok m -> attrs_wf m.
Proof.
  unfold prop_attributes. destruct (props !! key) as [v|]; [|by intros [= <-]].
  destruct (value_attributes v) as [a|] eqn:E; [|done]. destruct (map_err _ _); [|done]. intros [= <-]. by eapply value_attributes_wf.
Qed.

Lemma preserves_create_item target props secret replace sender at_ : str_wf (ss_content_type secret) ->
  preserves d (create_item target props secret replace sender at_).
Proof.
  intros Hct. unfold create_item. apply preserves_from_lift. intros st. bus_walk.
  apply preserves_vstep; [by eapply ok_or_Ok|]. intros w r v' w' Ho. eapply step_insert; [..|exact Ho].
  - destruct a as [l|]; [by eapply prop_string_wf|constructor].
  - by eapply prop_attributes_wf.
  - done.
Qed.

Lemma preserves_set_label target l : str_wf l -> preserves d (collection_set_label target l).
Proof.
  intros Hl. unfold collection_set_label. bus_walk. apply preserves_vstep; [by eapply ok_or_Ok|].
  intros w r v' w' Ho. by eapply step_set_label.
Qed.

Lemma preserves_delete_items target items at_ : preserves d (collection_delete_items target items at_).
Proof.
  unfold collection_delete_items. bus_walk.
  - apply preserves_vstep; [by eapply ok_or_Ok|]. intros w r v' w' Ho. by eapply step_delete_many.
  - apply inert_preserves, inert_for_each. intros iid. apply inert_bind; auto with bus nocore.
  - apply inert_preserves, inert_for_each. intros iid. apply inert_bind; auto with bus nocore.
Qed.

(** *** An item *)

Lemma inert_with_item {A E} cid iid (f : Item -> A) : inert (E := E) (with_item cid iid f).
Proof. unfold with_item. apply inert_bind; auto with bus nocore. Qed.
Hint Resolve inert_with_item : bus.

Lemma preserves_item_update cid iid f : (forall i, item_wf i -> item_wf (f i)) -> preserves d (item_update cid iid f).
Proof.
  intros Hf. unfold item_update. bus_walk. apply preserves_vstep; [by eapply ok_or_Ok|].
  intros w r v' w' Ho. by eapply step_update.
Qed.

Lemma preserves_item_delete cid iid at_ : preserves d (item_delete cid iid at_).
Proof.
  unfold item_delete. bus_walk. apply preserves_vstep; [by eapply ok_or_Ok|]. intros w r v' w' Ho. by eapply step_delete.
Qed.

Lemma preserves_get_secret cid iid session sender at_ : preserves d (get_secret cid iid session sender at_).
Proof. unfold get_secret. bus_walk. Qed.

Lemma preserves_set_secret cid iid secret sender at_ : str_wf (ss_content_type secret) ->
  preserves d (set_secret cid iid secret sender at_).
Proof.
  intros Hct. unfold set_secret. apply preserves_from_lift. intros st. bus_walk. apply preserves_vstep; [by eapply ok_or_Ok|].
  intros w r v' w' Ho. eapply step_update; [|exact Ho]. intros i (? & ? & ? & _ & ? & ?). done.
Qed.

Lemma preserves_set_attributes cid iid m : attrs_wf m -> preserves d (item_set_attributes cid iid m).
Proof.
  intros Hm. unfold item_set_attributes. apply preserves_bind; [bus_walk|]. intros _. apply preserves_item_update.
  intros i (? & ? & _ & ? & ? & ?). done.
Qed.

Lemma preserves_set_item_label cid iid l : str_wf l -> preserves d (item_set_label cid iid l).
Proof.
  intros Hl. unfold item_set_label. apply preserves_bind; [bus_walk|]. intros _. apply preserves_item_update.
  intros i (? & _ & ? & ? & ? & ?). done.
Qed.

(** *** A session *)

Lemma preserves_close p sender : preserves d (session_close p sender).
Proof. unfold session_close. bus_walk. destruct (sessions _ !! p); bus_walk. Qed.
End handlers_preserve.

Section departures.
Context `{HE : Env} `{HP : Prims} `{HC : VaultCodec} `{HA : AliasText} `{HS : SessionPrims} `{HB : Bus}.
Context `{!EnvOk HE} `{!PrimsOk HP} `{!VaultCodecOk HC} `{!BusOk HB}.
Context (d : fpath).

Lemma preserves_for_each {A E} (l : list A) (f : A -> handler unit E) :
  (forall a, preserves d (f a)) -> preserves d (for_each l f).
Proof. intros Hf. induction l as [|a l IH]; [by intros c|]. by apply preserves_bind. Qed.

Lemma preserves_relock {E} id : preserves (E := E) d (relock_one id).
Proof.
  unfold relock_one. apply preserves_lock_state. intros st. destruct (vault st id) as [v|] eqn:Ev; [|bus_walk].
  destruct (is_locked v); [bus_walk|]. apply preserves_from_bind; [|bus_walk].
  intros c [Hok Hd] Hst. unfold put_state, conn_ok, conn_state in *. cbn. rewrite Hst in *.
  split; [by apply lock_daemon_ok|done].
Qed.

Lemma preserves_left {E} name recorded : preserves (E := E) d (client_left name recorded).
Proof.
  unfold client_left. apply preserves_lock_state. intros st. apply preserves_from_bind; [by apply preserves_put_state|]. intros _.
  apply preserves_bind; [apply preserves_for_each, preserves_relock|]. intros _.
  apply inert_preserves, inert_bind; intros; apply inert_for_each; auto with bus nocore.
Qed.

(** ** Everything that happens to the daemon *)

Context (vault_text : VaultError -> str) (register_all : ServiceState -> result unit str).

(** A call on the bus, a client leaving it, or anything [Daemon] does. *)
Inductive bstep : conn -> conn -> Prop :=
| b_call m sender at_ c : method_wf m -> bstep c (dispatch m sender at_ c)
| b_left name recorded c : bstep c (snd (client_left (E := BusError) name recorded c))
| b_daemon c dm w : dstep vault_text register_all (cn_daemon c, cn_world c) (dm, w) ->
    bstep c (set_world (set_daemon c dm) w).

Lemma dispatch_ok m sender at_ c : method_wf m -> conn_ok d c -> conn_ok d (dispatch m sender at_ c).
Proof.
  intros Hm. destruct m; cbn [dispatch method_wf] in *; revert c;
    [apply preserves_open_session|apply preserves_search|apply preserves_read_alias|apply preserves_get_secrets
    |apply preserves_set_alias|apply preserves_service_unlock|apply preserves_service_lock|apply preserves_create_collection
    |apply preserves_collections|apply preserves_delete|apply inert_preserves, inert_collection_search
    |by apply preserves_create_item|apply inert_preserves, inert_items|apply inert_preserves, inert_property
    |by apply preserves_set_label|apply preserves_delete_items|apply preserves_item_delete|apply preserves_get_secret
    |by apply preserves_set_secret|by apply preserves_set_attributes|by apply preserves_set_item_label
    | |apply preserves_close].
  apply inert_preserves. unfold item_attributes. apply inert_bind; [apply inert_with_item|]. intros o. auto with bus nocore.
Qed.

Lemma bstep_ok c c' : bstep c c' -> conn_ok d c -> conn_ok d c'.
Proof.
  intros [m sender at_ c0 Hm|name recorded c0|c0 dm w Hs] Hc.
  - by apply dispatch_ok.
  - by apply preserves_left.
  - destruct Hc as [Hok Hd]. apply dstep_ok in Hs as [? Hd']; [|done]. split; [done|]. unfold conn_state in *. cbn in *. congruence.
Qed.
End departures.

(** ** Properties *)

(** C2. Collections do not disturb each other. From start-up, under any
    sequence of calls on the bus with any arguments, clients leaving, control
    requests, idle ticks, and prompts creating, deleting or unlocking
    collections, with any failures of disk, entropy and bus, every loaded
    collection is at the file named after its id, and that file holds exactly
    the sealed bytes the daemon has in memory for it. *)
Theorem bus_vaults_match_files (HE : Env) (HP : Prims) (HC : VaultCodec) (HA : AliasText) (HS : SessionPrims) (HB : Bus)
    (HEo : EnvOk HE) (HPo : PrimsOk HP) (HCo : VaultCodecOk HC) (HBo : BusOk HB)
    (vault_text : VaultError -> str) (register_all : ServiceState -> result unit str)
    (d : fpath) (t : Z) (w : world) (c : conn) (id : str) (v : Vault) :
  rtc (bstep vault_text register_all) (Conn (MkDaemon (service_new d) t t) w ∅ ∅ []) c ->
  vault (dm_state (cn_daemon c)) id = Some v ->
  path v = vault_path d id /\ vault_inv v (cn_world c).
Proof.
  intros Hr. assert (conn_ok d c) as [Hok Hd].
  { refine (rtc_ind_r (conn_ok d) _ _ _ _ Hr).
    - split; [|done]. intros i x. cbn. by rewrite lookup_empty.
    - intros a b _ Hs Ha. by eapply bstep_ok. }
  intros Hv. rewrite <- Hd. by apply Hok.
Qed.

(** ** The properties at concrete inputs *)

Inductive sample_value : Type := VStr (s : str) | VMap (m : gmap str str) | VBytes (b : bytes).

Definition sample_bus : Bus := {|
  path_try_from := grammar_try_from;
  ovalue := sample_value;
  value_string v := match v with VStr s => if bool_decide (str_wf s) then Some s else None | _ => None end;
  value_attributes v := match v with VMap m => if bool_decide (attrs_wf m) then Some m else None | _ => None end;
  value_bytes v := match v with VBytes b => Some b | _ => None end;
  value_of_string := VStr;
  value_of_bytes := VBytes;
  value_to_owned := Ok;
  hash_iter := map_to_list;
  server_at _ _ _ := None;
  signal_sent _ _ := None;
  session_text _ := lit "session"
|}.

Lemma sample_bus_ok : BusOk sample_bus.
Proof.
  split.
  - apply grammar_accepts.
  - intros [s|m|b] x; cbn; try done. case_bool_decide; [|done]. by intros [= <-].
  - intros [s|m|b] x; cbn; try done. case_bool_decide; [|done]. by intros [= <-].
  - done.
Qed.

Definition sample_client : option str := Some (lit ":1.7").
Definition sample_label_key : str := lit "org.freedesktop.Secret.Item.Label".

(** The daemon with one collection, a session of the client, and an item. *)
Definition conn_start : conn := Conn sample_start sample_start_world ∅ ∅ [].
Definition conn_created : conn := Conn sample_daemon sample_daemon_world ∅ ∅ [].
Definition sample_call (m : @bus_method sample_bus) (c : conn) : conn :=
  @dispatch sample_env sample_prims sample_codec sample_text sample_session sample_bus m sample_client 5 c.
Definition conn_session : conn := sample_call (@MOpenSession sample_bus ALGORITHM_PLAIN (VStr [])) conn_created.
Definition sample_session_path : str := default [] (head (btree_keys (sessions (dm_state (cn_daemon conn_session))))).
Definition sample_secret : SecretStruct :=
  {| ss_session := sample_session_path; ss_parameters := []; ss_value := [x01; x02]; ss_content_type := lit "text/plain" |}.
Definition create_sample : @bus_method sample_bus :=
  @MCreateItem sample_bus (RefAlias (lit "default")) {[ sample_label_key := VStr (lit "Key") ]} sample_secret false.
Definition conn_item : conn := sample_call create_sample conn_session.

Lemma bus_vaults_match_files_witness :
  exists v, vault (dm_state (cn_daemon conn_item)) sample_id_of = Some v /\ item_ids v <> []
            /\ path v = vault_path [lit "v"] sample_id_of /\ @vault_inv sample_prims sample_codec v (cn_world conn_item).
Proof.
  destruct (vault (dm_state (cn_daemon conn_item)) sample_id_of) as [v|] eqn:Ev.
  2:{ exfalso. vm_compute in Ev. discriminate. }
  exists v. split; [reflexivity|]. split.
  { assert (Hn : (fun o => match o with Some v => item_ids v | None => [] end)
                   (vault (dm_state (cn_daemon conn_item)) sample_id_of) <> []) by (vm_compute; discriminate).
    rewrite Ev in Hn. exact Hn. }
  apply (bus_vaults_match_files sample_env sample_prims sample_codec sample_text sample_session sample_bus
    sample_env_ok sample_prims_ok sample_codec_ok sample_bus_ok (fun _ => []) (fun _ => Ok tt) [lit "v"] 0
    sample_start_world conn_item sample_id_of v); [|exact Ev].
  eapply rtc_l; [apply (b_daemon (fun _ => []) (fun _ => Ok tt) conn_start sample_daemon sample_daemon_world)|].
  { apply (d_create (fun _ => []) (fun _ => Ok tt) 5 (lit "Login") (Some (lit "default")) sample_password sample_kdf
      (fst (fst (fst sample_created))) (snd (fst (fst sample_created))) sample_start sample_start_world
      (dm_state sample_daemon) sample_daemon_world); [apply sample_login_wf|apply sample_kdf_wf|exact sample_created_eq]. }
  eapply rtc_l.
  { apply (b_call (fun _ => []) (fun _ => Ok tt) (@MOpenSession sample_bus ALGORITHM_PLAIN (VStr [])) sample_client 5). exact I. }
  apply rtc_once. apply (b_call (fun _ => []) (fun _ => Ok tt) create_sample).
  unfold str_wf. apply (bool_decide_unpack _). vm_compute. exact I.
Defined.
