(* ===== verification/BusCalls.v ===== *)
(** * What the calls on the bus answer

    [GetSecrets], [CreateItem] followed by [GetSecret], and [Unlock]: who gets
    which secret under which cipher, and what each call leaves behind. *)
From S2P Require Import Prelude Text Env Crypto Codec Format Sanitize Names Files Sweep Store StoreInv StoreOps StoreKeys StoreProps StoreFrame Aliases Session State Protocol Daemon Bus Handlers Batch BusProps.

Open Scope bus_scope.

(** ** [GetSecrets] *)

(** The requests in a plan under construction. *)
Definition requests (w : list (str * list (str * str) * Vault)) : list (str * str * Vault) :=
  flat_map (fun '(_, l, v) => map (fun '(p, i) => (p, i, v)) l) w.

Definition wanted_ok (st : ServiceState) (w : list (str * list (str * str) * Vault)) (group : gmap str nat) : Prop :=
  forall id slot, group !! id = Some slot -> exists l v, w !! slot = Some (id, l, v) /\ collections st !! id = Some v.

Lemma elem_of_requests (w : list (str * list (str * str) * Vault)) x : x ∈ requests w <-> exists slot id l v p i, w !! slot = Some (id, l, v) /\ (p, i) ∈ l /\ x = (p, i, v).
Proof.
  unfold requests. rewrite list_elem_of_In, in_flat_map. split.
  - intros ([[id l] v] & Hin%list_elem_of_In & Hx). apply list_elem_of_lookup_1 in Hin as [slot Hs].
    apply in_map_iff in Hx as ([p i] & <- & Hp%list_elem_of_In). eauto 10.
  - intros (slot & id & l & v & p & i & Hs & Hp & ->). exists (id, l, v). split.
    + apply list_elem_of_In. by eapply list_elem_of_lookup_2.
    + apply in_map_iff. exists (p, i). split; [done|by apply list_elem_of_In].
Qed.

(** One more request in the group at [slot]. *)
Lemma requests_push (w : list (str * list (str * str) * Vault)) slot id l v p i x : w !! slot = Some (id, l, v) ->
  x ∈ requests (alter (fun '(id, l, v) => (id, l ++ [(p, i)], v)) slot w) <-> x ∈ requests w \/ x = (p, i, v).
Proof.
  intros Hs.
  rewrite !elem_of_requests. setoid_rewrite list_lookup_alter. split.
  - intros (s & id' & l' & v' & q & j & Hw & Hq & ->). case_decide as Hd; [|left; eauto 10]. subst s. rewrite Hs in Hw.
    injection Hw as <- <- <-. apply elem_of_app in Hq as [Hq|[= -> ->]%list_elem_of_singleton]; [left; eauto 10|by right].
  - intros [(s & id' & l' & v' & q & j & Hw & Hq & ->)| ->].
    + destruct (decide (slot = s)) as [<-|Hne].
      * exists slot, id, (l ++ [(p, i)]), v, q, j. rewrite decide_True, Hs by done. rewrite Hs in Hw. injection Hw as <- <- <-.
          split_and!; [done| |done]. apply elem_of_app. by left.
      * exists s, id', l', v', q, j. by rewrite decide_False.
    + exists slot, id, (l ++ [(p, i)]), v, p, i. rewrite decide_True, Hs by done. split_and!; [done| |done].
       apply elem_of_app. right. by left.
Qed.

Lemma collect_wanted_spec st items (w : list (str * list (str * str) * Vault)) group x : wanted_ok st w group ->
  x ∈ requests (collect_wanted st items w group)
  <-> x ∈ requests w \/ exists p id v i, p ∈ items /\ resolve_path st p = Some (PTItem id v i) /\ x = (p, i, v).
Proof.
  revert w group. induction items as [|p items IH]; intros w group Hok; cbn [collect_wanted]; unfold wanted in *.
  { split; [by left|]. intros [?|(p & ? & ? & ? & Hp & _)]; [done|]. by apply not_elem_of_nil in Hp. }
  assert (Hskip : (forall id v i, resolve_path st p <> Some (PTItem id v i)) ->
    (exists q id v i, q ∈ p :: items /\ resolve_path st q = Some (PTItem id v i) /\ x = (q, i, v))
    <-> exists q id v i, q ∈ items /\ resolve_path st q = Some (PTItem id v i) /\ x = (q, i, v)).
  { intros Hno. split; intros (q & id & v & i & Hq & Hr & ->); exists q, id, v, i; split_and!; try done; [|by right].
    apply elem_of_cons in Hq as [->|?]; [by apply Hno in Hr|done]. }
  destruct (resolve_path st p) as [[id v|id|id v i]|] eqn:Er; try (rewrite IH by done; by rewrite Hskip).
  pose proof (resolve_path_vault _ _ _ Er) as Hv. cbn in Hv.
  assert (Hone : (exists q id v i, q ∈ p :: items /\ resolve_path st q = Some (PTItem id v i) /\ x = (q, i, v))
    <-> x = (p, i, v) \/ exists q id v i, q ∈ items /\ resolve_path st q = Some (PTItem id v i) /\ x = (q, i, v)).
  { split.
    - intros (q & id' & v' & i' & Hq & Hr & ->). apply elem_of_cons in Hq as [->|Hq]; [left; congruence|right; eauto 10].
    - intros [->|(q & id' & v' & i' & Hq & Hr & ->)]; [exists p, id, v, i|exists q, id', v', i']; (split_and!; [|done..]); [by left|by right]. }
  rewrite Hone. destruct (group !! id) as [slot|] eqn:Eg.
  - destruct (Hok id slot Eg) as (l & v' & Hs & Hv'). assert (v' = v) as -> by congruence. rewrite IH.
    + rewrite (requests_push w slot id l v p i x Hs). tauto.
    + intros id' s Hg. rewrite list_lookup_alter. destruct (Hok id' s Hg) as (l' & v' & Hs' & Hv''). case_decide as Hd; [|eauto].
      subst s. rewrite Hs' . cbn. eauto.
  - rewrite IH.
    + assert (x ∈ requests (w ++ [(id, [(p, i)], v)]) <-> x ∈ requests w \/ x = (p, i, v)); [|tauto].
      unfold requests. rewrite flat_map_app, elem_of_app. cbn. by rewrite list_elem_of_singleton.
    + intros id' s. destruct (decide (id' = id)) as [->|Hne].
      * rewrite lookup_insert_eq. intros [= <-]. exists [(p, i)], v. split; [by apply list_lookup_middle|done].
      * rewrite lookup_insert_ne by done. intros Hg. destruct (Hok id' s Hg) as (l' & v' & Hs' & Hv'').
        exists l', v'. split; [|done]. by apply lookup_app_l_Some.
Qed.

(** The item a path lets one read now. *)
Definition readable (st : ServiceState) (p : str) : option Item :=
  match resolve_path st p with
  | Some (PTItem _ v i) => match item v i with Ok it => Some it | Err _ => None end
  | _ => None
  end.

Lemma plan_spec st items p sec ct :
  (p, sec, ct) ∈ plan_of (collect_wanted st items [] ∅)
  <-> p ∈ items /\ exists it, readable st p = Some it /\ sec = secret it /\ ct = content_type it.
Proof.
  trans (exists i v it, (p, i, v) ∈ requests (collect_wanted st items [] ∅) /\ item v i = Ok it /\ sec = secret it /\ ct = content_type it).
  - unfold plan_of. rewrite list_elem_of_In, in_flat_map. setoid_rewrite elem_of_requests. split.
    + intros ([[id l] v] & Hin%list_elem_of_In & Hx). apply list_elem_of_lookup_1 in Hin as [slot Hs].
      apply list_elem_of_In, list_elem_of_omap in Hx as ([q i] & Hq & Hx). destruct (item v i) as [it|e] eqn:Ei; [|done].
      injection Hx as <- <- <-. exists i, v, it. split_and!; try done. eauto 10.
    + intros (i & v & it & (slot & id & l & v' & q & j & Hs & Hq & [= -> -> ->]) & Hi & -> & ->). exists (id, l, v'). split.
      * apply list_elem_of_In. by eapply list_elem_of_lookup_2.
      * apply list_elem_of_In, list_elem_of_omap. exists (q, j). split; [done|]. by rewrite Hi.
  - setoid_rewrite collect_wanted_spec; [|by intros ? ?; rewrite lookup_empty]. unfold readable. cbn. split.
    + intros (i & v & it & [Hn|(q & id & v' & j & Hq & Hr & [= -> -> ->])] & Hi & -> & ->); [by apply not_elem_of_nil in Hn|].
      split; [done|]. rewrite Hr, Hi. eauto.
    + intros (Hp & it & Hr & -> & ->). destruct (resolve_path st p) as [[| |id v i]|] eqn:Er; try done.
      destruct (item v i) as [it'|] eqn:Ei; [|done]. injection Hr as ->. exists i, v, it. split_and!; try done. right. eauto 10.
Qed.

Section get_secrets.
Context `{HE : Env} `{HP : Prims} `{HC : VaultCodec} `{HA : AliasText} `{HS : SessionPrims} `{HB : Bus}.
Context `{!SessionPrimsOk HS}.

Definition carries (session : str) (cipher : SessionCipher) (s : SecretStruct) (sec : bytes) (ct : str) : Prop :=
  ss_session s = session /\ ss_content_type s = ct /\ decrypt cipher (ss_parameters s) (ss_value s) = Ok sec.

(** What the client decrypts is what was encrypted. *)
Lemma encrypt_decrypts cipher m w params value w' :
  encrypt cipher m w = (Some (params, value), w') -> decrypt cipher params value = Ok m.
Proof.
  unfold encrypt, decrypt, random_bytes. destruct cipher as [|k]; [by intros [= <- <- _]|].
  destruct (random 16 w) as [[iv|] w1] eqn:Er; [|done]. intros [= <- <- _].
  assert (length iv = 16%nat) as Hl by (apply (length_random 16 w); by rewrite Er).
  rewrite Hl. cbn [Nat.eqb negb]. by rewrite aes_cbc_roundtrip.
Qed.

Lemma encrypt_plan_spec session cipher plan out c r c' : encrypt_plan session cipher plan out c = (r, c') ->
  cn_daemon c' = cn_daemon c /\ fs (cn_world c') = fs (cn_world c) /\ cn_objects c' = cn_objects c /\ cn_signals c' = cn_signals c
  /\ match r with
     | Some (Ok m) =>
       (forall p s, m !! p = Some s -> out !! p = Some s \/ exists sec ct, (p, sec, ct) ∈ plan /\ carries session cipher s sec ct)
       /\ (forall p, is_Some (out !! p) -> is_Some (m !! p))
       /\ (forall p sec ct, (p, sec, ct) ∈ plan -> is_Some (m !! p))
     | Some (Err _) => False
     | None => cipher <> Plain
     end.
Proof.
  revert out c. induction plan as [|[[p sec] ct] plan IH]; intros out c; cbn [encrypt_plan].
  { intros [= <- <-]. split_and!; try done; [by left|]. intros p sec ct Hin. by apply not_elem_of_nil in Hin. }
  unfold hbind, on_world. pose proof (encrypt_fs cipher sec (cn_world c)) as Hfs.
  destruct (encrypt cipher sec (cn_world c)) as [[[params value]|] w1] eqn:Ee; cbn [snd] in Hfs.
  - intros (Hd & Hf & Ho & Hs & Hr)%IH. cbn in Hd, Hf, Ho, Hs. split_and!; try congruence.
    destruct r as [[m|e]|]; [|done..]. destruct Hr as (Hm & Hout & Hp). split_and!.
    + intros q s Hq. apply Hm in Hq as [Hq|(sec' & ct' & Hin & Hc)]; [|right; exists sec', ct'; split; [by right|done]].
      destruct (decide (q = p)) as [->|Hne]; [|left; by rewrite lookup_insert_ne in Hq by done].
      rewrite lookup_insert_eq in Hq. injection Hq as <-. right. exists sec, ct. split; [by left|]. split_and!; [done..|].
      by eapply encrypt_decrypts.
    + intros q Hq. apply Hout. destruct (decide (q = p)) as [->|Hne]; [by rewrite lookup_insert_eq|by rewrite lookup_insert_ne].
    + intros q sec' ct' Hin. apply elem_of_cons in Hin as [[= -> -> ->]|Hin]; [|by eapply Hp]. apply Hout. by rewrite lookup_insert_eq.
  - intros [= <- <-]. cbn. split_and!; try done. by destruct cipher.
Qed.
End get_secrets.

(** C10. [GetSecrets] hands out exactly what the caller may read. A caller whose
    session this is, asking for at most 1024 paths, gets an entry for each path
    that names an item of an unlocked collection and for nothing else, each
    decrypting under that session's cipher to that item's secret with its
    content type; neither the state nor the disk, the exported objects or the
    signals change. Without a sender, with a session of somebody else or of
    nobody, or with more paths, the answer is an error and nothing changes, not
    even the time of the last activity. *)
Theorem get_secrets_exact (HE : Env) (HS : SessionPrims) (HSo : SessionPrimsOk HS)
    (items : list str) (session : str) (sender : option str) (at_ : Z) (c : conn) :
  let st := dm_state (cn_daemon c) in
  let '(r, c') := get_secrets items session sender at_ c in
  if MAX_GET_SECRETS_ITEMS <? zlen items then r = Some (Err (too_many (lit "items") MAX_GET_SECRETS_ITEMS)) /\ c' = c
  else
    match sender with
    | None => r = Some (Err ENoSession) /\ c' = c
    | Some who =>
      match session_cipher st session who with
      | Err _ => r = Some (Err ENoSession) /\ c' = c
      | Ok cipher =>
        dm_state (cn_daemon c') = st /\ dm_last_activity (cn_daemon c') = at_
        /\ fs (cn_world c') = fs (cn_world c) /\ cn_objects c' = cn_objects c /\ cn_signals c' = cn_signals c
        /\ match r with
           | Some (Ok m) =>
             (forall p s, m !! p = Some s -> p ∈ items /\ exists it, readable st p = Some it
                 /\ ss_session s = session /\ ss_content_type s = content_type it
                 /\ decrypt cipher (ss_parameters s) (ss_value s) = Ok (secret it))
             /\ (forall p, p ∈ items -> is_Some (readable st p) -> is_Some (m !! p))
           | Some (Err _) => False
           | None => cipher <> Plain
           end
      end
    end.
Proof.
  cbv zeta. destruct (get_secrets items session sender at_ c) as [r c'] eqn:E. revert E. unfold get_secrets.
  destruct (_ <? _); [by intros [= <- <-]|]. unfold hbind at 1, require, require_sender. destruct sender as [who|]; [|by intros [= <- <-]].
  cbn [ok_or]. unfold hbind, lock_state, touch_state. cbn [fst snd].
  destruct (session_cipher (dm_state (cn_daemon c)) session who) as [cipher|e] eqn:Ec; cbn [map_err].
  2:{ intros [= <- <-]. unfold session_cipher in Ec. destruct (sessions _ !! session); [case_bool_decide; [done|]|]; by injection Ec as <-. }
  intros (Hd & Hf & Ho & Hs & Hr)%encrypt_plan_spec. cbn in Hd, Hf, Ho, Hs. rewrite Hd. split_and!; try done.
  destruct r as [[m|e]|]; [|done..]. destruct Hr as (Hm & _ & Hp). split.
  - intros p s Hq. apply Hm in Hq as [Hq|(sec & ct & Hin & Hc1 & Hc2 & Hc3)]; [by rewrite lookup_empty in Hq|].
    apply plan_spec in Hin as (Hin & it & Hit & -> & ->). split; [done|]. by exists it.
  - intros p Hin [it Hit]. eapply Hp. apply plan_spec. split; [done|]. by exists it.
Qed.

(** ** Calls that succeed *)

Lemma hbind_Ok {A B E} (m : handler A E) (k : A -> handler B E) c b c' : hbind m k c = (Some (Ok b), c') ->
  exists a c1, m c = (Some (Ok a), c1) /\ k a c1 = (Some (Ok b), c').
Proof. unfold hbind. destruct (m c) as [[[a|e]|] c1]; try done. eauto. Qed.

Lemma require_Ok {A E} (r : result A E) c a c' : require r c = (Some (Ok a), c') -> r = Ok a /\ c' = c.
Proof. by intros [= -> <-]. Qed.

Lemma or_panic_Ok {A E} (o : option A) c a c' : or_panic (E := E) o c = (Some (Ok a), c') -> o = Some a /\ c' = c.
Proof. unfold or_panic. destruct o; [|done]. by intros [= -> <-]. Qed.

Lemma Ok_inj {A E} (a b : A) : Ok (E := E) a = Ok b -> a = b.
Proof. by intros [= ->]. Qed.

Lemma map_err_Ok {A E F} (f : E -> F) (r : result A E) a : map_err f r = Ok a -> r = Ok a.
Proof. destruct r; [by intros [= ->]|done]. Qed.

(** Walk a successful run down to its end. *)
Ltac bus_ok :=
  repeat match goal with
  | H : hbind _ _ _ = (Some (Ok _), _) |- _ => apply hbind_Ok in H as (? & ? & ? & ?)
  | H : require _ _ = (Some (Ok _), _) |- _ => apply require_Ok in H as [? ->]
  | H : or_panic _ _ = (Some (Ok _), _) |- _ => apply or_panic_Ok in H as [? ->]
  | H : lock_state _ = (Some (Ok _), _) |- _ => injection H as <- <-
  | H : hret _ _ = (Some (Ok _), _) |- _ => injection H as <- <-
  | H : herr _ _ = (Some (Ok _), _) |- _ => discriminate H
  | H : map_err _ _ = Ok _ |- _ => apply map_err_Ok in H
  | H : ok_or _ _ = Ok _ |- _ => apply ok_or_Ok in H
  | H : (if ?b then _ else _) _ = (Some (Ok _), _) |- _ => destruct b eqn:?
  | H : (let '(_, _) := ?x in _) _ = (Some (Ok _), _) |- _ => destruct x
  end.

Section create.
Context `{HE : Env} `{HP : Prims} `{HC : VaultCodec} `{HA : AliasText} `{HS : SessionPrims} `{HB : Bus}.

Lemma create_item_Ok target props secret replace sender at_ c p root c' :
  create_item target props secret replace sender at_ c = (Some (Ok (p, root)), c') ->
  let st := dm_state (cn_daemon c) in
  exists who l attrs id cipher v m iid replaced v' w',
    sender = Some who /\ prop_string props (lit "org.freedesktop.Secret.Item.Label") = Ok l
    /\ prop_attributes props (lit "org.freedesktop.Secret.Item.Attributes") = Ok attrs
    /\ collection_id target st = Ok id /\ session_cipher st (ss_session secret) who = Ok cipher
    /\ vault st id = Some v /\ receive_secret cipher secret = Ok m
    /\ insert_item (default [] l) attrs m (ss_content_type secret) replace v (cn_world c) = (Ok (iid, replaced), v', w')
    /\ cn_daemon c' = touch (with_state_of (cn_daemon c) (put_vault st id v')) at_ /\ fs (cn_world c') = fs w'
    /\ pitem id iid = Some p /\ root = ROOT.
Proof.
  unfold create_item. intros E. bus_ok.
  all: match goal with H : on_vault ?id ?v ?op ?c = _ |- _ => unfold on_vault in H;
         destruct (op v (cn_world c)) as [[r v'] w'] eqn:Ei; injection H as <- <- end.
  all: match goal with H : touch_state _ _ = _ |- _ => injection H as _ <- end.
  all: match goal with H : require_sender _ = Ok ?w |- _ => unfold require_sender in H; apply ok_or_Ok in H as -> end.
  all: subst; match goal with H : emit_signal ?s ?c1 = _ |- _ =>
         destruct (inert_emit s c1) as [Hd Hf]; rewrite H in Hd, Hf; cbn in Hd, Hf end.
  2: match goal with H : with_zbus ?m ?c1 = (_, ?c2) |- _ =>
       destruct (inert_with_zbus m (inert_register_item _ _) c1) as [Hd1 Hf1]; rewrite H in Hd1, Hf1; cbn in Hd1, Hf1;
       rewrite Hd1 in Hd; rewrite Hf1 in Hf end.
  all: do 11 eexists; split_and!; try done; by eauto.
Qed.
End create.

Lemma find_unique {A} (p : A -> bool) (l : list A) (x : A) : x ∈ l -> p x = true ->
  (forall y, y ∈ l -> p y = true -> y = x) -> find p l = Some x.
Proof.
  induction l as [|a l IH]; intros Hin Hp Hu; [by apply not_elem_of_nil in Hin|]. cbn. destruct (p a) eqn:Ea.
  - f_equal. apply Hu; [by left|done].
  - apply elem_of_cons in Hin as [->|Hin]; [congruence|]. apply IH; [done..|]. intros y Hy. apply Hu. by right.
Qed.

Lemma find_id its i : NoDup (map i_id its) -> i ∈ its -> find (fun x => str_eqb (i_id x) (i_id i)) its = Some i.
Proof.
  intros Hnd Hin. apply find_unique; [done|by apply str_eqb_eq|]. intros y Hy He%str_eqb_eq.
  apply list_elem_of_lookup_1 in Hin as [n Hn]. apply list_elem_of_lookup_1 in Hy as [k Hk].
  assert (n = k) as <-; [|congruence]. eapply (NoDup_lookup _ _ _ _ Hnd); rewrite list_lookup_fmap; [rewrite Hn|rewrite Hk; cbn; rewrite He]; done.
Qed.

Section roundtrip.
Context `{HE : Env} `{HP : Prims} `{HC : VaultCodec} `{HA : AliasText} `{HS : SessionPrims} `{HB : Bus}.
Context `{!EnvOk HE} `{!PrimsOk HP} `{!VaultCodecOk HC} `{!BusOk HB} `{!SessionPrimsOk HS}.

Lemma receive_secret_decrypts cipher secret m : receive_secret cipher secret = Ok m ->
  decrypt cipher (ss_parameters secret) (ss_value secret) = Ok m.
Proof.
  unfold receive_secret. destruct (decrypt cipher _ _) as [x|]; [|done]. cbn. destruct (cap_check _ _); [done|]. by intros [= ->].
Qed.

(** What [GetSecret] answers to the owner of a session. *)
Lemma get_secret_reads cid iid session who at_ cipher v it c :
  session_cipher (dm_state (cn_daemon c)) session who = Ok cipher ->
  vault (dm_state (cn_daemon c)) cid = Some v -> item v iid = Ok it ->
  match fst (get_secret cid iid session (Some who) at_ c) with
  | Some (Ok s) => carries session cipher s (secret it) (content_type it)
  | Some (Err _) => False
  | None => cipher <> Plain
  end.
Proof.
  intros Hc Hv Hi. unfold get_secret, hbind, lock_state, require, require_sender, ok_or. rewrite Hc. cbn [map_err]. rewrite Hv, Hi. cbn [map_err].
  unfold on_world. destruct (encrypt cipher (secret it) (cn_world c)) as [[[params value]|] w1] eqn:Ee; cbn.
  - split_and!; [done..|]. by eapply encrypt_decrypts.
  - by destruct cipher.
Qed.

(** The stored item after a creation. *)
Lemma created_item target props secret replace sender at_ c p root c' d : conn_ok d c -> str_wf (ss_content_type secret) ->
  create_item target props secret replace sender at_ c = (Some (Ok (p, root)), c') ->
  let st := dm_state (cn_daemon c) in
  exists who cipher m id iid v its it,
    sender = Some who /\ session_cipher st (ss_session secret) who = Ok cipher
    /\ decrypt cipher (ss_parameters secret) (ss_value secret) = Ok m
    /\ collection_id target st = Ok id /\ pitem id iid = Some p /\ root = ROOT
    /\ vault (dm_state (cn_daemon c')) id = Some v /\ items v = Ok its
    /\ it ∈ its /\ i_id it = iid /\ Format.secret it = m /\ content_type it = ss_content_type secret.
Proof.
  intros [Hok Hd] Hct E. cbv zeta. apply create_item_Ok in E as (who & l & attrs & id & cipher & v & m & iid & rep & v' & w' & Hs & Hl & Ha & Hid & Hc & Hv & Hr & Hi & Hd' & _ & Hp & Hroot).
  pose proof (Hok id v Hv) as [_ Hinv]. apply insert_item_outcome in Hi; [|done| |by eapply prop_attributes_wf|done].
  2:{ destruct l as [l|]; [by eapply prop_string_wf|constructor]. }
  destruct Hi as (key & its & its' & t & _ & _ & (_ & Hst & _) & Hrep).
  assert (Hit : exists it, it ∈ its' /\ i_id it = iid /\ Format.secret it = m /\ content_type it = ss_content_type secret).
  { destruct rep.
    - destruct Hrep as (_ & q & prior & _ & Hq & -> & ->). exists (overwritten prior (default [] l) m (ss_content_type secret) t).
      split_and!; try done. eapply list_elem_of_lookup_2. apply list_lookup_insert_eq. by eapply lookup_lt_Some.
    - destruct Hrep as (_ & ->). exists (new_item iid (default [] l) attrs m (ss_content_type secret) t). split_and!; try done.
      apply elem_of_app. right. by left. }
  destruct Hit as (it & Hin & Hid' & Hsec & Hct').
  exists who, cipher, m, id, iid, v', its', it. split_and!; try done.
  - by apply receive_secret_decrypts.
  - rewrite Hd'. cbn. unfold vault, put_vault. cbn. by rewrite lookup_insert_eq.
  - unfold items. by rewrite Hst.
Qed.
End roundtrip.

(** C9. A secret survives the bus. When [CreateItem] succeeds, the sender owns
    the session the secret names, and what its cipher decrypts the value to is
    stored: whoever then asks for that item's secret under a session of their
    own gets a value that decrypts, under that session's cipher, to the same
    bytes with the same content type; the only other outcome is a machine
    without randomness. Item ids are taken to be distinct, as the random ids
    make them. *)
Theorem create_get_roundtrip (HE : Env) (HP : Prims) (HC : VaultCodec) (HS : SessionPrims) (HB : Bus)
    (HEo : EnvOk HE) (HPo : PrimsOk HP) (HCo : VaultCodecOk HC) (HBo : BusOk HB) (HSo : SessionPrimsOk HS)
    (d : fpath) (target : CollectionRef) (props : gmap str ovalue) (s : SecretStruct) (replace : bool)
    (sender : option str) (at_ : Z) (c : conn) (p root : str) (c' : conn) :
  conn_ok d c -> str_wf (ss_content_type s) ->
  create_item target props s replace sender at_ c = (Some (Ok (p, root)), c') ->
  (forall id v its, vault (dm_state (cn_daemon c')) id = Some v -> items v = Ok its -> NoDup (map i_id its)) ->
  exists who cipher m id iid,
    sender = Some who /\ session_cipher (dm_state (cn_daemon c)) (ss_session s) who = Ok cipher
    /\ decrypt cipher (ss_parameters s) (ss_value s) = Ok m
    /\ collection_id target (dm_state (cn_daemon c)) = Ok id /\ pitem id iid = Some p /\ root = ROOT
    /\ forall session reader at2 cipher2, session_cipher (dm_state (cn_daemon c')) session reader = Ok cipher2 ->
       match fst (get_secret id iid session (Some reader) at2 c') with
       | Some (Ok r) => ss_session r = session /\ ss_content_type r = ss_content_type s
                        /\ decrypt cipher2 (ss_parameters r) (ss_value r) = Ok m
       | Some (Err _) => False
       | None => cipher2 <> Plain
       end.
Proof.
  intros Hok Hct E Hnd.
  destruct (created_item _ _ _ _ _ _ _ _ _ _ d Hok Hct E) as (who & cipher & m & id & iid & v & its & it & Hs & Hc & Hm & Hid & Hp & Hr & Hv & Hi & Hin & Hiid & <- & <-).
  exists who, cipher, (secret it), id, iid. split_and!; try done. intros session reader at2 cipher2 Hc2.
  apply (get_secret_reads id iid session reader at2 cipher2 v it c'); [done..|].
  unfold item. rewrite Hi. cbn. rewrite <- Hiid, find_id; [done| |done]. by eapply Hnd.
Qed.

(** ** [Unlock] *)

(** *** Raising a prompt *)

Lemma raise_prompt_spec `{HE : Env} `{HB : Bus} (who : str) (work : PromptWork) (c : conn) :
  let st := dm_state (cn_daemon c) in
  let '(r, c') := raise_prompt who work c in
  if (MAX_PROMPTS_PER_OWNER <=? size (prompts_of st who))%nat
  then r = Some (Err (failed (lit "too many outstanding prompts"))) /\ c' = c
  else
    collections (dm_state (cn_daemon c')) = collections st /\ sessions (dm_state (cn_daemon c')) = sessions st
    /\ fs (cn_world c') = fs (cn_world c)
    /\ match r with
       | Some (Ok p) =>
         prompt_owners (dm_state (cn_daemon c')) = <[p := who]> (prompt_owners st)
         /\ cn_prompts c' !! p = Some work /\ (p, IPrompt) ∈ cn_objects c'
       | _ => prompt_owners (dm_state (cn_daemon c')) ⊆ prompt_owners st /\ cn_prompts c' = cn_prompts c
       end.
Proof.
  cbv zeta. unfold raise_prompt, admit_prompt, new_prompt_path, insert_prompt, remove_prompt, hbind, lock_state, require, check_prompt_quota, put_state, on_world, or_panic.
  destruct (_ <=? _)%nat; cbn; [done|]. destruct (env_rng _) as [f|]; cbn; [|done].
  destruct (prompt_path _ _ _) as [p|]; cbn; [|done]. unfold export_or, export. destruct (server_at _ p IPrompt) as [e|]; cbn.
  - split_and!; try done. rewrite delete_insert_eq. apply delete_subseteq.
  - split_and!; try done; [by rewrite lookup_insert_eq|set_solver].
Qed.

(** C12. [Unlock] raises a prompt exactly when something named is locked. With a
    sender and at most 1024 paths, the reply lists the paths that are usable
    now, in the order asked; if no path names anything locked there is no
    prompt and nothing changes; otherwise, within the caller's quota and once
    the prompt is exported, the prompt is owned by the caller and is to open
    exactly the collections that are locked, each once and in the order first
    named. Paths that name nothing are ignored. *)
Theorem unlock_call_exact (HE : Env) (HB : Bus) (objects : list str) (who : str) (c : conn) :
  zlen objects <= MAX_LOCK_OBJECTS ->
  let st := dm_state (cn_daemon c) in
  let usable := List.filter (is_unlocked_path st) objects in
  let closed := firsts (omap (locked_target st) objects) in
  let '(r, c') := service_unlock objects (Some who) c in
  if bool_decide (closed = []) then r = Some (Ok (usable, ROOT)) /\ c' = c
  else if (MAX_PROMPTS_PER_OWNER <=? size (prompts_of st who))%nat
  then r = Some (Err (failed (lit "too many outstanding prompts"))) /\ c' = c
  else
    collections (dm_state (cn_daemon c')) = collections st /\ sessions (dm_state (cn_daemon c')) = sessions st
    /\ fs (cn_world c') = fs (cn_world c)
    /\ match r with
       | Some (Ok (unlocked, p)) =>
         unlocked = usable /\ prompt_owners (dm_state (cn_daemon c')) = <[p := who]> (prompt_owners st)
         /\ cn_prompts c' !! p = Some (WUnlock closed (List.filter (names_locked st) objects))
         /\ (p, IPrompt) ∈ cn_objects c'
       | _ => prompt_owners (dm_state (cn_daemon c')) ⊆ prompt_owners st /\ cn_prompts c' = cn_prompts c
       end.
Proof.
  intros Hn. cbv zeta. unfold service_unlock, hbind, require, check_object_count, require_sender.
  destruct (Z.ltb_spec MAX_LOCK_OBJECTS (zlen objects)); [lia|]. cbn [ok_or]. unfold lock_state. rewrite judge_closed.
  destruct (firsts (omap _ objects)) as [|id ids]; [by rewrite bool_decide_true|]. rewrite bool_decide_false by done.
  pose proof (raise_prompt_spec who (WUnlock (id :: ids) (List.filter (names_locked (dm_state (cn_daemon c))) objects)) c) as Hr.
  cbv zeta in Hr. destruct (raise_prompt who _ c) as [[[p|e]|] c1]; unfold hret; destruct (_ <=? _)%nat; try done.
  - by destruct Hr as [[=] _].
  - by destruct Hr as (? & ? & ? & ? & ? & ?).
  - by destruct Hr as [[= ->] ->].
  - by destruct Hr.
Qed.

(** ** The properties at concrete inputs *)

Definition sample_create_item (c : conn) : option (result (str * str) BusError) * conn :=
  @create_item sample_env sample_prims sample_codec sample_session sample_bus (RefAlias (lit "default"))
    {[ sample_label_key := VStr (lit "Key") ]} sample_secret false sample_client 5 c.

(** The path of the item that was stored. *)
Definition sample_item_path : str :=
  match fst (sample_create_item conn_session) with Some (Ok (p, _)) => p | _ => [] end.

Definition sample_get : option (result (gmap str SecretStruct) BusError) * conn :=
  @get_secrets sample_env sample_session [sample_item_path; ROOT] sample_session_path sample_client 9 conn_item.

Definition sample_map : gmap str SecretStruct := match fst sample_get with Some (Ok m) => m | _ => ∅ end.

Lemma sample_get_eq : sample_get = (Some (Ok sample_map), snd sample_get).
Proof.
  assert (Hok : match fst sample_get with Some (Ok _) => true | _ => false end = true) by (vm_compute; reflexivity).
  revert Hok. unfold sample_map. by destruct sample_get as [[[m|e]|] c].
Qed.

Lemma sample_owner : session_cipher (dm_state (cn_daemon conn_item)) sample_session_path (lit ":1.7") = Ok Plain.
Proof. vm_compute. reflexivity. Qed.

Lemma sample_readable : is_Some (readable (dm_state (cn_daemon conn_item)) sample_item_path)
                        /\ readable (dm_state (cn_daemon conn_item)) ROOT = None.
Proof. split; [apply (bool_decide_unpack _); vm_compute; exact I|vm_compute; reflexivity]. Qed.

Lemma get_secrets_exact_witness :
  exists s it, sample_map !! sample_item_path = Some s
    /\ readable (dm_state (cn_daemon conn_item)) sample_item_path = Some it /\ ss_value s = secret it /\ sample_map !! ROOT = None.
Proof.
  pose proof (get_secrets_exact sample_env sample_session sample_session_ok
    [sample_item_path; ROOT] sample_session_path (Some (lit ":1.7")) 9 conn_item) as Hx.
  change (get_secrets _ _ _ _ _) with sample_get in Hx. rewrite sample_get_eq in Hx. cbv zeta in Hx. rewrite sample_owner in Hx.
  change (MAX_GET_SECRETS_ITEMS <? zlen [sample_item_path; ROOT]) with false in Hx.
  destruct Hx as (_ & _ & _ & _ & _ & Hs & Hp). destruct sample_readable as [[it Hit] Hroot].
  destruct (Hp sample_item_path) as [s Hsec]; [left|by rewrite Hit|]. destruct (Hs _ _ Hsec) as (_ & it' & Hit' & _ & _ & Hd).
  assert (it' = it) as -> by congruence. injection Hd as Hd.
  exists s, it. split; [exact Hsec|]. split; [exact Hit|]. split; [exact Hd|].
  destruct (sample_map !! ROOT) as [s'|] eqn:Er; [|reflexivity]. destruct (Hs _ _ Er) as (_ & it' & Hn & _). congruence.
Defined.

Lemma sample_created_ok : conn_ok (HP := sample_prims) (HC := sample_codec) [lit "v"] conn_created.
Proof.
  split; [|vm_compute; reflexivity].
  eapply (@create_collection_ok sample_env sample_prims sample_codec sample_text sample_env_ok sample_prims_ok sample_codec_ok);
    [|apply sample_login_wf|apply sample_kdf_wf|exact sample_created_eq].
  intros i x. cbn [service_new collections]. by rewrite lookup_empty.
Qed.

Lemma sample_session_conn_ok : conn_ok (HP := sample_prims) (HC := sample_codec) [lit "v"] conn_session.
Proof.
  apply (@dispatch_ok sample_env sample_prims sample_codec sample_text sample_session sample_bus sample_env_ok sample_prims_ok
    sample_codec_ok sample_bus_ok); [exact I|apply sample_created_ok].
Qed.

Lemma sample_create_eq : sample_create_item conn_session = (Some (Ok (sample_item_path, ROOT)), conn_item).
Proof.
  assert (Hok : match fst (sample_create_item conn_session) with Some (Ok (_, r)) => str_eqb r ROOT | _ => false end = true)
    by (vm_compute; reflexivity).
  assert (conn_item = snd (sample_create_item conn_session)) as -> by (unfold conn_item, sample_call, sample_create_item, create_sample; cbn [dispatch]; reflexivity).
  revert Hok. unfold sample_item_path.
  destruct (sample_create_item conn_session) as [[[[p r]|e]|] c]; cbn [fst snd]; try done. by intros ->%str_eqb_eq.
Qed.

Definition distinct_ids (v : Vault) : bool :=
  match items v with Ok its => bool_decide (NoDup (map i_id its)) | Err _ => true end.

Lemma map_checked {A} (f : A -> bool) (m : gmap str A) id v :
  forallb (fun kv => f (snd kv)) (map_to_list m) = true -> m !! id = Some v -> f v = true.
Proof. rewrite forallb_forall. intros Hall Hv. apply (Hall (id, v)), list_elem_of_In, elem_of_map_to_list, Hv. Qed.

(** The one item has one id. *)
Lemma sample_ids_distinct id v its : vault (dm_state (cn_daemon conn_item)) id = Some v -> items v = Ok its -> NoDup (map i_id its).
Proof.
  assert (Hall : forallb (fun kv => distinct_ids (snd kv)) (map_to_list (collections (dm_state (cn_daemon conn_item)))) = true)
    by (vm_compute; reflexivity).
  unfold vault. revert Hall. generalize (collections (dm_state (cn_daemon conn_item))). intros m Hall Hv Hi.
  apply (map_checked _ _ _ _ Hall) in Hv. unfold distinct_ids in Hv. rewrite Hi in Hv. by eapply bool_decide_eq_true.
Qed.

Lemma sample_target : collection_id (RefAlias (lit "default")) (dm_state (cn_daemon conn_session)) = Ok sample_id_of.
Proof. vm_compute. reflexivity. Qed.
Lemma sample_own_session : session_cipher (dm_state (cn_daemon conn_session)) sample_session_path (lit ":1.7") = Ok Plain.
Proof. vm_compute. reflexivity. Qed.

Lemma create_get_roundtrip_witness :
  exists iid, @pitem sample_bus sample_id_of iid = Some sample_item_path
    /\ match fst (@get_secret sample_env sample_session sample_id_of iid sample_session_path (Some (lit ":1.7")) 9 conn_item) with
       | Some (Ok r) => ss_value r = [x01; x02]
       | _ => False
       end.
Proof.
  destruct (create_get_roundtrip sample_env sample_prims sample_codec sample_session sample_bus sample_env_ok sample_prims_ok
    sample_codec_ok sample_bus_ok sample_session_ok [lit "v"] (RefAlias (lit "default")) {[ sample_label_key := VStr (lit "Key") ]}
    sample_secret false (Some (lit ":1.7")) 5 conn_session sample_item_path ROOT conn_item)
    as (who & cipher & m & id & iid & Hw & Hc & Hm & Hid & Hp & _ & Hg).
  - apply sample_session_conn_ok.
  - unfold str_wf. apply (bool_decide_unpack _). vm_compute. exact I.
  - exact sample_create_eq.
  - exact sample_ids_distinct.
  - rewrite sample_target in Hid. apply Ok_inj in Hid as <-. apply (inj Some) in Hw as <-.
    change (ss_session sample_secret) with sample_session_path in Hc.
    rewrite sample_own_session in Hc. apply Ok_inj in Hc as <-. apply Ok_inj in Hm as <-. exists iid. split; [exact Hp|].
    specialize (Hg sample_session_path (lit ":1.7") 9 Plain sample_owner).
    destruct (fst (get_secret _ _ _ _ _ _)) as [[r|e]|]; [|exact Hg|by apply Hg].
    destruct Hg as (_ & _ & Hd). apply Ok_inj in Hd as ->. reflexivity.
Defined.

Definition sample_lock_path : str := default [] (@pcollection sample_bus sample_id_of).
Definition conn_locked : conn := sample_call (@MLock sample_bus [sample_lock_path]) conn_item.
Definition sample_unlock : option (result (list str * str) BusError) * conn :=
  @service_unlock sample_env sample_bus [sample_lock_path; ROOT] (Some (lit ":1.7")) conn_locked.

Lemma sample_locked_facts :
  firsts (omap (locked_target (dm_state (cn_daemon conn_locked))) [sample_lock_path; ROOT]) = [sample_id_of]
  /\ List.filter (names_locked (dm_state (cn_daemon conn_locked))) [sample_lock_path; ROOT] = [sample_lock_path]
  /\ List.filter (is_unlocked_path (dm_state (cn_daemon conn_locked))) [sample_lock_path; ROOT] = []
  /\ (MAX_PROMPTS_PER_OWNER <=? size (prompts_of (dm_state (cn_daemon conn_locked)) (lit ":1.7")))%nat = false.
Proof. repeat split; vm_compute; reflexivity. Qed.

Lemma sample_unlock_ok : match fst sample_unlock with Some (Ok _) => true | _ => false end = true.
Proof. vm_compute. reflexivity. Qed.

Lemma unlock_call_exact_witness :
  exists p, fst sample_unlock = Some (Ok ([], p)) /\ cn_prompts (snd sample_unlock) !! p = Some (WUnlock [sample_id_of] [sample_lock_path]).
Proof.
  pose proof (unlock_call_exact sample_env sample_bus [sample_lock_path; ROOT] (lit ":1.7") conn_locked ltac:(vm_compute; discriminate)) as Hx.
  cbv zeta in Hx. destruct sample_locked_facts as (Ht & Hl & Hf & Hq). rewrite Ht, Hl, Hf, Hq in Hx.
  rewrite bool_decide_false in Hx by discriminate. pose proof sample_unlock_ok as Hok.
  unfold sample_unlock in *. revert Hx Hok. generalize (@service_unlock sample_env sample_bus [sample_lock_path; ROOT] (Some (lit ":1.7")) conn_locked).
  intros [[[[u p]|e]|] c'] Hx Hok; cbn [fst snd] in Hok |- *; [|discriminate Hok..].
  destruct Hx as (_ & _ & _ & -> & _ & Hp & _). exists p. split; [reflexivity|exact Hp].
Defined.

(** ** Registration *)

(** A vault file whose header lists one item under the id [iid]; headers are
    not authenticated before the vault is unlocked. *)
Definition tampered (iid : str) : world :=
  let h := {| version := VERSION; label := lit "Login"; created := 5; modified := 6; kdf := kdf_default;
              salt := repeat x01 16; index_salt := repeat x02 16; nonce := repeat x03 24;
              index := [{| ie_id := iid; attr_hashes := [] |}] |} in
  match @vault_file_new (@vc_header sample_codec) h [x00] with
  | Ok f => sample_world (vf_encode f)
  | Err _ => sample_world []
  end.

(** Start-up: scan the directory, merge, export everything. *)
Definition started_on (w : world) : option (VaultScan * option (result unit zbus_error)) :=
  match @scan_vault_dir sample_env sample_codec sample_text [lit "v"] true ∅ w with
  | (Ok scan, w) =>
    let st := fst (merge_scan (service_new [lit "v"]) scan) in
    Some (scan, fst (@register_all_objects sample_bus (Conn (MkDaemon st 0 0) w ∅ ∅ [])))
  | (Err _, _) => None
  end.

(** A corrupt header can take the daemon down. A vault file whose header
    names an item that is no object-path segment (here [a-b]) is not among the
    broken ones: it loads, and exporting its items panics, so the daemon does
    not start although other broken vault files are tolerated. The same file
    with a well-formed id starts. *)
Theorem malformed_id_stops_registration :
  (exists scan, started_on (tampered (lit "a-b")) = Some (scan, None)
                /\ sc_broken scan = [] /\ map fst (opened scan) = [lit "login"])
  /\ exists scan, started_on (tampered (lit "ab")) = Some (scan, Some (Ok tt)).
Proof. split; [eexists; split_and!|eexists]; vm_compute; reflexivity. Qed.
