(* ===== verification/Quota.v ===== *)
(** * Sessions and prompts under concurrent calls

    Calls run concurrently and give up the state lock in the middle: a key is
    generated between the two checks of [OpenSession], an object is exported
    after the entry is recorded.  Here the unit is one locked section, and the
    sections of any number of calls interleave in any order. *)
From S2P Require Import Prelude Text Env Crypto Codec Format Sanitize Names Files Sweep Store Aliases Session State Protocol Daemon Bus Handlers Batch BusProps.

Open Scope bus_scope.

(** ** A table of owned paths numbered by a counter *)

Section ledger.
Context {A : Type} (owner_of : A -> str) (limit : nat) (number : Z -> bytes -> option str).
Implicit Types (m : gmap str A) (n : Z).

Definition held_by (o : str) (m : gmap str A) : gmap str A := filter (fun kv => owner_of (snd kv) = o) m.

Inductive lstep : gmap str A * Z -> gmap str A * Z -> Prop :=
| l_add p e sfx m n : (size (held_by (owner_of e) m) < limit)%nat -> number (next_u64 n) sfx = Some p ->
    lstep (m, n) (<[p := e]> m, next_u64 n)
| l_bump m n : lstep (m, n) (m, next_u64 n)
| l_drop m m' n : m' ⊆ m -> lstep (m, n) (m', n).

(** Every path bears a number already given out. *)
Definition numbered (l : gmap str A * Z) : Prop :=
  0 <= snd l /\ forall p, is_Some (fst l !! p) -> exists k sfx, 1 <= k <= snd l /\ number k sfx = Some p.

Definition within_quota (l : gmap str A * Z) : Prop := forall o, (size (held_by o (fst l)) <= limit)%nat.

Lemma held_insert o p e m : (size (held_by o (<[p := e]> m))
  <= size (held_by o m) + (if bool_decide (owner_of e = o) then 1 else 0))%nat.
Proof.
  unfold held_by. case_bool_decide as Ho.
  - rewrite map_filter_insert_True by done. pose proof (map_size_insert p e (filter (fun kv => owner_of kv.2 = o) m)) as ->.
    destruct (_ !! p); cbn [id]; lia.
  - rewrite map_filter_insert_False by done. rewrite Nat.add_0_r. apply map_subseteq_size, map_filter_subseteq_mono.
    apply delete_subseteq.
Qed.

Lemma held_subset o m m' : m' ⊆ m -> (size (held_by o m') <= size (held_by o m))%nat.
Proof. intros Hm. apply map_subseteq_size. by apply map_filter_subseteq_mono. Qed.

Lemma lstep_quota l l' : lstep l l' -> within_quota l -> within_quota l'.
Proof.
  intros [p e sfx m n Hlt _|m n|m m' n Hs] Hq o; cbn.
  - pose proof (held_insert o p e m). specialize (Hq o). cbn in Hq. case_bool_decide as Ho; [subst o|]; lia.
  - apply Hq.
  - pose proof (held_subset o _ _ Hs). specialize (Hq o). cbn in Hq. lia.
Qed.

Lemma next_u64_small n k : 0 <= n <= k -> k < u64_max -> next_u64 n = n + 1.
Proof. intros Hn Hk. unfold next_u64. apply Z.mod_small. lia. Qed.

(** While the counter does not wrap. *)
Lemma lstep_numbered l l' k : lstep l l' -> snd l <= k -> k < u64_max -> numbered l ->
  numbered l' /\ snd l <= snd l' <= k + 1.
Proof.
  intros Hs Hk Hu [H0 Hn]. destruct Hs as [p e sfx m n _ Hp|m n|m m' n Hs]; cbn [fst snd] in *.
  - rewrite (next_u64_small n k) in * by lia. split; [|lia]. split; [cbn; lia|]. cbn. intros q Hq.
    destruct (decide (q = p)) as [->|Hne]; [exists (n + 1), sfx; split; [lia|done]|]. rewrite lookup_insert_ne in Hq by done.
    destruct (Hn q Hq) as (j & s & Hj & Hs). exists j, s. split; [lia|done].
  - rewrite (next_u64_small n k) by lia. split; [|lia]. split; [cbn; lia|]. cbn. intros q Hq.
    destruct (Hn q Hq) as (j & s & Hj & Hs). exists j, s. split; [lia|done].
  - split; [|lia]. split; [done|]. cbn. intros q [x Hx]. apply Hn. eexists. by eapply lookup_weaken.
Qed.

Hypothesis number_inj : forall j r k r' p, u64 j -> u64 k -> number j r = Some p -> number k r' = Some p -> j = k.

(** A path that has been given out is never given to anything else. *)
Lemma lstep_path l l' k p j sfx : lstep l l' -> snd l <= k -> k < u64_max -> 1 <= j <= snd l -> number j sfx = Some p ->
  fst l' !! p = fst l !! p \/ fst l' !! p = None.
Proof.
  intros Hs Hk Hu Hj Hp. destruct Hs as [q e sfx' m n _ Hq|m n|m m' n Hs]; cbn [fst snd] in *; [|by left|].
  - left. rewrite (next_u64_small n k) in Hq by lia. apply lookup_insert_ne. intros ->.
    assert (j = n + 1); [|lia]. eapply (number_inj j sfx (n + 1) sfx'); [unfold u64; lia..|exact Hp|exact Hq].
  - destruct (m' !! p) as [x|] eqn:E; [|by right]. left. symmetry. by eapply lookup_weaken.
Qed.

Lemma lsteps_from (n : nat) l l' k : nsteps lstep n l l' -> snd l <= k -> k + Z.of_nat n <= u64_max -> numbered l -> within_quota l ->
  numbered l' /\ within_quota l' /\ snd l <= snd l' <= k + Z.of_nat n.
Proof.
  intros Hs. revert k. induction Hs as [l|n l l1 l2 Hs _ IH]; intros k Hk Hu Hn Hq; [split_and!; try done; lia|].
  destruct (lstep_numbered _ _ k Hs Hk ltac:(lia) Hn) as [Hn1 Hk1].
  destruct (IH (k + 1) ltac:(lia) ltac:(lia) Hn1 (lstep_quota _ _ Hs Hq)) as (Hn2 & Hq2 & Hk2).
  split_and!; try done; lia.
Qed.

Lemma lsteps_path (n : nat) l l' k p j sfx : nsteps lstep n l l' -> snd l <= k -> k + Z.of_nat n <= u64_max -> numbered l ->
  1 <= j <= snd l -> number j sfx = Some p -> fst l' !! p = fst l !! p \/ fst l' !! p = None.
Proof.
  intros Hs. revert k. induction Hs as [l|n l l1 l2 Hs _ IH]; intros k Hk Hu Hn Hj Hp; [by left|].
  destruct (lstep_numbered _ _ k Hs Hk ltac:(lia) Hn) as [Hn1 Hk1].
  pose proof (lstep_path _ _ k p j sfx Hs Hk ltac:(lia) Hj Hp) as Hp1.
  destruct (IH (k + 1) ltac:(lia) ltac:(lia) Hn1 ltac:(lia) Hp) as [->| ->]; [exact Hp1|by right].
Qed.

Lemma ledger_runs (n k : nat) l l' : nsteps lstep n (∅, 0) l -> nsteps lstep k l l' -> Z.of_nat n + Z.of_nat k <= u64_max ->
  within_quota l' /\ forall p e, fst l !! p = Some e -> fst l' !! p = Some e \/ fst l' !! p = None.
Proof.
  intros Hs1 Hs2 Hu.
  destruct (lsteps_from _ _ _ 0 Hs1) as (Hn & Hq & Hk); [cbn; lia|lia| | |].
  { split; [done|]. cbn. intros p [x Hx]. by rewrite lookup_empty in Hx. }
  { intros o. cbn. unfold held_by. rewrite map_filter_empty, map_size_empty. lia. }
  destruct (lsteps_from _ _ _ (Z.of_nat n) Hs2) as (_ & Hq' & _); [lia|lia|done..|]. split; [done|].
  intros p e He. destruct Hn as [H0 Hn]. destruct (Hn p) as (j & sfx & Hj & Hnum); [by exists e|]. rewrite <- He.
  apply (lsteps_path k l l' (Z.of_nat n) p j sfx Hs2); [lia|lia|split; [lia|done]|done|done].
Qed.
End ledger.

(** ** The locked sections *)

Section sections.
Context `{HE : Env} `{HB : Bus}.

Definition session_ledger (c : conn) : gmap str SessionEntry * Z :=
  (sessions (dm_state (cn_daemon c)), next_session (dm_state (cn_daemon c))).
Definition prompt_ledger (c : conn) : gmap str str * Z :=
  (prompt_owners (dm_state (cn_daemon c)), next_prompt (dm_state (cn_daemon c))).

(** One section of some call: recording a session or a prompt, taking one back
    (a failed export, [Close], a finished prompt), a client leaving, or
    anything that touches neither table. *)
Inductive section : conn -> conn -> Prop :=
| s_admit owner cipher c : section c (snd (admit_session owner cipher c))
| s_forget p c : section c (snd (remove_session (E := BusError) p c))
| s_raise owner c : section c (snd (admit_prompt owner c))
| s_unraise p c : section c (snd (remove_prompt (E := BusError) p c))
| s_left name recorded c : section c (snd (client_left (E := BusError) name recorded c))
| s_other c c' : session_ledger c' = session_ledger c -> prompt_ledger c' = prompt_ledger c -> section c c'.

Abbreviation sstep := (lstep se_owner MAX_SESSIONS_PER_SENDER (session_path path_try_from)).
Abbreviation pstep := (lstep (fun o : str => o) MAX_PROMPTS_PER_OWNER (prompt_path path_try_from)).

Lemma lstep_refl {A} (owner_of : A -> str) limit number l : lstep owner_of limit number l l.
Proof. destruct l as [m n]. by apply l_drop. Qed.

Lemma admit_session_step owner cipher c :
  sstep (session_ledger c) (session_ledger (snd (admit_session owner cipher c)))
  /\ prompt_ledger (snd (admit_session owner cipher c)) = prompt_ledger c.
Proof.
  unfold admit_session, new_session_path, insert_session, hbind, lock_state, require, session_quota, check_session_quota, put_state, on_world, or_panic.
  destruct (Nat.leb_spec MAX_SESSIONS_PER_SENDER (size (sessions_of (dm_state (cn_daemon c)) owner))) as [Hq|Hq]; cbn [map_err snd].
  { split; [apply lstep_refl|done]. }
  unfold random_bytes, random. cbn [fst snd]. destruct (env_rng _) as [f|]; cbn; [|split; [apply l_bump|done]].
  destruct (session_path _ _ _) as [p|] eqn:Ep; cbn; [|split; [apply l_bump|done]]. split; [|done].
  by eapply (l_add _ _ _ p {| se_owner := owner; se_cipher := cipher |}).
Qed.

Lemma admit_prompt_step owner c :
  pstep (prompt_ledger c) (prompt_ledger (snd (admit_prompt owner c)))
  /\ session_ledger (snd (admit_prompt owner c)) = session_ledger c.
Proof.
  unfold admit_prompt, new_prompt_path, insert_prompt, hbind, lock_state, require, check_prompt_quota, put_state, on_world, or_panic.
  destruct (Nat.leb_spec MAX_PROMPTS_PER_OWNER (size (prompts_of (dm_state (cn_daemon c)) owner))) as [Hq|Hq]; cbn [map_err snd].
  { split; [apply lstep_refl|done]. }
  unfold random_bytes, random. cbn [fst snd]. destruct (env_rng _) as [f|]; cbn; [|split; [apply l_bump|done]].
  destruct (prompt_path _ _ _) as [p|] eqn:Ep; cbn; [|split; [apply l_bump|done]]. split; [|done].
  by eapply (l_add _ _ _ p owner).
Qed.

Lemma fold_delete_subseteq {A} (ps : list str) (m : gmap str A) : fold_left (fun m p => delete p m) ps m ⊆ m.
Proof.
  revert m. induction ps as [|p ps IH]; intros m; cbn; [done|]. etrans; [apply IH|apply delete_subseteq].
Qed.

(** What touches neither table. *)
Definition aloof {A E} (m : handler A E) : Prop :=
  forall c, session_ledger (snd (m c)) = session_ledger c /\ prompt_ledger (snd (m c)) = prompt_ledger c.

Lemma aloof_inert {A E} (m : handler A E) : inert m -> aloof m.
Proof. intros Hm c. destruct (Hm c) as [Hd _]. unfold session_ledger, prompt_ledger. by rewrite Hd. Qed.

Lemma aloof_bind {A B E} (m : handler A E) (k : A -> handler B E) : aloof m -> (forall a, aloof (k a)) -> aloof (hbind m k).
Proof.
  intros Hm Hk c. unfold hbind. specialize (Hm c). destruct (m c) as [[[a|e]|] c1]; cbn [snd] in *; [|done..].
  destruct (Hk a c1) as [-> ->]. done.
Qed.

Lemma aloof_for_each {A E} (l : list A) (f : A -> handler unit E) : (forall a, aloof (f a)) -> aloof (for_each l f).
Proof. intros Hf. induction l as [|a l IH]; [by intros c|]. by apply aloof_bind. Qed.

Lemma aloof_relock {E} id : aloof (E := E) (relock_one id).
Proof.
  intros c. unfold relock_one, hbind at 1 3, lock_state. destruct (vault _ id) as [v|]; [|done]. destruct (is_locked v); [done|].
  unfold hbind, put_state. set (c1 := set_daemon _ _). by destruct (aloof_inert _ (inert_notify (E := E) id) c1) as [-> ->].
Qed.

Lemma bind_lock_state {A E} (k : ServiceState -> handler A E) c : hbind lock_state k c = k (dm_state (cn_daemon c)) c.
Proof. done. Qed.
Lemma bind_put_state {A E} st (k : unit -> handler A E) c :
  hbind (put_state st) k c = k tt (set_daemon c (with_state_of (cn_daemon c) st)).
Proof. done. Qed.

Lemma client_left_step name recorded c :
  sstep (session_ledger c) (session_ledger (snd (client_left (E := BusError) name recorded c)))
  /\ pstep (prompt_ledger c) (prompt_ledger (snd (client_left (E := BusError) name recorded c))).
Proof.
  unfold client_left. rewrite bind_lock_state. cbv zeta. rewrite bind_put_state. set (gone := map fst _). set (reclaimed := map fst _).
  match goal with |- context [snd (?m ?c1)] => assert (Ha : aloof m); [|destruct (Ha c1) as [-> ->]] end.
  - apply aloof_bind; [apply aloof_for_each, aloof_relock|]. intros _. apply aloof_inert, inert_bind; intros; apply inert_for_each;
      auto with bus nocore.
  - split; apply l_drop, fold_delete_subseteq.
Qed.

Lemma section_steps c c' : section c c' -> sstep (session_ledger c) (session_ledger c') /\ pstep (prompt_ledger c) (prompt_ledger c').
Proof.
  intros [owner cipher c0|p c0|owner c0|p c0|name recorded c0|c0 c1 -> ->].
  - destruct (admit_session_step owner cipher c0) as [? ->]. split; [done|apply lstep_refl].
  - split; [apply l_drop, delete_subseteq|apply lstep_refl].
  - destruct (admit_prompt_step owner c0) as [? ->]. split; [apply lstep_refl|done].
  - split; [apply lstep_refl|apply l_drop, delete_subseteq].
  - apply client_left_step.
  - split; apply lstep_refl.
Qed.

Lemma sections_steps n c c' : nsteps section n c c' ->
  nsteps sstep n (session_ledger c) (session_ledger c') /\ nsteps pstep n (prompt_ledger c) (prompt_ledger c').
Proof.
  induction 1 as [c|n c c1 c2 Hs _ [IHs IHp]]; [split; constructor|]. apply section_steps in Hs as [Hs Hp]. split; by econstructor.
Qed.
End sections.

(** ** Properties *)

(** C11. Quotas hold under concurrency. However the locked sections of any
    number of calls and departures interleave, from start-up nobody has more
    than 32 sessions or 8 prompts; and a session or prompt path that was ever
    handed out stays its owner's: later it is either gone or still exactly that
    entry, never one of another client or with another cipher. (For the first
    2^64 - 1 sections: the counters are 64 bits wide.) *)
Theorem quotas_and_ownership (HE : Env) (HB : Bus) (HBo : BusOk HB) (d : fpath) (t : Z) (w : world)
    (n k : nat) (c c' : conn) :
  nsteps section n (Conn (MkDaemon (service_new d) t t) w ∅ ∅ []) c -> nsteps section k c c' ->
  Z.of_nat n + Z.of_nat k <= u64_max ->
  let st := dm_state (cn_daemon c) in let st' := dm_state (cn_daemon c') in
  (forall o, (size (sessions_of st' o) <= MAX_SESSIONS_PER_SENDER)%nat /\ (size (prompts_of st' o) <= MAX_PROMPTS_PER_OWNER)%nat)
  /\ (forall p e, sessions st !! p = Some e -> sessions st' !! p = Some e \/ sessions st' !! p = None)
  /\ (forall p o, prompt_owners st !! p = Some o -> prompt_owners st' !! p = Some o \/ prompt_owners st' !! p = None).
Proof.
  intros [Hs1 Hp1]%sections_steps [Hs2 Hp2]%sections_steps Hu. cbv zeta.
  destruct (paths_total_and_unique path_try_from path_accepts) as (_ & _ & _ & Hsi & Hpi).
  destruct (ledger_runs _ _ _ Hsi _ _ _ _ Hs1 Hs2 Hu) as [Qs Ps]. destruct (ledger_runs _ _ _ Hpi _ _ _ _ Hp1 Hp2 Hu) as [Qp Pp].
  split_and!; [|exact Ps|exact Pp]. intros o. split; [apply Qs|apply Qp].
Qed.

(** ** The property at a concrete input *)

Definition quota_start : conn := Conn (MkDaemon (service_new [lit "v"]) 0 0) (World ∅ 0 []) ∅ ∅ [].
Definition open_sample (who : str) (c : conn) : conn := snd (@admit_session sample_env sample_bus who Plain c).
Definition quota_one : conn := open_sample (lit ":1.7") quota_start.
Definition quota_two : conn := open_sample (lit ":1.8") quota_one.

Lemma quotas_and_ownership_witness :
  size (sessions (dm_state (cn_daemon quota_two))) = 2%nat
  /\ (forall o, (size (sessions_of (dm_state (cn_daemon quota_two)) o) <= MAX_SESSIONS_PER_SENDER)%nat)
  /\ forall p e, sessions (dm_state (cn_daemon quota_one)) !! p = Some e ->
       sessions (dm_state (cn_daemon quota_two)) !! p = Some e \/ sessions (dm_state (cn_daemon quota_two)) !! p = None.
Proof.
  split; [vm_compute; reflexivity|].
  destruct (quotas_and_ownership sample_env sample_bus sample_bus_ok [lit "v"] 0 (World ∅ 0 []) 1 1 quota_one quota_two) as (Hq & Hs & _).
  - exact (nsteps_once _ _ (@s_admit sample_env sample_bus (lit ":1.7") Plain quota_start)).
  - exact (nsteps_once _ _ (@s_admit sample_env sample_bus (lit ":1.8") Plain quota_one)).
  - vm_compute. discriminate.
  - split; [intros o; exact (proj1 (Hq o))|exact Hs].
Defined.
