(* ===== verification/Pam.v ===== *)
(** * The PAM module ([src/pam/mod.rs], [src/pam/hooks.rs])

    The hooks libpam calls at login and at a password change: they read the
    vault headers as root, derive the keys under the login password, and send
    them to the user's daemon.

    Everything asked of the machine goes through the class [Machine]: an answer
    to each request as any function of everything that happened before, and the
    time it takes.  Waiting, sleeping, deriving and calling take time; the
    other requests are answered at once.  [login] is the clock with a trace of
    the requests that matter, oldest first.  The lines sent to syslog are left
    out, but for their sanitising. *)
From S2P Require Import Prelude Text Env Crypto Codec Format Sanitize Names Protocol.

(** ** Constants, in nanoseconds *)

Definition second : Z := 1000 * millisecond.
Definition START_TIMEOUT : Z := 5 * second.
Definition POLL_INTERVAL : Z := 100 * millisecond.
Definition HOOK_BUDGET : Z := 8 * second.
Definition REAP_TIMEOUT : Z := 2 * second.
Definition CALL_BUDGET : Z := 3 * second.
Definition MAX_LOGGED_ERROR : nat := 200.
Definition MAX_COLLECTION_LEN : Z := 64.
Definition DEFAULT_VAULT_SUBDIR : str := lit ".local/share/secret-manager".
Definition MAX_M_COST_KIB_LOGIN : Z := 64 * 1024.
Definition MAX_T_COST_LOGIN : Z := 4.
Definition MAX_P_COST_LOGIN : Z := 2.
Definition MAX_TOTAL_WORK_LOGIN : Z := MAX_M_COST_KIB_LOGIN * MAX_T_COST_LOGIN.
Definition PAM_PRELIM_CHECK : Z := 0x4000.

(** ** Paths as text ([std::path::Path]) *)

Definition path_is_absolute (p : str) : bool := match p with 47 :: _ => true | _ => false end.

(** [Path::join] with a relative component. *)
Definition path_push (p name : str) : str :=
  match last p with
  | None => name
  | Some 47 => p ++ name
  | Some _ => p ++ [47] ++ name
  end.

(** Trailing slashes and [/.] components say nothing. *)
Fixpoint trim_dots (fuel : nat) (p : str) : str :=
  match fuel with
  | O => p
  | S fuel =>
    match rev p with
    | 47 :: (_ :: _) as r => trim_dots fuel (rev (List.tl (rev p)))
    | 46 :: 47 :: _ => trim_dots fuel (rev (List.tl (rev p)))
    | _ => p
    end
  end.
Definition path_trim (p : str) : str := trim_dots (length p) p.

Definition path_file_name (p : str) : option str :=
  let t := path_trim p in
  let name := match rsplit_once 47 t with Some (_, n) => n | None => t end in
  if bool_decide (name = [] \/ name = lit "." \/ name = lit "..") then None else Some name.

Definition path_parent (p : str) : option str :=
  match path_trim p with
  | [] | [47] => None
  | t => match rsplit_once 47 t with
         | Some ([], _) => Some [47]
         | Some (d, _) => Some (path_trim d)
         | None => Some []
         end
  end.

(** [CString::new]: no interior NUL. *)
Definition c_string (s : str) : option str := if bool_decide (0 ∈ s) then None else Some s.

(** ** Options *)

Record Options : Type := { o_collection : str; o_auto_start : bool; o_socket : option str; o_vault_dir : option str }.

Definition parse_bool (v : str) : option bool :=
  let v := map to_ascii_lowercase v in
  if bool_decide (v ∈ [lit "no"; lit "false"; lit "0"; lit "off"]) then Some false
  else if bool_decide (v ∈ [lit "yes"; lit "true"; lit "1"; lit "on"]) then Some true
  else None.

Definition collection_is_valid (v : str) : bool :=
  negb (bool_decide (v = [])) && (str_len v <=? MAX_COLLECTION_LEN)
  && forallb (fun c => is_ascii_alphanumeric c || (c =? 95)) v.

Definition parse_option (o : Options) (arg : str) : Options :=
  match split_once 61 arg with
  | Some (k, v) =>
    if str_eqb k (lit "collection") then
      if collection_is_valid v
      then {| o_collection := v; o_auto_start := o_auto_start o; o_socket := o_socket o; o_vault_dir := o_vault_dir o |}
      else o
    else if str_eqb k (lit "auto_start") then
      match parse_bool v with
      | Some b => {| o_collection := o_collection o; o_auto_start := b; o_socket := o_socket o; o_vault_dir := o_vault_dir o |}
      | None => o
      end
    else if str_eqb k (lit "socket") then
      {| o_collection := o_collection o; o_auto_start := o_auto_start o; o_socket := Some v; o_vault_dir := o_vault_dir o |}
    else if str_eqb k (lit "vault_dir") then
      if path_is_absolute v
      then {| o_collection := o_collection o; o_auto_start := o_auto_start o; o_socket := o_socket o; o_vault_dir := Some v |}
      else o
    else o
  | None => o
  end.

Definition options_default : Options :=
  {| o_collection := lit "default"; o_auto_start := true; o_socket := None; o_vault_dir := None |}.

Definition parse_options (args : list str) : Options := fold_left parse_option args options_default.

(** ** Log lines *)

Definition is_bidi_format (c : char) : bool := in_range 0x202a 0x202e c || in_range 0x2066 0x2069 c.
Definition strip_unsafe (text : str) : str := List.filter (fun c => negb (is_control c) && negb (is_bidi_format c)) text.
Definition sanitize (text : str) : str := take MAX_LOGGED_ERROR (strip_unsafe text).
Definition log_line (msg : str) : str := lit "pam_secret_manager: " ++ strip_unsafe msg.

(** ** Decisions *)

Record file_meta : Type := { fm_is_dir : bool; fm_is_file : bool; fm_uid : Z; fm_mode : Z }.

Definition runtime_subdir_is_safe (m : file_meta) (uid : Z) : bool :=
  fm_is_dir m && (fm_uid m =? uid) && (Z.land (fm_mode m) 18 =? 0).

Definition kdf_acceptable_for_login (k : KdfParams) : bool :=
  is_ok (validate k)
  && (19 * 1024 <=? m_cost_kib k) && (2 <=? t_cost k)
  && (m_cost_kib k <=? MAX_M_COST_KIB_LOGIN) && (t_cost k <=? MAX_T_COST_LOGIN) && (p_cost k <=? MAX_P_COST_LOGIN)
  && (m_cost_kib k * t_cost k <=? MAX_TOTAL_WORK_LOGIN).

Definition socket_override_allowed (euid : Z) : bool := negb (euid =? 0).

Definition privileges_to_drop (euid target : Z) : bool := (euid =? 0) && negb (target =? 0) && negb (euid =? target).

Inductive StaleSocket : Type := Unlink | LeaveAlone.

Definition stale_socket_action (k : error_kind) : option StaleSocket :=
  match k with
  | ConnectionRefused => Some Unlink
  | NotFound => Some LeaveAlone
  | _ => None
  end.

Definition retryable_reset (e : ProtocolError) : bool :=
  match e with
  | Io io => bool_decide (io_kind io ∈ [ConnectionReset; BrokenPipe; UnexpectedEof])
  | _ => false
  end.

(** ** Outcomes *)

Inductive AuthOutcome : Type := Stash | NoToken | Unavailable.

Definition authenticate_decision (token : result (option str) str) : AuthOutcome :=
  match token with Ok (Some _) => Stash | Ok None => NoToken | Err _ => Unavailable end.

Inductive StartOutcome : Type :=
| NoStartBudget | StaleSocketStuck | NoUser
| NotRetried (waited : bool) (revalidated : option bool)
| RetryBudgetSpent | NoRetryCallBudget | Retried.

Inductive SessionOutcome : Type :=
| SNoPassword | SNoTarget | SRefusedSocketDir | SNoVaultHeader | SBudgetSpent | SNoCallBudget
| Attempted | Failed | ConnectNotStale | Started (o : StartOutcome).

Definition clears_stash (o : SessionOutcome) : bool := match o with SNoPassword => false | _ => true end.

(** The report bytes. *)
Definition REPORT_STARTED : Z := 9.
Definition REPORT_NOT_RETRIED_BASE : Z := 10.
Definition REPORT_RETRY_BASE : Z := 20.

Definition session_outcome_code (o : SessionOutcome) : Z * Z :=
  match o with
  | SNoPassword => (0, 0)
  | SNoTarget => (1, 0)
  | SRefusedSocketDir => (2, 0)
  | SNoVaultHeader => (3, 0)
  | SBudgetSpent => (4, 0)
  | SNoCallBudget => (5, 0)
  | Attempted => (6, 0)
  | Failed => (7, 0)
  | ConnectNotStale => (8, 0)
  | Started inner =>
    (REPORT_STARTED,
     match inner with
     | NoStartBudget => 0
     | StaleSocketStuck => 1
     | NoUser => 2
     | NotRetried waited revalidated =>
       REPORT_NOT_RETRIED_BASE + (if waited then 1 else 0)
       + match revalidated with None => 0 | Some false => 2 | Some true => 4 end
     | RetryBudgetSpent => REPORT_RETRY_BASE
     | NoRetryCallBudget => REPORT_RETRY_BASE + 1
     | Retried => REPORT_RETRY_BASE + 2
     end)
  end.

Definition session_outcome_from_codes (a b : Z) : SessionOutcome :=
  if (a =? REPORT_STARTED) then
    if b =? 0 then Started NoStartBudget
    else if b =? 1 then Started StaleSocketStuck
    else if b =? 2 then Started NoUser
    else if (REPORT_NOT_RETRIED_BASE <=? b) && (b <=? REPORT_NOT_RETRIED_BASE + 5) then
      let x := b - REPORT_NOT_RETRIED_BASE in
      Started (NotRetried (Z.land x 1 =? 1)
                 (match Z.shiftr x 1 with 0 => None | 1 => Some false | _ => Some true end))
    else if b =? REPORT_RETRY_BASE then Started RetryBudgetSpent
    else if b =? REPORT_RETRY_BASE + 1 then Started NoRetryCallBudget
    else if b =? REPORT_RETRY_BASE + 2 then Started Retried
    else Failed
  else
    match a, b with
    | 0, 0 => SNoPassword
    | 1, 0 => SNoTarget
    | 2, 0 => SRefusedSocketDir
    | 3, 0 => SNoVaultHeader
    | 4, 0 => SBudgetSpent
    | 5, 0 => SNoCallBudget
    | 6, 0 => Attempted
    | 7, 0 => Failed
    | 8, 0 => ConnectNotStale
    | _, _ => Failed
    end.

Inductive ChauthtokOutcome : Type :=
| Prelim | Missing (what : str) | CNoTarget | CRefusedSocketDir | CNoVaultHeader | NoRequest
| CBudgetSpent | CNoCallBudget | Sent | SendFailed.

Definition CHAUTHTOK_SENT : Z := 1.
Definition CHAUTHTOK_NOT_SENT : Z := 0.

Definition chauthtok_outcome_code (o : ChauthtokOutcome) : Z :=
  match o with Sent => CHAUTHTOK_SENT | _ => CHAUTHTOK_NOT_SENT end.

Definition chauthtok_outcome_from_report (r : option (Z * Z)) : ChauthtokOutcome :=
  match r with
  | Some (a, _) => if a =? CHAUTHTOK_SENT then Sent else SendFailed
  | None => SendFailed
  end.

(** ** The machine *)

Definition fd : Type := Z.

(** What a hook did that matters to somebody else. *)
Inductive event : Type :=
| EFstat (d : fd) (answer : option file_meta)      (** on a directory opened for a socket *)
| EUnlink (d : fd) (name : str)
| EHeader (collection : str) (salt : bytes) (kdf : KdfParams)  (** read from a vault file *)
| EDerive (password : str) (salt : bytes) (kdf : KdfParams)
| ECall (path : str) (req : Request) (uid : Z) (ok : bool)     (** [ok]: an answer came back *)
| ESpawn (user : str)
| EFork (target : Z).

Record login : Type := Login { lg_clock : Z; lg_turn : nat; lg_trace : list (Z * event) }.

(** [getpwnam_r]'s answer. *)
Inductive pw_answer : Type := PwRange | PwFailed | PwNobody | PwEntry (uid : Z) (home : option str).

(** One entry of a directory: its kind if it can be had, its name if it is text. *)
Record dirent : Type := { de_is_file : option bool; de_name : option str }.

Inductive poll_answer : Type := PollReady | PollTimedOut | PollFailed (e : io_error).

Class Machine : Type := {
  m_euid : Z;
  m_getpwnam : login -> str -> Z -> pw_answer;
  m_open_dir : login -> str -> result fd io_error;
  m_fstat : login -> fd -> result file_meta io_error;
  m_fstatat : login -> fd -> str -> result Z io_error;            (** [st_mode] *)
  m_unlinkat : login -> fd -> str -> option io_error;
  m_open_vault : login -> str -> option io_error;
  m_stat_vault : login -> result file_meta io_error;
  m_read : login -> nat -> result bytes io_error;
  m_read_dir : login -> str -> result (list (result dirent io_error)) io_error;
  m_is_socket : login -> str -> bool;
  m_random : login -> option bytes;                               (** [SALT_LEN] of them *)
  m_spawn : login -> option io_error;
  m_try_wait : login -> result (option bool) io_error;            (** whether it exited well *)
  m_pipe : login -> option io_error;
  m_fork : login -> option io_error;
  m_setuid : login -> option io_error;
  m_waitpid : login -> bool;                                      (** collected, or nothing to collect *)
  m_pipe_read : login -> nat -> result nat io_error;              (** how many bytes came *)
  m_cut : login -> nat;                                           (** how far a killed child got *)
  (** what takes time *)
  m_poll : login -> Z -> poll_answer;
  m_poll_took : login -> Z -> Z;
  m_sleep_took : login -> Z -> Z;
  m_derive_took : login -> KdfParams -> Z;
  m_call : login -> str -> Request -> Z -> Z -> result Response ProtocolError;
  m_call_took : login -> str -> Request -> Z -> Z -> Z
}.

(** [poll] and [sleep] wait for what they were told to, a poll at least a
    moment; a derivation within the login ceiling takes at most [slow]; a call
    returns at most a millisecond after its timeout (what [call_deadline] shows
    of the protocol); a read returns no more than was asked for. *)
Class MachineOk (M : Machine) (slow : Z) : Prop := {
  m_slow_pos : 0 <= slow;
  m_poll_time s ms : 1 <= ms -> 1 <= m_poll_took s ms <= ms * millisecond;
  m_sleep_time s d : 0 <= d -> m_sleep_took s d = d;
  m_derive_time s k : kdf_acceptable_for_login k = true -> 0 <= m_derive_took s k <= slow;
  m_call_time s p r u t : 0 <= t -> 0 <= m_call_took s p r u t < t + millisecond;
  m_read_length s n b : m_read s n = Ok b -> (length b <= n)%nat;
  m_pipe_length s n k : m_pipe_read s n = Ok k -> (k <= n)%nat
}.

Definition lm (A : Type) : Type := login -> A * login.

Definition lret {A} (a : A) : lm A := fun s => (a, s).
Definition lbind {A B} (m : lm A) (k : A -> lm B) : lm B := fun s => let '(a, s) := m s in k a s.

Declare Scope pam_scope.
Notation "'let+' x ':=' m 'in' k" := (lbind m (fun x => k))
  (at level 10, x binder, m at level 200, k at level 200) : pam_scope.
Open Scope pam_scope.

(** A question answered at once, an event, and time passing. *)
Definition ask {A} (f : login -> A) : lm A :=
  fun s => (f s, Login (lg_clock s) (S (lg_turn s)) (lg_trace s)).
Definition note (e : event) : lm unit :=
  fun s => (tt, Login (lg_clock s) (lg_turn s) (lg_trace s ++ [(lg_clock s, e)])).
Definition spend (f : login -> Z) : lm unit :=
  fun s => (tt, Login (lg_clock s + f s) (S (lg_turn s)) (lg_trace s)).

(** ** The budget *)

Record Budget : Type := { bg_start : Z; bg_total : Z }.

Definition budget_new (total : Z) : lm Budget := fun s => ({| bg_start := lg_clock s; bg_total := total |}, s).

Definition budget_remaining (b : Budget) (s : login) : option Z :=
  match checked_sub (bg_total b) (lg_clock s - bg_start b) with
  | Some 0 => None
  | o => o
  end.

Definition budget_left (b : Budget) : lm (option Z) := fun s => (budget_remaining b s, s).
Definition capped (b : Budget) (max : Z) : lm (option Z) :=
  fun s => (match budget_remaining b s with Some avail => Some (Z.min avail max) | None => None end, s).

(** Rounds enough for any loop a budget bounds: a round takes a nanosecond. *)
Definition rounds (b : Budget) : positive := Z.to_pos (bg_total b + 2).

Section machine.
Context `{M : Machine}.

(** One round of [poll_readable]'s loop. *)
Definition poll_round (b : Budget) (s : login) : login + (result unit io_error * login) :=
  match budget_remaining b s with
  | None => inr (Err (IoError TimedOut None), s)
  | Some avail =>
    let ms := Z.max 1 (Z.min (avail / millisecond) i32_max) in
    let answer := m_poll s ms in
    let '(_, s) := spend (fun s => m_poll_took s ms) s in
    match answer with
    | PollReady => inr (Ok tt, s)
    | PollTimedOut => inr (Err (IoError TimedOut None), s)
    | PollFailed e => if bool_decide (io_kind e = Interrupted) then inl s else inr (Err e, s)
    end
  end.

Definition poll_readable (b : Budget) : lm (result unit io_error) :=
  fun s => match iter_until (rounds b) (poll_round b) s with
           | inr r => r
           | inl s => (Err (IoError TimedOut None), s)
           end.

(** One round of [read_exact_bounded]'s loop over the reader [read]. *)
Definition read_round (read : login -> nat -> result bytes io_error) (len : nat) (b : Budget) (st : bytes * login)
  : (bytes * login) + (result bytes io_error * login) :=
  let '(buf, s) := st in
  if (len <=? length buf)%nat then inr (Ok buf, s)
  else
    match poll_readable b s with
    | (Err e, s) => inr (Err e, s)
    | (Ok _, s) =>
      let '(r, s) := ask (fun s => read s (len - length buf)%nat) s in
      match r with
      | Ok [] => inr (Err (IoError UnexpectedEof None), s)
      | Ok bs => inl (buf ++ bs, s)
      | Err e =>
        if bool_decide (io_kind e = WouldBlock) || bool_decide (io_kind e = Interrupted) then inl (buf, s)
        else inr (Err e, s)
      end
    end.

Definition read_exact_bounded (read : login -> nat -> result bytes io_error) (len : nat) (b : Budget)
  : lm (result bytes io_error) :=
  fun s => match iter_until (rounds b) (read_round read len b) ([], s) with
           | inr r => r
           | inl (_, s) => (Err (IoError TimedOut None), s)
           end.

(** *** The socket directory *)

Record SocketDir : Type := { sd_sock : str; sd_name : str; sd_uid : Z; sd_dir : option fd }.

(** [open_dir_fd]: [None] when there is no such directory yet. *)
Definition open_dir_fd (dir : str) : lm (result (option fd) io_error) :=
  match c_string dir with
  | None => lret (Err (IoError InvalidInput None))
  | Some _ =>
    let+ r := ask (fun s => m_open_dir s dir) in
    lret (match r with
          | Ok d => Ok (Some d)
          | Err e => if bool_decide (io_kind e = NotFound) then Ok None else Err e
          end)
  end.

(** [DirFd::metadata]. *)
Definition dir_metadata (d : fd) : lm (result file_meta io_error) :=
  let+ r := ask (fun s => m_fstat s d) in
  let+ _ := note (EFstat d (match r with Ok m => Some m | Err _ => None end)) in
  lret r.

Definition socket_dir_open (sock : str) (uid : Z) : lm (option SocketDir) :=
  match (let! n := path_file_name sock in c_string n) with
  | None => lret None
  | Some name =>
    let parent := default [] (path_parent sock) in
    let+ dir := (match parent with [] => lret (Ok None) | _ => open_dir_fd parent end) in
    match dir with
    | Err _ => lret None
    | Ok None => lret (Some {| sd_sock := sock; sd_name := name; sd_uid := uid; sd_dir := None |})
    | Ok (Some d) =>
      let+ m := dir_metadata d in
      lret (match m with
            | Ok m => if runtime_subdir_is_safe m uid
                      then Some {| sd_sock := sock; sd_name := name; sd_uid := uid; sd_dir := Some d |} else None
            | Err _ => None
            end)
    end
  end.

Definition socket_path_of (d : SocketDir) : str :=
  match sd_dir d with
  | Some n => path_push (lit "/proc/self/fd/" ++ dec n) (sd_name d)
  | None => sd_sock d
  end.

Definition S_IFMT : Z := 61440.
Definition S_IFSOCK : Z := 49152.

Definition connect_path (d : SocketDir) : lm (result str io_error) :=
  match sd_dir d with
  | None => lret (Ok (sd_sock d))
  | Some n =>
    let+ r := ask (fun s => m_fstatat s n (sd_name d)) in
    lret (match r with
          | Err e => Err e
          | Ok mode => if Z.land mode S_IFMT =? S_IFSOCK then Ok (socket_path_of d) else Err (IoError InvalidInput None)
          end)
  end.

(** [None] is a refusal. *)
Definition revalidate (d : SocketDir) : lm (option SocketDir) :=
  match sd_dir d with
  | Some n =>
    let+ m := dir_metadata n in
    lret (match m with
          | Ok m => if runtime_subdir_is_safe m (sd_uid d) then Some d else None
          | Err _ => None
          end)
  | None => socket_dir_open (sd_sock d) (sd_uid d)
  end.

Definition remove_socket (d : SocketDir) : lm (result unit io_error) :=
  match sd_dir d with
  | None => lret (Ok tt)
  | Some n =>
    let+ _ := note (EUnlink n (sd_name d)) in
    let+ r := ask (fun s => m_unlinkat s n (sd_name d)) in
    lret (match r with None => Ok tt | Some e => Err e end)
  end.

Definition start_after_clearing (d : SocketDir) (action : StaleSocket) : lm bool :=
  match action with
  | LeaveAlone => lret true
  | Unlink =>
    let+ r := remove_socket d in
    lret (match r with
          | Ok _ => true
          | Err e => bool_decide (io_kind e = NotFound)
          end)
  end.

(** *** Vault files *)

Context `{HC : VaultCodec} `{HP : Prims}.

Definition vault_header (vault_dir collection : str) (uid : Z) (b : Budget) : lm (option (bytes * KdfParams)) :=
  let path := path_push vault_dir (collection ++ lit ".vault") in
  let+ opened := ask (fun s => m_open_vault s path) in
  match opened with
  | Some _ => lret None
  | None =>
    let+ meta := ask m_stat_vault in
    match meta with
    | Err _ => lret None
    | Ok m =>
      if negb (fm_is_file m) || negb (fm_uid m =? uid) || negb (Z.land (fm_mode m) 18 =? 0) then lret None
      else
        let+ prefix := read_exact_bounded m_read PREFIX_LEN b in
        match prefix with
        | Err _ => lret None
        | Ok bs =>
          match header_prefix_len bs with
          | Err _ => lret None
          | Ok need =>
            let+ body := read_exact_bounded m_read (need - PREFIX_LEN) b in
            match body with
            | Err _ => lret None
            | Ok rest =>
              match decode_header (bs ++ rest) with
              | Err _ => lret None
              | Ok h =>
                if kdf_acceptable_for_login (kdf h) then
                  let+ _ := note (EHeader collection (salt h) (kdf h)) in
                  lret (Some (salt h, kdf h))
                else lret None
              end
            end
          end
        end
    end
  end.

Definition vault_id (e : result dirent io_error) : option str :=
  match e with
  | Ok e =>
    match de_is_file e, de_name e with
    | Some true, Some name =>
      let! id := strip_suffix (lit ".vault") name in
      if collection_is_valid id then Some id else None
    | _, _ => None
    end
  | Err _ => None
  end.

Definition sort_ids (l : list str) : list str := merge_sort str_le l.

Definition list_vault_collections (vault_dir : str) : lm (list str) :=
  let+ r := ask (fun s => m_read_dir s vault_dir) in
  lret (match r with Ok l => sort_ids (omap vault_id l) | Err _ => [] end).

Definition all_vault_ids (vault_dir configured : str) : lm (list str) :=
  let+ ids := list_vault_collections vault_dir in
  lret (if bool_decide (configured ∈ ids) then ids else sort_ids (ids ++ [configured])).

(** *** The target *)

(** [user_info]: a short buffer is retried once. *)
Definition user_info (user : str) : lm (option (Z * str)) :=
  match c_string user with
  | None => lret None
  | Some _ =>
    let+ first := ask (fun s => m_getpwnam s user 16384) in
    let+ answer := (match first with PwRange => ask (fun s => m_getpwnam s user (16384 * 4)) | a => lret a end) in
    lret (match answer with
          | PwEntry uid (Some home) => if path_is_absolute home then Some (uid, home) else None
          | _ => None
          end)
  end.

Record Target : Type := { tg_sock : str; tg_uid : Z; tg_vault_dir : str }.

Definition runtime_socket (uid : Z) : str :=
  path_push (path_push (lit "/run/user/" ++ dec uid) (lit "secret-manager")) (lit "control.sock").

Definition target_for (user : str) (o : Options) : lm (option Target) :=
  let+ info := user_info user in
  lret (match info with
        | None => None
        | Some (uid, home) =>
          let vault_dir := default (path_push home DEFAULT_VAULT_SUBDIR) (o_vault_dir o) in
          match o_socket o with
          | Some sock =>
            if socket_override_allowed m_euid
            then Some {| tg_sock := sock; tg_uid := m_euid; tg_vault_dir := vault_dir |}
            else Some {| tg_sock := runtime_socket uid; tg_uid := uid; tg_vault_dir := vault_dir |}
          | None => Some {| tg_sock := runtime_socket uid; tg_uid := uid; tg_vault_dir := vault_dir |}
          end
        end).

(** *** Waiting *)

Definition sleep (d : Z) : lm unit := spend (fun s => m_sleep_took s d).

(** One round: a check, the deadline, a sleep. *)
Definition tick_round {B} (check : login -> option B) (expired : B) (start timeout : Z) (s : login)
  : login + (B * login) :=
  let '(r, s) := ask check s in
  match r with
  | Some b => inr (b, s)
  | None => if timeout <=? lg_clock s - start then inr (expired, s) else inl (snd (sleep POLL_INTERVAL s))
  end.

(** Sleeps enough to see the deadline pass. *)
Definition naps (timeout : Z) : positive := Z.to_pos (timeout / POLL_INTERVAL + 3).

Definition wait_ticks {B} (check : login -> option B) (expired : B) (timeout : Z) : lm B :=
  fun s => match iter_until (naps timeout) (tick_round check expired (lg_clock s) timeout) s with
           | inr r => r
           | inl s => (expired, s)
           end.

Definition reap_bounded (timeout : Z) : lm bool :=
  wait_ticks (fun s => match m_try_wait s with Ok (Some _) => Some true | Err _ => Some false | Ok None => None end)
             false timeout.

Inductive run_end : Type := Exited (success : bool) | WaitFailed | RanOut.

(** [None]: it could not be started. *)
Definition run_bounded (timeout : Z) : lm (option run_end) :=
  let+ spawned := ask m_spawn in
  match spawned with
  | Some _ => lret None
  | None =>
    let+ r := wait_ticks (fun s => match m_try_wait s with
                                   | Ok (Some success) => Some (Exited success)
                                   | Err _ => Some WaitFailed
                                   | Ok None => None
                                   end) RanOut timeout in
    match r with
    | RanOut => let+ _ := reap_bounded REAP_TIMEOUT in lret (Some RanOut)
    | r => lret (Some r)
    end
  end.

Definition start_daemon (user : str) (b : Budget) : lm unit :=
  let+ t := capped b START_TIMEOUT in
  match t with
  | None => lret tt
  | Some timeout =>
    let+ _ := note (ESpawn user) in
    let+ _ := run_bounded timeout in
    lret tt
  end.

Definition wait_round (path : str) (start timeout : Z) (s : login) : login + (bool * login) :=
  if timeout <=? lg_clock s - start then inr (ask (fun s => m_is_socket s path) s)
  else
    let '(there, s) := ask (fun s => m_is_socket s path) s in
    if there : bool then inr (true, s) else inl (snd (sleep POLL_INTERVAL s)).

Definition wait_for (path : str) (timeout : Z) : lm bool :=
  fun s => match iter_until (naps timeout) (wait_round path (lg_clock s) timeout) s with
           | inr r => r
           | inl s => (false, s)
           end.

(** *** Deriving and calling *)

Definition derive (password : str) (salt : bytes) (k : KdfParams) (b : Budget) : lm (option bytes) :=
  let+ avail := budget_left b in
  match avail with
  | None => lret None
  | Some _ =>
    let+ _ := note (EDerive password salt k) in
    let+ _ := spend (fun s => m_derive_took s k) in
    lret (match derive_key (utf8 password) salt k with Ok key => Some key | Err _ => None end)
  end.

(** Any answer of the daemon counts as delivered. *)
Definition try_send (path : str) (req : Request) (uid timeout : Z) : lm (result unit ProtocolError) :=
  fun s =>
    let r := m_call s path req uid timeout in
    let '(_, s) := note (ECall path req uid (is_ok r)) s in
    let '(_, s) := spend (fun s => m_call_took s path req uid timeout) s in
    (match r with Ok _ => Ok tt | Err e => Err e end, s).

Definition unlock_by_key (path collection : str) (uid : Z) (password : str) (salt : bytes) (k : KdfParams) (b : Budget)
    (call_budget : Z) : lm (result unit ProtocolError) :=
  let+ key := derive password salt k b in
  match key with
  | None => lret (Ok tt)
  | Some key => try_send path (RUnlockWithKey collection key true) uid call_budget
  end.

Definition unlock_once (d : SocketDir) (o : Options) (t : Target) (password : str) (salt : bytes) (k : KdfParams) (call : Z)
    (b : Budget) : lm (result unit ProtocolError) :=
  let+ p := connect_path d in
  match p with
  | Ok path => unlock_by_key path (o_collection o) (tg_uid t) password salt k b call
  | Err e => lret (Err (Connect e))
  end.

Definition change_key_request (collection old new : str) (salt : bytes) (k : KdfParams) (b : Budget) : lm (option Request) :=
  let+ fresh := ask m_random in
  match fresh with
  | None => lret None
  | Some new_salt =>
    let+ old_key := derive old salt k b in
    match old_key with
    | None => lret None
    | Some old_key =>
      let+ new_key := derive new new_salt k b in
      lret (match new_key with
            | None => None
            | Some new_key => Some (RChangeKey collection old_key new_salt k new_key)
            end)
    end
  end.

(** *** The socket work in a child *)

Definition reap_child (timeout : Z) : lm bool := wait_ticks (fun s => if m_waitpid s then Some true else None) false timeout.

(** [wait_for_report]: the pipe yields what the child wrote, in pieces. *)
Definition wait_for_report (report : bytes) (b : Budget) : lm (option (Z * Z)) :=
  let+ r := read_exact_bounded (fun s n => match m_pipe_read s n with
                                           | Ok k => Ok (take k (drop (2 - n) report))
                                           | Err e => Err e
                                           end) 2 b in
  match r with
  | Ok out =>
    let+ gone := reap_child REAP_TIMEOUT in
    let+ _ := (if gone : bool then lret true else reap_child REAP_TIMEOUT) in
    lret (match out with [x; y] => Some (b2z x, b2z y) | _ => None end)
  | Err _ => let+ _ := reap_child REAP_TIMEOUT in lret None
  end.

Definition fork_report (target : Z) (b : Budget) (work : lm (Z * Z)) : lm (option (Z * Z)) :=
  let+ pipe := ask m_pipe in
  match pipe with
  | Some _ => lret None
  | None =>
    let+ forked := ask m_fork in
    match forked with
    | Some _ => lret None
    | None =>
      let+ _ := note (EFork target) in
      fun s =>
        let '((a, x), child) := work s in
        let '(report, parent) := wait_for_report [z2b a; z2b x] b s in
        let done := drop (length (lg_trace s)) (lg_trace child) in
        (report, Login (lg_clock parent) (lg_turn parent)
                   (lg_trace s ++ match report with Some _ => done | None => take (m_cut parent) done end))
    end
  end.

Definition run_socket_work_as_target (target : Z) (b : Budget) (work : lm (Z * Z)) : lm (option (Z * Z)) :=
  if negb (privileges_to_drop m_euid target)
  then let+ r := work in lret (Some r)
  else fork_report target b (let+ _ := ask m_setuid in work).

(** ** The session hook *)

Section session.
Context (start : Budget -> lm bool).

(** What was decided, and the directory as it is held now. *)
Definition start_and_retry (d : SocketDir) (o : Options) (t : Target) (password : str) (salt : bytes) (k : KdfParams)
    (b : Budget) (sock : str) (e : io_error) : lm (SessionOutcome * SocketDir) :=
  match stale_socket_action (io_kind e) with
  | None => lret (ConnectNotStale, d)
  | Some action =>
    let+ avail := capped b START_TIMEOUT in
    match avail with
    | None => lret (Started NoStartBudget, d)
    | Some _ =>
      let+ cleared := start_after_clearing d action in
      if negb cleared then lret (Started StaleSocketStuck, d)
      else
        let+ ran := start b in
        if negb ran then lret (Started NoUser, d)
        else
          let+ avail := capped b START_TIMEOUT in
          let+ waited := (match avail with Some avail => wait_for sock avail | None => lret false end) in
          if negb waited then lret (Started (NotRetried false None), d)
          else
            let+ again := revalidate d in
            match again with
            | None => lret (Started (NotRetried true (Some false)), d)
            | Some d =>
              let+ avail := budget_left b in
              match avail with
              | None => lret (Started RetryBudgetSpent, d)
              | Some _ =>
                let+ avail := capped b CALL_BUDGET in
                match avail with
                | None => lret (Started NoRetryCallBudget, d)
                | Some avail => let+ _ := unlock_once d o t password salt k avail b in lret (Started Retried, d)
                end
              end
            end
    end
  end.

(** The second attempt, when the first was cut off. *)
Definition retry_reset (d : SocketDir) (o : Options) (t : Target) (password : str) (salt : bytes) (k : KdfParams)
    (b : Budget) (sock : str) (e : ProtocolError) : lm (SessionOutcome * SocketDir) :=
  if negb (retryable_reset e) then lret (Failed, d)
  else
    let+ call := capped b CALL_BUDGET in
    match call with
    | None => lret (SNoCallBudget, d)
    | Some call =>
      let+ again := revalidate d in
      match again with
      | None => lret (Failed, d)
      | Some d =>
        let+ second := unlock_once d o t password salt k call b in
        match second with
        | Ok _ => lret (Attempted, d)
        | Err e2 =>
          if retryable_reset e2 then lret (Failed, d)
          else match e2, o_auto_start o with
               | Connect io, true => start_and_retry d o t password salt k b sock io
               | _, _ => lret (Failed, d)
               end
        end
      end
    end.

Definition session_socket_tail (d : SocketDir) (o : Options) (t : Target) (password : str) (salt : bytes) (k : KdfParams)
    (b : Budget) : lm (SessionOutcome * SocketDir) :=
  let sock := socket_path_of d in
  let+ call := capped b CALL_BUDGET in
  match call with
  | None => lret (SNoCallBudget, d)
  | Some call =>
    let+ attempt := unlock_once d o t password salt k call b in
    match attempt with
    | Ok _ => lret (Attempted, d)
    | Err e =>
      match e, o_auto_start o with
      | Connect io, true => start_and_retry d o t password salt k b sock io
      | _, _ => retry_reset d o t password salt k b sock e
      end
    end
  end.

Definition reached (o : SessionOutcome) : bool :=
  match o with Attempted | Started Retried => true | _ => false end.

Definition first_of (a b : option SessionOutcome) : option SessionOutcome := match a with Some _ => a | None => b end.

Fixpoint tail_all_from (d : SocketDir) (o : Options) (t : Target) (password : str) (vaults : list (str * bytes * KdfParams))
    (b : Budget) (first success : option SessionOutcome) : lm SessionOutcome :=
  match vaults with
  | [] => lret (default SNoVaultHeader (first_of success first))
  | (id, salt, k) :: vaults =>
    let+ avail := budget_left b in
    match avail with
    | None => lret (default SBudgetSpent (first_of success first))
    | Some _ =>
      let per_vault := {| o_collection := id; o_auto_start := o_auto_start o; o_socket := o_socket o;
                          o_vault_dir := o_vault_dir o |} in
      let+ '(out, d) := session_socket_tail d per_vault t password salt k b in
      if reached out then tail_all_from d o t password vaults b first (first_of success (Some out))
      else tail_all_from d o t password vaults b (first_of first (Some out)) success
    end
  end.

Definition session_socket_tail_all (d : SocketDir) (o : Options) (t : Target) (password : str)
    (vaults : list (str * bytes * KdfParams)) (b : Budget) : lm SessionOutcome :=
  tail_all_from d o t password vaults b None None.

(** The headers, until the budget is spent. *)
Fixpoint read_headers (t : Target) (ids : list str) (b : Budget) : lm (list (str * bytes * KdfParams)) :=
  match ids with
  | [] => lret []
  | id :: ids =>
    let+ avail := budget_left b in
    match avail with
    | None => lret []
    | Some _ =>
      let+ h := vault_header (tg_vault_dir t) id (tg_uid t) b in
      let+ rest := read_headers t ids b in
      lret (match h with Some (s, k) => (id, s, k) :: rest | None => rest end)
    end
  end.

Definition open_session_decision (password : option str) (args : list str) (b : Budget)
    (resolve_target : Options -> lm (option Target)) : lm SessionOutcome :=
  let o := parse_options args in
  match password with
  | None => lret SNoPassword
  | Some password =>
    let+ target := resolve_target o in
    match target with
    | None => lret SNoTarget
    | Some t =>
      let+ dir := socket_dir_open (tg_sock t) (tg_uid t) in
      match dir with
      | None => lret SRefusedSocketDir
      | Some d =>
        let+ ids := all_vault_ids (tg_vault_dir t) (o_collection o) in
        let+ vaults := read_headers t ids b in
        match vaults with
        | [] => lret SNoVaultHeader
        | _ =>
          let+ avail := budget_left b in
          match avail with
          | None => lret SBudgetSpent
          | Some _ =>
            let+ report := run_socket_work_as_target (tg_uid t) b
              (let+ out := session_socket_tail_all d o t password vaults b in lret (session_outcome_code out)) in
            lret (match report with
                  | Some (x, y) => session_outcome_from_codes x y
                  | None => Failed
                  end)
          end
        end
      end
    end
  end.
End session.

(** ** The password hook *)

Definition password_socket_tail (d : SocketDir) (req : Request) (uid call : Z) : lm ChauthtokOutcome :=
  let+ p := connect_path d in
  match p with
  | Ok path =>
    let+ r := try_send path req uid call in
    lret (match r with Ok _ => Sent | Err _ => SendFailed end)
  | Err _ => lret SendFailed
  end.

(** The requests, whether a header was read, whether one was left out. *)
Fixpoint build_requests (t : Target) (old new : str) (ids : list str) (b : Budget) : lm (list Request * bool * bool) :=
  match ids with
  | [] => lret ([], false, false)
  | id :: ids =>
    let+ avail := budget_left b in
    match avail with
    | None => lret ([], false, true)
    | Some _ =>
      let+ h := vault_header (tg_vault_dir t) id (tg_uid t) b in
      match h with
      | None => build_requests t old new ids b
      | Some (s, k) =>
        let+ req := change_key_request id old new s k b in
        let+ '(reqs, _, incomplete) := build_requests t old new ids b in
        lret (match req with
              | Some req => (req :: reqs, true, incomplete)
              | None => (reqs, true, true)
              end)
      end
    end
  end.

Fixpoint send_all (d : SocketDir) (reqs : list Request) (uid call : Z) (all_sent : bool) : lm bool :=
  match reqs with
  | [] => lret all_sent
  | req :: reqs =>
    let+ out := password_socket_tail d req uid call in
    send_all d reqs uid call (match out with Sent => all_sent | _ => false end)
  end.

Definition chauthtok_decision (flags : Z) (old new : option str) (args : list str) (b : Budget)
    (resolve_target : Options -> lm (option Target)) : lm ChauthtokOutcome :=
  if negb (Z.land flags PAM_PRELIM_CHECK =? 0) then lret Prelim
  else
    let o := parse_options args in
    match old, new with
    | Some old, Some new =>
      let+ target := resolve_target o in
      match target with
      | None => lret CNoTarget
      | Some t =>
        let+ dir := socket_dir_open (tg_sock t) (tg_uid t) in
        match dir with
        | None => lret CRefusedSocketDir
        | Some d =>
          let+ ids := all_vault_ids (tg_vault_dir t) (o_collection o) in
          let+ '(reqs, any_header, incomplete) := build_requests t old new ids b in
          match reqs with
          | [] => lret (if any_header : bool then NoRequest else CNoVaultHeader)
          | _ =>
            let+ avail := budget_left b in
            match avail with
            | None => lret CBudgetSpent
            | Some _ =>
              let+ avail := capped b CALL_BUDGET in
              match avail with
              | None => lret CNoCallBudget
              | Some call =>
                let+ report := run_socket_work_as_target (tg_uid t) b
                  (let+ all_sent := send_all d reqs (tg_uid t) call true in
                   lret (chauthtok_outcome_code (if all_sent && negb incomplete then Sent else SendFailed), 0)) in
                lret (chauthtok_outcome_from_report report)
              end
            end
          end
        end
      end
    | None, None => lret (Missing (lit "old and new passwords"))
    | None, Some _ => lret (Missing (lit "the old password"))
    | Some _, None => lret (Missing (lit "the new password"))
    end.

(** ** The hooks *)

(** [authenticate]: the token goes to the stash, if libpam takes it. *)
Definition authenticate_hook (token : result (option str) str) (accepted : bool) (stash : option str) : option str :=
  match authenticate_decision token, token with
  | Stash, Ok (Some t) => if accepted then Some t else stash
  | _, _ => stash
  end.

(** [start_daemon] of the session hook: no user name, no start. *)
Definition start_for (user : option str) (b : Budget) : lm bool :=
  match user with
  | Some user => let+ _ := start_daemon user b in lret true
  | None => lret false
  end.

Definition target_of (user : option str) (o : Options) : lm (option Target) :=
  match user with Some user => target_for user o | None => lret None end.

(** [open_session]: the outcome, and the stash libpam is left with. *)
Definition open_session_hook (stash user : option str) (args : list str) : lm (SessionOutcome * option str) :=
  let+ b := budget_new HOOK_BUDGET in
  let+ out := open_session_decision (start_for user) stash args b (target_of user) in
  lret (out, if clears_stash out then Some [] else stash).

(** [chauthtok]: the stash is cleared on every way out. *)
Definition chauthtok_hook (flags : Z) (old new user : option str) (args : list str) : lm (ChauthtokOutcome * option str) :=
  let+ b := budget_new HOOK_BUDGET in
  let prelim := negb (Z.land flags PAM_PRELIM_CHECK =? 0) in
  let+ out := chauthtok_decision flags (if prelim then None else old) (if prelim then None else new) args b (target_of user) in
  lret (out, Some []).
End machine.
