(* ===== verification/PamProps.v ===== *)
(** * Reasoning about the PAM module

    Triples over the login state, with the clock bounded and the history of
    events kept in order; then every routine of the session hook and of the
    password hook in turn; the report codec. *)
From S2P Require Import Prelude Text Env Crypto Codec Format Sanitize Names Protocol Pam.

Open Scope pam_scope.

(** ** Histories *)

(** Every event was in order when it happened. *)
Inductive history_ok (ok : list (Z * event) -> Z -> event -> Prop) : list (Z * event) -> Prop :=
| h_nil : history_ok ok []
| h_snoc T t e : history_ok ok T -> ok T t e -> history_ok ok (T ++ [(t, e)]).

Lemma history_at ok T T1 t e T2 : history_ok ok T -> T = T1 ++ (t, e) :: T2 -> ok T1 t e.
Proof.
  intros Hh. revert T1 T2. induction Hh as [|T t' e' Hh IH Hok]; intros T1 T2 E; [by destruct T1|].
  destruct T2 as [|x T2 _] using rev_ind.
  - apply app_inj_tail in E as [-> [= <- <-]]. done.
  - rewrite app_comm_cons, app_assoc in E. apply app_inj_tail in E as [-> _]. by eapply IH.
Qed.

Lemma history_prefix ok T T' : history_ok ok T -> T' `prefix_of` T -> history_ok ok T'.
Proof.
  intros Hh. revert T'. induction Hh as [|T t e Hh IH Hok]; intros T' Hp.
  - apply prefix_nil_inv in Hp as ->. constructor.
  - destruct Hp as [k E]. destruct k as [|x k _] using rev_ind; [rewrite app_nil_r in E; subst T'; by constructor|].
    rewrite app_assoc in E. apply app_inj_tail in E as [-> _]. apply IH. by eexists.
Qed.

Lemma elem_of_snoc {A} (l : list A) x : x ∈ l ++ [x].
Proof. set_solver. Qed.

(** ** Triples *)

Definition hoare {A} (P : login -> Prop) (m : lm A) (Q : A -> login -> Prop) : Prop :=
  forall s, P s -> Q (fst (m s)) (snd (m s)).

Lemma hoare_bind {A B} P (R : A -> login -> Prop) Q (m : lm A) (k : A -> lm B) :
  hoare P m R -> (forall a, hoare (R a) (k a) Q) -> hoare P (lbind m k) Q.
Proof. intros Hm Hk s Hs. unfold lbind. specialize (Hm s Hs). destruct (m s) as [a s1]. by apply Hk. Qed.

Lemma hoare_ret {A} (a : A) (P : login -> Prop) (Q : A -> login -> Prop) : (forall s, P s -> Q a s) -> hoare P (lret a) Q.
Proof. intros H s Hs. by apply H. Qed.

Lemma hoare_weaken {A} P P' Q Q' (m : lm A) :
  hoare P' m Q' -> (forall s, P s -> P' s) -> (forall a s, Q' a s -> Q a s) -> hoare P m Q.
Proof. intros Hm HP HQ s Hs. by apply HQ, Hm, HP. Qed.

Lemma hoare_false {A} (P : login -> Prop) Q (m : lm A) : (forall s, ~ P s) -> hoare P m Q.
Proof. intros H s Hs. by destruct (H s). Qed.

Lemma hoare_pure {A} (F : Prop) P Q (m : lm A) : (F -> hoare P m Q) -> hoare (fun s => F /\ P s) m Q.
Proof. intros H s [? ?]. by apply H. Qed.

Lemma hoare_pure_r {A} (F : Prop) P Q (m : lm A) : (F -> hoare P m Q) -> hoare (fun s => P s /\ F) m Q.
Proof. intros H s [? ?]. by apply H. Qed.

Tactic Notation "h_step" uconstr(lem) := eapply hoare_bind; [apply lem; try done|].
Ltac h_done := apply hoare_ret; try done.

Section login.
Context `{M : Machine} `{HC : VaultCodec} `{HP : Prims} (slow : Z) `{!MachineOk M slow}.
(** The budget, and what the events of this hook have to satisfy. *)
Context (b : Budget) (ok : list (Z * event) -> Z -> event -> Prop).
Context (ok_fstat : forall T t d m, ok T t (EFstat d m)).
Context (ok_header : forall T t id s k, kdf_acceptable_for_login k = true -> ok T t (EHeader id s k)).

Definition deadline : Z := bg_start b + bg_total b.

(** How far past the deadline a hook can run: a derivation and its call, or
    collecting a child twice. *)
Definition overrun : Z := Z.max (slow + millisecond) (2 * (REAP_TIMEOUT + POLL_INTERVAL) + millisecond).

(** By the time [c], with [T] behind. *)
Definition inv (T : list (Z * event)) (c : Z) (s : login) : Prop :=
  bg_start b <= lg_clock s <= c /\ T `prefix_of` lg_trace s /\ history_ok ok (lg_trace s).

Lemma inv_later T c c' s : inv T c s -> c <= c' -> inv T c' s.
Proof. intros ((? & ?) & ? & ?) ?. unfold inv. split_and!; [lia|lia|done..]. Qed.

Lemma inv_behind T T' c s : inv T c s -> T' `prefix_of` T -> inv T' c s.
Proof. intros (? & ? & ?) ?. unfold inv. split_and!; [lia|lia|by etrans|done]. Qed.

Lemma inv_now T c s : inv T c s -> inv (lg_trace s) c s.
Proof. by intros (? & ? & ?). Qed.

Lemma overrun_pos : millisecond <= overrun /\ slow + millisecond <= overrun /\ 2 * (REAP_TIMEOUT + POLL_INTERVAL) + millisecond <= overrun.
Proof. pose proof m_slow_pos. unfold overrun. lia. Qed.

(** *** Steps *)

Lemma h_ask {A} (f : login -> A) T c : hoare (inv T c) (ask f) (fun _ => inv T c).
Proof. by intros s Hs. Qed.

Lemma h_note e T c (R : list (Z * event) -> Prop) :
  (forall T' t, T `prefix_of` T' -> t <= c -> R T' -> ok T' t e) ->
  hoare (fun s => inv T c s /\ R (lg_trace s)) (note e) (fun _ s => inv T c s /\ exists t, (t, e) ∈ lg_trace s).
Proof.
  intros He s [(Hc & Hp & Hh) HR]. cbn. unfold inv. cbn. split_and!; [lia|lia| | |].
  - etrans; [exact Hp|]. by eexists.
  - constructor; [done|]. apply He; [done|lia|done].
  - exists (lg_clock s). apply elem_of_snoc.
Qed.

Lemma h_note_any e T c : (forall T t, ok T t e) -> hoare (inv T c) (note e) (fun _ => inv T c).
Proof.
  intros He. eapply hoare_weaken; [apply (h_note e T c (fun _ => True)); eauto|by split|]. by intros [] s [? _].
Qed.

Lemma h_spend f T c d : (forall s, inv T c s -> 0 <= f s <= d) -> hoare (inv T c) (spend f) (fun _ => inv T (c + d)).
Proof. intros Hf s Hs. pose proof (Hf s Hs). destruct Hs as ((? & ?) & ? & ?). unfold inv. cbn. split_and!; [lia|lia|done..]. Qed.

(** *** The budget *)

Lemma remaining_Some s T c avail : inv T c s -> budget_remaining b s = Some avail -> 0 < avail /\ lg_clock s + avail = deadline.
Proof.
  intros [Hc _]. unfold budget_remaining, checked_sub, deadline.
  destruct (Z.ltb_spec (bg_total b) (lg_clock s - bg_start b)); [done|].
  destruct (bg_total b - (lg_clock s - bg_start b)) as [|p|p] eqn:E; intros [= <-]; lia.
Qed.

Lemma h_left T c : hoare (inv T c) (budget_left b) (fun r s => match r with Some _ => inv T (deadline - 1) s | None => inv T c s end).
Proof.
  intros s Hs. cbn. destruct (budget_remaining b s) as [avail|] eqn:E; [|done].
  eapply remaining_Some in E; [|done]. destruct Hs as ((? & ?) & ? & ?). unfold inv. split_and!; [lia|lia|done..].
Qed.

Lemma h_capped T c max : 0 < max ->
  hoare (inv T c) (capped b max)
    (fun r s => match r with Some call => 0 < call <= max /\ inv T (deadline - call) s | None => inv T c s end).
Proof.
  intros Hm s Hs. cbn. destruct (budget_remaining b s) as [avail|] eqn:E; [|done].
  eapply remaining_Some in E; [|done]. destruct Hs as ((? & ?) & ? & ?). unfold inv. split_and!; [lia|lia|lia|lia|done..].
Qed.

(** *** Bounded waits *)

Lemma poll_round_inv T c s : deadline + millisecond <= c -> inv T c s ->
  match poll_round b s with inl s' => inv T c s' | inr (_, s') => inv T c s' end.
Proof.
  intros Hl Hs. unfold poll_round. destruct (budget_remaining b s) as [avail|] eqn:E; [|done].
  eapply remaining_Some in E as [? ?]; [|done]. cbn.
  set (ms := Z.max 1 _). assert (Hms : 1 <= ms) by lia. pose proof (m_poll_time s ms Hms) as Ht.
  assert (Hle : ms * millisecond <= avail + millisecond).
  { unfold ms. pose proof (Z.mul_div_le avail millisecond ltac:(done)). unfold millisecond in *. lia. }
  assert (Hn : inv T c (Login (lg_clock s + m_poll_took s ms) (S (lg_turn s)) (lg_trace s))).
  { destruct Hs as ((? & ?) & ? & ?). unfold inv. cbn. split_and!; [lia|lia|done..]. }
  repeat case_match; simplify_eq; exact Hn.
Qed.

Lemma h_poll T c : deadline + millisecond <= c -> hoare (inv T c) (poll_readable b) (fun _ => inv T c).
Proof.
  intros Hl s Hs. unfold poll_readable.
  pose proof (iter_until_inv (poll_round b) (inv T c) (fun r => inv T c (snd r)) (rounds b) s) as H.
  destruct (iter_until (rounds b) (poll_round b) s) as [s'|[r s']]; cbn; apply H; try done.
  all: intros a Ha; pose proof (poll_round_inv T c a Hl Ha); repeat case_match; simplify_eq; done.
Qed.

(** What a reader yields, piece by piece, satisfies [Q]. *)
Definition read_so_far (Q : bytes -> Prop) T c (x : bytes * login) : Prop := Q (fst x) /\ inv T c (snd x).
Definition read_through (Q : bytes -> Prop) T c len (r : result bytes io_error) (s : login) : Prop :=
  inv T c s /\ match r with Ok buf => Q buf /\ (len <= length buf)%nat | Err _ => True end.

Lemma read_round_inv T c read len (Q : bytes -> Prop) x : deadline + millisecond <= c ->
  (forall s buf bs, Q buf -> read s (len - length buf)%nat = Ok bs -> Q (buf ++ bs)) -> read_so_far Q T c x ->
  match read_round read len b x with inl x' => read_so_far Q T c x' | inr (r, s) => read_through Q T c len r s end.
Proof.
  intros Hl Qs [Qb Hs]. destruct x as [buf s]. cbn in *. unfold read_round.
  destruct (Nat.leb_spec len (length buf)); [by split|].
  pose proof (h_poll T c Hl s Hs) as Hp. destruct (poll_readable b s) as [[[]|e] s1]; cbn in *; [|by split].
  destruct (read s1 (len - length buf)%nat) as [bs|e] eqn:E.
  - destruct bs as [|x bs]; [by split|]. split; cbn; [by eapply Qs|done].
  - destruct (_ || _); by split.
Qed.

Lemma h_read T c read len (Q : bytes -> Prop) : deadline + millisecond <= c -> Q [] ->
  (forall s buf bs, Q buf -> read s (len - length buf)%nat = Ok bs -> Q (buf ++ bs)) ->
  hoare (inv T c) (read_exact_bounded read len b) (read_through Q T c len).
Proof.
  intros Hl Q0 Qs s Hs. unfold read_exact_bounded.
  pose proof (iter_until_inv (read_round read len b) (read_so_far Q T c) (fun r => read_through Q T c len (fst r) (snd r))
    (rounds b) ([], s)) as H.
  destruct (iter_until (rounds b) (read_round read len b) ([], s)) as [[buf s']|[r s']]; cbn in *.
  1: split; [|done]; apply H; [|by split].
  2: apply H; [|by split].
  all: intros a Ha; pose proof (read_round_inv T c read len Q a Hl Qs Ha); repeat case_match; simplify_eq; done.
Qed.

Lemma h_read_any T c read len : deadline + millisecond <= c ->
  hoare (inv T c) (read_exact_bounded read len b) (fun _ => inv T c).
Proof. intros Hl. eapply hoare_weaken; [apply (h_read T c read len (fun _ => True)); done|done|]. by intros r s [? _]. Qed.

(** A header, if one was read, and the event that says so. *)
Definition header_known (T : list (Z * event)) (v : str * bytes * KdfParams) : Prop :=
  kdf_acceptable_for_login (snd v) = true /\ exists t, (t, EHeader (fst (fst v)) (snd (fst v)) (snd v)) ∈ T.

Lemma header_known_later T T' v : header_known T v -> T `prefix_of` T' -> header_known T' v.
Proof. intros [? [t Ht]] Hp. split; [done|]. exists t. by eapply elem_of_prefix. Qed.

Lemma h_vault_header dir id uid T c : deadline + millisecond <= c ->
  hoare (inv T c) (vault_header dir id uid b)
    (fun r s => inv T c s /\ match r with Some (x, k) => header_known (lg_trace s) (id, x, k) | None => True end).
Proof.
  intros Hl. unfold vault_header. h_step h_ask. intros [e|]; cbn beta; [h_done|].
  h_step h_ask. intros [m|e]; cbn beta; [|h_done]. case_match; [h_done|].
  h_step h_read_any. intros [bs|e]; cbn beta; [|h_done].
  destruct (header_prefix_len bs) as [need|e]; [|h_done].
  h_step h_read_any. intros [rest|e]; cbn beta; [|h_done].
  destruct (decode_header (bs ++ rest)) as [h|e]; [|h_done].
  destruct (kdf_acceptable_for_login (kdf h)) eqn:Hk; [|h_done].
  eapply hoare_bind; [eapply hoare_weaken; [apply (h_note _ T c (fun _ => True)); eauto|by split|done]|].
  intros []. apply hoare_ret. by intros s [? ?].
Qed.

(** A loop that checks the clock and sleeps overruns its timeout by one nap. *)
Lemma h_naps {B} (round : Z -> login -> login + (B * login)) (out : B) p T c timeout : 0 <= timeout ->
  (forall start s, match round start s with
                   | inl s' => lg_clock s - start < timeout /\ lg_clock s' = lg_clock s + POLL_INTERVAL /\ lg_trace s' = lg_trace s
                   | inr (_, s') => lg_clock s' = lg_clock s /\ lg_trace s' = lg_trace s
                   end) ->
  hoare (inv T c) (fun s => match iter_until p (round (lg_clock s)) s with inr r => r | inl s => (out, s) end)
    (fun _ => inv T (c + timeout + POLL_INTERVAL)).
Proof.
  intros Ht Hr s Hs. set (st := lg_clock s).
  assert (Hst : st <= c) by (destruct Hs as [[? ?] _]; done).
  pose proof (iter_until_inv (round st) (inv T (st + timeout + POLL_INTERVAL)) (fun r => inv T (st + timeout + POLL_INTERVAL) (snd r)) p s) as H.
  assert (Hs0 : inv T (st + timeout + POLL_INTERVAL) s).
  { destruct Hs as ((? & ?) & ? & ?). unfold inv, st. split_and!; [done| |done..]. unfold POLL_INTERVAL, millisecond. lia. }
  assert (Hstep : forall a, inv T (st + timeout + POLL_INTERVAL) a ->
    match round st a with inl a' => inv T (st + timeout + POLL_INTERVAL) a' | inr r => inv T (st + timeout + POLL_INTERVAL) (snd r) end).
  { intros a ((? & ?) & Hp & Hh). specialize (Hr st a). unfold inv. destruct (round st a) as [a'|[r a']]; cbn.
    - destruct Hr as (? & Hcl & ->). rewrite Hcl. unfold POLL_INTERVAL, millisecond in *. split_and!; [lia|lia|done..].
    - by destruct Hr as (-> & ->). }
  specialize (H Hstep Hs0). destruct (iter_until p (round st) s) as [s'|[r s']]; cbn in *; (eapply inv_later; [exact H|lia]).
Qed.

Lemma sleep_takes s : m_sleep_took s POLL_INTERVAL = POLL_INTERVAL.
Proof. apply m_sleep_time. vm_compute. congruence. Qed.

Lemma h_ticks {B} (check : login -> option B) (expired : B) T c timeout : 0 <= timeout ->
  hoare (inv T c) (wait_ticks check expired timeout) (fun _ => inv T (c + timeout + POLL_INTERVAL)).
Proof.
  intros Ht. apply (h_naps (fun start => tick_round check expired start timeout)); [done|].
  intros start s. unfold tick_round. cbn. destruct (check s) as [x|]; [done|].
  destruct (Z.leb_spec timeout (lg_clock s - start)); [done|]. cbn. rewrite sleep_takes. done.
Qed.

Lemma h_wait_for path T c timeout : 0 <= timeout ->
  hoare (inv T c) (wait_for path timeout) (fun _ => inv T (c + timeout + POLL_INTERVAL)).
Proof.
  intros Ht. apply (h_naps (fun start => wait_round path start timeout)); [done|].
  intros start s. unfold wait_round. destruct (Z.leb_spec timeout (lg_clock s - start)); [done|].
  cbn. destruct (m_is_socket s path); [done|]. cbn. rewrite sleep_takes. done.
Qed.

Lemma h_later {A} (m : lm A) P T c c' : hoare P m (fun _ => inv T c) -> c <= c' -> hoare P m (fun _ => inv T c').
Proof. intros Hm Hc. eapply hoare_weaken; [exact Hm|done|]. intros a s Hs. exact (inv_later _ _ _ _ Hs Hc). Qed.

Lemma h_run_bounded T c timeout : 0 <= timeout ->
  hoare (inv T c) (run_bounded timeout) (fun _ => inv T (c + timeout + POLL_INTERVAL + REAP_TIMEOUT + POLL_INTERVAL)).
Proof.
  intros Ht. unfold run_bounded.
  assert (0 <= POLL_INTERVAL /\ 0 <= REAP_TIMEOUT) by (split; vm_compute; congruence).
  h_step h_ask. intros [e|]; [apply hoare_ret; intros s Hs; eapply inv_later; [exact Hs|lia]|].
  h_step h_ticks. intros [x| |]; try (apply hoare_ret; intros s Hs; eapply inv_later; [exact Hs|lia]).
  h_step (h_ticks _ _ _ _ REAP_TIMEOUT). intros r. apply hoare_ret. done.
Qed.

Lemma h_start_daemon user T : (forall T t, ok T t (ESpawn user)) ->
  hoare (inv T (deadline + overrun)) (start_daemon user b) (fun _ => inv T (deadline + overrun)).
Proof.
  intros Hok. unfold start_daemon. pose proof overrun_pos as (? & ? & ?). h_step h_capped.
  intros [t|]; [|h_done]. apply hoare_pure. intros Ht. h_step h_note_any. intros [].
  h_step h_run_bounded; [lia|]. intros ?. apply hoare_ret. intros s Hs. eapply inv_later; [exact Hs|].
  unfold REAP_TIMEOUT, POLL_INTERVAL, second, millisecond in *. lia.
Qed.

(** *** The socket directory *)

(** The directory held was looked at and found safe. *)
Definition dir_ok (T : list (Z * event)) (d : SocketDir) : Prop :=
  match sd_dir d with
  | Some n => exists t m, (t, EFstat n (Some m)) ∈ T /\ runtime_subdir_is_safe m (sd_uid d) = true
  | None => True
  end.

Lemma dir_ok_later T T' d : dir_ok T d -> T `prefix_of` T' -> dir_ok T' d.
Proof.
  unfold dir_ok. destruct (sd_dir d); [|done]. intros (t & m & Hin & Hm) Hp. exists t, m. split; [|done]. by eapply elem_of_prefix.
Qed.

Lemma h_metadata n T c :
  hoare (inv T c) (dir_metadata n)
    (fun r s => inv T c s /\ match r with Ok m => exists t, (t, EFstat n (Some m)) ∈ lg_trace s | Err _ => True end).
Proof.
  unfold dir_metadata. h_step h_ask. intros r.
  eapply hoare_bind; [eapply hoare_weaken; [apply (h_note _ T c (fun _ => True)); eauto|by split|intros ? ? H; exact H]|].
  intros []. apply hoare_ret. intros s [? ?]. by destruct r.
Qed.

(** Opening or looking again. *)
Definition dir_held (uid : Z) T c (r : option SocketDir) (s : login) : Prop :=
  inv T c s /\ match r with Some d => sd_uid d = uid /\ dir_ok (lg_trace s) d | None => True end.

Lemma h_dir_open sock uid T c : hoare (inv T c) (socket_dir_open sock uid) (dir_held uid T c).
Proof.
  unfold socket_dir_open. destruct (let! n := path_file_name sock in c_string n) as [name|]; [|h_done].
  eapply (hoare_bind _ (fun _ => inv T c)).
  - destruct (default [] (path_parent sock)) as [|x p]; [h_done|]. unfold open_dir_fd.
    destruct (c_string _); [|h_done]. h_step h_ask. intros r. h_done.
  - intros [[n|]|e]; [|h_done|h_done]. h_step h_metadata. intros [m|e]; [|apply hoare_ret; by intros s [? _]].
    apply hoare_ret. intros s [? [t Ht]]. split; [done|].
    destruct (runtime_subdir_is_safe m uid) eqn:E; [|done]. cbn. split; [done|]. by exists t, m.
Qed.

Lemma h_revalidate d T c : hoare (inv T c) (revalidate d) (dir_held (sd_uid d) T c).
Proof.
  unfold revalidate. destruct (sd_dir d) as [n|] eqn:Ed; [|apply h_dir_open].
  h_step h_metadata. intros [m|e]; [|apply hoare_ret; by intros s [? _]].
  apply hoare_ret. intros s [? [t Ht]]. split; [done|].
  destruct (runtime_subdir_is_safe m (sd_uid d)) eqn:E; [|done]. split; [done|]. unfold dir_ok. rewrite Ed. by exists t, m.
Qed.

Lemma h_connect_path d T c : hoare (inv T c) (connect_path d) (fun _ => inv T c).
Proof. unfold connect_path. destruct (sd_dir d); [|h_done]. h_step h_ask. intros r. h_done. Qed.

Lemma h_clearing d action T c : (forall n T' t, sd_dir d = Some n -> T `prefix_of` T' -> ok T' t (EUnlink n (sd_name d))) ->
  hoare (inv T c) (start_after_clearing d action) (fun _ => inv T c).
Proof.
  intros Hok. unfold start_after_clearing, remove_socket. destruct action; [|h_done].
  eapply (hoare_bind _ (fun _ => inv T c)); [|intros r; h_done].
  destruct (sd_dir d) as [n|] eqn:E; [|h_done].
  eapply (hoare_bind _ (fun _ => inv T c)).
  - eapply hoare_weaken; [apply (h_note _ T c (fun _ => True)); eauto|by split|by intros ? ? [? _]].
  - intros []. h_step h_ask. intros r. h_done.
Qed.

Lemma h_vault_ids dir configured T c : hoare (inv T c) (all_vault_ids dir configured) (fun _ => inv T c).
Proof.
  unfold all_vault_ids, list_vault_collections. eapply (hoare_bind _ (fun _ => inv T c)); [|intros ids; h_done].
  h_step h_ask. intros r. h_done.
Qed.

(** *** Deriving and calling *)

Lemma h_derive password salt k T c : kdf_acceptable_for_login k = true ->
  (forall T' t, T `prefix_of` T' -> t < deadline -> ok T' t (EDerive password salt k)) ->
  hoare (inv T c) (derive password salt k b)
    (fun r s => match r with
                | Some key => inv T (Z.min (c + slow) (deadline + slow)) s /\ derive_key (utf8 password) salt k = Ok key
                | None => inv T (Z.max c (deadline + slow)) s
                end).
Proof.
  intros Hk Hok s Hs. unfold derive, lbind, budget_left. destruct (budget_remaining b s) as [avail|] eqn:E.
  2: { cbn. eapply inv_later; [done|lia]. }
  eapply remaining_Some in E as [? ?]; [|done]. destruct Hs as ((? & ?) & Hp & Hh). cbn.
  match goal with |- context [m_derive_took ?x k] => pose proof (m_derive_time x k Hk) as Hd end.
  assert (Hn : forall c', c' = Z.min (c + slow) (deadline + slow) \/ c' = Z.max c (deadline + slow) ->
    inv T c' (Login (lg_clock s + m_derive_took (Login (lg_clock s) (lg_turn s) (lg_trace s ++ [(lg_clock s, EDerive password salt k)])) k)
              (S (lg_turn s)) (lg_trace s ++ [(lg_clock s, EDerive password salt k)]))).
  { intros c' Hc'. unfold inv. cbn. split_and!; [lia|lia| |].
    - etrans; [exact Hp|]. by eexists.
    - constructor; [done|]. apply Hok; [done|lia]. }
  destruct (derive_key (utf8 password) salt k); [split; [|done]|]; apply Hn; auto.
Qed.

(** A call takes its timeout and a millisecond at most. *)
Lemma h_send path req uid timeout T c : 0 <= timeout ->
  (forall T' t r, T `prefix_of` T' -> t <= c -> ok T' t (ECall path req uid r)) ->
  hoare (inv T c) (try_send path req uid timeout)
    (fun r s => inv T (c + timeout + millisecond) s
                /\ match r with Ok _ => exists t, (t, ECall path req uid true) ∈ lg_trace s | Err _ => True end).
Proof.
  intros Ht Hok s Hs. unfold try_send. destruct (m_call s path req uid timeout) as [r|e] eqn:E; cbn.
  all: match goal with |- context [m_call_took ?x ?p ?r ?u ?t] => pose proof (m_call_time x p r u t Ht) as Hc end.
  all: destruct Hs as ((? & ?) & Hp & Hh); split; [|try done].
  1,3: unfold inv; cbn; split_and!; [lia|lia|etrans; [exact Hp|by eexists]|constructor; [done|]; apply Hok; [done|lia]].
  exists (lg_clock s). apply elem_of_snoc.
Qed.

(** *** The child *)

(** What the parent reads is what the child wrote. *)
Lemma h_report x y T :
  hoare (inv T deadline) (wait_for_report [x; y] b)
    (fun r s => inv T (deadline + overrun) s /\ (r = None \/ r = Some (b2z x, b2z y))).
Proof.
  pose proof overrun_pos as (? & ? & ?). unfold wait_for_report.
  assert (Hms : 0 <= millisecond /\ 0 <= REAP_TIMEOUT /\ 0 <= POLL_INTERVAL) by (split_and!; vm_compute; congruence).
  eapply (hoare_bind _ (read_through (fun buf => buf `prefix_of` [x; y]) T (deadline + millisecond) 2)).
  { eapply hoare_weaken; [apply (h_read T (deadline + millisecond)); [lia| |]|intros s Hs; eapply inv_later; [exact Hs|lia]|done].
    - apply prefix_nil.
    - intros s buf bs [rest E] Hr. destruct (m_pipe_read s _) as [k|e]; [|done]. injection Hr as <-.
      assert (Hl : (length buf <= 2)%nat) by (apply (f_equal length) in E; rewrite length_app in E; cbn in E; lia).
      replace (2 - (2 - length buf))%nat with (length buf) by lia. rewrite E, drop_app_length.
      apply prefix_app, prefix_take. }
  unfold reap_child. intros [out|e].
  - apply hoare_pure_r. intros [[rest E] Hl]. h_step (h_ticks _ _ _ _ REAP_TIMEOUT). intros gone.
    assert (Ho : out = [x; y]).
    { destruct out as [|a [|c [|]]]; cbn in *; try lia; [by injection E as <- <- _|].
      apply (f_equal length) in E. cbn in E. lia. }
    eapply (hoare_bind _ (fun _ => inv T (deadline + overrun))).
    + destruct gone; [apply hoare_ret; intros s Hs; eapply inv_later; [exact Hs|lia]|].
      eapply h_later; [apply h_ticks; lia|lia].
    + intros _. apply hoare_ret. rewrite Ho. auto.
  - apply hoare_pure_r. intros _. h_step (h_ticks _ _ _ _ REAP_TIMEOUT). intros ?. apply hoare_ret. intros s Hs. split; [|by left]. eapply inv_later; [exact Hs|lia].
Qed.

(** The socket work, here or in a child: [Q] holds of the report and of what
    happened, and with a child its own pace does not count. *)
Lemma h_run_as target T work c1 (R : list (Z * event) -> Prop) (Q : Z * Z -> list (Z * event) -> Prop) :
  (forall T t, ok T t (EFork target)) -> (forall T t, R T -> R (T ++ [(t, EFork target)])) ->
  (forall r T, Q r T -> 0 <= fst r < 256 /\ 0 <= snd r < 256) ->
  (forall T', T `prefix_of` T' ->
     hoare (fun s => inv T' (deadline - 1) s /\ R (lg_trace s)) work (fun r s => inv T' c1 s /\ Q r (lg_trace s))) ->
  hoare (fun s => inv T (deadline - 1) s /\ R (lg_trace s)) (run_socket_work_as_target target b work)
    (fun r s => inv T (if privileges_to_drop m_euid target then deadline + overrun else c1) s
                /\ match r with Some r => Q r (lg_trace s) | None => True end).
Proof.
  intros Hfork HR Hbyte Hwork. unfold run_socket_work_as_target. pose proof overrun_pos as (? & ? & ?).
  assert (Hms : 0 <= millisecond) by done.
  destruct (privileges_to_drop m_euid target); cbn [negb].
  2: { eapply hoare_bind; [by apply Hwork|]. intros r. apply hoare_ret. auto. }
  assert (Hout : forall s, inv T (deadline - 1) s -> inv T (deadline + overrun) s) by (intros s Hs; eapply inv_later; [exact Hs|lia]).
  assert (Hask : forall A (f : login -> A) T, hoare (fun s => inv T (deadline - 1) s /\ R (lg_trace s)) (ask f)
                   (fun _ s => inv T (deadline - 1) s /\ R (lg_trace s))) by (intros A f T2 s Hs; exact Hs).
  unfold fork_report. h_step Hask. intros [e|]; [apply hoare_ret; intros s [? _]; auto|].
  h_step Hask. intros [e|]; [apply hoare_ret; intros s [? _]; auto|].
  eapply (hoare_bind _ (fun _ s => inv T (deadline - 1) s /\ R (lg_trace s))).
  { intros s [Hs Hr]. split; [by apply h_note_any|]. by apply HR. }
  intros [] s [Hs HRs].
  assert (Hch := Hs). apply inv_now in Hch. set (T1 := lg_trace s) in *.
  assert (Hp1 : T `prefix_of` T1) by apply Hs.
  pose proof (hoare_bind _ _ _ _ _ (Hask _ m_setuid T1) (fun _ => Hwork T1 Hp1) s (conj Hch HRs)) as Hw.
  destruct ((let+ _ := ask m_setuid in work) s) as [[x y] child]. cbn [fst snd] in Hw. destruct Hw as [Hci HQ].
  pose proof (h_report (z2b x) (z2b y) T1 s (inv_later _ _ deadline _ Hch ltac:(lia))) as Hr.
  destruct (wait_for_report [z2b x; z2b y] b s) as [report parent]. cbn [fst snd] in *. destruct Hr as [Hpi Hr].
  destruct Hci as (_ & [done Ech] & Hh). cbn [lg_trace].
  destruct (Hbyte _ _ HQ) as [Hx Hy]. cbn in Hx, Hy. rewrite !b2z_z2b, !Z.mod_small in Hr by lia.
  rewrite Ech, drop_app_length. destruct Hpi as ((? & ?) & _ & _). rewrite Ech in Hh, HQ. fold T1. unfold inv. cbn [lg_clock lg_trace].
  destruct Hr as [-> | ->].
  - split; [|done]. split_and!; [lia|lia|by apply prefix_app_r|].
    eapply history_prefix; [exact Hh|]. apply prefix_app, prefix_take.
  - split; [|exact HQ]. split_and!; [lia|lia|by apply prefix_app_r|exact Hh].
Qed.
End login.

(** Going on from what is known now. *)
Lemma hoare_now {A} b ok T c (F : list (Z * event) -> Prop) (m : lm A) Q :
  (forall T', T `prefix_of` T' -> F T' -> hoare (inv b ok T' c) m Q) ->
  hoare (fun s => inv b ok T c s /\ F (lg_trace s)) m Q.
Proof. intros H s [Hs HF]. eapply H; [|exact HF|by eapply inv_now]. apply Hs. Qed.

(** ** The report *)

Lemma outcome_code_bytes o : 0 <= fst (session_outcome_code o) < 256 /\ 0 <= snd (session_outcome_code o) < 256.
Proof. destruct o as [| | | | | | | | |[| | |[|] [[|]|]| | |]]; vm_compute; split; split; congruence. Qed.

Lemma outcome_decodes o : session_outcome_from_codes (fst (session_outcome_code o)) (snd (session_outcome_code o)) = o.
Proof. destruct o as [| | | | | | | | |[| | |[|] [[|]|]| | |]]; reflexivity. Qed.

(** The report a child sends the parent through the pipe says exactly what
    the child decided, for every outcome; and no two bytes but the code of an
    outcome are read as that outcome: anything garbled is read as [Failed],
    which leaves the vault locked, never as a success. *)
Theorem session_report_roundtrip o a x :
  session_outcome_from_codes (fst (session_outcome_code o)) (snd (session_outcome_code o)) = o
  /\ (session_outcome_from_codes a x = Failed \/ session_outcome_code (session_outcome_from_codes a x) = (a, x)).
Proof.
  split; [apply outcome_decodes|]. unfold session_outcome_from_codes.
  destruct (Z.eqb_spec a REPORT_STARTED) as [->|Ha].
  - destruct (Z.eqb_spec x 0) as [->|]; [by right|].
    destruct (Z.eqb_spec x 1) as [->|]; [by right|].
    destruct (Z.eqb_spec x 2) as [->|]; [by right|].
    destruct ((REPORT_NOT_RETRIED_BASE <=? x) && (x <=? REPORT_NOT_RETRIED_BASE + 5)) eqn:E.
    + apply andb_true_iff in E as [?%Z.leb_le ?%Z.leb_le]. unfold REPORT_NOT_RETRIED_BASE in *. right.
      assert (x = 10 \/ x = 11 \/ x = 12 \/ x = 13 \/ x = 14 \/ x = 15) as Hx by lia.
      destruct Hx as [-> | [-> | [-> | [-> | [-> | ->]]]]]; reflexivity.
    + destruct (Z.eqb_spec x REPORT_RETRY_BASE) as [->|]; [by right|].
      destruct (Z.eqb_spec x (REPORT_RETRY_BASE + 1)) as [->|]; [by right|].
      destruct (Z.eqb_spec x (REPORT_RETRY_BASE + 2)) as [->|]; [by right|]. by left.
  - repeat case_match; auto.
Qed.

(** ** The session hook *)

(** What an event of the session hook for [uid] may be, after [T] and at [t]:
    the password goes into a derivation for a header that was read, before the
    deadline, and nothing but the key of such a header goes to the socket. *)
Definition session_event (user : option str) (password : str) (uid dl : Z) `{Prims} (T : list (Z * event)) (t : Z) (e : event) : Prop :=
  match e with
  | EFstat _ _ => True
  | EUnlink d _ => exists t m, (t, EFstat d (Some m)) ∈ T /\ runtime_subdir_is_safe m uid = true
  | EHeader _ _ k => kdf_acceptable_for_login k = true
  | EDerive p salt k => p = password /\ t < dl /\ exists id, header_known T (id, salt, k)
  | ECall _ req u _ =>
    u = uid /\ exists id salt k key, req = RUnlockWithKey id key true /\ header_known T (id, salt, k)
                                     /\ derive_key (utf8 password) salt k = Ok key
  | ESpawn u => user = Some u
  | EFork target => target = uid
  end.

Section session.
Context `{M : Machine} `{HC : VaultCodec} `{HP : Prims} (slow : Z) `{!MachineOk M slow}.
Context (user : option str) (password : str) (uid : Z) (b : Budget).

Notation limit := (deadline b + overrun slow).
Notation sinv := (inv b (session_event user password uid (deadline b))).

Lemma session_fstat T t d m : session_event user password uid (deadline b) T t (EFstat d m).
Proof. done. Qed.

Lemma h_unlock_once d o t salt k call T : 0 < call -> tg_uid t = uid -> header_known T (o_collection o, salt, k) ->
  hoare (sinv T (deadline b - call)) (unlock_once d o t password salt k call b) (fun _ => sinv T limit).
Proof.
  intros Hc Ht Hk. pose proof (overrun_pos slow) as (? & ? & ?). assert (0 <= millisecond) by done. unfold unlock_once. h_step h_connect_path.
  intros [path|e]; [|apply hoare_ret; intros s Hs; eapply inv_later; [exact Hs|lia]]. unfold unlock_by_key.
  eapply hoare_bind; [apply (h_derive slow); [by apply Hk|]|].
  { intros T' t' Hp Hlt. split_and!; [done|done|]. eexists. by eapply header_known_later. }
  intros [key|]; [|apply hoare_ret; intros s Hs; eapply inv_later; [exact Hs|lia]].
  apply hoare_pure_r. intros Hkey. eapply hoare_weaken; [apply (h_send slow b) with (timeout := call) (T := T) (c := Z.min (deadline b - call + slow) (deadline b + slow)); [lia|]|done|].
  - intros T' t' r Hp Hlt. split; [done|]. eexists _, _, _, _. split_and!; [done|by eapply header_known_later|done].
  - intros r s [Hs _]. eapply inv_later; [exact Hs|lia].
Qed.

(** An outcome, and the directory as it is held at the end. *)
Definition tail_post (T : list (Z * event)) (r : SessionOutcome * SocketDir) (s : login) : Prop :=
  sinv T limit s /\ fst r <> SNoPassword /\ sd_uid (snd r) = uid /\ dir_ok (lg_trace s) (snd r).

Lemma tail_post_ret T out d c : c <= limit -> out <> SNoPassword -> sd_uid d = uid -> dir_ok T d ->
  hoare (sinv T c) (lret (out, d)) (tail_post T).
Proof.
  intros Hc Ho Hu Hd. apply hoare_ret. intros s Hs. split_and!; [by eapply inv_later|done|done|]. eapply dir_ok_later; [exact Hd|]. apply Hs.
Qed.

Lemma tail_post_behind T T' r s : tail_post T r s -> T' `prefix_of` T -> tail_post T' r s.
Proof. intros (? & ?) ?. split; [|done]. by eapply inv_behind. Qed.

(** After looking at the directory again. *)
Lemma h_revalidated {A} d T c (k : option SocketDir -> lm A) (Q : list (Z * event) -> A -> login -> Prop) : sd_uid d = uid ->
  (forall T T' r s, Q T r s -> T' `prefix_of` T -> Q T' r s) ->
  hoare (sinv T c) (k None) (Q T) ->
  (forall T' d', T `prefix_of` T' -> sd_uid d' = uid -> dir_ok T' d' -> hoare (sinv T' c) (k (Some d')) (Q T')) ->
  hoare (sinv T c) (let+ again := revalidate d in k again) (Q T).
Proof.
  intros Hu HQ HN HS. eapply hoare_bind; [apply h_revalidate; apply session_fstat|].
  intros [d'|]; [|eapply hoare_weaken; [exact HN|by intros s [? _]|done]]. unfold dir_held. apply (hoare_now _ _ T c (fun T => sd_uid d' = sd_uid d /\ dir_ok T d')).
  intros T' Hp [Hu' Hd]. eapply hoare_weaken; [apply HS; [exact Hp|congruence|exact Hd]|done|]. intros r s Hr. by eapply HQ.
Qed.

Context (start : Budget -> lm bool) (Hstart : forall T, hoare (sinv T limit) (start b) (fun _ => sinv T limit)).

Ltac tail_ret := apply tail_post_ret; try done; lia.

Lemma h_start_and_retry d o t salt k sock e T :
  tg_uid t = uid -> header_known T (o_collection o, salt, k) -> sd_uid d = uid -> dir_ok T d ->
  hoare (sinv T limit) (start_and_retry start d o t password salt k b sock e) (tail_post T).
Proof.
  intros Ht Hk Hu Hd. pose proof (overrun_pos slow) as (? & ? & ?). assert (Hms : 0 <= millisecond) by done. unfold start_and_retry.
  destruct (stale_socket_action (io_kind e)) as [action|]; [|tail_ret].
  h_step h_capped. intros [av|]; [|tail_ret]. apply hoare_pure. intros Hav0.
  eapply hoare_bind; [apply h_clearing|].
  { intros n T' t' Hn Hp. pose proof (dir_ok_later _ _ _ Hd Hp) as Hd'. unfold dir_ok in Hd'. rewrite Hn, Hu in Hd'. exact Hd'. }
  intros [|]; cbn [negb]; [|tail_ret].
  eapply hoare_bind; [eapply hoare_weaken; [apply (Hstart T)|intros s Hs; eapply inv_later; [exact Hs|lia]|intros ? ? Hs; exact Hs]|].
  intros [|]; cbn [negb]; [|tail_ret]. h_step h_capped. intros av2.
  eapply (hoare_bind _ (fun _ => sinv T limit)).
  { destruct av2 as [av2|]; [|h_done]. apply hoare_pure. intros Hav.
    eapply h_later; [apply (h_wait_for slow); lia|]. unfold REAP_TIMEOUT, POLL_INTERVAL, second, millisecond in *. lia. }
  intros [|]; cbn [negb]; [|tail_ret].
  apply (h_revalidated d T limit); [done|apply tail_post_behind|tail_ret|].
  intros T' d' Hp Hu' Hd'. h_step h_left. intros [av3|]; [|tail_ret]. h_step h_capped. intros [call|]; [|tail_ret].
  apply hoare_pure. intros Hcall. eapply hoare_bind; [apply h_unlock_once; [lia|done|by eapply header_known_later]|].
  intros r. tail_ret.
Qed.

Lemma h_retry_reset d o t salt k sock e T :
  tg_uid t = uid -> header_known T (o_collection o, salt, k) -> sd_uid d = uid -> dir_ok T d ->
  hoare (sinv T limit) (retry_reset start d o t password salt k b sock e) (tail_post T).
Proof.
  intros Ht Hk Hu Hd. pose proof (overrun_pos slow) as (? & ? & ?). assert (Hms : 0 <= millisecond) by done.
  unfold retry_reset. destruct (retryable_reset e); cbn [negb]; [|tail_ret].
  h_step h_capped. intros [call|]; [|tail_ret]. apply hoare_pure. intros Hcall.
  apply (h_revalidated d T); [done|apply tail_post_behind|tail_ret|].
  intros T' d' Hp Hu' Hd'. assert (Hk' : header_known T' (o_collection o, salt, k)) by (by eapply header_known_later).
  eapply hoare_bind; [apply h_unlock_once; [lia|done|done]|]. intros [r|e2]; [tail_ret|]. destruct (retryable_reset e2); [tail_ret|].
  destruct e2, (o_auto_start o); try tail_ret. by apply h_start_and_retry.
Qed.

Lemma h_session_tail d o t salt k T :
  tg_uid t = uid -> header_known T (o_collection o, salt, k) -> sd_uid d = uid -> dir_ok T d ->
  hoare (sinv T limit) (session_socket_tail start d o t password salt k b) (tail_post T).
Proof.
  intros Ht Hk Hu Hd. pose proof (overrun_pos slow) as (? & ? & ?). assert (Hms : 0 <= millisecond) by done.
  unfold session_socket_tail. h_step h_capped. intros [call|]; [|tail_ret]. apply hoare_pure. intros Hcall.
  eapply hoare_bind; [apply h_unlock_once; [lia|done|done]|]. intros [r|e]; [tail_ret|].
  destruct e, (o_auto_start o); try (by apply h_retry_reset). by apply h_start_and_retry.
Qed.

(** Every vault in turn, the directory handed on. *)
Lemma h_tail_all d o t vaults first success T : tg_uid t = uid -> sd_uid d = uid -> dir_ok T d -> Forall (header_known T) vaults ->
  first <> Some SNoPassword -> success <> Some SNoPassword ->
  hoare (sinv T limit) (tail_all_from start d o t password vaults b first success)
    (fun out s => sinv T limit s /\ out <> SNoPassword).
Proof.
  intros Ht. pose proof (overrun_pos slow) as (? & ? & ?). assert (Hms : 0 <= millisecond) by done.
  revert d first success T. induction vaults as [|[[id salt] k] vaults IH]; intros d first success T Hu Hd Hv Hf Hsu; cbn [tail_all_from].
  { apply hoare_ret. intros s Hs. split; [done|]. destruct success, first; cbn; congruence. }
  apply Forall_cons in Hv as [Hk Hv]. h_step h_left. intros [av|].
  2: { apply hoare_ret. intros s Hs. split; [done|]. destruct success, first; cbn; congruence. }
  eapply hoare_bind.
  { eapply hoare_weaken; [apply (h_session_tail d {| o_collection := id; o_auto_start := o_auto_start o; o_socket := o_socket o;
                          o_vault_dir := o_vault_dir o |} t salt k T Ht Hk Hu Hd)|intros s Hs; eapply inv_later; [exact Hs|lia]|intros a s Hs; exact Hs]. }
  intros [out d']. intros s (Hs & Ho & Hu' & Hd'). cbn in *.
  assert (Hp : T `prefix_of` lg_trace s) by apply Hs. apply inv_now in Hs.
  assert (Hv' : Forall (header_known (lg_trace s)) vaults) by (eapply Forall_impl; [exact Hv|]; intros v Hk'; by eapply header_known_later).
  assert (Hgo : forall f su, f <> Some SNoPassword -> su <> Some SNoPassword ->
     sinv T limit (snd (tail_all_from start d' o t password vaults b f su s)) /\ fst (tail_all_from start d' o t password vaults b f su s) <> SNoPassword).
  { intros f su Hf' Hsu'. destruct (IH d' f su (lg_trace s) Hu' Hd' Hv' Hf' Hsu' s Hs) as [H3 H4]. split; [|done]. by eapply inv_behind. }
  destruct (reached out); apply Hgo; destruct first, success; cbn; congruence.
Qed.

Lemma h_read_headers t ids T c : deadline b + millisecond <= c ->
  hoare (sinv T c) (read_headers t ids b) (fun l s => sinv T c s /\ Forall (header_known (lg_trace s)) l).
Proof.
  intros Hc. assert (Hms : 0 <= millisecond) by done. revert T. induction ids as [|id ids IH]; intros T; cbn [read_headers]; [h_done; by split|].
  h_step h_left. intros [av|]; [|h_done; by split].
  eapply hoare_bind.
  { eapply hoare_weaken; [apply (h_vault_header slow b (session_event user password uid (deadline b))) with (T := T) (c := c); done|intros s Hs; eapply inv_later; [exact Hs|lia]|intros a s Hs; exact Hs]. }
  intros h. apply (hoare_now _ _ T c (fun T => match h with Some (x, k) => header_known T (id, x, k) | None => True end)).
  intros T' Hp Hh. h_step IH. intros rest. apply hoare_ret. intros s [Hs Hr].
  split; [by eapply inv_behind|]. destruct h as [[x k]|]; [|done]. constructor; [|done]. eapply header_known_later; [exact Hh|]. apply Hs.
Qed.

(** Once the target is known. *)
Lemma h_session_decision t args : tg_uid t = uid ->
  hoare (sinv [] limit) (open_session_decision start (Some password) args b (fun _ => lret (Some t)))
    (fun out s => sinv [] limit s /\ out <> SNoPassword).
Proof.
  intros Ht. pose proof (overrun_pos slow) as (? & ? & ?). assert (Hms : 0 <= millisecond) by done.
  unfold open_session_decision. eapply (hoare_bind _ (fun r s => sinv [] limit s /\ r = Some t)); [h_done|].
  intros r. apply hoare_pure_r. intros ->. h_step h_dir_open. intros [d|]; [|apply hoare_ret; by intros s [? _]].
  unfold dir_held. apply (hoare_now _ _ [] limit (fun T => sd_uid d = tg_uid t /\ dir_ok T d)).
  intros T1 _ [Hu Hd]. rewrite Ht in Hu.
  assert (Hout : forall T c s, sinv T c s -> c <= limit -> sinv [] limit s).
  { intros T c s Hs Hc. eapply inv_later; [|exact Hc]. eapply inv_behind; [exact Hs|apply prefix_nil]. }
  h_step h_vault_ids. intros ids.
  eapply hoare_bind; [apply (h_read_headers t ids T1 limit); lia|]. intros vaults.
  apply (hoare_now _ _ T1 limit (fun T => Forall (header_known T) vaults)). intros T2 Hp Hv.
  destruct vaults as [|v vaults']; [apply hoare_ret; intros s Hs; split; [by eapply Hout|done]|]. remember (v :: vaults') as vaults.
  h_step h_left. intros [av|]; [|apply hoare_ret; intros s Hs; split; [by eapply Hout|done]].
  eapply hoare_bind.
  { eapply hoare_weaken; [|intros s Hs; exact (conj Hs I)|intros r s Hs; exact Hs].
    apply (h_run_as slow) with (c1 := limit) (R := fun _ => True) (Q := fun r _ => exists out, out <> SNoPassword /\ r = session_outcome_code out).
    - intros T x. exact Ht.
    - done.
    - intros r T (out & _ & ->). apply outcome_code_bytes.
    - intros T' Hp'. eapply hoare_bind.
      + eapply hoare_weaken; [apply (h_tail_all d (parse_options args) t vaults None None T')|intros s [Hs _]; eapply inv_later; [exact Hs|lia]|intros r s Hs; exact Hs]; try done.
        * eapply dir_ok_later; [exact Hd|by etrans].
        * eapply Forall_impl; [exact Hv|]. intros x Hx. by eapply header_known_later.
      + intros out. apply hoare_ret. intros s [Hs Ho]. eauto. }
  intros report. apply hoare_ret. intros s [Hs Hr]. split; [eapply Hout; [exact Hs|]; destruct (privileges_to_drop _ _); lia|].
  destruct report as [[x y]|]; [|done]. destruct Hr as (out & Ho & E). pose proof (outcome_decodes out) as Hdec. rewrite <- E in Hdec. cbn in Hdec. congruence.
Qed.
End session.

(** ** The password hook *)

Lemma hoare_and {A} P P' Q Q' (m : lm A) :
  hoare P m Q -> hoare P' m Q' -> hoare (fun s => P s /\ P' s) m (fun a s => Q a s /\ Q' a s).
Proof. intros H H' s [? ?]. split; [by apply H|by apply H']. Qed.

(** The headers read so far. *)
Definition headers_of (T : list (Z * event)) : list (str * bytes * KdfParams) :=
  omap (fun x => match snd x with EHeader id salt k => Some (id, salt, k) | _ => None end) T.

Lemma headers_of_snoc T t e :
  headers_of (T ++ [(t, e)]) = headers_of T ++ match e with EHeader id salt k => [(id, salt, k)] | _ => [] end.
Proof. unfold headers_of. rewrite omap_app. by destruct e. Qed.

Lemma headers_of_elem T t id salt k : (t, EHeader id salt k) ∈ T -> (id, salt, k) ∈ headers_of T.
Proof. intros Hin. apply list_elem_of_omap. by exists (t, EHeader id salt k). Qed.

Section reading.
Context `{M : Machine} `{HC : VaultCodec} `{HP : Prims} (b : Budget).

Definition have_read (H : list (str * bytes * KdfParams)) (s : login) : Prop := headers_of (lg_trace s) = H.

Lemma r_ask {A} (f : login -> A) H : hoare (have_read H) (ask f) (fun _ => have_read H).
Proof. by intros s Hs. Qed.

Lemma r_note e H : (forall id salt k, e <> EHeader id salt k) -> hoare (have_read H) (note e) (fun _ => have_read H).
Proof.
  intros He s Hs. unfold have_read in *. cbn. rewrite headers_of_snoc, Hs. destruct e; try apply app_nil_r. by destruct (He collection salt kdf).
Qed.

Lemma r_left H : hoare (have_read H) (budget_left b) (fun _ => have_read H).
Proof. by intros s Hs. Qed.

Lemma r_capped max H : hoare (have_read H) (capped b max) (fun _ => have_read H).
Proof. by intros s Hs. Qed.

Lemma r_poll H : hoare (have_read H) (poll_readable b) (fun _ => have_read H).
Proof.
  intros s Hs. unfold poll_readable.
  pose proof (iter_until_inv (poll_round b) (have_read H) (fun r => have_read H (snd r)) (rounds b) s) as Hi.
  destruct (iter_until (rounds b) (poll_round b) s) as [s'|[r s']]; cbn; apply Hi; try done.
  all: intros a Ha; unfold poll_round; cbn; repeat case_match; simplify_eq; done.
Qed.

Lemma r_read read len H : hoare (have_read H) (read_exact_bounded read len b) (fun _ => have_read H).
Proof.
  intros s Hs. unfold read_exact_bounded.
  pose proof (iter_until_inv (read_round read len b) (fun x => have_read H (snd x)) (fun r => have_read H (snd r)) (rounds b) ([], s)) as Hi.
  assert (Hround : forall a : bytes * login, have_read H (snd a) ->
    match read_round read len b a with inl a' => have_read H (snd a') | inr r => have_read H (snd r) end).
  { intros [buf a] Ha. unfold read_round. destruct (len <=? length buf)%nat; [done|]. pose proof (r_poll H a Ha) as Hp.
    destruct (poll_readable b a) as [[x|e] s1]; [|done]. cbn. destruct (read s1 (len - length buf)%nat) as [[|y ys]|e]; [done|done|].
    by destruct (_ || _). }
  specialize (Hi Hround Hs). by destruct (iter_until (rounds b) (read_round read len b) ([], s)) as [[buf s']|[r s']].
Qed.

Lemma r_vault_header dir id uid H :
  hoare (have_read H) (vault_header dir id uid b)
    (fun r s => have_read (H ++ match r with Some (x, k) => [(id, x, k)] | None => [] end) s).
Proof.
  assert (Hnone : hoare (have_read H) (lret (@None (bytes * KdfParams))) (fun r s => have_read (H ++ match r with Some (x, k) => [(id, x, k)] | None => [] end) s)).
  { apply hoare_ret. intros s Hs. by rewrite app_nil_r. }
  unfold vault_header. h_step r_ask. intros [e|]; [exact Hnone|]. h_step r_ask. intros [m|e]; [|exact Hnone]. case_match; [exact Hnone|].
  h_step r_read. intros [bs|e]; [|exact Hnone]. destruct (header_prefix_len bs) as [need|e]; [|exact Hnone].
  h_step r_read. intros [rest|e]; [|exact Hnone]. destruct (decode_header (bs ++ rest)) as [h|e]; [|exact Hnone].
  case_match; [|exact Hnone]. intros s Hs. unfold have_read in *. cbn. by rewrite headers_of_snoc, Hs.
Qed.

Lemma r_derive password salt k H : hoare (have_read H) (derive password salt k b) (fun _ => have_read H).
Proof.
  unfold derive. intros s Hs. unfold lbind, budget_left. destruct (budget_remaining b s); [|done].
  unfold have_read in *. cbn. by rewrite headers_of_snoc, Hs, app_nil_r.
Qed.

Lemma r_send path req uid timeout H : hoare (have_read H) (try_send path req uid timeout) (fun _ => have_read H).
Proof. intros s Hs. unfold have_read, try_send in *. cbn. by rewrite headers_of_snoc, Hs, app_nil_r. Qed.

Lemma r_connect_path d H : hoare (have_read H) (connect_path d) (fun _ => have_read H).
Proof. unfold connect_path. destruct (sd_dir d); [|h_done]. h_step r_ask. intros r. h_done. Qed.

Lemma r_dir_open sock uid H : hoare (have_read H) (socket_dir_open sock uid) (fun _ => have_read H).
Proof.
  unfold socket_dir_open. destruct (let! n := path_file_name sock in c_string n) as [name|]; [|h_done].
  eapply (hoare_bind _ (fun _ => have_read H)).
  - destruct (default [] (path_parent sock)) as [|x p]; [h_done|]. unfold open_dir_fd.
    destruct (c_string _); [|h_done]. h_step r_ask. intros r. h_done.
  - intros [[n|]|e]; [|h_done|h_done]. unfold dir_metadata. eapply (hoare_bind _ (fun _ => have_read H)); [|intros m; h_done].
    h_step r_ask. intros r. h_step r_note. intros []. h_done.
Qed.
End reading.

(** The rotation of the vault [h]: the old key under its own salt, the new one
    under a fresh salt, both with its own KDF. *)
Definition rotation `{Prims} (old new : str) (h : str * bytes * KdfParams) (req : Request) : Prop :=
  exists old_key new_salt new_key,
    req = RChangeKey (fst (fst h)) old_key new_salt (snd h) new_key
    /\ derive_key (utf8 old) (snd (fst h)) (snd h) = Ok old_key /\ derive_key (utf8 new) new_salt (snd h) = Ok new_key.

(** What an event of the password hook may be. *)
Definition chauthtok_event `{Prims} (old new : str) (uid dl : Z) (T : list (Z * event)) (t : Z) (e : event) : Prop :=
  match e with
  | EFstat _ _ => True
  | EUnlink _ _ | ESpawn _ => False
  | EHeader _ _ k => kdf_acceptable_for_login k = true
  | EDerive p salt k => t < dl /\ exists h, header_known T h /\ k = snd h /\ ((p = old /\ salt = snd (fst h)) \/ p = new)
  | ECall _ req u _ => u = uid /\ exists h, header_known T h /\ rotation old new h req
  | EFork target => target = uid
  end.

Section chauthtok.
Context `{M : Machine} `{HC : VaultCodec} `{HP : Prims} (slow : Z) `{!MachineOk M slow}.
Context (old new : str) (uid : Z) (b : Budget).

Notation limit := (deadline b + overrun slow).
Notation cok := (chauthtok_event old new uid (deadline b)).
Notation cinv := (inv b cok).

Lemma h_change_key_request id salt k T : header_known T (id, salt, k) ->
  hoare (cinv T limit) (change_key_request id old new salt k b)
    (fun r s => cinv T limit s /\ match r with Some req => rotation old new (id, salt, k) req | None => True end).
Proof.
  intros Hk. pose proof (overrun_pos slow) as (? & ? & ?). assert (Hms : 0 <= millisecond) by done.
  assert (Hd : forall p s0, (p = old /\ s0 = salt) \/ p = new -> hoare (cinv T limit) (derive p s0 k b)
    (fun r s => cinv T limit s /\ match r with Some key => derive_key (utf8 p) s0 k = Ok key | None => True end)).
  { intros p s0 Hp. eapply hoare_weaken; [apply (h_derive slow b cok p s0 k T limit); [apply Hk|]|done|].
    - intros T' t Hpre Hlt. split; [done|]. exists (id, salt, k). split_and!; [by eapply header_known_later|done|done].
    - intros [key|] s Hs; [destruct Hs as [Hs Hkey]; split; [|done]|split; [|done]]; (eapply inv_later; [exact Hs|lia]). }
  unfold change_key_request. h_step h_ask. intros [ns|]; [|h_done].
  eapply hoare_bind; [apply Hd; auto|]. intros [ok_|]; [|apply hoare_ret; by intros s [? _]]. apply hoare_pure_r. intros Hold.
  eapply hoare_bind; [apply Hd; auto|]. intros [nk|]; [|apply hoare_ret; by intros s [? _]]. apply hoare_ret.
  intros s [Hs Hnew]. split; [done|]. by exists ok_, ns, nk.
Qed.

Lemma r_change_key_request id salt k H : hoare (have_read H) (change_key_request id old new salt k b) (fun _ => have_read H).
Proof.
  unfold change_key_request. h_step r_ask. intros [ns|]; [|h_done]. h_step r_derive. intros [ok_|]; [|h_done].
  h_step r_derive. intros nk. h_done.
Qed.

(** The requests built, and the vaults they are for. *)
Definition built T H (r : list Request * bool * bool) (s : login) : Prop :=
  cinv T limit s /\ Forall (fun req => exists h, header_known (lg_trace s) h /\ rotation old new h req) (fst (fst r))
  /\ exists more, have_read (H ++ more) s
     /\ (snd r = false -> Forall (fun h => exists req, req ∈ fst (fst r) /\ rotation old new h req) more).

Lemma built_nothing T H any inc s : cinv T limit s -> have_read H s -> built T H ([], any, inc) s.
Proof. intros Hs Hr. split_and!; [done|constructor|]. exists []. rewrite app_nil_r. split; [done|]. intros _. constructor. Qed.

Lemma h_build t ids T H :
  hoare (fun s => cinv T limit s /\ have_read H s) (build_requests t old new ids b) (built T H).
Proof.
  pose proof (overrun_pos slow) as (? & ? & ?). assert (Hms : 0 <= millisecond) by done.
  revert T H. induction ids as [|id ids IH]; intros T H; cbn [build_requests].
  { apply hoare_ret. intros s [? ?]. by apply built_nothing. }
  eapply hoare_bind; [apply hoare_and; [apply h_left|apply r_left]|].
  intros [av|]; [|apply hoare_ret; intros s [? ?]; by apply built_nothing].
  eapply hoare_bind.
  { apply hoare_and; [|apply r_vault_header].
    eapply hoare_weaken; [apply (h_vault_header slow b cok) with (T := T) (c := limit); try done; lia|intros s Hs; eapply inv_later; [exact Hs|lia]|intros a s Hs; exact Hs]. }
  intros [[salt k]|].
  2: { cbn beta. intros s [[Hs _] Hr]. rewrite app_nil_r in Hr. by apply IH. }
  intros s [[Hs Hk] Hr]. assert (HpT : T `prefix_of` lg_trace s) by apply Hs. apply inv_now in Hs. set (T1 := lg_trace s) in *.
  refine (hoare_bind _ _ _ _ _ (hoare_and _ _ _ _ _ (h_change_key_request id salt k T1 Hk) (r_change_key_request id salt k (H ++ [(id, salt, k)]))) _ s (conj Hs Hr)).
  intros req s1 [[Hs1 Hrot] Hr1]. refine (hoare_bind _ _ _ _ _ (IH T1 _) _ s1 (conj Hs1 Hr1)).
  intros [[reqs any] inc]. apply hoare_ret. intros s2 (Hs2 & Hgood & more & Hr2 & Hall). cbn [fst snd] in *.
  assert (Hk2 : header_known (lg_trace s2) (id, salt, k)) by (eapply header_known_later; [exact Hk|apply Hs2]).
  assert (Hi2 : cinv T limit s2) by (by eapply inv_behind).
  rewrite <- app_assoc in Hr2. destruct req as [req|]; cbn.
  - split_and!; [done|constructor; [by eexists|done]|]. exists ((id, salt, k) :: more). split; [done|]. cbn. intros Hinc.
    constructor; [exists req; split; [by left|done]|]. eapply Forall_impl; [by apply Hall|]. intros h (r & ? & ?). exists r. split; [by right|done].
  - split_and!; [done|done|]. exists ((id, salt, k) :: more). by split.
Qed.

Definition delivered (T : list (Z * event)) (req : Request) : Prop := exists t path, (t, ECall path req uid true) ∈ T.

Lemma delivered_later T T' req : delivered T req -> T `prefix_of` T' -> delivered T' req.
Proof. intros (t & p & ?) ?. exists t, p. by eapply elem_of_prefix. Qed.

Lemma h_password_tail d req call T c : 0 <= call -> (exists h, header_known T h /\ rotation old new h req) ->
  hoare (cinv T c) (password_socket_tail d req uid call)
    (fun r s => cinv T (c + call + millisecond) s /\ (r = Sent -> delivered (lg_trace s) req)).
Proof.
  intros Hc (h & Hk & Hrot). assert (Hms : 0 <= millisecond) by done. unfold password_socket_tail. h_step h_connect_path.
  intros [path|e]; [|apply hoare_ret; intros s Hs; split; [eapply inv_later; [exact Hs|lia]|done]].
  eapply hoare_bind; [apply (h_send slow b cok) with (timeout := call) (T := T) (c := c); [done|]|].
  - intros T' t r Hp _. split; [done|]. exists h. split; [by eapply header_known_later|done].
  - intros [r|e]; apply hoare_ret; intros s [Hs Hd]; (split; [done|]); [|done]. intros _. destruct Hd as [t Ht]. by exists t, path.
Qed.

Lemma r_password_tail d req call H : hoare (have_read H) (password_socket_tail d req uid call) (fun _ => have_read H).
Proof.
  unfold password_socket_tail. h_step r_connect_path. intros [path|e]; [|h_done]. h_step r_send. intros r. h_done.
Qed.

(** Each send is given the same time. *)
Lemma h_send_all d reqs call T c H all : 0 <= call -> Forall (fun req => exists h, header_known T h /\ rotation old new h req) reqs ->
  hoare (fun s => cinv T c s /\ have_read H s) (send_all d reqs uid call all)
    (fun r s => cinv T (c + Z.of_nat (length reqs) * (call + millisecond)) s /\ have_read H s
                /\ (r = true -> all = true /\ Forall (delivered (lg_trace s)) reqs)).
Proof.
  intros Hc. revert T c all. induction reqs as [|req reqs IH]; intros T c all Hg; cbn [send_all].
  { apply hoare_ret. intros s [Hs Hr]. split_and!; [eapply inv_later; [exact Hs|cbn; lia]|done|done]. }
  apply Forall_cons in Hg as [Hg Hgs].
  eapply hoare_bind; [apply hoare_and; [by apply h_password_tail|apply r_password_tail]|].
  intros out s [[Hs Hd] Hr]. assert (HpT : T `prefix_of` lg_trace s) by apply Hs. apply inv_now in Hs.
  assert (Hgs' : Forall (fun req => exists h, header_known (lg_trace s) h /\ rotation old new h req) reqs).
  { eapply Forall_impl; [exact Hgs|]. intros x (h & ? & ?). exists h. split; [by eapply header_known_later|done]. }
  pose proof (IH (lg_trace s) _ (match out with Sent => all | _ => false end) Hgs' s (conj Hs Hr)) as (H1 & H2 & H3).
  split_and!; [|exact H2|].
  - eapply inv_later; [by eapply inv_behind|]. cbn [length]. lia.
  - intros Hall. destruct (H3 Hall) as [Ho Hds]. destruct out; try done. split; [done|]. constructor; [|done].
    eapply delivered_later; [by apply Hd|]. apply H1.
Qed.

(** Everything read was rotated. *)
Definition rotated (T : list (Z * event)) : Prop :=
  Forall (fun h => exists req, rotation old new h req /\ delivered T req) (headers_of T).

Definition decided (out : ChauthtokOutcome) (s : login) : Prop :=
  (exists c, cinv [] c s /\ (privileges_to_drop m_euid uid = true -> c <= limit)) /\ (out = Sent -> rotated (lg_trace s)).

Lemma decided_early T out s : cinv T limit s -> out <> Sent -> decided out s.
Proof. intros Hs Ho. split; [|done]. exists limit. split; [|done]. eapply inv_behind; [exact Hs|apply prefix_nil]. Qed.

Lemma h_chauthtok_send d t reqs inc call T H : tg_uid t = uid -> 0 < call <= CALL_BUDGET ->
  Forall (fun req => exists h, header_known T h /\ rotation old new h req) reqs ->
  (inc = false -> Forall (fun h => exists req, req ∈ reqs /\ rotation old new h req) H) ->
  hoare (fun s => cinv T (deadline b - 1) s /\ have_read H s)
    (let+ report := run_socket_work_as_target (tg_uid t) b
       (let+ all_sent := send_all d reqs (tg_uid t) call true in
        lret (chauthtok_outcome_code (if all_sent && negb inc then Sent else SendFailed), 0)) in
     lret (chauthtok_outcome_from_report report)) decided.
Proof.
  intros -> Hcall Hg Hinc. set (c1 := deadline b - 1 + Z.of_nat (length reqs) * (call + millisecond)).
  eapply hoare_bind.
  { apply (h_run_as slow) with (c1 := c1) (R := fun T => headers_of T = H)
      (Q := fun r T => (fst r = CHAUTHTOK_SENT -> rotated T) /\ 0 <= fst r < 256 /\ 0 <= snd r < 256).
    - done.
    - intros T' x HT'. by rewrite headers_of_snoc, app_nil_r.
    - by intros r T' [_ ?].
    - intros T' Hp. eapply hoare_bind; [apply h_send_all; [lia|]|].
      { eapply Forall_impl; [exact Hg|]. intros x (h & ? & ?). exists h. split; [by eapply header_known_later|done]. }
      intros all. apply hoare_ret. intros s (Hs & Hr & Hd). split_and!; [done| |destruct (all && negb inc); cbn; done..].
      cbn. destruct all; [|done]. destruct inc; [done|]. intros _. destruct (Hd eq_refl) as [_ Hds].
      unfold rotated. rewrite Hr. eapply Forall_impl; [by apply Hinc|]. intros h (req & Hin & Hrot).
      exists req. split; [done|]. by apply (proj1 (Forall_forall _ _) Hds). }
  intros report. apply hoare_ret. intros s [Hs Hr]. split.
  - eexists. split; [eapply inv_behind; [exact Hs|apply prefix_nil]|]. by intros ->.
  - unfold chauthtok_outcome_from_report. destruct report as [[x y]|]; [|done].
    destruct (Z.eqb_spec x CHAUTHTOK_SENT) as [->|]; [|done]. intros _. by apply Hr.
Qed.

Lemma h_chauthtok_decision t args flags : tg_uid t = uid -> Z.land flags PAM_PRELIM_CHECK = 0 ->
  hoare (fun s => cinv [] limit s /\ have_read [] s) (chauthtok_decision flags (Some old) (Some new) args b (fun _ => lret (Some t))) decided.
Proof.
  intros Ht Hf. pose proof (overrun_pos slow) as (? & ? & ?). assert (Hms : 0 <= millisecond) by done.
  unfold chauthtok_decision. rewrite Hf. cbn [negb Z.eqb].
  eapply (hoare_bind _ (fun r s => (cinv [] limit s /\ have_read [] s) /\ r = Some t)); [h_done|].
  intros r. apply hoare_pure_r. intros ->. eapply hoare_bind; [apply hoare_and; [by apply h_dir_open|apply r_dir_open]|].
  intros [d|]; [|apply hoare_ret; intros s [[? _] _]; by eapply decided_early].
  eapply (hoare_bind _ (fun _ s => cinv [] limit s /\ have_read [] s)).
  { intros s [[Hs _] Hr]. split; [by apply h_vault_ids|]. exact Hr. }
  intros ids. h_step h_build. intros [[reqs any] inc] s (Hs & Hg & more & Hr & Hall). cbn [fst snd] in *. apply inv_now in Hs.
  rewrite app_nil_l in Hr. destruct reqs as [|q reqs']; [by apply (decided_early (lg_trace s)); [|destruct any]|].
  remember (q :: reqs') as reqs. set (T1 := lg_trace s) in *.
  refine (hoare_bind _ _ _ _ _ (hoare_and _ _ _ _ _ (h_left b cok T1 limit) (r_left b more)) _ s (conj Hs Hr)).
  intros [av|] s1 [Hs1 Hr1]; [|by eapply decided_early].
  refine (hoare_bind _ _ _ _ _ (hoare_and _ _ _ _ _ (h_capped b cok T1 _ CALL_BUDGET ltac:(done)) (r_capped b CALL_BUDGET more)) _ s1 (conj Hs1 Hr1)).
  intros [call|] s2 [Hs2 Hr2]; [|eapply decided_early; [eapply inv_later; [exact Hs2|lia]|done]].
  destruct Hs2 as [Hcall Hs2]. refine (h_chauthtok_send d t reqs inc call T1 more Ht Hcall Hg Hall s2 (conj _ _)).
  - eapply inv_later; [exact Hs2|lia].
  - exact Hr2.
Qed.
End chauthtok.
