(* ===== verification/PamHooks.v ===== *)
(** * What the PAM module does

    A login is held up by the budget and one derivation at most, nothing but
    keys for the user's own vaults reaches the socket, and a password change is
    reported as sent only if every vault read was rotated.  A machine to run
    the hooks on. *)
From S2P Require Import Prelude Text Env Crypto Codec Format Sanitize Names Protocol Pam PamProps.

Open Scope pam_scope.

Section hooks.
Context `{M : Machine} `{HC : VaultCodec} `{HP : Prims} (slow : Z) `{!MachineOk M slow}.

Lemma h_start_for user password uid b T :
  hoare (inv b (session_event user password uid (deadline b)) T (deadline b + overrun slow)) (start_for user b)
    (fun _ => inv b (session_event user password uid (deadline b)) T (deadline b + overrun slow)).
Proof.
  unfold start_for. destruct user as [u|]; [|h_done]. eapply hoare_bind; [by apply (h_start_daemon slow)|]. intros x. h_done.
Qed.

(** Who the target is: the user the passwd database names, or, where the
    socket may be overridden, whoever runs the hook. *)
Definition is_target (user : option str) (uid : Z) : Prop :=
  (exists u s n home, user = Some u /\ m_getpwnam s u n = PwEntry uid (Some home)) \/ (uid = m_euid /\ m_euid <> 0).

Lemma target_of_spec user o s r s' : target_of user o s = (r, s') ->
  lg_clock s' = lg_clock s /\ lg_trace s' = lg_trace s /\ forall t, r = Some t -> is_target user (tg_uid t).
Proof.
  unfold target_of. destruct user as [u|]; [|by intros [= <- <-]]. unfold target_for, lbind.
  destruct (user_info u s) as [info s1] eqn:E.
  assert (Hi : lg_clock s1 = lg_clock s /\ lg_trace s1 = lg_trace s
               /\ forall uid home, info = Some (uid, home) -> exists s n h, m_getpwnam s u n = PwEntry uid (Some h)).
  { revert E. unfold user_info. destruct (c_string u); [|by intros [= <- <-]]. unfold lbind, ask. cbn.
    destruct (m_getpwnam s u 16384) eqn:E1; intros [= <- <-]; split_and!; try done; intros uid' home' Ei; repeat case_match; simplify_eq; eauto. }
  destruct Hi as (Hc & Ht & Hi). intros [= <- <-]. split_and!; [done|done|].
  destruct info as [[uid home]|]; [|done]. destruct (Hi uid home eq_refl) as (s2 & n & h & Hpw).
  intros t Et. unfold is_target. destruct (o_socket o) as [sock|]; [|injection Et as <-; left; by exists u, s2, n, h].
  unfold socket_override_allowed in Et. destruct (Z.eqb_spec m_euid 0); cbn in Et; injection Et as <-; [left; by exists u, s2, n, h|by right].
Qed.

Lemma decision_resolves start password args b resolve s :
  open_session_decision start (Some password) args b resolve s =
  match resolve (parse_options args) s with
  | (Some t, s1) => open_session_decision start (Some password) args b (fun _ => lret (Some t)) s1
  | (None, s1) => (SNoTarget, s1)
  end.
Proof. unfold open_session_decision at 1. unfold lbind at 1. by destruct (resolve (parse_options args) s) as [[t|] s1]. Qed.


Lemma chauthtok_resolves flags old new args b resolve s : Z.land flags PAM_PRELIM_CHECK = 0 ->
  chauthtok_decision flags (Some old) (Some new) args b resolve s =
  match resolve (parse_options args) s with
  | (Some t, s1) => chauthtok_decision flags (Some old) (Some new) args b (fun _ => lret (Some t)) s1
  | (None, s1) => (CNoTarget, s1)
  end.
Proof.
  intros Hf. unfold chauthtok_decision at 1. rewrite Hf. cbn [negb Z.eqb]. unfold lbind at 1.
  destruct (resolve (parse_options args) s) as [[t|] s1]; [|done]. unfold chauthtok_decision. by rewrite Hf.
Qed.

End hooks.

(** ** The loops end *)

Section loops.
Context `{M : Machine} (slow : Z) `{!MachineOk M slow} (b : Budget).

(** What is left of the budget falls with every round that polls. *)
Definition time_left (s : login) : Z := Z.max 0 (deadline b - lg_clock s).

Lemma poll_spends s : bg_start b <= lg_clock s ->
  match poll_round b s with
  | inl s' => lg_clock s < lg_clock s' /\ lg_clock s < deadline b
  | inr (Ok _, s') => lg_clock s < lg_clock s' /\ lg_clock s < deadline b
  | inr (Err _, s') => lg_clock s <= lg_clock s'
  end.
Proof.
  intros Hs. unfold poll_round, budget_remaining, checked_sub, deadline.
  destruct (Z.ltb_spec (bg_total b) (lg_clock s - bg_start b)); [cbn; lia|].
  destruct (bg_total b - (lg_clock s - bg_start b)) as [|p|p] eqn:E; [cbn; lia| |cbn; lia].
  cbn. set (ms := Z.max 1 _). pose proof (m_poll_time s ms ltac:(lia)).
  repeat case_match; simplify_eq; cbn; lia.
Qed.

Lemma poll_goes_on s : bg_start b <= lg_clock s -> 
  match poll_readable b s with
  | (Ok _, s') => lg_clock s < lg_clock s' /\ lg_clock s < deadline b
  | (Err _, s') => lg_clock s <= lg_clock s'
  end.
Proof.
  intros Hs. unfold poll_readable.
  pose proof (iter_until_inv (poll_round b) (fun x => lg_clock s <= lg_clock x /\ (lg_clock s < lg_clock x -> lg_clock s < deadline b))
    (fun r => match r with
              | (Ok _, s') => lg_clock s < lg_clock s' /\ lg_clock s < deadline b
              | (Err _, s') => lg_clock s <= lg_clock s'
              end) (rounds b) s) as Hi.
  destruct (iter_until (rounds b) (poll_round b) s) as [s'|r]; [apply Hi|apply Hi]; try lia.
  all: intros a [Ha Hlt]; pose proof (poll_spends a ltac:(lia)) as Hp; destruct (poll_round b a) as [a'|[[x|e] a']]; lia.
Qed.
End loops.

Lemma naps_end {B} (round : Z -> login -> login + (B * login)) timeout s : 0 <= timeout ->
  (forall start s s', round start s = inl s' -> lg_clock s - start < timeout /\ lg_clock s' = lg_clock s + POLL_INTERVAL) ->
  exists r, iter_until (naps timeout) (round (lg_clock s)) s = inr r.
Proof.
  intros Ht Hr. set (st := lg_clock s). assert (HP : 0 < POLL_INTERVAL) by done.
  apply (iter_until_ends (round st) (fun _ => True) (fun x => Z.max 0 ((timeout - (lg_clock x - st)) / POLL_INTERVAL + 1))).
  - intros a a' _ E. apply Hr in E as [Hlt Hc]. split; [done|]. rewrite Hc.
    replace (timeout - (lg_clock a + POLL_INTERVAL - st)) with (timeout - (lg_clock a - st) + (-1) * POLL_INTERVAL) by lia.
    rewrite Z.div_add by lia. pose proof (Z.div_pos (timeout - (lg_clock a - st)) POLL_INTERVAL). lia.
  - intros a _. lia.
  - done.
  - unfold naps, st. rewrite Z.sub_diag, Z.sub_0_r. pose proof (Z.div_pos timeout POLL_INTERVAL Ht HP). rewrite Z2Pos.id by lia. lia.
Qed.

(** C32. No loop of the module runs forever or is cut short by the rounds the
    model gives it: polling and reading end because every round takes time and
    the budget is bounded, and waiting for a process, a child or the socket
    ends one nap after its timeout. *)
Theorem login_loops_end `{M : Machine} slow `{!MachineOk M slow} {B} (b : Budget) (read : login -> nat -> result bytes io_error)
    len (check : login -> option B) expired path timeout s :
  bg_start b <= lg_clock s -> 0 <= bg_total b -> 0 <= timeout ->
  (exists r, iter_until (rounds b) (poll_round b) s = inr r)
  /\ (exists r, iter_until (rounds b) (read_round read len b) ([], s) = inr r)
  /\ (exists r, iter_until (naps timeout) (tick_round check expired (lg_clock s) timeout) s = inr r)
  /\ (exists r, iter_until (naps timeout) (wait_round path (lg_clock s) timeout) s = inr r).
Proof.
  intros Hs Hb Ht.
  assert (Hfuel : time_left b s < Zpos (rounds b)) by (unfold time_left, rounds, deadline; rewrite Z2Pos.id by lia; lia).
  split_and!.
  - apply (iter_until_ends (poll_round b) (fun x => bg_start b <= lg_clock x) (time_left b)); [|unfold time_left; lia|done|done].
    intros a a' Ha E. pose proof (poll_spends slow b a Ha) as Hp. rewrite E in Hp. unfold time_left. lia.
  - apply (iter_until_ends (read_round read len b) (fun x => bg_start b <= lg_clock (snd x)) (fun x => time_left b (snd x)));
      [|unfold time_left; lia|done|done].
    intros [buf a] [buf' a'] Ha E. unfold read_round in E. destruct (len <=? length buf)%nat; [done|].
    pose proof (poll_goes_on slow b a Ha) as Hp. destruct (poll_readable b a) as [[x|e] s1]; [|done]. cbn in *.
    assert (lg_clock a' = lg_clock s1) by (repeat case_match; simplify_eq; done). unfold time_left. lia.
  - apply (naps_end (fun start => tick_round check expired start timeout)); [done|].
    intros start a a' E. unfold tick_round in E. cbn in E. destruct (check a); [done|].
    destruct (Z.leb_spec timeout (lg_clock a - start)); [done|]. injection E as <-. cbn. by rewrite (sleep_takes slow).
  - apply (naps_end (fun start => wait_round path start timeout)); [done|].
    intros start a a' E. unfold wait_round in E. destruct (Z.leb_spec timeout (lg_clock a - start)); [done|]. cbn in E.
    destruct (m_is_socket a path); [done|]. injection E as <-. cbn. by rewrite (sleep_takes slow).
Qed.

(** ** A machine *)

(** User 1000, whose vault directory holds [names], the vault [bad] unreadable;
    a socket whose daemon, unless [up], is gone until one is started; deriving
    takes [took], and a call all the time it was given when the daemon is
    [hung], none otherwise. *)
Definition sample_vault_file : bytes := match @header_bytes (@vc_header sample_codec) sample_header with Ok f => f | Err _ => [] end.

Definition sample_started (s : login) : bool := existsb (fun x => match snd x with ESpawn _ => true | _ => false end) (lg_trace s).

Definition sample_machine (euid took : Z) (names : list str) (bad : str) (up hung : bool) : Machine := {|
  m_euid := euid;
  m_getpwnam _ _ _ := PwEntry 1000 (Some (lit "/home/u"));
  m_open_dir _ _ := Ok 7;
  m_fstat _ _ := Ok {| fm_is_dir := true; fm_is_file := false; fm_uid := 1000; fm_mode := 448 |};
  m_fstatat _ _ _ := Ok 49600;
  m_unlinkat _ _ _ := None;
  m_open_vault _ p := if bool_decide (p = lit "/home/u/.local/share/secret-manager/" ++ bad ++ lit ".vault")
                      then Some (IoError OtherKind None) else None;
  m_stat_vault _ := Ok {| fm_is_dir := false; fm_is_file := true; fm_uid := 1000; fm_mode := 384 |};
  m_read _ n := Ok (if (n =? PREFIX_LEN)%nat then take n sample_vault_file else take n (drop PREFIX_LEN sample_vault_file));
  m_read_dir _ _ := Ok (map (fun n => Ok {| de_is_file := Some true; de_name := Some (n ++ lit ".vault") |}) names);
  m_is_socket s _ := sample_started s;
  m_random _ := Some (repeat x07 16);
  m_spawn _ := None;
  m_try_wait _ := Ok (Some true);
  m_pipe _ := None;
  m_fork _ := None;
  m_setuid _ := None;
  m_waitpid _ := true;
  m_pipe_read _ n := Ok (Nat.min 1 n);
  m_cut _ := 0%nat;
  m_poll _ _ := PollReady;
  m_poll_took _ _ := 1;
  m_sleep_took _ d := d;
  m_derive_took _ _ := took;
  m_call s _ _ _ _ :=
    if hung then Err (Io (IoError TimedOut None))
    else if up || sample_started s then Ok POk else Err (Connect (IoError ConnectionRefused None));
  m_call_took _ _ _ _ t := if hung then t else 0
|}.

Lemma take_le_length {A} n (l : list A) : (length (take n l) <= n)%nat.
Proof. rewrite length_take. lia. Qed.

Lemma sample_machine_ok euid took names bad up hung : 0 <= took -> MachineOk (sample_machine euid took names bad up hung) took.
Proof.
  intros Htook. split; cbn; unfold second, millisecond; intros; try lia.
  - destruct hung; lia.
  - match goal with H : Ok _ = Ok _ |- _ => injection H as <- end. destruct (_ =? _)%nat; apply take_le_length.
  - match goal with H : Ok _ = Ok _ |- _ => injection H as <- end. destruct n; cbn; lia.
Qed.

Definition sample_login : login := Login 5 0 [].
Definition sample_names : list str := [lit "work"; lit "default"].


(** A first login: the daemon is started, then both vaults are unlocked. *)
Notation sample_session :=
  (@open_session_hook (sample_machine 0 second sample_names [] false false) sample_codec sample_prims
    (Some (lit "pw")) (Some (lit "u")) [] sample_login).
Notation sample_change M :=
  (@chauthtok_hook M sample_codec sample_prims 0 (Some (lit "pw")) (Some (lit "new")) (Some (lit "u")) [] sample_login).

Definition event_count (f : event -> bool) (s : login) : nat := length (List.filter (fun x => f (snd x)) (lg_trace s)).
Definition is_call (e : event) : bool := match e with ECall _ _ _ ok => ok | _ => false end.
Definition is_derive (e : event) : bool := match e with EDerive _ _ _ => true | _ => false end.

Lemma sample_session_runs : exists s', sample_session = (Started Retried, Some [], s')
  /\ event_count is_derive s' = 3%nat /\ event_count is_call s' = 2%nat.
Proof. exists (snd sample_session). vm_compute. auto. Qed.


Lemma sample_change_runs : exists s', sample_change (sample_machine 0 second sample_names [] true false) = (Sent, Some [], s')
  /\ event_count is_call s' = 2%nat.
Proof. exists (snd (sample_change (sample_machine 0 second sample_names [] true false))). vm_compute. auto. Qed.


Lemma login_loops_end_witness :
  exists r, iter_until (naps second) (@wait_round (sample_machine 0 second [] [] true false) (lit "/s") 5 second) sample_login = inr r.
Proof.
  apply (@login_loops_end (sample_machine 0 second [] [] true false) second (sample_machine_ok 0 second [] [] true false ltac:(done)) bool
    {| bg_start := 5; bg_total := HOOK_BUDGET |} (fun _ _ => Ok []) 2 (fun _ => None) true (lit "/s") second sample_login); vm_compute; congruence.
Defined.

(** ** What does not hold *)

(** [chauthtok] takes its call timeout from the budget once, before the
    first of several sends: with eight vaults and a daemon that accepts and
    never answers it is still sending sixteen seconds after the deadline that
    is to cover everything it does, when it runs without a child, as it does
    for root's own password. *)
Theorem password_change_overruns_budget :
  let M := sample_machine 1000 millisecond (map (fun n => [n]) [97; 98; 99; 100; 101; 102; 103; 104]) (lit "default") true true in
  MachineOk M millisecond
  /\ lg_clock sample_login + HOOK_BUDGET + 16 * second <= lg_clock (snd (sample_change M))
  /\ overrun millisecond < 5 * second.
Proof. split; [by apply sample_machine_ok|]. vm_compute. split; congruence. Qed.

(** A vault the hook cannot open is passed over without a word in the
    outcome: [Sent] is reported, which is to mean that no rotation was skipped,
    while the vault [work] stays under the old password. *)
Theorem skipped_vault_reported_sent :
  let M := sample_machine 0 second sample_names (lit "work") true false in
  fst (fst (sample_change M)) = Sent
  /\ lit "work" ∈ fst (@all_vault_ids M (lit "/home/u/.local/share/secret-manager") (lit "default") sample_login)
  /\ Forall (fun x => match snd x with ECall _ (RChangeKey id _ _ _ _) _ _ => id <> lit "work" | _ => True end)
            (lg_trace (snd (sample_change M))).
Proof.
  split; [vm_compute; reflexivity|]. split; [apply (bool_decide_unpack _); vm_compute; exact I|].
  vm_compute. repeat constructor; congruence.
Qed.

(** A cleared stash is not an empty one: [clear_stashed_password] leaves
    the empty string in the PAM data, and [open_session] takes it for a
    password.  When a password change comes before the session, as it does when
    the password had expired, the session hook derives a key from the empty
    string for every vault and sends it to the daemon, instead of reporting
    that it has no password. *)
Theorem cleared_stash_taken_for_password :
  let M := sample_machine 0 second sample_names [] true false in
  let stash := snd (fst (sample_change M)) in
  let r := @open_session_hook M sample_codec sample_prims stash (Some (lit "u")) [] sample_login in
  stash = Some [] /\ fst (fst r) = Attempted
  /\ event_count (fun e => match e with EDerive [] _ _ => true | _ => false end) (snd r) = 2%nat
  /\ event_count is_call (snd r) = 2%nat.
Proof. vm_compute. auto. Qed.
