(* ===== verification/Pinentry.v ===== *)
(** * The pinentry dialog ([src/prompt/pinentry.rs])

    An Assuan client: text escaped onto lines, replies parsed, and one dialog
    from the greeting to [BYE] under its time limit.

    The program at the other end answers through the class [Peer], each answer
    as any function of the whole conversation before it.  [asn] is the clock
    with the conversation, oldest line first.  Wiping of buffers and the
    argument of [spawn] are left out. *)
From S2P Require Import Prelude Text Env KWallet Gnome.

(** ** Escaping *)

Definition hex_upper (z : Z) : char := if z <? 10 then 48 + z else 55 + z.

Definition escape_char (c : char) : str :=
  if c =? 37 then lit "%25"
  else if (c <? 32) || (c =? 127) then [37; hex_upper (c / 16); hex_upper (c mod 16)]
  else [c].

Definition escape (s : str) : str := flat_map escape_char s.

Inductive PinentryError : Type :=
| PSpawn (e : io_error)
| PIo (e : io_error)
| PProtocol (message : str)
| PAssuan (code : Z) (message : str)
| PBusy.

(** [u8::from_str_radix(_, 16)] on a string of two bytes: a plus sign counts
    as a sign. *)
Definition hex_value (c : char) : option Z :=
  if in_range 48 57 c then Some (c - 48)
  else if in_range 97 102 c then Some (c - 87)
  else if in_range 65 70 c then Some (c - 55)
  else None.

Definition from_str_radix16 (s : str) : option Z :=
  match s with
  | [43; d] => hex_value d
  | [a; d] => let! a := hex_value a in let! d := hex_value d in Some (16 * a + d)
  | _ => None
  end.

Definition unescape_hex (hex : bytes) : result byte PinentryError :=
  match from_utf8 hex with
  | None => Err (PProtocol (lit "bad escape"))
  | Some hex =>
    match from_str_radix16 hex with
    | Some v => Ok (z2b v)
    | None => Err (PProtocol (lit "bad escape %" ++ hex))
    end
  end.

Fixpoint unescape_bytes (bs : bytes) : result bytes PinentryError :=
  match bs with
  | [] => Ok []
  | x25 :: a :: d :: rest =>
    let? v := unescape_hex [a; d] in
    let? out := unescape_bytes rest in
    Ok (v :: out)
  | x25 :: _ => Err (PProtocol (lit "truncated escape"))
  | x :: rest => let? out := unescape_bytes rest in Ok (x :: out)
  end.

Definition unescape (s : str) : result str PinentryError :=
  let? out := unescape_bytes (utf8 s) in
  match from_utf8 out with
  | Some s => Ok s
  | None => Err (PProtocol (lit "pin is not utf-8"))
  end.

(** ** Requests and replies *)

Record PinRequest : Type := { pr_title : str; pr_description : str; pr_prompt : str; pr_error : option str; pr_repeat : bool }.

Inductive PinOutcome : Type := Pin (pin : str) | Cancelled.

Definition is_cancel (code : Z) : bool := Z.land code 65535 =? 99.

Inductive Reply : Type := ROk | RData (d : str) | RErr (code : Z) (message : str).

Definition trim_line (s : str) : str := rev (drop_while (fun c => (c =? 10) || (c =? 13)) (rev s)).

(** What one line is; [None] for status lines and comments. *)
Definition read_line_as (line : str) : option (result Reply PinentryError) :=
  if str_eqb line (lit "OK") || (if strip_prefix (lit "OK ") line then true else false) then Some (Ok ROk)
  else
    match strip_prefix (lit "D ") line with
    | Some rest => Some (Ok (RData rest))
    | None =>
      match strip_prefix (lit "ERR ") line with
      | Some rest =>
        let '(code, message) := default (rest, []) (split_once 32 rest) in
        match parse_u32 code with
        | Some code => Some (Ok (RErr code message))
        | None => Some (Err (PProtocol (lit "bad error line: " ++ line)))
        end
      | None => None
      end
    end.

(** ** The environment's options *)

Definition usable (v : str) : bool := negb (bool_decide (v = [])) && negb (existsb is_control v).

Definition usable_var (var : str -> option str) (name : str) : option str :=
  match var name with Some v => if usable v then Some v else None | None => None end.

Definition option_line (name : str) (v : option str) : list str :=
  match v with Some v => [lit "OPTION " ++ name ++ [61] ++ escape v] | None => [] end.

Definition tty_options_from (var : str -> option str) : list str :=
  option_line (lit "ttyname") (usable_var var (lit "GPG_TTY"))
  ++ option_line (lit "ttytype") (usable_var var (lit "TERM"))
  ++ option_line (lit "lc-ctype") (find_map (usable_var var) [lit "LC_ALL"; lit "LC_CTYPE"; lit "LANG"]).

(** ** The conversation *)

Inductive talk : Type := Said (line : str) | Heard (line : str).

Record asn : Type := Asn { as_clock : Z; as_talk : list talk }.

Class Peer : Type := {
  pe_spawn : asn -> option io_error;
  pe_write : asn -> str -> option io_error;
  pe_read : asn -> result bytes io_error;      (** up to a newline, or what is left *)
  pe_write_took : asn -> str -> Z;
  pe_read_took : asn -> Z;
  pe_var : str -> option str
}.

(** Reading a line takes a moment. *)
Class PeerOk (P : Peer) : Prop := {
  pe_write_time s l : 0 <= pe_write_took s l;
  pe_read_time s : 1 <= pe_read_took s
}.

Section peer.
Context `{P : Peer} (dl : Z).

(** [None]: the time limit cut it off. *)
Definition am (A : Type) : Type := asn -> option (result A PinentryError) * asn.

Definition aret {A} (a : A) : am A := fun s => (Some (Ok a), s).
Definition aerr {A} (e : PinentryError) : am A := fun s => (Some (Err e), s).
Definition abind {A B} (m : am A) (k : A -> am B) : am B :=
  fun s => match m s with
           | (Some (Ok a), s) => k a s
           | (Some (Err e), s) => (Some (Err e), s)
           | (None, s) => (None, s)
           end.

(** Waiting, up to the limit. *)
Definition await (took : asn -> Z) : am unit :=
  fun s => if as_clock s + took s <=? dl then (Some (Ok tt), Asn (as_clock s + took s) (as_talk s))
           else (None, Asn dl (as_talk s)).

Definition say (t : talk) : am unit := fun s => (Some (Ok tt), Asn (as_clock s) (as_talk s ++ [t])).

(** [Assuan::send]. *)
Definition send (line : str) : am unit :=
  fun s =>
    let fault := pe_write s line in
    abind (say (Said line)) (fun _ =>
    abind (await (fun s => pe_write_took s line)) (fun _ =>
    match fault with Some e => aerr (PIo e) | None => aret tt end)) s.

(** One line, without its end. *)
Definition next_line : am str :=
  fun s =>
    let r := pe_read s in
    abind (await pe_read_took) (fun _ =>
    match r with
    | Err e => aerr (PIo e)
    | Ok [] => aerr (PProtocol (lit "pinentry closed the connection"))
    | Ok bs =>
      match from_utf8 bs with
      | None => aerr (PIo (IoError InvalidData None))
      | Some line => abind (say (Heard (trim_line line))) (fun _ => aret (trim_line line))
      end
    end) s.

Definition reply_round (s : asn) : asn + (option (result Reply PinentryError) * asn) :=
  match next_line s with
  | (Some (Ok line), s) =>
    match read_line_as line with
    | Some r => inr (Some r, s)
    | None => inl s
    end
  | (Some (Err e), s) => inr (Some (Err e), s)
  | (None, s) => inr (None, s)
  end.

(** Lines enough for any conversation the limit allows. *)
Definition lines_left (s : asn) : positive := Z.to_pos (dl - as_clock s + 2).

Definition read_reply : am Reply :=
  fun s => match iter_until (lines_left s) reply_round s with inr r => r | inl s => (None, s) end.

Definition expect_ok : am unit :=
  abind read_reply (fun r => match r with
                             | ROk => aret tt
                             | RErr code message => aerr (PAssuan code message)
                             | RData _ => aerr (PProtocol (lit "unexpected data line"))
                             end).

Definition command (line : str) : am unit := abind (send line) (fun _ => expect_ok).

Definition command_lenient (line : str) : am unit :=
  fun s => match command line s with
           | (Some (Err (PAssuan _ _)), s) => (Some (Ok tt), s)
           | r => r
           end.

Fixpoint each {A} (f : A -> am unit) (l : list A) : am unit :=
  match l with [] => aret tt | a :: l => abind (f a) (fun _ => each f l) end.

Definition setup (req : PinRequest) : am unit :=
  abind (if bool_decide (pr_title req = []) then aret tt else command_lenient (lit "SETTITLE " ++ escape (pr_title req))) (fun _ =>
  abind (command (lit "SETDESC " ++ escape (pr_description req))) (fun _ =>
  abind (command (lit "SETPROMPT " ++ escape (pr_prompt req))) (fun _ =>
  match pr_error req with
  | Some e => command_lenient (lit "SETERROR " ++ escape e)
  | None => aret tt
  end))).

Definition pin_round (st : str * asn) : (str * asn) + (option (result str PinentryError) * asn) :=
  match read_reply (snd st) with
  | (Some (Ok (RData d)), s) =>
    match unescape d with
    | Ok p => inl (fst st ++ p, s)
    | Err e => inr (Some (Err e), s)
    end
  | (Some (Ok ROk), s) => inr (Some (Ok (fst st)), s)
  | (Some (Ok (RErr code message)), s) => inr (Some (Err (PAssuan code message)), s)
  | (Some (Err e), s) => inr (Some (Err e), s)
  | (None, s) => inr (None, s)
  end.

Definition getpin : am str :=
  abind (send (lit "GETPIN")) (fun _ s =>
    match iter_until (lines_left s) pin_round ([], s) with inr r => r | inl (_, s) => (None, s) end).

(** [bye]: whatever happens to it. *)
Definition bye : am unit :=
  fun s => match send (lit "BYE") s with
           | (None, s) => (None, s)
           | (Some _, s) => match read_reply s with
                            | (None, s) => (None, s)
                            | (Some _, s) => (Some (Ok tt), s)
                            end
           end.

Definition connect : am unit :=
  fun s => match pe_spawn s with
           | Some e => (Some (Err (PSpawn e)), s)
           | None => abind expect_ok (fun _ => each command_lenient (tty_options_from pe_var)) s
           end.

(** The dialog of [ask_held]. *)
Definition ask_work (req : PinRequest) : am PinOutcome :=
  abind connect (fun _ =>
  abind (setup req) (fun _ =>
  abind (if pr_repeat req then command_lenient (lit "SETREPEAT Repeat:") else aret tt) (fun _ s =>
  match getpin s with
  | (Some (Ok pin), s) => abind bye (fun _ => aret (Pin pin)) s
  | (Some (Err (PAssuan code message)), s) =>
    if is_cancel code then abind bye (fun _ => aret Cancelled) s else (Some (Err (PAssuan code message)), s)
  | (Some (Err e), s) => (Some (Err e), s)
  | (None, s) => (None, s)
  end))).

(** The dialog of [confirm_held]. *)
Definition confirm_work (req : PinRequest) : am bool :=
  abind connect (fun _ =>
  abind (setup req) (fun _ s =>
  match command (lit "CONFIRM") s with
  | (Some (Ok _), s) => abind bye (fun _ => aret true) s
  | (Some (Err (PAssuan _ _)), s) => abind bye (fun _ => aret false) s
  | (Some (Err e), s) => (Some (Err e), s)
  | (None, s) => (None, s)
  end)).
End peer.

(** ** The handle *)

Definition DEFAULT_TIMEOUT : Z := 120 * 1000000000.
Definition QUEUE_TIMEOUT_FACTOR : Z := 5.
Definition DEFAULT_QUEUE_TIMEOUT : Z := DEFAULT_TIMEOUT * QUEUE_TIMEOUT_FACTOR.

(** The longest [Duration], in nanoseconds. *)
Definition duration_max : Z := u64_max * 1000000000 + 999999999.

Record Pinentry : Type := { pt_timeout : Z; pt_queue_timeout : Z }.

Definition pinentry_new : Pinentry := {| pt_timeout := DEFAULT_TIMEOUT; pt_queue_timeout := DEFAULT_QUEUE_TIMEOUT |}.
Definition with_timeout (p : Pinentry) (timeout : Z) : Pinentry :=
  {| pt_timeout := timeout; pt_queue_timeout := Z.min (timeout * QUEUE_TIMEOUT_FACTOR) duration_max |}.
Definition with_queue_timeout (p : Pinentry) (queue_timeout : Z) : Pinentry :=
  {| pt_timeout := pt_timeout p; pt_queue_timeout := queue_timeout |}.

Section handle.
Context `{P : Peer}.

Definition ask_held (p : Pinentry) (req : PinRequest) (s : asn) : result PinOutcome PinentryError * asn :=
  match ask_work (as_clock s + pt_timeout p) req s with
  | (Some r, s) => (r, s)
  | (None, s) => (Ok Cancelled, s)
  end.

Definition confirm_held (p : Pinentry) (req : PinRequest) (s : asn) : result bool PinentryError * asn :=
  match confirm_work (as_clock s + pt_timeout p) req s with
  | (Some r, s) => (r, s)
  | (None, s) => (Ok false, s)
  end.

(** [acquire]: the slot comes free after [wait], if ever. *)
Definition acquire (p : Pinentry) (wait : option Z) (s : asn) : result unit PinentryError * asn :=
  match wait with
  | Some n => if n <=? pt_queue_timeout p then (Ok tt, Asn (as_clock s + n) (as_talk s))
              else (Err PBusy, Asn (as_clock s + pt_queue_timeout p) (as_talk s))
  | None => (Err PBusy, Asn (as_clock s + pt_queue_timeout p) (as_talk s))
  end.

Definition ask (p : Pinentry) (wait : option Z) (req : PinRequest) (s : asn) : result PinOutcome PinentryError * asn :=
  match acquire p wait s with
  | (Ok _, s) => ask_held p req s
  | (Err e, s) => (Err e, s)
  end.

Definition confirm (p : Pinentry) (wait : option Z) (req : PinRequest) (s : asn) : result bool PinentryError * asn :=
  match acquire p wait s with
  | (Ok _, s) => confirm_held p req s
  | (Err e, s) => (Err e, s)
  end.
End handle.
