(* ===== verification/PinentryProps.v ===== *)
(** * What the pinentry dialog shows and returns

    Escaping is undone by unescaping and keeps every field on its line; the
    conversation follows one script and stops with its limit; a password comes
    back only as the program sent it. *)
From S2P Require Import Prelude Text Env KWallet Gnome Pinentry.

(** ** Escaping *)

Lemma unescape_plain l rest : Forall (fun b => b <> x25) l ->
  unescape_bytes (l ++ rest) = (let? out := unescape_bytes rest in Ok (l ++ out)).
Proof.
  induction 1 as [|x l Hx _ IH]; cbn [app].
  - by destruct (unescape_bytes rest).
  - destruct x; try done; cbn [unescape_bytes]; rewrite IH; by destruct (unescape_bytes rest).
Qed.

(** Every character under its escape, on one line. *)
Definition printable (c : char) : Prop := 32 <= c /\ c <> 127.

Definition low_chars : list Z := map Z.of_nat (seq 0 128).

Lemma escape_low :
  forallb (fun c => match unescape_bytes (utf8 (escape_char c)) with Ok b => bool_decide (b = encode_utf8 c) | Err _ => false end
                    && forallb (fun d => (32 <=? d) && negb (d =? 127) && (d <? 128)) (escape_char c)) low_chars = true.
Proof. vm_compute. reflexivity. Qed.

Lemma escape_low_char c : 0 <= c < 128 ->
  unescape_bytes (utf8 (escape_char c)) = Ok (encode_utf8 c) /\ Forall (fun d => printable d /\ d < 128) (escape_char c).
Proof.
  intros Hc. assert (Hin : c ∈ low_chars).
  { apply list_elem_of_fmap. exists (Z.to_nat c). split; [lia|]. apply elem_of_seq. lia. }
  pose proof (proj1 (forallb_forall _ _) escape_low c (proj1 (list_elem_of_In _ _) Hin)) as H.
  apply andb_true_iff in H as [H1 H2]. split.
  { destruct (unescape_bytes _) as [b|e]; [|done]. by apply bool_decide_eq_true in H1 as ->. }
  apply Forall_forall. intros d Hd. pose proof (proj1 (forallb_forall _ _) H2 d (proj1 (list_elem_of_In _ _) Hd)) as Hp. cbn in Hp.
  unfold printable. lia.
Qed.

Lemma escape_high c : 128 <= c -> escape_char c = [c].
Proof. intros Hc. unfold escape_char. destruct (Z.eqb_spec c 37); [lia|]. destruct (Z.ltb_spec c 32); [lia|]. destruct (Z.eqb_spec c 127); [lia|]. done. Qed.

Lemma encode_no_percent c : is_char c -> 128 <= c -> Forall (fun b => b <> x25) (encode_utf8 c).
Proof.
  intros Hc Hh. unfold encode_utf8.
  assert (Hb : forall z, 128 <= z < 256 -> z2b z <> x25).
  { intros z Hz E. apply (f_equal b2z) in E. rewrite b2z_z2b, Z.mod_small in E by lia. vm_compute in E. lia. }
  unfold is_char in Hc.
  destruct (Z.ltb_spec c 128); [lia|]. destruct (Z.ltb_spec c 2048); [|destruct (Z.ltb_spec c 65536)]; repeat constructor; apply Hb; Z.div_mod_to_equations; lia.
Qed.

Lemma unescape_bytes_app l rest out : unescape_bytes l = Ok out ->
  unescape_bytes (l ++ rest) = (let? r := unescape_bytes rest in Ok (out ++ r)).
Proof.
  revert out. induction l as [l IH] using (induction_ltof1 _ (@length byte)); unfold ltof in IH. intros out.
  destruct l as [|x l]; [intros [= <-]; cbn; by destruct (unescape_bytes rest)|].
  destruct (decide (x = x25)) as [->|Hx].
  - destruct l as [|a [|d l]]; [done|done|]. cbn [app unescape_bytes]. destruct (unescape_hex [a; d]) as [v|e]; [|done]. cbn.
    destruct (unescape_bytes l) as [o|e] eqn:E; [|done]. intros [= <-]. rewrite (IH l) with (out := o); [|cbn; lia|done].
    by destruct (unescape_bytes rest).
  - rewrite <- app_comm_cons. change (x :: l) with ([x] ++ l). change (x :: l ++ rest) with ([x] ++ (l ++ rest)).
    rewrite !unescape_plain by (by constructor). destruct (unescape_bytes l) as [o|e] eqn:E; [|done]. cbn. intros [= <-].
    rewrite (IH l) with (out := o); [|cbn; lia|done]. by destruct (unescape_bytes rest).
Qed.

Lemma escape_printable s : str_wf s -> Forall printable (escape s).
Proof.
  induction 1 as [|c s Hc _ IH]; [constructor|]. cbn. apply Forall_app. split; [|done].
  destruct (decide (c < 128)) as [Hlt|Hge].
  - eapply Forall_impl; [apply escape_low_char; unfold is_char in Hc; lia|]. by intros d [? _].
  - rewrite escape_high by lia. constructor; [|done]. unfold printable. lia.
Qed.

Lemma unescape_escape s : str_wf s -> unescape (escape s) = Ok s.
Proof.
  intros Hs. unfold unescape. assert (E : unescape_bytes (utf8 (escape s)) = Ok (utf8 s)).
  { induction Hs as [|c s Hc _ IH]; [done|]. change (escape (c :: s)) with (escape_char c ++ escape s). rewrite utf8_app.
    assert (Ec : unescape_bytes (utf8 (escape_char c)) = Ok (encode_utf8 c)).
    { destruct (decide (c < 128)) as [Hlt|Hge]; [apply escape_low_char; unfold is_char in Hc; lia|].
      rewrite escape_high by lia. cbn. rewrite unescape_plain by (apply encode_no_percent; [done|lia]). cbn. by rewrite app_nil_r. }
    rewrite (unescape_bytes_app _ _ _ Ec), IH. done. }
  rewrite E. cbn. by rewrite from_utf8_utf8.
Qed.

(** ** The conversation *)

Definition said (T : list talk) : list str := omap (fun t => match t with Said l => Some l | Heard _ => None end) T.
Definition heard (T : list talk) : list str := omap (fun t => match t with Heard l => Some l | Said _ => None end) T.

Lemma said_app T U : said (T ++ U) = said T ++ said U.
Proof. apply omap_app. Qed.
Lemma heard_app T U : heard (T ++ U) = heard T ++ heard U.
Proof. apply omap_app. Qed.

(** Answered, with an acceptance or with an Assuan error. *)
Definition accepted {A} (r : option (result A PinentryError)) : Prop := exists a, r = Some (Ok a).
Definition answered {A} (r : option (result A PinentryError)) : Prop :=
  accepted r \/ exists code message, r = Some (Err (PAssuan code message)).

Lemma unescape_no_assuan bs e c x : unescape_bytes bs = Err e -> e <> PAssuan c x.
Proof.
  revert e. induction bs as [bs IH] using (induction_ltof1 _ (@length byte)); unfold ltof in IH. intros e.
  destruct bs as [|y bs]; [done|]. destruct (decide (y = x25)) as [->|Hy].
  - destruct bs as [|a [|d l]]; [by intros [= <-]|by intros [= <-]|]. cbn [unescape_bytes]. unfold unescape_hex.
    destruct (from_utf8 [a; d]) as [h|]; [|by intros [= <-]]. destruct (from_str_radix16 h); [|by intros [= <-]]. cbn.
    destruct (unescape_bytes l) as [o|e'] eqn:E; [done|]. cbn. intros [= <-]. apply (IH l); [cbn; lia|done].
  - change (y :: bs) with ([y] ++ bs). rewrite unescape_plain by (by constructor). destruct (unescape_bytes bs) as [o|e'] eqn:E; [done|].
    cbn. intros [= <-]. apply (IH bs); [cbn; lia|done].
Qed.

(** What the lines after [GETPIN] amount to. *)
Fixpoint pin_of (lines : list str) (acc : str) : option (result str PinentryError) :=
  match lines with
  | [] => None
  | l :: ls =>
    match read_line_as l with
    | None => pin_of ls acc
    | Some (Ok (RData d)) => match unescape d with Ok p => pin_of ls (acc ++ p) | Err e => Some (Err e) end
    | Some (Ok ROk) => Some (Ok acc)
    | Some (Ok (RErr code message)) => Some (Err (PAssuan code message))
    | Some (Err e) => Some (Err e)
    end
  end.

Lemma pin_of_skip skipped lines acc : Forall (fun l => read_line_as l = None) skipped -> pin_of (skipped ++ lines) acc = pin_of lines acc.
Proof. induction 1 as [|l ls Hl _ IH]; [done|]. cbn. by rewrite Hl. Qed.

Section conversation.
Context `{P : Peer} `{!PeerOk P} (dl : Z).

(** What [m] does from [s]: the clock moves on to the limit at most and is
    there when [m] is cut off; the lines said are the first of [L], all of them
    when [D] holds of the result. *)
Definition went {A} (D : option (result A PinentryError) -> Prop) (L : list str) (s : asn)
    (r : option (result A PinentryError)) (s' : asn) : Prop :=
  as_clock s <= as_clock s' <= dl /\ (r = None -> as_clock s' = dl)
  /\ exists T, as_talk s' = as_talk s ++ T /\ said T `prefix_of` L /\ (D r -> said T = L).

Definition runs {A} (D : option (result A PinentryError) -> Prop) (m : am A) (L : list str) : Prop :=
  forall s, as_clock s <= dl -> went D L s (fst (m s)) (snd (m s)).

Lemma went_stay {A} D (r : option (result A PinentryError)) s : as_clock s <= dl -> r <> None -> went D [] s r s.
Proof. intros Hs Hr. split_and!; [lia|lia|done|]. exists []. rewrite app_nil_r. done. Qed.

Lemma runs_ret {A} D (a : A) : runs D (aret a) [].
Proof. intros s Hs. by apply went_stay. Qed.

Lemma runs_err {A} D e : runs D (@aerr A e) [].
Proof. intros s Hs. by apply went_stay. Qed.

Lemma runs_weaken {A} (D D' : option (result A PinentryError) -> Prop) m L : (forall r, D' r -> D r) -> runs D m L -> runs D' m L.
Proof. intros HD Hm s Hs. destruct (Hm s Hs) as (? & ? & T & ? & ? & Hd). split_and!; [lia|lia|done|]. exists T. auto. Qed.

Lemma accepted_answered {A} (r : option (result A PinentryError)) : accepted r -> answered r.
Proof. by left. Qed.

Lemma went_trans {A B} (D1 : option (result A PinentryError) -> Prop) (D2 : option (result B PinentryError) -> Prop) L1 L2 s r1 s1 r2 s2 :
  went D1 L1 s r1 s1 -> D1 r1 -> went D2 L2 s1 r2 s2 -> went D2 (L1 ++ L2) s r2 s2.
Proof.
  intros (? & _ & T & ET & _ & HT) Hd (? & Hn & U & EU & HU & HU'). specialize (HT Hd). split_and!; [lia|lia|done|].
  exists (T ++ U). rewrite EU, ET, app_assoc, said_app, HT. split_and!; [done|by apply prefix_app|]. intros HD. by rewrite HU'.
Qed.

Lemma runs_bind {A B} (m : am A) (k : A -> am B) L1 L2 :
  runs accepted m L1 -> (forall a, runs accepted (k a) L2) -> runs accepted (abind m k) (L1 ++ L2).
Proof.
  intros Hm Hk s Hs. specialize (Hm s Hs). unfold abind. destruct (m s) as [[[a|e]|] s1]; cbn in *.
  - eapply went_trans; [exact Hm|by eexists|]. apply Hk. apply Hm.
  - destruct Hm as (? & ? & T & ? & ? & _). split_and!; [lia|lia|done|]. exists T. split_and!; [done|by apply prefix_app_r|]. intros [x Hx]. done.
  - destruct Hm as (? & Hn & T & ? & ? & _). split_and!; [lia|lia|auto|]. exists T. split_and!; [done|by apply prefix_app_r|]. intros [x Hx]. done.
Qed.

(** Nothing more is said in the second part. *)
Lemma runs_bind_quiet {A B} (m : am A) (k : A -> am B) L :
  runs answered m L -> (forall a, runs answered (k a) []) -> runs answered (abind m k) L.
Proof.
  intros Hm Hk s Hs. specialize (Hm s Hs). unfold abind. destruct (m s) as [[[a|e]|] s1]; cbn in *.
  - rewrite <- (app_nil_r L). eapply went_trans; [exact Hm|left; by eexists|]. apply Hk. apply Hm.
  - destruct Hm as (? & ? & T & ? & ? & Hd). split_and!; [lia|lia|done|]. exists T. split_and!; [done|done|]. intros [[x Hx]|(c & x & [= ->])]; [done|].
    apply Hd. right. eauto.
  - destruct Hm as (? & Hn & T & ? & ? & _). split_and!; [lia|lia|auto|]. exists T. split_and!; [done|done|]. intros [[x Hx]|(c & x & ?)]; done.
Qed.

Lemma runs_await took : (forall s, 0 <= took s) -> runs answered (await dl took) [].
Proof.
  intros Ht s Hs. specialize (Ht s). unfold await. destruct (Z.leb_spec (as_clock s + took s) dl); cbn; (split_and!; [cbn; lia|cbn; lia|done|]; exists []; by rewrite app_nil_r).
Qed.

Lemma runs_send line : runs answered (send dl line) [line].
Proof.
  intros s Hs. unfold send.
  assert (H : runs answered (abind (await dl (fun s => pe_write_took s line)) (fun _ =>
    match pe_write s line with Some e => aerr (PIo e) | None => aret tt end)) []).
  { apply runs_bind_quiet; [apply runs_await; intros; apply pe_write_time|]. intros _. destruct (pe_write s line); [apply runs_err|apply runs_ret]. }
  unfold abind at 1, say. destruct (H (Asn (as_clock s) (as_talk s ++ [Said line])) Hs) as (? & Hn & T & ET & HT & HT'). cbn in *.
  split_and!; [lia|lia|done|]. exists (Said line :: T). rewrite ET, <- app_assoc. apply prefix_nil_inv in HT.
  change (said (Said line :: T)) with (line :: said T). by rewrite HT.
Qed.

(** A line heard took a moment. *)
Lemma next_line_spec s : as_clock s <= dl ->
  match next_line dl s with
  | (Some (Ok line), s') => as_clock s < as_clock s' <= dl /\ as_talk s' = as_talk s ++ [Heard line]
  | (Some (Err e), s') => as_clock s <= as_clock s' <= dl /\ as_talk s' = as_talk s /\ forall c x, e <> PAssuan c x
  | (None, s') => as_clock s' = dl /\ as_talk s' = as_talk s
  end.
Proof.
  intros Hs. pose proof (pe_read_time s). unfold next_line, await, abind, say. destruct (Z.leb_spec (as_clock s + pe_read_took s) dl); [|done].
  destruct (pe_read s) as [[|y ys]|e]; [cbn; split_and!; [lia|lia|done|congruence]| |cbn; split_and!; [lia|lia|done|congruence]].
  destruct (from_utf8 (y :: ys)); cbn; [|split_and!; [lia|lia|done|congruence]]. split_and!; [lia|lia|done].
Qed.

(** The lines of a reply: some that say nothing, then the one that does. *)
Definition reply_of (lines : list str) (r : result Reply PinentryError) : Prop :=
  exists skipped line, lines = skipped ++ [line] /\ Forall (fun l => read_line_as l = None) skipped /\ read_line_as line = Some r.

Definition only_heard (s s' : asn) (lines : list str) : Prop := as_talk s' = as_talk s ++ map Heard lines.

Definition replied (s : asn) (r : option (result Reply PinentryError)) (s' : asn) : Prop :=
  as_clock s <= as_clock s' <= dl /\ (r = None -> as_clock s' = dl)
  /\ exists lines, only_heard s s' lines
     /\ match r with
        | Some (Ok x) => reply_of lines (Ok x) /\ as_clock s < as_clock s'
        | Some (Err e) => forall c x, e <> PAssuan c x
        | None => True
        end.

Definition skipping (s a : asn) : Prop :=
  as_clock s <= as_clock a <= dl /\ exists lines, only_heard s a lines /\ Forall (fun l => read_line_as l = None) lines.

Lemma read_line_no_assuan line e c x : read_line_as line = Some (Err e) -> e <> PAssuan c x.
Proof. unfold read_line_as. repeat case_match; intros [= <-]; done. Qed.

Lemma reply_round_spec s a : skipping s a ->
  match reply_round dl a with inl a' => skipping s a' /\ as_clock a < as_clock a' | inr (r, s') => replied s r s' end.
Proof.
  intros [Hc (lines & Ht & Hsk)]. unfold reply_round. pose proof (next_line_spec a ltac:(lia)) as Hn.
  destruct (next_line dl a) as [[[line|e]|] s1].
  - destruct Hn as [Hcl Hta]. assert (Hh : only_heard s s1 (lines ++ [line])).
    { unfold only_heard in *. by rewrite Hta, Ht, map_app, <- app_assoc. }
    destruct (read_line_as line) as [[x|e]|] eqn:El.
    + split_and!; [lia|lia|done|]. exists (lines ++ [line]). split_and!; [done| |lia]. by exists lines, line.
    + split_and!; [lia|lia|done|]. exists (lines ++ [line]). split; [done|]. intros c x. by eapply read_line_no_assuan.
    + split; [|lia]. split; [lia|]. exists (lines ++ [line]). split; [done|]. apply Forall_app. by split; [|constructor].
  - destruct Hn as (Hcl & Hta & He). split_and!; [lia|lia|done|]. exists lines. split; [unfold only_heard in *; congruence|done].
  - destruct Hn as [Hcl Hta]. split_and!; [lia|lia|done|]. exists lines. split; [unfold only_heard in *; congruence|done].
Qed.

Lemma read_reply_spec s : as_clock s <= dl -> replied s (fst (read_reply dl s)) (snd (read_reply dl s)).
Proof.
  intros Hs. assert (H0 : skipping s s) by (split; [lia|]; exists []; split; [unfold only_heard; cbn; by rewrite app_nil_r|constructor]).
  unfold read_reply.
  destruct (iter_until_ends (reply_round dl) (skipping s) (fun a => dl - as_clock a) (lines_left dl s) s) as [r E].
  - intros a a' Ha E. pose proof (reply_round_spec s a Ha) as Hr. rewrite E in Hr. split; [apply Hr|lia].
  - intros a [? _]. lia.
  - done.
  - unfold lines_left. rewrite Z2Pos.id by lia. lia.
  - pose proof (iter_until_inv (reply_round dl) (skipping s) (fun r => replied s (fst r) (snd r)) (lines_left dl s) s) as H.
    rewrite E in H |- *. apply H; [|done]. intros a Ha. pose proof (reply_round_spec s a Ha) as Hr.
    destruct (reply_round dl a) as [a'|[r' s']]; [apply Hr|exact Hr].
Qed.

Lemma runs_reply : runs answered (read_reply dl) [].
Proof.
  intros s Hs. destruct (read_reply_spec s Hs) as (? & ? & lines & Ht & _). split_and!; [lia|lia|done|].
  exists (map Heard lines). assert (E : said (map Heard lines) = []) by (clear Ht; induction lines; done).
  rewrite E. split_and!; [exact Ht|done|done].
Qed.

Lemma runs_expect_ok : runs answered (expect_ok dl) [].
Proof. apply runs_bind_quiet; [apply runs_reply|]. intros [|d|c x]; [apply runs_ret|apply runs_err|apply runs_err]. Qed.

Lemma runs_command line : runs answered (command dl line) [line].
Proof. apply runs_bind_quiet; [apply runs_send|]. intros _. apply runs_expect_ok. Qed.

Lemma runs_lenient line : runs accepted (command_lenient dl line) [line].
Proof.
  intros s Hs. unfold command_lenient. pose proof (runs_command line s Hs) as H.
  destruct (command dl line s) as [[[a|e]|] s1]; cbn in *.
  - destruct H as (? & ? & T & ? & ? & Hd). split_and!; [lia|lia|done|]. exists T. split_and!; [done|done|]. intros _. apply Hd. left. by eexists.
  - destruct H as (? & ? & T & ? & ? & Hd).
    destruct e as [| | |code message|]; (split_and!; [cbn; lia|cbn; lia|done|]; exists T; split_and!; [done|done|]; intros Ha).
    4: apply Hd; right; eauto.
    all: by destruct Ha.
  - destruct H as (? & Hn & T & ? & ? & _). split_and!; [lia|lia|auto|]. exists T. split_and!; [done|done|]. by intros [].
Qed.

Lemma runs_each {A} (f : A -> am unit) (g : A -> str) l : (forall a, runs accepted (f a) [g a]) -> runs accepted (each f l) (map g l).
Proof. intros Hf. induction l as [|a l IH]; [apply runs_ret|]. exact (runs_bind (f a) (fun _ => each f l) [g a] (map g l) (Hf a) (fun _ => IH)). Qed.

Lemma runs_accepted {A} (m : am A) L : runs answered m L -> runs accepted m L.
Proof. apply runs_weaken. by left. Qed.

(** *** The script *)

Definition setup_lines (req : PinRequest) : list str :=
  (if bool_decide (pr_title req = []) then [] else [lit "SETTITLE " ++ escape (pr_title req)])
  ++ [lit "SETDESC " ++ escape (pr_description req)] ++ [lit "SETPROMPT " ++ escape (pr_prompt req)]
  ++ match pr_error req with Some e => [lit "SETERROR " ++ escape e] | None => [] end.

Lemma runs_setup req : runs accepted (setup dl req) (setup_lines req).
Proof.
  unfold setup, setup_lines. apply runs_bind; [case_bool_decide; [apply runs_ret|apply runs_lenient]|]. intros _.
  apply runs_bind; [apply runs_accepted, runs_command|]. intros _. apply runs_bind; [apply runs_accepted, runs_command|]. intros _.
  destruct (pr_error req); [apply runs_lenient|apply runs_ret].
Qed.

Lemma runs_connect : runs accepted (connect dl) (tty_options_from pe_var).
Proof.
  intros s Hs. unfold connect. destruct (pe_spawn s) as [e|].
  - split_and!; [cbn; lia|cbn; lia|done|]. exists []. cbn. rewrite app_nil_r. split_and!; [done|apply prefix_nil|]. by intros [].
  - rewrite <- (app_nil_l (tty_options_from pe_var)). revert s Hs. apply runs_bind; [apply runs_accepted, runs_expect_ok|]. intros _.
    rewrite <- (map_id (tty_options_from pe_var)) at 2. apply runs_each. intros a. apply runs_lenient.
Qed.

Lemma send_talk line s : as_talk (snd (send dl line s)) = as_talk s ++ [Said line].
Proof. unfold send, abind, say, await. cbn. destruct (_ <=? dl); [|done]. by destruct (pe_write s line). Qed.

Lemma runs_bye : runs accepted (bye dl) [lit "BYE"].
Proof.
  intros s Hs. unfold bye. generalize (lit "BYE"). intros line.
  pose proof (runs_send line s Hs) as H. pose proof (send_talk line s) as Ht.
  destruct (send dl line s) as [[r|] s1]; cbn [fst snd] in *.
  2: { destruct H as (? & Hn & T & ? & ? & _). split_and!; [lia|lia|auto|]. exists T. split_and!; [done|done|]. by intros []. }
  destruct (runs_reply s1 ltac:(apply H)) as (? & Hn & U & EU & HU & _). apply prefix_nil_inv in HU. destruct H as (? & _).
  destruct (read_reply dl s1) as [[r2|] s2]; cbn [fst snd] in *; (split_and!; [lia|lia|first [discriminate|by auto]|]; exists ([Said line] ++ U);
    rewrite EU, Ht, <- app_assoc, said_app, HU; done).
Qed.

(** *** The answer *)

Definition pin_so_far (s : asn) (x : str * asn) : Prop :=
  as_clock s <= as_clock (snd x) <= dl
  /\ exists lines, only_heard s (snd x) lines /\ forall more, pin_of (lines ++ more) [] = pin_of more (fst x).

Definition pin_answered (s : asn) (r : option (result str PinentryError)) (s' : asn) : Prop :=
  as_clock s <= as_clock s' <= dl /\ (r = None -> as_clock s' = dl)
  /\ exists lines, only_heard s s' lines /\ (answered r -> pin_of lines [] = r).

Lemma pin_round_spec s x : pin_so_far s x ->
  match pin_round dl x with
  | inl x' => pin_so_far s x' /\ as_clock (snd x) < as_clock (snd x')
  | inr (r, s') => pin_answered s r s'
  end.
Proof.
  destruct x as [acc a]. intros [Hc (lines & Ht & Hp)]. cbn [fst snd] in *. unfold pin_round. cbn [fst snd].
  destruct (read_reply_spec a ltac:(lia)) as (Hc' & Hn & more & Hm & Hr).
  destruct (read_reply dl a) as [r s1]. cbn [fst snd] in *.
  assert (Hh : only_heard s s1 (lines ++ more)) by (unfold only_heard in *; by rewrite Hm, Ht, map_app, <- app_assoc).
  assert (Hno : forall e, (forall c x, e <> PAssuan c x) -> pin_answered s (Some (Err e)) s1).
  { intros e He. split_and!; [lia|lia|done|]. exists (lines ++ more). split; [done|]. intros [[x Hx]|(c & x & [= ->])]; [done|]. by destruct (He c x). }
  destruct r as [[rep|e]|].
  - destruct Hr as [(skipped & line & -> & Hsk & Hl) Hlt].
    assert (Hpin : forall more, pin_of ((lines ++ skipped ++ [line]) ++ more) [] = pin_of (line :: more) acc).
    { intros m. rewrite <- !app_assoc. rewrite Hp. by rewrite pin_of_skip. }
    destruct rep as [|d|c msg].
    + split_and!; [lia|lia|done|]. eexists. split; [exact Hh|]. intros _. specialize (Hpin []). rewrite app_nil_r in Hpin. rewrite Hpin. cbn. by rewrite Hl.
    + destruct (unescape d) as [p|e] eqn:Eu.
      * split; [|cbn; lia]. split; [cbn; lia|]. eexists. split; [exact Hh|]. intros m. rewrite Hpin. cbn. by rewrite Hl, Eu.
      * apply Hno. intros c x ->. unfold unescape in Eu. destruct (unescape_bytes (utf8 d)) as [o|e'] eqn:E; cbn in Eu; [destruct (from_utf8 o); done|].
        injection Eu as ->. by eapply unescape_no_assuan.
    + split_and!; [lia|lia|done|]. eexists. split; [exact Hh|]. intros _. specialize (Hpin []). rewrite app_nil_r in Hpin. rewrite Hpin. cbn. by rewrite Hl.
  - by apply Hno.
  - split_and!; [lia|lia|auto|]. exists (lines ++ more). split; [done|]. intros [[x Hx]|(c & x & Hx)]; done.
Qed.

Lemma getpin_spec s : as_clock s <= dl ->
  as_clock s <= as_clock (snd (getpin dl s)) <= dl /\ (fst (getpin dl s) = None -> as_clock (snd (getpin dl s)) = dl)
  /\ exists lines, as_talk (snd (getpin dl s)) = as_talk s ++ [Said (lit "GETPIN")] ++ map Heard lines
     /\ (answered (fst (getpin dl s)) -> pin_of lines [] = fst (getpin dl s)).
Proof.
  intros Hs. unfold getpin. generalize (lit "GETPIN"). intros line. unfold abind.
  pose proof (runs_send line s Hs) as H. pose proof (send_talk line s) as Ht.
  destruct (send dl line s) as [[[a|e]|] s1] eqn:E; cbn [fst snd] in *.
  2: { destruct H as (? & ? & _). split_and!; [lia|lia|done|]. exists []. split; [done|]. intros [[x Hx]|(c & x & [= ->])]; [done|].
       unfold send, abind, say, await in E. cbn in E. destruct (_ <=? dl); [|done]. destruct (pe_write s line); done. }
  2: { destruct H as (? & Hn & _). split_and!; [lia|lia|auto|]. exists []. split; [done|]. intros [[x Hx]|(c & x & Hx)]; done. }
  destruct H as (? & _).
  assert (H0 : pin_so_far s1 ([], s1)) by (split; [cbn; lia|]; exists []; split; [unfold only_heard; cbn; by rewrite app_nil_r|done]).
  destruct (iter_until_ends (pin_round dl) (pin_so_far s1) (fun x => dl - as_clock (snd x)) (lines_left dl s1) ([], s1)) as [r Er].
  - intros x x' Hx Ex. pose proof (pin_round_spec s1 x Hx) as Hr. rewrite Ex in Hr. split; [apply Hr|lia].
  - intros x [? _]. lia.
  - done.
  - unfold lines_left. cbn. rewrite Z2Pos.id by lia. lia.
  - pose proof (iter_until_inv (pin_round dl) (pin_so_far s1) (fun r => pin_answered s1 (fst r) (snd r)) (lines_left dl s1) ([], s1)) as Hi.
    rewrite Er in Hi |- *. destruct Hi as (? & ? & lines & Hl & Ha); [|done|].
    + intros x Hx. pose proof (pin_round_spec s1 x Hx) as Hr. destruct (pin_round dl x) as [x'|[r' s']]; [apply Hr|exact Hr].
    + split_and!; [lia|lia|done|]. exists lines. split; [|done]. unfold only_heard in Hl. by rewrite Hl, Ht, <- app_assoc.
Qed.
End conversation.

(** ** Properties *)

Section dialogs.
Context `{P : Peer} `{!PeerOk P}.

(** Up to the first part and on, or stopped in it. *)
Lemma bind_cases {A B} dl (m : am A) (k : A -> am B) L s : runs dl accepted m L -> as_clock s <= dl ->
  (exists a s1, went dl accepted L s (Some (Ok a)) s1 /\ abind m k s = k a s1)
  \/ exists r s1, went dl accepted L s r s1 /\ ~ accepted r /\ abind m k s = (r, s1).
Proof.
  intros Hm Hs. specialize (Hm s Hs). unfold abind. destruct (m s) as [[[a|e]|] s1]; cbn [fst snd] in Hm; [left; eauto|right..].
  - destruct Hm as (? & ? & T & ? & ? & _). exists (Some (Err e)), s1. split_and!; [|by intros []|done].
    split_and!; [lia|lia|done|]. exists T. split_and!; [done|done|by intros []].
  - destruct Hm as (? & ? & T & ? & ? & _). exists None, s1. split_and!; [|by intros []|done].
    split_and!; [lia|lia|auto|]. exists T. split_and!; [done|done|by intros []].
Qed.

Lemma went_stopped {A} dl L L' s (r : option (result A PinentryError)) s1 :
  went dl accepted L s r s1 -> ~ accepted r -> went dl accepted (L ++ L') s r s1.
Proof. intros (? & ? & T & ? & ? & _) Hr. split_and!; [lia|lia|done|]. exists T. split_and!; [done|by apply prefix_app_r|done]. Qed.

(** What is said before the question. *)
Definition lead_lines (req : PinRequest) : list str := tty_options_from pe_var ++ setup_lines req.
Definition ask_lines (req : PinRequest) : list str := lead_lines req ++ (if pr_repeat req then [lit "SETREPEAT Repeat:"] else []).
Definition ask_script (req : PinRequest) : list str := ask_lines req ++ [lit "GETPIN"; lit "BYE"].
Definition confirm_script (req : PinRequest) : list str := lead_lines req ++ [lit "CONFIRM"; lit "BYE"].

(** A dialog that got as far as the question. *)
Lemma ask_cases dl req s : as_clock s <= dl ->
  (exists s1, went dl accepted (ask_lines req) s (Some (Ok tt)) s1
     /\ ask_work dl req s = match getpin dl s1 with
          | (Some (Ok pin), s) => abind (bye dl) (fun _ => aret (Pin pin)) s
          | (Some (Err (PAssuan code message)), s) =>
            if is_cancel code then abind (bye dl) (fun _ => aret Cancelled) s else (Some (Err (PAssuan code message)), s)
          | (Some (Err e), s) => (Some (Err e), s)
          | (None, s) => (None, s)
          end)
  \/ exists r s1, went dl accepted (ask_lines req) s r s1 /\ ~ accepted r /\ ask_work dl req s = (r, s1).
Proof.
  intros Hs. unfold ask_work, ask_lines, lead_lines. rewrite <- app_assoc.
  destruct (bind_cases dl _ (fun _ => abind (setup dl req) (fun _ =>
    abind (if pr_repeat req then command_lenient dl (lit "SETREPEAT Repeat:") else aret tt) (fun _ s =>
    match getpin dl s with
    | (Some (Ok pin), s) => abind (bye dl) (fun _ => aret (Pin pin)) s
    | (Some (Err (PAssuan code message)), s) =>
      if is_cancel code then abind (bye dl) (fun _ => aret Cancelled) s else (Some (Err (PAssuan code message)), s)
    | (Some (Err e), s) => (Some (Err e), s)
    | (None, s) => (None, s)
    end))) _ s (runs_connect dl) Hs) as [([] & s1 & H1 & ->)|(r & s1 & H1 & Hr & ->)]; [|right; exists r, s1; split_and!; [by apply went_stopped|done|done]].
  match goal with |- context [abind (setup dl req) ?k s1] => destruct (bind_cases dl _ k _ s1 (runs_setup dl req) ltac:(apply H1)) as [([] & s2 & H2 & ->)|(r & s2 & H2 & Hr & ->)] end.
  2: { right. exists r, s2. split_and!; [|done|done]. eapply went_trans; [exact H1|by eexists|]. by apply went_stopped. }
  assert (Hrep : runs dl accepted (if pr_repeat req then command_lenient dl (lit "SETREPEAT Repeat:") else aret tt)
                   (if pr_repeat req then [lit "SETREPEAT Repeat:"] else [])) by (destruct (pr_repeat req); [apply runs_lenient|apply runs_ret]).
  match goal with |- context [abind _ ?k s2] => destruct (bind_cases dl _ k _ s2 Hrep ltac:(apply H2)) as [([] & s3 & H3 & ->)|(r & s3 & H3 & Hr & ->)] end.
  - left. exists s3. split; [|done]. eapply went_trans; [exact H1|by eexists|]. eapply went_trans; [exact H2|by eexists|exact H3].
  - right. exists r, s3. split_and!; [|done|done]. eapply went_trans; [exact H1|by eexists|]. eapply went_trans; [exact H2|by eexists|exact H3].
Qed.

(** The question and what was heard after it. *)
Definition asked (L : list str) (question : str) (lines : list str) (T : list talk) : Prop :=
  exists T1 T2, T = T1 ++ Said question :: map Heard lines ++ T2 /\ said T1 = L.

Lemma said_heard lines : said (map Heard lines) = [].
Proof. by induction lines. Qed.

(** After the question, [BYE] or nothing. *)
Lemma went_on {A B} dl L question lines s (x : A) s1 s2 (r : option (result B PinentryError)) s3 :
  went dl accepted L s (Some (Ok x)) s1 ->
  as_clock s1 <= as_clock s2 -> as_talk s2 = as_talk s1 ++ [Said question] ++ map Heard lines ->
  went dl accepted [lit "BYE"] s2 r s3 ->
  as_clock s <= as_clock s3 <= dl /\ (r = None -> as_clock s3 = dl)
  /\ exists T, as_talk s3 = as_talk s ++ T /\ said T `prefix_of` L ++ [question; lit "BYE"] /\ asked L question lines T.
Proof.
  intros (? & _ & T1 & E1 & _ & H1) Hc E2 (? & Hn & T3 & E3 & H3 & _). specialize (H1 ltac:(by eexists)).
  split_and!; [lia|lia|done|]. exists (T1 ++ Said question :: map Heard lines ++ T3). split_and!.
  - rewrite E3, E2, E1, <- !app_assoc. done.
  - rewrite said_app, H1. change (said (Said question :: map Heard lines ++ T3)) with (question :: said (map Heard lines ++ T3)).
    rewrite said_app, said_heard. cbn [app]. apply prefix_app. by apply prefix_cons.
  - by exists T1, T3.
Qed.

Lemma ended {A} dl L s s' : went dl accepted L s (@None (result A PinentryError)) s' -> as_clock s' = dl.
Proof. intros (? & Hn & _). auto. Qed.

Lemma went_nothing {A} dl L s (r : option (result A PinentryError)) : as_clock s <= dl -> r <> None -> ~ accepted r -> went dl accepted L s r s.
Proof. intros Hs Hr Ha. split_and!; [lia|lia|done|]. exists []. rewrite app_nil_r. split_and!; [done|apply prefix_nil|done]. Qed.

Lemma runs_bye_then {A} dl (a : A) : runs dl accepted (abind (bye dl) (fun _ => aret a)) [lit "BYE"].
Proof. rewrite <- (app_nil_r [lit "BYE"]). apply runs_bind; [apply runs_bye|]. intros _. apply runs_ret. Qed.

Lemma bye_then_result {A} dl (a : A) s r s' : abind (bye dl) (fun _ => aret a) s = (r, s') -> r = Some (Ok a) \/ r = None.
Proof.
  unfold abind, bye. destruct (send dl (lit "BYE") s) as [[x|] s1]; [|intros [= <- _]; auto].
  destruct (read_reply dl s1) as [[y|] s2]; intros [= <- _]; auto.
Qed.

Definition ask_told (req : PinRequest) (T : list talk) (r : option (result PinOutcome PinentryError)) : Prop :=
  match r with
  | Some (Ok (Pin pin)) => exists lines, asked (ask_lines req) (lit "GETPIN") lines T /\ pin_of lines [] = Some (Ok pin)
  | Some (Ok Cancelled) => exists lines code message, asked (ask_lines req) (lit "GETPIN") lines T
                             /\ pin_of lines [] = Some (Err (PAssuan code message)) /\ is_cancel code = true
  | _ => True
  end.

Lemma ask_work_spec dl req s : as_clock s <= dl ->
  let r := fst (ask_work dl req s) in let s' := snd (ask_work dl req s) in
  as_clock s <= as_clock s' <= dl /\ (r = None -> as_clock s' = dl)
  /\ exists T, as_talk s' = as_talk s ++ T /\ said T `prefix_of` ask_script req /\ ask_told req T r.
Proof.
  intros Hs. cbv zeta. destruct (ask_cases dl req s Hs) as [(s1 & H1 & ->)|(r & s1 & H1 & Hr & ->)].
  2: { destruct H1 as (? & ? & T & ? & ? & _). cbn. split_and!; [lia|lia|done|]. exists T. split_and!; [done|by apply prefix_app_r|].
       destruct r as [[[pin|]|e]|]; try done; destruct Hr; by eexists. }
  destruct (getpin_spec dl s1 ltac:(apply H1)) as (Hc & Hn & lines & Ht & Ha). unfold ask_script.
  destruct (getpin dl s1) as [r s2]. cbn [fst snd] in *.
  assert (Hstop : forall r : option (result PinOutcome PinentryError), (forall a, r <> Some (Ok a)) -> (r = None -> as_clock s2 = dl) ->
    as_clock s <= as_clock s2 <= dl /\ (r = None -> as_clock s2 = dl)
    /\ exists T, as_talk s2 = as_talk s ++ T /\ said T `prefix_of` ask_lines req ++ [lit "GETPIN"; lit "BYE"] /\ ask_told req T r).
  { intros r' Hr' Hn'. destruct (went_on dl (ask_lines req) (lit "GETPIN") lines s tt s1 s2 (Some (@Err unit _ PBusy)) s2 H1 ltac:(lia) Ht) as (? & ? & T & ? & ? & _).
    - apply went_nothing; [lia|done|by intros []].
    - split_and!; [lia|lia|done|]. exists T. split_and!; [done|done|]. destruct r' as [[[pin|]|e]|]; try done; by destruct (Hr' _ eq_refl). }
  assert (Hbye : forall a : PinOutcome, (forall T, asked (ask_lines req) (lit "GETPIN") lines T -> ask_told req T (Some (Ok a))) ->
    let x := abind (bye dl) (fun _ => aret a) s2 in
    as_clock s <= as_clock (snd x) <= dl /\ (fst x = None -> as_clock (snd x) = dl)
    /\ exists T, as_talk (snd x) = as_talk s ++ T /\ said T `prefix_of` ask_lines req ++ [lit "GETPIN"; lit "BYE"] /\ ask_told req T (fst x)).
  { intros a Hta. cbv zeta. pose proof (runs_bye_then dl a s2 ltac:(lia)) as Hw.
    destruct (abind (bye dl) (fun _ => aret a) s2) as [r' s3] eqn:Er. cbn [fst snd] in *.
    destruct (went_on dl (ask_lines req) (lit "GETPIN") lines s tt s1 s2 r' s3 H1 ltac:(lia) Ht Hw) as (? & ? & T & ? & ? & Hq).
    split_and!; [lia|lia|done|]. exists T. split_and!; [done|done|]. apply bye_then_result in Er as [-> | ->]; [by apply Hta|done]. }
  destruct r as [[pin|e]|].
  - apply Hbye. intros T Hq. exists lines. split; [done|]. apply Ha. left. by eexists.
  - destruct e as [| | |code message|]; try (by apply Hstop; [done|]).
    destruct (is_cancel code) eqn:Ec; [|by apply Hstop; [done|]]. apply Hbye. intros T Hq. exists lines, code, message. split_and!; [done| |done].
    apply Ha. right. eauto.
  - apply Hstop; [done|auto].
Qed.

(** The yes-or-no question. *)
Definition confirm_end dl : am bool := fun s =>
  match command dl (lit "CONFIRM") s with
  | (Some (Ok _), s) => abind (bye dl) (fun _ => aret true) s
  | (Some (Err (PAssuan _ _)), s) => abind (bye dl) (fun _ => aret false) s
  | (Some (Err e), s) => (Some (Err e), s)
  | (None, s) => (None, s)
  end.

Lemma runs_confirm_end dl : runs dl accepted (confirm_end dl) [lit "CONFIRM"; lit "BYE"].
Proof.
  intros s Hs. unfold confirm_end. change [lit "CONFIRM"; lit "BYE"] with ([lit "CONFIRM"] ++ [lit "BYE"]).
  pose proof (runs_command dl (lit "CONFIRM") s Hs) as Hw. destruct (command dl (lit "CONFIRM") s) as [r s1]. cbn [fst snd] in Hw.
  assert (Hstop : forall x : option (result bool PinentryError), ~ accepted x -> (x = None -> as_clock s1 = dl) -> went dl accepted ([lit "CONFIRM"] ++ [lit "BYE"]) s x s1).
  { intros x Hx Hn. destruct Hw as (? & ? & T & ? & ? & _). split_and!; [lia|lia|done|]. exists T. split_and!; [done|by apply prefix_app_r|done]. }
  destruct r as [[[]|e]|].
  - eapply went_trans; [exact Hw|left; by eexists|]. apply runs_bye_then. apply Hw.
  - destruct e as [| | |code message|]; try (apply Hstop; [by intros []|done]).
    eapply went_trans; [exact Hw|right; by eexists _, _|]. apply runs_bye_then. apply Hw.
  - apply Hstop; [by intros []|]. intros _. by apply Hw.
Qed.

Lemma runs_confirm dl req : runs dl accepted (confirm_work dl req) (confirm_script req).
Proof.
  unfold confirm_script, lead_lines. rewrite <- app_assoc. apply runs_bind; [apply runs_connect|]. intros _.
  apply runs_bind; [apply runs_setup|]. intros _. apply runs_confirm_end.
Qed.

Lemma command_accepted dl line s s' : as_clock s <= dl -> command dl line s = (Some (Ok tt), s') ->
  exists lines, as_talk s' = as_talk s ++ [Said line] ++ map Heard lines /\ reply_of lines (Ok ROk).
Proof.
  intros Hs. unfold command, abind at 1. pose proof (send_talk dl line s) as Ht. pose proof (runs_send dl line s Hs) as (Hc & _).
  destruct (send dl line s) as [[[a|e]|] s1]; [|done|done]. cbn [fst snd] in *. unfold expect_ok, abind.
  destruct (read_reply_spec dl s1 ltac:(lia)) as (_ & _ & lines & Hl & Hr). destruct (read_reply dl s1) as [[[rep|e]|] s2]; [|done|done]. cbn [fst snd] in *.
  destruct rep; try done. intros [= <-]. exists lines. split; [|apply Hr]. unfold only_heard in Hl. by rewrite Hl, Ht, <- app_assoc.
Qed.

Lemma confirm_true dl req s s' : as_clock s <= dl -> confirm_work dl req s = (Some (Ok true), s') ->
  exists T lines, as_talk s' = as_talk s ++ T /\ asked (lead_lines req) (lit "CONFIRM") lines T /\ reply_of lines (Ok ROk).
Proof.
  intros Hs. unfold confirm_work.
  destruct (bind_cases dl (connect dl) (fun _ => abind (setup dl req) (fun _ => confirm_end dl)) _ s (runs_connect dl) Hs) as [([] & s1 & H1 & E)|(r & s1 & _ & Hr & E)];
    unfold confirm_end in E; rewrite E; [|intros [= -> _]; destruct Hr; by eexists].
  destruct (bind_cases dl (setup dl req) (fun _ => confirm_end dl) _ s1 (runs_setup dl req) ltac:(apply H1)) as [([] & s2 & H2 & E2)|(r & s2 & _ & Hr & E2)];
    unfold confirm_end in E2; rewrite E2; [|intros [= -> _]; destruct Hr; by eexists].
  pose proof (went_trans _ _ _ _ _ _ _ _ _ _ H1 ltac:(by eexists) H2) as H3.
  destruct (command dl (lit "CONFIRM") s2) as [[[[]|e]|] s4] eqn:Ec; [| |done].
  2: { destruct e; try done. intros Eb. apply bye_then_result in Eb as [Eb|Eb]; done. }
  pose proof (runs_command dl (lit "CONFIRM") s2 ltac:(apply H3)) as Hc. rewrite Ec in Hc. cbn [fst snd] in Hc.
  apply command_accepted in Ec as (lines & Ht & Hr); [|apply H3]. intros Eb.
  pose proof (runs_bye_then dl true s4 ltac:(apply Hc)) as Hw. rewrite Eb in Hw. cbn [fst snd] in Hw.
  destruct (went_on dl (lead_lines req) (lit "CONFIRM") lines s tt s2 s4 _ s' H3 ltac:(apply Hc) Ht Hw) as (_ & _ & T & HT & _ & Hq).
  exists T, lines. done.
Qed.
End dialogs.

Definition printableb (s : str) : bool := forallb (fun c => (32 <=? c) && negb (c =? 127)) s.

Lemma printable_lit s : printableb s = true -> Forall printable s.
Proof.
  intros H. apply Forall_forall. intros c Hc. pose proof (proj1 (forallb_forall _ _) H c (proj1 (list_elem_of_In _ _) Hc)) as Hp. cbn in Hp.
  unfold printable. lia.
Qed.

Lemma printable_arg keyword t : printableb keyword = true -> str_wf t -> Forall printable (keyword ++ escape t).
Proof. intros. apply Forall_app. split; [by apply printable_lit|by apply escape_printable]. Qed.

Lemma printable_options var : (forall n v, var n = Some v -> str_wf v) -> Forall (Forall printable) (tty_options_from var).
Proof.
  intros Hv. unfold tty_options_from.
  assert (Hu : forall n v, usable_var var n = Some v -> str_wf v).
  { intros n v. unfold usable_var. destruct (var n) as [x|] eqn:E; [|done]. destruct (usable x); [|done]. intros [= <-]. by eapply Hv. }
  assert (Ho : forall name o, printableb (lit "OPTION " ++ name ++ [61]) = true -> (forall v, o = Some v -> str_wf v) -> Forall (Forall printable) (option_line name o)).
  { intros name [v|] Hn Hw; [|constructor]. constructor; [|constructor]. unfold option_line. rewrite app_assoc, app_assoc, <- (app_assoc (lit "OPTION ")).
    apply printable_arg; [done|by apply Hw]. }
  apply Forall_app. split; [|apply Forall_app; split]; apply Ho; try reflexivity; try (intros v; apply Hu).
  intros v. cbn. repeat case_match; intros Hf; simplify_eq; eauto.
Qed.

Lemma printable_setup `{Peer} req : Forall str_wf ([pr_title req; pr_description req; pr_prompt req] ++ option_list (pr_error req)) ->
  Forall (Forall printable) (setup_lines req).
Proof.
  intros Hw. rewrite !Forall_app, !Forall_cons in Hw. destruct Hw as [(Ht & Hd & Hp & _) He]. unfold setup_lines.
  repeat (apply Forall_app; split); try (constructor; [|constructor]); try (by apply printable_arg).
  - case_bool_decide; [constructor|]. constructor; [by apply printable_arg|constructor].
  - destruct (pr_error req); [|constructor]. constructor; [|constructor]. apply Forall_cons in He as [He _]. by apply printable_arg.
Qed.

(** C16. A dialog shows its request and nothing more. Whatever the texts of the
    request and of the environment hold, newlines and control characters
    included, every line sent is one Assuan line, each text is on it in a form
    that decodes to exactly that text, and the lines sent by a dialog are the
    first of the fixed script, in order: no text can add a command. *)
Theorem dialog_cannot_be_injected `{P : Peer} `{!PeerOk P} (p : Pinentry) (req : PinRequest) (s : asn) :
  0 <= pt_timeout p -> (forall n v, pe_var n = Some v -> str_wf v) ->
  Forall str_wf ([pr_title req; pr_description req; pr_prompt req] ++ option_list (pr_error req)) ->
  (exists T, as_talk (snd (ask_held p req s)) = as_talk s ++ T /\ said T `prefix_of` ask_script req)
  /\ (exists T, as_talk (snd (confirm_held p req s)) = as_talk s ++ T /\ said T `prefix_of` confirm_script req)
  /\ Forall (Forall printable) (ask_script req ++ confirm_script req)
  /\ Forall (fun t => unescape (escape t) = Ok t) ([pr_title req; pr_description req; pr_prompt req] ++ option_list (pr_error req)).
Proof.
  intros Ht Hv Hw. assert (Hl : Forall (Forall printable) (lead_lines req)).
  { apply Forall_app. split; [by apply printable_options|by apply printable_setup]. }
  split_and!.
  - unfold ask_held. destruct (ask_work_spec (as_clock s + pt_timeout p) req s ltac:(lia)) as (_ & _ & T & E & Hp & _).
    exists T. destruct (ask_work _ req s) as [[r|] s']; done.
  - unfold confirm_held. destruct (runs_confirm (as_clock s + pt_timeout p) req s ltac:(lia)) as (_ & _ & T & E & Hp & _).
    exists T. destruct (confirm_work _ req s) as [[r|] s']; done.
  - unfold ask_script, confirm_script, ask_lines. rewrite !Forall_app. split_and!; try exact Hl.
    + destruct (pr_repeat req); [|constructor]. constructor; [by apply printable_lit|constructor].
    + repeat (constructor; [by apply printable_lit|]). constructor.
    + repeat (constructor; [by apply printable_lit|]). constructor.
  - eapply Forall_impl; [exact Hw|]. intros t. apply unescape_escape.
Qed.

(** C17. A password is what the program at the other end sent and nothing else:
    [ask] returns one only when the whole request was accepted, [GETPIN] was
    sent and the lines heard after it spell that password and end with [OK];
    it reports a cancellation only for an Assuan cancellation or when the time
    limit was reached; [confirm] says yes only after [CONFIRM] was accepted.
    Either returns by its limit. *)
Theorem dialog_answers_truly `{P : Peer} `{!PeerOk P} (p : Pinentry) (req : PinRequest) (s : asn) :
  0 <= pt_timeout p ->
  let '(r, s') := ask_held p req s in
  let '(c, s2) := confirm_held p req s in
  as_clock s' <= as_clock s + pt_timeout p /\ as_clock s2 <= as_clock s + pt_timeout p
  /\ match r with
     | Ok (Pin pin) => exists T lines, as_talk s' = as_talk s ++ T /\ asked (ask_lines req) (lit "GETPIN") lines T
                                       /\ pin_of lines [] = Some (Ok pin)
     | Ok Cancelled => as_clock s' = as_clock s + pt_timeout p
                       \/ exists T lines code message, as_talk s' = as_talk s ++ T /\ asked (ask_lines req) (lit "GETPIN") lines T
                          /\ pin_of lines [] = Some (Err (PAssuan code message)) /\ is_cancel code = true
     | Err _ => True
     end
  /\ (c = Ok true -> exists T lines, as_talk s2 = as_talk s ++ T /\ asked (lead_lines req) (lit "CONFIRM") lines T
                                     /\ reply_of lines (Ok ROk)).
Proof.
  intros Ht. unfold ask_held, confirm_held. set (dl := as_clock s + pt_timeout p).
  destruct (ask_work_spec dl req s ltac:(lia)) as (Hc & Hn & T & E & _ & Htold).
  destruct (runs_confirm dl req s ltac:(lia)) as (Hc2 & _).
  pose proof (fun s' => confirm_true dl req s s' ltac:(lia)) as Htrue.
  destruct (ask_work dl req s) as [r s']. destruct (confirm_work dl req s) as [c s2]. cbn [fst snd] in *.
  destruct r as [r|]; destruct c as [c|]; split_and!; try lia; try done.
  all: try (intros [= ->]; by eapply Htrue).
  all: try (left; by apply Hn).
  all: destruct r as [[pin|]|e]; try done.
  all: try (destruct Htold as (lines & ? & ?); by exists T, lines).
  all: right; destruct Htold as (lines & code & message & ? & ? & ?); by exists T, lines, code, message.
Qed.

(** ** A program to talk to *)

(** It answers [GETPIN] with the lines [data] and everything else with [OK]. *)
Definition sample_peer (data : list str) : Peer := {|
  pe_spawn _ := None;
  pe_write _ _ := None;
  pe_read s :=
    let after := length (List.filter (fun t => match t with Heard l => if strip_prefix (lit "D ") l then true else false | _ => false end) (as_talk s)) in
    let asking := existsb (fun t => match t with Said l => str_eqb l (lit "GETPIN") | _ => false end) (as_talk s) in
    Ok (utf8 (match (if asking then data !! after else None) with
              | Some d => lit "D " ++ d ++ [10]
              | None => lit "OK" ++ [10]
              end));
  pe_write_took _ _ := 1;
  pe_read_took _ := 1;
  pe_var n := if str_eqb n (lit "TERM") then Some (lit "xterm") else None
|}.

Lemma sample_peer_ok data : PeerOk (sample_peer data).
Proof. split; cbn; lia. Qed.

Definition sample_request : PinRequest :=
  {| pr_title := []; pr_description := lit "for" ++ [10] ++ lit "BYE"; pr_prompt := lit "100%"; pr_error := None; pr_repeat := false |}.

Definition sample_pinentry : Pinentry := with_timeout pinentry_new 1000.

Lemma sample_dialog : exists s', @ask_held (sample_peer [lit "a%25b"; lit "c"]) sample_pinentry sample_request (Asn 0 []) = (Ok (Pin (lit "a%bc")), s')
  /\ said (as_talk s') = [lit "OPTION ttytype=xterm"; lit "SETDESC for%0ABYE"; lit "SETPROMPT 100%25"; lit "GETPIN"; lit "BYE"].
Proof. exists (snd (@ask_held (sample_peer [lit "a%25b"; lit "c"]) sample_pinentry sample_request (Asn 0 []))). vm_compute. auto. Qed.

Lemma sample_request_wf : Forall str_wf ([pr_title sample_request; pr_description sample_request; pr_prompt sample_request] ++ option_list (pr_error sample_request)).
Proof. apply (bool_decide_unpack _). vm_compute. exact I. Qed.

Lemma dialog_cannot_be_injected_witness :
  @Forall str (Forall printable) (@ask_script (sample_peer []) sample_request ++ @confirm_script (sample_peer []) sample_request).
Proof.
  apply (@dialog_cannot_be_injected (sample_peer []) (sample_peer_ok []) sample_pinentry sample_request (Asn 0 [])).
  - vm_compute. congruence.
  - intros n v. cbn [pe_var sample_peer]. case_match; [|done]. intros [= <-]. apply (bool_decide_unpack _). vm_compute. exact I.
  - exact sample_request_wf.
Defined.

Lemma dialog_answers_truly_witness :
  exists s', @ask_held (sample_peer [lit "a%25b"; lit "c"]) sample_pinentry sample_request (Asn 0 []) = (Ok (Pin (lit "a%bc")), s')
             /\ as_clock s' <= 1000.
Proof.
  destruct sample_dialog as (s' & E & _). exists s'. split; [exact E|].
  pose proof (@dialog_answers_truly (sample_peer [lit "a%25b"; lit "c"]) (sample_peer_ok [lit "a%25b"; lit "c"]) sample_pinentry sample_request (Asn 0 []) ltac:(vm_compute; congruence)) as H.
  rewrite E in H. destruct (confirm_held sample_pinentry sample_request (Asn 0 [])) as [c s2]. exact (proj1 H).
Defined.

(** A program may cut its data lines anywhere. One that cuts between the two
    bytes of a character has its password refused, although the same bytes on
    one line are accepted. *)
Theorem split_character_refused :
  fst (@ask_held (sample_peer [lit "%C3"; lit "%A9"]) sample_pinentry sample_request (Asn 0 [])) = Err (PProtocol (lit "pin is not utf-8"))
  /\ fst (@ask_held (sample_peer [lit "%C3%A9"]) sample_pinentry sample_request (Asn 0 [])) = Ok (Pin [233]).
Proof. vm_compute. auto. Qed.
