(* ===== verification/Config.v ===== *)
(** * Configuration and paths ([src/config.rs])

    The configuration file and the XDG directories.  The toml crate is a
    parameter: [toml_config] reads a table with the defaults for what is left
    out and refuses unknown fields.  Paths are text. *)
From S2P Require Import Prelude Text Env Crypto Codec Format Sanitize Names Protocol Pam.

Record KdfConfig : Type := { kc_m_cost_kib : Z; kc_t_cost : Z; kc_p_cost : Z }.

Definition MIN_RECOMMENDED_M_COST_KIB : Z := 19 * 1024.
Definition MIN_RECOMMENDED_T_COST : Z := 2.

Definition below_recommended_floor (k : KdfConfig) : bool :=
  (kc_m_cost_kib k <? MIN_RECOMMENDED_M_COST_KIB) || (kc_t_cost k <? MIN_RECOMMENDED_T_COST).

Definition kdf_params_from (k : KdfConfig) : KdfParams :=
  {| m_cost_kib := kc_m_cost_kib k; t_cost := kc_t_cost k; p_cost := kc_p_cost k |}.

Definition kdf_config_default : KdfConfig :=
  {| kc_m_cost_kib := m_cost_kib kdf_default; kc_t_cost := t_cost kdf_default; kc_p_cost := p_cost kdf_default |}.

Record VaultConfig : Type := { vc_dir : str; vc_auto_lock_after : Z; vc_lock_memory : bool; vc_locked_search : bool }.

(** The configuration; [[gpg]] is carried through as it was read. *)
Record Config (G : Type) : Type := { cf_vault : VaultConfig; cf_pinentry : str; cf_kdf : KdfConfig; cf_gpg : G }.
Arguments cf_vault {G}. Arguments cf_pinentry {G}. Arguments cf_kdf {G}. Arguments cf_gpg {G}.

Inductive ConfigError : Type := CfRead (path : str) (e : io_error) | CfParse | CfUnusableKdf (e : CryptoError).

Section environment.
(** [std::env::var_os], set to text. *)
Context (var : str -> option str).

Definition home_dir : str := default (lit "/") (var (lit "HOME")).

Definition xdg_value (value : option str) (fallback : str) : str :=
  match value with
  | Some (c :: v) => c :: v
  | _ => path_push home_dir fallback
  end.

Definition data_dir : str := path_push (xdg_value (var (lit "XDG_DATA_HOME")) (lit ".local/share")) (lit "secret-manager").

Definition config_file : str :=
  path_push (path_push (xdg_value (var (lit "XDG_CONFIG_HOME")) (lit ".config")) (lit "secret-manager")) (lit "config.toml").

Definition runtime_dir_from (value : option str) : option str :=
  match value with
  | Some (c :: v) => Some (path_push (c :: v) (lit "secret-manager"))
  | _ => None
  end.

Definition runtime_dir : option str := runtime_dir_from (var (lit "XDG_RUNTIME_DIR")).

(** [Path::strip_prefix]: a whole component. *)
Definition expand_tilde (p : str) : str :=
  match p with
  | [126] => path_push home_dir []
  | 126 :: 47 :: rest => path_push home_dir (drop_while (fun c => c =? 47) rest)
  | _ => p
  end.

Definition vault_config_default : VaultConfig :=
  {| vc_dir := data_dir; vc_auto_lock_after := 15 * 60 * 1000000000; vc_lock_memory := false; vc_locked_search := true |}.

Definition prompt_default : str := default (lit "pinentry") (var (lit "PINENTRY")).

Context {G : Type} (gpg_default : G) (toml_config : str -> option (Config G)).

Definition config_default : Config G :=
  {| cf_vault := vault_config_default; cf_pinentry := prompt_default; cf_kdf := kdf_config_default; cf_gpg := gpg_default |}.

Definition config_from_str (text : str) : result (Config G) ConfigError :=
  match toml_config text with
  | None => Err CfParse
  | Some c =>
    let v := cf_vault c in
    let c := {| cf_vault := {| vc_dir := expand_tilde (vc_dir v); vc_auto_lock_after := vc_auto_lock_after v;
                               vc_lock_memory := vc_lock_memory v; vc_locked_search := vc_locked_search v |};
                cf_pinentry := cf_pinentry c; cf_kdf := cf_kdf c; cf_gpg := cf_gpg c |} in
    match validate (kdf_params_from (cf_kdf c)) with
    | Err e => Err (CfUnusableKdf e)
    | Ok _ => Ok c
    end
  end.

(** [load_from], over the answer of [read_to_string]. *)
Definition load_from (path : str) (text : result str io_error) : result (Config G) ConfigError :=
  match text with
  | Ok text => config_from_str text
  | Err e => if bool_decide (io_kind e = NotFound) then Ok config_default else Err (CfRead path e)
  end.

Definition config_path : str := match var (lit "SECRET_MANAGER_CONFIG") with Some p => p | None => config_file end.

Definition config_load (read : str -> result str io_error) : result (Config G) ConfigError := load_from config_path (read config_path).

(** ** What is loaded *)

(** A configuration that loads can be used: its KDF parameters are within
    the bounds every derivation checks, its vault directory is the one the file
    names with a leading [~] replaced by the home directory, and only a file
    that does not exist gives the defaults; an unreadable or malformed one is
    an error. *)
Theorem loaded_config_usable (read : str -> result str io_error) :
  match config_load read with
  | Ok c =>
    is_ok (validate (kdf_params_from (cf_kdf c))) = true
    /\ match read config_path with
       | Ok text => exists c0, toml_config text = Some c0 /\ cf_kdf c = cf_kdf c0 /\ vc_dir (cf_vault c) = expand_tilde (vc_dir (cf_vault c0))
       | Err e => io_kind e = NotFound /\ c = config_default
       end
  | Err (CfRead p e) => p = config_path /\ read config_path = Err e /\ io_kind e <> NotFound
  | Err CfParse => exists text, read config_path = Ok text /\ toml_config text = None
  | Err (CfUnusableKdf e) => exists text c0, read config_path = Ok text /\ toml_config text = Some c0 /\ validate (kdf_params_from (cf_kdf c0)) = Err e
  end.
Proof.
  unfold config_load, load_from. destruct (read config_path) as [text|e].
  - unfold config_from_str. destruct (toml_config text) as [c0|] eqn:Et; [|eauto].
    cbn [cf_kdf]. destruct (validate (kdf_params_from (cf_kdf c0))) as [u|e] eqn:Ev; [|by exists text, c0]. cbn. rewrite Ev. eauto.
  - case_bool_decide as Ek; [|done]. split; [|done]. by vm_compute.
Qed.
End environment.

(** ** The PAM module looks where the daemon does *)

Lemma path_push_plain p c q : 0 <= c < 128 -> c <> 47 ->
  path_push (p ++ [c]) q = p ++ [c] ++ [47] ++ q
  /\ utf8 (path_push (p ++ [c]) q) = join_bytes (utf8 (p ++ [c])) (utf8 q).
Proof.
  intros Hc Hs. assert (E : path_push (p ++ [c]) q = p ++ [c] ++ [47] ++ q).
  { unfold path_push. rewrite last_snoc. rewrite <- !app_assoc. cbn. destruct c as [|x|x]; try done. do 6 (destruct x as [x|x|]; try done). }
  split; [done|]. rewrite E, !utf8_app. unfold join_bytes.
  assert (Ec : utf8 [c] = [z2b c]) by (cbn; unfold encode_utf8; destruct (Z.ltb_spec c 128); [done|lia]).
  rewrite Ec, last_snoc. rewrite bool_decide_eq_false_2; [rewrite <- !app_assoc; done|].
  intros H. apply (f_equal b2z) in H. rewrite b2z_z2b, Z.mod_small in H by lia. change (b2z x2f) with 47 in H. lia.
Qed.

Lemma path_push_twice p a x b : 0 <= x < 128 -> x <> 47 -> path_push (path_push p (a ++ [x])) b = path_push p (a ++ [x] ++ [47] ++ b).
Proof.
  intros Hx Hs.
  assert (E : forall z, path_push (z ++ a ++ [x]) b = z ++ a ++ [x] ++ [47] ++ b).
  { intros z. rewrite app_assoc. rewrite (proj1 (path_push_plain _ _ _ Hx Hs)), <- !app_assoc. done. }
  unfold path_push at 2 3. destruct (last p) as [c|]; [|exact (E [])].
  assert (Hcase : c = 47 \/ c <> 47) by lia. destruct Hcase as [->|Hc]; [exact (E p)|].
  assert (forall X Y : str, match c with 47 => X | _ => Y end = Y) as Hm.
  { intros X Y. destruct c as [|y|y]; try done. do 6 (destruct y as [y|y|]; try done). }
  rewrite !Hm. specialize (E (p ++ [47])). rewrite <- !app_assoc in E. exact E.
Qed.

Lemma utf8_push_twice q c a x b : 0 <= c < 128 -> c <> 47 -> 0 <= x < 128 -> x <> 47 ->
  utf8 (path_push (path_push (q ++ [c]) (a ++ [x])) b) = join_bytes (join_bytes (utf8 (q ++ [c])) (utf8 (a ++ [x]))) (utf8 b).
Proof.
  intros Hc Hc' Hx Hx'. destruct (path_push_plain q c (a ++ [x]) Hc Hc') as [P1 P2].
  pose proof (proj2 (path_push_plain (q ++ [c] ++ [47] ++ a) x b Hx Hx')) as P3. rewrite <- !app_assoc in P3.
  rewrite <- P2, P1. exact P3.
Qed.

Lemma ends_with_digit p n : u64 n -> exists q c, p ++ dec n = q ++ [c] /\ 0 <= c < 128 /\ c <> 47.
Proof.
  intros Hn. destruct (dec_spec n Hn) as (Hne & _ & Hd). destruct (dec n) as [|c0 d _] using rev_ind; [done|].
  apply Forall_app in Hd as [_ Hd]. apply Forall_cons in Hd as [Hc _]. apply in_range_spec in Hc.
  exists (p ++ d), c0. rewrite app_assoc. split; [done|lia].
Qed.

(** With nothing configured and the usual environment, a home from the
    passwd database and a runtime directory made by logind, the login hook
    looks for vaults in the directory the daemon keeps them in and for the
    daemon at the socket it listens on. *)
Theorem login_finds_daemon `{M : Machine} (var : str -> option str) (user home : str) (uid : Z) (o : Options) (s : login) :
  u64 uid -> 0 ∉ user -> path_is_absolute home = true -> m_getpwnam s user 16384 = PwEntry uid (Some home) ->
  o_vault_dir o = None -> o_socket o = None ->
  var (lit "HOME") = Some home -> var (lit "XDG_DATA_HOME") = None -> var (lit "XDG_RUNTIME_DIR") = Some (lit "/run/user/" ++ dec uid) ->
  exists t, fst (target_for user o s) = Some t /\ tg_uid t = uid
    /\ socket_path_from (utf8 <$> var (lit "XDG_RUNTIME_DIR")) = Ok (utf8 (tg_sock t)) /\ tg_vault_dir t = data_dir var.
Proof.
  intros Hn Hu Hh Hpw Hv Hs E1 E2 E3.
  assert (Et : fst (target_for user o s) = Some {| tg_sock := runtime_socket uid; tg_uid := uid; tg_vault_dir := path_push home DEFAULT_VAULT_SUBDIR |}).
  { unfold target_for, user_info, lbind, c_string, ask, lret. rewrite bool_decide_eq_false_2 by done. rewrite Hpw. cbn [fst]. rewrite Hh, Hs, Hv. done. }
  eexists. split; [exact Et|]. cbn [tg_uid tg_sock tg_vault_dir]. split; [done|]. split.
  - rewrite E3. cbn [fmap option_fmap option_map]. unfold runtime_socket.
    destruct (ends_with_digit (lit "/run/user/") uid Hn) as (q & c & -> & Hc & Hc').
    pose proof (utf8_push_twice q c (lit "secret-manage") 114 (lit "control.sock") Hc Hc' ltac:(done) ltac:(done)) as P.
    change (lit "secret-manage" ++ [114]) with (lit "secret-manager") in P. rewrite P. unfold socket_path_from, socket_path_for_runtime_dir.
    rewrite utf8_app. destruct (utf8 q ++ utf8 [c]) eqn:E; [|done]. apply app_nil in E as [_ E]. cbn in E. rewrite app_nil_r in E.
    by destruct (encode_utf8_nonempty c).
  - unfold data_dir. rewrite E2. unfold xdg_value, home_dir. rewrite E1. cbn [default].
    exact (eq_sym (path_push_twice home (lit ".local/shar") 101 (lit "secret-manager") ltac:(done) ltac:(done))).
Qed.
