(* ===== verification/Gpg.v ===== *)
(** * The gpg-agent preset ([src/gpg.rs], [src/dbus/gpg_preset.rs])

    Which keys a keyring lists, which enrolled passphrases go to which key, and
    the commands that reach the agent; the choice of a key by [sm gpg enroll]
    ([pick_key] of [src/cli/gpg.rs]).

    The helper programs answer through the class [Helpers]: what a child writes,
    whether it succeeds and how long it would take, each as any function of
    everything that happened before.  A child whose output does not fit the pipe
    blocks until somebody reads it, as [pipe(7)] says.  Unicode's case tables
    and the replacement of invalid UTF-8 are parameters that leave ASCII and
    valid text alone. *)
From S2P Require Import Prelude Text Env Crypto Codec Format Sanitize Names Files Sweep Store Aliases Session State Protocol Daemon KWallet Gnome Pam.

Definition GPG_SCHEMA : str := lit "org.secret-manager.gpg".
Definition CHILD_TIMEOUT : Z := 30 * 1000000000.
Definition F_VALIDITY : nat := 1.
Definition F_CAPABILITY : nat := 11.
Definition F_VALUE : nat := 9.

(** [str::to_uppercase], [String::from_utf8_lossy]. *)
Class Unicode : Type := { upper_char : char -> str; from_utf8_lossy : bytes -> str }.

Definition ascii_upper (c : char) : char := if is_ascii_lowercase c then c - 32 else c.

Class UnicodeOk (U : Unicode) : Prop := {
  upper_ascii c : 0 <= c < 128 -> upper_char c = [ascii_upper c];
  lossy_valid s : str_wf s -> from_utf8_lossy (utf8 s) = s
}.

Definition is_ascii_hexdigit (c : char) : bool := is_ascii_digit c || in_range 65 70 c || in_range 97 102 c.
Definition is_hex40 (s : str) : bool := (str_len s =? 40) && forallb is_ascii_hexdigit s.

Record GpgConfig : Type :=
  { gc_enabled : bool; gc_homedir : option str; gc_gpg_bin : str; gc_agent_bin : str; gc_keys : list str }.

Record SecretKey : Type := { sk_fpr : str; sk_grip : str }.
Record Bins : Type := { bn_gpg : str; bn_agent : str; bn_homedir : str }.

Definition effective_homedir_with (configured : option str) (getenv : str -> option str) (home : str) : str :=
  let nonempty (o : option str) := match o with Some [] => None | o => o end in
  match nonempty configured with
  | Some d => d
  | None => match nonempty (getenv (lit "GNUPGHOME")) with
            | Some h => h
            | None => path_push home (lit ".gnupg")
            end
  end.

Definition bins_from_config (cfg : GpgConfig) (getenv : str -> option str) (home : str) : Bins :=
  {| bn_gpg := gc_gpg_bin cfg; bn_agent := gc_agent_bin cfg;
     bn_homedir := effective_homedir_with (gc_homedir cfg) getenv home |}.

Definition bins_from_env (getenv : str -> option str) (home : str) : Bins :=
  {| bn_gpg := lit "gpg"; bn_agent := lit "gpg-connect-agent"; bn_homedir := effective_homedir_with None getenv home |}.

Definition key_query (longid : str) : gmap str str :=
  {[ lit "xdg:schema" := GPG_SCHEMA; lit "keyid" := longid ]}.

Section unicode.
Context `{U : Unicode}.

Definition to_uppercase (s : str) : str := flat_map upper_char s.

(** The last sixteen bytes, where they start a character. *)
Definition sk_longid (k : SecretKey) : str :=
  let b := utf8 (sk_fpr k) in
  to_uppercase (default (sk_fpr k) (from_utf8 (drop (length b - 16) b))).

Definition colons_line (acc : list SecretKey * bool * option str) (line : str) : list SecretKey * bool * option str :=
  let '(out, sign, fpr) := acc in
  let f := split_on 58 line in
  match f with
  | kind :: _ =>
    if str_eqb kind (lit "sec") || str_eqb kind (lit "ssb") then
      let valid := negb (match f !! F_VALIDITY with
                         | Some v => str_eqb v (lit "e") || str_eqb v (lit "r")
                         | None => false
                         end) in
      let sign := valid && match f !! F_CAPABILITY with Some c => existsb (Z.eqb 115) c | None => false end in
      (out, sign, None)
    else if str_eqb kind (lit "fpr") then
      match fpr, f !! F_VALUE with
      | None, Some fp => if is_hex40 fp then (out, sign, Some (to_uppercase fp)) else acc
      | _, _ => acc
      end
    else if str_eqb kind (lit "grp") then
      let grip := default [] (f !! F_VALUE) in
      match fpr with
      | Some fp => if sign && is_hex40 grip
                   then (out ++ [{| sk_fpr := fp; sk_grip := to_uppercase grip |}], false, None)
                   else (out, false, None)
      | None => (out, false, None)
      end
    else acc
  | [] => acc
  end.

Definition parse_colons (text : str) : list SecretKey := fst (fst (fold_left colons_line (lines text) ([], false, None))).

Definition normalize_id (input : str) : option str :=
  let norm := to_uppercase (match strip_prefix (lit "0x") input with
                            | Some r => r
                            | None => default input (strip_prefix (lit "0X") input)
                            end) in
  if negb (forallb is_ascii_hexdigit norm) then None
  else if str_len norm =? 40 then Some (drop 24 norm)
  else if str_len norm =? 16 then Some norm
  else None.

Definition keyid_matches (input fpr : str) : bool :=
  match normalize_id input with
  | Some norm => if strip_suffix norm (to_uppercase fpr) then true else false
  | None => false
  end.

Definition key_allowed (filter : list str) (longid : str) : bool :=
  match filter with
  | [] => true
  | _ => match normalize_id longid with
         | None => false
         | Some want => existsb (fun f => str_eqb f want) (omap normalize_id filter)
         end
  end.

Definition same_enrollment (a b : str) : bool :=
  match normalize_id a, normalize_id b with
  | Some x, Some y => str_eqb x y
  | _, _ => str_eqb a b
  end.

(** The pairs so far, and the warnings. *)
Fixpoint collect_enrolled (items : list Item) (filter : list str) (pairs : list (str * bytes)) (warnings : list str)
  : list (str * bytes) * list str :=
  match items with
  | [] => (pairs, warnings)
  | item :: items =>
    match attributes item !! lit "xdg:schema", attributes item !! lit "keyid" with
    | Some schema, Some keyid =>
      if negb (str_eqb schema GPG_SCHEMA) || negb (key_allowed filter keyid) || bool_decide (secret item = [])
      then collect_enrolled items filter pairs warnings
      else if existsb (fun '(k, _) => same_enrollment k keyid) pairs
      then collect_enrolled items filter pairs (warnings ++ [keyid ++ lit " enrolled twice; using the first"])
      else collect_enrolled items filter (pairs ++ [(keyid, secret item)]) warnings
    | _, _ => collect_enrolled items filter pairs warnings
    end
  end.

(** ** The helper programs *)

Inductive GpgError : Type := GMissing (bin : str) | GFailed (message : str).

Definition gpg_error_display (e : GpgError) : str :=
  match e with GMissing bin => bin ++ lit " not found on PATH" | GFailed m => m end.

(** A child: what it writes before it exits, whether it exits well, and when. *)
Record proc : Type := { pc_out : bytes; pc_err : bytes; pc_ok : bool; pc_took : Z }.

Record desk : Type := Desk { dk_clock : Z; dk_turn : nat; dk_sent : list bytes }.

Class Helpers : Type := {
  hp_gpg : Bins -> desk -> result proc io_error;
  hp_agent : Bins -> desk -> result proc io_error;
  hp_write : desk -> option io_error;          (** a failed write to the agent *)
  hp_try_wait : desk -> option io_error;
  hp_output : desk -> option io_error;
  hp_text : io_error -> str;
  hp_status : desk -> str;
  hp_var : str -> option str;
  hp_home : str
}.

(** The capacity of a pipe. *)
Definition PIPE_CAPACITY : Z := 65536.
Definition WAIT_TICK : Z := 10 * 1000000.

Section helpers.
Context `{H : Helpers}.

Definition dm (A : Type) : Type := desk -> A * desk.

Definition tick_desk (d : desk) : desk := Desk (dk_clock d) (S (dk_turn d)) (dk_sent d).
Definition sleep_desk (n : Z) (d : desk) : desk := Desk (dk_clock d + n) (S (dk_turn d)) (dk_sent d).

(** Gone by now: nobody reads its output while it runs. *)
Definition has_exited (c : proc) (elapsed : Z) : bool :=
  (zlen (pc_out c) <=? PIPE_CAPACITY) && (zlen (pc_err c) <=? PIPE_CAPACITY) && (pc_took c <=? elapsed).

Definition wait_step (c : proc) (what : str) (start timeout : Z) (d : desk) : desk + (result proc GpgError * desk) :=
  match hp_try_wait d with
  | Some e => inr (Err (GFailed (lit "cannot wait for " ++ what ++ lit ": " ++ hp_text e)), tick_desk d)
  | None =>
    if has_exited c (dk_clock d - start) then
      match hp_output d with
      | Some e => inr (Err (GFailed (lit "cannot read " ++ what ++ lit " output: " ++ hp_text e)), tick_desk d)
      | None => inr (Ok c, tick_desk d)
      end
    else if timeout <=? dk_clock d - start
    then inr (Err (GFailed (what ++ lit " timed out after " ++ dec (timeout / 1000000000) ++ lit "s")), tick_desk d)
    else inl (sleep_desk WAIT_TICK d)
  end.

(** Ticks enough to see the timeout pass. *)
Definition ticks (timeout : Z) : positive := Z.to_pos (timeout / WAIT_TICK + 3).

Definition wait_bounded_with (c : proc) (what : str) (timeout : Z) : dm (result proc GpgError) :=
  fun d => match iter_until (ticks timeout) (wait_step c what (dk_clock d) timeout) d with
           | inr r => r
           | inl d => (Err (GFailed []), d)
           end.

Definition wait_bounded (c : proc) (what : str) : dm (result proc GpgError) := wait_bounded_with c what CHILD_TIMEOUT.

Definition spawn_error (verb program : str) (e : io_error) : GpgError :=
  if bool_decide (io_kind e = NotFound) then GMissing program else GFailed (lit "cannot " ++ verb ++ [32] ++ program ++ lit ": " ++ hp_text e).

Definition discover (bins : Bins) : dm (result (list SecretKey) GpgError) :=
  fun d =>
    match hp_gpg bins d with
    | Err e => (Err (spawn_error (lit "run") (bn_gpg bins) e), tick_desk d)
    | Ok c =>
      match wait_bounded c (lit "gpg -K") (tick_desk d) with
      | (Err e, d) => (Err e, d)
      | (Ok out, d) =>
        if pc_ok out then (Ok (parse_colons (from_utf8_lossy (pc_out out))), d)
        else
          let detail := trim (from_utf8_lossy (pc_err out)) in
          (Err (GFailed (match detail with
                         | [] => lit "gpg -K failed with status " ++ hp_status d
                         | _ => escape_control detail
                         end)), d)
      end
    end.

Definition preset_command (keygrip : str) (passphrase : bytes) : str :=
  lit "PRESET_PASSPHRASE " ++ keygrip ++ lit " -1 " ++ hex passphrase ++ [10] ++ lit "BYE" ++ [10].

(** Standard error sent to the null device. *)
Definition no_stderr (c : proc) : proc := {| pc_out := pc_out c; pc_err := []; pc_ok := pc_ok c; pc_took := pc_took c |}.

Definition starts_err (l : str) : bool := if strip_prefix (lit "ERR") l then true else false.

Definition preset_one (bins : Bins) (keygrip : str) (passphrase : bytes) : dm (result unit GpgError) :=
  fun d =>
    if negb (is_hex40 keygrip) then (Err (GFailed (lit "refusing to preset into a non-hex keygrip")), d)
    else
      match hp_agent bins d with
      | Err e => (Err (spawn_error (lit "start") (bn_agent bins) e), tick_desk d)
      | Ok c =>
        let d := tick_desk d in
        let fault := hp_write d in
        let d := Desk (dk_clock d) (S (dk_turn d)) (dk_sent d ++ [utf8 (preset_command keygrip passphrase)]) in
        match fault with
        | Some e => (Err (GFailed (lit "cannot talk to gpg-agent: " ++ hp_text e)), d)
        | None =>
          match wait_bounded (no_stderr c) (lit "gpg-connect-agent") d with
          | (Err e, d) => (Err e, d)
          | (Ok out, d) =>
            let reply := lines (from_utf8_lossy (pc_out out)) in
            if negb (pc_ok out) || existsb starts_err reply then
              let first := default [] (escape_control <$> find starts_err reply) in
              (Err (GFailed (lit "gpg-agent refused PRESET_PASSPHRASE (" ++ first
                            ++ lit "); add `allow-preset-passphrase` to gpg-agent.conf and run `gpg-connect-agent reloadagent /bye`")), d)
            else (Ok tt, d)
          end
        end
      end.

Fixpoint preset_pairs (bins : Bins) (keys : list SecretKey) (pairs : list (str * bytes)) (done : nat) (failed : list str)
  : dm (nat * list str) :=
  match pairs with
  | [] => fun d => ((done, failed), d)
  | (longid, sec) :: pairs =>
    match sec with
    | [] => preset_pairs bins keys pairs done failed
    | _ =>
      match (let! want := normalize_id longid in find (fun k => str_eqb (sk_longid k) want) keys) with
      | None => preset_pairs bins keys pairs done failed
      | Some key => fun d =>
        match preset_one bins (sk_grip key) sec d with
        | (Ok _, d) => preset_pairs bins keys pairs (S done) failed d
        | (Err e, d) => preset_pairs bins keys pairs done (failed ++ [longid ++ lit ": " ++ gpg_error_display e]) d
        end
      end
    end
  end.

Definition preset_enrolled (bins : Bins) (pairs : list (str * bytes)) : dm (nat * list str) :=
  fun d => match discover bins d with
           | (Err e, d) => ((0%nat, [gpg_error_display e]), d)
           | (Ok keys, d) => preset_pairs bins keys pairs 0 [] d
           end.

(** *** The daemon's hook *)

Fixpoint collect_vaults (vaults : list (str * Vault)) (filter : list str) (pairs : list (str * bytes)) (warnings : list str)
  : list (str * bytes) * list str :=
  match vaults with
  | [] => (pairs, warnings)
  | (_, v) :: vaults =>
    match items v with
    | Ok its => let '(pairs, warnings) := collect_enrolled its filter pairs warnings in collect_vaults vaults filter pairs warnings
    | Err _ => collect_vaults vaults filter pairs warnings
    end
  end.

Definition run_preset (cfg : GpgConfig) (st : ServiceState) : dm (nat * list str) :=
  fun d =>
    if negb (gc_enabled cfg) then ((0%nat, []), d)
    else
      let '(pairs, _) := collect_vaults (all_vaults st) (gc_keys cfg) [] [] in
      preset_enrolled (bins_from_config cfg hp_var hp_home) pairs d.

Definition note_unlocked (cfg : GpgConfig) (st : ServiceState) : dm unit :=
  fun d => if gc_enabled cfg then (tt, snd (run_preset cfg st d)) else (tt, d).
End helpers.

(** *** The choice of a key *)

Inductive pick_error : Type := NoKeyMatches (id : str) | SeveralMatch (id : str) | NoKeys | ManyKeys.

Definition pick_key (keys : list SecretKey) (wanted : option str) : result SecretKey pick_error :=
  match wanted with
  | Some id =>
    match List.filter (fun k => keyid_matches id (sk_fpr k)) keys with
    | [one] => Ok one
    | [] => Err (NoKeyMatches id)
    | _ :: _ :: _ => Err (SeveralMatch id)
    end
  | None =>
    match keys with
    | [one] => Ok one
    | [] => Err NoKeys
    | _ :: _ :: _ => Err ManyKeys
    end
  end.
End unicode.
