(* ===== verification/GpgProps.v ===== *)
(** * What reaches the gpg agent

    A passphrase goes to its own key only, in a command nothing can be spliced
    into, and no helper holds a caller past its limit; what a keyring listing
    yields; two ways the helpers fall short. *)
From S2P Require Import Prelude Text Env Crypto Codec Format Sanitize Names Files Sweep Store Aliases Session State Protocol Daemon KWallet Gnome Pam Gpg.

(** ** Hexadecimal *)

Definition hexdigit (c : char) : Prop := is_ascii_hexdigit c = true.

Lemma hexdigit_range c : hexdigit c -> 48 <= c <= 57 \/ 65 <= c <= 70 \/ 97 <= c <= 102.
Proof. unfold hexdigit, is_ascii_hexdigit, is_ascii_digit, in_range. lia. Qed.

Lemma ascii_str_len s : Forall (fun c => 0 <= c < 128) s -> str_len s = Z.of_nat (length s).
Proof. intros Hs. unfold str_len, zlen. by rewrite utf8_ascii, length_map. Qed.

Lemma is_hex40_spec s : is_hex40 s = true <-> length s = 40%nat /\ Forall hexdigit s.
Proof.
  unfold is_hex40. rewrite andb_true_iff, Z.eqb_eq.
  assert (Hf : forallb is_ascii_hexdigit s = true <-> Forall hexdigit s) by (rewrite forallb_forall, Forall_forall; by setoid_rewrite list_elem_of_In).
  rewrite Hf. split; intros [Hl Hx]; (split; [|done]);
    (rewrite ascii_str_len in *; [lia|]; eapply Forall_impl; [exact Hx|]; intros c ?%hexdigit_range; lia).
Qed.

Lemma upper_hexdigit c : hexdigit c -> hexdigit (ascii_upper c).
Proof. intros Hc%hexdigit_range. unfold hexdigit, ascii_upper, is_ascii_hexdigit, is_ascii_digit, is_ascii_lowercase, in_range. repeat case_match; lia. Qed.

Section unicode.
Context `{U : Unicode} `{!UnicodeOk U}.

Lemma to_uppercase_ascii s : Forall (fun c => 0 <= c < 128) s -> to_uppercase s = map ascii_upper s.
Proof. unfold to_uppercase. induction 1 as [|c s Hc _ IH]; [done|]. cbn. by rewrite upper_ascii, IH. Qed.

Lemma hex_ascii s : Forall hexdigit s -> Forall (fun c => 0 <= c < 128) s.
Proof. intros H. eapply Forall_impl; [exact H|]. intros c ?%hexdigit_range. lia. Qed.

Lemma upper_hex40 s : is_hex40 s = true -> is_hex40 (to_uppercase s) = true.
Proof.
  intros [Hl Hx]%is_hex40_spec. rewrite to_uppercase_ascii by (by apply hex_ascii). apply is_hex40_spec.
  rewrite length_map. split; [done|]. apply Forall_map. eapply Forall_impl; [exact Hx|]. apply upper_hexdigit.
Qed.

(** ** Listings *)

Definition key_ok (k : SecretKey) : Prop := is_hex40 (sk_fpr k) = true /\ is_hex40 (sk_grip k) = true.

Definition colons_ok (acc : list SecretKey * bool * option str) : Prop :=
  Forall key_ok (fst (fst acc)) /\ match snd acc with Some fp => is_hex40 fp = true | None => True end.

Lemma colons_line_ok acc line : colons_ok acc -> colons_ok (colons_line acc line).
Proof.
  destruct acc as [[out sign] fpr]. intros Hacc. assert (Hacc' := Hacc). destruct Hacc' as [Ho Hf]. cbn in Ho, Hf. unfold colons_line.
  destruct (split_on 58 line) as [|kind f] eqn:E; [exact Hacc|]. rewrite <- E.
  destruct (_ || _); [by split|]. destruct (str_eqb kind (lit "fpr")).
  - destruct fpr as [fp|]; [exact Hacc|]. destruct (split_on 58 line !! F_VALUE) as [fp|]; [|exact Hacc].
    destruct (is_hex40 fp) eqn:Eh; [|exact Hacc]. split; [done|]. by apply upper_hex40.
  - destruct (str_eqb kind (lit "grp")); [|exact Hacc]. destruct fpr as [fp|]; [|by split].
    destruct sign; [|by split]. cbn [andb]. destruct (is_hex40 (default [] (split_on 58 line !! F_VALUE))) eqn:Eh; [|by split]. split; [|exact I]. cbn. apply Forall_app. split; [done|].
    constructor; [|done]. split; [done|]. by apply upper_hex40.
Qed.

Lemma parse_colons_ok text : Forall key_ok (parse_colons text).
Proof.
  unfold parse_colons. assert (H : colons_ok ([], false, None)) by (split; [constructor|done]). revert H. generalize (([], false, None) : list SecretKey * bool * option str).
  induction (lines text) as [|l ls IH]; intros acc Hacc; cbn; [apply Hacc|]. by apply IH, colons_line_ok.
Qed.
End unicode.

(** ** Waiting *)

Section waiting.
Context `{H : Helpers}.

Lemma wait_bounded_spec c what timeout d r d' : 0 <= timeout -> wait_bounded_with c what timeout d = (r, d') ->
  dk_sent d' = dk_sent d /\ dk_clock d <= dk_clock d' <= dk_clock d + timeout + WAIT_TICK
  /\ (forall out, r = Ok out -> out = c /\ has_exited c (dk_clock d' - dk_clock d) = true).
Proof.
  intros Ht. unfold wait_bounded_with. set (st := dk_clock d). assert (HW : 0 < WAIT_TICK) by done.
  pose (Inv := fun x : desk => dk_sent x = dk_sent d /\ st <= dk_clock x <= st + timeout + WAIT_TICK).
  pose (Post := fun r : result proc GpgError * desk => Inv (snd r) /\ forall out, fst r = Ok out -> out = c /\ has_exited c (dk_clock (snd r) - st) = true).
  assert (Hround : forall x, Inv x -> match wait_step c what st timeout x with inl x' => Inv x' | inr r => Post r end).
  { intros x [Hs Hc]. unfold wait_step. destruct (hp_try_wait x); [by split|].
    destruct (has_exited c (dk_clock x - st)) eqn:Ex.
    - destruct (hp_output x); split; [by split|done|by split|]. cbn. by intros out [= <-].
    - destruct (Z.leb_spec timeout (dk_clock x - st)); [by split|]. split; [done|]. cbn. lia. }
  assert (H0 : Inv d) by (split; [done|]; unfold st; lia).
  pose proof (iter_until_inv (wait_step c what st timeout) Inv Post (ticks timeout) d Hround H0) as Hi.
  destruct (iter_until (ticks timeout) (wait_step c what st timeout) d) as [x|[r0 x]].
  - intros [= <- <-]. destruct Hi as [? ?]. split_and!; [done|lia|lia|done].
  - intros [= -> ->]. destruct Hi as [[? ?] Hp]. cbn in *. split_and!; [done|lia|lia|done].
Qed.

(** The ticks are enough. *)
Lemma wait_ends c what timeout d : 0 <= timeout -> exists r, iter_until (ticks timeout) (wait_step c what (dk_clock d) timeout) d = inr r.
Proof.
  intros Ht. assert (HW : 0 < WAIT_TICK) by done. set (st := dk_clock d).
  apply (iter_until_ends (wait_step c what st timeout) (fun _ => True) (fun x => Z.max 0 ((timeout - (dk_clock x - st)) / WAIT_TICK + 1))); [| |done|].
  - intros a a' _ E. unfold wait_step in E. destruct (hp_try_wait a); [done|]. destruct (has_exited _ _); [by destruct (hp_output a)|].
    destruct (Z.leb_spec timeout (dk_clock a - st)); [done|]. injection E as <-. split; [done|]. cbn.
    replace (timeout - (dk_clock a + WAIT_TICK - st)) with (timeout - (dk_clock a - st) + (-1) * WAIT_TICK) by lia.
    rewrite Z.div_add by lia. pose proof (Z.div_pos (timeout - (dk_clock a - st)) WAIT_TICK). lia.
  - intros a _. lia.
  - unfold ticks, st. rewrite Z.sub_diag, Z.sub_0_r. pose proof (Z.div_pos timeout WAIT_TICK Ht HW). rewrite Z2Pos.id by lia. lia.
Qed.
End waiting.

(** ** Presetting *)

Section preset.
Context `{U : Unicode} `{!UnicodeOk U} `{H : Helpers}.

Definition one_wait : Z := CHILD_TIMEOUT + WAIT_TICK.

Lemma discover_spec bins d r d' : discover bins d = (r, d') ->
  dk_sent d' = dk_sent d /\ dk_clock d <= dk_clock d' <= dk_clock d + one_wait
  /\ (forall keys, r = Ok keys -> exists text, keys = parse_colons text).
Proof.
  assert (HW : 0 <= one_wait) by done. unfold discover. destruct (hp_gpg bins d) as [c|e].
  2: { intros [= <- <-]. cbn. split_and!; [done|lia|lia|done]. }
  destruct (wait_bounded c (lit "gpg -K") (tick_desk d)) as [[out|e] d1] eqn:E; apply wait_bounded_spec in E as (Hs & Hc & _); try done; cbn in Hs, Hc; unfold one_wait in *.
  - destruct (pc_ok out); intros [= <- <-]; (split_and!; [done|lia|lia|]); [|done]. intros keys [= <-]. eauto.
  - intros [= <- <-]. split_and!; [done|lia|lia|done].
Qed.

Lemma preset_one_spec bins grip sec d r d' : preset_one bins grip sec d = (r, d') ->
  dk_clock d <= dk_clock d' <= dk_clock d + one_wait
  /\ ((dk_sent d' = dk_sent d /\ r <> Ok tt) \/ (is_hex40 grip = true /\ dk_sent d' = dk_sent d ++ [utf8 (preset_command grip sec)])).
Proof.
  assert (HW : 0 <= one_wait) by done. unfold preset_one. destruct (is_hex40 grip) eqn:Eg; cbn [negb].
  2: { intros [= <- <-]. split; [lia|]. by left. }
  destruct (hp_agent bins d) as [c|e]; [|intros [= <- <-]; cbn; split; [lia|by left]].
  destruct (hp_write (tick_desk d)) as [e|]; [intros [= <- <-]; cbn; split; [lia|by right]|]. cbn [dk_clock dk_turn dk_sent tick_desk].
  match goal with |- context [wait_bounded ?c1 ?w ?d1] => destruct (wait_bounded c1 w d1) as [[out|e] d2] eqn:E end;
    apply wait_bounded_spec in E as (Hs & Hc & _); try done; cbn in Hs, Hc; unfold one_wait in *.
  - destruct (_ || _); intros [= <- <-]; (split; [lia|by right]).
  - intros [= <- <-]. split; [lia|by right].
Qed.

(** A command that feeds the passphrase of a pair to the key it names. *)
Definition feeds (keys : list SecretKey) (pairs : list (str * bytes)) (cmd : bytes) : Prop :=
  exists longid sec key, (longid, sec) ∈ pairs /\ sec <> [] /\ key ∈ keys /\ is_hex40 (sk_grip key) = true
    /\ normalize_id longid = Some (sk_longid key) /\ cmd = utf8 (preset_command (sk_grip key) sec).

Lemma feeds_more keys pairs p cmd : feeds keys pairs cmd -> feeds keys (p :: pairs) cmd.
Proof. intros (l & x & k & Hin & ?). exists l, x, k. split; [by right|done]. Qed.

Lemma preset_pairs_spec bins keys pairs n failed d n' failed' d' : preset_pairs bins keys pairs n failed d = ((n', failed'), d') ->
  exists cmds, dk_sent d' = dk_sent d ++ cmds /\ Forall (feeds keys pairs) cmds
    /\ (n' <= n + length cmds)%nat /\ (length cmds <= length pairs)%nat
    /\ dk_clock d <= dk_clock d' <= dk_clock d + Z.of_nat (length pairs) * one_wait.
Proof.
  assert (HW : 0 <= one_wait) by done. revert n failed d. induction pairs as [|[longid sec] pairs IH]; intros n failed d; cbn [preset_pairs].
  { intros [= <- <- <-]. exists []. rewrite app_nil_r. split_and!; [done|constructor|cbn; lia|done|lia|lia]. }
  assert (Hskip : preset_pairs bins keys pairs n failed d = ((n', failed'), d') ->
    exists cmds, dk_sent d' = dk_sent d ++ cmds /\ Forall (feeds keys ((longid, sec) :: pairs)) cmds
    /\ (n' <= n + length cmds)%nat /\ (length cmds <= length ((longid, sec) :: pairs))%nat
    /\ dk_clock d <= dk_clock d' <= dk_clock d + Z.of_nat (length ((longid, sec) :: pairs)) * one_wait).
  { intros (cmds & ? & Hf & ? & ? & ?)%IH. exists cmds. cbn [length]. split_and!; [done| |done|lia|lia|lia].
    eapply Forall_impl; [exact Hf|]. intros c. apply feeds_more. }
  destruct sec as [|b sec]; [exact Hskip|]. destruct (normalize_id longid) as [want|] eqn:En; [|exact Hskip]. cbn.
  destruct (find (fun k => str_eqb (sk_longid k) want) keys) as [key|] eqn:Ef; [|exact Hskip].
  apply find_some in Ef as [Hin Ek%str_eqb_eq]. apply list_elem_of_In in Hin.
  destruct (preset_one bins (sk_grip key) (b :: sec) d) as [r d1] eqn:E1. apply preset_one_spec in E1 as (Hc1 & Hs1).
  assert (Hrest : forall m fl, (m <= n + match r with Ok _ => 1 | Err _ => 0 end)%nat -> preset_pairs bins keys pairs m fl d1 = ((n', failed'), d') ->
    exists cmds, dk_sent d' = dk_sent d ++ cmds /\ Forall (feeds keys ((longid, b :: sec) :: pairs)) cmds
    /\ (n' <= n + length cmds)%nat /\ (length cmds <= S (length pairs))%nat
    /\ dk_clock d <= dk_clock d' <= dk_clock d + Z.of_nat (S (length pairs)) * one_wait).
  { intros m fl Hm (cmds & Es & Hf & Hn & Hl & Hc)%IH.
    assert (Hmore : Forall (feeds keys ((longid, b :: sec) :: pairs)) cmds) by (eapply Forall_impl; [exact Hf|]; intros c; apply feeds_more).
    destruct Hs1 as [[Hs1 Hr]|[Hg Hs1]].
    - exists cmds. rewrite Es, Hs1. split_and!; [done|done| |lia|lia|lia]. destruct r as [[]|e]; [done|lia].
    - exists (utf8 (preset_command (sk_grip key) (b :: sec)) :: cmds). rewrite Es, Hs1, <- app_assoc. cbn [length].
      split_and!; [done| |destruct r; lia|lia|lia|lia]. constructor; [|done].
      exists longid, (b :: sec), key. split_and!; [by left|done|done|done|by rewrite En, Ek|done]. }
  destruct r as [[]|e]; apply Hrest; lia.
Qed.

(** Where a pair comes from. *)
Definition enrolled_in (filter : list str) (its : list Item) (p : str * bytes) : Prop :=
  exists i, i ∈ its /\ attributes i !! lit "xdg:schema" = Some GPG_SCHEMA /\ attributes i !! lit "keyid" = Some (fst p)
    /\ key_allowed filter (fst p) = true /\ secret i = snd p /\ snd p <> [].

Lemma collect_enrolled_spec its filter pairs warnings pairs' warnings' : collect_enrolled its filter pairs warnings = (pairs', warnings') ->
  exists more, pairs' = pairs ++ more /\ Forall (enrolled_in filter its) more
    /\ (forall p q, p ∈ pairs -> q ∈ more -> same_enrollment (fst p) (fst q) = false).
Proof.
  revert pairs warnings. induction its as [|i its IH]; intros pairs warnings; cbn [collect_enrolled].
  { intros [= <- <-]. exists []. rewrite app_nil_r. split_and!; [done|constructor|]. set_solver. }
  assert (Hweak : forall more, Forall (enrolled_in filter its) more -> Forall (enrolled_in filter (i :: its)) more).
  { intros more Hm. eapply Forall_impl; [exact Hm|]. intros p (j & ? & ?). exists j. split; [by right|done]. }
  assert (Hskip : forall w, collect_enrolled its filter pairs w = (pairs', warnings') ->
    exists more, pairs' = pairs ++ more /\ Forall (enrolled_in filter (i :: its)) more
    /\ (forall p q, p ∈ pairs -> q ∈ more -> same_enrollment (fst p) (fst q) = false)).
  { intros w (more & ? & ? & ?)%IH. exists more. auto. }
  destruct (attributes i !! lit "xdg:schema") as [schema|] eqn:Es; [|apply Hskip].
  destruct (attributes i !! lit "keyid") as [keyid|] eqn:Ek; [|apply Hskip].
  destruct (str_eqb schema GPG_SCHEMA) eqn:E1; cbn [negb orb]; [|apply Hskip]. apply str_eqb_eq in E1 as ->.
  destruct (key_allowed filter keyid) eqn:E2; cbn [negb orb]; [|apply Hskip]. case_bool_decide as E3; [apply Hskip|].
  destruct (existsb (fun '(k, _) => same_enrollment k keyid) pairs) eqn:E4; [apply Hskip|].
  intros (more & -> & Hm & Hd)%IH. exists ((keyid, secret i) :: more). rewrite <- app_assoc. split_and!; [done| |].
  - constructor; [|by apply Hweak]. exists i. split_and!; try done. by left.
  - intros p q Hp [->|Hq]%elem_of_cons; [|apply Hd; [set_solver|done]]. cbn.
    destruct (same_enrollment (fst p) keyid) eqn:E; [|done]. exfalso. apply not_true_iff_false in E4. apply E4, existsb_exists.
    exists p. split; [by apply list_elem_of_In|]. by destruct p.
Qed.

Lemma collect_vaults_spec vaults filter pairs warnings pairs' warnings' : collect_vaults vaults filter pairs warnings = (pairs', warnings') ->
  exists more, pairs' = pairs ++ more
    /\ Forall (fun p => exists id v its, (id, v) ∈ vaults /\ items v = Ok its /\ enrolled_in filter its p) more.
Proof.
  revert pairs warnings. induction vaults as [|[id v] vaults IH]; intros pairs warnings; cbn [collect_vaults].
  { intros [= <- <-]. exists []. rewrite app_nil_r. split; [done|constructor]. }
  destruct (items v) as [its|e] eqn:Ei.
  - destruct (collect_enrolled its filter pairs warnings) as [p1 w1] eqn:Ec. apply collect_enrolled_spec in Ec as (m1 & -> & H1 & _).
    intros (m2 & -> & H2)%IH. exists (m1 ++ m2). rewrite app_assoc. split; [done|]. apply Forall_app. split.
    + eapply Forall_impl; [exact H1|]. intros p Hp. exists id, v, its. split_and!; [by left|done|done].
    + eapply Forall_impl; [exact H2|]. intros p (i' & v' & t' & ? & ? & ?). exists i', v', t'. split_and!; [by right|done|done].
  - intros (m2 & -> & H2)%IH. exists m2. split; [done|].
    eapply Forall_impl; [exact H2|]. intros p (i' & v' & t' & ? & ? & ?). exists i', v', t'. split_and!; [by right|done|done].
Qed.

(** The command is two lines, whatever the passphrase. *)
Lemma preset_command_lines grip sec : is_hex40 grip = true ->
  split_on 10 (preset_command grip sec) = [lit "PRESET_PASSPHRASE " ++ grip ++ lit " -1 " ++ hex sec; lit "BYE"; []].
Proof.
  intros [_ Hx]%is_hex40_spec. set (line := lit "PRESET_PASSPHRASE " ++ grip ++ lit " -1 " ++ hex sec).
  assert (Hn : 10 ∉ line).
  { unfold line. rewrite !elem_of_app. intros [Hin|[Hin|[Hin|Hin]]].
    - revert Hin. apply (bool_decide_unpack _). vm_compute. exact I.
    - pose proof (proj1 (Forall_forall _ _) Hx _ Hin) as Hd%hexdigit_range. lia.
    - revert Hin. apply (bool_decide_unpack _). vm_compute. exact I.
    - pose proof (proj1 (Forall_forall _ _) (hex_lower sec) _ Hin) as Hd. cbn in Hd. done. }
  assert (E : preset_command grip sec = line ++ 10 :: lit "BYE" ++ [10]) by (unfold preset_command, line; rewrite <- !app_assoc; reflexivity).
  rewrite E, split_on_app by done. reflexivity.
Qed.
End preset.

(** ** Properties *)


(** ** Helpers to run *)

Definition sample_unicode : Unicode := {| upper_char c := [ascii_upper c]; from_utf8_lossy b := default [] (from_utf8 b) |}.

Lemma sample_unicode_ok : UnicodeOk sample_unicode.
Proof. split; [done|]. intros s Hs. cbn. by rewrite from_utf8_utf8. Qed.

Definition sample_fpr (c : char) : str := c :: repeat 65 39.
Definition sample_grip : str := repeat 66 40.

(** A listing as gpg prints it: a signing key, then an expired one. *)
Definition sample_listing : str :=
  lit "sec:u:4096:1:AAAAAAAAAAAAAAAA:1:::u:::scESC:" ++ [10]
  ++ lit "fpr:::::::::" ++ sample_fpr 49 ++ lit ":" ++ [10]
  ++ lit "grp:::::::::" ++ sample_grip ++ lit ":" ++ [10]
  ++ lit "uid:u::::1::H::me::::::::::0:" ++ [10]
  ++ lit "ssb:e:4096:1:BBBBBBBBBBBBBBBB:1::::::s:" ++ [10]
  ++ lit "fpr:::::::::" ++ sample_fpr 50 ++ lit ":" ++ [10]
  ++ lit "grp:::::::::" ++ repeat 67 40 ++ lit ":" ++ [10].

Definition sample_helpers (listing : bytes) : Helpers := {|
  hp_gpg _ _ := Ok {| pc_out := listing; pc_err := []; pc_ok := true; pc_took := 1000 |};
  hp_agent _ _ := Ok {| pc_out := utf8 (lit "OK"); pc_err := []; pc_ok := true; pc_took := 1000 |};
  hp_write _ := None; hp_try_wait _ := None; hp_output _ := None; hp_text _ := []; hp_status _ := [];
  hp_var _ := None; hp_home := lit "/home/u"
|}.

Definition gpg_item (keyid : str) (sec : bytes) : Item :=
  {| i_id := lit "k"; i_label := lit "key"; attributes := {[ lit "xdg:schema" := GPG_SCHEMA; lit "keyid" := keyid ]};
     secret := sec; content_type := lit "text/plain"; i_created := 1; i_modified := 1 |}.

Definition gpg_vault : Vault :=
  {| path := [lit "v"; lit "login.vault"]; header := sample_header; aad := []; ciphertext := [];
     state := SUnlocked (repeat x00 32) [gpg_item (lit "0xaaaaaaaaaaaaaaaa") [x70; x77]; gpg_item (lit "AAAAAAAAAAAAAAAA") [x78]];
     index_attributes := true; index_warning := None; size_limit := 1000; retired := false; pinned := false |}.

Definition gpg_state : ServiceState := set_collections (service_new [lit "v"]) {[ lit "login" := gpg_vault ]}.
Definition gpg_config : GpgConfig :=
  {| gc_enabled := true; gc_homedir := None; gc_gpg_bin := lit "gpg"; gc_agent_bin := lit "gpg-connect-agent"; gc_keys := [] |}.

(** The first enrolment is fed, to the one key that can sign. *)
Lemma sample_preset : dk_sent (snd (@note_unlocked sample_unicode (sample_helpers (utf8 sample_listing)) gpg_config gpg_state (Desk 0 0 [])))
  = [utf8 (preset_command sample_grip [x70; x77])].
Proof. vm_compute. reflexivity. Qed.


(** ** Where the helpers fall short *)

(** A listing that does not fit the pipe is never read: the child blocks on
    it, the parent waits for the child, and the listing is lost after thirty
    seconds, however fast gpg is. *)
Theorem large_listing_times_out (U : Unicode) (H : Helpers) (bins : Bins) (c : proc) (d : desk) :
  hp_gpg bins d = Ok c -> PIPE_CAPACITY < zlen (pc_out c) -> (forall d, hp_try_wait d = None) ->
  fst (discover bins d) = Err (GFailed (lit "gpg -K timed out after 30s")).
Proof.
  intros Hg Hb Hw. unfold discover. rewrite Hg. unfold wait_bounded, wait_bounded_with.
  destruct (wait_ends c (lit "gpg -K") CHILD_TIMEOUT (tick_desk d) ltac:(done)) as [[r d'] Er]. rewrite Er.
  pose proof (iter_until_inv (wait_step c (lit "gpg -K") (dk_clock (tick_desk d)) CHILD_TIMEOUT) (fun _ => True)
    (fun r => fst r = Err (GFailed (lit "gpg -K timed out after 30s"))) (ticks CHILD_TIMEOUT) (tick_desk d)) as Hi.
  rewrite Er in Hi. cbn [fst] in Hi. rewrite Hi; [done| |done].
  intros x _. unfold wait_step. rewrite Hw. unfold has_exited. destruct (Z.leb_spec (zlen (pc_out c)) PIPE_CAPACITY); [lia|]. cbn [andb].
  destruct (_ <=? _); [|done]. reflexivity.
Qed.

(** Two keys with one long id: [sm gpg enroll] asks for a full fingerprint,
    and refuses a full fingerprint as matching both. *)
Theorem full_fingerprint_still_ambiguous :
  let k1 := {| sk_fpr := sample_fpr 49; sk_grip := sample_grip |} in
  let k2 := {| sk_fpr := sample_fpr 50; sk_grip := repeat 67 40 |} in
  @pick_key sample_unicode [k1; k2] (Some (sk_fpr k1)) = Err (SeveralMatch (sk_fpr k1))
  /\ @pick_key sample_unicode [k1; k2] (Some (sk_fpr k2)) = Err (SeveralMatch (sk_fpr k2)).
Proof. vm_compute. auto. Qed.
