(* ===== verification/Client.v ===== *)
(** * The Secret Service client of the command line ([src/cli/client.rs], and
      the errors and terminal input of [src/cli/mod.rs])

    The provider on the other end need not be the daemon of [Handlers]: a class
    [Service] answers each call from a state of its own that nobody else looks
    into, so it covers every provider, an impostor included.  A [term] is that
    state, the machine, and the log of everything the command asked, printed
    and showed, oldest first.

    Building a proxy asks nobody; a failure to build one is a failure of the
    call that follows.  Every call is taken to be answered.  The terminal, the
    environment and the user are the class [Console], whose answers may depend
    on the log.  Wiping of buffers is left out. *)
From S2P Require Import Prelude Text Env Crypto Codec Format Sanitize Names Files Sweep Store Aliases Session State Protocol Daemon Bus Pinentry.

(** ** Errors *)

Inductive CliError : Type :=
| CNotFound (text : str)
| CUsage (text : str)
| CUnreachable (text : str)
| CFailed (text : str).

Definition exit_code (e : CliError) : Z :=
  match e with
  | CNotFound _ | CFailed _ => 1
  | CUsage _ => 2
  | CUnreachable _ => 3
  end.

Definition cli_text (e : CliError) : str :=
  match e with CNotFound t | CUsage t | CUnreachable t | CFailed t => t end.

(** [zbus::Error] as a caller sees it, with the text of its [Display] where
    that is used. *)
Inductive call_error : Type :=
| CMethodError (name : str) (msg : option str)
| CInputOutput (text : str)
| CAddress (text : str)
| CElse (text : str).

Definition method_error_to_cli (name msg : str) : CliError :=
  if str_eqb name (lit "org.freedesktop.DBus.Error.ServiceUnknown")
     || str_eqb name (lit "org.freedesktop.DBus.Error.NameHasNoOwner")
     || str_eqb name (lit "org.freedesktop.DBus.Error.NoReply")
  then CUnreachable (lit "secret service is not running (" ++ escape_control msg
                     ++ lit "); start it with `systemctl --user start secret-manager`")
  else if str_eqb name (lit "org.freedesktop.Secret.Error.IsLocked") then CFailed (lit "collection is locked")
  else CFailed (escape_control name ++ lit ": " ++ escape_control msg).

Definition map_zbus (e : call_error) : CliError :=
  match e with
  | CMethodError name msg => method_error_to_cli name (default [] msg)
  | CInputOutput text | CAddress text => CUnreachable (lit "cannot reach the session bus: " ++ text)
  | CElse text => CFailed text
  end.

Definition names_error (e : call_error) (names : list str) : bool :=
  match e with CMethodError name _ => existsb (str_eqb name) names | _ => false end.

(** ** Calls *)

(** What [Completed] said, or that it did not come within [PROMPT_TIMEOUT], or
    that the stream of signals ended. *)
Inductive completion (V : Type) : Type :=
| CompletedWith (dismissed : bool) (value : V)
| CompletedLate
| CompletedNever.
Arguments CompletedWith {_} _ _.
Arguments CompletedLate {_}.
Arguments CompletedNever {_}.

Section calls.
Context `{Bus}.

Inductive call : Type :=
| QSessionBus
| QOpenSession (algo : str) (input : ovalue)
| QSearchItems (attrs : gmap str str)
| QUnlock (objects : list str)
| QReceiveCompleted (prompt : str)
| QPrompt (prompt : str)
| QCompleted (prompt : str)
| QGetSecret (item session : str)
| QGetAll (item : str)
| QReadAlias (name : str)
| QLocked (collection : str)
| QCreateItem (collection : str) (props : gmap str ovalue) (secret : SecretStruct) (replace : bool)
| QDelete (item : str)
| QDeleteItems (collection : str) (items : list str)
| QCollections
| QItems (collection : str).

(** Connecting and opening a session run under a deadline: [None] when it
    passes. *)
Definition answer_of (q : call) : Type :=
  match q with
  | QSessionBus => option unit
  | QOpenSession _ _ => option (ovalue * str)
  | QSearchItems _ => list str * list str
  | QUnlock _ => list str * str
  | QReceiveCompleted _ | QPrompt _ | QDeleteItems _ _ => unit
  | QCompleted _ => completion ovalue
  | QGetSecret _ _ => SecretStruct
  | QGetAll _ => gmap str ovalue
  | QReadAlias _ | QDelete _ => str
  | QLocked _ => bool
  | QCreateItem _ _ _ _ => str * str
  | QCollections | QItems _ => list str
  end.

Class Service : Type := {
  sv_state : Type;
  sv_answer (q : call) : sv_state -> result (answer_of q) call_error * sv_state;
  (** the [Display] of a [zbus::Error] *)
  sv_error_text : call_error -> str
}.
End calls.
Arguments Service {_}.

(** More conversions of zvariant, each with the text of its failure. *)
Class Values (B : Bus) : Type := {
  value_of_attributes : gmap str str -> ovalue;
  to_bytes : ovalue -> result bytes str;
  to_string : ovalue -> option str;
  to_attributes : ovalue -> option (gmap str str);
  to_bool : ovalue -> option bool;
  to_u64 : ovalue -> option Z;
  to_path : ovalue -> result str str;
  to_paths : ovalue -> result (list str) str
}.

(** ** Commands *)

(** What a command did, oldest first: a call on the bus, output, a dialog, a
    request on the control socket, a line read from the user. *)
Inductive event `{B : Bus} : Type :=
| Called (q : call) (r : result (answer_of q) call_error)
| Printed (out : bytes)
| Warned (text : str)
| Confirmed (req : PinRequest) (r : result bool PinentryError)
| Asked (req : PinRequest) (r : result PinOutcome PinentryError)
| Controlled (req : Request) (r : result Response ProtocolError)
| Entered (r : result str io_error).

(** The terminal, the environment and the dialogs. *)
Class Console `{B : Bus} : Type := {
  cs_stdin_is_terminal : bool;
  cs_hidden : list event -> str -> result str io_error;          (** [rpassword] *)
  cs_line : list event -> result str io_error;                   (** [read_line] *)
  cs_stdin : list event -> bytes;                                (** up to its end *)
  cs_stdin_fault : list event -> option io_error;                (** or a failure after that *)
  cs_write : list event -> bytes -> option io_error;             (** a failed write to stdout *)
  cs_var : str -> option str;
  cs_config : result str str;                                    (** the pinentry, or why there is none *)
  cs_confirm : list event -> PinRequest -> result bool PinentryError;
  cs_ask : list event -> PinRequest -> result PinOutcome PinentryError;
  cs_pinentry_text : PinentryError -> str;
  cs_io_text : io_error -> str
}.

Record term {B : Bus} {S : Service} : Type := Term { tm_service : sv_state; tm_world : world; tm_log : list event }.
Arguments Term {_ _}.

Section client.
Context `{E : Env} `{P : SessionPrims} `{B : Bus} `{V : !Values B} `{SV : !Service} `{C : !Console}.

(** [None] is a panic. *)
Definition cm (A : Type) : Type := term -> option (result A CliError) * term.

Definition cret {A} (a : A) : cm A := fun t => (Some (Ok a), t).
Definition cerr {A} (e : CliError) : cm A := fun t => (Some (Err e), t).
Definition cbind {A A'} (m : cm A) (k : A -> cm A') : cm A' :=
  fun t => match m t with
           | (Some (Ok a), t) => k a t
           | (Some (Err e), t) => (Some (Err e), t)
           | (None, t) => (None, t)
           end.

(** [m], and its outcome as a value. *)
Definition ctry {A} (m : cm A) : cm (result A CliError) :=
  fun t => match m t with (Some r, t) => (Some (Ok r), t) | (None, t) => (None, t) end.

Definition clift {A} (r : result A CliError) : cm A := fun t => (Some r, t).
Definition cpanic {A} (o : option A) : cm A :=
  fun t => (match o with Some a => Some (Ok a) | None => None end, t).

Definition note (e : event) (t : term) : term := Term (tm_service t) (tm_world t) (tm_log t ++ [e]).

Definition ask_service (q : call) : cm (result (answer_of q) call_error) :=
  fun t => let '(r, s) := sv_answer q (tm_service t) in
           (Some (Ok r), Term s (tm_world t) (tm_log t ++ [Called q r])).

(** A call whose failure goes through [map_zbus]. *)
Definition ask_mapped (q : call) : cm (answer_of q) :=
  cbind (ask_service q) (fun r => clift (map_err map_zbus r)).

Definition on_machine {A} (f : world -> option A * world) : cm A :=
  fun t => let '(o, w) := f (tm_world t) in
           (match o with Some a => Some (Ok a) | None => None end, Term (tm_service t) w (tm_log t)).

Definition warn (text : str) : cm unit := fun t => (Some (Ok tt), note (Warned text) t).

(** Writing to a locked stdout, whose failure is an error; and [println!],
    whose failure is a panic. *)
Definition write_out (out : bytes) : cm unit :=
  fun t => match cs_write (tm_log t) out with
           | Some e => (Some (Err (CFailed (cs_io_text e))), t)
           | None => (Some (Ok tt), note (Printed out) t)
           end.
Definition println (line : str) : cm unit :=
  fun t => match cs_write (tm_log t) (utf8 (line ++ [10])) with
           | Some _ => (None, t)
           | None => (Some (Ok tt), note (Printed (utf8 (line ++ [10]))) t)
           end.
End client.

Declare Scope cli_scope.
Notation "'let*' x ':=' m 'in' k" := (cbind m (fun x => k))
  (at level 10, x binder, m at level 200, k at level 200) : cli_scope.
Open Scope cli_scope.

(** ** The client *)

(** Seconds. *)
Definition PROMPT_TIMEOUT : Z := 300.
Definition CONNECT_TIMEOUT : Z := 10.
Definition connect_timeout : Z := CONNECT_TIMEOUT.

Record ItemInfo : Type := {
  if_path : str;
  if_label : str;
  if_attributes : gmap str str;
  if_locked : bool;
  if_modified : Z
}.

Record Client : Type := { cl_session : str; cl_cipher : SessionCipher }.

Section operations.
Context `{E : Env} `{P : SessionPrims} `{B : Bus} `{V : !Values B} `{SV : !Service} `{C : !Console}.

Definition timed_out : CliError :=
  CUnreachable (lit "session bus did not answer within " ++ dec connect_timeout ++ lit "s").

Definition session_bus : cm unit :=
  let* r := (ask_service QSessionBus : cm (result (option unit) call_error)) in
  match r with
  | Ok (Some tt) => cret tt
  | Ok None => cerr timed_out
  | Err e => cerr (CUnreachable (lit "cannot connect to the session bus: " ++ sv_error_text e))
  end.

Definition client_connect : cm Client :=
  let* _ := session_bus in
  let* kp := on_machine generate in
  let* r := (ask_service (QOpenSession ALGORITHM_DH (value_of_bytes (public kp)))
             : cm (result (option (ovalue * str)) call_error)) in
  match r with
  | Ok None => cerr timed_out
  | Ok (Some (output, path)) =>
    let* peer := clift (map_err (fun e => CFailed (lit "bad DH reply: " ++ e)) (to_bytes output)) in
    let* cipher := clift (map_err (fun e => CFailed (session_text e)) (from_dh kp peer)) in
    cret {| cl_session := path; cl_cipher := cipher |}
  | Err e =>
    if names_error e [lit "org.freedesktop.DBus.Error.NotSupported"] then
      let* r := (ask_mapped (QOpenSession ALGORITHM_PLAIN (value_of_string [])) : cm (option (ovalue * str))) in
      match r with
      | None => cerr timed_out
      | Some (_, path) => cret {| cl_session := path; cl_cipher := Plain |}
      end
    else cerr (map_zbus e)
  end.

Section with_client.
Context (cl : Client).

Definition client_encrypt (plaintext : bytes) (content_type : str) : cm SecretStruct :=
  let* '(parameters, value) := on_machine (encrypt (cl_cipher cl) plaintext) in
  cret {| ss_session := cl_session cl; ss_parameters := parameters; ss_value := value;
          ss_content_type := content_type |}.

Definition client_decrypt (s : SecretStruct) : result bytes CliError :=
  map_err (fun e => CFailed (session_text e)) (decrypt (cl_cipher cl) (ss_parameters s) (ss_value s)).

Definition client_search (attrs : gmap str str) : cm (list str * list str) := ask_mapped (QSearchItems attrs).

Definition perform_prompt (prompt : str) : cm ovalue :=
  let* _ := ask_mapped (QReceiveCompleted prompt) in
  let* _ := ask_mapped (QPrompt prompt) in
  let* signal := (ask_mapped (QCompleted prompt) : cm (completion ovalue)) in
  match signal with
  | CompletedLate => cerr (CFailed (lit "timed out waiting for the password prompt"))
  | CompletedNever => cerr (CFailed (lit "prompt vanished"))
  | CompletedWith true _ => cerr (CNotFound (lit "password prompt dismissed"))
  | CompletedWith false value => clift (map_err CFailed (value_to_owned value))
  end.

Definition client_unlock (objects : list str) : cm (list str) :=
  let* '(unlocked, prompt) := (ask_mapped (QUnlock objects) : cm (list str * str)) in
  if str_eqb prompt ROOT then cret unlocked
  else
    let* value := perform_prompt prompt in
    let* more := clift (map_err (fun e => CFailed (lit "bad unlock result: " ++ e)) (to_paths value)) in
    cret (unlocked ++ more).

Definition client_get_secret (item : str) : cm bytes :=
  let* s := ask_mapped (QGetSecret item (cl_session cl)) in
  clift (client_decrypt s).

(** [take]: the property, then what is left of the map. *)
Definition take_prop {A} (convert : ovalue -> option A) (name : str) (props : gmap str ovalue)
  : result (A * gmap str ovalue) CliError :=
  match props !! name with
  | None => Err (CFailed (lit "the item has no " ++ escape_control name ++ lit " property"))
  | Some v =>
    match convert v with
    | None => Err (CFailed (lit "the item's " ++ escape_control name ++ lit " property has the wrong type"))
    | Some a => Ok (a, delete name props)
    end
  end.

Definition info_of (item : str) (props : gmap str ovalue) : result ItemInfo CliError :=
  let? (l, props) := take_prop to_string (lit "Label") props in
  let? (a, props) := take_prop to_attributes (lit "Attributes") props in
  let? (k, props) := take_prop to_bool (lit "Locked") props in
  let? (m, props) := take_prop to_u64 (lit "Modified") props in
  Ok {| if_path := item; if_label := l; if_attributes := a; if_locked := k; if_modified := m |}.

Definition item_info (item : str) : cm ItemInfo :=
  let* props := ask_mapped (QGetAll item) in
  clift (info_of item props).

Definition default_collection : cm str :=
  let* path := ask_mapped (QReadAlias (lit "default")) in
  if str_eqb path ROOT then cerr (CFailed (lit "no default collection; create one with `sm init`"))
  else cret path.

Definition created_item_path (item : str) (prompt_result : option ovalue) : result str CliError :=
  let? created := match prompt_result with
                  | Some v => map_err (fun e => CFailed (lit "bad CreateItem result: " ++ e)) (to_path v)
                  | None => Ok item
                  end in
  if str_eqb created ROOT
  then Err (CFailed (lit "the secret service returned neither an item nor a prompt for CreateItem"))
  else Ok created.

Definition item_props (lbl : str) (attrs : gmap str str) : gmap str ovalue :=
  <[lit "org.freedesktop.Secret.Item.Label" := value_of_string lbl]>
  (<[lit "org.freedesktop.Secret.Item.Attributes" := value_of_attributes attrs]> ∅).

Definition client_store (attrs : gmap str str) (lbl : str) (secret : bytes) : cm str :=
  let* collection := default_collection in
  let* locked := ask_mapped (QLocked collection) in
  let* _ := (if locked : bool then let* _ := client_unlock [collection] in cret tt else cret tt) in
  let* s := client_encrypt secret (lit "text/plain") in
  let* '(item, prompt) := (ask_mapped (QCreateItem collection (item_props lbl attrs) s true) : cm (str * str)) in
  let* prompt_result := (if str_eqb prompt ROOT then cret None
                         else let* v := perform_prompt prompt in cret (Some v)) in
  clift (created_item_path item prompt_result).

Definition client_delete_item (item : str) : cm unit :=
  let* prompt := ask_mapped (QDelete item) in
  if str_eqb prompt ROOT then cret tt else let* _ := perform_prompt prompt in cret tt.

Definition NO_BATCH : list str :=
  [lit "org.freedesktop.DBus.Error.UnknownInterface"; lit "org.freedesktop.DBus.Error.UnknownMethod";
   lit "org.freedesktop.DBus.Error.UnknownObject"].

Definition client_delete_items (collection : str) (items : list str) : cm bool :=
  let* r := ask_service (QDeleteItems collection items) in
  match r with
  | Ok _ => cret true
  | Err e => if names_error e NO_BATCH then cret false else cerr (map_zbus e)
  end.

Fixpoint items_of (collections : list str) (out : list str) : cm (list str) :=
  match collections with
  | [] => cret out
  | c :: collections =>
    let* items := ask_mapped (QItems c) in
    items_of collections (out ++ items)
  end.

Definition all_items : cm (list str) :=
  let* collections := ask_mapped QCollections in
  items_of collections [].
End with_client.
End operations.
