(* ===== verification/Secrets.v ===== *)
(** * [sm get], [set], [delete] and [list] ([src/cli/secrets.rs]; the reading of
      secrets in [src/cli/mod.rs])

    Over the client of [Client], whoever answers it. *)
From S2P Require Import Prelude Text Env Crypto Codec Format Sanitize Names Files Sweep Store Aliases Session State Protocol Daemon Bus Pinentry Client.

Open Scope cli_scope.

Definition MAX_SECRET : Z := MAX_FRAME.

Definition parse_attr (a : str) : result (str * str) CliError :=
  match split_once 61 a with
  | Some (k, v) =>
    if is_empty k then Err (CUsage (lit "expected ATTR=VALUE, got '" ++ a ++ lit "'")) else Ok (k, v)
  | None => Err (CUsage (lit "expected ATTR=VALUE, got '" ++ a ++ lit "'"))
  end.

Fixpoint parse_attrs_from (args : list str) (out : gmap str str) : result (gmap str str) CliError :=
  match args with
  | [] => Ok out
  | a :: args => let? (k, v) := parse_attr a in parse_attrs_from args (<[k := v]> out)
  end.

Definition parse_attrs (args : list str) : result (gmap str str) CliError := parse_attrs_from args ∅.

(** [matches!(e, CliError::NotFound(_))]. *)
Definition is_not_found (e : CliError) : bool := match e with CNotFound _ => true | _ => false end.

Definition merge_unlocked (items : list str) (r : result (list str) CliError) : result (list str) CliError :=
  match r with
  | Ok more => Ok (items ++ more)
  | Err e => if is_not_found e && negb (is_empty items) then Ok items else Err e
  end.

Definition INCOMPLETE_UNLOCK : str := lit "could not unlock every match; nothing was deleted".

Definition covers_all (items locked : list str) : bool :=
  let have : gset str := list_to_set items in
  forallb (fun p => bool_decide (p ∈ have)) locked.

(** The reports of a delete. *)
Definition failed_line (f : str * str) : str :=
  [10; 32; 32] ++ escape_control (fst f) ++ lit ": " ++ escape_control (snd f).

Definition add_untouched (msg : str) (u : str * nat * str) : str :=
  let '(collection, n, why) := u in
  (if is_empty msg then [] else msg ++ [10])
  ++ dec (Z.of_nat n) ++ lit " item(s) in " ++ escape_control collection ++ lit " were left untouched: "
  ++ escape_control why.

Definition partial_delete_report (deleted : nat) (failed : list (str * str)) (untouched : list (str * nat * str))
  : option str :=
  match failed, untouched with
  | [], [] => None
  | _, _ =>
    let msg := match failed with
               | [] => []
               | _ => lit "deleted " ++ dec (Z.of_nat deleted) ++ lit " item(s), but " ++ dec (zlen failed)
                      ++ lit " could not be deleted; the secret still exists in the collection"
                      ++ flat_map failed_line failed
               end in
    Some (fold_left add_untouched untouched msg)
  end.

Section commands.
Context `{E : Env} `{P : SessionPrims} `{B : Bus} `{V : !Values B} `{SV : !Service} `{C : !Console}.

(** ** Reading *)

Definition trim_newlines (s : str) : str := rev (drop_while (fun c => (c =? 10) || (c =? 13)) (rev s)).

Definition console_text {A} (r : result A io_error) : result A CliError := map_err (fun e => CFailed (cs_io_text e)) r.

Definition read_password (prompt : str) : cm str :=
  fun t =>
    if cs_stdin_is_terminal then
      let r := cs_hidden (tm_log t) (prompt ++ lit ": ") in (Some (console_text r), note (Entered r) t)
    else
      let r := cs_line (tm_log t) in
      (Some (let? line := console_text r in Ok (trim_newlines line)), note (Entered r) t).

Definition read_new_password (prompt : str) : cm str :=
  let* first := read_password prompt in
  if is_empty first then cerr (CUsage (lit "empty password not allowed"))
  else if cs_stdin_is_terminal then
    let* second := read_password (lit "Repeat") in
    if str_eqb first second then cret first else cerr (CUsage (lit "passwords do not match"))
  else cret first.

(** [take(MAX_SECRET + 2).read_to_end]. *)
Definition read_limited (all : bytes) (fault : option io_error) : result bytes io_error :=
  if MAX_SECRET + 2 <=? zlen all then Ok (take (Z.to_nat (MAX_SECRET + 2)) all)
  else match fault with Some e => Err e | None => Ok all end.

(** [if buf.last() == Some(&b'\n') { buf.pop(); }]. *)
Definition pop_newline (buf : bytes) : bytes :=
  match rev buf with b :: r => if bool_decide (b = x0a) then rev r else buf | [] => buf end.

Definition read_secret_from_stdin : cm bytes :=
  if cs_stdin_is_terminal then let* s := read_password (lit "Secret") in cret (utf8 s)
  else
    let* buf := (fun t => clift (console_text (read_limited (cs_stdin (tm_log t)) (cs_stdin_fault (tm_log t)))) t) in
    let buf := pop_newline buf in
    if MAX_SECRET <? zlen buf then cerr (CUsage (lit "secret exceeds " ++ dec MAX_SECRET ++ lit " bytes"))
    else cret buf.

(** ** Finding *)

Definition find_inner (query : gmap str str) (strict : bool) : cm (list str) :=
  let* '(items, locked) := client_search query in
  match locked with
  | [] => cret items
  | _ =>
    let* unlocked := ctry (client_unlock locked) in
    if strict then
      let* more := clift unlocked in
      if covers_all (items ++ more) locked then cret (items ++ more) else cerr (CNotFound INCOMPLETE_UNLOCK)
    else clift (merge_unlocked items unlocked)
  end.

Definition find (query : gmap str str) : cm (list str) := find_inner query false.
Definition find_all (query : gmap str str) : cm (list str) := find_inner query true.

(** ** [get] *)

(** The loop of [get]: the newest match so far and how many matched. *)
Fixpoint newest (label : option str) (found : list str) (best : option ItemInfo) (matches : nat)
  : cm (option ItemInfo * nat) :=
  match found with
  | [] => cret (best, matches)
  | path :: found =>
    let* info := item_info path in
    if match label with Some l => negb (str_eqb l (if_label info)) | None => false end
    then newest label found best matches
    else
      newest label found
        (match best with
         | Some b => if if_modified b <? if_modified info then Some info else best
         | None => Some info
         end) (S matches)
  end.

(** [get] up to the printing. *)
Definition get_newest (attrs : list str) (label : option str) : cm bytes :=
  let* query := clift (parse_attrs attrs) in
  let* client := client_connect in
  let* found := find query in
  let* '(best, matches) := newest label found None 0 in
  match best with
  | None => cerr (CNotFound (lit "no matching secret"))
  | Some info =>
    let* _ := (if (1 <? matches)%nat
               then warn (lit "warning: " ++ dec (Z.of_nat matches)
                          ++ lit " items match; using the most recently modified (" ++ [34]
                          ++ escape_control (if_label info) ++ [34] ++ lit "). Pass --label to disambiguate.")
               else cret tt) in
    client_get_secret client (if_path info)
  end.

Definition get (attrs : list str) (label : option str) : cm unit :=
  let* secret := get_newest attrs label in write_out secret.

(** ** [set] *)

Definition NO_ATTRIBUTES : CliError := CUsage (lit "at least one ATTR=VALUE is required").

Definition set (attrs : list str) (label : str) : cm unit :=
  let* query := clift (parse_attrs attrs) in
  if bool_decide (query = ∅) then cerr NO_ATTRIBUTES
  else
    let* secret := read_secret_from_stdin in
    let* client := client_connect in
    let* _ := client_store client query label secret in
    cret tt.

(** ** [delete] *)

(** The collection a path is under; [None] inside is a panic. *)
Definition owner_of (item : str) : option (option str) :=
  match parse item with
  | Some (TItem collection _) => match pcollection collection with Some c => Some (Some c) | None => None end
  | Some (TAliasItem alias _) =>
    match palias alias with
    | Some (Some a) => Some (Some a)
    | Some None => None
    | None => Some None
    end
  | _ => Some None
  end.

Fixpoint group_owned (items : list str) (groups : list (option str * list str)) (slots : gmap (option str) nat)
  : option (list (option str * list str)) :=
  match items with
  | [] => Some groups
  | item :: items =>
    match owner_of item with
    | None => None
    | Some owner =>
      match slots !! owner with
      | Some slot => group_owned items (alter (fun g => (fst g, snd g ++ [item])) slot groups) slots
      | None => group_owned items (groups ++ [(owner, [item])]) (<[owner := length groups]> slots)
      end
    end
  end.

Definition group_paths_by_owner (items : list str) : option (list (option str * list str)) := group_owned items [] ∅.

(** How many were deleted, what failed, and which batches were refused. *)
Record tallied : Type := Tallied { ta_deleted : nat; ta_failed : list (str * str); ta_untouched : list (str * nat * str) }.

Fixpoint delete_singly (paths : list str) (a : tallied) : cm tallied :=
  match paths with
  | [] => cret a
  | item :: paths =>
    let* r := ctry (client_delete_item item) in
    delete_singly paths
      (match r with
       | Ok _ => Tallied (S (ta_deleted a)) (ta_failed a) (ta_untouched a)
       | Err e => Tallied (ta_deleted a) (ta_failed a ++ [(item, cli_text e)]) (ta_untouched a)
       end)
  end.

Definition delete_group (g : option str * list str) (a : tallied) : cm tallied :=
  let '(collection, paths) := g in
  let* batched := (match collection with
                   | Some c => ctry (client_delete_items c paths)
                   | None => cret (Ok false)
                   end) in
  match batched with
  | Ok true => cret (Tallied (ta_deleted a + length paths) (ta_failed a) (ta_untouched a))
  | Ok false => delete_singly paths a
  | Err e => cret (Tallied (ta_deleted a) (ta_failed a)
                           (ta_untouched a ++ [(default [] collection, length paths, cli_text e)]))
  end.

Fixpoint delete_groups (groups : list (option str * list str)) (a : tallied) : cm tallied :=
  match groups with
  | [] => cret a
  | g :: groups => let* a := delete_group g a in delete_groups groups a
  end.

Definition delete_each (items : list str) : cm unit :=
  let* groups := cpanic (group_paths_by_owner items) in
  let* a := delete_groups groups (Tallied 0 [] []) in
  match partial_delete_report (ta_deleted a) (ta_failed a) (ta_untouched a) with
  | Some msg => cerr (CFailed msg)
  | None => cret tt
  end.

(** [delete] up to the deletion. *)
Definition delete_targets (attrs : list str) : cm (list str) :=
  let* query := clift (parse_attrs attrs) in
  if bool_decide (query = ∅) then cerr NO_ATTRIBUTES
  else
    let* client := client_connect in
    let* items := find_all query in
    match items with
    | [] => cerr (CNotFound (lit "no matching secret"))
    | _ => cret items
    end.

Definition delete (attrs : list str) : cm unit :=
  let* items := delete_targets attrs in delete_each items.

(** ** [list] *)

Record ListEntry : Type := {
  le_path : str; le_label : str; le_attributes : gmap str str; le_locked : bool; le_modified : Z
}.

Fixpoint list_entries (paths : list str) (entries : list ListEntry) : cm (list ListEntry) :=
  match paths with
  | [] => cret entries
  | p :: paths =>
    let* info := item_info p in
    list_entries paths (entries ++ [{| le_path := if_path info;
                                       le_label := if if_locked info then lit "[locked]" else if_label info;
                                       le_attributes := if_attributes info; le_locked := if_locked info;
                                       le_modified := if_modified info |}])
  end.

Definition entry_line (e : ListEntry) : str :=
  escape_control (le_label e) ++ [9]
  ++ join [32] (map (fun '(k, v) => escape_control k ++ [61] ++ escape_control v) (btree_iter (le_attributes e))) ++ [10].

Fixpoint write_lines (l : list str) : cm unit :=
  match l with
  | [] => cret tt
  | line :: l => let* _ := write_out (utf8 line) in write_lines l
  end.

(** [to_json] is serde_json's pretty printer, or why it fails. *)
Definition list_command (to_json : list ListEntry -> result bytes str) (attrs : list str) (json : bool) : cm unit :=
  let* query := clift (parse_attrs attrs) in
  let* client := client_connect in
  let* paths := (if bool_decide (query = ∅) then all_items
                 else let* '(u, l) := client_search query in cret (u ++ l)) in
  let* entries := list_entries paths [] in
  if json then
    let* text := clift (map_err CFailed (to_json entries)) in
    let* _ := write_out text in
    write_out [x0a]
  else write_lines (map entry_line entries).
End commands.
