(* ===== verification/SecretsProps.v ===== *)
(** * What [sm get], [set], [delete] and [list] do

    A logic of runs: a command extends the log, everything it adds satisfies
    one predicate, and a run that succeeds also satisfies another.  With it,
    what each command asks for, prints and reports, whoever answers. *)
From S2P Require Import Prelude Text Env Crypto Codec Format Sanitize Names Files Sweep Store Aliases Session State Protocol Daemon Bus Pinentry Client Secrets.

Open Scope cli_scope.

(** ** Runs *)

Section logic.
Context `{E : Env} `{P : SessionPrims} `{B : Bus} `{V : !Values B} `{SV : !Service} `{C : !Console}.

Definition runs {A} (ok : event -> Prop) (Q : A -> list event -> Prop) (m : cm A) : Prop :=
  forall t, exists l, tm_log (snd (m t)) = tm_log t ++ l /\ Forall ok l /\ forall a, fst (m t) = Some (Ok a) -> Q a l.

Lemma logs_ret {A} ok (Q : A -> list event -> Prop) a : Q a [] -> runs ok Q (cret a).
Proof. intros HQ t. exists []. rewrite app_nil_r. split; [done|]. split; [done|]. by intros a' [= <-]. Qed.

Lemma logs_err {A} ok (Q : A -> list event -> Prop) e : runs ok Q (cerr e).
Proof. intros t. exists []. by rewrite app_nil_r. Qed.

Lemma logs_lift {A} ok (Q : A -> list event -> Prop) r : (forall a, r = Ok a -> Q a []) -> runs ok Q (clift r).
Proof.
  intros HQ t. exists []. rewrite app_nil_r. split; [done|]. split; [done|]. intros a [= ->]. by apply HQ.
Qed.

Lemma logs_panic {A} ok (Q : A -> list event -> Prop) o : (forall a, o = Some a -> Q a []) -> runs ok Q (cpanic o).
Proof.
  intros HQ t. exists []. rewrite app_nil_r. split; [done|]. split; [done|]. intros a. destruct o; intros [= <-]. by apply HQ.
Qed.

Lemma logs_machine {A} ok (Q : A -> list event -> Prop) f : (forall a, Q a []) -> runs ok Q (on_machine f).
Proof.
  intros HQ t. exists []. unfold on_machine. destruct (f (tm_world t)) as [o w]. simpl. rewrite app_nil_r.
  split; [done|]. split; [done|]. intros a _. apply HQ.
Qed.

Lemma logs_call ok q : (forall r, ok (Called q r)) -> runs ok (fun r l => l = [Called q r]) (ask_service q).
Proof.
  intros Hok t. unfold ask_service. destruct (sv_answer q (tm_service t)) as [r s]. simpl.
  exists [Called q r]. split; [done|]. split; [by constructor|]. by intros a [= <-].
Qed.

Lemma logs_warn ok text : ok (Warned text) -> runs ok (fun _ l => l = [Warned text]) (warn text).
Proof. intros Hok t. exists [Warned text]. split; [done|]. split; [by constructor|done]. Qed.

Lemma logs_weaken {A} ok ok' (Q Q' : A -> list event -> Prop) m :
  runs ok Q m -> (forall e, ok e -> ok' e) -> (forall a l, Forall ok l -> Q a l -> Q' a l) -> runs ok' Q' m.
Proof.
  intros Hm Hok HQ t. destruct (Hm t) as (l & Hl & Hf & Hq). exists l. split; [done|].
  split; [by eapply Forall_impl|]. eauto.
Qed.

Lemma logs_bind {A A'} ok (Q : A -> list event -> Prop) (R : A' -> list event -> Prop) m k :
  runs ok Q m -> (forall a l, Forall ok l -> Q a l -> runs ok (fun b l' => R b (l ++ l')) (k a)) -> runs ok R (cbind m k).
Proof.
  intros Hm Hk t. destruct (Hm t) as (l & Hl & Hf & Hq). unfold cbind. destruct (m t) as [[[a|e]|] t1]; simpl in *.
  - destruct (Hk a l Hf (Hq a eq_refl) t1) as (l' & Hl' & Hf' & Hq'). exists (l ++ l').
    rewrite Hl', Hl, app_assoc. split; [done|]. split; [by apply Forall_app|done].
  - by exists l.
  - by exists l.
Qed.

Lemma logs_try {A} ok (Q : A -> list event -> Prop) m :
  runs ok Q m -> runs ok (fun r l => forall a, r = Ok a -> Q a l) (ctry m).
Proof.
  intros Hm t. destruct (Hm t) as (l & Hl & Hf & Hq). exists l. unfold ctry.
  destruct (m t) as [[[a|e]|] t1]; simpl in *; (split; [done|]); (split; [done|]); intros r [= <-].
  - intros a' [= <-]. by apply Hq.
  - done.
Qed.

Lemma logs_mapped ok q : (forall r, ok (Called q r)) ->
  runs ok (fun a l => l = [Called q (Ok a)]) (ask_mapped q).
Proof.
  intros Hok. eapply logs_bind; [by apply logs_call|]. intros r l _ ->. apply logs_lift.
  intros a. destruct r; intros [= <-]. by rewrite app_nil_r.
Qed.

Lemma logs_any {A} ok (Q : A -> list event -> Prop) m : runs ok Q m -> runs ok (fun _ _ => True) m.
Proof. intros Hm. by eapply logs_weaken. Qed.
End logic.

(** One call, then the rest. *)
Ltac ask :=
  lazymatch goal with
  | |- runs _ _ (cbind (ask_service ?q) _) => eapply logs_bind; [apply (logs_call _ q)|]
  | |- runs _ _ (cbind (ask_mapped ?q) _) => eapply logs_bind; [apply (logs_mapped _ q)|]
  end.

#[export] Hint Resolve logs_ret logs_err logs_lift logs_panic logs_machine logs_call logs_warn logs_mapped : runs.

(** ** What is asked *)

Section asked.
Context `{B : Bus}.

(** Opening a session; driving a prompt; finding items; reading properties. *)
Definition connecting (e : event) : Prop :=
  match e with Called QSessionBus _ | Called (QOpenSession _ _) _ => True | _ => False end.
Definition prompting (e : event) : Prop :=
  match e with Called (QReceiveCompleted _) _ | Called (QPrompt _) _ | Called (QCompleted _) _ => True | _ => False end.
Definition searching (e : event) : Prop := match e with Called (QSearchItems _) _ => True | _ => False end.
Definition unlocking (e : event) : Prop := match e with Called (QUnlock _) _ => True | _ => prompting e end.
Definition inspecting (e : event) : Prop := match e with Called (QGetAll _) _ => True | _ => False end.
Definition reading (e : event) : Prop := match e with Called (QGetSecret _ _) _ => True | _ => False end.
Definition deleting (e : event) : Prop :=
  match e with Called (QDelete _) _ | Called (QDeleteItems _ _) _ => True | _ => False end.
Definition warning (e : event) : Prop := match e with Warned _ => True | _ => False end.

(** What was printed. *)
Definition printed (l : list event) : list bytes := omap (fun e => match e with Printed out => Some out | _ => None end) l.

(** Whose secret was asked for. *)
Definition secrets_read (l : list event) : list str :=
  omap (fun e => match e with Called (QGetSecret item _) _ => Some item | _ => None end) l.

Lemma secrets_read_app l l' : secrets_read (l ++ l') = secrets_read l ++ secrets_read l'.
Proof. apply omap_app. Qed.

Lemma secrets_read_none (ok : event -> Prop) l : (forall e, ok e -> ~ reading e) -> Forall ok l -> secrets_read l = [].
Proof.
  intros Hok. induction 1 as [|e l He Hl IH]; [done|]. change (e :: l) with ([e] ++ l). rewrite secrets_read_app, IH. apply Hok in He.
  by destruct e as [[] r| | | | | |].
Qed.

Lemma printed_none (ok : event -> Prop) l : (forall e, ok e -> forall out, e <> Printed out) -> Forall ok l -> printed l = [].
Proof.
  intros Hok. induction 1 as [|e l He Hl IH]; [done|]. change (e :: l) with ([e] ++ l). unfold printed in *. rewrite omap_app, IH.
  destruct e; try done. by destruct (Hok _ He out).
Qed.
End asked.

Section client.
Context `{E : Env} `{P : SessionPrims} `{B : Bus} `{V : !Values B} `{SV : !Service} `{C : !Console}.

(** The session was agreed on, or agreement was refused as unsupported. *)
Definition session_of (cl : Client) (l : list event) : Prop :=
  (exists kp out peer, Called (QOpenSession ALGORITHM_DH (value_of_bytes (public kp))) (Ok (Some (out, cl_session cl))) ∈ l
     /\ to_bytes out = Ok peer /\ from_dh kp peer = Ok (cl_cipher cl))
  \/ (cl_cipher cl = Plain
      /\ (exists input msg, Called (QOpenSession ALGORITHM_DH input)
                              (Err (CMethodError (lit "org.freedesktop.DBus.Error.NotSupported") msg)) ∈ l)
      /\ (exists input out, Called (QOpenSession ALGORITHM_PLAIN input) (Ok (Some (out, cl_session cl))) ∈ l)).

Lemma names_error_one e n : names_error e [n] = true -> exists msg, e = CMethodError n msg.
Proof.
  destruct e as [name msg| | |]; try done. simpl. rewrite orb_false_r. intros ->%bool_decide_eq_true. by exists msg.
Qed.

Lemma logs_connect : runs connecting session_of client_connect.
Proof.
  unfold client_connect.
  eapply (logs_bind _ (fun _ _ => True)).
  { unfold session_bus. ask; [done|]. intros r l _ _. destruct r as [[[]|]|]; eauto with runs. }
  intros _ l0 _ _. eapply logs_bind; [apply (logs_machine _ (fun _ l => l = [])); done|]. intros kp l1 _ ->.
  ask; [done|]. intros r l2 _ ->. destruct r as [[[out path]|]|e]; [| |destruct (names_error _ _) eqn:En];
    [|eauto with runs| |eauto with runs].
  - eapply logs_bind; [apply (logs_lift _ (fun p l => l = [] /\ to_bytes out = Ok p))|].
    { intros p. destruct (to_bytes out); intros [= ->]. done. }
    intros p l3 _ [-> Hp]. eapply logs_bind; [apply (logs_lift _ (fun c l => l = [] /\ from_dh kp p = Ok c))|].
    { intros c. destruct (from_dh kp p); intros [= ->]. done. }
    intros c l4 _ [-> Hc]. apply logs_ret. left. exists kp, out, p. split; [set_solver|done].
  - apply names_error_one in En as [msg ->]. ask; [done|]. intros o l3 _ ->.
    destruct o as [[out path]|]; [|eauto with runs]. apply logs_ret. right. split; [done|].
    split; [exists (value_of_bytes (public kp)), msg|exists (value_of_string []), out]; set_solver.
Qed.

(** The paths an unlock opened, at once or after its prompt was answered. *)
Definition opened_by (objects : list str) (paths : list str) (l : list event) : Prop :=
  exists now prompt later, Called (QUnlock objects) (Ok (now, prompt)) ∈ l /\ paths = now ++ later
    /\ (prompt = ROOT /\ later = []
        \/ exists v v', Called (QCompleted prompt) (Ok (CompletedWith false v)) ∈ l /\ value_to_owned v = Ok v' /\ to_paths v' = Ok later).

Lemma logs_prompt prompt : runs prompting
  (fun v' l => exists v, Called (QCompleted prompt) (Ok (CompletedWith false v)) ∈ l /\ value_to_owned v = Ok v') (perform_prompt prompt).
Proof.
  unfold perform_prompt.
  ask; [done|]. intros _ l0 _ _. ask; [done|]. intros _ l1 _ _.
  ask; [done|]. intros s l2 _ ->. destruct s as [[] v| |]; [eauto with runs| |eauto with runs..].
  apply logs_lift. intros v'. destruct (value_to_owned v) as [v''|] eqn:Ev; intros [= <-]. exists v. split; [set_solver|done].
Qed.

Lemma logs_unlock objects : runs unlocking (opened_by objects) (client_unlock objects).
Proof.
  unfold client_unlock.
  ask; [done|]. intros [now prompt] l0 _ ->. unfold str_eqb. case_bool_decide as Hp.
  - apply logs_ret. exists now, prompt, []. rewrite !app_nil_r. split; [set_solver|]. by split; [|left].
  - eapply logs_bind; [eapply logs_weaken; [apply logs_prompt|by intros [[] ?| | | | | |]|]|].
    { intros a l _ Hl. exact Hl. }
    intros v' l1 _ (v & Hv & Hv'). eapply logs_bind; [apply (logs_lift _ (fun p l => l = [] /\ to_paths v' = Ok p))|].
    { intros p. destruct (to_paths v'); intros [= ->]. done. }
    intros later l2 _ [-> Hp']. apply logs_ret. exists now, prompt, later. split; [set_solver|]. split; [done|].
    right. exists v, v'. split; [set_solver|done].
Qed.

(** The items of a search, with those that were opened for it. *)
Definition found_by (strict : bool) (query : gmap str str) (items : list str) (l : list event) : Prop :=
  exists u k more, Called (QSearchItems query) (Ok (u, k)) ∈ l /\ items = u ++ more
    /\ (more = [] \/ opened_by k more l) /\ (strict = true -> Forall (fun p => p ∈ items) k).

Definition finding (e : event) : Prop := searching e \/ unlocking e.

Lemma opened_by_app objects paths l l' : opened_by objects paths l -> opened_by objects paths (l' ++ l).
Proof.
  intros (now & prompt & later & Hu & -> & Hp). exists now, prompt, later. split; [set_solver|]. split; [done|].
  destruct Hp as [Hp|(v & v' & Hv & Hr)]; [by left|right]. exists v, v'. split; [set_solver|done].
Qed.

Lemma covers_all_spec items locked : covers_all items locked = true -> Forall (fun p => p ∈ items) locked.
Proof.
  unfold covers_all. rewrite forallb_forall, Forall_forall. intros Hc p Hp. apply list_elem_of_In, Hc in Hp.
  apply bool_decide_eq_true in Hp. by apply elem_of_list_to_set in Hp.
Qed.

Lemma logs_find query strict : runs finding (found_by strict query) (find_inner query strict).
Proof.
  unfold find_inner.
  unfold client_search; ask; [by left|]. intros [u k] l0 _ ->.
  assert (Hu : forall l, Called (QSearchItems query) (Ok (u, k)) ∈ [Called (QSearchItems query) (Ok (u, k))] ++ l) by set_solver.
  destruct k as [|p0 k]. { apply logs_ret. exists u, [], []. split; [by apply Hu|]. split; [by rewrite app_nil_r|]. by split; [left|]. }
  eapply logs_bind; [eapply logs_weaken; [apply logs_try, logs_unlock|by right|]|]. { intros r l _ Hl. exact Hl. }
  intros r l1 _ Hr. destruct strict.
  - eapply logs_bind; [apply (logs_lift _ (fun a l => l = [] /\ r = Ok a)); by intros|]. intros more l2 _ [-> ->].
    destruct (covers_all _ _) eqn:Ec; [|eauto with runs]. apply logs_ret. exists u, (p0 :: k), more.
    split; [by apply Hu|]. split; [done|]. split; [right; rewrite !app_nil_r; by apply opened_by_app, Hr|].
    intros _. by apply covers_all_spec.
  - apply logs_lift. intros items Hm. exists u, (p0 :: k). rewrite !app_nil_r. unfold merge_unlocked in Hm. destruct r as [more|e].
    + injection Hm as <-. exists more. split; [by apply Hu|]. split; [done|]. split; [right; by apply opened_by_app, Hr|done].
    + destruct (_ && _); [|done]. injection Hm as <-. exists []. split; [by apply Hu|]. split; [by rewrite app_nil_r|]. by split; [left|].
Qed.
End client.

(** ** [get] *)

(** The first of the most recently modified. *)
Definition pick (best : option ItemInfo) (i : ItemInfo) : option ItemInfo :=
  match best with
  | Some b => if if_modified b <? if_modified i then Some i else best
  | None => Some i
  end.

Lemma pick_spec l best : match fold_left pick l best with
  | Some i => (i ∈ l \/ best = Some i) /\ forall j, j ∈ l \/ best = Some j -> if_modified j <= if_modified i
  | None => l = [] /\ best = None
  end.
Proof.
  revert best. induction l as [|x l IH]; intros best; simpl.
  - destruct best as [b|]; [|done]. split; [by right|]. intros j [Hj|[= ->]]; [by apply elem_of_nil in Hj|lia].
  - specialize (IH (pick best x)). destruct (fold_left pick l (pick best x)) as [i|].
    + destruct IH as [Hi Hmax]. assert (Hx : if_modified x <= if_modified i /\ forall b, best = Some b -> if_modified b <= if_modified i).
      { pose proof (Hmax) as Hm. unfold pick in Hm. destruct best as [b|].
        - destruct (Z.ltb_spec (if_modified b) (if_modified x)).
          + split; [|intros ? [= <-]; specialize (Hm x (or_intror eq_refl)); lia]. by apply Hm; right.
          + specialize (Hm b (or_intror eq_refl)). split; [lia|]. by intros ? [= <-].
        - split; [|done]. by apply Hm; right. }
      split.
      * destruct Hi as [Hi|Hi]; [left; by right|]. unfold pick in Hi. destruct best as [b|]; [|injection Hi as ->; left; constructor].
        destruct (_ <? _); [injection Hi as ->; left; constructor|by right].
      * destruct Hx as [Hx Hb]. intros j [Hj|Hj]; [|by apply Hb]. apply elem_of_cons in Hj as [->|Hj]; [done|]. apply Hmax. by left.
    + destruct IH as [_ Hp]. unfold pick in Hp. by destruct best as [b|]; [destruct (_ <? _)|].
Qed.

Section get.
Context `{E : Env} `{P : SessionPrims} `{B : Bus} `{V : !Values B} `{SV : !Service} `{C : !Console}.

Definition wanted_label (label : option str) (i : ItemInfo) : bool :=
  match label with Some l => str_eqb l (if_label i) | None => true end.

(** Each path was looked at once, in order, and this is what was told. *)
Definition looked_at (found : list str) (infos : list ItemInfo) (l : list event) : Prop :=
  exists seen, seen.*1 = found /\ l = map (fun x : str * gmap str ovalue => Called (QGetAll (fst x)) (Ok (snd x))) seen
    /\ Forall2 (fun x i => info_of (fst x) (snd x) = Ok i) seen infos.

Lemma logs_info path : runs inspecting
  (fun i l => exists props, l = [Called (QGetAll path) (Ok props)] /\ info_of path props = Ok i) (item_info path).
Proof.
  unfold item_info. ask; [done|]. intros props l _ ->. apply logs_lift. intros i Hi. exists props. by rewrite app_nil_r.
Qed.

Lemma logs_newest label found best n : runs inspecting
  (fun r l => exists infos, looked_at found infos l
     /\ r = (fold_left pick (List.filter (wanted_label label) infos) best,
             n + length (List.filter (wanted_label label) infos))%nat)
  (newest label found best n).
Proof.
  revert best n. induction found as [|path found IH]; intros best n; simpl.
  { apply logs_ret. exists []. split; [by exists []|]. by rewrite Nat.add_0_r. }
  eapply logs_bind; [apply logs_info|]. intros i l _ (props & -> & Hi).
  assert (Hcons : forall infos l', looked_at found infos l' -> looked_at (path :: found) (i :: infos) ([Called (QGetAll path) (Ok props)] ++ l')).
  { intros infos l' (seen & <- & -> & Hs). exists ((path, props) :: seen). split; [done|]. split; [done|]. by constructor. }
  assert (Hw : match label with Some l => negb (str_eqb l (if_label i)) | None => false end = negb (wanted_label label i))
    by by destruct label.
  rewrite Hw. destruct (wanted_label label i) eqn:El; simpl.
  - eapply logs_weaken; [apply IH|done|]. intros r l' _ (infos & Hl & ->). exists (i :: infos).
    split; [by apply Hcons|]. simpl. rewrite El. simpl. by rewrite Nat.add_succ_r.
  - eapply logs_weaken; [apply IH|done|]. intros r l' _ (infos & Hl & ->). exists (i :: infos).
    split; [by apply Hcons|]. simpl. by rewrite El.
Qed.

(** What a successful [get] went through before it printed. *)
Definition got (attrs : list str) (label : option str) (secret : bytes) (l : list event) : Prop :=
  exists query cl found infos info s,
    parse_attrs attrs = Ok query /\ session_of cl l /\ found_by false query found l
    /\ map if_path infos = found
    /\ Forall (fun i => exists props, Called (QGetAll (if_path i)) (Ok props) ∈ l /\ info_of (if_path i) props = Ok i) infos
    /\ info ∈ infos /\ wanted_label label info = true
    /\ Forall (fun j => wanted_label label j = true -> if_modified j <= if_modified info) infos
    /\ Called (QGetSecret (if_path info) (cl_session cl)) (Ok s) ∈ l
    /\ secrets_read l = [if_path info]
    /\ client_decrypt cl s = Ok secret.

(** [get] asks for the secret of one item and changes nothing. *)
Definition getting (e : event) : Prop := connecting e \/ finding e \/ inspecting e \/ warning e \/ reading e.

Lemma info_of_path path props i : info_of path props = Ok i -> if_path i = path.
Proof. unfold info_of. intros Hi. repeat case_match; simplify_eq/=; done. Qed.

Lemma looked_at_infos found infos l : looked_at found infos l ->
  map if_path infos = found
  /\ forall l', l ⊆ l' -> Forall (fun i => exists props, Called (QGetAll (if_path i)) (Ok props) ∈ l' /\ info_of (if_path i) props = Ok i) infos.
Proof.
  intros (seen & <- & -> & Hs). induction Hs as [|[p props] i seen infos Hi Hs IH]; simpl in *; [done|].
  pose proof (info_of_path _ _ _ Hi) as <-. destruct IH as [-> IH]. split; [done|]. intros l' Hl'. constructor.
  - exists props. split; [set_solver|done].
  - apply IH. set_solver.
Qed.

Lemma found_by_mono strict query items l l' : l ⊆ l' -> found_by strict query items l -> found_by strict query items l'.
Proof.
  intros Hl (u & k & more & Hs & Hi & Hm & Hc). exists u, k, more. split; [set_solver|]. split; [done|]. split; [|done].
  destruct Hm as [->|(now & prompt & later & Hu & Hp & Hr)]; [by left|right]. exists now, prompt, later.
  split; [set_solver|]. split; [done|]. destruct Hr as [Hr|(v & v' & Hv & Hr)]; [by left|right]. exists v, v'. split; [set_solver|done].
Qed.

Lemma session_of_mono cl l l' : l ⊆ l' -> session_of cl l -> session_of cl l'.
Proof.
  intros Hl [(kp & out & peer & Hq & Hr)|(Hc & (i1 & msg & H1) & (i2 & out & H2))]; [left|right].
  - exists kp, out, peer. split; [set_solver|done].
  - split; [done|]. split; [exists i1, msg|exists i2, out]; set_solver.
Qed.

(** What a part of a run that reads no secret leaves. *)
Lemma logs_unread {A} (ok ok' : event -> Prop) (Q : A -> list event -> Prop) m :
  runs ok Q m -> (forall e, ok e -> ok' e) -> (forall e, ok e -> ~ reading e) ->
  runs ok' (fun a l => Q a l /\ secrets_read l = []) m.
Proof. intros Hm Hok Hr. eapply logs_weaken; [done|done|]. intros a l Hl HQ. split; [done|]. by eapply secrets_read_none. Qed.

Lemma not_reading e : connecting e \/ finding e \/ inspecting e \/ warning e -> ~ reading e.
Proof. destruct e as [[] r| | | | | |]; unfold finding; simpl; tauto. Qed.

Lemma logs_get attrs label : runs getting (got attrs label) (get_newest attrs label).
Proof.
  unfold get_newest. eapply logs_bind; [apply (logs_lift _ (fun q l => l = [] /\ parse_attrs attrs = Ok q)); by intros|].
  intros query l0 _ [-> Hq].
  eapply logs_bind; [eapply logs_unread; [apply logs_connect|by left|intros; apply not_reading; tauto]|].
  intros cl l1 _ [Hs R1].
  eapply logs_bind; [eapply logs_unread; [apply (logs_find query false)|by right; left|intros; apply not_reading; tauto]|].
  intros found l2 _ [Hf R2].
  eapply logs_bind; [eapply logs_unread; [apply (logs_newest label found None 0)|by right; right; left|intros; apply not_reading; tauto]|].
  intros [best n] l3 _ [(infos & Hl & [= -> ->]) R3]. pose proof (pick_spec (List.filter (wanted_label label) infos) None) as Hp.
  destruct (fold_left pick _ None) as [info|]; [|eauto with runs]. destruct Hp as [[Hin|?] Hmax]; [|done].
  eapply (logs_bind _ (fun _ l => secrets_read l = [])).
  { destruct (1 <? _)%nat; [|eauto with runs]. eapply logs_weaken; [by apply (logs_warn warning)|unfold getting; tauto|]. by intros ? ? _ ->. }
  intros _ l4 _ R4. unfold client_get_secret. ask; [intros r; unfold getting; simpl; tauto|]. intros s l5 _ ->.
  apply logs_lift. intros secret Hd. apply looked_at_infos in Hl as [Hpath Hinfo]. apply list_elem_of_In, filter_In in Hin as [Hin Hw].
  exists query, cl, found, infos, info, s. split; [done|]. split; [eapply session_of_mono; [|done]; set_solver|].
  split; [eapply found_by_mono; [|done]; set_solver|]. split; [done|]. split; [apply Hinfo; set_solver|].
  split; [by apply list_elem_of_In|]. split; [done|].
  split; [apply Forall_forall; intros j Hj Hwj; apply Hmax; left; apply list_elem_of_In, filter_In; split; [by apply list_elem_of_In|done]|].
  split; [set_solver|]. split; [|done]. by rewrite !secrets_read_app, R1, R2, R3, R4.
Qed.

(** C18. [sm get] prints one secret or nothing. Whoever answers on the bus, it
    searches for the attributes given, asks what each match is, and on success
    has printed exactly the decrypted secret of one item: one of the matches,
    with the label asked for, than which none of those was modified later. That
    secret is the only one it asks for, it stores and deletes nothing, and a run
    that fails prints nothing. The session is encrypted unless the provider
    refused that as unsupported. *)
Theorem get_prints_newest_match attrs label t : exists l, tm_log (snd (get attrs label t)) = tm_log t ++ l
  /\ match fst (get attrs label t) with
     | Some (Ok _) => exists l' secret, l = l' ++ [Printed secret] /\ Forall getting l' /\ got attrs label secret l'
     | _ => Forall getting l
     end.
Proof.
  unfold get. destruct (logs_get attrs label t) as (l & Hl & Hf & Hq). unfold cbind.
  destruct (get_newest attrs label t) as [[[secret|e]|] t1]; simpl in *; [|by exists l|by exists l].
  unfold write_out. destruct (cs_write _ _); simpl; [by exists l|]. exists (l ++ [Printed secret]). rewrite Hl, app_assoc.
  split; [done|]. exists l, secret. split; [done|]. split; [done|]. by apply Hq.
Qed.
End get.

(** ** [delete] *)

Section delete.
Context `{E : Env} `{P : SessionPrims} `{B : Bus} `{V : !Values B} `{SV : !Service} `{C : !Console}.

(** The provider said that this item is gone: in a batch, or by itself and,
    where it wanted a prompt, after that was answered. *)
Definition gone (l : list event) (p : str) : Prop :=
  (exists c ps, Called (QDeleteItems c ps) (Ok tt) ∈ l /\ p ∈ ps)
  \/ (exists pr, Called (QDelete p) (Ok pr) ∈ l
                 /\ (pr = ROOT \/ exists v, Called (QCompleted pr) (Ok (CompletedWith false v)) ∈ l)).

Definition removing (e : event) : Prop := deleting e \/ prompting e.

Lemma gone_mono l l' p : l ⊆ l' -> gone l p -> gone l' p.
Proof.
  intros Hl [(c & ps & Hc & Hp)|(pr & Hd & Hr)]; [left|right].
  - exists c, ps. split; [set_solver|done].
  - exists pr. split; [set_solver|]. destruct Hr as [Hr|(v & Hv)]; [by left|right]. exists v. set_solver.
Qed.

Lemma logs_delete_item p : runs removing (fun _ l => gone l p) (client_delete_item p).
Proof.
  unfold client_delete_item. ask; [by left|]. intros pr l _ ->. unfold str_eqb. case_bool_decide as Hp.
  - apply logs_ret. right. exists pr. split; [set_solver|by left].
  - eapply logs_bind; [eapply logs_weaken; [apply logs_prompt|by right|by intros ???]|]. intros v' l1 _ (v & Hv & _).
    apply logs_ret. right. exists pr. split; [set_solver|right]. exists v. set_solver.
Qed.

(** What a part of a delete did to the paths it was given. *)
Definition counted (l : list event) (paths : list str) (a a' : tallied) : Prop :=
  exists d f u, a' = Tallied (ta_deleted a + d) (ta_failed a ++ f) (ta_untouched a ++ u)
    /\ (d + length f + sum_list (map (fun x => snd (fst x)) u) = length paths)%nat
    /\ Forall (fun p => gone l p \/ p ∈ f.*1 \/ exists x, x ∈ u /\ owner_of p = Some (Some (fst (fst x)))) paths.

Lemma counted_app l l' paths paths' a a' a'' : counted l paths a a' -> counted l' paths' a' a'' ->
  counted (l ++ l') (paths ++ paths') a a''.
Proof.
  intros (d & f & u & -> & Hn & Hp) (d' & f' & u' & -> & Hn' & Hp'). exists (d + d')%nat, (f ++ f'), (u ++ u'). simpl.
  split; [f_equal; [lia|by rewrite app_assoc..]|]. rewrite map_app, !length_app, sum_list_with_app.
  split; [lia|]. apply Forall_app. split; (eapply Forall_impl; [done|]); intros p Hpp; simpl in Hpp.
  - destruct Hpp as [Hg|[Hf|(x & Hx & Ho)]]; [left; eapply gone_mono; [|done]; set_solver|right; left; set_solver|].
    right. right. exists x. set_solver.
  - destruct Hpp as [Hg|[Hf|(x & Hx & Ho)]]; [left; eapply gone_mono; [|done]; set_solver|right; left; set_solver|].
    right. right. exists x. set_solver.
Qed.

Lemma counted_nil l a : counted l [] a a.
Proof. exists 0%nat, [], []. rewrite Nat.add_0_r, !app_nil_r. by destruct a. Qed.

Lemma logs_delete_singly paths a : runs removing (fun a' l => counted l paths a a') (delete_singly paths a).
Proof.
  revert a. induction paths as [|p paths IH]; intros a; simpl; [apply logs_ret, counted_nil|].
  eapply logs_bind; [apply logs_try, logs_delete_item|]. intros r l _ Hr.
  eapply logs_weaken; [apply IH|done|]. intros a' l' _ Ha'. change (p :: paths) with ([p] ++ paths).
  eapply counted_app; [|exact Ha']. destruct r as [[]|e].
  - exists 1%nat, [], []. rewrite !app_nil_r, Nat.add_1_r. split; [done|]. split; [done|]. constructor; [|done]. left. by apply (Hr tt).
  - exists 0%nat, [(p, cli_text e)], []. rewrite app_nil_r, Nat.add_0_r. split; [done|]. split; [done|].
    constructor; [|done]. right. left. simpl. set_solver.
Qed.

Lemma logs_batch c ps : runs removing (fun b l => b = true -> Called (QDeleteItems c ps) (Ok tt) ∈ l) (client_delete_items c ps).
Proof.
  unfold client_delete_items. ask; [by left|]. intros r l _ ->. destruct r as [[]|e].
  - apply logs_ret. intros _. set_solver.
  - destruct (names_error e NO_BATCH); [by apply logs_ret|apply logs_err].
Qed.

Lemma logs_delete_group g a : Forall (fun p => owner_of p = Some (fst g)) (snd g) ->
  runs removing (fun a' l => counted l (snd g) a a') (delete_group g a).
Proof.
  destruct g as [o paths]. simpl. intros Ho.
  eapply (logs_bind _ (fun r l => match r with
                                  | Ok true => Forall (gone l) paths
                                  | Ok false => True
                                  | Err e => o <> None
                                  end)).
  { destruct o as [c|]; [|by apply logs_ret]. eapply logs_weaken; [apply logs_try, (logs_batch c paths)|done|].
    intros [[]|e] l _ Hr; [|done|done]. specialize (Hr true eq_refl eq_refl). apply Forall_forall. intros p Hp. left. by exists c, paths. }
  intros r l _ Hr. destruct r as [[]|e].
  - apply logs_ret. exists (length paths), [], []. rewrite !app_nil_r. split; [done|]. split; [simpl; lia|].
    eapply Forall_impl; [done|]. intros p Hp. by left.
  - eapply logs_weaken; [apply logs_delete_singly|done|]. intros a' l' _ Ha.
    change paths with ([] ++ paths). eapply counted_app; [apply counted_nil|done].
  - apply logs_ret. destruct o as [c|]; [|done]. exists 0%nat, [], [(c, length paths, cli_text e)].
    rewrite !app_nil_r, Nat.add_0_r. split; [done|]. split; [simpl; lia|]. eapply Forall_impl; [done|]. intros p Hp. right. right.
    exists (c, length paths, cli_text e). split; [set_solver|done].
Qed.

Lemma logs_delete_groups groups a : Forall (fun g => Forall (fun p => owner_of p = Some (fst g)) (snd g)) groups ->
  runs removing (fun a' l => counted l (concat (map snd groups)) a a') (delete_groups groups a).
Proof.
  intros Hg. revert a. induction Hg as [|g groups Hg Hgs IH]; intros a; simpl; [apply logs_ret, counted_nil|].
  eapply logs_bind; [by apply logs_delete_group|]. intros a1 l _ H1. eapply logs_weaken; [apply IH|done|].
  intros a2 l' _ H2. eapply counted_app; [exact H1|exact H2].
Qed.
(** *** Grouping *)

Definition add_to (p : str) (g : option str * list str) : option str * list str := (fst g, snd g ++ [p]).

Lemma concat_alter p i (groups : list (option str * list str)) : is_Some (groups !! i) ->
  concat (map snd (alter (add_to p) i groups)) ≡ₚ p :: concat (map snd groups).
Proof.
  revert i. induction groups as [|g groups IH]; intros [|i] [x Hx]; simplify_eq/=.
  - rewrite <- app_assoc. simpl. by rewrite <- Permutation_middle.
  - change (list_alter (add_to p) i groups) with (alter (add_to p) i groups).
    rewrite IH by eauto. by rewrite <- Permutation_middle.
Qed.

Definition groups_ok (groups : list (option str * list str)) : Prop :=
  Forall (fun g => Forall (fun p => owner_of p = Some (fst g)) (snd g)) groups.

Lemma group_owned_spec items groups slots out :
  (forall o i, slots !! o = Some i -> exists ps, groups !! i = Some (o, ps)) -> groups_ok groups ->
  group_owned items groups slots = Some out ->
  groups_ok out /\ concat (map snd out) ≡ₚ concat (map snd groups) ++ items.
Proof.
  revert groups slots. induction items as [|p items IH]; intros groups slots Hs Hg Ho; simpl in Ho.
  { injection Ho as <-. by rewrite app_nil_r. }
  destruct (owner_of p) as [o|] eqn:Ep; [|done]. destruct (slots !! o) as [i|] eqn:Ei.
  - destruct (Hs _ _ Ei) as (ps & Hps). apply IH in Ho as [Hok Hc].
    + split; [done|]. rewrite Hc. change (fun g => (g.1, g.2 ++ [p])) with (add_to p). rewrite concat_alter by eauto.
      by rewrite <- Permutation_middle.
    + intros o' j Hj. destruct (Hs _ _ Hj) as (ps' & Hps'). destruct (decide (i = j)) as [<-|Hij].
      * rewrite list_lookup_alter, decide_True, Hps' by done. by eexists.
      * rewrite list_lookup_alter, decide_False by done. eauto.
    + apply Forall_alter; [done|]. intros g Hgi Hx. simpl. rewrite Hps in Hgi. injection Hgi as <-. simpl in *.
      apply Forall_app. by split; [|constructor].
  - apply IH in Ho as [Hok Hc].
    + split; [done|]. rewrite Hc, map_app, concat_app. simpl. by rewrite <- app_assoc.
    + intros o' j Hj. destruct (decide (o = o')) as [<-|Hne].
      * rewrite lookup_insert_eq in Hj. injection Hj as <-. exists [p]. by rewrite lookup_app_r, Nat.sub_diag.
      * rewrite lookup_insert_ne in Hj by done. destruct (Hs _ _ Hj) as (ps & Hps). exists ps. by apply lookup_app_l_Some.
    + apply Forall_app. split; [done|]. constructor; [|done]. simpl. by constructor.
Qed.

Lemma group_paths_by_owner_spec items groups : group_paths_by_owner items = Some groups ->
  groups_ok groups /\ concat (map snd groups) ≡ₚ items.
Proof. intros Hg. apply group_owned_spec in Hg; [by rewrite app_nil_l in Hg|done|by constructor]. Qed.

(** *** The command *)

(** How [delete_each] ends: every item is gone, or the report counts and names
    what is not. *)
Definition delete_outcome (items : list str) (r : option (result unit CliError)) (l : list event) : Prop :=
  match r with
  | Some (Ok _) => Forall (gone l) items
  | Some (Err e) => exists d f u text, partial_delete_report d f u = Some text /\ e = CFailed text
      /\ (d + length f + sum_list (map (fun x => snd (fst x)) u) = length items)%nat
      /\ Forall (fun p => gone l p \/ p ∈ f.*1 \/ exists x, x ∈ u /\ owner_of p = Some (Some (fst (fst x)))) items
  | None => group_paths_by_owner items = None
  end.

(** Nothing but the grouping panics. *)
Definition steady {A} (m : cm A) : Prop := forall t, fst (m t) <> None.

Lemma steady_bind {A A'} (m : cm A) (k : A -> cm A') : steady m -> (forall a, steady (k a)) -> steady (cbind m k).
Proof.
  intros Hm Hk t. unfold cbind. specialize (Hm t). destruct (m t) as [[[a|e]|] t1]; simpl in *; [apply Hk|done|done].
Qed.

Lemma steady_try {A} (m : cm A) : steady m -> steady (ctry m).
Proof. intros Hm t. unfold ctry. specialize (Hm t). by destruct (m t) as [[r|] t1]. Qed.

Lemma steady_call q : steady (ask_service q).
Proof. intros t. unfold ask_service. by destruct (sv_answer q (tm_service t)). Qed.

Lemma steady_mapped q : steady (ask_mapped q).
Proof. apply steady_bind; [apply steady_call|done]. Qed.

Lemma steady_prompt p : steady (perform_prompt p).
Proof.
  apply steady_bind; [apply (steady_mapped (QReceiveCompleted p))|intros _]. apply steady_bind; [apply (steady_mapped (QPrompt p))|intros _].
  apply steady_bind; [apply (steady_mapped (QCompleted p))|]. by intros [[] v| |].
Qed.

Lemma steady_delete_singly paths a : steady (delete_singly paths a).
Proof.
  revert a. induction paths as [|p paths IH]; intros a; simpl; [done|]. apply steady_bind; [apply steady_try|intros r; apply IH].
  apply steady_bind; [apply (steady_mapped (QDelete p))|]. intros pr. destruct (str_eqb pr ROOT); [done|].
  apply steady_bind; [apply steady_prompt|done].
Qed.

Lemma steady_delete_groups groups a : steady (delete_groups groups a).
Proof.
  revert a. induction groups as [|[o paths] groups IH]; intros a; simpl; [done|]. apply steady_bind; [|intros; apply IH].
  apply steady_bind.
  - destruct o as [c|]; [|done]. apply steady_try, steady_bind; [apply (steady_call (QDeleteItems c paths))|].
    intros [|e]; [done|]. by destruct (names_error e NO_BATCH).
  - intros [[]|e]; [done|apply steady_delete_singly|done].
Qed.

(** Every error of a part is counted, so counting does not fail. *)
Lemma ctry_ok {A} (m : cm A) t e : fst (ctry m t) <> Some (Err e).
Proof. unfold ctry. by destruct (m t) as [[r|] t1]. Qed.

Lemma cbind_ok {A A'} (m : cm A) (k : A -> cm A') t e :
  (forall t e, fst (m t) <> Some (Err e)) -> (forall a t e, fst (k a t) <> Some (Err e)) -> fst (cbind m k t) <> Some (Err e).
Proof.
  intros Hm Hk. unfold cbind. specialize (Hm t). destruct (m t) as [[[a|e']|] t1]; simpl in *; [apply Hk|by destruct (Hm e')|done].
Qed.

Lemma delete_singly_ok paths a t e : fst (delete_singly paths a t) <> Some (Err e).
Proof.
  revert a t e. induction paths as [|p paths IH]; intros a t e; simpl; [done|].
  apply cbind_ok; [intros; apply ctry_ok|]. intros r. apply IH.
Qed.

Lemma delete_groups_ok groups a t e : fst (delete_groups groups a t) <> Some (Err e).
Proof.
  revert a t e. induction groups as [|[o paths] groups IH]; intros a t e; simpl; [done|].
  apply cbind_ok; [|intros a'; apply IH]. intros t1 e1. apply cbind_ok.
  - intros t2 e2. destruct o; [apply ctry_ok|done].
  - intros [[]|e3] t2 e2; [done|apply delete_singly_ok|done].
Qed.

Lemma report_none d f u : partial_delete_report d f u = None -> f = [] /\ u = [].
Proof. by destruct f, u. Qed.

Lemma delete_each_spec items t : exists l, tm_log (snd (delete_each items t)) = tm_log t ++ l
  /\ Forall removing l /\ delete_outcome items (fst (delete_each items t)) l.
Proof.
  unfold delete_each. unfold cbind at 1 3. unfold cpanic.
  destruct (group_paths_by_owner items) as [groups|] eqn:Eg; [|exists []; simpl; by rewrite app_nil_r].
  apply group_paths_by_owner_spec in Eg as [Hg Hp]. simpl.
  destruct (logs_delete_groups groups (Tallied 0 [] []) Hg t) as (l & Hl & Hf & Hc).
  pose proof (delete_groups_ok groups (Tallied 0 [] []) t) as Hok. pose proof (steady_delete_groups groups (Tallied 0 [] []) t) as Hs.
  unfold cbind. destruct (delete_groups groups (Tallied 0 [] []) t) as [[[a|e]|] t1]; simpl in *; [|by destruct (Hok e)|done].
  destruct (Hc a eq_refl) as (d & f & u & -> & Hn & Hall). simpl in *. rewrite Hp in Hn, Hall.
  exists l. split; [by destruct (partial_delete_report d f u)|]. split; [done|].
  destruct (partial_delete_report d f u) as [text|] eqn:Er; simpl.
  - exists d, f, u, text. done.
  - apply report_none in Er as [-> ->]. eapply Forall_impl; [done|]. intros p [?|[Hx|(x & Hx & _)]]; [done|set_solver|set_solver].
Qed.

Lemma logs_delete_targets attrs : runs (fun e => connecting e \/ finding e)
  (fun items l => exists query, parse_attrs attrs = Ok query /\ query <> ∅ /\ items <> [] /\ found_by true query items l)
  (delete_targets attrs).
Proof.
  unfold delete_targets. eapply logs_bind; [apply (logs_lift _ (fun q l => l = [] /\ parse_attrs attrs = Ok q)); by intros|].
  intros query l0 _ [-> Hq]. case_bool_decide as Hne; [eauto with runs|].
  eapply logs_bind; [eapply logs_weaken; [apply logs_connect|by left|by intros ???]|]. intros cl l1 _ _.
  eapply logs_bind; [eapply logs_weaken; [apply (logs_find query true)|by right|by intros ???]|]. intros items l2 _ Hf.
  destruct items as [|p items]; [eauto with runs|]. apply logs_ret. exists query. split; [done|]. split; [done|]. split; [done|].
  eapply found_by_mono; [|done]. set_solver.
Qed.

(** C19. [sm delete] deletes all it found or says what it did not. Whoever
    answers, nothing is deleted before the search is complete: a locked match
    that could not be opened ends the command with nothing asked to be deleted.
    After that it reports success only if the provider confirmed the deletion
    of every item it found; otherwise the report counts the items deleted, names
    each that was not, and each collection whose batch was refused, and these
    together are all the items. *)
Theorem delete_accounts_for_all attrs t : exists l1 l2, tm_log (snd (delete attrs t)) = tm_log t ++ l1 ++ l2
  /\ Forall (fun e => connecting e \/ finding e) l1 /\ Forall removing l2
  /\ ((l2 = [] /\ fst (delete attrs t) <> Some (Ok tt))
      \/ exists query items, parse_attrs attrs = Ok query /\ query <> ∅ /\ items <> [] /\ found_by true query items l1
           /\ delete_outcome items (fst (delete attrs t)) l2).
Proof.
  unfold delete. destruct (logs_delete_targets attrs t) as (l1 & Hl & Hf & Hq). unfold cbind.
  destruct (delete_targets attrs t) as [[[items|e]|] t1]; simpl in *.
  - destruct (Hq items eq_refl) as (query & Hp & Hne & Hi & Hb). destruct (delete_each_spec items t1) as (l2 & Hl2 & Hf2 & Ho).
    exists l1, l2. rewrite Hl2, Hl, app_assoc. split; [done|]. split; [done|]. split; [done|]. right. by exists query, items.
  - exists l1, []. rewrite app_nil_r. split; [done|]. split; [done|]. split; [done|]. by left.
  - exists l1, []. rewrite app_nil_r. split; [done|]. split; [done|]. split; [done|]. by left.
Qed.
End delete.
