(* ===== verification/Askpass.v ===== *)
(** * The prompts of ssh ([classify_prompt] and [passphrase_path] in
      [src/cli/ssh.rs])

    [passphrase_path] is a regular expression.  Here is the part of the syntax
    it uses, with the documented meaning of the regex crate: the first match in
    the order of preference, alternatives from left to right, a repetition as
    long or, where lazy, as short as it can be; [$] is the end of the text; and
    with [(?i)] a letter stands for the characters Unicode folds to it.  The
    theorem gives the exact set of prompts taken for a passphrase question. *)
From S2P Require Import Prelude Text Names Pam.

Definition SSH_SCHEMA : str := lit "org.secret-manager.ssh".

(** ** Regular expressions *)

Inductive regex : Type :=
| ROne (p : char -> bool)
| RGreedy (p : char -> bool)
| RLazy (p : char -> bool)
| RSeq (r1 r2 : regex)
| RAlt (r1 r2 : regex)
| REmpty
| RGroup (n : nat) (r : regex).

Abbreviation captures := (gmap nat str).

(** What follows a match: the rest of the text and the groups so far. *)
Abbreviation follow := (str -> captures -> option captures).

Fixpoint greedy (p : char -> bool) (s : str) (caps : captures) (k : follow) : option captures :=
  match s with
  | c :: s' => if p c then match greedy p s' caps k with Some x => Some x | None => k s caps end else k s caps
  | [] => k s caps
  end.

Fixpoint lazy (p : char -> bool) (s : str) (caps : captures) (k : follow) : option captures :=
  match k s caps with
  | Some x => Some x
  | None => match s with c :: s' => if p c then lazy p s' caps k else None | [] => None end
  end.

Fixpoint rmatch (r : regex) (s : str) (caps : captures) (k : follow) : option captures :=
  match r with
  | ROne p => match s with c :: s' => if p c then k s' caps else None | [] => None end
  | RGreedy p => greedy p s caps k
  | RLazy p => lazy p s caps k
  | RSeq r1 r2 => rmatch r1 s caps (fun s caps => rmatch r2 s caps k)
  | RAlt r1 r2 => match rmatch r1 s caps k with Some x => Some x | None => rmatch r2 s caps k end
  | REmpty => k s caps
  | RGroup n r => rmatch r s caps (fun s' caps => k s' (<[n := take (length s - length s') s]> caps))
  end.

(** [^...$]. *)
Definition captures_of (r : regex) (s : str) : option captures :=
  rmatch r s ∅ (fun rest caps => match rest with [] => Some caps | _ => None end).

(** A literal under [(?i)]: [s] also stands for the long s, [k] for the Kelvin
    sign; no other letter of ASCII has a third form. *)
Definition folds (c x : char) : bool :=
  (to_ascii_lowercase c =? to_ascii_lowercase x)
  || ((to_ascii_lowercase c =? 115) && (x =? 383)) || ((to_ascii_lowercase c =? 107) && (x =? 8490)).

Fixpoint text (s : str) : regex :=
  match s with
  | [] => REmpty
  | c :: s => RSeq (ROne (folds c)) (text s)
  end.

Definition not_char (q c : char) : bool := negb (c =? q).
Definition many1 (p : char -> bool) : regex := RSeq (ROne p) (RGreedy p).
Definition optional (r : regex) : regex := RAlt r REmpty.

Definition WILL_CONFIRM : str := lit " (will confirm each use)".

Definition quoted (n : nat) (q : char) : regex := RSeq (text [q]) (RSeq (RGroup n (many1 (not_char q))) (text [q])).

Definition RE_TAIL : regex := RSeq (optional (text WILL_CONFIRM)) (RSeq (text [58]) (RGreedy (Z.eqb 32))).
Definition RE_PATH : regex :=
  RAlt (quoted 1 39) (RAlt (quoted 2 34) (RGroup 3 (RSeq (text [47]) (RLazy (not_char 58))))).
Definition RE : regex :=
  RSeq (RGreedy is_whitespace)
    (RSeq (text (lit "Enter passphrase for "))
      (RSeq (optional (text (lit "key "))) (RSeq RE_PATH RE_TAIL))).

(** ** The prompts *)

Definition passphrase_path (prompt : str) : option str :=
  let! c := captures_of RE prompt in
  let! path := or_else (c !! 1%nat) (or_else (c !! 2%nat) (c !! 3%nat)) in
  if existsb (fun x => (x =? 10) || (x =? 13)) path then None else Some path.

Inductive AskpassKind : Type := Passphrase (path : str) | Confirm | Other.

(** [str::contains]. *)
Fixpoint str_contains (m s : str) : bool :=
  match strip_prefix m s with
  | Some _ => true
  | None => match s with [] => false | _ :: s => str_contains m s end
  end.

Definition CONFIRM_MARKERS : list str :=
  [lit "(yes/no"; lit "authenticity of host"; lit "Allow use of key"; lit "Confirm user presence"].

Definition classify_prompt (prompt : str) (askpass_prompt_env : option str) : AskpassKind :=
  if bool_decide (askpass_prompt_env = Some (lit "confirm")) then Confirm
  else
    match (if existsb (Z.eqb 10) prompt then None else passphrase_path prompt) with
    | Some path => Passphrase path
    | None =>
      if existsb (fun m => str_contains m prompt) CONFIRM_MARKERS then Confirm
      else match last (trim_end prompt) with Some 63 => Confirm | _ => Other end
    end.

Example real_prompts :
  map (fun p => classify_prompt p None)
    [lit "Enter passphrase for key '/k/id': "; lit "Enter passphrase for /k/id: ";
     lit "Enter passphrase for /k/id (will confirm each use): ";
     lit "Enter passphrase for " ++ [34] ++ lit "/k/o'b" ++ [34] ++ lit ": ";
     lit "Enter passphrase for key '/k/o'b': "; lit "Enter passphrase for id: "; lit "Allow use of key /k?";
     lit "Some question? "; lit "Enter PIN:"; lit "Enter passphrase for key '/home/Allow use of key/id': "]
  = [Passphrase (lit "/k/id"); Passphrase (lit "/k/id"); Passphrase (lit "/k/id"); Passphrase (lit "/k/o'b");
     Other; Other; Confirm; Confirm; Other; Passphrase (lit "/home/Allow use of key/id")].
Proof. vm_compute. reflexivity. Qed.

(** ** The language of an expression *)

(** [e] is matched, and the groups become [caps']. *)
Fixpoint matched (r : regex) (e : str) (caps caps' : captures) : Prop :=
  match r with
  | ROne p => (exists c, e = [c] /\ p c = true) /\ caps' = caps
  | RGreedy p | RLazy p => Forall (fun c => p c = true) e /\ caps' = caps
  | RSeq r1 r2 => exists e1 e2 c, e = e1 ++ e2 /\ matched r1 e1 caps c /\ matched r2 e2 c caps'
  | RAlt r1 r2 => matched r1 e caps caps' \/ matched r2 e caps caps'
  | REmpty => e = [] /\ caps' = caps
  | RGroup n r => exists c, matched r e caps c /\ caps' = <[n := e]> c
  end.

Lemma greedy_sound p s caps k x : greedy p s caps k = Some x ->
  exists e rest, s = e ++ rest /\ Forall (fun c => p c = true) e /\ k rest caps = Some x.
Proof.
  revert s. induction s as [|c s IH]; simpl; intros Hm; [by exists [], []|]. destruct (p c) eqn:Ep; [|by exists [], (c :: s)].
  destruct (greedy p s caps k) as [y|] eqn:Eg; [|by exists [], (c :: s)]. injection Hm as ->.
  destruct (IH eq_refl) as (e & rest & -> & He & Hk). exists (c :: e), rest. split; [done|]. by split; [constructor|].
Qed.

(** A lazy repetition is the shortest after which the rest matches. *)
Lemma lazy_sound p s caps k x : lazy p s caps k = Some x ->
  exists e rest, s = e ++ rest /\ Forall (fun c => p c = true) e /\ k rest caps = Some x
    /\ forall e1 e2, e = e1 ++ e2 -> e2 <> [] -> k (e2 ++ rest) caps = None.
Proof.
  revert s. induction s as [|c s IH]; simpl; intros Hm.
  - destruct (k [] caps) as [y|] eqn:Ek; [|done]. injection Hm as ->. exists [], []. split; [done|]. split; [done|]. split; [done|].
    by intros [] [].
  - destruct (k (c :: s) caps) as [y|] eqn:Ek.
    + injection Hm as ->. exists [], (c :: s). split; [done|]. split; [done|]. split; [done|]. by intros [] [].
    + destruct (p c) eqn:Ep; [|done]. destruct (IH Hm) as (e & rest & -> & He & Hk & Hf). exists (c :: e), rest.
      split; [done|]. split; [by constructor|]. split; [done|]. intros [|c' e1] e2 Heq Hne; simpl in Heq; [by subst e2|].
      injection Heq as <- ->. by eapply Hf.
Qed.

Lemma rmatch_sound r s caps k x : rmatch r s caps k = Some x ->
  exists e rest caps', s = e ++ rest /\ matched r e caps caps' /\ k rest caps' = Some x.
Proof.
  revert s caps k x. induction r as [p|p|p|r1 IH1 r2 IH2|r1 IH1 r2 IH2| |n r IH]; intros s caps k x Hm; simpl in *.
  - destruct s as [|c s]; [done|]. destruct (p c) eqn:Ep; [|done]. exists [c], s, caps. eauto 10.
  - apply greedy_sound in Hm as (e & rest & -> & He & Hk). eauto 10.
  - apply lazy_sound in Hm as (e & rest & -> & He & Hk & _). eauto 10.
  - apply IH1 in Hm as (e1 & rest & c1 & -> & H1 & Hk). apply IH2 in Hk as (e2 & rest' & c2 & -> & H2 & Hk).
    exists (e1 ++ e2), rest', c2. rewrite <- app_assoc. eauto 10.
  - destruct (rmatch r1 s caps k) as [y|] eqn:E1.
    + injection Hm as ->. apply IH1 in E1 as (e & rest & c & -> & H1 & Hk). eauto 10.
    + apply IH2 in Hm as (e & rest & c & -> & H2 & Hk). eauto 10.
  - exists [], s, caps. eauto.
  - apply IH in Hm as (e & rest & c & -> & H1 & Hk). exists e, rest, (<[n := e]> c). split; [done|]. split; [eauto|].
    rewrite length_app, Nat.add_sub, take_app_length in Hk. done.
Qed.

(** A match that the rest of the expression follows is found, or one preferred to it. *)
Lemma rmatch_complete r e rest caps caps' k : matched r e caps caps' -> is_Some (k rest caps') -> is_Some (rmatch r (e ++ rest) caps k).
Proof.
  revert e rest caps caps' k. induction r as [p|p|p|r1 IH1 r2 IH2|r1 IH1 r2 IH2| |n r IH]; intros e rest caps caps' k Hm Hk; simpl in *.
  - destruct Hm as [(c & -> & Hp) ->]. simpl. by rewrite Hp.
  - destruct Hm as [He ->]. induction He as [|c e Hc He IH]; simpl; [|rewrite Hc; destruct (greedy _ _ _ _) eqn:Eg; [done|]].
    + destruct rest as [|c rest]; simpl; [done|]. destruct (p c); [|done]. by destruct (greedy _ _ _ _).
    + by destruct IH.
  - destruct Hm as [He ->]. induction He as [|c e Hc He IH]; simpl.
    + destruct Hk as [x Hk]. destruct rest; simpl; by rewrite Hk.
    + destruct (k (c :: e ++ rest) caps); [done|]. by rewrite Hc.
  - destruct Hm as (e1 & e2 & c & -> & H1 & H2). rewrite <- app_assoc. eapply IH1; [done|]. by eapply IH2.
  - destruct (rmatch r1 (e ++ rest) caps k) as [y|] eqn:E1; [done|]. destruct Hm as [H1|H2]; [|by eapply IH2].
    eapply IH1 in H1; [|done]. rewrite E1 in H1. by destruct H1.
  - destruct Hm as [-> ->]. done.
  - destruct Hm as (c & H1 & ->). eapply IH; [done|]. rewrite length_app, Nat.add_sub, take_app_length. done.
Qed.

(** ** The passphrase question *)

(** [e] is [s] up to case. *)
Definition folded (s e : str) : Prop := Forall2 (fun c x => folds c x = true) s e.

Lemma matched_text s e caps caps' : matched (text s) e caps caps' <-> folded s e /\ caps' = caps.
Proof.
  revert e caps'. induction s as [|c s IH]; intros e caps'; simpl.
  - split; [intros [-> ->]; by split; [constructor|]|]. intros [He ->]. by inversion He.
  - split.
    + intros (e1 & e2 & c1 & -> & [(x & -> & Hx) ->] & H2). apply IH in H2 as [H2 ->]. split; [by constructor|done].
    + intros [He ->]. inversion He as [|? x ? e' Hx He']; subst. exists [x], e', caps. split; [done|]. split; [eauto|]. by apply IH.
Qed.

(** Everything before the path, and everything after it. *)
Definition preamble (e : str) : Prop :=
  exists ws enter key, e = ws ++ enter ++ key /\ Forall (fun c => is_whitespace c = true) ws
    /\ folded (lit "Enter passphrase for ") enter /\ (folded (lit "key ") key \/ key = []).
Definition closing (suffix e : str) : Prop :=
  (folded WILL_CONFIRM suffix \/ suffix = [])
  /\ exists spaces, e = suffix ++ [58] ++ spaces /\ Forall (fun c => c = 32) spaces.

(** How a path is shown: in quotes that it does not hold, or bare, from a slash
    to the first colon, less a remark that each use will be confirmed. *)
Inductive shown (path suffix : str) : str -> Prop :=
| shown_quoted q : (q = 39 \/ q = 34) -> path <> [] -> ~ q ∈ path -> shown path suffix ([q] ++ path ++ [q])
| shown_bare rest : path = 47 :: rest -> ~ 58 ∈ path ->
    (suffix = [] -> forall short remark, path = short ++ remark -> short <> [] -> ~ folded WILL_CONFIRM remark) ->
    shown path suffix path.

Definition asks_for (prompt path : str) : Prop :=
  exists pre mid suffix post, prompt = pre ++ mid ++ post /\ preamble pre /\ shown path suffix mid /\ closing suffix post.

Definition passphrase_question (prompt path : str) : Prop := asks_for prompt path /\ ~ 10 ∈ path /\ ~ 13 ∈ path.

Lemma folds_self c x : in_range 65 122 c = false -> folds c x = true -> x = c.
Proof.
  unfold folds, to_ascii_lowercase, is_ascii_uppercase, in_range. intros Hc Hf.
  repeat case_match; bool_to_prop; lia.
Qed.

Lemma matched_tail suffix_post caps caps' : matched RE_TAIL suffix_post caps caps' <->
  caps' = caps /\ exists suffix, closing suffix suffix_post.
Proof.
  unfold RE_TAIL. cbn [matched optional]. setoid_rewrite matched_text. split.
  - intros (e1 & e2 & c1 & -> & H1 & e3 & e4 & c2 & -> & [H3 ->] & [H4 ->]).
    inversion H3 as [|? x ? ? Hx Hn]; subst. inversion Hn; subst. apply folds_self in Hx as ->; [|done].
    assert (c1 = caps /\ (folded WILL_CONFIRM e1 \/ e1 = [])) as [-> He1] by (destruct H1 as [[? ->]|[-> ->]]; auto).
    split; [done|]. exists e1. split; [done|]. exists e4. split; [done|]. eapply Forall_impl; [done|]. by intros c Hc%Z.eqb_eq.
  - intros (-> & suffix & Hs & spaces & -> & Hsp). exists suffix, ([58] ++ spaces), caps. split; [done|].
    split; [destruct Hs as [Hs| ->]; eauto|]. exists [58], spaces, caps. split; [done|]. split.
    + split; [|done]. constructor; [done|constructor].
    + split; [|done]. eapply Forall_impl; [done|]. intros c ->. done.
Qed.

(** *** A passphrase question is recognised *)

Definition is_end (rest : str) (caps : captures) : option captures := match rest with [] => Some caps | _ => None end.

(** The closing is the rest of the prompt. *)
Definition closes (rest : str) (caps : captures) : option captures := rmatch RE_TAIL rest caps is_end.

Lemma closes_sound rest caps x : closes rest caps = Some x -> x = caps /\ exists suffix, closing suffix rest.
Proof.
  intros Hc. apply rmatch_sound in Hc as (e & r & c & -> & Hm & Hk). destruct r; [|done]. injection Hk as ->.
  apply matched_tail in Hm as [-> Hs]. by rewrite app_nil_r.
Qed.

Lemma closes_complete suffix rest caps : closing suffix rest -> is_Some (closes rest caps).
Proof.
  intros Hs. unfold closes. rewrite <- (app_nil_r rest). eapply (rmatch_complete _ _ _ _ caps); [|done].
  apply matched_tail. eauto.
Qed.

Lemma matched_quoted n q e caps caps' : in_range 65 122 q = false ->
  matched (quoted n q) e caps caps' <-> exists path, e = [q] ++ path ++ [q] /\ path <> [] /\ ~ q ∈ path /\ caps' = <[n := path]> caps.
Proof.
  intros Hq. unfold quoted. cbn [matched many1]. setoid_rewrite matched_text. split.
  - intros (e1 & e2 & c1 & -> & [H1 ->] & e3 & e4 & c2 & -> & (c3 & (e5 & e6 & c4 & -> & [(x & -> & Hx) ->] & [H6 ->]) & ->) & [H4 ->]).
    inversion H1 as [|? y ? ? Hy Hn]; subst. inversion Hn; subst. apply folds_self in Hy as ->; [|done].
    inversion H4 as [|? z ? ? Hz Hn']; subst. inversion Hn'; subst. apply folds_self in Hz as ->; [|done].
    exists ([x] ++ e6). split; [done|]. split; [done|]. split; [|done]. rewrite elem_of_app, list_elem_of_singleton.
    unfold not_char in *. intros [->|Hin]; [rewrite Z.eqb_refl in Hx; done|]. rewrite Forall_forall in H6.
    specialize (H6 _ Hin). rewrite Z.eqb_refl in H6. done.
  - intros ([|x path] & -> & Hne & Hin & ->); [done|]. assert (Hs : folded [q] [q]).
    { constructor; [|constructor]. unfold folds. by rewrite Z.eqb_refl. }
    exists [q], ((x :: path) ++ [q]), caps. split; [done|]. split; [done|]. exists (x :: path), [q], (<[n := x :: path]> caps).
    split; [done|]. split; [|done]. exists caps. split; [|done]. unfold not_char.
    assert (Hall : Forall (fun c => negb (c =? q) = true) (x :: path)).
    { apply Forall_forall. intros c Hc. apply negb_true_iff, Z.eqb_neq. by intros ->. }
    apply Forall_cons in Hall as [Hx Hp]. exists [x], path, caps. split; [done|]. split; [|done]. eauto.
Qed.

(** What the path alternative and the closing make of the middle. *)
Lemma path_sound s caps x : caps = ∅ -> rmatch RE_PATH s caps closes = Some x ->
  exists path mid suffix post, s = mid ++ post /\ shown path suffix mid /\ closing suffix post
    /\ or_else (x !! 1%nat) (or_else (x !! 2%nat) (x !! 3%nat)) = Some path.
Proof.
  intros -> Hm. unfold RE_PATH in Hm. cbn [rmatch text] in Hm.
  destruct (rmatch (quoted 1 39) s ∅ closes) as [y|] eqn:E1; [|destruct (rmatch (quoted 2 34) s ∅ closes) as [y|] eqn:E2].
  - injection Hm as ->. apply rmatch_sound in E1 as (e & rest & c & -> & Hq & Hc). apply matched_quoted in Hq as (path & -> & Hne & Hin & ->); [|done].
    apply closes_sound in Hc as [-> [suffix Hs]]. exists path, ([39] ++ path ++ [39]), suffix, rest. split; [done|].
    split; [constructor; auto|]. split; [done|]. by rewrite lookup_insert_eq.
  - injection Hm as ->. apply rmatch_sound in E2 as (e & rest & c & -> & Hq & Hc). apply matched_quoted in Hq as (path & -> & Hne & Hin & ->); [|done].
    apply closes_sound in Hc as [-> [suffix Hs]]. exists path, ([34] ++ path ++ [34]), suffix, rest. split; [done|].
    split; [constructor; auto|]. split; [done|]. rewrite lookup_insert_ne, lookup_insert_eq by done. by rewrite lookup_empty.
  - clear E1 E2. destruct s as [|c s]; [done|]. destruct (folds 47 c) eqn:Ef; [|done]. apply folds_self in Ef as ->; [|done].
    apply lazy_sound in Hm as (e & rest & -> & He & Hk & Hshort). apply closes_sound in Hk as [Hx [suffix Hs]].
    change (47 :: e ++ rest) with ((47 :: e) ++ rest) in *. rewrite length_app, Nat.add_sub, take_app_length in Hx.
    exists (47 :: e), (47 :: e), suffix, rest. split; [done|]. split; [|split; [done|]].
    + eapply shown_bare; [done| |].
      * apply not_elem_of_cons. split; [done|]. intros Hin. rewrite Forall_forall in He. specialize (He _ Hin). done.
      * intros -> short remark Hp Hne Hr. destruct short as [|c short]; [done|]. injection Hp as <- ->.
        destruct Hs as [_ (spaces & -> & Hsp)]. pose proof (Hshort short remark eq_refl) as Hn. cbn beta in Hn.
        match type of Hn with _ -> closes ?r ?c = None => destruct (closes_complete remark r c) as [z Hz] end.
        { split; [by left|]. eauto. }
        rewrite Hn in Hz; [done|]. intros ->. by inversion Hr.
    + rewrite Hx. rewrite lookup_insert_ne, lookup_insert_ne, lookup_insert_eq, !lookup_empty by done. done.
Qed.

(** *** The parts of a question are where they are *)

Lemma drop_while_prefix {A} (p : A -> bool) ws c r : Forall (fun x => p x = true) ws -> p c = false ->
  drop_while p (ws ++ c :: r) = c :: r.
Proof. induction 1 as [|x ws Hx _ IH]; intros Hc; simpl; [by rewrite Hc|]. rewrite Hx. by apply IH. Qed.

Lemma folded_length s e : folded s e -> length e = length s.
Proof. intros Hf. symmetry. by eapply Forall2_length. Qed.

Lemma folds_letter c x : folds c x = true -> x = to_ascii_lowercase c \/ x = to_ascii_lowercase c - 32 \/ x = 383 \/ x = 8490.
Proof.
  unfold folds, to_ascii_lowercase at 2, is_ascii_uppercase, in_range. intros Hf. destruct (_ && _) eqn:Er in Hf; bool_to_prop; lia.
Qed.

(** A path is shown from a quote or a slash on. *)
Lemma shown_head path suffix mid : shown path suffix mid -> exists c r, mid = c :: r /\ (c = 39 \/ c = 34 \/ c = 47).
Proof. intros [q Hq Hne Hin|rest -> _ _]; [exists q, (path ++ [q])|exists 47, rest]; (split; [done|]); tauto. Qed.

Lemma preamble_split pre pre' x x' c c' r r' : preamble pre -> preamble pre' ->
  x = c :: r -> (c = 39 \/ c = 34 \/ c = 47) -> x' = c' :: r' -> (c' = 39 \/ c' = 34 \/ c' = 47) ->
  pre ++ x = pre' ++ x' -> x = x'.
Proof.
  intros (ws & enter & key & -> & Hws & He & Hk) (ws' & enter' & key' & -> & Hws' & He' & Hk') Hx Hc Hx' Hc' Heq.
  assert (Hrest : enter ++ key ++ x = enter' ++ key' ++ x').
  { apply (f_equal (drop_while is_whitespace)) in Heq. rewrite <- !app_assoc in Heq.
    inversion He as [|? a ? ea Ha]; subst enter. inversion He' as [|? b ? eb Hb]; subst enter'. simpl in Heq.
    rewrite !drop_while_prefix in Heq; [done|done| |done|].
    - apply folds_letter in Hb. vm_compute (to_ascii_lowercase _) in Hb. destruct Hb as [-> |[-> |[-> | ->]]]; done.
    - apply folds_letter in Ha. vm_compute (to_ascii_lowercase _) in Ha. destruct Ha as [-> |[-> |[-> | ->]]]; done. }
  apply app_inj_length in Hrest as [_ Hrest]; [|by rewrite (folded_length _ _ He), (folded_length _ _ He')].
  assert (Hno : forall k y d s, folded (lit "key ") k -> (d = 39 \/ d = 34 \/ d = 47) -> k ++ y <> d :: s).
  { intros k y d s Hf Hd Hy. inversion Hf as [|? a ? ea Ha]; subst k. injection Hy as -> _.
    apply folds_letter in Ha. vm_compute (to_ascii_lowercase _) in Ha. lia. }
  destruct Hk as [Hk| ->], Hk' as [Hk'| ->]; simpl in Hrest.
  - by apply app_inj_length in Hrest as [_ Hrest]; [|rewrite (folded_length _ _ Hk), (folded_length _ _ Hk')].
  - subst x'. by apply Hno in Hrest.
  - subst x. symmetry in Hrest. by apply Hno in Hrest.
  - done.
Qed.

Lemma first_occurrence {A} (c : A) a a' r r' : ~ c ∈ a -> ~ c ∈ a' -> a ++ c :: r = a' ++ c :: r' -> a = a' /\ r = r'.
Proof.
  revert a'. induction a as [|x a IH]; intros [|x' a'] Ha Ha' Heq; simplify_eq/=; [done|set_solver|set_solver|].
  destruct (IH a') as [-> ->]; [set_solver|set_solver|done|done].
Qed.

Lemma suffix_no_colon suffix : folded WILL_CONFIRM suffix \/ suffix = [] -> ~ 58 ∈ suffix.
Proof.
  intros [Hf| ->]; [|apply not_elem_of_nil]. intros Hin.
  apply list_elem_of_lookup in Hin as [i Hi]. destruct (Forall2_lookup_r _ _ _ _ _ Hf Hi) as (c & Hc & Hx).
  assert (Hall : Forall (fun c => folds c 58 = false) WILL_CONFIRM) by (repeat constructor).
  rewrite Forall_lookup in Hall. specialize (Hall _ _ Hc). congruence.
Qed.

Lemma shown_unique path path' suffix suffix' mid mid' post post' :
  shown path suffix mid -> shown path' suffix' mid' -> closing suffix post -> closing suffix' post' ->
  mid ++ post = mid' ++ post' -> path = path'.
Proof.
  intros Hs Hs' [Hx (sp & -> & _)] [Hx' (sp' & -> & _)] Heq.
  destruct Hs as [q Hq Hne Hin|rest Hp Hcol Hbare], Hs' as [q' Hq' Hne' Hin'|rest' Hp' Hcol' Hbare'].
  - injection Heq as <- Heq. rewrite <- !app_assoc in Heq. by apply first_occurrence in Heq as [-> _].
  - subst path'. injection Heq as -> _. by destruct Hq.
  - subst path. injection Heq as <- _. by destruct Hq'.
  - rewrite !app_assoc, <- !(app_assoc _ [58]) in Heq. apply first_occurrence in Heq as [Heq _];
      [|rewrite elem_of_app; intros [?|Hin]; [done|]; revert Hin; by apply suffix_no_colon..].
    destruct Hx as [Hx| ->], Hx' as [Hx'| ->]; rewrite ?app_nil_r in Heq.
    + apply (app_inj_2 path path') in Heq as [Heq _]; [done|]. by rewrite (folded_length _ _ Hx), (folded_length _ _ Hx').
    + destruct (Hbare' eq_refl path suffix); [done| |done]. by rewrite Hp.
    + destruct (Hbare eq_refl path' suffix'); [done| |done]. by rewrite Hp'.
    + done.
Qed.

Lemma question_unique prompt path path' : asks_for prompt path -> asks_for prompt path' -> path = path'.
Proof.
  intros (pre & mid & suffix & post & -> & Hpre & Hs & Hc) (pre' & mid' & suffix' & post' & Heq & Hpre' & Hs' & Hc').
  destruct (shown_head _ _ _ Hs) as (c & r & Hm & Hh). destruct (shown_head _ _ _ Hs') as (c' & r' & Hm' & Hh').
  eapply shown_unique; [exact Hs|exact Hs'|exact Hc|exact Hc'|].
  eapply (preamble_split pre pre' _ _ c c' (r ++ post) (r' ++ post')); [done|done| |done| |done|done]; by rewrite ?Hm, ?Hm'.
Qed.

Lemma captures_sound prompt x : captures_of RE prompt = Some x ->
  exists path, asks_for prompt path /\ or_else (x !! 1%nat) (or_else (x !! 2%nat) (x !! 3%nat)) = Some path.
Proof.
  intros Hm. unfold captures_of, RE in Hm. change (fun rest caps => _) with is_end in Hm. cbn [rmatch] in Hm.
  apply greedy_sound in Hm as (ws & s & -> & Hws & Hm).
  apply rmatch_sound in Hm as (enter & s1 & c1 & -> & He & Hm). apply matched_text in He as [He ->].
  change (match rmatch (text (lit "key ")) s1 ∅ ?k with Some x => Some x | None => ?y end) with (rmatch (optional (text (lit "key "))) s1 ∅ k) in Hm.
  apply (rmatch_sound (optional (text (lit "key ")))) in Hm as (key & s2 & c2 & -> & Hk & Hm).
  assert (c2 = ∅ /\ (folded (lit "key ") key \/ key = [])) as [-> Hkey].
  { destruct Hk as [Hk|[-> ->]]; [|auto]. apply matched_text in Hk as [? ->]. auto. }
  apply (path_sound s2 ∅ x eq_refl) in Hm as (path & mid & suffix & post & -> & Hs & Hc & Hx).
  exists path. split; [|done]. exists (ws ++ enter ++ key), mid, suffix, post. rewrite <- !app_assoc. split; [done|].
  split; [|done]. by exists ws, enter, key.
Qed.

Lemma shown_matched path suffix mid : shown path suffix mid -> exists caps, matched RE_PATH mid ∅ caps.
Proof.
  intros [q Hq Hne Hin|rest -> Hcol _].
  - destruct Hq as [-> | ->]; eexists; [left|right; left]; apply matched_quoted; eauto.
  - exists (<[3%nat := 47 :: rest]> ∅). right. right. exists ∅. split; [|done]. exists [47], rest, ∅. split; [done|].
    split; [apply matched_text; split; [by repeat constructor|done]|]. split; [|done].
    apply Forall_forall. intros c Hc. apply negb_true_iff, Z.eqb_neq. intros ->. by apply Hcol; right.
Qed.

Lemma question_captured prompt path : asks_for prompt path -> is_Some (captures_of RE prompt).
Proof.
  intros (pre & mid & suffix & post & -> & (ws & enter & key & -> & Hws & He & Hk) & Hs & Hc).
  destruct (shown_matched _ _ _ Hs) as [caps Hm]. unfold captures_of. rewrite <- (app_nil_r (_ ++ mid ++ post)).
  eapply (rmatch_complete _ _ _ _ caps); [|done]. exists ws, (enter ++ key ++ mid ++ post), ∅. rewrite <- !app_assoc.
  split; [done|]. split; [done|]. exists enter, (key ++ mid ++ post), ∅. split; [done|]. split; [by apply matched_text|].
  exists key, (mid ++ post), ∅. split; [done|]. split; [destruct Hk as [Hk| ->]; [left; by apply matched_text|by right]|].
  exists mid, post, caps. split; [done|]. split; [done|]. apply matched_tail. eauto.
Qed.

Lemma passphrase_path_exact prompt path : passphrase_path prompt = Some path <-> passphrase_question prompt path.
Proof.
  assert (Hline : forall p : str, existsb (fun x => (x =? 10) || (x =? 13)) p = false <-> ~ 10 ∈ p /\ ~ 13 ∈ p).
  { intros p. rewrite <- not_true_iff_false, existsb_exists. split.
    - intros Hn. split; intros Hin; apply Hn; [exists 10|exists 13]; (split; [by apply list_elem_of_In|done]).
    - intros [H1 H2] (x & Hx%list_elem_of_In & Hv). apply orb_true_iff in Hv as [->%Z.eqb_eq| ->%Z.eqb_eq]; done. }
  assert (Hsound : forall p, passphrase_path prompt = Some p -> passphrase_question prompt p).
  { intros p. unfold passphrase_path. destruct (captures_of RE prompt) as [x|] eqn:Ex; [|done].
    apply captures_sound in Ex as (p' & Hq & Hx). simpl. rewrite Hx. simpl.
    destruct (existsb _ p') eqn:El; [done|]. intros [= <-]. split; [done|]. by apply Hline. }
  split; [apply Hsound|]. intros [Hq Hl]. destruct (question_captured _ _ Hq) as [x Hx].
  pose proof Hx as (p' & Hq' & Hg)%captures_sound. pose proof (question_unique _ _ _ Hq Hq') as <-.
  unfold passphrase_path. rewrite Hx. simpl. rewrite Hg. simpl. by apply Hline in Hl as ->.
Qed.

(** C39. A prompt is answered from the store only if it is a passphrase question
    through and through. It is classified as one for the path [path] exactly
    when ssh did not tag it a confirmation, it is one line, and all of it is the
    question of ssh, ssh-add or ssh-keygen: nothing but white space before it,
    the path in quotes it does not contain or bare from a slash to the first
    colon, and nothing after the colon but spaces. Of the others, those that
    carry a mark of a yes or no question or end in a question mark are
    confirmed, and the rest typed into. *)
Theorem prompt_classified_exactly prompt env :
  (forall path, classify_prompt prompt env = Passphrase path <->
     env <> Some (lit "confirm") /\ ~ 10 ∈ prompt /\ passphrase_question prompt path)
  /\ (classify_prompt prompt env = Confirm <->
     env = Some (lit "confirm")
     \/ ((forall path, ~ 10 ∈ prompt -> ~ passphrase_question prompt path)
         /\ (Exists (fun m => str_contains m prompt = true) CONFIRM_MARKERS \/ last (trim_end prompt) = Some 63))).
Proof.
  unfold classify_prompt. case_bool_decide as Henv; [split; [naive_solver|tauto]|].
  assert (Hnl : existsb (Z.eqb 10) prompt = true <-> 10 ∈ prompt).
  { rewrite existsb_exists. split; [intros (x & Hx%list_elem_of_In & <-%Z.eqb_eq); done|].
    intros Hin. exists 10. split; [by apply list_elem_of_In|done]. }
  assert (Hq : forall path, (if existsb (Z.eqb 10) prompt then None else passphrase_path prompt) = Some path
                 <-> ~ 10 ∈ prompt /\ passphrase_question prompt path).
  { intros path. rewrite <- passphrase_path_exact, <- Hnl. destruct (existsb _ _); naive_solver. }
  revert Hq. destruct (if existsb (Z.eqb 10) prompt then None else _) as [p|]; intros Hq.
  { split; [intros path; rewrite <- Hq; naive_solver|]. split; [done|]. intros [?|[Hn _]]; [done|].
    destruct (Hq p) as [Hp _]. destruct (Hp eq_refl) as [H1 H2]. by destruct (Hn p). }
  assert (Hn : forall path, ~ 10 ∈ prompt -> ~ passphrase_question prompt path).
  { intros path H1 H2. discriminate (proj2 (Hq path) (conj H1 H2)). }
  assert (Hm : existsb (fun m => str_contains m prompt) CONFIRM_MARKERS = true <-> Exists (fun m => str_contains m prompt = true) CONFIRM_MARKERS).
  { rewrite existsb_exists, Exists_exists. by setoid_rewrite list_elem_of_In. }
  revert Hm. destruct (existsb (fun m => _) _); intros Hm.
  - split; [intros path; split; [done|naive_solver]|]. split; [intros _; right; split; [done|left; by apply Hm]|done].
  - assert (~ Exists (fun m => str_contains m prompt = true) CONFIRM_MARKERS) by (rewrite <- Hm; done).
    split.
    + intros path. split; [|naive_solver]. by destruct (last _) as [[|[]|]|]; repeat case_match.
    + split; [intros Hc; right; split; [done|]; right; repeat case_match; congruence|].
      intros [?|[_ [?|Hl]]]; [done|done|]. by rewrite Hl.
Qed.
