(* ===== verification/Ssh.v ===== *)
(** * [sm ssh] ([src/cli/ssh.rs])

    Registering, listing and removing keys, and the askpass helper, over the
    client of [Client] and the prompts of [Askpass].  Paths are text.  Then what
    the helper does: nothing is unlocked and no secret is read before the user
    has agreed to the use of the one key that is then answered from. *)
From S2P Require Import Prelude Text Env Crypto Codec Format Sanitize Names Pam Askpass Files Sweep Store Aliases Session State Protocol Daemon Bus Pinentry Client Secrets SecretsProps.

Open Scope cli_scope.

Definition SSH_PROMPT_PATH_LIMIT : Z := 100.

(** [canonicalize] and [std::path::absolute]. *)
Class Disk : Type := {
  dk_canonicalize : str -> result str io_error;
  dk_absolute : str -> result str io_error
}.

Record KeyMatch : Type := { km_item : str; km_display : str; km_locked : bool }.

Definition ssh_query (path : str) : gmap str str :=
  <[lit "xdg:schema" := SSH_SCHEMA]> {[ lit "path" := path ]}.

Definition bool_text (b : bool) : str := if b then lit "true" else lit "false".

Definition key_attrs (path : str) (has_passphrase : bool) : gmap str str :=
  <[lit "has_passphrase" := bool_text has_passphrase]> (ssh_query path).

Definition schema_query : gmap str str := {[ lit "xdg:schema" := SSH_SCHEMA ]}.

(** [starts_with] on bytes. *)
Fixpoint starts_with (s p : bytes) : bool :=
  match p, s with
  | [], _ => true
  | b :: p, c :: s => bool_decide (b = c) && starts_with s p
  | _ :: _, [] => false
  end.

Section ssh.
Context `{E : Env} `{P : SessionPrims} `{B : Bus} `{V : !Values B} `{SV : !Service} `{C : !Console} `{D : Disk}.

Definition canonical (path : str) : result str CliError :=
  map_err (fun e => CUsage (path ++ lit ": " ++ cs_io_text e)) (dk_canonicalize path).

Definition absolute (path : str) : result str CliError := map_err (fun e => CFailed (cs_io_text e)) (dk_absolute path).

Definition canonicalize_missing (path : str) : result str CliError :=
  let? file_name := ok_or (path_file_name path) (CUsage (path ++ lit ": no file name")) in
  match path_parent path with
  | Some (c :: p) =>
    match dk_canonicalize (c :: p) with
    | Ok parent => Ok (path_push parent file_name)
    | Err _ => absolute path
    end
  | _ => absolute path
  end.

Definition ssh_add (path : str) (no_passphrase : bool) : cm unit :=
  let* path := clift (canonical path) in
  let* secret := (if no_passphrase then cret []
                  else let* s := read_password (lit "Passphrase for " ++ path) in cret (utf8 s)) in
  let* client := client_connect in
  let* stale := find_all (ssh_query path) in
  let* _ := delete_each stale in
  let* _ := client_store client (key_attrs path (negb no_passphrase)) (lit "SSH key " ++ path) secret in
  println (lit "Registered " ++ path ++ (if no_passphrase then lit " (no passphrase)" else [])).

Definition ssh_row (info : ItemInfo) : str :=
  let path := escape_control (default [] (if_attributes info !! lit "path")) in
  let stored := bool_decide (if_attributes info !! lit "has_passphrase" = Some (lit "true")) in
  path ++ [9] ++ lit "passphrase: " ++ (if stored then lit "stored" else lit "none") ++ [10].

Fixpoint ssh_rows (items : list str) : cm unit :=
  match items with
  | [] => cret tt
  | item :: items =>
    let* info := item_info item in
    let* _ := write_out (utf8 (ssh_row info)) in
    ssh_rows items
  end.

Definition ssh_list : cm unit :=
  let* client := client_connect in
  let* items := find schema_query in
  ssh_rows items.

Definition ssh_remove (path : str) : cm unit :=
  let* path := clift (match canonical path with Ok p => Ok p | Err _ => canonicalize_missing path end) in
  let* client := client_connect in
  let* items := find_all (ssh_query path) in
  match items with
  | [] => cerr (CNotFound (path ++ lit " is not registered"))
  | _ =>
    let* _ := delete_each items in
    println (lit "Removed " ++ path)
  end.

(** ** askpass *)

Fixpoint prefix_matches (as_prompted : str) (items : list str) (out : list KeyMatch) : cm (list KeyMatch) :=
  match items with
  | [] => cret out
  | item :: items =>
    let* info := item_info item in
    match if_attributes info !! lit "path" with
    | Some stored =>
      if starts_with (utf8 stored) (utf8 as_prompted)
      then prefix_matches as_prompted items (out ++ [{| km_item := item; km_display := stored; km_locked := false |}])
      else prefix_matches as_prompted items out
    | None => prefix_matches as_prompted items out
    end
  end.

Definition registered_keys (path as_prompted : str) : cm (list KeyMatch) :=
  let* '(unlocked, locked) := client_search (ssh_query path) in
  let out := map (fun item => {| km_item := item; km_display := path; km_locked := false |}) unlocked
             ++ map (fun item => {| km_item := item; km_display := path; km_locked := true |}) locked in
  if negb (is_empty out) || negb (str_len as_prompted =? SSH_PROMPT_PATH_LIMIT) then cret out
  else
    let* '(unlocked, _) := client_search schema_query in
    prefix_matches as_prompted unlocked out.

Definition resolve_prompt_path (raw : str) : str := match canonical raw with Ok p => p | Err _ => raw end.

(** A dialog: the configuration is read first. *)
Definition confirm_dialog (req : PinRequest) : cm bool :=
  fun t => let r := cs_confirm (tm_log t) req in
           (Some (map_err (fun e => CFailed (cs_pinentry_text e)) r), note (Confirmed req r) t).
Definition ask_dialog (req : PinRequest) : cm PinOutcome :=
  fun t => let r := cs_ask (tm_log t) req in
           (Some (map_err (fun e => CFailed (cs_pinentry_text e)) r), note (Asked req r) t).

Definition load_pinentry : cm str := clift (map_err CFailed cs_config).

Definition consent_request (path : str) : PinRequest := {|
  pr_title := lit "ssh";
  pr_description := lit "Allow ssh to use the stored passphrase for the key" ++ [10] ++ escape_control path ++ lit "?";
  pr_prompt := []; pr_error := None; pr_repeat := false |}.

Definition no_confirm : bool := bool_decide (cs_var (lit "SM_ASKPASS_NO_CONFIRM") = Some (lit "1")).

Definition consented (path : str) : cm bool :=
  if no_confirm then cret true
  else
    let* _ := load_pinentry in
    confirm_dialog (consent_request path).

(** The one key a prompt is about, if there is one. *)
Definition choose_key (raw : str) : cm (option (Client * KeyMatch)) :=
  let path := resolve_prompt_path raw in
  let* client := ctry client_connect in
  match client with
  | Err _ => cret None
  | Ok client =>
    let* matches := ctry (registered_keys path raw) in
    match matches with
    | Err _ | Ok [] => cret None
    | Ok [one] => cret (Some (client, one))
    | Ok ms =>
      let* _ := warn (lit "secret-manager: " ++ dec (zlen ms) ++ lit " stored keys claim " ++ escape_control path
                      ++ lit "; refusing to choose between them") in
      cret None
    end
  end.

(** Unlocking and reading it, after consent. *)
Definition read_key (client : Client) (one : KeyMatch) : cm (option str) :=
  let* opened := (if km_locked one then ctry (client_unlock [km_item one]) else cret (Ok [])) in
  match opened with
  | Err _ => cret None
  | Ok _ =>
    let* secret := ctry (client_get_secret client (km_item one)) in
    match secret with
    | Err _ | Ok [] => cret None
    | Ok s => cret (from_utf8 s)
    end
  end.

Definition release_passphrase (raw : str) : cm (option str) :=
  let* chosen := choose_key raw in
  match chosen with
  | None => cret None
  | Some (client, one) =>
    let* yes := consented (km_display one) in
    if yes then read_key client one else cerr (CNotFound (lit "key use declined"))
  end.

Definition fallback (prompt : str) (confirm : bool) : cm unit :=
  let* _ := load_pinentry in
  let req := {| pr_title := lit "ssh"; pr_description := escape_control prompt;
                pr_prompt := if confirm then [] else lit "Passphrase:"; pr_error := None; pr_repeat := false |} in
  if confirm then
    let* yes := confirm_dialog req in
    println (if yes : bool then lit "yes" else lit "no")
  else
    let* answer := ask_dialog req in
    match answer with
    | Pin [] => cerr (CNotFound (lit "empty answer; nothing sent"))
    | Pin pin => println pin
    | Cancelled => cerr (CNotFound (lit "cancelled"))
    end.

Definition askpass (words : list str) : cm unit :=
  let prompt := join [32] words in
  let kind := classify_prompt prompt (cs_var (lit "SSH_ASKPASS_PROMPT")) in
  match kind with
  | Passphrase raw =>
    let* pass := release_passphrase raw in
    match pass with
    | Some pass => println pass
    | None => fallback prompt false
    end
  | Confirm => fallback prompt true
  | Other => fallback prompt false
  end.
End ssh.

(** ** What the helper does *)

Section askpass_runs.
Context `{E : Env} `{P : SessionPrims} `{B : Bus} `{V : !Values B} `{SV : !Service} `{C : !Console} `{D : Disk}.

(** Searching and asking, which open nothing. *)
Definition harmless (e : event) : Prop :=
  connecting e \/ searching e \/ inspecting e \/ warning e
  \/ match e with Confirmed _ _ | Asked _ _ => True | _ => False end.

(** Unlocking or reading this item. *)
Definition uses (item : str) (e : event) : Prop :=
  match e with
  | Called (QUnlock objects) _ => objects = [item]
  | Called (QGetSecret i _) _ => i = item
  | _ => prompting e
  end.

(** An unlocked key whose own path starts with what ssh showed of it. *)
Definition claims (raw : str) (l : list event) (one : KeyMatch) : Prop :=
  km_locked one = false /\ starts_with (utf8 (km_display one)) (utf8 raw) = true
  /\ exists props i, Called (QGetAll (km_item one)) (Ok props) ∈ l /\ info_of (km_item one) props = Ok i
       /\ if_attributes i !! lit "path" = Some (km_display one).

(** The key is the one registered for the path of the prompt; or, when ssh cut
    that path off, the one that claims it. *)
Definition registered (raw : str) (one : KeyMatch) (l : list event) : Prop :=
  exists u k, Called (QSearchItems (ssh_query (resolve_prompt_path raw))) (Ok (u, k)) ∈ l
    /\ (km_display one = resolve_prompt_path raw /\ u ++ k = [km_item one] /\ km_locked one = negb (is_empty k)
        \/ u = [] /\ k = [] /\ str_len raw = SSH_PROMPT_PATH_LIMIT /\ claims raw l one).

Lemma claims_mono raw l l' : l ⊆ l' -> forall one, claims raw l one -> claims raw l' one.
Proof. intros Hl one (H1 & H2 & props & i & H3 & H4). split; [done|]. split; [done|]. exists props, i. set_solver. Qed.

Lemma registered_mono raw one l l' : l ⊆ l' -> registered raw one l -> registered raw one l'.
Proof.
  intros Hl (u & k & Hs & Hr). exists u, k. split; [set_solver|]. destruct Hr as [Hr|(-> & -> & Hn & Hc)]; [by left|right].
  split; [done|]. split; [done|]. split; [done|]. by eapply claims_mono.
Qed.

Lemma logs_prefix raw items out : runs harmless
  (fun ms l => exists more, ms = out ++ more /\ Forall (claims raw l) more) (prefix_matches raw items out).
Proof.
  revert out. induction items as [|item items IH]; intros out; simpl.
  { apply logs_ret. exists []. by rewrite app_nil_r. }
  eapply logs_bind; [eapply logs_weaken; [apply logs_info|unfold harmless; tauto|by intros ???]|]. intros i l _ (props & -> & Hi).
  assert (Hrest : forall out', runs harmless (fun ms l => exists more, ms = out' ++ more
                    /\ Forall (claims raw ([Called (QGetAll item) (Ok props)] ++ l)) more) (prefix_matches raw items out')).
  { intros out'. eapply logs_weaken; [apply IH|done|]. intros ms l _ (more & -> & Hm). exists more. split; [done|].
    eapply Forall_impl; [done|]. apply claims_mono. set_solver. }
  destruct (if_attributes i !! lit "path") as [stored|] eqn:Es; [|apply Hrest].
  destruct (starts_with (utf8 stored) (utf8 raw)) eqn:Ew; [|apply Hrest].
  eapply logs_weaken; [apply Hrest|done|]. intros ms l _ (more & -> & Hm). eexists (_ :: more). rewrite <- app_assoc. split; [done|].
  constructor; [|done]. split; [done|]. split; [done|]. exists props, i. split; [set_solver|done].
Qed.

Lemma is_empty_spec {A} (l : list A) : is_empty l = true <-> l = [].
Proof. by destruct l. Qed.

Lemma logs_registered raw : runs harmless (fun ms l => forall one, ms = [one] -> registered raw one l)
  (registered_keys (resolve_prompt_path raw) raw).
Proof.
  unfold registered_keys, client_search. ask; [intros r; unfold harmless; simpl; tauto|]. intros [u k] l _ ->.
  set (out := map _ u ++ map _ k). destruct (is_empty out) eqn:Eo; simpl.
  - assert (Hn : out = []) by (by apply is_empty_spec). apply app_eq_nil in Hn as [Hu%map_eq_nil Hk%map_eq_nil].
    destruct (Z.eqb_spec (str_len raw) SSH_PROMPT_PATH_LIMIT) as [Hlen|]; simpl.
    + ask; [intros r; unfold harmless; simpl; tauto|]. intros [u' k'] l' _ ->.
      eapply logs_weaken; [apply logs_prefix|done|]. intros ms l' _ (more & -> & Hm) one Hone.
      exists u, k. split; [set_solver|]. right. split; [done|]. split; [done|]. split; [done|].
      apply is_empty_spec in Eo. rewrite Eo in Hone. simpl in Hone. subst more. apply Forall_cons in Hm as [Hm _].
      eapply (claims_mono _ l'); [set_solver|exact Hm].
    + apply logs_ret. intros one Hone. apply is_empty_spec in Eo. congruence.
  - apply logs_ret. intros one Hone. exists u, k. split; [set_solver|]. left. subst out.
    destruct u as [|x [|]], k as [|y [|]]; simplify_eq/=; done.
Qed.

Lemma logs_choose raw : runs harmless
  (fun o l => forall cl one, o = Some (cl, one) -> session_of cl l /\ registered raw one l) (choose_key raw).
Proof.
  unfold choose_key. eapply logs_bind; [eapply logs_weaken; [apply logs_try, logs_connect|unfold harmless; tauto|by intros ???]|].
  intros [cl|e] l0 _ Hs; [|by apply logs_ret]. eapply logs_bind; [apply logs_try, logs_registered|].
  intros [[|one [|two ms]]|e] l1 _ Hr; [by apply logs_ret| | |by apply logs_ret].
  - apply logs_ret. intros cl' one' [= <- <-]. split; [eapply session_of_mono; [|by apply Hs]; set_solver|].
    eapply registered_mono; [|by eapply Hr]. set_solver.
  - eapply logs_bind; [apply logs_warn; unfold harmless; simpl; tauto|]. intros _ l2 _ _. by apply logs_ret.
Qed.

(** The user agreed, or has said beforehand not to be asked. *)
Definition agreed (path : str) (l : list event) : Prop :=
  no_confirm = true \/ Confirmed (consent_request path) (Ok true) ∈ l.

Lemma logs_consented path : runs harmless (fun yes l => yes = true -> agreed path l) (consented path).
Proof.
  unfold consented. destruct no_confirm eqn:En; [apply logs_ret; by left|].
  eapply (logs_bind _ (fun _ _ => True)); [by apply logs_lift|]. intros _ l _ _ t. unfold confirm_dialog. simpl.
  set (r := cs_confirm _ _). exists [Confirmed (consent_request path) r]. split; [done|].
  split; [constructor; [unfold harmless; simpl; tauto|done]|]. intros yes Hy ->. right. destruct r as [[]|]; simplify_eq/=. set_solver.
Qed.

(** What was read from the key. *)
Definition read_from (cl : Client) (one : KeyMatch) (pass : str) (l : list event) : Prop :=
  exists s secret, Called (QGetSecret (km_item one) (cl_session cl)) (Ok s) ∈ l
    /\ client_decrypt cl s = Ok secret /\ secret <> [] /\ from_utf8 secret = Some pass.

Lemma logs_read_key cl one : runs (uses (km_item one)) (fun o l => forall pass, o = Some pass -> read_from cl one pass l) (read_key cl one).
Proof.
  unfold read_key. eapply (logs_bind _ (fun _ _ => True)).
  { destruct (km_locked one); [|by apply logs_ret]. apply (logs_any _ (fun r l => forall a, r = Ok a -> True)).
    apply logs_try. unfold client_unlock. ask; [done|]. intros [now prompt] l _ _. destruct (str_eqb prompt ROOT); [by apply logs_ret|].
    eapply (logs_bind _ (fun _ _ => True)); [eapply logs_weaken; [apply logs_prompt|by intros [[] ?| | | | | |]|done]|].
    intros v l' _ _. eapply (logs_bind _ (fun _ _ => True)); [by apply logs_lift|]. intros. by apply logs_ret. }
  intros [paths|e] l0 _ _; [|by apply logs_ret].
  eapply (logs_bind _ (fun r l => forall secret, r = Ok secret ->
            exists s, Called (QGetSecret (km_item one) (cl_session cl)) (Ok s) ∈ l /\ client_decrypt cl s = Ok secret)).
  { apply logs_try. unfold client_get_secret. ask; [done|]. intros s l _ ->. apply logs_lift. intros secret Hd. exists s. set_solver. }
  intros [[|b secret]|e] l1 _ Hs; [by apply logs_ret| |by apply logs_ret]. apply logs_ret. intros pass Hp.
  destruct (Hs _ eq_refl) as (s & Hq & Hd). exists s, (b :: secret). split; [set_solver|done].
Qed.
Lemma release_spec raw t : exists a b, tm_log (snd (release_passphrase raw t)) = tm_log t ++ a ++ b /\ Forall harmless a
  /\ (b = [] \/ exists one, registered raw one a /\ agreed (km_display one) a /\ Forall (uses (km_item one)) b)
  /\ forall pass, fst (release_passphrase raw t) = Some (Ok (Some pass)) ->
       exists one cl, registered raw one a /\ agreed (km_display one) a /\ session_of cl a /\ read_from cl one pass b.
Proof.
  unfold release_passphrase. destruct (logs_choose raw t) as (a0 & Ha0 & Hf0 & Hq0). unfold cbind.
  destruct (choose_key raw t) as [[[[[cl one]|]|e]|] t0]; simpl in *;
    try (exists a0, []; rewrite app_nil_r; split; [done|]; split; [done|]; split; [by left|done]).
  destruct (Hq0 _ eq_refl cl one eq_refl) as [Hs Hr].
  destruct (logs_consented (km_display one) t0) as (a1 & Ha1 & Hf1 & Hq1).
  destruct (consented (km_display one) t0) as [[[yes|e]|] t1]; simpl in *;
    try (exists (a0 ++ a1), []; rewrite Ha1, Ha0, app_nil_r, app_assoc; split; [done|]; split; [by apply Forall_app|]; split; [by left|done]).
  destruct yes; simpl.
  - destruct (logs_read_key cl one t1) as (b & Hb & Hfb & Hqb). exists (a0 ++ a1), b. rewrite Hb, Ha1, Ha0, !app_assoc.
    assert (Hreg : registered raw one (a0 ++ a1)) by (eapply registered_mono; [|done]; set_solver).
    assert (Hag : agreed (km_display one) (a0 ++ a1)) by (destruct (Hq1 true eq_refl eq_refl); [by left|right; set_solver]).
    split; [done|]. split; [by apply Forall_app|]. split; [right; by exists one|]. intros pass Hp. exists one, cl.
    split; [done|]. split; [done|]. split; [eapply session_of_mono; [|done]; set_solver|]. by eapply Hqb.
  - exists (a0 ++ a1), []. rewrite Ha1, Ha0, app_nil_r, app_assoc. split; [done|]. split; [by apply Forall_app|]. by split; [left|].
Qed.

(** What the user answered in the dialog that shows the prompt. *)
Definition dialog_answer (prompt : str) (confirm : bool) (line : str) (l : list event) : Prop :=
  exists req, pr_description req = escape_control prompt
    /\ (if confirm then exists yes, Confirmed req (Ok yes) ∈ l /\ line = (if yes : bool then lit "yes" else lit "no")
        else Asked req (Ok (Pin line)) ∈ l /\ line <> []).

Lemma println_spec line t :
  println line t = (None, t) \/ println line t = (Some (Ok tt), note (Printed (utf8 (line ++ [10]))) t).
Proof. unfold println. destruct (cs_write _ _); auto. Qed.

Lemma fallback_spec prompt confirm t : exists c, tm_log (snd (fallback prompt confirm t)) = tm_log t ++ c
  /\ match fst (fallback prompt confirm t) with
     | Some (Ok _) => exists c' line, c = c' ++ [Printed (utf8 (line ++ [10]))] /\ Forall harmless c' /\ dialog_answer prompt confirm line c'
     | _ => Forall harmless c
     end.
Proof.
  unfold fallback, load_pinentry. unfold cbind at 1 4. unfold clift. destruct cs_config as [pinentry|e]; simpl; [|exists []; by rewrite app_nil_r].
  set (req := {| pr_title := _; pr_description := _; pr_prompt := _; pr_error := _; pr_repeat := _ |}).
  destruct confirm; unfold cbind, confirm_dialog, ask_dialog; simpl.
  - set (r := cs_confirm _ _). assert (Hh : Forall harmless [Confirmed req r]) by (constructor; [unfold harmless; simpl; tauto|done]).
    destruct r as [yes|e] eqn:Er; simpl; [|exists [Confirmed req (Err e)]; split; done].
    destruct (println_spec (if yes then lit "yes" else lit "no") (note (Confirmed req (Ok yes)) t)) as [-> | ->]; simpl.
    + by exists [Confirmed req (Ok yes)].
    + exists ([Confirmed req (Ok yes)] ++ [Printed (utf8 ((if yes then lit "yes" else lit "no") ++ [10]))]). rewrite app_assoc. split; [done|].
      eexists [Confirmed req (Ok yes)], _. split; [done|]. split; [done|]. exists req. split; [done|]. exists yes. split; [set_solver|done].
  - set (r := cs_ask _ _). assert (Hh : Forall harmless [Asked req r]) by (constructor; [unfold harmless; simpl; tauto|done]).
    destruct r as [[[|c pin]|]|e] eqn:Er; simpl; [by exists [Asked req (Ok (Pin []))]| |by exists [Asked req (Ok Cancelled)]|by exists [Asked req (Err e)]].
    destruct (println_spec (c :: pin) (note (Asked req (Ok (Pin (c :: pin)))) t)) as [-> | ->]; simpl.
    + by exists [Asked req (Ok (Pin (c :: pin)))].
    + exists ([Asked req (Ok (Pin (c :: pin)))] ++ [Printed (utf8 ((c :: pin) ++ [10]))]). rewrite app_assoc. split; [done|].
      exists [Asked req (Ok (Pin (c :: pin)))], (c :: pin). split; [done|]. split; [done|]. exists req. split; [done|]. split; [set_solver|done].
Qed.

(** An event of the middle part comes after all of the first. *)
Lemma in_middle {A} (use : A -> Prop) l1 e l2 (a b c : list A) :
  l1 ++ e :: l2 = a ++ b ++ c -> use e -> Forall (fun x => ~ use x) a -> Forall (fun x => ~ use x) c ->
  e ∈ b /\ exists x, l1 = a ++ x.
Proof.
  intros Heq Hu Ha Hc. destruct (decide (length l1 < length a)%nat) as [Hlt|Hge].
  { assert (Hin : a !! length l1 = Some e) by (rewrite <- (lookup_app_l a (b ++ c)), <- Heq by done; by rewrite list_lookup_middle).
    rewrite Forall_lookup in Ha. by destruct (Ha _ _ Hin). }
  assert (Hpre : take (length a) l1 = a).
  { rewrite <- (take_app_le l1 (e :: l2)), Heq, take_app_length by lia. done. }
  rewrite <- (take_drop (length a) l1), Hpre in Heq |- *. set (x := drop (length a) l1) in *. rewrite <- app_assoc in Heq.
  apply app_inv_head in Heq. split; [|by exists x]. assert (Hin : e ∈ b ++ c) by (rewrite <- Heq; set_solver).
  apply elem_of_app in Hin as [|Hin]; [done|]. rewrite Forall_forall in Hc. by destruct (Hc _ Hin).
Qed.
Lemma harmless_unused e : harmless e -> ~ (unlocking e \/ reading e).
Proof. unfold harmless. destruct e as [[] r| | | | | |]; simpl; tauto. Qed.

Lemma harmless_prints l : Forall harmless l -> printed l = [].
Proof. apply printed_none. intros e He out ->. unfold harmless in He. simpl in He. tauto. Qed.

Lemma uses_prints item l : Forall (uses item) l -> printed l = [].
Proof. apply printed_none. by intros e He out ->. Qed.

(** Where a line that was printed came from: a key that is registered for the
    path in the prompt and whose use the user agreed to, or the user. *)
Definition answered (prompt line : str) (l : list event) : Prop :=
  let kind := classify_prompt prompt (cs_var (lit "SSH_ASKPASS_PROMPT")) in
  (exists raw one cl, kind = Passphrase raw /\ registered raw one l /\ agreed (km_display one) l /\ session_of cl l /\ read_from cl one line l)
  \/ dialog_answer prompt (match kind with Confirm => true | _ => false end) line l.

Definition kind_of (words : list str) : AskpassKind := classify_prompt (join [32] words) (cs_var (lit "SSH_ASKPASS_PROMPT")).

(** Whatever opens or reads anything comes after consent to the one key. *)
Definition asked_first (kind : AskpassKind) (l : list event) : Prop :=
  forall l1 e l2, l = l1 ++ e :: l2 -> unlocking e \/ reading e ->
    exists raw one, kind = Passphrase raw /\ registered raw one l1 /\ agreed (km_display one) l1 /\ uses (km_item one) e.

(** One line is printed, last, on success; none otherwise. *)
Definition told (prompt : str) (r : option (result unit CliError)) (l : list event) : Prop :=
  match r with
  | Some (Ok _) => exists l' line, l = l' ++ [Printed (utf8 (line ++ [10]))] /\ printed l' = [] /\ answered prompt line l'
  | _ => printed l = []
  end.

(** The key that was used, if one was. *)
Definition used (kind : AskpassKind) (a b : list event) : Prop :=
  b = [] \/ exists raw one, kind = Passphrase raw /\ registered raw one a /\ agreed (km_display one) a /\ Forall (uses (km_item one)) b.

Lemma used_order kind a b c : Forall harmless a -> used kind a b -> Forall (fun e => ~ (unlocking e \/ reading e)) c ->
  asked_first kind (a ++ b ++ c).
Proof.
  intros Ha Hb Hc l1 e l2 Heq Hu. symmetry in Heq. apply (in_middle (fun e => unlocking e \/ reading e)) in Heq as [Hin [x ->]];
    [|done|eapply Forall_impl; [done|apply harmless_unused]|done].
  destruct Hb as [-> |(raw & one & -> & Hr & Hg & Hf)]; [by apply elem_of_nil in Hin|].
  exists raw, one. split; [done|]. split; [eapply registered_mono; [|done]; set_solver|].
  split; [destruct Hg; [by left|right; set_solver]|]. rewrite Forall_forall in Hf. by apply Hf.
Qed.

Lemma used_prints kind a b : Forall harmless a -> used kind a b -> printed (a ++ b) = [].
Proof.
  intros Ha Hb. unfold printed. rewrite omap_app. fold (printed a) (printed b). rewrite harmless_prints by done.
  destruct Hb as [-> |(raw & one & _ & _ & _ & Hf)]; [done|]. by eapply uses_prints.
Qed.

Lemma dialog_answer_mono prompt confirm line l l' : l ⊆ l' -> dialog_answer prompt confirm line l -> dialog_answer prompt confirm line l'.
Proof.
  intros Hl (req & Hd & Ha). exists req. split; [done|]. destruct confirm; [destruct Ha as (yes & Hy & ->); exists yes|destruct Ha as [Ha Hne]];
    (split; [set_solver|done]).
Qed.

Lemma fallback_after words confirm a b t t0 : confirm = (match kind_of words with Confirm => true | _ => false end) ->
  tm_log t0 = tm_log t ++ a ++ b -> Forall harmless a -> used (kind_of words) a b ->
  let r := fallback (join [32] words) confirm t0 in
  exists l, tm_log (snd r) = tm_log t ++ l /\ asked_first (kind_of words) l /\ told (join [32] words) (fst r) l.
Proof.
  intros Hk Hl Ha Hb. simpl. destruct (fallback_spec (join [32] words) confirm t0) as (c & Hc & Hr). exists (a ++ b ++ c).
  rewrite Hc, Hl, <- !app_assoc. split; [done|]. pose proof (used_prints _ _ _ Ha Hb) as Hpr.
  assert (Hpc : forall c', Forall harmless c' -> printed (a ++ b ++ c') = []).
  { intros c' Hc'. rewrite app_assoc. unfold printed in *. rewrite omap_app, Hpr. by apply harmless_prints. }
  destruct (fst (fallback _ _ _)) as [[[]|e]|]; simpl.
  - destruct Hr as (c' & line & -> & Hc' & Hd). split.
    + apply used_order; [done|done|]. apply Forall_app. split; [eapply Forall_impl; [done|apply harmless_unused]|].
      constructor; [by intros []|done].
    + exists (a ++ b ++ c'), line. rewrite <- !app_assoc. split; [done|]. split; [by apply Hpc|]. right. fold (kind_of words).
      rewrite <- Hk. eapply dialog_answer_mono; [|done]. set_solver.
  - split; [apply used_order; [done|done|eapply Forall_impl; [done|apply harmless_unused]]|by apply Hpc].
  - split; [apply used_order; [done|done|eapply Forall_impl; [done|apply harmless_unused]]|by apply Hpc].
Qed.

End askpass_runs.
