(* ===== verification/VaultCmds.v ===== *)
(** * [sm init], [lock], [unlock], [status], [reload] and [change-password]
      ([src/cli/vault_cmds.rs])

    The commands that work on vault files and the control socket.  Whoever
    answers the socket is the class [Socket]: it keeps its state in the term
    and may change the machine, as the daemon does, and nothing else is known
    of it.  [own_daemon] is the instance that is the daemon of [Daemon].
    The configuration is what [Config.config_load] answered; paths are shown by
    a parameter, and so are the texts of errors. *)
From S2P Require Import Prelude Text Env Crypto Codec Format Sanitize Names Files Sweep Store StoreInv StoreOps StoreKeys StoreProps StoreFrame Aliases Session State Protocol Daemon Pam Config Bus Pinentry Client Secrets SecretsProps.

Open Scope cli_scope.

Class Setup : Type := {
  su_gpg : Type;
  su_load : result (Config su_gpg) ConfigError;      (** [Config::load] *)
  su_path : str -> fpath;                            (** a path as the filesystem sees it *)
  su_display : fpath -> str;
  su_config_text : ConfigError -> str;
  su_crypto_text : CryptoError -> str;
  su_format_text : FormatError -> str;
  su_vault_text : VaultError -> str;
  su_protocol_text : ProtocolError -> str;
  su_debug_response : Response -> str
}.

Class Socket `{B : Bus} {SV : Service} : Type := {
  so_call : bytes -> Request -> sv_state -> world -> result Response ProtocolError * sv_state * world
}.

(** What reading a header can end in: an [io::Error] with a kind of its own, or
    one of kind [InvalidData] around a format error. *)
Inductive header_failure : Type := HIo (e : io_error) | HFormat (e : FormatError).

(** [read_exact] at an offset of an open file. *)
Definition read_exact_at `{Env} (data : bytes) (off len : nat) : io bytes :=
  syscall (fun f => (if (length data <? off + len)%nat then Err READ_EXACT_EOF else Ok (take len (drop off data)), f)).

(** The open file keeps its contents: a vault is replaced by renaming. *)
Definition read_header `{Env} `{VaultCodec} (p : fpath) (w : world) : result Header header_failure * world :=
  do? data, w <- with_err HIo (read_file p w);
  do? prefix, w <- with_err HIo (read_exact_at data 0 PREFIX_LEN w);
  match header_prefix_len prefix with
  | Err e => (Err (HFormat e), w)
  | Ok total =>
    do? rest, w <- with_err HIo (read_exact_at data PREFIX_LEN (total - PREFIX_LEN) w);
    (map_err HFormat (decode_header (prefix ++ rest)), w)
  end.

(** [{:<n}]. *)
Definition padded (n : nat) (s : str) : str := s ++ repeat 32 (n - length s).

Definition validated_collection_id (value : str) : result str CliError :=
  if str_eqb (collection_id_from_label value) value then Ok value
  else Err (CUsage (lit "invalid collection id '" ++ value
                    ++ lit "'; ids use [a-z0-9_] only (`sm init` prints the id it derives from a label)")).

Section commands.
Context `{E : Env} `{PR : Prims} `{P : SessionPrims} `{VC : VaultCodec} `{AT : AliasText}.
Context `{B : Bus} `{V : !Values B} `{SV : !Service} `{C : !Console} `{SU : Setup} `{SO : !Socket}.

Definition machine {A} (f : world -> result A CliError * world) : cm A :=
  fun t => let '(r, w) := f (tm_world t) in (Some r, Term (tm_service t) w (tm_log t)).

Definition control_call (path : bytes) (req : Request) : cm (result Response ProtocolError) :=
  fun t => let '(r, s, w) := so_call path req (tm_service t) (tm_world t) in
           (Some (Ok r), Term s w (tm_log t ++ [Controlled req r])).

Definition load_config : result (Config su_gpg) CliError := map_err (fun e => CFailed (su_config_text e)) su_load.

Definition config_dir (c : Config su_gpg) : fpath := su_path (vc_dir (cf_vault c)).

Definition socket_path : result bytes ProtocolError := socket_path_from (option_map utf8 (cs_var (lit "XDG_RUNTIME_DIR"))).

Definition header_io_text (e : header_failure) : str :=
  match e with HIo e => cs_io_text e | HFormat e => su_format_text e end.

Definition header_params (dir : fpath) (collection : str) (w : world) : result (bytes * KdfParams) CliError * world :=
  let path := vault_path dir collection in
  match read_header path w with
  | (Ok header, w) => (Ok (salt header, kdf header), w)
  | (Err e, w) =>
    (Err (if match e with HIo e => bool_decide (io_kind e = NotFound) | HFormat _ => false end
          then CNotFound (lit "no collection '" ++ collection ++ lit "' at " ++ su_display path)
          else CFailed (su_display path ++ lit ": " ++ header_io_text e)), w)
  end.

Definition control (req : Request) : cm Response :=
  let* path := clift (map_err (fun e => match e with
    | NoRuntimeDir => CUnreachable (lit "XDG_RUNTIME_DIR is not set; the daemon's control socket cannot be located")
    | other => CFailed (su_protocol_text other)
    end) socket_path) in
  let* r := control_call path req in
  match r with
  | Ok (PError e) => cerr (CFailed (escape_control e))
  | Ok r => cret r
  | Err (Connect e) => cerr (CUnreachable (lit "daemon not running (" ++ cs_io_text e
                                           ++ lit "); start it with `systemctl --user start secret-manager`"))
  | Err e => cerr (CFailed (su_protocol_text e))
  end.

Definition validated_option (collection : option str) : result (option str) CliError :=
  match collection with
  | None => Ok None
  | Some c => let? c := validated_collection_id c in Ok (Some c)
  end.

Definition sm_lock (collection : option str) : cm unit :=
  let* collection := clift (validated_option collection) in
  let* _ := control (RLock collection) in
  println (lit "Locked.").

Definition derive (password salt : bytes) (kdf : KdfParams) : result bytes CliError :=
  map_err (fun e => CFailed (su_crypto_text e)) (derive_key password salt kdf).

Definition sm_unlock (collection : str) : cm unit :=
  let* collection := clift (validated_collection_id collection) in
  let* config := clift load_config in
  let* '(salt, kdf) := machine (header_params (config_dir config) collection) in
  let* password := read_password (lit "Password for '" ++ collection ++ lit "'") in
  let* key := clift (derive (utf8 password) salt kdf) in
  let* _ := control (RUnlockWithKey collection key false) in
  println (lit "Unlocked '" ++ collection ++ lit "'.").

Definition status_row (c : CollectionStatus) : str :=
  padded 16 (escape_control (cs_id c)) ++ lit " " ++ padded 24 (escape_control (cs_label c)) ++ lit " "
  ++ padded 9 (if cs_locked c then lit "locked" else lit "unlocked") ++ lit " " ++ dec (cs_items c).

Fixpoint println_each (lines : list str) : cm unit :=
  match lines with
  | [] => cret tt
  | l :: lines => let* _ := println l in println_each lines
  end.

Definition println_warning (id warning : str) : cm unit :=
  warn (lit "warning: " ++ escape_control id ++ lit ": " ++ escape_control warning).

Fixpoint status_warnings (l : list CollectionStatus) : cm unit :=
  match l with
  | [] => cret tt
  | c :: l =>
    let* _ := match cs_warning c with Some w => println_warning (cs_id c) w | None => cret tt end in
    status_warnings l
  end.

Definition sm_status : cm unit :=
  let* r := control RStatus in
  match r with
  | PStatus collections uptime_secs aliases_error =>
    let* _ := println (lit "daemon up " ++ dec uptime_secs ++ lit "s") in
    let* _ := println (padded 16 (lit "ID") ++ lit " " ++ padded 24 (lit "LABEL") ++ lit " " ++ padded 9 (lit "STATE") ++ lit " ITEMS") in
    let* _ := println_each (map status_row collections) in
    let* _ := status_warnings collections in
    match aliases_error with
    | Some e =>
      warn (lit "secret-manager: the alias table is unreadable (" ++ escape_control e
            ++ lit "); names the daemon has not already read are refused, no alias is created or cleared, and nothing will overwrite the file. Repair or delete it, then run `sm reload`.")
    | None => cret tt
    end
  | other => cerr (CFailed (lit "unexpected reply " ++ su_debug_response other))
  end.

Definition sm_reload : cm unit :=
  let* r := control RReload in
  match r with
  | POk => println (lit "Reloaded.")
  | PError e => cerr (CFailed (escape_control e))
  | other => cerr (CFailed (lit "unexpected reply " ++ su_debug_response other))
  end.

Definition sm_change_password (collection : str) : cm unit :=
  let* collection := clift (validated_collection_id collection) in
  let* config := clift load_config in
  let* '(salt, kdf) := machine (header_params (config_dir config) collection) in
  let* old := read_password (lit "Current password") in
  let* new := read_new_password (lit "New password") in
  let new_kdf := kdf_params_from (cf_kdf config) in
  let* new_salt := machine (fun w => with_err (fun e => CFailed (su_crypto_text e)) (try_random_bytes SALT_LEN w)) in
  let* old_key := clift (derive (utf8 old) salt kdf) in
  let* new_key := clift (derive (utf8 new) new_salt new_kdf) in
  let* _ := control (RChangeKey collection old_key new_salt new_kdf new_key) in
  println (lit "Password changed for '" ++ collection ++ lit "'.").

(** *** [sm init] *)

(** What the alias file is told, after the vault is there. *)
Definition claim_default (dir : fpath) (id : str) : cm unit :=
  let* loaded := machine (fun w => let '(r, w) := load_aliases dir w in (Ok r, w)) in
  match loaded with
  | Ok aliases =>
    match aliases !! lit "default" with
    | Some _ => cret tt
    | None =>
      let* saved := machine (fun w => let '(r, w) := save_aliases_to dir (<[lit "default" := id]> aliases) w in (Ok r, w)) in
      match saved with
      | Ok _ => cret tt
      | Err e => warn (lit "warning: collection '" ++ id ++ lit "' was created, but the default alias could not be saved: "
                       ++ escape_control (cs_io_text e))
      end
    end
  | Err e => warn (lit "warning: collection '" ++ id ++ lit "' was created, but " ++ su_display (path_join dir ALIAS_FILE)
                   ++ lit " could not be read (" ++ escape_control (ai_text e)
                   ++ lit "), so it did not claim the `default` alias. Repair or delete that file and run `sm reload`.")
  end.

Definition tell_daemon : cm unit :=
  match socket_path with
  | Err _ => cret tt
  | Ok path =>
    let* r := control_call path RReload in
    match r with
    | Ok (PError e) => warn (lit "warning: running daemon did not reload: " ++ e)
    | Err (Connect _) | Ok _ => cret tt
    | Err e => warn (lit "warning: could not tell the running daemon to reload: " ++ su_protocol_text e)
    end
  end.

Definition vault_failed {A} (r : result A VaultError * world) : result A CliError * world :=
  with_err (fun e => CFailed (su_vault_text e)) r.

Definition init (collection : str) : cm unit :=
  let* config := clift load_config in
  let dir := config_dir config in
  let id := collection_id_from_label collection in
  let path := vault_path dir id in
  let* exists_ := machine (fun w => let '(r, w) := stat path w in (Ok (is_ok r), w)) in
  if exists_ then cerr (CFailed (lit "collection '" ++ id ++ lit "' already exists at " ++ su_display path))
  else
    let* password := read_new_password (lit "Choose a password for collection '" ++ collection ++ lit "'") in
    let* _ := machine (fun w => vault_failed (create path collection (utf8 password) (kdf_params_from (cf_kdf config)) w)) in
    let* _ := claim_default dir id in
    let* _ := tell_daemon in
    let* _ := println (lit "Created collection '" ++ collection ++ lit "' at " ++ su_display path) in
    println (lit "Its id is '" ++ id ++ lit "' " ++ [8212] ++ lit " use `sm unlock --collection " ++ id ++ lit "`.").
End commands.
