(* ===== verification/VaultCmdsProps.v ===== *)
(** * What the vault commands do ([src/cli/vault_cmds.rs])

    First against whoever answers the control socket: which request a command
    sends, and that the key in it comes from the password the user entered and
    the header of the vault's own file.  Then against the daemon: unlocking,
    changing a password, and creating a collection, from the command line down
    to the file. *)
From S2P Require Import Prelude Text Env Crypto Codec Format Sanitize Names Files Sweep Store StoreInv StoreOps StoreKeys StoreProps StoreFrame Aliases Session State Protocol Daemon Pam Config Bus Handlers Batch BusProps Pinentry Client Secrets SecretsProps VaultCmds.

Open Scope cli_scope.

(** ** Reading a header *)

Section header.
Context `{HE : Env} `{HP : Prims} `{HC : VaultCodec}.

Lemma decode_header_prefix_take bs h n : decode_header_prefix bs = Ok (h, n) ->
  header_prefix_len (take PREFIX_LEN bs) = Ok n /\ (PREFIX_LEN <= n <= length bs)%nat /\ decode_header (take n bs) = Ok h.
Proof.
  intros E. unfold decode_header. unfold decode_header_prefix in *. destruct (header_prefix_len bs) as [need|] eqn:En; [|done].
  pose proof En as En'. destruct (Nat.ltb_spec (length bs) need); [done|].
  destruct (take_from_bytes _) as [[h' rest]|] eqn:Et; [|done]. destruct rest; [|done].
  destruct (check_header h') eqn:Ec; [|done]. injection E as -> ->.
  unfold header_prefix_len in En. destruct (Nat.ltb_spec (length bs) 8); [done|].
  destruct (bool_decide (take 8 bs = MAGIC)) eqn:Em; [|done]. destruct (Nat.ltb_spec (length bs) PREFIX_LEN); [done|].
  destruct (MAX_HEADER <? from_le_bytes (take 4 (drop 8 bs))) eqn:El; [done|]. cbn [negb] in En. injection En as En.
  assert (Hlen : forall k, (PREFIX_LEN <= k <= length bs)%nat -> header_prefix_len (take k bs) = Ok n).
  { intros k Hk. unfold header_prefix_len. rewrite !length_take, !skipn_firstn_comm, !firstn_firstn. unfold PREFIX_LEN in *.
    destruct (Nat.ltb_spec (k `min` length bs) 8); [lia|]. rewrite (Nat.min_l 8 k) by lia. rewrite Em. cbn [negb].
    destruct (Nat.ltb_spec (k `min` length bs) 12); [lia|]. rewrite (Nat.min_l 4 (k - 8)) by lia. rewrite El. by rewrite <- En. }
  unfold PREFIX_LEN in *. split; [apply Hlen; lia|]. split; [lia|]. rewrite Hlen by lia. rewrite length_take.
  destruct (Nat.ltb_spec (n `min` length bs) n); [lia|]. rewrite skipn_firstn_comm, firstn_firstn, Nat.min_id, Et. by rewrite Ec.
Qed.

(** A file whose bytes decode. *)
Definition stored (p : fpath) (h : Header) (w : world) : Prop :=
  exists data m t n, fs w !! p = Some (NFile data m t) /\ decode_header_prefix data = Ok (h, n).

Lemma vault_stored v w : vault_inv v w -> stored (path v) (header v) w.
Proof.
  intros [Hv (m & t & Hd)]. pose proof (vo_decodes v Hv) as E. unfold vf_decode in E.
  destruct (decode_header_prefix _) as [[h n]|] eqn:Eh; [|done]. injection E as Eh' _ _. exists (aad v ++ ciphertext v), m, t, n. by subst h.
Qed.

Lemma read_exact_at_outcome data off len w r w' : read_exact_at data off len w = (r, w') ->
  fs w' = fs w /\ forall b, r = Ok b -> b = take len (drop off data) /\ (off + len <= length data)%nat.
Proof.
  intros E. apply syscall_inv in E as [[-> [e ->]]|[-> ->]]; [done|]. cbn [fst snd]. destruct (Nat.ltb_spec (length data) (off + len)); split; try done.
  by intros b [= <-].
Qed.

Lemma read_header_outcome p w r w' : read_header p w = (r, w') ->
  fs w' = fs w /\ forall h h', stored p h w -> r = Ok h' -> h' = h.
Proof.
  unfold read_header, with_err. destruct (read_file p w) as [[data|e] w1] eqn:E1; pose proof (read_touches _ _ _ _ E1) as [_ F1]; cbn [fst snd map_err].
  2:{ by intros [= <- <-]. }
  destruct (read_exact_at data 0 PREFIX_LEN w1) as [[prefix|e] w2] eqn:E2; apply read_exact_at_outcome in E2 as [F2 H2]; cbn [fst snd map_err].
  2:{ intros [= <- <-]. split; [congruence|done]. }
  destruct (H2 _ eq_refl) as [-> Hl]. rewrite drop_0.
  destruct (header_prefix_len (take PREFIX_LEN data)) as [total|e] eqn:En.
  2:{ intros [= <- <-]. split; [congruence|done]. }
  destruct (read_exact_at data PREFIX_LEN _ w2) as [[rest|e] w3] eqn:E3; apply read_exact_at_outcome in E3 as [F3 H3]; cbn [fst snd map_err];
    intros [= <- <-]; (split; [congruence|]); [|done].
  destruct (H3 _ eq_refl) as [-> Hl3]. intros h h' (d & m & t & n & Hd & Hdec) Hr.
  apply syscall_inv in E1 as [[_ [e [=]]]|[_ E1]]. rewrite (resolve_file _ _ _ _ _ _ Hd) in E1. injection E1 as ->.
  apply decode_header_prefix_take in Hdec as (Hn & Hle & Hok). rewrite Hn in En. injection En as ->.
  rewrite take_take_drop in Hr. replace (PREFIX_LEN + (total - PREFIX_LEN))%nat with total in Hr by lia.
  rewrite Hok in Hr. by injection Hr.
Qed.

Lemma read_header_calm `{!Calm HE} p h w : stored p h w -> exists w', read_header p w = (Ok h, w').
Proof.
  intros (d & m & t & n & Hd & Hdec). apply decode_header_prefix_take in Hdec as (Hn & Hle & Hok).
  unfold read_header, with_err, read_file, read_exact_at. rewrite syscall_calm. cbn [fst snd]. rewrite (resolve_file _ _ _ _ _ _ Hd). cbn [map_err].
  rewrite syscall_calm. cbn [fst snd]. destruct (Nat.ltb_spec (length d) (0 + PREFIX_LEN)); [lia|]. cbn [map_err]. rewrite drop_0, Hn.
  rewrite syscall_calm. cbn [fst snd]. destruct (Nat.ltb_spec (length d) (PREFIX_LEN + (n - PREFIX_LEN))); [lia|]. cbn [map_err].
  rewrite take_take_drop. replace (PREFIX_LEN + (n - PREFIX_LEN))%nat with n by lia. rewrite Hok. eauto.
Qed.
End header.

(** ** Which request is sent *)

Section log.
Context `{B : Bus}.
Definition requests (l : list event) : list Request := omap (fun e => match e with Controlled req _ => Some req | _ => None end) l.
Definition inputs (l : list event) : list str := omap (fun e => match e with Entered (Ok line) => Some line | _ => None end) l.
End log.

Section sends.
Context `{E : Env} `{PR : Prims} `{P : SessionPrims} `{VC : VaultCodec} `{AT : AliasText}.
Context `{B : Bus} `{V : !Values B} `{SV : !Service} `{C : !Console} `{SU : Setup} `{SO : !Socket}.

(** A line as it is used: a hidden prompt gives it bare. *)
Definition entered (line : str) : str := if cs_stdin_is_terminal then line else trim_newlines line.

(** Nothing but lines of input separates the two. *)
Definition stays (lines : list str) (t t' : term) : Prop :=
  tm_service t' = tm_service t /\ fs (tm_world t') = fs (tm_world t)
  /\ requests (tm_log t') = requests (tm_log t) /\ inputs (tm_log t') = inputs (tm_log t) ++ lines.

(** A run sends nothing, fails and leaves everything as it was; or it sends
    one request, and the answer decides how it ends: an error of the peer is an
    error of the command, and otherwise only a broken standard output stops
    it. *)
Definition sends (pre : list str -> Request -> Prop) (t : term) (res : option (result unit CliError) * term) : Prop :=
  exists lines, inputs (tm_log (snd res)) = inputs (tm_log t) ++ lines
  /\ ((exists e, fst res = Some (Err e)) /\ stays lines t (snd res)
      \/ exists req sp w r s w', pre lines req /\ socket_path = Ok sp /\ fs w = fs (tm_world t)
           /\ so_call sp req (tm_service t) w = (r, s, w')
           /\ tm_service (snd res) = s /\ tm_world (snd res) = w'
           /\ requests (tm_log (snd res)) = requests (tm_log t) ++ [req]
           /\ match r with
              | Ok (PError _) | Err _ => exists e, fst res = Some (Err e)
              | Ok _ => fst res = Some (Ok tt) \/ fst res = None
              end).

Lemma stays_refl t : stays [] t t.
Proof. unfold stays. by rewrite app_nil_r. Qed.

Lemma stays_trans l l' t t1 t2 : stays l t t1 -> stays l' t1 t2 -> stays (l ++ l') t t2.
Proof. intros (? & ? & ? & Hi) (? & ? & ? & Hi'). split_and!; try congruence. by rewrite Hi', Hi, app_assoc. Qed.

Lemma sends_stop pre t t' e lines : stays lines t t' -> sends pre t (Some (Err e), t').
Proof. intros Hs. exists lines. split; [apply Hs|]. left. eauto. Qed.

Lemma sends_after (pre : list str -> Request -> Prop) lines t t1 res :
  stays lines t t1 -> sends (fun l => pre (lines ++ l)) t1 res -> sends pre t res.
Proof.
  intros Hs (l & Hl & [[He Hl']|(req & sp & w & r & s & w' & Hp & Hsp & Hw & Hc & Hser & Hwo & Hreq & Hr)]);
    (exists (lines ++ l); split; [rewrite Hl; destruct Hs as (_ & _ & _ & ->); by rewrite app_assoc|]).
  - left. split; [done|]. by eapply stays_trans.
  - right. destruct Hs as (S1 & S2 & S3 & S4). exists req, sp, w, r, s, w'. rewrite <- S1, <- S3. split_and!; try done. congruence.
Qed.

(** A pure step. *)
Lemma sends_lift {A} pre t (r : result A CliError) k :
  (forall a, r = Ok a -> sends pre t (k a t)) -> sends pre t (cbind (clift r) k t).
Proof. intros Hk. unfold cbind, clift. destruct r as [a|e]; [by apply Hk|]. eapply sends_stop, stays_refl. Qed.

(** A step on the machine that writes nothing. *)
Lemma sends_machine {A} pre t (f : world -> result A CliError * world) k :
  (forall w r w', f w = (r, w') -> fs w' = fs w) ->
  (forall a t1, f (tm_world t) = (Ok a, tm_world t1) -> stays [] t t1 -> sends pre t1 (k a t1)) ->
  sends pre t (cbind (machine f) k t).
Proof.
  intros Hf Hk. unfold cbind, machine. destruct (f (tm_world t)) as [r w] eqn:Er. pose proof (Hf _ _ _ Er) as Hw.
  assert (Hs : stays [] t (Term (tm_service t) w (tm_log t))) by (unfold stays; cbn; by rewrite app_nil_r).
  destruct r as [a|e]; [|by eapply sends_stop]. eapply (sends_after pre []); [exact Hs|]. by apply Hk.
Qed.

(** Asking the user. *)
Lemma read_password_run prompt t : exists r t1 lines, read_password prompt t = (Some r, t1) /\ stays lines t t1 /\ tm_world t1 = tm_world t
  /\ forall pw, r = Ok pw -> exists line, lines = [line] /\ pw = entered line.
Proof.
  assert (Hs : forall r, stays (match r with Ok line => [line] | Err _ => [] end) t (note (Entered r) t)).
  { intros r. unfold stays, requests, inputs, note. cbn. rewrite !omap_app. destruct r; cbn; by rewrite ?app_nil_r. }
  unfold read_password, entered. destruct cs_stdin_is_terminal.
  - specialize (Hs (cs_hidden (tm_log t) (prompt ++ lit ": "))). do 3 eexists. split; [done|]. split; [exact Hs|]. split; [done|].
    destruct (cs_hidden _ _) as [line|e]; [|done]. intros pw [= <-]. eauto.
  - specialize (Hs (cs_line (tm_log t))). do 3 eexists. split; [done|]. split; [exact Hs|]. split; [done|].
    destruct (cs_line _) as [line|e]; [|done]. intros pw [= <-]. eauto.
Qed.

(** A new password is not empty, and typed twice at a terminal. *)
Definition confirmed (lines : list str) (new : str) : Prop :=
  new <> [] /\ exists line, entered line = new /\ lines = if cs_stdin_is_terminal then [line; line] else [line].

Lemma read_new_password_run prompt t : exists r t1 lines, read_new_password prompt t = (Some r, t1) /\ stays lines t t1
  /\ tm_world t1 = tm_world t /\ forall new, r = Ok new -> confirmed lines new.
Proof.
  unfold read_new_password, cbind. destruct (read_password_run prompt t) as (r & t1 & lines & -> & Hs & Hw & Hr).
  destruct r as [pw|e]; [|by do 3 eexists]. destruct (Hr pw eq_refl) as (line & -> & ->).
  destruct (is_empty (entered line)) eqn:Hne; [by do 3 eexists|]. assert (Hn : entered line <> []) by by destruct (entered line).
  destruct cs_stdin_is_terminal eqn:Hterm.
  - destruct (read_password_run (lit "Repeat") t1) as (r2 & t2 & lines2 & -> & Hs2 & Hw2 & Hr2).
    pose proof (stays_trans _ _ _ _ _ Hs Hs2) as Hs'. destruct r2 as [pw|e]; [|by do 3 eexists; split_and!; try done; congruence].
    destruct (Hr2 pw eq_refl) as (line2 & -> & ->). destruct (str_eqb (entered line) (entered line2)) eqn:Heq; cycle 1.
    { do 3 eexists. split_and!; [done|exact Hs'|congruence|done]. }
    apply str_eqb_eq in Heq. assert (line2 = line) as -> by (unfold entered in Heq; by rewrite Hterm in Heq).
    do 3 eexists. split_and!; [done|exact Hs'|congruence|]. intros new [= <-]. split; [done|]. exists line. by rewrite Hterm.
  - do 3 eexists. split_and!; [done|exact Hs|done|]. intros new [= <-]. split; [done|]. exists line. by rewrite Hterm.
Qed.

Lemma sends_ask {A} (pre : list str -> Request -> Prop) t (m : cm A) k (Q : list str -> A -> Prop) :
  (exists r t1 lines, m t = (Some r, t1) /\ stays lines t t1 /\ tm_world t1 = tm_world t /\ forall a, r = Ok a -> Q lines a) ->
  (forall lines a t1, Q lines a -> sends (fun l => pre (lines ++ l)) t1 (k a t1)) ->
  sends pre t (cbind m k t).
Proof.
  intros (r & t1 & lines & Hm & Hs & _ & Hr) Hk. unfold cbind. rewrite Hm. destruct r as [a|e]; [|by eapply sends_stop].
  eapply sends_after; [exact Hs|]. apply Hk, Hr, eq_refl.
Qed.

(** The request itself, and the line that reports it. *)
Lemma sends_control (pre : list str -> Request -> Prop) t req (k : Response -> cm unit) :
  pre [] req ->
  (forall resp t1, fst (k resp t1) = Some (Ok tt) \/ fst (k resp t1) = None) ->
  (forall resp t1, tm_service (snd (k resp t1)) = tm_service t1 /\ tm_world (snd (k resp t1)) = tm_world t1
     /\ requests (tm_log (snd (k resp t1))) = requests (tm_log t1) /\ inputs (tm_log (snd (k resp t1))) = inputs (tm_log t1)) ->
  sends pre t (cbind (control req) k t).
Proof.
  intros Hp Ho Hk. unfold cbind, control, cbind, clift. destruct socket_path as [sp|e] eqn:Esp; [|eapply sends_stop, stays_refl].
  cbn [map_err]. unfold control_call. destruct (so_call sp req (tm_service t) (tm_world t)) as [[r s] w] eqn:Ec.
  set (t1 := Term s w (tm_log t ++ [Controlled req r])).
  assert (Hl : requests (tm_log t1) = requests (tm_log t) ++ [req] /\ inputs (tm_log t1) = inputs (tm_log t)).
  { unfold requests, inputs, t1. cbn. rewrite !omap_app. cbn. by rewrite app_nil_r. }
  exists []. rewrite app_nil_r. destruct r as [[|cs up al|m]|e].
  - destruct (Hk POk t1) as (H1 & H2 & H3 & H4). split; [cbn; rewrite H4; apply Hl|]. right.
    exists req, sp, (tm_world t), (Ok POk), s, w. cbn. rewrite H1, H2, H3. split_and!; first [done | apply Hl | apply Ho].
  - destruct (Hk (PStatus cs up al) t1) as (H1 & H2 & H3 & H4). split; [cbn; rewrite H4; apply Hl|]. right.
    exists req, sp, (tm_world t), (Ok (PStatus cs up al)), s, w. cbn. rewrite H1, H2, H3. split_and!; first [done | apply Hl | apply Ho].
  - split; [apply Hl|]. right. exists req, sp, (tm_world t), (Ok (PError m)), s, w. split_and!; first [done | apply Hl | cbn; eauto].
  - assert (He : exists e', (match e with
                | Connect e0 => cerr (CUnreachable (lit "daemon not running (" ++ cs_io_text e0 ++ lit "); start it with `systemctl --user start secret-manager`"))
                | _ => cerr (CFailed (su_protocol_text e)) end : cm Response) t1 = (Some (Err e'), t1)) by (destruct e; eexists; reflexivity).
    destruct He as [e' He]. fold t1. rewrite He. split; [apply Hl|]. right.
    exists req, sp, (tm_world t), (Err e), s, w. split_and!; first [done | apply Hl | cbn; eauto].
Qed.

Lemma println_ends line t1 : fst (println line t1) = Some (Ok tt) \/ fst (println line t1) = None.
Proof. unfold println. destruct (cs_write _ _); auto. Qed.

Lemma println_stays line t1 : tm_service (snd (println line t1)) = tm_service t1 /\ tm_world (snd (println line t1)) = tm_world t1
  /\ requests (tm_log (snd (println line t1))) = requests (tm_log t1) /\ inputs (tm_log (snd (println line t1))) = inputs (tm_log t1).
Proof.
  unfold println, requests, inputs. destruct (cs_write _ _); [done|]. cbn. rewrite !omap_app. cbn. by rewrite !app_nil_r.
Qed.

Lemma validated_ok value id : validated_collection_id value = Ok id -> id = value /\ id_ok id.
Proof.
  unfold validated_collection_id. destruct (str_eqb _ _) eqn:Eq; [|done]. apply str_eqb_eq in Eq. intros [= <-].
  split; [done|]. rewrite <- Eq. apply collection_id_ok.
Qed.

Lemma validated_id id : id_ok id -> validated_collection_id id = Ok id.
Proof. intros H. unfold validated_collection_id. rewrite (collection_id_fixed id H). unfold str_eqb. by rewrite bool_decide_eq_true_2. Qed.

Lemma header_params_outcome dir id w r w' : header_params dir id w = (r, w') ->
  fs w' = fs w /\ forall x, r = Ok x -> exists h, read_header (vault_path dir id) w = (Ok h, w') /\ x = (salt h, kdf h).
Proof.
  unfold header_params. destruct (read_header _ w) as [[h|e] w1] eqn:Er; pose proof (read_header_outcome _ _ _ _ Er) as [F _];
    intros [= <- <-]; (split; [done|]); [|done]. intros x [= <-]. eauto.
Qed.

(** The key comes from the line the user entered and the header of the file. *)
Definition own_unlock (collection : str) (w : world) (lines : list str) (req : Request) : Prop :=
  exists config h w1 line key, id_ok collection /\ su_load = Ok config
    /\ read_header (vault_path (config_dir config) collection) w = (Ok h, w1)
    /\ lines = [line] /\ derive_key (utf8 (entered line)) (salt h) (kdf h) = Ok key
    /\ req = RUnlockWithKey collection key false.

Definition own_change (collection : str) (w : world) (lines : list str) (req : Request) : Prop :=
  exists config h w1 line more new old_key new_salt new_key, id_ok collection /\ su_load = Ok config
    /\ read_header (vault_path (config_dir config) collection) w = (Ok h, w1)
    /\ lines = line :: more /\ confirmed more new
    /\ derive_key (utf8 (entered line)) (salt h) (kdf h) = Ok old_key
    /\ length new_salt = SALT_LEN
    /\ derive_key (utf8 new) new_salt (kdf_params_from (cf_kdf config)) = Ok new_key
    /\ req = RChangeKey collection old_key new_salt (kdf_params_from (cf_kdf config)) new_key.

Lemma derive_Ok pw s k key : derive pw s k = Ok key -> derive_key pw s k = Ok key.
Proof. unfold derive. by destruct (derive_key pw s k); intros [= <-]. Qed.

Lemma load_config_Ok c : load_config = Ok c -> su_load = Ok c.
Proof. unfold load_config. by destruct su_load; intros [= <-]. Qed.

Lemma unlock_sends collection t : sends (own_unlock collection (tm_world t)) t (sm_unlock collection t).
Proof.
  unfold sm_unlock. apply sends_lift. intros id [-> Hid]%validated_ok. apply sends_lift. intros config Hc%load_config_Ok.
  apply sends_machine; [intros w r w' H; by apply header_params_outcome in H as [? _]|].
  intros [s k] t1 Hh Hs1. apply header_params_outcome in Hh as (_ & Hh). destruct (Hh _ eq_refl) as (h & Hr & [= -> ->]).
  eapply sends_ask; [apply read_password_run|]. intros lines pw t2 (line & -> & ->). apply sends_lift. intros key Hk%derive_Ok. apply sends_control.
  - exists config, h, (tm_world t1), line, key. split_and!; done.
  - intros resp t3. apply println_ends.
  - intros resp t3. apply println_stays.
Qed.

Lemma change_sends collection t : sends (own_change collection (tm_world t)) t (sm_change_password collection t).
Proof.
  unfold sm_change_password. apply sends_lift. intros id [-> Hid]%validated_ok. apply sends_lift. intros config Hc%load_config_Ok.
  apply sends_machine; [intros w r w' H; by apply header_params_outcome in H as [? _]|].
  intros [s k] t1 Hh Hs1. apply header_params_outcome in Hh as (_ & Hh). destruct (Hh _ eq_refl) as (h & Hr & [= -> ->]).
  eapply sends_ask; [apply read_password_run|]. intros lines pw t2 (line & -> & ->).
  eapply sends_ask; [apply read_new_password_run|]. intros more new t3 Hconf.
  apply sends_machine.
  { intros w r w'. unfold with_err, try_random_bytes. destruct (random SALT_LEN w) as [[o|] w1] eqn:Er; apply random_fs in Er; by intros [= _ <-]. }
  intros new_salt t4 Hrng Hs4. apply sends_lift. intros old_key Ho%derive_Ok. apply sends_lift. intros new_key Hn%derive_Ok. apply sends_control.
  - exists config, h, (tm_world t1), line, more, new, old_key, new_salt, new_key. rewrite !app_nil_r. split_and!; try done.
    revert Hrng. unfold with_err, try_random_bytes. destruct (random SALT_LEN _) as [[o|] w1] eqn:Er; [|done].
    intros [= <- _]. apply (length_random SALT_LEN (tm_world t3)). by rewrite Er.
  - intros resp t5. apply println_ends.
  - intros resp t5. apply println_stays.
Qed.

End sends.

(** ** The daemon at the other end *)

(** The daemon of [Daemon] behind the socket: by [Control.call_meets_server] a
    call returns what its handler answered.  Its state is a part of the state
    of everybody else, [at_] its clock. *)
Definition own_daemon `{E : Env} `{PR : Prims} `{VC : VaultCodec} `{AT : AliasText} `{B : Bus} `{SV : !Service}
    (vault_text : VaultError -> str) (register_all : ServiceState -> result unit str)
    (daemon_of : sv_state -> Daemon) (with_daemon : Daemon -> sv_state -> sv_state) (at_ : sv_state -> Z) : Socket := {|
  so_call _ req s w :=
    let '(resp, _, dm, w) := handle_control vault_text register_all req (at_ s) (daemon_of s) w in
    (Ok resp, with_daemon dm s, w)
|}.

Section own.
Context `{E : Env} `{PR : Prims} `{P : SessionPrims} `{VC : VaultCodec} `{AT : AliasText}.
Context `{!EnvOk E} `{!PrimsOk PR} `{!VaultCodecOk VC}.
Context `{B : Bus} `{V : !Values B} `{SV : !Service} `{C : !Console} `{SU : Setup}.
Context (vault_text : VaultError -> str) (register_all : ServiceState -> result unit str).
Context (daemon_of : sv_state -> Daemon) (with_daemon : Daemon -> sv_state -> sv_state) (at_ : sv_state -> Z).
Context (Hget : forall d s, daemon_of (with_daemon d s) = d).

#[local] Instance own : Socket := own_daemon vault_text register_all daemon_of with_daemon at_.

Definition state_of (t : term) : ServiceState := dm_state (daemon_of (tm_service t)).

(** The daemon in [t] serves the directory the configuration names, and its
    files hold what it has in memory. *)
Definition serves (config : Config su_gpg) (t : term) : Prop :=
  su_load = Ok config /\ kdf_wf (kdf_params_from (cf_kdf config))
  /\ vault_dir (state_of t) = config_dir config /\ daemon_ok (state_of t) (tm_world t).

Lemma daemon_ok_fs st w w' : fs w' = fs w -> daemon_ok st w -> daemon_ok st w'.
Proof. intros F H id v Hv. destruct (H id v Hv) as [Hp Hi]. split; [done|]. apply (inv_unchanged v w); [done|]. by rewrite F. Qed.

(** The header the command reads is the one the daemon holds. *)
Lemma header_of_vault config t id h w1 v : serves config t -> read_header (vault_path (config_dir config) id) (tm_world t) = (Ok h, w1) ->
  vault (state_of t) id = Some v -> h = header v.
Proof.
  intros (_ & _ & Hd & Hok) Hr Hv. destruct (Hok id v Hv) as [Hp Hi]. apply read_header_outcome in Hr as [_ Hr].
  apply (Hr (header v)); [|done]. rewrite <- Hd, <- Hp. by apply vault_stored.
Qed.

Lemma stays_serves lines config t t' : stays lines t t' -> serves config t -> serves config t' /\ state_of t' = state_of t.
Proof.
  intros (Hs & Hf & _) (Hl & Hk & Hd & Hok). unfold serves, state_of in *. rewrite Hs. split; [|done]. split_and!; try done. by eapply daemon_ok_fs.
Qed.

Definition others_kept (id : str) (t t' : term) : Prop := forall i, i <> id -> vault (state_of t') i = vault (state_of t) i.

(** The vault of a collection was opened with a line the user entered. *)
Definition unlocked_by (id line : str) (t t' : term) : Prop :=
  exists v v' l key, vault (state_of t) id = Some v /\ derive_key (utf8 (entered line)) (salt (header v)) (kdf (header v)) = Ok key
    /\ sealed_as v key l /\ vault (state_of t') id = Some v' /\ state v' = SUnlocked key l /\ pinned v' = false.

Lemma unlock_run config t id o t' : serves config t -> sm_unlock id t = (o, t') ->
  serves config t' /\ others_kept id t t'
  /\ match o with
     | Some (Err _) => vault (state_of t') id = vault (state_of t) id
     | _ => exists line, inputs (tm_log t') = inputs (tm_log t) ++ [line] /\ unlocked_by id line t t'
     end.
Proof.
  intros Hsv Er. pose proof (unlock_sends id t) as Hs. rewrite Er in Hs. destruct Hs as (lines & Hl & Hs). cbn [fst snd] in *.
  destruct Hs as [[[e ->] Hst]|(req & sp & w & r & s & w' & (c & h & w1 & line & key & Hid & Hc & Hrh & -> & Hk & ->) & _ & Hw & Hcall & Hts & Htw & _ & Ho)].
  { destruct (stays_serves _ _ _ _ Hst Hsv) as [Hsv' Heq]. split; [done|]. unfold others_kept. by rewrite Heq. }
  cbn [so_call own own_daemon] in Hcall. destruct (handle_control _ _ _ _ _ _) as [[[resp sigs] dm'] w2] eqn:Eh. injection Hcall as <- <- <-.
  destruct Hsv as (Hld & Hkw & Hd & Hok). assert (c = config) as -> by congruence.
  assert (Hokw : daemon_ok (state_of t) w) by (by eapply daemon_ok_fs).
  destruct (handle_control_ok _ _ _ _ _ _ _ _ _ _ Hokw (I : request_wf (RUnlockWithKey id key false)) (ltac:(done)) Eh) as [Hok' Hd'].
  assert (Hst' : state_of t' = dm_state dm') by (unfold state_of; by rewrite Hts, Hget).
  pose proof (unlock_request_exact _ _ _ _ _ _ vault_text id key false (at_ (tm_service t)) _ w Hokw) as Hx.
  cbn [handle_control] in Eh. rewrite Eh in Hx. destruct Hx as (Hyes & _ & Hno & Hoth). unfold others_kept.
  split; [|split; [intros i Hi; rewrite Hst'; by apply Hoth|]].
  { unfold serves. rewrite Hst', Htw. split_and!; [done|done|by rewrite Hd'|done]. }
  assert (Hd2 : resp = POk \/ resp <> POk) by (destruct resp; auto). destruct Hd2 as [->|Hr].
  - destruct (Hyes eq_refl) as (v & v' & l & Hv & _ & Hsl & Hv' & Hsv' & Hpin & _).
    assert (exists line, inputs (tm_log t') = inputs (tm_log t) ++ [line] /\ unlocked_by id line t t').
    { exists line. split; [done|]. assert (h = header v) as ->.
      { eapply header_of_vault; [by split_and!|exact Hrh|exact Hv]. }
      exists v, v', l, key. rewrite Hst'. split_and!; done. }
    destruct Ho as [-> | ->]; done.
  - destruct (Hno Hr) as (Hkept & _). destruct resp as [|cs up al|m]; [done| |].
    + unfold unlock_with_key_request in Eh. destruct (vault _ id); [|done]. by destruct (unlock_with_key key v w) as [[[?|?] ?] ?].
    + destruct Ho as [e ->]. rewrite Hst'. apply Hkept.
Qed.

(** The user will answer the next prompt with a line. *)
Definition will_enter (prompt line : str) (t : term) : Prop :=
  (if cs_stdin_is_terminal then cs_hidden (tm_log t) (prompt ++ lit ": ") else cs_line (tm_log t)) = Ok line.

Lemma read_password_eq prompt line t : will_enter prompt line t ->
  read_password prompt t = (Some (Ok (entered line)), note (Entered (Ok line)) t).
Proof. unfold will_enter, read_password, entered. by destruct cs_stdin_is_terminal; intros ->. Qed.

Definition unlock_prompt (id : str) : str := lit "Password for '" ++ id ++ lit "'".

Lemma unlock_not_refused `{!Calm E} config t id v key l line : serves config t -> id_ok id -> is_ok socket_path = true ->
  vault (state_of t) id = Some v -> state v = SLocked -> retired v = false -> sealed_as v key l ->
  will_enter (unlock_prompt id) line t -> derive_key (utf8 (entered line)) (salt (header v)) (kdf (header v)) = Ok key ->
  (forall e, fst (sm_unlock id t) <> Some (Err e)) /\ inputs (tm_log (snd (sm_unlock id t))) = inputs (tm_log t) ++ [line].
Proof.
  intros Hsv Hid Hsp Hv Hlk Hre Hsl Hent Hk. destruct Hsv as (Hld & Hkw & Hd & Hok). destruct (Hok id v Hv) as [Hp Hi].
  destruct (read_header_calm (path v) (header v) (tm_world t)) as [w1 Hrh]; [by apply vault_stored|].
  pose proof (read_header_outcome _ _ _ _ Hrh) as [Hf1 _]. unfold sm_unlock, cbind, clift. rewrite (validated_id id Hid).
  unfold load_config. rewrite Hld. cbn [map_err]. unfold machine, header_params. rewrite <- Hd, <- Hp, Hrh.
  cbv beta iota zeta. set (t1 := Term (tm_service t) w1 (tm_log t)). fold (unlock_prompt id). rewrite (read_password_eq (unlock_prompt id) line t1 Hent).
  unfold derive. rewrite Hk. cbn [map_err]. unfold control, cbind, clift. destruct socket_path as [sp|?]; [|done]. cbn [map_err].
  unfold control_call. cbn [so_call own own_daemon tm_service tm_world note t1].
  destruct (handle_control _ _ _ _ _ _) as [[[resp sigs] dm'] w2] eqn:Eh. cbn [handle_control] in Eh.
  pose proof (unlock_request_exact _ _ _ _ _ _ vault_text id key false (at_ (tm_service t)) _ w1 (daemon_ok_fs _ _ _ Hf1 Hok)) as Hx.
  unfold state_of in *. rewrite Eh in Hx. destruct Hx as (_ & Hy & _). rewrite (Hy v l Hv Hlk Hre Hsl).
  cbv beta iota zeta delta [cret]. lazymatch goal with |- context [println ?x ?y] => destruct (println_ends x y) as [Hpr|Hpr], (println_stays x y) as (_ & _ & _ & Hin) end;
    rewrite Hpr, Hin; (split; [done|]); unfold inputs; cbn; rewrite !omap_app; cbn; by rewrite app_nil_r.
Qed.

(** ** Changing a password *)

(** The vault of a collection went from one password to another: the same
    items, now under the key of the new one with the salt and parameters in the
    new header. *)
Definition rekeyed (id line new : str) (config : Config su_gpg) (t t' : term) : Prop :=
  exists v v' l old_key new_key, vault (state_of t) id = Some v /\ vault (state_of t') id = Some v'
    /\ derive_key (utf8 (entered line)) (salt (header v)) (kdf (header v)) = Ok old_key /\ sealed_as v old_key l
    /\ derive_key (utf8 new) (salt (header v')) (kdf (header v')) = Ok new_key /\ sealed_as v' new_key l
    /\ kdf (header v') = kdf_params_from (cf_kdf config) /\ salt (header v') <> salt (header v)
    /\ is_locked v' = is_locked v /\ retired v' = retired v.

(** A password that opened a collection still does, to the same items. *)
Definition password_kept (id : str) (t t' : term) : Prop :=
  match vault (state_of t) id with
  | None => vault (state_of t') id = None
  | Some v => exists v', vault (state_of t') id = Some v' /\ salt (header v') = salt (header v) /\ kdf (header v') = kdf (header v)
                /\ is_locked v' = is_locked v
                /\ forall line key l, inputs (tm_log t) ++ [line] `prefix_of` inputs (tm_log t') ->
                     derive_key (utf8 (entered line)) (salt (header v)) (kdf (header v)) = Ok key -> sealed_as v key l -> sealed_as v' key l
  end.

Lemma password_kept_same id t t' : vault (state_of t') id = vault (state_of t) id -> password_kept id t t'.
Proof. intros Hv. unfold password_kept. rewrite Hv. destruct (vault (state_of t) id) as [v|]; [|done]. exists v. by split_and!. Qed.

Lemma change_run config t id o t' : serves config t -> sm_change_password id t = (o, t') ->
  serves config t' /\ others_kept id t t'
  /\ match o with
     | Some (Err _) => password_kept id t t'
     | _ => exists line more new, inputs (tm_log t') = inputs (tm_log t) ++ line :: more /\ confirmed more new /\ rekeyed id line new config t t'
     end.
Proof.
  intros Hsv Er. pose proof (change_sends id t) as Hs. rewrite Er in Hs. destruct Hs as (lines & Hl & Hs). cbn [fst snd] in *.
  destruct Hs as [[[e ->] Hst]|(req & sp & w & r & s & w' & (c & h & w1 & line & more & new & old_key & nsalt & new_key & Hid & Hc & Hrh & -> & Hconf & Hk & Hns & Hnk & ->) & _ & Hw & Hcall & Hts & Htw & _ & Ho)].
  { destruct (stays_serves _ _ _ _ Hst Hsv) as [Hsv' Heq]. split; [done|]. unfold others_kept. rewrite Heq. split; [done|].
    apply password_kept_same. by rewrite Heq. }
  cbn [so_call own own_daemon] in Hcall. destruct (handle_control _ _ _ _ _ _) as [[[resp sigs] dm'] w2] eqn:Eh. injection Hcall as <- <- <-.
  pose proof Hsv as (Hld & Hkw & Hd & Hok). assert (c = config) as -> by congruence.
  assert (Hokw : daemon_ok (state_of t) w) by (by eapply daemon_ok_fs).
  destruct (handle_control_ok _ _ _ _ _ _ _ _ _ _ Hokw (conj Hns Hkw : request_wf (RChangeKey id old_key nsalt _ new_key)) (ltac:(done)) Eh) as [Hok' Hd'].
  assert (Hst' : state_of t' = dm_state dm') by (unfold state_of; by rewrite Hts, Hget).
  assert (Hsv' : serves config t') by (unfold serves; rewrite Hst', Htw; split_and!; [done|done|by rewrite Hd'|done]).
  cbn [handle_control] in Eh. unfold Daemon.change_key_request in Eh. cbv zeta in Eh. fold (state_of t) in Eh.
  destruct (vault (state_of t) id) as [v|] eqn:Ev; cycle 1.
  { injection Eh as <- <- <- <-. destruct Ho as [e ->]. split; [done|]. assert (state_of t' = state_of t) as Heq by (by rewrite Hst').
    unfold others_kept. rewrite Heq. split; [done|]. apply password_kept_same. by rewrite Heq. }
  destruct (Hokw id v Ev) as [Hp Hi]. destruct (change_key old_key nsalt _ new_key v w) as [[rc v'] w3] eqn:Ec.
  apply change_key_outcome in Ec as (_ & Hlk & _ & Hrc); [|done..]. injection Eh as <- _ <- <-. cbn [dm_state with_state_of] in Hst'.
  assert (Hv' : vault (state_of t') id = Some v').
  { rewrite Hst'. unfold vault, put_vault, set_collections. cbn [collections set_maps]. by rewrite lookup_insert_eq. }
  split; [done|]. split.
  { intros i Hne. rewrite Hst'. unfold vault, put_vault, set_collections. cbn [collections set_maps]. by rewrite lookup_insert_ne. }
  assert (h = header v) as -> by (eapply header_of_vault; [exact Hsv|exact Hrh|exact Ev]).
  destruct rc as [u|e].
  - destruct Hrc as (l & Hsl & Hsl' & Hs & Hkd & Hne & Hret).
    assert (exists line more new, inputs (tm_log t') = inputs (tm_log t) ++ line :: more /\ confirmed more new /\ rekeyed id line new config t t').
    { exists line, more, new. split_and!; [done|done|]. exists v, v', l, old_key, new_key. rewrite Hs, Hkd. split_and!; done. }
    destruct Ho as [-> | ->]; done.
  - destruct Ho as [e' ->]. unfold password_kept. rewrite Ev. exists v'. destruct Hrc as (Hks & (_ & _ & _ & Hk1 & Hk2 & _) & _).
    split_and!; try done. intros line' key l [x Hx] Hd1. rewrite Hl, <- app_assoc in Hx. apply app_inv_head in Hx. injection Hx as -> _.
    assert (key = old_key) as -> by congruence. apply Hks.
Qed.


End own.

(** ** Creating a collection *)

Section init.
Context `{E : Env} `{PR : Prims} `{P : SessionPrims} `{VC : VaultCodec} `{AT : AliasText}.
Context `{!EnvOk E} `{!PrimsOk PR} `{!VaultCodecOk VC}.
Context `{B : Bus} `{V : !Values B} `{SV : !Service} `{C : !Console} `{SU : Setup} `{SO : !Socket}.

Lemma claim_default_run dir id t : exists t1, claim_default dir id t = (Some (Ok tt), t1) /\ vaults_kept dir (tm_world t) (tm_world t1)
  /\ tm_service t1 = tm_service t /\ requests (tm_log t1) = requests (tm_log t) /\ inputs (tm_log t1) = inputs (tm_log t).
Proof.
  assert (Hw : forall text t1, requests (tm_log (note (Warned text) t1)) = requests (tm_log t1) /\ inputs (tm_log (note (Warned text) t1)) = inputs (tm_log t1)).
  { intros text t1. unfold requests, inputs, note. cbn. rewrite !omap_app. cbn. by rewrite !app_nil_r. }
  unfold claim_default, cbind, machine. destruct (load_aliases dir (tm_world t)) as [r w1] eqn:E1. apply load_aliases_fs in E1.
  assert (Hk : vaults_kept dir (tm_world t) w1) by (intros i; by rewrite E1). destruct r as [m|e]; cbv beta iota.
  - destruct (m !! lit "default"); [eexists; split; [done|]; by split_and!|]. cbn [tm_world].
    destruct (save_aliases_to dir _ w1) as [r w2] eqn:E2. apply save_aliases_kept in E2.
    assert (Hk2 : vaults_kept dir (tm_world t) w2) by (intros i; by rewrite E2). destruct r as [u|e]; eexists; (split; [done|]); cbn -[requests inputs note]; [by split_and!|].
    destruct (Hw (lit "warning: collection '" ++ id ++ lit "' was created, but the default alias could not be saved: " ++ escape_control (cs_io_text e)) (Term (tm_service t) w2 (tm_log t))) as [H1 H2]. by split_and!.
  - eexists; (split; [done|]). cbn -[requests inputs note]. split; [done|]. split; [done|]. apply (Hw _ (Term (tm_service t) w1 (tm_log t))).
Qed.

(** The daemon, if there can be one, was told once. *)
Definition told (t t' : term) : Prop :=
  match socket_path with
  | Err _ => tm_service t' = tm_service t /\ tm_world t' = tm_world t /\ requests (tm_log t') = requests (tm_log t)
  | Ok sp => exists r, so_call sp RReload (tm_service t) (tm_world t) = (r, tm_service t', tm_world t')
                       /\ requests (tm_log t') = requests (tm_log t) ++ [RReload]
  end.

Lemma tell_daemon_run t : exists t1, tell_daemon t = (Some (Ok tt), t1) /\ told t t1 /\ inputs (tm_log t1) = inputs (tm_log t).
Proof.
  unfold tell_daemon, told. destruct socket_path as [sp|e]; [|by exists t]. unfold cbind, control_call.
  destruct (so_call sp RReload (tm_service t) (tm_world t)) as [[r s] w]. set (t1 := Term s w (tm_log t ++ [Controlled RReload r])).
  assert (Ht1 : (exists r', (r, s, w) = (r', tm_service t1, tm_world t1) /\ requests (tm_log t1) = requests (tm_log t) ++ [RReload])
                /\ inputs (tm_log t1) = inputs (tm_log t)).
  { unfold requests, inputs, t1. cbn. rewrite !omap_app. cbn. rewrite app_nil_r. eauto. }
  assert (Hw : forall text, exists t2, (warn text t1 : option (result unit CliError) * term) = (Some (Ok tt), t2)
      /\ (exists r', (r, s, w) = (r', tm_service t2, tm_world t2) /\ requests (tm_log t2) = requests (tm_log t) ++ [RReload])
      /\ inputs (tm_log t2) = inputs (tm_log t)).
  { intros text. eexists. split; [done|]. destruct Ht1 as [[r' [Hr Hq]] Hi]. unfold requests, inputs in *. cbn -[t1]. rewrite !omap_app. cbn -[t1].
    rewrite !app_nil_r. eauto. }
  destruct r as [[|? ? ?|m]|[]]; try (exists t1; split; [done|exact Ht1]); apply Hw.
Qed.

Lemma printlns_end a b t : let m := (let* _ := println a in println b) in
  (fst (m t) = Some (Ok tt) \/ fst (m t) = None) /\ tm_service (snd (m t)) = tm_service t /\ tm_world (snd (m t)) = tm_world t
  /\ requests (tm_log (snd (m t))) = requests (tm_log t) /\ inputs (tm_log (snd (m t))) = inputs (tm_log t).
Proof.
  cbv zeta. unfold cbind. destruct (println_ends a t) as [Ha|Ha], (println_stays a t) as (H1 & H2 & H3 & H4);
    destruct (println a t) as [o t1]; cbn [fst snd] in *; subst o; [|by split_and!; auto].
  destruct (println_ends b t1) as [Hb|Hb], (println_stays b t1) as (H1' & H2' & H3' & H4'); (split; [auto|]); split_and!; congruence.
Qed.

(** A collection as [sm init] leaves it: in its file, empty, under the key of
    a password that was confirmed. *)
Definition created_as (p : fpath) (lbl password : str) (k : KdfParams) (v : Vault) (w : world) : Prop :=
  vault_inv v w /\ path v = p /\ label (header v) = lbl
  /\ exists key, derive_key (utf8 password) (salt (header v)) (kdf (header v)) = Ok key /\ kdf (header v) = k /\ state v = SUnlocked key [].

(** What was free is taken by the new collection, and then the daemon is told,
    whatever became of the alias file. *)
Definition init_created (config : Config su_gpg) (collection : str) (t t' : term) : Prop :=
  kdf_wf (kdf_params_from (cf_kdf config)) ->
  let p := vault_path (config_dir config) (collection_id_from_label collection) in
  (forall data m ts, fs (tm_world t) !! p = Some (NFile data m ts) -> data = [])
  /\ exists lines password v t1, inputs (tm_log t') = inputs (tm_log t) ++ lines /\ confirmed lines password
       /\ created_as p collection password (kdf_params_from (cf_kdf config)) v (tm_world t1)
       /\ tm_service t1 = tm_service t /\ requests (tm_log t1) = requests (tm_log t) /\ told t1 t'.

Lemma init_run collection t o t' : str_wf collection -> init collection t = (o, t') ->
  match o with
  | Some (Err _) =>
    tm_service t' = tm_service t /\ requests (tm_log t') = requests (tm_log t)
    /\ forall config data m ts, su_load = Ok config ->
         let p := vault_path (config_dir config) (collection_id_from_label collection) in
         fs (tm_world t) !! p = Some (NFile data m ts) -> data <> [] -> fs (tm_world t') !! p = Some (NFile data m ts)
  | _ => exists config, su_load = Ok config
    /\ init_created config collection t t'
  end.
Proof.
  intros Wl. unfold init, cbind at 1, clift, load_config. destruct su_load as [config|e] eqn:Hld; cbn [map_err]; [|by intros [= <- <-]].
  set (p := vault_path (config_dir config) (collection_id_from_label collection)).
  unfold cbind at 1, machine at 1. destruct (stat p (tm_world t)) as [rs w1] eqn:E1. apply stat_touches in E1 as [_ F1].
  destruct (is_ok rs).
  { intros [= <- <-]. cbn. split_and!; try done. intros c data m ts [= <-]. fold p. by rewrite F1. }
  unfold cbind at 1. set (t1 := Term (tm_service t) w1 (tm_log t)).
  destruct (read_new_password_run (lit "Choose a password for collection '" ++ collection ++ lit "'") t1) as (r & t2 & lines & -> & (S1 & S2 & S3 & S4) & Hw2 & Hr).
  assert (F2 : fs (tm_world t2) = fs (tm_world t)) by (rewrite S2; exact F1). destruct r as [password|e]; cycle 1.
  { intros [= <- <-]. split_and!; try done. intros c data m ts [= <-]. fold p. by rewrite F2. }
  specialize (Hr _ eq_refl). unfold cbind at 1, machine at 1.
  destruct (create p collection (utf8 password) (kdf_params_from (cf_kdf config)) (tm_world t2)) as [rc w3] eqn:Ec.
  assert (Href : forall data m ts, fs (tm_world t) !! p = Some (NFile data m ts) -> data <> [] -> is_ok rc = false /\ fs w3 !! p = Some (NFile data m ts)).
  { intros data m ts Hp Hne. rewrite <- F2 in Hp. by eapply create_refuses. }
  destruct rc as [v|e]; cycle 1.
  { cbn [vault_failed with_err fst snd map_err]. intros [= <- <-]. cbn -[requests]. split_and!; try done. intros c data m ts [= <-] Hp Hne. by eapply Href. }
  cbn [vault_failed with_err fst snd map_err]. set (t3 := Term (tm_service t2) w3 (tm_log t2)).
  unfold cbind at 1. destruct (claim_default_run (config_dir config) (collection_id_from_label collection) t3) as (t4 & -> & K4 & S5 & S6 & S7).
  unfold cbind at 1. destruct (tell_daemon_run t4) as (t5 & -> & Ht & S8). intros Eo.
  match type of Eo with cbind (println ?a) (fun _ => println ?b) t5 = _ => destruct (printlns_end a b t5) as (Ho & P1 & P2 & P3 & P4) end.
  rewrite Eo in *. cbn [fst snd] in *.
  assert (Hgoal : init_created config collection t t').
  { intros Wk. fold p. split.
    { intros data m ts Hp. destruct data as [|b data]; [done|]. by destruct (Href _ _ _ Hp). }
    exists lines, password, v, t4. split; [rewrite P4, S8, S7; exact S4|]. split; [exact Hr|].
    split; [|rewrite S5, S6; split_and!; [exact S1|exact S3|unfold told in *; by rewrite P1, P2, P3]].
    eapply create_outcome in Ec; [|exact Wl|exact Wk]. destruct Ec as (Hi & Hpa & Hlab & _ & key & Hk & Hkd & Hst & _).
    split_and!; [|exact Hpa|exact Hlab|by exists key]. apply (inv_unchanged v w3); [exact Hi|]. rewrite Hpa. apply K4. }
  destruct Ho as [-> | ->]; by exists config.
Qed.

(** C23. [sm init] creates a collection or refuses. A run that fails sends
    nothing and leaves a vault that is already there as it was. Otherwise the
    collection is in its file under its label, empty, and its password is the
    one that was confirmed, with the configured parameters; no vault was there
    before. From then on nothing fails the command: neither the alias file nor
    the daemon, which is told to reload exactly once if it can be reached, after
    the vault is complete; only a broken standard output stops it. *)
Theorem init_creates_or_refuses collection t : str_wf collection ->
  let '(o, t') := init collection t in
  match o with
  | Some (Err _) =>
    tm_service t' = tm_service t /\ requests (tm_log t') = requests (tm_log t)
    /\ forall config data m ts, su_load = Ok config ->
         let p := vault_path (config_dir config) (collection_id_from_label collection) in
         fs (tm_world t) !! p = Some (NFile data m ts) -> data <> [] -> fs (tm_world t') !! p = Some (NFile data m ts)
  | _ => exists config, su_load = Ok config /\ init_created config collection t t'
  end.
Proof. intros Wl. destruct (init collection t) as [o t'] eqn:Er. by apply init_run. Qed.

(** The text of an error goes to the terminal as the peer sent it. *)
Lemma reload_error_unescaped t sp m s w : socket_path = Ok sp -> so_call sp RReload (tm_service t) (tm_world t) = (Ok (PError m), s, w) ->
  Warned (lit "warning: running daemon did not reload: " ++ m) ∈ tm_log (snd (tell_daemon t)).
Proof.
  intros Hsp Hc. unfold tell_daemon, cbind, control_call. rewrite Hsp, Hc. cbn. apply elem_of_app. right. by apply list_elem_of_singleton.
Qed.
End init.

(** ** The properties at concrete inputs *)

(** A daemon with one locked collection, a user who answers every prompt but
    that for a new password with "hi", and a terminal. *)
Definition sample_service : @Service sample_bus :=
  {| sv_state := Daemon; sv_answer _ s := (Err (CElse []), s); sv_error_text _ := [] |}.

Definition sample_console : @Console sample_bus := {|
  cs_stdin_is_terminal := true;
  cs_hidden log prompt := Ok (match inputs log with [] => lit "hi" | _ => lit "ho" end);
  cs_line _ := Ok [];
  cs_stdin _ := [];
  cs_stdin_fault _ := None;
  cs_write _ _ := None;
  cs_var name := if str_eqb name (lit "XDG_RUNTIME_DIR") then Some (lit "/run") else None;
  cs_config := Ok [];
  cs_confirm _ _ := Ok false;
  cs_ask _ _ := Ok Cancelled;
  cs_pinentry_text _ := [];
  cs_io_text _ := []
|}.

Definition sample_settings : Config unit := {|
  cf_vault := {| vc_dir := lit "/v"; vc_auto_lock_after := 0; vc_lock_memory := false; vc_locked_search := false |};
  cf_pinentry := []; cf_kdf := {| kc_m_cost_kib := 64; kc_t_cost := 1; kc_p_cost := 1 |}; cf_gpg := tt |}.

Definition sample_setup : Setup := {|
  su_gpg := unit; su_load := Ok sample_settings; su_path _ := [lit "v"]; su_display _ := []; su_config_text _ := [];
  su_crypto_text _ := []; su_format_text _ := []; su_vault_text _ := []; su_protocol_text _ := []; su_debug_response _ := [] |}.

Definition sample_term : @term sample_bus sample_service := @Term sample_bus sample_service sample_locked sample_daemon_world [].

Definition sample_socket : @Socket sample_bus sample_service :=
  @own_daemon sample_env sample_prims sample_codec sample_text sample_bus sample_service (fun _ => []) (fun _ => Ok tt)
    (fun s => s) (fun d _ => d) (fun _ => 9).

Definition sample_unlock_run (id : str) (t : @term sample_bus sample_service) :=
  @sm_unlock sample_env sample_prims sample_codec sample_bus sample_service sample_console sample_setup sample_socket id t.

Definition sample_change_run :=
  @sm_change_password sample_env sample_prims sample_codec sample_bus sample_service sample_console sample_setup sample_socket sample_id_of sample_term.

Lemma sample_serves : @serves sample_prims sample_codec sample_bus sample_service sample_setup (fun s => s) sample_settings sample_term.
Proof. split; [reflexivity|]. split; [unfold kdf_wf, u32, u32_max; simpl; lia|]. split; [reflexivity|apply sample_locked_ok]. Qed.



Lemma init_creates_or_refuses_witness :
  exists t', @init sample_env sample_prims sample_codec sample_text sample_bus sample_service sample_console sample_setup sample_socket
    (lit "Work") (@Term sample_bus sample_service sample_locked sample_daemon_world [@Entered sample_bus (Ok [])]) = (Some (Ok tt), t')
  /\ @init_created sample_prims sample_codec sample_bus sample_service sample_console sample_setup sample_socket
       sample_settings (lit "Work") (@Term sample_bus sample_service sample_locked sample_daemon_world [@Entered sample_bus (Ok [])]) t'.
Proof.
  set (t := @Term sample_bus sample_service sample_locked sample_daemon_world [@Entered sample_bus (Ok [])]).
  assert (Ho : fst (@init sample_env sample_prims sample_codec sample_text sample_bus sample_service sample_console sample_setup sample_socket (lit "Work") t)
               = Some (Ok tt)) by (vm_compute; reflexivity).
  assert (Hw : str_wf (lit "Work")) by (unfold str_wf; apply (bool_decide_unpack _); vm_compute; exact I).
  pose proof (@init_creates_or_refuses sample_env sample_prims sample_codec sample_text sample_env_ok sample_prims_ok sample_codec_ok
    sample_bus sample_service sample_console sample_setup sample_socket (lit "Work") t Hw) as Hx.
  destruct (init (lit "Work") t) as [o t']. cbn [fst] in Ho. subst o. destruct Hx as (c & Hc & Hx). injection Hc as <-. by exists t'.
Defined.
