(* ===== verification/GpgCmds.v ===== *)
(** * [sm gpg enroll] and [sm gpg preset] ([src/cli/gpg.rs])

    The commands over the client of [Client], the helper programs of [Gpg] and
    the configuration of [VaultCmds].  A command runs on a term and a desk: the
    bus, the terminal and the machine on one side, gpg and its agent on the
    other.  Then what they do: no passphrase reaches the agent that was not
    stored or read for that very key. *)
From S2P Require Import Prelude Text Env Crypto Codec Format Sanitize Names Files Sweep Store StoreInv StoreOps StoreKeys StoreProps StoreFrame Aliases Session State Protocol Daemon Pam Config Bus Handlers Batch BusProps Pinentry Gpg GpgProps Client Secrets SecretsProps VaultCmds VaultCmdsProps.

(** The rest of the world of these commands: the [[gpg]] section of the
    configuration and gpg run as a signer. *)
Class Signer `{SU : Setup} : Type := {
  sg_config : su_gpg -> GpgConfig;
  sg_spawn : Bins -> SecretKey -> desk -> result proc io_error;
  sg_feed : desk -> option io_error            (** a failed write of the text to sign *)
}.

Section state.
Context `{B : Bus} `{SV : !Service}.

(** [None] is a panic. *)
Definition gm (A : Type) : Type := term * desk -> option (result A CliError) * (term * desk).

Definition gret {A} (a : A) : gm A := fun s => (Some (Ok a), s).
Definition gerr {A} (e : CliError) : gm A := fun s => (Some (Err e), s).
Definition gbind {A A'} (m : gm A) (k : A -> gm A') : gm A' :=
  fun s => match m s with
           | (Some (Ok a), s) => k a s
           | (Some (Err e), s) => (Some (Err e), s)
           | (None, s) => (None, s)
           end.
Definition of_result {A} (r : result A CliError) : gm A := fun s => (Some r, s).
Definition of_client {A} (m : cm A) : gm A := fun s => let '(o, t) := m (fst s) in (o, (t, snd s)).
Definition of_desk {A} (m : dm A) : gm A := fun s => let '(a, d) := m (snd s) in (Some (Ok a), (fst s, d)).
End state.

Declare Scope gpg_scope.
Notation "'let*' x ':=' m 'in' k" := (gbind m (fun x => k))
  (at level 10, x binder, m at level 200, k at level 200) : gpg_scope.

(** [Path::components().count()]: a leading slash, a leading dot, and every
    named part. *)
Definition components (p : str) : nat :=
  let parts := split_on 47 p in
  ((if match p with c :: _ => (c =? 47)%Z | [] => false end then 1 else 0)
   + (if match parts with first :: _ => str_eqb first (lit ".") | [] => false end then 1 else 0)
   + length (List.filter (fun s => negb (is_empty s) && negb (str_eqb s (lit "."))) parts))%nat.

Definition pick_error_cli (e : pick_error) : CliError :=
  match e with
  | NoKeyMatches id => CNotFound (lit "no secret signing key matches " ++ id)
  | SeveralMatch id => CUsage (id ++ lit " matches several secret keys; pass a full fingerprint")
  | NoKeys => CNotFound (lit "no secret signing keys found")
  | ManyKeys => CUsage (lit "more than one secret signing key found; pass --keyid to choose one")
  end.

Definition gpg_error (e : GpgError) : CliError := CFailed (gpg_error_display e).

Definition gpg_schema_query : gmap str str := {[ lit "xdg:schema" := GPG_SCHEMA ]}.

Section commands.
Context `{E : Env} `{P : SessionPrims} `{B : Bus} `{V : !Values B} `{SV : !Service} `{C : !Console} `{SU : Setup}.
Context `{U : Unicode} `{H : Helpers} `{SG : !Signer}.

Definition bins_or_warn : Bins * list str * option str :=
  match load_config with
  | Ok c => (bins_from_config (sg_config (cf_gpg c)) hp_var hp_home, gc_keys (sg_config (cf_gpg c)), None)
  | Err e => (bins_from_env hp_var hp_home, [], Some (lit "warning: unreadable config (" ++ cli_text e ++ lit "); using defaults"))
  end.

Definition testsign (bins : Bins) (key : SecretKey) : dm (result unit CliError) :=
  fun d =>
    match sg_spawn bins key d with
    | Err e => (Err (CFailed (lit "cannot run gpg: " ++ cs_io_text e)), tick_desk d)
    | Ok c =>
      let d := tick_desk d in
      match sg_feed d with
      | Some e => (Err (CFailed (lit "cannot feed gpg testsign input: " ++ cs_io_text e)), tick_desk d)
      | None =>
        match wait_bounded (no_stderr c) (lit "gpg --clearsign") (tick_desk d) with
        | (Err e, d) => (Err (gpg_error e), d)
        | (Ok out, d) =>
          (if pc_ok out then Ok tt
           else Err (CFailed (lit "verification testsign failed; the passphrase is stored but the agent would still prompt "
                              ++ [8212] ++ lit " is `allow-preset-passphrase` set and the agent reloaded?")), d)
        end
      end
    end.

Fixpoint key_items_among (found : list str) (fpr : str) (out : list str) : cm (list str) :=
  match found with
  | [] => cret out
  | path :: found =>
    cbind (item_info path) (fun info =>
      key_items_among found fpr
        (if match if_attributes info !! lit "keyid" with Some k => keyid_matches k fpr | None => false end
         then out ++ [path] else out))
  end.

Definition find_key_items (query : gmap str str) (fpr : str) : cm (list str) :=
  cbind (find_all query) (fun found => key_items_among found fpr []).

Open Scope gpg_scope.

Definition discovered (r : result (list SecretKey) GpgError) : result (list SecretKey) CliError :=
  map_err (fun e => match e with GMissing _ => CFailed (lit "gpg not found on PATH") | other => gpg_error other end) r.

(** Replacing what is stored for a key. *)
Definition store_key (key : SecretKey) (secret : bytes) : cm unit :=
  cbind client_connect (fun client =>
  cbind (find_key_items gpg_schema_query (sk_fpr key)) (fun old =>
  cbind (delete_each old) (fun _ =>
  cbind (client_store client (key_query (sk_longid key)) (lit "GPG signing key " ++ sk_longid key) secret) (fun _ =>
  cret tt)))).

Definition enroll (keyid : option str) : gm unit :=
  let* cfg := of_result (map_err (fun e => CFailed (lit "cannot enroll with an unreadable config: " ++ cli_text e))
                           (let? c := load_config in Ok (sg_config (cf_gpg c)))) in
  let bins := bins_from_config cfg hp_var hp_home in
  let* keys := of_desk (discover bins) in
  let* keys := of_result (discovered keys) in
  let* key := of_result (map_err pick_error_cli (pick_key keys keyid)) in
  let longid := sk_longid key in
  let* password := of_client (read_new_password (lit "Passphrase for GPG key " ++ longid)) in
  let secret := utf8 password in
  if is_empty secret then gerr (CUsage (lit "empty passphrase: an unprotected key needs no preset"))
  else
    let* _ := of_client (store_key key secret) in
    let* preset := of_desk (preset_one bins (sk_grip key) secret) in
    let* _ := of_result (map_err gpg_error preset) in
    let* signed := of_desk (testsign bins key) in
    let* _ := of_result signed in
    let* _ := of_client (println (lit "Enrolled GPG key " ++ longid ++ lit "; roundtrip verified")) in
    if gc_enabled cfg then gret tt
    else of_client (println (lit "To preset at login, set [gpg] enabled = true and homedir = " ++ [34] ++ bn_homedir bins ++ [34]
                             ++ lit " in " ++ config_file cs_var)).

(** The items with a key id, and how many could not be looked at. *)
Fixpoint stored_keys (paths : list str) (stored : list (str * str)) (unreadable : nat) : cm (list (str * str) * nat) :=
  match paths with
  | [] => cret (stored, unreadable)
  | path :: paths =>
    cbind (ctry (item_info path)) (fun info =>
      match info with
      | Err _ => stored_keys paths stored (S unreadable)
      | Ok info =>
        stored_keys paths (match if_attributes info !! lit "keyid" with Some k => stored ++ [(k, path)] | None => stored end) unreadable
      end)
  end.

(** The first copy that can be read, and how many were tried. *)
Fixpoint first_secret (client : Client) (fpr : str) (stored : list (str * str)) (candidates : nat) : cm (option bytes * nat) :=
  match stored with
  | [] => cret (None, candidates)
  | (keyid, path) :: stored =>
    if negb (keyid_matches keyid fpr) then first_secret client fpr stored candidates
    else
      cbind (ctry (client_get_secret client path)) (fun r =>
        match r with
        | Ok s => cret (Some s, S candidates)
        | Err _ => first_secret client fpr stored (S candidates)
        end)
  end.

Fixpoint gather (client : Client) (filter : list str) (stored : list (str * str)) (keys : list SecretKey)
    (pairs : list (str * bytes)) (unreadable : nat) : cm (list (str * bytes) * nat) :=
  match keys with
  | [] => cret (pairs, unreadable)
  | key :: keys =>
    let longid := sk_longid key in
    if negb (key_allowed filter longid) then gather client filter stored keys pairs unreadable
    else
      cbind (first_secret client (sk_fpr key) stored 0) (fun '(secret, candidates) =>
        match secret with
        | None => gather client filter stored keys pairs (if (0 <? candidates)%nat then S unreadable else unreadable)
        | Some secret =>
          if is_empty secret then
            cbind (warn (lit "warning: " ++ longid ++ lit " is enrolled with an empty passphrase; skipping")) (fun _ =>
              gather client filter stored keys pairs unreadable)
          else gather client filter stored keys (pairs ++ [(longid, secret)]) unreadable
        end)
  end.

(** What is stored, read over the bus. *)
Definition read_stored : cm (list (str * str) * nat) :=
  cbind (ctry (find_all gpg_schema_query)) (fun found =>
    match found with
    | Ok paths => stored_keys paths [] 0
    | Err _ => cret ([], 1%nat)
    end).

Fixpoint join_semicolon (l : list str) : str :=
  match l with
  | [] => []
  | [x] => x
  | x :: l => x ++ lit "; " ++ join_semicolon l
  end.

Definition preset_report (done : nat) (failed : list str) (unreadable : nat) : cm unit :=
  if negb (is_empty failed) then cerr (CFailed (join_semicolon failed))
  else
    cbind (if (0 <? done)%nat then println (lit "Preset " ++ dec (Z.of_nat done) ++ lit " GPG key(s)") else cret tt) (fun _ =>
    cbind (if (0 <? unreadable)%nat then warn (lit "warning: " ++ dec (Z.of_nat unreadable) ++ lit " enrolled key(s) could not be read")
           else cret tt) (fun _ =>
    if (done =? 0)%nat && (0 <? unreadable)%nat then cerr (CFailed (lit "preset nothing: enrolled keys could not be read")) else cret tt)).

Definition preset : gm unit :=
  let '(bins, filter, warning) := bins_or_warn in
  let* _ := match warning with Some w => of_client (warn w) | None => gret tt end in
  let* keys := of_desk (discover bins) in
  match keys with
  | Err e =>
    if match e with GMissing _ => (components (bn_gpg bins) =? 1)%nat | _ => false end then gret tt else gerr (gpg_error e)
  | Ok keys =>
    let* connected := of_client (ctry client_connect) in
    match connected with
    | Err _ => of_client (warn (lit "warning: secret-manager unreachable; preset skipped"))
    | Ok client =>
      let* '(stored, unreadable) := of_client read_stored in
      let* '(pairs, unreadable) := of_client (gather client filter stored keys [] unreadable) in
      let* '(done, failed) := of_desk (preset_enrolled bins pairs) in
      of_client (preset_report done failed unreadable)
    end
  end.
End commands.

(** ** What is fed to the agent *)

Section feeding.
Context `{E : Env} `{P : SessionPrims} `{B : Bus} `{V : !Values B} `{SV : !Service} `{C : !Console} `{SU : Setup}.
Context `{U : Unicode} `{UO : !UnicodeOk U} `{H : Helpers} `{SG : !Signer}.

(** The provider said that an item carries a key id. *)
Definition says_keyid (l : list event) (x : str * str) : Prop :=
  exists props info, Called (QGetAll (snd x)) (Ok props) ∈ l /\ info_of (snd x) props = Ok info
    /\ if_attributes info !! lit "keyid" = Some (fst x).

(** A secret was read, over a session of this client, from an item stored for
    a key the filter allows. *)
Definition read_for (client : Client) (filter : list str) (keys : list SecretKey) (stored : list (str * str)) (l : list event)
    (x : str * bytes) : Prop :=
  exists key keyid path ss, key ∈ keys /\ fst x = sk_longid key /\ key_allowed filter (fst x) = true
    /\ (keyid, path) ∈ stored /\ keyid_matches keyid (sk_fpr key) = true
    /\ Called (QGetSecret path (cl_session client)) (Ok ss) ∈ l /\ client_decrypt client ss = Ok (snd x) /\ snd x <> [].

Lemma says_keyid_mono l l' x : l ⊆ l' -> says_keyid l x -> says_keyid l' x.
Proof. intros Hl (props & info & Hc & Hr). exists props, info. split; [set_solver|done]. Qed.

Lemma read_for_mono client filter keys keys' stored l l' x : keys ⊆ keys' -> l ⊆ l' ->
  read_for client filter keys stored l x -> read_for client filter keys' stored l' x.
Proof. intros Hk Hl (key & keyid & path & ss & Hi & ? & ? & ? & ? & Hc & ?). exists key, keyid, path, ss. split_and!; try done; set_solver. Qed.

Lemma logs_stored_keys paths : forall acc n, runs inspecting
  (fun r l => exists more, fst r = acc ++ more /\ Forall (says_keyid l) more) (stored_keys paths acc n).
Proof.
  induction paths as [|path paths IH]; intros acc n; cbn [stored_keys].
  { apply logs_ret. exists []. cbn. by rewrite app_nil_r. }
  eapply logs_bind; [apply logs_try, logs_info|]. intros [info|e] l1 _ Hi.
  - destruct (Hi info eq_refl) as (props & -> & Hinfo). eapply logs_weaken; [apply IH|done|]. intros r l2 _ (more & Hr & Hm).
    assert (Hm' : Forall (says_keyid ([Called (QGetAll path) (Ok props)] ++ l2)) more).
    { eapply Forall_impl; [exact Hm|]. intros x. apply says_keyid_mono. set_solver. }
    destruct (if_attributes info !! lit "keyid") as [k|] eqn:Ek; [|by exists more].
    exists ((k, path) :: more). rewrite Hr, <- app_assoc. split; [done|]. constructor; [|done]. exists props, info. split_and!; [set_solver|done|done].
  - eapply logs_weaken; [apply IH|done|]. intros r l2 _ (more & Hr & Hm). exists more. split; [done|].
    eapply Forall_impl; [exact Hm|]. intros x. apply says_keyid_mono. set_solver.
Qed.

Lemma logs_first_secret client fpr stored n : runs reading
  (fun r l => forall s, fst r = Some s -> exists keyid path ss, (keyid, path) ∈ stored /\ keyid_matches keyid fpr = true
     /\ Called (QGetSecret path (cl_session client)) (Ok ss) ∈ l /\ client_decrypt client ss = Ok s)
  (first_secret client fpr stored n).
Proof.
  revert n. induction stored as [|[keyid path] stored IH]; intros n; cbn [first_secret]; [by apply logs_ret|].
  destruct (keyid_matches keyid fpr) eqn:Ek; cbn [negb].
  - eapply logs_bind; [apply logs_try, (logs_bind _ (fun s l => l = [Called (QGetSecret path (cl_session client)) (Ok s)])
      (fun a l => exists ss, l = [Called (QGetSecret path (cl_session client)) (Ok ss)] /\ client_decrypt client ss = Ok a)); [by apply logs_mapped|]|].
    { intros s l _ ->. apply logs_lift. intros a Ha. exists s. by rewrite app_nil_r. }
    intros [s|e] l1 _ Hs.
    + destruct (Hs s eq_refl) as (ss & -> & Hd). apply logs_ret. intros s' [= <-]. exists keyid, path, ss. split_and!; [set_solver|done|set_solver|done].
    + eapply logs_weaken; [apply IH|done|]. intros r l2 _ Hr s Hs'. destruct (Hr s Hs') as (k & p & ss & ? & ? & ? & ?).
      exists k, p, ss. split_and!; [set_solver|done|set_solver|done].
  - eapply logs_weaken; [apply IH|done|]. intros r l2 _ Hr s Hs'. destruct (Hr s Hs') as (k & p & ss & ? & ? & ? & ?).
    exists k, p, ss. split_and!; [set_solver|done|set_solver|done].
Qed.

Definition gathering (e : event) : Prop := reading e \/ warning e.

Lemma logs_gather client filter stored keys : forall pairs n, runs gathering
  (fun r l => exists more, fst r = pairs ++ more /\ Forall (read_for client filter keys stored l) more)
  (gather client filter stored keys pairs n).
Proof.
  induction keys as [|key keys IH]; intros pairs n; cbn [gather].
  { apply logs_ret. exists []. cbn. by rewrite app_nil_r. }
  assert (Hnext : forall pairs n l1, runs gathering (fun r l => exists more, fst r = pairs ++ more
      /\ Forall (read_for client filter (key :: keys) stored (l1 ++ l)) more) (gather client filter stored keys pairs n)).
  { intros pairs' n' l1. eapply logs_weaken; [apply IH|done|]. intros r l _ (more & Hr & Hm). exists more. split; [done|].
    eapply Forall_impl; [exact Hm|]. intros x. apply read_for_mono; set_solver. }
  destruct (key_allowed filter (sk_longid key)) eqn:Ea; cbn [negb]; [|apply (Hnext pairs n [])].
  eapply logs_bind; [eapply logs_weaken; [apply logs_first_secret|by left|]|]. { intros a l _ Hl. exact Hl. }
  intros [[s|] c] l1 _ Hs; [|apply Hnext]. destruct (is_empty s) eqn:Ee.
  - eapply logs_bind; [apply logs_warn; by right|]. intros [] l2 _ _. eapply logs_weaken; [apply (Hnext pairs n (l1 ++ l2))|done|].
    intros r l _ (more & Hr & Hm). exists more. rewrite <- app_assoc in Hm. split; [done|exact Hm].
  - destruct (Hs s eq_refl) as (keyid & path & ss & Hin & Hm & Hc & Hd). eapply logs_weaken; [apply (Hnext _ n l1)|done|].
    intros r l _ (more & Hr & Hmore). exists ((sk_longid key, s) :: more). rewrite Hr, <- app_assoc. split; [done|]. constructor; [|done].
    exists key, keyid, path, ss. cbn. split_and!; try done; [set_solver|set_solver|by destruct s].
Qed.

Lemma preset_enrolled_feeds bins pairs d r d' : preset_enrolled bins pairs d = (r, d') ->
  exists text cmds, dk_sent d' = dk_sent d ++ cmds /\ Forall (feeds (parse_colons text) pairs) cmds.
Proof.
  unfold preset_enrolled. destruct (discover bins d) as [[keys|e] d1] eqn:Ed; apply discover_spec in Ed as (Hs & _ & Hk).
  - destruct (Hk keys eq_refl) as [text ->]. destruct r as [n failed]. intros (cmds & Hc & Hf & _)%preset_pairs_spec. exists text, cmds.
    by rewrite <- Hs.
  - intros [= <- <-]. exists [], []. by rewrite app_nil_r.
Qed.

(** The events of [preset]: nothing is created, changed or deleted. *)
Definition presetting (e : event) : Prop :=
  connecting e \/ finding e \/ inspecting e \/ gathering e \/ match e with Printed _ => True | _ => False end.

(** What a passphrase that reaches the agent has behind it: an item that the
    provider, over a session of this run, said is stored for a key that gpg
    listed and the configuration allows, read over that session; it goes to the
    keygrip of a key of the same long id, in one well-formed line. *)
Definition stored_for_key (l : list event) (cmd : bytes) : Prop :=
  exists client text text' key keyid path ss sec to,
    session_of client l
    /\ key ∈ parse_colons text /\ key_allowed (snd (fst bins_or_warn)) (sk_longid key) = true
    /\ says_keyid l (keyid, path) /\ keyid_matches keyid (sk_fpr key) = true
    /\ Called (QGetSecret path (cl_session client)) (Ok ss) ∈ l /\ client_decrypt client ss = Ok sec /\ sec <> []
    /\ to ∈ parse_colons text' /\ normalize_id (sk_longid key) = Some (sk_longid to) /\ is_hex40 (sk_grip to) = true
    /\ cmd = utf8 (preset_command (sk_grip to) sec).

(** What a run of [preset] leaves on its two sides. *)
Definition preset_leaves (s s' : term * desk) : Prop :=
  exists l cmds, tm_log (fst s') = tm_log (fst s) ++ l /\ dk_sent (snd s') = dk_sent (snd s) ++ cmds
    /\ Forall presetting l /\ Forall (stored_for_key l) cmds.

Lemma logs_read_stored : runs (fun e => finding e \/ inspecting e) (fun r l => Forall (says_keyid l) (fst r)) read_stored.
Proof.
  unfold read_stored. eapply (logs_bind _ (fun _ _ => True)); [eapply logs_weaken; [apply logs_try, logs_find|by left|done]|].
  intros [paths|e] l1 _ _; [|by apply logs_ret]. eapply logs_weaken; [apply logs_stored_keys|by right|].
  intros r l2 _ (more & -> & Hm). eapply Forall_impl; [exact Hm|]. intros x. apply says_keyid_mono. set_solver.
Qed.

Lemma logs_report n failed m : runs presetting (fun _ _ => True) (preset_report n failed m).
Proof.
  assert (Hp : forall line, runs presetting (fun _ _ => True) (println line)).
  { intros line t. unfold println. destruct (cs_write _ _); [exists []; cbn; by rewrite app_nil_r|]. eexists. split; [done|]. split; [|done].
    constructor; [|done]. unfold presetting. tauto. }
  assert (Hw : forall text, runs presetting (fun _ _ => True) (warn text)).
  { intros text. eapply logs_any, logs_warn. unfold presetting, gathering. cbn. tauto. }
  unfold preset_report. destruct (negb (is_empty failed)); [apply logs_err|].
  eapply (logs_bind _ (fun _ _ => True)); [destruct (0 <? n)%nat; [apply Hp|by apply logs_ret]|]. intros _ l1 _ _.
  eapply (logs_bind _ (fun _ _ => True)); [destruct (0 <? m)%nat; [apply Hw|by apply logs_ret]|]. intros _ l2 _ _.
  destruct (_ && _); [apply logs_err|by apply logs_ret].
Qed.

Lemma leaves_nothing s t' d' l : tm_log t' = tm_log (fst s) ++ l -> Forall presetting l -> dk_sent d' = dk_sent (snd s) -> preset_leaves s (t', d').
Proof. intros Hl Hf Hd. exists l, []. cbn. rewrite app_nil_r. by split_and!. Qed.

Lemma preset_after_connect bins filter client text t d l0 : snd (fst bins_or_warn) = filter -> session_of client l0 -> Forall presetting l0 ->
  forall t0 d0, tm_log t = tm_log t0 ++ l0 -> dk_sent d = dk_sent d0 ->
  preset_leaves (t0, d0) (snd ((gbind (of_client read_stored) (fun '(stored, unreadable) =>
      gbind (of_client (gather client filter stored (parse_colons text) [] unreadable)) (fun '(pairs, unreadable) =>
      gbind (of_desk (preset_enrolled bins pairs)) (fun '(done, failed) => of_client (preset_report done failed unreadable))))) (t, d))).
Proof.
  intros Hfil Hses Hl0 t0 d0 Ht Hd. unfold gbind, of_client, of_desk. cbn [fst snd].
  destruct (logs_read_stored t) as (l1 & Hl1 & Hf1 & Hq1). destruct (read_stored t) as [o1 t1]. cbn [fst snd] in *.
  assert (Hlog1 : tm_log t1 = tm_log t0 ++ (l0 ++ l1)) by (by rewrite Hl1, Ht, app_assoc).
  assert (Hok1 : Forall presetting (l0 ++ l1)).
  { apply Forall_app. split; [done|]. eapply Forall_impl; [exact Hf1|]. unfold presetting. tauto. }
  destruct o1 as [[[stored n]|e]|]; [|by apply (leaves_nothing (t0, d0) t1 d (l0 ++ l1))..]. specialize (Hq1 _ eq_refl). cbn [fst] in Hq1.
  destruct (logs_gather client filter stored (parse_colons text) [] n t1) as (l2 & Hl2 & Hf2 & Hq2).
  cbn [fst snd]. destruct (gather _ _ _ _ _ _ t1) as [o2 t2]. cbn [fst snd] in *.
  assert (Hlog2 : tm_log t2 = tm_log t0 ++ ((l0 ++ l1) ++ l2)) by (by rewrite Hl2, Hlog1, <- !app_assoc).
  assert (Hok2 : Forall presetting ((l0 ++ l1) ++ l2)).
  { apply Forall_app. split; [done|]. eapply Forall_impl; [exact Hf2|]. unfold presetting. tauto. }
  destruct o2 as [[[pairs n2]|e]|]; [|by apply (leaves_nothing (t0, d0) t2 d ((l0 ++ l1) ++ l2))..]. destruct (Hq2 _ eq_refl) as (more & Hp & Hmore). cbn in Hp. subst more.
  cbn [fst snd]. destruct (preset_enrolled bins pairs d) as [[done failed] d1] eqn:Ep. apply preset_enrolled_feeds in Ep as (text' & cmds & Hs & Hfeeds).
  destruct (logs_report done failed n2 t2) as (l3 & Hl3 & Hf3 & _). cbn [fst snd]. destruct (preset_report _ _ _ t2) as [o3 t3]. cbn [fst snd] in *.
  exists (((l0 ++ l1) ++ l2) ++ l3), cmds. cbn [fst snd]. split_and!; [by rewrite Hl3, Hlog2, <- !app_assoc|by rewrite Hs, Hd|by apply Forall_app|].
  eapply Forall_impl; [exact Hfeeds|]. intros cmd (longid & sec & to & Hin & Hne & Hto & Hhex & Hnorm & ->).
  destruct (proj1 (Forall_forall _ _) Hmore _ Hin) as (key & keyid & path & ss & Hkey & Hlong & Hallow & Hst & Hkm & Hc & Hdec & _). cbn in *. subst longid.
  exists client, text, text', key, keyid, path, ss, sec, to. split_and!; try done.
  - eapply session_of_mono; [|exact Hses]. set_solver.
  - by rewrite Hfil.
  - eapply says_keyid_mono; [|exact (proj1 (Forall_forall _ _) Hq1 _ Hst)]. set_solver.
  - set_solver.
Qed.

(** [sm gpg preset] feeds gpg-agent only what is stored for its keys.
    Whatever the provider and the helper programs answer, every command that
    reaches the agent carries a secret that the provider gave, over a session of
    this run, for an item it said is stored for a key that gpg lists and the
    configuration allows, is not empty, and goes to the keygrip of the key of
    that long id; and the run creates, changes and deletes nothing. *)
Theorem gpg_preset_feeds_stored (s : term * desk) : preset_leaves s (snd (preset s)).
Proof.
  destruct s as [t0 d0]. unfold preset. destruct bins_or_warn as [[bins filter] warning] eqn:Eb.
  assert (Hfil : snd (fst bins_or_warn) = filter) by (by rewrite Eb).
  set (rest := fun _ : unit => _). cut (forall t l0, tm_log t = tm_log t0 ++ l0 -> Forall presetting l0 -> preset_leaves (t0, d0) (snd (rest tt (t, d0)))).
  { intros Hrest. unfold gbind at 1. destruct warning as [w|]; [|apply (Hrest t0 []); [by rewrite app_nil_r|done]].
    cbn. apply (Hrest _ [Warned w]); [done|]. constructor; [|done]. unfold presetting, gathering. cbn. tauto. }
  intros t l0 Ht Hl0. unfold rest. unfold gbind at 1, of_desk at 1. cbn [fst snd].
  destruct (discover bins d0) as [[keys|e] d1] eqn:Ed; apply discover_spec in Ed as (Hsent & _ & Hk); cycle 1.
  { destruct (match e with GMissing _ => _ | _ => _ end); by apply (leaves_nothing (t0, d0) t d1 l0). }
  destruct (Hk keys eq_refl) as [text ->]. unfold gbind at 1, of_client at 1. cbn [fst snd].
  destruct (logs_try _ _ _ logs_connect t) as (l1 & Hl1 & Hf1 & Hq1). destruct (ctry client_connect t) as [oc t1]. cbn [fst snd] in *.
  assert (Hlog : tm_log t1 = tm_log t0 ++ (l0 ++ l1)) by (by rewrite Hl1, Ht, app_assoc).
  assert (Hok : Forall presetting (l0 ++ l1)).
  { apply Forall_app. split; [done|]. eapply Forall_impl; [exact Hf1|]. unfold presetting. tauto. }
  destruct oc as [[[client|e]|e]|]; [| |by apply (leaves_nothing (t0, d0) t1 d1 (l0 ++ l1))..].
  - eapply preset_after_connect; [done| |exact Hok|exact Hlog|exact Hsent]. eapply session_of_mono; [|exact (Hq1 _ eq_refl client eq_refl)]. set_solver.
  - eapply (leaves_nothing _ _ _ ((l0 ++ l1) ++ [Warned _])); [cbn; by rewrite Hlog, <- !app_assoc| |done].
    apply Forall_app. split; [done|]. constructor; [|done]. unfold presetting, gathering. cbn. tauto.
Qed.

Lemma testsign_sent bins key d : dk_sent (snd (testsign bins key d)) = dk_sent d.
Proof.
  unfold testsign. destruct (sg_spawn bins key d) as [c|e]; [|done]. destruct (sg_feed (tick_desk d)); [done|].
  destruct (wait_bounded _ _ _) as [[out|e] d1] eqn:Ew; apply wait_bounded_spec in Ew as (Hs & _); done.
Qed.

(** The choice, the passphrase and the stored item behind an enrolment. *)
Definition stored_first (keyid : option str) (t : term) (key : SecretKey) (secret : bytes) : Prop :=
  exists text lines password t1 t2, pick_key (parse_colons text) keyid = Ok key
    /\ stays lines t t1 /\ confirmed lines password /\ secret = utf8 password
    /\ store_key key secret t1 = (Some (Ok tt), t2).

(** [sm gpg enroll] feeds the agent at most once, and only a passphrase that
    the user confirmed and that was stored before, for the one key of the
    listing that was asked for; it succeeds only if that was fed, and gpg then
    signed with it. *)
Theorem gpg_enroll_stores_first keyid (t : term) (d : desk) :
  let '(o, s') := enroll keyid (t, d) in
  (dk_sent (snd s') = dk_sent d /\ o <> Some (Ok tt))
  \/ exists key secret, stored_first keyid t key secret
       /\ dk_sent (snd s') = dk_sent d ++ [utf8 (preset_command (sk_grip key) secret)]
       /\ (o = Some (Ok tt) -> exists bins d1, fst (testsign bins key d1) = Ok tt).
Proof.
  unfold enroll, gbind at 1, of_result at 1. destruct (let? c := load_config in Ok (sg_config (cf_gpg c))) as [cfg|e]; [|by left].
  cbn [map_err]. set (bins := bins_from_config cfg hp_var hp_home). unfold gbind at 1, of_desk at 1. cbn [fst snd].
  destruct (discover bins d) as [r d1] eqn:Ed. apply discover_spec in Ed as (Hs1 & _ & Hk). unfold gbind at 1, of_result at 1.
  destruct r as [keys|e]; [|left; cbn; by rewrite Hs1]. destruct (Hk keys eq_refl) as [text ->]. cbn [discovered map_err].
  unfold gbind at 1, of_result at 1. destruct (pick_key (parse_colons text) keyid) as [key|e] eqn:Epick; [|left; cbn; by rewrite Hs1]. cbn [map_err].
  unfold gbind at 1, of_client at 1. cbn [fst snd].
  destruct (read_new_password_run (lit "Passphrase for GPG key " ++ sk_longid key) t) as (r & t1 & lines & -> & Hst & _ & Hr).
  destruct r as [password|e]; [|left; cbn; by rewrite Hs1]. specialize (Hr _ eq_refl).
  destruct (is_empty (utf8 password)); [left; cbn; by rewrite Hs1|]. unfold gbind at 1, of_client at 1. cbn [fst snd].
  destruct (store_key key (utf8 password) t1) as [[[[]|e]|] t2] eqn:Est; [|left; cbn; by rewrite Hs1..].
  unfold gbind at 1, of_desk at 1. cbn [fst snd]. destruct (preset_one bins (sk_grip key) (utf8 password) d1) as [rp d2] eqn:Ep.
  apply preset_one_spec in Ep as [_ Hp]. unfold gbind at 1, of_result at 1.
  assert (Hsf : stored_first keyid t key (utf8 password)) by (by exists text, lines, password, t1, t2).
  destruct rp as [[]|e]; cbn [map_err]; cycle 1.
  { destruct Hp as [[Hp _]|[_ Hp]]; [left; cbn; by rewrite Hp, Hs1|right]. exists key, (utf8 password). cbn. rewrite Hp, Hs1. by split_and!. }
  destruct Hp as [[_ Hp]|[_ Hp]]; [done|].
  unfold gbind at 1, of_desk at 1. cbn [fst snd]. pose proof (testsign_sent bins key d2) as Hts. destruct (testsign bins key d2) as [rt d3] eqn:Et.
  cbn [snd] in Hts. assert (Hsent : dk_sent d3 = dk_sent d ++ [utf8 (preset_command (sk_grip key) (utf8 password))]) by (by rewrite Hts, Hp, Hs1).
  assert (Hend : forall (o : option (result unit CliError)) (t' : term), (o = Some (Ok tt) -> rt = Ok tt) ->
    let '(o, s') := (o, (t', d3)) in
    (dk_sent (snd s') = dk_sent d /\ o <> Some (Ok tt))
    \/ exists key secret, stored_first keyid t key secret /\ dk_sent (snd s') = dk_sent d ++ [utf8 (preset_command (sk_grip key) secret)]
         /\ (o = Some (Ok tt) -> exists bins d1, fst (testsign bins key d1) = Ok tt)).
  { intros o t' Ho. right. exists key, (utf8 password). split_and!; [done|done|]. intros Hok. exists bins, d2. rewrite Et. by apply Ho. }
  unfold gbind at 1, of_result at 1. destruct rt as [[]|e]; [|exact (Hend (Some (Err e)) t2 ltac:(done))].
  unfold gbind, of_client. cbn [fst snd]. destruct (println _ t2) as [[[[]|e]|] t3]; cbn [fst snd]; [|exact (Hend _ t3 (fun _ => eq_refl))..].
  destruct (gc_enabled cfg); [exact (Hend _ t3 (fun _ => eq_refl))|]. cbn [fst snd]. destruct (println _ t3) as [o t4]. exact (Hend o t4 (fun _ => eq_refl)).
Qed.
End feeding.

(** ** The property at a concrete input *)

Definition sample_values : @Values sample_bus := {|
  value_of_attributes m := VMap m : @ovalue sample_bus;
  to_bytes v := match v with VBytes b => Ok b | _ => Err [] end;
  to_string v := match v with VStr s => Some s | _ => None end;
  to_attributes v := match v with VMap m => Some m | _ => None end;
  to_bool v := match v with VStr _ => Some false | _ => None end;
  to_u64 v := match v with VBytes b => Some (zlen b) | _ => None end;
  to_path v := match v with VStr s => Ok s | _ => Err [] end;
  to_paths _ := Err []
|}.

Definition gpg_item_path : str := COLLECTIONS_PREFIX ++ lit "login/1".

Definition gpg_props : gmap str (@ovalue sample_bus) :=
  <[lit "Label" := VStr (lit "k")]> (<[lit "Locked" := VStr []]> (<[lit "Modified" := VBytes []]>
    {[ lit "Attributes" := VMap {[ lit "keyid" := lit "0xaaaaaaaaaaaaaaaa" ]} ]})).

(** A provider with one item, stored for the key of [sample_listing]. *)
Definition gpg_service : @Service sample_bus := {|
  sv_state := unit;
  sv_answer q s :=
    (match q as q return result (answer_of q) call_error with
     | QSessionBus => Ok (Some tt)
     | QOpenSession algo _ =>
       if str_eqb algo ALGORITHM_PLAIN then Ok (Some ((VStr [] : @ovalue sample_bus), lit "/s"))
       else Err (CMethodError (lit "org.freedesktop.DBus.Error.NotSupported") None)
     | QSearchItems _ => Ok ([gpg_item_path], [])
     | QGetAll _ => Ok gpg_props
     | QGetSecret _ _ => Ok {| ss_session := lit "/s"; ss_parameters := []; ss_value := [x70; x77]; ss_content_type := [] |}
     | _ => Err (CElse [])
     end, s);
  sv_error_text _ := []
|}.

Definition sample_signer : @Signer sample_setup := {|
  sg_config _ := gpg_config; sg_spawn _ _ _ := Err ENOENT; sg_feed _ := None |}.

Definition sample_preset_run :=
  @preset sample_env sample_session sample_bus sample_values gpg_service sample_console sample_setup sample_unicode
    (sample_helpers (utf8 sample_listing)) sample_signer (@Term sample_bus gpg_service tt sample_start_world [], Desk 0 0 []).

Lemma gpg_preset_feeds_stored_witness :
  dk_sent (snd (snd sample_preset_run)) = [utf8 (preset_command sample_grip [x70; x77])]
  /\ exists l, Forall (@stored_for_key sample_session sample_bus sample_values sample_setup sample_unicode (sample_helpers (utf8 sample_listing)) sample_signer l)
                 (dk_sent (snd (snd sample_preset_run))).
Proof.
  split; [vm_compute; reflexivity|].
  destruct (@gpg_preset_feeds_stored sample_env sample_session sample_bus sample_values gpg_service sample_console sample_setup sample_unicode
    sample_unicode_ok (sample_helpers (utf8 sample_listing)) sample_signer (@Term sample_bus gpg_service tt sample_start_world [], Desk 0 0 []))
    as (l & cmds & _ & Hc & _ & Hf).
  exists l. fold sample_preset_run in Hc. rewrite Hc. exact Hf.
Defined.
