(* ===== verification/Startup.v ===== *)
(** * Start-up and shutdown of the daemon ([src/daemon.rs], [bind] and [Drop] of
      [src/control/server.rs], [daemon_start_error], [argv_with_dispatch] of
      [src/cli/mod.rs])

    The steps of [Daemon::start] in order, each of which may fail, the taking of
    the control socket over by a rename, and its removal when the server is
    dropped.  A socket is an entry of the filesystem whose contents, which
    nobody reads, name its listener.  The bus is a parameter: whether the name
    could be had, and whether the objects could be exported. *)
From S2P Require Import Prelude Text Env Crypto Codec Format Sanitize Names Files Sweep Store StoreInv StoreOps StoreKeys StoreProps StoreFrame Aliases Session State Protocol Daemon Kdf Pam Config.

(** ** The control socket *)

(** Nobody listens, or somebody does: an entry [connect] reaches. *)
Class Sockets : Type := { sk_accepts : filesystem -> fpath -> bool }.

Definition EADDRINUSE := IoError OtherKind (Some 98).

Record ControlServer : Type := { sv_listener : bytes; sv_path : fpath }.

Section socket.
Context `{E : Env} `{SK : Sockets}.

(** [UnixListener::bind]: the mode is what the umask leaves of 0777. *)
Definition bind_socket (p : fpath) (listener : bytes) : io unit :=
  syscall (fun f => match f !! p with
                    | Some _ => (Err EADDRINUSE, f)
                    | None => if parent_is_dir f p
                              then (Ok tt, <[p := NFile listener (Z.land 511 (Z.lnot env_umask)) None]> f)
                              else (Err ENOENT, f)
                    end).

Definition connects (p : fpath) (w : world) : bool * world :=
  match syscall (fun f => (Ok (sk_accepts f p), f)) w with
  | (Ok b, w) => (b, w)
  | (Err _, w) => (false, w)
  end.

Definition staging_path (dir : fpath) (suffix : bytes) : fpath := path_join dir (lit ".control." ++ hex suffix ++ lit ".sock").

(** [None] is the panic of [random_bytes]. *)
Definition bind_with_timeouts (path : fpath) (listener : bytes) (w : world) : option (result (ControlServer * bool) io_error) * world :=
  match parent path with
  | None => (Some (Err (IoError OtherKind None)), w)
  | Some dir =>
    match create_dir_all 448 dir w with
    | (Err e, w) => (Some (Err e), w)
    | (Ok _, w) =>
      match set_permissions dir 448 w with
      | (Err e, w) => (Some (Err e), w)
      | (Ok _, w) =>
        let '(squatter, w) := connects path w in
        match random 8 w with
        | (None, w) => (None, w)
        | (Some suffix, w) =>
          let staging := staging_path dir suffix in
          let w := snd (remove_file staging w) in
          match bind_socket staging listener w with
          | (Err e, w) => (Some (Err e), w)
          | (Ok _, w) =>
            match set_permissions staging 384 w with
            | (Err e, w) => (Some (Err e), w)
            | (Ok _, w) =>
              match rename staging path w with
              | (Err e, w) => (Some (Err e), snd (remove_file staging w))
              | (Ok _, w) => (Some (Ok ({| sv_listener := listener; sv_path := path |}, squatter)), w)
              end
            end
          end
        end
      end
    end
  end.

Definition drop_server (s : ControlServer) (w : world) : world := snd (remove_file (sv_path s) w).
End socket.

(** ** Errors and arguments *)

Inductive DaemonError : Type :=
| DNameTaken
| DZBus (text : str)
| DExport (text : str)
| DIo (e : alias_io)
| DControl (e : io_error)
| DNoRuntimeDir
| DHardening (e : io_error).

(** How connecting to the bus ends. *)
Inductive bus_failure : Type := BNameTaken | BOther (text : str).

Definition from_zbus (e : bus_failure) : DaemonError :=
  match e with BNameTaken => DNameTaken | BOther text => DZBus text end.

(** The exit code, of [daemon_start_error] and [CliError::exit_code]. *)
Definition start_error_code (e : DaemonError) : Z :=
  match e with
  | DNameTaken | DNoRuntimeDir | DZBus _ => 3
  | _ => 1
  end.

Definition argv_with_dispatch (args : list str) : list str :=
  match args with
  | a :: rest =>
    if match path_file_name a with Some n => str_eqb n (lit "sm-askpass") | None => false end
    then [lit "secret-manager"; lit "ssh"; lit "askpass"] ++ rest
    else args
  | [] => args
  end.

(** ** Starting *)

Record DaemonOptions : Type := {
  op_dir : fpath;
  op_lock_memory : bool;
  op_locked_search : bool;
  op_auto_lock_after : Z;
  op_control_socket : option fpath
}.

(** The operating system and the bus, as start-up meets them. *)
Class Platform : Type := {
  pf_dumpable : option io_error;                                (** a failed [prctl] *)
  pf_lock_memory : result rlimit io_error;                      (** [Kdf.lock_memory] *)
  pf_address : option bus_failure;                              (** a bus that cannot be named *)
  pf_serve : option str;                                        (** a failed [serve_at] *)
  pf_build : result unit bus_failure;                           (** connecting and taking the name *)
  pf_register : ServiceState -> result unit str;                (** [registry::register_all] *)
  pf_socket : result fpath ProtocolError                        (** [protocol::socket_path] *)
}.

Inductive task : Type := TServer (s : ControlServer) | TWatch | TIdle (after : Z).

Record started : Type := { sd_state : ServiceState; sd_tasks : list task }.

Section start.
Context `{E : Env} `{PR : Prims} `{VC : VaultCodec} `{AT : AliasText} `{SK : Sockets} `{PF : Platform}.

Definition harden (lock : bool) : result unit DaemonError :=
  match pf_dumpable with
  | Some e => Err (DHardening e)
  | None => if lock then match pf_lock_memory with Ok _ => Ok tt | Err e => Err (DHardening e) end else Ok tt
  end.

(** The state before anyone can reach it. *)
Definition load_state (opts : DaemonOptions) (w : world) : result ServiceState DaemonError * world :=
  let st := service_new (op_dir opts) in
  let st := {| vault_dir := vault_dir st; st_index_attributes := op_locked_search opts; collections := collections st;
               broken := broken st; aliases := aliases st; sessions := sessions st; prompt_owners := prompt_owners st;
               next_session := next_session st; next_prompt := next_prompt st |} in
  let '(_, w) := sweep_stale_temp_files (op_dir opts) w in
  match scan_vault_dir (vault_dir st) (st_index_attributes st) (loaded_ids st) w with
  | (Err e, w) => (Err (DIo e), w)
  | (Ok scan, w) => (Ok (fst (merge_scan st scan)), w)
  end.

Definition join_bus (st : ServiceState) : result unit DaemonError :=
  match pf_address with
  | Some e => Err (from_zbus e)
  | None =>
    match pf_serve with
    | Some text => Err (DExport text)
    | None =>
      match pf_build with
      | Err e => Err (from_zbus e)
      | Ok _ => match pf_register st with Err e => Err (DExport e) | Ok _ => Ok tt end
      end
    end
  end.

Definition socket_of (opts : DaemonOptions) : result fpath DaemonError :=
  match op_control_socket opts with
  | Some s => Ok s
  | None => match pf_socket with Ok s => Ok s | Err _ => Err DNoRuntimeDir end
  end.

Definition daemon_start (opts : DaemonOptions) (listener : bytes) (w : world) : option (result started DaemonError) * world :=
  match harden (op_lock_memory opts) with
  | Err e => (Some (Err e), w)
  | Ok _ =>
    match load_state opts w with
    | (Err e, w) => (Some (Err e), w)
    | (Ok st, w) =>
      match join_bus st with
      | Err e => (Some (Err e), w)
      | Ok _ =>
        match socket_of opts with
        | Err e => (Some (Err e), w)
        | Ok socket =>
          match bind_with_timeouts socket listener w with
          | (None, w) => (None, w)
          | (Some (Err e), w) => (Some (Err (DControl e)), w)
          | (Some (Ok (server, _)), w) =>
            (Some (Ok {| sd_state := st;
                         sd_tasks := [TServer server; TWatch]
                                     ++ (if op_auto_lock_after opts =? 0 then [] else [TIdle (op_auto_lock_after opts)]) |}), w)
          end
        end
      end
    end
  end.

(** [run_until_shutdown] ends by dropping the daemon: the tasks are aborted, and
    the server goes with its task. *)
Definition stop_task (t : task) (w : world) : world := match t with TServer s => drop_server s w | _ => w end.

Definition daemon_drop (d : started) (w : world) : world := fold_left (fun w t => stop_task t w) (sd_tasks d) w.
End start.

(** ** The watch on the bus *)

Definition second : Z := 1000000000.

(** The wait after a run of the watch, and the next one, from how long it
    ran. *)
Definition watch_backoff (backoff lasted : Z) : Z * Z :=
  let backoff := if 30 * second <=? lasted then second else backoff in
  (backoff, Z.min (backoff * 2) (30 * second)).

Fixpoint watch_waits (backoff : Z) (runs : list Z) : list Z :=
  match runs with
  | [] => []
  | lasted :: runs => let '(wait, next) := watch_backoff backoff lasted in wait :: watch_waits next runs
  end.

(** ** Taking the socket over *)

Section takeover.
Context `{E : Env} `{SK : Sockets}.

(** The socket as it is meant to be. *)
Definition our_socket (listener : bytes) : node := NFile listener 384 None.

(** What may be at the path while it is taken over. *)
Definition old_or_ours (w : world) (p : fpath) (listener : bytes) (f : filesystem) : Prop :=
  f !! p = fs w !! p \/ f !! p = Some (our_socket listener).

Lemma set_permissions_spec p mode w r w' : set_permissions p mode w = (r, w') ->
  touches (eq p) w w' /\ (is_ok r = false -> fs w' = fs w)
  /\ (r = Ok tt -> forall d m t, fs w !! p = Some (NFile d m t) -> fs w' !! p = Some (NFile d mode t)).
Proof.
  intros [[-> [e ->]]|[-> ->]]%syscall_inv; [split_and!; [by apply touches_advance|done|done]|].
  destruct (fs w !! p) as [[d m t|m|q]|] eqn:Ep; cbn; split_and!; try done; try (by apply touches_advance);
    try (apply touches_advance; intros q Hq; by rewrite lookup_insert_ne).
  intros _ d' m' t' [= <- <- <-]. by rewrite lookup_insert_eq.
Qed.

Lemma bind_socket_spec p l w r w' : bind_socket p l w = (r, w') ->
  touches (eq p) w w' /\ (is_ok r = false -> fs w' = fs w)
  /\ (r = Ok tt -> exists m, fs w' !! p = Some (NFile l m None)).
Proof.
  intros [[-> [e ->]]|[-> ->]]%syscall_inv; [split_and!; [by apply touches_advance|done|done]|].
  destruct (fs w !! p) eqn:Ep; [|destruct (parent_is_dir (fs w) p)]; cbn; split_and!; try done; try (by apply touches_advance).
  - apply touches_advance. intros q Hq. by rewrite lookup_insert_ne.
  - intros _. rewrite lookup_insert_eq. eauto.
Qed.

Lemma connects_touches p w b w' : connects p w = (b, w') -> touches nothing w w' /\ fs w' = fs w.
Proof.
  unfold connects. destruct (syscall _ w) as [[x|e] w1] eqn:E1; apply read_touches in E1 as [T F]; by intros [= _ <-].
Qed.

Lemma create_dir_all_touches mode d w r w' : create_dir_all mode d w = (r, w') -> touches (fun q => q `prefix_of` d) w w'.
Proof. intros [[-> _]|[-> _]]%syscall_inv; apply touches_advance; [done|]. intros q Hq. by apply mkdirs_frame. Qed.

Lemma rename_failed a b w e w' : a <> b -> rename a b w = (Err e, w') -> touches nothing w w'.
Proof.
  intros Hab [[-> _]|[-> He]]%syscall_inv; [by apply touches_advance|]. destruct (rename_in_spec a b (fs w) Hab) as (_ & _ & F).
  apply touches_advance. intros q _. rewrite F; [done|]. by rewrite <- He.
Qed.

(** Everything up to the rename touches the directories above and the private
    name alone. *)
Definition preparing (d : fpath) (q : fpath) : Prop := q `prefix_of` d \/ exists sfx, q = staging_path d sfx.

Lemma staging_ne d n sfx : head n <> Some 46 -> staging_path d sfx <> d ++ [n].
Proof. unfold staging_path, path_join. intros Hn [_ <-]%app_inj_tail. by apply Hn. Qed.

Lemma preparing_path d n : head n <> Some 46 -> ~ preparing d (d ++ [n]).
Proof.
  intros Hn [Hp|[sfx Hs]]; [by apply not_prefix_child in Hp|]. by apply (staging_ne d n sfx Hn).
Qed.

(** How a bind ends. *)
Definition bound (d : fpath) (n : str) (l : bytes) (o : option (result (ControlServer * bool) io_error)) (w w' : world) : Prop :=
  (forall x, o <> Some (Ok x)) /\ touches (preparing d) w w'
  \/ exists w1 sfx squatter, touches (preparing d) w w1 /\ o = Some (Ok ({| sv_listener := l; sv_path := d ++ [n] |}, squatter))
       /\ fs w1 !! staging_path d sfx = Some (our_socket l) /\ rename (staging_path d sfx) (d ++ [n]) w1 = (Ok tt, w').

Lemma bind_outcome d n l w o w' : head n <> Some 46 -> bind_with_timeouts (d ++ [n]) l w = (o, w') -> bound d n l o w w'.
Proof.
  intros Hn. unfold bind_with_timeouts, bound. rewrite parent_child.
  destruct (create_dir_all 448 d w) as [[u|e] w1] eqn:E1; apply create_dir_all_touches in E1 as T1;
    apply (touches_mono _ (preparing d)) in T1; [|by left|intros [= <- <-]; by left|by left].
  destruct (set_permissions d 448 w1) as [r2 w2] eqn:E2. apply set_permissions_spec in E2 as (T2 & _ & _).
  assert (K2 : touches (preparing d) w w2).
  { eapply touches_trans; [exact T1|]. eapply touches_mono; [|exact T2]. intros q <-. by left. }
  destruct r2 as [u2|e]; [|intros [= <- <-]; by left]. destruct (connects (d ++ [n]) w2) as [sq w3] eqn:E3. apply connects_touches in E3 as [T3 _].
  assert (K3 : touches (preparing d) w w3) by (eapply touches_trans; [exact K2|by apply touches_nothing]).
  destruct (random 8 w3) as [o4 w4] eqn:E4. apply random_touches in E4 as [T4 _].
  assert (K4 : touches (preparing d) w w4) by (eapply touches_trans; [exact K3|by apply touches_nothing]).
  destruct o4 as [sfx|]; [|intros [= <- <-]; by left]. set (st := staging_path d sfx).
  assert (Hst : forall q, st = q -> preparing d q) by (intros q <-; right; by exists sfx).
  destruct (remove_file st w4) as [r5 w5] eqn:E5. apply remove_file_spec in E5 as (T5 & _). cbn [snd].
  assert (K5 : touches (preparing d) w w5) by (eapply touches_trans; [exact K4|by eapply touches_mono]).
  destruct (bind_socket st l w5) as [r6 w6] eqn:E6. apply bind_socket_spec in E6 as (T6 & _ & H6).
  assert (K6 : touches (preparing d) w w6) by (eapply touches_trans; [exact K5|by eapply touches_mono]).
  destruct r6 as [[]|e]; [|intros [= <- <-]; by left]. destruct (H6 eq_refl) as [m6 Hm6].
  destruct (set_permissions st 384 w6) as [r7 w7] eqn:E7. apply set_permissions_spec in E7 as (T7 & _ & H7).
  assert (K7 : touches (preparing d) w w7) by (eapply touches_trans; [exact K6|by eapply touches_mono]).
  destruct r7 as [[]|e]; [|intros [= <- <-]; by left]. specialize (H7 eq_refl _ _ _ Hm6).
  destruct (rename st (d ++ [n]) w7) as [r8 w8] eqn:E8. destruct r8 as [[]|e]; intros [= <- <-].
  - right. by exists w7, sfx, sq.
  - left. split; [done|]. apply rename_failed in E8; [|by apply staging_ne].
    destruct (remove_file st w8) as [r9 w9] eqn:E9. apply remove_file_spec in E9 as (T9 & _). cbn [snd].
    eapply touches_trans; [exact K7|]. eapply touches_trans; [by apply touches_nothing|by eapply touches_mono].
Qed.

(** Binding the control socket takes the path over in one step. Whatever is
    at the path, and whichever request fails, at every instant the path holds
    what it held before or the daemon's own socket, already closed to other
    users: it is never missing, so nobody can slip in between, and never open.
    A bind that succeeds leaves the socket at the path and nothing under the
    private name it was made under; one that fails leaves the path as it was;
    nothing else changes but the directory the socket is in. *)
Theorem socket_taken_over d n l w : head n <> Some 46 ->
  let '(o, w') := bind_with_timeouts (d ++ [n]) l w in
  reaches (old_or_ours w (d ++ [n]) l) w w'
  /\ (forall q, q <> d ++ [n] -> ~ preparing d q -> fs w' !! q = fs w !! q)
  /\ match o with
     | Some (Ok (srv, _)) => sv_path srv = d ++ [n] /\ fs w' !! (d ++ [n]) = Some (our_socket l)
         /\ exists sfx, fs w' !! staging_path d sfx = None
     | _ => fs w' !! (d ++ [n]) = fs w !! (d ++ [n])
     end.
Proof.
  intros Hn. destruct (bind_with_timeouts (d ++ [n]) l w) as [o w'] eqn:Eb. apply bind_outcome in Eb; [|done].
  assert (Hprep : forall a b, touches (preparing d) a b -> fs b !! (d ++ [n]) = fs a !! (d ++ [n])).
  { intros a b T. apply (touches_end _ _ _ _ T). by apply preparing_path. }
  assert (Hre : forall b, touches (preparing d) w b -> reaches (old_or_ours w (d ++ [n]) l) w b).
  { intros b T. eapply reaches_impl; [|exact T]. intros f Hf. left. apply Hf. by apply preparing_path. }
  destruct Eb as [[Ho T]|(w1 & sfx & sq & T & -> & Hs & Er)].
  - split; [by apply Hre|]. split; [intros q _ Hq; by apply (touches_end _ _ _ _ T)|].
    destruct o as [[[srv b]|e]|]; [by destruct (Ho (srv, b))|by apply Hprep..].
  - pose proof (rename_spec _ _ _ _ _ (staging_ne d n sfx Hn) Er) as (T2 & H2 & _). destruct (H2 eq_refl) as [H3 H4].
    assert (Hfin : fs w' !! (d ++ [n]) = Some (our_socket l)) by (by rewrite H3, Hs).
    split_and!; [| |done|done|by exists sfx].
    + eapply reaches_trans; [by apply Hre|]. apply syscall_inv in Er as [[_ [e [=]]]|[-> _]]. apply reaches_advance. right. exact Hfin.
    + intros q Hq Hp. rewrite (touches_end _ _ _ q T2); [by apply (touches_end _ _ _ _ T)|]. intros [-> | ->]; [|done]. apply Hp. right. by exists sfx.
Qed.
End takeover.

(** ** Starting and stopping *)

Section starting.
Context `{E : Env} `{PR : Prims} `{VC : VaultCodec} `{AT : AliasText} `{SK : Sockets} `{PF : Platform}.

Lemma scan_frame (d : fpath) (ix : bool) (loaded : gset str) (w : world) r (w' : world) (q : fpath) : no_links d w -> scan_vault_dir d ix loaded w = (r, w') ->
  ~ q `prefix_of` d -> fs w' !! q = fs w !! q.
Proof.
  intros Hl. unfold scan_vault_dir, with_err. destruct (ensure_vault_dir d w) as [r1 w1] eqn:E1.
  pose proof (ensure_dir_kept _ _ _ _ E1) as K1. apply ensure_vault_dir_touches in E1. cbn [fst snd]. intros Es Hq.
  assert (F1 : fs w1 !! q = fs w !! q) by (by apply (touches_end _ _ _ _ E1)). rewrite <- F1. revert Es.
  destruct r1; cbn [map_err]; [|by intros [= _ <-]].
  destruct (read_dir d w1) as [r2 w2] eqn:E2. apply read_touches in E2 as [_ F2]. cbn [fst snd].
  destruct r2 as [names|]; cbn [map_err]; [|intros [= _ <-]; by rewrite F2].
  destruct (scan_entries _ _ _ _ _ w2) as [sc w3] eqn:E3. apply scan_entries_ok in E3 as [_ F3].
  3:{ intros i x Hx. by apply not_elem_of_nil in Hx. }
  2:{ intros i p. rewrite F2, K1. apply Hl. }
  destruct (load_aliases d w3) as [r4 w4] eqn:E4. apply load_aliases_fs in E4 as F4.
  destruct r4 as [m|e]; [|destruct (bool_decide _)]; intros [= _ <-]; by rewrite F4, F3, F2.
Qed.

Lemma sweep_frame d w k w' : sweep_stale_temp_files d w = (k, w') ->
  vaults_kept d w w' /\ (forall q, parent q <> Some d -> fs w' !! q = fs w !! q) /\ (no_links d w -> no_links d w').
Proof.
  intros (T & Hsub & _)%sweep_temp_files_spec. assert (K : vaults_kept d w w').
  { intros id. apply (touches_end _ _ _ _ T). intros (n & ? & ? & ? & Ep & Hn & _).
    apply app_inj_tail in Ep as [_ <-]. by rewrite vault_name_not_temp in Hn. }
  split; [done|]. split; [|intros Hl id q; rewrite K; apply Hl].
  intros q Hq. apply (touches_end _ _ _ _ T). intros (n & ? & ? & ? & -> & _). apply Hq, parent_child.
Qed.

Lemma load_state_outcome opts w r w' : no_links (op_dir opts) w -> load_state opts w = (r, w') ->
  vaults_kept (op_dir opts) w w'
  /\ (forall q, parent q <> Some (op_dir opts) -> ~ q `prefix_of` op_dir opts -> fs w' !! q = fs w !! q)
  /\ forall st, r = Ok st -> daemon_ok st w' /\ vault_dir st = op_dir opts.
Proof.
  intros Hl. unfold load_state. destruct (sweep_stale_temp_files (op_dir opts) w) as [k w1] eqn:E1.
  apply sweep_frame in E1 as (K1 & F1 & L1). cbn [vault_dir service_new st_index_attributes].
  set (st0 := {| vault_dir := op_dir opts |}). destruct (scan_vault_dir (op_dir opts) _ _ w1) as [r2 w2] eqn:E2.
  pose proof (scan_vault_dir_ok _ _ _ _ _ _ (L1 Hl) E2) as [K2 Ho].
  assert (F2 : forall q, ~ q `prefix_of` op_dir opts -> fs w2 !! q = fs w1 !! q) by (intros q; by apply (scan_frame _ _ _ _ _ _ q (L1 Hl) E2)).
  assert (K : vaults_kept (op_dir opts) w w2) by (by etransitivity).
  assert (F : forall q, parent q <> Some (op_dir opts) -> ~ q `prefix_of` op_dir opts -> fs w2 !! q = fs w !! q).
  { intros q H1 H2. by rewrite F2, F1. }
  destruct r2 as [scan|e]; intros [= <- <-]; (split; [done|]; split; [done|]); [|done]. intros st [= <-].
  destruct (merge_scan st0 scan) as [st' new] eqn:Em. cbn [fst].
  apply (merge_scan_ok st0 w1 scan w2 st' new); [|exact K2|by apply Ho|done]. intros id v. cbn. by rewrite lookup_empty.
Qed.

(** The socket is not among the vaults, nor a directory above them. *)
Definition socket_apart (opts : DaemonOptions) : Prop :=
  forall s, socket_of opts = Ok s -> exists d, s = d ++ [lit "control.sock"] /\ d <> op_dir opts /\ ~ s `prefix_of` op_dir opts
    /\ forall id, ~ vault_path (op_dir opts) id `prefix_of` d.

End starting.

(** The watch on the bus never waits less than a second nor more than thirty,
    and a run that lasted starts over from one. *)
Lemma watch_waits_bounded backoff runs : second <= backoff <= 30 * second ->
  Forall (fun wait => second <= wait <= 30 * second) (watch_waits backoff runs).
Proof.
  revert backoff. induction runs as [|lasted runs IH]; intros b Hb; cbn [watch_waits watch_backoff]; [constructor|].
  assert (Hs : second = 1000000000) by done. destruct (Z.leb_spec (30 * second) lasted); (constructor; [lia|]); apply IH; lia.
Qed.

Lemma watch_restarts backoff lasted runs : 30 * second <= lasted -> head (watch_waits backoff (lasted :: runs)) = Some second.
Proof. intros Hl. cbn [watch_waits watch_backoff]. by destruct (Z.leb_spec (30 * second) lasted); [|lia]. Qed.

(** ** The properties at concrete inputs *)

Definition sample_sockets : Sockets := {| sk_accepts f p := bool_decide (is_Some (f !! p)) |}.

Definition sample_runtime : fpath := [lit "run"; lit "secret-manager"].
Definition sample_socket_path : fpath := sample_runtime ++ [lit "control.sock"].

(** Somebody else listens at the path. *)
Definition squatted_world : world :=
  World {[ [lit "v"] := NDir 448; [lit "run"] := NDir 448; sample_runtime := NDir 448; sample_socket_path := NFile [x99] 511 None ]} 0 [].

Definition sample_bind (l : bytes) (w : world) := @bind_with_timeouts sample_env sample_sockets sample_socket_path l w.

Lemma socket_taken_over_witness :
  exists srv w', sample_bind [x01] squatted_world = (Some (Ok (srv, true)), w') /\ fs w' !! sample_socket_path = Some (our_socket [x01]).
Proof.
  assert (Ho : (fun o => match o with Some (Ok (_, b)) => b | _ => false end) (fst (sample_bind [x01] squatted_world)) = true) by (vm_compute; reflexivity).
  pose proof (@socket_taken_over sample_env sample_sockets sample_runtime (lit "control.sock") [x01] squatted_world ltac:(discriminate)) as Hx.
  unfold sample_bind, sample_socket_path in *. destruct (bind_with_timeouts _ _ _) as [o w']. cbn [fst] in Ho.
  destruct o as [[[srv b]|e]|]; [|discriminate..]. subst b. exists srv, w'. destruct Hx as (_ & _ & _ & Hf & _). split; [reflexivity|exact Hf].
Defined.

Definition sample_platform : Platform := {|
  pf_dumpable := None; pf_lock_memory := Ok (Rlimit 0 0); pf_address := None; pf_serve := None; pf_build := Ok tt;
  pf_register _ := Ok tt; pf_socket := Ok sample_socket_path |}.

Definition sample_options : DaemonOptions :=
  {| op_dir := [lit "v"]; op_lock_memory := false; op_locked_search := true; op_auto_lock_after := 900; op_control_socket := None |}.

Definition sample_started := @daemon_start sample_env sample_codec sample_text sample_sockets sample_platform
  sample_options [x01] squatted_world.

Lemma squatted_no_links : no_links [lit "v"] squatted_world.
Proof.
  intros id q Hq. assert (Hnone : fs squatted_world !! vault_path [lit "v"] id = None); [|congruence].
  unfold vault_path. cbn. repeat (rewrite lookup_insert_ne by (intros [=]; by destruct id)). apply lookup_empty.
Qed.


(** A server that is dropped removes what is at its path, even the socket of
    the daemon that has taken the path over. *)
Lemma drop_removes_successor :
  match sample_bind [x01] squatted_world with
  | (Some (Ok (first, _)), w) =>
    match sample_bind [x02] w with
    | (Some (Ok _), w) => fs w !! sample_socket_path = Some (our_socket [x02])
                          /\ fs (@drop_server sample_env first w) !! sample_socket_path = None
    | _ => False
    end
  | _ => False
  end.
Proof. vm_compute. split; reflexivity. Qed.

(** A failed [chmod] leaves the socket under its private name. *)
Definition chmod_fails : Env := {|
  env_fault n := if (n =? 6)%nat then Some (IoError OtherKind (Some 1)) else None; env_short := @env_short sample_env;
  env_rng := @env_rng sample_env; env_uuid := @env_uuid sample_env; env_now := @env_now sample_env; env_umask := @env_umask sample_env |}.

Lemma failed_bind_leaves_staging :
  let '(o, w) := @bind_with_timeouts chmod_fails sample_sockets sample_socket_path [x01] squatted_world in
  (exists e, o = Some (Err e)) /\ size (fs w) = S (size (fs squatted_world)).
Proof. vm_compute. split; [eexists; reflexivity|reflexivity]. Qed.
