(* ===== verification/Dispatch.v ===== *)
(** * The command line as a whole ([run], [dispatch] and [daemon] of
      [src/cli/mod.rs], with the subcommands of [src/cli/ssh.rs] and
      [src/cli/gpg.rs])

    Every command of [Secrets], [Ssh], [VaultCmds], [GpgCmds] and [Startup] as
    one function from a parsed command to an exit code.  clap and its completions
    are a parameter, and so is what [sm import] prints; its run is [ImportRun].
    Then the authority of each command: all it may ask of the bus, of the
    daemon and of the user. *)
From S2P Require Import Prelude Text Env Crypto Codec Format Sanitize Names Files Sweep Store Aliases Session State Protocol Daemon Config Bus Pinentry Gpg Client Secrets SecretsProps Askpass Ssh VaultCmds GpgCmds Startup.

Inductive SshCommand : Type := SshAdd (path : str) (no_passphrase : bool) | SshList | SshRemove (path : str) | SshAskpass (prompt : list str).

Inductive GpgCommand : Type := GpgEnroll (keyid : option str) | GpgPreset.

(** The commands modelled elsewhere, what serving does to the machine, and the
    texts of the daemon's errors. *)
Class Elsewhere `{B : Bus} `{SV : !Service} : Type := {
  el_shell : Type;
  el_import : Type;
  el_completions : el_shell -> gm unit;
  el_run_import : el_import -> gm unit;
  el_listener : bytes;
  el_serve : started -> world -> world;
  el_daemon_text : DaemonError -> str;
  el_to_json : list ListEntry -> result bytes str
}.

Inductive Command `{B : Bus} `{SV : !Service} `{EL : !Elsewhere} : Type :=
| CInit (collection : str)
| CDaemon (foreground : bool)
| CGet (attrs : list str) (label : option str)
| CSet (attrs : list str) (label : str)
| CDelete (attrs : list str)
| CList (attrs : list str) (json : bool)
| CLock (collection : option str)
| CUnlock (collection : str)
| CStatus
| CReload
| CChangePassword (collection : str)
| CCompletions (shell : el_shell)
| CImport (args : el_import)
| CSsh (command : SshCommand)
| CGpg (command : GpgCommand).

Section dispatch.
Context `{E : Env} `{PR : Prims} `{P : SessionPrims} `{VC : VaultCodec} `{AT : AliasText}.
Context `{B : Bus} `{V : !Values B} `{SV : !Service} `{C : !Console} `{SU : Setup} `{SO : !Socket} `{D : Disk}.
Context `{U : Unicode} `{H : Helpers} `{SG : !Signer} `{SK : Sockets} `{PF : Platform} `{EL : !Elsewhere}.

(** [DaemonOptions::new]. *)
Definition options_new (c : Config su_gpg) : DaemonOptions := {|
  op_dir := config_dir c; op_lock_memory := vc_lock_memory (cf_vault c); op_locked_search := vc_locked_search (cf_vault c);
  op_auto_lock_after := vc_auto_lock_after (cf_vault c); op_control_socket := None |}.

Definition daemon_start_error (e : DaemonError) : CliError :=
  match e with
  | DNameTaken | DNoRuntimeDir | DZBus _ => CUnreachable (el_daemon_text e)
  | other => CFailed (el_daemon_text other)
  end.

Definition daemon : cm unit :=
  cbind (clift load_config) (fun config t =>
    match daemon_start (options_new config) el_listener (tm_world t) with
    | (None, w) => (None, Term (tm_service t) w (tm_log t))
    | (Some (Err e), w) => (Some (Err (daemon_start_error e)), Term (tm_service t) w (tm_log t))
    | (Some (Ok d), w) => (Some (Ok tt), Term (tm_service t) (daemon_drop d (el_serve d w)) (tm_log t))
    end).

Definition dispatch (c : Command) : gm unit :=
  match c with
  | CInit collection => of_client (init collection)
  | CDaemon _ => of_client daemon
  | CGet attrs label => of_client (get attrs label)
  | CSet attrs label => of_client (set attrs label)
  | CDelete attrs => of_client (delete attrs)
  | CList attrs json => of_client (list_command el_to_json attrs json)
  | CLock collection => of_client (sm_lock collection)
  | CUnlock collection => of_client (sm_unlock collection)
  | CStatus => of_client sm_status
  | CReload => of_client sm_reload
  | CChangePassword collection => of_client (sm_change_password collection)
  | CCompletions shell => el_completions shell
  | CImport args => el_run_import args
  | CSsh (SshAdd path no_passphrase) => of_client (ssh_add path no_passphrase)
  | CSsh SshList => of_client ssh_list
  | CSsh (SshRemove path) => of_client (ssh_remove path)
  | CSsh (SshAskpass prompt) => of_client (askpass prompt)
  | CGpg (GpgEnroll keyid) => enroll keyid
  | CGpg GpgPreset => preset
  end.

Lemma start_codes_agree e : exit_code (daemon_start_error e) = start_error_code e.
Proof. by destruct e. Qed.

(** The exit code; [None] is a panic. *)
Definition run (c : Command) (s : term * desk) : option Z * (term * desk) :=
  match dispatch c s with
  | (Some (Ok _), s) => (Some 0, s)
  | (Some (Err e), s) => (Some (exit_code e), (note (Warned (lit "secret-manager: " ++ cli_text e)) (fst s), snd s))
  | (None, s) => (None, s)
  end.
End dispatch.

(** ** Runs that stay within an authority *)

Section touches.
Context `{E : Env} `{P : SessionPrims} `{B : Bus} `{V : !Values B} `{SV : !Service} `{C : !Console}.

Definition touches {A} (ok : event -> Prop) (m : cm A) : Prop := runs ok (fun _ _ => True) m.

Lemma touches_of {A} ok (ok' : event -> Prop) (Q : A -> list event -> Prop) m : runs ok Q m -> (forall e, ok e -> ok' e) -> touches ok' m.
Proof. intros Hm Hok. by eapply logs_weaken. Qed.

Lemma touches_bind {A A'} ok (m : cm A) (k : A -> cm A') : touches ok m -> (forall a, touches ok (k a)) -> touches ok (cbind m k).
Proof. intros Hm Hk. eapply logs_bind; [exact Hm|]. intros a l _ _. eapply logs_weaken; [apply Hk|done|done]. Qed.

Lemma touches_try {A} ok (m : cm A) : touches ok m -> touches ok (ctry m).
Proof. intros Hm. eapply logs_weaken; [by apply logs_try|done|done]. Qed.

Lemma touches_ret {A} ok (a : A) : touches ok (cret a).
Proof. by apply logs_ret. Qed.
Lemma touches_err {A} ok e : touches (A := A) ok (cerr e).
Proof. apply logs_err. Qed.
Lemma touches_lift {A} ok (r : result A CliError) : touches ok (clift r).
Proof. by apply logs_lift. Qed.
Lemma touches_panic {A} ok (o : option A) : touches ok (cpanic o).
Proof. by apply logs_panic. Qed.
Lemma touches_on_machine {A} ok (f : world -> option A * world) : touches ok (on_machine f).
Proof. by apply logs_machine. Qed.
Lemma touches_look {A} ok (f : term -> result A CliError) : touches ok (fun t => clift (f t) t).
Proof. intros t. exists []. by rewrite app_nil_r. Qed.
Lemma touches_ask ok q : (forall r, ok (Called q r)) -> touches ok (ask_service q).
Proof. intros Hok. by eapply logs_any, logs_call. Qed.
Lemma touches_mapped ok q : (forall r, ok (Called q r)) -> touches ok (ask_mapped q).
Proof. intros Hok. by eapply logs_any, logs_mapped. Qed.
Lemma touches_warn (ok : event -> Prop) text : ok (Warned text) -> touches ok (warn text).
Proof. intros Hok. by eapply logs_any, logs_warn. Qed.

(** Something that logs at most one event. *)
Lemma touches_note {A} (ok : event -> Prop) (m : cm A) :
  (forall t, tm_log (snd (m t)) = tm_log t \/ exists e, tm_log (snd (m t)) = tm_log t ++ [e] /\ ok e) -> touches ok m.
Proof.
  intros Hm t. destruct (Hm t) as [->|(e & -> & He)]; [exists []|exists [e]]; rewrite ?app_nil_r; (split; [done|]); (split; [|done]);
    by repeat constructor.
Qed.

Lemma touches_println (ok : event -> Prop) line : (forall out, ok (Printed out)) -> touches ok (println line).
Proof. intros Hok. apply touches_note. intros t. unfold println. destruct (cs_write _ _); [by left|right; eauto]. Qed.
Lemma touches_write (ok : event -> Prop) out : (forall out, ok (Printed out)) -> touches ok (write_out out).
Proof. intros Hok. apply touches_note. intros t. unfold write_out. destruct (cs_write _ _); [by left|right; eauto]. Qed.
Lemma touches_password (ok : event -> Prop) prompt : (forall r, ok (Entered r)) -> touches ok (read_password prompt).
Proof. intros Hok. apply touches_note. intros t. right. unfold read_password. destruct cs_stdin_is_terminal; cbn; eauto. Qed.
Lemma touches_confirm (ok : event -> Prop) req : (forall r, ok (Confirmed req r)) -> touches ok (confirm_dialog req).
Proof. intros Hok. apply touches_note. intros t. right. cbn. eauto. Qed.
Lemma touches_dialog (ok : event -> Prop) req : (forall r, ok (Asked req r)) -> touches ok (ask_dialog req).
Proof. intros Hok. apply touches_note. intros t. right. cbn. eauto. Qed.
End touches.

(** The pieces of a command, one after another. *)
Create HintDb touches.
#[export] Hint Resolve touches_ret touches_err touches_lift touches_panic touches_on_machine touches_look : touches.

Ltac permitted := intros; cbn; tauto.
Ltac touch :=
  repeat first
    [ progress eauto 1 with touches nocore
    | match goal with |- touches _ (cbind _ _) => apply touches_bind; [|intros ?] end
    | apply touches_try
    | match goal with |- touches _ (ask_service ?q) => apply (touches_ask _ q); permitted end
    | match goal with |- touches _ (ask_mapped ?q) => apply (touches_mapped _ q); permitted end
    | apply touches_warn; permitted
    | apply touches_println; permitted
    | apply touches_write; permitted
    | apply touches_password; permitted
    | apply touches_confirm; permitted
    | apply touches_dialog; permitted
    | match goal with |- touches _ (match ?x with _ => _ end) => destruct x end ].

Section authority.
Context `{E : Env} `{PR : Prims} `{P : SessionPrims} `{VC : VaultCodec} `{AT : AliasText}.
Context `{B : Bus} `{V : !Values B} `{SV : !Service} `{C : !Console} `{SU : Setup} `{SO : !Socket} `{D : Disk}.
Context `{U : Unicode} `{H : Helpers} `{SG : !Signer} `{SK : Sockets} `{PF : Platform} `{EL : !Elsewhere}.

(** Storing an item in the default collection; listing collections; a line
    typed; output; dialogs; one kind of request to the daemon. *)
Definition storing (e : event) : Prop :=
  match e with Called (QReadAlias _) _ | Called (QLocked _) _ | Called (QCreateItem _ _ _ _) _ => True | _ => unlocking e end.
Definition enumerating (e : event) : Prop := match e with Called QCollections _ | Called (QItems _) _ => True | _ => False end.
Definition typing (e : event) : Prop := match e with Entered _ => True | _ => False end.
Definition printing (e : event) : Prop := match e with Printed _ => True | _ => False end.
Definition asking (e : event) : Prop := match e with Confirmed _ _ | Asked _ _ => True | _ => False end.
Definition requesting (ok : Request -> Prop) (e : event) : Prop := match e with Controlled req _ => ok req | _ => False end.

Definition rotates (req : Request) : Prop := match req with RChangeKey _ _ _ _ _ => True | _ => False end.
Definition opens (req : Request) : Prop := match req with RUnlockWithKey _ _ pin => pin = false | _ => False end.
Definition locks (req : Request) : Prop := match req with RLock _ => True | _ => False end.

(** All that a command may do. *)
Definition authority (c : Command) (e : event) : Prop :=
  match c with
  | CInit _ => typing e \/ printing e \/ warning e \/ requesting (eq RReload) e
  | CDaemon _ => False
  | CGet _ _ => connecting e \/ finding e \/ inspecting e \/ warning e \/ reading e \/ printing e
  | CSet _ _ => typing e \/ connecting e \/ storing e
  | CDelete _ => connecting e \/ finding e \/ removing e
  | CList _ _ => connecting e \/ searching e \/ enumerating e \/ inspecting e \/ printing e
  | CLock _ => requesting locks e \/ printing e
  | CUnlock _ => typing e \/ requesting opens e \/ printing e
  | CStatus => requesting (eq RStatus) e \/ printing e \/ warning e
  | CReload => requesting (eq RReload) e \/ printing e
  | CChangePassword _ => typing e \/ requesting rotates e \/ printing e
  | CCompletions _ | CImport _ => True
  | CSsh (SshAdd _ _) => typing e \/ connecting e \/ finding e \/ removing e \/ storing e \/ printing e
  | CSsh SshList => connecting e \/ finding e \/ inspecting e \/ printing e
  | CSsh (SshRemove _) => connecting e \/ finding e \/ removing e \/ printing e
  | CSsh (SshAskpass _) => connecting e \/ searching e \/ inspecting e \/ warning e \/ asking e \/ unlocking e \/ reading e \/ printing e
  | CGpg (GpgEnroll _) => typing e \/ connecting e \/ finding e \/ inspecting e \/ removing e \/ storing e \/ printing e
  | CGpg GpgPreset => warning e \/ connecting e \/ finding e \/ inspecting e \/ reading e \/ printing e
  end.

Lemma touches_connect (ok : event -> Prop) : (forall e, connecting e -> ok e) -> touches ok client_connect.
Proof. intros Hok. eapply touches_of; [apply logs_connect|done]. Qed.
Lemma touches_find (ok : event -> Prop) q s : (forall e, finding e -> ok e) -> touches ok (find_inner q s).
Proof. intros Hok. eapply touches_of; [apply logs_find|done]. Qed.
Lemma touches_info (ok : event -> Prop) p : (forall e, inspecting e -> ok e) -> touches ok (item_info p).
Proof. intros Hok. eapply touches_of; [apply logs_info|done]. Qed.
Lemma touches_prompt (ok : event -> Prop) p : (forall e, prompting e -> ok e) -> touches ok (perform_prompt p).
Proof. intros Hok. eapply touches_of; [apply logs_prompt|done]. Qed.
Lemma touches_unlock (ok : event -> Prop) os : (forall e, unlocking e -> ok e) -> touches ok (client_unlock os).
Proof. intros Hok. eapply touches_of; [apply logs_unlock|done]. Qed.
Lemma touches_delete_each (ok : event -> Prop) items : (forall e, removing e -> ok e) -> touches ok (delete_each items).
Proof.
  intros Hok t. destruct (delete_each_spec items t) as (l & Hl & Hf & _). exists l. split; [done|]. split; [by eapply Forall_impl|done].
Qed.
Lemma touches_store (ok : event -> Prop) cl attrs lbl secret : (forall e, storing e -> ok e) -> touches ok (client_store cl attrs lbl secret).
Proof.
  intros Hok. apply (touches_of storing _ (fun _ _ => True)); [|done]. fold (touches storing (client_store cl attrs lbl secret)).
  unfold client_store, default_collection, client_encrypt. touch.
  - apply touches_unlock. by intros [[] r| | | | | |].
  - apply touches_prompt. by intros [[] r| | | | | |].
Qed.
Lemma touches_new_password (ok : event -> Prop) prompt : (forall e, typing e -> ok e) -> touches ok (read_new_password prompt).
Proof.
  intros Hok. apply (touches_of typing _ (fun _ _ => True)); [|done]. fold (touches typing (read_new_password prompt)).
  unfold read_new_password. touch.
Qed.
Lemma touches_control (P0 : Request -> Prop) (ok : event -> Prop) req : P0 req -> (forall e, requesting P0 e -> ok e) -> touches ok (control req).
Proof.
  intros Hp Hok. unfold control. touch. apply touches_note. intros t. unfold control_call. destruct (so_call _ _ _ _) as [[r s] w].
  right. eexists. split; [done|]. by apply Hok.
Qed.
Lemma touches_machine {A} ok (f : world -> result A CliError * world) : touches ok (machine f).
Proof. apply touches_note. intros t. left. unfold machine. by destruct (f (tm_world t)). Qed.
End authority.
#[export] Hint Resolve touches_machine : touches.

Ltac touch_more :=
  touch;
  repeat (first
    [ apply touches_connect; permitted | apply touches_find; permitted | apply touches_info; permitted
    | apply touches_prompt; permitted | apply touches_unlock; permitted | apply touches_delete_each; permitted
    | apply touches_store; permitted | apply touches_new_password; permitted ]; touch).

Section commands.
Context `{E : Env} `{PR : Prims} `{P : SessionPrims} `{VC : VaultCodec} `{AT : AliasText}.
Context `{B : Bus} `{V : !Values B} `{SV : !Service} `{C : !Console} `{SU : Setup} `{SO : !Socket} `{D : Disk}.
Context `{U : Unicode} `{H : Helpers} `{SG : !Signer} `{SK : Sockets} `{PF : Platform} `{EL : !Elsewhere}.

Lemma get_authority attrs label : touches (authority (CGet attrs label)) (get attrs label).
Proof.
  unfold get. apply touches_bind; [|intros out; apply touches_write; permitted].
  eapply touches_of; [apply logs_get|]. unfold getting. permitted.
Qed.

Lemma set_authority attrs label : touches (authority (CSet attrs label)) (set attrs label).
Proof.
  unfold set, read_secret_from_stdin. touch_more.
Qed.

Lemma delete_authority attrs : touches (authority (CDelete attrs)) (delete attrs).
Proof. unfold delete, delete_targets, find_all. touch_more. Qed.

Lemma touches_list_entries (ok : event -> Prop) paths : (forall e, inspecting e -> ok e) ->
  forall entries, touches ok (list_entries paths entries).
Proof.
  intros Hok. induction paths as [|p paths IH]; intros entries; cbn [list_entries]; touch. apply touches_info, Hok.
Qed.

Lemma touches_lines (ok : event -> Prop) lines : (forall out, ok (Printed out)) -> touches ok (write_lines lines).
Proof. intros Hok. induction lines; cbn [write_lines]; touch. by apply touches_write. Qed.

Lemma list_authority attrs json : touches (authority (CList attrs json)) (list_command el_to_json attrs json).
Proof.
  assert (forall cs out, touches (authority (CList attrs json)) (items_of cs out)) as Hi.
  { induction cs as [|c cs IH]; intros out; cbn [items_of]; touch. }
  unfold list_command, all_items, client_search. touch_more.
  all: first [apply touches_list_entries; permitted | apply touches_lines; permitted | apply Hi].
Qed.

Lemma lock_authority collection : touches (authority (CLock collection)) (sm_lock collection).
Proof. unfold sm_lock. touch. by apply (touches_control locks); [|permitted]. Qed.

Lemma unlock_authority collection : touches (authority (CUnlock collection)) (sm_unlock collection).
Proof. unfold sm_unlock. touch. by apply (touches_control opens); [|permitted]. Qed.

Lemma status_authority : touches (authority CStatus) sm_status.
Proof.
  assert (forall lines, touches (authority CStatus) (println_each lines)) as Hp.
  { induction lines as [|line lines IH]; cbn [println_each]; touch. }
  assert (forall l, touches (authority CStatus) (status_warnings l)) as Hw.
  { induction l as [|c l IH]; cbn [status_warnings]; unfold println_warning; touch. }
  unfold sm_status. touch. all: first [apply Hp | apply Hw | by apply (touches_control (eq RStatus)); [|permitted]].
Qed.

Lemma reload_authority : touches (authority CReload) sm_reload.
Proof. unfold sm_reload. touch. by apply (touches_control (eq RReload)); [|permitted]. Qed.

Lemma change_authority collection : touches (authority (CChangePassword collection)) (sm_change_password collection).
Proof. unfold sm_change_password. touch_more. by apply (touches_control rotates); [|permitted]. Qed.

Lemma init_authority collection : touches (authority (CInit collection)) (init collection).
Proof.
  unfold init, claim_default, tell_daemon. touch_more. apply touches_note. intros t. unfold control_call.
  destruct (so_call _ _ _ _) as [[r s] w]. right. eexists. split; [done|]. cbn. tauto.
Qed.

Lemma daemon_authority b : touches (authority (CDaemon b)) daemon.
Proof.
  unfold daemon. touch. apply touches_note. intros t. left.
  by destruct (daemon_start _ _ _) as [[[]|] ?].
Qed.

Lemma ssh_add_authority path np : touches (authority (CSsh (SshAdd path np))) (ssh_add path np).
Proof. unfold ssh_add, find_all. touch_more. Qed.

Lemma ssh_list_authority : touches (authority (CSsh SshList)) ssh_list.
Proof.
  assert (forall l, touches (authority (CSsh SshList)) (ssh_rows l)) as Hr.
  { induction l as [|i l IH]; cbn [ssh_rows]; touch_more. }
  unfold ssh_list, find. touch_more.
Qed.

Lemma ssh_remove_authority path : touches (authority (CSsh (SshRemove path))) (ssh_remove path).
Proof. unfold ssh_remove, find_all. touch_more. Qed.

Lemma askpass_authority prompt : touches (authority (CSsh (SshAskpass prompt))) (askpass prompt).
Proof.
  unfold askpass, release_passphrase, fallback, load_pinentry. touch.
  - eapply touches_of; [apply logs_choose|]. unfold harmless, asking. permitted.
  - eapply touches_of; [apply logs_consented|]. unfold harmless, asking. permitted.
  - eapply touches_of; [apply logs_read_key|]. intros [[] r| | | | | |]; cbn; tauto.
Qed.

(** The same with a desk beside the term. *)
Definition desk_touches {A} (ok : event -> Prop) (m : gm A) : Prop :=
  forall s, exists l, tm_log (fst (snd (m s))) = tm_log (fst s) ++ l /\ Forall ok l.

Lemma desk_touches_client {A} ok (m : cm A) : touches ok m -> desk_touches ok (of_client m).
Proof. intros Hm [t d]. destruct (Hm t) as (l & Hl & Hf & _). exists l. unfold of_client. cbn. by destruct (m t). Qed.

Lemma desk_touches_silent {A} ok (m : gm A) : (forall s, fst (snd (m s)) = fst s) -> desk_touches ok m.
Proof. intros Hm s. exists []. by rewrite Hm, app_nil_r. Qed.

Lemma desk_touches_bind {A A'} ok (m : gm A) (k : A -> gm A') : desk_touches ok m -> (forall a, desk_touches ok (k a)) -> desk_touches ok (gbind m k).
Proof.
  intros Hm Hk s. destruct (Hm s) as (l & Hl & Hf). unfold gbind. destruct (m s) as [[[a|e]|] s1]; cbn in *; [|by exists l..].
  destruct (Hk a s1) as (l' & Hl' & Hf'). exists (l ++ l'). rewrite Hl', Hl, app_assoc. split; [done|]. by apply Forall_app.
Qed.

Lemma of_desk_silent {A} (m : dm A) s : fst (snd (of_desk m s)) = fst s.
Proof. unfold of_desk. by destruct (m (snd s)). Qed.

Ltac desk_touch := repeat first
  [ match goal with |- desk_touches _ (gbind _ _) => apply desk_touches_bind; [|intros ?] end
  | apply desk_touches_client
  | apply desk_touches_silent; first [done | apply of_desk_silent]
  | match goal with |- desk_touches _ (match ?x with _ => _ end) => destruct x end ].

Lemma enroll_authority keyid : desk_touches (authority (CGpg (GpgEnroll keyid))) (enroll keyid).
Proof.
  assert (forall found fpr out, touches (authority (CGpg (GpgEnroll keyid))) (key_items_among found fpr out)) as Hk.
  { induction found as [|p found IH]; intros fpr out; cbn [key_items_among]; touch_more. }
  unfold enroll. desk_touch; unfold store_key, find_key_items, find_all; touch_more.
Qed.

Lemma preset_authority : desk_touches (authority (CGpg GpgPreset)) preset.
Proof.
  assert (forall paths stored n, touches (authority (CGpg GpgPreset)) (stored_keys paths stored n)) as Hs.
  { induction paths as [|p paths IH]; intros stored n; cbn [stored_keys]; touch_more. }
  assert (forall client fpr stored n, touches (authority (CGpg GpgPreset)) (first_secret client fpr stored n)) as Hf.
  { intros client fpr stored. induction stored as [|[k p] stored IH]; intros n; cbn [first_secret]; unfold client_get_secret; touch_more. }
  assert (forall client filter stored keys pairs n, touches (authority (CGpg GpgPreset)) (gather client filter stored keys pairs n)) as Hg.
  { intros client filter stored keys. induction keys as [|key keys IH]; intros pairs n; cbn [gather]; touch_more. }
  unfold preset. desk_touch; unfold read_stored, preset_report, find_all; touch_more.
Qed.

Lemma dispatch_authority c : desk_touches (authority c) (dispatch c) \/ (exists shell, c = CCompletions shell) \/ (exists args, c = CImport args).
Proof.
  destruct c as [| | | | | | | | | | | | |[]|[]]; try (by right; eauto); left; cbn [dispatch];
    first [apply enroll_authority | apply preset_authority | apply desk_touches_client];
    auto using init_authority, daemon_authority, get_authority, set_authority, delete_authority, list_authority, lock_authority,
      unlock_authority, status_authority, reload_authority, change_authority, ssh_add_authority, ssh_list_authority,
      ssh_remove_authority, askpass_authority.
Qed.

(** The commands that read, store and delete secrets, and that make requests of
    the daemon. *)
Definition reader (c : Command) : bool := match c with CGet _ _ | CSsh (SshAskpass _) | CGpg GpgPreset => true | _ => false end.
Definition writer (c : Command) : bool := match c with CSet _ _ | CSsh (SshAdd _ _) | CGpg (GpgEnroll _) => true | _ => false end.
Definition remover (c : Command) : bool :=
  match c with CDelete _ | CSsh (SshAdd _ _) | CSsh (SshRemove _) | CGpg (GpgEnroll _) => true | _ => false end.
Definition requester (c : Command) : bool :=
  match c with CInit _ | CLock _ | CUnlock _ | CStatus | CReload | CChangePassword _ => true | _ => false end.

(** The commands whose part of the log is modelled. *)
Definition logged (c : Command) : bool := match c with CCompletions _ | CImport _ => false | _ => true end.

(** Whom an event must have come from. *)
Definition attributed (c : Command) (e : event) : Prop :=
  match e with
  | Called (QGetSecret _ _) _ => reader c = true
  | Called (QCreateItem _ _ _ _) _ => writer c = true
  | Called (QDelete _) _ | Called (QDeleteItems _ _) _ => remover c = true
  | Controlled _ _ => requester c = true
  | _ => True
  end.

Lemma authority_attributed c e : logged c = true -> authority c e -> attributed c e.
Proof.
  destruct c as [| | | | | | | | | | | | |[]|[]], e as [[] r| | | | | |]; cbn; intros Hl Ha; unfold finding, removing in Ha; cbn in Ha; (discriminate || tauto).
Qed.

Lemma exit_code_range e : 1 <= exit_code e <= 3.
Proof. destruct e; cbn; lia. Qed.

End commands.
