(* ===== verification/Fuzz.v ===== *)
(** * The generators of the fuzz targets ([fuzz/src/lib.rs])

    Inputs that are well formed in all but the interesting respects: vault
    files, gnome-keyring files and KWallet files, each with a predicate that
    says which of them the parser under test has to accept.  The crate
    [arbitrary] is a parameter, a source of choices within documented ranges.
    Then that the predicates are right: what they promise to parse does, to
    exactly the fields it was built from, for everything a generator makes. *)
From S2P Require Import Prelude Text Env Crypto Codec Format Import Formats.

Definition FAST : KdfParams := {| m_cost_kib := 8; t_cost := 1; p_cost := 1 |}.

(** [arbitrary::Unstructured]; [None] is an error. *)
Class Unstructured : Type := {
  un : Type;
  u_is_empty : un -> bool;
  u_int_in_range : Z -> Z -> un -> option (Z * un);
  u_ratio : Z -> Z -> un -> option (bool * un);
  u_choose : nat -> un -> option (nat * un);             (** an index below *)
  u_arbitrary_len : un -> option (nat * un);
  u_word : Z -> un -> option (Z * un);                   (** an unsigned integer up to a maximum *)
  u_vec : un -> option (bytes * un);                     (** a [Vec<u8>] *)
  u_fill_buffer : nat -> un -> option (bytes * un)       (** and an array *)
}.

Class UnstructuredOk (U : Unstructured) : Prop := {
  u_int_range lo hi u z u' : u_int_in_range lo hi u = Some (z, u') -> lo <= z <= hi;
  u_choose_range n u i u' : u_choose n u = Some (i, u') -> (i < n)%nat;
  u_word_range m u z u' : u_word m u = Some (z, u') -> 0 <= z <= m;
  u_fill_length n u b u' : u_fill_buffer n u = Some (b, u') -> length b = n
}.

Definition gen `{Unstructured} (A : Type) : Type := un -> option (A * un).
Definition gbind `{Unstructured} {A A'} (m : gen A) (k : A -> gen A') : gen A' :=
  fun u => match m u with Some (a, u) => k a u | None => None end.
Definition gret `{Unstructured} {A} (a : A) : gen A := fun u => Some (a, u).

Declare Scope fuzz_scope.
Notation "'let%' x ':=' m 'in' k" := (gbind m (fun x => k))
  (at level 10, x binder, m at level 200, k at level 200) : fuzz_scope.
Open Scope fuzz_scope.

Section generators.
Context `{U : Unstructured}.

Definition choose {A} (d : A) (l : list A) : gen A := let% i := u_choose (length l) in gret (nth i l d).

(** [for _ in 0..n { if u.is_empty() { break; } out.push(g(u)?) }]. *)
Fixpoint up_to {A} (n : nat) (g : gen A) : gen (list A) :=
  match n with
  | O => gret []
  | S n => fun u => if u_is_empty u then Some ([], u) else (let% a := g in let% l := up_to n g in gret (a :: l)) u
  end.

(** [for _ in 0..n { out.push(g(u)?) }]. *)
Fixpoint exactly {A} (n : nat) (g : gen A) : gen (list A) :=
  match n with
  | O => gret []
  | S n => let% a := g in let% l := exactly n g in gret (a :: l)
  end.

Definition INTERESTING : str :=
  [34; 40; 41; 39; 92; 10; 13; 9; 0; 7; 27; 127; 0xad; 0x61c; 0x200b; 0x200e; 0x200f; 0x2028; 0x2029; 0x202a;
   0x202b; 0x202c; 0x202d; 0x202e; 0x2060; 0x2066; 0x2069; 0xfeff; 0xfffd; 0xe9; 0x4e2d; 0x1f510; 47; 58; 61; 32].

(** [char::from_u32]. *)
Definition char_from_u32 (n : Z) : option char :=
  if (n <=? 0x10ffff) && negb ((0xd800 <=? n) && (n <=? 0xdfff)) then Some n else None.

Definition hostile_char : gen char :=
  let% interesting := u_ratio 1 2 in
  if interesting : bool then choose 32 INTERESTING
  else
    let% anywhere := u_ratio 1 4 in
    if anywhere : bool then let% n := u_int_in_range 0 0x10ffff in gret (default 0xfffd (char_from_u32 n))
    else u_word u8_max.

Definition hostile_string : gen str := let% len := u_arbitrary_len in up_to (Nat.min len 256) hostile_char.

Definition gen_kdf_params : gen KdfParams :=
  let% cheap := u_ratio 3 4 in
  if cheap : bool then
    let% m := u_int_in_range 0 64 in let% t := u_int_in_range 0 4 in let% p := u_int_in_range 0 4 in
    gret {| m_cost_kib := m; t_cost := t; p_cost := p |}
  else
    let% m := u_word u32_max in let% t := u_word u32_max in let% p := u_word u32_max in
    gret {| m_cost_kib := m; t_cost := t; p_cost := p |}.

Definition gen_index_entry : gen IndexEntry :=
  let% hashes := u_arbitrary_len in
  let% attr_hashes := exactly (Nat.min hashes 8) (u_fill_buffer 32) in
  let% id := hostile_string in
  gret {| ie_id := id; attr_hashes := attr_hashes |}.

Definition gen_header : gen Header :=
  let% entries := u_arbitrary_len in
  let% index := up_to (Nat.min entries 32) gen_index_entry in
  let% real := u_ratio 4 5 in
  let% version := (if real : bool then gret VERSION else u_word u16_max) in
  let% label := hostile_string in
  let% created := u_word u64_max in
  let% modified := u_word u64_max in
  let% kdf := gen_kdf_params in
  let% salt := u_fill_buffer SALT_LEN in
  let% index_salt := u_fill_buffer SALT_LEN in
  let% nonce := u_fill_buffer NONCE_LEN in
  gret {| version := version; label := label; created := created; modified := modified; kdf := kdf;
          salt := salt; index_salt := index_salt; nonce := nonce; index := index |}.

(** [key]. *)
Definition gen_key : gen bytes := u_fill_buffer KEY_LEN.

Definition gen_attribute : gen (str * str) := let% k := hostile_string in let% v := hostile_string in gret (k, v).

Definition gen_item : gen Item :=
  let% n := u_arbitrary_len in
  let% pairs := up_to (Nat.min n 8) gen_attribute in
  let% secret_len := u_arbitrary_len in
  let% secret := u_fill_buffer (Nat.min secret_len 4096) in
  let% id := hostile_string in
  let% label := hostile_string in
  let% content_type := hostile_string in
  let% created := u_word u64_max in
  let% modified := u_word u64_max in
  gret {| i_id := id; i_label := label; attributes := fold_left (fun m '(k, v) => <[k := v]> m) pairs ∅; secret := secret;
          content_type := content_type; i_created := created; i_modified := modified |}.
End generators.

(** ** Vault files *)

Inductive VaultBytes : Type :=
| Raw (b : bytes)
| Framed (declared_len : Z) (tail : bytes)
| Corrupt (header : Header) (tail : bytes).

Definition gen_vault_bytes `{Unstructured} : gen VaultBytes :=
  let% kind := u_int_in_range 0 2 in
  if kind =? 0 then let% b := u_vec in gret (Raw b)
  else if kind =? 1 then
    let% absurd := u_ratio 1 2 in
    let% declared_len := (if absurd : bool then u_word u32_max else u_int_in_range 0 4096) in
    let% tail := u_vec in gret (Framed declared_len tail)
  else let% header := gen_header in let% tail := u_vec in gret (Corrupt header tail).

Section vault_bytes.
Context `{VC : VaultCodec}.

Definition vault_to_bytes (v : VaultBytes) : bytes :=
  match v with
  | Raw b => b
  | Framed declared_len tail => MAGIC ++ to_le_bytes 4 declared_len ++ tail
  | Corrupt header tail => match header_bytes header with Ok hb => hb ++ tail | Err _ => MAGIC end
  end.

Definition decodes (v : VaultBytes) : bool :=
  match v with
  | Raw _ | Framed _ _ => false
  | Corrupt header _ => (version header =? VERSION) && is_ok (validate (kdf header)) && is_ok (header_bytes header)
  end.
End vault_bytes.

Definition ALLOC_OVERHEAD : Z := Z.shiftl 8 10.
Definition GROWTH : Z := 128.
Definition decode_alloc_bound (len : Z) : Z := ALLOC_OVERHEAD + u64_saturating_mul len GROWTH.

(** ** gnome-keyring files *)

Record KeyringAttr : Type := {
  ka_name : bytes; ka_null_name : bool; ka_declared_name_len : option Z; ka_type : Z; ka_value : bytes; ka_declared_value_len : option Z
}.
Record KeyringItemSpec : Type := { ks_id : Z; ks_type : Z; ks_attrs : list KeyringAttr; ks_declared_attr_count : option Z }.
Record KeyringBytes : Type := {
  kb_raw : option bytes; kb_major : Z; kb_minor : Z; kb_name : bytes; kb_null_name : bool; kb_declared_name_len : option Z;
  kb_hash_iterations : Z; kb_items : list KeyringItemSpec; kb_declared_item_count : option Z; kb_ciphertext : bytes;
  kb_declared_ciphertext_len : option Z
}.

Definition KEYRING_CREATED : Z := 1699383593.
Definition KEYRING_SALT : bytes := [x01; x02; x03; x04; x05; x06; x07; x08].

(** [len as u32]. *)
Definition as_u32 (n : nat) : Z := Z.of_nat n mod 4294967296.
Definition be32 (v : Z) : bytes := to_be_bytes 4 v.

Definition ka_encode (a : KeyringAttr) : bytes :=
  (if ka_null_name a then be32 u32_max
   else be32 (default (as_u32 (length (ka_name a))) (ka_declared_name_len a)) ++ ka_name a)
  ++ be32 (ka_type a)
  ++ (if ka_type a =? 0 then be32 (default (as_u32 (length (ka_value a))) (ka_declared_value_len a)) ++ ka_value a
      else if ka_type a =? 1 then be32 0xdeadbeef
      else []).

Definition honest_name (a : KeyringAttr) : option str :=
  if ka_null_name a || bool_decide (is_Some (ka_declared_name_len a)) then None else from_utf8 (ka_name a).

Definition ka_is_honest (a : KeyringAttr) : bool :=
  bool_decide (is_Some (honest_name a)) && ((ka_type a =? 0) || (ka_type a =? 1))
  && (negb (ka_type a =? 0) || bool_decide (ka_declared_value_len a = None)).

Definition ks_encode (i : KeyringItemSpec) : bytes :=
  be32 (ks_id i) ++ be32 (ks_type i) ++ be32 (default (as_u32 (length (ks_attrs i))) (ks_declared_attr_count i))
  ++ concat (map ka_encode (ks_attrs i)).

Definition ks_is_honest (i : KeyringItemSpec) : bool :=
  bool_decide (ks_declared_attr_count i = None) && forallb ka_is_honest (ks_attrs i).

Definition ks_names (i : KeyringItemSpec) : gset str := list_to_set (omap honest_name (ks_attrs i)).

Definition keyring_to_bytes (k : KeyringBytes) : bytes :=
  match kb_raw k with
  | Some raw => raw
  | None =>
    KEYRING_MAGIC ++ (to_be_bytes 1 (kb_major k) ++ to_be_bytes 1 (kb_minor k) ++ [x00; x00])
    ++ (if kb_null_name k then be32 u32_max
        else be32 (default (as_u32 (length (kb_name k))) (kb_declared_name_len k)) ++ kb_name k)
    ++ to_be_bytes 8 KEYRING_CREATED ++ to_be_bytes 8 0 ++ be32 0 ++ be32 0 ++ be32 (kb_hash_iterations k)
    ++ KEYRING_SALT ++ repeat x00 16
    ++ be32 (default (as_u32 (length (kb_items k))) (kb_declared_item_count k))
    ++ concat (map ks_encode (kb_items k))
    ++ be32 (default (as_u32 (length (kb_ciphertext k))) (kb_declared_ciphertext_len k))
    ++ kb_ciphertext k
  end.

Definition honest_display_name (k : KeyringBytes) : option str :=
  if kb_null_name k then Some []
  else if bool_decide (is_Some (kb_declared_name_len k)) then None
  else from_utf8 (kb_name k).

Definition keyring_parses (k : KeyringBytes) : bool :=
  bool_decide (kb_raw k = None) && ((kb_major k =? 0) && (kb_minor k =? 0))
  && bool_decide (is_Some (honest_display_name k)) && bool_decide (kb_declared_item_count k = None)
  && bool_decide (kb_declared_ciphertext_len k = None) && forallb ks_is_honest (kb_items k).

Section keyring_generators.
Context `{U : Unstructured}.

Definition declared_count : gen Z :=
  let% kind := u_int_in_range 0 9 in
  if kind <=? 5 then u_int_in_range 0 4
  else if kind <=? 7 then choose 0 [0; 1; u32_max; u32_max - 1; Z.shiftl 1 30; 0x0f000000]
  else u_word u32_max.

Definition maybe_declared : gen (option Z) :=
  let% honest := u_ratio 7 10 in
  if honest : bool then gret None else let% n := declared_count in gret (Some n).

(** A byte string of a chosen length. *)
Definition short_bytes (max : Z) : gen bytes := let% n := u_int_in_range 0 max in u_fill_buffer (Z.to_nat n).

Definition attribute_name_bytes : gen bytes :=
  let% known := u_ratio 4 5 in
  if known : bool then
    choose [] (map utf8 [lit "xdg:schema"; lit "server"; lit "user"; lit "account"; lit "port"; lit "keyring"; []])
  else short_bytes 6.

Definition gen_keyring_attr : gen KeyringAttr :=
  let% name := attribute_name_bytes in
  let% null_name := u_ratio 1 10 in
  let% declared_name_len := maybe_declared in
  let% kind := u_int_in_range 0 9 in
  let% attr_type := (if kind <=? 4 then gret 0 else if kind <=? 8 then gret 1 else u_word u32_max) in
  let% value := short_bytes 34 in
  let% declared_value_len := maybe_declared in
  gret {| ka_name := name; ka_null_name := null_name; ka_declared_name_len := declared_name_len; ka_type := attr_type;
          ka_value := value; ka_declared_value_len := declared_value_len |}.

Definition gen_keyring_item : gen KeyringItemSpec :=
  let% id := u_word u32_max in
  let% known := u_ratio 4 5 in
  let% item_type := (if known : bool then u_int_in_range 0 5 else u_word u32_max) in
  let% n := u_int_in_range 0 3 in
  let% attrs := up_to (Z.to_nat n) gen_keyring_attr in
  let% declared_attr_count := maybe_declared in
  gret {| ks_id := id; ks_type := item_type; ks_attrs := attrs; ks_declared_attr_count := declared_attr_count |}.

Definition gen_raw : gen (option bytes) :=
  let% raw := u_ratio 1 8 in
  if raw : bool then let% b := u_vec in gret (Some b) else gret None.

Definition gen_version (major minor : Z) : gen (Z * Z) :=
  let% usual := u_ratio 4 5 in
  if usual : bool then gret (major, minor)
  else let% a := u_int_in_range 0 2 in let% b := u_int_in_range 0 2 in gret (a, b).

Definition gen_keyring_bytes : gen KeyringBytes :=
  let% raw := gen_raw in
  let% version := gen_version 0 0 in
  let% known := u_ratio 3 4 in
  let% name := (if known : bool then choose [] (map utf8 [lit "Sample keyring"; lit "login"; []]) else short_bytes 12) in
  let% null_name := u_ratio 1 10 in
  let% declared_name_len := maybe_declared in
  let% usual := u_ratio 4 5 in
  let% hash_iterations := (if usual : bool then gret 3457 else u_word u32_max) in
  let% n := u_int_in_range 0 3 in
  let% items := up_to (Z.to_nat n) gen_keyring_item in
  let% declared_item_count := maybe_declared in
  let% ciphertext := short_bytes 48 in
  let% declared_ciphertext_len := maybe_declared in
  gret {| kb_raw := raw; kb_major := fst version; kb_minor := snd version; kb_name := name; kb_null_name := null_name;
          kb_declared_name_len := declared_name_len; kb_hash_iterations := hash_iterations; kb_items := items;
          kb_declared_item_count := declared_item_count; kb_ciphertext := ciphertext;
          kb_declared_ciphertext_len := declared_ciphertext_len |}.
End keyring_generators.

(** ** KWallet files *)

Record WalletFolderSpec : Type := { wf_hash : bytes; wf_entries : list bytes; wf_declared_entry_count : option Z }.
Record WalletBytes : Type := {
  wb_raw : option bytes; wb_major : Z; wb_minor : Z; wb_folders : list WalletFolderSpec; wb_declared_folder_count : option Z;
  wb_ciphertext : bytes
}.

Definition wf_encode (f : WalletFolderSpec) : bytes :=
  wf_hash f ++ be32 (default (as_u32 (length (wf_entries f))) (wf_declared_entry_count f)) ++ concat (wf_entries f).

Definition wf_is_honest (f : WalletFolderSpec) : bool := bool_decide (wf_declared_entry_count f = None).

Definition encoded_len (f : WalletFolderSpec) : nat := (20 + 16 * length (wf_entries f))%nat.

Definition wallet_to_bytes (w : WalletBytes) : bytes :=
  match wb_raw w with
  | Some raw => raw
  | None =>
    KWALLET_MAGIC ++ (to_be_bytes 1 (wb_major w) ++ to_be_bytes 1 (wb_minor w) ++ [x03; x02])
    ++ be32 (default (as_u32 (length (wb_folders w))) (wb_declared_folder_count w))
    ++ concat (map wf_encode (wb_folders w)) ++ wb_ciphertext w
  end.

Definition index_end (w : WalletBytes) : nat :=
  (length KWALLET_MAGIC + 4 + 4 + sum_list (map encoded_len (wb_folders w)))%nat.

Definition wallet_parses (w : WalletBytes) : bool :=
  bool_decide (wb_raw w = None) && ((wb_major w =? 0) && (wb_minor w =? 1))
  && bool_decide (wb_declared_folder_count w = None) && forallb wf_is_honest (wb_folders w).

Section wallet_generators.
Context `{U : Unstructured}.

Definition gen_wallet_folder : gen WalletFolderSpec :=
  let% hash := u_fill_buffer 16 in
  let% n := u_int_in_range 0 3 in
  let% entries := up_to (Z.to_nat n) (u_fill_buffer 16) in
  let% declared := maybe_declared in
  gret {| wf_hash := hash; wf_entries := entries; wf_declared_entry_count := declared |}.

Definition gen_wallet_bytes : gen WalletBytes :=
  let% raw := gen_raw in
  let% version := gen_version 0 1 in
  let% n := u_int_in_range 0 4 in
  let% folders := up_to (Z.to_nat n) gen_wallet_folder in
  let% declared := maybe_declared in
  let% ciphertext := short_bytes 32 in
  gret {| wb_raw := raw; wb_major := fst version; wb_minor := snd version; wb_folders := folders;
          wb_declared_folder_count := declared; wb_ciphertext := ciphertext |}.
End wallet_generators.

(** ** What the generators make *)

Section makes.
Context `{U : Unstructured} `{UO : !UnstructuredOk U}.

Definition makes {A} (g : gen A) (Q : A -> Prop) : Prop := forall u a u', g u = Some (a, u') -> Q a.

Lemma makes_any {A} (g : gen A) : makes g (fun _ => True).
Proof. by intros u a u' _. Qed.

Lemma makes_ret {A} (a : A) (Q : A -> Prop) : Q a -> makes (gret a) Q.
Proof. by intros HQ u a' u' [= <- _]. Qed.

Lemma makes_bind {A A'} (g : gen A) (k : A -> gen A') (P : A -> Prop) (Q : A' -> Prop) :
  makes g P -> (forall a, P a -> makes (k a) Q) -> makes (gbind g k) Q.
Proof. intros Hg Hk u a u'. unfold gbind. destruct (g u) as [[x u1]|] eqn:E; [|done]. apply Hk. by apply (Hg u x u1). Qed.

Lemma makes_weaken {A} (g : gen A) (P Q : A -> Prop) : makes g P -> (forall a, P a -> Q a) -> makes g Q.
Proof. intros Hg HPQ u a u' E. by apply HPQ, (Hg u a u'). Qed.

Lemma makes_up_to {A} n (g : gen A) (Q : A -> Prop) : makes g Q -> makes (up_to n g) (fun l => Forall Q l /\ (length l <= n)%nat).
Proof.
  intros Hg. induction n as [|n IH]; cbn [up_to]; [by apply makes_ret|]. intros u a u'. destruct (u_is_empty u).
  { intros [= <- _]. split; [constructor|cbn; lia]. }
  revert u a u'. fold (makes (gbind g (fun a => gbind (up_to n g) (fun l => gret (a :: l)))) (fun l => Forall Q l /\ (length l <= S n)%nat)).
  eapply makes_bind; [exact Hg|]. intros a Ha. eapply makes_bind; [exact IH|]. intros l [Hl Hn]. apply makes_ret. split; [by constructor|cbn; lia].
Qed.

Lemma makes_exactly {A} n (g : gen A) (Q : A -> Prop) : makes g Q -> makes (exactly n g) (Forall Q).
Proof.
  intros Hg. induction n as [|n IH]; cbn [exactly]; [apply makes_ret; constructor|].
  eapply makes_bind; [exact Hg|]. intros a Ha. eapply makes_bind; [exact IH|]. intros l Hl. apply makes_ret. by constructor.
Qed.

Lemma makes_int lo hi : makes (u_int_in_range lo hi) (fun z => lo <= z <= hi).
Proof. intros u z u'. apply u_int_range. Qed.
Lemma makes_word m : makes (u_word m) (fun z => 0 <= z <= m).
Proof. intros u z u'. apply u_word_range. Qed.
Lemma makes_fill n : makes (u_fill_buffer n) (fun b => length b = n).
Proof. intros u b u'. apply u_fill_length. Qed.

Lemma makes_choose {A} (d : A) l (Q : A -> Prop) : Forall Q l -> makes (choose d l) Q.
Proof.
  intros HQ. eapply makes_bind; [intros u i u'; apply u_choose_range|]. intros i Hi. apply makes_ret.
  rewrite Forall_forall in HQ. apply HQ, list_elem_of_In, nth_In, Hi.
Qed.

Lemma makes_short m : 0 <= m -> makes (short_bytes m) (fun b => zlen b <= m).
Proof.
  intros Hm. eapply makes_bind; [apply makes_int|]. cbn beta. intros n Hn. eapply makes_weaken; [apply makes_fill|].
  cbn beta. intros b Hb. unfold zlen. rewrite Hb. lia.
Qed.
End makes.

(** One generator after another. *)
Create HintDb makes.
#[export] Hint Resolve makes_int makes_word makes_fill makes_up_to makes_exactly : makes.
#[export] Hint Extern 1 (makes (short_bytes _) _) => apply makes_short; lia : makes.

Ltac made :=
  repeat lazymatch goal with
  | |- makes (gbind _ _) _ =>
    first [ eapply makes_bind; [solve [eauto 3 with makes nocore]|]; cbn beta; intros ? ?
          | eapply makes_bind; [apply makes_any|]; intros ? _ ]
  | |- makes (if ?b then _ else _) _ => destruct b
  | |- makes (gret _) _ => apply makes_ret
  end.

(** Lengths every generated value keeps well inside a [u32]. *)
Definition short {A} (l : list A) : Prop := zlen l <= 64.

Section fits.
Context `{U : Unstructured} `{UO : !UnstructuredOk U}.

Definition attr_fits (a : KeyringAttr) : Prop := short (ka_name a) /\ short (ka_value a).
Definition item_fits (i : KeyringItemSpec) : Prop :=
  u32 (ks_id i) /\ u32 (ks_type i) /\ short (ks_attrs i) /\ Forall attr_fits (ks_attrs i).
Definition keyring_fits (k : KeyringBytes) : Prop :=
  short (kb_name k) /\ u32 (kb_hash_iterations k) /\ short (kb_items k) /\ Forall item_fits (kb_items k) /\ short (kb_ciphertext k).
Definition folder_fits (f : WalletFolderSpec) : Prop :=
  hash_wf (wf_hash f) /\ short (wf_entries f) /\ Forall hash_wf (wf_entries f).
Definition wallet_fits (w : WalletBytes) : Prop := short (wb_folders w) /\ Forall folder_fits (wb_folders w).

Lemma makes_short_choice (b : bool) (names : list bytes) m : 0 <= m <= 64 -> Forall short names ->
  makes (if b then choose [] names else short_bytes m) short.
Proof.
  intros Hm Hn. destruct b; [by apply makes_choose|]. eapply makes_weaken; [apply makes_short; lia|]. cbn beta. unfold short. lia.
Qed.

Lemma makes_u32_or (b : bool) z : u32 z -> makes (if b then gret z else u_word u32_max) u32.
Proof. intros Hz. destruct b; [by apply makes_ret|apply makes_word]. Qed.

Lemma attribute_names_short : makes attribute_name_bytes short.
Proof.
  eapply makes_bind; [apply makes_any|]. intros known _. apply makes_short_choice; [lia|].
  repeat constructor; by vm_compute.
Qed.
Hint Resolve attribute_names_short : makes.

Lemma keyring_attr_fits : makes gen_keyring_attr attr_fits.
Proof. unfold gen_keyring_attr. made. split; cbn; unfold short in *; [done|lia]. Qed.
Hint Resolve keyring_attr_fits : makes.

Lemma short_up_to {A} (l : list A) z : 0 <= z <= 4 -> (length l <= Z.to_nat z)%nat -> short l.
Proof. unfold short, zlen. lia. Qed.

Lemma keyring_item_fits : makes gen_keyring_item item_fits.
Proof.
  unfold gen_keyring_item. eapply makes_bind; [apply makes_word|]. cbn beta. intros id Hid.
  eapply makes_bind; [apply makes_any|]. intros known _. eapply (makes_bind _ _ u32).
  { destruct known; [|apply makes_word]. eapply makes_weaken; [apply makes_int|]. cbn beta. unfold u32, u32_max. lia. }
  intros ty Hty. made. unfold item_fits. cbn. split; [done|]. split; [done|]. destruct_and!.
  split; [eapply short_up_to; [|done]; lia|done].
Qed.
Hint Resolve keyring_item_fits : makes.

Lemma keyring_bytes_fit : makes gen_keyring_bytes keyring_fits.
Proof.
  unfold gen_keyring_bytes. do 3 (eapply makes_bind; [apply makes_any|]; intros ? _).
  eapply (makes_bind _ _ short).
  { apply makes_short_choice; [lia|]. repeat constructor; by vm_compute. }
  intros name Hname. do 3 (eapply makes_bind; [apply makes_any|]; intros ? _). eapply (makes_bind _ _ u32).
  { by apply makes_u32_or. }
  intros iters Hi. made. unfold keyring_fits. cbn. destruct_and!. split; [done|]. split; [done|].
  split; [eapply short_up_to; [|done]; lia|]. split; [done|]. unfold short. lia.
Qed.

Lemma wallet_folder_fits : makes gen_wallet_folder folder_fits.
Proof.
  unfold gen_wallet_folder. made. unfold folder_fits. cbn. destruct_and!. split; [done|].
  split; [eapply short_up_to; [|done]; lia|done].
Qed.
Hint Resolve wallet_folder_fits : makes.

Lemma wallet_bytes_fit : makes gen_wallet_bytes wallet_fits.
Proof.
  unfold gen_wallet_bytes. made. unfold wallet_fits. cbn. destruct_and!. split; [eapply short_up_to; [|done]; lia|done].
Qed.
End fits.

(** ** What is honest is laid out as the parser expects *)

Lemma as_u32_short {A} (l : list A) : short l -> as_u32 (length l) = zlen l.
Proof. unfold short, as_u32, zlen. intros H. apply Z.mod_small. lia. Qed.

Lemma short_u32 {A} (l : list A) : short l -> u32 (zlen l).
Proof. unfold short, u32, u32_max, zlen. lia. Qed.

Lemma declared_honest {A} (o : option Z) (l : list A) : short l -> o = None -> default (as_u32 (length l)) o = zlen l.
Proof. intros Hl ->. by apply as_u32_short. Qed.

Definition raw_value (a : KeyringAttr) : AttrValue :=
  if ka_type a =? 0 then HashedString (Some (ka_value a)) else HashedUint 0xdeadbeef.
Definition raw_attr (a : KeyringAttr) : RawAttr := {| ra_name := default [] (honest_name a); ra_value := raw_value a |}.
Definition raw_item (i : KeyringItemSpec) : RawItem := {| ri_id := ks_id i; ri_type := ks_type i; ri_attrs := map raw_attr (ks_attrs i) |}.
Definition raw_keyring (k : KeyringBytes) : RawKeyring :=
  {| rk_crypto := 0; rk_hash := 0; rk_name := if kb_null_name k then None else honest_display_name k;
     rk_created := KEYRING_CREATED; rk_modified := 0; rk_flags := 0; rk_timeout := 0; rk_iterations := kb_hash_iterations k;
     rk_salt := KEYRING_SALT; rk_reserved := repeat 0 4; rk_items := map raw_item (kb_items k); rk_ctlen := zlen (kb_ciphertext k) |}.

(** A name of at most sixty-four bytes of UTF-8. *)
Lemma honest_bytes bs s : short bs -> from_utf8 bs = Some s ->
  utf8 s = bs /\ opt_string_wf (Some s) /\ enc_opt_string (Some s) = be32 (zlen bs) ++ bs.
Proof.
  intros Hs Hu. pose proof (from_utf8_wf _ _ Hu). apply utf8_from_utf8 in Hu as Hb. split; [done|].
  split; [|by rewrite <- Hb]. unfold short in Hs. split; [done|]. unfold str_len, u32_max. rewrite Hb. lia.
Qed.

Lemma honest_name_Some a s : honest_name a = Some s ->
  ka_null_name a = false /\ ka_declared_name_len a = None /\ from_utf8 (ka_name a) = Some s.
Proof. unfold honest_name. destruct (ka_null_name a), (ka_declared_name_len a); cbn; naive_solver. Qed.

Lemma raw_attr_honest a : attr_fits a -> ka_is_honest a = true ->
  raw_attr_wf (raw_attr a) /\ enc_attr (raw_attr a) = ka_encode a /\ honest_name a = Some (ra_name (raw_attr a)).
Proof.
  intros [Hn Hv] Hh. unfold ka_is_honest in Hh. rewrite !andb_true_iff, orb_true_iff in Hh.
  destruct Hh as [[Hs%bool_decide_eq_true Ht] Hd]. destruct Hs as [s Hs].
  pose proof (honest_name_Some _ _ Hs) as (E1 & E2 & Hu). destruct (honest_bytes _ _ Hn Hu) as (Eb & Hwf & Henc).
  unfold raw_attr, raw_attr_wf, enc_attr, raw_value, ka_encode. rewrite Hs, E1, E2. cbn [ra_name ra_value default from_option id].
  rewrite (as_u32_short _ Hn), Henc, <- !app_assoc.
  destruct Ht as [Ht | Ht]; apply Z.eqb_eq in Ht; rewrite Ht in Hd |- *; cbn [Z.eqb negb orb] in Hd |- *; (split; [split; [done|]|split; [|done]]).
  - unfold value_wf, opt_bytes_wf. unfold short in Hv. unfold u32_max. lia.
  - apply bool_decide_eq_true in Hd. rewrite Hd. cbn. by rewrite (as_u32_short _ Hv).
  - unfold value_wf, u32, u32_max. lia.
  - done.
Qed.

Lemma map_honest {A R} (fits : A -> Prop) (honest : A -> bool) (raw : A -> R) (wf : R -> Prop) (enc : R -> bytes) (encode : A -> bytes) l :
  (forall a, fits a -> honest a = true -> wf (raw a) /\ enc (raw a) = encode a) ->
  Forall fits l -> forallb honest l = true -> Forall wf (map raw l) /\ map enc (map raw l) = map encode l.
Proof.
  intros H. induction 1 as [|a l Ha _ IH]; [done|]. cbn. intros [Hh Hl]%andb_true_iff.
  destruct (H a Ha Hh) as [Hw ->]. destruct (IH Hl) as [Hws ->]. split; [by constructor|done].
Qed.

Lemma raw_item_honest i : item_fits i -> ks_is_honest i = true ->
  raw_item_wf (raw_item i) /\ enc_item (raw_item i) = ks_encode i.
Proof.
  intros (Hid & Hty & Hn & Ha) [Hd%bool_decide_eq_true Hh]%andb_true_iff.
  destruct (map_honest attr_fits ka_is_honest raw_attr raw_attr_wf enc_attr ka_encode (ks_attrs i)) as [Hw He]; [|done|done|].
  { intros a Hf Hha. by destruct (raw_attr_honest a Hf Hha) as (? & ? & _). }
  unfold raw_item, raw_item_wf, enc_item, ks_encode. cbn [ri_id ri_type ri_attrs].
  rewrite zlen_map, (declared_honest _ _ Hn Hd), He. pose proof (short_u32 _ Hn). done.
Qed.

(** The parsed key set is the set of honest names. *)
Lemma raw_item_names i : item_fits i -> ks_is_honest i = true -> from_names (map ra_name (ri_attrs (raw_item i))) = ks_names i.
Proof.
  intros (_ & _ & _ & Ha) [_ Hh]%andb_true_iff. unfold from_names, ks_names, raw_item. cbn [ri_attrs]. f_equal.
  induction Ha as [|a l Hf _ IH]; [done|]. cbn in Hh |- *. apply andb_true_iff in Hh as [Hha Hl].
  destruct (raw_attr_honest a Hf Hha) as (_ & _ & ->). cbn. f_equal. by apply IH.
Qed.

Lemma raw_keyring_honest k : keyring_fits k -> keyring_parses k = true ->
  raw_keyring_wf (raw_keyring k) /\ keyring_to_bytes k = enc_keyring (raw_keyring k) ++ kb_ciphertext k.
Proof.
  intros (Hn & Hi & Hl & Hits & Hct) Hp. unfold keyring_parses in Hp. rewrite !andb_true_iff, !bool_decide_eq_true, !Z.eqb_eq in Hp.
  destruct Hp as [[[[[Hraw [Hmaj Hmin]] [name Hname]] Hdi] Hdc] Hh].
  destruct (map_honest item_fits ks_is_honest raw_item raw_item_wf enc_item ks_encode (kb_items k)) as [Hw He]; [|done|done|].
  { apply raw_item_honest. }
  assert (Hnm : opt_string_wf (rk_name (raw_keyring k)) /\ enc_opt_string (rk_name (raw_keyring k))
    = if kb_null_name k then be32 u32_max
      else be32 (default (as_u32 (length (kb_name k))) (kb_declared_name_len k)) ++ kb_name k).
  { unfold raw_keyring, honest_display_name in *. cbn [rk_name]. destruct (kb_null_name k); [done|].
    destruct (kb_declared_name_len k); [by rewrite bool_decide_true in Hname|]. cbn in Hname |- *.
    rewrite Hname, (as_u32_short _ Hn). by destruct (honest_bytes _ _ Hn Hname) as (_ & ? & ->). }
  destruct Hnm as [Hnw Hne]. split.
  - unfold raw_keyring_wf. split; [done|]. split; [done|]. split; [done|]. split; [done|]. split; [done|]. split; [done|]. split; [done|].
    split; [done|]. split; [done|]. split; [split; [done|repeat constructor; done]|].
    cbn [raw_keyring rk_items rk_ctlen]. rewrite zlen_map. by repeat split; try apply short_u32.
  - unfold enc_keyring. rewrite Hne. unfold keyring_to_bytes, raw_keyring.
    cbn [rk_crypto rk_hash rk_created rk_modified rk_flags rk_timeout rk_iterations rk_salt rk_reserved rk_items rk_ctlen].
    rewrite Hraw, Hmaj, Hmin, zlen_map, He, (declared_honest _ _ Hl Hdi), (declared_honest _ _ Hct Hdc).
    rewrite <- !app_assoc. reflexivity.
Qed.

Definition raw_folder (f : WalletFolderSpec) : WalletFolderIndex := {| folder_hash := wf_hash f; entry_hashes := wf_entries f |}.

Lemma raw_folder_honest f : folder_fits f -> wf_is_honest f = true ->
  folder_wf (raw_folder f) /\ enc_folder (raw_folder f) = wf_encode f.
Proof.
  intros (Hh & Hs & He) Hd%bool_decide_eq_true. unfold folder_wf, raw_folder, enc_folder, wf_encode. cbn [folder_hash entry_hashes].
  rewrite (declared_honest _ _ Hs Hd). pose proof (short_u32 _ Hs). done.
Qed.

Lemma concat_hashes l : Forall hash_wf l -> length (concat l) = (16 * length l)%nat.
Proof. induction 1 as [|h l Hh _ IH]; [done|]. cbn [concat length]. rewrite length_app, IH. unfold hash_wf in Hh. lia. Qed.

Lemma wf_encode_length f : folder_fits f -> length (wf_encode f) = encoded_len f.
Proof.
  intros (Hh & _ & He). unfold wf_encode, encoded_len. rewrite !length_app, (concat_hashes _ He). unfold be32.
  rewrite length_to_be_bytes. unfold hash_wf in Hh. lia.
Qed.

Lemma raw_wallet_honest w : wallet_fits w -> wallet_parses w = true ->
  wallet_wf 3 2 (map raw_folder (wb_folders w))
  /\ wallet_to_bytes w = enc_wallet 3 2 (map raw_folder (wb_folders w)) ++ wb_ciphertext w
  /\ length (enc_wallet 3 2 (map raw_folder (wb_folders w))) = index_end w.
Proof.
  intros [Hs Hf] Hp. unfold wallet_parses in Hp. rewrite !andb_true_iff, !bool_decide_eq_true, !Z.eqb_eq in Hp.
  destruct Hp as [[[Hraw [Hmaj Hmin]] Hd] Hh].
  destruct (map_honest folder_fits wf_is_honest raw_folder folder_wf enc_folder wf_encode (wb_folders w)) as [Hw He]; [|done|done|].
  { apply raw_folder_honest. }
  split; [|split].
  - unfold wallet_wf. rewrite zlen_map. split; [done|]. split; [done|]. split; [by apply short_u32|done].
  - unfold wallet_to_bytes, enc_wallet. rewrite Hraw, Hmaj, Hmin, (declared_honest _ _ Hs Hd), zlen_map, He, <- !app_assoc. reflexivity.
  - unfold enc_wallet, index_end, be4. rewrite He, !length_app, !length_to_be_bytes.
    enough (length (concat (map wf_encode (wb_folders w))) = sum_list (map encoded_len (wb_folders w))) by lia.
    clear -Hf. induction Hf as [|f l Hf _ IH]; [done|]. cbn [map concat sum_list fold_right]. rewrite length_app, wf_encode_length by done. cbn. by rewrite IH.
Qed.

(** ** What the vault generators make *)

Section vault_makes.
Context `{U : Unstructured} `{UO : !UnstructuredOk U}.

Lemma hostile_char_wf : makes hostile_char is_char.
Proof.
  eapply makes_bind; [apply makes_any|]. intros [] _.
  - apply makes_choose. apply (bool_decide_unpack (Forall is_char INTERESTING)). by vm_compute.
  - eapply makes_bind; [apply makes_any|]. intros [] _.
    + eapply makes_bind; [apply makes_int|]. cbn beta. intros n Hn. apply makes_ret. unfold char_from_u32, is_char.
      destruct (Z.leb_spec n 0x10ffff), (Z.leb_spec 0xd800 n), (Z.leb_spec n 0xdfff); cbn; lia.
    + eapply makes_weaken; [apply makes_word|]. cbn beta. unfold u8_max, is_char. lia.
Qed.

Lemma hostile_string_wf : makes hostile_string str_wf.
Proof.
  eapply makes_bind; [apply makes_any|]. intros n _. eapply makes_weaken; [apply makes_up_to, hostile_char_wf|]. by intros s [? _].
Qed.
Hint Resolve hostile_string_wf : makes.

Lemma gen_kdf_params_wf : makes gen_kdf_params kdf_wf.
Proof. unfold gen_kdf_params. made; unfold kdf_wf, u32, u32_max in *; cbn; lia. Qed.
Hint Resolve gen_kdf_params_wf : makes.

Lemma gen_index_entry_wf : makes gen_index_entry entry_wf.
Proof. unfold gen_index_entry. made. by split. Qed.
Hint Resolve gen_index_entry_wf : makes.

Lemma gen_header_wf : makes gen_header header_wf.
Proof.
  unfold gen_header. eapply makes_bind; [apply makes_any|]. intros n _.
  eapply makes_bind; [apply makes_up_to, gen_index_entry_wf|]. intros idx [Hidx _].
  eapply makes_bind; [apply makes_any|]. intros real _. eapply (makes_bind _ _ u16).
  { destruct real; [by apply makes_ret|apply makes_word]. }
  intros v Hv. made. unfold header_wf. cbn. done.
Qed.

Lemma gen_item_wf : makes gen_item item_wf.
Proof.
  unfold gen_item. eapply makes_bind; [apply makes_any|]. intros n _.
  eapply (makes_bind _ _ (Forall (fun kv => str_wf kv.1 /\ str_wf kv.2))).
  { eapply makes_weaken; [apply makes_up_to|by intros l [? _]; eassumption]. unfold gen_attribute. made. by split. }
  intros pairs Hp. made. unfold item_wf. cbn. repeat (split; [done|]). split; [|done].
  assert (forall m, attrs_wf m -> attrs_wf (fold_left (fun m '(k, v) => <[k := v]> m) pairs m)) as Hfold; [|by apply Hfold, map_Forall_empty].
  induction Hp as [|[k v] l [Hk Hv] _ IH]; [done|]. intros m Hm. cbn. apply IH. by apply map_Forall_insert_2.
Qed.
End vault_makes.

Section decodes.
Context `{VC : VaultCodec} `{VCO : !VaultCodecOk VC}.

Lemma vault_written h tail out : header_wf h -> header_bytes h = Ok out ->
  vf_decode (out ++ tail) = let? _ := check_header h in Ok {| vf_header := h; vf_aad := out; vf_ciphertext := tail |}.
Proof.
  intros Hwf E. unfold vf_decode. rewrite (decode_header_written h); [|by apply vc_header_wf|done].
  destruct (check_header h); [|done]. by rewrite take_app_length, drop_app_length.
Qed.

Lemma check_header_bool h : is_ok (check_header h) = (version h =? VERSION) && is_ok (validate (kdf h)).
Proof.
  apply eq_true_iff_eq. rewrite andb_true_iff, Z.eqb_eq. unfold check_header.
  destruct (Z.eqb_spec (version h) VERSION); cbn; [|naive_solver]. destruct (validate (kdf h)) as [[]|]; cbn; naive_solver.
Qed.

Lemma decodes_agrees h tail : header_wf h -> is_ok (vf_decode (vault_to_bytes (Corrupt h tail))) = decodes (Corrupt h tail).
Proof.
  intros Hwf. cbn [vault_to_bytes decodes]. rewrite <- check_header_bool. destruct (header_bytes h) as [out|] eqn:E.
  - rewrite (vault_written h tail out) by done. destruct (check_header h); [|done]. done.
  - rewrite andb_false_r. by vm_compute.
Qed.
End decodes.

Lemma keyring_named k : keyring_parses k = true -> is_Some (honest_display_name k).
Proof. unfold keyring_parses. rewrite !andb_true_iff, !bool_decide_eq_true. tauto. Qed.

Lemma raw_keyring_name k name : honest_display_name k = Some name -> display_name (keyring_inventory (raw_keyring k)) = name.
Proof. cbn. unfold honest_display_name. destruct (kb_null_name k); [naive_solver|]. by intros ->. Qed.

Lemma raw_keyring_items k : keyring_fits k -> keyring_parses k = true ->
  ki_items (keyring_inventory (raw_keyring k))
  = map (fun i => {| ki_id := ks_id i; ki_type := ks_type i; ki_keys := ks_names i |}) (kb_items k).
Proof.
  intros (_ & _ & _ & Hf & _) [_ Hh]%andb_true_iff. cbn. rewrite map_map. induction Hf as [|i l Hi _ IH]; [done|].
  cbn in Hh |- *. apply andb_true_iff in Hh as [Hhi Hl]. rewrite IH by done. f_equal. unfold item_index. by rewrite raw_item_names.
Qed.

Lemma corrupt_header_wf `{UO : UnstructuredOk} u h tail u' : gen_vault_bytes u = Some (Corrupt h tail, u') -> header_wf h.
Proof.
  assert (makes gen_vault_bytes (fun v => match v with Corrupt h _ => header_wf h | _ => True end)) as H; [|by intros E%H].
  eapply makes_bind; [apply makes_any|]. intros kind _. destruct (kind =? 0); [by made|]. destruct (kind =? 1); [by made|].
  eapply makes_bind; [apply gen_header_wf|]. intros h' Hh. by made.
Qed.

Lemma corrupt_decoded `{VCO : VaultCodecOk} h tail f : header_wf h -> vf_decode (vault_to_bytes (Corrupt h tail)) = Ok f ->
  vf_header f = h /\ vf_ciphertext f = tail /\ vf_aad f ++ tail = vault_to_bytes (Corrupt h tail).
Proof.
  intros Hwf. cbn [vault_to_bytes]. destruct (header_bytes h) as [out|] eqn:E; [|done].
  rewrite (vault_written h tail out) by done. destruct (check_header h); [|done]. by intros [= <-].
Qed.

(** ** Properties *)

(** C40. The generators' oracles are right, for everything they make.  A keyring
    for which [keyring_parses] holds is accepted by [parse_keyring_header], with
    the display name, times, iterations, salt, items (id, type, attribute
    names) and ciphertext it was built from; a wallet for which [wallet_parses]
    holds is accepted, with its folders and entries, the ciphertext starting at
    [index_end]; and a vault file with a generated header is accepted exactly
    when [decodes] says so, and then decodes to that header and tail, the
    associated data being all that comes before the tail. *)
Theorem generators_agree (U : Unstructured) (UO : UnstructuredOk U) (VC : VaultCodec) (VCO : VaultCodecOk VC) :
  (forall u k u', gen_keyring_bytes u = Some (k, u') -> keyring_parses k = true ->
     exists inv name, parse_keyring_header (keyring_to_bytes k) = Ok inv
       /\ honest_display_name k = Some name /\ display_name inv = name
       /\ (ki_created inv, ki_modified inv, ki_flags inv, lock_timeout inv) = (KEYRING_CREATED, 0, 0, 0)
       /\ hash_iterations inv = kb_hash_iterations k /\ ki_salt inv = KEYRING_SALT
       /\ ki_items inv = map (fun i => {| ki_id := ks_id i; ki_type := ks_type i; ki_keys := ks_names i |}) (kb_items k)
       /\ ciphertext_len inv = length (kb_ciphertext k)
       /\ (ciphertext_offset inv + ciphertext_len inv)%nat = length (keyring_to_bytes k))
  /\ (forall u w u', gen_wallet_bytes u = Some (w, u') -> wallet_parses w = true ->
        parse_wallet_header (wallet_to_bytes w)
        = Ok {| wi_cipher := 3; wi_hash := 2;
                folders := map (fun f => {| folder_hash := wf_hash f; entry_hashes := wf_entries f |}) (wb_folders w);
                wi_ciphertext_offset := index_end w |})
  /\ (forall u h tail u', gen_vault_bytes u = Some (Corrupt h tail, u') ->
        let bytes := vault_to_bytes (Corrupt h tail) in
        is_ok (vf_decode bytes) = decodes (Corrupt h tail)
        /\ forall f, vf_decode bytes = Ok f -> vf_header f = h /\ vf_ciphertext f = tail /\ vf_aad f ++ tail = bytes).
Proof.
  split; [|split].
  - intros u k u' Hk%keyring_bytes_fit Hp. destruct (raw_keyring_honest k Hk Hp) as [Hw Hb].
    exists (keyring_inventory (raw_keyring k)). destruct (keyring_named k Hp) as [name Hn]. exists name.
    split; [|split; [done|]]. { apply parse_keyring_language. exists (raw_keyring k), (kb_ciphertext k). done. }
    split; [by apply raw_keyring_name|]. split; [done|]. split; [done|]. split; [done|].
    split; [by apply raw_keyring_items|]. rewrite Hb, length_app. cbn [keyring_inventory ciphertext_len ciphertext_offset raw_keyring rk_ctlen].
    unfold zlen. rewrite Nat2Z.id. done.
  - intros u w u' Hw%wallet_bytes_fit Hp. destruct (raw_wallet_honest w Hw Hp) as (Hwf & Hb & Hl).
    apply parse_wallet_language. exists (wb_ciphertext w). done.
  - intros u h tail u' Hh%corrupt_header_wf. split; [by apply decodes_agrees|]. intros f. by apply corrupt_decoded.
Qed.

(** A tape of choices, each reduced into the range asked for; zeros at its end. *)
Definition tape : Unstructured := {|
  un := list Z;
  u_is_empty u := match u with [] => true | _ => false end;
  u_int_in_range lo hi u := if lo <=? hi then Some (lo + hd 0 u mod (hi - lo + 1), tl u) else None;
  u_ratio n d u := Some (hd 0 u mod d <? n, tl u);
  u_choose n u := match n with O => None | _ => Some (Z.to_nat (hd 0 u mod Z.of_nat n), tl u) end;
  u_arbitrary_len u := Some (Z.to_nat (hd 0 u mod 256), tl u);
  u_word m u := if 0 <=? m then Some (hd 0 u mod (m + 1), tl u) else None;
  u_vec u := let n := Z.to_nat (hd 0 u mod 256) in Some (map z2b (take n (tl u)), drop n (tl u));
  u_fill_buffer n u := Some (map z2b (take n (u ++ repeat 0 n)), drop n u)
|}.

Lemma tape_ok : UnstructuredOk tape.
Proof.
  split; cbn.
  - intros lo hi u z u'. destruct (Z.leb_spec lo hi); [|done]. intros [= <- _]. pose proof (Z.mod_pos_bound (hd 0 u) (hi - lo + 1)). lia.
  - intros n u i u'. destruct n as [|n]; [done|]. intros [= <- _]. pose proof (Z.mod_pos_bound (hd 0 u) (Z.of_nat (S n))). lia.
  - intros m u z u'. destruct (Z.leb_spec 0 m); [|done]. intros [= <- _]. pose proof (Z.mod_pos_bound (hd 0 u) (m + 1)). lia.
  - intros n u b u' [= <- _]. rewrite length_map, length_take, length_app, repeat_length. lia.
Qed.

(** A keyring with one item of one attribute, a wallet with one folder of one
    entry, and a vault file. *)
Definition keyring_tape : list Z := [7; 0; 0; 0; 9; 0; 0; 1; 42; 0; 0; 1; 0; 0; 9; 0; 0; 3; 65; 66; 67; 0; 0; 0; 2; 8; 9; 0].
Definition wallet_tape : list Z := [7; 0; 1] ++ repeat 5 16 ++ [1] ++ repeat 6 16 ++ [0; 0; 2; 8; 9].
Definition vault_tape : list Z := [2; 0; 0; 0; 7; 8; 0; 8; 1; 1].

Lemma generators_agree_witness :
  (exists k inv, @gen_keyring_bytes tape keyring_tape = Some (k, []) /\ keyring_parses k = true
     /\ parse_keyring_header (keyring_to_bytes k) = Ok inv
     /\ ki_items inv = [{| ki_id := 42; ki_type := 0; ki_keys := {[lit "xdg:schema"]} |}])
  /\ (exists w, @gen_wallet_bytes tape wallet_tape = Some (w, []) /\ wallet_parses w = true
       /\ is_ok (parse_wallet_header (wallet_to_bytes w)) = true)
  /\ (exists h tail, @gen_vault_bytes tape vault_tape = Some (Corrupt h tail, [])
       /\ is_ok (@vf_decode (@vc_header sample_codec) (@vault_to_bytes sample_codec (Corrupt h tail))) = true).
Proof.
  destruct (generators_agree tape tape_ok sample_codec sample_codec_ok) as (Hk & Hw & Hv). split; [|split].
  - destruct (@gen_keyring_bytes tape keyring_tape) as [[k u]|] eqn:E; [|by vm_compute in E].
    assert (keyring_parses k = true) as Hp by (vm_compute in E; injection E as <- <-; by vm_compute).
    destruct (Hk _ _ _ E Hp) as (inv & name & Hinv & _ & _ & _ & _ & _ & Hits & _). exists k, inv.
    split; [vm_compute in E; by injection E as <- <-|]. split; [done|]. split; [done|]. rewrite Hits.
    vm_compute in E. injection E as <- <-. by vm_compute.
  - eexists. split; [vm_compute; reflexivity|]. split; [by vm_compute|]. rewrite (Hw wallet_tape _ []); by vm_compute.
  - eexists _, _. split; [vm_compute; reflexivity|].
    rewrite (fun e => proj1 (Hv vault_tape _ _ [] e)); [|vm_compute; reflexivity]. by vm_compute.
Defined.
