(* ===== verification/Snapshot.v ===== *)
(** * The private copy of a keyring directory ([KeyringSnapshot] and [PrivateDir]
      of [src/import/gnome.rs])

    The daemon an import starts writes to the keyrings it opens, so it is given
    a copy.  The copy is made request by request, each of which may fail.  Then
    that the source is never touched, that nobody else can read the copy at any
    instant, that a copy is complete and bounded, and that a failed one is
    removed. *)
From S2P Require Import Prelude Text Sanitize Env Files Sweep Formats Gnome.

Definition KEYRINGS_SUBDIR : str := lit "keyrings".
Definition MAX_SNAPSHOT_FILES : Z := 128.
Definition MAX_SNAPSHOT_BYTES : Z := Z.shiftl 256 20.

(** [std::env::temp_dir], and how paths and errors are shown. *)
Class Paths : Type := { sp_temp : fpath; sp_display : fpath -> str; sp_io_text : io_error -> str }.

Section snapshot.
Context `{E : Env} `{SP : Paths}.

(** [DirBuilder::mode(mode).create]. *)
Definition make_dir (p : fpath) (mode : Z) : io unit :=
  syscall (fun f => match f !! p with
                    | Some _ => (Err EEXIST, f)
                    | None => if parent_is_dir f p then (Ok tt, <[p := NDir (Z.land mode (Z.lnot env_umask))]> f) else (Err ENOENT, f)
                    end).

(** [remove_dir_all]: everything below, the deepest first, up to the first
    failure. *)
Definition deeper (a b : fpath) : Prop := (length b <= length a)%nat.
#[global] Instance deeper_dec a b : Decision (deeper a b).
Proof. unfold deeper. apply _. Defined.

Definition below (f : filesystem) (p : fpath) : list fpath :=
  merge_sort deeper (base.filter (fun q => p `prefix_of` q) (map_to_list f).*1).

Fixpoint remove_entries (l : list fpath) (w : world) : result unit io_error * world :=
  match l with
  | [] => (Ok tt, w)
  | p :: l => do? _, w <- syscall (fun f => (Ok tt, delete p f)) w; remove_entries l w
  end.

Definition remove_dir_all (p : fpath) : io unit := fun w => remove_entries (below (fs w) p) w.

Definition private_dir_create : io fpath := fun w =>
  let '(u, w) := uuid w in
  let path := path_join sp_temp (lit "sm-import-gkr-" ++ u) in
  do? _, w <- make_dir path 448 w;
  (Ok path, w).

Definition private_dir_drop (d : fpath) (w : world) : world := snd (remove_dir_all d w).

Definition copy_error (path : str) (e : io_error) : GnomeError :=
  GSpawn (lit "private copy of " ++ display_label path) (sp_io_text e).

Definition file_too_large (len : Z) : GnomeError := GTooMany (lit "bytes in one keyring file") len MAX_SOURCE_BYTES.

(** [Read::take]. *)
Definition read_at_most (n : Z) (data : bytes) : bytes := if zlen data <=? n then data else take (Z.to_nat n) data.

(** One entry of the source; [files_seen] and [total_bytes] so far.  An open file
    keeps its contents. *)
Definition copy_entry (source dest : fpath) (name : str) (files_seen total_bytes : Z) (w : world)
  : result (Z * Z) GnomeError * world :=
  let from := path_join source name in
  let to := path_join dest name in
  do? m, w <- with_err (copy_error (sp_display source)) (lstat from w);
  if negb (m_is_file m) then (Ok (files_seen, total_bytes), w)
  else
    let files_seen := files_seen + 1 in
    if MAX_SNAPSHOT_FILES <? files_seen
    then (Err (GTooMany (lit "files in the keyring directory") files_seen MAX_SNAPSHOT_FILES), w)
    else
      do? data, w <- with_err (copy_error (sp_display from)) (read_file from w);
      do? len, w <- with_err (copy_error (sp_display from)) (syscall (fun f => (Ok (zlen data), f)) w);
      if MAX_SOURCE_BYTES <? len then (Err (file_too_large len), w)
      else
        do? _, w <- with_err (copy_error (sp_display to)) (create_new to 384 w);
        let copied := read_at_most (MAX_SOURCE_BYTES + 1) data in
        do? _, w <- with_err (copy_error (sp_display to)) (write_all to copied w);
        if MAX_SOURCE_BYTES <? zlen copied then (Err (file_too_large (zlen copied)), w)
        else
          let total_bytes := Z.min (total_bytes + zlen copied) u64_max in
          if MAX_SNAPSHOT_BYTES <? total_bytes
          then (Err (GTooMany (lit "bytes in the keyring snapshot") total_bytes MAX_SNAPSHOT_BYTES), w)
          else (Ok (files_seen, total_bytes), w).

Fixpoint copy_entries (source dest : fpath) (names : list str) (files_seen total_bytes : Z) (w : world)
  : result (Z * Z) GnomeError * world :=
  match names with
  | [] => (Ok (files_seen, total_bytes), w)
  | name :: names =>
    do? counts, w <- copy_entry source dest name files_seen total_bytes w;
    copy_entries source dest names (fst counts) (snd counts) w
  end.

Definition fill_snapshot (source d : fpath) (w : world) : result unit GnomeError * world :=
  let dest := path_join d KEYRINGS_SUBDIR in
  do? _, w <- with_err (copy_error (sp_display dest)) (make_dir dest 448 w);
  do? names, w <- with_err (copy_error (sp_display source)) (read_dir source w);
  do? _, w <- copy_entries source dest names 0 0 w;
  (Ok tt, w).

(** [KeyringSnapshot::create]: what is returned is [data_home], and a failure
    drops the directory. *)
Definition snapshot_create (source : fpath) (w : world) : result fpath GnomeError * world :=
  do? d, w <- with_err (copy_error (lit "the temp directory")) (private_dir_create w);
  match fill_snapshot source d w with
  | (Ok _, w) => (Ok d, w)
  | (Err e, w) => (Err e, private_dir_drop d w)
  end.
End snapshot.

(** ** The copy, and nothing but the copy *)

(** Nothing for the group or for others. *)
Definition closed (n : node) : Prop :=
  match n with NFile _ m _ | NDir m => Z.land m 63 = 0 | NLink _ => False end.

(** Outside the private directory all is as it was, and inside nothing is open
    to others. *)
Definition private_to (d : fpath) (f0 f : filesystem) : Prop :=
  agree (fun q => d `prefix_of` q) f0 f /\ forall q n, d `prefix_of` q -> f !! q = Some n -> closed n.

(** The contents of a regular file. *)
Definition regular (f : filesystem) (p : fpath) : option bytes := match f !! p with Some (NFile data _ _) => Some data | _ => None end.

Definition file_sizes (f : filesystem) (source : fpath) (names : list str) : list Z :=
  omap (fun n => zlen <$> regular f (source ++ [n])) names.

(** Every entry is in a directory. *)
Definition rooted (f : filesystem) : Prop := forall p n, f !! p = Some n -> parent_is_dir f p = true.

Section copying.
Context `{E : Env} `{SP : Paths}.

Lemma land_closed (mode : Z) : Z.land mode 63 = 0 -> forall x, Z.land (Z.land mode x) 63 = 0.
Proof. intros Hm x. by rewrite <- Z.land_assoc, (Z.land_comm x), Z.land_assoc, Hm, Z.land_0_l. Qed.

Lemma private_insert d f0 f p n : private_to d f0 f -> d `prefix_of` p -> closed n -> private_to d f0 (<[p := n]> f).
Proof.
  intros [Ha Hc] Hp Hn. split.
  - intros q Hq. rewrite lookup_insert_ne by (by intros ->). by apply Ha.
  - intros q n' Hq. destruct (decide (p = q)) as [<-|Hne]; [rewrite lookup_insert_eq; by intros [= <-]|].
    rewrite lookup_insert_ne by done. by apply Hc.
Qed.

Lemma private_delete d f0 f p : private_to d f0 f -> d `prefix_of` p -> private_to d f0 (delete p f).
Proof.
  intros [Ha Hc] Hp. split.
  - intros q Hq. rewrite lookup_delete_ne by (by intros ->). by apply Ha.
  - intros q n' Hq. destruct (decide (p = q)) as [<-|Hne]; [by rewrite lookup_delete_eq|]. rewrite lookup_delete_ne by done. by apply Hc.
Qed.

(** A request whose effect keeps the privacy. *)
Lemma private_syscall {A : Type} (d : fpath) (f0 : filesystem) (g : filesystem -> result A io_error * filesystem) w r w' :
  private_to d f0 (fs w) -> private_to d f0 (snd (g (fs w))) -> syscall g w = (r, w') -> reaches (private_to d f0) w w'.
Proof. intros H1 H2 Eq. pose proof (reaches_syscall (private_to d f0) g w H1 H2) as Hr. by rewrite Eq in Hr. Qed.

Lemma make_dir_private d f0 p mode w r w' : private_to d f0 (fs w) -> d `prefix_of` p -> Z.land mode 63 = 0 -> make_dir p mode w = (r, w') ->
  reaches (private_to d f0) w w' /\ (r = Ok tt -> fs w !! p = None /\ exists m, fs w' = <[p := NDir m]> (fs w)).
Proof.
  intros Hw Hp Hm Eq. split.
  - eapply private_syscall; [done| |exact Eq]. cbn. destruct (fs w !! p); [done|]. destruct (parent_is_dir _ _); [|done].
    cbn. apply private_insert; [done|done|]. by apply land_closed.
  - intros ->. apply syscall_inv in Eq as [[_ [? [=]]]|[-> Hr]]. revert Hr. destruct (fs w !! p); [done|].
    destruct (parent_is_dir _ _); [|done]. intros _. cbn. eauto.
Qed.

Lemma create_new_private d f0 p mode w r w' : private_to d f0 (fs w) -> d `prefix_of` p -> Z.land mode 63 = 0 -> create_new p mode w = (r, w') ->
  reaches (private_to d f0) w w' /\ (r = Ok tt -> exists m t, fs w' = <[p := NFile [] m t]> (fs w)).
Proof.
  intros Hw Hp Hm Eq. split.
  - eapply private_syscall; [done| |exact Eq]. cbn. destruct (fs w !! p); [done|]. destruct (parent_is_dir _ _); [|done].
    cbn. apply private_insert; [done|done|]. by apply land_closed.
  - intros ->. apply syscall_inv in Eq as [[_ [? [=]]]|[-> Hr]]. revert Hr. destruct (fs w !! p); [done|].
    destruct (parent_is_dir _ _); [|done]. intros _. cbn. eauto.
Qed.

Lemma write_all_private d f0 p data m t w r w' : private_to d f0 (fs w) -> d `prefix_of` p -> fs w !! p = Some (NFile [] m t) ->
  write_all p data w = (r, w') ->
  reaches (private_to d f0) w w' /\ (r = Ok tt -> exists t', fs w' = <[p := NFile data m t']> (fs w)).
Proof.
  intros Hw Hp Hf Eq. assert (Hm : Z.land m 63 = 0) by (by apply (proj2 Hw p (NFile [] m t))).
  unfold write_all in Eq. rewrite Hf in Eq. destruct (env_fault (tick w)); injection Eq as <- <-.
  - split; [|done]. apply reaches_advance. by apply private_insert.
  - split; [apply reaches_advance; by apply private_insert|]. intros _. cbn. eauto.
Qed.

(** Removing keeps what every removal keeps. *)
Lemma remove_entries_keeps (P : filesystem -> Prop) l w r w' : P (fs w) -> (forall f q, q ∈ l -> P f -> P (delete q f)) -> remove_entries l w = (r, w') ->
  reaches P w w' /\ (r = Ok tt -> forall q, q ∈ l \/ fs w !! q = None -> fs w' !! q = None).
Proof.
  revert w. induction l as [|p l IH]; intros w Hw Hl; cbn.
  { intros [= <- <-]. split; [by apply reaches_refl|]. intros _ q [Hq|Hq]; [set_solver|done]. }
  destruct (syscall _ w) as [r1 w1] eqn:E1.
  assert (H1 : reaches P w w1).
  { pose proof (reaches_syscall P (fun f => (Ok tt, delete p f)) w Hw ltac:(apply Hl; [set_solver|done])) as Hr. by rewrite E1 in Hr. }
  destruct r1 as [[]|e]; [|intros [= <- <-]; by split]. apply syscall_inv in E1 as [[_ [? [=]]]|[E1 _]]. intros Hr.
  destruct (IH w1) as [H2 Hg]; [apply (reaches_end _ _ _ H1)|set_solver|done|]. split; [by eapply reaches_trans|].
  intros Hok q Hq. apply (Hg Hok). subst w1. cbn. destruct (decide (p = q)) as [<-|Hne]; [right; apply lookup_delete_eq|].
  rewrite lookup_delete_ne by done. set_solver.
Qed.

Lemma elem_of_below f p q : q ∈ below f p <-> p `prefix_of` q /\ is_Some (f !! q).
Proof.
  unfold below. rewrite (merge_sort_Permutation deeper _), list_elem_of_filter, list_elem_of_fmap. split.
  - intros [Hp ([q' n] & -> & Hq%elem_of_map_to_list)]. cbn in *. split; [done|]. by exists n.
  - intros [Hp [n Hn]]. split; [done|]. exists (q, n). split; [done|]. by apply elem_of_map_to_list.
Qed.

Lemma remove_dir_all_keeps (P : filesystem -> Prop) d w r w' : P (fs w) -> (forall f q, d `prefix_of` q -> P f -> P (delete q f)) ->
  remove_dir_all d w = (r, w') -> reaches P w w' /\ (r = Ok tt -> forall q, d `prefix_of` q -> fs w' !! q = None).
Proof.
  intros Hw Hd Eq. destruct (remove_entries_keeps P (below (fs w) d) w r w') as [H1 H2]; [done| |exact Eq|].
  { intros f q [Hq _]%elem_of_below. by apply Hd. }
  split; [done|]. intros Hok q Hq. apply (H2 Hok). rewrite elem_of_below. destruct (fs w !! q) eqn:Eq'; [left; eauto|by right].
Qed.

Lemma lstat_file p w m w' : lstat p w = (Ok m, w') -> fs w' = fs w /\
  m_is_file m = match regular (fs w) p with Some _ => true | None => false end.
Proof.
  intros Eq. pose proof (read_touches _ _ _ _ Eq) as [_ Hf]. split; [done|]. unfold lstat in Eq.
  apply syscall_inv in Eq as [[_ [? [=]]]|[_ Hr]]. cbn in Hr. unfold regular. destruct (fs w !! p) as [[]|]; by simplify_eq/=.
Qed.

Lemma read_file_regular p w data r w' : regular (fs w) p = Some data -> read_file p w = (r, w') ->
  forall x, r = Ok x -> x = data.
Proof.
  intros Hd Eq x ->. unfold read_file in Eq. apply syscall_inv in Eq as [[_ [? [=]]]|[_ Hr]]. unfold regular in Hd.
  destruct (fs w !! p) as [[d m t| |]|] eqn:Ep; simplify_eq/=. cbn in Hr. rewrite (resolve_file _ _ _ _ _ _ Ep) in Hr. congruence.
Qed.

Lemma read_private {A : Type} (d : fpath) (f0 : filesystem) (g : filesystem -> result A io_error) w r w' : private_to d f0 (fs w) ->
  syscall (fun f => (g f, f)) w = (r, w') -> reaches (private_to d f0) w w' /\ fs w' = fs w.
Proof.
  intros Hw Eq. pose proof (read_touches _ _ _ _ Eq) as [_ Hf]. split; [|done]. by eapply private_syscall; [..|exact Eq].
Qed.

(** What copying one entry did: nothing to one that is no regular file. *)
Definition entry_copied (source dest : fpath) (n : str) (f f' : filesystem) (s t s' t' : Z) : Prop :=
  (forall q, q <> dest ++ [n] -> f' !! q = f !! q)
  /\ match regular f (source ++ [n]) with
     | None => f' = f /\ s' = s /\ t' = t
     | Some data => regular f' (dest ++ [n]) = Some data /\ zlen data <= MAX_SOURCE_BYTES
         /\ s' = s + 1 /\ s' <= MAX_SNAPSHOT_FILES /\ t' = t + zlen data /\ t' <= MAX_SNAPSHOT_BYTES
     end.

Lemma copy_entry_spec d f0 source dest n s t w r w' : private_to d f0 (fs w) -> d `prefix_of` dest -> 
  copy_entry source dest n s t w = (r, w') ->
  reaches (private_to d f0) w w' /\ forall s' t', r = Ok (s', t') -> entry_copied source dest n (fs w) (fs w') s t s' t'.
Proof.
  intros Hw Hd. unfold copy_entry, path_join, with_err. assert (Hp : d `prefix_of` dest ++ [n]) by (by apply prefix_app_r).
  destruct (lstat _ w) as [[m|e] w1] eqn:E1; pose proof (read_private _ _ _ _ _ _ Hw E1) as [R1 F1]; cbn; [|intros [= <- <-]; by split].
  apply lstat_file in E1 as [_ Hm]. unfold entry_copied. rewrite Hm. destruct (regular (fs w) (source ++ [n])) as [data|] eqn:Er; cbn.
  2: { intros [= <- <-]. split; [done|]. intros s' t' [= <- <-]. by rewrite F1. }
  destruct (Z.ltb_spec MAX_SNAPSHOT_FILES (s + 1)) as [|Hs]; [intros [= <- <-]; by split|].
  destruct (read_file _ w1) as [r2 w2] eqn:E2. rewrite <- F1 in Hw, Er. pose proof (read_private _ _ _ _ _ _ Hw E2) as [R2 F2].
  pose proof (read_file_regular _ _ _ _ _ Er E2) as H2. pose proof (reaches_trans _ _ _ _ R1 R2) as R12.
  destruct r2 as [x|e]; [|intros [= <- <-]; by split]. rewrite (H2 x eq_refl) in *. clear H2. cbn [fst snd map_err].
  destruct (syscall (fun f => (Ok (zlen data), f)) w2) as [r3 w3] eqn:E3. rewrite <- F2 in Hw. pose proof (read_private _ _ _ _ _ _ Hw E3) as [R3 F3].
  pose proof (reaches_trans _ _ _ _ R12 R3) as R13. destruct r3 as [len|e]; [|intros [= <- <-]; by split].
  cbn [fst snd map_err]. apply syscall_inv in E3 as [[_ [? [=]]]|[_ [= ->]]]. destruct (Z.ltb_spec MAX_SOURCE_BYTES (zlen data)) as [|Hlen]; [intros [= <- <-]; by split|].
  destruct (create_new _ _ w3) as [r4 w4] eqn:E4. rewrite <- F3 in Hw. destruct (create_new_private _ _ _ 384 _ _ _ Hw Hp eq_refl E4) as [R4 H4].
  pose proof (reaches_trans _ _ _ _ R13 R4) as R14. destruct r4 as [[]|e]; [|intros [= <- <-]; by split]. destruct (H4 eq_refl) as (md & tm & F4). cbn [fst snd map_err].
  destruct (write_all _ _ w4) as [r5 w5] eqn:E5. apply reaches_end in R4 as Hw4.
  destruct (write_all_private _ _ _ _ md tm _ _ _ Hw4 Hp ltac:(by rewrite F4, lookup_insert_eq) E5) as [R5 H5].
  pose proof (reaches_trans _ _ _ _ R14 R5) as R15. destruct r5 as [[]|e]; [|intros [= <- <-]; by split]. destruct (H5 eq_refl) as (tm' & F5). cbn [fst snd map_err].
  assert (read_at_most (MAX_SOURCE_BYTES + 1) data = data) as Hall by (unfold read_at_most; destruct (Z.leb_spec (zlen data) (MAX_SOURCE_BYTES + 1)); [done|lia]).
  rewrite Hall in F5 |- *.
  destruct (Z.ltb_spec MAX_SOURCE_BYTES (zlen data)); [lia|]. destruct (Z.ltb_spec MAX_SNAPSHOT_BYTES (Z.min (t + zlen data) u64_max)) as [|Ht];
    intros [= <- <-]; (split; [done|]); intros s' t' Heq; [done|]. injection Heq as <- <-.
  assert (Z.min (t + zlen data) u64_max = t + zlen data) as Emin.
  { change MAX_SNAPSHOT_BYTES with 268435456 in Ht. unfold u64_max in *. lia. }
  rewrite F5, F4, F3, F2, F1. split.
  - intros q Hq. by rewrite !lookup_insert_ne by done.
  - unfold regular. rewrite lookup_insert_eq. rewrite Emin in *. done.
Qed.

Definition total (l : list Z) : Z := foldr Z.add 0 l.

(** What copying a list of entries did. *)
Definition entries_copied (source dest : fpath) (names : list str) (f f' : filesystem) (s t s' t' : Z) : Prop :=
  (forall q, (forall n, n ∈ names -> q <> dest ++ [n]) -> f' !! q = f !! q)
  /\ (forall n, n ∈ names -> regular f' (dest ++ [n]) = match regular f (source ++ [n]) with Some data => Some data | None => regular f (dest ++ [n]) end)
  /\ let sizes := file_sizes f source names in
     s' = s + zlen sizes /\ t' = t + total sizes /\ Forall (fun k => k <= MAX_SOURCE_BYTES) sizes
     /\ (s <= MAX_SNAPSHOT_FILES -> s' <= MAX_SNAPSHOT_FILES) /\ (t <= MAX_SNAPSHOT_BYTES -> t' <= MAX_SNAPSHOT_BYTES).

Lemma regular_frame (f f' : filesystem) source dest n : source <> dest -> (forall q, q <> dest ++ [n] -> f' !! q = f !! q) ->
  forall m, regular f' (source ++ [m]) = regular f (source ++ [m]).
Proof. intros Hne Hf m. unfold regular. rewrite Hf; [done|]. by intros [? _]%app_inj_tail. Qed.

Lemma file_sizes_ext f f' source names : (forall n, regular f' (source ++ [n]) = regular f (source ++ [n])) ->
  file_sizes f' source names = file_sizes f source names.
Proof. intros H. unfold file_sizes. induction names as [|n names IH]; [done|]. cbn. by rewrite H, IH. Qed.

Lemma file_sizes_cons f source n names : file_sizes f source (n :: names) =
  match regular f (source ++ [n]) with Some data => zlen data :: file_sizes f source names | None => file_sizes f source names end.
Proof. unfold file_sizes. cbn. by destruct (regular f (source ++ [n])). Qed.

Lemma total_cons k l : total (k :: l) = k + total l.
Proof. done. Qed.

Lemma entries_copied_cons source dest n names f f1 f' s t s1 t1 s' t' : source <> dest ->
  entry_copied source dest n f f1 s t s1 t1 -> entries_copied source dest names f1 f' s1 t1 s' t' ->
  entries_copied source dest (n :: names) f f' s t s' t'.
Proof.
  intros Hne [Hf Hr] (Hf' & Hr' & Hs' & Ht' & Hle & Hs & Ht). pose proof (regular_frame f f1 source dest n Hne Hf) as Hk.
  rewrite (file_sizes_ext f f1) in * by done. split; [|split].
  - intros q Hq. rewrite Hf' by set_solver. apply Hf. set_solver.
  - intros m Hm. destruct (decide (m ∈ names)) as [Hin|Hout].
    + rewrite Hr', Hk by done. destruct (regular f (source ++ [m])) eqn:Em; [done|].
      destruct (decide (m = n)) as [->|Hmn]; [rewrite Em in Hr; by destruct Hr as [-> _]|].
      unfold regular. rewrite Hf; [done|]. by intros [_ ?]%app_inj_tail.
    + apply elem_of_cons in Hm as [->|]; [|done]. assert (regular f' (dest ++ [n]) = regular f1 (dest ++ [n])) as ->.
      { unfold regular. rewrite Hf'; [done|]. intros m Hm [_ ->]%app_inj_tail. done. }
      destruct (regular f (source ++ [n])); [by destruct Hr|by destruct Hr as [-> _]].
  - rewrite file_sizes_cons. destruct (regular f (source ++ [n])); cbn zeta.
    + destruct Hr as (_ & ? & -> & ? & -> & ?). rewrite total_cons. unfold zlen in *. cbn [length]. split_and!; [lia|lia|by constructor|by auto..].
    + destruct Hr as (_ & -> & ->). done.
Qed.

Lemma copy_entries_spec d f0 source dest names s t w r w' : source <> dest -> private_to d f0 (fs w) -> d `prefix_of` dest ->
  copy_entries source dest names s t w = (r, w') ->
  reaches (private_to d f0) w w' /\ forall s' t', r = Ok (s', t') -> entries_copied source dest names (fs w) (fs w') s t s' t'.
Proof.
  intros Hne. revert s t w. induction names as [|n names IH]; intros s t w Hw Hd; cbn [copy_entries].
  { intros [= <- <-]. split; [by apply reaches_refl|]. intros s' t' [= <- <-]. unfold entries_copied, zlen. cbn. split_and!; try done; [set_solver|lia..]. }
  destruct (copy_entry source dest n s t w) as [r1 w1] eqn:E1. destruct (copy_entry_spec _ _ _ _ _ _ _ _ _ _ Hw Hd E1) as [R1 H1].
  destruct r1 as [[s1 t1]|e]; cbn; [|intros [= <- <-]; by split]. intros E2.
  destruct (IH s1 t1 w1 (reaches_end _ _ _ R1) Hd E2) as [R2 H2]. split; [by eapply reaches_trans|].
  intros s' t' Hr. by eapply entries_copied_cons; [|apply H1|apply H2].
Qed.

(** Nothing is below a path that is not there. *)
Lemma rooted_below f d q : rooted f -> d <> [] -> f !! d = None -> d `prefix_of` q -> f !! q = None.
Proof.
  intros Hf Hd Hn [k ->]. induction k as [|x k IH] using rev_ind; [by rewrite app_nil_r|]. rewrite app_assoc.
  destruct (f !! ((d ++ k) ++ [x])) eqn:Eq; [|done]. apply Hf in Eq. unfold parent_is_dir in Eq. rewrite parent_child in Eq.
  unfold is_dir in Eq. rewrite IH in Eq. by destruct (d ++ k) eqn:Ek; [destruct d|].
Qed.

Lemma entries_insert f p n source : f !! p = None ->
  entries (<[p := n]> f) source ≡ₚ (if bool_decide (parent p = Some source) then option_list (file_name p) else []) ++ entries f source.
Proof.
  intros Hp. unfold entries. rewrite map_to_list_insert by done. cbn. case_bool_decide; [|done]. by destruct (file_name p).
Qed.

Lemma file_sizes_perm f source l l' : l ≡ₚ l' -> file_sizes f source l ≡ₚ file_sizes f source l'.
Proof. intros H. unfold file_sizes. by rewrite H. Qed.

Lemma regular_new_dir f p m q : f !! p = None -> regular (<[p := NDir m]> f) q = regular f q.
Proof. intros Hp. unfold regular. destruct (decide (p = q)) as [->|Hne]; [by rewrite lookup_insert_eq, Hp|by rewrite lookup_insert_ne]. Qed.

(** A new directory is no regular file of the source. *)
Lemma file_sizes_new_dir f p m source : f !! p = None ->
  file_sizes (<[p := NDir m]> f) source (entries (<[p := NDir m]> f) source) ≡ₚ file_sizes f source (entries f source).
Proof.
  intros Hp. rewrite (file_sizes_perm _ _ _ _ (entries_insert f p (NDir m) source Hp)).
  rewrite (file_sizes_ext f) by (intros n; by apply regular_new_dir).
  case_bool_decide as Hs; [|done]. apply parent_split in Hs as (n & -> & ->). change (file_sizes f source (n :: entries f source) ≡ₚ file_sizes f source (entries f source)). rewrite file_sizes_cons. unfold regular.
  by rewrite Hp.
Qed.

(** What the source held is what the copy holds, within the bounds. *)
Definition snapshot_of (source : fpath) (f : filesystem) (d : fpath) (f' : filesystem) : Prop :=
  (forall n, regular f' (d ++ [KEYRINGS_SUBDIR; n]) = regular f (source ++ [n]))
  /\ let sizes := file_sizes f source (entries f source) in
     zlen sizes <= MAX_SNAPSHOT_FILES /\ total sizes <= MAX_SNAPSHOT_BYTES /\ Forall (fun k => k <= MAX_SOURCE_BYTES) sizes.

Lemma total_perm l l' : l ≡ₚ l' -> total l = total l'.
Proof. induction 1; unfold total in *; cbn; lia. Qed.

Lemma read_dir_entries source w names w' : read_dir source w = (Ok names, w') -> names = entries (fs w) source.
Proof. intros Eq. apply syscall_inv in Eq as [[_ [? [=]]]|[_ Hr]]. cbn in Hr. destruct (is_dir _ _); [by injection Hr|]. by destruct (_ !! _). Qed.

(** The private directory and the one in it, and the copies made there. *)
Lemma snapshot_of_copied source d m m' f f' s t : (forall q, d `prefix_of` q -> f !! q = None) ->
  let dest := d ++ [KEYRINGS_SUBDIR] in
  let f1 := <[dest := NDir m']> (<[d := NDir m]> f) in
  entries_copied source dest (entries f1 source) f1 f' 0 0 s t -> snapshot_of source f d f'.
Proof.
  intros Hnew dest f1 (Hf & Hr & Hs & Ht & Hle & Hsb & Htb). assert (Hd : f !! d = None) by (by apply Hnew).
  assert (Hdest : (<[d := NDir m]> f) !! dest = None).
  { rewrite lookup_insert_ne; [apply Hnew; by apply prefix_app_r|]. intros Heq%(f_equal length). unfold dest in Heq. rewrite length_app in Heq. cbn in Heq. lia. }
  assert (Hk : forall q, regular f1 q = regular f q) by (intros q; unfold f1; by rewrite !regular_new_dir).
  assert (Hperm : file_sizes f1 source (entries f1 source) ≡ₚ file_sizes f source (entries f source)).
  { unfold f1. by rewrite !file_sizes_new_dir. }
  assert (Hempty : forall n, regular f (dest ++ [n]) = None).
  { intros n. unfold regular. rewrite Hnew; [done|]. unfold dest. rewrite <- app_assoc. by apply prefix_app_r. }
  split.
  - intros n. change (d ++ [KEYRINGS_SUBDIR; n]) with (d ++ [KEYRINGS_SUBDIR] ++ [n]). rewrite app_assoc. fold dest.
    destruct (decide (n ∈ entries f1 source)) as [Hn|Hn].
    + rewrite Hr, !Hk, Hempty by done. by destruct (regular f _).
    + transitivity (@None bytes).
      * rewrite <- (Hempty n), <- Hk. unfold regular. rewrite Hf; [done|]. intros n' Hn' [_ ->]%app_inj_tail. done.
      * rewrite <- Hk. unfold regular. destruct (f1 !! _) eqn:Eq; [|done]. by apply elem_of_entries in Eq.
  - cbn zeta in *. rewrite <- (total_perm _ _ Hperm). unfold zlen in *. rewrite <- Hperm. specialize (Hsb ltac:(done)). specialize (Htb ltac:(done)).
    split_and!; [lia|lia|done].
Qed.

Lemma fill_snapshot_spec f0 source d w r w' : (forall q, d `prefix_of` q -> f0 !! q = None) -> d <> [] -> ~ d `prefix_of` source ->
  private_to d f0 (fs w) -> (exists m, fs w = <[d := NDir m]> f0) ->
  fill_snapshot source d w = (r, w') ->
  reaches (private_to d f0) w w' /\ (r = Ok tt -> snapshot_of source f0 d (fs w')).
Proof.
  intros Hnew Hd Hs Hw [m0 F0]. unfold fill_snapshot, path_join, with_err. assert (Hp : d `prefix_of` d ++ [KEYRINGS_SUBDIR]) by (by apply prefix_app_r).
  assert (Hne : source <> d ++ [KEYRINGS_SUBDIR]) by (by intros ->).
  destruct (make_dir _ 448 w) as [r1 w1] eqn:E1. destruct (make_dir_private _ _ _ 448 _ _ _ Hw Hp eq_refl E1) as [R1 H1].
  destruct r1 as [[]|e]; cbn [fst snd map_err]; [|intros [= <- <-]; by split]. destruct (H1 eq_refl) as (_ & m1 & F1).
  destruct (read_dir source w1) as [r2 w2] eqn:E2. pose proof (read_private _ _ _ _ _ _ (reaches_end _ _ _ R1) E2) as [R2 F2].
  pose proof (reaches_trans _ _ _ _ R1 R2) as R12. destruct r2 as [names|e]; cbn [fst snd map_err]; [|intros [= <- <-]; by split].
  apply read_dir_entries in E2 as ->. destruct (copy_entries _ _ _ _ _ w2) as [r3 w3] eqn:E3.
  destruct (copy_entries_spec _ _ _ _ _ _ _ _ _ _ Hne (reaches_end _ _ _ R2) Hp E3) as [R3 H3].
  pose proof (reaches_trans _ _ _ _ R12 R3) as R13. destruct r3 as [[s t]|e]; cbn [fst snd]; intros [= <- <-]; (split; [done|]); [intros _|done].
  specialize (H3 s t eq_refl). rewrite F2, F1, F0 in H3. by eapply snapshot_of_copied.
Qed.

Lemma private_gone d f0 f : (forall q, d `prefix_of` q -> f0 !! q = None) -> private_to d f0 f ->
  (forall q, d `prefix_of` q -> f !! q = None) -> f = f0.
Proof.
  intros Hnew [Ha _] Hg. apply map_eq. intros q. destruct (decide (d `prefix_of` q)); [by rewrite Hg, Hnew|by apply Ha].
Qed.

(** Where the copy goes. *)
Definition snapshot_dir (w : world) : fpath := path_join sp_temp (lit "sm-import-gkr-" ++ env_uuid (tick w)).

(** A path is as it was, or is in the private directory and closed. *)
Definition kept_or_private (d : fpath) (f0 f : filesystem) : Prop :=
  forall q, f !! q = f0 !! q \/ d `prefix_of` q /\ forall n, f !! q = Some n -> closed n.

Lemma private_kept d f0 f : private_to d f0 f -> kept_or_private d f0 f.
Proof. intros [Ha Hc] q. destruct (decide (d `prefix_of` q)) as [Hq|Hq]; [right|left; by apply Ha]. split; [done|]. intros n. by apply Hc. Qed.

Lemma snapshot_create_spec source w : rooted (fs w) -> is_dir (fs w) source = true ->
  let d := snapshot_dir w in
  let '(r, w') := snapshot_create source w in
  reaches (kept_or_private d (fs w)) w w'
  /\ match r with
     | Ok d' => d' = d /\ fs w !! d = None /\ snapshot_of source (fs w) d (fs w')
     | Err _ => fs w' = fs w \/ exists w1 e, remove_dir_all d w1 = (Err e, w')
     end.
Proof.
  intros Hroot Hsrc d. unfold snapshot_create, private_dir_create, with_err, uuid. fold (snapshot_dir w). fold d.
  set (w0 := advance w (fs w)). assert (R0 : forall P : filesystem -> Prop, P (fs w) -> reaches P w w0) by (intros; by apply reaches_advance).
  assert (Hkw : kept_or_private d (fs w) (fs w)) by (by left).
  destruct (make_dir d 448 w0) as [r1 w1] eqn:E1. destruct (fs w !! d) as [nd|] eqn:Ed.
  { assert (exists e, r1 = Err e /\ fs w1 = fs w /\ w1 = advance w0 (fs w)) as (e & -> & F1 & ->).
    { apply syscall_inv in E1 as [[-> [e ->]]|[-> ->]]; cbn; rewrite ?Ed; eauto. }
    cbn. split; [|by left]. eapply reaches_trans; [by apply R0|]. by apply reaches_advance. }
  assert (Hd : d <> []) by (unfold d, snapshot_dir, path_join; by destruct sp_temp).
  assert (Hnew : forall q, d `prefix_of` q -> fs w !! q = None) by (intros q; by apply rooted_below).
  assert (Hs : ~ d `prefix_of` source).
  { intros Hp. unfold is_dir in Hsrc. rewrite (Hnew _ Hp) in Hsrc. destruct source; [|done]. apply prefix_nil_inv in Hp. done. }
  assert (Hpw : private_to d (fs w) (fs w)) by (split; [done|]; intros q n Hq; by rewrite Hnew).
  destruct (make_dir_private d (fs w) d 448 w0 r1 w1 Hpw ltac:(done) eq_refl E1) as [R1 H1].
  pose proof (reaches_trans _ _ _ _ (R0 _ Hpw) R1) as R01. destruct r1 as [[]|e]; cbn [fst snd map_err].
  2: { split; [by eapply reaches_impl; [apply private_kept|]|]. left. apply syscall_inv in E1 as [[-> _]|[-> Hr]]; [done|].
       revert Hr. cbn. rewrite Ed. by destruct (parent_is_dir _ _). }
  destruct (H1 eq_refl) as (_ & m & F1). destruct (fill_snapshot source d w1) as [r2 w2] eqn:E2.
  destruct (fill_snapshot_spec (fs w) source d w1 r2 w2) as [R2 H2]; [done|done|done|by apply (reaches_end _ _ _ R1)|by exists m|done|].
  pose proof (reaches_trans _ _ _ _ R01 R2) as R02. destruct r2 as [[]|e].
  - split; [by eapply reaches_impl; [apply private_kept|]|]. split; [done|]. split; [done|by apply H2].
  - unfold private_dir_drop. destruct (remove_dir_all d w2) as [r3 w3] eqn:E3.
    destruct (remove_dir_all_keeps (private_to d (fs w)) d w2 r3 w3) as [R3 H3]; [by apply (reaches_end _ _ _ R2)|intros f q Hq Hf; by apply private_delete|done|]. cbn.
    pose proof (reaches_trans _ _ _ _ R02 R3) as R03. split; [by eapply reaches_impl; [apply private_kept|]|].
    destruct r3 as [[]|e3]; [|right; eauto]. left. apply (private_gone d); [done|by apply (reaches_end _ _ _ R3)|by apply H3].
Qed.
End copying.
