(* ===== verification/Private.v ===== *)
(** * The private gnome-keyring of an import ([secrets_bus_owner], [PrivateKeyring]
      and [extract_over_private_bus] of [src/import/gnome.rs], [extract_gnome] of
      [src/cli/import.rs])

    An import starts a bus and a gnome-keyring of its own, types the password
    into the latter and walks it.  What the children do is arbitrary: every
    answer is a function of what has happened so far.  Then that no child
    outlives the call, that the password goes nowhere but the standard input of
    the one keyring, which sees the private bus and the private copy, and that
    the wait for it ends. *)
From S2P Require Import Prelude Text Sanitize Env Files Sweep Crypto Codec Format Names Import Formats Verify KWallet Session Gnome Gpg ImportRun ImportGnome Snapshot.

Definition COMMAND_TIMEOUT : Z := 5.
Definition STARTUP_TIMEOUT : Z := 20.
Definition STDERR_CAPTURE_LIMIT : Z := 4096.

(** ** What happens *)

Inductive child : Type := Helper | BusChild | KeyringChild.
#[global] Instance child_eq_dec : EqDecision child.
Proof. solve_decision. Defined.

(** The value of an environment variable: text, or a path as it is. *)
Inductive env_value : Type := VText (s : str) | VPath (p : fpath).

Record child_command : Type := { cm_program : str; cm_args : list str; cm_env : option (gmap str env_value) (** [None]: inherited *) }.

Inductive event : Type :=
| EvPrint (line : str)
| EvSpawn (c : child) (cmd : child_command) (started : bool)
| EvOutput                             (** [wait_with_output] of a helper *)
| EvReadLine                           (** of the bus's standard output *)
| EvStdin (data : bytes)               (** to the keyring *)
| EvCloseStdin
| EvTryWait
| EvConnect (address : str)
| EvProxy
| EvCollections
| EvSleep
| EvKill (c : child)
| EvWait (c : child)
| EvDrop (c : child)                   (** [kill_on_drop] *)
| EvAskPassword
| EvWalk (lg : list request).

(** What has happened, newest first. *)
Abbreviation events := (list event).

(** A bounded wait: its result, an error's text, or neither in time. *)
Inductive waited (A : Type) : Type := InTime (a : A) | Broken (e : str) | TimedOutWait.
#[global] Arguments InTime {A} a.
#[global] Arguments Broken {A} e.
#[global] Arguments TimedOutWait {A}.

(** What the children, the bus, the user and the clock (in milliseconds) answer;
    the events end with the one being answered. *)
Class Peers : Type := {
  pe_var : str -> option str;
  pe_spawn : events -> option str;                    (** why a spawn failed *)
  pe_output : events -> waited (bool * bytes);
  pe_line : events -> waited str;
  pe_write : events -> waited unit;
  pe_exited : events -> option str;                   (** the status shown *)
  pe_connect : events -> option (result unit str);      (** nothing, if it never answers *)
  pe_proxy : events -> result unit str;
  pe_collections : events -> option (result unit str);
  pe_clock : events -> Z;
  pe_stderr : events -> list (result bytes str);      (** the reads of the keyring's standard error so far *)
  pe_password : events -> result str CliError;
  pe_pair : events -> KeyPair;
  pe_provider : events -> Provider
}.

Record host : Type := Machine { mc_world : world; mc_events : events }.

(** [None]: still waiting, for an answer that never comes or because the rounds
    of a poll are used up. *)
Abbreviation acts A := (host -> option (result A GnomeError) * host).

Section private.
Context `{E : Env} `{SP : Paths} `{PE : Peers} `{U : Unicode} `{SN : SessionPrims}.

Definition note (e : event) (m : host) : host := Machine (mc_world m) (e :: mc_events m).

Definition act_bind {A B} (x : acts A) (k : A -> acts B) : acts B := fun m =>
  match x m with
  | (Some (Ok a), m) => k a m
  | (Some (Err e), m) => (Some (Err e), m)
  | (None, m) => (None, m)
  end.
Local Notation "'let&' x := c 'in' k" := (act_bind c (fun x => k)) (at level 200, x name, c at level 100, k at level 200).
Definition done {A} (a : A) : acts A := fun m => (Some (Ok a), m).
Definition fails {A} (e : GnomeError) : acts A := fun m => (Some (Err e), m).

(** ** Programs and their environment *)

Definition is_file (p : fpath) (w : world) : bool * world :=
  match stat p w with (Ok md, w) => (m_is_file md, w) | (Err _, w) => (false, w) end.

Definition program_path (name : str) (w : world) : str * world :=
  let '(usr, w) := is_file [lit "usr"; lit "bin"; name] w in
  if usr then (lit "/usr/bin/" ++ name, w)
  else
    let '(bin, w) := is_file [lit "bin"; name] w in
    if bin then (lit "/bin/" ++ name, w) else (name, w).

Definition INHERITED : list str := [lit "HOME"; lit "TMPDIR"; lit "XDG_RUNTIME_DIR"; lit "USER"; lit "LOGNAME"].

Definition minimal_env : gmap str env_value :=
  fold_left (fun env key => match pe_var key with Some v => <[key := VText v]> env | None => env end)
            INHERITED {[ lit "PATH" := VText (lit "/usr/bin:/bin") ]}.

Definition resolve_program (name : str) : acts str := fun m =>
  let '(p, w) := program_path name (mc_world m) in (Some (Ok p), Machine w (mc_events m)).

Definition spawn (c : child) (shown : str) (cmd : child_command) : acts unit := fun m =>
  match pe_spawn (EvSpawn c cmd true :: mc_events m) with
  | None => (Some (Ok tt), note (EvSpawn c cmd true) m)
  | Some e => (Some (Err (GSpawn shown e)), note (EvSpawn c cmd false) m)
  end.

(** ** Who owns the name *)

Definition run_capture (program : str) (args : list str) : acts (option str) :=
  let& path := resolve_program program in
  let& _ := spawn Helper program {| cm_program := path; cm_args := args; cm_env := None |} in
  fun m =>
    let m := note EvOutput m in
    let out := pe_output (mc_events m) in
    let m := note (EvDrop Helper) m in
    match out with
    | TimedOutWait => fails (GCommandTimeout program COMMAND_TIMEOUT) m
    | Broken e => fails (GSpawn program e) m
    | InTime (ok, stdout) => done (if ok then Some (from_utf8_lossy stdout) else None) m
    end.

Definition secrets_bus_owner : acts BusOwner :=
  let& status := run_capture (lit "busctl") [lit "--user"; lit "status"; SECRETS_BUS_NAME] in
  match status ≫= parse_busctl_pid with
  | None => done Unowned
  | Some pid =>
    let& ps := run_capture (lit "ps") [lit "-p"; dec pid; lit "-o"; lit "cmd="] in
    done (classify_bus_owner status ps)
  end.

(** ** The children *)

(** What is left of a child's pipes; [Reaped] is an option of it. *)
Record Child : Type := { cd_stdin : bool; cd_stdout : bool }.

Definition reap (c : child) (r : option Child) (m : host) : host :=
  match r with
  | Some _ => note (EvDrop c) (note (EvWait c) (note (EvKill c) m))
  | None => m
  end.

(** Dropping a [Reaped]. *)
Definition drop_child (c : child) (r : option Child) (m : host) : host :=
  match r with Some _ => note (EvDrop c) m | None => m end.

(** [StderrTail::drain]: the text held and the first error; it stops at an error
    and at the end of the pipe. *)
Fixpoint drain (reads : list (result bytes str)) (held : str) : str * option str :=
  match reads with
  | [] => (held, None)
  | Ok [] :: _ => (held, None)
  | Err e :: _ => (held, Some e)
  | Ok chunk :: reads =>
    if STDERR_CAPTURE_LIMIT <=? str_len held then drain reads held
    else drain reads (held ++ from_utf8_lossy (take (Z.to_nat (STDERR_CAPTURE_LIMIT - str_len held)) chunk))
  end.

(** [StderrTail::detail] and [text]. *)
Definition tail_detail (tail : str * option str) (fallback : str) : str :=
  let '(held, read_error) := tail in
  match trim held with
  | [] => match read_error with
          | Some e => fallback ++ lit "; it printed nothing on stderr, and the stderr capture failed: " ++ error_text e
          | None => fallback ++ lit "; it printed nothing on stderr"
          end
  | said =>
    fallback ++ lit "; gnome-keyring-daemon said: " ++ error_text said
    ++ match read_error with Some e => lit "; the stderr capture also failed: " ++ error_text e | None => [] end
  end.

Definition detail (fallback : str) (ev : events) : str := tail_detail (drain (pe_stderr ev) []) fallback.

(** [read_address]; it takes the pipe. *)
Definition read_address (bus : option Child) (m : host) : result str GnomeError * option Child * host :=
  match bus with
  | Some c =>
    if cd_stdout c then
      let bus := Some {| cd_stdin := cd_stdin c; cd_stdout := false |} in
      let m := note EvReadLine m in
      (match pe_line (mc_events m) with
       | TimedOutWait => Err (BusNeverReady STARTUP_TIMEOUT)
       | Broken e => Err (GSpawn (lit "dbus-daemon") e)
       | InTime line => match trim line with
                        | [] => Err (BusNeverReady STARTUP_TIMEOUT)
                        | address => Ok address
                        end
       end, bus, m)
    else (Err (GSpawn (lit "dbus-daemon") (lit "stdout was not a pipe")), bus, m)
  | None => (Err (GSpawn (lit "dbus-daemon") (lit "stdout was not a pipe")), bus, m)
  end.

Record PrivateKeyring : Type := {
  pk_bus : option Child; pk_keyring : option Child; pk_address : str; pk_control_dir : fpath }.

Definition feed_password (password : bytes) (k : PrivateKeyring) (m : host) : result unit GnomeError * PrivateKeyring * host :=
  match pk_keyring k with
  | None => (Err (KeyringExited (lit "the daemon was never spawned")), k, m)
  | Some c =>
    if cd_stdin c then
      let k := {| pk_bus := pk_bus k; pk_keyring := Some {| cd_stdin := false; cd_stdout := cd_stdout c |};
                  pk_address := pk_address k; pk_control_dir := pk_control_dir k |} in
      let m := note (EvStdin (password ++ [x0a])) m in
      (match pe_write (mc_events m) with
       | TimedOutWait => Err (GCommandTimeout GNOME_KEYRING_PROGRAM COMMAND_TIMEOUT)
       | Broken e => Err (KeyringExited (detail (lit "writing the password failed: " ++ e) (mc_events m)))
       | InTime _ => Ok tt
       end, k, note EvCloseStdin m)
    else (Err (KeyringExited (lit "stdin was not a pipe")), k, m)
  end.

(** The connection of [await_name]: made once, or why it was not. *)
Definition poll_connect (address : str) (m : host) : option (result unit str) * host :=
  let m := note (EvConnect address) m in
  match pe_connect (mc_events m) with
  | None => (None, m)
  | Some (Err e) => (Some (Err e), m)
  | Some (Ok _) => let m := note EvProxy m in (Some (pe_proxy (mc_events m)), m)
  end.

(** A round's connection and question: whether it is ready, whether there is a
    proxy, and the last error. *)
Definition poll_ask (address : str) (proxy : bool) (last_error : str) (m : host) : option (bool * bool * str) * host :=
  match (if proxy then (Some (Ok tt), m) else poll_connect address m) with
  | (None, m) => (None, m)
  | (Some (Err e), m) => (Some (false, false, e), m)
  | (Some (Ok _), m) =>
    let m := note EvCollections m in
    (match pe_collections (mc_events m) with
     | None => None
     | Some (Ok _) => Some (true, true, last_error)
     | Some (Err e) => Some (false, true, e)
     end, m)
  end.

(** The rounds of [await_name]. *)
Fixpoint poll_name (rounds : nat) (k : PrivateKeyring) (deadline : Z) (proxy : bool) (last_error : str) : acts unit := fun m =>
  match rounds with
  | O => (None, m)
  | S rounds =>
    let m := match pk_keyring k with Some _ => note EvTryWait m | None => m end in
    match pk_keyring k ≫= fun _ => pe_exited (mc_events m) with
    | Some status => fails (KeyringExited (detail (lit "exited with " ++ status) (mc_events m))) m
    | None =>
      match poll_ask (pk_address k) proxy last_error m with
      | (None, m) => (None, m)
      | (Some (ready, proxy, last_error), m) =>
        if ready then done tt m
        else if deadline <=? pe_clock (mc_events m)
        then fails (KeyringNeverReady STARTUP_TIMEOUT (detail (error_text last_error) (mc_events m))) m
        else poll_name rounds k deadline proxy last_error (note EvSleep m)
      end
    end
  end.

Definition await_name (rounds : nat) (k : PrivateKeyring) : acts unit := fun m =>
  poll_name rounds k (pe_clock (mc_events m) + STARTUP_TIMEOUT * 1000) false (lit "it never answered a property call") m.

Definition shutdown (k : PrivateKeyring) (m : host) : PrivateKeyring * host :=
  ({| pk_bus := None; pk_keyring := None; pk_address := pk_address k; pk_control_dir := pk_control_dir k |},
   reap BusChild (pk_bus k) (reap KeyringChild (pk_keyring k) m)).

(** Dropping a [PrivateDir] and a [PrivateKeyring]: what is still held. *)
Definition drop_dir (d : fpath) (m : host) : host := Machine (private_dir_drop d (mc_world m)) (mc_events m).
Definition drop_keyring (k : PrivateKeyring) (m : host) : host :=
  drop_dir (pk_control_dir k) (drop_child KeyringChild (pk_keyring k) (drop_child BusChild (pk_bus k) m)).

Definition bus_command (path : str) : child_command := {|
  cm_program := path; cm_args := [lit "--session"; lit "--nofork"; lit "--nopidfile"; lit "--print-address"];
  cm_env := Some minimal_env |}.

Definition keyring_command (path address : str) (control data_home : fpath) : child_command := {|
  cm_program := path;
  cm_args := [lit "--foreground"; lit "--components=secrets"; lit "--unlock"; lit "--control-directory=" ++ sp_display control];
  cm_env := Some (<[lit "XDG_DATA_HOME" := VPath data_home]> (delete (lit "GNOME_KEYRING_PID") (delete (lit "GNOME_KEYRING_CONTROL")
              (<[lit "DBUS_SESSION_BUS_ADDRESS" := VText address]> minimal_env)))) |}.

(** Once both children run, a failure shuts them down. *)
Definition begin_serving (rounds : nat) (password : bytes) (k : PrivateKeyring) : acts PrivateKeyring := fun m =>
  let '(fed, k, m) := feed_password password k m in
  let abandon e m := let '(k, m) := shutdown k m in fails e (drop_keyring k m) in
  match fed with
  | Err e => abandon e m
  | Ok _ =>
    match await_name rounds k m with
    | (Some (Ok _), m) => done k m
    | (Some (Err e), m) => abandon e m
    | (None, m) => (None, m)
    end
  end.

(** With the address of the bus. *)
Definition start_keyring (rounds : nat) (password : bytes) (data_home control : fpath) (bus : option Child) (address : str)
  : acts PrivateKeyring := fun m =>
  match (let& path := resolve_program GNOME_KEYRING_PROGRAM in
         spawn KeyringChild GNOME_KEYRING_PROGRAM (keyring_command path address control data_home)) m with
  | (Some (Ok _), m) =>
    begin_serving rounds password
      {| pk_bus := bus; pk_keyring := Some {| cd_stdin := true; cd_stdout := false |}; pk_address := address;
         pk_control_dir := control |} m
  | (Some (Err e), m) => fails e (drop_dir control (drop_child BusChild bus m))
  | (None, m) => (None, m)
  end.

(** [PrivateKeyring::start]. *)
Definition private_start (rounds : nat) (password : bytes) (data_home : fpath) : acts PrivateKeyring := fun m =>
  match private_dir_create (mc_world m) with
  | (Err e, w) => fails (GSpawn (lit "control directory") (sp_io_text e)) (Machine w (mc_events m))
  | (Ok control, w) =>
    let m := Machine w (mc_events m) in
    match (let& path := resolve_program (lit "dbus-daemon") in spawn BusChild (lit "dbus-daemon") (bus_command path)) m with
    | (Some (Ok _), m) =>
      let '(address, bus, m) := read_address (Some {| cd_stdin := false; cd_stdout := true |}) m in
      match address with
      | Err e => fails e (drop_dir control (reap BusChild bus m))
      | Ok address => start_keyring rounds password data_home control bus address m
      end
    | (Some (Err e), m) => fails e (drop_dir control m)
    | (None, m) => (None, m)
    end
  end.

(** The walk over the private bus. *)
Definition walk_private (k : PrivateKeyring) (options : ExtractOptions) (m : host) : option (result GnomeExtraction GnomeError) * host :=
  let m := note (EvConnect (pk_address k)) m in
  match pe_connect (mc_events m) with
  | None => (None, m)
  | Some (Err e) => (Some (Err (GBus (lit "connect") e)), m)
  | Some (Ok _) =>
    let '(x, lg) := Gnome.extract (pe_provider (mc_events m)) options (pe_pair (mc_events m)) [] in
    (Some x, note (EvWalk lg) m)
  end.

Definition extract_over_private_bus (rounds : nat) (password : bytes) (data_home : fpath) (options : ExtractOptions)
  : acts GnomeExtraction := fun m =>
  match private_start rounds password data_home m with
  | (Some (Ok k), m) =>
    match walk_private k options m with
    | (None, m) => (None, m)
    | (Some x, m) => let '(k, m) := shutdown k m in (Some x, drop_keyring k m)
    end
  | (Some (Err e), m) => fails e m
  | (None, m) => (None, m)
  end.

(** ** [extract_gnome] *)

Definition owner_warning (r : result BusOwner GnomeError) : option str * option str :=
  match r with
  | Ok owner => match foreign_provider_warning owner with
                | Some warning => (Some warning, Some (lit "warning: " ++ escape_control warning))
                | None => (None, None)
                end
  | Err e => (None, Some (lit "warning: could not tell who owns org.freedesktop.secrets (" ++ escape_control (gnome_error_text e)
                          ++ lit "), so this run cannot say whether the keyrings it is about to read are the ones your session has been using."))
  end.

(** After the snapshot. *)
Definition extract_snapshot (rounds : nat) (container : str) (warning : option str) (snapshot : fpath) (m : host)
  : option (result Extracted CliError) * host :=
  let m := note EvAskPassword m in
  match pe_password (mc_events m) with
  | Err e => (Some (Err e), m)
  | Ok password =>
    match extract_over_private_bus rounds (utf8 password) snapshot (gnome_options container) m with
    | (Some (Ok walked), m) => (Some (Ok (extracted_gnome container warning walked)), m)
    | (Some (Err e), m) => (Some (Err (gnome_error e)), m)
    | (None, m) => (None, m)
    end
  end.

Definition extract_gnome (rounds : nat) (source_dir : fpath) (container : str) (m : host)
  : option (result Extracted CliError) * host :=
  match secrets_bus_owner m with
  | (None, m) => (None, m)
  | (Some owner, m) =>
    let '(warning, line) := owner_warning owner in
    let m := match line with Some l => note (EvPrint l) m | None => m end in
    match snapshot_create source_dir (mc_world m) with
    | (Err e, w) => (Some (Err (gnome_error e)), Machine w (mc_events m))
    | (Ok snapshot, w) =>
      let '(r, m) := extract_snapshot rounds container warning snapshot (Machine w (mc_events m)) in
      match r with
      | Some r => (Some r, drop_dir snapshot m)
      | None => (None, m)
      end
    end
  end.
End private.
