(* ===== verification/PrivateProps.v ===== *)
(** * The private gnome-keyring, contained

    Every run of an import's children follows one short protocol; from it, that
    none outlives the run, where the password goes and what the children see.
    Then what the run does to files, and that it ends. *)
From S2P Require Import Prelude Text Sanitize Env Files Sweep Crypto Codec Format Names Import Formats Verify KWallet Session Gnome Gpg ImportRun ImportGnome Snapshot Private GnomeProps GpgProps.

(** ** What the children see *)

(** How far a private keyring is. *)
Inductive keyring_phase : Type :=
| Idle                              (** no child *)
| BusRuns                           (** its address not read *)
| BusReady (address : str)
| KeyringRuns (address : str)       (** nothing typed *)
| Typed (address : str)
| Serving (address : str)           (** its standard input closed *)
| KeyringKilled | KeyringGone       (** signalled, waited for *)
| BusLeft                           (** the keyring released *)
| BusKilled | BusGone
| Over.

(** What is asked of a keyring that serves. *)
Definition polls (address : str) (e : event) : bool :=
  match e with
  | EvTryWait | EvProxy | EvCollections | EvSleep | EvWalk _ => true
  | EvConnect a => bool_decide (a = address)
  | _ => false
  end.

Section containment.
Context `{E : Env} `{SP : Paths} `{PE : Peers} `{U : Unicode} `{SN : SessionPrims}.

(** The only moves there are, for one password and one data directory. *)
Inductive moves (password : bytes) (data_home : fpath) : events -> keyring_phase -> event -> keyring_phase -> Prop :=
| mv_bus ev path : moves password data_home ev Idle (EvSpawn BusChild (bus_command path) true) BusRuns
| mv_no_bus ev path : moves password data_home ev Idle (EvSpawn BusChild (bus_command path) false) Over
| mv_address ev line address : pe_line (EvReadLine :: ev) = InTime line -> trim line = address -> address <> [] ->
    moves password data_home ev BusRuns EvReadLine (BusReady address)
| mv_no_address ev : moves password data_home ev BusRuns EvReadLine BusRuns
| mv_keyring ev path address control :
    moves password data_home ev (BusReady address) (EvSpawn KeyringChild (keyring_command path address control data_home) true) (KeyringRuns address)
| mv_no_keyring ev path address control :
    moves password data_home ev (BusReady address) (EvSpawn KeyringChild (keyring_command path address control data_home) false) (BusReady address)
| mv_type ev address : moves password data_home ev (KeyringRuns address) (EvStdin (password ++ [x0a])) (Typed address)
| mv_close ev address : moves password data_home ev (Typed address) EvCloseStdin (Serving address)
| mv_poll ev address e : polls address e = true -> moves password data_home ev (Serving address) e (Serving address)
| mv_kill_keyring ev address : moves password data_home ev (Serving address) (EvKill KeyringChild) KeyringKilled
| mv_wait_keyring ev : moves password data_home ev KeyringKilled (EvWait KeyringChild) KeyringGone
| mv_drop_keyring ev : moves password data_home ev KeyringGone (EvDrop KeyringChild) BusLeft
| mv_kill_bus ev p : p = BusLeft \/ p = BusRuns -> moves password data_home ev p (EvKill BusChild) BusKilled
| mv_wait_bus ev : moves password data_home ev BusKilled (EvWait BusChild) BusGone
| mv_drop_bus ev p : p = BusGone \/ (exists address, p = BusReady address) -> moves password data_home ev p (EvDrop BusChild) Over.

(** No child is left. *)
Definition ended (p : keyring_phase) : Prop := p = Idle \/ p = Over.

(** A run of them. *)
Inductive goes (password : bytes) (data_home : fpath) (ev : events) (p : keyring_phase) : events -> keyring_phase -> Prop :=
| goes_refl : goes password data_home ev p ev p
| goes_step ev' p' e p'' : goes password data_home ev p ev' p' -> moves password data_home ev' p' e p'' -> goes password data_home ev p (e :: ev') p''.

Lemma goes_trans pw dh a p b q c r : goes pw dh a p b q -> goes pw dh b q c r -> goes pw dh a p c r.
Proof. intros H1. induction 1 as [|ev' p' e p'' _ IH Hm]; [done|]. by eapply goes_step. Qed.

Lemma goes_one pw dh ev p e p' : moves pw dh ev p e p' -> goes pw dh ev p (e :: ev) p'.
Proof. intros H. eapply goes_step; [apply goes_refl|done]. Qed.

Lemma resolve_program_run name m r m' : resolve_program name m = (r, m') -> exists path, r = Some (Ok path) /\ mc_events m' = mc_events m.
Proof. unfold resolve_program. destruct (program_path _ _). intros [= <- <-]. eauto. Qed.

(** Looking a program up and starting it. *)
Lemma spawn_run c name shown (cmd : str -> child_command) m r m' :
  act_bind (resolve_program name) (fun path => spawn c shown (cmd path)) m = (r, m') ->
  exists path, (r = Some (Ok tt) /\ mc_events m' = EvSpawn c (cmd path) true :: mc_events m)
            \/ (exists e, r = Some (Err e)) /\ mc_events m' = EvSpawn c (cmd path) false :: mc_events m.
Proof.
  unfold act_bind. destruct (resolve_program name m) as [r1 m1] eqn:E1. apply resolve_program_run in E1 as (path & -> & Hev).
  unfold spawn. rewrite Hev. exists path. destruct (pe_spawn _); simplify_eq; cbn; rewrite Hev; eauto.
Qed.

Lemma read_address_run pw dh c m r bus m' : cd_stdout c = true -> read_address (Some c) m = (r, bus, m') ->
  is_Some bus /\ match r with
                 | Ok a => goes pw dh (mc_events m) BusRuns (mc_events m') (BusReady a)
                 | Err _ => goes pw dh (mc_events m) BusRuns (mc_events m') BusRuns
                 end.
Proof.
  intros Hc. unfold read_address. rewrite Hc. cbn. intros [= <- <- <-]. split; [done|].
  destruct (pe_line _) as [line| |] eqn:El; [|apply goes_one, mv_no_address..]. destruct (trim line) as [|x a] eqn:Et; [apply goes_one, mv_no_address|].
  apply goes_one. by eapply mv_address.
Qed.

Lemma feed_password_run pw dh k m r k' m' : pk_keyring k = Some {| cd_stdin := true; cd_stdout := false |} ->
  feed_password pw k m = (r, k', m') ->
  goes pw dh (mc_events m) (KeyringRuns (pk_address k)) (mc_events m') (Serving (pk_address k))
  /\ pk_bus k' = pk_bus k /\ is_Some (pk_keyring k') /\ pk_address k' = pk_address k.
Proof.
  intros Hk. unfold feed_password. rewrite Hk. cbn. intros [= <- <- <-]. cbn. split_and!; [|done..].
  eapply goes_step; [apply goes_one; apply mv_type|apply mv_close].
Qed.

(** Requests to a keyring that serves. *)
Lemma goes_poll pw dh ev ev' a p e : goes pw dh ev p ev' (Serving a) -> polls a e = true -> goes pw dh ev p (e :: ev') (Serving a).
Proof. intros H He. eapply goes_step; [done|by apply mv_poll]. Qed.

Lemma poll_ask_run pw dh a proxy last m r m' : poll_ask a proxy last m = (r, m') ->
  goes pw dh (mc_events m) (Serving a) (mc_events m') (Serving a).
Proof.
  assert (Ha : polls a (EvConnect a) = true) by (by apply bool_decide_eq_true). unfold poll_ask, poll_connect. intros Eq.
  repeat first [destruct proxy | destruct (pe_connect _) as [[]|] | destruct (pe_proxy _)]; simplify_eq/=;
    repeat (apply goes_poll; [|done]); apply goes_refl.
Qed.

Lemma poll_name_run pw dh rounds k deadline proxy last m r m' : is_Some (pk_keyring k) ->
  poll_name rounds k deadline proxy last m = (r, m') -> goes pw dh (mc_events m) (Serving (pk_address k)) (mc_events m') (Serving (pk_address k)).
Proof.
  intros [c Hc]. revert proxy last m. induction rounds as [|rounds IH]; intros proxy last m; cbn [poll_name]; [intros [= <- <-]; apply goes_refl|].
  rewrite Hc. cbn. assert (H1 : goes pw dh (mc_events m) (Serving (pk_address k)) (EvTryWait :: mc_events m) (Serving (pk_address k))) by (by apply goes_one, mv_poll).
  destruct (pe_exited _); [by intros [= <- <-]|]. destruct (poll_ask _ _ _ _) as [r1 m1] eqn:E1.
  apply (poll_ask_run pw dh) in E1. pose proof (goes_trans _ _ _ _ _ _ _ _ H1 E1) as H2.
  destruct r1 as [[[ready proxy'] last']|]; [|by intros [= <- <-]]. destruct ready; [by intros [= <- <-]|]. destruct (deadline <=? _); [by intros [= <- <-]|]. intros E2. apply IH in E2.
  eapply goes_trans; [exact H2|]. eapply goes_trans; [|exact E2]. by apply goes_one, mv_poll.
Qed.

Lemma shutdown_run pw dh k m : is_Some (pk_bus k) -> is_Some (pk_keyring k) ->
  goes pw dh (mc_events m) (Serving (pk_address k)) (mc_events (snd (shutdown k m))) Over.
Proof.
  intros [b Hb] [c Hc]. unfold shutdown. rewrite Hb, Hc. cbn.
  eapply goes_step; [|apply mv_drop_bus; by left]. eapply goes_step; [|apply mv_wait_bus]. eapply goes_step; [|apply mv_kill_bus; by left].
  eapply goes_step; [|apply mv_drop_keyring]. eapply goes_step; [|apply mv_wait_keyring]. apply goes_one, (mv_kill_keyring _ _ _ (pk_address k)).
Qed.

(** After [shutdown] there is only the directory to drop. *)
Lemma drop_after_shutdown k m : mc_events (drop_keyring (fst (shutdown k m)) (snd (shutdown k m))) = mc_events (snd (shutdown k m)).
Proof. done. Qed.

Lemma begin_serving_run pw dh rounds k m r m' : is_Some (pk_bus k) -> pk_keyring k = Some {| cd_stdin := true; cd_stdout := false |} ->
  begin_serving rounds pw k m = (r, m') ->
  match r with
  | Some (Ok k') => goes pw dh (mc_events m) (KeyringRuns (pk_address k)) (mc_events m') (Serving (pk_address k'))
                    /\ is_Some (pk_bus k') /\ is_Some (pk_keyring k')
  | Some (Err _) => goes pw dh (mc_events m) (KeyringRuns (pk_address k)) (mc_events m') Over
  | None => True
  end.
Proof.
  intros Hb Hk. unfold begin_serving. destruct (feed_password pw k m) as [[fed k1] m1] eqn:E1.
  apply (feed_password_run pw dh) in E1 as (G1 & Hb1 & Hk1 & Ha1); [|done]. rewrite <- Hb1 in Hb. rewrite <- Ha1 in G1 at 2.
  assert (Hend : forall m2, goes pw dh (mc_events m) (KeyringRuns (pk_address k)) (mc_events m2) (Serving (pk_address k1)) ->
                 goes pw dh (mc_events m) (KeyringRuns (pk_address k)) (mc_events (drop_keyring (shutdown k1 m2).1 (shutdown k1 m2).2)) Over).
  { intros m2 G2. eapply goes_trans; [exact G2|]. rewrite drop_after_shutdown. by apply shutdown_run. }
  destruct fed as [[]|e]; [|intros [= <- <-]; by apply Hend].
  destruct (await_name rounds k1 m1) as [r2 m2] eqn:E2. apply (poll_name_run pw dh) in E2; [|done].
  pose proof (goes_trans _ _ _ _ _ _ _ _ G1 E2) as G2. destruct r2 as [[[]|e]|]; intros [= <- <-]; [done|by apply Hend|done].
Qed.

(** A start that succeeds leaves a keyring that serves, one that fails leaves no
    child. *)
Lemma start_run pw dh rounds m r m' : private_start rounds pw dh m = (r, m') ->
  match r with
  | Some (Ok k) => goes pw dh (mc_events m) Idle (mc_events m') (Serving (pk_address k)) /\ is_Some (pk_bus k) /\ is_Some (pk_keyring k)
  | Some (Err _) => exists p, ended p /\ goes pw dh (mc_events m) Idle (mc_events m') p
  | None => True
  end.
Proof.
  unfold private_start. destruct (private_dir_create _) as [[control|e] w0]; [|intros [= <- <-]; exists Idle; split; [by left|apply goes_refl]].
  destruct (act_bind _ _ _) as [r1 m1] eqn:E1. apply spawn_run in E1 as (path & [[-> Ev1]|[[e ->] Ev1]]); cbn in Ev1.
  2: { intros [= <- <-]. exists Over. split; [by right|]. cbn. rewrite Ev1. apply goes_one, mv_no_bus. }
  assert (G1 : goes pw dh (mc_events m) Idle (mc_events m1) BusRuns) by (rewrite Ev1; apply goes_one, mv_bus).
  destruct (read_address _ m1) as [[a bus] m2] eqn:E2. apply (read_address_run pw dh) in E2 as [[b ->] G2]; [|done].
  destruct a as [a|e].
  2: { intros [= <- <-]. pose proof (goes_trans _ _ _ _ _ _ _ _ G1 G2) as G3. exists Over. split; [by right|]. cbn.
       eapply goes_step; [|apply mv_drop_bus; by left]. eapply goes_step; [|apply mv_wait_bus]. eapply goes_step; [exact G3|apply mv_kill_bus; by right]. }
  pose proof (goes_trans _ _ _ _ _ _ _ _ G1 G2) as G3. unfold start_keyring.
  destruct (act_bind _ _ m2) as [r3 m3] eqn:E3. apply spawn_run in E3 as (path' & [[-> Ev3]|[[e ->] Ev3]]).
  - intros E4. apply (begin_serving_run pw dh) in E4; [|done|done]. rewrite Ev3 in E4. cbn [pk_address] in E4.
    assert (G4 : goes pw dh (mc_events m) Idle (EvSpawn KeyringChild (keyring_command path' a control dh) true :: mc_events m2) (KeyringRuns a))
      by (eapply goes_step; [exact G3|apply mv_keyring]).
    destruct r as [[k|e]|]; [|exists Over; split; [by right|by eapply goes_trans]|done]. destruct E4 as [G5 Hk]. split; [by eapply goes_trans|done].
  - intros [= <- <-]. exists Over. split; [by right|]. cbn. rewrite Ev3. eapply goes_step; [|apply mv_drop_bus; right; by exists a].
    eapply goes_step; [exact G3|apply mv_no_keyring].
Qed.

Lemma walk_private_run pw dh k options m x m' : walk_private k options m = (x, m') ->
  goes pw dh (mc_events m) (Serving (pk_address k)) (mc_events m') (Serving (pk_address k)).
Proof.
  assert (Ha : polls (pk_address k) (EvConnect (pk_address k)) = true) by (by apply bool_decide_eq_true). unfold walk_private. cbn.
  destruct (pe_connect _) as [[]|]; [|intros [= <- <-]; by apply goes_one, mv_poll..]. case_match. intros [= <- <-]. cbn.
  apply goes_poll; [|done]. by apply goes_one, mv_poll.
Qed.

Lemma extract_over_private_bus_run pw dh rounds options m r m' : extract_over_private_bus rounds pw dh options m = (Some r, m') ->
  exists p, ended p /\ goes pw dh (mc_events m) Idle (mc_events m') p.
Proof.
  unfold extract_over_private_bus. destruct (private_start rounds pw dh m) as [r1 m1] eqn:E1. apply start_run in E1.
  destruct r1 as [[k|e]|]; [|by intros [= <- <-]|done]. destruct E1 as (G1 & Hb & Hk).
  destruct (walk_private k options m1) as [x m2] eqn:E2. apply (walk_private_run pw dh) in E2. destruct x as [x|]; [|done]. intros [= <- <-].
  exists Over. split; [by right|].
  eapply goes_trans; [exact G1|]. eapply goes_trans; [exact E2|]. by apply (shutdown_run pw dh k m2).
Qed.
End containment.

(** ** What the run does to files *)

(** A path is as it was, or is in one of two private directories and closed. *)
Definition kept_but (d1 d2 : fpath) (f0 f : filesystem) : Prop :=
  forall q, f !! q = f0 !! q \/ (d1 `prefix_of` q \/ d2 `prefix_of` q) /\ forall n, f !! q = Some n -> closed n.

Section files.
Context `{E : Env} `{SP : Paths} `{PE : Peers} `{U : Unicode} `{SN : SessionPrims}.

(** Requests that only look. *)
Definition looks (w w' : world) : Prop := reaches (eq (fs w)) w w'.

Lemma looks_refl w : looks w w.
Proof. by apply reaches_refl. Qed.

Lemma looks_fs w w' : looks w w' -> fs w' = fs w.
Proof. intros H. symmetry. apply (reaches_end _ _ _ H). Qed.

Lemma looks_trans a b c : looks a b -> looks b c -> looks a c.
Proof. intros H1 H2. eapply reaches_trans; [exact H1|]. unfold looks in H2. by rewrite (looks_fs _ _ H1) in H2. Qed.

Lemma looks_keeps (P : filesystem -> Prop) w w' : P (fs w) -> looks w w' -> reaches P w w'.
Proof. intros Hw. apply reaches_impl. by intros f <-. Qed.

Lemma is_file_looks p w : looks w (snd (is_file p w)).
Proof.
  unfold is_file, stat. destruct (syscall _ w) as [r w'] eqn:E1. apply syscall_inv in E1 as [[-> _]|[-> _]]; destruct r; by apply reaches_advance.
Qed.

Lemma resolve_program_looks name m : looks (mc_world m) (mc_world (snd (resolve_program name m))).
Proof.
  unfold resolve_program, program_path. destruct (is_file _ (mc_world m)) as [b1 w1] eqn:E1. pose proof (is_file_looks [lit "usr"; lit "bin"; name] (mc_world m)) as L1.
  rewrite E1 in L1. destruct b1; [done|]. destruct (is_file _ w1) as [b2 w2] eqn:E2. pose proof (is_file_looks [lit "bin"; name] w1) as L2. rewrite E2 in L2.
  destruct b2; by eapply looks_trans.
Qed.

Lemma spawn_looks c name shown (cmd : str -> child_command) m r m' :
  act_bind (resolve_program name) (fun path => spawn c shown (cmd path)) m = (r, m') -> looks (mc_world m) (mc_world m').
Proof.
  intros Eq. pose proof (resolve_program_looks name m) as L. unfold act_bind in Eq. destruct (resolve_program name m) as [r1 m1] eqn:E1.
  apply resolve_program_run in E1 as (path & -> & _). unfold spawn in Eq. by destruct (pe_spawn _); simplify_eq/=.
Qed.

Lemma run_capture_looks program args m r m' : run_capture program args m = (r, m') -> looks (mc_world m) (mc_world m') /\ is_Some r.
Proof.
  unfold run_capture. intros Eq. pose proof (resolve_program_looks program m) as L. unfold act_bind in Eq.
  destruct (resolve_program program m) as [r1 m1] eqn:E1. apply resolve_program_run in E1 as (path & -> & _). unfold spawn in Eq.
  destruct (pe_spawn _); simplify_eq/=; [done|]. unfold fails, done in Eq. destruct (pe_output _) as [[]| |]; simplify_eq/=; done.
Qed.

Lemma secrets_bus_owner_looks m r m' : secrets_bus_owner m = (r, m') -> looks (mc_world m) (mc_world m') /\ is_Some r.
Proof.
  unfold secrets_bus_owner, act_bind. destruct (run_capture _ _ m) as [r1 m1] eqn:E1. apply run_capture_looks in E1 as [L1 [x ->]].
  destruct x as [status|e]; [|by intros [= <- <-]]. destruct (status ≫= _); [|by intros [= <- <-]].
  destruct (run_capture _ _ m1) as [r2 m2] eqn:E2. apply run_capture_looks in E2 as [L2 [y ->]]. pose proof (looks_trans _ _ _ L1 L2).
  destruct y; by intros [= <- <-].
Qed.

Lemma poll_ask_world a proxy last m r m' : poll_ask a proxy last m = (r, m') -> mc_world m' = mc_world m.
Proof.
  unfold poll_ask, poll_connect. intros Eq.
  by repeat first [destruct proxy | destruct (pe_connect _) as [[]|] | destruct (pe_proxy _)]; simplify_eq/=.
Qed.

Lemma poll_name_world rounds k deadline proxy last m r m' : poll_name rounds k deadline proxy last m = (r, m') -> mc_world m' = mc_world m.
Proof.
  revert proxy last m. induction rounds as [|rounds IH]; intros proxy last m; cbn [poll_name]; [by intros [= <- <-]|]. cbn zeta.
  set (m0 := match pk_keyring k with Some _ => _ | None => m end). assert (mc_world m0 = mc_world m) as <- by (unfold m0; by destruct (pk_keyring k)).
  destruct (pk_keyring k ≫= _); [by intros [= <- <-]|]. destruct (poll_ask _ _ _ _) as [r1 m1] eqn:E1.
  apply poll_ask_world in E1 as <-. destruct r1 as [[[ready proxy'] last']|]; [|by intros [= <- <-]]. destruct ready; [by intros [= <- <-]|]. destruct (deadline <=? _); [by intros [= <- <-]|]. intros E2. by apply IH in E2.
Qed.

Lemma feed_password_world pw k m r k' m' : feed_password pw k m = (r, k', m') -> mc_world m' = mc_world m /\ pk_control_dir k' = pk_control_dir k.
Proof. unfold feed_password. destruct (pk_keyring k) as [c|]; [destruct (cd_stdin c)|]; by intros [= <- <- <-]. Qed.

Lemma reap_world c r m : mc_world (reap c r m) = mc_world m.
Proof. by destruct r. Qed.

Lemma drop_child_world c r m : mc_world (drop_child c r m) = mc_world m.
Proof. by destruct r. Qed.

Lemma drop_keyring_world k m : mc_world (drop_keyring k m) = private_dir_drop (pk_control_dir k) (mc_world m).
Proof. unfold drop_keyring, drop_dir. cbn. by rewrite !drop_child_world. Qed.

Lemma shutdown_world k m : mc_world (snd (shutdown k m)) = mc_world m.
Proof. cbn. by rewrite !reap_world. Qed.

Lemma begin_serving_world rounds pw k m r m' : begin_serving rounds pw k m = (r, m') ->
  match r with
  | Some (Ok k') => mc_world m' = mc_world m /\ pk_control_dir k' = pk_control_dir k
  | Some (Err _) => mc_world m' = private_dir_drop (pk_control_dir k) (mc_world m)
  | None => True
  end.
Proof.
  unfold begin_serving. destruct (feed_password pw k m) as [[fed k1] m1] eqn:E1. apply feed_password_world in E1 as [W1 K1].
  assert (Hend : forall m2, mc_world m2 = mc_world m1 ->
                 mc_world (drop_keyring (shutdown k1 m2).1 (shutdown k1 m2).2) = private_dir_drop (pk_control_dir k) (mc_world m)).
  { intros m2 W2. rewrite drop_keyring_world, shutdown_world, W2, W1. cbn. by rewrite K1. }
  destruct fed as [[]|e]; [|intros [= <- <-]; by apply Hend]. destruct (await_name rounds k1 m1) as [r2 m2] eqn:E2.
  apply poll_name_world in E2. destruct r2 as [[[]|e]|]; intros [= <- <-]; [|by apply Hend|done]. split; congruence.
Qed.

(** A private directory was made and dropped, or could not be made. *)
Definition used_dir (w w' : world) : Prop :=
  (exists e, private_dir_create w = (Err e, w'))
  \/ exists d w1 w2, private_dir_create w = (Ok d, w1) /\ looks w1 w2 /\ w' = private_dir_drop d w2.

Lemma start_world rounds pw dh m r m' : private_start rounds pw dh m = (r, m') ->
  match r with
  | Some (Ok k) => exists w1, private_dir_create (mc_world m) = (Ok (pk_control_dir k), w1) /\ looks w1 (mc_world m')
  | Some (Err _) => used_dir (mc_world m) (mc_world m')
  | None => True
  end.
Proof.
  unfold private_start, used_dir. destruct (private_dir_create _) as [[control|e] w0]; [|intros [= <- <-]; left; by exists e].
  assert (Hdrop : forall w2, looks w0 w2 -> exists d w1 w3, (Ok (E := io_error) control, w0) = (Ok d, w1) /\ looks w1 w3 /\ private_dir_drop control w2 = private_dir_drop d w3).
  { intros w2 L. by exists control, w0, w2. }
  destruct (act_bind _ _ _) as [r1 m1] eqn:E1. apply spawn_looks in E1 as L1. cbn in L1.
  apply spawn_run in E1 as (path & [[-> _]|[[e ->] _]]); [|intros [= <- <-]; right; by apply Hdrop].
  destruct (read_address _ m1) as [[a bus] m2] eqn:E2. assert (mc_world m2 = mc_world m1) as W2 by (by injection E2 as <- <- <-).
  rewrite <- W2 in L1. destruct a as [a|e]; [|intros [= <- <-]; right; cbn; rewrite reap_world; by apply Hdrop].
  unfold start_keyring. destruct (act_bind _ _ m2) as [r3 m3] eqn:E3. apply spawn_looks in E3 as L3. pose proof (looks_trans _ _ _ L1 L3) as L4.
  apply spawn_run in E3 as (path' & [[-> _]|[[e ->] _]]); [|intros [= <- <-]; right; cbn; rewrite drop_child_world; by apply Hdrop].
  intros E4. apply begin_serving_world in E4. destruct r as [[k|e]|]; [|right; rewrite E4; by apply Hdrop|done].
  destruct E4 as [-> Hc]. exists w0. by rewrite Hc.
Qed.

Lemma extract_over_private_bus_world rounds pw dh options m r m' : extract_over_private_bus rounds pw dh options m = (Some r, m') ->
  used_dir (mc_world m) (mc_world m').
Proof.
  unfold extract_over_private_bus. destruct (private_start rounds pw dh m) as [r1 m1] eqn:E1. apply start_world in E1.
  destruct r1 as [[k|e]|]; [|by intros [= <- <-]|done]. destruct E1 as (w1 & Hc & L1). unfold walk_private. cbn zeta.
  match goal with |- match ?t with _ => _ end = _ -> _ => destruct t as [x m2] eqn:E2 end.
  assert (mc_world m2 = mc_world m1) as W2 by (destruct (pe_connect _) as [[]|]; [|by simplify_eq/=..]; case_match; by simplify_eq/=).
  destruct x as [x|]; [|done].
  intros [= <- <-]. right. exists (pk_control_dir k), w1, (mc_world m2). split; [done|]. split; [by rewrite W2|].
  change (mc_world (drop_keyring (shutdown k m2).1 (shutdown k m2).2) = private_dir_drop (pk_control_dir k) (mc_world m2)).
  by rewrite drop_keyring_world, shutdown_world.
Qed.
End files.

(** ** What follows from the protocol *)

(** Whether a child has been started and not released. *)
Fixpoint child_held (c : child) (ev : events) : bool :=
  match ev with
  | [] => false
  | EvSpawn c' _ true :: ev => bool_decide (c' = c) || child_held c ev
  | EvDrop c' :: ev => negb (bool_decide (c' = c)) && child_held c ev
  | _ :: ev => child_held c ev
  end.

(** What was typed. *)
Definition typed_text (ev : events) : list bytes := omap (fun e => match e with EvStdin data => Some data | _ => None end) ev.

(** The bus printed this address. *)
Definition announced `{Peers} (ev : events) (address : str) : Prop :=
  exists before line, EvReadLine :: before `suffix_of` ev /\ pe_line (EvReadLine :: before) = InTime line /\ trim line = address.

Definition DBUS : str := lit "DBUS_SESSION_BUS_ADDRESS".
Definition DATA_HOME : str := lit "XDG_DATA_HOME".

(** Nothing of the session reaches a command but a few harmless variables; the
    keyring's bus is the private one and its data the copy. *)
Definition isolated `{Peers} (data_home : fpath) (ev : events) (c : child) (cmd : child_command) : Prop :=
  exists env, cm_env cmd = Some env
    /\ (forall key, is_Some (env !! key) -> key ∈ lit "PATH" :: INHERITED \/ c = KeyringChild /\ key ∈ [DBUS; DATA_HOME])
    /\ (c = KeyringChild -> env !! DATA_HOME = Some (VPath data_home)
                            /\ exists address, env !! DBUS = Some (VText address) /\ announced ev address).

Section consequences.
Context `{E : Env} `{SP : Paths} `{PE : Peers} `{U : Unicode} `{SN : SessionPrims}.

Definition phase_holds (p : keyring_phase) (c : child) : bool :=
  match p, c with
  | _, Helper => false
  | (Idle | Over), _ => false
  | (KeyringRuns _ | Typed _ | Serving _ | KeyringKilled | KeyringGone), KeyringChild => true
  | _, KeyringChild => false
  | _, BusChild => true
  end.

Lemma moves_held pw dh ev p e p' : moves pw dh ev p e p' -> (forall c, child_held c ev = phase_holds p c) -> forall c, child_held c (e :: ev) = phase_holds p' c.
Proof.
  intros Hm Hp c. pose proof (Hp c) as Hc. destruct Hm; cbn in *; try done; try (by destruct c).
  - destruct e; cbn; done.
  - destruct H as [->| ->]; by destruct c.
  - destruct H as [->|[a ->]]; by destruct c.
Qed.

Lemma goes_held pw dh ev p ev' p' : goes pw dh ev p ev' p' -> (forall c, child_held c ev = phase_holds p c) -> forall c, child_held c ev' = phase_holds p' c.
Proof. induction 1 as [|ev' p' e p'' _ IH Hm]; [done|]. intros Hp. eapply moves_held; [exact Hm|by apply IH]. Qed.

Definition typed_in (pw : bytes) (p : keyring_phase) (l : list bytes) : Prop :=
  match p with
  | Idle | BusRuns | BusReady _ | KeyringRuns _ => l = []
  | _ => l = [] \/ l = [pw ++ [x0a]]
  end.

Lemma goes_typed pw dh ev ev' p' : goes pw dh ev Idle ev' p' -> exists l, typed_text ev' = l ++ typed_text ev /\ typed_in pw p' l.
Proof.
  induction 1 as [|ev' p' e p'' _ (l & Ht & Hl) Hm]; [by exists []|].
  destruct Hm; cbn [typed_text omap list_omap] in *; fold (typed_text ev0) in *;
    try (exists l; split; [exact Ht|]; cbn in *; by subst; auto).
  - exists [pw ++ [x0a]]. cbn in *. subst l. change (typed_text (EvStdin (pw ++ [x0a]) :: ev0)) with ((pw ++ [x0a]) :: typed_text ev0). rewrite Ht. auto.
  - exists l. cbn in *. split; [|done]. rewrite <- Ht. by destruct e.
  - exists l. split; [exact Ht|]. destruct H as [->| ->]; cbn in *; auto.
  - exists l. split; [exact Ht|]. destruct H as [->|[a ->]]; cbn in *; auto.
Qed.

Lemma goes_suffix pw dh ev p ev' p' : goes pw dh ev p ev' p' -> ev `suffix_of` ev'.
Proof. induction 1 as [|ev' p' e p'' _ IH _]; [done|]. by apply suffix_cons_r. Qed.

Lemma printed_more ev ev' a : ev `suffix_of` ev' -> announced ev a -> announced ev' a.
Proof. intros Hs (before & line & Hb & Hl). exists before, line. split; [by etrans|done]. Qed.

Definition address_of (p : keyring_phase) : option str :=
  match p with BusReady a | KeyringRuns a | Typed a | Serving a => Some a | _ => None end.

Lemma goes_address pw dh ev ev' p' : goes pw dh ev Idle ev' p' -> forall a, address_of p' = Some a -> announced ev' a.
Proof.
  induction 1 as [|ev' p' e p'' _ IH Hm]; [done|]. intros a Ha. destruct Hm; cbn in Ha; simplify_eq;
    try (eapply printed_more; [apply suffix_cons_r; done|by apply IH]).
  by exists ev0, line.
Qed.

(** What is connected to, and what is started. *)
Lemma goes_connects pw dh ev ev' p' : goes pw dh ev Idle ev' p' -> forall a, EvConnect a ∈ ev' -> EvConnect a ∈ ev \/ announced ev' a.
Proof.
  induction 1 as [|ev' p' e p'' Hg IH Hm]; [by left|]. intros a [Ha|Ha]%elem_of_cons.
  - right. eapply printed_more; [apply suffix_cons_r; done|]. destruct Hm; try done. subst e. apply bool_decide_eq_true in H as ->.
    by apply (goes_address _ _ _ _ _ Hg).
  - destruct (IH a Ha) as [|Hp]; [by left|right]. eapply printed_more; [apply suffix_cons_r; done|done].
Qed.

Lemma minimal_env_keys key : is_Some (minimal_env !! key) -> key ∈ lit "PATH" :: INHERITED.
Proof.
  unfold minimal_env. intros H. enough (key ∈ INHERITED \/ is_Some (({[lit "PATH" := VText (lit "/usr/bin:/bin")]} : gmap str env_value) !! key)) as [|Hp].
  { by apply elem_of_cons; right. }
  { apply elem_of_cons. left. apply lookup_singleton_is_Some in Hp. done. }
  revert H. generalize ({[lit "PATH" := VText (lit "/usr/bin:/bin")]} : gmap str env_value). generalize INHERITED.
  intros l. induction l as [|k l IH]; intros env H; [by right|]. cbn [fold_left] in H. apply IH in H as [H|H]; [left; by apply elem_of_cons; right|].
  destruct (pe_var k); [|by right]. destruct (decide (k = key)) as [->|Hne]; [left; by apply elem_of_cons; left|right]. by rewrite lookup_insert_ne in H.
Qed.

Lemma isolated_bus dh ev path : isolated dh ev BusChild (bus_command path).
Proof. exists minimal_env. split; [done|]. split; [|done]. intros key H. left. by apply minimal_env_keys. Qed.

Lemma isolated_keyring dh ev path a control : announced ev a -> isolated dh ev KeyringChild (keyring_command path a control dh).
Proof.
  intros Ha. eexists. split; [reflexivity|]. fold DBUS DATA_HOME. split.
  - intros key H. destruct (decide (key = DATA_HOME)) as [->|H1]; [right; split; [done|set_solver]|].
    destruct (decide (key = DBUS)) as [->|H2]; [right; split; [done|set_solver]|]. left. apply minimal_env_keys.
    rewrite lookup_insert_ne, !lookup_delete_is_Some, lookup_insert_ne in H by done. by destruct H as (_ & _ & H).
  - intros _. split; [by rewrite lookup_insert_eq|]. exists a. split; [|done].
    rewrite lookup_insert_ne, !lookup_delete_ne, lookup_insert_eq by done. done.
Qed.

Lemma isolated_more dh ev ev' c cmd : ev `suffix_of` ev' -> isolated dh ev c cmd -> isolated dh ev' c cmd.
Proof.
  intros Hs (env & He & Hk & Hc). exists env. split; [done|]. split; [done|]. intros Hcc. destruct (Hc Hcc) as (Hd & a & Ha & Hp).
  split; [done|]. exists a. split; [done|]. by eapply printed_more.
Qed.

Lemma goes_spawns pw dh ev ev' p' : goes pw dh ev Idle ev' p' ->
  forall c cmd b, EvSpawn c cmd b ∈ ev' -> EvSpawn c cmd b ∈ ev \/ isolated dh ev' c cmd.
Proof.
  induction 1 as [|ev' p' e p'' Hg IH Hm]; [by left|]. intros c cmd b [Hc|Hc]%elem_of_cons.
  - right. eapply isolated_more; [apply suffix_cons_r; done|]. pose proof (goes_address _ _ _ _ _ Hg) as Ha.
    destruct Hm; simplify_eq; try apply isolated_bus; try (apply isolated_keyring; by apply Ha).
  - destruct (IH c cmd b Hc) as [|Hi]; [by left|right]. eapply isolated_more; [apply suffix_cons_r; done|done].
Qed.
End consequences.

(** ** The wait ends *)

(** A sleep takes as long as it says, time does not go back, and what is asked
    without a time limit is answered. *)
Class PeersOk (PE : Peers) : Prop := {
  clock_sleeps ev : pe_clock ev + 100 <= pe_clock (EvSleep :: ev);
  clock_goes e ev : pe_clock ev <= pe_clock (e :: ev);
  connect_answers ev : is_Some (pe_connect ev);
  collections_answers ev : is_Some (pe_collections ev)
}.

Section waiting.
Context `{E : Env} `{SP : Paths} `{PE : Peers} `{U : Unicode} `{SN : SessionPrims} `{CO : !PeersOk PE}.

Lemma poll_ask_clock a proxy last m r m' : poll_ask a proxy last m = (r, m') -> pe_clock (mc_events m) <= pe_clock (mc_events m') /\ is_Some r.
Proof.
  intros Eq. split.
  - apply (poll_ask_run [] []) in Eq. apply goes_suffix in Eq as [l ->]. induction l as [|e l IH]; [done|]. etrans; [exact IH|]. apply clock_goes.
  - revert Eq. unfold poll_ask, poll_connect. cbn zeta. destruct (connect_answers (mc_events (note (EvConnect a) m))) as [x Hx]. rewrite Hx.
    intros Eq.
    destruct proxy; [|destruct x; [destruct (pe_proxy _)|]]; simplify_eq; try done;
      match goal with |- context [pe_collections ?ev] => destruct (collections_answers ev) as [[|] ->] end; done.
Qed.

Lemma poll_name_ends rounds k deadline proxy last m : deadline <= pe_clock (mc_events m) + 100 * (Z.of_nat rounds - 1) ->
  (rounds <> 0)%nat -> is_Some (poll_name rounds k deadline proxy last m).1.
Proof.
  revert proxy last m. induction rounds as [|rounds IH]; intros proxy last m Hd Hr; [done|]. cbn [poll_name]. cbn zeta.
  set (m0 := match pk_keyring k with Some _ => _ | None => m end).
  assert (H0 : pe_clock (mc_events m) <= pe_clock (mc_events m0)) by (unfold m0; destruct (pk_keyring k); [apply clock_goes|done]).
  destruct (pk_keyring k ≫= _); [done|]. destruct (poll_ask _ _ _ _) as [r1 m1] eqn:E1.
  apply poll_ask_clock in E1 as [E1 [[[ready proxy'] last'] ->]]. destruct ready; [done|]. destruct (Z.leb_spec deadline (pe_clock (mc_events m1))); [done|].
  pose proof (clock_sleeps (mc_events m1)). cbn [note mc_events] in *. destruct rounds as [|rounds]; [lia|]. apply IH; [cbn [note mc_events]; lia|done].
Qed.

Lemma await_name_ends rounds k m : (201 <= rounds)%nat -> is_Some (await_name rounds k m).1.
Proof. intros Hr. apply poll_name_ends; [unfold STARTUP_TIMEOUT; lia|lia]. Qed.

Lemma start_ends rounds pw dh m : (201 <= rounds)%nat -> is_Some (private_start rounds pw dh m).1.
Proof.
  intros Hr. unfold private_start. destruct (private_dir_create _) as [[control|e] w0]; [|done].
  destruct (act_bind _ _ _) as [r1 m1] eqn:E1. apply spawn_run in E1 as (path & [[-> _]|[[e ->] _]]); [|done].
  destruct (read_address _ m1) as [[[a|e] bus] m2]; [|done]. unfold start_keyring.
  destruct (act_bind _ _ m2) as [r3 m3] eqn:E3. apply spawn_run in E3 as (path' & [[-> _]|[[e ->] _]]); [|done].
  unfold begin_serving. destruct (feed_password _ _ _) as [[[[]|e] k] m4]; [|done]. destruct (await_name_ends rounds k m4 Hr) as [x Hx].
  destruct (await_name rounds k m4) as [r5 m5]. cbn in Hx. subst r5. by destruct x as [[]|].
Qed.

Lemma extract_gnome_ends rounds source c m : (201 <= rounds)%nat -> is_Some (extract_gnome rounds source c m).1.
Proof.
  intros Hr. unfold extract_gnome. destruct (secrets_bus_owner m) as [r1 m1] eqn:E1. apply secrets_bus_owner_looks in E1 as [_ [x ->]].
  destruct (owner_warning x) as [warning line]. destruct (snapshot_create _ _) as [[snapshot|e] w2]; [|done].
  unfold extract_snapshot. cbn zeta. destruct (pe_password _); [|done]. unfold extract_over_private_bus.
  match goal with |- context [private_start rounds ?pw ?dh ?m] => destruct (start_ends rounds pw dh m Hr) as [y Hy]; destruct (private_start rounds pw dh m) as [r3 m3] end.
  cbn in Hy. subst r3. destruct y as [k|e]; [|done]. unfold walk_private. cbn zeta.
  destruct (connect_answers (mc_events (note (EvConnect (pk_address k)) m3))) as [answer ->]. destruct answer; [|done]. match goal with |- context [Gnome.extract ?P ?o ?pair ?lg] => by destruct (Gnome.extract P o pair lg) as [[] ?] end.
Qed.
End waiting.

(** ** The whole extraction *)

Section whole.
Context `{E : Env} `{SP : Paths} `{PE : Peers} `{U : Unicode} `{SN : SessionPrims}.

Lemma private_dir_create_run w r w1 : private_dir_create w = (r, w1) ->
  match r with
  | Ok d => d = snapshot_dir w /\ fs w !! d = None /\ (exists m, Z.land m 63 = 0 /\ fs w1 = <[d := NDir m]> (fs w))
            /\ reaches (fun f => f = fs w \/ f = fs w1) w w1
  | Err _ => looks w w1
  end.
Proof.
  unfold private_dir_create, uuid. fold (snapshot_dir w). set (w0 := advance w (fs w)). set (d := snapshot_dir w).
  destruct (make_dir d 448 w0) as [r1 w2] eqn:E1. assert (L0 : looks w w0) by (by apply reaches_advance). unfold make_dir in E1.
  apply syscall_inv in E1 as [[-> [e ->]]|[-> ->]]; cbn [fs advance w0].
  { intros [= <- <-]. eapply looks_trans; [exact L0|by apply reaches_advance]. }
  destruct (fs w !! d) eqn:Ed; [intros [= <- <-]; eapply looks_trans; [exact L0|by apply reaches_advance]|].
  destruct (parent_is_dir (fs w) d); intros [= <- <-]; [|eapply looks_trans; [exact L0|by apply reaches_advance]].
  split; [done|]. split; [done|]. split; [eexists; split; [by apply (land_closed 448)|done]|].
  eapply reaches_trans; [eapply reaches_advance; by left|]. eapply reaches_advance. by right.
Qed.

Lemma used_dir_keeps (P : filesystem -> Prop) w w' : let d := snapshot_dir w in used_dir w w' -> P (fs w) ->
  (fs w !! d = None -> forall m, Z.land m 63 = 0 -> P (<[d := NDir m]> (fs w))) -> (forall f q, d `prefix_of` q -> P f -> P (delete q f)) ->
  reaches P w w'.
Proof.
  intros d [[e Hc]|(d' & w1 & w2 & Hc & L & ->)] Hw Hi Hdel; apply private_dir_create_run in Hc; [by apply looks_keeps|].
  destruct Hc as (-> & Hd & (m & Hm & Hf) & R1). fold d in Hd, Hf, R1 |- *. specialize (Hi Hd m Hm). rewrite <- Hf in Hi.
  eapply reaches_trans; [eapply reaches_impl; [|exact R1]; by intros f [->| ->]|]. eapply reaches_trans; [by apply looks_keeps|].
  unfold private_dir_drop. destruct (remove_dir_all d w2) as [r w3] eqn:E3. eapply (remove_dir_all_keeps P) in E3 as [R3 _]; [exact R3| |done].
  by rewrite (looks_fs _ _ L).
Qed.

(** Afterwards all is as it was, unless the removal failed. *)
Lemma used_dir_end w w' : let d := snapshot_dir w in used_dir w w' ->
  fs w' = fs w
  \/ (fs w !! d = None /\ (forall q, d `prefix_of` q -> fs w' !! q = None) /\ forall q, ~ d `prefix_of` q -> fs w' !! q = fs w !! q)
  \/ exists w1 e, remove_dir_all d w1 = (Err e, w').
Proof.
  intros d [[e Hc]|(d' & w1 & w2 & Hc & L & ->)]; apply private_dir_create_run in Hc; [left; by apply looks_fs|].
  destruct Hc as (-> & Hd & (m & Hm & Hf) & _). fold d in Hd, Hf |- *. right. unfold private_dir_drop.
  destruct (remove_dir_all d w2) as [[[]|e] w3] eqn:E3; [left|right; eauto]. cbn.
  apply (remove_dir_all_keeps (agree (fun q => d `prefix_of` q) (fs w))) in E3 as [R3 H3].
  - split; [done|]. split; [by apply H3|]. intros q Hq. by apply (reaches_end _ _ _ R3).
  - intros q Hq. rewrite (looks_fs _ _ L), Hf. apply lookup_insert_ne. by intros <-.
  - intros f q Hq Hagree q' Hq'. rewrite lookup_delete_ne by (by intros ->). by apply Hagree.
Qed.

(** Before the password is asked for. *)
Definition preliminary (e : event) : bool :=
  match e with EvPrint _ | EvSpawn Helper _ _ | EvOutput | EvDrop Helper => true | _ => false end.

Definition prepares (ev ev' : events) : Prop :=
  (exists l, ev' = l ++ ev /\ Forall (fun e => preliminary e = true) l) /\ ((forall c, child_held c ev = false) -> forall c, child_held c ev' = false).

Lemma prepares_trans a b c : prepares a b -> prepares b c -> prepares a c.
Proof.
  intros [(l & -> & Hl) H1] [(l' & -> & Hl') H2]. split; [|by auto]. exists (l' ++ l). split; [by rewrite app_assoc|by apply Forall_app].
Qed.

Lemma prepares_refl ev : prepares ev ev.
Proof. split; [by exists []|done]. Qed.

Lemma prepares_print ev line : prepares ev (EvPrint line :: ev).
Proof. split; [by exists [EvPrint line]; split; [done|repeat constructor]|done]. Qed.

Lemma run_capture_prepares program args m r m' : run_capture program args m = (r, m') -> prepares (mc_events m) (mc_events m').
Proof.
  unfold run_capture, act_bind. destruct (resolve_program program m) as [r1 m1] eqn:E1. apply resolve_program_run in E1 as (path & -> & <-).
  unfold spawn. destruct (pe_spawn _).
  - intros [= <- <-]. split; [|done]. eexists [_]. split; [done|by repeat constructor].
  - cbn. unfold fails, done. intros Eq. assert (m' = note (EvDrop Helper) (note EvOutput (note (EvSpawn Helper {| cm_program := path; cm_args := args; cm_env := None |} true) m1))) as ->
      by (destruct (pe_output _) as [[]| |]; by simplify_eq/=).
    split; [eexists [_; _; _]; split; [done|by repeat constructor]|]. intros Hc c. cbn. rewrite Hc. by destruct c.
Qed.

Lemma secrets_bus_owner_prepares m r m' : secrets_bus_owner m = (r, m') -> prepares (mc_events m) (mc_events m').
Proof.
  unfold secrets_bus_owner, act_bind. destruct (run_capture _ _ m) as [r1 m1] eqn:E1. apply run_capture_prepares in E1 as P1.
  destruct r1 as [[status|e]|]; [|by intros [= <- <-]..]. destruct (status ≫= _); [|by intros [= <- <-]].
  destruct (run_capture _ _ m1) as [r2 m2] eqn:E2. apply run_capture_prepares in E2 as P2. pose proof (prepares_trans _ _ _ P1 P2).
  destruct r2 as [[]|]; by intros [= <- <-].
Qed.

(** How an extraction goes: prepared, asked, served. *)
Lemma extract_gnome_run rounds source c m r m' : extract_gnome rounds source c m = (Some r, m') ->
  exists w1 ev1, looks (mc_world m) w1 /\ prepares (mc_events m) ev1 /\
    match snapshot_create source w1 with
    | (Err _, w2) => mc_world m' = w2 /\ mc_events m' = ev1
    | (Ok d, w2) =>
      exists w3, mc_world m' = private_dir_drop d w3
        /\ match pe_password (EvAskPassword :: ev1) with
           | Err _ => mc_events m' = EvAskPassword :: ev1 /\ w3 = w2
           | Ok pw => used_dir w2 w3 /\ exists p, ended p /\ goes (utf8 pw) d (EvAskPassword :: ev1) Idle (mc_events m') p
           end
    end.
Proof.
  unfold extract_gnome. destruct (secrets_bus_owner m) as [owner m1] eqn:E1. apply secrets_bus_owner_prepares in E1 as P1.
  apply secrets_bus_owner_looks in E1 as [L1 [x ->]]. destruct (owner_warning x) as [warning line]. cbn zeta.
  set (m2 := match line with Some l => note (EvPrint l) m1 | None => m1 end).
  assert (mc_world m2 = mc_world m1 /\ prepares (mc_events m) (mc_events m2)) as [W2 P2].
  { unfold m2. destruct line; [|done]. split; [done|]. eapply prepares_trans; [exact P1|apply prepares_print]. }
  intros Eq. exists (mc_world m2), (mc_events m2). split; [by rewrite W2|]. split; [done|].
  destruct (snapshot_create source (mc_world m2)) as [[d|e] w2]; [|by simplify_eq/=].
  unfold extract_snapshot in Eq. cbn [note mc_events mc_world] in Eq. destruct (pe_password (EvAskPassword :: mc_events m2)) as [pw|e]; [|simplify_eq/=; by exists w2].
  destruct (extract_over_private_bus _ _ _ _ _) as [[r3|] m3] eqn:E3; [|done].
  apply extract_over_private_bus_world in E3 as W3. apply extract_over_private_bus_run in E3 as G3. cbn [mc_world mc_events] in W3, G3.
  exists (mc_world m3). destruct r3; simplify_eq/=; done.
Qed.
End whole.

Section verdict.
Context `{E : Env} `{SP : Paths} `{PE : Peers} `{U : Unicode} `{SN : SessionPrims}.

Lemma kept_but_insert d1 d2 f0 f q n : d1 `prefix_of` q \/ d2 `prefix_of` q -> closed n -> kept_but d1 d2 f0 f -> kept_but d1 d2 f0 (<[q := n]> f).
Proof.
  intros Hq Hn Hf q'. destruct (decide (q = q')) as [<-|Hne]; [right|rewrite lookup_insert_ne by done; by apply Hf].
  rewrite lookup_insert_eq. split; [done|]. by intros n' [= <-].
Qed.

Lemma kept_but_delete d1 d2 f0 f q : d1 `prefix_of` q \/ d2 `prefix_of` q -> kept_but d1 d2 f0 f -> kept_but d1 d2 f0 (delete q f).
Proof.
  intros Hq Hf q'. destruct (decide (q = q')) as [<-|Hne]; [right|rewrite lookup_delete_ne by done; by apply Hf].
  by rewrite lookup_delete_eq.
Qed.

Lemma kept_or_private_but d1 d2 f0 f : kept_or_private d1 f0 f -> kept_but d1 d2 f0 f.
Proof. intros Hf q. destruct (Hf q) as [|[]]; auto. Qed.

(** Two private directories are the same or apart. *)
Lemma snapshot_dirs_apart w w' q : snapshot_dir w `prefix_of` q -> snapshot_dir w' `prefix_of` q -> snapshot_dir w = snapshot_dir w'.
Proof.
  intros [k ->] [k' Hk]. apply (app_inj_1 _ _ _ _) in Hk as [Hk _]; [done|]. unfold snapshot_dir, path_join. rewrite !length_app. cbn. lia.
Qed.

(** A removal of a private directory failed. *)
Definition removal_failed (d1 d2 : fpath) : Prop := exists d w1 e w2, (d = d1 \/ d = d2) /\ remove_dir_all d w1 = (Err e, w2).

(** The copy made, another directory used, the copy dropped. *)
Lemma whole_files source w d w2 w3 : rooted (fs w) -> is_dir (fs w) source = true -> snapshot_create source w = (Ok d, w2) ->
  w3 = w2 \/ used_dir w2 w3 ->
  let d2 := snapshot_dir w2 in let w' := private_dir_drop d w3 in
  reaches (kept_but d d2 (fs w)) w w' /\ (fs w' = fs w \/ removal_failed d d2).
Proof.
  intros Hroot Hsrc Hc Hu d2 w'. pose proof (snapshot_create_spec source w Hroot Hsrc) as Hspec. rewrite Hc in Hspec. cbn zeta in Hspec.
  destruct Hspec as (R1 & -> & Hd & _). set (d1 := snapshot_dir w) in *. assert (Hd0 : d1 <> []) by (unfold d1, snapshot_dir, path_join; by destruct sp_temp).
  apply (reaches_impl _ (kept_but d1 d2 (fs w))) in R1; [|intros f; apply kept_or_private_but]. pose proof (reaches_end _ _ _ R1) as K2. cbn beta in K2.
  assert (R2 : reaches (kept_but d1 d2 (fs w)) w2 w3).
  { destruct Hu as [->|Hu]; [by apply reaches_refl|]. apply used_dir_keeps; [done|done| |].
    - intros _ m Hm. apply kept_but_insert; [by right|done|done].
    - intros f q Hq. apply kept_but_delete. by right. }
  unfold w', private_dir_drop. destruct (remove_dir_all d1 w3) as [r w4] eqn:E4. cbn. pose proof E4 as E4'.
  apply (remove_dir_all_keeps (kept_but d1 d2 (fs w))) in E4 as [R4 H4]; [|by apply (reaches_end _ _ _ R2)|intros f q Hq; apply kept_but_delete; by left].
  split; [eapply reaches_trans; [exact R1|by eapply reaches_trans]|]. destruct r as [[]|e]; [|right; exists d1, w3, e, w4; auto].
  assert (Hend : (forall q, ~ d1 `prefix_of` q -> d2 `prefix_of` q -> fs w3 !! q = fs w !! q) \/ removal_failed d1 d2).
  { assert (Hsame : forall q, ~ d1 `prefix_of` q -> d2 `prefix_of` q -> fs w2 !! q = fs w !! q).
    { intros q Hq1 Hq2. clear -Hq1 Hc Hroot Hsrc. pose proof (snapshot_create_spec source w Hroot Hsrc) as Hs. rewrite Hc in Hs. cbn zeta in Hs. destruct Hs as [R _].
      destruct (reaches_end _ _ _ R q) as [|[? _]]; done. }
    destruct Hu as [->|Hu]; [by left|]. destruct (used_dir_end _ _ Hu) as [->|[(Hn & Hg & _)|(wx & ex & Hx)]]; [by left| |right; exists d2, wx, ex, w3; auto].
    left. intros q Hq1 Hq2. rewrite Hg by done. symmetry. fold d2 in Hn. apply (rooted_below (fs w) d2); [done|unfold d2, snapshot_dir, path_join; by destruct sp_temp| |done].
    rewrite <- Hsame; [done| |done]. intros Hp. apply Hq1. unfold d1. by rewrite <- (snapshot_dirs_apart w2 w d2 ltac:(done) Hp). }
  destruct Hend as [Hend|]; [left|by right]. apply map_eq. intros q. destruct (decide (d1 `prefix_of` q)) as [Hq|Hq].
  { rewrite (H4 eq_refl q Hq). symmetry. by apply (rooted_below (fs w) d1). }
  apply (remove_dir_all_keeps (agree (fun q => d1 `prefix_of` q) (fs w3))) in E4' as [R5 _]; [|done|].
  2: { intros f q' Hq' Hf q'' Hq''. rewrite lookup_delete_ne by (by intros ->). by apply Hf. }
  rewrite (reaches_end _ _ _ R5 q Hq). destruct (decide (d2 `prefix_of` q)) as [Hq2|Hq2]; [by apply Hend|].
  destruct (reaches_end _ _ _ R2 q) as [|[[|] _]]; done.
Qed.

Lemma typed_preliminary l : Forall (fun e => preliminary e = true) l -> typed_text l = [].
Proof. induction 1 as [|e l He _ IH]; [done|]. unfold typed_text in *. cbn. rewrite IH. by destruct e. Qed.

Lemma preliminary_only l e : Forall (fun e => preliminary e = true) l -> e ∈ l -> preliminary e = true.
Proof. rewrite Forall_forall. auto. Qed.
End verdict.


(** *** A run *)

Definition sample_peers : Peers := {|
  pe_var key := if str_eqb key (lit "HOME") then Some (lit "/home/u") else None;
  pe_spawn _ := None; pe_output _ := InTime (false, []); pe_line _ := InTime (lit "unix:path=/tmp/bus" ++ [10]);
  pe_write _ := InTime tt; pe_exited _ := None; pe_connect _ := Some (Ok tt); pe_proxy _ := Ok tt;
  pe_collections ev := if (3 <=? length ev)%nat then Some (Ok tt) else Some (Err []); pe_clock ev := 100 * Z.of_nat (length ev);
  pe_stderr _ := []; pe_password _ := Ok (lit "pw"); pe_pair _ := {| private := 1; public := [] |}; pe_provider _ := sample_gnome |}.

#[export] Instance sample_peers_ok : PeersOk sample_peers.
Proof. split; intros; cbn [pe_clock pe_connect pe_collections sample_peers length]; [lia|lia|done|by case_match]. Qed.

Definition sample_paths : Paths := {| sp_temp := [lit "tmp"]; sp_display p := concat (map (fun n => 47 :: n) p); sp_io_text _ := lit "failed" |}.

Definition private_disk : host :=
  Machine (World {[ [lit "tmp"] := NDir 1023; [lit "keyrings"] := NDir 448; [lit "keyrings"; lit "login.keyring"] := NFile [x01; x02] 384 None ]} 0 []) [].

Lemma sample_disk_rooted : rooted (fs (mc_world private_disk)).
Proof.
  intros p n Hp. cbn in Hp. repeat (apply lookup_insert_Some in Hp as [[<- _]|[_ Hp]]; [by vm_compute|]). apply lookup_singleton_Some in Hp as [<- _]. by vm_compute.
Qed.

Definition private_run : option (result Extracted CliError) * host :=
  @extract_gnome sample_env sample_paths sample_peers sample_unicode sample_session 201 [lit "keyrings"] (lit "Login") private_disk.

Lemma private_run_ok : match private_run with
  | (Some (Ok _), m') => typed_text (mc_events m') = [utf8 (lit "pw") ++ [x0a]] /\ below (fs (mc_world m')) [lit "tmp"] = [[lit "tmp"]]
  | _ => False
  end.
Proof. vm_compute. by split. Qed.


(** ** A keyring that never answers *)

Definition silent_peers : Peers := {|
  pe_var _ := None; pe_spawn _ := None; pe_output _ := InTime (false, []); pe_line _ := InTime (lit "unix:path=/tmp/bus" ++ [10]);
  pe_write _ := InTime tt; pe_exited _ := None; pe_connect _ := Some (Ok tt); pe_proxy _ := Ok tt;
  pe_collections _ := None; pe_clock ev := 100 * Z.of_nat (length ev);
  pe_stderr _ := []; pe_password _ := Ok (lit "pw"); pe_pair _ := {| private := 1; public := [] |}; pe_provider _ := sample_gnome |}.

(** [STARTUP_TIMEOUT] is looked at between questions only: a gnome-keyring that
    takes the question and does not answer it holds the import for good. *)
Theorem silent_keyring_hangs rounds :
  (@extract_gnome sample_env sample_paths silent_peers sample_unicode sample_session rounds [lit "keyrings"] (lit "Login") private_disk).1 = None.
Proof. destruct rounds; vm_compute; reflexivity. Qed.

(** ** What is kept of the standard error *)

(** An invalid byte becomes three. *)
Class LossyOk (U : Unicode) : Prop := lossy_len b : str_len (from_utf8_lossy b) <= 3 * zlen b.

(** The text kept is bounded, but not by the limit: the limit is on the bytes
    read, and a read is at most a kilobyte. *)
Theorem drain_bounded (U : Unicode) (LO : LossyOk U) reads : Forall (fun r => match r with Ok chunk => zlen chunk <= 1024 | Err _ => True end) reads ->
  str_len (drain reads []).1 <= STDERR_CAPTURE_LIMIT + 2 * 1024.
Proof.
  intros Hr. enough (forall kept, str_len kept <= STDERR_CAPTURE_LIMIT + 2 * 1024 -> str_len (drain reads kept).1 <= STDERR_CAPTURE_LIMIT + 2 * 1024) as H.
  { by apply H. }
  induction Hr as [|[[|b chunk]|e] reads Hc _ IH]; intros kept Hh; [done..| |done]. cbn [drain]. destruct (Z.leb_spec STDERR_CAPTURE_LIMIT (str_len kept)); [by apply IH|].
  apply IH. rewrite str_len_app. pose proof (lossy_len (take (Z.to_nat (STDERR_CAPTURE_LIMIT - str_len kept)) (b :: chunk))) as Hl.
  assert (zlen (take (Z.to_nat (STDERR_CAPTURE_LIMIT - str_len kept)) (b :: chunk)) <= Z.min (STDERR_CAPTURE_LIMIT - str_len kept) 1024).
  { unfold zlen in *. rewrite length_take. lia. }
  lia.
Qed.

(** And it gets there. *)
Example drain_exceeds : exists U : Unicode, str_len (drain (repeat (Ok (repeat xff 1024)) 2) []).1 = STDERR_CAPTURE_LIMIT + 2 * 1024.
Proof. exists {| upper_char c := [c]; from_utf8_lossy b := map (fun _ => 65533) b |}. vm_compute. done. Qed.

(** What is imported is what the walk over the private bus gave, as
    [extracted_gnome] renders it. *)
Theorem extract_gnome_from_walk (E : Env) (SP : Paths) (PE : Peers) (U : Unicode) (SN : SessionPrims) rounds source c m x m' :
  extract_gnome rounds source c m = (Some (Ok x), m') ->
  exists warning P pair walked lg, Gnome.extract P (gnome_options c) pair [] = (Ok walked, lg) /\ EvWalk lg ∈ mc_events m' /\ x = extracted_gnome c warning walked.
Proof.
  unfold extract_gnome. destruct (secrets_bus_owner m) as [[owner|] m1]; [|done]. destruct (owner_warning owner) as [warning line]. cbn zeta.
  destruct (snapshot_create _ _) as [[d|e] w2]; [|done]. unfold extract_snapshot. cbn zeta. destruct (pe_password _) as [pw|e]; [|done].
  unfold extract_over_private_bus. destruct (private_start _ _ _ _) as [[[k|e]|] m3]; [|done..]. unfold walk_private. cbn zeta.
  destruct (pe_connect _) as [[]|]; [|done..]. match goal with |- context [Gnome.extract ?P ?o ?pair ?lg] => destruct (Gnome.extract P o pair lg) as [[walked|e] lg'] eqn:Ex end; [|done].
  intros [= <- <-]. eexists warning, _, _, walked, lg'. split; [exact Ex|]. split; [|done].
  cbn. destruct (pk_bus k), (pk_keyring k); cbn; set_solver.
Qed.
