(* ===== verification/Wallet.v ===== *)
(** * Opening and closing a wallet (the D-Bus half of [src/import/kwallet.rs], and
      [extract_kwallet] of [src/cli/import.rs])

    A wallet is opened in kwalletd, read and closed again.  The daemon may answer
    anything, late or not at all: its answers are functions of what it has been
    asked so far.  Then that only a wallet opened for this program is read, that
    it is closed however the walk ends, and what a late opening meets. *)
From S2P Require Import Prelude Text Sanitize Env Files Sweep Crypto Codec Import Formats Verify KWallet Walk WalkProps Gnome ImportRun Snapshot.

Definition SERVICE : str := lit "org.kde.kwalletd6".
Definition APP_ID : str := lit "secret-manager-import".
Definition DEFAULT_OPEN_TIMEOUT : Z := 120.
Definition DEFAULT_CALL_TIMEOUT : Z := 60.
Definition DEFAULT_CLOSE_TIMEOUT : Z := 10.
Definition MAX_SIDECAR_BYTES : Z := Z.shiftl 16 20.

(** ** The daemon *)

(** What [next] on the stream of [walletAsyncOpened] gives before a deadline. *)
Inductive opened_signal : Type :=
| SgExpired
| SgEnded
| SgMalformed (e : str)
| SgOpened (tid handle : Z).

Inductive wallet_request : Type :=
| WProxy (name : str)
| WHasOwner
| WWallets
| WIsOpen (wallet : str)
| WSubscribe
| WOpenAsync (wallet : str)
| WNext                               (** the next signal *)
| WGrace (tid : Z)                    (** a task that waits on for it *)
| WWalk (handle : Z)
| WClose (handle : Z)
| WWarn (line : str).

(** The requests so far, newest first. *)
Abbreviation wlog := (list wallet_request).

(** The answers, to a log that ends with the request; the reads of a walk are
    answered on their own. *)
Class KWalletd : Type := {
  kw_var : str -> option str;
  kw_session : option str;                                     (** why there is no session bus *)
  kw_unit : wlog -> reply unit;
  kw_flag : wlog -> reply bool;
  kw_wallets : wlog -> reply (list str);
  kw_tid : wlog -> reply Z;
  kw_signal : wlog -> opened_signal;
  kw_close : wlog -> reply Z;
  kw_folder_list : wlog -> Z -> reply (list str);
  kw_entry_list : wlog -> Z -> nat -> str -> reply (list str);
  kw_entry_type : wlog -> Z -> str -> str -> reply Z;
  kw_read_password : wlog -> Z -> str -> str -> reply str;
  kw_read_map : wlog -> Z -> str -> str -> reply bytes;
  kw_read_entry : wlog -> Z -> str -> str -> reply bytes
}.

(** Formatting the code does not spell out, and serde_json. *)
Class WalletText : Type := {
  wt_debug : str -> str;
  wt_path : fpath -> str;
  wt_io : io_error -> str;
  wt_json : str -> result SidecarRoot str
}.

(** [KWalletError]; the walk's own are [OfWalk]. *)
Inductive WalletError : Type :=
| ServiceUnavailable
| NoSuchWallet (wallet : str)
| InvalidWalletName (wallet : str)
| NoDisplay (wallet : str)
| OpenRefused (wallet : str) (code : Z)
| OpenTimedOut (wallet : str) (timeout : Z)
| BusCallTimedOut (call : str)
| BusCallFailed (e : str)
| BusRefused (e : str)
| OfWalk (e : KWalletError).

Section wallet.
Context `{HP : Prims} `{JT : JsonText} `{KW : KWalletd} `{WT : WalletText}.

Abbreviation calls A := (wlog -> result A WalletError * wlog).

(** [bounded]. *)
Definition bounded {A} (call : str) (q : wallet_request) (f : wlog -> reply A) : calls A := fun lg =>
  let lg := q :: lg in
  (match f lg with
   | Answer a => Ok a
   | Fails e => Err (BusCallFailed (bf_text e))
   | Silent => Err (BusCallTimedOut call)
   end, lg).

Definition has_display : bool :=
  existsb (fun v => match kw_var v with Some (_ :: _) => true | _ => false end) [lit "WAYLAND_DISPLAY"; lit "DISPLAY"].

Definition service_is_running : calls bool := fun lg =>
  do? _, lg <- bounded (lit "DBusProxy::new") (WProxy (lit "DBusProxy::new")) kw_unit lg;
  let lg := WHasOwner :: lg in
  (match kw_flag lg with
   | Answer b => Ok b
   | Fails e => Err (BusRefused (bf_text e))
   | Silent => Err (BusCallTimedOut (lit "NameHasOwner"))
   end, lg).

(** ** Opening *)

(** The wait of [open_wallet]; [None] while others' signals use up the rounds. *)
Fixpoint await_opened (rounds : nat) (wallet : str) (timeout tid : Z) (lg : wlog) : option (result Z WalletError) * wlog :=
  match rounds with
  | O => (None, lg)
  | S rounds =>
    let lg := WNext :: lg in
    match kw_signal lg with
    | SgExpired => (Some (Err (OpenTimedOut wallet timeout)), WGrace tid :: lg)
    | SgEnded => (Some (Err (OpenTimedOut wallet timeout)), lg)
    | SgMalformed e => (Some (Err (BusCallFailed e)), lg)
    | SgOpened t handle =>
      if negb (t =? tid) then await_opened rounds wallet timeout tid lg
      else if handle <? 0 then (Some (Err (OpenRefused wallet handle)), lg)
      else (Some (Ok handle), lg)
    end
  end.

(** Up to the transaction. *)
Definition request_open (wallet : str) : calls Z := fun lg =>
  do? _, lg <- bounded (lit "KWalletProxy::new") (WProxy (lit "KWalletProxy::new")) kw_unit lg;
  do? already_open, lg <- bounded (lit "isOpen") (WIsOpen wallet) kw_flag lg;
  if negb already_open && negb has_display then (Err (NoDisplay wallet), lg)
  else
    do? _, lg <- bounded (lit "AddMatch(walletAsyncOpened)") WSubscribe kw_unit lg;
    do? tid, lg <- bounded (lit "openAsync") (WOpenAsync wallet) kw_tid lg;
    if tid <? 0 then (Err (OpenRefused wallet tid), lg) else (Ok tid, lg).

Definition open_wallet (rounds : nat) (wallet : str) (timeout : Z) (lg : wlog) : option (result Z WalletError) * wlog :=
  match request_open wallet lg with
  | (Err e, lg) => (Some (Err e), lg)
  | (Ok tid, lg) => await_opened rounds wallet timeout tid lg
  end.

(** [spawn_open_grace]: what the task does with the signals it hears. *)
Fixpoint open_grace (tid : Z) (signals : list opened_signal) : option Z :=
  match signals with
  | [] | SgExpired :: _ | SgEnded :: _ => None
  | SgMalformed _ :: signals => open_grace tid signals
  | SgOpened t handle :: signals =>
    if negb (t =? tid) then open_grace tid signals else if 0 <=? handle then Some handle else None
  end.

(** ** Reading and closing *)

(** [DbusReader::call]. *)
Definition read_call {A} (call : str) (r : reply A) : result A ReadError :=
  match r with
  | Answer v => Ok v
  | Fails e => Err (RFailed (bf_text e))
  | Silent => Err (RTimedOut call)
  end.

Definition dbus_reader (lg : wlog) (handle : Z) : WalletReader := {|
  folder_list := read_call (lit "folderList") (kw_folder_list lg handle);
  entry_list i folder := read_call (lit "entryList") (kw_entry_list lg handle i folder);
  entry_type folder entry := read_call (lit "entryType") (kw_entry_type lg handle folder entry);
  read_password folder entry := read_call (lit "readPassword") (kw_read_password lg handle folder entry);
  read_map folder entry := read_call (lit "readMap") (kw_read_map lg handle folder entry);
  read_entry folder entry := read_call (lit "readEntry") (kw_read_entry lg handle folder entry)
|}.

Definition add_note (x : Extraction) (note : str) : Extraction := {|
  ex_items := ex_items x; ex_refused := ex_refused x; ex_skipped := ex_skipped x; ex_empty_folders := ex_empty_folders x;
  entries_without_sidecar := entries_without_sidecar x; unresolved_sidecar_rows := unresolved_sidecar_rows x;
  ambiguous_sidecar_keys := ambiguous_sidecar_keys x; skipped_sidecar_rows := skipped_sidecar_rows x;
  duplicate_sidecar_keys := duplicate_sidecar_keys x; malformed_sidecar_fields := malformed_sidecar_fields x;
  password_read_fallbacks := password_read_fallbacks x; map_read_fallbacks := map_read_fallbacks x;
  attribute_conflicts := attribute_conflicts x; unreadable_folders := unreadable_folders x;
  duplicate_folders := duplicate_folders x; duplicate_entries := duplicate_entries x; ex_notes := ex_notes x ++ [note] |}.

(** What is said of a wallet that could not be closed. *)
Definition close_note (wallet : str) (raw : Z) (r : reply Z) : option str :=
  match r with
  | Answer _ => None
  | Fails e => Some (lit "the wallet '" ++ wallet ++ lit "' (handle " ++ dec raw ++ lit ") could not be closed (" ++ bf_text e
                     ++ lit "); it may still be held open by secret-manager-import")
  | Silent => Some (lit "closing the wallet '" ++ wallet ++ lit "' (handle " ++ dec raw ++ lit ") timed out after "
                    ++ secs DEFAULT_CLOSE_TIMEOUT ++ lit "; it may still be held open by secret-manager-import")
  end.

Definition walk_and_close (wallet : str) (sidecar : Sidecar) (handle : Z) (lg : wlog) : result Extraction WalletError * wlog :=
  let lg := WWalk handle :: lg in
  let walked := map_err OfWalk (walk (dbus_reader lg handle) wallet sidecar) in
  let lg := WClose handle :: lg in
  match close_note wallet handle (kw_close lg) with
  | None => (walked, lg)
  | Some note => (match walked with Ok x => Ok (add_note x note) | Err e => Err e end, WWarn (lit "warning: " ++ note) :: lg)
  end.

(** Up to the opening. *)
Definition find_wallet (wallet : str) : calls unit := fun lg =>
  if negb (wallet_name_is_usable wallet) then (Err (InvalidWalletName wallet), lg)
  else
    do? running, lg <- service_is_running lg;
    if negb running then (Err ServiceUnavailable, lg)
    else
      do? _, lg <- bounded (lit "KWalletProxy::new") (WProxy (lit "KWalletProxy::new")) kw_unit lg;
      do? wallets, lg <- bounded (lit "wallets") WWallets kw_wallets lg;
      if existsb (str_eqb wallet) wallets then (Ok tt, lg) else (Err (NoSuchWallet wallet), lg).

(** [kwallet::extract]. *)
Definition extract_wallet (rounds : nat) (wallet : str) (sidecar : Sidecar) (open_timeout : Z) (lg : wlog)
  : option (result Extraction WalletError) * wlog :=
  match find_wallet wallet lg with
  | (Err e, lg) => (Some (Err e), lg)
  | (Ok _, lg) =>
    match open_wallet rounds wallet open_timeout lg with
    | (None, lg) => (None, lg)
    | (Some (Err e), lg) => (Some (Err e), lg)
    | (Some (Ok handle), lg) => let '(x, lg) := walk_and_close wallet sidecar handle lg in (Some x, lg)
    end
  end.

(** ** The command *)

Inductive LoadError : Type :=
| LoadIo (p : fpath) (e : io_error)
| LoadTooLarge (p : fpath) (len limit : Z)
| LoadJson (p : fpath) (e : str)
| LoadParse (p : fpath) (e : SidecarError).

Definition load_error_text (e : LoadError) : str :=
  match e with
  | LoadIo p e => lit "cannot read the KWallet attribute sidecar " ++ wt_path p ++ lit ": " ++ wt_io e
  | LoadTooLarge p len limit => lit "the KWallet attribute sidecar " ++ wt_path p ++ lit " is " ++ dec len ++ lit " bytes, over the " ++ dec limit ++ lit " byte limit"
  | LoadJson p e => lit "the KWallet attribute sidecar " ++ wt_path p ++ lit " is not valid JSON: " ++ e
  | LoadParse p SNotAnObject => lit "the KWallet attribute sidecar " ++ wt_path p ++ lit " is not a JSON object"
  | LoadParse p (STooManyRows rows) =>
    lit "the KWallet attribute sidecar " ++ wt_path p ++ lit " declares " ++ dec rows ++ lit " rows, over the " ++ dec MAX_SIDECAR_ROWS ++ lit " limit"
  end.

(** [Sidecar::load_with_limit]: an open file keeps its contents. *)
Definition load_with_limit `{Env} (p : fpath) (limit : Z) (w : world) : result Sidecar LoadError * world :=
  match read_file p w with
  | (Err e, w) => (match io_kind e with NotFound => Ok sidecar_empty | _ => Err (LoadIo p e) end, w)
  | (Ok data, w) =>
    do? len, w <- with_err (LoadIo p) (syscall (fun f => (Ok (zlen data), f)) w);
    if limit <? len then (Err (LoadTooLarge p len limit), w)
    else
      do? text, w <- with_err (LoadIo p) (syscall (fun f => (match from_utf8 (read_at_most (limit + 1) data) with
                                                             | Some t => Ok t
                                                             | None => Err (IoError InvalidData None)
                                                             end, f)) w);
      if limit <? str_len text then (Err (LoadTooLarge p (str_len text) limit), w)
      else match wt_json text with
           | Err e => (Err (LoadJson p e), w)
           | Ok root => (map_err (LoadParse p) (sidecar_parse root), w)
           end
  end.

(** [sidecar_path], in the directory [kwalletd_dir] names; the empty path is no
    file. *)
Definition sidecar_path (kwalletd_dir : fpath) (wallet : str) : fpath :=
  if negb (wallet_name_is_usable wallet) then [] else path_join kwalletd_dir (wallet ++ lit "_attributes.json").

(** [Display for KWalletError]. *)
Definition wallet_error_text (e : WalletError) : str :=
  match e with
  | ServiceUnavailable => lit "kwalletd6 does not own " ++ SERVICE ++ lit " on the session bus; KWallet is not running, so there is nothing to import from"
  | NoSuchWallet wallet => lit "KWallet has no wallet named " ++ wallet
  | InvalidWalletName wallet =>
    wt_debug wallet ++ lit " is not a usable KWallet wallet name: a name may not be empty, be " ++ [34; 46; 34] ++ lit " or " ++ [34; 46; 46; 34]
    ++ lit ", or contain " ++ [34; 47; 34] ++ lit " or a NUL byte"
  | NoDisplay wallet =>
    lit "the wallet " ++ wallet ++ lit " is closed and there is no display for KWallet's unlock dialog (neither DISPLAY nor WAYLAND_DISPLAY is set). The dialog is a Qt widget and cannot appear over a bare SSH session: open the wallet in a graphical session first, or run the import there"
  | OpenRefused wallet code => lit "KWallet refused to open the wallet " ++ wallet ++ lit " (returned " ++ dec code ++ lit ")"
  | OpenTimedOut wallet timeout =>
    lit "KWallet did not open the wallet " ++ wallet ++ lit " within " ++ secs timeout
    ++ lit ": the unlock dialog is probably waiting for an answer nobody can give. The request was not cancelled " ++ [8212]
    ++ lit " kwalletd may still open the wallet if the dialog is answered, in which case it will be held by " ++ [34] ++ APP_ID ++ [34]
    ++ lit "; check KWallet's own configuration and close it there if so"
  | BusCallTimedOut call | OfWalk (CallTimedOut call) =>
    lit "KWallet did not answer " ++ call ++ lit " within " ++ secs DEFAULT_CALL_TIMEOUT ++ lit "; kwalletd may be waiting on a prompt nobody can see"
  | BusCallFailed e | OfWalk (KDbus e) => lit "KWallet D-Bus call failed: " ++ e
  | BusRefused e => lit "the session bus refused a request: " ++ e
  | OfWalk TooManyEntries => lit "the walk produced more than " ++ dec MAX_ENTRIES ++ lit " entries, which is not a wallet"
  | OfWalk TooManySecretBytes => lit "the walk's entries hold more than " ++ dec MAX_SECRET_BYTES ++ lit " bytes of secrets in total, which is not a wallet"
  end.

Definition wallet_cli_error (e : WalletError) : CliError :=
  let text := WText (escape_control (wallet_error_text e)) in
  match e with
  | ServiceUnavailable => CUnreachable text
  | NoSuchWallet _ => CNotFound text
  | _ => CFailed text
  end.

Definition sidecar_note (p : fpath) (e : LoadError) : str :=
  escape_control (wt_path p) ++ lit " could not be read (" ++ escape_control (load_error_text e)
  ++ lit "), so no attributes, content types or timestamps are available and every entry will be preserved-only.".

Definition extract_kwallet `{Env} (rounds : nat) (kwalletd_dir : fpath) (wallet : str) (w : world) (lg : wlog)
  : option (result Extracted CliError) * world * wlog :=
  match kw_session with
  | Some e => (Some (Err (CUnreachable (WText (lit "cannot connect to the session bus: " ++ e)))), w, lg)
  | None =>
    let p := sidecar_path kwalletd_dir wallet in
    let '(loaded, w) := load_with_limit p MAX_SIDECAR_BYTES w in
    let '(sidecar, notes) := match loaded with Ok s => (s, []) | Err e => (sidecar_empty, [sidecar_note p e]) end in
    let lg := map (fun n => WWarn (lit "warning: " ++ n)) notes ++ lg in
    let '(r, lg) := extract_wallet rounds wallet sidecar DEFAULT_OPEN_TIMEOUT lg in
    (match r with
     | None => None
     | Some (Ok walked) => Some (Ok (extracted_kwallet wallet notes walked))
     | Some (Err e) => Some (Err (wallet_cli_error e))
     end, w, lg)
  end.
End wallet.

(** ** Opened for us, read, closed *)

Section closing.
Context `{HP : Prims} `{JT : JsonText} `{KW : KWalletd} `{WT : WalletText}.

(** Requests before anything is opened. *)
Definition asks_only (q : wallet_request) : Prop :=
  match q with WProxy _ | WHasOwner | WWallets | WIsOpen _ | WSubscribe => True | _ => False end.

(** Waiting for the wallet. *)
Definition waits_only (q : wallet_request) : Prop := match q with WNext | WGrace _ => True | _ => False end.

Lemma find_wallet_run wallet lg r lg' : find_wallet wallet lg = (r, lg') ->
  exists new, lg' = new ++ lg /\ Forall asks_only new /\ (r = Ok tt -> wallet_name_is_usable wallet = true).
Proof.
  unfold find_wallet, service_is_running, bounded. destruct (wallet_name_is_usable wallet); cbn; [|intros [= <- <-]; by exists []].
  intros Eq. repeat (case_match; simplify_eq/=);
    first [ eexists [_]; split; [reflexivity|] | eexists [_; _]; split; [reflexivity|] | eexists [_; _; _]; split; [reflexivity|]
          | eexists [_; _; _; _]; split; [reflexivity|] ]; (split; [by repeat constructor|done]).
Qed.

Lemma request_open_run wallet lg r lg' : request_open wallet lg = (r, lg') ->
  match r with
  | Ok tid => lg' = WOpenAsync wallet :: WSubscribe :: WIsOpen wallet :: WProxy (lit "KWalletProxy::new") :: lg
              /\ kw_tid lg' = Answer tid /\ 0 <= tid
              /\ (has_display = true \/ kw_flag (WIsOpen wallet :: WProxy (lit "KWalletProxy::new") :: lg) = Answer true)
  | Err _ => exists new, lg' = new ++ lg /\ (Forall asks_only new \/
               exists l, new = WOpenAsync wallet :: WSubscribe :: WIsOpen wallet :: l /\ Forall asks_only l
                 /\ (has_display = true \/ kw_flag (WIsOpen wallet :: l ++ lg) = Answer true))
  end.
Proof.
  unfold request_open, bounded. cbn [fst snd]. destruct (kw_unit (WProxy _ :: lg)); cbn [fst snd]; [|intros [= <- <-]; exists [WProxy (lit "KWalletProxy::new")]; split; [done|left; by repeat constructor]..].
  destruct (kw_flag _) as [b| |] eqn:Ef; cbn [fst snd]; [|intros [= <- <-]; exists [WIsOpen wallet; WProxy (lit "KWalletProxy::new")]; split; [done|left; by repeat constructor]..].
  destruct (negb b && negb has_display) eqn:Ed.
  { intros [= <- <-]. exists [WIsOpen wallet; WProxy (lit "KWalletProxy::new")]. split; [done|left; by repeat constructor]. }
  assert (Hd : has_display = true \/ Answer b = Answer true) by (destruct b, has_display; auto).
  destruct (kw_unit (WSubscribe :: _)); cbn [fst snd].
  2, 3: intros [= <- <-]; exists [WSubscribe; WIsOpen wallet; WProxy (lit "KWalletProxy::new")]; split; [done|left; by repeat constructor].
  destruct (kw_tid _) as [tid| |] eqn:Et; cbn [fst snd].
  2, 3: intros [= <- <-]; exists [WOpenAsync wallet; WSubscribe; WIsOpen wallet; WProxy (lit "KWalletProxy::new")]; (split; [done|right]); exists [WProxy (lit "KWalletProxy::new")];
    (split; [done|]); (split; [by repeat constructor|cbn [app]; by rewrite Ef]).
  destruct (Z.ltb_spec tid 0); intros [= <- <-]; [|split_and!; done].
  exists [WOpenAsync wallet; WSubscribe; WIsOpen wallet; WProxy (lit "KWalletProxy::new")]; (split; [done|right]); exists [WProxy (lit "KWalletProxy::new")].
  split; [done|]. split; [by repeat constructor|cbn [app]; by rewrite Ef].
Qed.

Lemma await_opened_run rounds wallet timeout tid lg r lg' : await_opened rounds wallet timeout tid lg = (r, lg') ->
  (exists new, lg' = new ++ lg /\ Forall waits_only new)
  /\ match r with
     | Some (Ok h) => exists before, lg' = WNext :: before /\ lg `suffix_of` before /\ kw_signal lg' = SgOpened tid h /\ 0 <= h
     | Some (Err e) => forall before, lg' = WNext :: before -> kw_signal lg' <> SgExpired
     | None => True
     end.
Proof.
  revert lg. induction rounds as [|rounds IH]; intros lg; cbn [await_opened]; [intros [= <- <-]; split; [by exists []|done]|].
  assert (H1 : exists new, WNext :: lg = new ++ lg /\ Forall waits_only new) by (exists [WNext]; split; [done|by repeat constructor]).
  destruct (kw_signal (WNext :: lg)) as [| | |t h] eqn:Es; [intros [= <- <-]|intros [= <- <-]|intros [= <- <-]|].
  - split; [exists [WGrace tid; WNext]; split; [done|by repeat constructor]|done].
  - split; [done|]. intros before [= ->]. congruence.
  - split; [done|]. intros before [= ->]. congruence.
  - destruct (t =? tid) eqn:Et; cbn [negb].
    + apply Z.eqb_eq in Et as ->. destruct (Z.ltb_spec h 0); intros [= <- <-]; (split; [done|]); [intros before [= ->]; congruence|]. exists lg. auto.
    + intros Eq. apply IH in Eq as [(new & -> & Hn) Hr]. split; [exists (new ++ [WNext]); rewrite <- app_assoc; split; [done|]; apply Forall_app; split; [done|by repeat constructor]|].
      destruct r as [[h'|e]|]; [|done..]. destruct Hr as (before & Hb & Hs & ?). exists before. split; [done|]. split; [|done]. etrans; [|exact Hs]. by apply suffix_cons_r.
Qed.

Definition unread (lg : wlog) : Prop := forall h, WWalk h ∉ lg /\ WClose h ∉ lg.

Lemma unread_app new lg : unread new -> unread lg -> unread (new ++ lg).
Proof. intros H1 H2 h. destruct (H1 h), (H2 h). set_solver. Qed.

Lemma unread_quiet (P : wallet_request -> Prop) new : Forall P new -> (forall h, ~ P (WWalk h)) -> (forall h, ~ P (WClose h)) -> unread new.
Proof. rewrite Forall_forall. intros H H1 H2 h. split; intros Hi%H; [by apply (H1 h)|by apply (H2 h)]. Qed.

Lemma asks_unread new : Forall asks_only new -> unread new.
Proof. intros H. eapply unread_quiet; [exact H|by intros h []..]. Qed.

Lemma waits_unread new : Forall waits_only new -> unread new.
Proof. intros H. eapply unread_quiet; [exact H|by intros h []..]. Qed.

(** An opening that was asked for: once, after the signals were subscribed to,
    and only where the dialog it may raise can be seen. *)
Definition opens_rightly (wallet : str) (lg : wlog) : Prop :=
  (forall w, WOpenAsync w ∉ lg)
  \/ exists later before, lg = later ++ WOpenAsync wallet :: WSubscribe :: WIsOpen wallet :: before
       /\ (forall w, WOpenAsync w ∉ later ++ before)
       /\ (has_display = true \/ kw_flag (WIsOpen wallet :: before) = Answer true).

Lemma quiet_no_open (P : wallet_request -> Prop) new : Forall P new -> (forall w, ~ P (WOpenAsync w)) -> forall w, WOpenAsync w ∉ new.
Proof. rewrite Forall_forall. intros H H1 w Hi%H. by apply (H1 w). Qed.

(** What is left open, and what came of it. *)
Definition closed_after (wallet : str) (sidecar : Sidecar) (r : result Extraction WalletError) (lg : wlog) : Prop :=
  exists h tid before asked warn,
    lg = warn ++ WClose h :: WWalk h :: WNext :: before /\ unread before
    /\ WOpenAsync wallet :: asked `suffix_of` before /\ kw_tid (WOpenAsync wallet :: asked) = Answer tid
    /\ kw_signal (WNext :: before) = SgOpened tid h /\ 0 <= h
    /\ let walked := map_err OfWalk (walk (dbus_reader (WWalk h :: WNext :: before) h) wallet sidecar) in
       match close_note wallet h (kw_close (WClose h :: WWalk h :: WNext :: before)) with
       | None => warn = [] /\ r = walked
       | Some note => warn = [WWarn (lit "warning: " ++ note)]
                      /\ r = match walked with Ok x => Ok (add_note x note) | Err e => Err e end
       end.

(** Whatever the daemon answers: a wallet is opened at most once, subscribed to
    first; what is read is read through the handle the daemon gave to that very
    opening, and it is closed however the walk ends, or the failure is said. *)
Theorem wallet_closed_however rounds wallet sidecar timeout r lg : extract_wallet rounds wallet sidecar timeout [] = (Some r, lg) ->
  opens_rightly wallet lg /\ (unread lg /\ (exists e, r = Err e) \/ closed_after wallet sidecar r lg).
Proof.
  unfold extract_wallet. destruct (find_wallet wallet []) as [r1 lg1] eqn:E1. apply find_wallet_run in E1 as (n1 & -> & Hn1 & Hu). rewrite app_nil_r.
  assert (U1 : unread n1) by (by apply asks_unread). assert (O1 : forall w, WOpenAsync w ∉ n1) by (eapply quiet_no_open; [eassumption|by intros w []]).
  destruct r1 as [[]|e]; [|intros [= <- <-]; split; [by left|left; eauto]]. unfold open_wallet.
  destruct (request_open wallet n1) as [r2 lg2] eqn:E2. apply request_open_run in E2. destruct r2 as [tid|e].
  - destruct E2 as (Elg2 & Ht & Ht0 & Hd). destruct (await_opened rounds wallet timeout tid lg2) as [r3 lg3] eqn:E3.
    apply await_opened_run in E3 as [(n3 & Elg3 & Hn3) H3]. assert (U3 : unread n3) by (by apply waits_unread).
    assert (O3 : forall w, WOpenAsync w ∉ n3) by (eapply quiet_no_open; [eassumption|by intros w []]). assert (U2 : unread lg2) by (intros h; rewrite Elg2; destruct (U1 h); set_solver).
    assert (Ho : forall extra, (forall w, WOpenAsync w ∉ extra) -> opens_rightly wallet (extra ++ lg3)).
    { intros extra Hx. right. exists (extra ++ n3), (WProxy (lit "KWalletProxy::new") :: n1). rewrite Elg3, Elg2, <- app_assoc. split; [done|]. split; [|done].
      intros w. specialize (Hx w). specialize (O3 w). specialize (O1 w). set_solver. }
    destruct r3 as [[h|e]|]; [| |done].
    + destruct H3 as (before & Eb & Hs & Hsig & Hh). unfold walk_and_close. cbn zeta.
      set (note := close_note wallet h _). set (walked := map_err OfWalk _).
      intros Eq. assert (Ub : unread before) by (intros h'; destruct (unread_app _ _ U3 U2 h') as [Ha Hb]; rewrite <- Elg3, Eb in Ha, Hb; set_solver).
      assert (Hc : exists warn, lg = warn ++ WClose h :: WWalk h :: lg3 /\ (forall w, WOpenAsync w ∉ warn) /\ match note with
                   | None => warn = [] /\ r = walked
                   | Some note => warn = [WWarn (lit "warning: " ++ note)] /\ r = match walked with Ok x => Ok (add_note x note) | Err e => Err e end end).
      { destruct note as [nt|]; injection Eq as <- <-; [exists [WWarn (lit "warning: " ++ nt)]|exists []]; (split; [done|]); (split; [set_solver|done]). }
      destruct Hc as (warn & -> & Hwn & Hc). split.
      { change (warn ++ WClose h :: WWalk h :: lg3) with (warn ++ [WClose h; WWalk h] ++ lg3). rewrite app_assoc. apply Ho. intros w. specialize (Hwn w). set_solver. }
      right. exists h, tid, before, (WSubscribe :: WIsOpen wallet :: WProxy (lit "KWalletProxy::new") :: n1), warn. unfold walked, note in Hc. rewrite Eb in Hc, Hsig |- *.
      split; [done|]. split; [done|]. split; [by rewrite <- Elg2|]. split; [by rewrite <- Elg2|]. done.
    + intros [= <- <-]. split; [apply (Ho []); set_solver|left]. split; [rewrite Elg3; by apply unread_app|eauto].
  - destruct E2 as (new & -> & Hn). intros [= <- <-]. destruct Hn as [Hn|(l & -> & Hl & Hd)].
    + assert (forall w, WOpenAsync w ∉ new) by (eapply quiet_no_open; [eassumption|by intros w []]). split; [left; set_solver|left; split; [apply unread_app; [by apply asks_unread|done]|eauto]].
    + assert (O2 : forall w, WOpenAsync w ∉ l) by (eapply quiet_no_open; [eassumption|by intros w []]). split.
      * right. exists [], (l ++ n1). split; [done|]. split; [|done]. intros w. specialize (O2 w). specialize (O1 w). set_solver.
      * left. split; [|eauto]. apply unread_app; [|done]. intros h. destruct (asks_unread _ Hl h). set_solver.
Qed.
End closing.

(** ** The wait, and the task after it *)

Section waiting.
Context `{HP : Prims} `{JT : JsonText} `{KW : KWalletd} `{WT : WalletText}.

Lemma await_opened_ends n rounds wallet timeout tid lg : (forall lg, (n <= length lg)%nat -> forall t h, kw_signal lg <> SgOpened t h) ->
  (0 < rounds)%nat -> (n <= rounds + length lg)%nat -> is_Some (await_opened rounds wallet timeout tid lg).1.
Proof.
  intros Hn. revert lg. induction rounds as [|rounds IH]; intros lg Hr Hle; [lia|]. cbn [await_opened].
  destruct (kw_signal (WNext :: lg)) as [| | |t h] eqn:Es; [done..|]. destruct (t =? tid); cbn [negb]; [by case_match|].
  assert (S (length lg) < n)%nat.
  { destruct (decide (n <= S (length lg))%nat) as [Hd|]; [|lia]. by destruct (Hn (WNext :: lg) Hd t h). }
  apply IH; [lia|cbn [length]; lia].
Qed.

(** If the daemon sends finitely many signals the import ends: every other wait
    has a time limit. *)
Theorem extract_wallet_ends n wallet sidecar timeout lg : (forall lg, (n <= length lg)%nat -> forall t h, kw_signal lg <> SgOpened t h) ->
  is_Some (extract_wallet (S n) wallet sidecar timeout lg).1.
Proof.
  intros Hn. unfold extract_wallet, open_wallet. destruct (find_wallet wallet lg) as [[[]|e] lg1]; [|done].
  destruct (request_open wallet lg1) as [[tid|e] lg2]; [|done].
  destruct (await_opened_ends n (S n) wallet timeout tid lg2 Hn ltac:(lia) ltac:(lia)) as [r Hr]. destruct (await_opened _ _ _ _ lg2) as [r' lg3]. cbn in Hr. subst r'.
  destruct r as [h|e]; [|done]. by destruct (walk_and_close wallet sidecar h lg3).
Qed.

(** A signal that is not for this transaction. *)
Definition foreign (tid : Z) (s : opened_signal) : Prop :=
  match s with SgMalformed _ => True | SgOpened t _ => t <> tid | _ => False end.

(** The task closes a late handle exactly when it hears of one for its own
    transaction in time, and never another's. *)
Theorem open_grace_exact tid signals h : open_grace tid signals = Some h <->
  exists others later, signals = others ++ SgOpened tid h :: later /\ Forall (foreign tid) others /\ 0 <= h.
Proof.
  split.
  - induction signals as [|[| | |t h'] signals IH]; cbn; try done.
    + intros (others & later & -> & Ho & Hh)%IH. exists (SgMalformed e :: others), later. split; [done|]. split; [by constructor|done].
    + destruct (Z.eqb_spec t tid) as [->|Ht]; cbn.
      * destruct (Z.leb_spec 0 h'); intros [= <-]. by exists [], signals.
      * intros (others & later & -> & Ho & Hh)%IH. exists (SgOpened t h' :: others), later. split; [done|]. split; [by constructor|done].
  - intros (others & later & -> & Ho & Hh). induction Ho as [|[| | |t h'] others Hf _ IH]; cbn; try done.
    + rewrite Z.eqb_refl. cbn. destruct (Z.leb_spec 0 h); [done|lia].
    + destruct (Z.eqb_spec t tid); [done|exact IH].
Qed.

(** The task is there whenever the wait itself ran out. *)
Lemma expired_leaves_task rounds wallet timeout tid lg before : kw_signal (WNext :: before) = SgExpired ->
  (await_opened rounds wallet timeout tid lg).2 <> WNext :: before \/ (await_opened rounds wallet timeout tid lg).1 = None.
Proof.
  intros Hs. destruct (await_opened rounds wallet timeout tid lg) as [r lg'] eqn:Eq. apply await_opened_run in Eq as [_ Hr]. cbn.
  destruct r as [[h|e]|]; [left|left|by right]; intros ->; [destruct Hr as (b & _ & _ & Hsig & _); congruence|by apply (Hr before)].
Qed.
End waiting.

(** ** Where a wallet may stay open, and what is printed *)

Definition wallet_daemon (tid : reply Z) (close : reply Z) : KWalletd := {|
  kw_var _ := Some (lit ":0"); kw_session := None; kw_unit _ := Answer tt; kw_flag _ := Answer true; kw_wallets _ := Answer [lit "kdewallet"];
  kw_tid _ := tid; kw_signal _ := SgOpened 7 3; kw_close _ := close; kw_folder_list _ _ := Answer []; kw_entry_list _ _ _ _ := Answer [];
  kw_entry_type _ _ _ _ := Silent; kw_read_password _ _ _ _ := Silent; kw_read_map _ _ _ _ := Silent; kw_read_entry _ _ _ _ := Silent |}.

(** The stream is handed to the task only when the wait for the signal expires.
    When the reply to [openAsync] itself is late, the transaction may be running
    just the same, and nobody hears it end. *)
Theorem late_reply_unheard (HP : Prims) (JT : JsonText) : exists KW : KWalletd, forall rounds timeout,
  let '(r, lg) := extract_wallet rounds (lit "kdewallet") sidecar_empty timeout [] in
  r = Some (Err (BusCallTimedOut (lit "openAsync"))) /\ WOpenAsync (lit "kdewallet") ∈ lg /\ forall tid, WGrace tid ∉ lg.
Proof.
  exists (wallet_daemon Silent (Answer 0)). intros rounds timeout. vm_compute. split; [done|]. split; [left|]. intros tid Hg.
  by repeat (apply elem_of_cons in Hg as [?|Hg]; [done|]); apply not_elem_of_nil in Hg.
Qed.

(** The warning that a wallet could not be closed prints the daemon's error as it
    came. *)
Theorem close_warning_unescaped (HP : Prims) (JT : JsonText) : exists KW : KWalletd, forall timeout,
  exists line, WWarn line ∈ (extract_wallet 1 (lit "kdewallet") sidecar_empty timeout []).2 /\ escape_control line <> line.
Proof.
  exists (wallet_daemon (Answer 7) (Fails {| bf_name := None; bf_text := [27; 91; 50; 74] |})). intros timeout.
  eexists. split; [vm_compute; left|]. vm_compute. discriminate.
Qed.

Example wallet_run : exists x : Extraction,
  @extract_wallet sample_prims sample_json (wallet_daemon (Answer 7) (Answer 0)) 1 (lit "kdewallet") sidecar_empty 120 []
  = (Some (Ok x), [WClose 3; WWalk 3; WNext; WOpenAsync (lit "kdewallet"); WSubscribe; WIsOpen (lit "kdewallet"); WProxy (lit "KWalletProxy::new");
                   WWallets; WProxy (lit "KWalletProxy::new"); WHasOwner; WProxy (lit "DBusProxy::new")]).
Proof. eexists. vm_compute. reflexivity. Qed.
